(* ===== verification/_CoqProject ===== *)
-Q . S2P
Prelude.v
Varint.v
Unicode.v
IntConv.v
ToAscii.v
Conv.v
EvictingCacheMap.v
ProducerConsumerQueue.v
FutureCore.v
FutureLogic.v
FutureInvariant.v
FutureCoreSpec.v
Promise.v
JsonEscape.v
JsonParse.v
Json.v
Sse.v
Base64.v
Base64Simd.v
Base64Api.v
F14Mask.v
F14Chunk.v
F14Table.v
F14Packed.v
F14Probe.v
F14Inv.v
F14Find.v
F14Update.v
F14Rehash.v
F14Reserve.v
F14Clear.v
F14Visit.v
F14Spec.v
F14Copy.v
F14CopySpec.v
F14CopyRehash.v
FBStringCore.v
FBStringInv.v
FBStringCoreSpec.v
FBStringRoom.v
FBStringSize.v
FBString.v
FBStringSpec.v
FBStringEdit.v
FBStringReplace.v
FBStringNew.v
FBStringWorld.v
FBStringSim.v
FBStringRefine.v
FBStringReserve.v
FBStringLimits.v
FBStringExample.v
FBStringFind.v
StringEscape.v
StringAscii.v
StringDump.v
