(* ===== verification/Prelude.v ===== *)
(** * Folly: a verification development

    This library models parts of folly, a collection of C++ components, as functions and step
    relations of Rocq, and proves what makes them correct.  Definitions keep the names of the
    source; each file says which functions of [src/folly] it translates.

    ** Conventions

    An integer of the source is a [Z]; wrap-around is written out with [u8], [u32], [u64], [i64]
    and the like, and [is_uint w], [is_sint w] say that a value has a type.  A byte string is a
    [list Z].  Code that can throw or return an error has a [result], [Ok] or [Err].  [option] is
    kept for what C++ leaves undefined or never reaches (an access out of bounds, a dangling
    pointer, a failed [CHECK]) and for a loop that is given too little fuel; the theorems show that
    [None] does not occur.  State is threaded with the monad [M] of this file, or, where threads
    interleave, is the memory of a step relation.

    The vector instructions are functions on lists of bytes, as the instruction set documents them
    ([Sse]).  Code that is not in [src] (the double-conversion library, the operating system,
    callbacks and executors of clients, hashers, allocators, [std::sort]) is a parameter or a choice
    left open at every step.  The machine is a 64-bit little-endian one on which [char] is signed.

    ** Components

    - This file: machine integers, bit operations, memory as a list of cells, results, the state
      monad, the automation for permutations and the databases [folly], [folly_res], [folly_bits].

    - [Varint] ([Varint.h]): the base-128 encoding, its size, the decoder with its unrolled fast
      path and its loop, zig-zag.  Encoding and decoding are inverse; the decoder agrees with a
      reference on every input, errors included; encoding writes as many bytes as announced.

    - [Unicode] ([Unicode.h], [Unicode.cpp]): UTF-16 surrogates, UTF-8 encoding and decoding.
      The strict decoder accepts exactly the encodings of scalar values; the lenient one replaces
      the others by U+FFFD.

    - [IntConv], [ToAscii], [Conv] ([Traits.h], [lang/ToAscii.h], [Conv.h], [Conv.cpp]): checked
      conversions between integral types, digits written with tables and counted in four ways, text
      to integers and booleans, 64 and 128-bit integers to text.  Each agrees with a reference, with
      the right error code, and integers survive the trip through text.

    - [EvictingCacheMap] ([container/EvictingCacheMap.h]): the LRU cache, over interfaces (type
      classes with laws) for the hash table and the intrusive list it is built of.  Its operations
      refine a recency-ordered list; capacity, eviction order and the hook calls follow.

    - [ProducerConsumerQueue] ([ProducerConsumerQueue.h]): the ring buffer with one producer and one
      consumer, each access to shared memory a step.  In every interleaving the consumer reads what
      the producer wrote, in order, nothing is lost or destroyed twice, and the answers of the
      observers are right within the bounds the documentation gives.

    - [FutureCore], [FutureLogic], [FutureInvariant], [FutureCoreSpec], [Promise]
      ([futures/detail/Core.h], [futures/detail/Core.cpp], [futures/Promise-inl.h] and the part of
      [futures/Future-inl.h] that uses the core): the state shared by a promise and a future, its
      state machine, its two reference counts, proxies, deferred executors, and any number of
      threads.  [FutureCore] has the code as programs of atomic accesses, [FutureLogic] a linear
      resource logic for them, [FutureInvariant] the tokens and the invariant, [FutureCoreSpec] the
      specification of each function, [Promise] the contract of a producer, a consumer and executors:
      nothing undefined happens, the callback runs at most once, the states change only along the
      documented machine, and when all threads are done the callback has run or its refusal was
      reported and all memory is freed.

    - [JsonEscape], [JsonParse], [Json] ([json/json.cpp], [json/json.h], parts of [json/dynamic.cpp]
      and [lang/Bits.h]): JSON text.  [JsonEscape] has [escapeString], which searches eight bytes at
      a time, and proves it equal to a character by character reference under all options.
      [JsonParse] has [dynamic] values and the parser, and proves that it always ends, with values
      that are well formed and no deeper than the recursion limit.  [Json] has the printer and
      [stripComments], and proves that strings read back as they were printed, and values up to the order
      of the items of objects, which the hash map of an object does not promise.

    - [Sse]: the SSE instructions that [Base64Simd] and [F14Chunk] use.

    - [Base64], [Base64Simd], [Base64Api] ([base64.h], [detail/base64_detail]): Base64 with both
      alphabets.  [Base64] has the scalar and the SWAR code (table lookups combined in a word) and
      defines Base64 on numbers; [Base64Simd] has the vector loops over a platform (a type class with
      laws) and the SSE4.2 platform; [Base64Api] the choice of an implementation and the functions on
      strings.  All implementations decode exactly the valid texts, to the right bytes, inside
      buffers of exactly the computed size, and decoding inverts encoding.

    - [F14Mask], [F14Chunk], [F14Table], [F14Packed], [F14Copy] ([container/detail/F14Mask.h],
      [container/detail/F14Table.h]): the F14 hash table: bit masks of slots, chunks with their tags
      searched by vector instructions, the table with its probe sequences, overflow counts, packed
      size and first iterator, and copies.  A policy (a type class with laws) gives the items, keys,
      hash and limits; allocations and constructors may fail.  [F14Probe] shows that the probe
      loops keep the overflow counts, [F14Inv] has the invariant of a table, and [F14Find],
      [F14Update], [F14Rehash], [F14Reserve], [F14Clear] and [F14Visit] show what the operations do to
      it; [F14Spec] concludes that any sequence of operations is defined and answers as a finite map,
      that the traversals agree, when reserving succeeds, and for which demands its arithmetic wraps.
      Items have an alignment of at most sixteen bytes.  [F14Packed] shows that the packed form
      of an iterator is faithful and ordered.  [F14CopySpec] and [F14CopyRehash] show that a copy has
      the items of its source, or is empty if an item could not be copied, and when it is a valid
      table; a theorem exhibits a valid table whose copy loses a key.

    - [FBStringCore], [FBString], [FBStringFind] ([FBString.h], parts of [memory/Malloc.h] and
      [lang/CheckedMath.h]): strings.  [FBStringCore] has [fbstring_core]: the object as its 24 bytes,
      which are the characters of a short string or refer to a block of the heap, the reference
      counts of blocks that copies share, and growing and shrinking with allocations that may fail.
      [FBString] has the constructors, assignments and modifiers of [basic_fbstring], with sources
      that may point into the string itself, and [FBStringFind] the searches and comparisons.  The
      allocator is a type class with laws.  [FBStringInv] says when an object represents a text and
      what a call leaves alone; [FBStringCoreSpec], [FBStringRoom], [FBStringSize], [FBStringSpec],
      [FBStringEdit], [FBStringReplace] and [FBStringNew] show what each function does to the text, and
      that an exception changes nothing or leaves a text that is stated.  [FBStringWorld] has programs of calls on any
      number of strings and their specification on texts, and [FBStringSim] and [FBStringRefine] show
      that programs refine it, without undefined behaviour and without a block left behind.
      Exceptions carry the request that was refused or the size that does not fit.
      [FBStringReserve] shows what [reserve] guarantees and when calls cannot throw.
      [FBStringLimits] shows what calls outside of the specification do: stores through [data()] show
      in the copies, insertion of characters of the string itself inserts others, and sizes that wrap
      are not noticed.  [FBStringExample] has an allocator that obeys the laws, and a program.

    - [StringEscape], [StringAscii], [StringDump] ([String.h], [String-inl.h], [String.cpp]): utilities
      for texts.  [StringEscape] has C escapes, URI escapes, hexadecimal and the display forms:
      unescaping undoes escaping and ends on every text; URI escapes are those of RFC 3986, and
      unescaping them fails on exactly the texts that are malformed; display forms are printable and can be read back.  [StringAscii] has the conversion
      to lower case, eight characters at a time where the address allows it, and proves it equal to
      the conversion of single characters.  [StringDump] has hexadecimal dumps, and shows that they
      have every byte.

    ** Fuel

    A loop of the source that is not structural in the model takes a number of iterations as
    argument.  The bound is given where the function is called: the width of the integer (Varint,
    [ToAscii], [findFirstSet]), the number of bytes of the text (JSON strings and values, which
    consume a byte at each call or round), the nesting of the value (the JSON printer), the number of
    entries (the cache) or of records (the queue), the length of the text (the vector loops), the
    number of chunks (F14 probes, which visit each chunk once) and of slots (F14 iteration), and the
    length of the text and of the needle ([find] of strings, and the escapes and dumps, whose every
    round moves on).  The
    theorems are about these calls and include that the bound is enough.  The futures have no fuel:
    their threads take steps, and the liveness theorem is about the configurations in which no step
    is left.

    ** Not modelled

    Memory orderings weaker than sequential consistency; exceptions thrown by allocation and by the
    copy of user types, except in F14 tables and [basic_fbstring]; floating point arithmetic; the front ends of
    F14 tables, their vector policy and their prefetching; strings of wide characters, strings shared
    between threads, and the overloads of [basic_fbstring] for iterators, views and streams; splitting,
    joining and formatting of strings; the interrupts of futures; [parseJson]'s optional table of line
    numbers and the descriptions in print errors.  The components of folly that do not
    appear above are not modelled: most are templates over user types, wrap system calls or other
    libraries, or are tied to a processor or a compiler. *)
From stdpp Require Export base list gmap strings sorting relations.
From Stdlib Require Export ZArith Lia.
#[global] Open Scope Z_scope.

Declare Scope folly_scope.
Delimit Scope folly_scope with folly.
#[global] Open Scope folly_scope.

Create HintDb folly.
Create Rewrite HintDb folly_res.
Create Rewrite HintDb folly_bits.

(** ** Machine integers *)

(** Conversion to an unsigned integer of [w] bits: reduction modulo [2 ^ w]. *)
Definition wrap (w z : Z) : Z := z mod 2 ^ w.

(** Conversion to a signed two's complement integer of [w] bits. *)
Definition swrap (w z : Z) : Z :=
  let m := z mod 2 ^ w in if m <? 2 ^ (w - 1) then m else m - 2 ^ w.

Abbreviation u8 := (wrap 8).
Abbreviation u16 := (wrap 16).
Abbreviation u32 := (wrap 32).
Abbreviation u64 := (wrap 64).
Abbreviation i8 := (swrap 8).
Abbreviation i32 := (swrap 32).
Abbreviation i64 := (swrap 64).

(** The values of an unsigned and of a signed integer type of [w] bits. *)
Definition is_uint (w z : Z) : Prop := 0 <= z < 2 ^ w.
Definition is_sint (w z : Z) : Prop := - 2 ^ (w - 1) <= z < 2 ^ (w - 1).

Abbreviation is_byte := (is_uint 8).
Abbreviation is_u32 := (is_uint 32).
Abbreviation is_u64 := (is_uint 64).
Abbreviation is_i64 := (is_sint 64).

Notation "a '.&' b" := (Z.land a b) (at level 54, left associativity) : folly_scope.
Notation "a '.|' b" := (Z.lor a b) (at level 58, left associativity) : folly_scope.
Notation "a '.^' b" := (Z.lxor a b) (at level 56, left associativity) : folly_scope.
Notation "a '.<<' n" := (Z.shiftl a n) (at level 52, left associativity) : folly_scope.
Notation "a '.>>' n" := (Z.shiftr a n) (at level 52, left associativity) : folly_scope.

Lemma wrap_range w z : 0 <= w -> is_uint w (wrap w z).
Proof. intros Hw. unfold is_uint, wrap. apply Z.mod_pos_bound. lia. Qed.

Lemma wrap_small w z : is_uint w z -> wrap w z = z.
Proof. unfold is_uint, wrap. intros. by apply Z.mod_small. Qed.

Lemma swrap_range w z : 1 <= w -> is_sint w (swrap w z).
Proof.
  intros Hw. unfold is_sint, swrap.
  assert (2 ^ w = 2 * 2 ^ (w - 1)) as Hp
    by (rewrite <- Z.pow_succ_r by lia; f_equal; lia).
  pose proof (Z.mod_pos_bound z (2 ^ w)).
  destruct (Z.ltb_spec (z mod 2 ^ w) (2 ^ (w - 1))); lia.
Qed.

Lemma swrap_small w z : 1 <= w -> is_sint w z -> swrap w z = z.
Proof.
  intros Hw. unfold is_sint, swrap. intros Hz.
  assert (2 ^ w = 2 * 2 ^ (w - 1)) as Hp
    by (rewrite <- Z.pow_succ_r by lia; f_equal; lia).
  destruct (decide (0 <= z)).
  - rewrite Z.mod_small by lia. destruct (Z.ltb_spec z (2 ^ (w - 1))); lia.
  - rewrite <- (Z.mod_add z 1) by lia. rewrite Z.mod_small by lia.
    destruct (Z.ltb_spec (z + 1 * 2 ^ w) (2 ^ (w - 1))); lia.
Qed.

Lemma wrap_swrap w z : 0 <= w -> wrap w (swrap w z) = wrap w z.
Proof.
  intros Hw. unfold wrap, swrap. destruct (_ <? _).
  - apply Z.mod_mod. lia.
  - rewrite <- (Z.mod_add (_ - _) 1) by lia.
    replace (z mod 2 ^ w - 2 ^ w + 1 * 2 ^ w) with (z mod 2 ^ w) by lia.
    apply Z.mod_mod. lia.
Qed.

Lemma swrap_wrap w z : 0 <= w -> swrap w (wrap w z) = swrap w z.
Proof. intros Hw. unfold swrap, wrap. by rewrite Z.mod_mod by lia. Qed.

(** ** Bit operations as arithmetic *)

Lemma land_ones_mod z k m : 0 <= k -> m = 2 ^ k - 1 -> z .& m = z mod 2 ^ k.
Proof. intros Hk ->. rewrite <- Z.land_ones by lia. f_equal. rewrite Z.ones_equiv. lia. Qed.

Lemma shiftr_div z k : 0 <= k -> z .>> k = z / 2 ^ k.
Proof. apply Z.shiftr_div_pow2. Qed.

Lemma shiftl_mul z k : 0 <= k -> z .<< k = z * 2 ^ k.
Proof. apply Z.shiftl_mul_pow2. Qed.

Lemma testbit_high z w i : is_uint w z -> 0 <= w <= i -> Z.testbit z i = false.
Proof.
  unfold is_uint. intros Hz Hi. rewrite <- (Z.mod_small z (2 ^ w)) by lia.
  apply Z.mod_pow2_bits_high. lia.
Qed.

(** A disjunction of a [k]-bit value and of a multiple of [2 ^ k] is a sum. *)
Lemma lor_disjoint a b k :
  0 <= k -> is_uint k a -> a .| (b * 2 ^ k) = a + b * 2 ^ k.
Proof.
  intros Hk Ha. symmetry. rewrite Z.add_nocarry_lxor; [apply Z.lxor_lor|].
  all: apply Z.bits_inj'; intros i Hi; rewrite Z.land_spec, Z.bits_0.
  all: rewrite <- Z.shiftl_mul_pow2 by lia; destruct (decide (i < k)).
  all: try (rewrite (Z.shiftl_spec_low b) by lia; by rewrite andb_false_r).
  all: rewrite (testbit_high a k) by (done || lia); done.
Qed.

Lemma lor_disjoint_r a b k :
  0 <= k -> is_uint k a -> (b * 2 ^ k) .| a = b * 2 ^ k + a.
Proof. intros. rewrite Z.lor_comm, lor_disjoint by done. lia. Qed.

Lemma lor_uint w a b : 0 <= w -> is_uint w a -> is_uint w b -> is_uint w (a .| b).
Proof.
  unfold is_uint. intros Hw Ha Hb. rewrite <- (Z.mod_small a (2 ^ w)), <- (Z.mod_small b (2 ^ w)) by done.
  rewrite <- !Z.land_ones, <- Z.land_lor_distr_l, Z.land_ones by done.
  apply Z.mod_pos_bound. lia.
Qed.

Lemma land_uint w a b : 0 <= w -> is_uint w b -> is_uint w (a .& b).
Proof.
  unfold is_uint. intros Hw Hb. rewrite <- (Z.mod_small b (2 ^ w)) by done.
  rewrite <- Z.land_ones, Z.land_assoc, Z.land_ones by done.
  apply Z.mod_pos_bound. lia.
Qed.

(** ** Memory as a list of cells *)

(** [load m p] reads and [store m p v] overwrites cell [p]; [None] is an access
    outside the buffer, which the C++ code leaves undefined. *)
Definition load {A} (m : list A) (p : nat) : option A := m !! p.

Definition store {A} (m : list A) (p : nat) (v : A) : option (list A) :=
  if decide (p < length m)%nat then Some (<[p:=v]> m) else None.

Lemma store_in_bounds {A} (m : list A) p v :
  (p < length m)%nat -> store m p v = Some (<[p:=v]> m).
Proof. intros. unfold store. by rewrite decide_True. Qed.

(** Consecutive stores from [p] on, as a [memcpy] to [p] makes them. *)
Fixpoint write {A} (m : list A) (p : nat) (l : list A) : option (list A) :=
  match l with
  | [] => Some m
  | v :: l => m ← store m p v; write m (S p) l
  end.

Lemma write_in_bounds {A} (m : list A) p l :
  (p + length l <= length m)%nat ->
  write m p l = Some (take p m ++ l ++ drop (p + length l) m).
Proof.
  revert m p. induction l as [|v l IH]; intros m p Hl; cbn [write length].
  - by rewrite Nat.add_0_r, app_nil_l, take_drop.
  - cbn [length] in Hl. rewrite store_in_bounds by lia. cbn.
    rewrite IH by (rewrite length_insert; lia). f_equal.
    rewrite (take_S_r _ p v) by (rewrite list_lookup_insert_eq; [done|lia]).
    rewrite take_insert_ge, drop_insert_lt, <- app_assoc by lia.
    by rewrite Nat.add_succ_r.
Qed.

(** ** Results of code that can throw or return an error *)

Inductive result (E A : Type) : Type :=
| Ok (a : A)
| Err (e : E).
Arguments Ok {E A} _.
Arguments Err {E A} _.

#[global] Instance result_ret {E} : MRet (result E) := fun A a => Ok a.
#[global] Instance result_bind {E} : MBind (result E) := fun A B f m =>
  match m with Ok a => f a | Err e => Err e end.

Lemma bind_ok {E A B} (f : A -> result E B) m b :
  m ≫= f = Ok b <-> exists a, m = Ok a /\ f a = Ok b.
Proof. split; [destruct m; cbn; naive_solver | by intros (a & -> & ?)]. Qed.
#[export] Hint Rewrite @bind_ok : folly_res.

(** ** Lists *)

Lemma filter_all {A} (P : A -> Prop) `{!forall x, Decision (P x)} (l : list A) :
  (forall x, x ∈ l -> P x) -> filter P l = l.
Proof.
  induction l as [|x l IH]; intros HP; [done|].
  rewrite filter_cons_True, IH; [done| |]; set_solver.
Qed.

Lemma filter_fmap {A B} (f : A -> B) (P : B -> Prop) `{!forall x, Decision (P x)} (l : list A) :
  filter P (f <$> l) = f <$> filter (fun x => P (f x)) l.
Proof.
  induction l as [|x l IH]; [done|]. rewrite fmap_cons, !filter_cons.
  destruct (decide (P (f x))); cbn; by rewrite IH.
Qed.

Lemma filter_ext_in {A} (P Q : A -> Prop) `{!forall x, Decision (P x), !forall x, Decision (Q x)}
    (l : list A) :
  (forall x, x ∈ l -> P x <-> Q x) -> filter P l = filter Q l.
Proof.
  induction l as [|x l IH]; intros HPQ; [done|].
  rewrite !filter_cons, IH by set_solver. specialize (HPQ x ltac:(set_solver)).
  repeat case_decide; tauto.
Qed.

(** *** Permutations of concatenations *)

Section Bring.
Context {A : Type}.
Implicit Types (h l r : list A).

Lemma bring_here h r : h ++ r ≡ₚ h ++ r.
Proof. done. Qed.

Lemma bring_end h : h ≡ₚ h ++ [].
Proof. by rewrite app_nil_r. Qed.

Lemma bring_elem x r : x :: r ≡ₚ [x] ++ r.
Proof. done. Qed.

Lemma bring_app l r h r' : r ≡ₚ h ++ r' -> l ++ r ≡ₚ h ++ l ++ r'.
Proof. intros ->. by rewrite !app_assoc, (Permutation_app_comm l h). Qed.

Lemma bring_cons x r h r' : r ≡ₚ h ++ r' -> x :: r ≡ₚ h ++ x :: r'.
Proof. intros ->. by rewrite Permutation_middle. Qed.

Lemma cancel_front h l r r' : r ≡ₚ h ++ r' -> l ≡ₚ r' -> h ++ l ≡ₚ r.
Proof. by intros -> ->. Qed.

Lemma cancel_elem x l r r' : r ≡ₚ [x] ++ r' -> l ≡ₚ r' -> x :: l ≡ₚ r.
Proof. by intros -> ->. Qed.
End Bring.

Ltac bring :=
  first [ apply bring_here | apply bring_elem | apply bring_end
        | eapply bring_app; bring | eapply bring_cons; bring ].

(** Proves that two concatenations of the same lists and elements are permutations. *)
Ltac solve_perm :=
  rewrite <- ?app_assoc, ?app_nil_r, ?app_nil_l; cbn [app];
  lazymatch goal with
  | |- ?l ≡ₚ ?l => reflexivity
  | |- _ ++ _ ≡ₚ _ => eapply cancel_front; [bring|solve_perm]
  | |- _ :: _ ≡ₚ _ => eapply cancel_elem; [bring|solve_perm]
  | |- ?l ≡ₚ _ => rewrite <- (app_nil_r l); eapply cancel_front; [bring|solve_perm]
  end.

(** ** Invariants of step relations *)

Lemma rtc_invariant {S} (R : relation S) (I : S -> Prop) s s' :
  (forall x y, I x -> R x y -> I y) -> I s -> rtc R s s' -> I s'.
Proof. intros Hstep Hs. induction 1; eauto. Qed.

Lemma lxor_ones w a m : 0 <= w -> m = 2 ^ w - 1 -> is_uint w a -> a .^ m = 2 ^ w - 1 - a.
Proof.
  intros Hw -> Ha.
  assert (2 ^ w - 1 = Z.ones w) as -> by (rewrite Z.ones_equiv; lia).
  enough (a + (a .^ Z.ones w) = Z.ones w) by lia.
  rewrite Z.add_nocarry_lxor.
  - by rewrite <- Z.lxor_assoc, Z.lxor_nilpotent, Z.lxor_0_l.
  - apply Z.bits_inj'. intros i Hi. rewrite Z.land_spec, Z.lxor_spec, Z.bits_0.
    destruct (decide (i < w)).
    + rewrite Z.ones_spec_low by lia. by destruct (Z.testbit a i).
    + by rewrite (testbit_high a w) by (done || lia).
Qed.

(** ** Bytes read as [int8_t] *)

Lemma i8_byte b : is_byte b -> i8 b = if b <? 128 then b else b - 256.
Proof. unfold is_uint, swrap. intros Hb. by rewrite Z.mod_small by lia. Qed.

Lemma i8_land_ones b k m :
  is_byte b -> 0 <= k <= 8 -> m = 2 ^ k - 1 -> i8 b .& m = b mod 2 ^ k.
Proof.
  intros Hb Hk ->. rewrite (land_ones_mod _ k) by lia. rewrite i8_byte by done.
  destruct (b <? 128); [done|].
  replace 256 with (2 ^ (8 - k) * 2 ^ k) by (rewrite <- Z.pow_add_r by lia; by replace (8 - k + k) with 8 by lia).
  rewrite Zminus_mod, Z.mod_mul, Z.sub_0_r, Z.mod_mod by lia. done.
Qed.

(** A boolean property of bytes holds of all of them when it holds of the 256 values. *)
Lemma byte_forall (P : Z -> bool) b :
  forallb P (seqZ 0 256) = true -> is_byte b -> P b = true.
Proof.
  intros H Hb. rewrite forallb_forall in H. apply H.
  apply list_elem_of_In, elem_of_seqZ. unfold is_uint in Hb. lia.
Qed.

(** Clearing the low [k] bits of a [w]-bit value leaves zero exactly below [2 ^ k]. *)
Lemma land_lnot_ones w k d :
  0 <= k <= w -> is_uint w d -> (d .& wrap w (Z.lnot (2 ^ k - 1)) =? 0) = (d <? 2 ^ k).
Proof.
  intros Hk Hd.
  assert (d .& wrap w (Z.lnot (2 ^ k - 1)) = d / 2 ^ k * 2 ^ k) as ->.
  { rewrite <- Z.shiftr_div_pow2, <- Z.shiftl_mul_pow2 by lia.
    apply Z.bits_inj'. intros i Hi. rewrite Z.land_spec. unfold wrap.
    assert (2 ^ k - 1 = Z.ones k) as -> by (rewrite Z.ones_equiv; lia).
    destruct (decide (i < w)).
    - rewrite Z.mod_pow2_bits_low, Z.lnot_spec by lia. destruct (decide (i < k)).
      + rewrite Z.ones_spec_low, Z.shiftl_spec_low by lia. by rewrite andb_false_r.
      + rewrite Z.ones_spec_high, Z.shiftl_spec, Z.shiftr_spec by lia.
        rewrite andb_true_r. f_equal. lia.
    - rewrite (testbit_high d w), Z.shiftl_spec, Z.shiftr_spec by (done || lia).
      symmetry. apply (testbit_high d w); [done|lia]. }
  unfold is_uint in Hd. assert (0 < 2 ^ k) by lia.
  destruct (Z.ltb_spec d (2 ^ k)).
  - rewrite Z.div_small by lia. done.
  - apply Z.eqb_neq. pose proof (Z.div_str_pos d (2 ^ k)). nia.
Qed.

Fixpoint bytes_of (s : string) : list Z :=
  match s with
  | EmptyString => []
  | String a s => Z.of_N (Ascii.N_of_ascii a) :: bytes_of s
  end.

(** ** Bytes of a word *)

(** The value of a little-endian integer with these bytes. *)
Fixpoint le_word (l : list Z) : Z :=
  match l with [] => 0 | b :: l => b + 256 * le_word l end.

Definition byte_at (w : Z) (k : nat) : Z := w / 2 ^ (8 * Z.of_nat k) mod 256.

Lemma byte_at_byte w k : is_byte (byte_at w k).
Proof. unfold byte_at, is_uint. apply Z.mod_pos_bound. lia. Qed.

Lemma testbit_byte_at w k i : 0 <= i < 8 -> Z.testbit (byte_at w k) i = Z.testbit w (8 * Z.of_nat k + i).
Proof.
  intros Hi. unfold byte_at. change 256 with (2 ^ 8).
  rewrite Z.mod_pow2_bits_low, Z.div_pow2_bits by lia. f_equal. lia.
Qed.

Lemma testbit_7 b : is_byte b -> Z.testbit b 7 = (128 <=? b).
Proof.
  intros Hb. apply Bool.eqb_prop.
  apply (byte_forall (fun b => Bool.eqb (Z.testbit b 7) (128 <=? b))); [by vm_compute|done].
Qed.

Lemma byte_at_lxor w v k : byte_at (w .^ v) k = byte_at w k .^ byte_at v k.
Proof.
  apply Z.bits_inj'. intros i Hi. rewrite Z.lxor_spec. destruct (decide (i < 8)).
  - rewrite !testbit_byte_at, Z.lxor_spec by lia. done.
  - by rewrite !(testbit_high _ 8) by (apply byte_at_byte || lia).
Qed.

Lemma byte_at_lor w v k : byte_at (w .| v) k = byte_at w k .| byte_at v k.
Proof.
  apply Z.bits_inj'. intros i Hi. rewrite Z.lor_spec. destruct (decide (i < 8)).
  - rewrite !testbit_byte_at, Z.lor_spec by lia. done.
  - by rewrite !(testbit_high _ 8) by (apply byte_at_byte || lia).
Qed.

Lemma pow_8_S k : 2 ^ (8 * Z.of_nat (S k)) = 2 ^ (8 * Z.of_nat k) * 256.
Proof. rewrite <- (Z.pow_add_r 2 _ 8) by lia. f_equal. lia. Qed.

Lemma le_word_bound l : Forall is_byte l -> is_uint (8 * Z.of_nat (length l)) (le_word l).
Proof.
  induction 1 as [|b l Hb Hl IH]; [done|]. cbn [le_word length].
  unfold is_uint in *. rewrite pow_8_S. lia.
Qed.

Lemma byte_at_le_word l k : Forall is_byte l -> byte_at (le_word l) k = default 0 (l !! k).
Proof.
  intros Hl. revert k. induction Hl as [|b l Hb Hl IH]; intros k; cbn [le_word].
  - unfold byte_at. by rewrite Z.div_0_l by lia.
  - unfold is_uint in Hb. destruct k as [|k]; [|change ((b :: l) !! S k) with (l !! k)].
    + unfold byte_at. change (2 ^ (8 * Z.of_nat 0)) with 1. change (default 0 ((b :: l) !! 0%nat)) with b.
      rewrite Z.div_1_r, Z.mul_comm, Z.mod_add by lia. apply Z.mod_small. lia.
    + rewrite <- (IH k). unfold byte_at. rewrite pow_8_S, (Z.mul_comm _ 256), <- Z.div_div by lia.
      rewrite (Z.mul_comm 256), Z.div_add, (Z.div_small b) by lia. done.
Qed.

Lemma le_word_app l1 l2 : le_word (l1 ++ l2) = le_word l1 + 2 ^ (8 * Z.of_nat (length l1)) * le_word l2.
Proof.
  induction l1 as [|b l1 IH]; cbn [app le_word length].
  - change (2 ^ (8 * Z.of_nat 0)) with 1. lia.
  - rewrite IH, pow_8_S. lia.
Qed.

(** The four bytes of a [uint32_t] in memory. *)
Definition bytes32 (r : Z) : list Z := byte_at r <$> seq 0 4.

(** The eight bytes of a [uint64_t] in memory. *)
Definition bytes64 (r : Z) : list Z := byte_at r <$> seq 0 8.

Lemma length_bytes64 r : length (bytes64 r) = 8%nat.
Proof. done. Qed.

Lemma bytes64_bytes r : Forall is_byte (bytes64 r).
Proof. apply Forall_fmap, Forall_true. intros k. apply byte_at_byte. Qed.

Lemma le_word_inj l l' :
  Forall is_byte l -> Forall is_byte l' -> length l = length l' -> le_word l = le_word l' -> l = l'.
Proof.
  intros Hl Hl' Hlen E. apply list_eq_same_length with (length l'); [done|done|]. intros i x y Hi Hx Hy.
  pose proof (byte_at_le_word l i Hl) as H1. pose proof (byte_at_le_word l' i Hl') as H2.
  rewrite Hx in H1. rewrite Hy in H2. cbn in H1, H2. congruence.
Qed.

Lemma le_word_bytes64 r : is_u64 r -> le_word (bytes64 r) = r.
Proof.
  intros Hr. unfold is_uint in Hr. unfold bytes64, byte_at. cbn [seq fmap list_fmap le_word].
  repeat match goal with |- context [2 ^ (8 * Z.of_nat ?k)] =>
    let v := eval vm_compute in (2 ^ (8 * Z.of_nat k)) in change (2 ^ (8 * Z.of_nat k)) with v end.
  change (2 ^ 64) with 18446744073709551616 in Hr. Z.to_euclidean_division_equations. lia.
Qed.

Lemma bytes64_le_word l : Forall is_byte l -> length l = 8%nat -> bytes64 (le_word l) = l.
Proof.
  intros Hl Hlen. apply le_word_inj; [apply bytes64_bytes|done|done|]. apply le_word_bytes64.
  pose proof (le_word_bound l Hl) as Hb. by rewrite Hlen in Hb.
Qed.

(** ** Stateful code

    A computation takes the state and returns the new state with a value or an exception;
    [None] is undefined behaviour: a dangling dereference, an access out of bounds, a failed
    assertion. *)
Definition M (S E A : Type) : Type := S -> option (S * result E A).

#[global] Instance M_ret {S E} : MRet (M S E) := fun A a s => Some (s, Ok a).
#[global] Instance M_bind {S E} : MBind (M S E) := fun A B f m s =>
  match m s with
  | Some (s', Ok a) => f a s'
  | Some (s', Err e) => Some (s', Err e)
  | None => None
  end.

Definition get_state {S E} : M S E S := fun s => Some (s, Ok s).
Definition modify {S E} (f : S -> S) : M S E unit := fun s => Some (f s, Ok tt).
Definition throw {S E A} (e : E) : M S E A := fun s => Some (s, Err e).
Definition undefined {S E A} : M S E A := fun _ => None.

(** The value of a partial access to the state. *)
Definition access {S E A} (f : S -> option A) : M S E A := fun s =>
  match f s with Some a => Some (s, Ok a) | None => None end.

Lemma M_bind_unfold {S E A B} (m : M S E A) (f : A -> M S E B) s :
  (m ≫= f) s = match m s with
               | Some (s', Ok a) => f a s'
               | Some (s', Err e) => Some (s', Err e)
               | None => None
               end.
Proof. done. Qed.

(** Runs the computations of the goal one layer down. *)
Ltac run_M :=
  cbv beta delta [mbind M_bind mret M_ret get_state modify throw access undefined]; cbn -[Nat.ltb Nat.leb Nat.eqb Z.ltb Z.leb Z.eqb].
