(* ===== verification/Varint.v ===== *)
(** * Varint: the little-endian base-128 integer encoding of [folly/Varint.h].

    Buffers are lists of bytes (integers in [0, 256)).  [encodeVarint] threads the
    destination buffer and fails on a write outside of it; [tryDecodeVarint] returns the
    decoded value with the advanced range, or one of the two error codes.  The loops that
    the source bounds only by the width of the argument run on fuel. *)
From S2P Require Import Prelude.

Definition kMaxVarintLength32 : nat := 5.
Definition kMaxVarintLength64 : nat := 10.

Inductive DecodeVarintError := TooManyBytes | TooFewBytes.

#[global] Instance DecodeVarintError_eq_dec : EqDecision DecodeVarintError.
Proof. solve_decision. Defined.

(** [(uval << 1) ^ (val >> 63)] on 64-bit integers; [val >> 63] is arithmetic. *)
Definition encodeZigZag (val : Z) : Z :=
  let uval := u64 val in
  u64 (uval .<< 1) .^ u64 (val .>> 63).

(** [(val >> 1) ^ -(val & 1)], the negation being the one of [uint64_t]. *)
Definition decodeZigZag (val : Z) : Z :=
  i64 ((val .>> 1) .^ u64 (- (val .& 1))).

(** The [while] loop of [encodeVarint] and the store after it; [p] is the offset of the
    write pointer in [buf]. *)
Fixpoint encodeVarint_loop (fuel : nat) (val : Z) (buf : list Z) (p : nat)
    : option (list Z * nat) :=
  match fuel with
  | O => None
  | S fuel =>
      if 128 <=? val then
        buf' ← store buf p (u8 (0x80 .| (val .& 0x7f)));
        encodeVarint_loop fuel (val .>> 7) buf' (S p)
      else
        buf' ← store buf p (u8 val);
        Some (buf', S p)
  end.

Definition encodeVarint (val : Z) (buf : list Z) : option (list Z * nat) :=
  encodeVarint_loop kMaxVarintLength64 val buf 0.

(** [__builtin_clzll] on a non-zero argument. *)
Definition clzll (v : Z) : Z := 63 - Z.log2 v.

(** The loop of the portable branch of [encodeVarintSize]. *)
Fixpoint encodeVarintSize_loop (fuel : nat) (s val : Z) : option Z :=
  match fuel with
  | O => None
  | S fuel =>
      if 128 <=? val then encodeVarintSize_loop fuel (s + 1) (val .>> 7) else Some s
  end.

Definition encodeVarintSize (kIsArchAmd64 : bool) (val : Z) : option Z :=
  if kIsArchAmd64 then
    let highBit := 64 - clzll (val .| 1) in
    Some (Z.quot (highBit + 6) 7)
  else encodeVarintSize_loop kMaxVarintLength64 1 val.

(** One block [b = *p++; val |= (b & mask) << shift; if (b >= 0) break;] of the unrolled
    fast path per element of the list: its mask and its shift. *)
Definition fast_blocks : list (Z * Z) :=
  [(0x7f, 0); (0x7f, 7); (0x7f, 14); (0x7f, 21); (0x7f, 28);
   (0x7f, 35); (0x7f, 42); (0x7f, 49); (0x7f, 56); (0x01, 63)].

(** [None] is a read outside of the range. *)
Fixpoint decode_fast (blocks : list (Z * Z)) (data : list Z) (val : Z) (p : nat)
    : option (result DecodeVarintError (Z * nat)) :=
  match blocks with
  | [] => Some (Err TooManyBytes)
  | (mask, shift) :: blocks =>
      byte ← load data p;
      let b := i8 byte in
      let val := val .| u64 ((b .& mask) .<< shift) in
      if 0 <=? b then Some (Ok (val, S p)) else decode_fast blocks data val (S p)
  end.

(** The [while] loop of the slow path; [rest] is the range from [p] to [end]. *)
Fixpoint decode_slow (rest : list Z) (val shift : Z) (p : nat)
    : result DecodeVarintError (Z * nat) :=
  match rest with
  | [] => Err TooFewBytes
  | byte :: rest =>
      if i8 byte <? 0
      then decode_slow rest (val .| u64 ((i8 byte .& 0x7f) .<< shift)) (shift + 7) (S p)
      else Ok (val .| u64 (i8 byte .<< shift), S p)
  end.

(** The value and the range that is left, [data.uncheckedAdvance(p - begin)]. *)
Definition tryDecodeVarint (data : list Z) : option (result DecodeVarintError (Z * list Z)) :=
  r ← (if decide (kMaxVarintLength64 <= length data)%nat
       then decode_fast fast_blocks data 0 0
       else Some (decode_slow data 0 0 0));
  Some (match r with
        | Ok (val, p) => Ok (val, drop p data)
        | Err e => Err e
        end).

Inductive VarintException :=
| invalid_argument (message : string).

Definition decodeVarint (data : list Z) : option (result VarintException (Z * list Z)) :=
  expected ← tryDecodeVarint data;
  Some (match expected with
        | Err e =>
            Err (invalid_argument
                   (if decide (e = TooManyBytes)
                    then "Invalid varint value: too many bytes."
                    else "Invalid varint value: too few bytes."))
        | Ok v => Ok v
        end).

(** ** Reference definitions *)

(** A varint is a sequence of bytes with the top bit set, then one with it clear. *)
Fixpoint varint_shape (bs : list Z) : bool :=
  match bs with
  | [] => false
  | [b] => b <? 128
  | b :: bs => (128 <=? b) && varint_shape bs
  end.

(** The number the low seven bits of the bytes spell in base 128. *)
Fixpoint varint_value (bs : list Z) : Z :=
  match bs with
  | [] => 0
  | b :: bs => b mod 128 + 128 * varint_value bs
  end.

(** The number of bytes up to and including the first one with the top bit clear. *)
Fixpoint varint_length (bs : list Z) : option nat :=
  match bs with
  | [] => None
  | b :: bs => if b <? 128 then Some 1%nat else S <$> varint_length bs
  end.

(** What decoding a range means: the varint at its head, when it has one of at most ten
    bytes, read modulo [2 ^ 64]. *)
Definition varint_decode (data : list Z) : result DecodeVarintError (Z * list Z) :=
  match varint_length (take kMaxVarintLength64 data) with
  | Some n => Ok (u64 (varint_value (take n data)), drop n data)
  | None =>
      if decide (kMaxVarintLength64 <= length data)%nat then Err TooManyBytes else Err TooFewBytes
  end.

(** ** ZigZag *)

Lemma encodeZigZag_nonneg x : 0 <= x < 2 ^ 63 -> encodeZigZag x = 2 * x.
Proof.
  intros Hx. unfold encodeZigZag. rewrite (wrap_small 64 x) by (unfold is_uint; lia).
  rewrite shiftr_div, Z.div_small, shiftl_mul by lia.
  rewrite (wrap_small 64 0), Z.lxor_0_r by (unfold is_uint; lia).
  rewrite wrap_small by (unfold is_uint; lia). lia.
Qed.

Lemma encodeZigZag_neg x : - 2 ^ 63 <= x < 0 -> encodeZigZag x = - 2 * x - 1.
Proof.
  intros Hx. unfold encodeZigZag.
  replace (u64 x) with (x + 2 ^ 64)
    by (unfold wrap; rewrite <- (Z.mod_add x 1), Z.mod_small; lia).
  replace (x .>> 63) with (-1) by (rewrite shiftr_div by lia; Z.div_mod_to_equations; lia).
  rewrite shiftl_mul by lia.
  replace (u64 ((x + 2 ^ 64) * 2 ^ 1)) with (2 * x + 2 ^ 64)
    by (unfold wrap; Z.div_mod_to_equations; lia).
  rewrite (lxor_ones 64); [lia | lia | done | unfold is_uint; lia].
Qed.

Lemma decodeZigZag_even n : 0 <= n < 2 ^ 63 -> decodeZigZag (2 * n) = n.
Proof.
  intros Hn. unfold decodeZigZag.
  rewrite shiftr_div, (land_ones_mod _ 1) by lia.
  replace (2 * n / 2 ^ 1) with n by (Z.div_mod_to_equations; lia).
  replace (2 * n mod 2 ^ 1) with 0 by (Z.div_mod_to_equations; lia).
  rewrite (wrap_small 64 (-0)), Z.lxor_0_r by (unfold is_uint; lia).
  apply swrap_small; unfold is_sint; lia.
Qed.

Lemma decodeZigZag_odd n : 0 <= n < 2 ^ 63 -> decodeZigZag (2 * n + 1) = - n - 1.
Proof.
  intros Hn. unfold decodeZigZag.
  rewrite shiftr_div, (land_ones_mod _ 1) by lia.
  replace ((2 * n + 1) / 2 ^ 1) with n by (Z.div_mod_to_equations; lia).
  replace ((2 * n + 1) mod 2 ^ 1) with 1 by (Z.div_mod_to_equations; lia).
  rewrite (lxor_ones 64); [|lia|done|unfold is_uint; lia].
  replace (2 ^ 64 - 1 - n) with (u64 (- n - 1))
    by (unfold wrap; rewrite <- (Z.mod_add _ 1), Z.mod_small; lia).
  rewrite swrap_wrap, swrap_small; unfold is_sint; lia.
Qed.

(** ZigZag is the bijection between [int64_t] and [uint64_t] that its comment
    describes: [2 * x] on the non-negative values, [-2 * x - 1] on the negative ones, with
    [decodeZigZag] as its inverse on both sides. *)
Theorem zigzag_bijection :
  (forall x, is_i64 x ->
     encodeZigZag x = (if 0 <=? x then 2 * x else - 2 * x - 1) /\
     is_u64 (encodeZigZag x) /\ decodeZigZag (encodeZigZag x) = x) /\
  (forall v, is_u64 v -> is_i64 (decodeZigZag v) /\ encodeZigZag (decodeZigZag v) = v).
Proof.
  unfold is_sint, is_uint. split.
  - intros x Hx. destruct (Z.leb_spec 0 x).
    + rewrite encodeZigZag_nonneg, decodeZigZag_even by lia. lia.
    + rewrite encodeZigZag_neg by lia.
      assert (decodeZigZag (-2 * x - 1) = x).
      { replace (-2 * x - 1) with (2 * (- x - 1) + 1) by lia. rewrite decodeZigZag_odd; lia. }
      lia.
  - intros v Hv. pose proof (Z.div_mod v 2). pose proof (Z.mod_pos_bound v 2).
    assert (v = 2 * (v / 2) \/ v = 2 * (v / 2) + 1) as [-> | ->] by lia.
    + rewrite decodeZigZag_even, encodeZigZag_nonneg; lia.
    + rewrite decodeZigZag_odd, encodeZigZag_neg; lia.
Qed.

(** ** Decoding *)

Lemma varint_length_bounds bs n :
  varint_length bs = Some n -> (1 <= n <= length bs)%nat.
Proof.
  revert n. induction bs as [|b bs IH]; intros n; cbn; [done|].
  destruct (b <? 128); [intros [= <-]; lia|].
  destruct (varint_length bs) as [m|] eqn:E; [|done].
  intros [= <-]. specialize (IH m eq_refl). lia.
Qed.

Lemma varint_length_shape bs n :
  varint_length bs = Some n -> varint_shape (take n bs) = true.
Proof.
  revert n. induction bs as [|b bs IH]; intros n; cbn; [done|].
  destruct (Z.ltb_spec b 128) as [Hb|Hb]; [intros [= <-]; cbn; rewrite take_0; lia|].
  destruct (varint_length bs) as [m|] eqn:E; [|done].
  intros [= <-]. specialize (IH m eq_refl).
  pose proof (varint_length_bounds _ _ E). cbn.
  destruct (take m bs) eqn:Et; [done|].
  rewrite IH. destruct (Z.leb_spec 128 b); [done|lia].
Qed.

Lemma varint_shape_length bs rest :
  varint_shape bs = true -> varint_length (bs ++ rest) = Some (length bs).
Proof.
  induction bs as [|b bs IH]; [done|].
  destruct bs as [|b' bs]; cbn -[varint_length].
  - intros H. cbn. by rewrite H.
  - intros [Hb Hs]%andb_true_iff. cbn. destruct (Z.ltb_spec b 128); [lia|].
    cbn in IH. rewrite IH by done. done.
Qed.

Lemma varint_value_take_1 b rest : varint_value (take 1 (b :: rest)) = b mod 128.
Proof. cbn [take varint_value]. rewrite take_0. cbn -[Z.modulo]. lia. Qed.

Lemma varint_value_nonneg bs : 0 <= varint_value bs.
Proof.
  induction bs as [|b bs IH]; cbn -[Z.mul]; [lia|].
  pose proof (Z.mod_pos_bound b 128). lia.
Qed.

Lemma varint_value_bound bs : varint_value bs < 2 ^ (7 * Z.of_nat (length bs)).
Proof.
  induction bs as [|b bs IH]; cbn [varint_value length]; [done|].
  replace (7 * Z.of_nat (S (length bs))) with (7 + 7 * Z.of_nat (length bs)) by lia.
  rewrite Z.pow_add_r by lia. pose proof (Z.mod_pos_bound b 128). lia.
Qed.

(** The byte tests and masks of the decoder, in terms of the unsigned byte. *)
Lemma i8_neg b : is_byte b -> (i8 b <? 0) = negb (b <? 128).
Proof. intros Hb. rewrite i8_byte by done. unfold is_uint in Hb. destruct (Z.ltb_spec b 128); lia. Qed.

Lemma i8_nonneg b : is_byte b -> (0 <=? i8 b) = (b <? 128).
Proof. intros Hb. rewrite i8_byte by done. unfold is_uint in Hb. destruct (Z.ltb_spec b 128); lia. Qed.

(** Accumulating seven more bits above the [shift] bits read so far. *)
Lemma accumulate_7 val b shift :
  0 <= shift <= 56 -> is_uint shift val -> is_byte b ->
  val .| u64 ((i8 b .& 0x7f) .<< shift) = val + b mod 128 * 2 ^ shift /\
  is_uint (shift + 7) (val + b mod 128 * 2 ^ shift).
Proof.
  intros Hs Hv Hb. rewrite (i8_land_ones _ 7) by (done || lia). change (2 ^ 7) with 128.
  assert (is_uint (shift + 7) (val + b mod 128 * 2 ^ shift)) as Hr.
  { unfold is_uint in *. rewrite Z.pow_add_r by lia.
    pose proof (Z.mod_pos_bound b 128). nia. }
  split; [|done]. rewrite shiftl_mul by lia. rewrite wrap_small.
  - by apply lor_disjoint; [lia|].
  - unfold is_uint in *. pose proof (Z.mod_pos_bound b 128).
    assert (2 ^ (shift + 7) <= 2 ^ 64) by (apply Z.pow_le_mono_r; lia). nia.
Qed.

Lemma decode_slow_spec rest val shift p :
  Forall is_byte rest -> 0 <= shift -> shift + 7 * Z.of_nat (length rest) <= 63 ->
  is_uint shift val ->
  decode_slow rest val shift p =
    match varint_length rest with
    | Some n => Ok (val + varint_value (take n rest) * 2 ^ shift, (p + n)%nat)
    | None => Err TooFewBytes
    end.
Proof.
  intros Hr. revert val shift p.
  induction Hr as [|b rest Hb Hr IH]; intros val shift p Hs Hl Hv; [done|].
  cbn [decode_slow varint_length]. cbn [length] in Hl. rewrite i8_neg by done.
  destruct (accumulate_7 val b shift) as [Hacc Hacc'];
    [pose proof (Nat2Z.is_nonneg (length rest)); lia | done | done |].
  destruct (Z.ltb_spec b 128) as [Hlt|Hge]; cbn [negb].
  - rewrite (i8_land_ones _ 7) in Hacc by (done || lia). change (2 ^ 7) with 128 in Hacc.
    rewrite i8_byte, (proj2 (Z.ltb_lt _ _)) by done.
    unfold is_uint in Hb. rewrite Z.mod_small in * by lia. rewrite Hacc.
    rewrite varint_value_take_1, Z.mod_small by lia. do 2 f_equal; lia.
  - rewrite Hacc, IH by (done || lia).
    destruct (varint_length rest) as [n|]; cbn [fmap option_fmap option_map]; [|done].
    cbn [take varint_value]. rewrite Z.pow_add_r by lia. do 2 f_equal; [lia|lia].
Qed.

Lemma fast_blocks_eq :
  fast_blocks = ((fun i => (0x7f, 7 * Z.of_nat i)) <$> seq 0 9) ++ [(0x01, 63)].
Proof. reflexivity. Qed.

(** The last block keeps one bit of the tenth byte. *)
Lemma accumulate_last val b :
  is_uint 63 val -> is_byte b ->
  val .| u64 ((i8 b .& 0x01) .<< 63) = u64 (val + b mod 128 * 2 ^ 63).
Proof.
  intros Hv Hb. rewrite (i8_land_ones _ 1), shiftl_mul by (done || lia).
  change (2 ^ 1) with 2.
  assert (u64 (val + b mod 128 * 2 ^ 63) = val + b mod 2 * 2 ^ 63) as ->.
  { unfold wrap, is_uint in *. rewrite (Z.mod_eq b 128), (Z.mod_eq b 2) by lia.
    replace (val + (b - 128 * (b / 128)) * 2 ^ 63)
      with (val + (b - 2 * (b / 2)) * 2 ^ 63 + ((b / 2) - 64 * (b / 128)) * 2 ^ 64) by lia.
    rewrite Z.mod_add, Z.mod_small by (Z.div_mod_to_equations; lia). done. }
  rewrite wrap_small; [by apply lor_disjoint|].
  pose proof (Z.mod_pos_bound b 2). unfold is_uint. lia.
Qed.

Lemma decode_fast_spec n k data val :
  (k + n = 9)%nat -> Forall is_byte data -> (10 <= length data)%nat ->
  is_uint (7 * Z.of_nat k) val ->
  decode_fast (((fun i => (0x7f, 7 * Z.of_nat i)) <$> seq k n) ++ [(0x01, 63)]) data val k =
    Some (match varint_length (take (S n) (drop k data)) with
          | Some m => Ok (u64 (val + varint_value (take m (drop k data)) * 2 ^ (7 * Z.of_nat k)),
                          (k + m)%nat)
          | None => Err TooManyBytes
          end).
Proof.
  revert k val. induction n as [|n IH]; intros k val Hk Hd Hl Hv.
  all: destruct (lookup_lt_is_Some_2 data k ltac:(lia)) as [b Hb].
  all: pose proof (Forall_lookup_1 _ _ _ _ Hd Hb) as Hbyte.
  all: rewrite (drop_S _ _ _ Hb); cbn -[decode_fast Z.pow Z.mul take drop].
  all: cbn [decode_fast]; unfold load; rewrite Hb; cbn -[Z.pow Z.mul take drop seq varint_length].
  all: rewrite i8_nonneg by done; cbn [take varint_length].
  - assert (k = 9%nat) as -> by lia. change (7 * Z.of_nat 9) with 63 in *.
    rewrite accumulate_last by done.
    destruct (b <? 128); [|done]. by rewrite varint_value_take_1.
  - destruct (accumulate_7 val b (7 * Z.of_nat k)) as [-> Hacc]; [lia|done|done|].
    destruct (Z.ltb_spec b 128) as [Hlt|Hge].
    + rewrite varint_value_take_1, Nat.add_1_r. do 3 f_equal. rewrite wrap_small; [done|].
      unfold is_uint in *.
      assert (2 ^ (7 * Z.of_nat k + 7) <= 2 ^ 64) by (apply Z.pow_le_mono_r; lia). lia.
    + replace (7 * Z.of_nat k + 7) with (7 * Z.of_nat (S k)) in Hacc by lia.
      rewrite IH by (done || lia).
      destruct (varint_length _) as [m|]; cbn [fmap option_fmap option_map]; [|done].
      do 3 f_equal; [|lia]. cbn [take varint_value].
      replace (7 * Z.of_nat (S k)) with (7 * Z.of_nat k + 7) by lia.
      rewrite Z.pow_add_r by lia. f_equal. lia.
Qed.

Lemma tryDecodeVarint_decodes data :
  Forall is_byte data -> tryDecodeVarint data = Some (varint_decode data).
Proof.
  intros Hd. unfold tryDecodeVarint, varint_decode, kMaxVarintLength64.
  case_decide as Hl.
  - rewrite fast_blocks_eq, (decode_fast_spec 9 0) by (done || lia).
    rewrite drop_0. cbn [mbind option_bind].
    destruct (varint_length _) as [n|]; [|done].
    change (2 ^ (7 * Z.of_nat 0)) with 1. by rewrite Z.mul_1_r.
  - rewrite decode_slow_spec by (done || lia || (unfold is_uint; lia)).
    rewrite take_ge by lia. cbn [mbind option_bind].
    destruct (varint_length data) as [n|] eqn:En; [|done].
    rewrite Z.mul_1_r, Z.add_0_l. change (2 ^ 0) with 1.
    rewrite wrap_small; [done|]. split; [apply varint_value_nonneg|].
    apply Z.lt_le_trans with (2 ^ (7 * Z.of_nat (length (take n data)))).
    + apply varint_value_bound.
    + apply Z.pow_le_mono_r; [lia|]. rewrite length_take. lia.
Qed.

(** (C31) Both paths of [tryDecodeVarint], the unrolled one and the bounded loop, compute the
    reference decoding on every range of bytes and never read outside of the range: the
    result does not depend on which path the length of the range selects. *)
Theorem tryDecodeVarint_spec data :
  Forall is_byte data -> tryDecodeVarint data = Some (varint_decode data).
Proof. apply tryDecodeVarint_decodes. Qed.

(** ** Encoding *)

(** The bytes [encodeVarint] stores for a value of [7 * fuel] bits. *)
Fixpoint varint_bytes (fuel : nat) (val : Z) : list Z :=
  match fuel with
  | O => []
  | S fuel =>
      if 128 <=? val then 128 + val mod 128 :: varint_bytes fuel (val / 128) else [val]
  end.

Lemma encode_byte val : 0 <= val -> u8 (0x80 .| (val .& 0x7f)) = 128 + val mod 128.
Proof.
  intros Hv. rewrite (land_ones_mod _ 7) by lia. change (2 ^ 7) with 128.
  pose proof (Z.mod_pos_bound val 128).
  pose proof (lor_disjoint_r (val mod 128) 1 7) as E. change (1 * 2 ^ 7) with 128 in E.
  rewrite E by (unfold is_uint; lia).
  apply wrap_small. unfold is_uint. lia.
Qed.

Lemma varint_bytes_div fuel val :
  is_uint (7 * Z.of_nat (S fuel)) val -> is_uint (7 * Z.of_nat fuel) (val / 128).
Proof.
  unfold is_uint. replace (7 * Z.of_nat (S fuel)) with (7 * Z.of_nat fuel + 7) by lia.
  rewrite Z.pow_add_r by lia. intros. Z.div_mod_to_equations. lia.
Qed.

(** What [varint_bytes] is: a minimal-length varint that spells [val]. *)
Lemma varint_bytes_spec fuel val :
  is_uint (7 * Z.of_nat fuel) val -> (fuel = O -> False) ->
  let bs := varint_bytes fuel val in
  Forall is_byte bs /\ varint_shape bs = true /\ varint_value bs = val /\
  (1 <= length bs <= fuel)%nat /\
  Z.of_nat (length bs) = Z.log2 (val .| 1) / 7 + 1.
Proof.
  revert val. induction fuel as [|fuel IH]; intros val Hv Hf; [by destruct Hf|].
  pose proof (varint_bytes_div _ _ Hv) as Hv'. cbn [varint_bytes].
  destruct (Z.leb_spec 128 val) as [Hge|Hlt].
  - destruct fuel as [|fuel]; [unfold is_uint in Hv; change (7 * Z.of_nat 1) with 7 in Hv; lia|].
    destruct (IH _ Hv' ltac:(done)) as (Hby & Hsh & Hval & Hlen & Hlog).
    pose proof (Z.mod_pos_bound val 128) as Hm.
    cbn [varint_value length]. rewrite Hval.
    split; [constructor; [unfold is_uint; lia|done]|].
    split.
    { cbn [varint_shape]. destruct (varint_bytes _ _); [done|]. rewrite Hsh.
      destruct (Z.leb_spec 128 (128 + val mod 128)); [done|lia]. }
    split; [rewrite Z.add_mod, Z.mod_same, Z.add_0_l, !Z.mod_mod by lia;
            pose proof (Z.div_mod val 128); lia|].
    split; [lia|]. rewrite Nat2Z.inj_succ, Hlog.
    assert (forall v, 0 < v -> Z.log2 (v .| 1) = Z.log2 v) as Hl1.
    { intros v Hvp. rewrite Z.log2_lor by lia. change (Z.log2 1) with 0.
      pose proof (Z.log2_nonneg v). lia. }
    rewrite !Hl1 by (unfold is_uint in *; Z.div_mod_to_equations; lia).
    change 128 with (2 ^ 7). rewrite <- Z.shiftr_div_pow2, Z.log2_shiftr by lia.
    assert (7 <= Z.log2 val) by (apply Z.log2_le_pow2; lia).
    rewrite Z.max_r by lia. replace (Z.log2 val) with (Z.log2 val - 7 + 1 * 7) at 2 by lia.
    rewrite Z.div_add by lia. lia.
  - unfold is_uint in Hv. cbn [length varint_shape varint_value].
    rewrite Z.mod_small by lia.
    split; [repeat constructor; unfold is_uint; lia|].
    split; [lia|]. split; [lia|]. split; [lia|].
    rewrite Z.div_small; [done|]. split; [apply Z.log2_nonneg|].
    rewrite Z.log2_lor by lia. change (Z.log2 1) with 0.
    enough (Z.log2 val < 7) by lia.
    destruct (decide (val = 0)) as [->|]; [done|]. apply Z.log2_lt_pow2; lia.
Qed.

Lemma encodeVarint_loop_spec fuel val buf p :
  is_uint (7 * Z.of_nat fuel) val -> (fuel = O -> False) ->
  (p + length (varint_bytes fuel val) <= length buf)%nat ->
  encodeVarint_loop fuel val buf p =
    Some (take p buf ++ varint_bytes fuel val ++ drop (p + length (varint_bytes fuel val)) buf,
          (p + length (varint_bytes fuel val))%nat).
Proof.
  revert val buf p. induction fuel as [|fuel IH]; intros val buf p Hv Hf Hp; [by destruct Hf|].
  pose proof (varint_bytes_div _ _ Hv) as Hv'.
  cbn [encodeVarint_loop varint_bytes] in *.
  destruct (Z.leb_spec 128 val) as [Hge|Hlt].
  - destruct fuel as [|fuel]; [unfold is_uint in Hv; change (7 * Z.of_nat 1) with 7 in Hv; lia|].
    cbn [length] in Hp. rewrite encode_byte by (unfold is_uint in Hv; lia).
    rewrite store_in_bounds by lia. cbn [mbind option_bind].
    rewrite shiftr_div by lia. change (2 ^ 7) with 128.
    rewrite IH by (done || rewrite ?length_insert; lia).
    set (bs := varint_bytes (S fuel) (val / 128)) in *. cbn [length].
    rewrite (take_S_r _ _ (128 + val mod 128)) by (rewrite list_lookup_insert_eq by lia; done).
    rewrite take_insert_ge, drop_insert_lt by lia.
    rewrite <- app_assoc, Nat.add_succ_r. done.
  - cbn [length] in *. rewrite wrap_small by (unfold is_uint in *; lia).
    rewrite store_in_bounds by lia. cbn [mbind option_bind].
    rewrite insert_take_drop by lia. by rewrite Nat.add_1_r.
Qed.

Lemma is_u64_varint val : is_u64 val -> is_uint (7 * Z.of_nat kMaxVarintLength64) val.
Proof. unfold is_uint, kMaxVarintLength64. change (7 * Z.of_nat 10) with 70. lia. Qed.

Lemma encodeVarint_bytes val buf :
  is_u64 val -> (10 <= length buf)%nat ->
  let bs := varint_bytes 10 val in
  encodeVarint val buf = Some (bs ++ drop (length bs) buf, length bs).
Proof.
  intros Hv%is_u64_varint Hbuf. unfold encodeVarint, kMaxVarintLength64 in *.
  destruct (varint_bytes_spec 10 val Hv ltac:(done)) as (_ & _ & _ & Hlen & _).
  rewrite encodeVarint_loop_spec; [by rewrite take_0|done..|lia].
Qed.

Lemma varint_decode_bytes val rest :
  is_u64 val -> varint_decode (varint_bytes 10 val ++ rest) = Ok (val, rest).
Proof.
  intros Hv. destruct (varint_bytes_spec 10 val) as (_ & Hsh & Hval & Hlen & _);
    [by apply is_u64_varint | done |].
  unfold varint_decode, kMaxVarintLength64.
  rewrite take_app_ge, varint_shape_length by (done || lia).
  rewrite take_app_length, drop_app_length, Hval, wrap_small by done. done.
Qed.

(** A proper prefix of a varint holds no last byte. *)
Lemma varint_shape_prefix bs n :
  varint_shape bs = true -> (n < length bs)%nat -> varint_length (take n bs) = None.
Proof.
  revert n. induction bs as [|b bs IH]; intros n Hs Hn; [by rewrite take_nil|].
  destruct n as [|n]; [done|]. cbn [length] in Hn.
  destruct bs as [|b' bs]; [cbn in Hn; lia|].
  apply andb_true_iff in Hs as [Hb Hs].
  cbn [take varint_length]. destruct (Z.ltb_spec b 128); [lia|]. rewrite IH by (done || lia). done.
Qed.

(** (C13) Round trip: given a buffer of [kMaxVarintLength64] bytes or more, [encodeVarint]
    writes some [n] of the first ten bytes and leaves the others alone; decoding what it
    wrote, followed by anything, gives the value back and leaves exactly what followed, and
    decoding any proper prefix of it reports too few bytes. *)
Theorem varint_roundtrip val buf :
  is_u64 val -> (kMaxVarintLength64 <= length buf)%nat ->
  exists bs n,
    encodeVarint val buf = Some (bs ++ drop n buf, n) /\
    length bs = n /\ (n <= kMaxVarintLength64)%nat /\
    (forall rest, Forall is_byte rest -> tryDecodeVarint (bs ++ rest) = Some (Ok (val, rest))) /\
    (forall k, (k < n)%nat -> tryDecodeVarint (take k bs) = Some (Err TooFewBytes)).
Proof.
  intros Hv Hbuf. pose proof (is_u64_varint _ Hv) as Hv'.
  destruct (varint_bytes_spec 10 val Hv' ltac:(done)) as (Hby & Hsh & _ & Hlen & _).
  exists (varint_bytes 10 val), (length (varint_bytes 10 val)).
  unfold kMaxVarintLength64 in *. split_and!; [|done|lia| |].
  - by apply encodeVarint_bytes.
  - intros rest Hr. rewrite tryDecodeVarint_decodes by (by apply Forall_app).
    by rewrite varint_decode_bytes.
  - intros k Hk. rewrite tryDecodeVarint_decodes by (by apply Forall_take).
    unfold varint_decode. rewrite take_take, Nat.min_r by (unfold kMaxVarintLength64; lia).
    rewrite varint_shape_prefix by done. rewrite length_take, decide_False; [done|].
    unfold kMaxVarintLength64. lia.
Qed.

Lemma varint_roundtrip_witness :
  exists bs n,
    encodeVarint 300 (replicate 12 7) = Some (bs ++ drop n (replicate 12 7), n) /\
    length bs = n /\ (n <= kMaxVarintLength64)%nat /\
    (forall rest, Forall is_byte rest -> tryDecodeVarint (bs ++ rest) = Some (Ok (300, rest))) /\
    (forall k, (k < n)%nat -> tryDecodeVarint (take k bs) = Some (Err TooFewBytes)).
Proof. apply (varint_roundtrip 300 (replicate 12 7)); unfold is_uint, kMaxVarintLength64; simpl; lia. Defined.

Lemma encodeVarintSize_loop_spec fuel s val :
  is_uint (7 * Z.of_nat fuel) val -> (fuel = O -> False) ->
  encodeVarintSize_loop fuel s val = Some (s + Z.of_nat (length (varint_bytes fuel val)) - 1).
Proof.
  revert s val. induction fuel as [|fuel IH]; intros s val Hv Hf; [by destruct Hf|].
  pose proof (varint_bytes_div _ _ Hv) as Hv'. cbn [encodeVarintSize_loop varint_bytes].
  destruct (Z.leb_spec 128 val) as [Hge|Hlt]; [|cbn; f_equal; lia].
  destruct fuel as [|fuel]; [unfold is_uint in Hv; change (7 * Z.of_nat 1) with 7 in Hv; lia|].
  rewrite shiftr_div by lia. change (2 ^ 7) with 128. rewrite IH by done.
  cbn [length]. f_equal. lia.
Qed.

(** [encodeVarintSize] is the number of bytes [encodeVarint] uses, on both of its
    branches: the count-leading-zeros formula and the portable loop agree on every 64-bit
    value; a 64-bit value takes at most ten bytes and a 32-bit value at most five. *)
Theorem encodeVarintSize_correct arch val buf :
  is_u64 val -> (kMaxVarintLength64 <= length buf)%nat ->
  exists n, encodeVarintSize arch val = Some (Z.of_nat n) /\
    snd <$> encodeVarint val buf = Some n /\
    (n <= kMaxVarintLength64)%nat /\ (is_u32 val -> (n <= kMaxVarintLength32)%nat).
Proof.
  intros Hv Hbuf. pose proof (is_u64_varint _ Hv) as Hv'.
  destruct (varint_bytes_spec 10 val Hv' ltac:(done)) as (_ & _ & _ & Hlen & Hlog).
  exists (length (varint_bytes 10 val)). unfold kMaxVarintLength64, kMaxVarintLength32 in *.
  split_and!; [|by rewrite encodeVarint_bytes|lia|].
  - unfold encodeVarintSize, kMaxVarintLength64. destruct arch.
    + f_equal. unfold clzll. rewrite Hlog.
      pose proof (Z.log2_nonneg (val .| 1)).
      rewrite Z.quot_div_nonneg by lia.
      replace (64 - (63 - Z.log2 (val .| 1)) + 6) with (Z.log2 (val .| 1) + 1 * 7) by lia.
      rewrite Z.div_add by lia. done.
    + rewrite encodeVarintSize_loop_spec by done. f_equal. lia.
  - intros H32. unfold is_uint in H32. enough (Z.log2 (val .| 1) < 32) by (Z.div_mod_to_equations; lia).
    rewrite Z.log2_lor by lia. change (Z.log2 1) with 0.
    destruct (decide (val = 0)) as [->|]; [done|].
    enough (Z.log2 val < 32) by lia. apply Z.log2_lt_pow2; lia.
Qed.

Lemma encodeVarintSize_correct_witness :
  exists n, encodeVarintSize true 70000 = Some (Z.of_nat n) /\
    snd <$> encodeVarint 70000 (replicate 10 0) = Some n /\
    (n <= kMaxVarintLength64)%nat /\ (is_u32 70000 -> (n <= kMaxVarintLength32)%nat).
Proof. apply (encodeVarintSize_correct true 70000); unfold is_uint, kMaxVarintLength64; simpl; lia. Defined.

Lemma tryDecodeVarint_spec_witness :
  tryDecodeVarint [172; 2; 9] = Some (varint_decode [172; 2; 9]).
Proof. apply tryDecodeVarint_spec. repeat constructor; unfold is_uint; lia. Defined.
