(* ===== verification/Unicode.v ===== *)
(** * Unicode: UTF-8 and UTF-16 conversions of [folly/Unicode.h] and [folly/Unicode.cpp].

    A byte string is a list of integers in [0, 256); the pointer pair [p], [e] of
    [utf8ToCodePoint] is the string with an offset into it, [e] being its end.  The
    exceptions carry the numbers their messages are built from. *)
From S2P Require Import Prelude.

(** ** UTF-16 *)

Definition utf16_code_unit_is_bmp (c : Z) : bool := (c <? 0xd800) || (0xe000 <=? c).

Definition utf16_code_unit_is_high_surrogate (c : Z) : bool := (0xd800 <=? c) && (c <? 0xdc00).

Definition utf16_code_unit_is_low_surrogate (c : Z) : bool := (0xdc00 <=? c) && (c <? 0xe000).

Inductive unicode_error := invalid_high_surrogate | invalid_low_surrogate.

Definition unicode_code_point_from_utf16_surrogate_pair (high low : Z) : result unicode_error Z :=
  if negb (utf16_code_unit_is_high_surrogate high) then Err invalid_high_surrogate
  else if negb (utf16_code_unit_is_low_surrogate low) then Err invalid_low_surrogate
  else Ok (0x10000 + ((high .& 0x3ff) .<< 10) + (low .& 0x3ff)).

(** ** Encoding *)

(** The bytes the callback [f] is applied to; [None] when it is not called. *)
Definition codePointToUtf8Impl (cp : Z) : option (list Z) :=
  if cp <=? 0x7f then Some [u8 cp]
  else if cp <=? 0x7FF then
    Some [u8 (0xC0 .| (cp .>> 6)); u8 (0x80 .| (0x3f .& cp))]
  else if cp <=? 0xFFFF then
    Some [u8 (0xE0 .| (cp .>> 12)); u8 (0x80 .| (0x3f .& (cp .>> 6))); u8 (0x80 .| (0x3f .& cp))]
  else if cp <=? 0x10FFFF then
    Some [u8 (0xF0 .| (cp .>> 18)); u8 (0x80 .| (0x3f .& (cp .>> 12)));
          u8 (0x80 .| (0x3f .& (cp .>> 6))); u8 (0x80 .| (0x3f .& cp))]
  else None.

Definition codePointToUtf8 (cp : Z) : list Z :=
  match codePointToUtf8Impl cp with Some data => data | None => [] end.

Definition appendCodePointToUtf8 (cp : Z) (out : list Z) : list Z :=
  match codePointToUtf8Impl cp with Some data => out ++ data | None => out end.

(** ** Decoding *)

Inductive utf8_error :=
| empty_string
| bad_first_byte (d : Z)
| bad_byte (i tmp : Z)
| bad_value (i d : Z)
| exceeds_max
| length_maxed_out.

Definition bitMask : list Z :=
  [(1 .<< 7) - 1; (1 .<< 11) - 1; (1 .<< 16) - 1; (1 .<< 21) - 1].

(** The [skip] lambda, or the exception, at each place the input is found invalid. *)
Definition fail_or_skip (skipOnError : bool) (e : utf8_error) (p : nat) : result utf8_error (Z * nat) :=
  if skipOnError then Ok (0xFFFD, S p) else Err e.

(** The [for] loop over the bytes after the first one, from [i] on; [n] bounds the number of
    iterations left before [i] reaches 4. *)
Fixpoint utf8_loop (skipOnError : bool) (s : list Z) (p : nat) (n i : nat) (fst d : Z)
    : result utf8_error (Z * nat) :=
  match n, s !! (p + i)%nat with
  | S n, Some tmp =>
      if negb (tmp .& 0xC0 =? 0x80) then
        fail_or_skip skipOnError (bad_byte (Z.of_nat i) tmp) p
      else
        let d := u32 (d .<< 6) .| (tmp .& 0x3F) in
        let fst := u8 (fst .<< 1) in
        if fst .& 0x80 =? 0 then
          let d := d .& nth i bitMask 0 in
          if d .& u32 (Z.lnot (nth (i - 1) bitMask 0)) =? 0 then
            fail_or_skip skipOnError (bad_value (Z.of_nat i) d) p
          else if (i =? 2)%nat && ((0xD800 <=? d) && (d <=? 0xDFFF)) then
            fail_or_skip skipOnError (bad_value (Z.of_nat i) d) p
          else if 0x10FFFF <? d then fail_or_skip skipOnError exceeds_max p
          else Ok (d, (p + (i + 1))%nat)
        else utf8_loop skipOnError s p n (S i) fst d
  | _, _ => fail_or_skip skipOnError length_maxed_out p
  end.

(** The code point decoded at offset [p] of [s] and the offset after it. *)
Definition utf8ToCodePoint (s : list Z) (p : nat) (skipOnError : bool) : result utf8_error (Z * nat) :=
  match s !! p with
  | None => fail_or_skip skipOnError empty_string p
  | Some fst =>
      if fst .& 0x80 =? 0 then Ok (fst, S p)
      else
        let d := fst in
        if negb (fst .& 0xC0 =? 0xC0) then fail_or_skip skipOnError (bad_first_byte d) p
        else utf8_loop skipOnError s p 3 1 (u8 (fst .<< 1)) d
  end.

(** ** Reference definitions *)

(** The code points UTF-8 may encode: those of Unicode, less the surrogates. *)
Definition is_scalar_value (cp : Z) : bool :=
  (0 <=? cp) && (cp <=? 0x10FFFF) && negb ((0xD800 <=? cp) && (cp <=? 0xDFFF)).

(** The encoding written with arithmetic instead of bit operations. *)
Definition utf8_bytes (cp : Z) : list Z :=
  if cp <? 0x80 then [cp]
  else if cp <? 0x800 then [192 + cp / 64; 128 + cp mod 64]
  else if cp <? 0x10000 then [224 + cp / 4096; 128 + cp / 64 mod 64; 128 + cp mod 64]
  else [240 + cp / 262144; 128 + cp / 4096 mod 64; 128 + cp / 64 mod 64; 128 + cp mod 64].

(** ** The bit tests of the decoder *)

Lemma first_is_ascii b : is_byte b -> (b .& 0x80 =? 0) = (b <? 128).
Proof.
  intros Hb. apply Bool.eqb_true_iff.
  by apply (byte_forall (fun b => Bool.eqb (b .& 0x80 =? 0) (b <? 128))).
Qed.

Lemma first_is_multi b : is_byte b -> (b .& 0xC0 =? 0xC0) = (192 <=? b).
Proof.
  intros Hb. apply Bool.eqb_true_iff.
  by apply (byte_forall (fun b => Bool.eqb (b .& 0xC0 =? 0xC0) (192 <=? b))).
Qed.

Lemma is_continuation b : is_byte b -> (b .& 0xC0 =? 0x80) = (128 <=? b) && (b <? 192).
Proof.
  intros Hb. apply Bool.eqb_true_iff.
  by apply (byte_forall (fun b => Bool.eqb (b .& 0xC0 =? 0x80) ((128 <=? b) && (b <? 192)))).
Qed.

(** [fst] after one shift per byte read: the next bit from the top tells whether the byte just
    read is the last one. *)
Lemma last_of_two b :
  is_byte b -> (u8 (u8 (b .<< 1) .<< 1) .& 0x80 =? 0) = (b mod 64 <? 32).
Proof.
  intros Hb. apply Bool.eqb_true_iff.
  by apply (byte_forall (fun b => Bool.eqb (u8 (u8 (b .<< 1) .<< 1) .& 0x80 =? 0) (b mod 64 <? 32))).
Qed.

Lemma last_of_three b :
  is_byte b -> (u8 (u8 (u8 (b .<< 1) .<< 1) .<< 1) .& 0x80 =? 0) = (b mod 32 <? 16).
Proof.
  intros Hb. apply Bool.eqb_true_iff.
  by apply (byte_forall
    (fun b => Bool.eqb (u8 (u8 (u8 (b .<< 1) .<< 1) .<< 1) .& 0x80 =? 0) (b mod 32 <? 16))).
Qed.

Lemma last_of_four b :
  is_byte b -> (u8 (u8 (u8 (u8 (b .<< 1) .<< 1) .<< 1) .<< 1) .& 0x80 =? 0) = (b mod 16 <? 8).
Proof.
  intros Hb. apply Bool.eqb_true_iff.
  by apply (byte_forall
    (fun b => Bool.eqb (u8 (u8 (u8 (u8 (b .<< 1) .<< 1) .<< 1) .<< 1) .& 0x80 =? 0) (b mod 16 <? 8))).
Qed.

Lemma fill_bits d t :
  0 <= d < 2 ^ 26 -> is_byte t -> u32 (d .<< 6) .| (t .& 0x3F) = d * 64 + t mod 64.
Proof.
  intros Hd Ht. rewrite (land_ones_mod _ 6), shiftl_mul by lia.
  rewrite wrap_small by (unfold is_uint; lia).
  apply lor_disjoint_r; [lia|]. apply Z.mod_pos_bound. lia.
Qed.

Lemma mask_value d k m : 0 <= k -> m = (1 .<< k) - 1 -> d .& m = d mod 2 ^ k.
Proof. intros Hk ->. apply land_ones_mod; [done|]. by rewrite shiftl_mul, Z.mul_1_l. Qed.

Lemma overlong_test d k m :
  0 <= k <= 32 -> is_u32 d -> m = (1 .<< k) - 1 -> (d .& u32 (Z.lnot m) =? 0) = (d <? 2 ^ k).
Proof.
  intros Hk Hd ->. rewrite <- (land_lnot_ones 32 k d) by done. by rewrite shiftl_mul, Z.mul_1_l by lia.
Qed.

(** ** The decoder on the bytes from [p] on, in arithmetic *)

(** The checks on the value [d] of an encoding of [i + 1] bytes. *)
Definition accept (skipOnError : bool) (p i : nat) (k : Z) (d : Z) : result utf8_error (Z * nat) :=
  if d <? 2 ^ k then fail_or_skip skipOnError (bad_value (Z.of_nat i) d) p
  else if (i =? 2)%nat && ((0xD800 <=? d) && (d <=? 0xDFFF)) then
    fail_or_skip skipOnError (bad_value (Z.of_nat i) d) p
  else if 0x10FFFF <? d then fail_or_skip skipOnError exceeds_max p
  else Ok (d, (p + (i + 1))%nat).

Definition decode_ref (skipOnError : bool) (p : nat) (l : list Z) : result utf8_error (Z * nat) :=
  let fail e := fail_or_skip skipOnError e p in
  match l with
  | [] => fail empty_string
  | b :: l =>
      if b <? 128 then Ok (b, S p)
      else if b <? 192 then fail (bad_first_byte b)
      else match l with
      | [] => fail length_maxed_out
      | t :: l =>
          if negb ((128 <=? t) && (t <? 192)) then fail (bad_byte 1 t)
          else if b <? 224 then accept skipOnError p 1 7 ((b - 192) * 64 + (t - 128))
          else match l with
          | [] => fail length_maxed_out
          | t' :: l =>
              if negb ((128 <=? t') && (t' <? 192)) then fail (bad_byte 2 t')
              else if b <? 240 then
                accept skipOnError p 2 11 ((b - 224) * 4096 + (t - 128) * 64 + (t' - 128))
              else match l with
              | [] => fail length_maxed_out
              | t'' :: l =>
                  if negb ((128 <=? t'') && (t'' <? 192)) then fail (bad_byte 3 t'')
                  else if b <? 248 then
                    accept skipOnError p 3 16
                      ((b - 240) * 262144 + (t - 128) * 4096 + (t' - 128) * 64 + (t'' - 128))
                  else fail length_maxed_out
              end
          end
      end
  end.

Lemma accept_eq skip p i k k' d d' :
  0 <= k <= 32 -> 0 <= k' <= 32 -> is_u32 d ->
  nth i bitMask 0 = (1 .<< k') - 1 -> nth (i - 1) bitMask 0 = (1 .<< k) - 1 ->
  d mod 2 ^ k' = d' ->
  (let d := d .& nth i bitMask 0 in
   if d .& u32 (Z.lnot (nth (i - 1) bitMask 0)) =? 0 then
     fail_or_skip skip (bad_value (Z.of_nat i) d) p
   else if (i =? 2)%nat && ((0xD800 <=? d) && (d <=? 0xDFFF)) then
     fail_or_skip skip (bad_value (Z.of_nat i) d) p
   else if 0x10FFFF <? d then fail_or_skip skip exceeds_max p
   else Ok (d, (p + (i + 1))%nat)) = accept skip p i k d'.
Proof.
  intros Hk Hk' Hd Hm Hm' <-. cbv zeta. rewrite (mask_value d k') by (done || lia).
  assert (is_u32 (d mod 2 ^ k')).
  { unfold is_uint in *. pose proof (Z.mod_pos_bound d (2 ^ k')).
    assert (2 ^ k' <= 2 ^ 32) by (apply Z.pow_le_mono_r; lia). lia. }
  by rewrite (overlong_test _ k) by done.
Qed.

Lemma utf8ToCodePoint_ref s p skip :
  Forall is_byte s -> utf8ToCodePoint s p skip = decode_ref skip p (drop p s).
Proof.
  intros Hs. unfold utf8ToCodePoint.
  assert (Forall is_byte (drop p s)) as Hl by by apply Forall_drop.
  assert (forall i, s !! (p + i)%nat = drop p s !! i) as Hlook by (intros; by rewrite lookup_drop).
  assert (s !! p = drop p s !! 0%nat) as -> by (by rewrite lookup_drop, Nat.add_0_r).
  destruct (drop p s) as [|b l]; [done|]. cbn [lookup list_lookup].
  apply Forall_cons_1 in Hl as [Hb Hl].
  rewrite first_is_ascii, first_is_multi by done. unfold decode_ref.
  destruct (Z.ltb_spec b 128); [done|].
  destruct (Z.ltb_spec b 192), (Z.leb_spec 192 b); try lia; [done|]. cbn [negb].
  destruct l as [|t l]; cbn [utf8_loop]; rewrite (Hlook 1%nat); cbn [lookup list_lookup]; [done|].
  apply Forall_cons_1 in Hl as [Ht Hl]. rewrite is_continuation by done.
  destruct (Z.leb_spec 128 t), (Z.ltb_spec t 192); try done. cbn [andb negb].
  rewrite last_of_two by done. unfold is_uint in Hb.
  rewrite fill_bits by (done || lia).
  destruct (Z.ltb_spec b 224), (Z.ltb_spec (b mod 64) 32); try (Z.div_mod_to_equations; lia).
  { apply (accept_eq _ _ 1 7 11); try done; try lia; [|Z.div_mod_to_equations; lia].
    unfold is_uint. Z.div_mod_to_equations. lia. }
  destruct l as [|t' l]; rewrite (Hlook 2%nat); cbn [lookup list_lookup]; [done|].
  apply Forall_cons_1 in Hl as [Ht' Hl]. rewrite is_continuation by done.
  destruct (Z.leb_spec 128 t'), (Z.ltb_spec t' 192); try done. cbn [andb negb].
  rewrite last_of_three by done.
  rewrite fill_bits by (done || (Z.div_mod_to_equations; lia)).
  destruct (Z.ltb_spec b 240), (Z.ltb_spec (b mod 32) 16); try (Z.div_mod_to_equations; lia).
  { apply (accept_eq _ _ 2 11 16); try done; try lia; [|Z.div_mod_to_equations; lia].
    unfold is_uint. Z.div_mod_to_equations. lia. }
  destruct l as [|t'' l]; rewrite (Hlook 3%nat); cbn [lookup list_lookup]; [done|].
  apply Forall_cons_1 in Hl as [Ht'' Hl]. rewrite is_continuation by done.
  destruct (Z.leb_spec 128 t''), (Z.ltb_spec t'' 192); try done. cbn [andb negb].
  rewrite last_of_four by done.
  rewrite fill_bits by (done || (Z.div_mod_to_equations; lia)).
  destruct (Z.ltb_spec b 248), (Z.ltb_spec (b mod 16) 8); try (Z.div_mod_to_equations; lia); [|done].
  apply (accept_eq _ _ 3 16 21); try done; try lia; [|Z.div_mod_to_equations; lia].
  unfold is_uint. Z.div_mod_to_equations. lia.
Qed.

(** ** Encoding *)

Lemma or_prefix c k x : 0 <= k -> 0 <= x < 2 ^ k -> (c * 2 ^ k) .| x = c * 2 ^ k + x.
Proof. intros. by apply lor_disjoint_r. Qed.

Lemma continuation_byte x : u8 (0x80 .| (0x3f .& x)) = 128 + x mod 64.
Proof.
  rewrite Z.land_comm, (land_ones_mod _ 6) by lia.
  pose proof (Z.mod_pos_bound x (2 ^ 6)).
  change 0x80 with (2 * 2 ^ 6). rewrite or_prefix by lia.
  rewrite wrap_small by (unfold is_uint; lia). done.
Qed.

Lemma leading_byte c k x :
  0 <= k -> 0 <= x < 2 ^ k -> 0 <= c * 2 ^ k + x < 256 -> u8 ((c * 2 ^ k) .| x) = c * 2 ^ k + x.
Proof. intros. rewrite or_prefix by lia. apply wrap_small. unfold is_uint. lia. Qed.

Lemma codePointToUtf8_bytes cp :
  0 <= cp <= 0x10FFFF -> codePointToUtf8 cp = utf8_bytes cp.
Proof.
  intros Hcp. unfold codePointToUtf8, codePointToUtf8Impl, utf8_bytes.
  rewrite !continuation_byte, !shiftr_div by lia.
  destruct (Z.leb_spec cp 0x7f), (Z.ltb_spec cp 0x80); try lia.
  { by rewrite wrap_small by (unfold is_uint; lia). }
  destruct (Z.leb_spec cp 0x7FF), (Z.ltb_spec cp 0x800); try lia.
  { rewrite (leading_byte 6 5) by (Z.div_mod_to_equations; lia). done. }
  destruct (Z.leb_spec cp 0xFFFF), (Z.ltb_spec cp 0x10000); try lia.
  { rewrite (leading_byte 14 4) by (Z.div_mod_to_equations; lia). done. }
  destruct (Z.leb_spec cp 0x10FFFF); [|lia].
  rewrite (leading_byte 30 3) by (Z.div_mod_to_equations; lia). done.
Qed.

Lemma is_scalar_value_true cp :
  is_scalar_value cp = true <-> 0 <= cp <= 0x10FFFF /\ ~ (0xD800 <= cp <= 0xDFFF).
Proof. unfold is_scalar_value. rewrite !andb_true_iff, negb_true_iff, andb_false_iff. lia. Qed.

Lemma is_scalar_value_bytes cp :
  is_scalar_value cp = true -> codePointToUtf8 cp = utf8_bytes cp.
Proof. intros [? _]%is_scalar_value_true. by apply codePointToUtf8_bytes. Qed.

Lemma accept_ok p i k d cp p' :
  accept false p i k d = Ok (cp, p') <->
  2 ^ k <= d <= 0x10FFFF /\ ~ (i = 2%nat /\ 0xD800 <= d <= 0xDFFF) /\ cp = d /\ p' = (p + (i + 1))%nat.
Proof.
  unfold accept, fail_or_skip. destruct (Z.ltb_spec d (2 ^ k)); [split; [done|lia]|].
  destruct (Nat.eqb_spec i 2), (Z.leb_spec 0xD800 d), (Z.leb_spec d 0xDFFF); cbn [andb];
    destruct (Z.ltb_spec 0x10FFFF d);
    (split; [try done; intros [= <- <-]; lia | intros (? & ? & -> & ->); try done; lia]).
Qed.

(** Decides the comparisons of the goal that the hypotheses decide. *)
Ltac decide_tests :=
  repeat match goal with
    | |- context [?a <? ?b] =>
        first [ rewrite (proj2 (Z.ltb_lt a b)) by (Z.div_mod_to_equations; lia)
              | rewrite (proj2 (Z.ltb_ge a b)) by (Z.div_mod_to_equations; lia) ]
    | |- context [?a <=? ?b] =>
        first [ rewrite (proj2 (Z.leb_le a b)) by (Z.div_mod_to_equations; lia)
              | rewrite (proj2 (Z.leb_gt a b)) by (Z.div_mod_to_equations; lia) ]
    end; cbn [andb orb negb].

(** Strict decoding accepts exactly the encodings of scalar values. *)
Lemma decode_ref_encode p cp rest :
  is_scalar_value cp = true ->
  decode_ref false p (utf8_bytes cp ++ rest) = Ok (cp, (p + length (utf8_bytes cp))%nat).
Proof.
  intros [Hcp Hs]%is_scalar_value_true. unfold utf8_bytes.
  destruct (Z.ltb_spec cp 0x80).
  { cbn [app decode_ref length]. decide_tests. by rewrite Nat.add_1_r. }
  destruct (Z.ltb_spec cp 0x800); [|destruct (Z.ltb_spec cp 0x10000)];
    cbn [app decode_ref length]; decide_tests.
  all: apply accept_ok; split_and!; try (Z.div_mod_to_equations; lia).
Qed.

Lemma decode_ref_sound p l cp p' :
  Forall is_byte l -> decode_ref false p l = Ok (cp, p') ->
  is_scalar_value cp = true /\ exists rest, l = utf8_bytes cp ++ rest /\
    p' = (p + length (utf8_bytes cp))%nat.
Proof.
  intros Hl. rewrite is_scalar_value_true. unfold decode_ref, fail_or_skip.
  repeat (case_match; try done).
  all: rewrite ?Z.ltb_lt, ?Z.ltb_ge, ?negb_false_iff, ?andb_true_iff, ?Z.leb_le in *.
  all: unfold is_uint in Hl; decompose_Forall_hyps.
  all: rewrite ?accept_ok; try (intros [= <- <-]); try (intros (? & ? & -> & ->)).
  all: split; [lia|]; eexists; unfold utf8_bytes; decide_tests.
  all: cbn [app length]; split; [|lia]; repeat f_equal; Z.div_mod_to_equations; lia.
Qed.

Lemma decode_ref_skip p l :
  decode_ref true p l = match decode_ref false p l with Ok r => Ok r | Err _ => Ok (0xFFFD, S p) end.
Proof. unfold decode_ref, accept, fail_or_skip. by repeat case_match. Qed.

(** ** Main theorems *)

(** (C15) Strict decoding at an offset succeeds exactly on the encodings that [codePointToUtf8]
    produces for Unicode scalar values: truncated, overlong, surrogate and out-of-range
    sequences are all refused, and every valid one is accepted and consumed exactly. *)
Theorem utf8_strict_decode s p cp p' :
  Forall is_byte s ->
  utf8ToCodePoint s p false = Ok (cp, p') <->
  is_scalar_value cp = true /\
  exists rest, drop p s = codePointToUtf8 cp ++ rest /\ p' = (p + length (codePointToUtf8 cp))%nat.
Proof.
  intros Hs. rewrite utf8ToCodePoint_ref by done. split.
  - intros H. apply decode_ref_sound in H as [Hcp H]; [|by apply Forall_drop].
    by rewrite is_scalar_value_bytes.
  - intros (Hcp & rest & -> & ->). rewrite is_scalar_value_bytes by done.
    by apply decode_ref_encode.
Qed.

Lemma utf8_strict_decode_witness :
  utf8ToCodePoint [226; 130; 172; 33] 0 false = Ok (0x20AC, 3%nat) <->
  is_scalar_value 0x20AC = true /\
  exists rest, drop 0 [226; 130; 172; 33] = codePointToUtf8 0x20AC ++ rest /\
    3%nat = (0 + length (codePointToUtf8 0x20AC))%nat.
Proof. apply utf8_strict_decode. repeat constructor; unfold is_uint; lia. Defined.

(** Decoding with [skipOnError] never throws: it agrees with strict decoding where that
    succeeds and otherwise yields U+FFFD and skips one byte; it always moves the pointer
    forward, by at most four bytes, so a loop over a string terminates. *)
Theorem utf8_skip_decode s p :
  Forall is_byte s ->
  exists cp p', utf8ToCodePoint s p true = Ok (cp, p') /\
    (p < p' <= p + 4)%nat /\ is_scalar_value cp = true /\
    (utf8ToCodePoint s p false = Ok (cp, p') \/
     (exists e, utf8ToCodePoint s p false = Err e) /\ cp = 0xFFFD /\ p' = S p).
Proof.
  intros Hs. rewrite !utf8ToCodePoint_ref, decode_ref_skip by done.
  destruct (decode_ref false p (drop p s)) as [[cp p']|e] eqn:E.
  - exists cp, p'. apply decode_ref_sound in E as (Hcp & rest & _ & ->); [|by apply Forall_drop].
    split_and!; [done | | | done | by left]; unfold utf8_bytes; repeat case_match; cbn; lia.
  - exists 0xFFFD, (S p). split_and!; [done|lia|lia|done|]. right. eauto.
Qed.

Lemma utf8_skip_decode_witness :
  exists cp p', utf8ToCodePoint [0xC0; 0x80] 0 true = Ok (cp, p') /\
    (0 < p' <= 0 + 4)%nat /\ is_scalar_value cp = true /\
    (utf8ToCodePoint [0xC0; 0x80] 0 false = Ok (cp, p') \/
     (exists e, utf8ToCodePoint [0xC0; 0x80] 0 false = Err e) /\ cp = 0xFFFD /\ p' = 1%nat).
Proof. apply utf8_skip_decode. repeat constructor; unfold is_uint; lia. Defined.

(** The surrogate pair conversion is a bijection between the pairs of a high and a low
    surrogate and the code points above the basic plane; it throws on anything else. *)
Theorem surrogate_pair_spec high low :
  is_uint 16 high -> is_uint 16 low ->
  match unicode_code_point_from_utf16_surrogate_pair high low with
  | Ok cp =>
      utf16_code_unit_is_high_surrogate high = true /\
      utf16_code_unit_is_low_surrogate low = true /\
      0x10000 <= cp <= 0x10FFFF /\
      high = 0xD800 + (cp - 0x10000) / 1024 /\ low = 0xDC00 + (cp - 0x10000) mod 1024
  | Err invalid_high_surrogate => utf16_code_unit_is_high_surrogate high = false
  | Err invalid_low_surrogate =>
      utf16_code_unit_is_high_surrogate high = true /\ utf16_code_unit_is_low_surrogate low = false
  end.
Proof.
  intros Hh Hl. unfold unicode_code_point_from_utf16_surrogate_pair.
  destruct (utf16_code_unit_is_high_surrogate high) eqn:Eh; cbn [negb]; [|done].
  destruct (utf16_code_unit_is_low_surrogate low) eqn:El; cbn [negb]; [|done].
  unfold utf16_code_unit_is_high_surrogate, utf16_code_unit_is_low_surrogate in Eh, El.
  rewrite !(land_ones_mod _ 10), shiftl_mul by lia.
  split_and!; try done; Z.div_mod_to_equations; lia.
Qed.

Lemma surrogate_pair_spec_witness :
  unicode_code_point_from_utf16_surrogate_pair 0xD83D 0xDE00 = Ok 0x1F600 /\
  0x10000 <= 0x1F600 <= 0x10FFFF.
Proof.
  pose proof (surrogate_pair_spec 0xD83D 0xDE00 ltac:(unfold is_uint; lia) ltac:(unfold is_uint; lia)) as H.
  change (unicode_code_point_from_utf16_surrogate_pair 0xD83D 0xDE00) with (@Ok unicode_error Z 0x1F600) in H.
  split; [reflexivity|]. destruct H as (_ & _ & H & _). exact H.
Defined.
