(* ===== verification/IntConv.v ===== *)
(** * IntConv: comparisons and conversions between integer types

    [less_than], [greater_than] and [is_negative] of [folly/Traits.h] and the checked conversion
    [convertTo] between integral types of [folly/Conv.h].  A type is a width and a signedness; the
    comparison operators convert their operands to a common type first (the usual arithmetic
    conversions of C++), which is where comparisons of signed with unsigned values go wrong. *)
From S2P Require Import Prelude.

(** ** Integer types *)

Record int_type := mkInt { bits : Z; is_signed : bool }.

Definition is_int_type (t : int_type) : Prop := bits t = 8 \/ bits t = 16 \/ bits t = 32 \/ bits t = 64 \/ bits t = 128.

Definition type_max (t : int_type) : Z := if is_signed t then 2 ^ (bits t - 1) - 1 else 2 ^ bits t - 1.
Definition type_min (t : int_type) : Z := if is_signed t then - 2 ^ (bits t - 1) else 0.
Definition has_type (t : int_type) (z : Z) : Prop := type_min t <= z <= type_max t.

(** [static_cast<t>(z)]. *)
Definition cast (t : int_type) (z : Z) : Z := if is_signed t then swrap (bits t) z else wrap (bits t) z.

Definition make_unsigned (t : int_type) : int_type := mkInt (bits t) false.

(** Integer promotion, and the common type of two operands. *)
Definition promote (t : int_type) : int_type := if bits t <? 32 then mkInt 32 true else t.

Definition common_type (t t' : int_type) : int_type :=
  let t := promote t in
  let t' := promote t' in
  if Bool.eqb (is_signed t) (is_signed t') then mkInt (Z.max (bits t) (bits t')) (is_signed t)
  else
    let (u, s) := if is_signed t then (t', t) else (t, t') in
    if bits s <=? bits u then u else s.

(** [a < b] for [a] of type [t] and [b] of type [t']. *)
Definition cpp_lt (t : int_type) (a : Z) (t' : int_type) (b : Z) : bool :=
  cast (common_type t t') a <? cast (common_type t t') b.
Definition cpp_gt (t : int_type) (a : Z) (t' : int_type) (b : Z) : bool := cpp_lt t' b t a.
Definition cpp_le (t : int_type) (a : Z) (t' : int_type) (b : Z) : bool := negb (cpp_lt t' b t a).

(** ** Comparisons *)

Definition is_negative (t : int_type) (x : Z) : bool := is_signed t && (x <? 0).

Definition less_than_impl (RHS : int_type) (rhs : Z) (LHS : int_type) (lhs : Z) : bool :=
  if negb (is_signed RHS) && is_negative LHS lhs then true
  else if negb (is_signed LHS) && is_negative RHS rhs then false
  else if cpp_gt RHS rhs LHS (type_max LHS) then true
  else if cpp_le RHS rhs LHS (type_min LHS) then false
  else cpp_lt LHS lhs RHS rhs.

Definition greater_than_impl (RHS : int_type) (rhs : Z) (LHS : int_type) (lhs : Z) : bool :=
  if negb (is_signed RHS) && is_negative LHS lhs then false
  else if negb (is_signed LHS) && is_negative RHS rhs then true
  else if cpp_gt RHS rhs LHS (type_max LHS) then false
  else if cpp_lt RHS rhs LHS (type_min LHS) then true
  else cpp_gt LHS lhs RHS rhs.

(** ** Checked conversion *)

Inductive ConversionCode :=
| SUCCESS | EMPTY_INPUT_STRING | NO_DIGITS | BOOL_OVERFLOW | BOOL_INVALID_VALUE | NON_DIGIT_CHAR
| INVALID_LEADING_CHAR | POSITIVE_OVERFLOW | NEGATIVE_OVERFLOW | STRING_TO_FLOAT_ERROR
| NON_WHITESPACE_AFTER_END | ARITH_POSITIVE_OVERFLOW | ARITH_NEGATIVE_OVERFLOW | ARITH_LOSS_OF_PRECISION.

#[global] Instance ConversionCode_eq_dec : EqDecision ConversionCode.
Proof. solve_decision. Defined.

Definition convertTo_integral (Tgt Src : int_type) (value : Z) : result ConversionCode Z :=
  if cpp_lt (make_unsigned Tgt) (cast (make_unsigned Tgt) (type_max Tgt))
            (make_unsigned Src) (cast (make_unsigned Src) (type_max Src)) &&
     greater_than_impl Tgt (type_max Tgt) Src value
  then Err ARITH_POSITIVE_OVERFLOW
  else if is_signed Src && (negb (is_signed Tgt) || (bits Tgt <? bits Src)) &&
          less_than_impl Tgt (type_min Tgt) Src value
  then Err ARITH_NEGATIVE_OVERFLOW
  else Ok (cast Tgt value).

Definition convertTo_bool (Tgt : int_type) (value : bool) : Z := cast Tgt (if value then 1 else 0).

(** ** Comparisons and conversions in the integers *)

Lemma type_bounds t : is_int_type t ->
  2 ^ bits t = 2 * 2 ^ (bits t - 1) /\ 128 <= 2 ^ (bits t - 1) /\ 8 <= bits t <= 128.
Proof.
  intros Ht. rewrite <- Z.pow_succ_r by (destruct Ht as [->|[->|[->|[->| ->]]]]; lia).
  split_and!; [f_equal; lia| |destruct Ht as [->|[->|[->|[->| ->]]]]; lia..].
  destruct Ht as [->|[->|[->|[->| ->]]]]; cbn; lia.
Qed.

Lemma cast_small t z : is_int_type t -> has_type t z -> cast t z = z.
Proof.
  intros Ht Hz. pose proof (type_bounds t Ht) as (H1 & H2 & H3).
  unfold cast, has_type, type_min, type_max in *. destruct (is_signed t).
  - apply swrap_small; [lia|]. unfold is_sint. lia.
  - apply wrap_small. unfold is_uint. lia.
Qed.

Lemma max_has_type t : is_int_type t -> has_type t (type_max t).
Proof. intros Ht. pose proof (type_bounds t Ht). unfold has_type, type_max, type_min. destruct (is_signed t); lia. Qed.

Lemma min_has_type t : is_int_type t -> has_type t (type_min t).
Proof. intros Ht. pose proof (type_bounds t Ht). unfold has_type, type_max, type_min. destruct (is_signed t); lia. Qed.

Lemma common_type_ok t t' : is_int_type t -> is_int_type t' -> is_int_type (common_type t t').
Proof.
  destruct t as [w []], t' as [w' []]; unfold is_int_type, common_type, promote; cbn; intros Ht Ht';
    destruct Ht as [->|[->|[->|[->| ->]]]], Ht' as [->|[->|[->|[->| ->]]]]; cbn; auto 6.
Qed.

(** The values of an operand that the common type represents. *)
Lemma common_type_has t t' z :
  is_int_type t -> is_int_type t' -> has_type t z \/ has_type t' z -> 0 <= z \/ is_signed (common_type t t') = true ->
  has_type (common_type t t') z.
Proof.
  destruct t as [w []], t' as [w' []]; unfold is_int_type, common_type, promote, has_type, type_min, type_max;
    cbn [bits is_signed]; intros Ht Ht';
    destruct Ht as [->|[->|[->|[->| ->]]]], Ht' as [->|[->|[->|[->| ->]]]]; cbn; unfold Z.max; cbn; intros Hz Hs;
    destruct Hz, Hs; first [done | lia].
Qed.

Lemma cpp_lt_spec t a t' b :
  is_int_type t -> is_int_type t' -> has_type t a -> has_type t' b ->
  (0 <= a /\ 0 <= b) \/ is_signed (common_type t t') = true ->
  cpp_lt t a t' b = (a <? b).
Proof.
  intros Ht Ht' Ha Hb Hs. pose proof (common_type_ok t t' Ht Ht') as Hc. unfold cpp_lt.
  assert (has_type (common_type t t') a) by (apply common_type_has; naive_solver).
  assert (has_type (common_type t t') b) by (apply common_type_has; naive_solver).
  by rewrite !cast_small.
Qed.

Lemma common_type_comm t t' : common_type t t' = common_type t' t.
Proof.
  unfold common_type. destruct (promote t) as [w []], (promote t') as [w' []]; cbn; by rewrite ?(Z.max_comm w).
Qed.

(** Unsigned bounds at least as wide as the signed value compared with them. *)
Definition mixed_up (RHS LHS : int_type) : bool :=
  negb (is_signed RHS) && is_signed LHS && negb (is_signed (common_type RHS LHS)).

(** ** [less_than] and [greater_than] compare the values, or they do not *)

Section Compare.
Variables (RHS LHS : int_type) (rhs lhs : Z).
Hypothesis (HR : is_int_type RHS) (HL : is_int_type LHS) (Hr : has_type RHS rhs) (Hl : has_type LHS lhs).
Hypothesis Hmix : mixed_up RHS LHS = false.

(** Past the first two tests the comparisons are exact. *)
Lemma exact_comparisons :
  negb (is_signed RHS) && is_negative LHS lhs = false ->
  negb (is_signed LHS) && is_negative RHS rhs = false ->
  cpp_gt RHS rhs LHS (type_max LHS) = (type_max LHS <? rhs) /\
  cpp_le RHS rhs LHS (type_min LHS) = (rhs <=? type_min LHS) /\
  cpp_lt RHS rhs LHS (type_min LHS) = (rhs <? type_min LHS) /\
  cpp_lt LHS lhs RHS rhs = (lhs <? rhs) /\ cpp_gt LHS lhs RHS rhs = (rhs <? lhs).
Proof.
  unfold mixed_up, is_negative in *. intros H1 H2.
  assert ((0 <= lhs /\ 0 <= rhs /\ 0 <= type_min LHS /\ 0 <= type_max LHS) \/ is_signed (common_type RHS LHS) = true) as Hs.
  { pose proof (max_has_type LHS HL). unfold has_type in *.
    destruct (is_signed RHS) eqn:E1, (is_signed LHS) eqn:E2; cbn in *.
    - right. unfold common_type, promote. repeat (case_match; cbn; try done); congruence.
    - left. apply Z.ltb_ge in H2. unfold type_min, type_max in *. rewrite E2 in *. lia.
    - right. by destruct (is_signed (common_type RHS LHS)).
    - left. unfold type_min, type_max in *. rewrite E1, E2 in *. lia. }
  pose proof (max_has_type LHS HL). pose proof (min_has_type LHS HL).
  unfold cpp_le, cpp_gt. rewrite !cpp_lt_spec by (try done; rewrite ?(common_type_comm LHS); naive_solver).
  split_and!; try done. by rewrite Z.leb_antisym.
Qed.

Lemma less_than_exact : less_than_impl RHS rhs LHS lhs = (lhs <? rhs).
Proof.
  unfold less_than_impl. unfold has_type in *.
  destruct (negb (is_signed RHS) && is_negative LHS lhs) eqn:E1.
  { unfold is_negative, type_min in *. destruct (is_signed RHS), (is_signed LHS); cbn in *; try done. lia. }
  destruct (negb (is_signed LHS) && is_negative RHS rhs) eqn:E2.
  { unfold is_negative, type_min in *. destruct (is_signed RHS), (is_signed LHS); cbn in *; try done. lia. }
  destruct (exact_comparisons E1 E2) as (-> & -> & _ & -> & _).
  destruct (Z.ltb_spec (type_max LHS) rhs); [lia|]. destruct (Z.leb_spec rhs (type_min LHS)); [lia|done].
Qed.

Lemma greater_than_exact : greater_than_impl RHS rhs LHS lhs = (rhs <? lhs).
Proof.
  unfold greater_than_impl. unfold has_type in *.
  destruct (negb (is_signed RHS) && is_negative LHS lhs) eqn:E1.
  { unfold is_negative, type_min in *. destruct (is_signed RHS), (is_signed LHS); cbn in *; try done. lia. }
  destruct (negb (is_signed LHS) && is_negative RHS rhs) eqn:E2.
  { unfold is_negative, type_min in *. destruct (is_signed RHS), (is_signed LHS); cbn in *; try done. lia. }
  destruct (exact_comparisons E1 E2) as (-> & _ & -> & _ & ->).
  destruct (Z.ltb_spec (type_max LHS) rhs); [lia|]. destruct (Z.ltb_spec rhs (type_min LHS)); [lia|done].
Qed.
End Compare.

Lemma cast_nonneg t z : is_int_type t -> is_signed t = false -> 0 <= cast t z.
Proof.
  intros Ht E. unfold cast. rewrite E. pose proof (type_bounds t Ht) as (_ & _ & ?).
  pose proof (wrap_range (bits t) z ltac:(lia)) as []. lia.
Qed.

(** Against the bound 0 of an unsigned type even the mixed comparison is right. *)
Lemma less_than_zero Tgt Src v :
  is_int_type Tgt -> is_int_type Src -> is_signed Tgt = false -> has_type Src v ->
  less_than_impl Tgt 0 Src v = (v <? 0).
Proof.
  intros HT HS E Hv. assert (type_min Tgt = 0) as Hmin by (unfold type_min; by rewrite E).
  assert (has_type Tgt 0) as H0 by (rewrite <- Hmin; by apply min_has_type).
  destruct (mixed_up Tgt Src) eqn:Hm; [|by apply less_than_exact].
  unfold mixed_up in Hm. rewrite E in Hm. cbn in Hm. destruct (is_signed Src) eqn:ES; [|done]. cbn in Hm.
  unfold less_than_impl, is_negative. rewrite E, ES. cbn [negb andb].
  destruct (Z.ltb_spec v 0) as [|Hv0]; [done|].
  pose proof (common_type_ok Tgt Src HT HS) as Hc.
  assert (is_signed (common_type Tgt Src) = false) as Ec by (by destruct (is_signed (common_type Tgt Src))).
  assert (0 <= type_max Src) by (pose proof (max_has_type Src HS); unfold has_type, type_max, type_min in *; lia).
  unfold cpp_gt at 1. rewrite cpp_lt_spec; try done; [|by apply max_has_type|left; lia].
  destruct (Z.ltb_spec (type_max Src) 0); [lia|].
  unfold cpp_le, cpp_lt at 1. rewrite (common_type_comm Src).
  assert (cast (common_type Tgt Src) 0 = 0) as ->.
  { apply cast_small; [done|]. apply common_type_has; auto. left. lia. }
  pose proof (cast_nonneg (common_type Tgt Src) (type_min Src) Hc Ec).
  destruct (Z.ltb_spec (cast (common_type Tgt Src) (type_min Src)) 0); [lia|done].
Qed.

Lemma max_check_not_mixed Tgt Src :
  is_int_type Tgt -> is_int_type Src -> type_max Tgt < type_max Src -> mixed_up Tgt Src = false.
Proof.
  destruct Tgt as [w []], Src as [w' []]; unfold is_int_type, mixed_up, type_max, common_type, promote;
    cbn [bits is_signed negb andb]; try done; intros Ht Ht';
    destruct Ht as [->|[->|[->|[->| ->]]]], Ht' as [->|[->|[->|[->| ->]]]]; cbn; try done; lia.
Qed.

Lemma max_check Tgt Src : is_int_type Tgt -> is_int_type Src ->
  cpp_lt (make_unsigned Tgt) (cast (make_unsigned Tgt) (type_max Tgt))
         (make_unsigned Src) (cast (make_unsigned Src) (type_max Src)) = (type_max Tgt <? type_max Src).
Proof.
  assert (forall t, is_int_type t -> is_int_type (make_unsigned t) /\ has_type (make_unsigned t) (type_max t)) as H.
  { intros t Ht. split; [done|]. pose proof (type_bounds t Ht).
    unfold has_type, make_unsigned, type_min, type_max. cbn. destruct (is_signed t); lia. }
  intros HT HS. destruct (H Tgt HT), (H Src HS). rewrite !cast_small by done.
  apply cpp_lt_spec; try done. left. unfold has_type in *. cbn in *. lia.
Qed.

(** (C32) The checked conversion between any two integral types returns the value when the target type
    has it, and otherwise the overflow on the side where the value lies, for every value of every
    pair of types, although it compares values of different signedness. *)
Theorem convertTo_integral_spec Tgt Src v :
  is_int_type Tgt -> is_int_type Src -> has_type Src v ->
  convertTo_integral Tgt Src v =
    if type_max Tgt <? v then Err ARITH_POSITIVE_OVERFLOW
    else if v <? type_min Tgt then Err ARITH_NEGATIVE_OVERFLOW
    else Ok v.
Proof.
  intros HT HS Hv. unfold convertTo_integral. rewrite max_check by done.
  assert ((type_max Tgt <? type_max Src) && greater_than_impl Tgt (type_max Tgt) Src v = (type_max Tgt <? v)) as ->.
  { destruct (Z.ltb_spec (type_max Tgt) (type_max Src)).
    - apply greater_than_exact; try done; [by apply max_has_type|by apply max_check_not_mixed].
    - unfold has_type in Hv. symmetry. apply Z.ltb_ge. lia. }
  destruct (Z.ltb_spec (type_max Tgt) v) as [|Hmax]; [done|].
  assert (is_signed Src && (negb (is_signed Tgt) || (bits Tgt <? bits Src)) && less_than_impl Tgt (type_min Tgt) Src v
          = (v <? type_min Tgt)) as ->.
  { pose proof (type_bounds Tgt HT) as (HT1 & HT2 & HT3). pose proof (type_bounds Src HS) as (HS1 & HS2 & HS3).
    unfold has_type in Hv. destruct (is_signed Src) eqn:ES; cbn [andb].
    - destruct (is_signed Tgt) eqn:ET; cbn [negb orb].
      + destruct (Z.ltb_spec (bits Tgt) (bits Src)); cbn [andb].
        * apply less_than_exact; try done; [by apply min_has_type|]. unfold mixed_up. by rewrite ET.
        * assert (2 ^ (bits Src - 1) <= 2 ^ (bits Tgt - 1)) by (apply Z.pow_le_mono_r; lia).
          symmetry. apply Z.ltb_ge. unfold type_min in *. rewrite ES, ET in *. lia.
      + cbn [andb]. replace (type_min Tgt) with 0 by (unfold type_min; by rewrite ET). by apply less_than_zero.
    - symmetry. apply Z.ltb_ge. unfold type_min in *. rewrite ES in Hv. destruct (is_signed Tgt); lia. }
  destruct (Z.ltb_spec v (type_min Tgt)) as [|Hmin]; [done|]. by rewrite cast_small.
Qed.

Lemma convertTo_integral_spec_witness :
  convertTo_integral (mkInt 32 false) (mkInt 64 true) (-1) =
    if type_max (mkInt 32 false) <? -1 then Err ARITH_POSITIVE_OVERFLOW
    else if -1 <? type_min (mkInt 32 false) then Err ARITH_NEGATIVE_OVERFLOW
    else Ok (-1).
Proof.
  apply (convertTo_integral_spec (mkInt 32 false) (mkInt 64 true) (-1)); unfold is_int_type, has_type; cbn; auto; lia.
Defined.

(** The lowest value of the signed type, converted to the unsigned one, is above all its values. *)
Lemma mixed_min RHS LHS :
  is_int_type RHS -> is_int_type LHS -> mixed_up RHS LHS = true ->
  type_max LHS < cast (common_type RHS LHS) (type_min LHS).
Proof.
  destruct RHS as [w []], LHS as [w' []]; unfold is_int_type, mixed_up; cbn [bits is_signed negb andb]; try done.
  intros Ht Ht'; destruct Ht as [->|[->|[->|[->| ->]]]], Ht' as [->|[->|[->|[->| ->]]]]; intros E; vm_compute in E |- *; done.
Qed.

(** (C39) [less_than] and [greater_than] compare the values of their operands, whatever the types,
    unless the bound is unsigned, the value is signed and the bound's type wins the usual arithmetic
    conversions (it is at least as wide as [int] and as the type of the value).  There they compare the
    values too if the value is negative or the bound is above all values of its type; but if the value
    is not negative and the bound is a value of its type, [less_than] is false and [greater_than] is
    true, whatever the values are. *)
Theorem less_than_greater_than_spec RHS rhs LHS lhs :
  is_int_type RHS -> is_int_type LHS -> has_type RHS rhs -> has_type LHS lhs ->
  (mixed_up RHS LHS = false \/ lhs < 0 \/ type_max LHS < rhs ->
     less_than_impl RHS rhs LHS lhs = (lhs <? rhs) /\ greater_than_impl RHS rhs LHS lhs = (rhs <? lhs)) /\
  (mixed_up RHS LHS = true -> 0 <= lhs -> rhs <= type_max LHS ->
     less_than_impl RHS rhs LHS lhs = false /\ greater_than_impl RHS rhs LHS lhs = true).
Proof.
  intros HR HL Hr Hl. destruct (mixed_up RHS LHS) eqn:Hm; cycle 1.
  { split; [intros _|done]. by split; [apply less_than_exact|apply greater_than_exact]. }
  assert (is_signed RHS = false /\ is_signed LHS = true) as [ER EL].
  { unfold mixed_up in Hm. by destruct (is_signed RHS), (is_signed LHS). }
  assert (0 <= rhs) as Hr0 by (unfold has_type, type_min in Hr; rewrite ER in Hr; lia).
  assert (cpp_gt RHS rhs LHS (type_max LHS) = (type_max LHS <? rhs)) as Hgt.
  { unfold cpp_gt. rewrite cpp_lt_spec; [done|done|done|by apply max_has_type|done|]. left. split; [|done].
    unfold type_max. rewrite EL. assert (0 < 2 ^ (bits LHS - 1)); [|lia]. apply Z.pow_pos_nonneg; [lia|]. unfold is_int_type in HL. lia. }
  pose proof (mixed_min RHS LHS HR HL Hm) as Hmin. pose proof (common_type_ok RHS LHS HR HL) as Hc.
  unfold less_than_impl, greater_than_impl, is_negative. rewrite ER, EL, Hgt. cbn [negb andb]. unfold has_type in Hl. split.
  - intros [|Hx]; [done|]. destruct (Z.ltb_spec lhs 0), (Z.ltb_spec (type_max LHS) rhs); lia.
  - intros _ Hl0 Hrm. assert (cast (common_type RHS LHS) rhs = rhs) as Hcr by (apply cast_small; [done|]; apply common_type_has; naive_solver lia).
    rewrite (proj2 (Z.ltb_ge lhs 0)), (proj2 (Z.ltb_ge _ rhs)) by done. unfold cpp_le, cpp_lt at 1 3. rewrite (common_type_comm LHS RHS), Hcr.
    rewrite (proj2 (Z.ltb_ge _ rhs)), (proj2 (Z.ltb_lt rhs _)) by lia. done.
Qed.

Lemma less_than_greater_than_spec_witness :
  (less_than_impl (mkInt 32 false) 5 (mkInt 32 true) (-3) = true /\
   greater_than_impl (mkInt 32 false) 5 (mkInt 32 true) (-3) = false) /\
  less_than_impl (mkInt 32 false) 5 (mkInt 32 true) 3 = false /\
  greater_than_impl (mkInt 32 false) 5 (mkInt 32 true) 3 = true.
Proof.
  split.
  - destruct (less_than_greater_than_spec (mkInt 32 false) 5 (mkInt 32 true) (-3)) as [H _];
      [unfold is_int_type, has_type; cbn; auto; lia..|]. apply H. right. left. lia.
  - destruct (less_than_greater_than_spec (mkInt 32 false) 5 (mkInt 32 true) 3) as [_ H];
      [unfold is_int_type, has_type; cbn; auto; lia..|]. apply H; [reflexivity|lia|vm_compute; congruence].
Defined.
