(* ===== verification/ToAscii.v ===== *)
(** * ToAscii: digits of an unsigned integer ([folly/lang/ToAscii.h])

    The base is a parameter between 2 and 36, as it is a template parameter in the code; the memory
    the digits are written to is a list of bytes, and [None] is an access outside an array.  The
    code is that of a little endian machine.

    The four ways to count digits are proved equal to the number of digits, the two ways to write
    them to leave the digits in the buffer and nothing else changed. *)
From S2P Require Import Prelude.

(** ** Alphabets and tables *)

Definition to_ascii_alphabet (Upper : bool) (b : Z) : Z :=
  if b <? 10 then 48 + b else (if Upper then 65 else 97) + (b - 10).

Section Base.
Variable Base : Z.
Variable Upper : bool.

(** The [Alphabet] of the template: that of [Upper], [Base] being at most 36. *)
Abbreviation alpha := (to_ascii_alphabet Upper).

Definition to_ascii_array_data : list Z := (fun i => u8 (alpha (u8 i))) <$> seqZ 0 Base.

(** The pair of digits [i] as a 16-bit integer, the first digit in the byte that comes first in
    memory. *)
Definition to_ascii_table_data : list Z :=
  (fun i => u16 ((alpha (u8 (i / Base)) .<< 0) .| (alpha (u8 (i mod Base)) .<< 8))) <$> seqZ 0 (Base * Base).

(** [size_]; a [w]-bit value has at most [w] digits, so [w] calls are enough. *)
Fixpoint powers_size_ (n : nat) (v : Z) : nat :=
  match n with
  | O => 1
  | S n => (1 + (if (v <? Base)%Z then 0 else powers_size_ n (v / Base)))%nat
  end.

Definition to_ascii_powers_size (w : Z) : nat := powers_size_ (Z.to_nat w) (2 ^ w - 1).

Definition to_ascii_powers_data : list Z :=
  (fun i => u64 (Base ^ Z.of_nat i)) <$> seq 0 (to_ascii_powers_size 64).

(** ** The number of digits *)

Fixpoint imuls_loop (n i : nat) (p v : Z) : nat :=
  match n with
  | O => to_ascii_powers_size 64
  | S n => if (v <? p)%Z then i + (if decide (i = 0) then 1 else 0) else imuls_loop n (S i) (u64 (p * Base)%Z) v
  end%nat.
Definition to_ascii_size_imuls (v : Z) : nat := imuls_loop (to_ascii_powers_size 64) 0 1 v.

(** The [while] loop; each turn divides a 64-bit value by at least 2. *)
Fixpoint idivs_loop (n i : nat) (v : Z) : nat :=
  match n with
  | O => i
  | S n => if Base <=? v then idivs_loop n (i + 1)%nat (v / Base) else i
  end.
Definition to_ascii_size_idivs (v : Z) : nat := idivs_loop 64 1 v.

Fixpoint array_loop (powers : list Z) (i : nat) (v : Z) : nat :=
  match powers with
  | [] => to_ascii_powers_size 64
  | p :: powers => if (v <? p)%Z then i + (if decide (i = 0) then 1 else 0) else array_loop powers (S i) v
  end%nat.
Definition to_ascii_size_array (v : Z) : nat := array_loop to_ascii_powers_data 0 v.

(** [__builtin_clzll], of a value that is not 0. *)
Definition clzll (v : Z) : Z := 63 - Z.log2 v.

(** [size_t(blog2r * 256)] with [blog2r = 8. / double(blog2m)] is the integer part of
    [2048 / blog2m]. *)
Definition to_ascii_size_clzll (v : Z) : nat :=
  if v =? 0 then 1%nat
  else
    let vlog2 := 64 - clzll v in
    if Base .& (Base - 1) =? 0 then
      let blog2 := Z.log2 Base in
      Z.to_nat (vlog2 / blog2 + (if vlog2 mod blog2 =? 0 then 0 else 1))
    else
      let blog2m := Z.log2 (Base ^ 8) in
      let vlogb := Z.to_nat (vlog2 * (2048 / blog2m) / 256) in
      (vlogb + match to_ascii_powers_data !! vlogb with Some p => if (p <=? v)%Z then 1 else 0 | None => 0 end)%nat.

Definition to_ascii_size_route (kIsArchAmd64 : bool) (v : Z) : nat :=
  if kIsArchAmd64 && (Base .& (Base - 1) =? 0) then to_ascii_size_clzll v else to_ascii_size_array v.

(** ** Writing the digits *)

(** The [for] loop from [pos] down to 1; [xlate] is an alphabet or the lookup in an array. *)
Fixpoint basic_loop (xlate : Z -> option Z) (out : list Z) (pos : nat) (v : Z) : option (list Z) :=
  match pos with
  | O => d ← xlate (u8 v); store out 0 d
  | S p => d ← xlate (u8 (v mod Base)); out ← store out pos d; basic_loop xlate out p (v / Base)
  end.
Definition to_ascii_with_basic (xlate : Z -> option Z) (out : list Z) (size : nat) (v : Z) : option (list Z) :=
  basic_loop xlate out (size - 1) v.

Definition to_ascii_with_array (out : list Z) (size : nat) (v : Z) : option (list Z) :=
  to_ascii_with_basic (fun b => to_ascii_array_data !! Z.to_nat b) out size v.

(** [memcpy(out + pos, &val, 2)]. *)
Definition store16 (out : list Z) (pos : nat) (val : Z) : option (list Z) :=
  out ← store out pos (u8 val); store out (S pos) (u8 (val .>> 8)).

(** The [while] loop and what follows it; [n] is half the digits left, rounded up. *)
Fixpoint table_loop (n : nat) (out : list Z) (pos : nat) (v : Z) : option (list Z) :=
  match n with
  | S n =>
      if decide (2 < pos)%nat then
        val ← to_ascii_table_data !! Z.to_nat (v mod (Base * Base));
        out ← store16 out (pos - 2) val;
        table_loop n out (pos - 2) (v / (Base * Base))
      else
        val ← to_ascii_table_data !! Z.to_nat v;
        if decide (pos = 2)%nat then store16 out 0 val else store out 0 (u8 (val .>> 8))
  | O => None
  end.
Definition to_ascii_with_table (out : list Z) (size : nat) (v : Z) : option (list Z) :=
  table_loop (S size) out size v.

Definition to_ascii_with_route (kIsMobile : bool) (out : list Z) (size : nat) (v : Z) : option (list Z) :=
  if kIsMobile then to_ascii_with_array out size v else to_ascii_with_table out size v.

(** [to_ascii_with] for an array that has room for any value. *)
Definition to_ascii_with_array_ref (kIsArchAmd64 : bool) (out : list Z) (v : Z) : option (list Z * nat) :=
  let size := to_ascii_size_route kIsArchAmd64 v in
  out ← to_ascii_with_table out size v; Some (out, size).

(** [to_ascii_with(outb, oute, v)]: [out] is the buffer from [outb] to [oute]; returns the number
    of bytes written. *)
Definition to_ascii_with (kIsArchAmd64 kIsMobile : bool) (out : list Z) (v : Z) : option (list Z * nat) :=
  let size := to_ascii_size_route kIsArchAmd64 v in
  if decide (length out < size)%nat then Some (out, 0%nat)
  else out ← to_ascii_with_route kIsMobile out size v; Some (out, size).

(** ** Reference definitions *)

(** [n] digits of [v], the most significant first. *)
Fixpoint digits (n : nat) (v : Z) : list Z :=
  match n with O => [] | S n => digits n (v / Base) ++ [alpha (v mod Base)] end.

(** [v] has [n] digits. *)
Definition num_digits (n : nat) (v : Z) : Prop :=
  (1 <= n)%nat /\ 0 <= v < Base ^ Z.of_nat n /\ (n <> 1%nat -> Base ^ (Z.of_nat n - 1) <= v).

(** ** Counting *)

Hypothesis HBase : 2 <= Base <= 36.

Lemma pow_nat_S n : Base ^ Z.of_nat (S n) = Base * Base ^ Z.of_nat n.
Proof. rewrite Nat2Z.inj_succ, Z.pow_succ_r by lia. done. Qed.

Lemma num_digits_unique n n' v : num_digits n v -> num_digits n' v -> n = n'.
Proof.
  intros (H1 & H2 & H3) (H1' & H2' & H3').
  assert (forall a b : nat, (a < b)%nat -> v < Base ^ Z.of_nat a -> (b <> 1%nat -> Base ^ (Z.of_nat b - 1) <= v) ->
            (1 <= a)%nat -> False) as Hlt.
  { intros a b Hab Ha Hb Ha1. specialize (Hb ltac:(lia)).
    assert (Base ^ Z.of_nat a <= Base ^ (Z.of_nat b - 1)) by (apply Z.pow_le_mono_r; lia). lia. }
  destruct (lt_eq_lt_dec n n') as [[?|?]|?]; [|done|]; exfalso;
    [apply (Hlt n n')|apply (Hlt n' n)]; done || lia.
Qed.

Lemma powers_size_digits n v : 0 <= v < Base ^ Z.of_nat (S n) -> num_digits (powers_size_ n v) v.
Proof.
  revert v. induction n as [|n IH]; intros v Hv; cbn [powers_size_].
  { split; [done|]. split; [done|lia]. }
  destruct (Z.ltb_spec v Base).
  { split; [done|]. split; [|done]. change (Z.of_nat (1 + 0)) with 1. lia. }
  rewrite pow_nat_S in Hv. destruct (IH (v / Base)) as (H1 & H2 & H3).
  { split; [apply Z.div_pos; lia|]. apply Z.div_lt_upper_bound; lia. }
  set (d := powers_size_ n (v / Base)) in *. split; [lia|].
  change (1 + d)%nat with (S d). rewrite pow_nat_S. split.
  - pose proof (Z.mul_succ_div_gt v Base). nia.
  - intros _. replace (Z.of_nat (S d) - 1) with (Z.of_nat d) by lia.
    destruct d as [|[|d]]; [lia|change (Z.of_nat 1) with 1; lia|]. specialize (H3 ltac:(lia)).
    replace (Z.of_nat (S (S d))) with (Z.succ (Z.of_nat (S (S d)) - 1)) by lia. rewrite Z.pow_succ_r by lia.
    pose proof (Z.mul_div_le v Base). nia.
Qed.

Lemma pow_bound n : 2 ^ Z.of_nat n <= Base ^ Z.of_nat n.
Proof. apply Z.pow_le_mono_l. lia. Qed.

Abbreviation size64 := (to_ascii_powers_size 64).

Lemma size64_digits : num_digits size64 (2 ^ 64 - 1).
Proof.
  apply powers_size_digits. pose proof (pow_bound 65).
  change (Z.of_nat (S (Z.to_nat 64))) with 65 in *. change (Z.of_nat 65) with 65 in *. lia.
Qed.

Lemma power_fits i : (i < size64)%nat -> is_u64 (Base ^ Z.of_nat i).
Proof.
  intros Hi. destruct size64_digits as (H1 & H2 & H3). unfold is_uint. split; [apply Z.pow_nonneg; lia|].
  destruct (decide (size64 = 1%nat)) as [E|E].
  - replace i with 0%nat by lia. done.
  - specialize (H3 E). assert (Base ^ Z.of_nat i <= Base ^ (Z.of_nat size64 - 1)) by (apply Z.pow_le_mono_r; lia). lia.
Qed.

Lemma array_loop_digits n i v :
  (i + n)%nat = size64 -> is_u64 v -> (i = 0%nat \/ Base ^ (Z.of_nat i - 1) <= v) ->
  num_digits (array_loop ((fun i => u64 (Base ^ Z.of_nat i)) <$> seq i n) i v) v.
Proof.
  revert i. induction n as [|n IH]; intros i Hn Hv Hi; cbn [seq fmap list_fmap array_loop].
  - destruct size64_digits as (H1 & H2 & H3). rewrite Nat.add_0_r in Hn. rewrite <- Hn in *.
    unfold is_uint in Hv. split; [done|]. split; [lia|]. intros _. destruct Hi; [lia|done].
  - rewrite wrap_small by (apply power_fits; lia). unfold is_uint in Hv.
    destruct (Z.ltb_spec v (Base ^ Z.of_nat i)).
    + case_decide as E.
      * subst. change (Base ^ Z.of_nat 0) with 1 in *. split; [lia|]. split; [|lia].
        change (Z.of_nat (0 + 1)) with 1. lia.
      * destruct Hi as [?|Hi]; [done|]. rewrite Nat.add_0_r. split; [lia|]. split; [lia|done].
    + apply IH; [lia|done|]. right. by replace (Z.of_nat (S i) - 1) with (Z.of_nat i) by lia.
Qed.

Lemma to_ascii_size_array_digits v : is_u64 v -> num_digits (to_ascii_size_array v) v.
Proof. intros Hv. apply array_loop_digits; [done|done|by left]. Qed.

Lemma imuls_array n i p v :
  (i + n)%nat = size64 -> (n <> 0%nat -> p = Base ^ Z.of_nat i) ->
  imuls_loop n i p v = array_loop ((fun i => u64 (Base ^ Z.of_nat i)) <$> seq i n) i v.
Proof.
  revert i p. induction n as [|n IH]; intros i p Hn Hp; cbn [seq fmap list_fmap array_loop imuls_loop]; [done|].
  rewrite Hp, (wrap_small 64 (Base ^ Z.of_nat i)) by (done || (apply power_fits; lia)). destruct (v <? _); [done|].
  apply IH; [lia|]. intros Hn0. rewrite wrap_small.
  - rewrite pow_nat_S. lia.
  - replace (Base ^ Z.of_nat i * Base) with (Base ^ Z.of_nat (S i)) by (rewrite pow_nat_S; lia).
    apply power_fits. lia.
Qed.

Lemma to_ascii_size_imuls_array v : to_ascii_size_imuls v = to_ascii_size_array v.
Proof. by apply imuls_array. Qed.

Lemma idivs_powers n i v : idivs_loop n (S i) v = (i + powers_size_ n v)%nat.
Proof.
  revert i v. induction n as [|n IH]; intros i v; cbn; [lia|].
  destruct (Z.ltb_spec v Base), (Z.leb_spec Base v); try lia. rewrite Nat.add_1_r, IH. lia.
Qed.

Lemma to_ascii_size_idivs_digits v : is_u64 v -> num_digits (to_ascii_size_idivs v) v.
Proof.
  intros Hv. unfold to_ascii_size_idivs. rewrite idivs_powers. apply powers_size_digits.
  unfold is_uint in Hv. pose proof (pow_bound 65). change (Z.of_nat 65) with 65 in *. lia.
Qed.

(** ** Writing *)

Lemma alpha_range b : 0 <= b < Base -> 48 <= alpha b < 128.
Proof. intros Hb. unfold to_ascii_alphabet. destruct (Z.ltb_spec b 10), Upper; lia. Qed.

Lemma digits_pair n v :
  0 <= v -> digits (S (S n)) v =
    digits n (v / (Base * Base)) ++ [alpha (v mod (Base * Base) / Base); alpha (v mod (Base * Base) mod Base)].
Proof.
  intros Hv. cbn [digits]. rewrite <- app_assoc, <- Z.div_div by lia. cbn [app].
  assert (v mod (Base * Base) = v mod Base + Base * ((v / Base) mod Base)) as Hm by (rewrite Z.rem_mul_r by lia; lia).
  rewrite Hm. do 3 f_equal.
  - rewrite (Z.mul_comm Base), Z.div_add by lia. rewrite (Z.div_small (v mod Base)); [lia|]. apply Z.mod_pos_bound. lia.
  - rewrite (Z.mul_comm Base), Z.mod_add, Z.mod_mod by lia. done.
Qed.

Lemma digits_length n v : length (digits n v) = n.
Proof. revert v. induction n as [|n IH]; intros v; cbn; [done|]. rewrite length_app, IH. cbn. lia. Qed.

Lemma basic_loop_digits xlate out pos v :
  (forall b, 0 <= b < Base -> xlate b = Some (alpha b)) ->
  (pos < length out)%nat -> 0 <= v < Base ^ Z.of_nat (S pos) ->
  basic_loop xlate out pos v = Some (digits (S pos) v ++ drop (S pos) out).
Proof.
  intros Hx. revert out v. induction pos as [|pos IH]; intros out v Hpos Hv; cbn [basic_loop].
  - change (Base ^ Z.of_nat 1) with (Base ^ 1) in Hv. rewrite Z.pow_1_r in Hv.
    rewrite wrap_small by (unfold is_uint; lia). rewrite Hx by done. cbn.
    rewrite store_in_bounds by done. rewrite Z.mod_small by done. destruct out; [cbn in Hpos; lia|done].
  - rewrite pow_nat_S in Hv. pose proof (Z.mod_pos_bound v Base).
    rewrite wrap_small by (unfold is_uint; lia). rewrite Hx by lia. cbn [mbind option_bind].
    rewrite store_in_bounds by done. cbn [mbind option_bind].
    rewrite IH; [|rewrite length_insert; lia|].
    2: { split; [apply Z.div_pos; lia|apply Z.div_lt_upper_bound; lia]. }
    f_equal. cbn [digits]. rewrite <- !app_assoc. do 2 f_equal. cbn [app].
    rewrite (drop_S _ (alpha (v mod Base)) (S pos)) by (by apply list_lookup_insert_eq).
    f_equal. rewrite drop_insert_lt by lia. done.
Qed.

Lemma array_lookup b : 0 <= b < Base -> to_ascii_array_data !! Z.to_nat b = Some (alpha b).
Proof.
  intros Hb. unfold to_ascii_array_data. rewrite list_lookup_fmap, lookup_seqZ_lt by lia. cbn. f_equal.
  rewrite Z2Nat.id, Z.add_0_l by lia. rewrite (wrap_small 8 b) by (unfold is_uint; lia).
  pose proof (alpha_range b Hb). by rewrite wrap_small by (unfold is_uint; lia).
Qed.

Lemma table_lookup r : 0 <= r < Base * Base ->
  exists val, to_ascii_table_data !! Z.to_nat r = Some val /\
    u8 val = alpha (r / Base) /\ u8 (val .>> 8) = alpha (r mod Base).
Proof.
  intros Hr. unfold to_ascii_table_data. rewrite list_lookup_fmap, lookup_seqZ_lt by lia.
  rewrite Z2Nat.id, Z.add_0_l by lia. cbn [fmap option_fmap option_map].
  assert (0 <= r / Base < Base) as Hq by (split; [apply Z.div_pos; lia|apply Z.div_lt_upper_bound; lia]).
  pose proof (Z.mod_pos_bound r Base ltac:(lia)) as Hm.
  rewrite (wrap_small 8 (r / Base)), (wrap_small 8 (r mod Base)) by (unfold is_uint; lia).
  pose proof (alpha_range _ Hq) as H1. pose proof (alpha_range _ Hm) as H2.
  set (a := alpha (r / Base)) in *. set (b := alpha (r mod Base)) in *.
  rewrite Z.shiftl_0_r, (shiftl_mul b 8), (lor_disjoint a b 8) by (unfold is_uint; lia).
  rewrite wrap_small by (unfold is_uint; lia).
  eexists. split; [done|]. rewrite shiftr_div by lia. unfold wrap. split.
  - rewrite Z.mod_add by lia. apply Z.mod_small. lia.
  - rewrite Z.div_add, Z.div_small, Z.add_0_l by lia. apply Z.mod_small. lia.
Qed.

Lemma store16_drop out pos val :
  (S pos < length out)%nat ->
  exists out', store16 out pos val = Some out' /\ length out' = length out /\
    drop pos out' = u8 val :: u8 (val .>> 8) :: drop (S (S pos)) out.
Proof.
  intros Hp. unfold store16. rewrite store_in_bounds by lia. cbn [mbind option_bind].
  rewrite store_in_bounds by (rewrite length_insert; lia). eexists. split; [done|].
  rewrite !length_insert. split; [done|].
  rewrite (drop_S _ (u8 val) pos).
  2: { rewrite list_lookup_insert_ne by lia. apply list_lookup_insert_eq. lia. }
  rewrite (drop_S _ (u8 (val .>> 8)) (S pos)) by (apply list_lookup_insert_eq; rewrite length_insert; lia).
  by rewrite !drop_insert_lt by lia.
Qed.

Lemma table_loop_digits n out pos v :
  (pos <= n)%nat -> (1 <= pos <= length out)%nat -> 0 <= v < Base ^ Z.of_nat pos ->
  table_loop n out pos v = Some (digits pos v ++ drop pos out).
Proof.
  revert out pos v. induction n as [|n IH]; intros out pos v Hn Hpos Hv; [lia|]. cbn [table_loop].
  case_decide as Hp.
  - destruct pos as [|[|pos]]; [lia..|]. replace (S (S pos) - 2)%nat with pos by lia.
    destruct (table_lookup (v mod (Base * Base))) as (val & Hval & H1 & H2); [apply Z.mod_pos_bound; nia|].
    rewrite Hval. cbn [mbind option_bind].
    destruct (store16_drop out pos val ltac:(lia)) as (out' & Hout' & Hlen & Hdrop).
    rewrite Hout'. cbn [mbind option_bind]. rewrite IH; [|lia|lia|].
    + rewrite Hdrop, H1, H2, digits_pair by lia. by rewrite <- app_assoc.
    + rewrite !pow_nat_S in Hv. split; [apply Z.div_pos; nia|apply Z.div_lt_upper_bound; nia].
  - assert (pos = 1 \/ pos = 2)%nat as [->| ->] by lia.
    + change (Base ^ Z.of_nat 1) with (Base ^ 1) in Hv. rewrite Z.pow_1_r in Hv.
      destruct (table_lookup v) as (val & Hval & _ & H2); [nia|]. rewrite Hval. cbn [mbind option_bind].
      rewrite decide_False by lia. rewrite store_in_bounds by lia. rewrite H2. destruct out; [cbn in Hpos; lia|done].
    + change (Base ^ Z.of_nat 2) with (Base ^ 2) in Hv. rewrite Z.pow_2_r in Hv.
      destruct (table_lookup v) as (val & Hval & H1 & H2); [done|]. rewrite Hval. cbn [mbind option_bind].
      rewrite decide_True by done. destruct (store16_drop out 0 val ltac:(lia)) as (out' & -> & Hlen & Hdrop).
      rewrite drop_0 in Hdrop. rewrite Hdrop, H1, H2, digits_pair by lia. by rewrite (Z.mod_small v (Base * Base)) by done.
Qed.

Lemma to_ascii_with_route_digits mobile out size v :
  (1 <= size <= length out)%nat -> 0 <= v < Base ^ Z.of_nat size ->
  to_ascii_with_route mobile out size v = Some (digits size v ++ drop size out).
Proof.
  intros Hs Hv. unfold to_ascii_with_route. destruct mobile.
  - unfold to_ascii_with_array, to_ascii_with_basic. destruct size as [|size]; [lia|].
    replace (S size - 1)%nat with size by lia. rewrite basic_loop_digits; [done|apply array_lookup|lia|done].
  - apply table_loop_digits; [lia|lia|done].
Qed.
End Base.

(** ** Counting with the position of the highest bit *)

Lemma clzll_pow2 k v : 1 <= k <= 5 -> is_u64 v -> num_digits (2 ^ k) (to_ascii_size_clzll (2 ^ k) v) v.
Proof.
  intros Hk Hv. unfold to_ascii_size_clzll, is_uint in *. destruct (Z.eqb_spec v 0) as [->|Hv0].
  { split; [done|]. split; [|done]. change (Z.of_nat 1) with 1. lia. }
  pose proof (Z.log2_spec v ltac:(lia)) as Hlog. pose proof (Z.log2_nonneg v).
  rewrite (land_ones_mod _ k), Z.mod_same by lia. cbn [Z.eqb]. rewrite Z.log2_pow2 by lia. unfold clzll.
  replace (64 - (63 - Z.log2 v)) with (Z.log2 v + 1) by lia. set (L := Z.log2 v) in *.
  set (n := (L + 1) / k + _).
  assert (1 <= n /\ L + 1 <= k * n /\ k * (n - 1) <= L) as (H1 & H2 & H3).
  { unfold n. pose proof (Z.div_mod (L + 1) k). pose proof (Z.mod_pos_bound (L + 1) k).
    destruct (Z.eqb_spec ((L + 1) mod k) 0); nia. }
  unfold num_digits. rewrite Z2Nat.id by lia. split; [lia|]. split.
  - split; [lia|]. rewrite <- Z.pow_mul_r by lia. apply Z.lt_le_trans with (2 ^ (L + 1)); [apply Hlog|].
    apply Z.pow_le_mono_r; lia.
  - intros _. rewrite <- Z.pow_mul_r by lia. apply Z.le_trans with (2 ^ L); [|apply Hlog].
    apply Z.pow_le_mono_r; lia.
Qed.

(** For base 10 the estimate is right for each of the 64 positions of the highest bit. *)
Definition estimate_ok (L : Z) : bool :=
  let b := (L + 1) * 78 / 256 in
  (b <? 20) && (0 <=? b) && (2 ^ (L + 1) <=? 10 ^ (b + 1)) && ((b =? 0) || (10 ^ (b - 1) <=? 2 ^ L)).

Lemma estimates : forallb estimate_ok (seqZ 0 64) = true.
Proof. vm_compute. reflexivity. Qed.

Lemma clzll_10 v : is_u64 v -> num_digits 10 (to_ascii_size_clzll 10 v) v.
Proof.
  intros Hv. unfold to_ascii_size_clzll, is_uint in *. destruct (Z.eqb_spec v 0) as [->|Hv0].
  { split; [done|]. split; [|done]. change (Z.of_nat 1) with 1. lia. }
  pose proof (Z.log2_spec v ltac:(lia)) as Hlog. pose proof (Z.log2_nonneg v).
  change (10 .& (10 - 1) =? 0) with false. change (2048 / Z.log2 (10 ^ 8)) with 78. unfold clzll.
  replace (64 - (63 - Z.log2 v)) with (Z.log2 v + 1) by lia. cbv iota zeta.
  assert (Z.log2 v < 64) by (apply Z.log2_lt_pow2; lia).
  pose proof estimates as Hest. rewrite forallb_forall in Hest.
  specialize (Hest (Z.log2 v) ltac:(apply list_elem_of_In, elem_of_seqZ; lia)). unfold estimate_ok in Hest.
  set (L := Z.log2 v) in *. set (b := (L + 1) * 78 / 256) in *. clearbody b L.
  rewrite !andb_true_iff, orb_true_iff, Z.ltb_lt, !Z.leb_le, Z.eqb_eq in Hest. destruct Hest as [[[H1 H2] H3] H4].
  assert (exists n : nat, b = Z.of_nat n /\ (n < 20)%nat) as (n & -> & Hn) by (exists (Z.to_nat b); lia).
  rewrite Nat2Z.id. unfold to_ascii_powers_data. change (to_ascii_powers_size 10 64) with 20%nat.
  rewrite list_lookup_fmap, lookup_seq_lt by done. cbn [fmap option_fmap option_map plus].
  rewrite wrap_small by (apply power_fits; [lia|done]). unfold num_digits.
  destruct (Z.leb_spec (10 ^ Z.of_nat n) v).
  - split; [lia|]. replace (Z.of_nat (n + 1)) with (Z.of_nat n + 1) by lia. split; [lia|].
    intros _. by replace (Z.of_nat n + 1 - 1) with (Z.of_nat n) by lia.
  - destruct (decide (n = 0%nat)) as [->|]; [change (10 ^ Z.of_nat 0) with 1 in *; lia|].
    rewrite Nat.add_0_r. split; [lia|]. split; [lia|]. intros _. destruct H4; [lia|]. lia.
Qed.

Lemma pow2_base Base : 2 <= Base <= 36 -> Base .& (Base - 1) = 0 -> exists k, 1 <= k <= 5 /\ Base = 2 ^ k.
Proof.
  intros HB H.
  assert (forallb (fun b => negb (b .& (b - 1) =? 0) || existsb (fun k => b =? 2 ^ k) [1; 2; 3; 4; 5]) (seqZ 2 35) = true)
    as Hall by (vm_compute; reflexivity).
  rewrite forallb_forall in Hall. specialize (Hall Base ltac:(apply list_elem_of_In, elem_of_seqZ; lia)).
  rewrite H in Hall. cbn [Z.eqb negb orb] in Hall. apply existsb_exists in Hall as (k & Hk & E).
  exists k. apply Z.eqb_eq in E. split; [|done]. cbn in Hk. lia.
Qed.

(** The route taken on either kind of machine counts the digits. *)
Lemma to_ascii_size_route_digits Base amd64 v :
  2 <= Base <= 36 -> is_u64 v -> num_digits Base (to_ascii_size_route Base amd64 v) v.
Proof.
  intros HB Hv. unfold to_ascii_size_route. destruct amd64; cbn [andb].
  - destruct (Z.eqb_spec (Base .& (Base - 1)) 0) as [E|]; [|by apply to_ascii_size_array_digits].
    destruct (pow2_base Base HB E) as (k & Hk & ->). by apply clzll_pow2.
  - by apply to_ascii_size_array_digits.
Qed.

Lemma to_ascii_with_array_ref_digits Base Upper amd64 out v :
  2 <= Base <= 36 -> is_u64 v -> (to_ascii_powers_size Base 64 <= length out)%nat ->
  exists size, num_digits Base size v /\
    to_ascii_with_array_ref Base Upper amd64 out v = Some (digits Base Upper size v ++ drop size out, size).
Proof.
  intros HB Hv Hlen. exists (to_ascii_size_route Base amd64 v).
  pose proof (to_ascii_size_route_digits Base amd64 v HB Hv) as Hd. split; [done|].
  unfold to_ascii_with_array_ref. destruct Hd as (H1 & H2 & H3).
  destruct (size64_digits Base HB) as (_ & H5 & _). unfold is_uint in Hv.
  unfold to_ascii_with_table. rewrite table_loop_digits; [done|done|lia| |done].
  split; [done|]. etransitivity; [|exact Hlen].
  destruct (decide (to_ascii_size_route Base amd64 v = 1%nat)) as [E|E]; [rewrite E; apply size64_digits; lia|].
  specialize (H3 E). apply Nat.nlt_ge. intros Hlt.
  assert (Base ^ Z.of_nat (to_ascii_powers_size Base 64) <= Base ^ (Z.of_nat (to_ascii_size_route Base amd64 v) - 1))
    by (apply Z.pow_le_mono_r; lia). lia.
Qed.

(** The four ways to count digits return the number of digits of any 64-bit value, in every
    base between 2 and 36; the one that estimates from the highest bit does so for base 10 and the
    powers of two. *)
Theorem to_ascii_sizes Base v :
  2 <= Base <= 36 -> is_u64 v ->
  num_digits Base (to_ascii_size_array Base v) v /\
  to_ascii_size_imuls Base v = to_ascii_size_array Base v /\
  to_ascii_size_idivs Base v = to_ascii_size_array Base v /\
  (Base = 10 \/ Base .& (Base - 1) = 0 -> to_ascii_size_clzll Base v = to_ascii_size_array Base v).
Proof.
  intros HB Hv. pose proof (to_ascii_size_array_digits Base HB v Hv) as Ha. split_and!; [done|..].
  - by apply to_ascii_size_imuls_array.
  - eapply num_digits_unique; [done|by apply to_ascii_size_idivs_digits|done].
  - intros HB'. eapply num_digits_unique; [done| |done]. destruct HB' as [->|HB']; [by apply clzll_10|].
    destruct (pow2_base Base HB HB') as (k & Hk & ->). by apply clzll_pow2.
Qed.

Lemma to_ascii_sizes_witness :
  num_digits 10 (to_ascii_size_array 10 18446744073709551615) 18446744073709551615 /\
  to_ascii_size_imuls 10 18446744073709551615 = to_ascii_size_array 10 18446744073709551615 /\
  to_ascii_size_idivs 10 18446744073709551615 = to_ascii_size_array 10 18446744073709551615 /\
  (10 = 10 \/ 10 .& (10 - 1) = 0 ->
   to_ascii_size_clzll 10 18446744073709551615 = to_ascii_size_array 10 18446744073709551615).
Proof. apply (to_ascii_sizes 10 18446744073709551615); [lia|unfold is_uint; lia]. Defined.

(** [to_ascii_with] writes the digits of the value at the start of the buffer, most significant
    first, returns their number and changes nothing after them; if the buffer is too small it
    changes nothing and returns 0.  It never leaves the buffer or a table, on any machine. *)
Theorem to_ascii_with_writes_digits Base Upper amd64 mobile out v :
  2 <= Base <= 36 -> is_u64 v ->
  exists size, num_digits Base size v /\
    to_ascii_with Base Upper amd64 mobile out v =
      if decide (length out < size)%nat then Some (out, 0%nat)
      else Some (digits Base Upper size v ++ drop size out, size).
Proof.
  intros HB Hv. exists (to_ascii_size_route Base amd64 v).
  pose proof (to_ascii_size_route_digits Base amd64 v HB Hv) as Hd. split; [done|].
  unfold to_ascii_with. case_decide as Hlen; [done|].
  destruct Hd as (H1 & H2 & _). by rewrite to_ascii_with_route_digits by (done || lia).
Qed.

Lemma to_ascii_with_writes_digits_witness :
  exists size, num_digits 16 size 48879 /\
    to_ascii_with 16 false true false [0; 0; 0; 0; 7] 48879 =
      if decide (length [0; 0; 0; 0; 7] < size)%nat then Some ([0; 0; 0; 0; 7], 0%nat)
      else Some (digits 16 false size 48879 ++ drop size [0; 0; 0; 0; 7], size).
Proof. apply (to_ascii_with_writes_digits 16 false true false); [lia|unfold is_uint; lia]. Defined.
