(* ===== verification/Conv.v ===== *)
(** * Conv: text to integers and booleans, integers to text ([folly/Conv.h], [folly/Conv.cpp])

    A string is a list of bytes and a pair of pointers into it is what lies between them, so that
    the parsers return the rest of their input.  [char] is a signed type, as on x86-64 and most
    other platforms; [None] is an access outside an array or past the end of the input.  [isdigit]
    and [isspace] are those of the C locale; of a negative [char], for which the C standard leaves
    them undefined, they are false, as in the C libraries in use. *)
From stdpp Require Import pretty.
From S2P Require Import Prelude IntConv ToAscii.

Definition c_char (b : Z) : Z := i8 b.

Definition isdigit (b : Z) : bool := (48 <=? b) && (b <=? 57).
Definition isspace (b : Z) : bool := ((9 <=? b) && (b <=? 13)) || (b =? 32).

(** The test of the loops that skip white space. *)
Definition is_blank (b : Z) : bool := negb (((c_char b <? 9) || (13 <? c_char b)) && negb (c_char b =? 32)).

Fixpoint skip_blanks (s : list Z) : list Z :=
  match s with [] => [] | b :: s' => if is_blank b then skip_blanks s' else s end.

(** The digits [b], [m) and the rest [m], [e) of the input. *)
Fixpoint findFirstNonDigit (s : list Z) : list Z * list Z :=
  match s with
  | [] => ([], [])
  | b :: s' =>
      if 10 <=? u32 (c_char b - 48) then ([], s)
      else let (d, r) := findFirstNonDigit s' in (b :: d, r)
  end.

(** [MaxString<UT>::value] and [numeric_limits<UT>::digits10] for an unsigned type of [w] bits. *)
Definition MaxString (w : Z) : string :=
  if w =? 8 then "255"
  else if w =? 16 then "65535"
  else if w =? 32 then "4294967295"
  else if w =? 64 then "18446744073709551615"
  else "340282366920938463463374607431768211455".

Definition digits10 (w : Z) : nat :=
  if w =? 8 then 2 else if w =? 16 then 4 else if w =? 32 then 9 else if w =? 64 then 19 else 38.

(** ** The lookup tables *)

Definition OOR : Z := 10000.

Definition shift_table (m : Z) : list Z :=
  replicate 48 OOR ++ ((fun d => d * m) <$> seqZ 0 10) ++ replicate 198 OOR.

Definition shift1 : list Z := shift_table 1.
Definition shift10 : list Z := shift_table 10.
Definition shift100 : list Z := shift_table 100.
Definition shift1000 : list Z := shift_table 1000.

(** [shift[static_cast<size_t>(b[i])]]. *)
Definition shifted (table : list Z) (b : Z) : option Z := table !! Z.to_nat (u64 (c_char b)).

(** ** Booleans *)

Definition tolower_ascii (b : Z) : Z := b .| 0x20.

(** [Some rest] when the input starts with [value], in whatever case. *)
Fixpoint bool_str_cmp (s value : list Z) : option (list Z) :=
  match value with
  | [] => Some s
  | v :: value =>
      match s with
      | [] => None
      | b :: s => if tolower_ascii b =? v then bool_str_cmp s value else None
      end
  end.

(** The loop over the digits of ["0"] and ["1"]. *)
Fixpoint bool_digits (s : list Z) (result : bool) : Prelude.result ConversionCode (bool * list Z) :=
  match s with
  | b :: s' =>
      if isdigit b then
        if result || (negb (b =? 48) && negb (b =? 49)) then Err BOOL_OVERFLOW else bool_digits s' (b =? 49)
      else Ok (result, s)
  | [] => Ok (result, [])
  end.

(** The word [value], or its first letter. *)
Definition bool_word (s value : list Z) (result : bool) : bool * list Z :=
  (result, match bool_str_cmp s value with Some rest => rest | None => tail s end).

Definition str_to_bool (src : list Z) : Prelude.result ConversionCode (bool * list Z) :=
  let s := skip_blanks src in
  match s with
  | [] => Err EMPTY_INPUT_STRING
  | b :: _ =>
      if (b =? 48) || (b =? 49) then bool_digits s false
      else if (b =? 121) || (b =? 89) then Ok (bool_word s (bytes_of "yes") true)
      else if (b =? 110) || (b =? 78) then Ok (bool_word s (bytes_of "no") false)
      else if (b =? 116) || (b =? 84) then Ok (bool_word s (bytes_of "true") true)
      else if (b =? 102) || (b =? 70) then Ok (bool_word s (bytes_of "false") false)
      else if (b =? 111) || (b =? 79) then
        match bool_str_cmp s (bytes_of "on"), bool_str_cmp s (bytes_of "off") with
        | Some rest, _ => Ok (true, rest)
        | None, Some rest => Ok (false, rest)
        | None, None => Err BOOL_INVALID_VALUE
        end
      else Err BOOL_INVALID_VALUE
  end.

(** ** Signed values *)

(** [SignedValueHandler]: the sign of a signed type, and the rest of the input; the first character
    is read even when there is none. *)
Definition sgn_init (T : int_type) (s : list Z) : option (Prelude.result ConversionCode (bool * list Z)) :=
  if is_signed T then
    match s with
    | [] => None
    | b :: s' =>
        Some (if isdigit b then Ok (false, s)
              else if b =? 45 then Ok (true, s')
              else if negb (b =? 43) then Err INVALID_LEADING_CHAR
              else Ok (false, s'))
    end
  else Some (Ok (false, s)).

Definition sgn_overflow (T : int_type) (negative : bool) : ConversionCode :=
  if is_signed T && negative then NEGATIVE_OVERFLOW else POSITIVE_OVERFLOW.

Definition sgn_finalize (T : int_type) (negative : bool) (value : Z) : Prelude.result ConversionCode Z :=
  if is_signed T then
    if negative then
      let rv := cast T (- value) in if 0 <? rv then Err NEGATIVE_OVERFLOW else Ok rv
    else
      let rv := cast T value in if rv <? 0 then Err POSITIVE_OVERFLOW else Ok rv
  else Ok value.

(** ** Digits *)

(** The loop that skips leading zeros after the first one. *)
Fixpoint skip_zeros (s : list Z) : list Z :=
  match s with [] => [] | b :: s' => if b =? 48 then skip_zeros s' else s end.

(** [strncmp(b, value, size) > 0] for strings of [size] characters. *)
Fixpoint strncmp_gt (s value : list Z) : bool :=
  match s, value with
  | b :: s, v :: value =>
      if b =? v then (if b =? 0 then false else strncmp_gt s value) else v <? b
  | _, _ => false
  end.

(** Four digits at a time, then the rest; [None] of the inner option is [outOfRange]. *)
Fixpoint digits_loop (w : Z) (s : list Z) (result : Z) : option (option Z) :=
  match s with
  | b0 :: b1 :: b2 :: b3 :: s' =>
      let result := wrap w (result * wrap w 10000) in
      r0 ← shifted shift1000 b0; r1 ← shifted shift100 b1; r2 ← shifted shift10 b2; r3 ← shifted shift1 b3;
      let sum := r0 + r1 + r2 + r3 in
      if OOR <=? sum then Some None else digits_loop w s' (wrap w (result + wrap w sum))
  | [b0; b1; b2] =>
      r0 ← shifted shift100 b0; r1 ← shifted shift10 b1; r2 ← shifted shift1 b2;
      let sum := r0 + r1 + r2 in
      Some (if OOR <=? sum then None else Some (wrap w (1000 * result + sum)))
  | [b0; b1] =>
      r0 ← shifted shift10 b0; r1 ← shifted shift1 b1;
      let sum := r0 + r1 in
      Some (if OOR <=? sum then None else Some (wrap w (100 * result + sum)))
  | [b0] =>
      sum ← shifted shift1 b0;
      Some (if OOR <=? sum then None else Some (wrap w (10 * result + sum)))
  | [] => Some (Some result)
  end.

(** The digits without leading zeros when there are many; [None] for a string of zeros. *)
Definition leading_zeros (w : Z) (b : list Z) : option (list Z) :=
  if decide (digits10 w < length b)%nat then
    match b with
    | 48 :: r => match skip_zeros r with [] => None | b' => Some b' end
    | _ => Some b
    end
  else Some b.

Definition too_big (w : Z) (b : list Z) : bool :=
  bool_decide (digits10 w < length b)%nat &&
  (negb (bool_decide (length b = S (digits10 w))) || strncmp_gt b (bytes_of (MaxString w))).

Definition digits_to (T : int_type) (src : list Z) : option (Prelude.result ConversionCode Z) :=
  let w := bits T in
  init ← sgn_init T src;
  match init with
  | Err e => Some (Err e)
  | Ok (negative, b) =>
      match leading_zeros w b with
      | None => Some (Ok 0)
      | Some b =>
          if too_big w b then Some (Err (sgn_overflow T negative))
          else
            result ← digits_loop w b 0;
            Some (match result with
                  | None => Err NON_DIGIT_CHAR
                  | Some v => if decide (b = []) then Err NO_DIGITS else sgn_finalize T negative v
                  end)
      end
  end.

(** The value and the rest of the input. *)
Definition str_to_integral (T : int_type) (src : list Z) : option (Prelude.result ConversionCode (Z * list Z)) :=
  match skip_blanks src with
  | [] => Some (Err EMPTY_INPUT_STRING)
  | s =>
      init ← sgn_init T s;
      match init with
      | Err e => Some (Err e)
      | Ok (negative, []) => if is_signed T then Some (Err NO_DIGITS) else None
      | Ok (negative, (b :: s') as s) =>
          if negb (isdigit b) then Some (Err NON_DIGIT_CHAR)
          else
            let (ds, rest) := findFirstNonDigit s' in
            tmp ← digits_to (make_unsigned T) (b :: ds);
            Some (match tmp with
                  | Err e => Err (if decide (e = POSITIVE_OVERFLOW) then sgn_overflow T negative else e)
                  | Ok v => v ← sgn_finalize T negative v; Ok (v, rest)
                  end)
      end
  end.

Definition enforceWhitespaceErr (sp : list Z) : ConversionCode :=
  if forallb isspace sp then SUCCESS else NON_WHITESPACE_AFTER_END.

(** [tryTo<T>(StringPiece)] for an integral type: white space may follow the number. *)
Definition tryTo_integral (T : int_type) (src : list Z) : option (Prelude.result ConversionCode Z) :=
  res ← str_to_integral T src;
  Some ('(v, rest) ← res;
        let e := enforceWhitespaceErr rest in
        if decide (e = SUCCESS) then Ok v else Err e).

(** ** Integers to text *)

(** [toAppend] of a signed and of an unsigned integer of at least 32 and at most 64 bits. *)
Definition toAppend_signed (value : Z) (out : list Z) : option (list Z) :=
  let buffer := replicate (to_ascii_powers_size 10 64) 0 in
  let uvalue := if value <? 0 then u64 (u64 (Z.lnot (u64 value)) + 1) else u64 value in
  let out := if value <? 0 then out ++ [45] else out in
  '(buffer, size) ← to_ascii_with_array_ref 10 false true buffer uvalue;
  Some (out ++ take size buffer).

Definition toAppend_unsigned (value : Z) (out : list Z) : option (list Z) :=
  let buffer := replicate (to_ascii_powers_size 10 64) 0 in
  '(buffer, size) ← to_ascii_with_array_ref 10 false true buffer value;
  Some (out ++ take size buffer).

Definition estimateSpaceNeeded_signed (value : Z) : nat :=
  let uvalue := if value <? 0 then u64 (u64 (Z.lnot (u64 value)) + 1) else u64 value in
  ((if (value <? 0)%Z then 1 else 0) + to_ascii_size_route 10 true uvalue)%nat.

(** *** 128-bit integers *)

Definition kBase : Z := 10000000000000000000.
Definition kBaseDigits : nat := 19.

(** [leading] and [append], on the buffer from [outb] to [oute] of which [p] bytes are written. *)
Definition telescope_leading (out : list Z) (v : Z) : option (list Z * nat) :=
  if v .>> 64 =? 0 then to_ascii_with 10 false true false out (u64 v) else None.

Definition telescope_append (st : list Z * nat) (v : Z) : option (list Z * nat) :=
  let (out, p) := st in
  if (v <? kBase) && bool_decide (p + kBaseDigits <= length out)%nat then
    tail ← to_ascii_with_route 10 false false (drop p out) kBaseDigits v;
    Some (take p out ++ tail, (p + kBaseDigits)%nat)
  else None.

Definition unsafeTelescope128 (out : list Z) (x : Z) : option (list Z * nat) :=
  if 0 <? x .>> 64 then
    let rem := u64 (x mod kBase) in
    let x := x / kBase in
    if 0 <? x .>> 64 then
      let rem2 := u64 (x mod kBase) in
      let x := x / kBase in
      st ← telescope_leading out x; st ← telescope_append st rem2; telescope_append st rem
    else st ← telescope_leading out x; telescope_append st rem
  else telescope_leading out x.

Definition digitsEnough (w : Z) : nat := (digits10 w + 1)%nat.

Definition toAppend_u128 (value : Z) (out : list Z) : option (list Z) :=
  '(buffer, p) ← unsafeTelescope128 (replicate (digitsEnough 128) 0) value; Some (out ++ take p buffer).

Definition toAppend_i128 (value : Z) (out : list Z) : option (list Z) :=
  let buffer := replicate (digitsEnough 128 + 1) 0 in
  if value <? 0 then
    buffer ← store buffer 0 45;
    '(tail, p) ← unsafeTelescope128 (drop 1 buffer) (wrap 128 (- wrap 128 value));
    Some (out ++ take (1 + p) (take 1 buffer ++ tail))
  else
    '(buffer, p) ← unsafeTelescope128 buffer value; Some (out ++ take p buffer).

(** ** Reference definitions *)

(** The value of a string of decimal digits read after [acc]. *)
Definition dec (s : list Z) (acc : Z) : Z := fold_left (fun a b => a * 10 + (b - 48)) s acc.

Definition is_ascii (b : Z) : Prop := 0 <= b < 128.

(** ** The lookup tables *)

Lemma shifted_spec m b : m ∈ [1; 10; 100; 1000] -> is_ascii b ->
  shifted (shift_table m) b = Some (if isdigit b then (b - 48) * m else OOR).
Proof.
  intros Hm Hb.
  assert (forallb (fun b => bool_decide (shifted (shift_table m) b = Some (if isdigit b then (b - 48) * m else OOR)))
            (seqZ 0 128) = true) as H.
  { repeat (apply elem_of_cons in Hm as [->|Hm]; [vm_compute; reflexivity|]). by apply not_elem_of_nil in Hm. }
  rewrite forallb_forall in H. apply (bool_decide_eq_true_1 _), (H b).
  apply list_elem_of_In, elem_of_seqZ. unfold is_ascii in Hb. lia.
Qed.

Lemma shifted_high m b : m ∈ [1; 10; 100; 1000] -> 128 <= b < 256 -> shifted (shift_table m) b = None.
Proof.
  intros Hm Hb. unfold shifted, c_char. rewrite i8_byte by (unfold is_uint; lia).
  rewrite (proj2 (Z.ltb_ge b 128)) by lia. apply lookup_ge_None_2.
  assert (length (shift_table m) = 256%nat) as -> by (unfold shift_table; by rewrite !length_app).
  unfold wrap. rewrite <- (Z.mod_add _ 1) by lia. rewrite Z.mod_small by lia. lia.
Qed.

(** ** Reading digits *)

Lemma dec_cons b s acc : dec (b :: s) acc = dec s (acc * 10 + (b - 48)).
Proof. done. Qed.

Lemma dec_app s s' acc : dec (s ++ s') acc = dec s' (dec s acc).
Proof. apply fold_left_app. Qed.

Lemma dec_acc s acc : dec s acc = acc * 10 ^ Z.of_nat (length s) + dec s 0.
Proof.
  revert acc. induction s as [|b s IH]; intros acc; [cbn; lia|]. rewrite !dec_cons, (IH (_ * 10 + _)), (IH (0 * 10 + _)).
  cbn [length]. rewrite Nat2Z.inj_succ, Z.pow_succ_r by lia. lia.
Qed.

Lemma dec_bounds s : Forall (fun b => isdigit b = true) s -> 0 <= dec s 0 < 10 ^ Z.of_nat (length s).
Proof.
  induction s as [|b s IH]; intros Hs; [cbn; lia|]. apply Forall_cons_1 in Hs as [Hb Hs]. specialize (IH Hs).
  rewrite dec_cons, dec_acc. cbn [length]. rewrite Nat2Z.inj_succ, Z.pow_succ_r by lia.
  unfold isdigit in Hb. apply andb_true_iff in Hb as [Hb1%Z.leb_le Hb2%Z.leb_le]. nia.
Qed.

Lemma wrap_dec w s a : 0 <= w -> wrap w (dec s (wrap w a)) = wrap w (dec s a).
Proof.
  intros Hw. rewrite (dec_acc s (wrap w a)), (dec_acc s a). unfold wrap.
  by rewrite (Z.add_mod (_ mod _ * _)), Z.mul_mod_idemp_l, <- Z.add_mod by lia.
Qed.

Lemma digits_sum r0 r1 r2 r3 b0 b1 b2 b3 :
  r0 = (if isdigit b0 then (b0 - 48) * 1000 else OOR) -> r1 = (if isdigit b1 then (b1 - 48) * 100 else OOR) ->
  r2 = (if isdigit b2 then (b2 - 48) * 10 else OOR) -> r3 = (if isdigit b3 then (b3 - 48) * 1 else OOR) ->
  (OOR <=? r0 + r1 + r2 + r3) = negb (isdigit b0 && (isdigit b1 && (isdigit b2 && isdigit b3))).
Proof.
  unfold isdigit, OOR. intros -> -> -> ->.
  destruct (Z.leb_spec 48 b0), (Z.leb_spec b0 57), (Z.leb_spec 48 b1), (Z.leb_spec b1 57),
    (Z.leb_spec 48 b2), (Z.leb_spec b2 57), (Z.leb_spec 48 b3), (Z.leb_spec b3 57);
    cbn [andb negb]; apply Z.leb_le || apply Z.leb_gt; lia.
Qed.

Lemma shift_read m b : m ∈ [1; 10; 100; 1000] -> is_ascii b -> exists r,
  shifted (shift_table m) b = Some r /\ r = if isdigit b then (b - 48) * m else OOR.
Proof. intros Hm Hb. eexists. split; [by apply shifted_spec|done]. Qed.

Lemma digits_loop_spec w s r :
  0 <= w -> Forall is_ascii s ->
  digits_loop w s (wrap w r) = Some (if forallb isdigit s then Some (wrap w (dec s r)) else None).
Proof.
  intros Hw. remember (length s) as n eqn:Hn. revert s r Hn.
  induction (lt_wf n) as [n _ IH]. intros s r -> Hs.
  destruct s as [|b0 [|b1 [|b2 [|b3 s]]]]; [done|..].
  - apply Forall_cons_1 in Hs as [H0 _].
    destruct (shift_read 1 b0 ltac:(set_solver) H0) as (r0 & E0 & V0).
    cbn [digits_loop]. unfold shift1. rewrite E0. cbn [mbind option_bind].
    pose proof (digits_sum 0 0 0 r0 48 48 48 b0 eq_refl eq_refl eq_refl V0) as Hsum.
    replace (0 + 0 + 0 + r0) with r0 in Hsum by lia. rewrite Hsum. cbn [forallb].
    change (isdigit 48) with true. cbn [andb]. rewrite andb_true_r. rewrite V0.
    destruct (isdigit b0); cbn [negb]; [|done]. do 2 f_equal. rewrite <- (wrap_dec w [b0] r) by done. cbn. f_equal. lia.
  - apply Forall_cons_1 in Hs as [H0 Hs]. apply Forall_cons_1 in Hs as [H1 _].
    destruct (shift_read 10 b0 ltac:(set_solver) H0) as (r0 & E0 & V0).
    destruct (shift_read 1 b1 ltac:(set_solver) H1) as (r1 & E1 & V1).
    cbn [digits_loop]. unfold shift1, shift10. rewrite E0, E1. cbn [mbind option_bind].
    pose proof (digits_sum 0 0 r0 r1 48 48 b0 b1 eq_refl eq_refl V0 V1) as Hsum.
    replace (0 + 0 + r0 + r1) with (r0 + r1) in Hsum by lia. rewrite Hsum. cbn [forallb].
    change (isdigit 48) with true. cbn [andb]. rewrite andb_true_r. rewrite V0, V1.
    destruct (isdigit b0), (isdigit b1); cbn [negb andb]; try done. do 2 f_equal.
    rewrite <- (wrap_dec w [b0; b1] r) by done. cbn. f_equal. lia.
  - apply Forall_cons_1 in Hs as [H0 Hs]. apply Forall_cons_1 in Hs as [H1 Hs]. apply Forall_cons_1 in Hs as [H2 _].
    destruct (shift_read 100 b0 ltac:(set_solver) H0) as (r0 & E0 & V0).
    destruct (shift_read 10 b1 ltac:(set_solver) H1) as (r1 & E1 & V1).
    destruct (shift_read 1 b2 ltac:(set_solver) H2) as (r2 & E2 & V2).
    cbn [digits_loop]. unfold shift1, shift10, shift100. rewrite E0, E1, E2. cbn [mbind option_bind].
    pose proof (digits_sum 0 r0 r1 r2 48 b0 b1 b2 eq_refl V0 V1 V2) as Hsum.
    replace (0 + r0 + r1 + r2) with (r0 + r1 + r2) in Hsum by lia. rewrite Hsum. cbn [forallb].
    change (isdigit 48) with true. cbn [andb]. rewrite andb_true_r. rewrite V0, V1, V2.
    destruct (isdigit b0), (isdigit b1), (isdigit b2); cbn [negb andb]; try done. do 2 f_equal.
    rewrite <- (wrap_dec w [b0; b1; b2] r) by done. cbn. f_equal. lia.
  - apply Forall_cons_1 in Hs as [H0 Hs]. apply Forall_cons_1 in Hs as [H1 Hs]. apply Forall_cons_1 in Hs as [H2 Hs].
    apply Forall_cons_1 in Hs as [H3 Hs].
    destruct (shift_read 1000 b0 ltac:(set_solver) H0) as (r0 & E0 & V0).
    destruct (shift_read 100 b1 ltac:(set_solver) H1) as (r1 & E1 & V1).
    destruct (shift_read 10 b2 ltac:(set_solver) H2) as (r2 & E2 & V2).
    destruct (shift_read 1 b3 ltac:(set_solver) H3) as (r3 & E3 & V3).
    cbn [digits_loop]. unfold shift1, shift10, shift100, shift1000. rewrite E0, E1, E2, E3. cbn [mbind option_bind].
    rewrite (digits_sum r0 r1 r2 r3 b0 b1 b2 b3) by done. cbn [forallb]. rewrite V0, V1, V2, V3.
    destruct (isdigit b0), (isdigit b1), (isdigit b2), (isdigit b3); cbn [negb andb]; try done.
    assert (forall x y, wrap w (wrap w (wrap w r * wrap w x) + wrap w y) = wrap w (r * x + y)) as Hwrap.
    { intros x y. unfold wrap. by rewrite <- Z.mul_mod, <- Z.add_mod by lia. }
    rewrite Hwrap, (IH (length s)) by (cbn; lia || done). rewrite !dec_cons.
    by replace ((((r * 10 + (b0 - 48)) * 10 + (b1 - 48)) * 10 + (b2 - 48)) * 10 + (b3 - 48))
      with (r * 10000 + ((b0 - 48) * 1000 + (b1 - 48) * 100 + (b2 - 48) * 10 + (b3 - 48) * 1)) by lia.
Qed.

(** ** Comparing with the largest value *)

Lemma strncmp_dec s s' :
  length s = length s' -> Forall (fun b => isdigit b = true) s -> Forall (fun b => isdigit b = true) s' ->
  strncmp_gt s s' = (dec s' 0 <? dec s 0).
Proof.
  revert s'. induction s as [|b s IH]; intros [|b' s'] Hlen Hs Hs'; try done.
  apply Forall_cons_1 in Hs as [Hb Hs]. apply Forall_cons_1 in Hs' as [Hb' Hs'].
  cbn [strncmp_gt]. rewrite !dec_cons, (dec_acc s), (dec_acc s'). injection Hlen as Hlen.
  pose proof (dec_bounds s Hs). pose proof (dec_bounds s' Hs'). rewrite Hlen in *.
  unfold isdigit in Hb, Hb'. apply andb_true_iff in Hb as [Hb1%Z.leb_le Hb2%Z.leb_le].
  apply andb_true_iff in Hb' as [Hb1'%Z.leb_le Hb2'%Z.leb_le].
  destruct (Z.eqb_spec b b') as [->|Hne].
  - destruct (Z.eqb_spec b' 0); [lia|]. rewrite IH by done.
    apply Bool.eq_iff_eq_true. rewrite !Z.ltb_lt. lia.
  - apply Bool.eq_iff_eq_true. rewrite !Z.ltb_lt. nia.
Qed.

Definition width (w : Z) : Prop := w = 8 \/ w = 16 \/ w = 32 \/ w = 64 \/ w = 128.

Lemma MaxString_spec w : width w ->
  length (bytes_of (MaxString w)) = S (digits10 w) /\ dec (bytes_of (MaxString w)) 0 = 2 ^ w - 1 /\
  Forall (fun b => isdigit b = true) (bytes_of (MaxString w)) /\
  10 ^ Z.of_nat (digits10 w) <= 2 ^ w < 10 ^ Z.of_nat (S (digits10 w)).
Proof.
  intros [->|[->|[->|[->| ->]]]]; (split_and!; [reflexivity|reflexivity|by repeat constructor|..]; vm_compute; done).
Qed.

(** A number with no leading zero, or with few digits, is refused exactly when it does not fit. *)
Lemma too_big_spec w b s :
  width w -> Forall (fun b => isdigit b = true) (b :: s) -> (b <> 48 \/ (length (b :: s) <= digits10 w)%nat) ->
  too_big w (b :: s) = (2 ^ w <=? dec (b :: s) 0).
Proof.
  intros Hw Hs Hb. destruct (MaxString_spec w Hw) as (Hlen & Hmax & Hdig & Hpow1 & Hpow2).
  pose proof (dec_bounds (b :: s) Hs) as Hdec. unfold too_big.
  case_bool_decide as Hbig; cbn [andb].
  - destruct Hb as [Hb|]; [|lia]. case_bool_decide as Hl; cbn [negb orb].
    + rewrite strncmp_dec by (congruence || done). rewrite Hmax.
      destruct (Z.ltb_spec (2 ^ w - 1) (dec (b :: s) 0)), (Z.leb_spec (2 ^ w) (dec (b :: s) 0)); lia.
    + symmetry. apply Z.leb_le. apply Forall_cons_1 in Hs as [Hb' Hs].
      rewrite dec_cons, dec_acc. pose proof (dec_bounds s Hs).
      unfold isdigit in Hb'. apply andb_true_iff in Hb' as [?%Z.leb_le ?%Z.leb_le].
      assert (10 ^ Z.of_nat (S (digits10 w)) <= 10 ^ Z.of_nat (length s)) by (apply Z.pow_le_mono_r; cbn in *; lia). nia.
  - symmetry. apply Z.leb_gt. assert (10 ^ Z.of_nat (length (b :: s)) <= 10 ^ Z.of_nat (digits10 w))
      by (apply Z.pow_le_mono_r; lia). lia.
Qed.

(** ** The value of a string of digits *)

Abbreviation all_digits := (Forall (fun b => isdigit b = true)).

Lemma all_digits_forallb s : forallb isdigit s = true <-> all_digits s.
Proof. rewrite forallb_forall, Forall_forall. setoid_rewrite list_elem_of_In. done. Qed.

Lemma digit_ascii b : isdigit b = true -> is_ascii b.
Proof. unfold isdigit, is_ascii. intros [?%Z.leb_le ?%Z.leb_le]%andb_true_iff. lia. Qed.

Lemma skip_zeros_spec s : all_digits s ->
  dec (skip_zeros s) 0 = dec s 0 /\ all_digits (skip_zeros s) /\
  match skip_zeros s with b :: _ => b <> 48 | [] => True end.
Proof.
  induction s as [|b s IH]; intros Hs; [done|]. apply Forall_cons_1 in Hs as [Hb Hs]. cbn [skip_zeros].
  destruct (Z.eqb_spec b 48) as [->|]; [|by split_and!; [|constructor|]].
  destruct (IH Hs) as (? & ? & ?). split_and!; done.
Qed.

Lemma leading_zeros_spec w s : all_digits s ->
  match leading_zeros w s with
  | None => s <> [] /\ dec s 0 = 0
  | Some b => dec b 0 = dec s 0 /\ all_digits b /\ (b = [] <-> s = []) /\
      match b with c :: _ => c <> 48 \/ (length b <= digits10 w)%nat | [] => True end
  end.
Proof.
  intros Hs. unfold leading_zeros. case_decide as Hlen; [|destruct s; split_and!; try done; right; lia].
  destruct s as [|b s]; [done|]. apply Forall_cons_1 in Hs as [Hb Hs].
  assert (b = 48 \/ b <> 48) as [->|Hne] by lia.
  - destruct (skip_zeros_spec s Hs) as (Hd & Ha & Hh). destruct (skip_zeros s) as [|c r] eqn:E.
    + split; [done|]. by change (dec s 0 = 0).
    + split_and!; [by rewrite Hd|done|done|by left].
  - assert (match b with 48 => match skip_zeros s with [] => None | b' :: l => Some (b' :: l) end | _ => Some (b :: s) end
            = Some (b :: s)) as E.
    { do 8 (destruct b as [|b|b]; try done; try (destruct b as [b|b|]; try done)). }
    rewrite E. split_and!; [done|by constructor|done|by left].
Qed.

Definition range_check (T : int_type) (v : Z) : Prelude.result ConversionCode Z :=
  if type_max T <? v then Err POSITIVE_OVERFLOW
  else if v <? type_min T then Err NEGATIVE_OVERFLOW
  else Ok v.

Definition with_sign (negative : bool) (v : Z) : Z := if negative then - v else v.

Lemma sgn_finalize_spec T negative v :
  is_int_type T -> (is_signed T = false -> negative = false) -> 0 <= v < 2 ^ bits T ->
  sgn_finalize T negative v = range_check T (with_sign negative v).
Proof.
  intros HT Hneg Hv. destruct (type_bounds T HT) as (H1 & H2 & H3).
  unfold sgn_finalize, range_check, cast, type_max, type_min, with_sign.
  destruct (is_signed T).
  - destruct negative.
    + rewrite (proj2 (Z.ltb_ge _ (- v))) by lia. destruct (Z.ltb_spec (- v) (- 2 ^ (bits T - 1))).
      * unfold swrap. rewrite <- (Z.mod_add (- v) 1), Z.mod_small by lia.
        rewrite (proj2 (Z.ltb_lt _ (2 ^ (bits T - 1)))) by lia. by rewrite (proj2 (Z.ltb_lt 0 _)) by lia.
      * rewrite swrap_small by (unfold is_sint; lia). by rewrite (proj2 (Z.ltb_ge 0 _)) by lia.
    + rewrite (proj2 (Z.ltb_ge v (- _))) by lia. destruct (Z.ltb_spec (2 ^ (bits T - 1) - 1) v).
      * unfold swrap. rewrite Z.mod_small by lia. rewrite (proj2 (Z.ltb_ge v _)) by lia.
        by rewrite (proj2 (Z.ltb_lt _ 0)) by lia.
      * rewrite swrap_small by (unfold is_sint; lia). by rewrite (proj2 (Z.ltb_ge v 0)) by lia.
  - rewrite (Hneg eq_refl). by rewrite !(proj2 (Z.ltb_ge _ _)) by lia.
Qed.

Lemma sgn_overflow_spec T negative v :
  is_int_type T -> (is_signed T = false -> negative = false) -> 2 ^ bits T <= v ->
  range_check T (with_sign negative v) = Err (sgn_overflow T negative).
Proof.
  intros HT Hneg Hv. destruct (type_bounds T HT) as (H1 & H2 & H3).
  unfold range_check, sgn_overflow, type_max, type_min, with_sign. destruct (is_signed T).
  - destruct negative; cbn [andb].
    + rewrite (proj2 (Z.ltb_ge _ (- v))) by lia. by rewrite (proj2 (Z.ltb_lt (- v) _)) by lia.
    + by rewrite (proj2 (Z.ltb_lt _ v)) by lia.
  - rewrite (Hneg eq_refl). by rewrite (proj2 (Z.ltb_lt _ v)) by lia.
Qed.

(** What [digits_to] does after the sign. *)
Definition digits_after_sign (T : int_type) (negative : bool) (b : list Z) : option (Prelude.result ConversionCode Z) :=
  match leading_zeros (bits T) b with
  | None => Some (Ok 0)
  | Some b =>
      if too_big (bits T) b then Some (Err (sgn_overflow T negative))
      else
        result ← digits_loop (bits T) b 0;
        Some (match result with
              | None => Err NON_DIGIT_CHAR
              | Some v => if decide (b = []) then Err NO_DIGITS else sgn_finalize T negative v
              end)
  end.

Lemma digits_after_sign_spec T negative s :
  is_int_type T -> (is_signed T = false -> negative = false) -> all_digits s ->
  digits_after_sign T negative s =
    Some (if decide (s = []) then Err NO_DIGITS else range_check T (with_sign negative (dec s 0))).
Proof.
  intros HT Hneg Hs. pose proof (leading_zeros_spec (bits T) s Hs) as Hz. unfold digits_after_sign.
  destruct (type_bounds T HT) as (HB1 & HB2 & HB3).
  destruct (leading_zeros (bits T) s) as [b|].
  - destruct Hz as (Hd & Hb & Hnil & Hhead). destruct b as [|c b].
    { rewrite decide_True by (by apply Hnil). unfold too_big. rewrite bool_decide_eq_false_2 by (cbn; lia). done. }
    assert (s <> []) by (intros E; apply Hnil in E; done). rewrite (decide_False (P := s = [])) by done.
    rewrite too_big_spec by done. rewrite Hd. destruct (Z.leb_spec (2 ^ bits T) (dec s 0)).
    { by rewrite sgn_overflow_spec. }
    change 0 with (wrap (bits T) 0) at 1. pose proof (dec_bounds s Hs).
    rewrite (digits_loop_spec (bits T) (c :: b) 0) by
      (lia || (eapply Forall_impl; [exact Hb|]; cbv beta; intros ?; apply digit_ascii)).
    rewrite (proj2 (all_digits_forallb (c :: b))) by done. cbn [mbind option_bind].
    rewrite decide_False by done. rewrite Hd, wrap_small by (unfold is_uint; lia).
    f_equal. by apply sgn_finalize_spec; [| |lia].
  - destruct Hz as [Hne ->]. rewrite decide_False by done. f_equal. unfold range_check, with_sign.
    replace (if negative then - 0 else 0) with 0 by (by destruct negative).
    unfold type_max, type_min. destruct (is_signed T); by rewrite !(proj2 (Z.ltb_ge _ _)) by lia.
Qed.

Lemma digits_to_unfold T s : digits_to T s =
  init ← sgn_init T s;
  match init with Err e => Some (Err e) | Ok (negative, b) => digits_after_sign T negative b end.
Proof. done. Qed.

(** A character that is not a digit makes the conversion fail. *)
Lemma digits_after_sign_bad T negative s :
  is_int_type T -> Forall is_ascii s -> ~ all_digits s -> exists e, digits_after_sign T negative s = Some (Err e).
Proof.
  intros HT Hs Hbad. assert (forall s, Forall is_ascii s -> Forall is_ascii (skip_zeros s) /\ (all_digits (skip_zeros s) -> all_digits s)) as Hskip.
  { clear. induction s as [|b s IH]; intros Hs; [done|]. cbn [skip_zeros]. destruct (Z.eqb_spec b 48) as [->|]; [|done].
    apply Forall_cons_1 in Hs as [_ Hs]. destruct (IH Hs). split; [done|]. intros. constructor; [done|auto]. }
  assert (exists b, leading_zeros (bits T) s = Some b /\ Forall is_ascii b /\ ~ all_digits b) as (b & E & Hb & Hbad').
  { unfold leading_zeros. case_decide; [|by eauto]. destruct s as [|c s]; [by eauto|].
    assert (c = 48 \/ c <> 48) as [->|Hne] by lia.
    - apply Forall_cons_1 in Hs as [_ Hs]. destruct (Hskip s Hs) as [H1 H2].
      destruct (skip_zeros s) as [|c r] eqn:E; [|exists (c :: r); split_and!; [done|done|]].
      + exfalso. apply Hbad. constructor; [done|auto].
      + intros Hd. apply Hbad. constructor; [done|auto].
    - exists (c :: s). split; [|done]. by do 8 (destruct c as [|c|c]; try done; try (destruct c as [c|c|]; try done)). }
  destruct (type_bounds T HT) as (_ & _ & Hw).
  unfold digits_after_sign. rewrite E. destruct (too_big (bits T) b); [by eauto|].
  change 0 with (wrap (bits T) 0). rewrite digits_loop_spec by (done || lia). cbn [mbind option_bind].
  destruct (forallb isdigit b) eqn:Ed; [|by eauto]. by apply all_digits_forallb in Ed.
Qed.

Lemma is_blank_isspace b : is_byte b -> is_blank b = isspace b.
Proof.
  intros Hb. apply Bool.eqb_true_iff. by apply (byte_forall (fun b => Bool.eqb (is_blank b) (isspace b))).
Qed.

Lemma non_digit_test b : is_byte b -> (10 <=? u32 (c_char b - 48)) = negb (isdigit b).
Proof.
  intros Hb. apply Bool.eqb_true_iff.
  by apply (byte_forall (fun b => Bool.eqb (10 <=? u32 (c_char b - 48)) (negb (isdigit b)))).
Qed.

(** *** Reference: the integer at the start of a text *)

Fixpoint skip_spaces (s : list Z) : list Z :=
  match s with b :: s' => if isspace b then skip_spaces s' else s | [] => [] end.

(** The longest prefix of digits, and the rest. *)
Fixpoint span_digits (s : list Z) : list Z * list Z :=
  match s with
  | b :: s' => if isdigit b then let (d, r) := span_digits s' in (b :: d, r) else ([], s)
  | [] => ([], [])
  end.

(** The sign a signed type may have. *)
Definition span_sign (T : int_type) (s : list Z) : bool * list Z :=
  match s with
  | b :: s' => if is_signed T && (b =? 45) then (true, s') else if is_signed T && (b =? 43) then (false, s') else (false, s)
  | [] => (false, [])
  end.

Definition integral_ref (T : int_type) (src : list Z) : Prelude.result ConversionCode (Z * list Z) :=
  let s := skip_spaces src in
  let (negative, s') := span_sign T s in
  let (ds, rest) := span_digits s' in
  match s, s', ds with
  | [], _, _ => Err EMPTY_INPUT_STRING
  | _, [], _ => Err NO_DIGITS
  | _, _, [] => Err (if is_signed T && bool_decide (length s' = length s) then INVALID_LEADING_CHAR else NON_DIGIT_CHAR)
  | _, _, _ => v ← range_check T (with_sign negative (dec ds 0)); Ok (v, rest)
  end.

Lemma skip_blanks_spaces s : Forall is_byte s -> skip_blanks s = skip_spaces s.
Proof.
  induction 1 as [|b s Hb Hs IH]; [done|]. cbn. rewrite is_blank_isspace by done. by destruct (isspace b).
Qed.

Lemma skip_spaces_byte s : Forall is_byte s -> Forall is_byte (skip_spaces s).
Proof. induction 1 as [|b s Hb Hs IH]; [done|]. cbn. destruct (isspace b); [done|by constructor]. Qed.

Lemma findFirstNonDigit_span s : Forall is_byte s -> findFirstNonDigit s = span_digits s.
Proof.
  induction 1 as [|b s Hb Hs IH]; [done|]. cbn. rewrite non_digit_test, IH by done.
  destruct (isdigit b); cbn [negb]; [|done]. by destruct (span_digits s).
Qed.

Lemma span_digits_digits s : all_digits (span_digits s).1.
Proof.
  induction s as [|b s IH]; cbn; [done|]. destruct (isdigit b) eqn:E; [|done].
  destruct (span_digits s). cbn in *. by constructor.
Qed.

(** The part of [str_to_integral] after the sign. *)
Definition integral_digits (T : int_type) (negative : bool) (b : Z) (s : list Z)
    : option (Prelude.result ConversionCode (Z * list Z)) :=
  if negb (isdigit b) then Some (Err NON_DIGIT_CHAR)
  else
    let (ds, rest) := findFirstNonDigit s in
    tmp ← digits_to (make_unsigned T) (b :: ds);
    Some (match tmp with
          | Err e => Err (if decide (e = POSITIVE_OVERFLOW) then sgn_overflow T negative else e)
          | Ok v => v ← sgn_finalize T negative v; Ok (v, rest)
          end).

Lemma integral_digits_spec T negative b s :
  is_int_type T -> (is_signed T = false -> negative = false) -> Forall is_byte s -> isdigit b = true ->
  integral_digits T negative b s =
    Some (let (ds, rest) := span_digits s in
          v ← range_check T (with_sign negative (dec (b :: ds) 0)); Ok (v, rest)).
Proof.
  intros HT Hneg Hs Hb. unfold integral_digits. rewrite Hb. cbn [negb].
  rewrite findFirstNonDigit_span by done. pose proof (span_digits_digits s) as Hds.
  destruct (span_digits s) as [ds rest]. cbn [fst] in Hds. rewrite digits_to_unfold.
  assert (is_int_type (make_unsigned T)) as HU by done.
  assert (all_digits (b :: ds)) as Had by by constructor. pose proof (dec_bounds _ Had) as Hdec.
  cbn [sgn_init make_unsigned is_signed mbind option_bind].
  rewrite (digits_after_sign_spec (make_unsigned T)) by done. cbn [mbind option_bind].
  rewrite decide_False by done. f_equal.
  unfold range_check at 1. unfold type_max, type_min. cbn [make_unsigned is_signed bits with_sign].
  destruct (Z.ltb_spec (2 ^ bits T - 1) (dec (b :: ds) 0)).
  - rewrite decide_True by done. by rewrite sgn_overflow_spec by (done || lia).
  - rewrite (proj2 (Z.ltb_ge _ 0)) by lia. by rewrite sgn_finalize_spec by (done || lia).
Qed.

Lemma str_to_integral_eq T src :
  is_int_type T -> Forall is_byte src -> str_to_integral T src = Some (integral_ref T src).
Proof.
  intros HT Hsrc. unfold str_to_integral, integral_ref. rewrite skip_blanks_spaces by done.
  pose proof (skip_spaces_byte src Hsrc) as Hs. destruct (skip_spaces src) as [|b s]; [done|]. clear Hsrc.
  apply Forall_cons_1 in Hs as [Hb Hs]. cbn [sgn_init span_sign].
  assert (forall negative b s, Forall is_byte s -> isdigit b = true -> (is_signed T = false -> negative = false) ->
    (let (ds, rest) := findFirstNonDigit s in
     tmp ← digits_to (make_unsigned T) (b :: ds);
     Some (match tmp with
           | Err e => Err (if decide (e = POSITIVE_OVERFLOW) then sgn_overflow T negative else e)
           | Ok v => v ← sgn_finalize T negative v; Ok (v, rest)
           end)) =
    Some (let (ds, rest) := span_digits s in v ← range_check T (with_sign negative (dec (b :: ds) 0)); Ok (v, rest)))
    as Hdigits.
  { intros negative b' s' Hs' Hb' Hn. rewrite <- (integral_digits_spec T negative b' s') by done.
    unfold integral_digits. by rewrite Hb'. }
  unfold sgn_init. destruct (is_signed T) eqn:ET; cbn [andb mbind option_bind].
  - destruct (isdigit b) eqn:Eb.
    + assert ((b =? 45) = false /\ (b =? 43) = false) as [-> ->] by (unfold isdigit in Eb; lia).
      cbn [negb]. rewrite Eb. cbn [negb]. rewrite Hdigits by done. cbn [span_digits]. rewrite Eb. by destruct (span_digits s).
    + destruct (Z.eqb_spec b 45) as [->|].
      * destruct s as [|b' s]; [done|]. apply Forall_cons_1 in Hs as [Hb' Hs]. cbn [span_digits].
        destruct (isdigit b') eqn:Eb'; cbn [negb]; [rewrite Hdigits by done; by destruct (span_digits s)|].
        rewrite bool_decide_eq_false_2 by (cbn; lia). done.
      * destruct (Z.eqb_spec b 43) as [->|]; cbn [negb].
        -- destruct s as [|b' s]; [done|]. apply Forall_cons_1 in Hs as [Hb' Hs]. cbn [span_digits].
           destruct (isdigit b') eqn:Eb'; cbn [negb]; [rewrite Hdigits by done; by destruct (span_digits s)|].
           rewrite bool_decide_eq_false_2 by (cbn; lia). done.
        -- cbn [span_digits]. rewrite Eb. by rewrite bool_decide_eq_true_2.
  - destruct (isdigit b) eqn:Eb; cbn [negb span_digits]; rewrite ?Eb.
    + rewrite Hdigits by done. by destruct (span_digits s).
    + done.
Qed.

(** (C27) [str_to_integral] is total on byte strings, whatever their characters, and reads what a text
    means for the type: after white space, an optional sign if the type is signed and the longest
    run of digits give a value, accepted exactly when the type has it.  Each way to fail has its
    code. *)
Theorem str_to_integral_spec T src :
  is_int_type T -> Forall is_byte src -> str_to_integral T src = Some (integral_ref T src).
Proof. apply str_to_integral_eq. Qed.

Lemma str_to_integral_spec_witness :
  str_to_integral (mkInt 8 true) (bytes_of " -128!") = Some (integral_ref (mkInt 8 true) (bytes_of " -128!")) /\
  integral_ref (mkInt 8 true) (bytes_of " -128!") = Ok (-128, bytes_of "!").
Proof.
  split; [|reflexivity]. apply (str_to_integral_spec (mkInt 8 true) (bytes_of " -128!")); [by left|].
  repeat constructor; cbn; lia.
Defined.

(** ** Integers to text and back *)

(** The text of an integer: its digits, with a sign if it is negative. *)
Definition int_text (n : nat) (v : Z) : list Z :=
  (if v <? 0 then [45] else []) ++ digits 10 false n (Z.abs v).

Lemma digits_are_digits n v : all_digits (digits 10 false n v).
Proof.
  revert v. induction n as [|n IH]; intros v; cbn [digits]; [done|].
  apply Forall_app. split; [done|]. constructor; [|done]. pose proof (Z.mod_pos_bound v 10).
  unfold to_ascii_alphabet. rewrite (proj2 (Z.ltb_lt _ 10)) by lia. unfold isdigit. lia.
Qed.

Lemma dec_digits n v : 0 <= v < 10 ^ Z.of_nat n -> dec (digits 10 false n v) 0 = v.
Proof.
  revert v. induction n as [|n IH]; intros v Hv; cbn [digits]; [cbn in *; lia|].
  rewrite pow_nat_S in Hv by lia. rewrite dec_app, IH by (Z.div_mod_to_equations; lia).
  pose proof (Z.mod_pos_bound v 10). cbn. unfold to_ascii_alphabet. rewrite (proj2 (Z.ltb_lt _ 10)) by lia.
  Z.div_mod_to_equations. lia.
Qed.

(** The absolute value, computed in 64 bits. *)
Lemma uvalue_abs v : is_i64 v ->
  (if v <? 0 then u64 (u64 (Z.lnot (u64 v)) + 1) else u64 v) = Z.abs v /\ is_u64 (Z.abs v).
Proof.
  unfold is_sint, is_uint. change (2 ^ (64 - 1)) with 9223372036854775808. change (2 ^ 64) with 18446744073709551616.
  intros Hv. split; [|lia]. unfold wrap, Z.lnot. change (2 ^ 64) with 18446744073709551616.
  destruct (Z.ltb_spec v 0); [|rewrite Z.mod_small; lia].
  rewrite <- (Z.mod_add v 1), (Z.mod_small (v + _)) by lia.
  rewrite <- (Z.mod_add (Z.pred _) 1), (Z.mod_small (Z.pred _ + _)) by lia. rewrite Z.mod_small by lia. lia.
Qed.

Lemma toAppend_text v out : is_i64 v -> exists n, num_digits 10 n (Z.abs v) /\
  toAppend_signed v out = Some (out ++ int_text n v) /\ estimateSpaceNeeded_signed v = length (int_text n v).
Proof.
  intros Hv. destruct (uvalue_abs v Hv) as [Habs Hu]. unfold toAppend_signed, estimateSpaceNeeded_signed. rewrite Habs.
  destruct (to_ascii_with_array_ref_digits 10 false true (replicate (to_ascii_powers_size 10 64) 0) (Z.abs v)) as (n & Hn & E);
    [lia|done|by rewrite length_replicate|].
  exists n. split; [done|]. rewrite E. cbn [mbind option_bind].
  rewrite take_app_length' by (by rewrite digits_length). split.
  - unfold int_text. destruct (v <? 0); cbn [app]; by rewrite <- ?app_assoc.
  - unfold int_text. rewrite length_app, digits_length.
    assert (to_ascii_size_route 10 true (Z.abs v) = n) as ->; [|by destruct (v <? 0)].
    eapply (num_digits_unique 10); [lia|apply to_ascii_size_route_digits; [lia|done]|done].
Qed.

Lemma int_text_bytes n v : Forall is_byte (int_text n v).
Proof.
  unfold int_text. apply Forall_app. split; [destruct (v <? 0); repeat constructor; cbn; lia|].
  eapply Forall_impl; [apply digits_are_digits|]. cbv beta. intros b Hb%digit_ascii. unfold is_ascii in Hb. unfold is_uint. lia.
Qed.

Lemma span_digits_app ds rest :
  all_digits ds -> match rest with b :: _ => isdigit b = false | [] => True end -> span_digits (ds ++ rest) = (ds, rest).
Proof.
  intros Hds Hr. induction Hds as [|b ds Hb Hds IH]; cbn.
  - destruct rest as [|b rest]; [done|]. cbn. by rewrite Hr.
  - by rewrite Hb, IH.
Qed.

Lemma is_i64_has_type v : is_i64 v -> has_type (mkInt 64 true) v.
Proof. unfold is_sint, has_type, type_min, type_max. cbn [is_signed bits]. lia. Qed.

(** Reading back the text of an integer, followed by something else than a digit. *)
Lemma read_int_text T n v rest :
  is_signed T = true -> has_type T v -> num_digits 10 n (Z.abs v) ->
  match rest with b :: _ => isdigit b = false | [] => True end ->
  integral_ref T (int_text n v ++ rest) = Ok (v, rest).
Proof.
  intros HT Hv (Hn1 & Hn & _) Hrest. unfold has_type in Hv. pose proof (digits_are_digits n (Z.abs v)) as Hd.
  pose proof (digits_length 10 false n (Z.abs v)) as Hl. pose proof (dec_digits n (Z.abs v) Hn) as Hdec.
  unfold int_text. destruct (digits 10 false n (Z.abs v)) as [|c ds] eqn:E; [cbn in Hl; lia|].
  assert (isdigit c = true) as Hc by (by apply Forall_cons_1 in Hd as [? _]).
  assert (isspace c = false /\ (c =? 45) = false /\ (c =? 43) = false) as (Hsp & Hm & Hp)
    by (unfold isdigit, isspace in *; lia).
  assert (range_check T v = Ok v) as Hrange.
  { unfold range_check. by rewrite !(proj2 (Z.ltb_ge _ _)) by lia. }
  unfold integral_ref. destruct (Z.ltb_spec v 0).
  - change (([45] ++ c :: ds) ++ rest) with (45 :: (c :: ds) ++ rest). cbn [skip_spaces isspace]. cbn -[span_digits dec range_check with_sign]. rewrite HT. cbn -[span_digits dec range_check with_sign].
    change (c :: ds ++ rest) with ((c :: ds) ++ rest). rewrite (span_digits_app (c :: ds)) by done.
    cbn [app mbind result_bind]. rewrite Hdec.
    replace (with_sign true (Z.abs v)) with v by (unfold with_sign; lia). by rewrite Hrange.
  - rewrite app_nil_l. cbn [app skip_spaces]. rewrite Hsp. cbn [span_sign]. rewrite HT, Hm, Hp. cbn [andb].
    change (c :: ds ++ rest) with ((c :: ds) ++ rest). rewrite (span_digits_app (c :: ds)) by done.
    cbn [app]. rewrite Hdec.
    replace (with_sign false (Z.abs v)) with v by (unfold with_sign; lia). by rewrite Hrange.
Qed.

(** The text is the one that the [pretty] of a library prints: decimal, without leading zeros. *)
Lemma pretty_char d : 0 <= d < 10 -> Z.of_N (Ascii.N_of_ascii (pretty_N_char (Z.to_N d))) = to_ascii_alphabet false d.
Proof.
  intros Hd. assert (In d (seqZ 0 10)) as Hin by (apply list_elem_of_In, elem_of_seqZ; lia).
  cbn in Hin. repeat (destruct Hin as [<-|Hin]; [reflexivity|]). done.
Qed.

Lemma pretty_digits n v s : 0 < v -> num_digits 10 n v -> bytes_of (pretty_N_go (Z.to_N v) s) = digits 10 false n v ++ bytes_of s.
Proof.
  revert v s. induction n as [|n IH]; intros v s Hv (H1 & H2 & H3); [lia|]. cbn [digits].
  rewrite pretty_N_go_step by lia. change 10%N with (Z.to_N 10). rewrite <- (Z2N.inj_div v 10), <- (Z2N.inj_mod v 10) by lia.
  pose proof (Z.mod_pos_bound v 10 ltac:(lia)) as Hm. rewrite pow_nat_S in H2 by lia. destruct n as [|n].
  - rewrite Z.div_small by (cbn in H2; lia). cbn [digits app bytes_of]. rewrite pretty_N_go_0. cbn [bytes_of]. by rewrite pretty_char.
  - specialize (H3 ltac:(lia)). replace (Z.of_nat (S (S n)) - 1) with (Z.succ (Z.of_nat n)) in H3 by lia. rewrite Z.pow_succ_r in H3 by lia.
    assert (0 < 10 ^ Z.of_nat n) by (apply Z.pow_pos_nonneg; lia). rewrite IH.
    + cbn [bytes_of]. rewrite pretty_char by done. by rewrite <- app_assoc.
    + apply Z.div_str_pos. lia.
    + split; [lia|]. split; [split; [apply Z.div_pos; lia|apply Z.div_lt_upper_bound; lia]|]. intros _.
      replace (Z.of_nat (S n) - 1) with (Z.of_nat n) by lia. apply Z.div_le_lower_bound; lia.
Qed.

Lemma int_text_pretty n v : num_digits 10 n (Z.abs v) -> int_text n v = bytes_of (pretty v).
Proof.
  intros Hn. unfold int_text. destruct (Z.eq_dec v 0) as [->|Hv].
  { rewrite (num_digits_unique 10 ltac:(lia) n 1 0 Hn); [done|]. split; [lia|]. split; [cbn; lia|lia]. }
  pose proof (pretty_digits n (Z.abs v) EmptyString ltac:(lia) Hn) as E. rewrite app_nil_r in E. rewrite <- E.
  by destruct v.
Qed.

(** (C29) A 64-bit integer survives the trip through text: what [toAppend] appends is the decimal text
    of the integer, with a minus sign if it is negative and without leading zeros ([pretty]), as long as [estimateSpaceNeeded] says, and [to<int64_t>]
    reads it back. *)
Theorem int_text_roundtrip v out :
  is_i64 v ->
  toAppend_signed v out = Some (out ++ bytes_of (pretty v)) /\
  length (bytes_of (pretty v)) = estimateSpaceNeeded_signed v /\
  tryTo_integral (mkInt 64 true) (bytes_of (pretty v)) = Some (Ok v).
Proof.
  intros Hv. destruct (toAppend_text v out Hv) as (n & Hn & Happ & Hlen). rewrite <- (int_text_pretty n v Hn).
  split_and!; [done|done|]. unfold tryTo_integral.
  rewrite str_to_integral_eq; [|by right; right; right; left|apply int_text_bytes].
  rewrite <- (app_nil_r (int_text n v)), read_int_text by (done || by apply is_i64_has_type). done.
Qed.

Lemma int_text_roundtrip_witness :
  toAppend_signed (-9223372036854775808) [61] = Some ([61] ++ bytes_of "-9223372036854775808") /\
  tryTo_integral (mkInt 64 true) (bytes_of "-9223372036854775808") = Some (Ok (-9223372036854775808)).
Proof.
  destruct (int_text_roundtrip (-9223372036854775808) [61]) as (H1 & _ & H2); [unfold is_sint; lia|].
  split; [exact H1|exact H2].
Defined.

(** [digits_to] on characters below 128 returns a value exactly when the text after an optional
    sign is a non-empty run of digits whose value the type has, and then that value.  A character
    of 128 or more that is looked up indexes the tables with a negative [char]: the access is
    outside them. *)
Theorem digits_to_spec T src :
  is_int_type T -> src <> [] -> Forall is_ascii src ->
  exists res, digits_to T src = Some res /\
    forall v, res = Ok v <->
      exists negative ds, span_sign T src = (negative, ds) /\ ds <> [] /\ all_digits ds /\
        v = with_sign negative (dec ds 0) /\ has_type T v.
Proof.
  intros HT Hne Hsrc. rewrite digits_to_unfold. destruct src as [|b s]; [done|].
  assert (forall negative ds, (is_signed T = false -> negative = false) -> Forall is_ascii ds ->
    exists res, digits_after_sign T negative ds = Some res /\
      forall v, res = Ok v <-> ds <> [] /\ all_digits ds /\ v = with_sign negative (dec ds 0) /\ has_type T v) as Hafter.
  { intros negative ds Hneg Hds. destruct (forallb isdigit ds) eqn:Ed.
    - apply all_digits_forallb in Ed. rewrite digits_after_sign_spec by done. eexists. split; [done|]. intros v.
      case_decide as Enil; [naive_solver|]. unfold range_check, has_type.
      destruct (Z.ltb_spec (type_max T) (with_sign negative (dec ds 0))); [split; [done|intros (_ & _ & -> & ?); lia]|].
      destruct (Z.ltb_spec (with_sign negative (dec ds 0)) (type_min T)); [split; [done|intros (_ & _ & -> & ?); lia]|].
      split; [intros [= <-]; done|]. by intros (_ & _ & -> & _).
    - assert (~ all_digits ds) as Hbad by (rewrite <- all_digits_forallb; congruence).
      destruct (digits_after_sign_bad T negative ds HT Hds Hbad) as [e E]. exists (Err e). split; [done|]. naive_solver. }
  apply Forall_cons_1 in Hsrc as [Hb Hs]. cbn [span_sign]. unfold sgn_init.
  destruct (is_signed T) eqn:ET; cbn [andb mbind option_bind].
  2: { destruct (Hafter false (b :: s)) as (res & E & Hres); [done|by constructor|]. exists res. split; [done|].
       intros v. rewrite Hres. naive_solver. }
  destruct (isdigit b) eqn:Eb.
  { assert ((b =? 45) = false /\ (b =? 43) = false) as [-> ->] by (unfold isdigit in Eb; lia).
    destruct (Hafter false (b :: s)) as (res & E & Hres); [done|by constructor|]. exists res. split; [done|].
    intros v. rewrite Hres. naive_solver. }
  destruct (Z.eqb_spec b 45) as [->|].
  { destruct (Hafter true s) as (res & E & Hres); [done..|]. exists res. split; [done|]. intros v. rewrite Hres. naive_solver. }
  destruct (Z.eqb_spec b 43) as [->|]; cbn [negb].
  { destruct (Hafter false s) as (res & E & Hres); [done..|]. exists res. split; [done|]. intros v. rewrite Hres. naive_solver. }
  eexists. split; [done|]. intros v. split; [done|]. intros (negative & ds & [= <- <-] & _ & Hd & _).
  apply Forall_cons_1 in Hd as [Hd _]. congruence.
Qed.

Lemma digits_to_spec_witness : exists res, digits_to (mkInt 32 true) (bytes_of "-042") = Some res /\
  forall v, res = Ok v <->
    exists negative ds, span_sign (mkInt 32 true) (bytes_of "-042") = (negative, ds) /\ ds <> [] /\ all_digits ds /\
      v = with_sign negative (dec ds 0) /\ has_type (mkInt 32 true) v.
Proof.
  apply (digits_to_spec (mkInt 32 true) (bytes_of "-042")); [by right; right; left|done|].
  repeat constructor; cbn; lia.
Defined.

(** For a signed type [digits_to] reads the first character of an empty range. *)
Lemma digits_to_reads_past_end w : digits_to (mkInt w true) [] = None.
Proof. done. Qed.

(** A character of 128 or more is a negative index of the tables. *)
Lemma digits_to_high_character b : 128 <= b < 256 -> digits_to (mkInt 32 false) [b] = None.
Proof.
  intros Hb. rewrite digits_to_unfold. cbn [sgn_init is_signed mbind option_bind].
  unfold digits_after_sign, leading_zeros, too_big. cbn [bits].
  rewrite decide_False by (cbn; lia). rewrite bool_decide_eq_false_2 by (cbn; lia). cbn [andb digits_loop]. unfold shift1.
  by rewrite (shifted_high 1 b) by (done || set_solver).
Qed.

(** ** Booleans *)

(** Reference: the words with their values, the longer before its abbreviation. *)
Definition bool_words : list (list Z * bool) :=
  [(bytes_of "yes", true); (bytes_of "y", true); (bytes_of "no", false); (bytes_of "n", false);
   (bytes_of "true", true); (bytes_of "t", true); (bytes_of "false", false); (bytes_of "f", false);
   (bytes_of "on", true); (bytes_of "off", false)].

Definition lower (b : Z) : Z := if (65 <=? b) && (b <=? 90) then b + 32 else b.

(** What follows [word] in [s], letters compared without case. *)
Fixpoint after_word (word s : list Z) : option (list Z) :=
  match word, s with
  | [], s => Some s
  | v :: word, b :: s => if lower b =? v then after_word word s else None
  | _ :: _, [] => None
  end.

Fixpoint first_word (words : list (list Z * bool)) (s : list Z) : Prelude.result ConversionCode (bool * list Z) :=
  match words with
  | [] => Err BOOL_INVALID_VALUE
  | (word, value) :: words =>
      match after_word word s with Some rest => Ok (value, rest) | None => first_word words s end
  end.

Definition bool_ref (src : list Z) : Prelude.result ConversionCode (bool * list Z) :=
  match skip_spaces src with
  | [] => Err EMPTY_INPUT_STRING
  | (b :: _) as s =>
      if (b =? 48) || (b =? 49) then
        let (ds, rest) := span_digits s in
        if dec ds 0 <=? 1 then Ok (dec ds 0 =? 1, rest) else Err BOOL_OVERFLOW
      else first_word bool_words s
  end.

Lemma tolower_lower b v : is_byte b -> 97 <= v <= 122 -> (tolower_ascii b =? v) = (lower b =? v).
Proof.
  intros Hb Hv. apply Bool.eqb_true_iff.
  pose proof (byte_forall (fun b => forallb (fun v => Bool.eqb (tolower_ascii b =? v) (lower b =? v)) (seqZ 97 26)) b
    ltac:(vm_compute; reflexivity) Hb) as H. cbv beta in H. rewrite forallb_forall in H. apply H.
  apply list_elem_of_In, elem_of_seqZ. lia.
Qed.

Lemma bool_str_cmp_after word s :
  Forall is_byte s -> Forall (fun v => 97 <= v <= 122) word -> bool_str_cmp s word = after_word word s.
Proof.
  intros Hs Hw. revert s Hs. induction Hw as [|v word Hv Hw IH]; intros s Hs; cbn [bool_str_cmp after_word]; [by destruct s|].
  destruct s as [|b s]; [done|]. apply Forall_cons_1 in Hs as [Hb Hs].
  cbn [bool_str_cmp]. rewrite (tolower_lower b v), IH by done. done.
Qed.

Lemma bool_digits_spec s acc : Forall is_byte s ->
  bool_digits s acc =
    (let (ds, rest) := span_digits s in
     if dec ds (if acc then 1 else 0) <=? 1 then Ok (dec ds (if acc then 1 else 0) =? 1, rest) else Err BOOL_OVERFLOW).
Proof.
  intros Hs. revert acc. induction Hs as [|b s Hb Hs IH]; intros acc; cbn; [by destruct acc|].
  destruct (isdigit b) eqn:Eb; [|by destruct acc].
  pose proof (span_digits_digits s) as Hds. rewrite IH. destruct (span_digits s) as [ds rest]. cbn [fst] in Hds.
  pose proof (dec_bounds ds Hds) as Hdec. rewrite dec_cons.
  assert (48 <= b <= 57) by (unfold isdigit in Eb; lia).
  assert (0 < 10 ^ Z.of_nat (length ds)) by (apply Z.pow_pos_nonneg; lia).
  destruct acc; cbn [orb].
  { rewrite (dec_acc ds). rewrite (proj2 (Z.leb_gt _ 1)) by nia. done. }
  destruct (Z.eqb_spec b 48) as [->|]; [done|]. destruct (Z.eqb_spec b 49) as [->|]; [done|]. cbn [negb andb].
  rewrite (dec_acc ds). rewrite (proj2 (Z.leb_gt _ 1)) by nia. done.
Qed.

Lemma str_to_bool_ref src : Forall is_byte src -> str_to_bool src = bool_ref src.
Proof.
  intros Hsrc. unfold str_to_bool, bool_ref. rewrite skip_blanks_spaces by done.
  pose proof (skip_spaces_byte src Hsrc) as Hs. destruct (skip_spaces src) as [|b s]; [done|].
  destruct ((b =? 48) || (b =? 49)); [by rewrite bool_digits_spec|].
  unfold bool_word. rewrite !bool_str_cmp_after by (done || (repeat constructor; cbn; lia)).
  assert (forall (word : list Z) c, head word = Some c -> lower b <> c -> after_word word (b :: s) = None) as Hno.
  { intros [|c' word] c [= ->] Hc. cbn. by rewrite (proj2 (Z.eqb_neq _ _)). }
  assert (forall word c, word = [c] -> lower b = c -> after_word word (b :: s) = Some s) as Hone.
  { intros word c -> Hc. cbn. by rewrite (proj2 (Z.eqb_eq _ _)). }
  assert (forall c, (b =? c) || (b =? c - 32) = (lower b =? c) \/ c < 97 \/ 122 < c) as Hcase.
  { intros c. apply Forall_cons_1 in Hs as [Hb _]. destruct (decide (c < 97 \/ 122 < c)); [by right|left].
    unfold lower. destruct (Z.leb_spec 65 b), (Z.leb_spec b 90); cbn [andb]; lia. }
  assert (forall c c', 97 <= c <= 122 -> c' = c - 32 -> (b =? c) || (b =? c') = (lower b =? c)) as Hlow.
  { intros c c' Hc ->. destruct (Hcase c) as [?|[?|?]]; [done|lia..]. }
  rewrite (Hlow 121), (Hlow 110), (Hlow 116), (Hlow 102), (Hlow 111) by lia.
  cbn [first_word bool_words].
  destruct (Z.eqb_spec (lower b) 121) as [E|].
  { rewrite (Hone (bytes_of "y") 121) by done. by destruct (after_word (bytes_of "yes") (b :: s)). }
  rewrite (Hno (bytes_of "yes") 121), (Hno (bytes_of "y") 121) by done.
  destruct (Z.eqb_spec (lower b) 110) as [E|].
  { rewrite (Hone (bytes_of "n") 110) by done. by destruct (after_word (bytes_of "no") (b :: s)). }
  rewrite (Hno (bytes_of "no") 110), (Hno (bytes_of "n") 110) by done.
  destruct (Z.eqb_spec (lower b) 116) as [E|].
  { rewrite (Hone (bytes_of "t") 116) by done. by destruct (after_word (bytes_of "true") (b :: s)). }
  rewrite (Hno (bytes_of "true") 116), (Hno (bytes_of "t") 116) by done.
  destruct (Z.eqb_spec (lower b) 102) as [E|].
  { rewrite (Hone (bytes_of "f") 102) by done. by destruct (after_word (bytes_of "false") (b :: s)). }
  rewrite (Hno (bytes_of "false") 102), (Hno (bytes_of "f") 102) by done.
  destruct (Z.eqb_spec (lower b) 111) as [E|].
  { destruct (after_word (bytes_of "on") (b :: s)); [done|]. by destruct (after_word (bytes_of "off") (b :: s)). }
  by rewrite (Hno (bytes_of "on") 111), (Hno (bytes_of "off") 111).
Qed.

(** [str_to_bool] agrees with a table of words: after white space, a run of digits of value 0 or 1
    that starts with 0 or 1, or the first word of the table the text starts with, letters compared
    without case. *)
Theorem str_to_bool_spec src : Forall is_byte src -> str_to_bool src = bool_ref src.
Proof. apply str_to_bool_ref. Qed.

Lemma str_to_bool_spec_witness :
  str_to_bool (bytes_of " YeS!") = bool_ref (bytes_of " YeS!") /\ bool_ref (bytes_of " YeS!") = Ok (true, bytes_of "!").
Proof.
  split; [|reflexivity]. apply (str_to_bool_spec (bytes_of " YeS!")). repeat constructor; cbn; lia.
Defined.

(** ** 128-bit integers *)

Lemma digits_split n k v : 0 <= v ->
  digits 10 false (n + k) v = digits 10 false n (v / 10 ^ Z.of_nat k) ++ digits 10 false k (v mod 10 ^ Z.of_nat k).
Proof.
  revert v. induction k as [|k IH]; intros v Hv.
  { change (10 ^ Z.of_nat 0) with 1. rewrite Z.div_1_r, Nat.add_0_r. cbn. by rewrite app_nil_r. }
  rewrite Nat.add_succ_r. cbn [digits]. rewrite IH by (apply Z.div_pos; lia). rewrite <- app_assoc.
  rewrite (pow_nat_S 10). assert (0 < 10 ^ Z.of_nat k) by (apply Z.pow_pos_nonneg; lia).
  rewrite Z.div_div, Z.rem_mul_r by lia. set (m := (v / 10) mod 10 ^ Z.of_nat k).
  assert ((v mod 10 + 10 * m) / 10 = m) as -> by (Z.div_mod_to_equations; lia).
  assert ((v mod 10 + 10 * m) mod 10 = v mod 10) as -> by (Z.div_mod_to_equations; lia). done.
Qed.

Lemma telescope_leading_digits out v n :
  is_u64 v -> num_digits 10 n v -> (n <= length out)%nat ->
  telescope_leading out v = Some (digits 10 false n v ++ drop n out, n).
Proof.
  intros Hv Hn Hlen. unfold telescope_leading. unfold is_uint in Hv.
  rewrite shiftr_div, Z.div_small by lia. cbn [Z.eqb]. rewrite wrap_small by done.
  unfold to_ascii_with. pose proof (to_ascii_size_route_digits 10 true v ltac:(lia) Hv) as Hd.
  rewrite (num_digits_unique 10 ltac:(lia) _ _ _ Hd Hn). rewrite decide_False by lia.
  destruct Hn as (H1 & H2 & _). by rewrite to_ascii_with_route_digits by (done || lia).
Qed.

Lemma telescope_append_digits ds out v :
  0 <= v < kBase -> (kBaseDigits <= length out)%nat ->
  telescope_append (ds ++ out, length ds) v =
    Some ((ds ++ digits 10 false kBaseDigits v) ++ drop kBaseDigits out, length (ds ++ digits 10 false kBaseDigits v)).
Proof.
  intros Hv Hlen. unfold telescope_append. rewrite (proj2 (Z.ltb_lt _ _)) by lia.
  rewrite bool_decide_eq_true_2 by (rewrite length_app; lia). cbn [andb].
  rewrite drop_app_length, take_app_length.
  rewrite to_ascii_with_route_digits by (done || (unfold kBaseDigits in *; lia)). cbn [mbind option_bind].
  by rewrite length_app, digits_length, <- app_assoc.
Qed.

Lemma num_digits_more n k v :
  0 <= v -> 10 ^ Z.of_nat k <= v -> num_digits 10 n (v / 10 ^ Z.of_nat k) -> num_digits 10 (n + k) v.
Proof.
  intros Hv Hk (H1 & H2 & H3). assert (0 < 10 ^ Z.of_nat k) by (apply Z.pow_pos_nonneg; lia).
  split; [lia|]. rewrite Nat2Z.inj_add, Z.pow_add_r by lia. split.
  - split; [done|]. pose proof (Z.mul_succ_div_gt v (10 ^ Z.of_nat k)). nia.
  - intros _. destruct (decide (n = 1%nat)) as [->|Hn].
    + replace (Z.of_nat 1 + Z.of_nat k - 1) with (Z.of_nat k) by lia. done.
    + specialize (H3 Hn). replace (Z.of_nat n + Z.of_nat k - 1) with (Z.of_nat n - 1 + Z.of_nat k) by lia.
      rewrite Z.pow_add_r by lia. pose proof (Z.mul_div_le v (10 ^ Z.of_nat k)). nia.
Qed.

Lemma num_digits_exists v : is_u64 v -> exists n, num_digits 10 n v.
Proof. intros Hv. exists (to_ascii_size_array 10 v). by apply to_ascii_size_array_digits. Qed.

Lemma num_digits_le n k v : num_digits 10 n v -> v < 10 ^ Z.of_nat k -> (1 <= k)%nat -> (n <= k)%nat.
Proof.
  intros (H1 & H2 & H3) Hv Hk. apply Nat.nlt_ge. intros Hlt. specialize (H3 ltac:(lia)).
  assert (10 ^ Z.of_nat k <= 10 ^ (Z.of_nat n - 1)) by (apply Z.pow_le_mono_r; lia). lia.
Qed.

Lemma kBase_pow : kBase = 10 ^ Z.of_nat kBaseDigits.
Proof. reflexivity. Qed.

Lemma telescope_digits out x : is_uint 128 x -> (39 <= length out)%nat -> exists n,
  num_digits 10 n x /\ (n <= 39)%nat /\ unsafeTelescope128 out x = Some (digits 10 false n x ++ drop n out, n).
Proof.
  intros Hx Hlen. unfold is_uint in Hx. unfold unsafeTelescope128. rewrite !shiftr_div by lia.
  change (2 ^ 128) with 340282366920938463463374607431768211456 in Hx. change (2 ^ 64) with 18446744073709551616 in *.
  destruct (Z.ltb_spec 0 (x / 18446744073709551616)) as [Hbig|Hsmall].
  2: { assert (is_u64 x) as Hx64 by (unfold is_uint; change (2 ^ 64) with 18446744073709551616; Z.div_mod_to_equations; lia).
       destruct (num_digits_exists x Hx64) as [n Hn]. exists n.
       assert (n <= 20)%nat by (apply (num_digits_le n 20 x Hn); [unfold is_uint in Hx64; lia|lia]).
       split; [done|]. split; [lia|]. by apply telescope_leading_digits; [| |lia]. }
  assert (kBase <= x) by (unfold kBase; Z.div_mod_to_equations; lia).
  pose proof (Z.mod_pos_bound x kBase ltac:(done)) as Hr.
  rewrite (wrap_small 64 (x mod kBase)) by (unfold is_uint, kBase in *; lia).
  set (y := x / kBase) in *. assert (1 <= y < 34028236692093846347) as Hy by (unfold y, kBase; Z.div_mod_to_equations; lia).
  destruct (Z.ltb_spec 0 (y / 18446744073709551616)) as [Hbig2|Hsmall2].
  - assert (kBase <= y) by (unfold kBase; Z.div_mod_to_equations; lia).
    pose proof (Z.mod_pos_bound y kBase ltac:(done)) as Hr2.
    rewrite (wrap_small 64 (y mod kBase)) by (unfold is_uint, kBase in *; lia).
    set (z := y / kBase) in *. assert (1 <= z <= 3) as Hz by (unfold z, kBase; Z.div_mod_to_equations; lia).
    assert (num_digits 10 1 z) as Hnz by (split; [done|]; change (10 ^ Z.of_nat 1) with 10; split; [lia|done]).
    exists 39%nat. assert (num_digits 10 (1 + kBaseDigits + kBaseDigits) x) as Hn.
    { apply num_digits_more; [lia|done|]. rewrite <- kBase_pow. apply num_digits_more; [lia|done|]. by rewrite <- kBase_pow. }
    split; [done|]. split; [done|].
    rewrite (telescope_leading_digits out z 1) by (done || lia || (unfold is_uint; lia)). cbn [mbind option_bind].
    replace (digits 10 false 1 z ++ drop 1 out, 1%nat) with (digits 10 false 1 z ++ drop 1 out, length (digits 10 false 1 z))
      by (by rewrite digits_length).
    rewrite telescope_append_digits by (done || (rewrite length_drop; unfold kBaseDigits; lia)). cbn [mbind option_bind].
    rewrite telescope_append_digits by (done || (rewrite !length_drop; unfold kBaseDigits; lia)).
    change 39%nat with (1 + kBaseDigits + kBaseDigits)%nat.
    rewrite (digits_split (1 + kBaseDigits) kBaseDigits x), <- kBase_pow by lia. fold y.
    rewrite (digits_split 1 kBaseDigits y), <- kBase_pow by lia. fold z.
    rewrite !length_app, !digits_length, !drop_drop. done.
  - assert (is_u64 y) as Hy64 by (unfold is_uint; change (2 ^ 64) with 18446744073709551616; Z.div_mod_to_equations; lia).
    destruct (num_digits_exists y Hy64) as [n Hn]. assert (n <= 20)%nat as Hn20.
    { apply (num_digits_le n 20 y Hn); [unfold is_uint in Hy64; lia|lia]. }
    exists (n + kBaseDigits)%nat. split; [apply num_digits_more; [lia|done|]; by rewrite <- kBase_pow|].
    split; [unfold kBaseDigits; lia|].
    rewrite (telescope_leading_digits out y n) by (done || lia). cbn [mbind option_bind].
    replace (digits 10 false n y ++ drop n out, n) with (digits 10 false n y ++ drop n out, length (digits 10 false n y))
      by (by rewrite digits_length).
    rewrite telescope_append_digits by (done || (rewrite length_drop; unfold kBaseDigits; lia)).
    rewrite (digits_split n kBaseDigits x), <- kBase_pow by lia. fold y.
    rewrite length_app, !digits_length, drop_drop. done.
Qed.

Lemma toAppend_i128_text v out : is_sint 128 v -> exists n,
  num_digits 10 n (Z.abs v) /\ toAppend_i128 v out = Some (out ++ int_text n v).
Proof.
  intros Hv. unfold is_sint in Hv. change (2 ^ (128 - 1)) with (2 ^ 127) in Hv. unfold toAppend_i128, int_text.
  change (digitsEnough 128 + 1)%nat with 40%nat. destruct (Z.ltb_spec v 0).
  - rewrite store_in_bounds by (cbn; lia). cbn [mbind option_bind].
    assert (wrap 128 (- wrap 128 v) = Z.abs v) as ->.
    { unfold wrap. rewrite <- (Z.mod_add v 1), (Z.mod_small (v + _)) by lia.
      rewrite <- (Z.mod_add (- _) 1), (Z.mod_small (- _ + _)) by lia. lia. }
    destruct (telescope_digits (drop 1 (<[0%nat:=45]> (replicate 40 0))) (Z.abs v)) as (n & Hn & Hn39 & E);
      [unfold is_uint; lia|cbn; lia|].
    exists n. split; [done|]. rewrite E. cbn [mbind option_bind]. do 2 f_equal.
    change (take 1 (<[0%nat:=45]> (replicate 40 0))) with [45]. cbn [plus app take]. f_equal.
    by rewrite take_app_length' by (by rewrite digits_length).
  - destruct (telescope_digits (replicate 40 0) v) as (n & Hn & Hn39 & E); [unfold is_uint; lia|cbn; lia|].
    exists n. rewrite Z.abs_eq by done. split; [done|]. rewrite E. cbn [mbind option_bind app]. do 2 f_equal.
    by rewrite take_app_length' by (by rewrite digits_length).
Qed.

(** A 128-bit integer, written as up to three blocks of at most 19 digits, survives the trip
    through text as well. *)
Theorem int128_text_roundtrip v out :
  is_sint 128 v -> exists text,
    toAppend_i128 v out = Some (out ++ text) /\ tryTo_integral (mkInt 128 true) text = Some (Ok v).
Proof.
  intros Hv. destruct (toAppend_i128_text v out Hv) as (n & Hn & Happ). exists (int_text n v). split; [done|].
  unfold tryTo_integral. rewrite str_to_integral_eq; [|by right; right; right; right|apply int_text_bytes].
  rewrite <- (app_nil_r (int_text n v)), read_int_text; [done|done| |done|done].
  unfold is_sint, has_type, type_min, type_max in *. cbn [is_signed bits]. lia.
Qed.

Lemma int128_text_roundtrip_witness : exists text,
  toAppend_i128 (-170141183460469231731687303715884105728) [] = Some ([] ++ text) /\
  tryTo_integral (mkInt 128 true) text = Some (Ok (-170141183460469231731687303715884105728)).
Proof. apply (int128_text_roundtrip (-170141183460469231731687303715884105728)). unfold is_sint. cbn. lia. Defined.
