(* ===== verification/EvictingCacheMap.v ===== *)
(** * EvictingCacheMap: the LRU cache of [folly/container/EvictingCacheMap.h].

    Nodes live in a heap, and the hash table [index_] and the intrusive list [lru_] hold
    pointers to them, as in the source; using a pointer to a deleted node is undefined
    behaviour.  The two containers are used through interfaces: the operations the cache calls,
    with the laws that say what they do to the finite map and to the sequence they stand for.
    A hook is a function of the caller: its calls are recorded, and it may throw. *)
From S2P Require Import Prelude.

Abbreviation ptr := positive.

(** ** Interfaces of the containers the cache is built on *)

(** [boost::intrusive::list<Node>]: the nodes from the front to the back. *)
Class NodeListOps (L : Type) := {
  nl_empty : L;
  nl_nodes : L -> list ptr;
  nl_push_front : ptr -> L -> L;
  nl_erase : ptr -> L -> L;
  nl_splice_front : ptr -> L -> L;
}.

Class NodeListLaws (L : Type) `{NodeListOps L} := {
  nl_nodes_empty : nl_nodes nl_empty = [];
  nl_nodes_push_front p l : p ∉ nl_nodes l -> nl_nodes (nl_push_front p l) = p :: nl_nodes l;
  nl_nodes_erase l1 p l2 l :
    NoDup (nl_nodes l) -> nl_nodes l = l1 ++ p :: l2 -> nl_nodes (nl_erase p l) = l1 ++ l2;
  nl_nodes_splice l1 p l2 l :
    NoDup (nl_nodes l) -> nl_nodes l = l1 ++ p :: l2 ->
    nl_nodes (nl_splice_front p l) = p :: l1 ++ l2;
}.

(** [F14VectorSet<Node*, KeyHasher, KeyValueEqual>]: a set of nodes that compares them by
    their keys, that is a map from keys to nodes. *)
Class NodeMapOps (K : Type) `{Countable K} (I : Type) := {
  nm_empty : I;
  nm_find : K -> I -> option ptr;
  nm_insert : K -> ptr -> I -> I;
  nm_erase : K -> I -> I;
  nm_size : I -> nat;
}.

Class NodeMapLaws (K : Type) `{Countable K} (I : Type) `{!NodeMapOps K I} := {
  nm_map : I -> gmap K ptr;
  nm_map_empty : nm_map nm_empty = ∅;
  nm_map_find k i : nm_find k i = nm_map i !! k;
  nm_map_insert k p i : nm_map i !! k = None -> nm_map (nm_insert k p i) = <[k := p]> (nm_map i);
  nm_map_erase k i : nm_map (nm_erase k i) = delete k (nm_map i);
  nm_map_size i : nm_size i = size (nm_map i);
}.

(** The interfaces are inhabited: lists and finite maps implement them. *)
#[global] Instance list_node_list : NodeListOps (list ptr) := {|
  nl_empty := [];
  nl_nodes l := l;
  nl_push_front p l := p :: l;
  nl_erase p l := filter (fun q => q <> p) l;
  nl_splice_front p l := p :: filter (fun q => q <> p) l;
|}.

#[global] Instance gmap_node_map (K : Type) `{Countable K} : NodeMapOps K (gmap K ptr) := {|
  nm_empty := ∅;
  nm_find k i := i !! k;
  nm_insert k p i := <[k := p]> i;
  nm_erase k i := delete k i;
  nm_size i := size i;
|}.

(** ** The cache *)

Section Cache.
Context {K V Hook : Type} `{Countable K}.
Context {L : Type} `{!NodeListOps L}.
Context {I : Type} `{!NodeMapOps K I}.

(** Whether a call of a hook throws. *)
Context (hook_throws : Hook -> K -> V -> bool).

Record EvictingCacheMap := mkEvictingCacheMap {
  nodes : gmap ptr (K * V);
  pruneHook_ : option Hook;
  index_ : I;
  lru_ : L;
  maxSize_ : nat;
  clearSize_ : nat;
  hook_calls : list (Hook * K * V);
}.

Inductive exn := out_of_range | hook_exception.

Abbreviation op := (M EvictingCacheMap exn).

Definition set_nodes (f : gmap ptr (K * V) -> gmap ptr (K * V)) (s : EvictingCacheMap) :=
  mkEvictingCacheMap (f (nodes s)) (pruneHook_ s) (index_ s) (lru_ s) (maxSize_ s) (clearSize_ s) (hook_calls s).
Definition set_index (f : I -> I) (s : EvictingCacheMap) :=
  mkEvictingCacheMap (nodes s) (pruneHook_ s) (f (index_ s)) (lru_ s) (maxSize_ s) (clearSize_ s) (hook_calls s).
Definition set_lru (f : L -> L) (s : EvictingCacheMap) :=
  mkEvictingCacheMap (nodes s) (pruneHook_ s) (index_ s) (f (lru_ s)) (maxSize_ s) (clearSize_ s) (hook_calls s).
Definition add_call (c : Hook * K * V) (s : EvictingCacheMap) :=
  mkEvictingCacheMap (nodes s) (pruneHook_ s) (index_ s) (lru_ s) (maxSize_ s) (clearSize_ s) (hook_calls s ++ [c]).

(** [new Node], [node->pr] and [delete node]. *)
Definition new_node (pr : K * V) : op ptr :=
  s ← get_state;
  let node := fresh (dom (nodes s)) in
  _ ← modify (set_nodes (<[node := pr]>));
  mret node.

Definition deref (node : ptr) : op (K * V) := access (fun s => nodes s !! node).

Definition delete_node (node : ptr) : op unit := modify (set_nodes (delete node)).

(** [lru_.iterator_to( *node )]; an iterator is the node it points to, [None] being [end()]. *)
Definition iterator := option ptr.

Definition iterator_to (node : ptr) : op iterator := access (fun s =>
  if decide (node ∈ nl_nodes (lru_ s)) then Some (Some node) else None).

Definition make (maxSize clearSize : nat) : EvictingCacheMap :=
  mkEvictingCacheMap ∅ None nm_empty nl_empty maxSize clearSize [].

Definition size_ (s : EvictingCacheMap) : nat := nm_size (index_ s).

Definition empty_ (s : EvictingCacheMap) : bool := (nm_size (index_ s) =? 0)%nat.

Definition findInIndex (key : K) (s : EvictingCacheMap) : option ptr := nm_find key (index_ s).

Definition existsImpl (key : K) (s : EvictingCacheMap) : bool :=
  match findInIndex key s with Some _ => true | None => false end.

(** [index_.erase(node)]: hashing and comparing the node reads its key. *)
Definition index_erase (node : ptr) : op unit :=
  pr ← deref node;
  modify (set_index (nm_erase pr.1)).

(** [index_.insert(node)]: the node with that key and whether it is the new one. *)
Definition index_insert (node : ptr) : op (ptr * bool) :=
  pr ← deref node;
  s ← get_state;
  match nm_find pr.1 (index_ s) with
  | Some other => mret (other, false)
  | None => _ ← modify (set_index (nm_insert pr.1 node)); mret (node, true)
  end.

(** A call of a hook on the entry of a node that is being removed; the owner of the node
    destroys it when the call returns or throws. *)
Definition call_hook_and_destroy (hook : option Hook) (node : ptr) : op unit :=
  pr ← deref node;
  match hook with
  | Some h =>
      _ ← modify (add_call (h, pr.1, pr.2));
      _ ← delete_node node;
      if hook_throws h pr.1 pr.2 then throw hook_exception else mret tt
  | None => delete_node node
  end.

Fixpoint prune_loop (pruneSize : nat) (ph : option Hook) : op unit :=
  match pruneSize with
  | O => mret tt
  | S pruneSize =>
      s ← get_state;
      match last (nl_nodes (lru_ s)) with
      | None => mret tt
      | Some node =>
          _ ← modify (set_lru (nl_erase node));
          _ ← index_erase node;
          _ ← call_hook_and_destroy ph node;
          prune_loop pruneSize ph
      end
  end.

Definition prune (pruneSize : nat) (pruneHook : option Hook) : op unit :=
  s ← get_state;
  prune_loop pruneSize (match pruneHook with None => pruneHook_ s | Some h => Some h end).

Definition clear (pruneHook : option Hook) : op unit :=
  s ← get_state;
  prune (size_ s) pruneHook.

Definition setMaxSize (maxSize : nat) (pruneHook : option Hook) : op unit :=
  s ← get_state;
  _ ← (if (negb (maxSize =? 0) && (maxSize <? size_ s))%nat
       then prune (Nat.max (size_ s - maxSize) (clearSize_ s)) pruneHook else mret tt);
  modify (fun s => mkEvictingCacheMap (nodes s) (pruneHook_ s) (index_ s) (lru_ s) maxSize
                     (clearSize_ s) (hook_calls s)).

Definition getMaxSize (s : EvictingCacheMap) : nat := maxSize_ s.

Definition setClearSize (clearSize : nat) : op unit :=
  modify (fun s => mkEvictingCacheMap (nodes s) (pruneHook_ s) (index_ s) (lru_ s) (maxSize_ s)
                     clearSize (hook_calls s)).

Definition setPruneHook (pruneHook : option Hook) : op unit :=
  modify (fun s => mkEvictingCacheMap (nodes s) pruneHook (index_ s) (lru_ s) (maxSize_ s)
                     (clearSize_ s) (hook_calls s)).

Definition getPruneHook (s : EvictingCacheMap) : option Hook := pruneHook_ s.

Definition findImpl (key : K) : op iterator :=
  s ← get_state;
  match findInIndex key s with
  | None => mret None
  | Some p => _ ← modify (set_lru (nl_splice_front p)); iterator_to p
  end.

Definition getImpl (key : K) : op V :=
  it ← findImpl key;
  match it with
  | None => throw out_of_range
  | Some p => pr ← deref p; mret pr.2
  end.

Definition findWithoutPromotionImpl (key : K) : op iterator :=
  s ← get_state;
  match findInIndex key s with
  | Some p => iterator_to p
  | None => mret None
  end.

Definition getWithoutPromotionImpl (key : K) : op V :=
  it ← findWithoutPromotionImpl key;
  match it with
  | None => throw out_of_range
  | Some p => pr ← deref p; mret pr.2
  end.

(** The node after [p], the result of [lru_.erase]. *)
Fixpoint node_after (p : ptr) (l : list ptr) : iterator :=
  match l with
  | [] => None
  | q :: l => if decide (p = q) then head l else node_after p l
  end.

Definition eraseImpl (p : ptr) (eraseHook : option Hook) : op iterator :=
  _ ← index_erase p;
  s ← get_state;
  let next_base_iter := node_after p (nl_nodes (lru_ s)) in
  _ ← modify (set_lru (nl_erase p));
  _ ← call_hook_and_destroy eraseHook p;
  mret next_base_iter.

Definition eraseKeyImpl (key : K) (eraseHook : option Hook) : op bool :=
  s ← get_state;
  match findInIndex key s with
  | Some p => it ← iterator_to p; _ ← eraseImpl p eraseHook; mret true
  | None => mret false
  end.

(** [if (maxSize_ > 0 && size() > maxSize_) prune(clearSize_, pruneHook)] *)
Definition evict_if_needed (pruneHook : option Hook) : op unit :=
  s ← get_state;
  if ((0 <? maxSize_ s) && (maxSize_ s <? size_ s))%nat
  then prune (clearSize_ s) pruneHook else mret tt.

Definition setImpl (key : K) (value : V) (promote : bool) (pruneHook : option Hook) : op unit :=
  s ← get_state;
  match findInIndex key s with
  | Some p =>
      pr ← deref p;
      _ ← modify (set_nodes (<[p := (pr.1, value)]>));
      if promote then modify (set_lru (nl_splice_front p)) else mret tt
  | None =>
      node ← new_node (key, value);
      _ ← index_insert node;
      _ ← modify (set_lru (nl_push_front node));
      evict_if_needed pruneHook
  end.

Definition insertNodeImpl (node : ptr) (pruneHook : option Hook) : op (iterator * bool) :=
  pair ← index_insert node;
  if negb pair.2 then
    it ← iterator_to pair.1;
    _ ← delete_node node;
    mret (it, false)
  else
    _ ← modify (set_lru (nl_push_front node));
    _ ← evict_if_needed pruneHook;
    it ← iterator_to node;
    mret (it, true).

Definition insertImpl (key : K) (value : V) (pruneHook : option Hook) : op (iterator * bool) :=
  node ← new_node (key, value);
  insertNodeImpl node pruneHook.

(** The public members, over the [Impl] ones. *)
Definition exists_ (key : K) (s : EvictingCacheMap) : bool := existsImpl key s.

Definition get (key : K) : op V := getImpl key.

Definition find (key : K) : op iterator := findImpl key.

Definition getWithoutPromotion (key : K) : op V := getWithoutPromotionImpl key.

Definition findWithoutPromotion (key : K) : op iterator := findWithoutPromotionImpl key.

Definition erase (key : K) (eraseHook : option Hook) : op bool := eraseKeyImpl key eraseHook.

(** [erase(const_iterator)]: undefined unless the iterator is in the list. *)
Definition erase_at (pos : iterator) (eraseHook : option Hook) : op iterator :=
  match pos with
  | None => undefined
  | Some p => _ ← iterator_to p; eraseImpl p eraseHook
  end.

Definition set (key : K) (value : V) (promote : bool) (pruneHook : option Hook) : op unit :=
  setImpl key value promote pruneHook.

Definition insert_ (key : K) (value : V) (pruneHook : option Hook) : op (iterator * bool) :=
  insertImpl key value pruneHook.

Definition emplaceWithPruneHook (key : K) (value : V) (pruneHook : option Hook) : op (iterator * bool) :=
  node ← new_node (key, value);
  insertNodeImpl node pruneHook.

Definition try_emplace (key : K) (value : V) : op (iterator * bool) :=
  emplaceWithPruneHook key value None.

(** [begin()], [rbegin()]: the most and the least recently used node. *)
Definition begin_ (s : EvictingCacheMap) : iterator := head (nl_nodes (lru_ s)).

Definition rbegin (s : EvictingCacheMap) : iterator := last (nl_nodes (lru_ s)).

End Cache.

Lemma filter_remove (l1 l2 : list ptr) p :
  NoDup (l1 ++ p :: l2) -> filter (fun q => q <> p) (l1 ++ p :: l2) = l1 ++ l2.
Proof.
  intros Hnd. rewrite filter_app, filter_cons_False by auto.
  apply NoDup_app in Hnd as (_ & Hd & [Hp _]%NoDup_cons).
  f_equal; apply filter_all; set_solver.
Qed.

#[global] Instance list_node_list_laws : NodeListLaws (list ptr).
Proof.
  split; try done.
  - intros l1 p l2 l Hnd Hl. cbn in *. subst l. by apply filter_remove.
  - intros l1 p l2 l Hnd Hl. cbn in *. subst l. f_equal. by apply filter_remove.
Qed.

#[global] Instance gmap_node_map_laws (K : Type) `{Countable K} : NodeMapLaws K (gmap K ptr).
Proof. by refine {| nm_map i := i |}. Defined.

(** ** The contract: a list of entries in order of use *)

Section Contract.
Context {K V Hook : Type} `{Countable K}.
Context (hook_throws : Hook -> K -> V -> bool).

Record LruSpec := mkLruSpec {
  contents : list (K * V);
  spec_hook : option Hook;
  spec_max : nat;
  spec_clear : nat;
  spec_calls : list (Hook * K * V);
}.

Abbreviation spec := (M LruSpec exn).

Definition set_contents (l : list (K * V)) (a : LruSpec) : LruSpec :=
  mkLruSpec l (spec_hook a) (spec_max a) (spec_clear a) (spec_calls a).

Fixpoint lookup_key (k : K) (l : list (K * V)) : option V :=
  match l with
  | [] => None
  | (k', v) :: l => if decide (k = k') then Some v else lookup_key k l
  end.

Definition remove_key (k : K) (l : list (K * V)) : list (K * V) := filter (fun e => e.1 <> k) l.

Definition promote_key (k : K) (v : V) (l : list (K * V)) : list (K * V) := (k, v) :: remove_key k l.

Definition update_key (k : K) (v : V) (l : list (K * V)) : list (K * V) :=
  (fun e => if decide (e.1 = k) then (k, v) else e) <$> l.

(** The entry leaves the cache, then the hook is told. *)
Definition spec_remove (h : option Hook) (k : K) (v : V) : spec unit := fun a =>
  let l := remove_key k (contents a) in
  match h with
  | Some h => Some (mkLruSpec l (spec_hook a) (spec_max a) (spec_clear a) (spec_calls a ++ [(h, k, v)]),
                    if hook_throws h k v then Err hook_exception else Ok tt)
  | None => Some (set_contents l a, Ok tt)
  end.

(** Evict from the least recently used end, up to [n] entries. *)
Fixpoint spec_evict (n : nat) (h : option Hook) : spec unit :=
  match n with
  | O => mret tt
  | S n =>
      a ← get_state;
      match last (contents a) with
      | None => mret tt
      | Some (k, v) => _ ← spec_remove h k v; spec_evict n h
      end
  end.

Definition spec_prune (n : nat) (h : option Hook) : spec unit :=
  a ← get_state;
  spec_evict n (match h with None => spec_hook a | Some h => Some h end).

(** A new entry in front, then the evictions a bounded cache needs. *)
Definition spec_add (k : K) (v : V) (h : option Hook) : spec unit :=
  _ ← modify (fun a => set_contents ((k, v) :: contents a) a);
  a ← get_state;
  if ((0 <? spec_max a) && (spec_max a <? length (contents a)))%nat
  then spec_prune (spec_clear a) h else mret tt.

(** ** Requests of a client *)

Inductive request :=
| Exists (k : K)
| Get (k : K)
| Find (k : K)
| GetWithoutPromotion (k : K)
| FindWithoutPromotion (k : K)
| Set_ (k : K) (v : V) (promote : bool) (h : option Hook)
| Insert (k : K) (v : V) (h : option Hook)
| Erase (k : K) (h : option Hook)
| Prune (n : nat) (h : option Hook)
| Clear (h : option Hook)
| SetMaxSize (n : nat) (h : option Hook)
| SetClearSize (n : nat)
| SetPruneHook (h : option Hook)
| Size.

(** An iterator is observed as the entry it points to, [None] being [end()]. *)
Inductive response :=
| RUnit
| RBool (b : bool)
| RValue (v : V)
| REntry (e : option (K * V))
| RInsert (e : option (K * V)) (inserted : bool)
| RSize (n : nat).

Definition spec_get (promote : bool) (k : K) : spec (option (K * V)) :=
  a ← get_state;
  match lookup_key k (contents a) with
  | None => mret None
  | Some v =>
      _ ← (if promote then modify (set_contents (promote_key k v (contents a))) else mret tt);
      mret (Some (k, v))
  end.

Definition spec_value (m : spec (option (K * V))) : spec response :=
  e ← m;
  match e with None => throw out_of_range | Some e => mret (RValue e.2) end.

Definition spec_run (r : request) : spec response :=
  match r with
  | Exists k => a ← get_state; mret (RBool (bool_decide (is_Some (lookup_key k (contents a)))))
  | Get k => spec_value (spec_get true k)
  | Find k => e ← spec_get true k; mret (REntry e)
  | GetWithoutPromotion k => spec_value (spec_get false k)
  | FindWithoutPromotion k => e ← spec_get false k; mret (REntry e)
  | Set_ k v promote h =>
      a ← get_state;
      match lookup_key k (contents a) with
      | Some _ =>
          _ ← modify (set_contents
                (if promote then promote_key k v (contents a) else update_key k v (contents a)));
          mret RUnit
      | None => _ ← spec_add k v h; mret RUnit
      end
  | Insert k v h =>
      a ← get_state;
      match lookup_key k (contents a) with
      | Some v' => mret (RInsert (Some (k, v')) false)
      | None =>
          _ ← spec_add k v h;
          a ← get_state;
          if decide (is_Some (lookup_key k (contents a)))
          then mret (RInsert (Some (k, v)) true) else undefined
      end
  | Erase k h =>
      a ← get_state;
      match lookup_key k (contents a) with
      | Some v => _ ← spec_remove h k v; mret (RBool true)
      | None => mret (RBool false)
      end
  | Prune n h => _ ← spec_prune n h; mret RUnit
  | Clear h => a ← get_state; _ ← spec_prune (length (contents a)) h; mret RUnit
  | SetMaxSize n h =>
      a ← get_state;
      _ ← (if (negb (n =? 0) && (n <? length (contents a)))%nat
           then spec_prune (Nat.max (length (contents a) - n) (spec_clear a)) h else mret tt);
      _ ← modify (fun a => mkLruSpec (contents a) (spec_hook a) n (spec_clear a) (spec_calls a));
      mret RUnit
  | SetClearSize n =>
      _ ← modify (fun a => mkLruSpec (contents a) (spec_hook a) (spec_max a) n (spec_calls a));
      mret RUnit
  | SetPruneHook h =>
      _ ← modify (fun a => mkLruSpec (contents a) h (spec_max a) (spec_clear a) (spec_calls a));
      mret RUnit
  | Size => a ← get_state; mret (RSize (length (contents a)))
  end.

End Contract.

Arguments remove_key : simpl never.
Arguments update_key : simpl never.
Arguments LruSpec : clear implicits.
Arguments request : clear implicits.
Arguments response : clear implicits.

(** ** The implementation of the requests *)

Section Run.
Context {K V Hook : Type} `{Countable K}.
Context {L : Type} `{!NodeListOps L}.
Context {I : Type} `{!NodeMapOps K I}.
Context (hook_throws : Hook -> K -> V -> bool).

Abbreviation cache := (EvictingCacheMap (K:=K) (V:=V) (Hook:=Hook) (L:=L) (I:=I)).

Definition observe (it : iterator) : M cache exn (option (K * V)) :=
  match it with
  | None => mret None
  | Some p => pr ← deref p; mret (Some pr)
  end.

Definition run (r : request K V Hook) : M cache exn (response K V) :=
  match r with
  | Exists k => s ← get_state; mret (RBool (exists_ k s))
  | Get k => v ← get k; mret (RValue v)
  | Find k => it ← find k; e ← observe it; mret (REntry e)
  | GetWithoutPromotion k => v ← getWithoutPromotion k; mret (RValue v)
  | FindWithoutPromotion k => it ← findWithoutPromotion k; e ← observe it; mret (REntry e)
  | Set_ k v promote h => _ ← set hook_throws k v promote h; mret RUnit
  | Insert k v h =>
      r ← insert_ hook_throws k v h; e ← observe r.1; mret (RInsert e r.2)
  | Erase k h => b ← erase hook_throws k h; mret (RBool b)
  | Prune n h => _ ← prune hook_throws n h; mret RUnit
  | Clear h => _ ← clear hook_throws h; mret RUnit
  | SetMaxSize n h => _ ← setMaxSize hook_throws n h; mret RUnit
  | SetClearSize n => _ ← setClearSize n; mret RUnit
  | SetPruneHook h => _ ← setPruneHook h; mret RUnit
  | Size => s ← get_state; mret (RSize (size_ s))
  end.

(** A client that goes on after an exception: the responses in order. *)
Fixpoint run_all {S} (step : request K V Hook -> M S exn (response K V))
    (rs : list (request K V Hook)) (s : S) : option (S * list (result exn (response K V))) :=
  match rs with
  | [] => Some (s, [])
  | r :: rs =>
      match step r s with
      | None => None
      | Some (s, x) =>
          match run_all step rs s with
          | None => None
          | Some (s, xs) => Some (s, x :: xs)
          end
      end
  end.

End Run.

(** ** Nodes, index and list together *)

Section Store.
Context {K V : Type} `{Countable K}.
Implicit Types (ns : gmap ptr (K * V)) (im : gmap K ptr) (l : list ptr).

(** The list holds every allocated node once, and the index maps each key to its node. *)
Record store_ok ns im l : Prop := {
  store_nodup : NoDup l;
  store_nodes p : p ∈ l <-> is_Some (ns !! p);
  store_index k p : im !! k = Some p <-> exists v, ns !! p = Some (k, v);
}.

Definition entries ns l : list (K * V) := omap (fun p => ns !! p) l.

Lemma entries_app ns l1 l2 : entries ns (l1 ++ l2) = entries ns l1 ++ entries ns l2.
Proof. apply omap_app. Qed.

Lemma entries_cons ns p e l : ns !! p = Some e -> entries ns (p :: l) = e :: entries ns l.
Proof. intros Hp. unfold entries. cbn. by rewrite Hp. Qed.

Lemma entries_ext ns ns' l :
  (forall p, p ∈ l -> ns !! p = ns' !! p) -> entries ns l = entries ns' l.
Proof.
  intros Heq. unfold entries. induction l as [|p l IH]; [done|]. cbn.
  rewrite Heq by set_solver. rewrite IH by set_solver. done.
Qed.

Lemma elem_of_entries ns l e : e ∈ entries ns l <-> exists p, p ∈ l /\ ns !! p = Some e.
Proof. unfold entries. by rewrite list_elem_of_omap. Qed.

Lemma entries_length ns im l : store_ok ns im l -> length (entries ns l) = length l.
Proof.
  intros [_ Hn _].
  assert (forall p, p ∈ l -> is_Some (ns !! p)) as Hall by (intros; by apply Hn).
  clear Hn. unfold entries. induction l as [|p l IH]; [done|]. cbn.
  destruct (Hall p) as [e ->]; [set_solver|]. cbn. rewrite IH; set_solver.
Qed.

Lemma store_key_unique ns im l p q k v w :
  store_ok ns im l -> ns !! p = Some (k, v) -> ns !! q = Some (k, w) -> p = q.
Proof.
  intros [_ _ Hi] Hp Hq.
  assert (im !! k = Some p) by (apply Hi; eauto). assert (im !! k = Some q) by (apply Hi; eauto).
  congruence.
Qed.

(** The node of a key splits the list, and with it the entries. *)
Lemma store_split ns im l p k v :
  store_ok ns im l -> ns !! p = Some (k, v) ->
  exists l1 l2, l = l1 ++ p :: l2 /\
    entries ns l = entries ns l1 ++ (k, v) :: entries ns l2 /\
    remove_key k (entries ns l) = entries ns (l1 ++ l2).
Proof.
  intros Hok Hp. destruct (list_elem_of_split l p) as (l1 & l2 & ->).
  { apply (store_nodes _ _ _ Hok). by rewrite Hp. }
  exists l1, l2. split; [done|].
  assert (entries ns (l1 ++ p :: l2) = entries ns l1 ++ (k, v) :: entries ns l2) as He
    by (rewrite entries_app; f_equal; by apply entries_cons).
  split; [done|]. rewrite He, entries_app. unfold remove_key.
  rewrite filter_app, filter_cons_False by (cbn; auto).
  pose proof (store_nodup _ _ _ Hok) as (_ & Hd & [Hp2 _]%NoDup_cons)%NoDup_app.
  f_equal; apply filter_all; intros [k' w] (q & Hq & Hqv)%elem_of_entries; cbn; intros ->.
  all: pose proof (store_key_unique _ _ _ _ _ _ _ _ Hok Hp Hqv) as <-; set_solver.
Qed.

Lemma store_lookup ns im l k :
  store_ok ns im l ->
  lookup_key k (entries ns l) = p ← im !! k; snd <$> ns !! p.
Proof.
  intros Hok. destruct (im !! k) as [p|] eqn:Hk; cbn.
  - apply (store_index _ _ _ Hok) in Hk as [v Hv]. rewrite Hv. cbn.
    destruct (store_split _ _ _ _ _ _ Hok Hv) as (l1 & l2 & -> & -> & _).
    assert (forall w, (k, w) ∉ entries ns l1) as Hk1.
    { intros w (q & Hq & Hqv)%elem_of_entries.
      pose proof (store_key_unique _ _ _ _ _ _ _ _ Hok Hv Hqv) as <-.
      pose proof (store_nodup _ _ _ Hok) as (_ & Hd & _)%NoDup_app. set_solver. }
    induction (entries ns l1) as [|[k' w] es IH]; cbn.
    + by rewrite decide_True.
    + rewrite decide_False; [apply IH; set_solver|]. intros ->. set_solver.
  - assert (forall w, (k, w) ∉ entries ns l) as Hk1.
    { intros w (q & Hq & Hqv)%elem_of_entries.
      assert (im !! k = Some q) by (apply (store_index _ _ _ Hok); eauto). congruence. }
    induction (entries ns l) as [|[k' w] es IH]; cbn; [done|].
    rewrite decide_False; [apply IH; set_solver|]. intros ->. set_solver.
Qed.

Lemma store_remove ns im l1 p l2 k v :
  store_ok ns im (l1 ++ p :: l2) -> ns !! p = Some (k, v) ->
  store_ok (delete p ns) (delete k im) (l1 ++ l2) /\
  entries (delete p ns) (l1 ++ l2) = remove_key k (entries ns (l1 ++ p :: l2)).
Proof.
  intros Hok Hp. pose proof (store_nodup _ _ _ Hok) as Hnd.
  pose proof Hnd as (Hn1 & Hd & [Hp2 Hn2]%NoDup_cons)%NoDup_app.
  assert (p ∉ l1 ++ l2) as Hnot by set_solver.
  split.
  - split.
    + apply NoDup_app. set_solver.
    + intros q. rewrite lookup_delete. case_decide as Hq.
      * subst. split; [done|]. by intros [? ?].
      * rewrite <- (store_nodes _ _ _ Hok). set_solver.
    + intros k' q. rewrite !lookup_delete.
      destruct (decide (k = k')) as [<-|Hk], (decide (p = q)) as [<-|Hq].
      * split; [done|by intros [? ?]].
      * split; [done|]. intros [w Hw].
        pose proof (store_key_unique _ _ _ _ _ _ _ _ Hok Hp Hw). done.
      * rewrite (store_index _ _ _ Hok), Hp. naive_solver.
      * apply (store_index _ _ _ Hok).
  - assert (store_ok ns im (l1 ++ p :: l2)) as Hok' by done.
    destruct (store_split _ _ _ _ _ _ Hok' Hp) as (l1' & l2' & Heq & _ & ->).
    assert (l1' ++ l2' = l1 ++ l2) as ->.
    { rewrite <- (filter_remove l1' l2' p), <- Heq, filter_remove; [done..|]. by rewrite <- Heq. }
    apply entries_ext. intros q Hq. rewrite lookup_delete_ne by set_solver. done.
Qed.

Lemma store_add ns im l p k v :
  store_ok ns im l -> ns !! p = None -> im !! k = None ->
  store_ok (<[p := (k, v)]> ns) (<[k := p]> im) (p :: l) /\
  entries (<[p := (k, v)]> ns) (p :: l) = (k, v) :: entries ns l.
Proof.
  intros Hok Hp Hk.
  assert (p ∉ l) as Hnot by (rewrite (store_nodes _ _ _ Hok), Hp; by intros [? ?]).
  split.
  - split.
    + apply NoDup_cons. split; [done|apply Hok].
    + intros q. rewrite lookup_insert, elem_of_cons. case_decide as Hq.
      * subst. split; eauto.
      * rewrite (store_nodes _ _ _ Hok). naive_solver.
    + intros k' q. rewrite !lookup_insert.
      destruct (decide (k = k')) as [<-|Hk'], (decide (p = q)) as [<-|Hq].
      * split; eauto.
      * split; [naive_solver|]. intros [w Hw].
        assert (im !! k = Some q) by (apply (store_index _ _ _ Hok); eauto). congruence.
      * rewrite (store_index _ _ _ Hok). naive_solver.
      * apply (store_index _ _ _ Hok).
  - rewrite (entries_cons _ _ (k, v)) by apply lookup_insert_eq.
    f_equal. apply entries_ext. intros q Hq. rewrite lookup_insert_ne by set_solver. done.
Qed.

Lemma store_promote ns im l1 p l2 k v :
  store_ok ns im (l1 ++ p :: l2) -> ns !! p = Some (k, v) ->
  store_ok ns im (p :: l1 ++ l2) /\
  entries ns (p :: l1 ++ l2) = promote_key k v (entries ns (l1 ++ p :: l2)).
Proof.
  intros Hok Hp.
  assert (l1 ++ p :: l2 ≡ₚ p :: l1 ++ l2) as Hperm by by rewrite Permutation_middle.
  split.
  - split; [rewrite <- Hperm; apply Hok| |apply Hok]. intros q. rewrite <- Hperm. apply Hok.
  - unfold promote_key. rewrite (entries_cons _ _ (k, v)) by done. f_equal.
    destruct (store_remove _ _ _ _ _ _ _ Hok Hp) as [_ <-]. apply entries_ext.
    intros q Hq. pose proof (store_nodup _ _ _ Hok) as Hnd. rewrite Hperm in Hnd.
    apply NoDup_cons in Hnd as [Hnd _]. rewrite lookup_delete_ne by set_solver. done.
Qed.

Lemma store_update ns im l p k v w :
  store_ok ns im l -> ns !! p = Some (k, v) ->
  store_ok (<[p := (k, w)]> ns) im l /\
  entries (<[p := (k, w)]> ns) l = update_key k w (entries ns l).
Proof.
  intros Hok Hp. split.
  - split; [apply Hok| |].
    + intros q. rewrite (store_nodes _ _ _ Hok), lookup_insert.
      case_decide as Hq; [subst; rewrite Hp; split; eauto|done].
    + intros k' q. rewrite (store_index _ _ _ Hok), lookup_insert.
      case_decide as Hq; [subst; rewrite Hp; naive_solver|done].
  - unfold update_key, entries. rewrite list_fmap_omap. apply list_omap_ext.
    apply Forall_Forall2_diag, Forall_forall. intros q Hq.
    rewrite lookup_insert. case_decide as Hpq.
    + subst. rewrite Hp. cbn. by rewrite decide_True.
    + destruct (ns !! q) as [[k' u]|] eqn:Hqv; cbn; [|done].
      rewrite decide_False; [done|]. intros ->. by apply Hpq, (store_key_unique ns im l p q k v u).
Qed.
End Store.

Arguments entries : simpl never.

(** ** Refinement *)

Section Refinement.
Context {K V Hook : Type} `{Countable K}.
Context {L : Type} `{!NodeListOps L, !NodeListLaws L}.
Context {I : Type} `{!NodeMapOps K I, !NodeMapLaws K I}.
Context (hook_throws : Hook -> K -> V -> bool).

Abbreviation cache := (EvictingCacheMap (K:=K) (V:=V) (Hook:=Hook) (L:=L) (I:=I)).
Abbreviation spec := (LruSpec K V Hook).

Definition wf (s : cache) : Prop :=
  store_ok (nodes s) (nm_map (index_ s)) (nl_nodes (lru_ s)).

Definition abs (s : cache) : spec :=
  mkLruSpec (entries (nodes s) (nl_nodes (lru_ s))) (pruneHook_ s) (maxSize_ s) (clearSize_ s)
    (hook_calls s).

(** From [s], the computation does what its specification does from [abs s]. *)
Definition refines {A} (m : M cache exn A) (am : M spec exn A) (s : cache) : Prop :=
  match m s with
  | Some (s', r) => wf s' /\ am (abs s) = Some (abs s', r)
  | None => am (abs s) = None
  end.

Lemma refines_ret {A} (a : A) s : wf s -> refines (mret a) (mret a) s.
Proof. done. Qed.

Lemma refines_throw {A} e s : wf s -> refines (A:=A) (throw e) (throw e) s.
Proof. done. Qed.

Lemma refines_bind {A B} (m : M cache exn A) am (f : A -> M cache exn B) af s :
  refines m am s -> (forall a s', wf s' -> refines (f a) (af a) s') ->
  refines (m ≫= f) (am ≫= af) s.
Proof.
  unfold refines. intros Hm Hf. rewrite !M_bind_unfold.
  destruct (m s) as [[s' [a|e]]|].
  - destruct Hm as [Hwf ->]. by apply Hf.
  - by destruct Hm as [Hwf ->].
  - by rewrite Hm.
Qed.

Lemma refines_get {A} (f : cache -> M cache exn A) af s :
  refines (f s) (af (abs s)) s -> refines (get_state ≫= f) (get_state ≫= af) s.
Proof. done. Qed.

Lemma wf_size s : wf s -> size_ s = length (contents (abs s)).
Proof.
  intros Hwf. unfold size_. rewrite nm_map_size. cbn. rewrite (entries_length _ _ _ Hwf).
  assert (map_to_list (nm_map (index_ s)) ≡ₚ
          omap (fun p => e ← nodes s !! p; Some (e.1, p)) (nl_nodes (lru_ s))) as Hperm.
  { apply NoDup_Permutation.
    - apply NoDup_map_to_list.
    - pose proof (store_nodup _ _ _ Hwf) as Hnd.
      induction (nl_nodes (lru_ s)) as [|p l IH]; [constructor|].
      apply NoDup_cons in Hnd as [Hp Hnd]. cbn.
      destruct (nodes s !! p) as [e|]; cbn; [|by apply IH].
      apply NoDup_cons. split; [|by apply IH].
      rewrite list_elem_of_omap. intros (q & Hq & Hqe).
      destruct (nodes s !! q); naive_solver.
    - intros [k p]. rewrite elem_of_map_to_list, (store_index _ _ _ Hwf), list_elem_of_omap. split.
      + intros [v Hv]. exists p. rewrite (store_nodes _ _ _ Hwf), Hv. cbn. eauto.
      + intros (q & Hq & Hqe). destruct (nodes s !! q) as [[k' v]|] eqn:E; naive_solver. }
  rewrite <- length_map_to_list, Hperm.
  assert (forall p, p ∈ nl_nodes (lru_ s) -> is_Some (nodes s !! p)) as Hall by apply Hwf.
  clear -Hall. induction (nl_nodes (lru_ s)) as [|p l IH]; [done|]. cbn.
  destruct (Hall p) as [e ->]; [set_solver|]. cbn. rewrite IH; set_solver.
Qed.

Lemma wf_find s k : wf s ->
  match findInIndex k s with
  | Some p => exists v, nodes s !! p = Some (k, v) /\ lookup_key k (contents (abs s)) = Some v
  | None => nm_map (index_ s) !! k = None /\ lookup_key k (contents (abs s)) = None
  end.
Proof.
  intros Hwf. unfold findInIndex. rewrite nm_map_find. cbn. rewrite (store_lookup _ _ _ _ Hwf).
  destruct (nm_map (index_ s) !! k) as [p|] eqn:E; [|done].
  apply (store_index _ _ _ Hwf) in E as [v Hv]. exists v. cbn. by rewrite Hv.
Qed.

Lemma wf_split s p k v : wf s -> nodes s !! p = Some (k, v) ->
  exists l1 l2, nl_nodes (lru_ s) = l1 ++ p :: l2 /\ p ∈ nl_nodes (lru_ s).
Proof.
  intros Hwf Hp. destruct (store_split _ _ _ _ _ _ Hwf Hp) as (l1 & l2 & Hl & _).
  exists l1, l2. split; [done|]. apply Hwf. by rewrite Hp.
Qed.

Lemma iterator_to_wf s p k v : wf s -> nodes s !! p = Some (k, v) ->
  iterator_to p s = Some (s, Ok (Some p)).
Proof.
  intros Hwf Hp. unfold iterator_to, access. rewrite decide_True; [done|].
  apply Hwf. by rewrite Hp.
Qed.

Lemma wf_keys_unique s : wf s -> NoDup (contents (abs s)).*1.
Proof.
  intros Hwf. cbn. pose proof (store_nodup _ _ _ Hwf) as Hnd.
  induction (nl_nodes (lru_ s)) as [|p l IH]; [constructor|].
  apply NoDup_cons in Hnd as [Hp Hnd]. unfold entries. cbn.
  destruct (nodes s !! p) as [[k v]|] eqn:E; [|by apply IH].
  cbn. apply NoDup_cons. split; [|by apply IH]. rewrite list_elem_of_fmap.
  intros ([k' w] & Hk & (q & Hq & Hqv)%elem_of_entries). cbn in Hk. subst k'.
  by rewrite (store_key_unique _ _ _ _ _ _ _ _ Hwf E Hqv) in Hp.
Qed.

(** Removing a node: unlinked from the index and the list, passed to the hook, deleted. *)
Lemma remove_refines s p k v h : wf s -> nodes s !! p = Some (k, v) ->
  match call_hook_and_destroy hook_throws h p (set_index (nm_erase k) (set_lru (nl_erase p) s)) with
  | Some (s', r) => wf s' /\ spec_remove hook_throws h k v (abs s) = Some (abs s', r)
  | None => False
  end.
Proof.
  intros Hwf Hp. destruct (wf_split _ _ _ _ Hwf Hp) as (l1 & l2 & Hl & _).
  pose proof Hwf as Hok. unfold wf in Hok. rewrite Hl in Hok.
  destruct (store_remove _ _ _ _ _ _ _ Hok Hp) as [Hok' He].
  assert (nl_nodes (nl_erase p (lru_ s)) = l1 ++ l2) as Hl'.
  { apply nl_nodes_erase; [apply Hwf|done]. }
  unfold call_hook_and_destroy, deref, delete_node, spec_remove. run_M. rewrite Hp.
  rewrite <- Hl in He. unfold wf, abs.
  destruct h as [h|]; cbn; [destruct (hook_throws h k v)|]; cbn.
  all: rewrite Hl', nm_map_erase, He; done.
Qed.

Lemma last_entries s : wf s ->
  match last (nl_nodes (lru_ s)) with
  | Some p => exists k v, nodes s !! p = Some (k, v) /\ last (contents (abs s)) = Some (k, v)
  | None => last (contents (abs s)) = None
  end.
Proof.
  intros Hwf. destruct (last (nl_nodes (lru_ s))) as [p|] eqn:E.
  - apply last_Some in E as [l' E].
    destruct (proj1 (store_nodes _ _ _ Hwf p)) as [[k v] Hp]; [rewrite E; set_solver|].
    exists k, v. split; [done|]. cbn. rewrite E, entries_app, (entries_cons _ _ _ _ Hp).
    apply last_snoc.
  - apply last_None in E. cbn. by rewrite E.
Qed.

Lemma prune_loop_refines n h s : wf s ->
  refines (prune_loop hook_throws n h) (spec_evict hook_throws n h) s.
Proof.
  revert s. induction n as [|n IH]; intros s Hwf; [done|].
  cbn [prune_loop spec_evict]. apply refines_get.
  pose proof (last_entries s Hwf) as Hlast. destruct (last (nl_nodes (lru_ s))) as [p|].
  - destruct Hlast as (k & v & Hp & ->). unfold refines.
    pose proof (remove_refines s p k v h Hwf Hp) as Hr.
    unfold index_erase, deref. run_M. rewrite Hp. cbn.
    destruct (call_hook_and_destroy _ _ _ _) as [[s' [[]|e]]|]; [|..].
    + destruct Hr as [Hwf' ->]. by apply IH.
    + by destruct Hr as [Hwf' ->].
    + done.
  - rewrite Hlast. by apply refines_ret.
Qed.

Lemma prune_refines n h s : wf s -> refines (prune hook_throws n h) (spec_prune hook_throws n h) s.
Proof. intros Hwf. apply refines_get. by apply prune_loop_refines. Qed.
Arguments abs : simpl never.

(** Pruning only deletes nodes. *)
Lemma prune_loop_nodes n h (s s' : cache) r :
  prune_loop hook_throws n h s = Some (s', r) -> nodes s' ⊆ nodes s.
Proof.
  revert s. induction n as [|n IH]; intros s; [by intros [= -> _]|].
  cbn [prune_loop]. unfold index_erase, call_hook_and_destroy, deref, delete_node. run_M.
  destruct (last (nl_nodes (lru_ s))) as [p|]; [|by intros [= -> _]].
  destruct (nodes s !! p) as [[k v]|] eqn:Hp; [|done]. cbn. rewrite Hp.
  assert (delete p (nodes s) ⊆ nodes s) by apply delete_subseteq.
  destruct h as [h|]; cbn; [destruct (hook_throws h k v)|]; cbn.
  - by intros [= <- _].
  - intros E%IH. cbn in E. by etrans.
  - intros E%IH. cbn in E. by etrans.
Qed.

Lemma evict_nodes h (s s' : cache) r :
  evict_if_needed hook_throws h s = Some (s', r) -> nodes s' ⊆ nodes s.
Proof.
  unfold evict_if_needed, prune. run_M. case_match; [apply prune_loop_nodes|by intros [= -> _]].
Qed.

Definition spec_evict_if_needed (h : option Hook) : M spec exn unit :=
  a ← get_state;
  if ((0 <? spec_max a) && (spec_max a <? length (contents a)))%nat
  then spec_prune hook_throws (spec_clear a) h else mret tt.

Lemma evict_refines h s : wf s ->
  refines (evict_if_needed hook_throws h) (spec_evict_if_needed h) s.
Proof.
  intros Hwf. apply refines_get. rewrite wf_size by done.
  change (maxSize_ s) with (spec_max (abs s)). change (clearSize_ s) with (spec_clear (abs s)).
  case_match; [by apply prune_refines|by apply refines_ret].
Qed.

(** The state in which the node of a new entry has been linked. *)
Definition link_new (p : ptr) (k : K) (v : V) (s : cache) : cache :=
  set_lru (nl_push_front p) (set_index (nm_insert k p) (set_nodes (<[p := (k, v)]>) s)).

Lemma link_new_wf p k v s : wf s -> nodes s !! p = None -> nm_map (index_ s) !! k = None ->
  wf (link_new p k v s) /\ abs (link_new p k v s) = set_contents ((k, v) :: contents (abs s)) (abs s).
Proof.
  intros Hwf Hp Hk. destruct (store_add _ _ _ p k v Hwf Hp Hk) as [Hok He].
  assert (p ∉ nl_nodes (lru_ s)) as Hnot.
  { rewrite (store_nodes _ _ _ Hwf), Hp. by intros [? ?]. }
  unfold wf, abs, link_new, set_contents. cbn.
  rewrite nl_nodes_push_front, nm_map_insert by done. by rewrite He.
Qed.

Lemma fresh_node (s : cache) : nodes s !! (fresh (dom (nodes s)) : ptr) = None.
Proof. apply not_elem_of_dom, is_fresh. Qed.

Lemma promote_wf s p k v : wf s -> nodes s !! p = Some (k, v) ->
  let s' := set_lru (nl_splice_front p) s in
  wf s' /\ abs s' = set_contents (promote_key k v (contents (abs s))) (abs s).
Proof.
  intros Hwf Hp. destruct (wf_split _ _ _ _ Hwf Hp) as (l1 & l2 & El & _).
  pose proof Hwf as Hok. unfold wf in Hok. rewrite El in Hok.
  destruct (store_promote _ _ _ _ _ _ _ Hok Hp) as [Hok' He].
  assert (nl_nodes (nl_splice_front p (lru_ s)) = p :: l1 ++ l2) as El'.
  { apply nl_nodes_splice; [apply Hwf|done]. }
  unfold wf, abs, set_contents. cbn. by rewrite El', He, El.
Qed.

Lemma find_promotes k s : wf s ->
  match findImpl k s with
  | Some (s', Ok it) => wf s' /\
      match it with
      | Some p => exists v, nodes s' !! p = Some (k, v) /\
          spec_get (Hook:=Hook) true k (abs s) = Some (abs s', Ok (Some (k, v)))
      | None => spec_get true k (abs s) = Some (abs s', Ok None)
      end
  | _ => False
  end.
Proof.
  intros Hwf. unfold findImpl, spec_get. run_M. pose proof (wf_find s k Hwf) as Hf.
  destruct (findInIndex k s) as [p|].
  - destruct Hf as (v & Hp & Hl). rewrite Hl. destruct (promote_wf _ _ _ _ Hwf Hp) as [Hwf' Habs].
    rewrite (iterator_to_wf _ p k v) by done. split; [done|]. exists v. by rewrite Habs.
  - destruct Hf as [_ ->]. done.
Qed.

Lemma find_without_promotion k s : wf s ->
  match findWithoutPromotionImpl k s with
  | Some (s', Ok it) => s' = s /\
      match it with
      | Some p => exists v, nodes s !! p = Some (k, v) /\
          spec_get (Hook:=Hook) false k (abs s) = Some (abs s, Ok (Some (k, v)))
      | None => spec_get false k (abs s) = Some (abs s, Ok None)
      end
  | _ => False
  end.
Proof.
  intros Hwf. unfold findWithoutPromotionImpl, spec_get. run_M. pose proof (wf_find s k Hwf) as Hf.
  destruct (findInIndex k s) as [p|].
  - destruct Hf as (v & Hp & Hl). rewrite Hl, (iterator_to_wf _ p k v) by done. eauto.
  - destruct Hf as [_ ->]. done.
Qed.

Lemma update_wf s p k v w : wf s -> nodes s !! p = Some (k, v) ->
  let s' := set_nodes (<[p := (k, w)]>) s in
  wf s' /\ abs s' = set_contents (update_key k w (contents (abs s))) (abs s).
Proof.
  intros Hwf Hp. destruct (store_update _ _ _ _ _ _ w Hwf Hp) as [Hok He].
  split; [done|]. unfold abs, set_contents. cbn. by rewrite He.
Qed.

Lemma remove_update k w (l : list (K * V)) : remove_key k (update_key k w l) = remove_key k l.
Proof.
  unfold remove_key, update_key. induction l as [|[k' u] l IH]; [done|].
  cbn [fmap list_fmap]. rewrite !filter_cons. cbn [fst]. rewrite IH.
  destruct (decide (k' = k)); repeat case_decide; naive_solver.
Qed.

Lemma set_refines k v promote h s : wf s ->
  refines (run hook_throws (Set_ k v promote h)) (spec_run hook_throws (Set_ k v promote h)) s.
Proof.
  intros Hwf. unfold refines, run, spec_run, set, setImpl. run_M. pose proof (wf_find s k Hwf) as Hf.
  destruct (findInIndex k s) as [p|].
  - destruct Hf as (w & Hp & ->). unfold deref. run_M. rewrite Hp. cbn.
    destruct (update_wf _ _ _ _ v Hwf Hp) as [Hwf' Habs]. destruct promote; cbn.
    + destruct (promote_wf _ p k v Hwf') as [Hwf'' Habs']; [apply lookup_insert_eq|].
      split; [done|]. rewrite Habs', Habs. unfold promote_key, set_contents. cbn.
      by rewrite remove_update.
    + by rewrite Habs.
  - destruct Hf as [Hk ->]. unfold new_node, index_insert, deref, spec_add. run_M.
    rewrite lookup_insert_eq. cbn. rewrite nm_map_find, Hk. cbn.
    pose proof (fresh_node s) as Hp. set (p := fresh _) in *.
    destruct (link_new_wf p k v s Hwf Hp Hk) as [Hwf' Habs].
    pose proof (evict_refines h _ Hwf') as Hev. unfold refines in Hev.
    change (mkEvictingCacheMap _ _ _ _ _ _ _) with (link_new p k v s).
    rewrite Habs in Hev. unfold spec_evict_if_needed in Hev.
    cbv beta delta [mbind M_bind mret M_ret get_state] in Hev. cbn in Hev |- *.
    destruct (evict_if_needed _ _ _) as [[s' [[]|e]]|]; [|..].
    + by destruct Hev as [? ->].
    + by destruct Hev as [? ->].
    + by rewrite Hev.
Qed.

(** After the evictions, the node of the new entry is in the list exactly when its key is
    still in the cache. *)
Lemma new_node_survives s1 s2 p k v : wf s1 -> wf s2 ->
  nodes s1 !! p = Some (k, v) -> nodes s2 ⊆ nodes s1 ->
  (p ∈ nl_nodes (lru_ s2) <-> is_Some (lookup_key k (contents (abs s2)))) /\
  (p ∈ nl_nodes (lru_ s2) -> nodes s2 !! p = Some (k, v)).
Proof.
  intros Hwf1 Hwf2 Hp Hsub.
  assert (p ∈ nl_nodes (lru_ s2) -> nodes s2 !! p = Some (k, v)) as Hin.
  { intros [e He]%(store_nodes _ _ _ Hwf2). rewrite He.
    pose proof (lookup_weaken _ _ _ _ He Hsub). congruence. }
  split; [|done]. pose proof (wf_find s2 k Hwf2) as Hf. split.
  - intros Hl. unfold findInIndex in Hf. rewrite nm_map_find in Hf.
    rewrite (proj2 (store_index _ _ _ Hwf2 k p)) in Hf by eauto. naive_solver.
  - destruct (findInIndex k s2) as [q|]; [|destruct Hf as [_ ->]; by intros [? ?]].
    destruct Hf as (w & Hq & _). intros _. pose proof (lookup_weaken _ _ _ _ Hq Hsub) as Hq1.
    rewrite (store_key_unique _ _ _ _ _ _ _ _ Hwf1 Hp Hq1). apply Hwf2. by rewrite Hq.
Qed.

Lemma insert_refines k v h s : wf s ->
  refines (run hook_throws (Insert k v h)) (spec_run hook_throws (Insert k v h)) s.
Proof.
  intros Hwf. unfold refines, run, spec_run, insert_, insertImpl, insertNodeImpl, new_node, index_insert, deref.
  run_M. rewrite lookup_insert_eq. cbn. pose proof (wf_find s k Hwf) as Hf.
  pose proof (fresh_node s) as Hp. set (p := fresh _) in *. unfold findInIndex in Hf.
  destruct (nm_find k (index_ s)) as [q|].
  - destruct Hf as (w & Hq & ->). cbn. unfold iterator_to, delete_node. run_M.
    rewrite decide_True by (apply Hwf; by rewrite Hq).
    assert (set_nodes (delete p) (set_nodes <[p:=(k, v)]> s) = s) as ->.
    { destruct s. unfold set_nodes. cbn in *. by rewrite delete_insert_id. }
    cbn. unfold deref. run_M. by rewrite Hq.
  - destruct Hf as [Hk ->]. cbn. change (mkEvictingCacheMap _ _ _ _ _ _ _) with (link_new p k v s).
    destruct (link_new_wf p k v s Hwf Hp Hk) as [Hwf' Habs].
    assert (nodes (link_new p k v s) !! p = Some (k, v)) as Hp' by apply lookup_insert_eq.
    pose proof (evict_refines h _ Hwf') as Hev. unfold refines in Hev.
    rewrite Habs in Hev. unfold spec_evict_if_needed in Hev. unfold spec_add.
    cbv beta delta [mbind M_bind mret M_ret get_state] in Hev |- *. cbn in Hev |- *.
    destruct (evict_if_needed _ _ _) as [[s' [[]|e]]|] eqn:Eev; [|..].
    + destruct Hev as [Hwf2 ->]. apply evict_nodes in Eev.
      destruct (new_node_survives _ _ _ _ _ Hwf' Hwf2 Hp' Eev) as [Hiff Hin].
      unfold iterator_to, access. destruct (decide (p ∈ nl_nodes (lru_ s'))) as [Hl|Hl]; cbn.
      * unfold deref. run_M. rewrite Hin by done. cbn. rewrite decide_True by (by apply Hiff). done.
      * rewrite decide_False by (by rewrite <- Hiff). done.
    + by destruct Hev as [? ->].
    + by rewrite Hev.
Qed.

Lemma erase_refines k h s : wf s ->
  refines (run hook_throws (Erase k h)) (spec_run hook_throws (Erase k h)) s.
Proof.
  intros Hwf. unfold refines, run, spec_run, erase, eraseKeyImpl, eraseImpl, index_erase, deref. run_M.
  pose proof (wf_find s k Hwf) as Hf. destruct (findInIndex k s) as [p|].
  - destruct Hf as (v & Hp & ->). rewrite (iterator_to_wf _ p k v) by done. rewrite Hp. cbn.
    pose proof (remove_refines _ _ _ _ h Hwf Hp) as Hr.
    change (set_lru (nl_erase p) (set_index (nm_erase k) s))
      with (set_index (nm_erase k) (set_lru (nl_erase p) s)).
    destruct (call_hook_and_destroy _ _ _ _) as [[s' [[]|e]]|]; [|..].
    + by destruct Hr as [? ->].
    + by destruct Hr as [? ->].
    + done.
  - by destruct Hf as [_ ->].
Qed.

Lemma setMaxSize_refines n h s : wf s ->
  refines (run hook_throws (SetMaxSize n h)) (spec_run hook_throws (SetMaxSize n h)) s.
Proof.
  intros Hwf. unfold run, setMaxSize, spec_run.
  pose proof (prune_refines (Nat.max (length (contents (abs s)) - n) (clearSize_ s)) h s Hwf) as Hpr.
  unfold refines in Hpr |- *. change (clearSize_ s) with (spec_clear (abs s)) in Hpr.
  run_M. rewrite wf_size by done. change (clearSize_ s) with (spec_clear (abs s)).
  destruct (negb (n =? 0)%nat && (n <? length (contents (abs s)))%nat); [|done].
  destruct (prune _ _ _ _) as [[s' [[]|e]]|].
  - by destruct Hpr as [? ->].
  - by destruct Hpr as [? ->].
  - by rewrite Hpr.
Qed.

(** Every request does to the nodes, the index and the list what the contract says it does to
    the list of entries, with the same response or exception and the same hook calls. *)
Lemma run_refines r s : wf s -> refines (run hook_throws r) (spec_run hook_throws r) s.
Proof.
  intros Hwf. destruct r.
  - unfold refines, run, spec_run, exists_, existsImpl. run_M. split; [done|]. do 4 f_equal.
    pose proof (wf_find s k Hwf) as Hf.
    destruct (findInIndex k s); [destruct Hf as (? & _ & ->)|destruct Hf as [_ ->]]; done.
  - pose proof (find_promotes k s Hwf) as Hf. unfold refines, run, spec_run, get, getImpl, spec_value, deref. run_M.
    destruct (findImpl k s) as [[s' [[p|]|e]]|]; [|..]; try done; destruct Hf as [Hwf' Hf].
    + by destruct Hf as (v & -> & ->).
    + by rewrite Hf.
  - pose proof (find_promotes k s Hwf) as Hf. unfold refines, run, spec_run, find. run_M.
    destruct (findImpl k s) as [[s' [[p|]|e]]|]; [|..]; try done; destruct Hf as [Hwf' Hf].
    + destruct Hf as (v & Hp & ->). unfold observe, deref. run_M. by rewrite Hp.
    + by rewrite Hf.
  - pose proof (find_without_promotion k s Hwf) as Hf.
    unfold refines, run, spec_run, getWithoutPromotion, getWithoutPromotionImpl, spec_value, deref. run_M.
    destruct (findWithoutPromotionImpl k s) as [[s' [[p|]|e]]|]; [|..]; try done; destruct Hf as [-> Hf].
    + by destruct Hf as (v & -> & ->).
    + by rewrite Hf.
  - pose proof (find_without_promotion k s Hwf) as Hf. unfold refines, run, spec_run, findWithoutPromotion. run_M.
    destruct (findWithoutPromotionImpl k s) as [[s' [[p|]|e]]|]; [|..]; try done; destruct Hf as [-> Hf].
    + destruct Hf as (v & Hp & ->). unfold observe, deref. run_M. by rewrite Hp.
    + by rewrite Hf.
  - by apply set_refines.
  - by apply insert_refines.
  - by apply erase_refines.
  - apply refines_bind; [by apply prune_refines|]. intros [] s' Hwf'. by apply refines_ret.
  - pose proof (prune_refines (length (contents (abs s))) h s Hwf) as Hpr.
    unfold refines, run, clear, spec_run in *. run_M. rewrite wf_size by done.
    destruct (prune _ _ _ _) as [[s' [[]|e]]|].
    + by destruct Hpr as [? ->].
    + by destruct Hpr as [? ->].
    + by rewrite Hpr.
  - by apply setMaxSize_refines.
  - done.
  - done.
  - apply refines_get. rewrite wf_size by done. by apply refines_ret.
Qed.
End Refinement.

(** ** Facts about the contract *)

Section ContractFacts.
Context {K V Hook : Type} `{Countable K}.
Context (hook_throws : Hook -> K -> V -> bool).

Abbreviation spec := (LruSpec K V Hook).

Definition keys_unique (a : spec) : Prop := NoDup (contents a).*1.

Lemma remove_key_keys k (l : list (K * V)) :
  NoDup l.*1 -> NoDup (remove_key k l).*1 /\ k ∉ (remove_key k l).*1 /\
  (length (remove_key k l) <= length l)%nat.
Proof.
  intros Hnd. unfold remove_key. split_and!; [| |apply length_filter].
  - induction l as [|[k' v] l IH]; [done|]. cbn in Hnd. apply NoDup_cons in Hnd as [Hk Hnd].
    rewrite filter_cons. case_decide; [|by apply IH]. cbn. apply NoDup_cons.
    split; [|by apply IH]. rewrite list_elem_of_fmap in Hk |- *.
    intros (e & Hek & [_ He]%list_elem_of_filter). eauto.
  - rewrite list_elem_of_fmap. intros (e & He & [Hne _]%list_elem_of_filter). by apply Hne.
Qed.

Lemma remove_key_notin k (l : list (K * V)) : k ∉ l.*1 -> remove_key k l = l.
Proof. intros Hk. apply filter_all. intros e He Hek. apply Hk, list_elem_of_fmap. eauto. Qed.

Lemma remove_key_last k v (l : list (K * V)) :
  NoDup l.*1 -> last l = Some (k, v) -> exists l', l = l' ++ [(k, v)] /\ remove_key k l = l'.
Proof.
  intros Hnd [l' ->]%last_Some. exists l'. split; [done|].
  rewrite fmap_app in Hnd. apply NoDup_app in Hnd as (_ & Hd & _).
  unfold remove_key. rewrite filter_app, filter_singleton_False, app_nil_r by auto.
  apply remove_key_notin. intros Hk. by apply (Hd k); [|constructor].
Qed.

Lemma lookup_key_elem k (l : list (K * V)) : is_Some (lookup_key k l) <-> k ∈ l.*1.
Proof.
  induction l as [|[k' v] l IH]; cbn.
  - split; [by intros [? ?]|by intros ?%not_elem_of_nil].
  - rewrite elem_of_cons, <- IH. case_decide as Hk; [|naive_solver]. subst.
    split; [by left|eauto].
Qed.

(** An eviction of up to [n] entries drops them from the back, at least one when it can, and
    as many as it can when the hook does not throw. *)
Lemma evict_suffix n h (a : spec) : keys_unique a ->
  exists a' r gone, spec_evict hook_throws n h a = Some (a', r) /\
    contents a = contents a' ++ gone /\
    (length gone <= n)%nat /\ (n <> 0%nat -> contents a <> [] -> gone <> []) /\
    (r = Ok tt -> length gone = Nat.min n (length (contents a))) /\ (h = None -> r = Ok tt) /\
    spec_max a' = spec_max a /\ spec_clear a' = spec_clear a /\ spec_hook a' = spec_hook a.
Proof.
  revert a. induction n as [|n IH]; intros a Hu.
  { exists a, (Ok tt), []. by rewrite app_nil_r. }
  cbn [spec_evict]. rewrite M_bind_unfold. cbn [get_state].
  destruct (last (contents a)) as [[k v]|] eqn:El.
  2:{ apply last_None in El. exists a, (Ok tt), []. rewrite El. split_and!; (done || cbn; lia). }
  destruct (remove_key_last _ _ _ Hu El) as (l' & El' & Hrm).
  assert (NoDup l'.*1) as Hu'.
  { unfold keys_unique in Hu. rewrite El', fmap_app in Hu. by apply NoDup_app in Hu as [? _]. }
  rewrite M_bind_unfold. unfold spec_remove. rewrite Hrm.
  destruct h as [h|]; [destruct (hook_throws h k v)|].
  - eexists _, _, [(k, v)]. split_and!; (done || cbn; lia).
  - destruct (IH (mkLruSpec l' (spec_hook a) (spec_max a) (spec_clear a) (spec_calls a ++ [(h, k, v)])) Hu')
      as (a' & r & gone & Hev & Hc & Hl & _ & Hok & Hh & Hm & Hcl & Hhk). cbn in Hc, Hok.
    exists a', r, (gone ++ [(k, v)]). rewrite El', Hc, !length_app in *. cbn [length].
    split_and!; try done; [by rewrite app_assoc|lia|by destruct gone|].
    intros Hr. specialize (Hok Hr). lia.
  - destruct (IH (set_contents l' a) Hu') as (a' & r & gone & Hev & Hc & Hl & _ & Hok & Hh & Hm & Hcl & Hhk).
    cbn in Hc, Hok. exists a', r, (gone ++ [(k, v)]). rewrite El', Hc, !length_app in *. cbn [length].
    split_and!; try done; [by rewrite app_assoc|lia|by destruct gone|].
    intros Hr. specialize (Hok Hr). lia.
Qed.
(** Within the capacity, with evictions that evict. *)
Definition within_capacity (a : spec) : Prop :=
  spec_clear a <> 0%nat /\ (spec_max a = 0%nat \/ (length (contents a) <= spec_max a)%nat).

(** Evictions that cannot take the entry they make room for. *)
Definition clear_fits (a : spec) : Prop := spec_max a = 0%nat \/ (spec_clear a <= spec_max a)%nat.

Definition same_settings (a a' : spec) : Prop :=
  spec_max a' = spec_max a /\ spec_clear a' = spec_clear a.

Lemma prune_suffix n h (a : spec) : keys_unique a ->
  exists a' r gone, spec_prune hook_throws n h a = Some (a', r) /\
    contents a = contents a' ++ gone /\
    (length gone <= n)%nat /\ (n <> 0%nat -> contents a <> [] -> gone <> []) /\
    (r = Ok tt -> length gone = Nat.min n (length (contents a))) /\ same_settings a a'.
Proof.
  intros Hu. unfold spec_prune. rewrite M_bind_unfold. cbn [get_state].
  set (ph := match h with None => _ | Some _ => _ end).
  destruct (evict_suffix n ph a Hu) as (a' & r & gone & ? & ? & ? & ? & ? & ? & ? & ? & ?).
  exists a', r, gone. unfold same_settings. by split_and!.
Qed.

Lemma keys_unique_prefix (a a' : spec) gone :
  contents a = contents a' ++ gone -> keys_unique a -> keys_unique a'.
Proof. unfold keys_unique. intros ->. rewrite fmap_app. by intros [? _]%NoDup_app. Qed.

Lemma within_prefix (a a' : spec) gone :
  contents a = contents a' ++ gone -> same_settings a a' -> within_capacity a -> within_capacity a'.
Proof.
  unfold within_capacity, same_settings. intros -> [-> ->]. rewrite length_app. lia.
Qed.

Lemma add_spec k v h (a : spec) : keys_unique a -> k ∉ (contents a).*1 ->
  exists a' r gone, spec_add hook_throws k v h a = Some (a', r) /\
    (k, v) :: contents a = contents a' ++ gone /\ same_settings a a' /\
    (within_capacity a -> within_capacity a') /\ (clear_fits a -> contents a' <> []).
Proof.
  intros Hu Hk. unfold spec_add. rewrite !M_bind_unfold. cbn [modify]. rewrite M_bind_unfold. cbn [get_state].
  set (a1 := set_contents _ a).
  assert (keys_unique a1) as Hu1 by (by apply NoDup_cons).
  destruct (_ && _)%nat eqn:Etest.
  - apply andb_true_iff in Etest as [Hmax%Nat.ltb_lt Hlen%Nat.ltb_lt]. cbn in Hmax, Hlen.
    destruct (prune_suffix (spec_clear a1) h a1 Hu1) as (a' & r & gone & Hev & Hc & Hl & Hne & _ & Hs).
    cbn in Hc, Hl, Hne. exists a', r, gone. split_and!; try done.
    + unfold within_capacity. destruct Hs as [-> ->]. cbn. intros [Hcl Hb]. split; [done|].
      assert (gone <> []) as Hg by by apply Hne.
      destruct gone; [done|]. apply (f_equal length) in Hc.
      rewrite length_app in Hc. cbn in Hc. lia.
    + unfold clear_fits. intros Hfit Hnil. rewrite Hnil in Hc. apply (f_equal length) in Hc.
      rewrite length_app in Hc. cbn in Hc. lia.
  - apply andb_false_iff in Etest. rewrite !Nat.ltb_ge in Etest. exists a1, (Ok tt), []. rewrite app_nil_r. split_and!; try done.
    unfold within_capacity. cbn in *. intros [Hcl Hb]. split; [done|]. lia.
Qed.

(** The settings a request asks for keep evictions going, and no larger than the cache. *)
Definition request_clears (r : request K V Hook) : Prop :=
  match r with SetClearSize n => n <> 0%nat | _ => True end.

Definition request_fits (c : nat) (r : request K V Hook) : Prop :=
  match r with
  | SetClearSize n => (n <= c)%nat
  | SetMaxSize n _ => n = 0%nat \/ (c <= n)%nat
  | _ => True
  end.

Lemma spec_get_step promote k (a : spec) : keys_unique a ->
  exists a' x, spec_get promote k a = Some (a', Ok x) /\ same_settings a a' /\
    keys_unique a' /\ (within_capacity a -> within_capacity a').
Proof.
  intros Hu. unfold spec_get, same_settings. rewrite M_bind_unfold. cbn [get_state].
  destruct (lookup_key k (contents a)) as [v|] eqn:El; [|by eexists _, _].
  rewrite M_bind_unfold. destruct promote; [|by eexists _, _].
  eexists _, _. split; [done|]. split; [done|].
  destruct (remove_key_keys k _ Hu) as (Hnd & Hnk & Hlen). split.
  - unfold keys_unique. cbn. by apply NoDup_cons.
  - unfold within_capacity. cbn. intros [Hcl Hb]. split; [done|]. destruct Hb as [|Hb]; [by left|right].
    assert (k ∈ (contents a).*1) as Hin by (apply lookup_key_elem; by rewrite El).
    apply list_elem_of_fmap in Hin as (e & -> & He).
    pose proof (length_filter_lt (fun e' => e'.1 <> e.1) (contents a) e He ltac:(auto)) as Hlt.
    unfold remove_key. lia.
Qed.
Lemma add_evicts_all k v (a : spec) :
  keys_unique a -> k ∉ (contents a).*1 -> spec_hook a = None ->
  spec_max a <> 0%nat -> (spec_max a < spec_clear a)%nat -> length (contents a) = spec_max a ->
  exists a', spec_add hook_throws k v None a = Some (a', Ok tt) /\ contents a' = [].
Proof.
  intros Hu Hk Hh Hmax Hcl Hfull. unfold spec_add, spec_prune. rewrite !M_bind_unfold. cbn [modify].
  rewrite M_bind_unfold. cbn [get_state]. set (a1 := set_contents _ a).
  assert (keys_unique a1) as Hu1 by (by apply NoDup_cons).
  assert (length (contents a1) = S (spec_max a1)) as Hl1 by (cbn; by rewrite Hfull).
  rewrite Hl1, (proj2 (Nat.ltb_lt 0 (spec_max a1))), (proj2 (Nat.ltb_lt (spec_max a1) _)) by (cbn; lia).
  cbn [andb]. rewrite M_bind_unfold. cbn [get_state]. change (spec_hook a1) with (spec_hook a). rewrite Hh.
  destruct (evict_suffix (spec_clear a1) None a1 Hu1)
    as (a' & r & gone & Hev & Hc & _ & _ & Hok & Hr & _).
  rewrite (Hr eq_refl) in *. exists a'. split; [done|]. specialize (Hok eq_refl).
  apply (f_equal length) in Hc. rewrite length_app, Hl1 in *.
  apply length_zero_iff_nil. change (spec_clear a1) with (spec_clear a) in *.
  change (spec_max a1) with (spec_max a) in *. lia.
Qed.

Lemma update_key_keys k v (l : list (K * V)) : (update_key k v l).*1 = l.*1.
Proof.
  unfold update_key. rewrite <- list_fmap_compose. apply list_fmap_ext. intros i [k' w] _. cbn.
  case_decide; by subst.
Qed.

Lemma length_update_key k v (l : list (K * V)) : length (update_key k v l) = length l.
Proof. apply length_fmap. Qed.

(** What every request does to the invariants of the contract.  Only an insertion can be
    undefined: when the evictions it triggers take the entry it has just added. *)
Definition step_ok (r : request K V Hook) (a : spec) : Prop :=
  match spec_run hook_throws r a with
  | Some (a', _) => keys_unique a' /\ (within_capacity a -> request_clears r -> within_capacity a') /\
      (forall c, (spec_clear a <= c)%nat -> spec_max a = 0%nat \/ (c <= spec_max a)%nat ->
         request_fits c r -> (spec_clear a' <= c)%nat /\ (spec_max a' = 0%nat \/ (c <= spec_max a')%nat))
  | None => ~ clear_fits a
  end.

Lemma step_ok_intro r a a' x : spec_run hook_throws r a = Some (a', x) ->
  keys_unique a' -> same_settings a a' -> (within_capacity a -> within_capacity a') -> step_ok r a.
Proof. unfold step_ok, same_settings. intros -> Hu [-> ->] Hw. by split_and!; auto. Qed.

Lemma spec_get_step_ok promote k f (a : spec) r : keys_unique a ->
  spec_run hook_throws r = (spec_get promote k ≫= f) ->
  (forall x a, exists y, f x a = Some (a, y)) -> step_ok r a.
Proof.
  intros Hu Hr Hf. destruct (spec_get_step promote k a Hu) as (a' & x & Hg & Hs & Hu' & Hw).
  destruct (Hf x a') as [y Hy]. apply (step_ok_intro _ _ a' y); [|done..].
  by rewrite Hr, M_bind_unfold, Hg.
Qed.

Lemma lookup_key_None k (l : list (K * V)) : lookup_key k l = None -> k ∉ l.*1.
Proof. rewrite <- lookup_key_elem. intros -> [? ?]. done. Qed.

Lemma add_keys_unique k v (a a' : spec) gone : keys_unique a -> k ∉ (contents a).*1 ->
  (k, v) :: contents a = contents a' ++ gone -> keys_unique a'.
Proof.
  intros Hu Hk Hc. apply (keys_unique_prefix (set_contents ((k, v) :: contents a) a) _ gone); [done|].
  by apply NoDup_cons.
Qed.

Lemma set_step k v promote h (a : spec) : keys_unique a -> step_ok (Set_ k v promote h) a.
Proof.
  intros Hu. destruct (lookup_key k (contents a)) as [w|] eqn:El.
  - assert (spec_run hook_throws (Set_ k v promote h) a =
      Some (set_contents (if promote then promote_key k v (contents a) else update_key k v (contents a)) a,
            Ok RUnit)) as Hr.
    { unfold spec_run. rewrite M_bind_unfold. cbn [get_state]. by rewrite El. }
    destruct (spec_get_step true k a Hu) as (a' & x & Hg & _ & Hu' & Hw).
    unfold spec_get in Hg. rewrite M_bind_unfold in Hg. cbn in Hg. rewrite El in Hg. injection Hg as <- _.
    apply (step_ok_intro _ _ _ _ Hr); unfold keys_unique, within_capacity in *; cbn in *;
      destruct promote; try done; [by rewrite update_key_keys|by rewrite length_update_key].
  - apply lookup_key_None in El as Hk.
    destruct (add_spec k v h a Hu Hk) as (a' & r & gone & Ha & Hc & Hs & Hw & _).
    apply (step_ok_intro _ _ a' (match r with Ok _ => Ok RUnit | Err e => Err e end));
      [|by eapply add_keys_unique|done..].
    unfold spec_run. rewrite M_bind_unfold. cbn [get_state]. rewrite El, M_bind_unfold, Ha. by destruct r.
Qed.

Lemma insert_run k v h (a a' : spec) r : lookup_key k (contents a) = None ->
  spec_add hook_throws k v h a = Some (a', r) ->
  spec_run hook_throws (Insert k v h) a =
    match r with
    | Err e => Some (a', Err e)
    | Ok _ => if decide (is_Some (lookup_key k (contents a')))
              then Some (a', Ok (RInsert (Some (k, v)) true)) else None
    end.
Proof.
  intros El Ha. unfold spec_run. rewrite M_bind_unfold. cbn [get_state]. rewrite El, M_bind_unfold, Ha.
  destruct r; [|done]. rewrite M_bind_unfold. cbn [get_state]. by case_decide.
Qed.

Lemma insert_step k v h (a : spec) : keys_unique a -> step_ok (Insert k v h) a.
Proof.
  intros Hu. destruct (lookup_key k (contents a)) as [w|] eqn:El.
  { apply (step_ok_intro _ _ a (Ok (RInsert (Some (k, w)) false))); try done.
    unfold spec_run. rewrite M_bind_unfold. cbn [get_state]. by rewrite El. }
  apply lookup_key_None in El as Hk.
  destruct (add_spec k v h a Hu Hk) as (a' & r & gone & Ha & Hc & Hs & Hw & Hfit).
  pose proof (add_keys_unique _ _ _ _ _ Hu Hk Hc) as Hu'. pose proof (insert_run _ _ _ _ _ _ El Ha) as Hrun.
  destruct r as [[]|e]; [|by eapply step_ok_intro].
  destruct (decide (is_Some (lookup_key k (contents a')))) as [Hin|Hnin]; [by eapply step_ok_intro|].
  unfold step_ok. rewrite Hrun. intros Hcf. specialize (Hfit Hcf).
  apply Hnin, lookup_key_elem. destruct (contents a') as [|e l]; [done|].
  injection Hc as <- _. cbn. by constructor.
Qed.

Lemma erase_step k h (a : spec) : keys_unique a -> step_ok (Erase k h) a.
Proof.
  intros Hu. destruct (lookup_key k (contents a)) as [w|] eqn:El.
  - destruct (remove_key_keys k _ Hu) as (Hnd & _ & Hlen).
    assert (exists a' x, spec_run hook_throws (Erase k h) a = Some (a', x) /\
      contents a' = remove_key k (contents a) /\ same_settings a a') as (a' & x & Hr & Hc & Hs).
    { unfold spec_run. rewrite M_bind_unfold. cbn [get_state]. rewrite El, M_bind_unfold.
      unfold spec_remove. destruct h as [h|]; [destruct (hook_throws h k w)|]; by eexists _, _. }
    apply (step_ok_intro _ _ _ _ Hr); [by unfold keys_unique; rewrite Hc|done|].
    unfold within_capacity. destruct Hs as [-> ->]. rewrite Hc. lia.
  - apply (step_ok_intro _ _ a (Ok (RBool false))); try done.
    unfold spec_run. rewrite M_bind_unfold. cbn [get_state]. by rewrite El.
Qed.

Lemma prune_step n h (a : spec) r : keys_unique a ->
  (spec_run hook_throws r a = (_ ← spec_prune hook_throws n h; mret RUnit) a) -> step_ok r a.
Proof.
  intros Hu Hr. destruct (prune_suffix n h a Hu) as (a' & x & gone & Hp & Hc & _ & _ & _ & Hs).
  apply (step_ok_intro _ _ a' (match x with Ok _ => Ok RUnit | Err e => Err e end));
    [|by eapply keys_unique_prefix|done|by eapply within_prefix].
  rewrite Hr, M_bind_unfold, Hp. by destruct x.
Qed.

Lemma setMaxSize_step n h (a : spec) : keys_unique a -> step_ok (SetMaxSize n h) a.
Proof.
  intros Hu. unfold step_ok, spec_run. rewrite !M_bind_unfold. cbn [get_state]. rewrite !M_bind_unfold.
  destruct (negb (n =? 0)%nat && (n <? length (contents a))%nat) eqn:Et.
  - destruct (prune_suffix (Nat.max (length (contents a) - n) (spec_clear a)) h a Hu)
      as (a' & x & gone & Hp & Hc & Hl & _ & Hok & Hs). rewrite Hp.
    assert (keys_unique a') as Hu' by by eapply keys_unique_prefix.
    assert (within_capacity a -> within_capacity a') as Hw by by eapply within_prefix.
    destruct Hs as [Hmax Hclear]. destruct x as [[]|e]; cbn.
    + split; [done|]. unfold within_capacity in *. cbn. rewrite Hclear. split; [|auto].
      intros [Hcl _] _. split; [done|]. right. specialize (Hok eq_refl).
      apply (f_equal length) in Hc. rewrite length_app in Hc. lia.
    + rewrite Hmax, Hclear. auto.
  - cbn. split; [done|]. unfold within_capacity. cbn. split; [|auto].
    intros [Hcl _] _. split; [done|]. apply andb_false_iff in Et.
    rewrite negb_false_iff, Nat.eqb_eq, Nat.ltb_ge in Et. lia.
Qed.

Lemma spec_run_step r (a : spec) : keys_unique a -> step_ok r a.
Proof.
  intros Hu. destruct r as [k|k|k|k|k|k v promote h|k v h|k h|n h|h|n h|n|h|].
  - by apply (step_ok_intro _ _ a (Ok (RBool (bool_decide (is_Some (lookup_key k (contents a))))))).
  - eapply (spec_get_step_ok true k); [done|done|]. intros [x|] a'; by eexists.
  - eapply (spec_get_step_ok true k); [done|done|]. intros [x|] a'; by eexists.
  - eapply (spec_get_step_ok false k); [done|done|]. intros [x|] a'; by eexists.
  - eapply (spec_get_step_ok false k); [done|done|]. intros [x|] a'; by eexists.
  - by apply set_step.
  - by apply insert_step.
  - by apply erase_step.
  - by apply (prune_step n h).
  - by apply (prune_step (length (contents a)) h).
  - by apply setMaxSize_step.
  - unfold step_ok, within_capacity. cbn. split_and!; [done| |auto]. tauto.
  - by apply (step_ok_intro _ _ (mkLruSpec (contents a) h (spec_max a) (spec_clear a) (spec_calls a)) (Ok RUnit)).
  - by apply (step_ok_intro _ _ a (Ok (RSize (length (contents a))))).
Qed.

(** ** Least recently used *)

(** The entries of a sequence of writes, the last one first, each key once. *)
Fixpoint first_uses (kvs : list (K * V)) : list (K * V) :=
  match kvs with
  | [] => []
  | (k, v) :: kvs => promote_key k v (first_uses kvs)
  end.

Definition writes (kvs : list (K * V)) : list (request K V Hook) :=
  (fun '(k, v) => Set_ k v true None) <$> kvs.

Lemma first_uses_unique kvs : NoDup (first_uses kvs).*1.
Proof.
  induction kvs as [|[k v] kvs IH]; cbn; [constructor|].
  destruct (remove_key_keys k _ IH) as (? & ? & _). by apply NoDup_cons.
Qed.

Lemma remove_key_take k n (l : list (K * V)) : NoDup l.*1 ->
  remove_key k (take (S n) l) = take (if decide (k ∈ (take (S n) l).*1) then n else S n) (remove_key k l) /\
  (k ∉ (take (S n) l).*1 -> take n (remove_key k l) = take n l).
Proof.
  revert n. induction l as [|[k' v] l IH]; intros n Hnd.
  { unfold remove_key. rewrite filter_nil, !take_nil. split; [|done]. by rewrite filter_nil, ?take_nil. }
  cbn in Hnd. apply NoDup_cons in Hnd as [Hk' Hnd]. unfold remove_key in *.
  cbn [take fmap list_fmap fst]. destruct (decide (k' = k)) as [->|Hne].
  - rewrite !(filter_cons_False (fun e => e.1 <> k) (k, v)) by auto. rewrite decide_True by by constructor.
    assert (forall l', l' ⊆ l -> filter (fun e => e.1 <> k) l' = l') as Hid.
    { intros l' Hl'. apply (remove_key_notin k). intros Hin. apply Hk'.
      apply list_elem_of_fmap in Hin as (e & -> & He). apply list_elem_of_fmap. eauto. }
    rewrite !Hid by (done || apply subseteq_take). split; [done|]. intros Hn. destruct Hn. by constructor.
  - rewrite !(filter_cons_True (fun e => e.1 <> k) (k', v)) by auto. destruct n as [|n].
    { cbn. rewrite take_0. cbn. split; [|done]. case_decide as Hin; [|done].
      apply list_elem_of_singleton in Hin. done. }
    destruct (IH n Hnd) as [IH1 IH2]. rewrite IH1. split.
    + destruct (decide (k ∈ (take (S n) l).*1)) as [Hin|Hin].
      * rewrite decide_True by by constructor. done.
      * rewrite decide_False; [done|]. intros [?|?]%elem_of_cons; done.
    + intros Hin. cbn [take]. f_equal. apply IH2. intros ?. apply Hin. by constructor.
Qed.

Lemma write_step n k v (a : spec) F : NoDup F.*1 ->
  spec_hook a = None -> spec_max a = S n -> spec_clear a = 1%nat -> contents a = take (S n) F ->
  exists a', spec_run hook_throws (Set_ k v true None) a = Some (a', Ok RUnit) /\
    spec_hook a' = None /\ spec_max a' = S n /\ spec_clear a' = 1%nat /\
    contents a' = take (S n) (promote_key k v F).
Proof.
  intros HF Hh Hm Hc Hcon. destruct (remove_key_take k n F HF) as [Hrm Hnin].
  assert (keys_unique a) as Hu.
  { unfold keys_unique. rewrite Hcon, fmap_take. eapply sublist_NoDup; [exact HF|]. apply sublist_take. }
  unfold spec_run. rewrite M_bind_unfold. cbn [get_state].
  destruct (lookup_key k (contents a)) as [w|] eqn:El.
  - eexists. split; [done|]. cbn. split_and!; try done. unfold promote_key. rewrite Hcon, Hrm.
    rewrite decide_True; [done|]. rewrite <- Hcon. apply lookup_key_elem. by rewrite El.
  - apply lookup_key_None in El as Hk. rewrite Hcon in Hk. specialize (Hnin Hk).
    unfold promote_key. cbn [take]. rewrite Hnin.
    unfold spec_add, spec_prune. rewrite !M_bind_unfold. cbn [modify]. rewrite M_bind_unfold. cbn [get_state].
    set (a1 := set_contents _ a).
    assert (keys_unique a1) as Hu1 by (apply NoDup_cons; split; [by rewrite Hcon|done]).
    assert (length (contents a1) = S (Nat.min (S n) (length F))) as Hl1 by (cbn; by rewrite Hcon, length_take).
    change (spec_max a1) with (spec_max a). rewrite Hl1, Hm.
    destruct (Nat.ltb_spec (S n) (S (Nat.min (S n) (length F)))) as [Hlt|Hge]; cbn [andb Nat.ltb Nat.leb].
    + rewrite M_bind_unfold. cbn [get_state]. change (spec_hook a1) with (spec_hook a). rewrite Hh.
      change (spec_clear a1) with (spec_clear a). rewrite Hc.
      destruct (evict_suffix 1 None a1 Hu1) as (a' & r & gone & -> & Hc' & _ & _ & Hok & Hr & Hm' & Hcl' & Hh').
      rewrite (Hr eq_refl) in *. specialize (Hok eq_refl). exists a'. split; [done|].
      rewrite Hm', Hcl', Hh'. split_and!; try done.
      assert (length (contents a') = S n) as Hla.
      { apply (f_equal length) in Hc'. rewrite length_app, Hl1 in Hc'. lia. }
      apply (f_equal (take (S n))) in Hc'. rewrite take_app_length' in Hc' by done. rewrite <- Hc'. cbn.
      rewrite Hcon, take_take. by rewrite Nat.min_l by lia.
    + eexists. split; [done|]. split_and!; try done. cbn. rewrite Hcon, !take_ge by lia. done.
Qed.

Lemma run_all_app {S} (step : request K V Hook -> M S exn (response K V)) rs rs' s s' xs :
  run_all step rs s = Some (s', xs) ->
  run_all step (rs ++ rs') s = prod_map id (app xs) <$> run_all step rs' s'.
Proof.
  revert s xs. induction rs as [|r rs IH]; intros s xs; cbn.
  - intros [= -> <-]. by destruct (run_all step rs' s') as [[? ?]|].
  - destruct (step r s) as [[s1 x]|]; [|done].
    destruct (run_all step rs s1) as [[s2 ys]|] eqn:E; [|done]. intros [= -> <-].
    rewrite (IH _ _ E). by destruct (run_all step rs' s') as [[? ?]|].
Qed.

Lemma writes_contents n kvs :
  exists (a : spec) xs, run_all (spec_run hook_throws) (writes kvs) (mkLruSpec [] None (S n) 1 []) = Some (a, xs) /\
    spec_hook a = None /\ spec_max a = S n /\ spec_clear a = 1%nat /\
    contents a = take (S n) (first_uses (reverse kvs)).
Proof.
  induction kvs as [|[k v] kvs (a & xs & Hrun & Hh & Hm & Hc & Hcon)] using rev_ind.
  { eexists _, _. split; [done|]. by rewrite reverse_nil. }
  destruct (write_step n k v a _ (first_uses_unique (reverse kvs)) Hh Hm Hc Hcon)
    as (a' & Hstep & Hh' & Hm' & Hc' & Hcon').
  exists a', (xs ++ [Ok RUnit]). unfold writes. rewrite fmap_app. fold (writes kvs).
  rewrite (run_all_app _ _ _ _ _ _ Hrun). cbn [fmap list_fmap run_all]. rewrite Hstep.
  rewrite reverse_app. by split_and!.
Qed.
End ContractFacts.

(** ** Sequences of requests *)

Section Theorems.
Context {K V Hook : Type} `{Countable K}.
Context {L : Type} `{!NodeListOps L, !NodeListLaws L}.
Context {I : Type} `{!NodeMapOps K I, !NodeMapLaws K I}.
Context (hook_throws : Hook -> K -> V -> bool).

Abbreviation cache := (EvictingCacheMap (K:=K) (V:=V) (Hook:=Hook) (L:=L) (I:=I)).

Definition empty_spec (maxSize clearSize : nat) : LruSpec K V Hook :=
  mkLruSpec [] None maxSize clearSize [].

Lemma make_wf maxSize clearSize :
  wf (make maxSize clearSize : cache) /\ abs (make maxSize clearSize : cache) = empty_spec maxSize clearSize.
Proof.
  unfold wf, abs, make. cbn. rewrite nl_nodes_empty, nm_map_empty. split; [|done].
  split; [constructor| |].
  - intros p. rewrite lookup_empty. split; [by intros ?%not_elem_of_nil|by intros [? ?]].
  - intros k p. setoid_rewrite lookup_empty. naive_solver.
Qed.

Lemma run_all_refines rs (s : cache) : wf s ->
  match run_all (run hook_throws) rs s with
  | Some (s', xs) => wf s' /\ run_all (spec_run hook_throws) rs (abs s) = Some (abs s', xs)
  | None => run_all (spec_run hook_throws) rs (abs s) = None
  end.
Proof.
  revert s. induction rs as [|r rs IH]; intros s Hwf; [done|]. cbn.
  pose proof (run_refines hook_throws r s Hwf) as Hr. unfold refines in Hr.
  destruct (run hook_throws r s) as [[s' x]|]; [|by rewrite Hr].
  destruct Hr as [Hwf' ->]. specialize (IH s' Hwf').
  destruct (run_all (run hook_throws) rs s') as [[s'' xs]|]; [|by rewrite IH].
  by destruct IH as [? ->].
Qed.

Lemma run_all_invariant rs (a : LruSpec K V Hook) c :
  keys_unique a -> within_capacity a -> (spec_clear a <= c)%nat ->
  spec_max a = 0%nat \/ (c <= spec_max a)%nat ->
  Forall request_clears rs -> Forall (request_fits c) rs ->
  exists a' xs, run_all (spec_run hook_throws) rs a = Some (a', xs) /\ within_capacity a'.
Proof.
  intros Hu Hw Hc Hm Hcl Hfit. revert a Hu Hw Hc Hm.
  induction rs as [|r rs IH]; intros a Hu Hw Hc Hm; [by eexists _, _|].
  apply Forall_cons_1 in Hcl as [Hcl1 Hcl], Hfit as [Hfit1 Hfit].
  cbn [run_all]. pose proof (spec_run_step hook_throws r a Hu) as Hstep. unfold step_ok in Hstep.
  destruct (spec_run hook_throws r a) as [[a' x]|].
  - destruct Hstep as (Hu' & Hw' & Hset). destruct (Hset c) as [Hc' Hm']; [done..|].
    destruct (IH Hcl Hfit a') as (a'' & xs & -> & ?); auto. by eexists _, _.
  - destruct Hstep. unfold clear_fits. lia.
Qed.

(** (C2) Refinement: from an empty cache, any sequence of requests, exceptions of the hooks
    included, does to the heap of nodes, the hash index and the intrusive list exactly what the
    contract does to a list of entries in order of use: same responses, same exceptions, same
    hook calls in the same order, and the index and the list agree with the nodes throughout. *)
Theorem cache_refines_contract rs maxSize clearSize :
  match run_all (run hook_throws) rs (make maxSize clearSize : cache) with
  | Some (s', xs) =>
      wf s' /\ run_all (spec_run hook_throws) rs (empty_spec maxSize clearSize) = Some (abs s', xs)
  | None => run_all (spec_run hook_throws) rs (empty_spec maxSize clearSize) = None
  end.
Proof. destruct (make_wf maxSize clearSize) as [Hwf <-]. by apply run_all_refines. Qed.

(** Safety and capacity: as long as the clear size is kept between one and every non-zero
    maximum size, no sequence of requests touches a deleted node, and after it the cache holds
    at most its maximum number of entries, whatever the hooks threw on the way. *)
Theorem cache_capacity rs maxSize clearSize c :
  clearSize <> 0%nat -> (clearSize <= c)%nat -> maxSize = 0%nat \/ (c <= maxSize)%nat ->
  Forall request_clears rs -> Forall (request_fits c) rs ->
  exists s' xs, run_all (run hook_throws) rs (make maxSize clearSize : cache) = Some (s', xs) /\
    (getMaxSize s' = 0 \/ size_ s' <= getMaxSize s')%nat.
Proof.
  intros Hcl Hc Hm Hrs Hfit. destruct (make_wf maxSize clearSize) as [Hwf Habs].
  pose proof (run_all_refines rs _ Hwf) as Hr. rewrite Habs in Hr.
  destruct (run_all_invariant rs (empty_spec maxSize clearSize) c) as (a' & xs & Hrun & Hcap);
    try done; [constructor|split; [done|right; cbn; lia]|].
  destruct (run_all (run hook_throws) rs _) as [[s' ys]|]; [|congruence].
  destruct Hr as [Hwf' Hr]. rewrite Hr in Hrun. injection Hrun as <- <-.
  exists s', ys. split; [done|]. rewrite wf_size by done. destruct Hcap as [_ Hcap]. exact Hcap.
Qed.

(** (C40) Without a prune hook, a clear size larger than the maximum size makes an insertion of a
    new key into a full cache undefined: the evictions it triggers delete the node it has just added, and the iterator it
    returns is made from the deleted node. *)
Theorem insert_may_evict_itself (s : cache) k v :
  wf s -> maxSize_ s <> 0%nat -> (maxSize_ s < clearSize_ s)%nat -> size_ s = maxSize_ s ->
  pruneHook_ s = None -> existsImpl k s = false ->
  run hook_throws (Insert k v None) s = None.
Proof.
  intros Hwf Hmax Hclear Hfull Hhook Hk.
  pose proof (run_refines hook_throws (Insert k v None) s Hwf) as Hr. unfold refines in Hr.
  destruct (run hook_throws (Insert k v None) s) as [[s' x]|]; [|done]. destruct Hr as [_ Hr].
  pose proof (wf_find s k Hwf) as Hf. unfold existsImpl in Hk.
  destruct (findInIndex k s); [done|]. destruct Hf as [_ El].
  rewrite wf_size in Hfull by done.
  destruct (add_evicts_all hook_throws k v (abs s)) as (a' & Ha & Hnil); try done.
  { by apply wf_keys_unique. }
  { by apply lookup_key_None. }
  rewrite (insert_run _ _ _ _ _ _ _ El Ha), Hnil in Hr. done.
Qed.
(** (C6) The cache is least-recently-used: with the default clear size, after any sequence of
    writes a cache of [n > 0] entries holds exactly the [n] keys written last, each with the
    last value written, in order of their last write. *)
Theorem cache_is_lru n kvs :
  n <> 0%nat ->
  exists s' xs, run_all (run hook_throws) (writes kvs) (make n 1 : cache) = Some (s', xs) /\
    wf s' /\ entries (nodes s') (nl_nodes (lru_ s')) = take n (first_uses (reverse kvs)).
Proof.
  intros Hn. destruct n as [|n]; [done|]. destruct (make_wf (S n) 1) as [Hwf Habs].
  pose proof (run_all_refines (writes kvs) _ Hwf) as Hr. rewrite Habs in Hr.
  destruct (writes_contents hook_throws n kvs) as (a & xs & Hrun & _ & _ & _ & Hcon).
  unfold empty_spec in Hr. rewrite Hrun in Hr.
  destruct (run_all (run hook_throws) (writes kvs) _) as [[s' ys]|]; [|done].
  destruct Hr as [Hwf' [= -> ->]]. by exists s', ys.
Qed.
End Theorems.

(** ** Witnesses *)

Section Witnesses.
Abbreviation zcache := (EvictingCacheMap (K:=Z) (V:=Z) (Hook:=unit) (L:=list ptr) (I:=gmap Z ptr)).

Definition no_throw (_ : unit) (_ _ : Z) : bool := false.

Lemma cache_refines_contract_witness :
  match run_all (run no_throw) [Set_ 1 10 true None; Get 1; Get 2] (make 1 1 : zcache) with
  | Some (s', xs) => wf s' /\
      run_all (spec_run no_throw) [Set_ 1 10 true None; Get 1; Get 2] (empty_spec 1 1) = Some (abs s', xs)
  | None => run_all (spec_run no_throw) [Set_ 1 10 true None; Get 1; Get 2] (empty_spec 1 1) = None
  end.
Proof. apply cache_refines_contract; apply _. Defined.

Lemma cache_capacity_witness :
  exists s' xs,
    run_all (run no_throw) [Insert 1 10 None; Insert 2 20 None; Erase 2 None] (make 1 1 : zcache) = Some (s', xs) /\
    (getMaxSize s' = 0 \/ size_ s' <= getMaxSize s')%nat.
Proof. apply (cache_capacity no_throw _ 1 1 1); try lia; repeat constructor. Defined.

Lemma cache_is_lru_witness :
  exists s' xs, run_all (run no_throw) (writes [(1, 10); (2, 20); (1, 11); (3, 30)]) (make 2 1 : zcache) = Some (s', xs) /\
    wf s' /\ entries (nodes s') (nl_nodes (lru_ s')) =
      take 2 (first_uses (reverse [(1, 10); (2, 20); (1, 11); (3, 30)])).
Proof. apply (cache_is_lru no_throw 2 [(1, 10); (2, 20); (1, 11); (3, 30)]). lia. Defined.

Lemma insert_may_evict_itself_witness :
  run no_throw (Insert 2 20 None)
    (mkEvictingCacheMap (<[1%positive := (1, 10)]> ∅) None (<[1 := 1%positive]> ∅) [1%positive] 1 2 [] : zcache) = None.
Proof.
  apply (insert_may_evict_itself no_throw _ 2 20); try (reflexivity || (cbn; lia)).
  unfold wf. cbn. split.
  - repeat constructor. by intros ?%not_elem_of_nil.
  - intros p. rewrite list_elem_of_singleton. destruct (decide (1%positive = p)) as [<-|Hp].
    + rewrite lookup_insert_eq. split; eauto.
    + rewrite lookup_insert_ne, lookup_empty by done. split; [by intros ->|by intros [? ?]].
  - intros k p. destruct (decide (1 = k)) as [<-|Hk], (decide (1%positive = p)) as [<-|Hp];
      rewrite ?lookup_insert_eq, ?lookup_insert_ne, ?lookup_empty by done; split;
      solve [eauto | done | by intros [? ?] | intros [? [= ? ?]]; done | by intros [= ?]].
Defined.
End Witnesses.
