(* ===== verification/ProducerConsumerQueue.v ===== *)
(** * ProducerConsumerQueue: the lock-free ring buffer of [folly/ProducerConsumerQueue.h].

    The producer and the consumer each run their member functions one access to shared memory
    at a time, in any interleaving.  A cell of [records_] is empty memory or a constructed
    object: constructing over an object, moving from or destroying empty memory, an access
    outside of the array and a failed assertion are errors ([None]).  The acquire loads and
    release stores of the two indices are taken as interleaved accesses to one memory. *)
From S2P Require Import Prelude.

Section Queue.
Context {T : Type}.

(** [uint32_t] members are natural numbers below [2 ^ 32]. *)
Record ProducerConsumerQueue := mkQueue {
  size_ : nat;
  records_ : list (option T);
  readIndex_ : nat;
  writeIndex_ : nat;
}.

Definition make_queue (size : nat) : option ProducerConsumerQueue :=
  if (2 <=? size)%nat then Some (mkQueue size (replicate size None) 0 0) else None.

Definition set_records (r : list (option T)) (q : ProducerConsumerQueue) :=
  mkQueue (size_ q) r (readIndex_ q) (writeIndex_ q).
Definition set_readIndex (i : nat) (q : ProducerConsumerQueue) :=
  mkQueue (size_ q) (records_ q) i (writeIndex_ q).
Definition set_writeIndex (i : nat) (q : ProducerConsumerQueue) :=
  mkQueue (size_ q) (records_ q) (readIndex_ q) i.

(** [i + 1], back to 0 at [size_]. *)
Definition next_record (q : ProducerConsumerQueue) (i : nat) : nat :=
  let nextRecord := (i + 1)%nat in
  if (nextRecord =? size_ q)%nat then 0%nat else nextRecord.

(** [new (&records_[i]) T(v)]; [std::move(records_[i])]; [records_[i].~T()] *)
Definition construct (q : ProducerConsumerQueue) (i : nat) (v : T) : option ProducerConsumerQueue :=
  match records_ q !! i with
  | Some None => Some (set_records (<[i := Some v]> (records_ q)) q)
  | _ => None
  end.

Definition peek (q : ProducerConsumerQueue) (i : nat) : option T :=
  match records_ q !! i with
  | Some (Some v) => Some v
  | _ => None
  end.

Definition destroy (q : ProducerConsumerQueue) (i : nat) : option ProducerConsumerQueue :=
  match records_ q !! i with
  | Some (Some _) => Some (set_records (<[i := None]> (records_ q)) q)
  | _ => None
  end.

(** ** The producer *)

(** Where the producer is in [write(v)]. *)
Inductive producer :=
| P_idle
| P_loaded (v : T) (currentWrite nextRecord : nat)
| P_room (v : T) (currentWrite nextRecord : nat)
| P_constructed (v : T) (currentWrite nextRecord : nat).

(** The result of a step: nothing yet, or what the member function returns. *)
Inductive produced := P_continue | P_returns (ok : bool).

Definition write_start (q : ProducerConsumerQueue) (v : T) : producer :=
  let currentWrite := writeIndex_ q in
  P_loaded v currentWrite (next_record q currentWrite).

Definition write_step (q : ProducerConsumerQueue) (p : producer)
    : option (ProducerConsumerQueue * producer * produced) :=
  match p with
  | P_idle => None
  | P_loaded v currentWrite nextRecord =>
      if negb (nextRecord =? readIndex_ q)%nat
      then Some (q, P_room v currentWrite nextRecord, P_continue)
      else Some (q, P_idle, P_returns false)
  | P_room v currentWrite nextRecord =>
      q' ← construct q currentWrite v;
      Some (q', P_constructed v currentWrite nextRecord, P_continue)
  | P_constructed v currentWrite nextRecord =>
      Some (set_writeIndex nextRecord q, P_idle, P_returns true)
  end.

(** ** The consumer *)

(** Where the consumer is in [read(record)], [frontPtr()] or [popFront()]; between a call of
    [frontPtr] that returned a pointer and [popFront] it holds that pointer. *)
Inductive consumer :=
| C_idle
| C_read_loaded (currentRead : nat)
| C_read_nonempty (currentRead nextRecord : nat)
| C_read_moved (v : T) (currentRead nextRecord : nat)
| C_read_destroyed (v : T) (nextRecord : nat)
| C_front_loaded (currentRead : nat)
| C_holding (front : nat)
| C_pop_loaded (currentRead : nat)
| C_pop_checked (currentRead nextRecord : nat)
| C_pop_destroyed (v : T) (nextRecord : nat).

Inductive consumed_by := C_continue | C_empty | C_pointer (front : nat) | C_got (v : T).

Definition read_start (q : ProducerConsumerQueue) : consumer := C_read_loaded (readIndex_ q).
Definition frontPtr_start (q : ProducerConsumerQueue) : consumer := C_front_loaded (readIndex_ q).
Definition popFront_start (q : ProducerConsumerQueue) : consumer := C_pop_loaded (readIndex_ q).

Definition read_step (q : ProducerConsumerQueue) (c : consumer)
    : option (ProducerConsumerQueue * consumer * consumed_by) :=
  match c with
  | C_read_loaded currentRead =>
      if (currentRead =? writeIndex_ q)%nat then Some (q, C_idle, C_empty)
      else Some (q, C_read_nonempty currentRead (next_record q currentRead), C_continue)
  | C_read_nonempty currentRead nextRecord =>
      v ← peek q currentRead;
      Some (q, C_read_moved v currentRead nextRecord, C_continue)
  | C_read_moved v currentRead nextRecord =>
      q' ← destroy q currentRead;
      Some (q', C_read_destroyed v nextRecord, C_continue)
  | C_read_destroyed v nextRecord => Some (set_readIndex nextRecord q, C_idle, C_got v)
  | _ => None
  end.

Definition frontPtr_step (q : ProducerConsumerQueue) (c : consumer)
    : option (ProducerConsumerQueue * consumer * consumed_by) :=
  match c with
  | C_front_loaded currentRead =>
      if (currentRead =? writeIndex_ q)%nat then Some (q, C_idle, C_empty)
      else Some (q, C_holding currentRead, C_pointer currentRead)
  | _ => None
  end.

(** The value destroyed by [popFront] is recorded as the one the consumer used in place. *)
Definition popFront_step (q : ProducerConsumerQueue) (c : consumer)
    : option (ProducerConsumerQueue * consumer * consumed_by) :=
  match c with
  | C_pop_loaded currentRead =>
      if negb (currentRead =? writeIndex_ q)%nat
      then Some (q, C_pop_checked currentRead (next_record q currentRead), C_continue)
      else None
  | C_pop_checked currentRead nextRecord =>
      v ← peek q currentRead;
      q' ← destroy q currentRead;
      Some (q', C_pop_destroyed v nextRecord, C_continue)
  | C_pop_destroyed v nextRecord => Some (set_readIndex nextRecord q, C_idle, C_got v)
  | _ => None
  end.

Definition consumer_step (q : ProducerConsumerQueue) (c : consumer)
    : option (ProducerConsumerQueue * consumer * consumed_by) :=
  match c with
  | C_idle | C_holding _ => None
  | C_read_loaded _ | C_read_nonempty _ _ | C_read_moved _ _ _ | C_read_destroyed _ _ => read_step q c
  | C_front_loaded _ => frontPtr_step q c
  | C_pop_loaded _ | C_pop_checked _ _ | C_pop_destroyed _ _ => popFront_step q c
  end.

(** ** Observers, as functions of the loaded indices *)

Definition isEmpty (q : ProducerConsumerQueue) : bool := (readIndex_ q =? writeIndex_ q)%nat.

Definition isFull (q : ProducerConsumerQueue) : bool :=
  negb (negb (next_record q (writeIndex_ q) =? readIndex_ q)%nat).

(** [int ret = writeIndex_ - readIndex_; if (ret < 0) ret += size_;] with its conversions
    between [unsigned int], [int] and [size_t]. *)
Definition sizeGuess (q : ProducerConsumerQueue) : Z :=
  let ret := i32 (u32 (Z.of_nat (writeIndex_ q) - Z.of_nat (readIndex_ q))) in
  let ret := if ret <? 0 then i32 (u32 (u32 ret + Z.of_nat (size_ q))) else ret in
  u64 ret.

Definition capacity (q : ProducerConsumerQueue) : nat := (size_ q - 1)%nat.

(** ** The destructor *)

Fixpoint destroy_loop (fuel : nat) (q : ProducerConsumerQueue) (readIndex endIndex : nat)
    : option ProducerConsumerQueue :=
  if negb (readIndex =? endIndex)%nat then
    match fuel with
    | O => None
    | S fuel => q' ← destroy q readIndex; destroy_loop fuel q' (next_record q readIndex) endIndex
    end
  else Some q.

Definition destruct_queue (q : ProducerConsumerQueue) : option ProducerConsumerQueue :=
  destroy_loop (size_ q) q (readIndex_ q) (writeIndex_ q).

(** ** Interleavings *)

(** The queue, the two threads, and what they have written and consumed so far; [error] is
    what follows an undefined access. *)
Record config := mkConfig {
  queue : ProducerConsumerQueue;
  prod : producer;
  cons_ : consumer;
  written : list T;
  consumed : list T;
}.

Inductive state := running (c : config) | error.

Definition note_written (p : producer) (r : produced) (l : list T) : list T :=
  match p, r with
  | P_constructed v _ _, P_returns true => l ++ [v]
  | _, _ => l
  end.

Definition note_consumed (r : consumed_by) (l : list T) : list T :=
  match r with C_got v => l ++ [v] | _ => l end.

(** One step of one thread; [popFront] is only called by a consumer that holds a pointer. *)
Inductive step : state -> state -> Prop :=
| step_write c v : prod c = P_idle ->
    step (running c) (running (mkConfig (queue c) (write_start (queue c) v) (cons_ c) (written c) (consumed c)))
| step_producer c : prod c <> P_idle ->
    step (running c)
      match write_step (queue c) (prod c) with
      | Some (q', p', r) =>
          running (mkConfig q' p' (cons_ c) (note_written (prod c) r (written c)) (consumed c))
      | None => error
      end
| step_read c : cons_ c = C_idle ->
    step (running c) (running (mkConfig (queue c) (prod c) (read_start (queue c)) (written c) (consumed c)))
| step_front c : cons_ c = C_idle ->
    step (running c) (running (mkConfig (queue c) (prod c) (frontPtr_start (queue c)) (written c) (consumed c)))
| step_drop c p : cons_ c = C_holding p ->
    step (running c) (running (mkConfig (queue c) (prod c) C_idle (written c) (consumed c)))
| step_pop c p : cons_ c = C_holding p ->
    step (running c) (running (mkConfig (queue c) (prod c) (popFront_start (queue c)) (written c) (consumed c)))
| step_consumer c : cons_ c <> C_idle -> (forall p, cons_ c <> C_holding p) ->
    step (running c)
      match consumer_step (queue c) (cons_ c) with
      | Some (q', c', r) =>
          running (mkConfig q' (prod c) c' (written c) (note_consumed r (consumed c)))
      | None => error
      end.

Definition start (q : ProducerConsumerQueue) : state := running (mkConfig q P_idle C_idle [] []).

End Queue.

Arguments ProducerConsumerQueue : clear implicits.
Arguments producer : clear implicits.
Arguments consumer : clear implicits.
Arguments config : clear implicits.
Arguments state : clear implicits.

(** ** The ring *)

(** The index of the [i]-th cell from the read index on, in a ring of [n] cells. *)
Definition pos (n r i : nat) : nat := if (r + i <? n)%nat then (r + i)%nat else (r + i - n)%nat.

Lemma pos_lt n r i : (r < n)%nat -> (i < n)%nat -> (pos n r i < n)%nat.
Proof. unfold pos. intros. destruct (Nat.ltb_spec (r + i) n); lia. Qed.

Lemma pos_inj n r i j : (i < n)%nat -> (j < n)%nat -> pos n r i = pos n r j -> i = j.
Proof. unfold pos. destruct (Nat.ltb_spec (r + i) n), (Nat.ltb_spec (r + j) n); lia. Qed.

Lemma pos_0 n r : (r < n)%nat -> pos n r 0 = r.
Proof. unfold pos. intros. destruct (Nat.ltb_spec (r + 0) n); lia. Qed.

Lemma pos_full n r : pos n r n = r.
Proof. unfold pos. destruct (Nat.ltb_spec (r + n) n); lia. Qed.

Lemma next_pos {T} (q : ProducerConsumerQueue T) r i :
  (r < size_ q)%nat -> (i < size_ q)%nat ->
  next_record q (pos (size_ q) r i) = pos (size_ q) r (S i).
Proof.
  unfold next_record, pos. intros.
  destruct (Nat.ltb_spec (r + i) (size_ q)), (Nat.ltb_spec (r + S i) (size_ q)).
  all: destruct (Nat.eqb_spec (r + i + 1) (size_ q)), (Nat.eqb_spec (r + i - size_ q + 1) (size_ q)); lia.
Qed.

Lemma pos_next {T} (q : ProducerConsumerQueue T) r i :
  (r < size_ q)%nat -> (i < size_ q)%nat ->
  pos (size_ q) (next_record q r) i = pos (size_ q) r (S i).
Proof.
  unfold next_record, pos. intros. destruct (Nat.eqb_spec (r + 1) (size_ q)).
  - destruct (Nat.ltb_spec (0 + i) (size_ q)), (Nat.ltb_spec (r + S i) (size_ q)); lia.
  - destruct (Nat.ltb_spec (r + 1 + i) (size_ q)), (Nat.ltb_spec (r + S i) (size_ q)); lia.
Qed.

Lemma pos_eq_r n r i : (r < n)%nat -> (i < n)%nat -> pos n r i = r -> i = 0%nat.
Proof. intros. apply (pos_inj n r); [lia|lia|]. by rewrite pos_0. Qed.

Section Invariant.
Context {T : Type}.
Implicit Types (c : config T) (xs : list T).

(** The object the producer has built in the cell after the last one, and whether the consumer
    has destroyed the object in the first one, before they publish it. *)
Definition pending (p : producer T) : option T :=
  match p with P_constructed v _ _ => Some v | _ => None end.

Definition removing (k : consumer T) : bool :=
  match k with C_read_destroyed _ _ | C_pop_destroyed _ _ => true | _ => false end.

(** What cell [i] of the ring holds when the queue holds [xs]. *)
Definition cell (p : producer T) (k : consumer T) xs (i : nat) : option T :=
  match xs !! i with
  | Some x => if (i =? 0)%nat && removing k then None else Some x
  | None => if (i =? length xs)%nat then pending p else None
  end.

Definition producer_ok (q : ProducerConsumerQueue T) (p : producer T) xs : Prop :=
  match p with
  | P_idle => True
  | P_loaded _ cw nx => cw = writeIndex_ q /\ nx = next_record q cw
  | P_room _ cw nx | P_constructed _ cw nx =>
      cw = writeIndex_ q /\ nx = next_record q cw /\ (S (length xs) < size_ q)%nat
  end.

Definition consumer_ok (q : ProducerConsumerQueue T) (k : consumer T) xs : Prop :=
  match k with
  | C_idle => True
  | C_read_loaded cr | C_front_loaded cr => cr = readIndex_ q
  | C_read_nonempty cr nx | C_pop_checked cr nx =>
      cr = readIndex_ q /\ nx = next_record q cr /\ xs <> []
  | C_read_moved v cr nx => cr = readIndex_ q /\ nx = next_record q cr /\ head xs = Some v
  | C_read_destroyed v nx | C_pop_destroyed v nx =>
      nx = next_record q (readIndex_ q) /\ head xs = Some v
  | C_holding cr | C_pop_loaded cr => cr = readIndex_ q /\ xs <> []
  end.

(** The configuration [c] holds the elements [xs], the oldest first. *)
Record holds c xs : Prop := {
  holds_size : (2 <= size_ (queue c))%nat;
  holds_records : length (records_ (queue c)) = size_ (queue c);
  holds_read : (readIndex_ (queue c) < size_ (queue c))%nat;
  holds_bound : (length xs < size_ (queue c))%nat;
  holds_write : writeIndex_ (queue c) = pos (size_ (queue c)) (readIndex_ (queue c)) (length xs);
  holds_cells i : (i < size_ (queue c))%nat ->
    records_ (queue c) !! pos (size_ (queue c)) (readIndex_ (queue c)) i =
      Some (cell (prod c) (cons_ c) xs i);
  holds_history : written c = consumed c ++ xs;
  holds_producer : producer_ok (queue c) (prod c) xs;
  holds_consumer : consumer_ok (queue c) (cons_ c) xs;
}.

Lemma start_holds n q : make_queue n = Some q -> holds (mkConfig q P_idle C_idle [] []) [].
Proof.
  unfold make_queue. destruct (Nat.leb_spec 2 n) as [Hn|]; [|done]. intros [= <-].
  split; cbn -[Nat.leb]; try done; try lia.
  - apply length_replicate.
  - by rewrite pos_0 by lia.
  - intros i Hi. rewrite lookup_replicate_2 by (apply pos_lt; lia).
    unfold cell. cbn. by destruct i.
Qed.

(** Only the cells matter to [cell] when neither thread is between its two writes. *)
Lemma holds_threads c xs p k :
  holds c xs -> pending p = pending (prod c) -> removing k = removing (cons_ c) ->
  producer_ok (queue c) p xs -> consumer_ok (queue c) k xs ->
  holds (mkConfig (queue c) p k (written c) (consumed c)) xs.
Proof.
  intros Hh Hp Hk Hpo Hko. split; cbn; try apply Hh; try done.
  intros i Hi. rewrite (holds_cells _ _ Hh) by done. unfold cell. by rewrite Hp, Hk.
Qed.

Lemma write_index_room c xs : holds c xs ->
  next_record (queue c) (writeIndex_ (queue c)) <> readIndex_ (queue c) <->
  (S (length xs) < size_ (queue c))%nat.
Proof.
  intros Hh. pose proof (holds_read _ _ Hh). pose proof (holds_bound _ _ Hh). pose proof (holds_size _ _ Hh).
  rewrite (holds_write _ _ Hh), next_pos by done. split.
  - intros Hne. destruct (decide (S (length xs) = size_ (queue c))) as [E|]; [|lia].
    by rewrite E, pos_full in Hne.
  - intros Hlt E. apply pos_eq_r in E; lia.
Qed.

Lemma indices_equal c xs : holds c xs ->
  readIndex_ (queue c) = writeIndex_ (queue c) <-> xs = [].
Proof.
  intros Hh. pose proof (holds_read _ _ Hh). pose proof (holds_bound _ _ Hh).
  rewrite (holds_write _ _ Hh). split.
  - intros E. symmetry in E. apply pos_eq_r in E; [by apply nil_length_inv|done..].
  - intros ->. by rewrite pos_0.
Qed.

(** ** The steps of the producer *)

Lemma producer_loaded c xs v cw nx : holds c xs -> prod c = P_loaded v cw nx ->
  write_step (queue c) (prod c) =
    Some (if (S (length xs) <? size_ (queue c))%nat
          then (queue c, P_room v cw nx, P_continue) else (queue c, P_idle, P_returns false)).
Proof.
  intros Hh Hp. pose proof (holds_producer _ _ Hh) as Hok. rewrite Hp in *.
  destruct Hok as [-> ->]. unfold write_step. pose proof (write_index_room _ _ Hh) as Hroom.
  destruct (Nat.eqb_spec (next_record (queue c) (writeIndex_ (queue c))) (readIndex_ (queue c))),
    (Nat.ltb_spec (S (length xs)) (size_ (queue c))); try done; lia.
Qed.

Lemma producer_construct c xs v cw nx : holds c xs -> prod c = P_room v cw nx ->
  exists q', construct (queue c) cw v = Some q' /\
    holds (mkConfig q' (P_constructed v cw nx) (cons_ c) (written c) (consumed c)) xs.
Proof.
  intros Hh Hp. pose proof (holds_producer _ _ Hh) as Hok. rewrite Hp in Hok. destruct Hok as (-> & -> & Hroom).
  assert (records_ (queue c) !! writeIndex_ (queue c) = Some None) as Hcell.
  { rewrite (holds_write _ _ Hh), (holds_cells _ _ Hh) by lia. unfold cell. rewrite Hp.
    rewrite lookup_ge_None_2, Nat.eqb_refl by lia. done. }
  unfold construct. rewrite Hcell. eexists. split; [done|].
  split; cbn; try apply Hh; [by rewrite length_insert; apply Hh| |done].
  intros i Hi. pose proof (holds_cells _ _ Hh i Hi) as Hi'. unfold cell in *. rewrite Hp in Hi'. cbn in *.
  destruct (decide (i = length xs)) as [->|Hne].
  - rewrite <- (holds_write _ _ Hh), list_lookup_insert_eq.
    + by rewrite lookup_ge_None_2, Nat.eqb_refl by lia.
    + rewrite (holds_records _ _ Hh), (holds_write _ _ Hh). apply pos_lt; [apply Hh|lia].
  - rewrite list_lookup_insert_ne; [|rewrite (holds_write _ _ Hh); intros E;
      apply pos_inj in E; [done|apply Hh|done]].
    rewrite Hi'. rewrite (proj2 (Nat.eqb_neq i (length xs))) by done. done.
Qed.

Lemma cell_push p v cw nx k xs i : pending p = None ->
  (removing k = true -> xs <> []) ->
  cell p k (xs ++ [v]) i = cell (P_constructed v cw nx) k xs i.
Proof.
  intros Hp Hk. unfold cell. rewrite Hp, length_app. cbn.
  destruct (xs !! i) as [x|] eqn:E.
  - by rewrite (lookup_app_l_Some _ _ _ _ E).
  - apply lookup_ge_None in E. rewrite lookup_app_r by done.
    destruct (Nat.eqb_spec i (length xs)) as [->|Hne].
    + rewrite Nat.sub_diag. cbn. destruct (Nat.eqb_spec (length xs) 0) as [H0|]; [|done].
      apply nil_length_inv in H0. destruct (removing k); [|done]. by destruct Hk.
    + rewrite lookup_ge_None_2 by (cbn; lia).
      destruct (Nat.eqb_spec i (length xs + 1)); done.
Qed.

Lemma consumer_ok_push q q' k xs v : size_ q' = size_ q -> readIndex_ q' = readIndex_ q ->
  consumer_ok q k xs -> consumer_ok q' k (xs ++ [v]).
Proof.
  intros Hs Hr. unfold consumer_ok, next_record. rewrite Hs, Hr.
  destruct k; try done; destruct xs; cbn; naive_solver.
Qed.

Lemma producer_publish c xs v cw nx : holds c xs -> prod c = P_constructed v cw nx ->
  holds (mkConfig (set_writeIndex nx (queue c)) P_idle (cons_ c) (written c ++ [v]) (consumed c)) (xs ++ [v]).
Proof.
  intros Hh Hp. pose proof (holds_producer _ _ Hh) as Hok. rewrite Hp in Hok. destruct Hok as (-> & -> & Hroom).
  split; cbn; try apply Hh; try done.
  - rewrite length_app. cbn. lia.
  - rewrite (holds_write _ _ Hh), next_pos, length_app by apply Hh. cbn. f_equal. lia.
  - intros i Hi. rewrite (holds_cells _ _ Hh), Hp by done. f_equal. symmetry. apply cell_push; [done|].
    intros Hr. pose proof (holds_consumer _ _ Hh) as Hc. destruct (cons_ c), xs; naive_solver.
  - by rewrite (holds_history _ _ Hh), app_assoc.
  - eapply consumer_ok_push; [..|apply Hh]; done.
Qed.

(** ** The steps of the consumer *)

Lemma front_cell c xs x : holds c (x :: xs) -> removing (cons_ c) = false ->
  records_ (queue c) !! readIndex_ (queue c) = Some (Some x).
Proof.
  intros Hh Hr. pose proof (holds_cells _ _ Hh 0%nat) as H0. rewrite pos_0 in H0 by apply Hh.
  rewrite H0 by (pose proof (holds_size _ _ Hh); lia). unfold cell. cbn. by rewrite Hr.
Qed.

(** Destroying the first object, between the two writes of [read] and [popFront]. *)
Lemma consumer_destroy c xs x k' : holds c (x :: xs) -> removing (cons_ c) = false ->
  removing k' = true -> consumer_ok (queue c) k' (x :: xs) ->
  exists q', destroy (queue c) (readIndex_ (queue c)) = Some q' /\
    holds (mkConfig q' (prod c) k' (written c) (consumed c)) (x :: xs).
Proof.
  intros Hh Hr Hk' Hok. pose proof (front_cell _ _ _ Hh Hr) as Hcell.
  unfold destroy. rewrite Hcell. eexists. split; [done|].
  split; cbn; try apply Hh; [by rewrite length_insert; apply Hh| |done].
  intros i Hi. pose proof (holds_cells _ _ Hh i Hi) as Hi'. unfold cell in *. rewrite Hr in Hi'. rewrite Hk'.
  destruct (decide (i = 0%nat)) as [->|Hne].
  - rewrite pos_0, list_lookup_insert_eq; [done| |apply Hh]. by eapply lookup_lt_Some.
  - rewrite list_lookup_insert_ne.
    + rewrite Hi'. by rewrite (proj2 (Nat.eqb_neq i 0)) by done.
    + intros E. symmetry in E. apply pos_eq_r in E; [done|apply Hh|done].
Qed.

Lemma cell_pop p k k' x xs i : removing k' = false ->
  cell p k (x :: xs) (S i) = cell p k' xs i.
Proof.
  intros Hk'. unfold cell. cbn. rewrite Hk', andb_false_r. by destruct (xs !! i).
Qed.

Lemma producer_ok_pop q q' p x xs : size_ q' = size_ q -> writeIndex_ q' = writeIndex_ q ->
  producer_ok q p (x :: xs) -> producer_ok q' p xs.
Proof. intros Hs Hw. unfold producer_ok, next_record. rewrite Hs, Hw. destruct p; cbn; naive_solver lia. Qed.

Lemma consumer_publish c xs x : holds c (x :: xs) -> removing (cons_ c) = true ->
  holds (mkConfig (set_readIndex (next_record (queue c) (readIndex_ (queue c))) (queue c))
           (prod c) C_idle (written c) (consumed c ++ [x])) xs.
Proof.
  intros Hh Hr. pose proof (holds_bound _ _ Hh) as Hb. cbn in Hb. pose proof (holds_read _ _ Hh) as Hrd.
  split; cbn -[next_record]; try apply Hh; try done.
  - unfold next_record. destruct (Nat.eqb_spec (readIndex_ (queue c) + 1) (size_ (queue c))); lia.
  - lia.
  - rewrite pos_next by lia. apply (holds_write _ _ Hh).
  - intros i Hi. rewrite pos_next by done. destruct (decide (S i = size_ (queue c))) as [E|Hne].
    + pose proof (holds_cells _ _ Hh 0%nat ltac:(lia)) as H0. rewrite pos_0 in H0 by done.
      rewrite E, pos_full, H0. unfold cell. cbn. rewrite Hr, lookup_ge_None_2 by lia.
      rewrite (proj2 (Nat.eqb_neq i (length xs))) by lia. done.
    + rewrite (holds_cells _ _ Hh) by lia. f_equal. by apply cell_pop.
  - rewrite (holds_history _ _ Hh). by rewrite <- app_assoc.
  - eapply producer_ok_pop; [..|apply Hh]; done.
Qed.

(** ** Every reachable state *)

Definition state_ok (s : state T) : Prop :=
  match s with running c => exists xs, holds c xs | error => False end.

Lemma producer_preserves c xs : holds c xs -> prod c <> P_idle ->
  exists q' p' r xs', write_step (queue c) (prod c) = Some (q', p', r) /\
    holds (mkConfig q' p' (cons_ c) (note_written (prod c) r (written c)) (consumed c)) xs'.
Proof.
  intros Hh Hp. destruct (prod c) as [|v cw nx|v cw nx|v cw nx] eqn:Ep; [done|..].
  - rewrite <- Ep, (producer_loaded _ _ _ _ _ Hh Ep). pose proof (holds_producer _ _ Hh) as Hok. rewrite Ep in Hok |- *.
    destruct (Nat.ltb_spec (S (length xs)) (size_ (queue c))); eexists _, _, _, xs; (split; [done|]);
      (apply holds_threads; [done|by rewrite Ep|done| |apply Hh]); cbn; naive_solver.
  - destruct (producer_construct _ _ _ _ _ Hh Ep) as (q' & Hq & Hh'). cbn. rewrite Hq.
    by eexists _, _, _, xs.
  - eexists _, _, _, (xs ++ [v]). split; [done|]. by eapply producer_publish.
Qed.

Lemma nonempty_cons (xs : list T) : xs <> [] -> exists x xs', xs = x :: xs'.
Proof. destruct xs; [done|eauto]. Qed.

Lemma head_cons (xs : list T) v : head xs = Some v -> exists xs', xs = v :: xs'.
Proof. destruct xs; [done|]. intros [= ->]. eauto. Qed.

Lemma consumer_preserves c xs : holds c xs -> cons_ c <> C_idle -> (forall p, cons_ c <> C_holding p) ->
  exists q' k' r xs', consumer_step (queue c) (cons_ c) = Some (q', k', r) /\
    holds (mkConfig q' (prod c) k' (written c) (note_consumed r (consumed c))) xs'.
Proof.
  intros Hh Hni Hnh. pose proof (holds_consumer _ _ Hh) as Hok. pose proof (indices_equal _ _ Hh) as Heq.
  destruct (cons_ c) as [|cr|cr nx|v cr nx|v nx|cr|p|cr|cr nx|v nx] eqn:Ek; try done; try by destruct (Hnh p).
  all: cbn in Hok; destruct_and?; simplify_eq; cbn [consumer_step read_step frontPtr_step popFront_step].
  - destruct (Nat.eqb_spec (readIndex_ (queue c)) (writeIndex_ (queue c))) as [E|E]; eexists _, _, _, xs;
      (split; [done|]); (apply holds_threads; [done|done|by rewrite Ek|apply Hh|]); cbn; tauto.
  - destruct (nonempty_cons xs) as (x & xs' & ->); [done|].
    unfold peek. rewrite (front_cell _ _ _ Hh) by by rewrite Ek. eexists _, _, _, _. split; [done|].
    apply holds_threads; [done|done|by rewrite Ek|apply Hh|done].
  - destruct (head_cons xs v) as [xs' ->]; [done|].
    destruct (consumer_destroy c xs' v (C_read_destroyed v (next_record (queue c) (readIndex_ (queue c)))))
      as (q' & -> & Hh'); [done|by rewrite Ek|done|done|]. by eexists _, _, _, _.
  - destruct (head_cons xs v) as [xs' ->]; [done|]. eexists _, _, _, xs'. split; [done|].
    apply consumer_publish; [done|by rewrite Ek].
  - destruct (Nat.eqb_spec (readIndex_ (queue c)) (writeIndex_ (queue c))) as [E|E]; eexists _, _, _, xs;
      (split; [done|]); (apply holds_threads; [done|done|by rewrite Ek|apply Hh|]); cbn; tauto.
  - destruct (Nat.eqb_spec (readIndex_ (queue c)) (writeIndex_ (queue c))) as [E|E]; [tauto|].
    eexists _, _, _, xs. split; [done|]. apply holds_threads; [done|done|by rewrite Ek|apply Hh|done].
  - destruct (nonempty_cons xs) as (x & xs' & ->); [done|].
    unfold peek. rewrite (front_cell _ _ _ Hh) by by rewrite Ek. cbn [mbind option_bind].
    destruct (consumer_destroy c xs' x (C_pop_destroyed x (next_record (queue c) (readIndex_ (queue c)))))
      as (q' & -> & Hh'); [done|by rewrite Ek|done|done|]. by eexists _, _, _, _.
  - destruct (head_cons xs v) as [xs' ->]; [done|]. eexists _, _, _, xs'. split; [done|].
    apply consumer_publish; [done|by rewrite Ek].
Qed.

Lemma step_preserves s s' : state_ok s -> step s s' -> state_ok s'.
Proof.
  intros Hs Hstep. destruct Hstep as [c v Hp|c Hp|c Hk|c Hk|c p Hk|c p Hk|c Hni Hnh]; destruct Hs as [xs Hh].
  - exists xs. apply holds_threads; [done|by rewrite Hp|done|done|apply Hh].
  - destruct (producer_preserves _ _ Hh Hp) as (q' & p' & r & xs' & -> & Hh'). by exists xs'.
  - exists xs. apply holds_threads; [done|done|by rewrite Hk|apply Hh|done].
  - exists xs. apply holds_threads; [done|done|by rewrite Hk|apply Hh|done].
  - exists xs. apply holds_threads; [done|done|by rewrite Hk|apply Hh|done].
  - exists xs. pose proof (holds_consumer _ _ Hh) as Hok. rewrite Hk in Hok.
    apply holds_threads; [done|done|by rewrite Hk|apply Hh|]. by destruct Hok.
  - destruct (consumer_preserves _ _ Hh Hni Hnh) as (q' & k' & r & xs' & -> & Hh'). by exists xs'.
Qed.
End Invariant.

Section Theorems.
Context {T : Type}.
Implicit Types (c : config T) (q : ProducerConsumerQueue T).

Lemma reachable_holds n q s : make_queue n = Some q -> rtc step (start q) s -> state_ok s.
Proof.
  intros Hq. apply rtc_invariant; [apply step_preserves|]. exists []. by eapply start_holds.
Qed.

(** The elements in the queue of a configuration: those written and not consumed. *)
Definition elements c : list T := drop (length (consumed c)) (written c).

Lemma holds_elements c xs : holds c xs -> elements c = xs.
Proof. intros Hh. unfold elements. by rewrite (holds_history _ _ Hh), drop_app_length. Qed.

Lemma reachable_elements n q c : make_queue n = Some q -> rtc step (start q) (running c) ->
  holds c (elements c).
Proof. intros Hq [xs Hh]%(reachable_holds n); [|done]. by rewrite (holds_elements _ xs). Qed.

(** (C1) In every interleaving of one producer and one consumer, using [read] or [frontPtr] and
    [popFront], no access is undefined: no cell is constructed over, moved from when empty,
    destroyed twice or accessed by both threads, and no assertion fails; what the consumer has
    received is, in order, the beginning of what the producer has written, and at most
    [capacity()] elements are between the two. *)
Theorem queue_is_fifo n q s :
  make_queue n = Some q -> rtc step (start q) s ->
  exists c, s = running c /\ written c = consumed c ++ elements c /\
    (length (elements c) <= capacity (queue c))%nat.
Proof.
  intros Hq Hr. pose proof (reachable_holds _ _ _ Hq Hr) as Hok. destruct s as [c|]; [|done].
  destruct Hok as [xs Hh]. exists c. rewrite (holds_elements _ _ Hh). split; [done|].
  split; [apply Hh|]. unfold capacity. pose proof (holds_bound _ _ Hh). lia.
Qed.

(** The answers are right at the moment of the load that decides them: [write] refuses
    exactly when the queue holds [capacity()] elements, [read] and [frontPtr] report an empty
    queue exactly when it holds none, and the pointer [frontPtr] returns designates the oldest
    element. *)
Theorem queue_answers n q c :
  make_queue n = Some q -> rtc step (start q) (running c) ->
  (forall v cw nx, prod c = P_loaded v cw nx ->
     (exists q' p', write_step (queue c) (prod c) = Some (q', p', P_returns false)) <->
     length (elements c) = capacity (queue c)) /\
  (forall cr, cons_ c = C_read_loaded cr \/ cons_ c = C_front_loaded cr ->
     (exists q' k', consumer_step (queue c) (cons_ c) = Some (q', k', C_empty)) <-> elements c = []) /\
  (forall p, cons_ c = C_holding p -> peek (queue c) p = head (elements c) /\ elements c <> []).
Proof.
  intros Hq Hr. pose proof (reachable_elements _ _ _ Hq Hr) as Hh. split_and!.
  - intros v cw nx Hp. rewrite (producer_loaded _ _ _ _ _ Hh Hp). unfold capacity.
    pose proof (holds_bound _ _ Hh). destruct (Nat.ltb_spec (S (length (elements c))) (size_ (queue c))).
    + split; [by intros (? & ? & ?)|lia].
    + split; [lia|]. by eexists _, _.
  - intros cr Hk. pose proof (holds_consumer _ _ Hh) as Hok. rewrite <- (indices_equal _ _ Hh).
    destruct Hk as [Hk|Hk]; rewrite Hk in *; cbn in Hok |- *; subst cr;
      destruct (Nat.eqb_spec (readIndex_ (queue c)) (writeIndex_ (queue c)));
      (split; [by intros (? & ? & ?)|]); try done; by eexists _, _.
  - intros p Hk. pose proof (holds_consumer _ _ Hh) as Hok. rewrite Hk in Hok. destruct Hok as [-> Hne].
    split; [|done]. destruct (nonempty_cons _ Hne) as (x & xs & E). rewrite E in Hh |- *.
    unfold peek. by rewrite (front_cell _ _ _ Hh) by by rewrite Hk.
Qed.

(** The difference of the indices, as [sizeGuess] computes it. *)
Lemma guess_value n r i : (r < n)%nat -> (i < n)%nat -> Z.of_nat n <= 2 ^ 31 ->
  let ret := i32 (u32 (Z.of_nat (pos n r i) - Z.of_nat r)) in
  u64 (if ret <? 0 then i32 (u32 (u32 ret + Z.of_nat n)) else ret) = Z.of_nat i.
Proof.
  intros Hr Hi Hn. cbv zeta. rewrite swrap_wrap by lia. unfold pos.
  destruct (Nat.ltb_spec (r + i) n).
  - rewrite swrap_small by (unfold is_sint; lia).
    destruct (Z.ltb_spec (Z.of_nat (r + i) - Z.of_nat r) 0); [lia|].
    rewrite wrap_small by (unfold is_uint; lia). lia.
  - rewrite swrap_small by (unfold is_sint; lia).
    destruct (Z.ltb_spec (Z.of_nat (r + i - n) - Z.of_nat r) 0); [|lia].
    rewrite swrap_wrap by lia.
    assert (i32 (u32 (Z.of_nat (r + i - n) - Z.of_nat r) + Z.of_nat n) = Z.of_nat i) as ->.
    { rewrite <- (swrap_wrap 32) by lia. unfold wrap. rewrite Zplus_mod_idemp_l.
      rewrite swrap_small; unfold is_sint.
      - rewrite Z.mod_small; lia.
      - lia.
      - pose proof (Z.mod_small (Z.of_nat (r + i - n) - Z.of_nat r + Z.of_nat n) (2 ^ 32)). lia. }
    apply wrap_small. unfold is_uint. lia.
Qed.

(** Called when no operation is in progress, or by the thread whose index cannot move, the
    observers describe the queue: [isEmpty] and [isFull] tell whether it holds no element or
    [capacity()] of them, and [sizeGuess] is the number of elements, for every queue of at most
    [2 ^ 31] cells. *)
Theorem queue_observers n q c :
  make_queue n = Some q -> rtc step (start q) (running c) -> Z.of_nat (size_ (queue c)) <= 2 ^ 31 ->
  isEmpty (queue c) = bool_decide (elements c = []) /\
  isFull (queue c) = bool_decide (length (elements c) = capacity (queue c)) /\
  sizeGuess (queue c) = Z.of_nat (length (elements c)).
Proof.
  intros Hq Hr Hn. pose proof (reachable_elements _ _ _ Hq Hr) as Hh.
  pose proof (holds_bound _ _ Hh) as Hb. pose proof (holds_read _ _ Hh) as Hrd. split_and!.
  - unfold isEmpty. pose proof (indices_equal _ _ Hh) as Hiff.
    destruct (Nat.eqb_spec (readIndex_ (queue c)) (writeIndex_ (queue c)));
      symmetry; [apply bool_decide_eq_true_2|apply bool_decide_eq_false_2]; tauto.
  - unfold isFull, capacity. rewrite negb_involutive. pose proof (write_index_room _ _ Hh) as Hiff.
    destruct (Nat.eqb_spec (next_record (queue c) (writeIndex_ (queue c))) (readIndex_ (queue c)));
      symmetry; [apply bool_decide_eq_true_2|apply bool_decide_eq_false_2]; lia.
  - unfold sizeGuess. rewrite (holds_write _ _ Hh). by apply guess_value.
Qed.

Lemma pos_surj n r j : (r < n)%nat -> (j < n)%nat -> exists i, (i < n)%nat /\ pos n r i = j.
Proof.
  intros Hr Hj. unfold pos. destruct (decide (r <= j)%nat).
  - exists (j - r)%nat. destruct (Nat.ltb_spec (r + (j - r)) n); lia.
  - exists (j + n - r)%nat. destruct (Nat.ltb_spec (r + (j + n - r)) n); lia.
Qed.

Lemma destroy_loop_spec fuel q r xs :
  (r < size_ q)%nat -> (length xs < size_ q)%nat -> (length xs <= fuel)%nat -> length (records_ q) = size_ q ->
  (forall i, (i < size_ q)%nat -> records_ q !! pos (size_ q) r i = Some (xs !! i)) ->
  exists q', destroy_loop fuel q r (pos (size_ q) r (length xs)) = Some q' /\
    Forall (eq None) (records_ q').
Proof.
  revert q r xs. induction fuel as [|fuel IH]; intros q r xs Hr Hx Hf Hlen Hcells; cbn [destroy_loop];
    (destruct xs as [|x xs]; cbn [length] in *; [rewrite pos_0, Nat.eqb_refl by done; cbn|]); [|lia|..].
  1,2: exists q; split; [done|]; apply Forall_lookup; intros j y Hj;
    pose proof (lookup_lt_Some _ _ _ Hj) as Hjl; rewrite Hlen in Hjl;
    destruct (pos_surj _ _ _ Hr Hjl) as (i & Hi & Hpos); specialize (Hcells i Hi);
    rewrite Hpos, Hj, lookup_nil in Hcells; congruence.
  destruct (Nat.eqb_spec r (pos (size_ q) r (S (length xs)))) as [E|_]; cbn [negb].
  { symmetry in E. apply pos_eq_r in E; lia. }
  pose proof (Hcells 0%nat ltac:(lia)) as H0. rewrite pos_0 in H0 by done.
  unfold destroy. rewrite H0. cbn -[next_record]. set (q1 := set_records _ q).
  rewrite <- (pos_next q) by lia. change (size_ q) with (size_ q1). change (next_record q r) with (next_record q1 r).
  apply (IH q1 (next_record q1 r) xs).
  - unfold next_record. cbn. destruct (Nat.eqb_spec (r + 1) (size_ q)); lia.
  - cbn. lia.
  - lia.
  - cbn. by rewrite length_insert.
  - intros i Hi. rewrite pos_next by done. cbn in Hi |- *.
    destruct (decide (S i = size_ q)) as [E|Hne].
    + rewrite E, pos_full, list_lookup_insert_eq by (rewrite Hlen; done).
      rewrite lookup_ge_None_2 by lia. done.
    + rewrite list_lookup_insert_ne; [apply (Hcells (S i)); lia|].
      intros E. symmetry in E. apply pos_eq_r in E; lia.
Qed.

(** The destructor, run when neither thread is inside an operation, terminates, destroys
    each element that is still queued exactly once and leaves no object behind. *)
Theorem destructor_leaves_nothing n q c :
  make_queue n = Some q -> rtc step (start q) (running c) ->
  prod c = P_idle -> cons_ c = C_idle ->
  exists q', destruct_queue (queue c) = Some q' /\ Forall (eq None) (records_ q').
Proof.
  intros Hq Hr Hp Hk. pose proof (reachable_elements _ _ _ Hq Hr) as Hh.
  unfold destruct_queue. rewrite (holds_write _ _ Hh).
  pose proof (holds_bound _ _ Hh). apply destroy_loop_spec; try apply Hh; [lia|].
  intros i Hi. rewrite (holds_cells _ _ Hh), Hp, Hk by done. unfold cell. cbn.
  rewrite andb_false_r. destruct (elements c !! i); [done|]. by destruct (i =? _)%nat.
Qed.
End Theorems.

(** ** Witnesses *)

Definition q2 : ProducerConsumerQueue Z := mkQueue 2 [None; None] 0 0.

(** One element written, up to the return of [write]. *)
Definition c1 : config Z := mkConfig (mkQueue 2 [Some 7; None] 0 1) P_idle C_idle [7] [].

Lemma c1_reachable : rtc step (start q2) (running c1).
Proof.
  eapply rtc_l; [by apply (step_write (mkConfig q2 P_idle C_idle [] []) 7)|].
  eapply rtc_l; [by apply step_producer|]. cbn.
  eapply rtc_l; [by apply step_producer|]. cbn.
  eapply rtc_l; [by apply step_producer|]. apply rtc_refl.
Qed.

Lemma queue_is_fifo_witness :
  exists c, running c1 = running c /\ written c = consumed c ++ elements c /\
    (length (elements c) <= capacity (queue c))%nat.
Proof. apply (queue_is_fifo 2 q2); [reflexivity|apply c1_reachable]. Defined.

(** The consumer then called [frontPtr] and holds a pointer to the element. *)
Definition c2 : config Z := mkConfig (mkQueue 2 [Some 7; None] 0 1) P_idle (C_holding 0) [7] [].

Lemma c2_reachable : rtc step (start q2) (running c2).
Proof.
  etrans; [apply c1_reachable|].
  eapply rtc_l; [by apply (step_front c1)|].
  eapply rtc_l; [by apply step_consumer|]. apply rtc_refl.
Qed.

Lemma queue_answers_witness :
  peek (queue c2) 0 = head (elements c2) /\ elements c2 <> [].
Proof. apply (queue_answers 2 q2); [reflexivity|apply c2_reachable|reflexivity]. Defined.

Lemma queue_observers_witness :
  isEmpty (queue c1) = bool_decide (elements c1 = []) /\
  isFull (queue c1) = bool_decide (length (elements c1) = capacity (queue c1)) /\
  sizeGuess (queue c1) = Z.of_nat (length (elements c1)).
Proof. apply (queue_observers 2 q2); [reflexivity|apply c1_reachable|simpl; lia]. Defined.

Lemma destructor_leaves_nothing_witness :
  exists q', destruct_queue (queue c1) = Some q' /\ Forall (eq None) (records_ q').
Proof. apply (destructor_leaves_nothing 2 q2); [reflexivity|apply c1_reachable|done|done]. Defined.
