(* ===== verification/FutureCore.v ===== *)
(** * The shared state of a promise and a future: the code

    Models [folly/futures/detail/Core.h] and [folly/futures/detail/Core.cpp]: the state machine of
    [CoreBase] ([setCallback_], [setResult_], [setProxy_], [doCallback], [proxyCallback]), its two
    reference counts ([detachOne], [derefCallback], [CoreAndCallbackReference]) and destructor,
    [KeepAliveOrDeferred] and [DeferredExecutor].

    The functions are programs of a free monad whose nodes are the single accesses to memory: each
    load, store, exchange, compare-exchange and fetch-add of the source is one [Atomic] node, so
    that the threads of a configuration interleave between any two of them (in a sequentially
    consistent order; the memory-order arguments are not modelled).  [None] in an atomic node is
    undefined behaviour: the use of a deleted object, a null dereference, a failed assertion, a call
    of [terminate_unexpected_state].

    Executors and callbacks are code of the library's clients.  [Executor::add] may run the
    function in the call, in another thread, drop it at once or later, or throw without running
    it, and the choice is left open at every call ([executor_add]); a callback is the event
    [EInvoked] of the trace.  The reference counts of executors behind [Executor::KeepAlive] are the
    executors' own and are not part of the state.  The interrupt word of the core and
    the functions that use it are not modelled. *)
From S2P Require Import Prelude.

(** ** States *)

Inductive State :=
| Start | OnlyResult | OnlyCallback | OnlyCallbackAllowInline | Proxy | Done | Empty.

#[global] Instance State_eq_dec : EqDecision State.
Proof. solve_decision. Defined.

(** The [uint8_t] value of a state. *)
Definition state_bits (s : State) : Z :=
  match s with
  | Start => 1 .<< 0
  | OnlyResult => 1 .<< 1
  | OnlyCallback => 1 .<< 2
  | OnlyCallbackAllowInline => 1 .<< 3
  | Proxy => 1 .<< 4
  | Done => 1 .<< 5
  | Empty => 1 .<< 6
  end.

Inductive InlineContinuation := permit | forbid.

(** Identities of callbacks, request contexts, executors and exceptions; addresses. *)
Abbreviation Callback := Z.
Abbreviation Context := Z.
Abbreviation Executor := Z.
Abbreviation exception_wrapper := Z.
Abbreviation loc := positive.

(** [Executor::KeepAlive<>]: a possibly null pointer to an executor. *)
Abbreviation KeepAlive := (option Executor).

Inductive Try := Value (v : Z) | Exception (e : exception_wrapper).
#[global] Instance Try_inhabited : Inhabited Try := populate (Value 0).

(** [DeferredWrapper]: a possibly null pointer to a deferred executor. *)
Abbreviation DeferredWrapper := (option loc).

Inductive KeepAliveOrDeferred :=
| Deferred (deferred_ : DeferredWrapper)
| KeepAliveE (keepAlive_ : KeepAlive).

Definition getDeferredExecutor (x : KeepAliveOrDeferred) : option loc :=
  match x with Deferred d => d | KeepAliveE _ => None end.

Definition getKeepAliveExecutor (x : KeepAliveOrDeferred) : option Executor :=
  match x with Deferred _ => None | KeepAliveE k => k end.

Definition stealKeepAlive (x : KeepAliveOrDeferred) : KeepAlive :=
  match x with Deferred _ => None | KeepAliveE k => k end.

Definition stealDeferred (x : KeepAliveOrDeferred) : DeferredWrapper :=
  match x with Deferred d => d | KeepAliveE _ => None end.

(** [explicit operator bool]. *)
Definition kod_bool (x : KeepAliveOrDeferred) : bool :=
  bool_decide (is_Some (getDeferredExecutor x)) || bool_decide (is_Some (getKeepAliveExecutor x)).

(** ** Memory *)

(** A core.  [result_] is [None] while the union holds no object, [proxy_] while it is
    uninitialised, and [callback_] when the function object is empty. *)
Record Core := mkCore {
  callback_ : option Callback;
  state_ : State;
  attached_ : Z;
  callbackReferences_ : Z;
  executor_ : KeepAliveOrDeferred;
  context_ : option Context;
  proxy_ : option loc;
  result_ : option Try
}.

Inductive DState := EMPTY | HAS_FUNCTION | HAS_EXECUTOR | DETACHED.

#[global] Instance DState_eq_dec : EqDecision DState.
Proof. solve_decision. Defined.

(** A deferred executor.  The functions it is given are the lambdas of [doCallback], closures over
    a [CoreAndCallbackReference], and are represented by the core they refer to. *)
Record DeferredExecutor := mkDeferred {
  dstate_ : DState;
  func_ : option loc;
  dexecutor_ : KeepAlive;
  nestedExecutors_ : option (list loc);
  keepAliveCount_ : Z
}.

(** What can be observed of a run: a callback invoked in a request context, with the exception it
    is passed when the executor threw, and the result; a callback and its context lost because an
    executor dropped the function without running it. *)
Inductive event :=
| EInvoked (cb : Callback) (cx : option Context) (ew : option exception_wrapper) (t : Try)
| EDropped (cb : Callback) (cx : option Context).

Record mem := mkMem {
  cores : gmap loc Core;
  deferreds : gmap loc DeferredExecutor;
  trace : list event
}.

Definition set_callback v (r : Core) :=
  mkCore v (state_ r) (attached_ r) (callbackReferences_ r) (executor_ r) (context_ r) (proxy_ r) (result_ r).
Definition set_state v (r : Core) :=
  mkCore (callback_ r) v (attached_ r) (callbackReferences_ r) (executor_ r) (context_ r) (proxy_ r) (result_ r).
Definition set_attached v (r : Core) :=
  mkCore (callback_ r) (state_ r) v (callbackReferences_ r) (executor_ r) (context_ r) (proxy_ r) (result_ r).
Definition set_callbackReferences v (r : Core) :=
  mkCore (callback_ r) (state_ r) (attached_ r) v (executor_ r) (context_ r) (proxy_ r) (result_ r).
Definition set_executor v (r : Core) :=
  mkCore (callback_ r) (state_ r) (attached_ r) (callbackReferences_ r) v (context_ r) (proxy_ r) (result_ r).
Definition set_context v (r : Core) :=
  mkCore (callback_ r) (state_ r) (attached_ r) (callbackReferences_ r) (executor_ r) v (proxy_ r) (result_ r).
Definition set_proxy v (r : Core) :=
  mkCore (callback_ r) (state_ r) (attached_ r) (callbackReferences_ r) (executor_ r) (context_ r) v (result_ r).
Definition set_result v (r : Core) :=
  mkCore (callback_ r) (state_ r) (attached_ r) (callbackReferences_ r) (executor_ r) (context_ r) (proxy_ r) v.

Definition set_dstate v (r : DeferredExecutor) :=
  mkDeferred v (func_ r) (dexecutor_ r) (nestedExecutors_ r) (keepAliveCount_ r).
Definition set_func v (r : DeferredExecutor) :=
  mkDeferred (dstate_ r) v (dexecutor_ r) (nestedExecutors_ r) (keepAliveCount_ r).
Definition set_dexecutor v (r : DeferredExecutor) :=
  mkDeferred (dstate_ r) (func_ r) v (nestedExecutors_ r) (keepAliveCount_ r).
Definition set_nestedExecutors v (r : DeferredExecutor) :=
  mkDeferred (dstate_ r) (func_ r) (dexecutor_ r) v (keepAliveCount_ r).
Definition set_keepAliveCount v (r : DeferredExecutor) :=
  mkDeferred (dstate_ r) (func_ r) (dexecutor_ r) (nestedExecutors_ r) v.

Definition set_cores v (m : mem) := mkMem v (deferreds m) (trace m).
Definition set_deferreds v (m : mem) := mkMem (cores m) v (trace m).
Definition set_trace v (m : mem) := mkMem (cores m) (deferreds m) v.

(** ** Programs *)

(** The functions that call each other recursively. *)
Inductive fn :=
| F_setCallback_ (c : loc) (callback : option Callback) (context : option Context)
    (allowInline : InlineContinuation)
| F_hasResult (c : loc)
| F_detachOne (c : loc)
| F_setExecutor (d : loc) (executor : KeepAlive) (inlineUnsafe : bool)
| F_detach (d : loc)
| F_release (d : loc).

(** What a call returns: a value, where there is one, or the exception it ends with. *)
Abbreviation answer := (result exception_wrapper bool).

Inductive prog (A : Type) : Type :=
| Ret (a : A)
| Atomic {X : Type} (f : mem -> option (X * mem)) (k : X -> prog A)
| Any {X : Type} (x0 : X) (k : X -> prog A)
| Fork (p : prog unit) (k : prog A)
| Call (f : fn) (k : answer -> prog A).
Arguments Ret {A} _.
Arguments Atomic {A X} _ _.
Arguments Any {A X} _ _.
Arguments Fork {A} _ _.
Arguments Call {A} _ _.

Fixpoint prog_bind {A B} (g : A -> prog B) (p : prog A) : prog B :=
  match p with
  | Ret a => g a
  | Atomic f k => Atomic f (fun x => prog_bind g (k x))
  | Any x0 k => Any x0 (fun x => prog_bind g (k x))
  | Fork q k => Fork q (prog_bind g k)
  | Call f k => Call f (fun x => prog_bind g (k x))
  end.

#[global] Instance prog_ret : MRet prog := fun A a => Ret a.
#[global] Instance prog_mbind : MBind prog := fun A B g p => prog_bind g p.

Definition atomic {X} (f : mem -> option (X * mem)) : prog X := Atomic f Ret.
Definition call (f : fn) : prog answer := Call f Ret.
Definition call_ (f : fn) : prog unit := Call f (fun _ => Ret tt).
Definition fork (p : prog unit) : prog unit := Fork p (Ret tt).
(** Any value of [X]; [inhabitant] is the one that executable runs take. *)
Definition any (X : Type) `{Inhabited X} : prog X := Any inhabitant Ret.

(** [terminate_unexpected_state], [terminate_with] and null dereferences end the program. *)
Definition terminate {X} : prog X := atomic (fun _ => None).
Definition dcheck (b : bool) : prog unit := if b then Ret tt else terminate.

(** One atomic read-modify-write of a core, of a deferred executor. *)
Definition core_rmw {X} (c : loc) (g : Core -> option (X * Core)) : prog X :=
  atomic (fun m => r ← cores m !! c; '(x, r') ← g r; Some (x, set_cores (<[c := r']> (cores m)) m)).
Definition core_get {X} (c : loc) (g : Core -> X) : prog X := core_rmw c (fun r => Some (g r, r)).
Definition core_upd (c : loc) (g : Core -> Core) : prog unit := core_rmw c (fun r => Some (tt, g r)).
Definition core_exchange {X} (c : loc) (g : Core -> X) (u : Core -> Core) : prog X :=
  core_rmw c (fun r => Some (g r, u r)).

(** [atomic_compare_exchange_strong]: success, and the value found. *)
Definition cas_state (c : loc) (expected desired : State) : prog (bool * State) :=
  core_rmw c (fun r => if decide (state_ r = expected)
                       then Some ((true, expected), set_state desired r)
                       else Some ((false, state_ r), r)).

Definition def_rmw {X} (d : loc) (g : DeferredExecutor -> option (X * DeferredExecutor)) : prog X :=
  atomic (fun m => r ← deferreds m !! d; '(x, r') ← g r;
                   Some (x, set_deferreds (<[d := r']> (deferreds m)) m)).
Definition def_get {X} (d : loc) (g : DeferredExecutor -> X) : prog X := def_rmw d (fun r => Some (g r, r)).
Definition def_upd (d : loc) (g : DeferredExecutor -> DeferredExecutor) : prog unit :=
  def_rmw d (fun r => Some (tt, g r)).
Definition def_exchange {X} (d : loc) (g : DeferredExecutor -> X) (u : DeferredExecutor -> DeferredExecutor) : prog X :=
  def_rmw d (fun r => Some (g r, u r)).
Definition cas_dstate (d : loc) (expected desired : DState) : prog (bool * DState) :=
  def_rmw d (fun r => if decide (dstate_ r = expected)
                      then Some ((true, expected), set_dstate desired r)
                      else Some ((false, dstate_ r), r)).

Definition fetch_add_attached (c : loc) (n : Z) : prog Z :=
  core_rmw c (fun r => Some (attached_ r, set_attached (u8 (attached_ r + n)) r)).
Definition fetch_add_callbackReferences (c : loc) (n : Z) : prog Z :=
  core_rmw c (fun r => Some (callbackReferences_ r, set_callbackReferences (u8 (callbackReferences_ r + n)) r)).
Definition fetch_add_keepAliveCount (d : loc) (n : Z) : prog Z :=
  def_rmw d (fun r => Some (keepAliveCount_ r, set_keepAliveCount (i64 (keepAliveCount_ r + n)) r)).

(** The address the allocator returns for an object of a map: any unused one. *)
Definition new_loc {V} (h : gmap loc V) (l : loc) : loc :=
  if decide (h !! l = None) then l else fresh (dom h).

(** ** Lifetime of deferred executors *)

Definition DeferredExecutor_create : prog loc :=
  l ← any loc;
  atomic (fun m => let d := new_loc (deferreds m) l in
                   Some (d, set_deferreds (<[d := mkDeferred EMPTY None None None 1]> (deferreds m)) m)).

Definition acquire (d : loc) : prog unit :=
  keepAliveCount ← fetch_add_keepAliveCount d 1; dcheck (0 <? keepAliveCount).

Definition DeferredExecutor_copy (d : loc) : prog loc := acquire d;; Ret d.

(** The destructor of a [DeferredWrapper] ([UniqueDeleter]). *)
Definition destroy_wrapper (w : DeferredWrapper) : prog unit :=
  match w with Some d => call_ (F_release d) | None => Ret tt end.

Definition destroy_kod (x : KeepAliveOrDeferred) : prog unit := destroy_wrapper (getDeferredExecutor x).

(** What is left in a [KeepAliveOrDeferred] that was moved from. *)
Definition moved_from (x : KeepAliveOrDeferred) : KeepAliveOrDeferred :=
  match x with Deferred _ => Deferred None | KeepAliveE _ => KeepAliveE None end.

Definition kod_copy (x : KeepAliveOrDeferred) : prog KeepAliveOrDeferred :=
  match x with
  | Deferred (Some def) => d ← DeferredExecutor_copy def; Ret (Deferred (Some d))
  | Deferred None => Ret (Deferred None)
  | KeepAliveE k => Ret (KeepAliveE k)
  end.

(** ** Lifetime of cores *)

(** [Core::make()] and [Core::make(Try&&)]. *)
Definition make : prog loc :=
  l ← any loc;
  atomic (fun m => let c := new_loc (cores m) l in
    Some (c, set_cores (<[c := mkCore None Start 2 0 (Deferred None) None None None]> (cores m)) m)).

Definition make_value (t : Try) : prog loc :=
  l ← any loc;
  atomic (fun m => let c := new_loc (cores m) l in
    Some (c, set_cores (<[c := mkCore None OnlyResult 1 0 (Deferred None) None None (Some t)]> (cores m)) m)).

(** The core a core is proxied to. *)
Definition get_proxy (c : loc) : prog loc :=
  p ← core_get c proxy_; match p with Some p => Ret p | None => terminate end.

Definition hasResult_body (c : loc) : prog answer :=
  state ← core_get c state_;
  if decide (state = Proxy) then p ← get_proxy c; call (F_hasResult p)
  else Ret (Ok (negb (state_bits state .& (state_bits OnlyResult .| state_bits Done) =? 0))).

Definition hasCallback (c : loc) : prog bool :=
  state ← core_get c state_;
  Ret (negb (state_bits state .&
    (state_bits OnlyCallback .| state_bits OnlyCallbackAllowInline .| state_bits Done .| state_bits Empty) =? 0)).

Definition destroyDerived (c : loc) : prog bool :=
  a ← core_get c attached_; dcheck (a =? 0);;
  state ← core_get c state_;
  match state with
  | OnlyResult | Done => Ret true
  | Proxy => p ← get_proxy c; call_ (F_detachOne p);; Ret false
  | Empty => Ret false
  | Start | OnlyCallback | OnlyCallbackAllowInline => terminate
  end.

(** [delete this]: [~Core], the destructors of the members, the release of the memory. *)
Definition delete_core (c : loc) : prog unit :=
  b ← destroyDerived c;
  (if (b : bool) then core_rmw c (fun r => match result_ r with
                                           | Some _ => Some (tt, set_result None r)
                                           | None => None
                                           end)
   else Ret tt);;
  executor ← core_get c executor_;
  destroy_kod executor;;
  atomic (fun m => _ ← cores m !! c; Some (tt, set_cores (delete c (cores m)) m)).

Definition detachOne_body (c : loc) : prog unit :=
  a ← fetch_add_attached c (-1);
  dcheck (1 <=? a);;
  if a =? 1 then delete_core c else Ret tt.

Definition detachOne (c : loc) : prog unit := call_ (F_detachOne c).

Definition derefCallback (c : loc) : prog unit :=
  r ← fetch_add_callbackReferences c (-1);
  dcheck (1 <=? r);;
  if r =? 1 then core_upd c (set_context None);; core_upd c (set_callback None) else Ret tt.

(** [CoreAndCallbackReference::detach], run by the destructor of a reference that was not moved
    from. *)
Definition reference_detach (c : loc) : prog unit := derefCallback c;; detachOne c.

(** ** Running a callback *)

(** An event about core [c] is recorded in the trace. *)
Definition record_event (c : loc) (f : Core -> option event) : prog unit :=
  atomic (fun m => r ← cores m !! c; e ← f r; Some (tt, set_trace (trace m ++ [e]) m)).

(** The call of [callback_]: [setCallbackGetResult], then the function given to [setCallback], which
    may do what it likes with the result it is given. *)
Definition invoke (c : loc) (cx : option Context) (ew : option exception_wrapper) : prog unit :=
  callback ← core_get c callback_;
  match callback with
  | None => terminate
  | Some cb =>
      match ew with
      | Some e => core_rmw c (fun r => match result_ r with
                                       | Some _ => Some (tt, set_result (Some (Exception e)) r)
                                       | None => None
                                       end)
      | None => Ret tt
      end;;
      record_event c (fun r => t ← result_ r; Some (EInvoked cb cx ew t));;
      t' ← any Try;
      core_upd c (set_result (Some t'))
  end.

(** The lambda [doCallback] gives to an executor, run on the core it refers to. *)
Definition run_func (f : loc) : prog unit :=
  cx ← core_exchange f context_ (set_context None);
  invoke f cx None;;
  reference_detach f.

(** The destructor of a lambda that was not run. *)
Definition destroy_func (f : loc) : prog unit := reference_detach f.

(** The same where the callback is lost with it. *)
Definition drop_func (f : loc) : prog unit :=
  record_event f (fun r => cb ← callback_ r; Some (EDropped cb (context_ r)));;
  destroy_func f.

Definition drop_func_opt (f : option loc) : prog unit :=
  match f with Some f => drop_func f | None => Ret tt end.

(** What an executor does with a function.  An executor that throws has not run it; the caller
    destroys it. *)
Inductive add_choice := RunInCall | RunInThread | DropInCall | DropInThread | ThrowFromAdd (e : exception_wrapper).
#[global] Instance add_choice_inhabited : Inhabited add_choice := populate RunInCall.

Definition executor_add (ka : KeepAlive) (f : loc) : prog answer :=
  match ka with
  | None => terminate
  | Some _ =>
      choice ← any add_choice;
      match choice with
      | RunInCall => run_func f;; Ret (Ok true)
      | RunInThread => fork (run_func f);; Ret (Ok true)
      | DropInCall => drop_func f;; Ret (Ok true)
      | DropInThread => fork (drop_func f);; Ret (Ok true)
      | ThrowFromAdd e => Ret (Err e)
      end
  end.

(** ** Deferred executors *)

Definition addWithInline (d : loc) (completingKA : KeepAlive) (addFunc : loc) : prog answer :=
  ka ← def_get d dexecutor_;
  if decide (completingKA = ka) then run_func addFunc;; Ret (Ok true)
  else ka' ← def_get d dexecutor_; executor_add ka' addFunc.

Definition addFrom (d : loc) (completingKA : KeepAlive) (func : loc) : prog answer :=
  state ← def_get d dstate_;
  match state with
  | DETACHED => drop_func func;; Ret (Ok true)
  | HAS_EXECUTOR => addWithInline d completingKA func
  | HAS_FUNCTION => terminate
  | EMPTY =>
      old ← def_exchange d func_ (set_func (Some func));
      drop_func_opt old;;
      res ← cas_dstate d EMPTY HAS_FUNCTION;
      if (res.1 : bool) then Ret (Ok true)
      else match res.2 with
           | DETACHED => f ← def_exchange d func_ (set_func None); drop_func_opt f;; Ret (Ok true)
           | HAS_EXECUTOR =>
               f ← def_exchange d func_ (set_func None);
               match f with Some f => addWithInline d completingKA f | None => terminate end
           | EMPTY | HAS_FUNCTION => terminate
           end
  end.

Definition setNestedExecutors (d : loc) (executors : list loc) : prog unit :=
  n ← def_get d nestedExecutors_; dcheck (bool_decide (n = None));;
  def_upd d (set_nestedExecutors (Some executors)).

(** The loops over the nested executors, and the destructor of the vector that held them. *)
Fixpoint set_nested (executor : KeepAlive) (ds : list loc) : prog answer :=
  match ds with
  | [] => Ret (Ok true)
  | d :: ds =>
      res ← call (F_setExecutor d executor false);
      match res with Ok _ => set_nested executor ds | Err e => Ret (Err e) end
  end.

Fixpoint detach_nested (ds : list loc) : prog unit :=
  match ds with [] => Ret tt | d :: ds => call_ (F_detach d);; detach_nested ds end.

Fixpoint destroy_nested (ds : list loc) : prog unit :=
  match ds with [] => Ret tt | d :: ds => destroy_wrapper (Some d);; destroy_nested ds end.

(** The state a setter leaves: the exchange from [EMPTY], else from [HAS_FUNCTION]. Returns whether
    there was a function. *)
Definition leave_empty (d : loc) (desired : DState) : prog bool :=
  state ← def_get d dstate_;
  res ← (if decide (state = EMPTY) then cas_dstate d EMPTY desired else Ret (false, state));
  if (res.1 : bool) then Ret false
  else if decide (res.2 = HAS_FUNCTION) then
    res' ← cas_dstate d HAS_FUNCTION desired;
    if (res'.1 : bool) then Ret true else terminate
  else terminate.

Definition setExecutor_body (d : loc) (executor : KeepAlive) (inlineUnsafe : bool) : prog answer :=
  nested ← def_get d nestedExecutors_;
  res ← match nested with
        | None => Ret (Ok true)
        | Some _ =>
            nestedExecutors ← def_exchange d nestedExecutors_ (set_nestedExecutors None);
            res ← set_nested executor (default [] nestedExecutors);
            destroy_nested (default [] nestedExecutors);;
            Ret res
        end;
  match res with
  | Err e => Ret (Err e)
  | Ok _ =>
      def_upd d (set_dexecutor executor);;
      has_function ← leave_empty d HAS_EXECUTOR;
      if (has_function : bool) then
        func ← def_exchange d func_ (set_func None);
        ka ← def_get d dexecutor_;
        match func with
        | None => terminate
        | Some f =>
            if inlineUnsafe then run_func f;; Ret (Ok true)
            else res ← executor_add ka f;
                 match res with
                 | Ok _ => Ret (Ok true)
                 | Err e => drop_func f;; Ret (Err e)
                 end
        end
      else Ret (Ok true)
  end.

Definition detach_body (d : loc) : prog unit :=
  nested ← def_get d nestedExecutors_;
  match nested with
  | None => Ret tt
  | Some _ =>
      nestedExecutors ← def_exchange d nestedExecutors_ (set_nestedExecutors None);
      detach_nested (default [] nestedExecutors);;
      destroy_nested (default [] nestedExecutors)
  end;;
  has_function ← leave_empty d DETACHED;
  if (has_function : bool) then f ← def_exchange d func_ (set_func None); drop_func_opt f
  else Ret tt.

(** [delete this]: the destructors of [nestedExecutors_] and of [func_]. *)
Definition delete_deferred (d : loc) : prog unit :=
  nested ← def_get d nestedExecutors_;
  destroy_nested (default [] nested);;
  func ← def_get d func_;
  drop_func_opt func;;
  atomic (fun m => _ ← deferreds m !! d; Some (tt, set_deferreds (delete d (deferreds m)) m)).

Definition release_body (d : loc) : prog unit :=
  keepAliveCount ← fetch_add_keepAliveCount d (-1);
  dcheck (0 <? keepAliveCount);;
  if keepAliveCount =? 1 then delete_deferred d else Ret tt.

(** ** The state machine of a core *)

Definition doAdd (addCompletingKA : KeepAlive) (currentExecutor : KeepAliveOrDeferred) (f : loc) : prog answer :=
  match getDeferredExecutor currentExecutor with
  | Some deferredExecutorPtr => addFrom deferredExecutorPtr addCompletingKA f
  | None =>
      let currentKeepAlive := stealKeepAlive currentExecutor in
      if decide (addCompletingKA = currentKeepAlive) then run_func f;; Ret (Ok true)
      else executor_add currentKeepAlive f
  end.

Definition doCallback (c : loc) (completingKA : KeepAlive) (priorState : State) : prog unit :=
  s ← core_get c state_; dcheck (bool_decide (s = Done));;
  executor ← core_exchange c executor_ (set_executor (Deferred None));
  if kod_bool executor then
    let completingKA := if decide (priorState = OnlyCallbackAllowInline) then completingKA else None in
    fetch_add_attached c 2;;
    fetch_add_callbackReferences c 2;;
    res ← doAdd completingKA executor c;
    match res with
    | Ok _ => Ret tt
    | Err ew =>
        destroy_func c;;
        cx ← core_exchange c context_ (set_context None);
        invoke c cx (Some ew)
    end;;
    reference_detach c;;
    destroy_kod (match executor with Deferred _ => executor | KeepAliveE _ => moved_from executor end)
  else
    fetch_add_attached c 1;;
    cx ← core_exchange c context_ (set_context None);
    invoke c cx None;;
    core_upd c (set_context None);;
    core_upd c (set_callback None);;
    detachOne c.

Definition core_setExecutor (c : loc) (x : KeepAliveOrDeferred) : prog unit :=
  s ← core_get c state_; dcheck (bool_decide (s <> OnlyCallback));;
  s ← core_get c state_; dcheck (bool_decide (s <> OnlyCallbackAllowInline));;
  old ← core_exchange c executor_ (set_executor x);
  destroy_kod old.

Definition stealDeferredExecutor (c : loc) : prog DeferredWrapper :=
  x ← core_get c executor_;
  match x with
  | KeepAliveE _ => Ret None
  | Deferred _ => y ← core_exchange c executor_ (fun r => set_executor (moved_from (executor_ r)) r);
                  Ret (stealDeferred y)
  end.

Definition proxyCallback (c : loc) (priorState : State) : prog unit :=
  let allowInline := if decide (priorState = OnlyCallbackAllowInline) then permit else forbid in
  p ← get_proxy c;
  x ← core_exchange c executor_ (fun r => set_executor (moved_from (executor_ r)) r);
  core_setExecutor p x;;
  p ← get_proxy c;
  callback ← core_exchange c callback_ (set_callback None);
  context ← core_exchange c context_ (set_context None);
  call_ (F_setCallback_ p callback context allowInline);;
  p ← get_proxy c;
  detachOne p;;
  core_upd c (set_context None);;
  core_upd c (set_callback None).

Definition setCallback_body (c : loc) (callback : option Callback) (context : option Context)
    (allowInline : InlineContinuation) : prog unit :=
  has ← hasCallback c; dcheck (negb has);;
  core_upd c (set_callback callback);;
  core_upd c (set_context context);;
  state ← core_get c state_;
  let nextState := match allowInline with permit => OnlyCallbackAllowInline | forbid => OnlyCallback end in
  res ← (if decide (state = Start) then cas_state c Start nextState else Ret (false, state));
  if (res.1 : bool) then Ret tt
  else match res.2 with
       | OnlyResult =>
           res' ← cas_state c OnlyResult Done;
           if (res'.1 : bool) then doCallback c None OnlyResult else terminate
       | Proxy =>
           res' ← cas_state c Proxy Empty;
           if (res'.1 : bool) then proxyCallback c Proxy else terminate
       | _ => terminate
       end.

Definition setCallback (c : loc) (callback : Callback) (context : option Context)
    (allowInline : InlineContinuation) : prog unit :=
  call_ (F_setCallback_ c (Some callback) context allowInline).

(** The transition of a producer that found a callback. *)
Definition leave_callback (c : loc) (state desired : State) : prog unit :=
  if decide (state <> OnlyCallback /\ state <> OnlyCallbackAllowInline) then terminate
  else res ← cas_state c state desired;
       if (res.1 : bool) then Ret tt else terminate.

Definition setResult_ (c : loc) (completingKA : KeepAlive) : prog unit :=
  state ← core_get c state_;
  match state with
  | Start =>
      res ← cas_state c Start OnlyResult;
      if (res.1 : bool) then Ret tt
      else leave_callback c res.2 Done;; doCallback c completingKA res.2
  | OnlyCallback | OnlyCallbackAllowInline =>
      leave_callback c state Done;; doCallback c completingKA state
  | OnlyResult | Proxy | Done | Empty => terminate
  end.

Definition setResult (c : loc) (completingKA : KeepAlive) (t : Try) : prog unit :=
  core_upd c (set_result (Some t));; setResult_ c completingKA.

Definition setProxy_ (c : loc) (proxy : loc) : prog unit :=
  core_upd c (set_proxy (Some proxy));;
  state ← core_get c state_;
  match state with
  | Start =>
      res ← cas_state c Start Proxy;
      if (res.1 : bool) then Ret tt
      else leave_callback c res.2 Empty;; proxyCallback c res.2
  | OnlyCallback | OnlyCallbackAllowInline =>
      leave_callback c state Empty;; proxyCallback c state
  | OnlyResult | Proxy | Done | Empty => terminate
  end;;
  detachOne c.

Definition detachFuture (c : loc) : prog unit := detachOne c.

Definition detachPromise (c : loc) : prog unit :=
  res ← call (F_hasResult c);
  dcheck (match res with Ok b => b | Err _ => false end);;
  detachOne c.

(** The bodies of the recursive functions. *)
Definition body (f : fn) : prog answer :=
  match f with
  | F_setCallback_ c callback context allowInline =>
      setCallback_body c callback context allowInline;; Ret (Ok true)
  | F_hasResult c => hasResult_body c
  | F_detachOne c => detachOne_body c;; Ret (Ok true)
  | F_setExecutor d executor inlineUnsafe => setExecutor_body d executor inlineUnsafe
  | F_detach d => detach_body d;; Ret (Ok true)
  | F_release d => release_body d;; Ret (Ok true)
  end.

(** ** Interleaved runs *)

(** One step of a thread: the program that is left, the memory, the threads started. *)
Definition thread_step (p : prog unit) (m : mem) (p' : prog unit) (m' : mem) (ts : list (prog unit)) : Prop :=
  match p with
  | Ret _ => False
  | Atomic f k => ts = [] /\ exists x, f m = Some (x, m') /\ p' = k x
  | Any _ k => ts = [] /\ m' = m /\ exists x, p' = k x
  | Fork q k => ts = [q] /\ m' = m /\ p' = k
  | Call f k => ts = [] /\ m' = m /\ p' = (body f ≫= k)
  end.

Record config := mkConfig { threads : list (prog unit); memory : mem }.

Inductive step : config -> config -> Prop :=
| step_thread i p ts m p' m' new :
    ts !! i = Some p -> thread_step p m p' m' new ->
    step (mkConfig ts m) (mkConfig (<[i := p']> ts ++ new) m').

(** A thread whose next access is undefined behaviour or ends the program. *)
Definition wrong (p : prog unit) (m : mem) : Prop :=
  match p with Atomic f _ => f m = None | _ => False end.

(** An executable step of thread [i], and the runs of a schedule. *)
Definition exec_thread (p : prog unit) (m : mem) : option (prog unit * mem * list (prog unit)) :=
  match p with
  | Ret _ => None
  | Atomic f k => '(x, m') ← f m; Some (k x, m', [])
  | Any x k => Some (k x, m, [])
  | Fork q k => Some (k, m, [q])
  | Call f k => Some (body f ≫= k, m, [])
  end.

Definition exec_step (c : config) (i : nat) : option config :=
  p ← threads c !! i; '(p', m', new) ← exec_thread p (memory c);
  Some (mkConfig (<[i := p']> (threads c) ++ new) m').

Fixpoint exec (schedule : list nat) (c : config) : option config :=
  match schedule with [] => Some c | i :: schedule => c' ← exec_step c i; exec schedule c' end.

Lemma exec_thread_step p m p' m' new : exec_thread p m = Some (p', m', new) -> thread_step p m p' m' new.
Proof.
  destruct p as [|X f k|X x k|q k|f k]; cbn; intros H; simplify_eq; eauto.
  destruct (f m) as [[x m'']|] eqn:E; cbn in H; simplify_eq. eauto.
Qed.

Lemma exec_app l l' c : exec (l ++ l') c = exec l c ≫= exec l'.
Proof. revert c. induction l as [|i l IH]; intros c; cbn; [done|]. destruct (exec_step c i); cbn; [apply IH|done]. Qed.

Lemma exec_step_step c i c' : exec_step c i = Some c' -> step c c'.
Proof.
  unfold exec_step. destruct c as [ts m]. cbn. destruct (ts !! i) as [p|] eqn:Hi; cbn; [|done].
  destruct (exec_thread p m) as [[[p' m'] new]|] eqn:Hp; cbn; [|done]. intros [= <-].
  eapply step_thread; [done|]. by apply exec_thread_step.
Qed.

Lemma exec_rtc schedule c c' : exec schedule c = Some c' -> rtc step c c'.
Proof.
  revert c. induction schedule as [|i schedule IH]; intros c; cbn; [by intros [= ->]|].
  destruct (exec_step c i) as [c1|] eqn:E; cbn; [|done]. intros H.
  apply rtc_l with c1; [by eapply exec_step_step|by apply IH].
Qed.

(** The configuration after a schedule that can be run. *)
Definition after (c : config) (schedule : list nat) : config := default c (exec schedule c).
Definition runs (c : config) (schedule : list nat) : bool :=
  match exec schedule c with Some _ => true | None => false end.

Lemma after_rtc c schedule : runs c schedule = true -> rtc step c (after c schedule).
Proof. unfold runs, after. destruct (exec schedule c) eqn:E; [|done]. intros _. by eapply exec_rtc. Qed.

Lemma after_step c schedule i :
  runs c (schedule ++ [i]) = true -> step (after c schedule) (after c (schedule ++ [i])).
Proof.
  unfold runs, after. rewrite exec_app. destruct (exec schedule c) as [c1|]; cbn; [|done].
  destruct (exec_step c1 i) eqn:E; cbn; [|done]. intros _. by eapply exec_step_step.
Qed.
