(* ===== verification/FutureLogic.v ===== *)
(** * A logic for the interleaved programs of [FutureCore]

    A resource logic in the style of concurrent separation logic, for proving the programs of
    [FutureCore] one function at a time.  A resource is a list of tokens.  A thread owns a list, and
    an invariant [I m R] relates the memory to everything owned.  [wp n e Q R]: for [n] steps and
    whatever the other threads own and do, the program [e] run with the tokens [R] does nothing
    wrong, keeps the invariant, changes memory only as [G] allows, and ends with a value and tokens
    that satisfy [Q].  The logic is linear: a thread ends with no tokens, so that what it owned was
    given back. *)
From S2P Require Import Prelude FutureCore.

Section Logic.
Context {tok : Type}.
Variable I : mem -> list tok -> Prop.
Variable G : mem -> mem -> Prop.
Hypothesis I_perm : forall m R R', R ≡ₚ R' -> I m R -> I m R'.

Fixpoint wp (n : nat) : forall {A : Type}, prog A -> (A -> list tok -> Prop) -> list tok -> Prop :=
  fun A e Q R =>
  match n with
  | O => True
  | S n =>
      match e with
      | Ret a => exists R', R ≡ₚ R' /\ Q a R'
      | Atomic f k => forall m F, I m (R ++ F) ->
          exists x m' R', f m = Some (x, m') /\ G m m' /\ I m' (R' ++ F) /\ wp n (k x) Q R'
      | Any _ k => forall x, wp n (k x) Q R
      | Fork q k => exists R1 R2, R ≡ₚ R1 ++ R2 /\ wp n q (fun _ R' => R' = []) R1 /\ wp n k Q R2
      | Call f k => wp n (body f) (fun x R' => wp n (k x) Q R') R
      end
  end.

Lemma wp_perm n {A : Type} (e : prog A) Q R R' : R ≡ₚ R' -> wp n e Q R -> wp n e Q R'.
Proof.
  revert A e Q R R'. induction n as [|n IH]; intros A e Q R R' Hp; [done|].
  destruct e as [a|X f k|X x0 k|q k|f k]; cbn.
  - intros (R'' & ? & ?). exists R''. by rewrite <- Hp.
  - intros H m F HI. apply H. eapply I_perm; [|done]. by rewrite Hp.
  - intros H x. by eapply IH.
  - intros (R1 & R2 & ? & ? & ?). exists R1, R2. by rewrite <- Hp.
  - by apply IH.
Qed.

Lemma wp_mono n {A : Type} (e : prog A) (Q Q' : A -> list tok -> Prop) R :
  (forall a R', Q a R' -> Q' a R') -> wp n e Q R -> wp n e Q' R.
Proof.
  revert A e Q Q' R. induction n as [|n IH]; intros A e Q Q' R HQ; [done|].
  destruct e as [a|X f k|X x0 k|q k|f k]; cbn.
  - intros (R' & ? & ?). eauto.
  - intros H m F HI. destruct (H m F HI) as (x & m' & R' & ? & ? & ? & ?). eauto 8.
  - intros H x. eauto.
  - intros (R1 & R2 & ? & ? & ?). exists R1, R2. eauto.
  - apply IH. intros a R'. by apply IH.
Qed.

Lemma wp_step n {A : Type} (e : prog A) Q R : wp (S n) e Q R -> wp n e Q R.
Proof.
  revert A e Q R. induction n as [|n IH]; intros A e Q R; [done|].
  destruct e as [a|X f k|X x0 k|q k|f k].
  - done.
  - cbn -[wp]. intros H m F HI.
    destruct (H m F HI) as (x & m' & R' & ? & ? & ? & ?). eauto 8.
  - intros H x. apply IH, H.
  - intros (R1 & R2 & ? & ? & ?). exists R1, R2. eauto.
  - intros H. apply IH. eapply wp_mono; [|exact H]. intros x R'. apply IH.
Qed.

Lemma wp_le n n' {A} (e : prog A) Q R : (n' <= n)%nat -> wp n e Q R -> wp n' e Q R.
Proof. induction 1; [done|]. intros H'. apply IHle. by apply wp_step. Qed.

Lemma wp_bind n {A B : Type} (e : prog A) (g : A -> prog B) Q R :
  wp n e (fun a R' => wp n (g a) Q R') R -> wp n (e ≫= g) Q R.
Proof.
  revert A B e g Q R. induction n as [|n IH]; intros A B e g Q R; [done|].
  destruct e as [a|X f k|X x0 k|q k|f k]; cbn -[wp].
  - intros (R' & ? & ?). by eapply wp_perm.
  - intros H m F HI. destruct (H m F HI) as (x & m' & R' & ? & ? & ? & Hk).
    exists x, m', R'. split_and!; [done..|]. apply IH.
    eapply wp_mono; [|exact Hk]. intros a R''. apply wp_step.
  - intros H x. apply IH. eapply wp_mono; [|exact (H x)]. intros a R''. apply wp_step.
  - intros (R1 & R2 & ? & ? & Hk). exists R1, R2. split_and!; [done..|]. apply IH.
    eapply wp_mono; [|exact Hk]. intros a R''. apply wp_step.
  - intros H. cbn in H |- *. eapply wp_mono; [|exact H]. intros x R' Hk. apply IH.
    eapply wp_mono; [|exact Hk]. intros a R''. apply (wp_step n (g a)).
Qed.

Lemma wp_ret n {A : Type} (a : A) (Q : A -> list tok -> Prop) R : Q a R -> wp n (Ret a) Q R.
Proof. destruct n; cbn; eauto. Qed.

Lemma wp_frame n {A : Type} (e : prog A) Q R F :
  wp n e Q R -> wp n e (fun a R' => exists R1, Q a R1 /\ R' = R1 ++ F) (R ++ F).
Proof.
  revert A e Q R. induction n as [|n IH]; intros A e Q R; [done|].
  destruct e as [a|X f k|X x0 k|q k|f k]; cbn.
  - intros (R' & ? & ?). exists (R' ++ F). split; [by f_equiv|eauto].
  - intros H m F' HI. rewrite <- app_assoc in HI. destruct (H m _ HI) as (x & m' & R' & ? & ? & HI' & Hk).
    exists x, m', (R' ++ F). rewrite <- app_assoc. eauto 8.
  - intros H x. apply IH, H.
  - intros (R1 & R2 & Hp & ? & Hk). exists R1, (R2 ++ F). split_and!; [by rewrite Hp, app_assoc|done|].
    by apply IH.
  - intros H. apply IH in H. eapply wp_mono; [|exact H]. cbn. intros x R' (R1 & Hk & ->). by apply IH.
Qed.

(** The use of a specification of [e] for part of the tokens. *)
Lemma wp_use n {A : Type} (e : prog A) Q P F (Q' : A -> list tok -> Prop) R :
  wp n e Q P -> R ≡ₚ P ++ F -> (forall a R1, Q a R1 -> Q' a (R1 ++ F)) -> wp n e Q' R.
Proof.
  intros H Hp HQ. eapply wp_perm; [symmetry; exact Hp|].
  eapply wp_mono; [|apply wp_frame, H]. cbn. intros a R' (R1 & ? & ->). by apply HQ.
Qed.

Lemma wp_call n f Q R : wp n (body f) Q R -> wp (S n) (call f) Q R.
Proof.
  intros H. unfold call. change (wp n (body f) (fun x R' => wp n (Ret x) Q R') R).
  eapply wp_mono; [|exact H]. intros x R'. apply wp_ret.
Qed.

(** ** Soundness *)

(** Every thread is verified for [n] more steps with its own tokens, and the invariant holds of
    all of them together. *)
Definition verified (n : nat) (c : config) : Prop :=
  exists Rs, Forall2 (fun p R => wp n p (fun _ R' => R' = []) R) (threads c) Rs /\ I (memory c) (concat Rs).

Lemma concat_split {A} (Rs : list (list A)) i R :
  Rs !! i = Some R -> concat Rs ≡ₚ R ++ concat (take i Rs) ++ concat (drop (S i) Rs).
Proof.
  intros Hi. rewrite <- (take_drop_middle _ _ _ Hi) at 1.
  rewrite concat_app. cbn. by rewrite !app_assoc, (Permutation_app_comm (concat _) R).
Qed.

Lemma concat_insert {A} (Rs : list (list A)) i R R' :
  Rs !! i = Some R -> concat (<[i:=R']> Rs) ≡ₚ R' ++ concat (take i Rs) ++ concat (drop (S i) Rs).
Proof.
  intros Hi. pose proof (lookup_lt_Some _ _ _ Hi). rewrite (insert_take_drop Rs) by done.
  rewrite concat_app. cbn. by rewrite !app_assoc, (Permutation_app_comm (concat _) R').
Qed.

Lemma verified_thread n ts m i p :
  verified n (mkConfig ts m) -> ts !! i = Some p ->
  exists Rs R, Forall2 (fun p R => wp n p (fun _ R' => R' = []) R) ts Rs /\ Rs !! i = Some R /\
    wp n p (fun _ R' => R' = []) R /\ I m (R ++ concat (take i Rs) ++ concat (drop (S i) Rs)).
Proof.
  intros (Rs & Hts & HI) Hi. cbn in *. destruct (Forall2_lookup_l _ _ _ _ _ Hts Hi) as (R & HR & Hwp).
  exists Rs, R. split_and!; [done..|]. by eapply I_perm; [apply concat_split|].
Qed.

Lemma verified_not_wrong c p : verified 1 c -> p ∈ threads c -> ~ wrong p (memory c).
Proof.
  destruct c as [ts m]. intros Hv (i & Hi)%list_elem_of_lookup_1.
  destruct (verified_thread _ _ _ _ _ Hv Hi) as (Rs & R & _ & _ & Hwp & HI).
  intros Hw. destruct p as [| X f k| | |]; cbn in Hwp, Hw; try done.
  destruct (Hwp _ _ HI) as (x & m' & R' & Hf & _). congruence.
Qed.

Definition finished (p : prog unit) : Prop := p = Ret tt.

(** A thread that has not ended can go on. *)
Lemma verified_progress c : verified 1 c -> (forall c', ~ step c c') -> Forall finished (threads c).
Proof.
  destruct c as [ts m]. intros Hv Hstop. apply Forall_lookup. intros i p Hi.
  destruct (verified_thread _ _ _ _ _ Hv Hi) as (Rs & R & _ & _ & Hwp & HI).
  assert (forall p' m' new, ~ thread_step p m p' m' new) as Hno.
  { intros p' m' new Hp. eapply Hstop. by eapply step_thread. }
  destruct p as [[]|X f k|X x k|q k|f k]; [done|..]; exfalso; cbn in Hwp.
  - destruct (Hwp _ _ HI) as (x & m' & R' & Hf & _). apply (Hno (k x) m' []). cbn. eauto.
  - apply (Hno (k x) m []). cbn. eauto.
  - by apply (Hno k m [q]).
  - by apply (Hno (body f ≫= k) m []).
Qed.

Lemma thread_step_verified n p m p' m' new R F :
  wp (S n) p (fun _ R' => R' = []) R -> I m (R ++ F) -> thread_step p m p' m' new ->
  (G m m' \/ m' = m) /\
  exists R' Rn, wp n p' (fun _ R' => R' = []) R' /\ Forall2 (fun q R => wp n q (fun _ R' => R' = []) R) new Rn /\
    I m' (R' ++ concat Rn ++ F).
Proof.
  intros Hwp HI Hstep. destruct p as [a|X f k|X x0 k|q k|f k]; cbn in Hwp, Hstep.
  - done.
  - destruct Hstep as (-> & x & Hf & ->). destruct (Hwp _ _ HI) as (x' & m'' & R' & Hf' & HG & HI' & Hk).
    simplify_eq. split; [by left|]. by exists R', [].
  - destruct Hstep as (-> & -> & x & ->). split; [by right|]. by exists R, [].
  - destruct Hstep as (-> & -> & ->). destruct Hwp as (R1 & R2 & Hp & Hq & Hk).
    split; [by right|]. exists R2, [R1]. split_and!; [done|by constructor|].
    eapply I_perm; [|exact HI]. cbn. rewrite app_nil_r, Hp, (Permutation_app_comm R1 R2). by rewrite app_assoc.
  - destruct Hstep as (-> & -> & ->). split; [by right|]. exists R, []. split_and!; [by apply wp_bind|done|done].
Qed.

Lemma step_verified n c c' : verified (S n) c -> step c c' ->
  verified n c' /\ (G (memory c) (memory c') \/ memory c' = memory c).
Proof.
  intros Hv Hstep. destruct Hstep as [i p ts m p' m' new Hi Hp].
  destruct (verified_thread _ _ _ _ _ Hv Hi) as (Rs & R & Hts & HR & Hwp & HI).
  destruct (thread_step_verified _ _ _ _ _ _ _ _ Hwp HI Hp) as (HG & R' & Rn & Hp' & Hn & HI').
  split; [|done]. exists (<[i:=R']> Rs ++ Rn). cbn. split.
  - apply Forall2_app; [|done]. apply Forall2_insert; [|done].
    eapply Forall2_impl; [exact Hts|]. intros q Rq. cbn. apply wp_step.
  - eapply I_perm; [|exact HI']. rewrite concat_app, (concat_insert _ _ _ _ HR), <- !app_assoc.
    rewrite (Permutation_app_comm (concat Rn)). by rewrite <- !app_assoc.
Qed.

Lemma steps_verified c c' : (forall n, verified n c) -> rtc step c c' -> forall n, verified n c'.
Proof.
  intros Hv Hr. revert Hv. induction Hr as [|x y z Hxy _ IH]; [done|]. intros Hv. apply IH.
  intros n. by apply (step_verified n x y).
Qed.

(** When all threads have ended nothing is owned any more. *)
Lemma verified_finished c : verified 1 c -> Forall finished (threads c) -> I (memory c) [].
Proof.
  destruct c as [ts m]. intros (Rs & Hts & HI) Hfin. cbn in *.
  assert (concat Rs = []) as <-; [|done]. clear HI.
  induction Hts as [|p R ts Rs Hp Hts IH]; [done|]. inversion Hfin as [|? ? Hf]; subst. cbn.
  rewrite IH by done. rewrite Hf in Hp. cbn in Hp. destruct Hp as (R' & Hperm & ->).
  symmetry in Hperm. apply Permutation_nil in Hperm. by subst.
Qed.
End Logic.
