(* ===== verification/FutureInvariant.v ===== *)
(** * The shared state of a promise and a future: the invariant

    The tokens and the invariant with which the functions of [FutureCore] are proved in the logic of
    [FutureLogic]: what each token says of the core or deferred executor it is about, which tokens
    exist together, what the memory owns; and the rules for the accesses to memory. *)
From S2P Require Import Prelude FutureCore FutureLogic.

(** ** Tokens *)

(** Where the producer of a core is: before the result, with a newer core in hand that it may be
    proxied to, with the result or the proxy stored and the state last seen. [Start] stands for no
    knowledge of the state. *)
Inductive pphase := P_start | P_next (p : loc) | P_result (s : State) | P_proxy (p : loc) (s : State).

(** Where the consumer is: before the callback, with the callback stored, with the context stored
    and the state last seen. *)
Inductive cphase := C_start | C_callback (cb : Callback) | C_context (cb : Callback) (cx : option Context) (s : State).

(** How far the invocation of the callback is: not begun, context moved out, result replaced by
    the executor's exception, callback called. *)
Inductive iphase := I_start (cx : option Context) | I_context | I_failed (e : exception_wrapper) | I_invoked.

(** How far [doCallback] is: not begun, executor taken out, references counted. *)
Inductive dphase := D_start | D_taken | D_counted.

(** How far [proxyCallback] is. *)
Inductive xphase := X_start (cb : Callback) (cx : option Context) | X_context (cx : option Context) | X_moved.

(** The adder of a deferred executor: before, with the function stored and the state last seen
    ([EMPTY] stands for no knowledge of it). *)
Inductive aphase := A_start | A_stored (f : loc) (s : DState).

(** The setter: before, with the executor stored if there is one and the state last seen, having
    made the transition from [HAS_FUNCTION]. *)
Inductive sphase := S_start | S_ready (ex : KeepAlive) (s : DState) | S_taken (s : DState) (f : loc).

(** Each token on a core but [TDel] is one of the references counted by [attached_].
    - [TRef], [TFul]: a reference, and one to a fulfilled core;
    - [TProd], [TCons]: the roles of the promise and of the future;
    - [TDo]: the obligation to run [doCallback], once the state is [Done];
    - [TCb]: a [CoreAndCallbackReference]; [TRun]: the same, with the right to invoke the callback
      (without a callback reference when the flag is [false]);
    - [TClr]: the right to reset the callback once the references to it are gone;
    - [TPx]: the obligation to run [proxyCallback], once the state is [Empty];
    - [TDel]: the core is being deleted.
    [TPend] is a callback, with its context, that was not invoked yet.  The other tokens are the
    references to a deferred executor. *)
Inductive tok :=
| TRef (c : loc)
| TFul (c : loc)
| TProd (c : loc) (ph : pphase)
| TCons (c : loc) (ph : cphase)
| TDo (c : loc) (cb : Callback) (cx : option Context) (ph : dphase)
| TCb (c : loc)
| TRun (c : loc) (cb : Callback) (ph : iphase) (counted : bool)
| TClr (c : loc)
| TPx (c : loc) (p : loc) (ph : xphase)
| TDel (c : loc) (s : State) (p : option loc) (d : option loc) (destroyed : bool)
| TPend (cb : Callback) (cx : option Context)
| TDNew (d : loc) (nested : bool)
| TDAdd (d : loc) (ph : aphase)
| TDSet (d : loc) (ph : sphase)
| TDRef (d : loc)
| TDExec (d : loc)
| TDDel (d : loc) (nested : option (list loc)) (f : option loc).

(** The object a token is about. *)
Definition tok_obj (t : tok) : option (loc + loc) :=
  match t with
  | TRef c | TFul c | TProd c _ | TCons c _ | TDo c _ _ _ | TCb c | TRun c _ _ _ | TClr c | TPx c _ _ | TDel c _ _ _ _ =>
      Some (inl c)
  | TPend _ _ => None
  | TDNew d _ | TDAdd d _ | TDSet d _ | TDRef d | TDExec d | TDDel d _ _ => Some (inr d)
  end.

Definition on (o : loc + loc) (T : list tok) : list tok := filter (fun t => tok_obj t = Some o) T.

(** ** Counting *)

Section Count.
Context {A : Type}.

Fixpoint ct (f : A -> bool) (l : list A) : nat :=
  match l with [] => 0 | t :: l => (if f t then 1 else 0) + ct f l end.

Lemma ct_app f l l' : ct f (l ++ l') = (ct f l + ct f l')%nat.
Proof. induction l; cbn; lia. Qed.

Lemma ct_perm f l l' : l ≡ₚ l' -> ct f l = ct f l'.
Proof. induction 1; cbn; lia. Qed.

Lemma ct_le_length f l : (ct f l <= length l)%nat.
Proof. induction l; cbn; [done|]. destruct (f a); lia. Qed.

Lemma ct_elem f l t : t ∈ l -> f t = true -> (1 <= ct f l)%nat.
Proof.
  intros Ht Hf. induction l as [|t' l IH]; [by apply not_elem_of_nil in Ht|]. cbn.
  apply elem_of_cons in Ht as [->|Ht]; [rewrite Hf; lia|]. specialize (IH Ht). destruct (f t'); lia.
Qed.

Lemma ct_le f g l : (forall t, t ∈ l -> f t = true -> g t = true) -> (ct f l <= ct g l)%nat.
Proof.
  induction l as [|t l IH]; intros H; cbn; [done|].
  assert (ct f l <= ct g l)%nat by (apply IH; set_solver).
  specialize (H t ltac:(set_solver)). destruct (f t); [rewrite H by done|]; destruct (g t); lia.
Qed.
End Count.

(** ** The invariant of a core *)

Definition is_prod (t : tok) : bool := match t with TProd _ _ => true | _ => false end.
Definition is_cons (t : tok) : bool := match t with TCons _ _ => true | _ => false end.
Definition is_do (t : tok) : bool := match t with TDo _ _ _ _ => true | _ => false end.
Definition is_do0 (t : tok) : bool := match t with TDo _ _ _ (D_start | D_taken) => true | _ => false end.
Definition is_cbref (t : tok) : bool := match t with TCb _ => true | TRun _ _ _ b => b | _ => false end.
Definition is_run (t : tok) : bool := match t with TRun _ _ _ _ => true | _ => false end.
Definition is_run0 (t : tok) : bool := match t with TRun _ _ _ b => negb b | _ => false end.
Definition is_clr (t : tok) : bool := match t with TClr _ => true | _ => false end.
Definition is_px (t : tok) : bool := match t with TPx _ _ _ => true | _ => false end.
Definition is_del (t : tok) : bool := match t with TDel _ _ _ _ _ => true | _ => false end.
Definition is_late (t : tok) : bool :=
  match t with TDo _ _ _ _ | TCb _ | TRun _ _ _ _ | TClr _ | TPx _ _ _ => true | _ => false end.

(** The result type of [setResult] restricted to the values a producer may set. *)
Section Spec.
Variable Good : Try -> Prop.
Variable K : Callback * option Context -> nat.
(** Whether deferred executors may have nested ones. *)
Variable nesting : bool.

Definition good_result (r : Core) : Prop := exists t, result_ r = Some t /\ Good t.

Definition seen (s : State) (r : Core) : Prop := s = Start \/ s = state_ r.

(** What a token says of the fields of its core. *)
Definition claim (r : Core) (t : tok) : Prop :=
  match t with
  | TFul _ => state_ r = OnlyResult \/ state_ r = Done
  | TProd _ (P_result s) => seen s r /\ good_result r
  | TProd _ (P_proxy p s) => seen s r /\ proxy_ r = Some p
  | TCons _ (C_callback cb) => callback_ r = Some cb
  | TCons _ (C_context cb cx s) => callback_ r = Some cb /\ context_ r = cx /\ seen s r
  | TDo _ cb cx ph => callback_ r = Some cb /\ context_ r = cx /\ good_result r /\
      (ph <> D_start -> getDeferredExecutor (executor_ r) = None)
  | TRun _ cb ph _ =>
      callback_ r = Some cb /\ getDeferredExecutor (executor_ r) = None /\
      match ph with
      | I_start cx => context_ r = cx /\ good_result r
      | I_context => good_result r
      | I_failed e => result_ r = Some (Exception e)
      | I_invoked => True
      end
  | TPx _ p ph =>
      proxy_ r = Some p /\
      match ph with
      | X_start cb cx => callback_ r = Some cb /\ context_ r = cx
      | X_context cx => context_ r = cx
      | X_moved => True
      end
  | _ => True
  end.

(** The roles that exist in each state. *)
Definition shape (r : Core) (l : list tok) : Prop :=
  match state_ r with
  | Start => ct is_prod l = 1 /\ ct is_cons l <= 1 /\ ct is_late l = 0
  | OnlyResult => ct is_prod l = 0 /\ ct is_cons l <= 1 /\ ct is_late l = 0
  | OnlyCallback | OnlyCallbackAllowInline => ct is_prod l = 1 /\ ct is_cons l = 0 /\ ct is_late l = 0
  | Proxy => ct is_prod l = 0 /\ ct is_cons l <= 1 /\ ct is_late l = 0
  | Done => ct is_prod l = 0 /\ ct is_cons l = 0 /\ ct is_px l = 0 /\
      ct is_do l + ct is_run l + ct is_clr l <= 1 /\
      ct is_do l + ct is_run0 l + ct is_clr l + ct is_cbref l <= 2 /\
      (1 <= ct is_do l + ct is_run0 l + ct is_clr l -> ct is_cbref l = 0)
  | Empty => ct is_prod l = 0 /\ ct is_cons l = 0 /\ ct is_px l <= 1 /\ ct is_late l = ct is_px l
  end%nat.

(** What the fields hold in each state. *)
Definition fields (r : Core) : Prop :=
  match state_ r with
  | OnlyResult => good_result r
  | OnlyCallback | OnlyCallbackAllowInline => is_Some (callback_ r)
  | Proxy => is_Some (proxy_ r)
  | Done => is_Some (result_ r)
  | _ => True
  end.

Record alive (r : Core) (l : list tok) : Prop := {
  al_some : l <> [];
  al_attached : attached_ r = Z.of_nat (length l);
  al_del : ct is_del l = 0%nat;
  al_cbrefs : callbackReferences_ r = Z.of_nat (ct is_cbref l);
  al_shape : shape r l;
  al_fields : fields r;
  al_claims : Forall (claim r) l;
  al_bound : (length l <= if decide (state_ r = Done /\ ct is_do0 l = 0%nat) then 4 else 2)%nat
}.

Definition dying (r : Core) (s : State) (p d : option loc) (destroyed : bool) : Prop :=
  attached_ r = 0 /\ state_ r = s /\ d = getDeferredExecutor (executor_ r) /\
  match s with
  | OnlyResult | Done => p = None /\ (destroyed = false -> is_Some (result_ r))
  | Proxy => p = proxy_ r /\ is_Some p
  | Empty => p = None
  | _ => False
  end.

Definition core_inv (r : Core) (l : list tok) : Prop :=
  alive r l \/ exists c s p d b, l = [TDel c s p d b] /\ dying r s p d b.

(** What the memory itself owns: the deferred executor of [executor_], the reference to the core a
    core is proxied to, and the callback that waits for a result. *)
Definition stored_core (r : Core) : list tok :=
  if 0 <? attached_ r then
    match executor_ r with Deferred (Some d) => [TDAdd d A_start] | _ => [] end ++
    match state_ r with
    | Proxy => match proxy_ r with Some p => [TCons p C_start] | None => [] end
    | OnlyCallback | OnlyCallbackAllowInline =>
        match callback_ r with Some cb => [TPend cb (context_ r)] | None => [] end
    | _ => []
    end
  else [].

(** ** The invariant of a deferred executor *)

Definition is_new (t : tok) : bool := match t with TDNew _ _ => true | _ => false end.
Definition is_add (t : tok) : bool := match t with TDAdd _ _ => true | _ => false end.
Definition is_set (t : tok) : bool := match t with TDSet _ (S_taken _ _) => false | TDSet _ _ => true | _ => false end.
Definition is_taken (t : tok) : bool := match t with TDSet _ (S_taken _ _) => true | _ => false end.
Definition has_func (t : tok) : bool :=
  match t with TDAdd _ (A_stored _ _) => true | TDSet _ (S_taken _ _) => true | _ => false end.
Definition is_ddel (t : tok) : bool := match t with TDDel _ _ _ => true | _ => false end.

Definition dseen (s : DState) (r : DeferredExecutor) : Prop := s = EMPTY \/ s = dstate_ r.

Definition dclaim (r : DeferredExecutor) (t : tok) : Prop :=
  match t with
  | TDNew _ b => dstate_ r = EMPTY /\ (b = false -> nestedExecutors_ r = None)
  | TDAdd _ (A_stored f s) => func_ r = Some f /\ dseen s r
  | TDSet _ (S_ready ex s) => dseen s r /\ (is_Some ex -> dexecutor_ r = ex)
  | TDSet _ (S_taken s f) => dstate_ r = s /\ func_ r = Some f
  | TDExec _ => dstate_ r = HAS_EXECUTOR
  | _ => True
  end.

Definition dshape (r : DeferredExecutor) (l : list tok) : Prop :=
  (ct is_add l + ct is_taken l <= 1 /\ ct is_set l <= 1 /\
  match dstate_ r with
  | EMPTY => ct is_taken l = 0
  | HAS_FUNCTION => ct is_taken l = 0 /\ ct is_add l = 0 /\ ct is_new l = 0
  | HAS_EXECUTOR | DETACHED => ct is_set l = 0 /\ ct is_new l = 0
  end)%nat.

Definition dfields (r : DeferredExecutor) (l : list tok) : Prop :=
  (dstate_ r = HAS_EXECUTOR -> is_Some (dexecutor_ r)) /\
  (dstate_ r = HAS_FUNCTION -> is_Some (func_ r)) /\
  (is_Some (func_ r) -> dstate_ r = HAS_FUNCTION \/ (1 <= ct has_func l)%nat).

Record dalive (r : DeferredExecutor) (l : list tok) : Prop := {
  dal_some : l <> [];
  dal_count : keepAliveCount_ r = Z.of_nat (length l);
  dal_del : ct is_ddel l = 0%nat;
  dal_shape : dshape r l;
  dal_fields : dfields r l;
  dal_claims : Forall (dclaim r) l;
  dal_bound : (ct is_new l + length l <= 2)%nat;
  dal_nested : nesting = false -> nestedExecutors_ r = None
}.

Definition def_inv (r : DeferredExecutor) (l : list tok) : Prop :=
  dalive r l \/
  exists d, l = [TDDel d (nestedExecutors_ r) (func_ r)] /\ keepAliveCount_ r = 0.

(** The lambda of [doCallback], not run yet. *)
Definition lambda (f : loc) (b : Callback * option Context) : list tok :=
  [TRun f b.1 (I_start b.2) true; TPend b.1 b.2].

Definition opt_lambda (f : option loc) (b : Callback * option Context) : list tok :=
  match f with Some f => lambda f b | None => [] end.

(** The deferred executors nested in one are set with it, and a stored function waits in it. *)
Definition stored_def (b : Callback * option Context) (r : DeferredExecutor) : list tok :=
  if 0 <? keepAliveCount_ r then
    ((fun d => TDSet d S_start) <$> default [] (nestedExecutors_ r)) ++
    (if decide (dstate_ r = HAS_FUNCTION) then opt_lambda (func_ r) b else [])
  else [].

(** ** The global invariant *)

(** The callbacks of the functions stored in deferred executors; the age of each core, which no
    core allocated earlier has. *)
Record ghost := mkGhost { g_fun : loc -> Callback * option Context; g_age : loc -> nat; g_next : nat }.

(** The younger core the producer of a core has in hand or has stored. *)
Definition younger (t : tok) : option (loc * loc) :=
  match t with TProd c (P_next p) | TProd c (P_proxy p _) => Some (c, p) | _ => None end.

Definition aged (age : loc -> nat) (t : tok) : Prop :=
  match younger t with Some (c, p) => (age c < age p)%nat | None => True end.

(** A core is proxied to a younger one. *)
Definition proxy_aged (age : loc -> nat) (c : loc) (r : Core) : Prop :=
  state_ r = Proxy -> forall p, proxy_ r = Some p -> (age c < age p)%nat.

Definition stored_cores (m : mem) : list tok := map_to_list (cores m) ≫= fun x => stored_core x.2.
Definition stored_defs (g : ghost) (m : mem) : list tok :=
  map_to_list (deferreds m) ≫= fun x => stored_def (g_fun g x.1) x.2.

Definition owned (g : ghost) (m : mem) (R : list tok) : list tok := R ++ stored_cores m ++ stored_defs g m.

Definition is_pend (b : Callback * option Context) (t : tok) : bool :=
  match t with TPend cb cx => bool_decide ((cb, cx) = b) | _ => false end.

Definition event_of (b : Callback * option Context) (e : event) : bool :=
  match e with EInvoked cb cx _ _ | EDropped cb cx => bool_decide ((cb, cx) = b) end.

(** A callback is given the result of the producer, or the executor's exception. *)
Definition good_event (e : event) : Prop :=
  match e with
  | EInvoked _ _ None t => Good t
  | EInvoked _ _ (Some e) t => t = Exception e
  | EDropped _ _ => True
  end.

(** What holds of the tokens on an object. *)
Definition obj_ok (m : mem) (o : loc + loc) (l : list tok) : Prop :=
  match o with
  | inl c => match cores m !! c with Some r => core_inv r l | None => l = [] end
  | inr d => match deferreds m !! d with Some r => def_inv r l | None => l = [] end
  end.

Record Inv_at (g : ghost) (m : mem) (R : list tok) : Prop := {
  inv_obj : forall o, obj_ok m o (on o (owned g m R));
  inv_pend : forall b, (ct (is_pend b) (owned g m R) + ct (event_of b) (trace m))%nat = K b;
  inv_trace : Forall good_event (trace m);
  inv_aged : Forall (aged (g_age g)) R;
  inv_proxies : forall c r, cores m !! c = Some r -> proxy_aged (g_age g) c r;
  inv_next : forall c, (g_age g c < g_next g)%nat
}.

Definition Inv (m : mem) (R : list tok) : Prop := exists g, Inv_at g m R.

(** The transitions of the state machine documented in [Core.h]. *)
Definition fsm_edge (s s' : State) : bool :=
  match s, s' with
  | Start, (OnlyResult | OnlyCallback | OnlyCallbackAllowInline | Proxy) => true
  | OnlyResult, Done => true
  | (OnlyCallback | OnlyCallbackAllowInline), (Done | Empty) => true
  | Proxy, Empty => true
  | _, _ => false
  end.

Definition follows_fsm (m m' : mem) : Prop :=
  forall c r r', cores m !! c = Some r -> cores m' !! c = Some r' ->
    state_ r' = state_ r \/ fsm_edge (state_ r) (state_ r') = true.

(** *** The invariant does not depend on the order of tokens *)

#[local] Instance on_perm o : Proper ((≡ₚ) ==> (≡ₚ)) (on o).
Proof. intros T T' H. unfold on. by rewrite H. Qed.

Lemma alive_perm r l l' : l ≡ₚ l' -> alive r l -> alive r l'.
Proof.
  intros H [Hs Ha Hd Hc Hsh Hf Hcl Hb].
  assert (forall f, ct f l' = ct f l) as Hct by (intros; by apply ct_perm).
  split; try done.
  - intros ->. by apply Permutation_nil_r in H.
  - by rewrite <- H.
  - by rewrite Hct.
  - by rewrite Hct.
  - unfold shape. by rewrite !Hct.
  - by rewrite <- H.
  - rewrite Hct. by rewrite <- H.
Qed.

Lemma core_inv_perm r l l' : l ≡ₚ l' -> core_inv r l -> core_inv r l'.
Proof.
  intros H [Ha|(c & s & p & d & b & -> & ?)]; [left; by eapply alive_perm|].
  right. apply Permutation_singleton_l in H. subst. eauto 8.
Qed.

Lemma def_inv_perm r l l' : l ≡ₚ l' -> def_inv r l -> def_inv r l'.
Proof.
  intros H [[Hs Ha Hd Hsh Hf Hcl Hb Hn]|(d & -> & ?)].
  - assert (forall f, ct f l' = ct f l) as Hct by (intros; by apply ct_perm).
    left. split; try done.
    + intros ->. by apply Permutation_nil_r in H.
    + by rewrite <- H.
    + by rewrite Hct.
    + unfold dshape. by rewrite !Hct.
    + unfold dfields. by rewrite !Hct.
    + by rewrite <- H.
    + rewrite Hct. by rewrite <- H.
  - right. apply Permutation_singleton_l in H. subst. eauto.
Qed.

Lemma obj_ok_perm m o l l' : l ≡ₚ l' -> obj_ok m o l -> obj_ok m o l'.
Proof.
  intros H. destruct o as [c|d]; cbn.
  - destruct (cores m !! c); [by apply core_inv_perm|]. intros ->. by apply Permutation_nil in H.
  - destruct (deferreds m !! d); [by apply def_inv_perm|]. intros ->. by apply Permutation_nil in H.
Qed.

Lemma Inv_at_perm g m R R' : R ≡ₚ R' -> Inv_at g m R -> Inv_at g m R'.
Proof.
  intros H [Ho Hp Ht Hag Hpr Hnx].
  assert (owned g m R ≡ₚ owned g m R') as HR by (unfold owned; by rewrite H).
  split; [|intros b; by rewrite <- (ct_perm _ _ _ HR)|done|by rewrite <- H|done|done].
  intros o. eapply obj_ok_perm; [|apply Ho]. by rewrite HR.
Qed.

Lemma Inv_perm m R R' : R ≡ₚ R' -> Inv m R -> Inv m R'.
Proof. intros H [g Hg]. exists g. by eapply Inv_at_perm. Qed.

(** *** Changes to one object *)

Definition all_on (o : loc + loc) (L : list tok) : Prop := Forall (fun t => tok_obj t = Some o) L.

Lemma on_all o L : all_on o L -> on o L = L.
Proof. unfold on, all_on. intros H. apply filter_all. intros t. rewrite Forall_forall in H. apply H. Qed.

Lemma on_other o o' L : all_on o L -> o' <> o -> on o' L = [].
Proof.
  intros H Hne. unfold on. induction H as [|t L Ht _ IH]; [done|].
  rewrite filter_cons_False; [done|]. rewrite Ht. congruence.
Qed.

Lemma on_app o L L' : on o (L ++ L') = on o L ++ on o L'.
Proof. apply filter_app. Qed.

Lemma pend_on b o L : all_on o L -> ct (is_pend b) L = 0%nat.
Proof. induction 1 as [|t L Ht _ IH]; [done|]. cbn. rewrite IH. by destruct t. Qed.

Section Change.
Variables (o : loc + loc) (L L' Y T T' : list tok).
Hypothesis HL : all_on o L.
Hypothesis HL' : all_on o L'.
Hypothesis HT : T ≡ₚ L ++ Y.
Hypothesis HT' : T' ≡ₚ L' ++ Y.

Lemma change_on : on o T ≡ₚ L ++ on o Y.
Proof. by rewrite HT, on_app, on_all. Qed.

Lemma change_on' : on o T' ≡ₚ L' ++ on o Y.
Proof. by rewrite HT', on_app, on_all. Qed.

Lemma change_other o' : o' <> o -> on o' T' ≡ₚ on o' T.
Proof. intros Hne. rewrite HT, HT', !on_app, (on_other o o' L), (on_other o o' L') by done. done. Qed.

Lemma change_pend b : ct (is_pend b) T' = ct (is_pend b) T.
Proof. rewrite (ct_perm _ _ _ HT), (ct_perm _ _ _ HT'), !ct_app, (pend_on b o L), (pend_on b o L') by done. done. Qed.
End Change.

Lemma stored_cores_split m c r :
  cores m !! c = Some r ->
  stored_cores m ≡ₚ stored_core r ++ (map_to_list (delete c (cores m)) ≫= fun x => stored_core x.2).
Proof. intros H. unfold stored_cores. by rewrite <- (map_to_list_delete _ _ _ H). Qed.

Lemma stored_cores_insert m c r :
  stored_cores (set_cores (<[c:=r]> (cores m)) m) ≡ₚ
  stored_core r ++ (map_to_list (delete c (cores m)) ≫= fun x => stored_core x.2).
Proof.
  unfold stored_cores. cbn. rewrite <- insert_delete_eq.
  by rewrite (map_to_list_insert (delete c (cores m)) c r) by apply lookup_delete_eq.
Qed.

Lemma stored_defs_split g m d r :
  deferreds m !! d = Some r ->
  stored_defs g m ≡ₚ stored_def (g_fun g d) r ++
    (map_to_list (delete d (deferreds m)) ≫= fun x => stored_def (g_fun g x.1) x.2).
Proof. intros H. unfold stored_defs. by rewrite <- (map_to_list_delete _ _ _ H). Qed.

Lemma stored_defs_insert g m d r :
  stored_defs g (set_deferreds (<[d:=r]> (deferreds m)) m) ≡ₚ
  stored_def (g_fun g d) r ++ (map_to_list (delete d (deferreds m)) ≫= fun x => stored_def (g_fun g x.1) x.2).
Proof.
  unfold stored_defs. cbn. rewrite <- insert_delete_eq.
  by rewrite (map_to_list_insert (delete d (deferreds m)) d r) by apply lookup_delete_eq.
Qed.

Lemma stored_defs_ghost g g' (h : gmap loc DeferredExecutor) d :
  (forall d', d' <> d -> g_fun g' d' = g_fun g d') ->
  (map_to_list (delete d h) ≫= fun x => stored_def (g_fun g' x.1) x.2) =
  (map_to_list (delete d h) ≫= fun x => stored_def (g_fun g x.1) x.2).
Proof.
  intros Hg. assert (Forall (fun x => x.1 <> d) (map_to_list (delete d h))) as H.
  { apply Forall_forall. intros [d' r] Hin%elem_of_map_to_list. cbn. intros ->.
    by rewrite lookup_delete_eq in Hin. }
  induction H as [|x l Hx _ IH]; [done|]. cbn. by rewrite IH, Hg.
Qed.

(** A step that changes only object [o] and the tokens on it. *)
Lemma Inv_change g g' m m' o L L' Y R R' :
  all_on o L -> all_on o L' -> owned g m R ≡ₚ L ++ Y -> owned g' m' R' ≡ₚ L' ++ Y ->
  (forall o' l, o' <> o -> obj_ok m o' l -> obj_ok m' o' l) -> trace m' = trace m ->
  obj_ok m' o (L' ++ on o Y) ->
  Forall (aged (g_age g')) R' -> (forall c r, cores m' !! c = Some r -> proxy_aged (g_age g') c r) ->
  (forall c, (g_age g' c < g_next g')%nat) ->
  Inv_at g m R -> Inv_at g' m' R'.
Proof.
  intros HL HL' HT HT' Hother Htr Hobj Hag' Hpr' Hnx' [Ho Hp Ht _ _ _]. split; [| | |done|done|done].
  - intros o'. destruct (decide (o' = o)) as [->|Hne].
    + eapply obj_ok_perm; [symmetry; by eapply change_on'|]. apply Hobj.
    + eapply obj_ok_perm; [symmetry; by apply (change_other o L L' Y (owned g m R))|]. by apply Hother.
  - intros b. by rewrite Htr, (change_pend _ _ _ _ _ _ HL HL' HT HT').
  - by rewrite Htr.
Qed.

Lemma Inv_opened g m o L Y R :
  all_on o L -> owned g m R ≡ₚ L ++ Y -> Inv_at g m R -> obj_ok m o (L ++ on o Y).
Proof. intros HL HT HI. eapply obj_ok_perm; [|apply HI]. by eapply change_on. Qed.

Lemma stored_core_aged age r : Forall (aged age) (stored_core r).
Proof.
  unfold stored_core. destruct (0 <? _); [|done]. apply Forall_app. split.
  - destruct (executor_ r) as [[?|]|?]; by repeat constructor.
  - destruct (state_ r), (proxy_ r), (callback_ r); by repeat constructor.
Qed.

Lemma stored_def_aged age b r : Forall (aged age) (stored_def b r).
Proof.
  unfold stored_def. destruct (0 <? _); [|done]. apply Forall_app. split.
  - apply Forall_fmap, Forall_forall. done.
  - case_decide; [|done]. destruct (func_ r); by repeat constructor.
Qed.

(** What a step may do to the tokens [L] on core [c] in state [r]: new claims of age come from old
    ones. *)
Definition age_step (L : list tok) (r : Core) (L' : list tok) (r' : Core) : Prop :=
  Forall (fun t' => younger t' = None \/ Exists (fun t => younger t = younger t') L) L' /\
  (state_ r' = Proxy -> (state_ r = Proxy /\ proxy_ r' = proxy_ r) \/
     Exists (fun t => exists c p, younger t = Some (c, p) /\ tok_obj t = Some (inl c) /\ proxy_ r' = Some p) L).

Lemma age_step_aged age L r L' r' : age_step L r L' r' -> Forall (aged age) L -> Forall (aged age) L'.
Proof.
  intros [H _] HL. eapply Forall_impl; [exact H|]. intros t' Ht'. unfold aged. destruct Ht' as [->|Ht']; [done|].
  apply Exists_exists in Ht' as (t & Hin & <-). rewrite Forall_forall in HL. by apply (HL t).
Qed.

Lemma age_step_proxy age L r L' r' c :
  all_on (inl c) L -> age_step L r L' r' -> Forall (aged age) L -> proxy_aged age c r -> proxy_aged age c r'.
Proof.
  intros Hon [_ H] HL Hr Hst p Hp. destruct (H Hst) as [[Hst0 Hp0]|Hex].
  - apply Hr; [done|congruence].
  - apply Exists_exists in Hex as (t & Hin & c' & p' & Hy & Hobj & Hp'). simplify_eq.
    rewrite Forall_forall in HL. specialize (HL t Hin). unfold aged in HL. rewrite Hy in HL.
    unfold all_on in Hon. rewrite Forall_forall in Hon. specialize (Hon t Hin). by simplify_eq.
Qed.

(** The owner of tokens on a core finds it in a state [r] in which they and some others [l] exist,
    and may change it and the tokens together. *)
Lemma Inv_core_open g m c L X F :
  all_on (inl c) L -> L <> [] -> Inv_at g m ((L ++ X) ++ F) ->
  exists r l, cores m !! c = Some r /\ core_inv r (L ++ l) /\
    (forall r' L' X', all_on (inl c) L' -> X' ++ stored_core r' ≡ₚ X ++ stored_core r ->
      core_inv r' (L' ++ l) -> age_step L r L' r' ->
      Inv_at g (set_cores (<[c:=r']> (cores m)) m) ((L' ++ X') ++ F)) /\
    (stored_core r = [] -> l = [] -> Inv_at g (set_cores (delete c (cores m)) m) (X ++ F)).
Proof.
  intros HL Hne HI. destruct (cores m !! c) as [r|] eqn:Hr; cycle 1.
  { pose proof (inv_obj _ _ _ HI (inl c)) as Ho. cbn in Ho. rewrite Hr in Ho. unfold owned in Ho.
    rewrite !on_app, (on_all _ L HL) in Ho. by destruct L. }
  set (rest := map_to_list (delete c (cores m)) ≫= fun x => stored_core x.2).
  set (Y := (X ++ stored_core r) ++ F ++ rest ++ stored_defs g m).
  assert (owned g m ((L ++ X) ++ F) ≡ₚ L ++ Y) as HT.
  { unfold owned, Y. rewrite (stored_cores_split m c r Hr). fold rest. solve_perm. }
  pose proof (inv_aged _ _ _ HI) as Hag. rewrite !Forall_app in Hag. destruct Hag as [[HagL HagX] HagF].
  exists r, (on (inl c) Y). split_and!.
  - done.
  - pose proof (Inv_opened _ _ _ _ _ _ HL HT HI) as H. cbn in H. by rewrite Hr in H.
  - intros r' L' X' HL' HX Hinv Hage. apply (Inv_change g g m _ (inl c) L L' Y _ _ HL HL' HT); try done.
    + unfold owned, Y. rewrite stored_cores_insert, <- HX. fold rest.
      change (stored_defs g (set_cores _ m)) with (stored_defs g m). solve_perm.
    + intros [c'|d] l Hne'; cbn; [|done]. rewrite lookup_insert_ne by congruence. done.
    + cbn. by rewrite lookup_insert_eq.
    + rewrite !Forall_app. split_and!; [by eapply age_step_aged| |done].
      assert (Forall (aged (g_age g)) (X' ++ stored_core r')) as H; [|by apply Forall_app in H as [? _]].
      rewrite HX. apply Forall_app. split; [done|apply stored_core_aged].
    + intros c' r1. cbn. intros [[<- <-]|[? Hr1]]%lookup_insert_Some; [|by apply (inv_proxies _ _ _ HI)].
      apply (age_step_proxy _ L r L'); [done..|]. by apply (inv_proxies _ _ _ HI).
    + apply HI.
  - intros Hst Hl. apply (Inv_change g g m _ (inl c) L [] Y _ _ HL (Forall_nil_2 _) HT); try done.
    + unfold owned, Y. rewrite Hst. change (stored_defs g (set_cores _ m)) with (stored_defs g m).
      change (stored_cores (set_cores _ m)) with rest. solve_perm.
    + intros [c'|d] l Hne'; cbn; [|done]. rewrite lookup_delete_ne by congruence. done.
    + cbn. by rewrite lookup_delete_eq.
    + by apply Forall_app.
    + intros c' r1. cbn. intros [? Hr1]%lookup_delete_Some. by apply (inv_proxies _ _ _ HI).
    + apply HI.
Qed.

(** A new core is younger than all others. *)
Definition set_age (c : loc) (g : ghost) : ghost :=
  mkGhost (g_fun g) (fun c' => if decide (c' = c) then g_next g else g_age g c') (S (g_next g)).

Lemma set_age_next g c : (forall c', (g_age g c' < g_next g)%nat) -> forall c', (g_age (set_age c g) c' < g_next (set_age c g))%nat.
Proof. intros H c'. cbn. case_decide; [lia|]. specialize (H c'). lia. Qed.

(** Claims of age about other cores survive. *)
Lemma set_age_lt g c a b :
  (forall c', (g_age g c' < g_next g)%nat) -> a <> c -> (g_age g a < g_age g b)%nat ->
  (g_age (set_age c g) a < g_age (set_age c g) b)%nat.
Proof. intros H Ha Hab. cbn. rewrite decide_False by done. case_decide; [apply H|done]. Qed.

Lemma set_age_aged g m c R :
  Inv_at g m R -> cores m !! c = None -> Forall (aged (g_age (set_age c g))) R.
Proof.
  intros HI Hc. pose proof (inv_aged _ _ _ HI) as Hag. rewrite !Forall_forall in Hag |- *.
  intros t Hin. specialize (Hag t Hin). unfold aged in *. destruct (younger t) as [[a b]|] eqn:Hy; [|done].
  apply set_age_lt; [apply HI| |done]. intros ->.
  pose proof (inv_obj _ _ _ HI (inl c)) as Ho. cbn in Ho. rewrite Hc in Ho.
  assert (t ∈ on (inl c) (owned g m R)) as Hon; [|rewrite Ho in Hon; by apply not_elem_of_nil in Hon].
  apply list_elem_of_filter. split; [|by apply elem_of_app; left].
  destruct t as [| |? []| | | | | | | | | | | | | |]; cbn in Hy; by simplify_eq.
Qed.

Lemma Inv_core_alloc g m c r L R :
  all_on (inl c) L -> Forall (fun t => younger t = None) L -> cores m !! c = None -> stored_core r = [] ->
  state_ r <> Proxy -> core_inv r L ->
  Inv_at g m R -> Inv_at (set_age c g) (set_cores (<[c:=r]> (cores m)) m) (L ++ R).
Proof.
  intros HL HLy Hr Hst Hpx Hinv HI. set (Y := R ++ stored_cores m ++ stored_defs g m).
  assert (on (inl c) Y = []) as HY.
  { pose proof (inv_obj _ _ _ HI (inl c)) as Ho. cbn in Ho. by rewrite Hr in Ho. }
  apply (Inv_change g (set_age c g) m _ (inl c) [] L Y R (L ++ R) (Forall_nil_2 _) HL); try done.
  - unfold owned, Y. rewrite stored_cores_insert, Hst, delete_id by done.
    change (stored_defs (set_age c g) (set_cores _ m)) with (stored_defs g m).
    change (map_to_list (cores m) ≫= _) with (stored_cores m). solve_perm.
  - intros [c'|d] l Hne; cbn; [|done]. rewrite lookup_insert_ne by congruence. done.
  - cbn. rewrite lookup_insert_eq, HY. by rewrite app_nil_r.
  - apply Forall_app. split; [|by eapply set_age_aged].
    eapply Forall_impl; [exact HLy|]. intros t Ht. unfold aged. by rewrite Ht.
  - intros c' r1. cbn. intros [[<- <-]|[Hne Hr1]]%lookup_insert_Some; [by intros ?|].
    intros Hst1 p Hp. apply set_age_lt; [apply HI|done|]. by apply (inv_proxies _ _ _ HI _ _ Hr1).
  - apply set_age_next, HI.
Qed.

(** The owner of an older core can tell that a new core is younger. *)
Lemma Inv_younger g m c q R :
  c <> q -> (forall c', c' <> q -> (g_age g c' < g_age g q)%nat) ->
  Inv_at g m (TProd c P_start :: R) -> Inv_at g m (TProd c (P_next q) :: R).
Proof.
  intros Hne Hold HI.
  destruct (Inv_core_open g m c [TProd c P_start] [] R) as (r & l & Hr & Hinv & _); [by constructor|done|done|].
  assert (forall l', core_inv r (TProd c P_start :: l') -> core_inv r (TProd c (P_next q) :: l')) as Hci.
  { intros l' [[Hs Ha Hd Hc Hsh Hf Hcl Hb]|(? & ? & ? & ? & ? & ? & ?)]; [|done].
    left. split; try done. apply Forall_cons_1 in Hcl as [_ Hcl]. by constructor. }
  pose proof (inv_aged _ _ _ HI) as Hag. apply Forall_cons_1 in Hag as [_ Hag].
  apply (Inv_change g g m m (inl c) [TProd c P_start] [TProd c (P_next q)] (owned g m R) (TProd c P_start :: R)); try done.
  - by constructor.
  - by constructor.
  - pose proof (Inv_opened g m (inl c) [TProd c P_start] (owned g m R) (TProd c P_start :: R)) as Ho.
    cbn in Ho |- *. rewrite Hr in Ho |- *. apply Hci, Ho; [by constructor|done|done].
  - constructor; [|done]. cbn. by apply Hold.
  - apply HI.
  - apply HI.
Qed.

Definition gset (d : loc) b (g : ghost) : ghost :=
  mkGhost (fun d' => if decide (d' = d) then b else g_fun g d') (g_age g) (g_next g).

Lemma Inv_def_open g m d L X F :
  all_on (inr d) L -> L <> [] -> Inv_at g m ((L ++ X) ++ F) ->
  exists r l, deferreds m !! d = Some r /\ def_inv r (L ++ l) /\
    (forall r' L' X' b, all_on (inr d) L' -> X' ++ stored_def b r' ≡ₚ X ++ stored_def (g_fun g d) r ->
      def_inv r' (L' ++ l) ->
      Inv_at (gset d b g) (set_deferreds (<[d:=r']> (deferreds m)) m) ((L' ++ X') ++ F)) /\
    (stored_def (g_fun g d) r = [] -> l = [] -> Inv_at g (set_deferreds (delete d (deferreds m)) m) (X ++ F)).
Proof.
  intros HL Hne HI. destruct (deferreds m !! d) as [r|] eqn:Hr; cycle 1.
  { pose proof (inv_obj _ _ _ HI (inr d)) as Ho. cbn in Ho. rewrite Hr in Ho. unfold owned in Ho.
    rewrite !on_app, (on_all _ L HL) in Ho. by destruct L. }
  set (rest := map_to_list (delete d (deferreds m)) ≫= fun x => stored_def (g_fun g x.1) x.2).
  set (Y := (X ++ stored_def (g_fun g d) r) ++ F ++ stored_cores m ++ rest).
  assert (owned g m ((L ++ X) ++ F) ≡ₚ L ++ Y) as HT.
  { unfold owned, Y. rewrite (stored_defs_split g m d r Hr). fold rest. solve_perm. }
  pose proof (inv_aged _ _ _ HI) as Hag. rewrite !Forall_app in Hag. destruct Hag as [[HagL HagX] HagF].
  exists r, (on (inr d) Y). split_and!.
  - done.
  - pose proof (Inv_opened _ _ _ _ _ _ HL HT HI) as H. cbn in H. by rewrite Hr in H.
  - intros r' L' X' b HL' HX Hinv. apply (Inv_change g _ m _ (inr d) L L' Y _ _ HL HL' HT); try done.
    + unfold owned, Y. rewrite stored_defs_insert.
      rewrite (stored_defs_ghost g (gset d b g) _ d) by (intros; cbn; by rewrite decide_False).
      fold rest. assert (g_fun (gset d b g) d = b) as -> by (cbn; by rewrite decide_True). rewrite <- HX.
      change (stored_cores (set_deferreds _ m)) with (stored_cores m). solve_perm.
    + intros [c|d'] l Hne'; cbn; [done|]. rewrite lookup_insert_ne by congruence. done.
    + cbn. by rewrite lookup_insert_eq.
    + rewrite !Forall_app. split_and!; [| |done].
      * eapply Forall_impl; [exact HL'|]. intros t Ht. by destruct t.
      * assert (Forall (aged (g_age g)) (X' ++ stored_def b r')) as H; [|by apply Forall_app in H as [? _]].
        rewrite HX. apply Forall_app. split; [done|apply stored_def_aged].
    + apply HI.
    + apply HI.
  - intros Hst Hl. apply (Inv_change g g m _ (inr d) L [] Y _ _ HL (Forall_nil_2 _) HT); try done.
    + unfold owned, Y. rewrite Hst. change (stored_cores (set_deferreds _ m)) with (stored_cores m).
      change (stored_defs g (set_deferreds _ m)) with rest. solve_perm.
    + intros [c|d'] l Hne'; cbn; [done|]. rewrite lookup_delete_ne by congruence. done.
    + cbn. by rewrite lookup_delete_eq.
    + by apply Forall_app.
    + apply HI.
    + apply HI.
Qed.

Lemma Inv_def_alloc g m d r L R :
  all_on (inr d) L -> deferreds m !! d = None -> stored_def (g_fun g d) r = [] -> def_inv r L ->
  Inv_at g m R -> Inv_at g (set_deferreds (<[d:=r]> (deferreds m)) m) (L ++ R).
Proof.
  intros HL Hr Hst Hinv HI. set (Y := R ++ stored_cores m ++ stored_defs g m).
  assert (on (inr d) Y = []) as HY.
  { pose proof (inv_obj _ _ _ HI (inr d)) as Ho. cbn in Ho. by rewrite Hr in Ho. }
  apply (Inv_change g g m _ (inr d) [] L Y R (L ++ R) (Forall_nil_2 _) HL); try done.
  - unfold owned, Y. rewrite stored_defs_insert, Hst, delete_id by done.
    change (stored_cores (set_deferreds _ m)) with (stored_cores m).
    change (map_to_list (deferreds m) ≫= _) with (stored_defs g m). solve_perm.
  - intros [c|d'] l Hne; cbn; [done|]. rewrite lookup_insert_ne by congruence. done.
  - cbn. rewrite lookup_insert_eq, HY. by rewrite app_nil_r.
  - apply Forall_app. split; [|apply HI]. eapply Forall_impl; [exact HL|]. intros t Ht. by destruct t.
  - apply HI.
  - apply HI.
Qed.

(** *** Rules for the accesses to memory *)

Abbreviation wpc := (wp Inv follows_fsm).

Lemma follows_fsm_update m c r r' :
  cores m !! c = Some r -> (state_ r' = state_ r \/ fsm_edge (state_ r) (state_ r') = true) ->
  follows_fsm m (set_cores (<[c:=r']> (cores m)) m).
Proof.
  intros Hr He c' r1 r2 H1. cbn. destruct (decide (c' = c)) as [->|Hne].
  - rewrite lookup_insert_eq. by intros [= <-]; simplify_eq.
  - rewrite lookup_insert_ne by done. intros; simplify_eq. by left.
Qed.

Lemma follows_fsm_same m m' : cores m' = cores m -> follows_fsm m m'.
Proof. intros H c r r' H1 H2. rewrite H in H2. simplify_eq. by left. Qed.

Lemma wp_core n {A : Type} c (f : Core -> option (A * Core)) (Q : A -> list tok -> Prop) L X R :
  R ≡ₚ L ++ X -> all_on (inl c) L -> L <> [] ->
  (forall r l, core_inv r (L ++ l) -> exists x r' L' X', f r = Some (x, r') /\
    all_on (inl c) L' /\ X' ++ stored_core r' ≡ₚ X ++ stored_core r /\ core_inv r' (L' ++ l) /\
    (state_ r' = state_ r \/ fsm_edge (state_ r) (state_ r') = true) /\ age_step L r L' r' /\ Q x (L' ++ X')) ->
  wpc n (core_rmw c f) Q R.
Proof.
  intros HR HL Hne Hf. apply (wp_perm _ _ Inv_perm _ _ _ _ _ (symmetry HR)).
  destruct n as [|n]; [done|]. intros m F [g HI].
  destruct (Inv_core_open _ _ _ _ _ _ HL Hne HI) as (r & l & Hr & Hinv & Hupd & _).
  destruct (Hf _ _ Hinv) as (x & r' & L' & X' & Hfr & HL' & HX & Hinv' & He & Hage & HQ).
  exists x, (set_cores (<[c:=r']> (cores m)) m), (L' ++ X'). rewrite Hr. cbn. rewrite Hfr. cbn. split_and!.
  - done.
  - by eapply follows_fsm_update.
  - exists g. by apply Hupd.
  - by apply wp_ret.
Qed.

Lemma wp_def n {A : Type} d (f : DeferredExecutor -> option (A * DeferredExecutor)) (Q : A -> list tok -> Prop) L X R :
  R ≡ₚ L ++ X -> all_on (inr d) L -> L <> [] ->
  (forall r l b, def_inv r (L ++ l) -> exists x r' L' X' b', f r = Some (x, r') /\
    all_on (inr d) L' /\ X' ++ stored_def b' r' ≡ₚ X ++ stored_def b r /\ def_inv r' (L' ++ l) /\ Q x (L' ++ X')) ->
  wpc n (def_rmw d f) Q R.
Proof.
  intros HR HL Hne Hf. apply (wp_perm _ _ Inv_perm _ _ _ _ _ (symmetry HR)).
  destruct n as [|n]; [done|]. intros m F [g HI].
  destruct (Inv_def_open _ _ _ _ _ _ HL Hne HI) as (r & l & Hr & Hinv & Hupd & _).
  destruct (Hf _ _ (g_fun g d) Hinv) as (x & r' & L' & X' & b' & Hfr & HL' & HX & Hinv' & HQ).
  exists x, (set_deferreds (<[d:=r']> (deferreds m)) m), (L' ++ X'). rewrite Hr. cbn. rewrite Hfr. cbn. split_and!.
  - done.
  - by apply follows_fsm_same.
  - exists (gset d b' g). by apply Hupd.
  - by apply wp_ret.
Qed.

(** An invocation or a loss of a callback that was pending. *)
Lemma Inv_event g m cb cx e R :
  good_event e -> (forall b, event_of b e = bool_decide ((cb, cx) = b)) ->
  Inv_at g m (TPend cb cx :: R) -> Inv_at g (set_trace (trace m ++ [e]) m) R.
Proof.
  intros He Hb [Ho Hp Ht Hag Hpr Hnx]. split; [| | |by apply Forall_cons_1 in Hag as [_ ?]|done|done].
  - intros o. exact (Ho o).
  - intros b. rewrite <- (Hp b). change (owned g (set_trace _ m) R) with (owned g m R).
    change (owned g m (TPend cb cx :: R)) with (TPend cb cx :: owned g m R).
    cbn [ct is_pend trace set_trace]. rewrite ct_app. cbn [ct]. rewrite Hb. destruct (bool_decide _); lia.
  - cbn. apply Forall_app_2; [done|]. by constructor.
Qed.

Lemma set_cores_id m c r : cores m !! c = Some r -> set_cores (<[c:=r]> (cores m)) m = m.
Proof. intros H. unfold set_cores. rewrite insert_id by done. by destruct m. Qed.

(** A step that only records an event about a callback of core [c]. *)
Lemma wp_event n c cb cx (f : Core -> option event) t t' (Q : unit -> list tok -> Prop) X :
  tok_obj t = Some (inl c) -> tok_obj t' = Some (inl c) -> younger t' = None ->
  (forall r l, core_inv r (t :: l) -> core_inv r (t' :: l) /\
    exists e, f r = Some e /\ good_event e /\ forall b, event_of b e = bool_decide ((cb, cx) = b)) ->
  Q tt (t' :: X) ->
  wpc n (record_event c f) Q (t :: TPend cb cx :: X).
Proof.
  intros Ht Ht' Hy Hf HQ. destruct n as [|n]; [done|]. intros m F [g HI].
  destruct (Inv_core_open g m c [t] (TPend cb cx :: X) F) as (r & l & Hr & Hinv & Hupd & _);
    [by constructor|done|done|].
  destruct (Hf _ _ Hinv) as (Hinv' & e & Hfe & He & Hb).
  exists tt, (set_trace (trace m ++ [e]) m), (t' :: X). rewrite Hr. cbn. rewrite Hfe. cbn. split_and!.
  - done.
  - by apply follows_fsm_same.
  - exists g. apply (Inv_event _ _ cb cx); [done..|].
    specialize (Hupd r [t'] (TPend cb cx :: X)). rewrite set_cores_id in Hupd by done.
    eapply Inv_at_perm; [|apply Hupd; [by constructor|done|done|]]; [solve_perm|].
    split; [constructor; [by left|done]|by left].
  - by apply wp_ret.
Qed.

Lemma new_loc_fresh {V} (h : gmap loc V) l : h !! new_loc h l = None.
Proof. unfold new_loc. destruct (decide _); [done|]. apply not_elem_of_dom, is_fresh. Qed.

Lemma follows_fsm_alloc m c r : cores m !! c = None -> follows_fsm m (set_cores (<[c:=r]> (cores m)) m).
Proof.
  intros Hc c' r1 r2 H1. cbn. rewrite lookup_insert_ne by congruence. intros; simplify_eq. by left.
Qed.

Lemma wp_alloc n r (L : loc -> list tok) (Q : loc -> list tok -> Prop) R l :
  (forall c, all_on (inl c) (L c) /\ Forall (fun t => younger t = None) (L c)) -> stored_core r = [] ->
  state_ r <> Proxy -> (forall c, core_inv r (L c)) ->
  (forall c, Q c (L c ++ R)) ->
  wpc n (atomic (fun m => let c := new_loc (cores m) l in Some (c, set_cores (<[c:=r]> (cores m)) m))) Q R.
Proof.
  intros HL Hst Hpx Hinv HQ. destruct n as [|n]; [done|]. intros m F [g HI].
  set (c := new_loc (cores m) l). assert (cores m !! c = None) as Hc by apply new_loc_fresh.
  exists c, (set_cores (<[c:=r]> (cores m)) m), (L c ++ R). split_and!.
  - done.
  - by apply follows_fsm_alloc.
  - exists (set_age c g). rewrite <- app_assoc. destruct (HL c). by apply Inv_core_alloc.
  - apply wp_ret, HQ.
Qed.

(** The same, by the producer of another core. *)
Lemma wp_alloc_next n r (L : loc -> list tok) (Q : loc -> list tok -> Prop) c0 X l :
  (forall c, all_on (inl c) (L c) /\ Forall (fun t => younger t = None) (L c)) -> stored_core r = [] ->
  state_ r <> Proxy -> (forall c, core_inv r (L c)) ->
  (forall q, Q q (TProd c0 (P_next q) :: L q ++ X)) ->
  wpc n (atomic (fun m => let c := new_loc (cores m) l in Some (c, set_cores (<[c:=r]> (cores m)) m))) Q
    (TProd c0 P_start :: X).
Proof.
  intros HL Hst Hpx Hinv HQ. destruct n as [|n]; [done|]. intros m F [g HI].
  set (q := new_loc (cores m) l). assert (cores m !! q = None) as Hq by apply new_loc_fresh.
  exists q, (set_cores (<[q:=r]> (cores m)) m), (TProd c0 (P_next q) :: L q ++ X). split_and!.
  - done.
  - by apply follows_fsm_alloc.
  - exists (set_age q g). destruct (HL q).
    destruct (Inv_core_open g m c0 [TProd c0 P_start] X F) as (r0 & l0 & Hr0 & _); [by constructor|done|done|].
    rewrite <- app_comm_cons. apply Inv_younger; [by intros ->; congruence| |].
    + intros c' Hne. cbn. rewrite decide_False, decide_True by done. apply HI.
    + eapply Inv_at_perm; [|by apply (Inv_core_alloc g m q r (L q) ((TProd c0 P_start :: X) ++ F))]. solve_perm.
  - apply wp_ret, HQ.
Qed.

Lemma wp_def_alloc n r (L : loc -> list tok) (Q : loc -> list tok -> Prop) R l :
  (forall d, all_on (inr d) (L d)) -> (forall b, stored_def b r = []) -> (forall d, def_inv r (L d)) ->
  (forall d, Q d (L d ++ R)) ->
  wpc n (atomic (fun m => let d := new_loc (deferreds m) l in
                          Some (d, set_deferreds (<[d:=r]> (deferreds m)) m))) Q R.
Proof.
  intros HL Hst Hinv HQ. destruct n as [|n]; [done|]. intros m F [g HI].
  set (d := new_loc (deferreds m) l). assert (deferreds m !! d = None) as Hd by apply new_loc_fresh.
  exists d, (set_deferreds (<[d:=r]> (deferreds m)) m), (L d ++ R). split_and!.
  - done.
  - by apply follows_fsm_same.
  - exists g. rewrite <- app_assoc. by apply Inv_def_alloc.
  - apply wp_ret, HQ.
Qed.

Lemma core_inv_del r c s p d b l : core_inv r ([TDel c s p d b] ++ l) -> l = [] /\ dying r s p d b.
Proof. intros [Ha|(c' & s' & p' & d' & b' & [= -> -> -> -> -> ->] & ?)]; [by apply al_del in Ha|done]. Qed.

Lemma def_inv_del r d ns f l :
  def_inv r ([TDDel d ns f] ++ l) ->
  l = [] /\ ns = nestedExecutors_ r /\ f = func_ r /\ keepAliveCount_ r = 0.
Proof. intros [Ha|(d' & [= -> -> -> ->] & ?)]; [by apply dal_del in Ha|done]. Qed.

Lemma wp_free n c s p d b (Q : unit -> list tok -> Prop) X :
  Q tt X ->
  wpc n (atomic (fun m => _ ← cores m !! c; Some (tt, set_cores (delete c (cores m)) m))) Q (TDel c s p d b :: X).
Proof.
  intros HQ. destruct n as [|n]; [done|]. intros m F [g HI].
  destruct (Inv_core_open g m c [TDel c s p d b] X F) as (r & l & Hr & Hinv & _ & Hfree);
    [by constructor|done|done|].
  apply core_inv_del in Hinv as [-> (Ha & _)].
  exists tt, (set_cores (delete c (cores m)) m), X. rewrite Hr. cbn. split_and!.
  - done.
  - intros c' r1 r2 H1 H2. cbn in H2. apply lookup_delete_Some in H2 as [? H2]. simplify_eq. by left.
  - exists g. apply Hfree; [|done]. unfold stored_core. by rewrite Ha.
  - by apply wp_ret.
Qed.

Lemma wp_def_free n d ns f (Q : unit -> list tok -> Prop) X :
  Q tt X ->
  wpc n (atomic (fun m => _ ← deferreds m !! d; Some (tt, set_deferreds (delete d (deferreds m)) m))) Q
    (TDDel d ns f :: X).
Proof.
  intros HQ. destruct n as [|n]; [done|]. intros m F [g HI].
  destruct (Inv_def_open g m d [TDDel d ns f] X F) as (r & l & Hr & Hinv & _ & Hfree);
    [by constructor|done|done|].
  apply def_inv_del in Hinv as (-> & _ & _ & Ha).
  exists tt, (set_deferreds (delete d (deferreds m)) m), X. rewrite Hr. cbn. split_and!.
  - done.
  - by apply follows_fsm_same.
  - exists g. apply Hfree; [|done]. unfold stored_def. by rewrite Ha.
  - by apply wp_ret.
Qed.
End Spec.

(** ** When no thread owns anything *)

Section Quiescence.
Variable Good : Try -> Prop.
Variable K : Callback * option Context -> nat.
Variables (g : ghost) (m : mem).
Hypothesis HI : Inv_at Good K false g m [].

(** Where the tokens of the memory come from. *)
Variant source (t : tok) : Prop :=
| from_executor c r d : cores m !! c = Some r -> getDeferredExecutor (executor_ r) = Some d ->
    t = TDAdd d A_start -> source t
| from_proxy c r p : cores m !! c = Some r -> state_ r = Proxy -> proxy_ r = Some p -> t = TCons p C_start -> source t
| from_function d r f b : deferreds m !! d = Some r -> t = TRun f b.1 (I_start b.2) true -> source t
| from_callback cb cx : t = TPend cb cx -> source t.

Lemma stored_core_source c r t : cores m !! c = Some r -> t ∈ stored_core r -> source t.
Proof.
  intros Hr Ht. unfold stored_core in Ht. destruct (0 <? attached_ r); [|by apply not_elem_of_nil in Ht].
  apply elem_of_app in Ht as [Ht|Ht].
  - destruct (executor_ r) as [[d|]|?] eqn:E; try by apply not_elem_of_nil in Ht.
    apply list_elem_of_singleton in Ht. apply (from_executor _ c r d); [done|by rewrite E|done].
  - destruct (state_ r) eqn:E; try by apply not_elem_of_nil in Ht.
    1,2: destruct (callback_ r) as [cb|]; [|by apply not_elem_of_nil in Ht];
      apply list_elem_of_singleton in Ht; by eapply from_callback.
    destruct (proxy_ r) as [p|] eqn:Ep; [|by apply not_elem_of_nil in Ht].
    apply list_elem_of_singleton in Ht. by eapply (from_proxy _ c r p).
Qed.

Lemma stored_def_source d r t : deferreds m !! d = Some r -> t ∈ stored_def (g_fun g d) r -> source t.
Proof.
  intros Hr Ht. unfold stored_def in Ht. destruct (0 <? keepAliveCount_ r) eqn:E; [|by apply not_elem_of_nil in Ht].
  pose proof (inv_obj _ _ _ _ _ _ HI (inr d)) as Hd. unfold obj_ok in Hd. rewrite Hr in Hd.
  destruct Hd as [Hd|(? & _ & Hd)]; [|rewrite Hd in E; done].
  rewrite (dal_nested _ _ _ Hd eq_refl) in Ht. cbn in Ht.
  case_decide; [|by apply not_elem_of_nil in Ht]. destruct (func_ r) as [f|]; [|by apply not_elem_of_nil in Ht].
  cbn in Ht. apply elem_of_cons in Ht as [->|Ht]; [by eapply (from_function _ d r)|].
  apply list_elem_of_singleton in Ht. by eapply from_callback.
Qed.

Lemma owned_source t : t ∈ owned g m [] -> source t.
Proof.
  unfold owned, stored_cores, stored_defs. cbn. intros [Ht|Ht]%elem_of_app;
    apply list_elem_of_bind in Ht as ([x r] & Ht & Hx); apply elem_of_map_to_list in Hx.
  - by eapply stored_core_source.
  - by eapply stored_def_source.
Qed.

Lemma on_source o t : t ∈ on o (owned g m []) -> tok_obj t = Some o /\ source t.
Proof. unfold on. rewrite list_elem_of_filter. intros [? ?]. split; [done|]. by apply owned_source. Qed.

Lemma ct_zero f o : (forall t, source t -> f t = false) -> ct f (on o (owned g m [])) = 0%nat.
Proof.
  intros Hf. apply Nat.le_0_r. etransitivity; [apply (ct_le _ (fun _ => false))|].
  - intros t [_ Ht]%on_source. by rewrite Hf.
  - induction (on o _); cbn; lia.
Qed.

(** A core that is left is fulfilled or proxied and held by an older proxied core, or its
    continuation waits in a deferred executor. *)
Lemma left_core c r : cores m !! c = Some r ->
  (exists c' r', cores m !! c' = Some r' /\ state_ r' = Proxy /\ proxy_ r' = Some c) \/
  (getDeferredExecutor (executor_ r) = None /\ state_ r = Done /\ exists d r', deferreds m !! d = Some r').
Proof.
  intros Hr. pose proof (inv_obj _ _ _ _ _ _ HI (inl c)) as Hc. unfold obj_ok in Hc. rewrite Hr in Hc.
  destruct Hc as [Ha|(? & ? & ? & ? & ? & Hl & _)].
  2: { pose proof (ct_zero is_del (inl c) ltac:(by intros t []; subst)) as Hdel. by rewrite Hl in Hdel. }
  pose proof (al_shape _ _ _ Ha) as Hsh. pose proof (al_some _ _ _ Ha) as Hne.
  pose proof (al_claims _ _ _ Ha) as Hcl. clear Ha.
  pose proof (ct_zero is_prod (inl c) ltac:(by intros t []; subst)) as Hprod.
  pose proof (ct_zero is_px (inl c) ltac:(by intros t []; subst)) as Hpx.
  destruct (on (inl c) (owned g m [])) as [|t l] eqn:E; [done|].
  destruct (on_source (inl c) t) as [Hobj Hsrc]; [rewrite E; by left|].
  destruct Hsrc as [|c' r' p ? ? ? ->|d r' f b Hd ->|]; subst; try done.
  - left. cbn in Hobj. simplify_eq. eauto.
  - right. apply Forall_cons_1 in Hcl as [(_ & Hex & _) _]. split; [done|]. split; [|by eauto].
    unfold shape in Hsh. destruct (state_ r); cbn in *; lia || done.
Qed.

Lemma no_proxies n c r : (g_age g c < n)%nat -> cores m !! c = Some r -> state_ r <> Proxy.
Proof.
  revert c r. induction n as [|n IH]; intros c r Hn Hr Hst; [lia|].
  destruct (left_core c r Hr) as [(c' & r' & Hr' & Hst' & Hp)|(_ & E & _)]; [|congruence].
  pose proof (inv_proxies _ _ _ _ _ _ HI c' r' Hr' Hst' c Hp). eapply (IH c' r'); [lia|done|done].
Qed.

Lemma left_core_done c r : cores m !! c = Some r ->
  getDeferredExecutor (executor_ r) = None /\ exists d r', deferreds m !! d = Some r'.
Proof.
  intros Hr. destruct (left_core c r Hr) as [(c' & r' & Hr' & Hst & _)|(? & _ & ?)]; [|done].
  exfalso. apply (no_proxies (S (g_age g c')) c' r'); [lia|done|done].
Qed.

Lemma no_deferreds d : deferreds m !! d = None.
Proof.
  destruct (deferreds m !! d) as [r|] eqn:Hr; [|done]. exfalso.
  pose proof (inv_obj _ _ _ _ _ _ HI (inr d)) as Hd. unfold obj_ok in Hd. rewrite Hr in Hd.
  assert (on (inr d) (owned g m []) <> []) as Hne by (destruct Hd as [Hd|(? & -> & _)]; [apply Hd|done]).
  destruct (on (inr d) (owned g m [])) as [|t l] eqn:E; [done|].
  destruct (on_source (inr d) t) as [Hobj Hsrc]; [rewrite E; by left|].
  destruct Hsrc as [c' r' d' Hc Hex| | |]; subst; try done.
  apply left_core_done in Hc as [? _]. congruence.
Qed.

Lemma no_cores c : cores m !! c = None.
Proof.
  destruct (cores m !! c) as [r|] eqn:Hr; [|done]. apply left_core_done in Hr as (_ & d & r' & Hd).
  by rewrite no_deferreds in Hd.
Qed.

Lemma quiescent_empty : cores m = ∅ /\ deferreds m = ∅ /\ forall b, ct (event_of b) (trace m) = K b.
Proof.
  assert (cores m = ∅) as Hc by (apply map_empty, no_cores).
  assert (deferreds m = ∅) as Hd by (apply map_empty, no_deferreds). split_and!; [done..|].
  intros b. rewrite <- (inv_pend _ _ _ _ _ _ HI b). unfold owned, stored_cores, stored_defs.
  by rewrite Hc, Hd, !map_to_list_empty.
Qed.
End Quiescence.
