(* ===== verification/FutureCoreSpec.v ===== *)
(** * The shared state of a promise and a future: correctness

    Specifications of the functions of [FutureCore], proved in the logic of [FutureLogic] with the
    invariant of [FutureInvariant], and what follows for every interleaving of the producers, the
    consumers and the executors of a chain of cores. *)
From S2P Require Import Prelude FutureCore FutureLogic FutureInvariant.

(** ** Automation *)

(** A token of a kind of which the frame has none. *)
Ltac absent :=
  match goal with
  | H : ?t ∈ ?l |- _ =>
      exfalso;
      first [ pose proof (ct_elem is_prod l t H eq_refl); lia
            | pose proof (ct_elem is_cons l t H eq_refl); lia
            | pose proof (ct_elem is_late l t H eq_refl); lia
            | pose proof (ct_elem is_px l t H eq_refl); lia
            | pose proof (ct_elem is_do l t H eq_refl); lia
            | pose proof (ct_elem is_run l t H eq_refl); lia
            | pose proof (ct_elem is_clr l t H eq_refl); lia
            | pose proof (ct_elem is_cbref l t H eq_refl); lia ]
  end.

Lemma Forall_claims Good r r' l :
  (forall t, t ∈ l -> claim Good r t -> claim Good r' t) -> Forall (claim Good r) l -> Forall (claim Good r') l.
Proof. intros H. rewrite !Forall_forall. eauto. Qed.

Lemma core_inv_alive Good r t l : core_inv Good r (t :: l) -> is_del t = false -> alive Good r (t :: l).
Proof. intros [?|(c & s & p & d & b & [= -> ->] & ?)]; done. Qed.

(** The counts of a list of known tokens. *)
Ltac counts :=
  cbn [app length ct is_prod is_cons is_do is_do0 is_cbref is_run is_run0 is_clr is_px is_del is_late negb] in *.

(** The claims of the frame after a change of fields it does not depend on. *)
Ltac frame_claims :=
  match goal with
  | H : Forall (claim _ ?r) ?l |- Forall (claim _ _) ?l =>
      let t := fresh "t" in let Hin := fresh "Hin" in let Ht := fresh "Ht" in
      revert H; apply Forall_claims; intros t Hin Ht;
      destruct t as [|? |? [] |? [] | | |? ? [] ? | |? ? [] | | | | | | | | ];
      cbn in Ht |- *; unfold seen, good_result in *; cbn in Ht |- *;
      first [ done | tauto | absent | exfalso; destruct Ht; congruence
            | destruct Ht as [[Ht|Ht] ?]; (split; [first [left; congruence | right; congruence]|done])
            | idtac ]
  end.

Lemma ct_do0 l : (ct is_do0 l <= ct is_do l)%nat.
Proof. apply ct_le. by intros []. Qed.

Lemma ct_run l : (ct is_run l <= ct is_run0 l + ct is_cbref l)%nat.
Proof. induction l as [|t l IH]; cbn; [done|]. destruct t as [ | | | | | |? ? ? []| | | | | | | | | | ]; cbn; lia. Qed.

Lemma ct_run0 l : (ct is_run0 l <= ct is_run l)%nat.
Proof. apply ct_le. by intros []. Qed.

(** The facts of an [alive] core in a known state, as arithmetic on the counts of the frame. *)
Ltac open_alive H Hst :=
  let Hs := fresh "Hs" in let Ha := fresh "Ha" in let Hd := fresh "Hd" in let Hc := fresh "Hc" in
  let Hsh := fresh "Hsh" in let Hf := fresh "Hf" in let Hcl := fresh "Hcl" in let Hb := fresh "Hb" in
  destruct H as [Hs Ha Hd Hc Hsh Hf Hcl Hb];
  unfold shape in Hsh; unfold fields in Hf; rewrite ?Hst in Hsh, Hf, Hb; counts;
  repeat match type of Hcl with
         | Forall _ (_ :: _) =>
             let H1 := fresh "Hclaim" in let H2 := fresh "Hcl" in
             destruct (Forall_cons_1 _ _ _ Hcl) as [H1 H2]; clear Hcl; rename H2 into Hcl
         end;
  match type of Hcl with Forall _ ?l => pose proof (ct_do0 l); pose proof (ct_run l); pose proof (ct_run0 l) end.

Ltac close_alive Hst :=
  constructor; cbn; unfold shape, fields; cbn; rewrite ?Hst; counts;
  first [ done | lia
        | repeat case_decide;
          first [ lia | tauto | exfalso; match goal with H : ~ (_ /\ _) |- _ => apply H; split; [done|lia] end ]
        | idtac ].

(** A step that makes no new claim of age. *)
Ltac age_tac :=
  split; [repeat (constructor; [by left|]); constructor|let H := fresh "H" in cbn; intros H; first [by left | congruence]].

(** The same for deferred executors. *)
Ltac dabsent :=
  match goal with
  | H : ?t ∈ ?l |- _ =>
      exfalso;
      first [ pose proof (ct_elem is_new l t H eq_refl); lia
            | pose proof (ct_elem is_add l t H eq_refl); lia
            | pose proof (ct_elem is_set l t H eq_refl); lia
            | pose proof (ct_elem is_taken l t H eq_refl); lia ]
  end.

Lemma Forall_dclaims r r' l :
  (forall t, t ∈ l -> dclaim r t -> dclaim r' t) -> Forall (dclaim r) l -> Forall (dclaim r') l.
Proof. intros H. rewrite !Forall_forall. eauto. Qed.

Lemma def_inv_alive nesting r t l : def_inv nesting r (t :: l) -> is_ddel t = false -> dalive nesting r (t :: l).
Proof. intros [?|(d & [= -> ->] & ?)]; done. Qed.

Ltac dcounts :=
  cbn [app length ct is_new is_add is_set is_taken has_func is_ddel] in *.

Ltac dframe_claims :=
  match goal with
  | H : Forall (dclaim ?r) ?l |- Forall (dclaim _) ?l =>
      let t := fresh "t" in let Hin := fresh "Hin" in let Ht := fresh "Ht" in
      revert H; apply Forall_dclaims; intros t Hin Ht;
      destruct t as [| | | | | | | | | | | |? [] |? [] | | | ];
      cbn in Ht |- *; unfold dseen in *; cbn in Ht |- *;
      first [ done | tauto | congruence | dabsent
            | destruct Ht as [[Ht|Ht] ?]; (split; [first [left; congruence | right; congruence]|done])
            | destruct Ht as [? [Ht|Ht]]; (split; [done|first [left; congruence | right; congruence]])
            | idtac ]
  end.

Ltac open_dalive H :=
  let Hs := fresh "Hs" in let Ha := fresh "Ha" in let Hd := fresh "Hd" in
  let Hsh := fresh "Hsh" in let Hf := fresh "Hf" in let Hcl := fresh "Hcl" in let Hb := fresh "Hb" in
  let Hnest := fresh "Hnest" in
  destruct H as [Hs Ha Hd Hsh Hf Hcl Hb Hnest];
  unfold dshape in Hsh; unfold dfields in Hf; dcounts;
  repeat match type of Hcl with
         | Forall _ (_ :: _) =>
             let H1 := fresh "Hclaim" in let H2 := fresh "Hcl" in
             destruct (Forall_cons_1 _ _ _ Hcl) as [H1 H2]; clear Hcl; rename H2 into Hcl
         end;
  match type of Hcl with Forall _ ?l => pose proof (ct_le_length is_new l) end.

Ltac close_dalive :=
  constructor; cbn; unfold dshape, dfields; cbn; dcounts;
  first [ done | lia | idtac ].

Section Spec.
Variable Good : Try -> Prop.
Variable K : Callback * option Context -> nat.
Variable nesting : bool.
Abbreviation wpc := (wp (Inv Good K nesting) follows_fsm).

Definition opt_cons (p : option loc) : list tok := match p with Some p => [TCons p C_start] | None => [] end.
Definition opt_add (d : option loc) : list tok := match d with Some d => [TDAdd d A_start] | None => [] end.

(** ** Changes of the tokens on a core *)

(** A change of the phase of a token, or between tokens that play no role. *)
Definition same_role (t t' : tok) : bool :=
  match t, t' with
  | (TRef _ | TFul _), (TRef _ | TFul _) => true
  | TProd _ _, TProd _ _ | TCons _ _, TCons _ _ | TCb _, TCb _ | TClr _, TClr _ | TPx _ _ _, TPx _ _ _ => true
  | TDo _ _ _ (D_start | D_taken), TDo _ _ _ (D_start | D_taken) | TDo _ _ _ D_counted, TDo _ _ _ D_counted => true
  | TRun _ _ _ b, TRun _ _ _ b' => eqb b b'
  | _, _ => false
  end.

Lemma alive_replace r r' t t' l :
  same_role t t' = true ->
  state_ r' = state_ r -> attached_ r' = attached_ r -> callbackReferences_ r' = callbackReferences_ r ->
  fields Good r' -> claim Good r' t' -> (Forall (claim Good r) l -> Forall (claim Good r') l) ->
  alive Good r (t :: l) -> alive Good r' (t' :: l).
Proof.
  intros Hk Hst Hat Hcb Hf' Ht' Hl [Hs Ha Hd Hc Hsh Hf Hcl Hb].
  inversion Hcl as [|? ? _ Hcl']; subst.
  assert (forall f, f ∈ [is_prod; is_cons; is_do; is_do0; is_cbref; is_run; is_run0; is_clr; is_px; is_del; is_late] ->
            f t' = f t) as Hf0.
  { intros f. destruct t, t'; try done; cbn in Hk;
      repeat match goal with ph : dphase |- _ => destruct ph end; try done; try apply eqb_prop in Hk; subst; set_solver. }
  assert (forall f, f ∈ [is_prod; is_cons; is_do; is_do0; is_cbref; is_run; is_run0; is_clr; is_px; is_del; is_late] ->
            ct f (t' :: l) = ct f (t :: l)) as Hct.
  { intros f Hin. cbn. by rewrite (Hf0 f Hin). }
  constructor; try done.
  - by rewrite Hat, Ha.
  - by rewrite Hct by set_solver.
  - rewrite Hcb, Hc. by rewrite Hct by set_solver.
  - unfold shape in *. rewrite Hst, !Hct by set_solver. done.
  - constructor; auto.
  - rewrite Hst, Hct by set_solver. done.
Qed.

(** The references a destructor of a promise, a future or a guard gives up. *)
Definition releasable (c : loc) (t : tok) : Prop := t = TRef c \/ t = TFul c \/ t = TCons c C_start.

Lemma alive_release c r t l :
  releasable c t -> l <> [] -> alive Good r (t :: l) -> alive Good (set_attached (Z.of_nat (length l)) r) l.
Proof.
  intros Ht Hne [Hs Ha Hd Hc Hsh Hf Hcl Hb]. inversion Hcl as [|? ? _ Hcl']; subst.
  constructor; try done.
  1,2: destruct Ht as [->|[->| ->]]; counts; done.
  - unfold shape in *. cbn [state_ set_attached]. destruct Ht as [->|[->| ->]]; counts; destruct (state_ r); lia.
  - cbn [state_ set_attached]. destruct Ht as [->|[->| ->]]; counts;
      repeat case_decide; first [lia | tauto].
Qed.

(** The core a core in state [Proxy] is proxied to. *)
Definition proxied (r : Core) : option loc := if decide (state_ r = Proxy) then proxy_ r else None.

Lemma alive_last c r t :
  releasable c t -> alive Good r [t] ->
  dying (set_attached 0 r) (state_ r) (proxied r) (getDeferredExecutor (executor_ r)) false /\
  stored_core r = opt_add (getDeferredExecutor (executor_ r)) ++ opt_cons (proxied r).
Proof.
  intros Ht [Hs Ha Hd Hc Hsh Hf Hcl Hb]. unfold dying, stored_core, proxied. rewrite Ha.
  unfold shape in Hsh. unfold fields, good_result in Hf.
  destruct Ht as [->|[->| ->]], (state_ r) eqn:Hst; cbn in Hsh; try lia; cbn; rewrite ?Hst; split_and!;
    try done; try (by destruct (executor_ r) as [[?|]|?]; rewrite ?app_nil_r);
    try (destruct Hf as (? & Hf & ?); by rewrite Hf);
    destruct Hf as [p Hp]; rewrite Hp; cbn; destruct (executor_ r) as [[?|]|?]; done.
Qed.

Lemma wp_fetch_sub_attached n c t :
  releasable c t ->
  wpc n (fetch_add_attached c (-1))
    (fun a R => (a = 1 /\ exists s p d, R = TDel c s p d false :: opt_add d ++ opt_cons p) \/ (1 < a /\ R = [])) [t].
Proof.
  intros Ht. apply (wp_core Good K nesting n c _ _ [t] [] [t]); [done|by constructor; [destruct Ht as [->|[->| ->]]|]|done|].
  intros r l Hinv. apply core_inv_alive in Hinv; [|by destruct Ht as [->|[->| ->]]].
  pose proof (al_attached _ _ _ Hinv) as Ha. pose proof (al_bound _ _ _ Hinv) as Hb. cbn [length app] in Ha, Hb.
  assert (u8 (attached_ r + -1) = Z.of_nat (length l)) as Hu.
  { rewrite Ha. replace (_ + -1) with (Z.of_nat (length l)) by lia. apply wrap_small.
    destruct (decide _); split; lia. }
  destruct l as [|t' l].
  - destruct (alive_last _ _ _ Ht Hinv) as [Hdy Hst].
    eexists 1, _, [TDel c _ _ _ false], _. rewrite Hu, Ha. split_and!; [done|by constructor|..].
    + unfold stored_core at 1. cbn. rewrite Hst, app_nil_r. reflexivity.
    + right. do 5 eexists. by split.
    + by left.
    + age_tac.
    + left. split; [done|]. eauto.
  - exists (attached_ r), (set_attached (Z.of_nat (length (t' :: l))) r), [], []. split_and!.
    + by rewrite Hu.
    + constructor.
    + unfold stored_core. cbn -[Z.of_nat length].
      destruct (Z.ltb_spec 0 (attached_ r)), (Z.ltb_spec 0 (Z.of_nat (length (t' :: l)))); cbn [length] in *; done || lia.
    + left. by eapply alive_release.
    + by left.
    + age_tac.
    + right. split; [cbn in Ha; lia|done].
Qed.

(** ** Rules in the form the functions use *)

Lemma bindc n {A B : Type} (e : prog A) (g : A -> prog B) Q R :
  wpc n e (fun a R' => wpc n (g a) Q R') R -> wpc n (e ≫= g) Q R.
Proof. apply wp_bind, Inv_perm. Qed.

Lemma usec n {A : Type} (e : prog A) Q P F (Q' : A -> list tok -> Prop) R :
  wpc n e Q P -> R ≡ₚ P ++ F -> (forall a R1, Q a R1 -> Q' a (R1 ++ F)) -> wpc n e Q' R.
Proof. apply wp_use, Inv_perm. Qed.

Lemma permc n {A : Type} (e : prog A) Q R R' : R ≡ₚ R' -> wpc n e Q R' -> wpc n e Q R.
Proof. intros H. apply wp_perm; [apply Inv_perm|done]. Qed.

Lemma wp_dcheck n b (Q : unit -> list tok -> Prop) R : b = true -> Q tt R -> wpc n (dcheck b) Q R.
Proof. intros ->. apply wp_ret. Qed.

Lemma wp_core_get n {A : Type} c (g : Core -> A) (Q : A -> list tok -> Prop) L X R :
  R ≡ₚ L ++ X -> all_on (inl c) L -> L <> [] ->
  (forall r l, core_inv Good r (L ++ l) ->
    exists L', all_on (inl c) L' /\ core_inv Good r (L' ++ l) /\ age_step L r L' r /\ Q (g r) (L' ++ X)) ->
  wpc n (core_get c g) Q R.
Proof.
  intros HR HL Hne H. apply (wp_core Good K nesting n c _ _ L X R HR HL Hne). intros r l Hinv.
  destruct (H r l Hinv) as (L' & ? & ? & ? & ?). exists (g r), r, L', X. split_and!; try done. by left.
Qed.

(** Reading a field of a core that is being deleted. *)
Lemma wp_get_del n {A : Type} c s p d b (g : Core -> A) (Q : A -> list tok -> Prop) X :
  (forall r, dying r s p d b -> Q (g r) (TDel c s p d b :: X)) ->
  wpc n (core_get c g) Q (TDel c s p d b :: X).
Proof.
  intros H. apply (wp_core_get n c g Q [TDel c s p d b] X); [done|by constructor|done|].
  intros r l Hinv. exists [TDel c s p d b]. split_and!; [by constructor|done|age_tac|].
  apply core_inv_del in Hinv as [-> Hd]. by apply H.
Qed.

Lemma wp_any n {A : Type} `{Inhabited A} (Q : A -> list tok -> Prop) R : (forall a, Q a R) -> wpc n (any A) Q R.
Proof. intros HQ. destruct n as [|n]; [done|]. intros a. apply wp_ret, HQ. Qed.

Lemma wp_fork n (q : prog unit) R1 R2 (Q : unit -> list tok -> Prop) R :
  R ≡ₚ R1 ++ R2 -> wpc n q (fun _ R => R = []) R1 -> Q tt R2 -> wpc n (fork q) Q R.
Proof.
  intros HR Hq HQ. destruct n as [|n]; [done|]. exists R1, R2. split_and!; [done|by apply wp_step|by apply wp_ret].
Qed.

Section Step.
Variable n : nat.

Definition dreleasable (d : loc) (t : tok) : Prop :=
  t = TDRef d \/ t = TDExec d \/ t = TDAdd d A_start \/ t = TDSet d S_start \/ exists b, t = TDNew d b.

Hypothesis IH_detachOne : forall c t, releasable c t -> wpc n (detachOne c) (fun _ R => R = []) [t].
Hypothesis IH_release : forall d t, dreleasable d t -> wpc n (call_ (F_release d)) (fun _ R => R = []) [t].

Lemma wp_destroy_wrapper d X (Q : unit -> list tok -> Prop) :
  Q tt X -> wpc n (destroy_wrapper d) Q (opt_add d ++ X).
Proof.
  intros HQ. destruct d as [d|]; cbn; [|by apply wp_ret].
  eapply (usec _ _ _ [TDAdd d A_start] X); [apply IH_release; unfold dreleasable; eauto|done|].
  by intros [] R1 ->.
Qed.

Lemma wp_destroyDerived c s p d X :
  wpc n (destroyDerived c)
    (fun b R => R = TDel c s p d false :: X /\ b = bool_decide (s = OnlyResult \/ s = Done))
    (TDel c s p d false :: opt_cons p ++ X).
Proof.
  apply bindc, wp_get_del. intros r (Ha & _). apply bindc, wp_dcheck; [by rewrite Ha|].
  apply bindc, wp_get_del. intros r1 (_ & -> & _ & Hs).
  destruct s; try done; cbn in Hs.
  - destruct Hs as [-> _]. by apply wp_ret.
  - destruct Hs as [Hp [p' ->]]. unfold get_proxy. apply bindc, bindc.
    apply wp_get_del. intros r2 (_ & _ & _ & Hs2 & _). rewrite <- Hs2. apply wp_ret.
    apply bindc. eapply (usec _ _ _ [TCons p' C_start] (TDel c Proxy (Some p') d false :: X)).
    + apply IH_detachOne. unfold releasable. eauto.
    + cbn. solve_perm.
    + intros [] R1 ->. by apply wp_ret.
  - destruct Hs as [-> _]. by apply wp_ret.
  - subst p. by apply wp_ret.
Qed.

Lemma wp_delete_core c s p d :
  wpc n (delete_core c) (fun _ R => R = []) (TDel c s p d false :: opt_add d ++ opt_cons p).
Proof.
  apply bindc. eapply permc; [|eapply wp_mono; [|apply (wp_destroyDerived c s p d (opt_add d))]].
  { solve_perm. }
  intros b R [-> ->]. apply bindc.
  assert (forall b, wpc n (core_get c executor_ ≫= fun executor =>
            destroy_kod executor;; atomic (fun m => _ ← cores m !! c; Some (tt, set_cores (delete c (cores m)) m)))
            (fun _ R => R = []) (TDel c s p d b :: opt_add d)) as Hrest.
  { intros b. apply bindc, wp_get_del. intros r (_ & _ & Hd & _). apply bindc. unfold destroy_kod. rewrite <- Hd.
    eapply permc; [|apply (wp_destroy_wrapper d [TDel c s p d b])]; [solve_perm|].
    by apply wp_free. }
  case_bool_decide as Hs; [|by apply wp_ret, Hrest].
  apply (wp_core Good K nesting n c _ _ [TDel c s p d false] (opt_add d)); [done|by constructor|done|].
  intros r l Hinv. apply core_inv_del in Hinv as [-> Hdy].
  pose proof Hdy as (Ha & Hst & Hd & Hs').
  assert (p = None /\ is_Some (result_ r)) as [-> [t Ht]] by (destruct Hs; subst s; naive_solver).
  exists tt, (set_result None r), [TDel c s None d true], (opt_add d). rewrite Ht. split_and!.
  - done.
  - by constructor.
  - unfold stored_core. cbn. by rewrite Ha.
  - right. do 5 eexists. split; [done|]. unfold dying. cbn. split_and!; [done..|].
    destruct Hs; by subst s.
  - by left.
  - age_tac.
  - apply Hrest.
Qed.

Lemma wp_detachOne_body c t : releasable c t -> wpc n (detachOne_body c) (fun _ R => R = []) [t].
Proof.
  intros Ht. apply bindc. eapply wp_mono; [|by apply wp_fetch_sub_attached].
  intros a R [(-> & s & p & d & ->)|(Ha & ->)]; cbn beta.
  - apply bindc, wp_dcheck; [done|]. apply wp_delete_core.
  - apply bindc, wp_dcheck; [by apply Z.leb_le; lia|].
    destruct (Z.eqb_spec a 1); [lia|]. by apply wp_ret.
Qed.

(** The states in which a late token exists. *)
Lemma alive_done r t l : is_late t = true -> is_px t = false -> alive Good r (t :: l) -> state_ r = Done.
Proof.
  intros Hl Hp [_ _ _ _ Hsh _ _ _]. unfold shape in Hsh.
  destruct (state_ r); try done; cbn in Hsh; rewrite ?Hl, ?Hp in Hsh; try lia.
  pose proof (ct_le is_px is_late l ltac:(by intros [])). lia.
Qed.

(** Tokens on [c] without claims of age. *)
Definition plain_on (c : loc) (L : list tok) : Prop := Forall (fun t => tok_obj t = Some (inl c) /\ younger t = None) L.

(** Core [c] is [Done] and [t] is a late token on it. *)
Lemma wp_lates {A : Type} c t L (f : Core -> option (A * Core)) (Q : A -> list tok -> Prop) X :
  all_on (inl c) (t :: L) -> is_late t = true -> is_px t = false ->
  (forall r l, state_ r = Done -> alive Good r (t :: L ++ l) ->
    exists x r' L', f r = Some (x, r') /\ plain_on c L' /\ state_ r' = Done /\ 0 < attached_ r' /\
      executor_ r' = executor_ r /\ alive Good r' (L' ++ l) /\ Q x (L' ++ X)) ->
  wpc n (core_rmw c f) Q (t :: L ++ X).
Proof.
  intros Hobj Hl Hp Hf. apply (wp_core Good K nesting n c f Q (t :: L) X); [done|done|done|].
  intros r l Hinv. apply core_inv_alive in Hinv; [|by destruct t].
  pose proof (alive_done _ _ _ Hl Hp Hinv) as Hst.
  destruct (Hf r l Hst Hinv) as (x & r' & L' & Hfr & HL' & Hst' & Ha & He & Hinv' & HQ).
  apply Forall_and in HL' as [HL' HLy].
  exists x, r', L', X. split_and!; try done.
  - unfold stored_core. rewrite He, Hst, Hst'. apply Z.ltb_lt in Ha as ->.
    pose proof (al_attached _ _ _ Hinv) as Ha'. cbn in Ha'.
    destruct (Z.ltb_spec 0 (attached_ r)); [done|lia].
  - by left.
  - left. congruence.
  - split; [|by rewrite Hst']. eapply Forall_impl; [exact HLy|]. intros t' ?. by left.
Qed.

Lemma wp_late {A : Type} c t (f : Core -> option (A * Core)) (Q : A -> list tok -> Prop) X :
  tok_obj t = Some (inl c) -> is_late t = true -> is_px t = false ->
  (forall r l, state_ r = Done -> alive Good r (t :: l) ->
    exists x r' L', f r = Some (x, r') /\ plain_on c L' /\ state_ r' = Done /\ 0 < attached_ r' /\
      executor_ r' = executor_ r /\ alive Good r' (L' ++ l) /\ Q x (L' ++ X)) ->
  wpc n (core_rmw c f) Q (t :: X).
Proof. intros Hobj. apply (wp_lates c t []). by constructor. Qed.

(** The reset of a callback that nobody refers to any more. *)
Lemma wp_clear c X :
  wpc n (core_upd c (set_context None);; core_upd c (set_callback None)) (fun _ R => R = TRef c :: X) (TClr c :: X).
Proof.
  apply bindc. apply wp_late; [done..|]. intros r l Hst Ha. open_alive Ha Hst.
  exists tt, (set_context None r), [TClr c]. split_and!; [done|by constructor|done|cbn; lia|done| |].
  { close_alive Hst. constructor; [done|]. frame_claims. }
  apply wp_late; [done..|]. clear. intros r l Hst Ha. open_alive Ha Hst.
  exists tt, (set_callback None r), [TRef c]. split_and!; [done|by constructor|done|cbn; lia|done| |done].
  close_alive Hst. constructor; [done|]. frame_claims.
Qed.

Lemma wp_derefCallback c X : wpc n (derefCallback c) (fun _ R => R = TRef c :: X) (TCb c :: X).
Proof.
  apply bindc. apply wp_late; [done..|]. intros r l Hst Ha. 
  assert (callbackReferences_ r = 1 + Z.of_nat (ct is_cbref l)) as Hc by (rewrite (al_cbrefs _ _ _ Ha); cbn; lia).
  open_alive Ha Hst.
  assert (u8 (callbackReferences_ r + -1) = Z.of_nat (ct is_cbref l)) as Hu.
  { rewrite Hc. replace (_ + -1) with (Z.of_nat (ct is_cbref l)) by lia. apply wrap_small. split; lia. }
  destruct (decide (ct is_cbref l = 0%nat)) as [E|E].
  - exists 1, (set_callbackReferences 0 r), [TClr c]. rewrite Hu, Hc, E.
    split_and!; [done|by constructor|done|cbn; lia|done| |].
    + close_alive Hst. constructor; [done|]. frame_claims.
    + apply bindc, wp_dcheck; [done|]. apply wp_clear.
  - exists (callbackReferences_ r), (set_callbackReferences (Z.of_nat (ct is_cbref l)) r), [TRef c]. rewrite Hu.
    split_and!; [done|by constructor|done|cbn; lia|done| |].
    + close_alive Hst. constructor; [done|]. frame_claims.
    + apply bindc, wp_dcheck; [apply Z.leb_le; lia|].
      destruct (Z.eqb_spec (callbackReferences_ r) 1); [lia|]. by apply wp_ret.
Qed.

Lemma wp_detachOne c t X : releasable c t -> wpc n (detachOne c) (fun _ R => R = X) (t :: X).
Proof.
  intros Ht. eapply (usec _ _ _ [t] X); [by apply IH_detachOne|done|]. by intros [] R1 ->.
Qed.

Lemma wp_reference_detach c X : wpc n (reference_detach c) (fun _ R => R = X) (TCb c :: X).
Proof.
  apply bindc. eapply wp_mono; [|apply wp_derefCallback]. intros [] R ->.
  apply wp_detachOne. by left.
Qed.

(** *** Running a callback *)

(** What is left of the right to invoke a callback. *)
Definition after_run (c : loc) (counted : bool) : tok := if counted then TCb c else TClr c.

Lemma wp_invoke_event c cb cx ew ph b X :
  ph = match ew with None => I_context | Some e => I_failed e end ->
  wpc n (record_event c (fun r => t ← result_ r; Some (EInvoked cb cx ew t)))
    (fun _ R => R = TRun c cb I_invoked b :: X) (TRun c cb ph b :: TPend cb cx :: X).
Proof.
  intros Hph. apply (wp_event Good K nesting n c cb cx _ _ (TRun c cb I_invoked b)); [done..| |done].
  intros r l Hinv. apply core_inv_alive in Hinv; [|done]. split.
  - left. apply (alive_replace r r (TRun c cb ph b)); try done; [by destruct b|apply Hinv|].
    pose proof (al_claims _ _ _ Hinv) as Hcl. apply Forall_cons_1 in Hcl as [(? & ? & _) _]. done.
  - pose proof (al_claims _ _ _ Hinv) as Hcl. apply Forall_cons_1 in Hcl as [(_ & _ & Hres) _]. subst ph.
    destruct ew as [e|].
    + exists (EInvoked cb cx (Some e) (Exception e)). by rewrite Hres.
    + destruct Hres as (t & Ht & Hg). exists (EInvoked cb cx None t). by rewrite Ht.
Qed.

Lemma wp_invoke c cb cx ew b X :
  wpc n (invoke c cx ew) (fun _ R => R = after_run c b :: X) (TRun c cb I_context b :: TPend cb cx :: X).
Proof.
  apply bindc. apply wp_late; [done..|]. intros r l Hst Ha. pose proof Ha as Ha'. open_alive Ha Hst.
  destruct Hclaim as [Hcb _].
  exists (callback_ r), r, [TRun c cb I_context b]. split_and!; [done|by constructor|done|lia|done|done|].
  rewrite Hcb. clear. cbn [app]. apply bindc.
  assert (wpc n (match ew with
       | Some e => core_rmw c (fun r => match result_ r with
                                        | Some _ => Some (tt, set_result (Some (Exception e)) r)
                                        | None => None end)
       | None => Ret tt end) (fun _ R => R = TRun c cb match ew with None => I_context | Some e => I_failed e end b :: TPend cb cx :: X)
       (TRun c cb I_context b :: TPend cb cx :: X)) as Hew.
  { destruct ew as [e|]; [|by apply wp_ret]. apply wp_late; [done..|]. intros r l Hst Ha.  open_alive Ha Hst.
    destruct Hf as [t Ht]. rewrite Ht.
    exists tt, (set_result (Some (Exception e)) r), [TRun c cb (I_failed e) b].
    split_and!; [done|by constructor|done|cbn; lia|done| |done].
    destruct b; close_alive Hst; (constructor; [split_and!; [apply Hclaim|apply Hclaim|done]|]; frame_claims). }
  eapply wp_mono; [|exact Hew]. intros [] R ->. apply bindc.
  eapply wp_mono; [|by apply wp_invoke_event]. intros [] R ->. apply bindc, wp_any. intros t'.
  apply wp_late; [done..|]. intros r l Hst Ha.  open_alive Ha Hst.
  exists tt, (set_result (Some t') r), [after_run c b].
  split_and!; [done|by constructor; destruct b|done|cbn; lia|done| |done].
  destruct b; close_alive Hst; (constructor; [done|]; frame_claims).
Qed.

(** The context is moved out of the core before the call. *)
Lemma wp_take_context c cb cx b (Q : option Context -> list tok -> Prop) X :
  Q cx (TRun c cb I_context b :: X) ->
  wpc n (core_exchange c context_ (set_context None)) Q (TRun c cb (I_start cx) b :: X).
Proof.
  intros HQ. apply wp_late; [done..|]. intros r l Hst Ha.  open_alive Ha Hst.
  destruct Hclaim as (Hcb & Hex & Hcx & Hg).
  exists (context_ r), (set_context None r), [TRun c cb I_context b].
  split_and!; [done|by constructor|done|cbn; lia|done| |by rewrite Hcx].
  destruct b; close_alive Hst; (constructor; [done|]; frame_claims).
Qed.

Lemma wp_run_func f b X : wpc n (run_func f) (fun _ R => R = X) (lambda f b ++ X).
Proof.
  apply bindc, wp_take_context, bindc. eapply wp_mono; [|apply wp_invoke]. intros [] R ->.
  apply wp_reference_detach.
Qed.

Lemma wp_drop_func f b X : wpc n (drop_func f) (fun _ R => R = X) (lambda f b ++ X).
Proof.
  apply bindc. apply (wp_event Good K nesting n f b.1 b.2 _ _ (TCb f)); [done..| |apply wp_reference_detach].
  intros r l Hinv. apply core_inv_alive in Hinv; [|done].
  assert (state_ r = Done) as Hst by (by eapply alive_done; [| |exact Hinv]). open_alive Hinv Hst.
  destruct Hclaim as (Hcb & Hex & Hcx & Hg). split.
  - left. close_alive Hst. constructor; [done|]. frame_claims.
  - exists (EDropped b.1 b.2). by rewrite Hcb, Hcx.
Qed.

Lemma wp_executor_add ex f b X :
  wpc n (executor_add (Some ex) f)
    (fun res R => match res with Ok _ => R = X | Err _ => R = lambda f b ++ X end) (lambda f b ++ X).
Proof.
  unfold executor_add. apply bindc, wp_any. intros [| | | |e].
  - apply bindc. eapply wp_mono; [|apply wp_run_func]. intros [] R ->. by apply wp_ret.
  - apply bindc. eapply (wp_fork _ _ (lambda f b) X); [done| |by apply wp_ret].
    rewrite <- (app_nil_r (lambda f b)). apply wp_run_func.
  - apply bindc. eapply wp_mono; [|apply wp_drop_func]. intros [] R ->. by apply wp_ret.
  - apply bindc. eapply (wp_fork _ _ (lambda f b) X); [done| |by apply wp_ret].
    rewrite <- (app_nil_r (lambda f b)). apply wp_drop_func.
  - by apply wp_ret.
Qed.

(** *** Deferred executors *)

Definition nested_toks (ns : option (list loc)) : list tok := (fun d => TDSet d S_start) <$> default [] ns.

Lemma dreleasable_kinds d t : dreleasable d t ->
  tok_obj t = Some (inr d) /\ is_ddel t = false /\ is_taken t = false /\ has_func t = false.
Proof. by intros [->|[->|[->|[->|[? ->]]]]]. Qed.

Lemma dalive_release d r t l :
  dreleasable d t -> l <> [] -> dalive nesting r (t :: l) -> dalive nesting (set_keepAliveCount (Z.of_nat (length l)) r) l.
Proof.
  intros Ht Hne [Hs Ha Hd Hsh Hf Hcl Hb Hnest]. apply Forall_cons_1 in Hcl as [_ Hcl].
  constructor; try done.
  - destruct Ht as [->|[->|[->|[->|[? ->]]]]]; dcounts; done.
  - unfold dshape in *. cbn [dstate_ set_keepAliveCount].
    destruct Ht as [->|[->|[->|[->|[? ->]]]]]; dcounts; destruct (dstate_ r); lia.
  - unfold dfields in *. cbn [dstate_ func_ dexecutor_ set_keepAliveCount].
    destruct Ht as [->|[->|[->|[->|[? ->]]]]]; dcounts; exact Hf.
  - destruct Ht as [->|[->|[->|[->|[? ->]]]]]; dcounts; lia.
Qed.

Lemma dalive_last d r t b :
  dreleasable d t -> dalive nesting r [t] -> stored_def b r = nested_toks (nestedExecutors_ r) ++ opt_lambda (func_ r) b.
Proof.
  intros Ht [_ Ha _ _ (_ & _ & Hf) _ _ _]. unfold stored_def, nested_toks. rewrite Ha. cbn.
  destruct (decide (dstate_ r = HAS_FUNCTION)) as [|Hne]; [done|].
  destruct (func_ r) as [f|]; [|done]. destruct Hf as [Hf|Hf]; [by eauto|done|].
  apply dreleasable_kinds in Ht as (_ & _ & _ & Ht). cbn in Hf. rewrite Ht in Hf. lia.
Qed.

Lemma wp_fetch_sub_keepAlive d t :
  dreleasable d t ->
  wpc n (fetch_add_keepAliveCount d (-1))
    (fun a R => (a = 1 /\ exists ns f b, R = TDDel d ns f :: nested_toks ns ++ opt_lambda f b) \/ (1 < a /\ R = [])) [t].
Proof.
  intros Ht. pose proof (dreleasable_kinds _ _ Ht) as (Hobj & Hdel & _).
  apply (wp_def Good K nesting n d _ _ [t] [] [t]); [done|by constructor|done|].
  intros r l b Hinv. apply def_inv_alive in Hinv; [|done].
  pose proof (dal_count _ _ _ Hinv) as Ha. pose proof (dal_bound _ _ _ Hinv) as Hb. cbn [length app ct] in Ha, Hb.
  assert (i64 (keepAliveCount_ r + -1) = Z.of_nat (length l)) as Hu.
  { rewrite Ha. replace (_ + -1) with (Z.of_nat (length l)) by lia. apply swrap_small; [done|].
    unfold is_sint. lia. }
  destruct l as [|t' l].
  - eexists 1, _, [TDDel d _ _], _, b. rewrite Hu, Ha. split_and!; [done|by constructor|..].
    + unfold stored_def at 1. cbn. rewrite (dalive_last _ _ _ _ Ht Hinv), app_nil_r. reflexivity.
    + right. by exists d.
    + left. split; [done|]. eauto.
  - exists (keepAliveCount_ r), (set_keepAliveCount (Z.of_nat (length (t' :: l))) r), [], [], b. split_and!.
    + by rewrite Hu.
    + constructor.
    + unfold stored_def. cbn -[Z.of_nat length].
      destruct (Z.ltb_spec 0 (keepAliveCount_ r)), (Z.ltb_spec 0 (Z.of_nat (length (t' :: l)))); cbn [length] in *; done || lia.
    + left. by eapply dalive_release.
    + right. split; [cbn in Ha; lia|done].
Qed.

Lemma wp_release d t X : dreleasable d t -> wpc n (call_ (F_release d)) (fun _ R => R = X) (t :: X).
Proof. intros Ht. eapply (usec _ _ _ [t] X); [by apply IH_release|done|]. by intros [] R1 ->. Qed.

Lemma wp_destroy_nested ds ts X :
  Forall2 dreleasable ds ts -> wpc n (destroy_nested ds) (fun _ R => R = X) (ts ++ X).
Proof.
  induction 1 as [|d t ds ts Ht _ IH]; cbn [destroy_nested app]; [by apply wp_ret|].
  apply bindc. eapply wp_mono; [|by apply wp_release]. by intros [] R ->.
Qed.

Lemma nested_releasable ns : Forall2 dreleasable (default [] ns) (nested_toks ns).
Proof. unfold nested_toks. induction (default [] ns); cbn; constructor; [right; right; right; by left|done]. Qed.

(** Reading a field of a deferred executor that is being deleted. *)
Lemma wp_def_get_del {A : Type} d ns f (g : DeferredExecutor -> A) (Q : A -> list tok -> Prop) X :
  (forall r, nestedExecutors_ r = ns -> func_ r = f -> Q (g r) (TDDel d ns f :: X)) ->
  wpc n (def_get d g) Q (TDDel d ns f :: X).
Proof.
  intros H. apply (wp_def Good K nesting n d _ _ [TDDel d ns f] X); [done|by constructor|done|].
  intros r l b Hinv. exists (g r), r, [TDDel d ns f], X, b. split_and!; try done; [by constructor|].
  apply def_inv_del in Hinv as (-> & -> & -> & _). by apply H.
Qed.

Lemma wp_delete_deferred d ns f b :
  wpc n (delete_deferred d) (fun _ R => R = []) (TDDel d ns f :: nested_toks ns ++ opt_lambda f b).
Proof.
  apply bindc, wp_def_get_del. intros r -> _. apply bindc.
  eapply permc; [|eapply wp_mono; [|apply (wp_destroy_nested _ (nested_toks ns) (TDDel d ns f :: opt_lambda f b)), nested_releasable]].
  { solve_perm. }
  intros [] R ->. apply bindc, wp_def_get_del. intros r1 _ ->. apply bindc.
  assert (wpc n (drop_func_opt f) (fun _ R => R = [TDDel d ns f]) (opt_lambda f b ++ [TDDel d ns f])) as Hdrop.
  { destruct f as [f|]; [apply wp_drop_func|by apply wp_ret]. }
  eapply permc; [|eapply wp_mono; [|exact Hdrop]]; [solve_perm|]. intros [] R ->. by apply wp_def_free.
Qed.

Lemma wp_release_body d t : dreleasable d t -> wpc n (release_body d) (fun _ R => R = []) [t].
Proof.
  intros Ht. apply bindc. eapply wp_mono; [|by apply wp_fetch_sub_keepAlive].
  intros a R [(-> & ns & f & b & ->)|(Ha & ->)]; cbn beta.
  - apply bindc, wp_dcheck; [done|]. apply wp_delete_deferred.
  - apply bindc, wp_dcheck; [apply Z.ltb_lt; lia|].
    destruct (Z.eqb_spec a 1); [lia|]. by apply wp_ret.
Qed.

Lemma wp_deftok {A : Type} d t (f : DeferredExecutor -> option (A * DeferredExecutor)) (Q : A -> list tok -> Prop) X :
  tok_obj t = Some (inr d) -> is_ddel t = false ->
  (forall r l b, dalive nesting r (t :: l) -> exists x r' t' X' b', f r = Some (x, r') /\ tok_obj t' = Some (inr d) /\
    X' ++ stored_def b' r' ≡ₚ X ++ stored_def b r /\ dalive nesting r' (t' :: l) /\ Q x (t' :: X')) ->
  wpc n (def_rmw d f) Q (t :: X).
Proof.
  intros Hobj Hdel Hf. apply (wp_def Good K nesting n d f Q [t] X); [done|by constructor|done|].
  intros r l b Hinv. apply def_inv_alive in Hinv; [|done].
  destruct (Hf r l b Hinv) as (x & r' & t' & X' & b' & ? & ? & ? & ? & ?).
  exists x, r', [t'], X', b'. split_and!; try done; [by constructor|by left].
Qed.

Lemma wp_deftok_get {A : Type} d t (g : DeferredExecutor -> A) (Q : A -> list tok -> Prop) X :
  tok_obj t = Some (inr d) -> is_ddel t = false ->
  (forall r l, dalive nesting r (t :: l) -> exists t', tok_obj t' = Some (inr d) /\ dalive nesting r (t' :: l) /\ Q (g r) (t' :: X)) ->
  wpc n (def_get d g) Q (t :: X).
Proof.
  intros Hobj Hdel Hf. apply wp_deftok; [done..|]. intros r l b Ha.
  destruct (Hf r l Ha) as (t' & ? & ? & ?). exists (g r), r, t', X, b. done.
Qed.

Lemma ct_has_func l : (ct has_func l <= ct is_add l + ct is_taken l)%nat.
Proof.
  induction l as [|t l IH]; cbn; [done|].
  destruct t as [ | | | | | | | | | | | |? []|? []| | | ]; cbn; lia.
Qed.

Lemma wp_get_executor d (Q : KeepAlive -> list tok -> Prop) X :
  (forall ex, Q (Some ex) (TDExec d :: X)) -> wpc n (def_get d dexecutor_) Q (TDExec d :: X).
Proof.
  intros HQ. apply wp_deftok_get; [done..|]. intros r l Ha. exists (TDExec d). split_and!; [done..|].
  open_dalive Ha. destruct Hf as (Hf & _). cbn in Hclaim. destruct (Hf Hclaim) as [ex ->]. apply HQ.
Qed.

(** What a function leaves of the lambda it is given: nothing, or the lambda if it throws. *)
Definition added (t : tok) (f : loc) b X (res : answer) (R : list tok) : Prop :=
  R ≡ₚ t :: match res with Ok _ => X | Err _ => lambda f b ++ X end.

Lemma wp_addWithInline d ka f b X :
  wpc n (addWithInline d ka f) (added (TDExec d) f b X) (TDExec d :: lambda f b ++ X).
Proof.
  apply bindc, wp_get_executor. intros ex. case_decide.
  - apply bindc. eapply permc; [|eapply wp_mono; [|apply (wp_run_func f b (TDExec d :: X))]]; [solve_perm|].
    intros [] R ->. apply wp_ret. unfold added. done.
  - apply bindc, wp_get_executor. intros ex'.
    eapply permc; [|eapply wp_mono; [|apply (wp_executor_add ex' f b (TDExec d :: X))]]; [solve_perm|].
    intros res R HR. unfold added. destruct res; rewrite HR; solve_perm.
Qed.

(** Storing the function, before the state says that there is one. *)
Lemma wp_store_func d f (Q : option loc -> list tok -> Prop) X :
  Q None (TDAdd d (A_stored f EMPTY) :: X) ->
  wpc n (def_exchange d func_ (set_func (Some f))) Q (TDAdd d A_start :: X).
Proof.
  intros HQ. apply wp_deftok; [done..|]. intros r l b Ha. pose proof (ct_has_func l). open_dalive Ha.
  destruct Hf as (Hf1 & Hf2 & Hf3).
  assert (dstate_ r <> HAS_FUNCTION) as Hst by (intros E; rewrite E in Hsh; lia).
  assert (func_ r = None) as Hn.
  { destruct (func_ r); [|done]. destruct Hf3 as [?|?]; [by eauto|done|lia]. }
  exists (func_ r), (set_func (Some f) r), (TDAdd d (A_stored f EMPTY)), X, b. rewrite Hn. split_and!.
  - done.
  - done.
  - unfold stored_def. cbn. by rewrite !decide_False by done.
  - close_dalive.
    + split_and!; [done|by eauto|]. intros _. right. lia.
    + constructor; [split; [done|by left]|]. dframe_claims.
  - done.
Qed.

(** The transition to [HAS_FUNCTION], or the state that prevents it. *)
Lemma wp_cas_function d f b X :
  wpc n (cas_dstate d EMPTY HAS_FUNCTION)
    (fun res R => (res.1 = true /\ R = TDRef d :: X) \/
       (res.1 = false /\ (res.2 = HAS_EXECUTOR \/ res.2 = DETACHED) /\
        R = TDAdd d (A_stored f res.2) :: lambda f b ++ X))
    (TDAdd d (A_stored f EMPTY) :: lambda f b ++ X).
Proof.
  apply wp_deftok; [done..|]. intros r l b0 Ha. open_dalive Ha. destruct Hf as (Hf1 & Hf2 & Hf3).
  destruct Hclaim as [Hfn _]. destruct (decide (dstate_ r = EMPTY)) as [Hst|Hst].
  - rewrite Hst in Hsh. eexists _, (set_dstate HAS_FUNCTION r), (TDRef d), X, b. 
    split_and!; [reflexivity|done|..].
    + unfold stored_def. cbn. rewrite Hfn, Hst. cbn. destruct (0 <? _) eqn:E; [|apply Z.ltb_ge in E; lia]. solve_perm.
    + close_dalive.
      * split_and!; [done|by eauto|]. intros _. by left.
      * constructor; [done|]. dframe_claims.
    + by left.
  - eexists _, r, (TDAdd d (A_stored f (dstate_ r))), _, b0. 
    split_and!; [reflexivity|done|reflexivity|..].
    + close_dalive. constructor; [split; [done|by right]|done].
    + right. split; [done|]. split; [|done]. destruct (dstate_ r); try done; [lia|by left|by right].
Qed.

(** Taking the stored function back. *)
Lemma wp_unstore_func d f s (Q : option loc -> list tok -> Prop) X :
  s = HAS_EXECUTOR \/ s = DETACHED ->
  Q (Some f) ((if decide (s = HAS_EXECUTOR) then TDExec d else TDRef d) :: X) ->
  wpc n (def_exchange d func_ (set_func None)) Q (TDAdd d (A_stored f s) :: X).
Proof.
  intros Hs HQ. apply wp_deftok; [done..|]. intros r l b Ha. open_dalive Ha.
  destruct Hclaim as (Hfn & [->|Hst]); [by destruct Hs|]. destruct Hf as (Hf1 & Hf2 & Hf3).
  exists (func_ r), (set_func None r), (if decide (s = HAS_EXECUTOR) then TDExec d else TDRef d), X, b.
  rewrite Hfn. split_and!; [done|by destruct Hs as [-> | ->]|..|done].
  - unfold stored_def. cbn. rewrite !decide_False by (destruct Hs; congruence). done.
  - symmetry in Hst. rewrite Hst in Hsh, Hf1, Hf2.
    destruct Hs as [-> | ->]; cbn [decide decide_rel]; rewrite ?decide_True, ?decide_False by done; close_dalive;
      cbn; rewrite ?Hst; first [lia | split_and!; [done|done|by intros [? ?]] | constructor; [done|]; dframe_claims].
Qed.

Lemma added_ok d t f b X x :
  dreleasable d t -> exists t', dreleasable d t' /\ added t' f b X (Ok x) (t :: X).
Proof. exists t. split; [done|]. unfold added. done. Qed.

(** A deferred executor was given the lambda: it keeps it or leaves it to the caller to destroy,
    and a reference is left of the adder. *)
Lemma wp_addFrom d ka f b X :
  wpc n (addFrom d ka f) (fun res R => exists t, dreleasable d t /\ added t f b X res R)
    (TDAdd d A_start :: lambda f b ++ X).
Proof.
  assert (dreleasable d (TDAdd d A_start)) as Hr0 by (unfold dreleasable; tauto).
  assert (dreleasable d (TDExec d)) as Hr1 by (unfold dreleasable; tauto).
  assert (dreleasable d (TDRef d)) as Hr2 by (unfold dreleasable; tauto).
  apply bindc, wp_deftok_get; [done..|]. intros r l Ha. pose proof Ha as Ha'. open_dalive Ha.
  destruct (dstate_ r) eqn:Hst.
  - exists (TDAdd d A_start). split_and!; [done..|].
    apply bindc, wp_store_func, bindc, wp_ret, bindc. cbn beta.
    eapply wp_mono; [|apply (wp_cas_function d f b X)].
    intros [ok s] R [[Hok ->]|(Hok & Hcase & ->)]; cbn [fst snd] in *; subst ok; cbn beta iota.
    + by apply wp_ret, added_ok.
    + destruct Hcase as [-> | ->]; apply bindc, wp_unstore_func; [by auto| |by auto|].
      * rewrite decide_True by done. eapply wp_mono; [|apply (wp_addWithInline d ka f b X)]. eauto.
      * rewrite decide_False by done. apply bindc.
        eapply permc; [|eapply wp_mono; [|apply (wp_drop_func f b (TDRef d :: X))]]; [solve_perm|].
        intros [] R ->. by apply wp_ret, added_ok.
  - lia.
  - exists (TDExec d). split_and!; [done| |].
    + destruct Hf as (Hf1 & Hf2 & Hf3). close_dalive.
      * rewrite Hst. lia.
      * rewrite Hst. done.
      * by constructor.
    + eapply wp_mono; [|apply (wp_addWithInline d ka f b X)]. eauto.
  - exists (TDAdd d A_start). split_and!; [done..|]. apply bindc.
    eapply permc; [|eapply wp_mono; [|apply (wp_drop_func f b (TDAdd d A_start :: X))]]; [solve_perm|].
    intros [] R ->. by apply wp_ret, added_ok.
Qed.

(** *** Setting or detaching a deferred executor *)

(** The setter's reference once the state is left. *)
Definition set_done (d : loc) (s : DState) : tok := if decide (s = HAS_EXECUTOR) then TDExec d else TDRef d.

Lemma set_done_releasable d s : dreleasable d (set_done d s).
Proof. unfold set_done, dreleasable. case_decide; tauto. Qed.

Lemma wp_load_dstate d ex t (Q : DState -> list tok -> Prop) X :
  t = TDSet d (S_ready ex EMPTY) \/ (t = TDSet d S_start /\ ex = None) ->
  (forall s, s = EMPTY \/ s = HAS_FUNCTION -> Q s (TDSet d (S_ready ex s) :: X)) ->
  wpc n (def_get d dstate_) Q (t :: X).
Proof.
  intros Ht HQ.
  apply wp_deftok_get; [by destruct Ht as [->|[-> _]]|by destruct Ht as [->|[-> _]]|]. intros r l Ha.
  assert (is_Some ex -> dexecutor_ r = ex) as Hex.
  { destruct Ht as [->|[-> ->]]; [|by intros [? ?]]. by destruct (Forall_cons_1 _ _ _ (dal_claims _ _ _ Ha)) as [[_ ?] _]. }
  assert (dstate_ r = EMPTY \/ dstate_ r = HAS_FUNCTION) as Hst.
  { pose proof (dal_shape _ _ _ Ha) as Hsh. unfold dshape in Hsh.
    destruct Ht as [->|[-> _]]; dcounts; destruct (dstate_ r); try (by auto); lia. }
  exists (TDSet d (S_ready ex (dstate_ r))). split_and!; [done| |by apply HQ].
  destruct Ha as [Hs Ha Hd Hsh Hf Hcl Hb Hnest]. apply Forall_cons_1 in Hcl as [_ Hcl].
  assert (dclaim r (TDSet d (S_ready ex (dstate_ r)))) by (split; [by right|done]).
  destruct Ht as [->|[-> _]]; constructor; try done; by constructor.
Qed.

(** The transition from [EMPTY]; an adder may have come first. *)
Lemma wp_leave_from_empty d ex desired X :
  (desired = HAS_EXECUTOR /\ is_Some ex) \/ desired = DETACHED ->
  wpc n (cas_dstate d EMPTY desired)
    (fun res R => (res.1 = true /\ R = set_done d desired :: X) \/
       (res = (false, HAS_FUNCTION) /\ R = TDSet d (S_ready ex HAS_FUNCTION) :: X))
    (TDSet d (S_ready ex EMPTY) :: X).
Proof.
  intros Hdes. apply wp_deftok; [done..|]. intros r l b Ha. open_dalive Ha. destruct Hf as (Hf1 & Hf2 & Hf3).
  destruct Hclaim as [_ Hex]. destruct (decide (dstate_ r = EMPTY)) as [Hst|Hst].
  - eexists _, (set_dstate desired r), (set_done d desired), X, b.
    rewrite Hst in Hsh.
    split_and!; [reflexivity|unfold set_done; by case_decide|..|by left].
    + unfold stored_def. cbn. rewrite Hst. rewrite !decide_False; [done|done|]. by destruct Hdes as [[-> _]| ->].
    + destruct Hdes as [[-> Hsome]| ->]; unfold set_done; cbn [decide decide_rel]; rewrite ?decide_True, ?decide_False by done;
        close_dalive; first
        [ split_and!; [by rewrite (Hex Hsome) | done | intros Hfs; destruct (Hf3 Hfs); [congruence|by right]]
        | split_and!; [done | done | intros Hfs; destruct (Hf3 Hfs); [congruence|by right]]
        | constructor; [done|]; dframe_claims].
  - eexists _, r, (TDSet d (S_ready ex HAS_FUNCTION)), X, b. split_and!; [reflexivity|done|done|..].
    + assert (dstate_ r = HAS_FUNCTION) by (destruct (dstate_ r); try done; lia).
      close_dalive. constructor; [split; [by right|done]|done].
    + right. assert (dstate_ r = HAS_FUNCTION) as -> by (destruct (dstate_ r); try done; lia). done.
Qed.

(** The transition from [HAS_FUNCTION], which nobody else makes. *)
Lemma wp_leave_from_function d ex desired X :
  (desired = HAS_EXECUTOR /\ is_Some ex) \/ desired = DETACHED ->
  wpc n (cas_dstate d HAS_FUNCTION desired)
    (fun res R => res.1 = true /\ exists f b, R = TDSet d (S_taken desired f) :: lambda f b ++ X)
    (TDSet d (S_ready ex HAS_FUNCTION) :: X).
Proof.
  intros Hdes. apply wp_deftok; [done..|]. intros r l b Ha. open_dalive Ha. destruct Hf as (Hf1 & Hf2 & Hf3).
  destruct Hclaim as [[?|Hst] Hex]; [done|]. symmetry in Hst. rewrite Hst in Hsh. destruct (Hf2 Hst) as [f Hfn].
  eexists _, (set_dstate desired r), (TDSet d (S_taken desired f)), (lambda f b ++ X), b.
  rewrite decide_True by done. split_and!; [reflexivity|done|..].
  - unfold stored_def. cbn. rewrite Hst, Hfn. rewrite decide_False by (by destruct Hdes as [[-> _]| ->]).
    cbn. destruct (0 <? _) eqn:E; [|apply Z.ltb_ge in E; lia]. solve_perm.
  - destruct Hdes as [[-> Hsome]| ->]; close_dalive;
      first [ split_and!; [by rewrite (Hex Hsome) | done | intros _; right; lia]
            | split_and!; [done | done | intros _; right; lia]
            | constructor; [done|]; dframe_claims ].
  - done.
  - eauto.
Qed.

Lemma wp_leave_empty d ex desired t X :
  (desired = HAS_EXECUTOR /\ is_Some ex) \/ desired = DETACHED ->
  t = TDSet d (S_ready ex EMPTY) \/ (t = TDSet d S_start /\ ex = None) ->
  wpc n (leave_empty d desired)
    (fun (res : bool) R => if res then exists f b, R = TDSet d (S_taken desired f) :: lambda f b ++ X
                  else R = set_done d desired :: X)
    (t :: X).
Proof.
  intros Hdes Ht. apply bindc. eapply wp_load_dstate; [exact Ht|]. intros s Hs.
  apply bindc.
  assert (forall ok : bool, wpc n (if decide (HAS_FUNCTION = HAS_FUNCTION) then
              res' ← cas_dstate d HAS_FUNCTION desired; if (res'.1 : bool) then Ret true else terminate
            else terminate)
            (fun (res : bool) R => if res then exists f b, R = TDSet d (S_taken desired f) :: lambda f b ++ X
                          else R = set_done d desired :: X)
            (TDSet d (S_ready ex HAS_FUNCTION) :: X)) as Hfun.
  { intros _. rewrite decide_True by done. apply bindc.
    eapply wp_mono; [|by apply wp_leave_from_function].
    intros [ok' s'] R (Hok & f & b & ->). cbn in Hok. subst ok'. apply wp_ret. eauto. }
  destruct Hs as [-> | ->].
  - rewrite decide_True by done. eapply wp_mono; [|by apply (wp_leave_from_empty d ex)].
    intros [ok s'] R [[Hok ->]|([= -> ->] & ->)]; cbn [fst snd] in *.
    + rewrite Hok. by apply wp_ret.
    + by apply (Hfun true).
  - rewrite decide_False by done. apply wp_ret. by apply (Hfun true).
Qed.

(** The function a setter took out of the state. *)
Lemma wp_take_func d s f (Q : option loc -> list tok -> Prop) X :
  s = HAS_EXECUTOR \/ s = DETACHED ->
  Q (Some f) (set_done d s :: X) ->
  wpc n (def_exchange d func_ (set_func None)) Q (TDSet d (S_taken s f) :: X).
Proof.
  intros Hs HQ. apply wp_deftok; [done..|]. intros r l b Ha. open_dalive Ha.
  destruct Hclaim as (Hst & Hfn). destruct Hf as (Hf1 & Hf2 & Hf3). rewrite Hst in Hsh, Hf1, Hf2.
  exists (func_ r), (set_func None r), (set_done d s), X, b. rewrite Hfn.
  split_and!; [done|unfold set_done; by case_decide|..|done].
  - unfold stored_def. cbn. rewrite !decide_False by (destruct Hs; congruence). done.
  - unfold set_done. destruct Hs as [-> | ->]; cbn [decide decide_rel]; rewrite ?decide_True, ?decide_False by done;
      close_dalive; cbn; rewrite ?Hst;
      first [lia | split_and!; [done|done|by intros [? ?]] | constructor; [done|]; dframe_claims].
Qed.

(** The nested executors are taken out to be set or detached. *)
Lemma wp_take_nested d (Q : option (list loc) -> list tok -> Prop) X :
  (forall ns, Q ns (TDSet d S_start :: nested_toks ns ++ X)) ->
  wpc n (def_exchange d nestedExecutors_ (set_nestedExecutors None)) Q (TDSet d S_start :: X).
Proof.
  intros HQ. apply wp_deftok; [done..|]. intros r l b Ha. open_dalive Ha.
  exists (nestedExecutors_ r), (set_nestedExecutors None r), (TDSet d S_start), (nested_toks (nestedExecutors_ r) ++ X), b.
  split_and!; [done|done|..|apply HQ].
  - unfold stored_def, nested_toks. cbn. destruct (0 <? _) eqn:E; [|apply Z.ltb_ge in E; lia]. solve_perm.
  - close_dalive. constructor; [done|]. dframe_claims.
Qed.

Lemma wp_get_nested d (Q : option (list loc) -> list tok -> Prop) X :
  (forall ns, Q ns (TDSet d S_start :: X)) -> wpc n (def_get d nestedExecutors_) Q (TDSet d S_start :: X).
Proof. intros HQ. apply wp_deftok_get; [done..|]. intros r l Ha. exists (TDSet d S_start). done. Qed.

(** Storing the executor, before the state says that there is one. *)
Lemma wp_set_dexecutor d ex (Q : unit -> list tok -> Prop) X :
  Q tt (TDSet d (S_ready (Some ex) EMPTY) :: X) ->
  wpc n (def_upd d (set_dexecutor (Some ex))) Q (TDSet d S_start :: X).
Proof.
  intros HQ. apply wp_deftok; [done..|]. intros r l b Ha. open_dalive Ha. destruct Hf as (Hf1 & Hf2 & Hf3).
  exists tt, (set_dexecutor (Some ex) r), (TDSet d (S_ready (Some ex) EMPTY)), X, b. split_and!; [done|done|done|..|done].
  close_dalive.
  constructor; [split; [by left|done]|]. dframe_claims.
Qed.

(** [setExecutor], [detach]: a reference is left of the setter. *)
Definition left_of_setter (d : loc) X (R : list tok) : Prop := exists t, dreleasable d t /\ R ≡ₚ t :: X.

Hypothesis IH_setExecutor : forall d ex inl,
  wpc n (call (F_setExecutor d (Some ex) inl)) (fun _ R => left_of_setter d [] R) [TDSet d S_start].
Hypothesis IH_detach : forall d, wpc n (call_ (F_detach d)) (fun _ R => left_of_setter d [] R) [TDSet d S_start].

Lemma wp_set_nested ex ds X :
  wpc n (set_nested (Some ex) ds) (fun _ R => exists ts, Forall2 dreleasable ds ts /\ R ≡ₚ ts ++ X)
    (((fun d => TDSet d S_start) <$> ds) ++ X).
Proof.
  revert X. induction ds as [|d ds IH]; intros X; cbn [set_nested fmap list_fmap app].
  { apply wp_ret. exists []. split; [constructor|done]. }
  apply bindc. eapply (usec _ _ _ [TDSet d S_start] (((fun d => TDSet d S_start) <$> ds) ++ X)); [apply IH_setExecutor|done|].
  intros res R (t & Ht & HR). destruct res as [x|e].
  - eapply permc; [|eapply wp_mono; [|apply (IH (t :: X))]]; [rewrite HR; solve_perm|].
    intros res R' (ts & Hts & HR'). exists (t :: ts). split; [by constructor|]. rewrite HR'. solve_perm.
  - apply wp_ret. exists (t :: ((fun d => TDSet d S_start) <$> ds)). split; [|rewrite HR; solve_perm].
    constructor; [done|]. apply (nested_releasable (Some ds)).
Qed.

Lemma wp_detach_nested ds X :
  wpc n (detach_nested ds) (fun _ R => exists ts, Forall2 dreleasable ds ts /\ R ≡ₚ ts ++ X)
    (((fun d => TDSet d S_start) <$> ds) ++ X).
Proof.
  revert X. induction ds as [|d ds IH]; intros X; cbn [detach_nested fmap list_fmap app].
  { apply wp_ret. exists []. split; [constructor|done]. }
  apply bindc. eapply (usec _ _ _ [TDSet d S_start] (((fun d => TDSet d S_start) <$> ds) ++ X)); [apply IH_detach|done|].
  intros [] R (t & Ht & HR).
  eapply permc; [|eapply wp_mono; [|apply (IH (t :: X))]]; [rewrite HR; solve_perm|].
  intros res R' (ts & Hts & HR'). exists (t :: ts). split; [by constructor|]. rewrite HR'. solve_perm.
Qed.

Lemma wp_setExecutor_own d ex inl :
  wpc n (has_function ← leave_empty d HAS_EXECUTOR;
      if (has_function : bool) then
        func ← def_exchange d func_ (set_func None);
        ka ← def_get d dexecutor_;
        match func with
        | None => terminate
        | Some f =>
            if (inl : bool) then run_func f;; Ret (Ok true)
            else res ← executor_add ka f;
                 match res with
                 | Ok _ => Ret (Ok true)
                 | Err e => drop_func f;; Ret (Err e)
                 end
        end
      else Ret (Ok true)) (fun _ R => left_of_setter d [] R) [TDSet d (S_ready (Some ex) EMPTY)].
Proof.
  assert (dreleasable d (TDExec d)) as Hr by (unfold dreleasable; tauto).
  apply bindc. eapply wp_mono; [|apply (wp_leave_empty d (Some ex)); [left; by eauto|by left]].
  intros [] R; cbn beta iota; [|intros ->; apply wp_ret; eexists; split; [apply set_done_releasable|done]].
  intros (f & b & ->). apply bindc, wp_take_func; [by left|]. apply bindc.
  change (set_done d HAS_EXECUTOR) with (TDExec d). apply wp_get_executor. intros ex'. destruct inl.
  - apply bindc. eapply permc; [|eapply wp_mono; [|apply (wp_run_func f b [TDExec d])]]; [solve_perm|].
    intros [] R ->. apply wp_ret. by eexists.
  - apply bindc. eapply permc; [|eapply wp_mono; [|apply (wp_executor_add ex' f b [TDExec d])]]; [solve_perm|].
    intros [x|e] R ->; [apply wp_ret; by eexists|]. apply bindc.
    eapply wp_mono; [|apply (wp_drop_func f b [TDExec d])]. intros [] R ->. apply wp_ret. by eexists.
Qed.

Lemma wp_setExecutor_body d ex inl :
  wpc n (setExecutor_body d (Some ex) inl) (fun _ R => left_of_setter d [] R) [TDSet d S_start].
Proof.
  unfold setExecutor_body. apply bindc, wp_get_nested. intros ns. apply bindc.
  assert (wpc n match ns with
        | None => Ret (Ok true)
        | Some _ =>
            nestedExecutors ← def_exchange d nestedExecutors_ (set_nestedExecutors None);
            res ← set_nested (Some ex) (default [] nestedExecutors);
            destroy_nested (default [] nestedExecutors);;
            Ret res
        end (fun _ R => R = [TDSet d S_start]) [TDSet d S_start]) as Hn.
  { destruct ns as [ds|]; [|by apply wp_ret]. apply bindc, wp_take_nested. intros ns'. apply bindc.
    eapply permc; [|eapply wp_mono; [|apply (wp_set_nested ex _ [TDSet d S_start])]]; [unfold nested_toks; solve_perm|].
    intros res R (ts & Hts & HR). eapply permc; [exact HR|]. apply bindc.
    eapply wp_mono; [|by apply wp_destroy_nested]. intros [] R' ->. by apply wp_ret. }
  eapply wp_mono; [|exact Hn]. intros res R ->. destruct res as [x|e].
  - apply bindc, wp_set_dexecutor, wp_setExecutor_own.
  - apply wp_ret. eexists. split; [|done]. unfold dreleasable. tauto.
Qed.

Lemma wp_detach_body d : wpc n (detach_body d) (fun _ R => left_of_setter d [] R) [TDSet d S_start].
Proof.
  unfold detach_body. apply bindc, wp_get_nested. intros ns. apply bindc.
  assert (wpc n match ns with
        | None => Ret tt
        | Some _ =>
            nestedExecutors ← def_exchange d nestedExecutors_ (set_nestedExecutors None);
            detach_nested (default [] nestedExecutors);;
            destroy_nested (default [] nestedExecutors)
        end (fun _ R => R = [TDSet d S_start]) [TDSet d S_start]) as Hn.
  { destruct ns as [ds|]; [|by apply wp_ret]. apply bindc, wp_take_nested. intros ns'. apply bindc.
    eapply permc; [|eapply wp_mono; [|apply (wp_detach_nested _ [TDSet d S_start])]]; [unfold nested_toks; solve_perm|].
    intros res R (ts & Hts & HR). eapply permc; [exact HR|]. by apply wp_destroy_nested. }
  eapply wp_mono; [|exact Hn]. intros [] R ->. apply bindc.
  eapply wp_mono; [|apply (wp_leave_empty d None DETACHED); [by right|by right]].
  intros [] R; cbn beta iota; [|intros ->; apply wp_ret; eexists; split; [apply set_done_releasable|done]].
  intros (f & b & ->). apply bindc, wp_take_func; [by right|].
  eapply permc; [|eapply wp_mono; [|apply (wp_drop_func f b [set_done d DETACHED])]]; [solve_perm|].
  intros [] R ->. eexists. split; [apply set_done_releasable|done].
Qed.

(** *** The state machine *)

(** The tokens of the deferred executor in an [executor_], before and after its use. *)
Definition kod_used (x : KeepAliveOrDeferred) (ts : list tok) : Prop :=
  match getDeferredExecutor x with Some d => exists t, dreleasable d t /\ ts = [t] | None => ts = [] end.

Lemma wp_destroy_used x ts X : kod_used x ts -> wpc n (destroy_kod x) (fun _ R => R = X) (ts ++ X).
Proof.
  unfold kod_used, destroy_kod. destruct (getDeferredExecutor x) as [d|]; cbn.
  - intros (t & Ht & ->). by apply wp_release.
  - intros ->. by apply wp_ret.
Qed.

Lemma kod_used_fresh x : kod_used x (opt_add (getDeferredExecutor x)).
Proof.
  unfold kod_used. destruct (getDeferredExecutor x) as [d|]; [|done].
  exists (TDAdd d A_start). split; [|done]. unfold dreleasable. tauto.
Qed.

Lemma wp_doAdd ka x f b X :
  kod_bool x = true ->
  wpc n (doAdd ka x f)
    (fun res R => exists ts, kod_used x ts /\ R ≡ₚ ts ++ match res with Ok _ => X | Err _ => lambda f b ++ X end)
    (opt_add (getDeferredExecutor x) ++ lambda f b ++ X).
Proof.
  intros Hx. unfold doAdd, kod_used. destruct x as [[d|]|[ex|]]; try done; cbn [getDeferredExecutor stealKeepAlive opt_add].
  - eapply wp_mono; [|apply (wp_addFrom d ka f b X)]. intros res R (t & Ht & HR).
    exists [t]. split; [by eauto|exact HR].
  - case_decide.
    + apply bindc. eapply wp_mono; [|apply (wp_run_func f b X)]. intros [] R ->. apply wp_ret. by exists [].
    + eapply wp_mono; [|apply (wp_executor_add ex f b X)]. intros res R HR. exists []. split; [done|].
      destruct res; by rewrite HR.
Qed.

(** [doCallback] takes the executor out of the core. *)
Lemma wp_take_executor c cb cx (Q : KeepAliveOrDeferred -> list tok -> Prop) X :
  (forall x, Q x (TDo c cb cx D_taken :: opt_add (getDeferredExecutor x) ++ X)) ->
  wpc n (core_exchange c executor_ (set_executor (Deferred None))) Q (TDo c cb cx D_start :: X).
Proof.
  intros HQ. apply (wp_core Good K nesting n c _ _ [TDo c cb cx D_start] X); [done|by constructor|done|].
  intros r l Hinv. apply core_inv_alive in Hinv; [|done].
  assert (state_ r = Done) as Hst by (by eapply alive_done; [| |exact Hinv]).
  exists (executor_ r), (set_executor (Deferred None) r), [TDo c cb cx D_taken], (opt_add (getDeferredExecutor (executor_ r)) ++ X).
  open_alive Hinv Hst. destruct Hclaim as (Hcb & Hcx & Hg & _). split_and!; [done|by constructor|..].
  - unfold stored_core. cbn. rewrite Hst. destruct (0 <? _) eqn:E; [|apply Z.ltb_ge in E; lia].
    destruct (executor_ r) as [[d|]|?]; cbn; rewrite ?app_nil_r; try done. solve_perm.
  - left. close_alive Hst. constructor; [done|]. frame_claims.
  - by left.
  - age_tac.
  - apply HQ.
Qed.

(** The references to the core that guard the scope and the lambda. *)
Lemma wp_guard c cb cx X :
  wpc n (fetch_add_attached c 2;; fetch_add_callbackReferences c 2)
    (fun _ R => R ≡ₚ TFul c :: TCb c :: lambda c (cb, cx) ++ X) (TDo c cb cx D_taken :: TPend cb cx :: X).
Proof.
  apply bindc, wp_late; [done..|]. intros r l Hst Ha. open_alive Ha Hst. destruct Hclaim as (Hcb & Hcx & Hg & Hex). specialize (Hex ltac:(done)).
  assert (u8 (attached_ r + 2) = 3 + Z.of_nat (length l)) as Hu.
  { rewrite Ha0. replace (_ + 2) with (3 + Z.of_nat (length l)) by lia. apply wrap_small.
    destruct (decide _); split; lia. }
  exists (attached_ r), (set_attached (3 + Z.of_nat (length l)) r), [TDo c cb cx D_counted; TRef c; TRef c]. rewrite Hu.
  split_and!; [done|by repeat constructor|done|cbn; lia|done| |].
  { close_alive Hst. constructor; [done|]. constructor; [done|]. constructor; [done|]. frame_claims. }
  clear dependent r; clear dependent l. apply (wp_lates c _ [TRef c; TRef c]); [by repeat constructor|done|done|].
  intros r l Hst Ha. open_alive Ha Hst. destruct Hclaim as (Hcb & Hcx & Hg & Hex). specialize (Hex ltac:(done)).
  assert (callbackReferences_ r = 0) as Hrefs by lia.
  exists (callbackReferences_ r), (set_callbackReferences 2 r), [TFul c; TCb c; TRun c cb (I_start cx) true]. rewrite Hrefs.
  split_and!; [done|by repeat constructor|done|cbn; lia|done| |cbn; solve_perm].
  close_alive Hst. constructor; [by right|]. constructor; [done|]. constructor; [done|]. frame_claims.
Qed.

(** Without an executor the callback runs in the thread that completes the core. *)
Lemma wp_doCallback_inline c cb cx :
  wpc n (fetch_add_attached c 1;;
    cx ← core_exchange c context_ (set_context None);
    invoke c cx None;;
    core_upd c (set_context None);;
    core_upd c (set_callback None);;
    detachOne c) (fun _ R => R = [TFul c]) [TDo c cb cx D_taken; TPend cb cx].
Proof.
  apply bindc, wp_late; [done..|]. intros r l Hst Ha. open_alive Ha Hst. destruct Hclaim as (Hcb & Hcx & Hg & Hex). specialize (Hex ltac:(done)).
  assert (u8 (attached_ r + 1) = 2 + Z.of_nat (length l)) as Hu.
  { rewrite Ha0. replace (_ + 1) with (2 + Z.of_nat (length l)) by lia. apply wrap_small.
    destruct (decide _); split; lia. }
  exists (attached_ r), (set_attached (2 + Z.of_nat (length l)) r), [TRun c cb (I_start cx) false; TFul c]. rewrite Hu.
  split_and!; [done|by repeat constructor|done|cbn; lia|done| |].
  { close_alive Hst. constructor; [done|]. constructor; [by right|]. frame_claims. }
  apply bindc, wp_take_context, bindc.
  eapply permc; [|eapply wp_mono; [|apply (wp_invoke c cb cx None false [TFul c])]]; [cbn; solve_perm|].
  intros [] R ->. cbn beta. change (after_run c false) with (TClr c).
  assert (wpc n ((core_upd c (set_context None);; core_upd c (set_callback None));; detachOne c)
            (fun _ R => R = [TFul c]) [TClr c; TFul c]) as H'.
  { apply bindc. eapply wp_mono; [|apply wp_clear]. intros [] R ->. apply wp_detachOne. by left. }
  exact H'.
Qed.

(** The end of the scope: the local guard and the executor are destroyed. *)
Lemma wp_doCallback_end c x ts :
  kod_used x ts ->
  wpc n (reference_detach c;; destroy_kod (match x with Deferred _ => x | KeepAliveE _ => moved_from x end))
    (fun _ R => R ≡ₚ [TFul c]) (TCb c :: TFul c :: ts).
Proof.
  intros Hts. assert (kod_used (match x with Deferred _ => x | KeepAliveE _ => moved_from x end) ts) as Hts'
    by (destruct x; [done|]; exact Hts).
  apply bindc. eapply wp_mono; [|apply wp_reference_detach]. intros [] R ->.
  eapply permc; [|eapply wp_mono; [|by apply (wp_destroy_used _ ts [TFul c])]]; [solve_perm|].
  by intros [] R ->.
Qed.

Lemma wp_doCallback_executor c cb cx ka x :
  kod_bool x = true ->
  wpc n (_ ← (fetch_add_attached c 2;; fetch_add_callbackReferences c 2);
    res ← doAdd ka x c;
    match res with
    | Ok _ => Ret tt
    | Err ew => destroy_func c;; cx ← core_exchange c context_ (set_context None); invoke c cx (Some ew)
    end;;
    reference_detach c;;
    destroy_kod (match x with Deferred _ => x | KeepAliveE _ => moved_from x end))
    (fun _ R => R ≡ₚ [TFul c]) (TDo c cb cx D_taken :: opt_add (getDeferredExecutor x) ++ [TPend cb cx]).
Proof.
  intros Hx. apply bindc.
  eapply permc; [|eapply wp_mono; [|apply (wp_guard c cb cx (opt_add (getDeferredExecutor x)))]]; [solve_perm|].
  intros a R HR. eapply permc; [exact HR|]. apply bindc.
  eapply permc; [|eapply wp_mono; [|apply (wp_doAdd ka x c (cb, cx) [TFul c; TCb c] Hx)]]; [solve_perm|].
  intros res R' (ts & Hts & HR'). eapply permc; [exact HR'|]. apply bindc. destruct res as [y|ew].
  - apply wp_ret. eapply permc; [|by apply wp_doCallback_end]. solve_perm.
  - apply bindc. eapply permc; [|eapply wp_mono; [|apply (wp_reference_detach c (lambda c (cb, cx) ++ TFul c :: ts))]];
      [solve_perm|].
    intros [] R1 ->. apply bindc, wp_take_context.
    eapply wp_mono; [|apply (wp_invoke c cb cx (Some ew) true (TFul c :: ts))]. intros [] R1 ->.
    by apply wp_doCallback_end.
Qed.

Lemma wp_doCallback c cb cx ka prior :
  wpc n (doCallback c ka prior) (fun _ R => R ≡ₚ [TFul c]) [TDo c cb cx D_start; TPend cb cx].
Proof.
  apply bindc, wp_late; [done..|]. intros r l Hst Ha.
  exists (state_ r), r, [TDo c cb cx D_start]. split_and!; [done|by constructor|done| |done|done|].
  { rewrite (al_attached _ _ _ Ha). cbn. lia. }
  apply bindc, wp_dcheck; [by apply bool_decide_eq_true_2|]. clear dependent r; clear dependent l.
  apply bindc, wp_take_executor. intros x. destruct (kod_bool x) eqn:Hx.
  - exact (wp_doCallback_executor c cb cx _ x Hx).
  - replace (opt_add (getDeferredExecutor x)) with (@nil tok) by (by destruct x as [[d|]|?]).
    eapply wp_mono; [|apply wp_doCallback_inline]. by intros [] R ->.
Qed.

(** *** Steps of a core whose callback has not run *)

(** What a core owns by its state. *)
Definition stored_state (r : Core) : list tok :=
  match state_ r with
  | Proxy => opt_cons (proxy_ r)
  | OnlyCallback | OnlyCallbackAllowInline =>
      match callback_ r with Some cb => [TPend cb (context_ r)] | None => [] end
  | _ => []
  end.

Lemma stored_alive r : 0 < attached_ r -> stored_core r = opt_add (getDeferredExecutor (executor_ r)) ++ stored_state r.
Proof.
  intros Ha. unfold stored_core, stored_state. apply Z.ltb_lt in Ha as ->.
  destruct (executor_ r) as [[?|]|?], (state_ r); try done; by destruct (proxy_ r).
Qed.

(** A token on [c] that takes the place of [t], with no new claim of age. *)
Definition replaces (c : loc) (t t' : tok) : Prop :=
  tok_obj t' = Some (inl c) /\ match younger t' with None => True | y => y = younger t end.

(** The state stays, or follows an edge; it becomes [Proxy] with the younger core of [t]. *)
Variant state_step (t : tok) (r r' : Core) : Prop :=
| state_same : state_ r' = state_ r -> (state_ r = Proxy -> proxy_ r' = proxy_ r) -> state_step t r r'
| state_edge : fsm_edge (state_ r) (state_ r') = true ->
    (state_ r' = Proxy -> exists c p, younger t = Some (c, p) /\ tok_obj t = Some (inl c) /\ proxy_ r' = Some p) ->
    state_step t r r'.

Lemma state_step_fsm t r r' : state_step t r r' -> state_ r' = state_ r \/ fsm_edge (state_ r) (state_ r') = true.
Proof. intros []; auto. Qed.

Lemma state_step_age c t t' r r' : replaces c t t' -> state_step t r r' -> age_step [t] r [t'] r'.
Proof.
  intros [_ Ht'] Hst. split.
  - constructor; [|constructor]. destruct (younger t') as [y|]; [right|by left]. by constructor.
  - intros Hpx. destruct Hst as [Hs Hp|He Hp].
    + left. split; [congruence|apply Hp; congruence].
    + right. constructor. by apply Hp.
Qed.

Lemma wp_ctok {A : Type} c t (f : Core -> option (A * Core)) (Q : A -> list tok -> Prop) X :
  tok_obj t = Some (inl c) -> is_del t = false ->
  (forall r l, alive Good r (t :: l) -> exists x r' t' X', f r = Some (x, r') /\ replaces c t t' /\
    attached_ r' = attached_ r /\
    X' ++ opt_add (getDeferredExecutor (executor_ r')) ++ stored_state r' ≡ₚ
      X ++ opt_add (getDeferredExecutor (executor_ r)) ++ stored_state r /\
    alive Good r' (t' :: l) /\ state_step t r r' /\ Q x (t' :: X')) ->
  wpc n (core_rmw c f) Q (t :: X).
Proof.
  intros Hobj Hdel Hf. apply (wp_core Good K nesting n c f Q [t] X); [done|by constructor|done|].
  intros r l Hinv. apply core_inv_alive in Hinv; [|done].
  destruct (Hf r l Hinv) as (x & r' & t' & X' & Hfr & Ht' & Ha & HX & Hinv' & He & HQ).
  exists x, r', [t'], X'.
  assert (0 < attached_ r) as Hpos by (rewrite (al_attached _ _ _ Hinv); cbn; lia).
  split_and!; try done.
  - constructor; [apply Ht'|done].
  - by rewrite !stored_alive by lia.
  - by left.
  - by apply (state_step_fsm t).
  - by eapply state_step_age.
Qed.

Lemma wp_ctok_get {A : Type} c t (g : Core -> A) (Q : A -> list tok -> Prop) X :
  tok_obj t = Some (inl c) -> is_del t = false ->
  (forall r l, alive Good r (t :: l) -> exists t', replaces c t t' /\ alive Good r (t' :: l) /\ Q (g r) (t' :: X)) ->
  wpc n (core_get c g) Q (t :: X).
Proof.
  intros Hobj Hdel Hf. apply wp_ctok; [done..|]. intros r l Ha.
  destruct (Hf r l Ha) as (t' & ? & ? & ?). exists (g r), r, t', X. split_and!; try done. by left.
Qed.

(** The states in which a token exists. *)
Lemma alive_cons_state r c ph l :
  alive Good r (TCons c ph :: l) -> state_ r = Start \/ state_ r = OnlyResult \/ state_ r = Proxy.
Proof. intros [_ _ _ _ Hsh _ _ _]. unfold shape in Hsh. counts. destruct (state_ r); auto; lia. Qed.

Lemma alive_prod_state r c ph l :
  alive Good r (TProd c ph :: l) -> state_ r = Start \/ state_ r = OnlyCallback \/ state_ r = OnlyCallbackAllowInline.
Proof. intros [_ _ _ _ Hsh _ _ _]. unfold shape in Hsh. counts. destruct (state_ r); auto; lia. Qed.

Lemma alive_px_state r c p ph l : alive Good r (TPx c p ph :: l) -> state_ r = Empty.
Proof. intros [_ _ _ _ Hsh _ _ _]. unfold shape in Hsh. counts. destruct (state_ r); auto; lia. Qed.

(** A write to a field that changes only the phase of the writer's token. *)
Lemma wp_phase c t t' (u : Core -> Core) {A : Type} (g : Core -> A) (Q : A -> list tok -> Prop) X :
  tok_obj t = Some (inl c) -> replaces c t t' -> is_del t = false -> same_role t t' = true ->
  (forall r l, alive Good r (t :: l) ->
    state_ (u r) = state_ r /\ (state_ r = Proxy -> proxy_ (u r) = proxy_ r) /\ attached_ (u r) = attached_ r /\
    callbackReferences_ (u r) = callbackReferences_ r /\ executor_ (u r) = executor_ r /\
    stored_state (u r) = stored_state r /\ fields Good (u r) /\ claim Good (u r) t' /\
    (Forall (claim Good r) l -> Forall (claim Good (u r)) l) /\ Q (g r) (t' :: X)) ->
  wpc n (core_exchange c g u) Q (t :: X).
Proof.
  intros Ht Ht' Hdel Hrole Hu. apply wp_ctok; [done..|]. intros r l Ha.
  destruct (Hu r l Ha) as (Hst & Hpx & Hat & Hcb & Hex & Hss & Hf & Hcl & Hfr & HQ).
  exists (g r), (u r), t', X. split_and!; try done.
  - by rewrite Hex, Hss.
  - by apply (alive_replace r _ t).
  - by left.
Qed.

(** *** The consumer *)

Lemma wp_cons_get {A : Type} c ph (g : Core -> A) (Q : A -> list tok -> Prop) X :
  (forall r, state_ r = Start \/ state_ r = OnlyResult \/ state_ r = Proxy -> Q (g r) (TCons c ph :: X)) ->
  wpc n (core_get c g) Q (TCons c ph :: X).
Proof.
  intros HQ. apply wp_ctok_get; [done..|]. intros r l Ha. exists (TCons c ph). split_and!; [done..|].
  apply HQ. by eapply alive_cons_state.
Qed.

Lemma wp_core_setExecutor c x X :
  wpc n (core_setExecutor c x) (fun _ R => R = TCons c C_start :: X)
    (TCons c C_start :: opt_add (getDeferredExecutor x) ++ X).
Proof.
  apply bindc, wp_cons_get. intros r Hr. apply bindc, wp_dcheck; [apply bool_decide_eq_true_2; by destruct Hr as [->|[->| ->]]|].
  apply bindc, wp_cons_get. intros r' Hr'. apply bindc, wp_dcheck; [apply bool_decide_eq_true_2; by destruct Hr' as [->|[->| ->]]|].
  apply bindc. clear dependent r; clear dependent r'. apply wp_ctok; [done..|]. intros r l Ha.
  pose proof (alive_cons_state _ _ _ _ Ha) as Hst.
  exists (executor_ r), (set_executor x r), (TCons c C_start), (opt_add (getDeferredExecutor (executor_ r)) ++ X).
  split_and!; [done|done|done|..].
  - change (stored_state (set_executor x r)) with (stored_state r). cbn [executor_ set_executor]. solve_perm.
  - apply (alive_replace r _ (TCons c C_start)); try done; [apply Ha|].
    pose proof (al_shape _ _ _ Ha) as Hsh. unfold shape in Hsh.
    destruct Hst as [Hst|[Hst|Hst]]; rewrite Hst in Hsh; counts; intros Hcl; frame_claims.
  - by left.
  - eapply permc; [|apply (wp_destroy_used (executor_ r) (opt_add (getDeferredExecutor (executor_ r))) (TCons c C_start :: X)), kod_used_fresh]. solve_perm.
Qed.

Lemma wp_set_callback c cb (Q : unit -> list tok -> Prop) X :
  Q tt (TCons c (C_callback cb) :: X) ->
  wpc n (core_upd c (set_callback (Some cb))) Q (TCons c C_start :: X).
Proof.
  intros HQ. apply (wp_phase c _ (TCons c (C_callback cb)) _ (fun _ => tt)); [done..|]. intros r l Ha.
  pose proof (alive_cons_state _ _ _ _ Ha) as Hst. destruct Ha as [_ _ _ _ Hsh Hf _ _].
  unfold shape in Hsh. unfold fields, stored_state in *. cbn.
  destruct Hst as [Hst|[Hst|Hst]]; rewrite Hst in *; counts; split_and!; try done; intros Hcl; frame_claims.
Qed.

Lemma wp_set_context c cb cx (Q : unit -> list tok -> Prop) X :
  Q tt (TCons c (C_context cb cx Start) :: X) ->
  wpc n (core_upd c (set_context cx)) Q (TCons c (C_callback cb) :: X).
Proof.
  intros HQ. apply (wp_phase c _ (TCons c (C_context cb cx Start)) _ (fun _ => tt)); [done..|]. intros r l Ha.
  pose proof (alive_cons_state _ _ _ _ Ha) as Hst. destruct Ha as [_ _ _ _ Hsh Hf Hcl _].
  apply Forall_cons_1 in Hcl as [Hcb _]. unfold shape in Hsh. unfold fields, stored_state in *. cbn.
  destruct Hst as [Hst|[Hst|Hst]]; rewrite Hst in *; counts; split_and!; try done; try (by left);
    intros Hcl; frame_claims.
Qed.

(** The state the consumer loads stays, unless it is [Start]. *)
Lemma wp_cons_load c cb cx (Q : State -> list tok -> Prop) X :
  (forall s, s = Start \/ s = OnlyResult \/ s = Proxy -> Q s (TCons c (C_context cb cx s) :: X)) ->
  wpc n (core_get c state_) Q (TCons c (C_context cb cx Start) :: X).
Proof.
  intros HQ. apply wp_ctok_get; [done..|]. intros r l Ha. exists (TCons c (C_context cb cx (state_ r))).
  split_and!; [done| |apply HQ; by eapply alive_cons_state].
  pose proof (Forall_cons_1 _ _ _ (al_claims _ _ _ Ha)) as [(? & ? & _) _].
  apply (alive_replace r r (TCons c (C_context cb cx Start))); try done; [apply Ha|].
  split_and!; [done|done|by right].
Qed.

(** The transition of a consumer that comes first. *)
Lemma wp_cas_callback c cb cx next X :
  next = OnlyCallback \/ next = OnlyCallbackAllowInline ->
  wpc n (cas_state c Start next)
    (fun res R => (res.1 = true /\ R = TRef c :: X) \/
       (res.1 = false /\ (res.2 = OnlyResult \/ res.2 = Proxy) /\
        R = TCons c (C_context cb cx res.2) :: TPend cb cx :: X))
    (TCons c (C_context cb cx Start) :: TPend cb cx :: X).
Proof.
  intros Hnext. apply wp_ctok; [done..|]. intros r l Ha. pose proof (alive_cons_state _ _ _ _ Ha) as Hstate.
  destruct (decide (state_ r = Start)) as [Hst|Hst].
  - eexists _, (set_state next r), (TRef c), X. open_alive Ha Hst. destruct Hclaim as (Hcb & Hcx & _).
    split_and!; [reflexivity|done|done|..|by left].
    + unfold stored_state. cbn. rewrite Hst, Hcb, Hcx. destruct Hnext as [-> | ->]; solve_perm.
    + destruct Hnext as [-> | ->]; close_alive Hst; try (by rewrite Hcb); (constructor; [done|]; frame_claims).
    + right; [rewrite Hst|]; by destruct Hnext as [-> | ->].
  - eexists _, r, (TCons c (C_context cb cx (state_ r))), _. split_and!; [reflexivity|done|done|reflexivity|..].
    + pose proof (Forall_cons_1 _ _ _ (al_claims _ _ _ Ha)) as [(? & ? & _) _].
      apply (alive_replace r r (TCons c (C_context cb cx Start))); try done; [apply Ha|]. split_and!; [done|done|by right].
    + by left.
    + right. split; [done|]. split; [tauto|done].
Qed.

(** The transitions of a consumer that comes second. *)
Lemma wp_cas_done c cb cx X :
  wpc n (cas_state c OnlyResult Done) (fun res R => res.1 = true /\ R = TDo c cb cx D_start :: X)
    (TCons c (C_context cb cx OnlyResult) :: X).
Proof.
  apply wp_ctok; [done..|]. intros r l Ha.
  pose proof (Forall_cons_1 _ _ _ (al_claims _ _ _ Ha)) as [(Hcb & Hcx & [?|Hst]) _]; [done|]. symmetry in Hst.
  open_alive Ha Hst. eexists _, (set_state Done r), (TDo c cb cx D_start), X. rewrite decide_True by done.
  split_and!; [reflexivity|done|done|..|right; [by rewrite Hst|done]|done|done].
  - unfold stored_state. cbn. by rewrite Hst.
  - assert (ct is_do l <= ct is_late l /\ ct is_run l <= ct is_late l /\ ct is_clr l <= ct is_late l /\
            ct is_px l <= ct is_late l /\ ct is_cbref l <= ct is_late l)%nat
      by (split_and!; apply ct_le; by intros []).
    destruct Hf as (t & Ht & Hg).
    close_alive Hst. constructor; [split_and!; [done|done|by exists t|done]|]. frame_claims.
Qed.

Lemma wp_cas_empty c cb cx X :
  wpc n (cas_state c Proxy Empty)
    (fun res R => res.1 = true /\ exists p, R = TPx c p (X_start cb cx) :: TCons p C_start :: X)
    (TCons c (C_context cb cx Proxy) :: X).
Proof.
  apply wp_ctok; [done..|]. intros r l Ha.
  pose proof (Forall_cons_1 _ _ _ (al_claims _ _ _ Ha)) as [(Hcb & Hcx & [?|Hst]) _]; [done|]. symmetry in Hst.
  open_alive Ha Hst. destruct Hf as [p Hp].
  eexists _, (set_state Empty r), (TPx c p (X_start cb cx)), (TCons p C_start :: X). rewrite decide_True by done.
  split_and!; [reflexivity|done|done|..|right; [by rewrite Hst|done]|done|by eauto].
  - unfold stored_state. cbn. rewrite Hst, Hp. cbn. solve_perm.
  - assert (ct is_px l <= ct is_late l)%nat by (apply ct_le; by intros []).
    close_alive Hst. constructor; [done|]. frame_claims.
Qed.

(** *** Forwarding the callback to another core *)

Hypothesis IH_setCallback : forall c cb cx inl,
  wpc n (call_ (F_setCallback_ c (Some cb) cx inl)) (fun _ R => exists t, releasable c t /\ R ≡ₚ [t])
    [TCons c C_start; TPend cb cx].

Lemma wp_px c p ph ph' {A : Type} (g : Core -> A) (u : Core -> Core) (Q : A -> list tok -> Prop) X :
  (forall r, state_ (u r) = state_ r /\ attached_ (u r) = attached_ r /\
    callbackReferences_ (u r) = callbackReferences_ r /\ executor_ (u r) = executor_ r) ->
  (forall r, state_ r = Empty -> claim Good r (TPx c p ph) -> claim Good (u r) (TPx c p ph') /\ Q (g r) (TPx c p ph' :: X)) ->
  wpc n (core_exchange c g u) Q (TPx c p ph :: X).
Proof.
  intros Hu HQ. apply (wp_phase c _ (TPx c p ph')); [done..|]. intros r l Ha.
  pose proof (alive_px_state _ _ _ _ _ Ha) as Hst. destruct (Hu r) as (H1 & H2 & H3 & H4).
  open_alive Ha Hst. destruct (HQ r Hst Hclaim) as [Hcl' HQr].
  split_and!; try done.
  - by rewrite Hst.
  - unfold stored_state. by rewrite H1, Hst.
  - unfold fields. by rewrite H1, Hst.
  - intros Hl. revert Hl. apply Forall_claims. intros t Hin Ht.
    assert (ct is_px l = 0)%nat by lia. assert (ct is_late l = 0)%nat by lia.
    destruct t as [|? |? [] |? [] | | |? ? [] ? | |? ? [] | | | | | | | | ]; cbn in Ht |- *; try done; try absent.
    rewrite Hst in Ht. naive_solver.
Qed.

Lemma wp_px_proxy c p ph (Q : loc -> list tok -> Prop) X :
  Q p (TPx c p ph :: X) -> wpc n (get_proxy c) Q (TPx c p ph :: X).
Proof.
  intros HQ. apply bindc. change (core_get c proxy_) with (core_exchange c proxy_ (fun r => r)).
  apply (wp_px c p ph ph); [done|]. intros r _ Hcl. split; [done|]. destruct Hcl as [-> _]. by apply wp_ret.
Qed.

Lemma wp_px_executor c p ph (Q : KeepAliveOrDeferred -> list tok -> Prop) X :
  (forall x, Q x (TPx c p ph :: opt_add (getDeferredExecutor x) ++ X)) ->
  wpc n (core_exchange c executor_ (fun r => set_executor (moved_from (executor_ r)) r)) Q (TPx c p ph :: X).
Proof.
  intros HQ. apply wp_ctok; [done..|]. intros r l Ha. pose proof (alive_px_state _ _ _ _ _ Ha) as Hst.
  exists (executor_ r), (set_executor (moved_from (executor_ r)) r), (TPx c p ph), (opt_add (getDeferredExecutor (executor_ r)) ++ X).
  split_and!; [done|done|done|..|by left|apply HQ].
  - change (stored_state (set_executor _ r)) with (stored_state r). cbn [executor_ set_executor].
    replace (getDeferredExecutor (moved_from (executor_ r))) with (@None loc) by (by destruct (executor_ r)).
    cbn [opt_add]. solve_perm.
  - apply (alive_replace r _ (TPx c p ph)); try done; [apply Ha|..].
    + by destruct (Forall_cons_1 _ _ _ (al_claims _ _ _ Ha)).
    + open_alive Ha Hst. clear Hcl. intros Hcl. frame_claims.
Qed.

Lemma wp_proxyCallback c p cb cx prior X :
  wpc n (proxyCallback c prior) (fun _ R => R ≡ₚ TRef c :: X)
    (TPx c p (X_start cb cx) :: TCons p C_start :: TPend cb cx :: X).
Proof.
  apply bindc, wp_px_proxy, bindc, wp_px_executor. intros x. apply bindc.
  eapply permc; [|eapply wp_mono; [|apply (wp_core_setExecutor p x (TPx c p (X_start cb cx) :: TPend cb cx :: X))]];
    [solve_perm|].
  intros [] R ->. apply bindc. eapply permc; [|apply (wp_px_proxy c p (X_start cb cx) _ (TCons p C_start :: TPend cb cx :: X))];
    [solve_perm|].
  apply bindc, (wp_px c p (X_start cb cx) (X_context cx)); [done|]. intros r _ (Hp & Hcb & Hcx). split; [done|]. rewrite Hcb.
  apply bindc, (wp_px c p (X_context cx) X_moved); [done|]. intros r' _ (Hp' & Hcx'). split; [done|]. rewrite Hcx'.
  apply bindc. eapply (usec _ _ _ [TCons p C_start; TPend cb cx] (TPx c p X_moved :: X)); [apply IH_setCallback|solve_perm|].
  intros [] R (t & Ht & HR). eapply permc; [rewrite HR; reflexivity|]. cbn [app].
  apply bindc. eapply permc; [|apply (wp_px_proxy c p X_moved _ (t :: X))]; [solve_perm|].
  apply bindc. eapply permc; [|eapply wp_mono; [|by apply (wp_detachOne p t (TPx c p X_moved :: X))]]; [solve_perm|].
  intros [] R' ->. apply bindc, (wp_px c p X_moved X_moved _ (set_context None)); [done|].
  intros r1 _ Hcl1. split; [done|]. apply wp_ctok; [done..|]. intros r2 l Ha.
  pose proof (alive_px_state _ _ _ _ _ Ha) as Hst. open_alive Ha Hst.
  exists tt, (set_callback None r2), (TRef c), X. split_and!; [done|done|done|..|by left|done].
  - unfold stored_state. cbn. by rewrite Hst.
  - close_alive Hst. constructor; [done|]. frame_claims.
Qed.

Lemma wp_hasCallback c (Q : bool -> list tok -> Prop) X :
  Q false (TCons c C_start :: X) -> wpc n (hasCallback c) Q (TCons c C_start :: X).
Proof.
  intros HQ. apply bindc, wp_cons_get. intros r Hr. apply wp_ret. by destruct Hr as [->|[->| ->]].
Qed.

(** The consumer finds a result or a proxy. *)
Lemma wp_setCallback_second c cb cx s :
  s = OnlyResult \/ s = Proxy ->
  wpc n (match s with
       | OnlyResult =>
           res' ← cas_state c OnlyResult Done;
           if (res'.1 : bool) then doCallback c None OnlyResult else terminate
       | Proxy =>
           res' ← cas_state c Proxy Empty;
           if (res'.1 : bool) then proxyCallback c Proxy else terminate
       | _ => terminate
       end) (fun _ R => exists t, releasable c t /\ R ≡ₚ [t]) [TCons c (C_context cb cx s); TPend cb cx].
Proof.
  intros [-> | ->]; apply bindc.
  - eapply wp_mono; [|apply wp_cas_done]. intros [ok s] R [Hok ->]. cbn in Hok |- *. rewrite Hok.
    eapply wp_mono; [|apply wp_doCallback]. intros [] R HR. exists (TFul c). split; [by right; left|done].
  - eapply wp_mono; [|apply wp_cas_empty]. intros [ok s] R (Hok & p & ->). cbn in Hok |- *. rewrite Hok.
    eapply wp_mono; [|apply wp_proxyCallback]. intros [] R HR. exists (TRef c). split; [by left|done].
Qed.

Lemma wp_setCallback_body c cb cx inl :
  wpc n (setCallback_body c (Some cb) cx inl) (fun _ R => exists t, releasable c t /\ R ≡ₚ [t])
    [TCons c C_start; TPend cb cx].
Proof.
  apply bindc, wp_hasCallback, bindc, wp_dcheck; [done|].
  apply bindc, wp_set_callback, bindc, wp_set_context, bindc, wp_cons_load. intros s Hs. cbn zeta.
  set (next := match inl with permit => OnlyCallbackAllowInline | forbid => OnlyCallback end).
  assert (next = OnlyCallback \/ next = OnlyCallbackAllowInline) as Hnext by (unfold next; destruct inl; auto).
  apply bindc. destruct Hs as [->|Hs].
  - rewrite decide_True by done. eapply wp_mono; [|by apply wp_cas_callback].
    intros [ok s] R [[Hok ->]|(Hok & Hs & ->)]; cbn [fst snd] in *; rewrite Hok.
    + apply wp_ret. exists (TRef c). split; [by left|done].
    + by apply wp_setCallback_second.
  - rewrite decide_False by (by destruct Hs as [-> | ->]). apply wp_ret. by apply wp_setCallback_second.
Qed.

(** *** The producer *)

Lemma wp_set_result c t (Q : unit -> list tok -> Prop) X :
  Good t -> Q tt (TProd c (P_result Start) :: X) ->
  wpc n (core_upd c (set_result (Some t))) Q (TProd c P_start :: X).
Proof.
  intros Hg HQ. apply (wp_phase c _ (TProd c (P_result Start)) _ (fun _ => tt)); [done..|]. intros r l Ha.
  pose proof (alive_prod_state _ _ _ _ Ha) as Hst. destruct Ha as [_ _ _ _ Hsh Hf _ _].
  unfold shape in Hsh. unfold fields, stored_state in *. cbn.
  destruct Hst as [Hst|[Hst|Hst]]; rewrite Hst in *; counts; split_and!; try done; try (by left);
    try (by exists t); intros Hcl; frame_claims.
Qed.

Lemma wp_set_proxy c p (Q : unit -> list tok -> Prop) X :
  Q tt (TProd c (P_proxy p Start) :: X) ->
  wpc n (core_upd c (set_proxy (Some p))) Q (TProd c (P_next p) :: X).
Proof.
  intros HQ. apply (wp_phase c _ (TProd c (P_proxy p Start)) _ (fun _ => tt)); [done..|]. intros r l Ha.
  pose proof (alive_prod_state _ _ _ _ Ha) as Hst. destruct Ha as [_ _ _ _ Hsh Hf _ _].
  unfold shape in Hsh. unfold fields, stored_state in *. cbn.
  destruct Hst as [Hst|[Hst|Hst]]; rewrite Hst in *; counts; split_and!; try done; try (by left);
    intros Hcl; frame_claims.
Qed.

(** The phases of a producer that has stored a result or a proxy. *)
Definition p_seen (ph : State -> pphase) : Prop := ph = P_result \/ exists p, ph = P_proxy p.

Definition waiting (s : State) : Prop := s = OnlyCallback \/ s = OnlyCallbackAllowInline.

Lemma p_seen_replaces ph c s s' : p_seen ph -> replaces c (TProd c (ph s)) (TProd c (ph s')).
Proof. by intros [->|[p ->]]. Qed.

Lemma p_seen_claim r r' ph c s : p_seen ph -> claim Good r (TProd c (ph s)) ->
  result_ r' = result_ r -> proxy_ r' = proxy_ r -> claim Good r' (TProd c (ph (state_ r'))).
Proof.
  unfold claim, seen, good_result. intros [->|[p ->]]; intros [_ H] H1 H2; (split; [by right|]); [by rewrite H1|by rewrite H2].
Qed.

(** The state the producer loads stays, unless it is [Start]. *)
Lemma wp_prod_load c ph (Q : State -> list tok -> Prop) X :
  p_seen ph ->
  (forall s, s = Start \/ waiting s -> Q s (TProd c (ph s) :: X)) ->
  wpc n (core_get c state_) Q (TProd c (ph Start) :: X).
Proof.
  intros Hph HQ. apply wp_ctok_get; [done..|]. intros r l Ha. exists (TProd c (ph (state_ r))).
  split_and!; [by apply p_seen_replaces| |apply HQ; by eapply alive_prod_state].
  pose proof (Forall_cons_1 _ _ _ (al_claims _ _ _ Ha)) as [Hcl _].
  apply (alive_replace r r (TProd c (ph Start))); try done; [apply Ha|]. by eapply p_seen_claim.
Qed.

(** The transition of a producer that comes first: to [OnlyResult] or to [Proxy]. *)
Lemma wp_cas_first c ph next t' X X' :
  (ph = P_result /\ next = OnlyResult /\ t' = TFul c /\ X = X') \/
  (exists p, ph = P_proxy p /\ next = Proxy /\ t' = TRef c /\ X = TCons p C_start :: X') ->
  wpc n (cas_state c Start next)
    (fun res R => (res.1 = true /\ R = t' :: X') \/ (res.1 = false /\ waiting res.2 /\ R = TProd c (ph res.2) :: X))
    (TProd c (ph Start) :: X).
Proof.
  intros Hcase. assert (p_seen ph) as Hph by (destruct Hcase as [(? & _)|(p & ? & _)]; [by left|right; by eauto]).
  apply wp_ctok; [done..|]. intros r l Ha. pose proof (alive_prod_state _ _ _ _ Ha) as Hstate.
  pose proof (Forall_cons_1 _ _ _ (al_claims _ _ _ Ha)) as [Hcl _].
  destruct (decide (state_ r = Start)) as [Hst|Hst].
  - eexists _, (set_state next r), t', X'. open_alive Ha Hst.
    assert (replaces c (TProd c (ph Start)) t') by (by destruct Hcase as [(_ & _ & -> & _)|(? & _ & _ & -> & _)]).
    split_and!; [reflexivity|done|done|..|by left].
    + unfold stored_state. cbn. rewrite Hst. destruct Hcase as [(-> & -> & _ & ->)|(p & -> & -> & _ & ->)]; [done|].
      destruct Hcl as [_ ->]. cbn. solve_perm.
    + destruct Hcase as [(-> & -> & -> & ->)|(p & -> & -> & -> & ->)]; destruct Hcl as [_ Hcl];
        close_alive Hst; try (by rewrite Hcl); (constructor; [first [by left | done]|]; frame_claims).
      all: destruct Ht as (Ht1 & Ht2 & [Ht|Ht]); (split_and!; [done|done|left; congruence]).
    + right; [rewrite Hst; by destruct Hcase as [(_ & -> & _)|(? & _ & -> & _)]|]. cbn. intros Hpx.
      destruct Hcase as [(_ & -> & _)|(p & -> & _)]; [done|]. exists c, p. by destruct Hcl.
  - eexists _, r, (TProd c (ph (state_ r))), _. split_and!; [reflexivity|by apply p_seen_replaces|done|reflexivity|..].
    + apply (alive_replace r r (TProd c (ph Start))); try done; [apply Ha|]. by eapply p_seen_claim.
    + by left.
    + right. split; [done|]. split; [unfold waiting; tauto|done].
Qed.

(** The transition of a producer that comes second: to [Done] or to [Empty]. *)
Lemma wp_leave_callback c ph s desired X :
  waiting s ->
  (ph = P_result /\ desired = Done) \/ (exists p, ph = P_proxy p /\ desired = Empty) ->
  wpc n (leave_callback c s desired)
    (fun _ R => exists cb cx, R = match ph s with
                                  | P_proxy p _ => TPx c p (X_start cb cx)
                                  | _ => TDo c cb cx D_start
                                  end :: TPend cb cx :: X)
    (TProd c (ph s) :: X).
Proof.
  intros Hs Hcase. unfold leave_callback.
  rewrite decide_False by (destruct Hs as [-> | ->]; naive_solver). apply bindc.
  apply wp_ctok; [done..|]. intros r l Ha.
  pose proof (Forall_cons_1 _ _ _ (al_claims _ _ _ Ha)) as [Hcl _].
  assert (state_ r = s) as Hst.
  { destruct Hcase as [(-> & _)|(p & -> & _)]; destruct Hcl as [[E|E] _]; try done; by destruct Hs; congruence. }
  assert (is_Some (callback_ r)) as [cb Hcb].
  { pose proof (al_fields _ _ _ Ha) as Hf. unfold fields in Hf. rewrite Hst in Hf. by destruct Hs as [-> | ->]. }
  rewrite decide_True by done.
  eexists _, (set_state desired r), (match ph s with P_proxy p _ => TPx c p (X_start cb (context_ r))
                                     | _ => TDo c cb (context_ r) D_start end), (TPend cb (context_ r) :: X).
  split_and!; [reflexivity| |done|..].
  - destruct Hcase as [(-> & _)|(p & -> & _)]; done.
  - unfold stored_state. cbn. rewrite Hst, Hcb.
    destruct Hs as [-> | ->], Hcase as [(_ & ->)|(p & _ & ->)]; solve_perm.
  - destruct Hs as [-> | ->], Hcase as [(-> & ->)|(p & -> & ->)]; destruct Hcl as [_ Hcl]; open_alive Ha Hst;
      (assert (ct is_do l <= ct is_late l /\ ct is_run l <= ct is_late l /\ ct is_clr l <= ct is_late l /\
            ct is_px l <= ct is_late l /\ ct is_cbref l <= ct is_late l)%nat
        by (split_and!; apply ct_le; by intros []));
      (close_alive Hst; [..|constructor; [done|]; frame_claims]).
    all: destruct Hcl as (t & -> & _); done.
  - right; [rewrite Hst|]; by destruct Hs as [-> | ->], Hcase as [(_ & ->)|(p & _ & ->)].
  - apply wp_ret. eauto.
Qed.

Lemma wp_setResult_second c ka s :
  waiting s ->
  wpc n (leave_callback c s Done;; doCallback c ka s) (fun _ R => R ≡ₚ [TFul c]) [TProd c (P_result s)].
Proof.
  intros Hs. apply bindc. eapply wp_mono; [|apply (wp_leave_callback c P_result s); [done|by left]].
  intros [] R (cb & cx & ->). apply wp_doCallback.
Qed.

Lemma wp_setResult c ka t : Good t -> wpc n (setResult c ka t) (fun _ R => R ≡ₚ [TFul c]) [TProd c P_start].
Proof.
  intros Ht. apply bindc, wp_set_result; [done|]. apply bindc, (wp_prod_load c P_result); [by left|]. intros s [->|Hs].
  - apply bindc. eapply wp_mono; [|apply (wp_cas_first c P_result OnlyResult (TFul c) [] []); by left].
    intros [ok s] R [[Hok ->]|(Hok & Hs & ->)]; cbn [fst snd] in *; rewrite Hok; [by apply wp_ret|].
    by apply wp_setResult_second.
  - assert (forall Q, wpc n (leave_callback c s Done;; doCallback c ka s) Q [TProd c (P_result s)] ->
      wpc n match s with
            | Start => res ← cas_state c Start OnlyResult;
                       if (res.1 : bool) then Ret tt else leave_callback c res.2 Done;; doCallback c ka res.2
            | OnlyCallback | OnlyCallbackAllowInline => leave_callback c s Done;; doCallback c ka s
            | OnlyResult | Proxy | Done | Empty => terminate
            end Q [TProd c (P_result s)]) as Hm by (by destruct Hs as [-> | ->]).
    by apply Hm, wp_setResult_second.
Qed.

Lemma wp_setProxy_second c p s :
  waiting s ->
  wpc n (leave_callback c s Empty;; proxyCallback c s) (fun _ R => R ≡ₚ [TRef c]) [TProd c (P_proxy p s); TCons p C_start].
Proof.
  intros Hs. apply bindc. eapply wp_mono; [|apply (wp_leave_callback c (P_proxy p) s); [done|right; by eauto]].
  intros [] R (cb & cx & ->). eapply permc; [|apply (wp_proxyCallback c p cb cx s [])]. solve_perm.
Qed.

Lemma wp_setProxy_ c p : wpc n (setProxy_ c p) (fun _ R => R = []) [TProd c (P_next p); TCons p C_start].
Proof.
  apply bindc, wp_set_proxy, bindc, (wp_prod_load c (P_proxy p)); [right; by eauto|].
  assert (wpc n (detachOne c) (fun _ R => R = []) [TRef c]) as Hend by (apply wp_detachOne; by left).
  intros s [->|Hs]; apply bindc.
  - apply bindc. eapply wp_mono; [|apply (wp_cas_first c (P_proxy p) Proxy (TRef c) _ []); right; by eauto 6].
    intros [ok s] R [[Hok ->]|(Hok & Hs & ->)]; cbn [fst snd] in *; rewrite Hok; [by apply wp_ret|].
    eapply wp_mono; [|by apply wp_setProxy_second]. intros [] R HR. by eapply permc.
  - assert (wpc n (leave_callback c s Empty;; proxyCallback c s) (fun _ R => wpc n (detachOne c) (fun _ R => R = []) R)
              [TProd c (P_proxy p s); TCons p C_start]) as Hm.
    { eapply wp_mono; [|by apply wp_setProxy_second]. intros [] R HR. by eapply permc. }
    by destruct Hs as [-> | ->].
Qed.

(** The owner of a reference to a fulfilled core. *)
Lemma wp_ful_get {A : Type} c (g : Core -> A) (Q : A -> list tok -> Prop) X :
  (forall r, state_ r = OnlyResult \/ state_ r = Done -> Q (g r) (TFul c :: X)) ->
  wpc n (core_get c g) Q (TFul c :: X).
Proof.
  intros HQ. apply wp_ctok_get; [done..|]. intros r l Ha. exists (TFul c). split_and!; [done..|].
  apply HQ. by destruct (Forall_cons_1 _ _ _ (al_claims _ _ _ Ha)).
Qed.

Lemma wp_hasResult_body c : wpc n (hasResult_body c) (fun res R => res = Ok true /\ R = [TFul c]) [TFul c].
Proof. apply bindc, wp_ful_get. intros r [-> | ->]; by apply wp_ret. Qed.

(** A producer that has not set the result. *)
Lemma wp_hasResult_prod c :
  wpc n (hasResult_body c) (fun res R => res = Ok false /\ R = [TProd c P_start]) [TProd c P_start].
Proof.
  apply bindc, wp_ctok_get; [done..|]. intros r l Ha. exists (TProd c P_start). split_and!; [done..|].
  destruct (alive_prod_state _ _ _ _ Ha) as [->|[->| ->]]; by apply wp_ret.
Qed.

Hypothesis IH_hasResult : forall c, wpc n (call (F_hasResult c)) (fun res R => res = Ok true /\ R = [TFul c]) [TFul c].

Lemma wp_detachPromise c : wpc n (detachPromise c) (fun _ R => R = []) [TFul c].
Proof.
  apply bindc. eapply wp_mono; [|apply IH_hasResult]. intros res R [-> ->].
  apply bindc, wp_dcheck; [done|]. apply wp_detachOne. right; by left.
Qed.
End Step.

(** ** All functions together *)

Lemma wp_call_unit n f Q R :
  wpc n (body f) (fun _ R' => Q tt R') R -> wpc (S n) (call_ f) Q R.
Proof.
  intros H. change (wpc n (body f) (fun _ R' => wpc n (Ret tt) Q R') R).
  eapply wp_mono; [|exact H]. intros x R' ?. by apply wp_ret.
Qed.

Lemma wp_body_unit n (p : prog unit) (Q : unit -> list tok -> Prop) R :
  wpc n p Q R -> wpc n (p;; Ret (Ok true) : prog answer) (fun _ R' => Q tt R') R.
Proof. intros H. apply bindc. eapply wp_mono; [|exact H]. intros [] R' ?. by apply wp_ret. Qed.

Record specs (n : nat) : Prop := {
  sp_detachOne : forall c t, releasable c t -> wpc n (detachOne c) (fun _ R => R = []) [t];
  sp_release : forall d t, dreleasable d t -> wpc n (call_ (F_release d)) (fun _ R => R = []) [t];
  sp_setExecutor : forall d ex inl,
    wpc n (call (F_setExecutor d (Some ex) inl)) (fun _ R => left_of_setter d [] R) [TDSet d S_start];
  sp_detach : forall d, wpc n (call_ (F_detach d)) (fun _ R => left_of_setter d [] R) [TDSet d S_start];
  sp_setCallback : forall c cb cx inl,
    wpc n (call_ (F_setCallback_ c (Some cb) cx inl)) (fun _ R => exists t, releasable c t /\ R ≡ₚ [t])
      [TCons c C_start; TPend cb cx];
  sp_hasResult : forall c, wpc n (call (F_hasResult c)) (fun res R => res = Ok true /\ R = [TFul c]) [TFul c];
  sp_hasResult_prod : forall c,
    wpc n (call (F_hasResult c)) (fun res R => res = Ok false /\ R = [TProd c P_start]) [TProd c P_start]
}.

Lemma all_specs n : specs n.
Proof.
  induction n as [|n [H1 H2 H3 H4 H5 H6 H7]]; [done|]. split; intros.
  - apply wp_call_unit, (wp_body_unit n (detachOne_body c) (fun _ R => R = [])). by apply wp_detachOne_body.
  - apply wp_call_unit, (wp_body_unit n (release_body d) (fun _ R => R = [])). by apply wp_release_body.
  - apply wp_call. by apply wp_setExecutor_body.
  - apply wp_call_unit, (wp_body_unit n (detach_body d) (fun _ R => left_of_setter d [] R)). by apply wp_detach_body.
  - apply wp_call_unit, (wp_body_unit n (setCallback_body c (Some cb) cx inl) (fun _ R => exists t, releasable c t /\ R ≡ₚ [t])). by apply wp_setCallback_body.
  - apply wp_call. apply wp_hasResult_body.
  - apply wp_call. apply wp_hasResult_prod.
Qed.

(** ** The specifications the clients use *)

Lemma spec_make n (Q : loc -> list tok -> Prop) R :
  (forall c, Q c (TProd c P_start :: TCons c C_start :: R)) -> wpc n make Q R.
Proof.
  intros HQ. apply bindc, wp_any. intros l.
  apply (wp_alloc Good K nesting n _ (fun c => [TProd c P_start; TCons c C_start])); try done.
  - intros c. by repeat constructor.
  - intros c. left. constructor; cbn; unfold shape; cbn; try done; try lia. by repeat constructor.
Qed.

(** A core that the producer of [c] is about to give to [setProxy]. *)
Lemma spec_make_next n c (Q : loc -> list tok -> Prop) X :
  (forall q, Q q (TProd c (P_next q) :: TProd q P_start :: TCons q C_start :: X)) ->
  wpc n make Q (TProd c P_start :: X).
Proof.
  intros HQ. apply bindc, wp_any. intros l.
  apply (wp_alloc_next Good K nesting n _ (fun q => [TProd q P_start; TCons q C_start])); try done.
  - intros q. split; by repeat constructor.
  - intros q. left. constructor; cbn; unfold shape; cbn; try done; try lia. by repeat constructor.
Qed.

Lemma spec_create n (Q : loc -> list tok -> Prop) R :
  (forall d, Q d (TDNew d false :: R)) -> wpc n DeferredExecutor_create Q R.
Proof.
  intros HQ. apply bindc, wp_any. intros l.
  apply (wp_def_alloc Good K nesting n _ (fun d => [TDNew d false])); try done.
  - intros d. by repeat constructor.
  - intros d. left. constructor; cbn; unfold dshape, dfields; cbn; try done; try lia.
    all: first [by repeat constructor | split_and!; [done|done|by intros [? ?]]].
Qed.

(** The second reference to a deferred executor: one adds a function, the other sets the executor. *)
Lemma spec_copy n d b (Q : loc -> list tok -> Prop) X :
  Q d (TDAdd d A_start :: TDSet d S_start :: X) -> wpc n (DeferredExecutor_copy d) Q (TDNew d b :: X).
Proof.
  intros HQ. unfold DeferredExecutor_copy, acquire. apply bindc, bindc.
  apply (wp_def Good K nesting n d _ _ [TDNew d b] X); [done|by constructor|done|].
  intros r l g Hinv. apply def_inv_alive in Hinv; [|done]. open_dalive Hinv. destruct Hf as (Hf1 & Hf2 & Hf3).
  destruct Hclaim as [Hst _]. rewrite Hst in Hsh. destruct l as [|? l]; [|cbn in Hb; lia]. cbn in Ha.
  exists 1, (set_keepAliveCount 2 r), [TDAdd d A_start; TDSet d S_start], X, g. rewrite Ha.
  split_and!; [done|by repeat constructor| | |].
  - unfold stored_def. cbn. by rewrite Ha.
  - left. constructor; cbn; unfold dshape, dfields; cbn; rewrite ?Hst; try done; try lia.
    + rewrite Hst in Hf3. by cbn in Hf3.
    + by repeat constructor.
  - apply wp_dcheck; [done|]. apply wp_ret. done.
Qed.

(** The executors of combined futures are set when the executor of the combination is. *)
Lemma spec_setNestedExecutors n d ds (Q : unit -> list tok -> Prop) X :
  nesting = true -> Q tt (TDNew d true :: X) ->
  wpc n (setNestedExecutors d ds) Q (TDNew d false :: ((fun d => TDSet d S_start) <$> ds) ++ X).
Proof.
  intros Hnesting HQ. apply bindc, wp_deftok_get; [done..|]. intros r l Ha. pose proof Ha as Ha'. open_dalive Ha.
  exists (TDNew d false). split_and!; [done|done|]. destruct Hclaim as [_ Hn]. rewrite (Hn eq_refl).
  apply bindc, wp_dcheck; [done|]. clear dependent r; clear dependent l.
  apply wp_deftok; [done..|]. intros r l b Ha. open_dalive Ha. destruct Hclaim as [Hst Hn].
  exists tt, (set_nestedExecutors (Some ds) r), (TDNew d true), X, b. split_and!; [done|done|..|done].
  - unfold stored_def. cbn. rewrite (Hn eq_refl). destruct (0 <? _) eqn:E; [|apply Z.ltb_ge in E; lia].
    cbn. solve_perm.
  - close_dalive; [|congruence]. constructor; [done|]. dframe_claims.
Qed.

Lemma spec_hasResult_prod n c (Q : answer -> list tok -> Prop) X :
  Q (Ok false) (TProd c P_start :: X) -> wpc n (call (F_hasResult c)) Q (TProd c P_start :: X).
Proof.
  intros HQ. eapply (usec _ _ _ [TProd c P_start] X); [apply all_specs|done|]. by intros res R1 [-> ->].
Qed.

Lemma spec_hasResult n c (Q : answer -> list tok -> Prop) X :
  Q (Ok true) (TFul c :: X) -> wpc n (call (F_hasResult c)) Q (TFul c :: X).
Proof.
  intros HQ. eapply (usec _ _ _ [TFul c] X); [apply all_specs|done|]. by intros res R1 [-> ->].
Qed.

Lemma spec_setResult n c ka t : Good t -> wpc n (setResult c ka t) (fun _ R => R ≡ₚ [TFul c]) [TProd c P_start].
Proof. pose proof (all_specs n) as [H1 H2 H3 H4 H5 H6 H7]. by apply wp_setResult. Qed.

Lemma spec_setProxy n c p : wpc n (setProxy_ c p) (fun _ R => R = []) [TProd c (P_next p); TCons p C_start].
Proof. pose proof (all_specs n) as [H1 H2 H3 H4 H5 H6 H7]. by apply wp_setProxy_. Qed.

Lemma spec_detachPromise n c : wpc n (detachPromise c) (fun _ R => R = []) [TFul c].
Proof. pose proof (all_specs n) as [H1 H2 H3 H4 H5 H6 H7]. by apply wp_detachPromise. Qed.

Lemma spec_setCallback n c cb cx inl :
  wpc n (setCallback c cb cx inl) (fun _ R => exists t, releasable c t /\ R ≡ₚ [t]) [TCons c C_start; TPend cb cx].
Proof. apply all_specs. Qed.

Lemma spec_detachOne n c t X : releasable c t -> wpc n (detachOne c) (fun _ R => R = X) (t :: X).
Proof. pose proof (all_specs n) as [H1 H2 H3 H4 H5 H6 H7]. by apply wp_detachOne. Qed.

Lemma spec_core_setExecutor n c x X :
  wpc n (core_setExecutor c x) (fun _ R => R = TCons c C_start :: X)
    (TCons c C_start :: opt_add (getDeferredExecutor x) ++ X).
Proof. pose proof (all_specs n) as [H1 H2 H3 H4 H5 H6 H7]. by apply wp_core_setExecutor. Qed.

Lemma spec_release n d t X : dreleasable d t -> wpc n (destroy_wrapper (Some d)) (fun _ R => R = X) (t :: X).
Proof.
  intros Ht. eapply (usec _ _ _ [t] X); [by apply (sp_release n (all_specs n))|done|]. by intros [] R1 ->.
Qed.

Lemma spec_def_setExecutor n d ex inl :
  wpc n (call (F_setExecutor d (Some ex) inl)) (fun _ R => left_of_setter d [] R) [TDSet d S_start].
Proof. apply (sp_setExecutor n (all_specs n)). Qed.

Lemma spec_def_detach n d :
  wpc n (call_ (F_detach d)) (fun _ R => left_of_setter d [] R) [TDSet d S_start].
Proof. apply (sp_detach n (all_specs n)). Qed.
End Spec.
