(* ===== verification/Promise.v ===== *)
(** * Promises and futures

    Models the operations of [folly/futures/Promise-inl.h] and the part of
    [folly/futures/Future-inl.h] that uses the core directly, on top of [FutureCore], and states what
    holds of every interleaving of a producer that uses a promise in any way, the consumer of its
    future, and the executors that run the callback. *)
From S2P Require Import Prelude FutureCore FutureLogic FutureInvariant FutureCoreSpec.

(** ** The code *)

Inductive FutureException :=
| PromiseInvalid | PromiseAlreadySatisfied | FutureAlreadyRetrieved | FutureInvalid | FutureAlreadyContinued.

(** The exception of a promise destroyed before it was fulfilled. *)
Definition BrokenPromise : exception_wrapper := 0.

Record Promise := mkPromise { retrieved_ : bool; core_ : option loc }.
Record FutureBase := mkFuture { fcore_ : option loc }.

Definition hasResult (c : loc) : prog bool :=
  res ← call (F_hasResult c); Ret (match res with Ok b => b | Err _ => false end).

Definition Promise_new : prog Promise := c ← make; Ret (mkPromise false (Some c)).
Definition Promise_makeEmpty : Promise := mkPromise false None.

(** The move constructor: the new promise and what is left of the old one. *)
Definition Promise_move (other : Promise) : Promise * Promise :=
  (mkPromise (retrieved_ other) (core_ other), mkPromise false None).

Definition throwIfFulfilled (p : Promise) : prog (result FutureException unit) :=
  match core_ p with
  | None => Ret (Err PromiseInvalid)
  | Some c => b ← hasResult c; Ret (if (b : bool) then Err PromiseAlreadySatisfied else Ok tt)
  end.

Definition coreDetachPromiseMaybeWithResult (c : loc) : prog unit :=
  b ← hasResult c;
  (if (b : bool) then Ret tt else setResult c None (Exception BrokenPromise));;
  detachPromise c.

Definition Promise_detach (p : Promise) : prog Promise :=
  match core_ p with
  | None => Ret p
  | Some c =>
      (if retrieved_ p then Ret tt else detachFuture c);;
      coreDetachPromiseMaybeWithResult c;;
      Ret (mkPromise (retrieved_ p) None)
  end.

Definition Promise_assign (p other : Promise) : prog (Promise * Promise) :=
  Promise_detach p;; Ret (Promise_move other).

Definition getSemiFuture (p : Promise) : Promise * result FutureException FutureBase :=
  if retrieved_ p then (p, Err FutureAlreadyRetrieved)
  else (mkPromise true (core_ p),
        match core_ p with Some c => Ok (mkFuture (Some c)) | None => Err PromiseInvalid end).

Definition setTry (p : Promise) (ka : KeepAlive) (t : Try) : prog (result FutureException unit) :=
  res ← throwIfFulfilled p;
  match res, core_ p with
  | Err e, _ => Ret (Err e)
  | Ok _, Some c => setResult c ka t;; Ret (Ok tt)
  | Ok _, None => terminate
  end.

Definition setException (p : Promise) (ew : exception_wrapper) : prog (result FutureException unit) :=
  setTry p None (Exception ew).
Definition setValue (p : Promise) (v : Z) : prog (result FutureException unit) := setTry p None (Value v).

Definition isFulfilled (p : Promise) : prog bool :=
  match core_ p with Some c => hasResult c | None => Ret true end.

Definition FutureBase_detach (f : FutureBase) : prog FutureBase :=
  match fcore_ f with Some c => detachFuture c;; Ret (mkFuture None) | None => Ret f end.

Definition throwIfContinued (f : FutureBase) : prog (result FutureException unit) :=
  match fcore_ f with
  | None => Ret (Err FutureAlreadyContinued)
  | Some c => b ← hasCallback c; Ret (if (b : bool) then Err FutureAlreadyContinued else Ok tt)
  end.

Definition FutureBase_setCallback_ (f : FutureBase) (cb : Callback) (cx : option Context)
    (allowInline : InlineContinuation) : prog (result FutureException unit) :=
  res ← throwIfContinued f;
  match res, fcore_ f with
  | Err e, _ => Ret (Err e)
  | Ok _, Some c => setCallback c cb cx allowInline;; Ret (Ok tt)
  | Ok _, None => terminate
  end.

(** [std::exchange(statePromise.core_, nullptr)->setProxy(std::exchange(tf3.core_, nullptr))], the end
    of a continuation that returns a future. *)
Definition setProxy (p : Promise) (f : FutureBase) : prog unit :=
  match core_ p, fcore_ f with
  | Some c, Some c' => setProxy_ c c'
  | _, _ => terminate
  end.

(** ** Programs that use a promise and a future *)

(** What the owner of a promise does with it: it calls [setTry] any number of times, and in the end
    destroys the promise or forwards it to the future of another promise, whose owner is another
    thread. *)
Inductive producer :=
| P_destroy
| P_setTry (ka : KeepAlive) (t : Try) (rest : producer)
| P_forward (other : producer).

Fixpoint run_producer (s : producer) (p : Promise) : prog unit :=
  match s with
  | P_destroy => Promise_detach p;; Ret tt
  | P_setTry ka t rest => setTry p ka t;; run_producer rest p
  | P_forward other =>
      fulfilled ← isFulfilled p;
      if (fulfilled : bool) then Promise_detach p;; Ret tt
      else q ← Promise_new;
           match getSemiFuture q with
           | (q, Ok f) => fork (run_producer other q);; setProxy p f
           | (_, Err _) => terminate
           end
  end.

(** The result the promise ends up with. *)
Fixpoint outcome (s : producer) : Try :=
  match s with
  | P_destroy => Exception BrokenPromise
  | P_setTry _ t _ => t
  | P_forward other => outcome other
  end.

(** Where the consumer wants its callback to run: in the thread that completes the future, on an
    executor, on a deferred executor that is later given an executor or detached. *)
Inductive where_to_run :=
| Inline
| On (ex : Executor)
| DeferredThen (ex : option Executor).

(** What the owner of the future does: it chooses an executor, sets a callback or does not, and
    destroys the future. *)
Definition run_consumer (f : FutureBase) (w : where_to_run)
    (callback : option (Callback * option Context)) (inl : InlineContinuation) : prog unit :=
  let attach := match callback with
                | Some (cb, cx) => FutureBase_setCallback_ f cb cx inl;; Ret tt
                | None => Ret tt
                end in
  match fcore_ f with
  | None => terminate
  | Some c =>
      match w with
      | Inline => attach;; FutureBase_detach f;; Ret tt
      | On ex => core_setExecutor c (KeepAliveE (Some ex));; attach;; FutureBase_detach f;; Ret tt
      | DeferredThen ex =>
          d ← DeferredExecutor_create;
          d' ← DeferredExecutor_copy d;
          core_setExecutor c (Deferred (Some d'));;
          attach;;
          FutureBase_detach f;;
          match ex with
          | Some ex => call (F_setExecutor d (Some ex) false);; Ret tt
          | None => call_ (F_detach d)
          end;;
          destroy_wrapper (Some d)
      end
  end.

Definition contract (s : producer) (w : where_to_run) (callback : option (Callback * option Context))
    (inl : InlineContinuation) : prog unit :=
  p ← Promise_new;
  match getSemiFuture p with
  | (p, Ok f) => fork (run_producer s p);; run_consumer f w callback inl
  | (_, Err _) => terminate
  end.

Definition initial (s : producer) (w : where_to_run) (callback : option (Callback * option Context))
    (inl : InlineContinuation) : config :=
  mkConfig [contract s w callback inl] (mkMem ∅ ∅ []).

(** ** Verification of the programs *)

Section Client.
Variable T : Try.
Variable K : Callback * option Context -> nat.
Abbreviation wpc := (wp (Inv (eq T) K false) follows_fsm).

Lemma spec_detach_promise n c t :
  (t = TProd c P_start /\ T = Exception BrokenPromise) \/ t = TFul c ->
  wpc n (Promise_detach (mkPromise true (Some c));; Ret tt) (fun _ R => R = []) [t].
Proof.
  intros Ht. unfold Promise_detach. cbn [core_ retrieved_]. apply bindc, bindc, wp_ret, bindc, bindc.
  unfold hasResult. apply bindc. destruct Ht as [[-> HT]| ->].
  - apply spec_hasResult_prod, wp_ret. apply bindc. eapply wp_mono; [|by apply spec_setResult].
    intros [] R HR. eapply permc; [exact HR|]. eapply wp_mono; [|apply spec_detachPromise].
    intros [] R1 ->. by apply wp_ret, wp_ret.
  - apply spec_hasResult, wp_ret. apply bindc, wp_ret. eapply wp_mono; [|apply spec_detachPromise].
    intros [] R1 ->. by apply wp_ret, wp_ret.
Qed.

(** The owner of a fulfilled promise. *)
Lemma spec_fulfilled n s c : wpc n (run_producer s (mkPromise true (Some c))) (fun _ R => R = []) [TFul c].
Proof.
  revert c. induction s as [|ka t rest IH|other _]; intros c; cbn [run_producer].
  - apply spec_detach_promise. by right.
  - apply bindc. unfold setTry, throwIfFulfilled. cbn [core_ retrieved_ fcore_ getSemiFuture]. apply bindc, bindc, bindc.
    apply spec_hasResult, wp_ret, wp_ret, wp_ret. apply IH.
  - apply bindc. unfold isFulfilled, hasResult. cbn [core_ retrieved_ fcore_ getSemiFuture]. apply bindc, spec_hasResult, wp_ret.
    apply spec_detach_promise. by right.
Qed.

Lemma spec_producer n s c :
  outcome s = T -> wpc n (run_producer s (mkPromise true (Some c))) (fun _ R => R = []) [TProd c P_start].
Proof.
  revert c. induction s as [|ka t rest IH|other IH]; intros c HT; cbn [run_producer].
  - apply spec_detach_promise. by left.
  - apply bindc. unfold setTry, throwIfFulfilled. cbn [core_ retrieved_ fcore_ getSemiFuture]. apply bindc, bindc, bindc.
    apply spec_hasResult_prod, wp_ret, wp_ret. cbn [core_ retrieved_ fcore_ getSemiFuture]. apply bindc. eapply wp_mono; [|by apply spec_setResult].
    intros [] R HR. apply wp_ret. eapply permc; [exact HR|]. apply spec_fulfilled.
  - apply bindc. unfold isFulfilled, hasResult. cbn [core_ retrieved_ fcore_ getSemiFuture]. apply bindc, spec_hasResult_prod, wp_ret.
    apply bindc. unfold Promise_new. apply bindc, spec_make_next. intros q. apply wp_ret. cbn [core_ retrieved_ fcore_ getSemiFuture].
    apply bindc. eapply (wp_fork _ _ _ _ _ [TProd q P_start] [TProd c (P_next q); TCons q C_start]).
    + solve_perm.
    + by apply IH.
    + apply spec_setProxy.
Qed.

(** The token of the callback a consumer sets. *)
Definition pending (callback : option (Callback * option Context)) : list tok :=
  match callback with Some (cb, cx) => [TPend cb cx] | None => [] end.

Lemma spec_attach n c callback inl X :
  wpc n match callback with
        | Some (cb, cx) => FutureBase_setCallback_ (mkFuture (Some c)) cb cx inl;; Ret tt
        | None => Ret tt
        end (fun _ R => exists t, releasable c t /\ R ≡ₚ t :: X) (TCons c C_start :: pending callback ++ X).
Proof.
  destruct callback as [[cb cx]|]; cbn [pending].
  - apply bindc. unfold FutureBase_setCallback_, throwIfContinued. cbn [fcore_]. apply bindc, bindc, wp_hasCallback, wp_ret.
    cbn [fcore_]. apply bindc. eapply (usec _ _ _ _ _ _ [TCons c C_start; TPend cb cx] X); [apply spec_setCallback|done|].
    intros [] R (t & Ht & HR). apply wp_ret, wp_ret. exists t. split; [done|]. by rewrite HR.
  - apply wp_ret. exists (TCons c C_start). split; [by right; right|done].
Qed.

Lemma spec_leave n c callback inl X (k : prog unit) (Q : unit -> list tok -> Prop) :
  wpc n k Q X ->
  wpc n (match callback with
         | Some (cb, cx) => FutureBase_setCallback_ (mkFuture (Some c)) cb cx inl;; Ret tt
         | None => Ret tt
         end;; FutureBase_detach (mkFuture (Some c));; k)
    Q (TCons c C_start :: pending callback ++ X).
Proof.
  intros Hk. apply bindc. eapply wp_mono; [|apply spec_attach]. intros [] R (t & Ht & HR).
  eapply permc; [exact HR|]. apply bindc. unfold FutureBase_detach. cbn [fcore_]. apply bindc.
  eapply wp_mono; [|by apply spec_detachOne]. intros [] R1 ->. by apply wp_ret.
Qed.

Lemma spec_set_deferred n d (ex : option Executor) :
  wpc n (match ex with
         | Some ex => call (F_setExecutor d (Some ex) false);; Ret tt
         | None => call_ (F_detach d)
         end;; destroy_wrapper (Some d)) (fun _ R => R = []) [TDSet d S_start].
Proof.
  apply bindc. assert (forall R, left_of_setter d [] R -> wpc n (destroy_wrapper (Some d)) (fun _ R => R = []) R) as Hend.
  { intros R (t & Ht & HR). eapply permc; [exact HR|]. by apply spec_release. }
  destruct ex as [ex|].
  - apply bindc. eapply wp_mono; [|apply spec_def_setExecutor]. intros a R HR. by apply wp_ret, Hend.
  - eapply wp_mono; [|apply spec_def_detach]. intros a R HR. by apply Hend.
Qed.

Lemma spec_consumer n c w callback inl :
  wpc n (run_consumer (mkFuture (Some c)) w callback inl) (fun _ R => R = []) (TCons c C_start :: pending callback).
Proof.
  assert (TCons c C_start :: pending callback ≡ₚ TCons c C_start :: pending callback ++ []) as Hp
    by (by rewrite app_nil_r).
  unfold run_consumer. cbn [fcore_]. destruct w as [|ex|ex].
  - eapply permc; [by apply Hp|]. by apply spec_leave, wp_ret.
  - apply bindc. eapply wp_mono; [|apply (spec_core_setExecutor _ _ _ _ _ (KeepAliveE (Some ex)))].
    intros [] R ->. eapply permc; [by apply Hp|]. by apply spec_leave, wp_ret.
  - apply bindc, spec_create. intros d. apply bindc, spec_copy, bindc.
    eapply permc; [|eapply wp_mono; [|apply (spec_core_setExecutor _ _ _ _ _ (Deferred (Some d)) (pending callback ++ [TDSet d S_start]))]].
    + cbn. solve_perm.
    + intros [] R ->. apply spec_leave, spec_set_deferred.
Qed.

Lemma spec_contract n s w callback inl :
  outcome s = T -> wpc n (contract s w callback inl) (fun _ R => R = []) (pending callback).
Proof.
  intros HT. unfold contract, Promise_new. apply bindc, bindc, spec_make. intros c. apply wp_ret.
  cbn [core_ retrieved_ fcore_ getSemiFuture].
  apply bindc. eapply (wp_fork _ _ _ _ _ [TProd c P_start] (TCons c C_start :: pending callback)); [done|..].
  - by apply spec_producer.
  - apply spec_consumer.
Qed.
End Client.

(** ** What the runs of a contract do *)

(** Each callback is registered once. *)
Definition registered (callback : option (Callback * option Context)) (b : Callback * option Context) : nat :=
  if decide (callback = Some b) then 1 else 0.

(** What may happen to the callback [b] of a promise whose result is [t]: it is invoked with the
    result, or with the exception of an executor that did not accept it; or an executor discarded
    it. *)
Definition event_for (b : Callback * option Context) (t : Try) (e : event) : Prop :=
  match e with
  | EInvoked cb cx None t' => (cb, cx) = b /\ t' = t
  | EInvoked cb cx (Some ew) t' => (cb, cx) = b /\ t' = Exception ew
  | EDropped cb cx => (cb, cx) = b
  end.

Definition event_callback (e : event) : Callback * option Context :=
  match e with EInvoked cb cx _ _ | EDropped cb cx => (cb, cx) end.

Lemma event_of_callback e : event_of (event_callback e) e = true.
Proof. destruct e; cbn; by apply bool_decide_eq_true_2. Qed.

(** The invariant of the contracts whose promise ends up with [t]. *)
Abbreviation contract_inv callback t := (Inv (eq t) (registered callback) false).

Lemma initial_inv t callback : contract_inv callback t (mkMem ∅ ∅ []) (pending callback).
Proof.
  assert (forall o, on o (pending callback) = []) as Hon by (intros o; by destruct callback as [[cb cx]|]).
  exists (mkGhost (fun _ => (inhabitant, None)) (fun _ => 0%nat) 1). split.
  - intros o. unfold owned, stored_cores, stored_defs. cbn. rewrite !map_to_list_empty. cbn.
    rewrite app_nil_r, Hon. by destruct o.
  - intros b. unfold owned, stored_cores, stored_defs. cbn. rewrite !map_to_list_empty. cbn.
    rewrite app_nil_r. unfold registered. destruct callback as [[cb cx]|]; cbn; [|done].
    destruct b as [cb' cx']. case_bool_decide; case_decide; try done; congruence.
  - done.
  - by destruct callback as [[cb cx]|]; repeat constructor.
  - done.
  - cbn. lia.
Qed.

Lemma contract_verified s w callback inl c n :
  rtc step (initial s w callback inl) c -> verified (contract_inv callback (outcome s)) follows_fsm n c.
Proof.
  intros Hr. revert n. eapply (steps_verified _ _ (Inv_perm _ _ _)); [|exact Hr]. intros n.
  exists [pending callback]. split.
  - repeat constructor. by apply spec_contract.
  - cbn. rewrite app_nil_r. apply initial_inv.
Qed.

Lemma Inv_events t callback m R e : contract_inv callback t m R -> e ∈ trace m ->
  callback = Some (event_callback e) /\ event_for (event_callback e) t e.
Proof.
  intros [g HI] He. pose proof (inv_pend _ _ _ _ _ _ HI (event_callback e)) as Hp.
  pose proof (ct_elem _ _ _ He (event_of_callback e)) as Hc. split.
  - unfold registered in Hp. case_decide; [done|lia].
  - pose proof (inv_trace _ _ _ _ _ _ HI) as Ht. rewrite Forall_forall in Ht. specialize (Ht e He).
    by destruct e as [cb cx [ew|] t'|cb cx].
Qed.

Lemma Inv_one_event t callback m R : contract_inv callback t m R ->
  trace m = [] \/ exists b e, callback = Some b /\ trace m = [e] /\ event_for b t e.
Proof.
  intros HI. destruct (trace m) as [|e [|e' l]] eqn:E; [by left|..].
  - right. destruct (Inv_events t callback m R e HI) as [? ?]; [rewrite E; by left|]. eauto.
  - exfalso. destruct (Inv_events t callback m R e HI) as [H1 _]; [rewrite E; by left|].
    destruct (Inv_events t callback m R e' HI) as [H2 _]; [rewrite E; by right; left|].
    destruct HI as [g HI]. pose proof (inv_pend _ _ _ _ _ _ HI (event_callback e)) as Hp.
    assert (event_of (event_callback e) e' = true) as He.
    { replace (event_callback e) with (event_callback e') by congruence. apply event_of_callback. }
    rewrite E in Hp. cbn in Hp. rewrite event_of_callback, He in Hp.
    unfold registered in Hp. case_decide; lia.
Qed.

(** (C3) No run of a promise and its future, on whatever schedule and with whatever executors,
    terminates in an unexpected state, fails a check, or uses a core or a deferred executor that
    was deleted. *)
Theorem contract_safe s w callback inl c p :
  rtc step (initial s w callback inl) c -> p ∈ threads c -> ~ wrong p (memory c).
Proof. intros Hr. eapply verified_not_wrong; [apply Inv_perm|by apply (contract_verified s w callback inl)]. Qed.

(** (C7) A callback is invoked at most once, in the context it was registered with, and with the
    result of the promise, through whatever chain of proxies, or with the exception of the executor
    that failed to accept it. *)
Theorem callback_at_most_once s w callback inl c :
  rtc step (initial s w callback inl) c ->
  trace (memory c) = [] \/
  exists b e, callback = Some b /\ trace (memory c) = [e] /\ event_for b (outcome s) e.
Proof.
  intros Hr. destruct (contract_verified s w callback inl c 0 Hr) as (Rs & _ & HI).
  by eapply Inv_one_event.
Qed.

(** (C9) A run that cannot go on has ended in every thread: nothing waits for ever.  Then every
    core and every deferred executor has been deleted, and a callback that was registered has been
    invoked or discarded. *)
Theorem contract_complete s w callback inl c :
  rtc step (initial s w callback inl) c -> (forall c', ~ step c c') ->
  Forall finished (threads c) /\ cores (memory c) = ∅ /\ deferreds (memory c) = ∅ /\
  length (trace (memory c)) = match callback with Some _ => 1%nat | None => 0%nat end.
Proof.
  intros Hr Hstop. pose proof (contract_verified s w callback inl c 1 Hr) as Hv.
  pose proof (verified_progress _ _ (Inv_perm _ _ _) _ Hv Hstop) as Hfin.
  pose proof (verified_finished _ _ _ Hv Hfin) as HI.
  destruct HI as [g HI]. pose proof HI as HI'. apply quiescent_empty in HI' as (Hc & Hd & Hev).
  split_and!; [done..|]. destruct (Inv_one_event _ _ _ _ (ex_intro _ g HI)) as [E|(b & e & -> & E & _)]; rewrite E in *.
  - destruct callback as [b|]; [|done]. specialize (Hev b). unfold registered in Hev. by case_decide.
  - done.
Qed.

(** (C11) Every step takes each core along an edge of the state machine documented in [Core.h], or
    leaves its state. *)
Theorem contract_follows_fsm s w callback inl c c' :
  rtc step (initial s w callback inl) c -> step c c' -> follows_fsm (memory c) (memory c').
Proof.
  intros Hr Hs. pose proof (contract_verified s w callback inl c 1 Hr) as Hv.
  destruct (step_verified _ _ (Inv_perm _ _ _) 0 c c' Hv Hs) as [_ [HG|HG]]; [done|].
  rewrite HG. intros x r r' H1 H2. left. congruence.
Qed.

(** ** A run *)

(** The promise is forwarded to another that gets the value 7; the callback runs on an executor given
    to a deferred executor at the end. *)
Definition example : config :=
  initial (P_forward (P_setTry None (Value 7) P_destroy)) (DeferredThen (Some 3)) (Some (5, Some 9)) permit.

Definition example_schedule : list nat :=
  replicate 3 0%nat ++ replicate 5 1%nat ++ replicate 11 2%nat ++ replicate 5 1%nat ++ replicate 78 0%nat.

Definition example_end : config :=
  mkConfig [Ret tt; Ret tt; Ret tt] (mkMem ∅ ∅ [EInvoked 5 (Some 9) None (Value 7)]).

Lemma example_reaches : rtc step example example_end.
Proof. apply (exec_rtc example_schedule). vm_compute. reflexivity. Qed.

(** Before and after the callback moves from the forwarded promise to the other one. *)
Definition before_proxying : list nat := take 36 example_schedule.
Definition after_proxying : list nat := before_proxying ++ [0%nat].

Lemma example_reaches_proxying : rtc step example (after example before_proxying).
Proof. apply after_rtc. vm_compute. reflexivity. Qed.

Lemma example_proxies : step (after example before_proxying) (after example after_proxying).
Proof. apply after_step. vm_compute. reflexivity. Qed.

Lemma example_stops c : ~ step example_end c.
Proof.
  intros H. inversion H as [i p ts m p' m' new Hi Hp]; subst.
  destruct i as [|[|[|i]]]; cbn in Hi; simplify_eq; done.
Qed.

Lemma contract_safe_witness :
  length (threads (after example before_proxying)) = 3%nat /\
  ~ wrong (default (Ret tt) (threads (after example before_proxying) !! 0%nat))
          (memory (after example before_proxying)).
Proof.
  assert (length (threads (after example before_proxying)) = 3%nat) as Hlen by (vm_compute; reflexivity).
  split; [exact Hlen|]. apply (contract_safe _ _ _ _ _ _ example_reaches_proxying).
  destruct (threads (after example before_proxying)) as [|p ts]; [done|]. cbn. by left.
Defined.

Lemma callback_at_most_once_witness :
  trace (memory example_end) = [] \/
  exists b e, Some (5, Some 9) = Some b /\ trace (memory example_end) = [e] /\ event_for b (Value 7) e.
Proof. exact (callback_at_most_once _ _ _ _ _ example_reaches). Defined.

Lemma contract_complete_witness :
  Forall finished (threads example_end) /\ cores (memory example_end) = ∅ /\
  deferreds (memory example_end) = ∅ /\ length (trace (memory example_end)) = 1%nat.
Proof. exact (contract_complete _ _ _ _ _ example_reaches example_stops). Defined.

Lemma contract_follows_fsm_witness :
  state_ <$> cores (memory (after example before_proxying)) !! 1%positive = Some Proxy /\
  state_ <$> cores (memory (after example after_proxying)) !! 1%positive = Some Empty /\
  follows_fsm (memory (after example before_proxying)) (memory (after example after_proxying)).
Proof.
  split_and!; [vm_compute; reflexivity..|].
  exact (contract_follows_fsm _ _ _ _ _ _ example_reaches_proxying example_proxies).
Defined.
