(* ===== verification/JsonEscape.v ===== *)
(** * JSON strings: the escaping of [folly/json/json.cpp].

    [escapeString] copies the characters that need no escaping in runs it finds a machine word at
    a time ([firstEscapableInWord]), and escapes or validates the others one by one.  A string is
    the list of its bytes; the pointers [p], [q] and [firstEsc] are offsets into it and [e] is its
    length.  [escape_ref] is the reference: one character after the other, without words, runs or
    the second pointer. *)
From S2P Require Import Prelude Unicode.

(** ** The options *)

Record serialization_opts := {
  allow_non_string_keys : bool;
  convert_int_keys : bool;
  javascript_safe : bool;
  pretty_formatting : bool;
  pretty_formatting_indent_width : Z;
  encode_non_ascii : bool;
  validate_utf8 : bool;
  validate_keys : bool;
  allow_trailing_comma : bool;
  sort_keys : bool;  (* or a [sort_keys_by] is given *)
  skip_invalid_utf8 : bool;
  allow_nan_inf : bool;
  double_fallback : bool;
  parse_numbers_as_strings : bool;
  recursion_limit : Z;
  extra_ascii_to_escape_bitmap : Z * Z;
}.

Definition default_opts : serialization_opts := {|
  allow_non_string_keys := false;
  convert_int_keys := false;
  javascript_safe := false;
  pretty_formatting := false;
  pretty_formatting_indent_width := 2;
  encode_non_ascii := false;
  validate_utf8 := false;
  validate_keys := false;
  allow_trailing_comma := false;
  sort_keys := false;
  skip_invalid_utf8 := false;
  allow_nan_inf := false;
  double_fallback := false;
  parse_numbers_as_strings := false;
  recursion_limit := 100;
  extra_ascii_to_escape_bitmap := (0, 0);
|}.

(** The two words of the bitmap, as the array indexed with 0 or 1. *)
Definition bitmap_word (opts : serialization_opts) (i : Z) : Z :=
  if i =? 0 then fst (extra_ascii_to_escape_bitmap opts) else snd (extra_ascii_to_escape_bitmap opts).

Definition set_bit (bitmap : Z * Z) (b : Z) : Z * Z :=
  if b / 64 =? 0 then (fst bitmap .| (1 .<< (b mod 64)), snd bitmap)
  else (fst bitmap, snd bitmap .| (1 .<< (b mod 64))).

Definition buildExtraAsciiToEscapeBitmap (chars : list Z) : Z * Z :=
  foldl (fun escapes b => if (0x20 <=? b) && (b <? 0x80) then set_bit escapes b else escapes) (0, 0) chars.

(** ** Words *)

(** [__builtin_ffsll]: one plus the index of the lowest bit set, 0 when there is none. *)
Fixpoint ffs_from (n : nat) (i x : Z) : Z :=
  match n with
  | O => 0
  | S n => if Z.testbit x i then i + 1 else ffs_from n (i + 1) x
  end.

Definition findFirstSet (x : Z) : Z := ffs_from 64 0 x.

(** [None] is a load that leaves the string. *)
Definition loadUnaligned (size : nat) (s : list Z) (p : nat) : option Z :=
  if decide (p + size <= length s)%nat then Some (le_word (take size (drop p s))) else None.

Definition partialLoadUnaligned (s : list Z) (p l : nat) : option Z :=
  let avail := l in
  '(avail, value) ←
    (if Nat.testbit l 2 then
       let avail := (avail - 4)%nat in
       v ← loadUnaligned 4 s (p + avail); Some (avail, v .<< (Z.of_nat avail * 8))
     else Some (avail, 0));
  '(avail, value) ←
    (if Nat.testbit l 1 then
       let avail := (avail - 2)%nat in
       v ← loadUnaligned 2 s (p + avail); Some (avail, value .| (v .<< (Z.of_nat avail * 8)))
     else Some (avail, value));
  if Nat.testbit l 0 then v ← loadUnaligned 1 s p; Some (value .| v) else Some value.

(** ** [firstEscapableInWord], for [T] = [uint64_t] on a little-endian machine *)

Definition kOnes : Z := (2 ^ 64 - 1) / 255.
Definition kMsbs : Z := u64 (kOnes * 0x80).

Definition isLess (w b : Z) : Z := u64 (w - u64 (kOnes * b)) .& u64 (Z.lnot w) .& kMsbs.

Definition isChar (s c : Z) : Z := isLess (s .^ u64 (kOnes * c)) 1.

(** The [while (bitmap)] loop; a 64-bit word has at most 64 bits set. *)
Fixpoint bitmap_loop (n : nat) (s offset bitmap needsEscape : Z) : Z :=
  match n with
  | O => needsEscape
  | S n =>
      if bitmap =? 0 then needsEscape
      else
        let bit := findFirstSet bitmap in
        bitmap_loop n s offset (bitmap .& u64 (bitmap - 1)) (needsEscape .| isChar s (u8 (offset + bit - 1)))
  end.

Definition firstEscapableInWord (EnableExtraAsciiEscapes : bool) (s : Z) (opts : serialization_opts) : nat :=
  let isHigh := s .& kMsbs in
  let isLow := isLess s 0x20 in
  let needsEscape := isHigh .| isLow .| isChar s 92 .| isChar s 34 in
  let needsEscape :=
    if EnableExtraAsciiEscapes then
      let needsEscape := bitmap_loop 64 s 0 (bitmap_word opts 0 .& u64 ((2 ^ 64 - 1) .<< 32)) needsEscape in
      bitmap_loop 64 s 64 (bitmap_word opts 1 .& (2 ^ 64 - 1)) needsEscape
    else needsEscape in
  if needsEscape =? 0 then 8%nat
  else Z.to_nat (findFirstSet needsEscape / 8 - 1).

(** ** [escapeStringImpl] *)

Definition hexDigit (c : Z) : Z := if c <? 10 then c + 48 else c - 10 + 97.

Definition writeHex (v : Z) : list Z :=
  [92; 117; hexDigit ((v .>> 12) .& 0x0f); hexDigit ((v .>> 8) .& 0x0f);
   hexDigit ((v .>> 4) .& 0x0f); hexDigit (v .& 0x0f)].

(** The inner loop, from [firstEsc] on; it moves by 8 bytes at each round but the last.  [None] is a
    load that leaves the string, or more rounds than [n]. *)
Fixpoint firstEsc_loop (n : nat) (extra : bool) (opts : serialization_opts) (s : list Z) (firstEsc : nat) : option nat :=
  if (firstEsc <? length s)%nat then
    match n with
    | O => None
    | S n =>
        let avail := (length s - firstEsc)%nat in
        word ← (if (8 <=? avail)%nat then loadUnaligned 8 s firstEsc else partialLoadUnaligned s firstEsc avail);
        let prefix := firstEscapableInWord extra word opts in
        let firstEsc := (firstEsc + prefix)%nat in
        if (prefix <? 8)%nat then Some firstEsc else firstEsc_loop n extra opts s firstEsc
    end
  else Some firstEsc.

(** Whether the bitmap asks for the ASCII character [c] to be escaped. *)
Definition extra_escape (opts : serialization_opts) (c : Z) : bool :=
  (0x20 <=? c) && (c <? 0x80) && negb (bitmap_word opts (c / 64) .& u64 (1 .<< (c mod 64)) =? 0).

Definition encodeUnicode (extra : bool) (opts : serialization_opts) (c : Z) : bool :=
  (encode_non_ascii opts && negb (c .& 0x80 =? 0)) || (if extra then extra_escape opts c else false).

(** The escape sequence of a code point. *)
Definition write_code_point (cp : Z) : list Z :=
  if cp <? 0x10000 then writeHex (u16 cp)
  else writeHex (u16 (0xd800 + (((cp - 0x10000) .>> 10) .& 0x3ff)))
       ++ writeHex (u16 (0xdc00 + ((cp - 0x10000) .& 0x3ff))).

(** The last three branches: what is written for the character [c]. *)
Definition escape_byte (c : Z) : list Z :=
  if (c =? 92) || (c =? 34) then [92; c]
  else if c <=? 0x1f then
    if c =? 8 then [92; 98]
    else if c =? 12 then [92; 102]
    else if c =? 10 then [92; 110]
    else if c =? 13 then [92; 114]
    else if c =? 9 then [92; 116]
    else [92; 117; 48; 48; hexDigit (u8 ((c .& 0xf0) .>> 4)); hexDigit (u8 (c .& 0xf))]
  else [c].

(** Whether UTF-8 is validated apart from the encoding of the characters. *)
Definition checks_utf8 (opts : serialization_opts) : bool :=
  (validate_utf8 opts || skip_invalid_utf8 opts) && negb (encode_non_ascii opts).

(** The escaping of the character at [p], with [q] as the validation leaves it.  [loop] is the rest
    of the outer loop, from the pointers and the output it is given. *)
Definition handle_char (loop : nat -> nat -> list Z -> option (result utf8_error (list Z)))
    (extra : bool) (opts : serialization_opts) (s : list Z) (p q : nat) (out : list Z)
    : option (result utf8_error (list Z)) :=
  c ← s !! p;
  if encodeUnicode extra opts c then
    match utf8ToCodePoint s p (skip_invalid_utf8 opts) with
    | Err e => Some (Err e)
    | Ok (cp, p) => loop p q (out ++ write_code_point cp)
    end
  else loop (S p) q (out ++ escape_byte c).

(** The rest of an iteration, from the comment "Handle the next byte that may need escaping" on. *)
Definition escape_char (loop : nat -> nat -> list Z -> option (result utf8_error (list Z)))
    (extra : bool) (opts : serialization_opts) (s : list Z) (p q : nat) (out : list Z)
    : option (result utf8_error (list Z)) :=
  if checks_utf8 opts then
    if (q <? p)%nat then None
    else if (q =? p)%nat then
      match utf8ToCodePoint s q (skip_invalid_utf8 opts) with
      | Err e => Some (Err e)
      | Ok (v, q) =>
          if skip_invalid_utf8 opts && (v =? 0xfffd) then loop q q (out ++ [0xEF; 0xBF; 0xBD])
          else handle_char loop extra opts s p q out
      end
    else handle_char loop extra opts s p q out
  else handle_char loop extra opts s p q out.

(** The outer loop.  The error is the one of [utf8ToCodePoint]; [None] is a failed [CHECK_GE], a
    read past the end, or more iterations than [n]. *)
Fixpoint escape_loop (n : nat) (extra : bool) (opts : serialization_opts) (s : list Z) (p q : nat)
    (out : list Z) : option (result utf8_error (list Z)) :=
  if (p <? length s)%nat then
    match n with
    | O => None
    | S n =>
        firstEsc ← firstEsc_loop (length s) extra opts s p;
        if (p <? firstEsc)%nat then
          let out := out ++ take (firstEsc - p) (drop p s) in
          if (firstEsc =? length s)%nat then Some (Ok out)
          else escape_char (escape_loop n extra opts s) extra opts s firstEsc firstEsc out
        else escape_char (escape_loop n extra opts s) extra opts s p q out
    end
  else Some (Ok out).

Definition escapeStringImpl (extra : bool) (opts : serialization_opts) (input out : list Z)
    : option (result utf8_error (list Z)) :=
  r ← escape_loop (length input) extra opts input 0 0 (out ++ [34]);
  Some (match r with Ok out => Ok (out ++ [34]) | Err e => Err e end).

Definition escapeString (opts : serialization_opts) (input out : list Z) : option (result utf8_error (list Z)) :=
  if negb (bitmap_word opts 0 =? 0) || negb (bitmap_word opts 1 =? 0) then
    escapeStringImpl true opts input out
  else escapeStringImpl false opts input out.

(** ** Masks with one flag per byte *)

(** Only the top bits of the bytes are set in [m], and up to the first byte of [w] that satisfies
    [P] they tell exactly which bytes do.  Beyond it a borrow may have set more of them. *)
Definition flags (w m : Z) (P : Z -> bool) : Prop :=
  (forall i, 0 <= i -> Z.testbit m i = true -> exists k, (k < 8)%nat /\ i = 8 * Z.of_nat k + 7) /\
  forall k, (k < 8)%nat -> (forall j, (j < k)%nat -> P (byte_at w j) = false) ->
    Z.testbit m (8 * Z.of_nat k + 7) = P (byte_at w k).

Lemma flags_ext w m P Q : (forall b, is_byte b -> P b = Q b) -> flags w m P -> flags w m Q.
Proof.
  intros E [Ho He]. assert (forall k, is_byte (byte_at w k)).
  { intros k. unfold byte_at, is_uint. apply Z.mod_pos_bound. lia. }
  split; [done|]. intros k Hk Hj. rewrite <- E by done. apply He; [done|].
  intros j Hj'. rewrite E by done. auto.
Qed.

Lemma flags_or w m m' P Q :
  flags w m P -> flags w m' Q -> flags w (m .| m') (fun b => P b || Q b).
Proof.
  intros [Ho He] [Ho' He']. split.
  - intros i Hi. rewrite Z.lor_spec, orb_true_iff. intros [?|?]; auto.
  - intros k Hk Hj. rewrite Z.lor_spec, He, He'; auto.
    all: intros j Hj'; specialize (Hj j Hj'); cbv beta in Hj; apply orb_false_iff in Hj; tauto.
Qed.

Lemma testbit_msbs i : 0 <= i -> Z.testbit kMsbs i = (i <? 64) && (i mod 8 =? 7).
Proof.
  intros Hi. destruct (Z.ltb_spec i 64); cbn [andb].
  - assert (forallb (fun i => Bool.eqb (Z.testbit kMsbs i) (i mod 8 =? 7)) (seqZ 0 64) = true) as Hall
      by by vm_compute.
    rewrite forallb_forall in Hall. apply Bool.eqb_prop, Hall, list_elem_of_In, elem_of_seqZ. lia.
  - apply (testbit_high _ 64); [|lia]. apply wrap_range. lia.
Qed.

Lemma land_msbs_flags x P w :
  (forall k, (k < 8)%nat -> (forall j, (j < k)%nat -> P (byte_at w j) = false) ->
     Z.testbit x (8 * Z.of_nat k + 7) = P (byte_at w k)) ->
  flags w (x .& kMsbs) P.
Proof.
  intros He. split.
  - intros i Hi. rewrite Z.land_spec, testbit_msbs by done. intros Hb.
    exists (Z.to_nat (i / 8)). Z.div_mod_to_equations. lia.
  - intros k Hk Hj. rewrite Z.land_spec, He, testbit_msbs by (done || lia).
    assert (8 * Z.of_nat k + 7 <? 64 = true) as -> by lia.
    assert ((8 * Z.of_nat k + 7) mod 8 =? 7 = true) as -> by (Z.div_mod_to_equations; lia).
    by rewrite andb_true_r.
Qed.

Lemma flags_high w : flags w (w .& kMsbs) (fun b => 128 <=? b).
Proof.
  apply land_msbs_flags. intros k Hk _.
  by rewrite <- testbit_7, testbit_byte_at by (apply byte_at_byte || lia).
Qed.

Lemma byte_at_ones b k : is_byte b -> (k < 8)%nat -> byte_at (kOnes * b) k = b.
Proof.
  intros Hb Hk. apply Z.eqb_eq.
  enough (forallb (fun k => byte_at (kOnes * b) k =? b) (seq 0 8) = true) as Hall.
  { rewrite forallb_forall in Hall. apply Hall, in_seq. lia. }
  apply (byte_forall (fun b => forallb (fun k => byte_at (kOnes * b) k =? b) (seq 0 8))); [by vm_compute|done].
Qed.

Lemma ones_u64 b : is_byte b -> u64 (kOnes * b) = kOnes * b.
Proof. intros Hb. apply wrap_small. change kOnes with 0x0101010101010101. unfold is_uint in *. lia. Qed.

Lemma mod_pow_8_S w k :
  w mod 2 ^ (8 * Z.of_nat (S k)) = w mod 2 ^ (8 * Z.of_nat k) + 2 ^ (8 * Z.of_nat k) * byte_at w k.
Proof. rewrite pow_8_S. unfold byte_at. apply Z.rem_mul_r; lia. Qed.

(** No borrow comes out of bytes that are all at least those subtracted. *)
Lemma no_borrow w v k :
  (forall j, (j < k)%nat -> byte_at v j <= byte_at w j) ->
  v mod 2 ^ (8 * Z.of_nat k) <= w mod 2 ^ (8 * Z.of_nat k).
Proof.
  induction k as [|k IH]; intros Hj; [by rewrite !Z.mod_1_r|].
  rewrite !mod_pow_8_S. specialize (IH ltac:(auto)). specialize (Hj k ltac:(lia)). nia.
Qed.

Lemma byte_at_sub w v k :
  v mod 2 ^ (8 * Z.of_nat k) <= w mod 2 ^ (8 * Z.of_nat k) ->
  byte_at (w - v) k = (byte_at w k - byte_at v k) mod 256.
Proof.
  intros Hle. unfold byte_at. set (m := 2 ^ (8 * Z.of_nat k)) in *.
  assert (0 < m) by (subst m; lia).
  assert ((w - v) / m = w / m - v / m) as ->.
  { symmetry. apply (Z.div_unique _ _ _ (w mod m - v mod m)).
    - left. pose proof (Z.mod_pos_bound w m). pose proof (Z.mod_pos_bound v m). lia.
    - pose proof (Z.div_mod w m). pose proof (Z.div_mod v m). lia. }
  apply Zminus_mod.
Qed.

Lemma isLess_flags w b : 0 <= b < 128 -> flags w (isLess w b) (fun c => c <? b).
Proof.
  intros Hb. unfold isLess. rewrite ones_u64 by (unfold is_uint; lia).
  apply land_msbs_flags. intros k Hk Hj. rewrite Z.land_spec. unfold wrap.
  rewrite !Z.mod_pow2_bits_low, Z.lnot_spec by lia. rewrite <- !testbit_byte_at by lia.
  rewrite byte_at_sub, byte_at_ones; [|unfold is_uint; lia|done|].
  - pose proof (byte_at_byte w k) as Hc. rewrite !testbit_7 by (done || apply Z.mod_pos_bound; lia).
    unfold is_uint in Hc. Z.div_mod_to_equations. lia.
  - apply no_borrow. intros j Hj'. rewrite byte_at_ones by (unfold is_uint; lia).
    specialize (Hj j Hj'). cbv beta in Hj. lia.
Qed.

Lemma isChar_flags w c : is_byte c -> flags w (isChar w c) (fun b => b =? c).
Proof.
  intros Hc. unfold isChar. rewrite ones_u64 by done.
  destruct (isLess_flags (w .^ (kOnes * c)) 1) as [Ho He]; [lia|].
  assert (forall k, (k < 8)%nat -> (byte_at (w .^ (kOnes * c)) k <? 1) = (byte_at w k =? c)) as E.
  { intros k Hk. rewrite byte_at_lxor, byte_at_ones by done.
    pose proof (byte_at_byte w k) as Hb. generalize dependent (byte_at w k). intros b Hb.
    assert (0 <= b .^ c) by (apply Z.lxor_nonneg; unfold is_uint in *; lia).
    destruct (Z.eqb_spec b c) as [->|N]; [by rewrite Z.lxor_nilpotent|].
    apply Z.ltb_ge. enough (b .^ c <> 0) by lia. by rewrite Z.lxor_eq_0_iff. }
  split; [done|]. intros k Hk Hj. rewrite He; [by apply E|done|].
  intros j Hj'. rewrite E by lia. auto.
Qed.

(** ** The lowest bit of a word *)

Definition lowest_bit (x k : Z) : Prop :=
  0 <= k /\ Z.testbit x k = true /\ forall j, 0 <= j < k -> Z.testbit x j = false.

Lemma ffs_from_spec x k n i :
  lowest_bit x k -> 0 <= i <= k -> k < i + Z.of_nat n -> ffs_from n i x = k + 1.
Proof.
  intros (Hk & Hb & Hlow). revert i. induction n as [|n IH]; intros i Hi Hn; [lia|].
  cbn [ffs_from]. destruct (decide (i = k)) as [->|]; [by rewrite Hb|].
  rewrite Hlow by lia. apply IH; lia.
Qed.

Lemma findFirstSet_spec x k : lowest_bit x k -> k < 64 -> findFirstSet x = k + 1.
Proof. intros Hx Hk. apply ffs_from_spec; [done|destruct Hx; lia|lia]. Qed.

Lemma lowest_bit_exists x k0 :
  is_u64 x -> x <> 0 -> (forall j, 0 <= j < k0 -> Z.testbit x j = false) ->
  exists k, lowest_bit x k /\ k0 <= k < 64.
Proof.
  intros Hx Hnz Hlow.
  assert (exists m : nat, Z.testbit x (Z.of_nat m) = true) as Hex.
  { exists (Z.to_nat (Z.log2 x)). unfold is_uint in Hx. rewrite Z2Nat.id by apply Z.log2_nonneg.
    apply Z.bit_log2. lia. }
  destruct Hex as [m Hm]. induction m as [m IH] using lt_wf_ind.
  destruct (decide (Exists (fun j => Z.testbit x (Z.of_nat j) = true) (seq 0 m))) as [He|Hne].
  - apply Exists_exists in He as (j & Hj & Hbj). apply elem_of_seq in Hj. apply (IH j); [lia|done].
  - exists (Z.of_nat m). unfold lowest_bit. split_and!; [lia|done| | |].
    + intros j Hj. apply Bool.not_true_is_false. intros Hbj. apply Hne, Exists_exists.
      exists (Z.to_nat j). rewrite elem_of_seq, Z2Nat.id by lia. split; [lia|done].
    + destruct (decide (Z.of_nat m < k0)); [|lia]. rewrite Hlow in Hm by lia. done.
    + destruct (decide (Z.of_nat m < 64)); [done|]. rewrite (testbit_high _ 64) in Hm by (done || lia). done.
Qed.

Lemma clear_lowest x k i :
  lowest_bit x k -> 0 <= i -> Z.testbit (x .& (x - 1)) i = Z.testbit x i && negb (i =? k).
Proof.
  intros (Hk & Hb & Hlow) Hi. rewrite Z.land_spec.
  assert (x mod 2 ^ (k + 1) = 2 ^ k) as Hmod.
  { apply Z.bits_inj'. intros j Hj. rewrite Z.pow2_bits_eqb by done. destruct (decide (j < k + 1)).
    - rewrite Z.mod_pow2_bits_low by lia. destruct (Z.eqb_spec k j) as [->|]; [done|apply Hlow; lia].
    - rewrite Z.mod_pow2_bits_high by lia. symmetry. apply Z.eqb_neq. lia. }
  pose proof (Z.div_mod x (2 ^ (k + 1))) as Hx. rewrite Hmod in Hx.
  assert (2 ^ (k + 1) = 2 * 2 ^ k) as Hp by (rewrite Z.pow_add_r by lia; lia).
  destruct (Z.lt_trichotomy i k) as [?|[->|?]].
  - by rewrite Hlow by lia.
  - rewrite Hb, Z.eqb_refl. cbn [andb negb].
    replace (Z.testbit (x - 1) k) with (Z.testbit ((x - 1) / 2 ^ k) 0)
      by (rewrite Z.div_pow2_bits by lia; f_equal; lia).
    assert ((x - 1) / 2 ^ k = 2 * (x / 2 ^ (k + 1))) as ->.
    { symmetry. apply (Z.div_unique _ _ _ (2 ^ k - 1)); [left; lia|]. lia. }
    apply Z.testbit_even_0.
  - destruct (Z.eqb_spec i k); [lia|]. rewrite andb_true_r.
    replace i with ((i - (k + 1)) + (k + 1)) by lia. rewrite <- !Z.div_pow2_bits by lia.
    assert ((x - 1) / 2 ^ (k + 1) = x / 2 ^ (k + 1)) as ->; [|apply andb_diag].
    symmetry. apply (Z.div_unique _ _ _ (2 ^ k - 1)); [left; lia|]. lia.
Qed.

Lemma bitmap_loop_flags n w off bitmap needs P k0 :
  flags w needs P -> is_u64 bitmap -> off = 0 \/ off = 64 ->
  0 <= k0 -> (forall j, 0 <= j < k0 -> Z.testbit bitmap j = false) -> 64 <= k0 + Z.of_nat n ->
  flags w (bitmap_loop n w off bitmap needs) (fun b => P b || Z.testbit bitmap (b - off)).
Proof.
  intros HP Hbm Hoff Hk0. revert bitmap needs P k0 HP Hbm Hk0.
  induction n as [|n IH]; intros bitmap needs P k0 HP Hbm Hk0 Hlow Hn; cbn [bitmap_loop].
  - eapply flags_ext; [|exact HP]. intros b _. cbv beta.
    assert (bitmap = 0) as ->; [|by rewrite Z.bits_0, orb_false_r].
    destruct (decide (bitmap = 0)); [done|].
    destruct (lowest_bit_exists bitmap k0) as (k & _ & ?); [done..|lia].
  - destruct (Z.eqb_spec bitmap 0) as [->|Hnz].
    { eapply flags_ext; [|exact HP]. intros b _. cbv beta. by rewrite Z.bits_0, orb_false_r. }
    destruct (lowest_bit_exists bitmap k0) as (k & Hk & Hkr); [done..|].
    rewrite (findFirstSet_spec _ k) by (done || lia). replace (off + (k + 1) - 1) with (off + k) by lia.
    rewrite !wrap_small by (unfold is_uint in *; lia).
    assert (is_u64 (bitmap .& (bitmap - 1))) by (rewrite Z.land_comm; apply land_uint; [lia|done]).
    eapply flags_ext; [|apply (IH _ _ (fun b => P b || (b =? off + k)) (k + 1))]; try done; try lia.
    + intros b Hb. cbv beta. rewrite <- orb_assoc. f_equal. destruct (decide (0 <= b - off)).
      * rewrite (clear_lowest _ k) by done. destruct Hk as (_ & Hbk & _).
        destruct (Z.eqb_spec b (off + k)) as [->|].
        -- replace (off + k - off) with k by lia. by rewrite Hbk.
        -- assert (b - off =? k = false) as -> by lia. by rewrite andb_true_r.
      * rewrite !Z.testbit_neg_r by lia. rewrite orb_false_r. lia.
    + apply flags_or; [done|]. apply isChar_flags. unfold is_uint in *. lia.
    + intros j Hj. rewrite (clear_lowest _ k) by (done || lia). destruct Hk as (_ & _ & Hl).
      destruct (Z.eqb_spec j k); [by rewrite andb_false_r|]. rewrite Hl by lia. done.
Qed.

(** ** The word test *)

(** The characters that end a run: those to be escaped or, with the high bit set, validated. *)
Definition needs_escape (extra : bool) (opts : serialization_opts) (b : Z) : bool :=
  (128 <=? b) || (b <? 0x20) || (b =? 92) || (b =? 34) || (extra && extra_escape opts b).

(** The bitmap is made of two [uint64_t]. *)
Definition valid_opts (opts : serialization_opts) : Prop :=
  is_u64 (bitmap_word opts 0) /\ is_u64 (bitmap_word opts 1).

Lemma land_pow2_test x i : 0 <= i -> (x .& 2 ^ i =? 0) = negb (Z.testbit x i).
Proof.
  intros Hi. destruct (Z.testbit x i) eqn:Hb; cbn [negb].
  - apply Z.eqb_neq. intros H0. assert (Z.testbit (x .& 2 ^ i) i = false) as Hf by (rewrite H0; apply Z.bits_0).
    rewrite Z.land_spec, Z.pow2_bits_true, Hb in Hf by done. done.
  - apply Z.eqb_eq, Z.bits_inj'. intros j Hj.
    rewrite Z.land_spec, Z.pow2_bits_eqb, Z.bits_0 by done.
    destruct (Z.eqb_spec i j) as [->|]; [by rewrite Hb|apply andb_false_r].
Qed.

Lemma extra_escape_bits opts b :
  valid_opts opts -> is_byte b -> 0x20 <= b ->
  extra_escape opts b = Z.testbit (bitmap_word opts 0 .& u64 ((2 ^ 64 - 1) .<< 32)) b
                        || Z.testbit (bitmap_word opts 1 .& (2 ^ 64 - 1)) (b - 64).
Proof.
  intros [H0 H1] Hb Hge. unfold extra_escape. rewrite !Z.land_spec.
  change (2 ^ 64 - 1) with (Z.ones 64) at 2. unfold is_uint in Hb.
  assert (forall i, 0 <= i < 64 -> u64 (1 .<< i) = 2 ^ i) as Hsh.
  { intros i Hi. rewrite Z.shiftl_1_l. apply wrap_small. split; [lia|]. apply Z.pow_lt_mono_r; lia. }
  rewrite Hsh, land_pow2_test by (apply Z.mod_pos_bound; lia). rewrite negb_involutive.
  destruct (Z.leb_spec 32 b), (Z.ltb_spec b 128); try lia; cbn [andb].
  - destruct (decide (b < 64)).
    + rewrite Z.div_small, Z.mod_small, (Z.testbit_neg_r _ (b - 64)) by lia.
      assert (Z.testbit (u64 ((2 ^ 64 - 1) .<< 32)) b = true) as ->.
      { unfold wrap. rewrite Z.mod_pow2_bits_low, Z.shiftl_spec by lia. change (2 ^ 64 - 1) with (Z.ones 64).
        apply Z.ones_spec_low. lia. }
      by rewrite andb_true_r, orb_false_r.
    + assert (b / 64 = 1 /\ b mod 64 = b - 64) as [-> ->] by (Z.div_mod_to_equations; lia).
      rewrite (testbit_high (bitmap_word opts 0) 64) by (done || lia).
      rewrite Z.ones_spec_low by lia. by rewrite andb_true_r.
  - by rewrite !(testbit_high _ 64) by (done || lia).
Qed.

Lemma needsEscape_flags extra opts w :
  valid_opts opts ->
  exists needsEscape, flags w needsEscape (needs_escape extra opts) /\
    firstEscapableInWord extra w opts =
      if needsEscape =? 0 then 8%nat else Z.to_nat (findFirstSet needsEscape / 8 - 1).
Proof.
  intros Hopts. unfold firstEscapableInWord. eexists. split; [|reflexivity].
  assert (flags w ((w .& kMsbs) .| isLess w 0x20 .| isChar w 92 .| isChar w 34)
            (fun b => (128 <=? b) || (b <? 0x20) || (b =? 92) || (b =? 34))) as Hbase.
  { apply flags_or; [apply flags_or; [apply flags_or|]|].
    - apply flags_high.
    - apply isLess_flags. lia.
    - by apply isChar_flags.
    - by apply isChar_flags. }
  destruct extra; cbv zeta.
  - assert (is_u64 (2 ^ 64 - 1)) by done.
    eapply (bitmap_loop_flags 64 _ 0 _ _ _ 0) in Hbase;
      [eapply (bitmap_loop_flags 64 _ 64 _ _ _ 0) in Hbase;
         [eapply flags_ext; [|exact Hbase]|apply land_uint; [lia|eassumption]|..]
      |apply land_uint; [lia|apply wrap_range; lia]|..].
    all: try (left; done). all: try (right; done). all: try (intros; lia).
    intros b Hb. cbv beta. rewrite Z.sub_0_r. unfold needs_escape. rewrite <- orb_assoc.
    destruct (Z.ltb_spec b 0x20); [by rewrite !orb_true_r|].
    by rewrite <- extra_escape_bits.
  - eapply flags_ext; [|exact Hbase]. intros b Hb. cbv beta. unfold needs_escape. by rewrite orb_false_r.
Qed.

(** Where the first byte of a word that satisfies [P] is, or none. *)
Lemma first_byte P w :
  (forall k, (k < 8)%nat -> P (byte_at w k) = false) \/
  exists k, (k < 8)%nat /\ P (byte_at w k) = true /\ forall j, (j < k)%nat -> P (byte_at w j) = false.
Proof.
  generalize 8%nat as m. intros m. induction m as [|n [IH|(k & Hk & IH)]].
  - left. lia.
  - destruct (P (byte_at w n)) eqn:E; [right; exists n; auto|].
    left. intros k Hk. destruct (decide (k = n)) as [->|]; [done|apply IH; lia].
  - right. exists k. split; [lia|done].
Qed.

Lemma firstEscapableInWord_prefix extra opts w :
  valid_opts opts ->
  let k := firstEscapableInWord extra w opts in
  (k <= 8)%nat /\ (forall j, (j < k)%nat -> needs_escape extra opts (byte_at w j) = false) /\
  ((k < 8)%nat -> needs_escape extra opts (byte_at w k) = true).
Proof.
  intros Hopts. destruct (needsEscape_flags extra opts w Hopts) as (m & [Ho He] & ->). cbv zeta.
  destruct (first_byte (needs_escape extra opts) w) as [Hnone|(k & Hk & Hbk & Hlow)].
  - assert (m = 0) as ->; [|rewrite Z.eqb_refl; split_and!; [lia|apply Hnone|lia]].
    apply Z.bits_inj'. intros i Hi. rewrite Z.bits_0. apply Bool.not_true_is_false. intros Hb.
    destruct (Ho i Hi Hb) as (k & Hk & ->). rewrite He, Hnone in Hb; auto; [done|].
    intros j Hj. apply Hnone. lia.
  - assert (Z.testbit m (8 * Z.of_nat k + 7) = true) as Hb by (rewrite He; auto).
    assert (m =? 0 = false) as -> by (apply Z.eqb_neq; intros ->; by rewrite Z.bits_0 in Hb).
    assert (lowest_bit m (8 * Z.of_nat k + 7)) as Hl.
    { unfold lowest_bit. split_and!; [lia|done|]. intros j Hj. apply Bool.not_true_is_false. intros Hbj.
      destruct (Ho j ltac:(lia) Hbj) as (k' & Hk' & ->). rewrite He, Hlow in Hbj; [done|lia..|].
      intros j' Hj'. apply Hlow. lia. }
    rewrite (findFirstSet_spec _ _ Hl) by lia.
    assert (Z.to_nat ((8 * Z.of_nat k + 7 + 1) / 8 - 1) = k) as -> by (Z.div_mod_to_equations; lia).
    split_and!; [lia|done|done].
Qed.

(** ** The words of a string *)

(** A word put above another one. *)
Lemma shift_cat l1 l2 a b :
  Forall is_byte l1 -> 0 <= a -> b = a + 8 * Z.of_nat (length l1) ->
  (le_word l2 .<< b) .| (le_word l1 .<< a) = le_word (l1 ++ l2) .<< a.
Proof.
  intros Hl1 Ha ->. rewrite Z.add_comm, <- Z.shiftl_shiftl by lia. rewrite <- Z.shiftl_lor. f_equal.
  rewrite shiftl_mul, lor_disjoint_r by (apply le_word_bound || lia; done). rewrite le_word_app. lia.
Qed.

Lemma partialLoadUnaligned_bytes s p l :
  Forall is_byte s -> (p <= length s)%nat -> length (drop p s) = l -> (l < 8)%nat ->
  partialLoadUnaligned s p l = Some (le_word (drop p s)).
Proof.
  intros Hs Hp. assert (Forall is_byte (drop p s)) as Hd by by apply Forall_drop.
  unfold partialLoadUnaligned.
  assert (forall a n, loadUnaligned n s (p + a) =
    if decide (a + n <= length (drop p s))%nat then Some (le_word (take n (drop a (drop p s)))) else None) as Hdd.
  { intros a n. unfold loadUnaligned. rewrite drop_drop, length_drop. do 2 case_decide; done || lia. }
  assert (forall n, loadUnaligned n s p = if decide (n <= length (drop p s))%nat then Some (le_word (take n (drop p s))) else None) as Hd0.
  { intros n. rewrite <- (Nat.add_0_r p) at 1. apply Hdd. }
  remember (drop p s) as d eqn:E. clear E Hp. intros <- Hlt.
  assert (forall x, x = x .<< 0) as H0 by (intros; by rewrite Z.shiftl_0_r).
  do 8 (try (destruct d as [|? d]; [|apply Forall_cons_1 in Hd as [? Hd]]));
    cbn -[le_word Z.shiftl Z.lor Z.of_nat Z.mul take drop Nat.add];
    try done; try (cbn in Hlt; lia); repeat (first [rewrite Hdd | rewrite Hd0]; rewrite decide_True by (cbn; lia);
    cbn -[le_word Z.shiftl Z.lor Z.of_nat Z.mul loadUnaligned Nat.add]).
  all: rewrite ?Z.lor_0_l; change (Z.of_nat 0 * 8) with 0.
  all: try (rewrite (shift_cat [_; _] [_; _; _; _])
    by first [lia | repeat first [apply Forall_cons_2 | apply Forall_nil_2 | done]]).
  all: try (rewrite (H0 (le_word [_])), (shift_cat [_])
    by first [lia | repeat first [apply Forall_cons_2 | apply Forall_nil_2 | done]]).
  all: by rewrite ?Z.shiftl_0_r.
Qed.

(** ** Runs *)

(** The word loaded at [p]: the bytes from there on, then zeros. *)
Definition word_at (s : list Z) (p : nat) : Z := le_word (take 8 (drop p s)).

Lemma load_word s p : Forall is_byte s -> (p < length s)%nat ->
  (if (8 <=? length s - p)%nat then loadUnaligned 8 s p else partialLoadUnaligned s p (length s - p)) = Some (word_at s p).
Proof.
  intros Hs Hp. unfold word_at. destruct (Nat.leb_spec 8 (length s - p)).
  - unfold loadUnaligned. by rewrite decide_True by lia.
  - rewrite partialLoadUnaligned_bytes by (done || rewrite ?length_drop; lia).
    by rewrite take_ge by (rewrite length_drop; lia).
Qed.

Lemma byte_at_word s p k :
  Forall is_byte s -> (k < 8)%nat -> byte_at (word_at s p) k = default 0 (s !! (p + k)%nat).
Proof.
  intros Hs Hk. unfold word_at. rewrite <- lookup_drop. rewrite byte_at_le_word by by apply Forall_take, Forall_drop.
  by rewrite lookup_take_lt.
Qed.

(** [f] is where the run of characters that need no escaping ends that starts at [p]. *)
Definition run_end (extra : bool) (opts : serialization_opts) (s : list Z) (p f : nat) : Prop :=
  (p <= f <= length s)%nat /\
  Forall (fun b => needs_escape extra opts b = false) (take (f - p) (drop p s)) /\
  (forall b, s !! f = Some b -> needs_escape extra opts b = true).

Lemma run_extend extra opts s p m f :
  (p <= m)%nat -> Forall (fun b => needs_escape extra opts b = false) (take (m - p) (drop p s)) ->
  run_end extra opts s m f -> run_end extra opts s p f.
Proof.
  intros Hp Hrun (Hf & Hrest & Hend). split_and!; [lia..| |done].
  replace (f - p)%nat with ((m - p) + (f - m))%nat by lia.
  rewrite <- take_take_drop. apply Forall_app. split; [done|].
  by rewrite drop_drop, Nat.add_comm, Nat.sub_add by lia.
Qed.

Lemma firstEsc_loop_run n extra opts s p :
  valid_opts opts -> Forall is_byte s -> (p <= length s <= p + n)%nat ->
  exists f, firstEsc_loop n extra opts s p = Some f /\ run_end extra opts s p f.
Proof.
  intros Hopts Hs. revert p. induction n as [|n IH]; intros p Hn; cbn [firstEsc_loop]; (destruct (Nat.ltb_spec p (length s));
    [|exists p; split; [done|]; split_and!; [lia..| |by rewrite lookup_ge_None_2 by lia]; by rewrite Nat.sub_diag]); [lia|].
  rewrite load_word by done. cbn [mbind option_bind]. destruct (firstEscapableInWord_prefix extra opts (word_at s p) Hopts) as (Hle & Hlow & Hat).
  set (k := firstEscapableInWord extra (word_at s p) opts) in *.
  assert (p + k <= length s)%nat as Hin.
  { destruct (decide (p + k <= length s)%nat) as [|Hgt]; [done|]. exfalso.
    specialize (Hlow (length s - p)%nat ltac:(lia)). rewrite byte_at_word in Hlow by (done || lia).
    rewrite lookup_ge_None_2 in Hlow by lia. cbn in Hlow. done. }
  assert (Forall (fun b => needs_escape extra opts b = false) (take (p + k - p) (drop p s))) as Hrun.
  { replace (p + k - p)%nat with k by lia. apply Forall_lookup. intros j b Hj.
    apply lookup_take_Some in Hj as [Hj Hjk]. rewrite lookup_drop in Hj.
    specialize (Hlow j Hjk). rewrite byte_at_word, Hj in Hlow by (done || lia). done. }
  destruct (Nat.ltb_spec k 8).
  - exists (p + k)%nat. split; [done|]. split_and!; [lia..|done|].
    intros b Hb. specialize (Hat ltac:(done)). by rewrite byte_at_word, Hb in Hat.
  - destruct (IH (p + k)%nat) as (f & -> & Hf); [lia|]. exists f. split; [done|]. by apply (run_extend _ _ _ _ (p + k)); [lia|..].
Qed.

(** ** The reference *)

Definition prepend {E A} (l : list A) (r : result E (list A)) : result E (list A) :=
  match r with Ok l' => Ok (l ++ l') | Err e => Err e end.

(** What is written for an ASCII character. *)
Definition escape_ascii (opts : serialization_opts) (b : Z) : list Z :=
  if extra_escape opts b then writeHex b else escape_byte b.

(** What is written for the bytes [chunk] of the code point [cp], which is not an ASCII one. *)
Definition escape_high (opts : serialization_opts) (cp : Z) (chunk : list Z) : list Z :=
  if encode_non_ascii opts then write_code_point cp
  else if skip_invalid_utf8 opts && (cp =? 0xfffd) then [0xEF; 0xBF; 0xBD]
  else chunk.

Fixpoint escape_ref (n : nat) (opts : serialization_opts) (l : list Z) : result utf8_error (list Z) :=
  match n, l with
  | O, _ | _, [] => Ok []
  | S n, b :: l' =>
      if b <? 128 then prepend (escape_ascii opts b) (escape_ref n opts l')
      else if encode_non_ascii opts || checks_utf8 opts then
        match decode_ref (skip_invalid_utf8 opts) 0 l with
        | Err e => Err e
        | Ok (cp, len) => prepend (escape_high opts cp (take len l)) (escape_ref n opts (drop len l))
        end
      else prepend [b] (escape_ref n opts l')
  end.

Lemma decode_ref_shift skip p l :
  decode_ref skip p l = match decode_ref skip 0 l with
                        | Ok (cp, len) => Ok (cp, (p + len)%nat)
                        | Err e => Err e
                        end.
Proof. unfold decode_ref, accept, fail_or_skip. repeat case_match; simplify_eq/=; do 3 f_equal; lia. Qed.

Lemma utf8_bytes_high cp : 128 <= cp <= 0x10FFFF -> Forall (fun b => 128 <= b) (utf8_bytes cp).
Proof.
  intros Hcp. unfold utf8_bytes. rewrite (proj2 (Z.ltb_ge cp 0x80)) by lia.
  repeat case_match; repeat (apply Forall_cons_2; [Z.div_mod_to_equations; lia|]); apply Forall_nil_2.
Qed.

Lemma decode_ref_high skip b l cp len :
  Forall is_byte (b :: l) -> 128 <= b -> decode_ref skip 0 (b :: l) = Ok (cp, len) ->
  (1 <= len <= length (b :: l))%nat /\ Forall (fun b => 128 <= b) (take len (b :: l)).
Proof.
  intros Hl Hb Hd.
  assert (decode_ref false 0 (b :: l) = Ok (cp, len) \/ len = 1%nat) as [Hok| ->].
  { destruct skip; [|auto]. rewrite decode_ref_skip in Hd. destruct (decode_ref false _ _); naive_solver. }
  - apply decode_ref_sound in Hok as (Hs%is_scalar_value_true & rest & E & ->); [|done].
    rewrite E, Nat.add_0_l, take_app_length, length_app. split.
    + unfold utf8_bytes. repeat case_match; cbn [length]; lia.
    + apply utf8_bytes_high. unfold utf8_bytes in E. destruct (Z.ltb_spec cp 0x80); [|lia].
      injection E. lia.
  - cbn. split; [lia|]. by apply Forall_cons_2.
Qed.

Lemma escape_ref_fuel n m opts l :
  Forall is_byte l -> (length l <= n)%nat -> (length l <= m)%nat ->
  escape_ref n opts l = escape_ref m opts l.
Proof.
  revert m l. induction n as [|n IH]; intros m l Hl Hn Hm.
  { destruct l; [by destruct m|cbn in Hn; lia]. }
  destruct l as [|b l], m as [|m]; try done; cbn [length] in *; try lia. cbn [escape_ref].
  pose proof Hl as [_ Hl']%Forall_cons_1. rewrite (IH m l) by (done || lia).
  destruct (Z.ltb_spec b 128); [done|]. destruct (_ || _); [|done].
  destruct (decode_ref _ _ _) as [[cp len]|] eqn:Hd; [|done].
  apply decode_ref_high in Hd as [Hlen _]; [|done..]. f_equal.
  apply IH; [by apply Forall_drop|rewrite length_drop; cbn [length] in *; lia..].
Qed.

Lemma prepend_app {E A} (l l' : list A) (r : result E (list A)) :
  prepend l (prepend l' r) = prepend (l ++ l') r.
Proof. destruct r; cbn; [by rewrite app_assoc|done]. Qed.

(** ** The loop follows the reference *)

Section Refinement.
Context (extra : bool) (opts : serialization_opts) (s : list Z).
Context (Hopts : valid_opts opts) (Hs : Forall is_byte s).
Context (Hextra : forall b, (if extra then extra_escape opts b else false) = extra_escape opts b).

(** The reference on what is left from [p] on. *)
Definition ref_from (p : nat) : result utf8_error (list Z) :=
  escape_ref (length (drop p s)) opts (drop p s).

Lemma plain_byte b : needs_escape extra opts b = false -> b < 128 /\ escape_ascii opts b = [b].
Proof.
  unfold needs_escape, escape_ascii, escape_byte. rewrite !orb_false_iff, <- (Hextra b).
  destruct extra; cbn [andb]; intros ((((? & ?) & ->) & ->) & Hx); rewrite ?Hx; cbn [orb].
  all: destruct (Z.leb_spec b 0x1f); lia || (split; [lia|done]).
Qed.

Lemma escape_ref_run n pre l :
  Forall (fun b => needs_escape extra opts b = false) pre -> (length pre <= n)%nat ->
  escape_ref n opts (pre ++ l) = prepend pre (escape_ref (n - length pre) opts l).
Proof.
  intros Hpre. revert n. induction Hpre as [|b pre Hb Hpre IH]; intros n Hn; cbn [length app] in *.
  - rewrite Nat.sub_0_r. by destruct (escape_ref n opts l).
  - destruct n as [|n]; [lia|]. cbn [escape_ref]. apply plain_byte in Hb as [Hb Ha].
    rewrite (proj2 (Z.ltb_lt b 128) Hb), Ha, IH, prepend_app by lia. done.
Qed.

Lemma ref_from_run p f :
  run_end extra opts s p f -> ref_from p = prepend (take (f - p) (drop p s)) (ref_from f).
Proof.
  intros (Hf & Hrun & _). unfold ref_from at 1.
  rewrite <- (take_drop (f - p) (drop p s)) at 2. rewrite escape_ref_run by (done || rewrite length_take; lia).
  f_equal. rewrite drop_drop. replace (p + (f - p))%nat with f by lia.
  apply escape_ref_fuel; [by apply Forall_drop|rewrite ?length_take, !length_drop; lia..].
Qed.

Lemma ref_from_cons p b :
  s !! p = Some b ->
  ref_from p =
    if b <? 128 then prepend (escape_ascii opts b) (ref_from (S p))
    else if encode_non_ascii opts || checks_utf8 opts then
      match decode_ref (skip_invalid_utf8 opts) 0 (drop p s) with
      | Err e => Err e
      | Ok (cp, len) => prepend (escape_high opts cp (take len (drop p s))) (ref_from (p + len))
      end
    else prepend [b] (ref_from (S p)).
Proof.
  intros Hb. unfold ref_from at 1. assert (drop p s = b :: drop (S p) s) as E by by apply drop_S.
  rewrite E. cbn [length escape_ref]. fold (ref_from (S p)). rewrite <- E.
  destruct (Z.ltb_spec b 128); [done|]. destruct (_ || _); [|done].
  destruct (decode_ref _ _ _) as [[cp len]|] eqn:Hd; [|done]. f_equal.
  rewrite drop_drop. rewrite E in Hd. apply decode_ref_high in Hd as [Hlen _]; [| |done].
  - apply escape_ref_fuel; [by apply Forall_drop|rewrite !length_drop; lia..].
  - rewrite <- E. by apply Forall_drop.
Qed.

Lemma utf8_at p skip :
  utf8ToCodePoint s p skip = match decode_ref skip 0 (drop p s) with
                             | Ok (cp, len) => Ok (cp, (p + len)%nat)
                             | Err e => Err e
                             end.
Proof. rewrite utf8ToCodePoint_ref by done. apply decode_ref_shift. Qed.

Lemma byte_of_string p b : s !! p = Some b -> is_byte b.
Proof. intros Hb. by apply (proj1 (Forall_lookup _ _) Hs p). Qed.

Lemma encodeUnicode_eq b :
  is_byte b -> encodeUnicode extra opts b = if b <? 128 then extra_escape opts b else encode_non_ascii opts.
Proof.
  intros Hb. unfold encodeUnicode. rewrite first_is_ascii, Hextra by done.
  destruct (Z.ltb_spec b 128); cbn [negb].
  - by rewrite andb_false_r.
  - rewrite andb_true_r. unfold extra_escape. assert (b <? 0x80 = false) as -> by lia.
    by rewrite andb_false_r, orb_false_r.
Qed.

Lemma escape_byte_high b : 128 <= b -> escape_byte b = [b].
Proof.
  intros Hb. unfold escape_byte. assert ((b =? 92) || (b =? 34) = false) as -> by lia.
  by assert (b <=? 0x1f = false) as -> by lia.
Qed.

Lemma run_end_high p f b : run_end extra opts s p f -> s !! p = Some b -> 128 <= b -> f = p.
Proof.
  intros (Hf & Hrun & _) Hb Hge. destruct (decide (f = p)) as [|]; [done|].
  apply drop_S in Hb. rewrite Hb in Hrun. destruct (f - p)%nat as [|k] eqn:E; [lia|].
  apply Forall_cons_1 in Hrun as [[Hlt _]%plain_byte _]. lia.
Qed.

Lemma firstEsc_end p : (p <= length s)%nat ->
  exists f, firstEsc_loop (length s) extra opts s p = Some f /\ run_end extra opts s p f.
Proof. intros. apply firstEsc_loop_run; [done..|lia]. Qed.

(** The bytes of a code point already validated are copied one at a time. *)
Lemma escape_loop_pending d n p out :
  checks_utf8 opts = true -> Forall (fun b => 128 <= b) (take d (drop p s)) ->
  (p + d <= length s)%nat -> (d <= n)%nat ->
  escape_loop n extra opts s p (p + d) out =
  escape_loop (n - d) extra opts s (p + d) (p + d) (out ++ take d (drop p s)).
Proof.
  intros Hc. revert n p out. induction d as [|d IH]; intros n p out Hh Hp Hn.
  { by rewrite take_0, app_nil_r, Nat.add_0_r, Nat.sub_0_r. }
  destruct n as [|n]; [lia|]. cbn [escape_loop].
  destruct (lookup_lt_is_Some_2 s p) as [b Hb]; [lia|].
  rewrite (drop_S _ _ _ Hb) in Hh |- *. cbn [take] in *. apply Forall_cons_1 in Hh as [Hb' Hh].
  destruct (firstEsc_end p) as (f & -> & Hend); [lia|]. cbn [mbind option_bind]. rewrite (run_end_high p f b) by done.
  rewrite (proj2 (Nat.ltb_lt p (length s))), Nat.ltb_irrefl by lia.
  unfold escape_char, handle_char. rewrite Hc, Hb. cbn [mbind option_bind].
  rewrite encodeUnicode_eq by by eapply byte_of_string.
  assert (b <? 128 = false) as -> by lia. assert (encode_non_ascii opts = false) as ->.
  { unfold checks_utf8 in Hc. apply andb_true_iff in Hc as [_ ?]. by apply negb_true_iff. }
  rewrite (proj2 (Nat.ltb_ge (p + S d) p)), (proj2 (Nat.eqb_neq (p + S d) p)) by lia.
  rewrite escape_byte_high by done. replace (p + S d)%nat with (S p + d)%nat by lia.
  rewrite IH by (done || lia). by rewrite <- app_assoc.
Qed.

Section Char.
(** The loop with [n] iterations, which follows the reference. *)
Context (n : nat).
Context (IH : forall m p q out, (m <= n)%nat -> (p <= length s)%nat -> (length s - p <= m)%nat ->
  (checks_utf8 opts = true -> q = p) ->
  escape_loop m extra opts s p q out = Some (prepend out (ref_from p))).

Lemma escape_char_ascii p q out b :
  s !! p = Some b -> b < 128 -> (length s - S p <= n)%nat -> (checks_utf8 opts = true -> q = p) ->
  escape_char (escape_loop n extra opts s) extra opts s p q out = Some (prepend out (ref_from p)).
Proof.
  intros Hb Hlt Hn Hq. pose proof (byte_of_string _ _ Hb) as Hbyte.
  assert (S p <= length s)%nat by by apply lookup_lt_Some in Hb.
  assert (forall skip, utf8ToCodePoint s p skip = Ok (b, S p)) as Hd.
  { intros skip. rewrite utf8_at, (drop_S _ _ _ Hb). cbn [decode_ref].
    rewrite (proj2 (Z.ltb_lt b 128) Hlt). do 2 f_equal. lia. }
  rewrite (ref_from_cons _ _ Hb), (proj2 (Z.ltb_lt b 128) Hlt), prepend_app.
  assert (forall q, (checks_utf8 opts = true -> q = S p) ->
    handle_char (escape_loop n extra opts s) extra opts s p q out
    = Some (prepend (out ++ escape_ascii opts b) (ref_from (S p)))) as Hh.
  { intros q' Hq'. unfold handle_char. rewrite Hb, Hd. cbn [mbind option_bind].
    rewrite encodeUnicode_eq, (proj2 (Z.ltb_lt b 128) Hlt) by done. unfold escape_ascii.
    destruct (extra_escape opts b); rewrite IH by (done || lia); [|done].
    unfold write_code_point. rewrite (proj2 (Z.ltb_lt b 0x10000)) by lia.
    rewrite (wrap_small 16 b); [done|]. unfold is_uint in *. lia. }
  unfold escape_char. destruct (checks_utf8 opts) eqn:Hc; [|by apply Hh].
  rewrite Hq, Nat.ltb_irrefl, Nat.eqb_refl, Hd by done.
  assert (b =? 0xfffd = false) as -> by lia. rewrite andb_false_r. by apply Hh.
Qed.

Lemma escape_char_high p q out b :
  s !! p = Some b -> 128 <= b -> (length s - S p <= n)%nat -> (checks_utf8 opts = true -> q = p) ->
  escape_char (escape_loop n extra opts s) extra opts s p q out = Some (prepend out (ref_from p)).
Proof.
  intros Hb Hge Hn Hq. pose proof (byte_of_string _ _ Hb) as Hbyte.
  assert (S p <= length s)%nat by by apply lookup_lt_Some in Hb.
  rewrite (ref_from_cons _ _ Hb), (proj2 (Z.ltb_ge b 128) Hge).
  unfold escape_char, handle_char. rewrite Hb. cbn [mbind option_bind].
  rewrite encodeUnicode_eq, (proj2 (Z.ltb_ge b 128) Hge), escape_byte_high by done.
  assert (Forall is_byte (drop p s)) as Hbs by by apply Forall_drop.
  destruct (decode_ref (skip_invalid_utf8 opts) 0 (drop p s)) as [[cp len]|] eqn:Hd.
  - rewrite (drop_S _ _ _ Hb) in Hbs, Hd. pose proof Hd as [Hlen Hhigh]%decode_ref_high; [|done..].
    rewrite <- (drop_S _ _ _ Hb) in Hbs, Hd, Hlen, Hhigh. rewrite length_drop in Hlen.
    destruct (checks_utf8 opts) eqn:Hc.
    + rewrite Hq, Nat.ltb_irrefl, Nat.eqb_refl, utf8_at, Hd, orb_true_r, prepend_app by done.
      pose proof Hc as [_ Hne%negb_true_iff]%andb_true_iff. unfold escape_high. rewrite Hne.
      destruct (skip_invalid_utf8 opts && _); [apply IH; done || lia|].
      replace (p + len)%nat with (S p + (len - 1))%nat by lia.
      destruct len as [|len]; [lia|]. rewrite (drop_S _ _ _ Hb) in Hhigh |- *. cbn [take] in *.
      apply Forall_cons_1 in Hhigh as [_ Hhigh]. rewrite Nat.sub_1_r. cbn [Nat.pred].
      rewrite escape_loop_pending, <- app_assoc by (done || lia). apply IH; done || lia.
    + rewrite orb_false_r, utf8_at, Hd. unfold escape_high.
      destruct (encode_non_ascii opts); rewrite prepend_app; apply IH; done || lia.
  - destruct (checks_utf8 opts) eqn:Hc.
    + rewrite Hq, Nat.ltb_irrefl, Nat.eqb_refl, utf8_at, Hd, orb_true_r by done. done.
    + rewrite orb_false_r, utf8_at, Hd. destruct (encode_non_ascii opts); [done|]. rewrite prepend_app. apply IH; done || lia.
Qed.
End Char.

Lemma escape_loop_ref n p q out :
  (p <= length s)%nat -> (length s - p <= n)%nat -> (checks_utf8 opts = true -> q = p) ->
  escape_loop n extra opts s p q out = Some (prepend out (ref_from p)).
Proof.
  revert p q out. induction n as [n IH] using lt_wf_ind. intros p q out Hp Hn Hq.
  destruct (decide (p = length s)) as [->|].
  { unfold ref_from. rewrite drop_all. destruct n; cbn [escape_loop]; rewrite Nat.ltb_irrefl; cbn; by rewrite app_nil_r. }
  destruct n as [|n]; [lia|]. cbn [escape_loop]. rewrite (proj2 (Nat.ltb_lt p (length s))) by lia.
  destruct (firstEsc_end p Hp) as (f & -> & Hend). cbn [mbind option_bind].
  assert (forall q out, (f < length s)%nat -> (checks_utf8 opts = true -> q = f) ->
    escape_char (escape_loop n extra opts s) extra opts s f q out = Some (prepend out (ref_from f))) as Hchar.
  { intros q' out' Hf Hq'. destruct (lookup_lt_is_Some_2 s f Hf) as [b Hb]. destruct Hend as (? & _ & _).
    destruct (decide (b < 128)); [eapply escape_char_ascii|eapply escape_char_high]; try done; try lia.
    all: intros m p' q'' out'' Hm ???; apply IH; done || lia. }
  rewrite (ref_from_run _ _ Hend), prepend_app. destruct Hend as (Hf & _ & _). destruct (Nat.ltb_spec p f).
  - destruct (Nat.eqb_spec f (length s)) as [E|]; [|apply Hchar; done || lia].
    unfold ref_from. rewrite E, drop_all. cbn. by rewrite app_nil_r.
  - assert (f = p) as E by lia. rewrite E in *. rewrite Nat.sub_diag, take_0, app_nil_r.
    apply Hchar; [lia|done].
Qed.
End Refinement.

Lemma no_extra_escape opts b :
  bitmap_word opts 0 = 0 -> bitmap_word opts 1 = 0 -> extra_escape opts b = false.
Proof.
  intros H0 H1. unfold extra_escape. unfold bitmap_word in *. cbn in H0, H1.
  destruct (b / 64 =? 0); rewrite ?H0, ?H1, Z.land_0_l; by rewrite andb_false_r.
Qed.

Lemma escapeString_ref opts s out :
  valid_opts opts -> Forall is_byte s ->
  escapeString opts s out =
    Some (match escape_ref (length s) opts s with
          | Ok body => Ok (out ++ [34] ++ body ++ [34])
          | Err e => Err e
          end).
Proof.
  intros Hopts Hs. unfold escapeString, escapeStringImpl.
  assert (forall extra, (forall b, (if extra : bool then extra_escape opts b else false) = extra_escape opts b) ->
    escape_loop (length s) extra opts s 0 0 (out ++ [34]) =
    Some (prepend (out ++ [34]) (escape_ref (length s) opts s))) as Hl.
  { intros extra Hextra. rewrite escape_loop_ref by (done || lia). unfold ref_from. by rewrite drop_0. }
  destruct (Z.eqb_spec (bitmap_word opts 0) 0), (Z.eqb_spec (bitmap_word opts 1) 0); cbn [negb orb].
  1: rewrite (Hl false) by (intros; by rewrite no_extra_escape). 2-4: rewrite (Hl true) by done.
  all: destruct (escape_ref _ _ _); cbn; by rewrite <- ?app_assoc.
Qed.

(** ** Main theorems *)

(** The number of bytes at the start of [l] that need no escaping. *)
Fixpoint plain_prefix (extra : bool) (opts : serialization_opts) (l : list Z) : nat :=
  match l with
  | [] => 0
  | b :: l => if needs_escape extra opts b then 0 else S (plain_prefix extra opts l)
  end.

Lemma plain_prefix_unique extra opts l k :
  (k <= length l)%nat -> Forall (fun b => needs_escape extra opts b = false) (take k l) ->
  (forall b, l !! k = Some b -> needs_escape extra opts b = true) -> plain_prefix extra opts l = k.
Proof.
  revert k. induction l as [|b l IH]; intros [|k] Hk Hrun Hend; cbn [length plain_prefix take] in *; try lia.
  - by rewrite (Hend b).
  - apply Forall_cons_1 in Hrun as [-> Hrun]. f_equal. apply IH; [lia|done|done].
Qed.

(** The word-at-a-time test finds, in any eight bytes, exactly how many of them can be copied
    before the first one that needs escaping or validation, the extra characters of the bitmap
    included: the borrows between the bytes of the subtraction never matter. *)
Theorem firstEscapableInWord_spec extra opts l :
  valid_opts opts -> Forall is_byte l -> length l = 8%nat ->
  firstEscapableInWord extra (le_word l) opts = plain_prefix extra opts l.
Proof.
  intros Hopts Hl Hlen. symmetry.
  destruct (firstEscapableInWord_prefix extra opts (le_word l) Hopts) as (Hle & Hlow & Hat).
  apply plain_prefix_unique; [lia| |].
  - apply Forall_lookup. intros j b [Hj Hjk]%lookup_take_Some.
    specialize (Hlow j Hjk). by rewrite byte_at_le_word, Hj in Hlow.
  - intros b Hb. specialize (Hat ltac:(apply lookup_lt_Some in Hb; lia)). by rewrite byte_at_le_word, Hb in Hat.
Qed.

(** The letters of "a<b>, c" with a quote; the options also ask for the escaping of [<] and [>]. *)
Definition html_opts : serialization_opts := {|
  allow_non_string_keys := false;
  convert_int_keys := false;
  javascript_safe := false;
  pretty_formatting := true;
  pretty_formatting_indent_width := 4;
  encode_non_ascii := true;
  validate_utf8 := true;
  validate_keys := true;
  allow_trailing_comma := false;
  sort_keys := false;
  skip_invalid_utf8 := false;
  allow_nan_inf := false;
  double_fallback := false;
  parse_numbers_as_strings := false;
  recursion_limit := 3;
  extra_ascii_to_escape_bitmap := buildExtraAsciiToEscapeBitmap [60; 62];
|}.

Lemma firstEscapableInWord_spec_witness :
  valid_opts html_opts /\
  firstEscapableInWord true (le_word [97; 98; 44; 60; 31; 32; 200; 34]) html_opts = 3%nat.
Proof.
  assert (valid_opts html_opts) as Hv by (split; vm_compute; split; congruence).
  split; [exact Hv|].
  rewrite (firstEscapableInWord_spec true html_opts [97; 98; 44; 60; 31; 32; 200; 34] Hv).
  - reflexivity.
  - repeat constructor; unfold is_uint; lia.
  - reflexivity.
Defined.

(** (C26) Escaping with runs, words and progressive validation is the character by character
    escaping of the reference, whatever the options: it always terminates within as many
    iterations as the string has bytes, never fails its internal check nor reads past the end,
    throws exactly when the reference does, and appends the same text between quotes. *)
Theorem escapeString_refines_reference opts s out :
  valid_opts opts -> Forall is_byte s ->
  escapeString opts s out =
    Some (match escape_ref (length s) opts s with
          | Ok body => Ok (out ++ [34] ++ body ++ [34])
          | Err e => Err e
          end).
Proof. apply escapeString_ref. Qed.

Lemma escapeString_refines_reference_witness :
  escapeString html_opts [97; 60; 10; 0xC3; 0xA9] [120] =
    Some (Ok ([120; 34; 97] ++ writeHex 60 ++ [92; 110] ++ writeHex 0xE9 ++ [34])).
Proof.
  rewrite (escapeString_refines_reference html_opts [97; 60; 10; 0xC3; 0xA9] [120]).
  - reflexivity.
  - split; vm_compute; split; congruence.
  - repeat constructor; unfold is_uint; lia.
Defined.

(** *** Which strings are refused *)

(** Text in UTF-8. *)
Definition is_utf8 (s : list Z) : Prop :=
  exists cps, Forall (fun cp => is_scalar_value cp = true) cps /\ s = concat (codePointToUtf8 <$> cps).

Lemma is_utf8_nil : is_utf8 [].
Proof. by exists []. Qed.

Lemma is_utf8_cons cp s : is_scalar_value cp = true -> is_utf8 s -> is_utf8 (utf8_bytes cp ++ s).
Proof.
  intros Hcp (cps & Hcps & ->). exists (cp :: cps). split; [by apply Forall_cons_2|].
  cbn. by rewrite is_scalar_value_bytes.
Qed.

(** The text is validated, as such or by being encoded, and an invalid one is an error. *)
Definition strict_utf8 (opts : serialization_opts) : Prop :=
  (encode_non_ascii opts = true \/ validate_utf8 opts = true) /\ skip_invalid_utf8 opts = false.

Lemma strict_utf8_checks opts : strict_utf8 opts -> encode_non_ascii opts || checks_utf8 opts = true.
Proof. unfold checks_utf8. intros [[-> | ->] _]; [done|]. by destruct (encode_non_ascii opts). Qed.

Lemma prepend_ok {E A} (l l' : list A) (r : result E (list A)) :
  prepend l r = Ok l' <-> exists l'', r = Ok l'' /\ l' = l ++ l''.
Proof. destruct r; cbn; naive_solver. Qed.

Lemma escape_ref_utf8 n opts l body :
  strict_utf8 opts -> Forall is_byte l -> (length l <= n)%nat -> escape_ref n opts l = Ok body -> is_utf8 l.
Proof.
  intros Hst. revert l body. induction n as [|n IH]; intros [|b l] body Hl Hn; cbn [escape_ref length] in *;
    try lia; try (intros; apply is_utf8_nil).
  rewrite strict_utf8_checks by done. destruct Hst as [_ Hskip]. rewrite Hskip.
  destruct (Z.ltb_spec b 128).
  - intros (body' & He & ->)%prepend_ok. apply Forall_cons_1 in Hl as [Hb Hl]. unfold is_uint in Hb.
    assert (utf8_bytes b = [b]) as E by (unfold utf8_bytes; by rewrite (proj2 (Z.ltb_lt b 0x80)) by lia).
    change (b :: l) with ([b] ++ l). rewrite <- E. apply is_utf8_cons; [|eapply IH; done || lia].
    apply is_scalar_value_true. lia.
  - destruct (decode_ref _ _ _) as [[cp len]|] eqn:Hd; [|done]. intros (body' & He & ->)%prepend_ok.
    pose proof Hd as [Hlen _]%decode_ref_high; [|done..].
    apply decode_ref_sound in Hd as (Hcp & rest & E & ->); [|done].
    rewrite E in He, Hl |- *. rewrite Nat.add_0_l, drop_app_length in He.
    apply is_utf8_cons; [done|]. apply Forall_app in Hl as [_ Hl]. eapply IH; [done| |done].
    apply (f_equal length) in E. rewrite length_app in E. cbn [length] in *. lia.
Qed.

Lemma escape_ref_total n opts l :
  strict_utf8 opts -> is_utf8 l -> (length l <= n)%nat -> exists body, escape_ref n opts l = Ok body.
Proof.
  intros Hst (cps & Hcps & ->). revert n.
  induction Hcps as [|cp cps Hcp Hcps IH]; intros n Hn; cbn [fmap list_fmap concat] in *.
  { exists []. by destruct n. }
  rewrite is_scalar_value_bytes in * by done. pose proof (decode_ref_encode 0 cp (concat (codePointToUtf8 <$> cps)) Hcp) as Hd.
  pose proof Hcp as Hr%is_scalar_value_true. rewrite length_app in Hn.
  destruct (Z.ltb_spec cp 0x80).
  - assert (utf8_bytes cp = [cp]) as E by (unfold utf8_bytes; by rewrite (proj2 (Z.ltb_lt cp 0x80)) by lia).
    rewrite E in *. destruct n as [|n]; cbn [app length escape_ref] in *; [lia|].
    rewrite (proj2 (Z.ltb_lt cp 128)) by lia. destruct (IH n) as [body ->]; [lia|]. by eexists.
  - pose proof (utf8_bytes_high cp ltac:(lia)) as Hh. destruct (utf8_bytes cp) as [|b bs] eqn:E.
    { unfold utf8_bytes in E. repeat case_match; done. }
    destruct n as [|n]; cbn [length] in Hn; [lia|]. cbn [app escape_ref] in *.
    apply Forall_cons_1 in Hh as [Hb _]. rewrite (proj2 (Z.ltb_ge b 128)) by lia.
    rewrite strict_utf8_checks by done. destruct Hst as [_ Hskip]. rewrite Hskip, Hd, Nat.add_0_l.
    change (b :: bs ++ ?r) with ((b :: bs) ++ r). rewrite drop_app_length.
    destruct (IH n) as [body ->]; [lia|]. by eexists.
Qed.

(** When strings are validated or encoded to ASCII, and invalid characters are not to be
    skipped, escaping succeeds on exactly the strings that are UTF-8 text, and throws on the others. *)
Theorem escapeString_accepts_utf8 opts s out :
  valid_opts opts -> Forall is_byte s -> strict_utf8 opts ->
  ((exists out', escapeString opts s out = Some (Ok out')) <-> is_utf8 s) /\
  ((exists e, escapeString opts s out = Some (Err e)) <-> ~ is_utf8 s).
Proof.
  intros Hopts Hs Hst. rewrite escapeString_ref by done.
  destruct (escape_ref (length s) opts s) as [body|e] eqn:He.
  - apply escape_ref_utf8 in He; [|done..]. split; split; try done; [by eexists|by intros [? ?]].
  - assert (~ is_utf8 s) as Hn.
    { intros Hu. destruct (escape_ref_total (length s) opts s) as [body He']; [done..|]. by rewrite He in He'. }
    split; split; try done; [by intros [? ?]|by eexists].
Qed.

Lemma escapeString_accepts_utf8_witness :
  strict_utf8 html_opts /\ is_utf8 [0xC3; 0xA9; 65] /\
  (exists e, escapeString html_opts [0xC3; 65] [] = Some (Err e)) /\ ~ is_utf8 [0xC3; 65].
Proof.
  assert (strict_utf8 html_opts) as Hst by (split; [left|]; reflexivity).
  assert (valid_opts html_opts) as Hv by (split; vm_compute; split; congruence).
  assert (exists e, escapeString html_opts [0xC3; 65] [] = Some (Err e)) as He
    by (eexists; vm_compute; reflexivity).
  split; [exact Hst|split; [|split; [exact He|]]].
  - refine (proj1 (proj1 (escapeString_accepts_utf8 html_opts [0xC3; 0xA9; 65] [] Hv _ Hst)) _).
    + repeat constructor; unfold is_uint; lia.
    + eexists. vm_compute. reflexivity.
  - refine (proj1 (proj2 (escapeString_accepts_utf8 html_opts [0xC3; 65] [] Hv _ Hst)) He).
    repeat constructor; unfold is_uint; lia.
Defined.

(** *** The text written *)

(** No control character; ASCII only when the others are encoded. *)
Definition text_char (opts : serialization_opts) (b : Z) : Prop :=
  0x20 <= b < 256 /\ (encode_non_ascii opts = true -> b < 128).

Lemma hexDigit_range c : 0 <= c < 16 -> 48 <= hexDigit c <= 57 \/ 97 <= hexDigit c <= 102.
Proof. unfold hexDigit. destruct (Z.ltb_spec c 10); lia. Qed.

Lemma nibble_range x : 0 <= x .& 0x0f < 16.
Proof. rewrite (land_ones_mod _ 4) by lia. apply Z.mod_pos_bound. lia. Qed.

Lemma writeHex_text opts v : Forall (text_char opts) (writeHex v).
Proof.
  unfold writeHex. repeat (apply Forall_cons_2; [|]); try apply Forall_nil_2; unfold text_char; try lia.
  all: match goal with |- context [hexDigit (?x .& 15)] => pose proof (hexDigit_range _ (nibble_range x)) end; lia.
Qed.

Lemma write_code_point_text opts cp : Forall (text_char opts) (write_code_point cp).
Proof. unfold write_code_point. destruct (_ <? _); rewrite ?Forall_app; auto using writeHex_text. Qed.

Lemma escape_ascii_text opts b : is_byte b -> b < 128 -> Forall (text_char opts) (escape_ascii opts b).
Proof.
  intros Hb Hlt. unfold escape_ascii. destruct (extra_escape opts b); [apply writeHex_text|].
  eapply (Forall_impl (fun c => 0x20 <= c < 128)); [|unfold text_char; intros; lia].
  assert (forallb (fun c => (0x20 <=? c) && (c <? 128)) (escape_byte b) = true) as Hall.
  { eapply (byte_forall (fun b => (128 <=? b) || forallb (fun c => (0x20 <=? c) && (c <? 128)) (escape_byte b)))
      in Hb; [|by vm_compute]. destruct (Z.leb_spec 128 b); [lia|done]. }
  apply Forall_forall. intros c Hc%list_elem_of_In. rewrite forallb_forall in Hall. specialize (Hall c Hc). lia.
Qed.

Lemma escape_ref_text n opts l body :
  Forall is_byte l -> escape_ref n opts l = Ok body -> Forall (text_char opts) body.
Proof.
  revert l body. induction n as [|n IH]; intros [|b l] body Hl; cbn [escape_ref];
    try (intros [= <-]; apply Forall_nil_2).
  pose proof Hl as [Hb Hl']%Forall_cons_1. destruct (Z.ltb_spec b 128).
  { intros (body' & He & ->)%prepend_ok. apply Forall_app. split; [by apply escape_ascii_text|by eapply IH]. }
  destruct (_ || _) eqn:Hc.
  - destruct (decode_ref _ _ _) as [[cp len]|] eqn:Hd; [|done]. intros (body' & He & ->)%prepend_ok.
    apply Forall_app. split; [|eapply IH, He; by apply Forall_drop].
    unfold escape_high. destruct (encode_non_ascii opts) eqn:Hne; [apply write_code_point_text|].
    destruct (_ && _).
    { repeat apply Forall_cons_2; try apply Forall_nil_2; unfold text_char; rewrite Hne; split; lia || done. }
    apply decode_ref_high in Hd as [_ Hh]; [|done..].
    apply Forall_forall. intros c Hin. pose proof (proj1 (Forall_forall _ _) Hh c Hin).
    assert (is_byte c) by (eapply (proj1 (Forall_forall _ _) (Forall_take _ len _ Hl)); exact Hin).
    unfold text_char, is_uint in *. rewrite Hne. split; lia || done.
  - intros (body' & He & ->)%prepend_ok. apply Forall_app. split; [|by eapply IH].
    apply orb_false_iff in Hc as [Hne _]. apply Forall_cons_2; [|apply Forall_nil_2].
    unfold text_char, is_uint in *. rewrite Hne. split; lia || done.
Qed.

(** The text written for any string holds no control character, whatever the options, and is
    plain ASCII when the encoding of the other characters is asked for. *)
Theorem escapeString_writes_text opts s out out' :
  valid_opts opts -> Forall is_byte s -> escapeString opts s out = Some (Ok out') ->
  exists text, out' = out ++ text /\ Forall (text_char opts) text.
Proof.
  intros Hopts Hs. rewrite escapeString_ref by done.
  destruct (escape_ref _ _ _) as [body|] eqn:He; [|done]. intros [= <-]. eexists. split; [done|].
  apply escape_ref_text in He; [|done].
  assert (text_char opts 34) by (unfold text_char; lia).
  apply Forall_cons_2; [done|]. apply Forall_app. split; [done|]. by apply Forall_cons_2; [|apply Forall_nil_2].
Qed.

Lemma escapeString_writes_text_witness :
  exists out' text, escapeString html_opts [0; 31; 92; 0xE2; 0x82; 0xAC] [10] = Some (Ok out') /\
    out' = [10] ++ text /\ Forall (text_char html_opts) text.
Proof.
  assert (exists o, escapeString html_opts [0; 31; 92; 0xE2; 0x82; 0xAC] [10] = Some (Ok o)) as [o Ho]
    by (eexists; vm_compute; reflexivity).
  destruct (escapeString_writes_text html_opts [0; 31; 92; 0xE2; 0x82; 0xAC] [10] o) as (t & -> & Ht).
  - split; vm_compute; split; congruence.
  - repeat constructor; unfold is_uint; lia.
  - exact Ho.
  - exists ([10] ++ t), t. auto.
Defined.
