(* ===== verification/JsonParse.v ===== *)
(** * JSON: [dynamic] values and the parser of [folly/json/json.cpp].

    The parser reads its [Input], the rest of the text with a line counter and a nesting level,
    and returns a [dynamic] or throws.  A text is the list of its bytes.  [None] stands for
    undefined behaviour, for the endless loop [skipWhitespace] enters on 4 GiB of blanks (its index
    is an [unsigned]), and for a computation that needs more than the fuel it is given; a theorem
    below shows that [parseJson] always has enough. *)
From S2P Require Import Prelude Unicode IntConv ToAscii Conv JsonEscape.

(** ** Floating point

    Numbers that are not integers go through [double] and the conversions of the double-conversion
    library, which are parameters: [to_double] is [to<double>] of a text, [double_text] what
    [toAppend] writes under the [dtoa] options in force. *)
Class DoubleOps := {
  double : Type;
  to_double : list Z -> option double;
  double_text : double -> list Z;
  isnan : double -> bool;
  isinf : double -> bool;
  infinity : double;
  neg_infinity : double;
  quiet_NaN : double;
  double_eqb : double -> double -> bool;
  double_eq_int : Z -> double -> bool;
}.

(** ** [dynamic]

    An object lists its items in the order in which they were inserted.  Its hash map promises no
    order: the one in which [items()] goes through them is a parameter of the printer. *)
Section Dynamic.
Context {D : DoubleOps}.

Inductive dynamic :=
| NULLT
| ARRAY (items : list dynamic)
| BOOL (b : bool)
| DOUBLE (d : double)
| INT64 (z : Z)
| OBJECT (items : list (dynamic * dynamic))
| STRING (s : list Z).

(** [operator==]: integers and doubles compare by value, maps whatever the order of their items. *)
Fixpoint dyn_eqb (a b : dynamic) {struct a} : bool :=
  match a, b with
  | INT64 i, DOUBLE d => double_eq_int i d
  | DOUBLE d, INT64 i => double_eq_int i d
  | NULLT, NULLT => true
  | BOOL x, BOOL y => Bool.eqb x y
  | DOUBLE x, DOUBLE y => double_eqb x y
  | INT64 x, INT64 y => x =? y
  | STRING x, STRING y => bool_decide (x = y)
  | ARRAY x, ARRAY y =>
      (fix all x y := match x, y with
                      | [], [] => true
                      | a :: x, b :: y => dyn_eqb a b && all x y
                      | _, _ => false
                      end) x y
  | OBJECT x, OBJECT y =>
      (length x =? length y)%nat &&
      (fix all x := match x with
                    | [] => true
                    | (k, v) :: x =>
                        (fix find y := match y with
                                       | [] => false
                                       | (k', v') :: y => if dyn_eqb k k' then dyn_eqb v v' else find y
                                       end) y && all x
                    end) x
  | _, _ => false
  end.

Definition isString (d : dynamic) : bool := match d with STRING _ => true | _ => false end.
Definition isInt (d : dynamic) : bool := match d with INT64 _ => true | _ => false end.

(** [count] of an object. *)
Definition has_key (items : list (dynamic * dynamic)) (k : dynamic) : bool :=
  existsb (fun item => dyn_eqb k item.1) items.

(** [try_emplace], then the assignment to the value found when the key was there. *)
Fixpoint overwrite (items : list (dynamic * dynamic)) (k v : dynamic) : list (dynamic * dynamic) :=
  match items with
  | [] => []
  | (k', v') :: items => if dyn_eqb k k' then (k', v) :: items else (k', v') :: overwrite items k v
  end.

End Dynamic.

(** ** [Input] *)

Inductive parse_failure :=
| expected_char (c : Z)
| expected_json_value
| expected_string_key
| expected_string_or_integer_key
| duplicate_key
| expected_digits_after_minus
| invalid_hex_digit
| expected_4_hex_digits
| expected_another_escape
| second_surrogate_invalid
| invalid_code_point
| unknown_escape (c : Z)
| unterminated_string
| null_byte
| recursion_limit_exceeded
| not_all_consumed.

(** What the parser throws: a [parse_error] with the line, up to 16 characters of context and the
    reason, or the [ConversionError] of a number. *)
Inductive json_error :=
| parse_error (line : Z) (context : list Z) (what : parse_failure)
| conversion_error (code : ConversionCode)
| double_conversion_error.

Record Input := mkInput {
  range_ : list Z;
  lineNum_ : Z;
  currentRecursionLevel_ : Z;
}.

Definition with_range (r : list Z) (i : Input) : Input := mkInput r (lineNum_ i) (currentRecursionLevel_ i).

Abbreviation Parser := (M Input json_error).

Definition EOF : Z := -1.

(** [current_], as [storeCurrent] keeps it: a [char] is signed. *)
Definition current : Parser Z := fun i =>
  Some (i, Ok (match range_ i with [] => EOF | c :: _ => i8 c end)).

Definition error {A} (what : parse_failure) : Parser A := fun i =>
  Some (i, Err (parse_error (lineNum_ i) (take 16 (range_ i)) what)).

(** [operator++] *)
Definition advance1 : Parser unit := fun i =>
  match range_ i with
  | [] => None
  | _ :: r => Some (with_range r i, Ok tt)
  end.

(** The characters skipped and the rest; the predicate is told which character is the first one. *)
Fixpoint skip_span (p : bool -> Z -> bool) (first : bool) (l : list Z) : list Z * list Z :=
  match l with
  | [] => ([], [])
  | c :: l' => if p first c then let '(s, r) := skip_span p false l' in (c :: s, r) else ([], l)
  end.

Definition count_newlines (l : list Z) : Z := Z.of_nat (length (filter (fun c => c = 10) l)).

Definition skipWhile (p : bool -> Z -> bool) : Parser (list Z) := fun i =>
  let '(s, r) := skip_span p true (range_ i) in
  Some (mkInput r (u32 (lineNum_ i + count_newlines s)) (currentRecursionLevel_ i), Ok s).

Definition skipDigits : Parser (list Z) := skipWhile (fun _ c => (48 <=? c) && (c <=? 57)).

Definition skipMinusAndDigits : Parser (list Z) :=
  skipWhile (fun first c => ((48 <=? c) && (c <=? 57)) || (first && (c =? 45))).

(** The blanks: space, line feed, tab and carriage return. *)
Definition json_blank (c : Z) : bool := (c =? 32) || (c =? 10) || (c =? 9) || (c =? 13).

Definition skipWhitespace : Parser unit := fun i =>
  let '(s, r) := skip_span (fun _ => json_blank) true (range_ i) in
  if Z.of_nat (length s) <? 2 ^ 32 then
    Some (mkInput r (u32 (lineNum_ i + count_newlines s)) (currentRecursionLevel_ i), Ok tt)
  else None.

Definition expect (c : Z) : Parser unit :=
  cur ← current;
  if negb (cur =? c) then error (expected_char c) else advance1.

Definition size : Parser nat := fun i => Some (i, Ok (length (range_ i))).

Fixpoint strip_prefix (s l : list Z) : option (list Z) :=
  match s, l with
  | [], _ => Some l
  | a :: s, b :: l => if a =? b then strip_prefix s l else None
  | _, [] => None
  end.

Definition consume (str : list Z) : Parser bool := fun i =>
  match strip_prefix str (range_ i) with
  | Some r => Some (with_range r i, Ok true)
  | None => Some (i, Ok false)
  end.

Definition incrementRecursionLevel (opts : serialization_opts) : Parser unit := fun i =>
  if recursion_limit opts <? currentRecursionLevel_ i then error recursion_limit_exceeded i
  else Some (mkInput (range_ i) (lineNum_ i) (u32 (currentRecursionLevel_ i + 1)), Ok tt).

Definition decrementRecursionLevel : Parser unit := fun i =>
  Some (mkInput (range_ i) (lineNum_ i) (u32 (currentRecursionLevel_ i - 1)), Ok tt).

(** ** Strings *)

Definition hexVal (c : Z) : Parser Z :=
  if (48 <=? c) && (c <=? 57) then mret (u16 (c - 48))
  else if (97 <=? c) && (c <=? 102) then mret (u16 (c - 97 + 10))
  else if (65 <=? c) && (c <=? 70) then mret (u16 (c - 65 + 10))
  else error invalid_hex_digit.

Definition readHex : Parser Z :=
  n ← size;
  if (n <? 4)%nat then error expected_4_hex_digits
  else
    c ← current; h ← hexVal c; let ret := u16 (h * 4096) in
    _ ← advance1; c ← current; h ← hexVal c; let ret := u16 (ret + h * 256) in
    _ ← advance1; c ← current; h ← hexVal c; let ret := u16 (ret + h * 16) in
    _ ← advance1; c ← current; h ← hexVal c; let ret := u16 (ret + h) in
    _ ← advance1; mret ret.

(** The text of [out] once the code point is appended to it. *)
Definition decodeUnicodeEscape (out : list Z) : Parser (list Z) :=
  prefix ← readHex;
  if utf16_code_unit_is_high_surrogate prefix then
    more ← consume [92; 117];
    if negb more then error expected_another_escape
    else
      suffix ← readHex;
      if negb (utf16_code_unit_is_low_surrogate suffix) then error second_surrogate_invalid
      else
        match unicode_code_point_from_utf16_surrogate_pair prefix suffix with
        | Ok codePoint => mret (appendCodePointToUtf8 codePoint out)
        | Err _ => undefined
        end
  else if negb (utf16_code_unit_is_bmp prefix) then error invalid_code_point
  else mret (appendCodePointToUtf8 prefix out).

(** The [switch] on the character after a backslash. *)
Definition parseEscape (ret : list Z) : Parser (list Z) :=
  c ← current;
  let push b := (_ ← advance1; mret (ret ++ [b])) in
  if c =? 34 then push 34
  else if c =? 92 then push 92
  else if c =? 47 then push 47
  else if c =? 98 then push 8
  else if c =? 102 then push 12
  else if c =? 110 then push 10
  else if c =? 114 then push 13
  else if c =? 116 then push 9
  else if c =? 117 then _ ← advance1; decodeUnicodeEscape ret
  else error (unknown_escape c).

Fixpoint string_loop (n : nat) (ret : list Z) : Parser (list Z) :=
  match n with
  | O => undefined
  | S n =>
      run ← skipWhile (fun _ c => negb (c =? 34) && negb (c =? 92));
      let ret := ret ++ run in
      c ← current;
      if c =? 34 then _ ← advance1; mret ret
      else if c =? 92 then
        _ ← advance1;
        ret ← parseEscape ret;
        string_loop n ret
      else if c =? EOF then error unterminated_string
      else if c =? 0 then error null_byte
      else
        _ ← advance1;
        string_loop n (ret ++ [u8 c])
  end.

(** Each round of the loop consumes at least a backslash. *)
Definition parseString : Parser (list Z) :=
  _ ← advance1;
  n ← size;
  string_loop (S n) [].

(** ** Numbers *)

Section Values.
Context {D : DoubleOps}.

(** [operator<=] of [StringPiece]. *)
Fixpoint text_le (a b : list Z) : bool :=
  match a, b with
  | [], _ => true
  | _, [] => false
  | x :: a, y :: b => (x <? y) || ((x =? y) && text_le a b)
  end.

Definition to_int64 (s : list Z) : Parser Z := fun i =>
  match tryTo_integral (mkInt 64 true) s with
  | Some (Ok v) => Some (i, Ok v)
  | Some (Err code) => Some (i, Err (conversion_error code))
  | None => None
  end.

Definition number_to_double (s : list Z) : Parser double := fun i =>
  Some (i, match to_double s with Some d => Ok d | None => Err double_conversion_error end).

Definition maxIntStr : list Z := bytes_of "9223372036854775807".
Definition minIntStr : list Z := bytes_of "-9223372036854775808".

(** The exponent, if any: [end] is moved after it. *)
Definition parseExponent : Parser (list Z) :=
  c ← current;
  if (c =? 101) || (c =? 69) then
    _ ← advance1;
    s ← current;
    sign ← (if (s =? 43) || (s =? 45) then _ ← advance1; mret [s] else mret []);
    expPart ← skipDigits;
    mret (c :: sign ++ expPart)
  else mret [].

(** The end of [parseNumber], for a number with a fraction or an exponent: [end] is moved past
    them, and [fullNum] is the text from the start of [integral] to [end]. *)
Definition parseFloating (opts : serialization_opts) (integral : list Z) (wasE : bool) : Parser dynamic :=
  fraction ← (if negb wasE then _ ← advance1; ds ← skipDigits; mret (46 :: ds) else mret []);
  exponent ← parseExponent;
  let fullNum := integral ++ fraction ++ exponent in
  if parse_numbers_as_strings opts then mret (STRING fullNum)
  else val ← number_to_double fullNum; mret (DOUBLE val).

(** [parseNumber] after the test for [-Infinity]. *)
Definition parseFinite (opts : serialization_opts) (negative : bool) : Parser dynamic :=
  integral ← skipMinusAndDigits;
  if negative && (length integral <? 2)%nat then error expected_digits_after_minus
  else
    c ← current;
    let wasE := (c =? 101) || (c =? 69) in
    if negb (c =? 46) && negb wasE && parse_numbers_as_strings opts then mret (STRING integral)
    else
      let extremaStr := if negative then minIntStr else maxIntStr in
      let extremaLen := length extremaStr in
      if negb (c =? 46) && negb wasE then
        if (negb (double_fallback opts) || (length integral <? extremaLen)%nat)
           || ((length integral =? extremaLen)%nat && text_le integral extremaStr) then
          val ← to_int64 integral; _ ← skipWhitespace; mret (INT64 val)
        else
          val ← number_to_double integral; _ ← skipWhitespace; mret (DOUBLE val)
      else parseFloating opts integral wasE.

Definition parseNumber (opts : serialization_opts) : Parser dynamic :=
  c ← current;
  let negative := c =? 45 in
  inf ← (if negative then consume (bytes_of "-Infinity") else mret false);
  if inf : bool then
    if parse_numbers_as_strings opts then mret (STRING (bytes_of "-Infinity")) else mret (DOUBLE neg_infinity)
  else parseFinite opts negative.

(** ** Arrays, objects and values

    The parser of the values inside is an argument of that of the arrays and of the objects. *)

Fixpoint array_loop (parseValue : Parser dynamic) (n : nat) (opts : serialization_opts) (ret : list dynamic)
    : Parser (list dynamic) :=
  match n with
  | O => undefined
  | S n =>
      c ← current;
      if allow_trailing_comma opts && (c =? 93) then mret ret
      else
        v ← parseValue;
        let ret := ret ++ [v] in
        _ ← skipWhitespace;
        c ← current;
        if negb (c =? 44) then mret ret
        else _ ← advance1; _ ← skipWhitespace; array_loop parseValue n opts ret
  end.

Definition parseArray (parseValue : Parser dynamic) (n : nat) (opts : serialization_opts) : Parser dynamic :=
  _ ← advance1;
  _ ← skipWhitespace;
  c ← current;
  if c =? 93 then _ ← advance1; mret (ARRAY [])
  else
    ret ← array_loop parseValue n opts [];
    _ ← expect 93;
    mret (ARRAY ret).

Definition parseObjectKeyValue (parseValue : Parser dynamic) (ret : list (dynamic * dynamic)) (key : dynamic)
    (distinct : bool) : Parser (list (dynamic * dynamic)) :=
  _ ← skipWhitespace;
  _ ← expect 58;
  _ ← skipWhitespace;
  value ← parseValue;
  if has_key ret key then
    if distinct then error duplicate_key else mret (overwrite ret key value)
  else mret (ret ++ [(key, value)]).

(** [to<std::string>] of a 64-bit integer. *)
Definition int_as_string (z : Z) : Parser dynamic := fun i =>
  match toAppend_signed z [] with
  | Some s => Some (i, Ok (STRING s))
  | None => None
  end.

Definition parseKey (parseValue : Parser dynamic) (opts : serialization_opts) : Parser dynamic :=
  key ← parseValue;
  match key with
  | INT64 z =>
      if convert_int_keys opts then int_as_string z
      else if negb (allow_non_string_keys opts) then error expected_string_key
      else mret key
  | _ =>
      if negb (allow_non_string_keys opts) && negb (isString key) then
        error (if convert_int_keys opts then expected_string_or_integer_key else expected_string_key)
      else mret key
  end.

Fixpoint object_loop (parseValue : Parser dynamic) (n : nat) (opts : serialization_opts)
    (ret : list (dynamic * dynamic)) : Parser (list (dynamic * dynamic)) :=
  match n with
  | O => undefined
  | S n =>
      let distinct := validate_keys opts || convert_int_keys opts in
      c ← current;
      if allow_trailing_comma opts && (c =? 125) then mret ret
      else
        key ← parseKey parseValue opts;
        ret ← parseObjectKeyValue parseValue ret key distinct;
        _ ← skipWhitespace;
        c ← current;
        if negb (c =? 44) then mret ret
        else _ ← advance1; _ ← skipWhitespace; object_loop parseValue n opts ret
  end.

Definition parseObject (parseValue : Parser dynamic) (n : nat) (opts : serialization_opts) : Parser dynamic :=
  _ ← advance1;
  _ ← skipWhitespace;
  c ← current;
  if c =? 125 then _ ← advance1; mret (OBJECT [])
  else
    ret ← object_loop parseValue n opts [];
    _ ← expect 125;
    mret (OBJECT ret).

(** The alternatives that start with a letter. *)
Definition parseWord (opts : serialization_opts) : Parser dynamic :=
  t ← consume (bytes_of "true");
  if t : bool then mret (BOOL true) else
  t ← consume (bytes_of "false");
  if t : bool then mret (BOOL false) else
  t ← consume (bytes_of "null");
  if t : bool then mret NULLT else
  t ← consume (bytes_of "Infinity");
  if t : bool then
    mret (if parse_numbers_as_strings opts then STRING (bytes_of "Infinity") else DOUBLE infinity)
  else
  t ← consume (bytes_of "NaN");
  if t : bool then
    mret (if parse_numbers_as_strings opts then STRING (bytes_of "NaN") else DOUBLE quiet_NaN)
  else error expected_json_value.

(** The [?:] chain of [parseValue] on the first character. *)
Definition parseAlternative (parseValue : Parser dynamic) (n : nat) (opts : serialization_opts) (c : Z)
    : Parser dynamic :=
  if c =? 91 then parseArray parseValue n opts
  else if c =? 123 then parseObject parseValue n opts
  else if c =? 34 then s ← parseString; mret (STRING s)
  else if (c =? 45) || ((48 <=? c) && (c <=? 57)) then parseNumber opts
  else parseWord opts.

(** [n] bounds the depth of the calls and, in each array or object, the number of elements. *)
Fixpoint parseValue (n : nat) (opts : serialization_opts) : Parser dynamic :=
  match n with
  | O => undefined
  | S n =>
      _ ← incrementRecursionLevel opts;
      _ ← skipWhitespace;
      c ← current;
      v ← parseAlternative (parseValue n opts) n opts c;
      _ ← decrementRecursionLevel;
      mret v
  end.

Definition parse_all (n : nat) (opts : serialization_opts) : Parser dynamic :=
  ret ← parseValue n opts;
  _ ← skipWhitespace;
  len ← size;
  c ← current;
  if negb (len =? 0)%nat && negb (c =? 0) then error not_all_consumed else mret ret.

Definition parseJson (opts : serialization_opts) (text : list Z) : option (result json_error dynamic) :=
  '(_, r) ← parse_all (S (length text)) opts (mkInput text 0 0);
  Some r.
End Values.

(** ** Runs of the parser

    [runs_to m i Q]: from [i] the computation ends, with an exception or with a value and a state
    that satisfy [Q]. *)

Definition runs_to {A} (m : Parser A) (i : Input) (Q : A -> Input -> Prop) : Prop :=
  exists i' r, m i = Some (i', r) /\ forall a, r = Ok a -> Q a i'.

Lemma runs_ret {A} (a : A) i (Q : A -> Input -> Prop) : Q a i -> runs_to (mret a) i Q.
Proof. intros HQ. do 2 eexists. split; [done|]. by intros a' [= <-]. Qed.

Lemma runs_bind {A B} (m : Parser A) (f : A -> Parser B) i Q :
  runs_to m i (fun a i' => runs_to (f a) i' Q) -> runs_to (m ≫= f) i Q.
Proof.
  intros (i' & r & E & Hr). unfold runs_to. rewrite M_bind_unfold, E. destruct r as [a|e].
  - by apply Hr.
  - by do 2 eexists.
Qed.

Lemma runs_mono {A} (m : Parser A) i (Q Q' : A -> Input -> Prop) :
  runs_to m i Q -> (forall a i', Q a i' -> Q' a i') -> runs_to m i Q'.
Proof. intros (i' & r & E & Hr) HQ. do 2 eexists. split; [done|]. eauto. Qed.

Lemma runs_error {A} what i (Q : A -> Input -> Prop) : runs_to (error what) i Q.
Proof. by do 2 eexists. Qed.

(** The text that is left is a suffix of what there was, and the level is the same. *)
Definition advanced (i i' : Input) : Prop :=
  (exists s, range_ i = s ++ range_ i') /\ currentRecursionLevel_ i' = currentRecursionLevel_ i.

Definition left (i : Input) : nat := length (range_ i).

#[global] Instance advanced_preorder : PreOrder advanced.
Proof.
  split.
  - intros i. split; [by exists []|done].
  - intros i1 i2 i3 [[s Hs] Hl] [[s' Hs'] Hl']. split; [|congruence].
    exists (s ++ s'). by rewrite Hs, Hs', app_assoc.
Qed.

Lemma advanced_left i i' : advanced i i' -> (left i' <= left i)%nat.
Proof. intros [[s Hs] _]. unfold left. rewrite Hs, length_app. lia. Qed.

(** Bytes, and few enough of them for an [unsigned] to count. *)
Definition readable (i : Input) : Prop := Forall is_byte (range_ i) /\ Z.of_nat (left i) < 2 ^ 32.

Lemma advanced_readable i i' : advanced i i' -> readable i -> readable i'.
Proof.
  intros Ha [Hb Hl]. pose proof (advanced_left i i' Ha). split; [|lia].
  destruct Ha as [[s Hs] _]. rewrite Hs in Hb. by apply Forall_app in Hb as [_ ?].
Qed.

(** The current character. *)
Definition cur (i : Input) : Z := match range_ i with [] => EOF | c :: _ => i8 c end.

Lemma runs_current i (Q : Z -> Input -> Prop) : Q (cur i) i -> runs_to current i Q.
Proof. intros HQ. do 2 eexists. split; [done|]. by intros a [= <-]. Qed.

Lemma runs_size i (Q : nat -> Input -> Prop) : Q (left i) i -> runs_to size i Q.
Proof. intros HQ. do 2 eexists. split; [done|]. by intros a [= <-]. Qed.

Lemma cur_left i : cur i <> EOF -> (0 < left i)%nat.
Proof. unfold cur, left. destruct (range_ i); cbn; [done|lia]. Qed.

Lemma runs_advance1 i (Q : unit -> Input -> Prop) :
  (0 < left i)%nat -> (forall i', advanced i i' -> S (left i') = left i -> Q tt i') -> runs_to advance1 i Q.
Proof.
  unfold left. destruct (range_ i) as [|c r] eqn:E; cbn; [lia|]. intros _ HQ.
  exists (with_range r i), (Ok tt). unfold advance1. rewrite E. split; [done|]. intros [] _.
  apply HQ; [|done]. split; [|done]. exists [c]. by rewrite E.
Qed.

Lemma skip_span_app p first l s r : skip_span p first l = (s, r) -> l = s ++ r.
Proof.
  revert first s r. induction l as [|c l IH]; intros first s r; cbn [skip_span]; [by intros [= <- <-]|].
  destruct (p first c); [|by intros [= <- <-]].
  destruct (skip_span p false l) as [s' r'] eqn:E. intros [= <- <-]. cbn. f_equal. by eapply IH.
Qed.

Lemma runs_skipWhile p i (Q : list Z -> Input -> Prop) :
  readable i ->
  (forall s i', advanced i i' -> range_ i = s ++ range_ i' -> Q s i') -> runs_to (skipWhile p) i Q.
Proof.
  intros [Hb _] HQ. unfold runs_to, skipWhile. destruct (skip_span p true (range_ i)) as [s r] eqn:E.
  apply skip_span_app in E. do 2 eexists. split; [done|]. intros a [= <-].
  apply HQ; [|done]. split; [by exists s|done].
Qed.

(** The same when the first character satisfies the predicate: something is skipped. *)
Lemma runs_skipWhile_first p i (Q : list Z -> Input -> Prop) :
  readable i -> (forall c r, range_ i = c :: r -> p true c = true) -> (0 < left i)%nat ->
  (forall s i', advanced i i' -> range_ i = s ++ range_ i' -> s <> [] -> Q s i') -> runs_to (skipWhile p) i Q.
Proof.
  intros [Hb _] Hp Hl HQ. unfold runs_to, skipWhile. destruct (skip_span p true (range_ i)) as [s r] eqn:E.
  pose proof E as E'%skip_span_app. do 2 eexists. split; [done|]. intros a [= <-].
  apply HQ; [split; [by exists s|done]|done|]. unfold left in Hl.
  destruct (range_ i) as [|c l] eqn:Hr; cbn in Hl; [lia|]. cbn [skip_span] in E. rewrite (Hp c l) in E by done.
  destruct (skip_span p false l). by injection E as <- _.
Qed.

Lemma runs_skipWhitespace i (Q : unit -> Input -> Prop) :
  readable i -> (forall i', advanced i i' -> Q tt i') -> runs_to skipWhitespace i Q.
Proof.
  intros [Hb Hl] HQ. unfold runs_to, skipWhitespace.
  destruct (skip_span _ true (range_ i)) as [s r] eqn:E. apply skip_span_app in E.
  rewrite (proj2 (Z.ltb_lt _ _)).
  - do 2 eexists. split; [done|]. intros [] _. apply HQ. split; [by exists s|done].
  - unfold left in Hl. rewrite E, length_app in Hl. lia.
Qed.

Lemma runs_expect c i (Q : unit -> Input -> Prop) :
  c <> EOF -> (forall i', advanced i i' -> S (left i') = left i -> Q tt i') -> runs_to (expect c) i Q.
Proof.
  intros Hc HQ. apply runs_bind, runs_current. destruct (Z.eqb_spec (cur i) c); cbn [negb].
  - apply runs_advance1; [apply cur_left; congruence|done].
  - apply runs_error.
Qed.

Lemma strip_prefix_app s l r : strip_prefix s l = Some r -> l = s ++ r.
Proof.
  revert l. induction s as [|a s IH]; intros [|b l]; cbn [strip_prefix]; try done; try (by intros [= <-]).
  destruct (Z.eqb_spec a b) as [->|]; [|done]. intros E. cbn. f_equal. auto.
Qed.

Lemma runs_consume str i (Q : bool -> Input -> Prop) :
  Q false i ->
  (forall i', advanced i i' -> left i = (length str + left i')%nat -> Q true i') -> runs_to (consume str) i Q.
Proof.
  intros Hf Ht. unfold runs_to, consume. destruct (strip_prefix str (range_ i)) as [r|] eqn:E.
  - apply strip_prefix_app in E. do 2 eexists. split; [done|]. intros ? [= <-]. apply Ht.
    + split; [by exists str|done].
    + unfold left. by rewrite E, length_app.
  - do 2 eexists. split; [done|]. by intros ? [= <-].
Qed.

(** One step of a run; the conditions on the input are left to [solve_input]. *)
Ltac solve_input :=
  try solve [ assumption | reflexivity | lia
            | eapply advanced_readable; [|eassumption]; first [eassumption | etrans; eassumption]
            | etrans; eassumption | apply cur_left; unfold EOF; lia ].

Ltac run_step :=
  lazymatch goal with
  | |- runs_to (mbind _ _) _ _ => apply runs_bind
  | |- runs_to current _ _ => apply runs_current
  | |- runs_to size _ _ => apply runs_size
  | |- runs_to (error _) _ _ => apply runs_error
  | |- runs_to (mret _) _ _ => apply runs_ret
  | |- runs_to advance1 _ _ => apply runs_advance1; [solve_input|intros ? ? ?]
  | |- runs_to (skipWhile _) _ _ => apply runs_skipWhile; [solve_input|intros ? ? ? ?]
  | |- runs_to skipDigits _ _ => apply runs_skipWhile; [solve_input|intros ? ? ? ?]
  | |- runs_to skipMinusAndDigits _ _ => apply runs_skipWhile; [solve_input|intros ? ? ? ?]
  | |- runs_to skipWhitespace _ _ => apply runs_skipWhitespace; [solve_input|intros ? ?]
  | |- runs_to (expect _) _ _ => apply runs_expect; [unfold EOF; lia|intros ? ? ?]
  | |- runs_to (consume _) _ _ => apply runs_consume; [|intros ? ? ?]
  end; cbv beta.

(** ** The parser ends *)

Lemma runs_hexVal c i (Q : Z -> Input -> Prop) :
  (forall h, 0 <= h < 16 -> Q h i) -> runs_to (hexVal c) i Q.
Proof.
  intros HQ. unfold hexVal.
  destruct (Z.leb_spec 48 c), (Z.leb_spec c 57); cbn [andb];
    try (run_step; apply HQ; rewrite wrap_small by (unfold is_uint; lia); lia);
  destruct (Z.leb_spec 97 c), (Z.leb_spec c 102); cbn [andb];
    try (run_step; apply HQ; rewrite wrap_small by (unfold is_uint; lia); lia);
  destruct (Z.leb_spec 65 c), (Z.leb_spec c 70); cbn [andb];
    try (run_step; apply HQ; rewrite wrap_small by (unfold is_uint; lia); lia);
  run_step.
Qed.

Lemma runs_readHex i (Q : Z -> Input -> Prop) :
  (forall v i', is_uint 16 v -> advanced i i' -> (left i' <= left i)%nat -> Q v i') -> runs_to readHex i Q.
Proof.
  intros HQ. unfold readHex. run_step. run_step. destruct (Nat.ltb_spec (left i) 4); [run_step|].
  do 4 (run_step; run_step; run_step; apply runs_hexVal; intros ? ?; cbv beta; run_step; run_step).
  run_step. apply HQ; [apply wrap_range; lia| |lia].
  repeat (etrans; [eassumption|]). done.
Qed.

Lemma append_code_point_bytes cp out :
  Forall is_byte out -> Forall is_byte (appendCodePointToUtf8 cp out).
Proof.
  intros Hout. unfold appendCodePointToUtf8, codePointToUtf8Impl.
  repeat case_match; simplify_eq; try done; apply Forall_app; split; try done.
  all: repeat (apply Forall_cons_2; [apply wrap_range; lia|]); apply Forall_nil_2.
Qed.

Lemma runs_decodeUnicodeEscape out i (Q : list Z -> Input -> Prop) :
  Forall is_byte out ->
  (forall s i', Forall is_byte s -> advanced i i' -> Q s i') -> runs_to (decodeUnicodeEscape out) i Q.
Proof.
  intros Hout HQ. unfold decodeUnicodeEscape. run_step. apply runs_readHex. intros prefix i1 Hp Ha Hl. cbv beta.
  destruct (utf16_code_unit_is_high_surrogate prefix) eqn:Hhi.
  - run_step. run_step; cbn [negb]; [run_step|].
    run_step. apply runs_readHex. intros suffix i2 Hs Ha2 Hl2. cbv beta.
    destruct (utf16_code_unit_is_low_surrogate suffix) eqn:Hlo; cbn [negb]; [|run_step].
    unfold unicode_code_point_from_utf16_surrogate_pair. rewrite Hhi, Hlo. cbn [negb]. run_step.
    apply HQ; [by apply append_code_point_bytes|]. repeat (etrans; [eassumption|]). done.
  - destruct (utf16_code_unit_is_bmp prefix); cbn [negb]; [|run_step]. run_step.
    apply HQ; [by apply append_code_point_bytes|done].
Qed.

Lemma runs_parseEscape ret i (Q : list Z -> Input -> Prop) :
  Forall is_byte ret ->
  (forall s i', Forall is_byte s -> advanced i i' -> Q s i') -> runs_to (parseEscape ret) i Q.
Proof.
  intros Hret HQ. unfold parseEscape. run_step. run_step.
  do 8 (match goal with |- context [cur i =? ?x] => destruct (Z.eqb_spec (cur i) x) end;
    [run_step; run_step; run_step; apply HQ; [|done]; apply Forall_app; split; [done|];
     apply Forall_cons_2; [unfold is_uint; lia|apply Forall_nil_2]|]).
  destruct (Z.eqb_spec (cur i) 117); [|run_step].
  run_step. run_step. apply runs_decodeUnicodeEscape; [done|]. intros s i2 Hs Ha2. apply HQ; [done|]. by etrans.
Qed.

Lemma runs_string_loop n ret i :
  readable i -> Forall is_byte ret -> (left i < n)%nat ->
  runs_to (string_loop n ret) i (fun s i' => Forall is_byte s /\ advanced i i').
Proof.
  revert ret i. induction n as [|n IH]; intros ret i Hi Hret Hn; [lia|]. cbn [string_loop].
  run_step. run_step. assert (Forall is_byte (ret ++ s)) as Hs.
  { apply Forall_app. split; [done|]. destruct Hi as [Hb _]. rewrite H0 in Hb. by apply Forall_app in Hb as [? _]. }
  pose proof (advanced_left _ _ H) as Hl. run_step. run_step.
  assert (readable i') as Hi' by solve_input.
  destruct (Z.eqb_spec (cur i') 34).
  { run_step. run_step. run_step. split; [done|]. by etrans. }
  destruct (Z.eqb_spec (cur i') 92).
  { run_step. run_step. run_step. apply runs_parseEscape; [done|]. intros s' i2 Hs' Ha2. cbv beta.
    pose proof (advanced_left _ _ Ha2).
    eapply runs_mono; [apply IH; [|done|lia]|].
    - eapply advanced_readable; [|exact Hi']. by etrans.
    - intros a i3 [? ?]. split; [done|]. repeat (etrans; [eassumption|]). done. }
  destruct (Z.eqb_spec (cur i') EOF); [run_step|].
  destruct (Z.eqb_spec (cur i') 0); [run_step|].
  run_step. apply runs_advance1; [by apply cur_left|]. intros i2 Ha2 Hl2.
  eapply runs_mono; [apply IH; [|apply Forall_app; split; [done|]|lia]|].
  - by eapply advanced_readable.
  - apply Forall_cons_2; [apply wrap_range; lia|apply Forall_nil_2].
  - intros a i3 [? ?]. split; [done|]. repeat (etrans; [eassumption|]). done.
Qed.

Lemma runs_parseString i (Q : list Z -> Input -> Prop) :
  readable i -> (0 < left i)%nat ->
  (forall s i', Forall is_byte s -> advanced i i' -> (left i' < left i)%nat -> Q s i') -> runs_to parseString i Q.
Proof.
  intros Hi Hl HQ. unfold parseString. run_step. run_step. run_step. run_step.
  eapply runs_mono; [apply runs_string_loop; [solve_input|apply Forall_nil_2|lia]|].
  intros s i2 [Hs Ha]. cbv beta. pose proof (advanced_left _ _ Ha). apply HQ; [done|by etrans|lia].
Qed.

(** ** Well-formed values *)

Section WellFormed.
Context {D : DoubleOps} (opts : serialization_opts).

(** No key equals an earlier one. *)
Fixpoint distinct_keys (items : list (dynamic * dynamic)) : bool :=
  match items with
  | [] => true
  | (k, _) :: items => forallb (fun item => negb (dyn_eqb item.1 k)) items && distinct_keys items
  end.

(** A value nested at most [n] deep: 64-bit integers, strings of bytes, objects with distinct keys
    which are strings unless others are allowed. *)
Fixpoint wf (n : nat) (d : dynamic) : Prop :=
  match n with
  | O => False
  | S n =>
      match d with
      | NULLT | BOOL _ | DOUBLE _ => True
      | INT64 z => is_i64 z
      | STRING s => Forall is_byte s
      | ARRAY l => Forall (wf n) l
      | OBJECT items =>
          Forall (fun item => wf n item.1 /\ wf n item.2) items /\ distinct_keys items = true /\
          (allow_non_string_keys opts = false -> Forall (fun item => isString item.1 = true) items)
      end
  end.

Lemma distinct_keys_snoc items k v :
  distinct_keys (items ++ [(k, v)]) = distinct_keys items && negb (has_key items k).
Proof.
  induction items as [|[k' v'] items IH]; [done|]. cbn [app distinct_keys has_key existsb].
  rewrite forallb_app, IH. cbn [forallb fst]. unfold has_key. rewrite negb_orb, andb_true_r.
  by destruct (forallb _ _), (dyn_eqb k k'), (distinct_keys items), (existsb _ _).
Qed.

Lemma overwrite_keys items k v : (overwrite items k v).*1 = items.*1.
Proof.
  induction items as [|[k' v'] items IH]; [done|]. cbn [overwrite].
  destruct (dyn_eqb k k'); cbn; [done|]. by rewrite IH.
Qed.

Lemma distinct_keys_fst items items' : items.*1 = items'.*1 -> distinct_keys items = distinct_keys items'.
Proof.
  revert items'. induction items as [|[k v] items IH]; intros [|[k' v'] items'] E; try done.
  injection E as -> E. cbn [distinct_keys]. rewrite (IH items') by done. f_equal. clear IH.
  revert items' E. induction items as [|[k v2] items IH]; intros [|[k2 v2'] items'] E; try done.
  injection E as -> E. cbn. by rewrite (IH items').
Qed.

Lemma overwrite_Forall (P : dynamic -> Prop) items k v :
  P v -> Forall (fun item => P item.1 /\ P item.2) items ->
  Forall (fun item => P item.1 /\ P item.2) (overwrite items k v).
Proof.
  intros Hv. induction 1 as [|[k' v'] items [Hk' Hv'] Hitems IH]; [apply Forall_nil_2|]. cbn [overwrite].
  destruct (dyn_eqb k k'); by apply Forall_cons_2.
Qed.

(** The items an object may hold while it is built. *)
Definition wf_items (n : nat) (items : list (dynamic * dynamic)) : Prop :=
  Forall (fun item => wf n item.1 /\ wf n item.2) items /\ distinct_keys items = true /\
  (allow_non_string_keys opts = false -> Forall (fun item => isString item.1 = true) items).

Lemma wf_items_snoc n items k v :
  wf_items n items -> wf n k -> wf n v -> has_key items k = false ->
  (allow_non_string_keys opts = false -> isString k = true) -> wf_items n (items ++ [(k, v)]).
Proof.
  intros (Hi & Hd & Hs) Hk Hv Hnew Hstr. split_and!.
  - apply Forall_app. split; [done|]. by apply Forall_cons_2; [|apply Forall_nil_2].
  - by rewrite distinct_keys_snoc, Hd, Hnew.
  - intros Ha. apply Forall_app. split; [auto|]. apply Forall_cons_2; [by apply Hstr|apply Forall_nil_2].
Qed.

Lemma wf_items_overwrite n items k v : wf_items n items -> wf n v -> wf_items n (overwrite items k v).
Proof.
  intros (Hi & Hd & Hs) Hv. split_and!.
  - by apply overwrite_Forall.
  - rewrite <- Hd. apply distinct_keys_fst, overwrite_keys.
  - intros Ha. specialize (Hs Ha).     apply (Forall_fmap fst (fun d => isString d = true)) in Hs. rewrite <- (overwrite_keys items k v) in Hs.
    by apply (Forall_fmap fst (fun d => isString d = true)).
Qed.

(** *** Numbers *)

Lemma range_check_ok T v w : range_check T v = Ok w -> w = v /\ has_type T w.
Proof. unfold range_check, has_type. repeat case_match; naive_solver lia. Qed.

Lemma tryTo_int64_runs s :
  Forall is_byte s ->
  exists r, tryTo_integral (mkInt 64 true) s = Some r /\ forall v, r = Ok v -> is_i64 v.
Proof.
  intros Hs. unfold tryTo_integral. rewrite str_to_integral_eq by first [done | right; right; right; by left]. cbn [mbind option_bind].
  eexists. split; [done|]. intros v. destruct (integral_ref (mkInt 64 true) s) as [[v' rest]|] eqn:E; [|done].
  cbn. case_decide; [|done]. intros [= ->]. unfold integral_ref in E.
  destruct (span_sign _ _) as [negative s'], (span_digits s') as [ds r].
  repeat case_match; try done. apply bind_ok in E as (w & [_ Hr]%range_check_ok & [= <- <-]).
  unfold has_type, type_max, type_min in Hr. cbn [is_signed bits] in Hr. unfold is_sint. lia.
Qed.

Lemma runs_to_int64 s i (Q : Z -> Input -> Prop) :
  Forall is_byte s -> (forall v, is_i64 v -> Q v i) -> runs_to (to_int64 s) i Q.
Proof.
  intros Hs HQ. destruct (tryTo_int64_runs s Hs) as (r & E & Hr). unfold runs_to, to_int64. rewrite E.
  destruct r as [v|e]; do 2 eexists; (split; [done|]); intros a Ha; simplify_eq. by apply HQ, Hr.
Qed.

Lemma runs_number_to_double s i (Q : double -> Input -> Prop) :
  (forall d, Q d i) -> runs_to (number_to_double s) i Q.
Proof. intros HQ. do 2 eexists. split; [done|]. intros a _. apply HQ. Qed.

(** What the number parser promises: progress, and a well-formed leaf. *)
Definition good (i : Input) (n : nat) (v : dynamic) (i' : Input) : Prop :=
  wf (S n) v /\ advanced i i' /\ (left i' < left i)%nat.

Lemma runs_parseExponent i (Q : list Z -> Input -> Prop) :
  readable i -> (forall s i', Forall is_byte s -> advanced i i' -> Q s i') -> runs_to parseExponent i Q.
Proof.
  intros Hi HQ. unfold parseExponent. run_step. run_step.
  destruct (_ || _) eqn:Hc; [|run_step; apply HQ; [apply Forall_nil_2|done]].
  assert (is_byte (cur i)) by (unfold is_uint; lia).
  run_step. run_step. run_step. run_step. pose proof (advanced_readable _ _ H0 Hi) as Hi'.
  assert (forall s i2, Forall is_byte s -> advanced i' i2 ->
    runs_to (expPart ← skipDigits; mret (cur i :: s ++ expPart)) i2 Q) as Hrest.
  { intros s i2 Hs Ha. run_step. run_step. run_step. apply HQ.
    - apply Forall_cons_2; [done|]. apply Forall_app. split; [done|].
      pose proof (advanced_readable _ _ Ha Hi') as [Hb _]. rewrite H3 in Hb. by apply Forall_app in Hb as [? _].
    - repeat (etrans; [eassumption|]). done. }
  run_step. destruct ((cur i' =? 43) || (cur i' =? 45)) eqn:Hs.
  - run_step. run_step. run_step. apply Hrest; [|done].
    apply Forall_cons_2; [unfold is_uint; lia|apply Forall_nil_2].
  - run_step. apply Hrest; [apply Forall_nil_2|done].
Qed.

(** A minus sign or a digit. *)
Definition starts_number (c : Z) : Prop := c = 45 \/ 48 <= c <= 57.

Lemma starts_number_byte b : is_byte b -> starts_number (i8 b) -> starts_number b.
Proof.
  unfold starts_number. intros Hb. rewrite i8_byte by done. unfold is_uint in Hb.
  destruct (Z.ltb_spec b 128); lia.
Qed.

Lemma runs_parseFloating wasE integral i0 n i :
  readable i0 -> Forall is_byte integral -> advanced i0 i -> (left i < left i0)%nat ->
  (wasE = false -> (0 < left i)%nat) ->
  runs_to (parseFloating opts integral wasE) i (good i0 n).
Proof.
  intros Hi0 Hint Ha Hl Hdot. pose proof (advanced_readable _ _ Ha Hi0) as Hi.
  assert (forall fraction i1, Forall is_byte fraction -> advanced i i1 ->
    runs_to (exponent ← parseExponent;
             let fullNum := integral ++ fraction ++ exponent in
             if parse_numbers_as_strings opts then mret (STRING fullNum)
             else val ← number_to_double fullNum; mret (DOUBLE val)) i1 (good i0 n)) as Hrest.
  { intros fraction i1 Hf Ha1. pose proof (advanced_left _ _ Ha1). run_step.
    apply runs_parseExponent; [by eapply advanced_readable|]. intros e i2 He Ha2. cbv beta zeta.
    pose proof (advanced_left _ _ Ha2). assert (advanced i0 i2) by (by do 2 (etrans; [eassumption|])).
    destruct (parse_numbers_as_strings opts).
    - run_step. split_and!; [|done|lia]. cbn [wf]. rewrite !Forall_app. done.
    - run_step. apply runs_number_to_double. intros d. cbv beta. run_step. split_and!; [done|done|lia]. }
  unfold parseFloating. run_step. destruct wasE; cbn [negb].
  - run_step. apply Hrest; [apply Forall_nil_2|done].
  - specialize (Hdot eq_refl). run_step. run_step. run_step. run_step. run_step. apply Hrest.
    + apply Forall_cons_2; [unfold is_uint; lia|]. destruct Hi as [Hb _].
      destruct H as [[s0 Hs0] _]. rewrite Hs0, H2 in Hb. apply Forall_app in Hb as [_ Hb].
      by apply Forall_app in Hb as [? _].
    + by etrans.
Qed.

Lemma bytes_of_bytes s : Forall is_byte (bytes_of s).
Proof.
  induction s as [|a s IH]; cbn [bytes_of]; [apply Forall_nil_2|]. apply Forall_cons_2; [|done].
  pose proof (Ascii.N_ascii_bounded a). unfold is_uint. lia.
Qed.

Lemma runs_parseFinite negative n i :
  readable i -> starts_number (cur i) -> runs_to (parseFinite opts negative) i (good i n).
Proof.
  intros Hi Hc. assert (0 < left i)%nat as Hl by (apply cur_left; unfold starts_number, EOF in *; lia).
  unfold parseFinite. run_step. apply runs_skipWhile_first; [done| |done|].
  { intros c r Hr. unfold cur in Hc. rewrite Hr in Hc. destruct Hi as [Hb _]. rewrite Hr in Hb.
    apply Forall_cons_1 in Hb as [Hb _]. apply starts_number_byte in Hc; [|done].
    unfold starts_number in Hc. lia. }
  intros s i1 Ha Hs Hne. cbv beta. destruct (_ && _); [run_step|]. run_step. run_step. cbv zeta.
  assert (left i1 < left i)%nat as Hl1.
  { unfold left. rewrite Hs, length_app. destruct s; [done|cbn; lia]. }
  assert (Forall is_byte s) as Hsb.
  { destruct Hi as [Hb _]. rewrite Hs in Hb. by apply Forall_app in Hb as [? _]. }
  assert (readable i1) by by eapply advanced_readable.
  destruct (negb _ && negb _ && _); [run_step; done|].
  destruct (negb _ && negb _) eqn:Hint.
  - destruct (_ || (_ && text_le _ _)).
    + run_step. apply runs_to_int64; [done|]. intros v Hv. cbv beta. run_step. run_step. run_step.
      pose proof (advanced_left _ _ H0). split_and!; [done|by etrans|lia].
    + run_step. apply runs_number_to_double. intros v. cbv beta. run_step. run_step. run_step.
      pose proof (advanced_left _ _ H0). split_and!; [done|by etrans|lia].
  - apply runs_parseFloating; try done. intros Hw. rewrite Hw, andb_true_r in Hint.
    apply cur_left. unfold EOF. lia.
Qed.

Lemma runs_parseNumber n i :
  readable i -> starts_number (cur i) -> runs_to (parseNumber opts) i (good i n).
Proof.
  intros Hi Hc. unfold parseNumber. run_step. run_step. cbv zeta. run_step.
  destruct (Z.eqb_spec (cur i) 45); [|run_step; by apply runs_parseFinite].
  run_step; [by apply runs_parseFinite|].
  destruct (parse_numbers_as_strings opts); run_step; split_and!; try done; try apply bytes_of_bytes.
  all: cbn [length bytes_of] in *; lia.
Qed.

Lemma runs_parseWord n i : readable i -> runs_to (parseWord opts) i (good i n).
Proof.
  intros Hi. unfold parseWord.
  do 5 (run_step; run_step; cycle 1;
    [run_step; split_and!; [try done; try (destruct (parse_numbers_as_strings opts)); try done; apply bytes_of_bytes
                           |done|cbn [length bytes_of] in *; lia]|]).
  run_step.
Qed.

Lemma wf_string_key n z s : is_i64 z -> toAppend_signed z [] = Some s -> wf (S n) (STRING s).
Proof.
  intros Hz E. destruct (toAppend_text z [] Hz) as (k & _ & E' & _). rewrite E in E'. injection E' as ->.
  apply int_text_bytes.
Qed.

(** *** Arrays and objects, given a parser of the values inside *)

Section Nested.
Context (pv : Parser dynamic) (bound n : nat) (level : Z).

(** The parser of values works on any text shorter than [bound]. *)
Context (Hpv : forall i, readable i -> (left i < bound)%nat -> currentRecursionLevel_ i = level ->
  runs_to pv i (fun v i' => wf n v /\ advanced i i' /\ (left i' < left i)%nat)).

Lemma runs_array_loop k ret i :
  (k <= bound)%nat -> readable i -> (left i < k)%nat -> currentRecursionLevel_ i = level -> Forall (wf n) ret ->
  runs_to (array_loop pv k opts ret) i (fun l i' => Forall (wf n) l /\ advanced i i').
Proof.
  revert ret i. induction k as [|k IH]; intros ret i Hk Hi Hl Hlev Hret; [lia|]. cbn [array_loop].
  run_step. run_step. destruct (_ && _); [by run_step|].
  run_step. eapply runs_mono; [apply Hpv; [done|lia|done]|]. intros v i1 (Hv & Ha & Hl1). cbv beta zeta.
  pose proof (advanced_readable _ _ Ha Hi). run_step. run_step. run_step. run_step.
  assert (Forall (wf n) (ret ++ [v])) by (apply Forall_app; by repeat constructor).
  destruct (Z.eqb_spec (cur i') 44); cbn [negb]; cycle 1.
  { run_step. split; [done|by etrans]. }
  pose proof (advanced_left _ _ H0). pose proof (advanced_readable _ _ H0 H).
  run_step. run_step. pose proof (advanced_readable _ _ H4 H3). run_step. run_step.
  pose proof (advanced_left _ _ H7).
  assert (advanced i i'1) as Hai by (do 3 (etrans; [eassumption|]); done).
  eapply runs_mono; [apply IH; [lia|by eapply advanced_readable|lia| |done]|].
  - destruct Hai as [_ ->]. done.
  - intros l i2 [? ?]. split; [done|by etrans].
Qed.

Lemma runs_parseArray k i :
  (k <= bound)%nat -> readable i -> (left i <= k)%nat -> cur i = 91 -> currentRecursionLevel_ i = level ->
  runs_to (parseArray pv k opts) i (good i n).
Proof.
  intros Hk Hi Hl Hc Hlev. unfold parseArray. run_step. run_step.
  pose proof (advanced_readable _ _ H Hi). run_step. run_step. pose proof (advanced_left _ _ H2).
  run_step. run_step. destruct (Z.eqb_spec (cur i'0) 93).
  { run_step. run_step. run_step. split_and!; [by apply Forall_nil_2| |lia].
    do 2 (etrans; [eassumption|]). done. }
  assert (advanced i i'0) as Ha by by etrans.
  run_step. eapply runs_mono; [apply runs_array_loop; [done| |lia| |apply Forall_nil_2]|].
  - by eapply advanced_readable.
  - by destruct Ha as [_ ->].
  - intros l i2 [Hl2 Ha2]. cbv beta. pose proof (advanced_left _ _ Ha2). run_step. run_step. run_step.
    split_and!; [done| |lia]. do 2 (etrans; [eassumption|]). done.
Qed.

Lemma runs_parseKey i :
  readable i -> (left i < bound)%nat -> currentRecursionLevel_ i = level ->
  runs_to (parseKey pv opts) i (fun k i' =>
    wf n k /\ (allow_non_string_keys opts = false -> isString k = true) /\ advanced i i' /\ (left i' < left i)%nat).
Proof.
  intros Hi Hl Hlev. unfold parseKey. run_step. eapply runs_mono; [by apply Hpv|].
  intros k i1 (Hk & Ha & Hl1). cbv beta. destruct k; cbn [isString negb].
  5: { destruct (convert_int_keys opts).
       - destruct n as [|n']; [done|]. destruct (toAppend_text z [] Hk) as (m & _ & E & _).
         unfold runs_to, int_as_string. rewrite E. do 2 eexists. split; [done|]. intros a [= <-].
         split_and!; [|done..]. by apply (wf_string_key n' z).
       - destruct (allow_non_string_keys opts); cbn [negb]; run_step; done. }
  all: destruct (allow_non_string_keys opts); cbn [andb negb]; run_step; done.
Qed.

Lemma runs_parseObjectKeyValue ret key distinct i :
  readable i -> (left i < bound)%nat -> currentRecursionLevel_ i = level -> wf_items n ret -> wf n key ->
  (allow_non_string_keys opts = false -> isString key = true) ->
  runs_to (parseObjectKeyValue pv ret key distinct) i (fun l i' => wf_items n l /\ advanced i i').
Proof.
  intros Hi Hl Hlev Hret Hkey Hstr. unfold parseObjectKeyValue. run_step. run_step. run_step. run_step.
  pose proof (advanced_left _ _ H). run_step. assert (readable i'0) by (eapply advanced_readable; [|exact Hi]; by etrans).
  run_step. pose proof (advanced_left _ _ H4). assert (advanced i i'1) as Ha by (do 2 (etrans; [eassumption|]); done).
  run_step. eapply runs_mono; [apply Hpv; [by eapply advanced_readable|lia|by destruct Ha as [_ ->]]|].
  intros v i2 (Hv & Ha2 & _). cbv beta. assert (advanced i i2) by by etrans.
  destruct (has_key ret key) eqn:Hk; [destruct distinct|]; run_step; (split; [|done]).
  - by apply wf_items_overwrite.
  - by apply wf_items_snoc.
Qed.

Lemma runs_object_loop k ret i :
  (k <= bound)%nat -> readable i -> (left i < k)%nat -> currentRecursionLevel_ i = level -> wf_items n ret ->
  runs_to (object_loop pv k opts ret) i (fun l i' => wf_items n l /\ advanced i i').
Proof.
  revert ret i. induction k as [|k IH]; intros ret i Hk Hi Hl Hlev Hret; [lia|]. cbn [object_loop].
  run_step. run_step. destruct (_ && _); [by run_step|].
  run_step. eapply runs_mono; [apply runs_parseKey; [done|lia|done]|]. intros key i1 (Hkey & Hstr & Ha & Hl1). cbv beta.
  pose proof (advanced_readable _ _ Ha Hi). run_step.
  eapply runs_mono; [apply runs_parseObjectKeyValue; [done|lia|by destruct Ha as [_ ->]|done..]|].
  intros l i2 [Hitems Ha2]. cbv beta. pose proof (advanced_left _ _ Ha2).
  pose proof (advanced_readable _ _ Ha2 H). run_step. run_step. run_step. run_step.
  destruct (Z.eqb_spec (cur i') 44); cbn [negb]; cycle 1.
  { run_step. split; [done|]. do 2 (etrans; [eassumption|]). done. }
  pose proof (advanced_left _ _ H2). pose proof (advanced_readable _ _ H2 H1).
  run_step. run_step. pose proof (advanced_readable _ _ H5 H4). run_step. run_step.
  pose proof (advanced_left _ _ H8).
  assert (advanced i i'1) as Hai by (do 4 (etrans; [eassumption|]); done).
  eapply runs_mono; [apply IH; [lia|by eapply advanced_readable|lia| |done]|].
  - destruct Hai as [_ ->]. done.
  - intros l' i3 [? ?]. split; [done|by etrans].
Qed.

Lemma runs_parseObject k i :
  (k <= bound)%nat -> readable i -> (left i <= k)%nat -> cur i = 123 -> currentRecursionLevel_ i = level ->
  runs_to (parseObject pv k opts) i (good i n).
Proof.
  intros Hk Hi Hl Hc Hlev. unfold parseObject. run_step. run_step.
  pose proof (advanced_readable _ _ H Hi). run_step. run_step. pose proof (advanced_left _ _ H2).
  assert (wf_items n []) by (split_and!; try done; intros; apply Forall_nil_2).
  run_step. run_step. destruct (Z.eqb_spec (cur i'0) 125).
  { run_step. run_step. run_step. split_and!; [done| |lia]. do 2 (etrans; [eassumption|]). done. }
  assert (advanced i i'0) as Ha by by etrans.
  run_step. eapply runs_mono; [apply runs_object_loop; [done| |lia| |done]|].
  - by eapply advanced_readable.
  - by destruct Ha as [_ ->].
  - intros l i2 [Hl2 Ha2]. cbv beta. pose proof (advanced_left _ _ Ha2). run_step. run_step. run_step.
    split_and!; [done| |lia]. do 2 (etrans; [eassumption|]). done.
Qed.
End Nested.

Context (Hlimit : 0 <= recursion_limit opts < 2 ^ 32 - 1).

(** How deep a value may still be at a recursion level. *)
Definition depth_left (level : Z) : nat := Z.to_nat (recursion_limit opts + 1 - level).

Lemma runs_parseValue k i :
  readable i -> (left i < k)%nat -> 0 <= currentRecursionLevel_ i ->
  runs_to (parseValue k opts) i (fun v i' =>
    wf (depth_left (currentRecursionLevel_ i)) v /\ advanced i i' /\ (left i' < left i)%nat).
Proof.
  revert i. induction k as [|k IH]; intros i Hi Hl Hlev; [lia|]. cbn [parseValue]. run_step.
  unfold runs_to at 1, incrementRecursionLevel.
  destruct (Z.ltb_spec (recursion_limit opts) (currentRecursionLevel_ i)); [by do 2 eexists|].
  do 2 eexists. split; [done|]. intros [] _. set (i1 := mkInput _ _ _).
  assert (currentRecursionLevel_ i1 = currentRecursionLevel_ i + 1) as Hlev1
    by (apply wrap_small; unfold is_uint; lia).
  assert (readable i1) as Hi1 by done. assert (left i1 = left i) as Hl1 by done.
  run_step. run_step. pose proof (advanced_left _ _ H0). pose proof (advanced_readable _ _ H0 Hi1) as Hi'.
  assert (depth_left (currentRecursionLevel_ i) = S (depth_left (currentRecursionLevel_ i + 1))) as ->
    by (unfold depth_left; lia).
  set (n := depth_left (currentRecursionLevel_ i + 1)).
  assert (forall i, readable i -> (left i < k)%nat -> currentRecursionLevel_ i = currentRecursionLevel_ i1 ->
    runs_to (parseValue k opts) i (fun v i' => wf n v /\ advanced i i' /\ (left i' < left i)%nat)) as Hpv.
  { intros j Hj Hlj Ej. subst n. rewrite <- Hlev1, <- Ej. apply IH; [done|done|lia]. }
  assert (currentRecursionLevel_ i' = currentRecursionLevel_ i1) as Hlev' by (by destruct H0).
  run_step. run_step. run_step. eapply runs_mono with (Q := good i' n).
  { unfold parseAlternative. destruct (Z.eqb_spec (cur i') 91); [eapply runs_parseArray; [exact Hpv|done|done|lia|done|done]|].
    destruct (Z.eqb_spec (cur i') 123); [eapply runs_parseObject; [exact Hpv|done|done|lia|done|done]|].
    destruct (Z.eqb_spec (cur i') 34).
    { run_step. apply runs_parseString; [done|apply cur_left; unfold EOF; lia|]. intros s i2 Hs Ha Hl2. cbv beta.
      by run_step. }
    destruct (_ || _) eqn:Hc; [|by apply runs_parseWord].
    apply runs_parseNumber; [done|]. unfold starts_number. lia. }
  intros v i2 (Hv & Ha & Hl2). cbv beta. run_step. unfold runs_to, decrementRecursionLevel.
  do 2 eexists. split; [done|]. intros [] _. do 2 eexists. split; [done|]. intros ? [= <-].
  split; [done|]. destruct H0 as [[s Hs] _], Ha as [[s' Hs'] Hlev2]. split; [|unfold left in *; cbn; lia].
  split; cbn [range_ currentRecursionLevel_].
  - exists (s ++ s'). rewrite <- app_assoc, <- Hs', <- Hs. done.
  - rewrite Hlev2, Hlev', Hlev1. replace (_ + 1 - 1) with (currentRecursionLevel_ i) by lia.
    apply wrap_small. unfold is_uint. lia.
Qed.

Lemma runs_parse_all text :
  Forall is_byte text -> Z.of_nat (length text) < 2 ^ 32 ->
  runs_to (parse_all (S (length text)) opts) (mkInput text 0 0) (fun v _ => wf (depth_left 0) v).
Proof.
  intros Ht Hl. assert (readable (mkInput text 0 0)) as Hi by done.
  unfold parse_all. run_step. eapply runs_mono; [apply runs_parseValue; [done|unfold left; cbn; lia|cbn; lia]|].
  intros v i1 (Hv & Ha & _). cbv beta. pose proof (advanced_readable _ _ Ha Hi).
  run_step. run_step. run_step. run_step. run_step. run_step. destruct (_ && _); by run_step.
Qed.
End WellFormed.

(** ** Main theorems *)

(** An instance: the doubles are their own decimal text. *)
#[local] Instance text_double : DoubleOps := {|
  double := list Z;
  to_double s := Some s;
  double_text d := d;
  isnan d := bool_decide (d = bytes_of "NaN");
  isinf d := bool_decide (d = bytes_of "Infinity") || bool_decide (d = bytes_of "-Infinity");
  infinity := bytes_of "Infinity";
  neg_infinity := bytes_of "-Infinity";
  quiet_NaN := bytes_of "NaN";
  double_eqb a b := bool_decide (a = b);
  double_eq_int _ _ := false;
|}.

(** (C18) With a recursion limit below [2^32 - 1], [parseJson] returns or throws on every text below
    4 GiB, whatever its bytes and whatever the conversions of doubles do: the model's fuel, one more than the length of the text, is
    always enough, nothing is read past the end, and no unreachable case is reached. *)
Theorem parseJson_total {D : DoubleOps} opts text :
  0 <= recursion_limit opts < 2 ^ 32 - 1 -> Forall is_byte text -> Z.of_nat (length text) < 2 ^ 32 ->
  exists r, parseJson opts text = Some r.
Proof.
  intros Hlim Ht Hl. destruct (runs_parse_all opts Hlim text Ht Hl) as (i' & r & E & _).
  exists r. unfold parseJson. by rewrite E.
Qed.

Lemma parseJson_total_witness : exists r, parseJson default_opts (bytes_of "[1, {") = Some r.
Proof.
  apply (parseJson_total default_opts (bytes_of "[1, {")).
  - vm_compute. split; congruence.
  - apply bytes_of_bytes.
  - vm_compute. reflexivity.
Defined.

(** (C20) A value that [parseJson] returns is well formed: it is nested at most one level deeper than
    the recursion limit, its integers fit 64 bits, its strings are made of bytes, and the keys of
    each of its objects are pairwise different, and strings unless other keys are allowed. *)
Theorem parseJson_wf {D : DoubleOps} opts text v :
  0 <= recursion_limit opts < 2 ^ 32 - 1 -> Forall is_byte text -> Z.of_nat (length text) < 2 ^ 32 ->
  parseJson opts text = Some (Ok v) -> wf opts (Z.to_nat (recursion_limit opts + 1)) v.
Proof.
  intros Hlim Ht Hl. destruct (runs_parse_all opts Hlim text Ht Hl) as (i' & r & E & Hr).
  unfold parseJson. rewrite E. cbn. intros [= ->]. specialize (Hr v eq_refl). unfold depth_left in Hr.
  by rewrite Z.sub_0_r in Hr.
Qed.

(** An object with a key given twice, inside an array. *)
Definition sample : list Z :=
  [91] ++ bytes_of "{" ++ [34; 97; 34] ++ bytes_of " : [true, -12],"
  ++ [34; 98; 34; 58; 34; 92; 117; 48; 48; 101; 57; 34; 44; 34; 97; 34] ++ bytes_of ":null} , 1.5e3]".

Lemma parseJson_wf_witness :
  parseJson default_opts sample =
    Some (Ok (ARRAY [OBJECT [(STRING [97], NULLT); (STRING [98], STRING [0xC3; 0xA9])];
                     DOUBLE (bytes_of "1.5e3")])) /\
  wf default_opts 101 (ARRAY [OBJECT [(STRING [97], NULLT); (STRING [98], STRING [0xC3; 0xA9])];
                              DOUBLE (bytes_of "1.5e3")]).
Proof.
  assert (parseJson default_opts sample =
    Some (Ok (ARRAY [OBJECT [(STRING [97], NULLT); (STRING [98], STRING [0xC3; 0xA9])];
                     DOUBLE (bytes_of "1.5e3")]))) as E by (vm_compute; reflexivity).
  split; [exact E|]. refine (parseJson_wf default_opts sample _ _ _ _ E).
  - vm_compute. split; congruence.
  - unfold sample. rewrite !Forall_app. split_and!; try apply bytes_of_bytes;
      repeat (apply Forall_cons_2; [unfold is_uint; lia|]); apply Forall_nil_2.
  - vm_compute. reflexivity.
Defined.

(** [parseString] means to refuse a zero byte, but the run before the test has consumed it. *)
Lemma parseString_accepts_null_byte :
  parseString (mkInput [34; 97; 0; 98; 34] 0 0) = Some (mkInput [] 0 0, Ok [97; 0; 98]).
Proof. vm_compute. reflexivity. Qed.
