(* ===== verification/Json.v ===== *)
(** * JSON: the printer of [folly/json/json.cpp], its round trip through the parser, and
    [stripComments].

    A writer appends to the output or throws, as the members of [Printer] do on [out_]; [None] is a
    writer that runs out of fuel, which [serialize] never does.  [indentLevel_] is an argument: the
    code between [indent] and [outdent] runs one level further.  The order in
    which [items()] goes through an object, which the hash map does not promise, and the order
    [std::sort] puts the items in, by [sort_keys] or by a caller's [sort_keys_by], are parameters;
    all that is asked of them is to return a permutation. *)
From S2P Require Import Prelude Unicode IntConv ToAscii Conv JsonEscape JsonParse.

(** ** Integers as doubles *)

(** The value of the [double] nearest to an integer, the one with an even mantissa if there are
    two: what the conversion from [int64_t] gives. *)
Definition nearest_double (v : Z) : Z :=
  let a := Z.abs v in
  let e := Z.max 0 (Z.log2 a - 52) in
  let q := a / 2 ^ e in
  let r := a mod 2 ^ e in
  let up := (2 ^ e <? 2 * r) || ((2 * r =? 2 ^ e) && Z.odd q) in
  Z.sgn v * ((if up then q + 1 else q) * 2 ^ e).

(** [checkConversion] to [int64_t] of a double with an integral value.  [2 ^ 63] is the maximum as a
    double, and [nextafter] towards zero takes 1024 off it and off the minimum. *)
Definition checkConversion_int64 (value : Z) : bool :=
  let tgtMaxAsSrc := 2 ^ 63 in
  let tgtMinAsSrc := - 2 ^ 63 in
  if negb (value <? tgtMaxAsSrc) then
    if negb (value <=? tgtMaxAsSrc) then false
    else let mmax := tgtMaxAsSrc - 1024 in negb ((2 ^ 63 - 1) - mmax <? value - mmax)
  else if value <=? tgtMinAsSrc then
    if value <? tgtMinAsSrc then false
    else let mmin := tgtMinAsSrc + 1024 in negb (value - mmin <? - 2 ^ 63 - mmin)
  else true.

(** [convertTo<double>] of an [int64_t]; the double is represented by its value. *)
Definition convertTo_double (value : Z) : result ConversionCode Z :=
  let result := nearest_double value in
  if checkConversion_int64 result && (value =? result) then Ok result
  else Err ARITH_LOSS_OF_PRECISION.

(** ** Writers *)

Inductive print_error :=
| nan_value
| inf_value
| int_and_string_keys
| key_not_string
| loss_of_precision
| invalid_utf8 (e : utf8_error).

Definition writer : Type := list Z -> option (result print_error (list Z)).

Definition put (text : list Z) : writer := fun out => Some (Ok (out ++ text)).
Definition throw_print (e : print_error) : writer := fun _ => Some (Err e).

Definition andThen (f g : writer) : writer := fun out =>
  match f out with Some (Ok out) => g out | r => r end.
Notation "f >>> g" := (andThen f g) (at level 62, right associativity) : folly_scope.

Definition put_int (z : Z) : writer := fun out => option_map Ok (toAppend_signed z out).

Definition put_string (opts : serialization_opts) (s : list Z) : writer := fun out =>
  match escapeString opts s out with
  | Some (Ok out) => Some (Ok out)
  | Some (Err e) => Some (Err (invalid_utf8 e))
  | None => None
  end.

(** ** [Printer] *)

Definition indent (level : option Z) : option Z := option_map (fun l => u32 (l + 1)) level.

Definition newline_text (opts : serialization_opts) (level : option Z) : list Z :=
  match level with
  | None => []
  | Some l => 10 :: replicate (Z.to_nat (u32 (l * pretty_formatting_indent_width opts))) 32
  end.

Definition newline (opts : serialization_opts) (level : option Z) : writer := put (newline_text opts level).

Definition colon_text (level : option Z) : list Z := match level with Some _ => [58; 32] | None => [58] end.

Definition mapColon (level : option Z) : writer := put (colon_text level).

Section Printer.
Context {D : DoubleOps}.
Context (iterate_items sort_items : list (dynamic * dynamic) -> list (dynamic * dynamic)).

Definition print_double (opts : serialization_opts) (x : double) : writer :=
  if negb (allow_nan_inf opts) && isnan x then throw_print nan_value
  else if negb (allow_nan_inf opts) && isinf x then throw_print inf_value
  else put (double_text x).

Definition print_int (opts : serialization_opts) (z : Z) : writer :=
  if javascript_safe opts then
    match convertTo_double z with Ok w => put_int w | Err _ => throw_print loss_of_precision end
  else put_int z.

(** The printer of the values inside is an argument of what prints the arrays and the objects. *)
Section Nested.
Context (print : option Z -> dynamic -> writer) (opts : serialization_opts).

Fixpoint array_rest (level : option Z) (l : list dynamic) : writer :=
  match l with
  | [] => put []
  | v :: l => put [44] >>> newline opts level >>> print level v >>> array_rest level l
  end.

Definition printArray (level : option Z) (l : list dynamic) : writer :=
  match l with
  | [] => put [91; 93]
  | v :: l =>
      put [91] >>> newline opts (indent level) >>> print (indent level) v >>> array_rest (indent level) l >>>
      newline opts level >>> put [93]
  end.

Definition printKey (level : option Z) (o : list (dynamic * dynamic)) (k : dynamic) : writer :=
  match k with
  | INT64 z =>
      if convert_int_keys opts then
        match toAppend_signed z [] with
        | None => fun _ => None
        | Some strKey =>
            if has_key o (STRING strKey) then throw_print int_and_string_keys else print level (STRING strKey)
        end
      else if negb (allow_non_string_keys opts) then throw_print key_not_string
      else print level k
  | _ =>
      if negb (allow_non_string_keys opts) && negb (isString k) then throw_print key_not_string
      else print level k
  end.

Definition printKV (level : option Z) (o : list (dynamic * dynamic)) (p : dynamic * dynamic) : writer :=
  printKey level o p.1 >>> mapColon level >>> print level p.2.

Fixpoint pairs_rest (level : option Z) (o l : list (dynamic * dynamic)) : writer :=
  match l with
  | [] => put []
  | p :: l => put [44] >>> newline opts level >>> printKV level o p >>> pairs_rest level o l
  end.

Definition printKVPairs (level : option Z) (o l : list (dynamic * dynamic)) : writer :=
  match l with
  | [] => fun _ => None
  | p :: l => printKV level o p >>> pairs_rest level o l
  end.

Definition printObject (level : option Z) (o : list (dynamic * dynamic)) : writer :=
  match o with
  | [] => put [123; 125]
  | _ =>
      put [123] >>> newline opts (indent level) >>>
      printKVPairs (indent level) o (if sort_keys opts then sort_items (iterate_items o) else iterate_items o) >>>
      newline opts level >>> put [125]
  end.
End Nested.

(** [operator()]; [n] bounds the nesting of the value. *)
Fixpoint print (n : nat) (opts : serialization_opts) (level : option Z) (v : dynamic) : writer :=
  match n with
  | O => fun _ => None
  | S n =>
      match v with
      | DOUBLE x => print_double opts x
      | INT64 z => print_int opts z
      | BOOL b => put (if b then bytes_of "true" else bytes_of "false")
      | NULLT => put (bytes_of "null")
      | STRING s => put_string opts s
      | OBJECT o => printObject (print n opts) opts level o
      | ARRAY l => printArray (print n opts) opts level l
      end
  end.

(** How deep a value is nested. *)
Fixpoint depth (v : dynamic) : nat :=
  match v with
  | ARRAY l => S ((fix go l := match l with [] => 0 | v :: l => Nat.max (depth v) (go l) end) l)%nat
  | OBJECT o =>
      S ((fix go o := match o with
                      | [] => 0
                      | (k, v) :: o => Nat.max (Nat.max (depth k) (depth v)) (go o)
                      end) o)%nat
  | _ => 1%nat
  end.

Definition serialize (opts : serialization_opts) (v : dynamic) : option (result print_error (list Z)) :=
  print (depth v) opts (if pretty_formatting opts then Some 0 else None) v [].
End Printer.

Definition with_pretty_sorted_keys : serialization_opts := {|
  allow_non_string_keys := false;
  convert_int_keys := false;
  javascript_safe := false;
  pretty_formatting := true;
  pretty_formatting_indent_width := 2;
  encode_non_ascii := false;
  validate_utf8 := false;
  validate_keys := false;
  allow_trailing_comma := false;
  sort_keys := true;
  skip_invalid_utf8 := false;
  allow_nan_inf := false;
  double_fallback := false;
  parse_numbers_as_strings := false;
  recursion_limit := 100;
  extra_ascii_to_escape_bitmap := (0, 0);
|}.

Definition toJson {D : DoubleOps} iterate_items sort_items (v : dynamic) :=
  serialize iterate_items sort_items default_opts v.
Definition toPrettyJson {D : DoubleOps} iterate_items sort_items (v : dynamic) :=
  serialize iterate_items sort_items with_pretty_sorted_keys v.

(** ** [stripComments] *)

Inductive StripState := None_ | InString | InlineComment | LineComment.

Inductive strip_error := string_not_terminated.

(** The loop from a position on; [++i] in the body skips one more character. *)
Fixpoint strip_loop (state : StripState) (s : list Z) : result strip_error (list Z) :=
  match s with
  | [] => Ok []
  | c :: s' =>
      match state with
      | None_ =>
          let keep := prepend [c] (strip_loop (if c =? 34 then InString else None_) s') in
          match s' with
          | c' :: s'' =>
              if (c =? 47) && (c' =? 42) then strip_loop InlineComment s''
              else if (c =? 47) && (c' =? 47) then strip_loop LineComment s''
              else keep
          | [] => keep
          end
      | InString =>
          if c =? 92 then
            match s' with
            | [] => Err string_not_terminated
            | c' :: s'' => prepend [c; c'] (strip_loop InString s'')
            end
          else prepend [c] (strip_loop (if c =? 34 then None_ else InString) s')
      | InlineComment =>
          if c =? 10 then prepend [c] (strip_loop InlineComment s')
          else match s' with
               | c' :: s'' =>
                   if (c =? 42) && (c' =? 47) then strip_loop None_ s'' else strip_loop InlineComment s'
               | [] => strip_loop InlineComment s'
               end
      | LineComment =>
          if c =? 10 then prepend [c] (strip_loop None_ s') else strip_loop LineComment s'
      end
  end.

Definition stripComments (jsonC : list Z) : result strip_error (list Z) := strip_loop None_ jsonC.

(** ** Reading an escaped string back *)

Lemma skip_span_first q f l : skip_span (fun _ => q) f l = skip_span (fun _ => q) true l.
Proof. by destruct l. Qed.

Lemma count_newlines_cons c l : c <> 10 -> count_newlines (c :: l) = count_newlines l.
Proof. intros Hc. unfold count_newlines. by rewrite filter_cons_False. Qed.

Lemma string_loop_raw n ret c r ln lv :
  c <> 34 -> c <> 92 -> c <> 10 ->
  string_loop (S n) ret (mkInput (c :: r) ln lv) = string_loop (S n) (ret ++ [c]) (mkInput r ln lv).
Proof.
  intros H1 H2 H3. cbn [string_loop]. rewrite !M_bind_unfold. unfold skipWhile. cbn [range_ skip_span].
  assert (negb (c =? 34) && negb (c =? 92) = true) as -> by lia.
  rewrite (skip_span_first (fun c => negb (c =? 34) && negb (c =? 92)) false).
  destruct (skip_span _ true r) as [s r'] eqn:E. cbn [lineNum_ currentRecursionLevel_].
  rewrite count_newlines_cons by done. by rewrite <- (app_assoc ret [c] s).
Qed.

Lemma string_loop_raws n ret l r ln lv :
  Forall (fun c => c <> 34 /\ c <> 92 /\ c <> 10) l ->
  string_loop (S n) ret (mkInput (l ++ r) ln lv) = string_loop (S n) (ret ++ l) (mkInput r ln lv).
Proof.
  intros Hl. revert ret. induction Hl as [|c l (? & ? & ?) Hl IH]; intros ret; [by rewrite app_nil_r|].
  cbn [app]. rewrite string_loop_raw, IH by done. by rewrite <- app_assoc.
Qed.

Lemma current_ascii c r ln lv :
  0 <= c < 128 -> current (mkInput (c :: r) ln lv) = Some (mkInput (c :: r) ln lv, Ok c).
Proof.
  intros Hc. unfold current. cbn [range_]. rewrite i8_byte by (unfold is_uint; lia).
  by rewrite (proj2 (Z.ltb_lt c 128)) by lia.
Qed.

Lemma advance1_cons c r ln lv : advance1 (mkInput (c :: r) ln lv) = Some (mkInput r ln lv, Ok tt).
Proof. done. Qed.

Lemma skipWhile_none p c r ln lv :
  p true c = false -> is_u32 ln -> skipWhile p (mkInput (c :: r) ln lv) = Some (mkInput (c :: r) ln lv, Ok []).
Proof.
  intros Hp Hln. unfold skipWhile. cbn [range_ skip_span]. rewrite Hp. cbn [lineNum_ currentRecursionLevel_].
  unfold count_newlines. cbn. by rewrite Z.add_0_r, wrap_small.
Qed.

Lemma string_loop_end n ret r ln lv :
  is_u32 ln -> string_loop (S n) ret (mkInput (34 :: r) ln lv) = Some (mkInput r ln lv, Ok ret).
Proof.
  intros Hln. cbn [string_loop]. rewrite M_bind_unfold, skipWhile_none by done.
  rewrite M_bind_unfold, current_ascii by lia. by rewrite app_nil_r.
Qed.

Lemma string_loop_escape n ret r ln lv :
  is_u32 ln ->
  string_loop (S n) ret (mkInput (92 :: r) ln lv) = (parseEscape ret ≫= string_loop n) (mkInput r ln lv).
Proof.
  intros Hln. cbn [string_loop]. rewrite M_bind_unfold, skipWhile_none by done.
  rewrite M_bind_unfold, current_ascii by lia. by rewrite app_nil_r.
Qed.

(** The character a two-character escape stands for. *)
Definition short_escape (e : Z) : option Z :=
  if e =? 34 then Some 34 else if e =? 92 then Some 92 else if e =? 98 then Some 8
  else if e =? 102 then Some 12 else if e =? 110 then Some 10 else if e =? 114 then Some 13
  else if e =? 116 then Some 9 else None.

Lemma parseEscape_short ret e x r ln lv :
  short_escape e = Some x -> parseEscape ret (mkInput (e :: r) ln lv) = Some (mkInput r ln lv, Ok (ret ++ [x])).
Proof.
  unfold short_escape. intros He.
  repeat match goal with H : (if ?e =? ?k then _ else _) = _ |- _ =>
    destruct (Z.eqb_spec e k) as [->|]; [injection H as <-; reflexivity|] end. done.
Qed.

Lemma hexVal_hexDigit x i : 0 <= x < 16 -> hexVal (hexDigit x) i = Some (i, Ok x).
Proof.
  intros Hx. assert (In x (seqZ 0 16)) as Hin by (apply list_elem_of_In, elem_of_seqZ; lia).
  cbn in Hin. repeat (destruct Hin as [<-|Hin]; [reflexivity|]). done.
Qed.

Lemma hexDigit_ascii x : 0 <= x < 16 -> 0 <= hexDigit x < 128.
Proof. intros Hx. pose proof (hexDigit_range x Hx). lia. Qed.

Lemma readHex_digits a b c d r ln lv :
  0 <= a < 16 -> 0 <= b < 16 -> 0 <= c < 16 -> 0 <= d < 16 ->
  readHex (mkInput (hexDigit a :: hexDigit b :: hexDigit c :: hexDigit d :: r) ln lv) =
  Some (mkInput r ln lv, Ok (a * 4096 + b * 256 + c * 16 + d)).
Proof.
  intros Ha Hb Hc Hd. unfold readHex. rewrite M_bind_unfold. unfold size at 1. cbn [range_ length Nat.ltb Nat.leb].
  do 4 (rewrite M_bind_unfold, current_ascii by (by apply hexDigit_ascii);
        rewrite M_bind_unfold, hexVal_hexDigit by done;
        rewrite M_bind_unfold, advance1_cons).
  unfold mret, M_ret. do 4 f_equal.
  unfold wrap. Z.div_mod_to_equations. lia.
Qed.

(** The four digits of a code unit. *)
Lemma writeHex_digits v :
  is_uint 16 v -> exists a b c d, writeHex v = [92; 117; hexDigit a; hexDigit b; hexDigit c; hexDigit d] /\
    0 <= a < 16 /\ 0 <= b < 16 /\ 0 <= c < 16 /\ 0 <= d < 16 /\ v = a * 4096 + b * 256 + c * 16 + d.
Proof.
  intros Hv. unfold is_uint in Hv. unfold writeHex. do 4 eexists. split; [done|].
  rewrite !(land_ones_mod _ 4), !shiftr_div by lia. Z.div_mod_to_equations. lia.
Qed.

Lemma readHex_writeHex v r ln lv :
  is_uint 16 v -> readHex (mkInput (drop 2 (writeHex v) ++ r) ln lv) = Some (mkInput r ln lv, Ok v).
Proof.
  intros Hv. destruct (writeHex_digits v Hv) as (a & b & c & d & -> & Ha & Hb & Hc & Hd & ->).
  cbn [drop app]. by apply readHex_digits.
Qed.

Lemma append_utf8 cp out : is_scalar_value cp = true -> appendCodePointToUtf8 cp out = out ++ utf8_bytes cp.
Proof.
  intros Hcp. rewrite <- is_scalar_value_bytes by done. unfold appendCodePointToUtf8, codePointToUtf8.
  destruct (codePointToUtf8Impl cp); [done|by rewrite app_nil_r].
Qed.

Lemma decode_bmp ret v r ln lv :
  is_scalar_value v = true -> v < 0x10000 ->
  decodeUnicodeEscape ret (mkInput (drop 2 (writeHex v) ++ r) ln lv) =
  Some (mkInput r ln lv, Ok (ret ++ utf8_bytes v)).
Proof.
  intros Hs Hv. pose proof Hs as Hr%is_scalar_value_true. unfold decodeUnicodeEscape.
  rewrite M_bind_unfold, readHex_writeHex by (unfold is_uint; lia).
  unfold utf16_code_unit_is_high_surrogate, utf16_code_unit_is_bmp.
  assert ((0xd800 <=? v) && (v <? 0xdc00) = false) as -> by lia.
  assert ((v <? 0xd800) || (0xe000 <=? v) = true) as -> by lia.
  cbn [negb]. by rewrite append_utf8.
Qed.

(** The two halves of a code point above the basic plane. *)
Lemma surrogates cp :
  0x10000 <= cp <= 0x10FFFF ->
  let hi := 0xd800 + (((cp - 0x10000) .>> 10) .& 0x3ff) in
  let lo := 0xdc00 + ((cp - 0x10000) .& 0x3ff) in
  0xd800 <= hi < 0xdc00 /\ 0xdc00 <= lo < 0xe000 /\
  0x10000 + ((hi .& 0x3ff) .<< 10) + (lo .& 0x3ff) = cp.
Proof.
  intros Hcp. cbv zeta. rewrite !(land_ones_mod _ 10), shiftr_div, shiftl_mul by lia.
  Z.div_mod_to_equations. lia.
Qed.

Lemma decode_pair ret cp r ln lv :
  0x10000 <= cp <= 0x10FFFF ->
  decodeUnicodeEscape ret (mkInput (drop 2 (write_code_point cp) ++ r) ln lv) =
  Some (mkInput r ln lv, Ok (ret ++ utf8_bytes cp)).
Proof.
  intros Hcp. destruct (surrogates cp Hcp) as (Hhi & Hlo & Hpair). unfold write_code_point.
  rewrite (proj2 (Z.ltb_ge cp 0x10000)) by lia.
  set (hi := 0xd800 + _) in *. set (lo := 0xdc00 + _) in *.
  rewrite !wrap_small by (unfold is_uint; lia). unfold decodeUnicodeEscape.
  change (drop 2 (writeHex hi ++ writeHex lo) ++ r) with (drop 2 (writeHex hi) ++ (writeHex lo ++ r)).
  rewrite M_bind_unfold, readHex_writeHex by (unfold is_uint; lia).
  unfold utf16_code_unit_is_high_surrogate at 1.
  assert ((0xd800 <=? hi) && (hi <? 0xdc00) = true) as -> by lia.
  rewrite M_bind_unfold. change (consume [92; 117] (mkInput (writeHex lo ++ r) ln lv))
    with (Some (mkInput (drop 2 (writeHex lo) ++ r) ln lv, Ok (E := json_error) true)). cbn [negb].
  rewrite M_bind_unfold, readHex_writeHex by (unfold is_uint; lia).
  unfold utf16_code_unit_is_low_surrogate at 1, unicode_code_point_from_utf16_surrogate_pair.
  unfold utf16_code_unit_is_high_surrogate, utf16_code_unit_is_low_surrogate.
  assert ((0xdc00 <=? lo) && (lo <? 0xe000) = true) as -> by lia.
  assert ((0xd800 <=? hi) && (hi <? 0xdc00) = true) as -> by lia.
  cbn [negb]. rewrite Hpair, append_utf8; [done|]. apply is_scalar_value_true. lia.
Qed.

Lemma string_loop_code_point n ret cp r ln lv :
  is_u32 ln -> is_scalar_value cp = true ->
  string_loop (S n) ret (mkInput (write_code_point cp ++ r) ln lv) =
  string_loop n (ret ++ utf8_bytes cp) (mkInput r ln lv).
Proof.
  intros Hln Hcp. pose proof Hcp as Hr%is_scalar_value_true.
  assert (write_code_point cp = 92 :: 117 :: drop 2 (write_code_point cp)) as E
    by (unfold write_code_point; by destruct (_ <? _)).
  rewrite E. cbn [app]. rewrite string_loop_escape, M_bind_unfold by done.
  change (parseEscape ret (mkInput (117 :: drop 2 (write_code_point cp) ++ r) ln lv))
    with (decodeUnicodeEscape ret (mkInput (drop 2 (write_code_point cp) ++ r) ln lv)).
  destruct (decide (cp < 0x10000)).
  - unfold write_code_point. rewrite (proj2 (Z.ltb_lt cp 0x10000)) by done.
    rewrite wrap_small by (unfold is_uint; lia). by rewrite decode_bmp.
  - by rewrite decode_pair by lia.
Qed.

(** Inside a string, the parser reads [text] as the bytes [s]; each character of [text] pays for at
    most one round of its loop. *)
Definition reads_string (text s : list Z) : Prop :=
  forall n ret r ln lv, is_u32 ln -> (length text <= n)%nat ->
    exists m, (n <= m + length text)%nat /\
      string_loop (S n) ret (mkInput (text ++ r) ln lv) = string_loop (S m) (ret ++ s) (mkInput r ln lv).

Lemma reads_string_nil : reads_string [] [].
Proof. intros n ret r ln lv _ _. exists n. split; [lia|]. by rewrite app_nil_r. Qed.

Lemma reads_string_app t1 s1 t2 s2 :
  reads_string t1 s1 -> reads_string t2 s2 -> reads_string (t1 ++ t2) (s1 ++ s2).
Proof.
  intros H1 H2 n ret r ln lv Hln Hn. rewrite length_app in Hn |- *.
  destruct (H1 n ret (t2 ++ r) ln lv Hln ltac:(lia)) as (m1 & Hm1 & E1).
  destruct (H2 m1 (ret ++ s1) r ln lv Hln ltac:(lia)) as (m2 & Hm2 & E2).
  exists m2. split; [lia|]. rewrite <- !app_assoc in *. congruence.
Qed.

Lemma reads_string_raw l : Forall (fun c => c <> 34 /\ c <> 92 /\ c <> 10) l -> reads_string l l.
Proof. intros Hl n ret r ln lv _ _. exists n. split; [lia|]. by apply string_loop_raws. Qed.

Lemma reads_string_code_point cp : is_scalar_value cp = true -> reads_string (write_code_point cp) (utf8_bytes cp).
Proof.
  intros Hcp n ret r ln lv Hln Hn. assert (6 <= length (write_code_point cp))%nat as Hlen
    by (unfold write_code_point; destruct (_ <? _); rewrite ?length_app; cbn; lia).
  rewrite string_loop_code_point by done. destruct n as [|n]; [lia|]. exists n. split; [lia|done].
Qed.

Lemma reads_string_short e x : short_escape e = Some x -> reads_string [92; e] [x].
Proof.
  intros He n ret r ln lv Hln Hn. cbn [app length] in *. rewrite string_loop_escape, M_bind_unfold by done.
  rewrite (parseEscape_short _ _ _ _ _ _ He). destruct n as [|n]; [lia|]. exists n. split; [lia|done].
Qed.

Lemma writeHex_code_point v : 0 <= v < 0x10000 -> writeHex v = write_code_point v.
Proof.
  intros Hv. unfold write_code_point. rewrite (proj2 (Z.ltb_lt v 0x10000)) by lia.
  by rewrite wrap_small by (unfold is_uint; lia).
Qed.

Lemma reads_string_ascii opts b : is_byte b -> b < 128 -> reads_string (escape_ascii opts b) [b].
Proof.
  intros Hb Hlt. unfold is_uint in Hb.
  assert (reads_string (writeHex b) [b]) as Hhex.
  { rewrite writeHex_code_point by lia. replace [b] with (utf8_bytes b).
    - apply reads_string_code_point, is_scalar_value_true. lia.
    - unfold utf8_bytes. by rewrite (proj2 (Z.ltb_lt b 0x80)) by lia. }
  unfold escape_ascii. destruct (extra_escape opts b); [done|]. unfold escape_byte.
  destruct (Z.eqb_spec b 92) as [->|]; [by apply reads_string_short|].
  destruct (Z.eqb_spec b 34) as [->|]; [by apply reads_string_short|]. cbn [orb].
  destruct (Z.leb_spec b 0x1f); cycle 1.
  { apply reads_string_raw. by apply Forall_cons_2; [lia|apply Forall_nil_2]. }
  repeat (match goal with |- context [b =? ?k] => destruct (Z.eqb_spec b k) as [->|]; [by apply reads_string_short|] end).
  replace [92; 117; 48; 48; _; _] with (writeHex b); [done|].
  pose proof (byte_forall (fun b => bool_decide (writeHex b = [92; 117; 48; 48; hexDigit (u8 ((b .& 0xf0) .>> 4));
    hexDigit (u8 (b .& 0xf))])) b ltac:(by vm_compute) Hb) as E. by apply bool_decide_eq_true_1 in E.
Qed.

Lemma high_raw l : Forall (fun b => 128 <= b) l -> Forall (fun c => c <> 34 /\ c <> 92 /\ c <> 10) l.
Proof. intros Hl. eapply Forall_impl; [exact Hl|]. cbv beta. lia. Qed.

Lemma reads_string_escape n opts s body :
  skip_invalid_utf8 opts = false -> Forall is_byte s -> (length s <= n)%nat ->
  escape_ref n opts s = Ok body -> reads_string body s.
Proof.
  intros Hskip. revert s body. induction n as [|n IH]; intros [|b s] body Hs Hn; cbn [escape_ref length] in *;
    try lia; try (intros [= <-]; apply reads_string_nil).
  pose proof Hs as [Hb Hs']%Forall_cons_1. rewrite Hskip. destruct (Z.ltb_spec b 128).
  { intros (body' & He & ->)%prepend_ok. apply (reads_string_app _ [b]); [by apply reads_string_ascii|].
    eapply IH; done || lia. }
  destruct (_ || _) eqn:Hc; cycle 1.
  { intros (body' & He & ->)%prepend_ok. apply (reads_string_app _ [b]); [|eapply IH; done || lia].
    apply reads_string_raw, high_raw. by apply Forall_cons_2; [|apply Forall_nil_2]. }
  destruct (decode_ref _ _ _) as [[cp len]|] eqn:Hd; [|done]. intros (body' & He & ->)%prepend_ok.
  pose proof Hd as [Hlen Hhigh]%decode_ref_high; [|done..]. rewrite <- (take_drop len (b :: s)) at 2.
  apply reads_string_app.
  - unfold escape_high. rewrite Hskip. cbn [andb].
    destruct (encode_non_ascii opts); [|by apply reads_string_raw, high_raw].
    apply decode_ref_sound in Hd as (Hcp & rest & E & ->); [|done].
    rewrite E, Nat.add_0_l, take_app_length. by apply reads_string_code_point.
  - eapply IH; [by apply Forall_drop| |exact He]. rewrite length_drop. cbn [length] in *. lia.
Qed.

(** ** Reading a printed value back *)

(** The text once the blanks at its start are skipped. *)
Definition strip (l : list Z) : list Z := (skip_span (fun _ => json_blank) true l).2.

Definition blanks (l : list Z) : Prop := Forall (fun c => json_blank c = true) l.

Lemma strip_cons c l : strip (c :: l) = if json_blank c then strip l else c :: l.
Proof.
  unfold strip. cbn [skip_span]. destruct (json_blank c); [|done].
  rewrite (skip_span_first json_blank false). by destruct (skip_span _ true l).
Qed.

Lemma strip_blanks ws l : blanks ws -> strip (ws ++ l) = strip l.
Proof. induction 1 as [|c ws Hc Hws IH]; [done|]. cbn [app]. by rewrite strip_cons, Hc. Qed.

Lemma strip_idemp l : strip (strip l) = strip l.
Proof.
  induction l as [|c l IH]; [done|]. rewrite strip_cons. destruct (json_blank c) eqn:E; [done|].
  by rewrite strip_cons, E.
Qed.

Lemma strip_length l : (length (strip l) <= length l)%nat.
Proof. induction l as [|c l IH]; [done|]. rewrite strip_cons. destruct (json_blank c); cbn [length]; lia. Qed.

Lemma skipWhitespace_strip l ln lv :
  Z.of_nat (length l) < 2 ^ 32 ->
  exists ln', is_u32 ln' /\ skipWhitespace (mkInput l ln lv) = Some (mkInput (strip l) ln' lv, Ok tt).
Proof.
  intros Hl. unfold skipWhitespace, strip. cbn [range_].
  destruct (skip_span _ true l) as [s r] eqn:E. apply skip_span_app in E.
  rewrite (proj2 (Z.ltb_lt _ _)) by (rewrite E, length_app in Hl; lia).
  eexists. split; [|done]. apply wrap_range. lia.
Qed.

(** What may follow a value: nothing that could continue a number. *)
Definition ends_value (l : list Z) : Prop :=
  match l with
  | [] => True
  | c :: _ => c = 44 \/ c = 58 \/ c = 93 \/ c = 125 \/ json_blank c = true
  end.

(** The state after a value: the parser of integers skips the blanks that follow, the others do not. *)
Definition at_rest (rest : list Z) (lv : Z) (i : Input) : Prop :=
  (range_ i = rest \/ range_ i = strip rest) /\ is_u32 (lineNum_ i) /\ currentRecursionLevel_ i = lv.

Lemma at_rest_skip rest lv i :
  at_rest rest lv i -> Z.of_nat (length rest) < 2 ^ 32 ->
  exists ln, is_u32 ln /\ skipWhitespace i = Some (mkInput (strip rest) ln lv, Ok tt).
Proof.
  intros (Hr & _ & Hlv) Hl. destruct i as [r ln' lv']. cbn [range_ currentRecursionLevel_] in *. subst lv'.
  destruct Hr as [-> | ->].
  - by apply skipWhitespace_strip.
  - pose proof (strip_length rest). destruct (skipWhitespace_strip (strip rest) ln' lv) as (ln & Hln & E); [lia|].
    exists ln. by rewrite strip_idemp in E.
Qed.

Section RoundTrip.
Context {D : DoubleOps} (popts : serialization_opts).
Context (Hlimit : 0 <= recursion_limit popts < 2 ^ 32 - 1).
Context (Hnum : parse_numbers_as_strings popts = false) (Hfall : double_fallback popts = false).

(** The parser reads [text], followed by the end of a value, as [d], which is at most [m] deep. *)
Definition reads_value (m : nat) (d : dynamic) (text : list Z) : Prop :=
  (exists c t, text = c :: t /\ 32 < c < 128 /\ c <> 93 /\ c <> 125) /\
  forall k rest ln lv, is_u32 ln -> 0 <= lv -> (m <= depth_left popts lv)%nat ->
    (length (text ++ rest) < k)%nat -> Z.of_nat (length (text ++ rest)) < 2 ^ 32 -> ends_value rest ->
    exists i, parseValue k popts (mkInput (text ++ rest) ln lv) = Some (i, Ok d) /\ at_rest rest lv i.

Lemma nonblank c : 32 < c -> json_blank c = false.
Proof. unfold json_blank. lia. Qed.

(** It is enough to follow the alternative the first character selects, one level down. *)
Lemma reads_value_intro m d c t :
  32 < c < 128 -> c <> 93 -> c <> 125 ->
  (forall k rest ln lv, is_u32 ln -> 0 < lv -> (m <= depth_left popts lv)%nat ->
    (length (c :: t ++ rest) <= k)%nat -> Z.of_nat (length (c :: t ++ rest)) < 2 ^ 32 -> ends_value rest ->
    exists i, parseAlternative (parseValue k popts) k popts c (mkInput (c :: t ++ rest) ln lv) = Some (i, Ok d) /\
      at_rest rest lv i) ->
  reads_value (S m) d (c :: t).
Proof.
  intros Hc H1 H2 Halt. split; [by exists c, t|].
  intros k rest ln lv Hln Hlv Hm Hk Hsize Hrest. cbn [app] in *. destruct k as [|k]; [lia|]. cbn [parseValue].
  unfold depth_left in Hm. rewrite M_bind_unfold. unfold incrementRecursionLevel. cbn [currentRecursionLevel_].
  rewrite (proj2 (Z.ltb_ge _ _)) by lia. rewrite wrap_small by (unfold is_uint; lia). cbn [range_ lineNum_].
  destruct (skipWhitespace_strip (c :: t ++ rest) ln (lv + 1) Hsize) as (ln' & Hln' & E).
  rewrite M_bind_unfold, E, strip_cons, nonblank by lia. rewrite M_bind_unfold, current_ascii by lia.
  destruct (Halt k rest ln' (lv + 1) Hln' ltac:(lia)) as (i & Ei & (Hr & Hli & Hlvi));
    [unfold depth_left; lia|lia|done|done|].
  rewrite M_bind_unfold, Ei, M_bind_unfold. unfold decrementRecursionLevel.
  eexists. split; [done|]. split_and!; cbn [range_ lineNum_ currentRecursionLevel_]; [done..|].
  rewrite Hlvi. replace (lv + 1 - 1) with lv by lia. apply wrap_small. unfold is_uint. lia.
Qed.

Lemma strip_prefix_app_eq s r : strip_prefix s (s ++ r) = Some r.
Proof. induction s as [|a s IH]; [done|]. cbn. by rewrite Z.eqb_refl. Qed.

Lemma reads_value_null m : reads_value (S m) NULLT (bytes_of "null").
Proof.
  apply (reads_value_intro m NULLT 110 (bytes_of "ull")); [lia..|]. intros k rest ln lv Hln Hlv _ _ _ _.
  by exists (mkInput rest ln lv); split; [|split_and!; [left| |]].
Qed.

Lemma reads_value_bool m (b : bool) :
  reads_value (S m) (BOOL b) (if b then bytes_of "true" else bytes_of "false").
Proof.
  destruct b.
  - apply (reads_value_intro m (BOOL true) 116 (bytes_of "rue")); [lia..|]. intros k rest ln lv Hln Hlv _ _ _ _.
    by exists (mkInput rest ln lv); split; [|split_and!; [left| |]].
  - apply (reads_value_intro m (BOOL false) 102 (bytes_of "alse")); [lia..|]. intros k rest ln lv Hln Hlv _ _ _ _.
    by exists (mkInput rest ln lv); split; [|split_and!; [left| |]].
Qed.

Lemma reads_value_string m s body :
  reads_string body s -> reads_value (S m) (STRING s) ([34] ++ body ++ [34]).
Proof.
  intros Hb. apply (reads_value_intro m (STRING s) 34 (body ++ [34])); [lia..|].
  intros k rest ln lv Hln Hlv _ _ _ _. exists (mkInput rest ln lv). split; [|by split_and!; [left| |]].
  unfold parseAlternative. cbn [Z.eqb Pos.eqb]. rewrite M_bind_unfold. unfold parseString.
  rewrite M_bind_unfold, advance1_cons, M_bind_unfold. unfold size. cbn [range_]. rewrite <- app_assoc.
  destruct (Hb (length (body ++ [34] ++ rest)) [] ([34] ++ rest) ln lv Hln) as (n & _ & ->);
    [rewrite length_app; lia|]. cbn [app]. by rewrite string_loop_end.
Qed.

(** *** Numbers *)

(** The end of a run of digits. *)
Definition no_digit (l : list Z) : Prop := match l with [] => True | c :: _ => isdigit c = false end.

Lemma ends_no_digit l : ends_value l -> no_digit l.
Proof. destruct l; [done|]. unfold ends_value, no_digit, json_blank, isdigit. lia. Qed.

Lemma skip_digits (p : bool -> Z -> bool) ds rest :
  (forall c, p false c = isdigit c) -> all_digits ds -> no_digit rest ->
  skip_span p false (ds ++ rest) = (ds, rest).
Proof.
  intros Hp Hds Hrest. induction Hds as [|c ds Hc Hds IH]; cbn [app skip_span].
  - destruct rest as [|c rest]; [done|]. cbn [skip_span]. by rewrite Hp, Hrest.
  - by rewrite Hp, Hc, IH.
Qed.

Lemma digits_no_newline l : Forall (fun c => c <> 10) l -> count_newlines l = 0.
Proof. induction 1; [done|]. by rewrite count_newlines_cons. Qed.

Lemma digit_not_newline ds : all_digits ds -> Forall (fun c => c <> 10) ds.
Proof. intros H. eapply Forall_impl; [exact H|]. unfold isdigit. cbv beta. lia. Qed.

Lemma skipDigits_app ds rest ln lv :
  all_digits ds -> no_digit rest -> is_u32 ln ->
  skipDigits (mkInput (ds ++ rest) ln lv) = Some (mkInput rest ln lv, Ok ds).
Proof.
  intros Hds Hrest Hln. unfold skipDigits, skipWhile. cbn [range_ lineNum_ currentRecursionLevel_].
  rewrite <- (skip_span_first _ false), skip_digits by done.
  rewrite digits_no_newline by by apply digit_not_newline. by rewrite Z.add_0_r, wrap_small.
Qed.

(** The sign and the digits of an integer. *)
Lemma skipMinusAndDigits_app (neg : bool) ds rest ln lv :
  all_digits ds -> ds <> [] -> no_digit rest -> is_u32 ln ->
  skipMinusAndDigits (mkInput ((if neg then [45] else []) ++ ds ++ rest) ln lv) =
  Some (mkInput rest ln lv, Ok ((if neg then [45] else []) ++ ds)).
Proof.
  intros Hds Hne Hrest Hln. unfold skipMinusAndDigits, skipWhile. cbn [range_ lineNum_ currentRecursionLevel_].
  set (p := fun (first : bool) (c : Z) => _).
  assert (forall c, p false c = isdigit c) as Hp by (intros c; unfold p, isdigit; by rewrite andb_false_l, orb_false_r).
  assert (skip_span p false (ds ++ rest) = (ds, rest)) as Hspan by by apply skip_digits.
  pose proof (digit_not_newline ds Hds) as Hnl. destruct neg; cbn [app].
  - cbn [skip_span]. change (p true 45) with true. cbv iota. rewrite Hspan.
    rewrite digits_no_newline by (by apply Forall_cons_2). by rewrite Z.add_0_r, wrap_small.
  - destruct ds as [|d ds]; [done|]. cbn [app skip_span] in *. apply Forall_cons_1 in Hds as [Hd _].
    assert (p true d = true) as -> by (unfold p, isdigit in *; lia). rewrite Hp, Hd in Hspan. rewrite Hspan.
    rewrite digits_no_newline by done. by rewrite Z.add_0_r, wrap_small.
Qed.

(** The character after a value continues no number. *)
Lemma current_rest rest ln lv :
  ends_value rest -> exists c, current (mkInput rest ln lv) = Some (mkInput rest ln lv, Ok c) /\
    c <> 46 /\ c <> 101 /\ c <> 69.
Proof.
  intros Hrest. destruct rest as [|c rest].
  - exists EOF. unfold EOF. split; [done|lia].
  - exists c. unfold ends_value, json_blank in Hrest. rewrite current_ascii by lia. split; [done|lia].
Qed.

(** [parseNumber] goes on to [parseFinite] unless the text is an infinity. *)
Lemma parseNumber_finite (neg : bool) ds rest ln lv :
  all_digits ds -> ds <> [] ->
  parseNumber popts (mkInput ((if neg then [45] else []) ++ ds ++ rest) ln lv) =
  parseFinite popts neg (mkInput ((if neg then [45] else []) ++ ds ++ rest) ln lv).
Proof.
  intros Hds Hne. destruct ds as [|d ds]; [done|]. apply Forall_cons_1 in Hds as [Hd _]. unfold isdigit in Hd.
  unfold parseNumber. destruct neg; cbn [app]; rewrite M_bind_unfold, current_ascii by lia.
  - rewrite Z.eqb_refl, M_bind_unfold. unfold consume.
    change (bytes_of "-Infinity") with (45 :: 73 :: bytes_of "nfinity"). cbn [range_ strip_prefix].
    rewrite Z.eqb_refl. assert (73 =? d = false) as -> by lia. done.
  - assert (d =? 45 = false) as -> by lia. done.
Qed.

Lemma signed_head (neg : bool) ds :
  all_digits ds -> ds <> [] -> exists c t, (if neg then [45] else []) ++ ds = c :: t /\ starts_number c.
Proof.
  intros Hds Hne. destruct neg; [by do 2 eexists; split; [|left]|]. destruct ds as [|d ds]; [done|].
  apply Forall_cons_1 in Hds as [Hd _]. do 2 eexists. split; [done|]. right. unfold isdigit in Hd. lia.
Qed.

Lemma parseAlternative_number pv k c :
  starts_number c -> parseAlternative pv k popts c = parseNumber popts.
Proof.
  unfold starts_number, parseAlternative. intros Hc. rewrite !(proj2 (Z.eqb_neq c _)) by lia.
  assert ((c =? 45) || ((48 <=? c) && (c <=? 57)) = true) as E by lia.
  destruct (Z.eqb_spec c 45); [done|]. cbn [orb] in E |- *. by rewrite E.
Qed.

(** A number is read by [parseFinite], from its sign on. *)
Lemma reads_value_number m d (neg : bool) ds more :
  all_digits ds -> ds <> [] ->
  (forall rest ln lv, is_u32 ln -> Z.of_nat (length (((if neg then [45] else []) ++ ds) ++ more ++ rest)) < 2 ^ 32 ->
    ends_value rest ->
    exists i, parseFinite popts neg (mkInput ((if neg then [45] else []) ++ ds ++ more ++ rest) ln lv) = Some (i, Ok d) /\
      at_rest rest lv i) ->
  reads_value (S m) d ((if neg then [45] else []) ++ ds ++ more).
Proof.
  intros Hds Hne Hfin. destruct (signed_head neg ds Hds Hne) as (c & t & Ect & Hc).
  rewrite app_assoc, Ect. cbn [app]. pose proof Hc as Hc'. unfold starts_number in Hc'.
  apply reads_value_intro; [lia..|]. intros k rest ln lv Hln Hlv _ _ Hsize Hrest.
  rewrite parseAlternative_number by done. rewrite <- app_assoc in Hsize |- *.
  rewrite !app_comm_cons, <- Ect in Hsize |- *. rewrite <- app_assoc, parseNumber_finite by done. by apply Hfin.
Qed.

Lemma reads_value_int m n v :
  is_i64 v -> num_digits 10 n (Z.abs v) -> reads_value (S m) (INT64 v) (int_text n v).
Proof.
  intros Hv Hn. pose proof (digits_are_digits n (Z.abs v)) as Hds.
  assert (digits 10 false n (Z.abs v) <> []) as Hne.
  { intros E. pose proof (digits_length 10 false n (Z.abs v)) as Hlen. destruct Hn as (Hn1 & _).
    rewrite E in Hlen. cbn in Hlen. lia. }
  assert (tryTo_integral (mkInt 64 true) (int_text n v) = Some (Ok v)) as Hto.
  { unfold tryTo_integral. rewrite str_to_integral_eq by first [apply int_text_bytes | right; right; right; by left].
    rewrite <- (app_nil_r (int_text n v)), read_int_text by (done || by apply is_i64_has_type). done. }
  unfold int_text in *. set (ds := digits 10 false n (Z.abs v)) in *. rewrite <- (app_nil_r ds).
  apply reads_value_number; [done|done|]. intros rest ln lv Hln Hsize Hrest. cbn [app] in *.
  unfold parseFinite. rewrite M_bind_unfold, skipMinusAndDigits_app by auto using ends_no_digit.
  assert ((v <? 0) && Nat.ltb (length ((if v <? 0 then [45] else []) ++ ds)) 2 = false) as ->.
  { destruct (v <? 0); [|done]. destruct ds; done. }
  destruct (current_rest rest ln lv Hrest) as (c & Ec & H1 & H2 & H3). rewrite M_bind_unfold, Ec.
  rewrite !(proj2 (Z.eqb_neq c _)) by done. cbn [negb andb orb]. rewrite Hnum, Hfall. cbn [negb orb].
  rewrite M_bind_unfold. unfold to_int64. rewrite Hto. rewrite M_bind_unfold.
  destruct (skipWhitespace_strip rest ln lv) as (ln' & Hln' & Es); [rewrite length_app in Hsize; lia|].
  rewrite Es. eexists. split; [done|]. by split_and!; [right| |].
Qed.

(** The texts of numbers with a fraction or an exponent. *)
Definition fraction_text (t : list Z) : Prop := t = [] \/ exists fs, t = 46 :: fs /\ all_digits fs.

Definition exponent_text (t : list Z) : Prop :=
  t = [] \/ exists e sg es, t = e :: sg ++ es /\ (e = 101 \/ e = 69) /\
    (sg = [] \/ sg = [43] \/ sg = [45]) /\ all_digits es.

Definition float_text (t : list Z) : Prop :=
  exists (neg : bool) ds fr ex, t = (if neg then [45] else []) ++ ds ++ fr ++ ex /\ all_digits ds /\ ds <> [] /\
    fraction_text fr /\ exponent_text ex /\ (fr <> [] \/ ex <> []).

Lemma current_of rest ln lv : exists c, current (mkInput rest ln lv) = Some (mkInput rest ln lv, Ok c) /\
  (ends_value rest -> c <> 46 /\ c <> 101 /\ c <> 69 /\ c <> 43 /\ c <> 45) /\
  (forall c' r, rest = c' :: r -> 0 <= c' < 128 -> c = c').
Proof.
  destruct rest as [|c rest].
  - exists EOF. unfold EOF. split; [done|]. split; [lia|done].
  - exists (i8 c). split; [done|]. split.
    + unfold ends_value, json_blank. intros Hc. rewrite i8_byte by (unfold is_uint; lia).
      rewrite (proj2 (Z.ltb_lt c 128)) by lia. lia.
    + intros c' r [= <- <-] Hc. rewrite i8_byte by (unfold is_uint; lia). by rewrite (proj2 (Z.ltb_lt c 128)) by lia.
Qed.

Lemma parseExponent_app ex rest ln lv :
  exponent_text ex -> ends_value rest -> is_u32 ln ->
  parseExponent (mkInput (ex ++ rest) ln lv) = Some (mkInput rest ln lv, Ok ex).
Proof.
  intros [->|(e & sg & es & -> & He & Hsg & Hes)] Hrest Hln; unfold parseExponent.
  { cbn [app]. destruct (current_of rest ln lv) as (c & Ec & Hc & _). specialize (Hc Hrest).
    rewrite M_bind_unfold, Ec. rewrite !(proj2 (Z.eqb_neq c _)) by lia. done. }
  cbn [app]. rewrite M_bind_unfold, current_ascii by lia.
  assert ((e =? 101) || (e =? 69) = true) as -> by lia. rewrite M_bind_unfold, advance1_cons, M_bind_unfold.
  rewrite <- app_assoc. destruct Hsg as [->|Hsg]; cbn [app].
  - destruct (current_of (es ++ rest) ln lv) as (c & Ec & Hend & Hc). rewrite Ec.
    assert (c <> 43 /\ c <> 45) as [H1 H2].
    { destruct es as [|d es]; [by destruct (Hend Hrest) as (_ & _ & _ & ? & ?)|].
      apply Forall_cons_1 in Hes as [Hd _]. unfold isdigit in Hd. rewrite (Hc d (es ++ rest)) by (done || lia). lia. }
    rewrite !(proj2 (Z.eqb_neq c _)) by done. cbn [orb]. rewrite M_bind_unfold. cbn [mret M_ret].
    by rewrite M_bind_unfold, skipDigits_app by auto using ends_no_digit.
  - assert (exists c, sg = [c] /\ (c = 43 \/ c = 45)) as (c & -> & Hc) by naive_solver. cbn [app].
    rewrite current_ascii by lia. assert ((c =? 43) || (c =? 45) = true) as -> by lia.
    rewrite !M_bind_unfold, advance1_cons. cbn [mret M_ret].
    by rewrite M_bind_unfold, skipDigits_app by auto using ends_no_digit.
Qed.

Lemma reads_value_float m x t :
  float_text t -> to_double t = Some x -> reads_value (S m) (DOUBLE x) t.
Proof.
  intros (neg & ds & fr & ex & -> & Hds & Hne & Hfr & Hex & Hor) Hto.
  apply reads_value_number; [done|done|]. intros rest ln lv Hln _ Hrest.
  unfold parseFinite. rewrite M_bind_unfold, skipMinusAndDigits_app; [|done|done| |done]; cycle 1.
  { destruct Hfr as [->|(fs & -> & _)]; [|done].
    destruct Hex as [->|(e & sg & es & -> & He & _)]; [naive_solver|]. cbn. unfold isdigit. lia. }
  assert (neg && Nat.ltb (length ((if neg then [45] else []) ++ ds)) 2 = false) as ->.
  { destruct neg; [|done]. by destruct ds. }
  rewrite M_bind_unfold, Hnum. assert (exists c, current (mkInput ((fr ++ ex) ++ rest) ln lv) =
    Some (mkInput ((fr ++ ex) ++ rest) ln lv, Ok c) /\
    ((c = 46 /\ exists fs, fr = 46 :: fs /\ all_digits fs) \/ ((c = 101 \/ c = 69) /\ fr = []))) as (c & Ec & Hc).
  { destruct Hfr as [->|(fs & -> & Hfs)].
    - destruct Hex as [->|(e & sg & es & -> & He & _)]; [naive_solver|]. exists e. cbn [app].
      rewrite current_ascii by lia. auto.
    - exists 46. cbn [app]. rewrite current_ascii by lia. split; [done|]. left. eauto. }
  rewrite Ec. cbn [andb]. rewrite !andb_false_r.
  exists (mkInput rest ln lv). split; [|by split_and!; [left| |]].
  assert (negb (c =? 46) && negb ((c =? 101) || (c =? 69)) = false) as -> by lia.
  unfold parseFloating. rewrite M_bind_unfold. destruct Hc as [[-> (fs & -> & Hfs)]|[Hc ->]].
  - cbn [Z.eqb Pos.eqb orb negb]. rewrite M_bind_unfold. cbn [app]. rewrite advance1_cons, M_bind_unfold.
    rewrite <- app_assoc, skipDigits_app; [|done| |done]; cycle 1.
    { destruct Hex as [->|(e & sg & es & -> & He & _)]; [by apply ends_no_digit|]. cbn. unfold isdigit. lia. }
    cbn [mret M_ret]. rewrite M_bind_unfold, parseExponent_app by done. rewrite Hnum, M_bind_unfold.
    unfold number_to_double. rewrite <- app_assoc. cbn [app] in *. by rewrite Hto.
  - assert ((c =? 101) || (c =? 69) = true) as -> by lia. cbn [negb app mret M_ret].
    rewrite M_bind_unfold, parseExponent_app by done. rewrite Hnum, M_bind_unfold.
    unfold number_to_double. rewrite <- app_assoc. cbn [app] in *. by rewrite Hto.
Qed.

(** *** Arrays *)

(** The elements with the separator [44 :: ws] between them. *)
Inductive array_text (m : nat) (ws : list Z) : list dynamic -> list Z -> Prop :=
| array_one d t : reads_value m d t -> array_text m ws [d] t
| array_more d t ds tt :
    reads_value m d t -> array_text m ws ds tt -> array_text m ws (d :: ds) (t ++ 44 :: ws ++ tt).

(** The first character of a value, as the parser meets it after blanks. *)
Lemma value_head m d t l :
  reads_value m d t -> strip (t ++ l) = t ++ l /\
  forall ln lv, exists c, current (mkInput (t ++ l) ln lv) = Some (mkInput (t ++ l) ln lv, Ok c) /\ c <> 93 /\ c <> 125.
Proof.
  intros [(c & t' & -> & Hc & H1 & H2) _]. cbn [app]. rewrite strip_cons, nonblank by lia. split; [done|].
  intros ln lv. exists c. rewrite current_ascii by lia. done.
Qed.

Lemma value_length m d t : reads_value m d t -> (0 < length t)%nat.
Proof. intros [(c & t' & -> & _) _]. cbn. lia. Qed.

Lemma array_head m ws ds tt l :
  array_text m ws ds tt -> strip (tt ++ l) = tt ++ l /\
  forall ln lv, exists c, current (mkInput (tt ++ l) ln lv) = Some (mkInput (tt ++ l) ln lv, Ok c) /\ c <> 93 /\ c <> 125.
Proof. destruct 1; rewrite <- ?app_assoc; by eapply value_head. Qed.

Lemma array_loop_reads m ws ds tt K k ret tail r ln lv :
  blanks ws -> array_text m ws ds tt -> strip tail = 93 :: r -> ends_value tail -> is_u32 ln -> 0 <= lv ->
  (m <= depth_left popts lv)%nat -> (length (tt ++ tail) < K)%nat -> (length (tt ++ tail) <= k)%nat ->
  Z.of_nat (length (tt ++ tail)) < 2 ^ 32 ->
  exists ln', is_u32 ln' /\
    array_loop (parseValue K popts) k popts ret (mkInput (tt ++ tail) ln lv) =
    Some (mkInput (93 :: r) ln' lv, Ok (ret ++ ds)).
Proof.
  intros Hws Htt Hstrip Htail Hln Hlv Hm. revert k ret ln Hln.
  induction Htt as [d t Hd|d t ds tt Hd Htt IH]; intros k ret ln Hln HK Hk Hsize.
  - pose proof (value_length m d t Hd). destruct k as [|k]; [rewrite length_app in Hk; lia|]. cbn [array_loop].
    destruct (value_head m d t tail Hd) as [_ Hh]. destruct (Hh ln lv) as (c & Ec & Hc & _).
    rewrite M_bind_unfold, Ec, (proj2 (Z.eqb_neq c 93)), andb_false_r by done.
    destruct Hd as [_ Hd]. destruct (Hd K tail ln lv) as (i & Ei & Hrest); [done..|].
    rewrite M_bind_unfold, Ei. rewrite length_app in Hsize.
    destruct (at_rest_skip _ _ _ Hrest) as (ln' & Hln' & Es); [lia|].
    rewrite M_bind_unfold, Es, Hstrip, M_bind_unfold, current_ascii by lia. by exists ln'.
  - pose proof (value_length m d t Hd). rewrite <- app_assoc in *. cbn [app] in *. rewrite <- app_assoc in *.
    destruct k as [|k]; [rewrite length_app in Hk; lia|]. cbn [array_loop].
    destruct (value_head m d t (44 :: ws ++ tt ++ tail) Hd) as [_ Hh]. destruct (Hh ln lv) as (c & Ec & Hc & _).
    rewrite M_bind_unfold, Ec, (proj2 (Z.eqb_neq c 93)), andb_false_r by done.
    destruct Hd as [_ Hd]. destruct (Hd K (44 :: ws ++ tt ++ tail) ln lv) as (i & Ei & Hrest); [try done; by left..|].
    rewrite M_bind_unfold, Ei. rewrite length_app in Hsize, HK, Hk. cbn [length] in Hsize, HK, Hk.
    destruct (at_rest_skip _ _ _ Hrest) as (ln1 & Hln1 & Es); [cbn [length]; lia|].
    rewrite M_bind_unfold, Es, strip_cons, nonblank, M_bind_unfold, current_ascii by lia. cbn [Z.eqb Pos.eqb negb].
    rewrite M_bind_unfold, advance1_cons. rewrite length_app in Hsize, HK, Hk.
    destruct (skipWhitespace_strip (ws ++ tt ++ tail) ln1 lv) as (ln2 & Hln2 & Es2); [rewrite length_app; lia|].
    rewrite M_bind_unfold, Es2, strip_blanks by done. destruct (array_head m ws ds tt tail Htt) as [-> _].
    destruct (IH k (ret ++ [d]) ln2 Hln2) as (ln3 & Hln3 & ->); [lia..|].
    exists ln3. by rewrite <- app_assoc.
Qed.

Lemma reads_value_array m ws ws' ds tt :
  blanks ws -> blanks ws' -> array_text m ws ds tt ->
  reads_value (S m) (ARRAY ds) ([91] ++ ws ++ tt ++ ws' ++ [93]).
Proof.
  intros Hws Hws' Htt. apply (reads_value_intro m (ARRAY ds) 91 (ws ++ tt ++ ws' ++ [93])); [lia..|].
  intros k rest ln lv Hln Hlv Hm Hk Hsize Hrest. unfold parseAlternative. cbn [Z.eqb Pos.eqb].
  replace ((ws ++ tt ++ ws' ++ [93]) ++ rest) with (ws ++ tt ++ (ws' ++ 93 :: rest)) in *
    by (by rewrite <- !app_assoc).
  unfold parseArray. rewrite M_bind_unfold, advance1_cons. cbn [length] in *.
  destruct (skipWhitespace_strip (ws ++ tt ++ ws' ++ 93 :: rest) ln lv) as (ln1 & Hln1 & Es); [lia|].
  rewrite M_bind_unfold, Es, strip_blanks by done. rewrite length_app in Hk, Hsize.
  destruct (array_head m ws ds tt (ws' ++ 93 :: rest) Htt) as [-> Hh].
  destruct (Hh ln1 lv) as (c & Ec & Hc & _). rewrite M_bind_unfold, Ec, (proj2 (Z.eqb_neq c 93)) by done.
  destruct (array_loop_reads m ws ds tt k k [] (ws' ++ 93 :: rest) rest ln1 lv) as (ln2 & Hln2 & El);
    try done; try lia.
  - by rewrite strip_blanks, strip_cons.
  - destruct Hws' as [|b ws' Hb Hws']; cbn; auto.
  - rewrite M_bind_unfold, El. unfold expect. rewrite !M_bind_unfold, current_ascii by lia.
    cbn [Z.eqb Pos.eqb negb]. rewrite advance1_cons. exists (mkInput rest ln2 lv). split; [done|].
    by split_and!; [left| |].
Qed.

Lemma reads_value_empty_array m : reads_value (S m) (ARRAY []) [91; 93].
Proof.
  apply (reads_value_intro m (ARRAY []) 91 [93]); [lia..|].
  intros k rest ln lv Hln Hlv _ _ Hsize _. unfold parseAlternative, parseArray. cbn [Z.eqb Pos.eqb app] in *.
  rewrite M_bind_unfold, advance1_cons. cbn [length] in *.
  destruct (skipWhitespace_strip (93 :: rest) ln lv) as (ln1 & Hln1 & Es); [cbn [length]; lia|].
  rewrite M_bind_unfold, Es, strip_cons, nonblank, M_bind_unfold, current_ascii by lia. cbn [Z.eqb Pos.eqb].
  rewrite M_bind_unfold, advance1_cons. exists (mkInput rest ln1 lv). split; [done|]. by split_and!; [left| |].
Qed.

(** *** Objects *)

(** An item, with the separator [58 :: cs] between the key and the value. *)
Definition item_text (m : nat) (cs : list Z) (item : dynamic * dynamic) (t : list Z) : Prop :=
  exists s tk tv, item.1 = STRING s /\ t = tk ++ 58 :: cs ++ tv /\
    reads_value m (STRING s) tk /\ reads_value m item.2 tv.

Inductive object_text (m : nat) (cs ws : list Z) : list (dynamic * dynamic) -> list Z -> Prop :=
| object_one item t : item_text m cs item t -> object_text m cs ws [item] t
| object_more item t items tt :
    item_text m cs item t -> object_text m cs ws items tt ->
    object_text m cs ws (item :: items) (t ++ 44 :: ws ++ tt).

Lemma item_head m cs item t l :
  item_text m cs item t -> strip (t ++ l) = t ++ l /\
  forall ln lv, exists c, current (mkInput (t ++ l) ln lv) = Some (mkInput (t ++ l) ln lv, Ok c) /\ c <> 93 /\ c <> 125.
Proof. intros (s & tk & tv & _ & -> & Hk & _). rewrite <- app_assoc. by eapply value_head. Qed.

Lemma object_head m cs ws items tt l :
  object_text m cs ws items tt -> strip (tt ++ l) = tt ++ l /\
  forall ln lv, exists c, current (mkInput (tt ++ l) ln lv) = Some (mkInput (tt ++ l) ln lv, Ok c) /\ c <> 93 /\ c <> 125.
Proof. destruct 1; rewrite <- ?app_assoc; by eapply item_head. Qed.

Lemma item_reads m cs item t K ret distinct rest ln lv :
  blanks cs -> item_text m cs item t -> has_key ret item.1 = false -> ends_value rest -> is_u32 ln -> 0 <= lv ->
  (m <= depth_left popts lv)%nat -> (length (t ++ rest) < K)%nat -> Z.of_nat (length (t ++ rest)) < 2 ^ 32 ->
  exists i, (key ← parseKey (parseValue K popts) popts;
             parseObjectKeyValue (parseValue K popts) ret key distinct) (mkInput (t ++ rest) ln lv) =
            Some (i, Ok (ret ++ [item])) /\ at_rest rest lv i.
Proof.
  intros Hcs (s & tk & tv & Es & -> & [_ Hk] & Hv) Hnew Hrest Hln Hlv Hm HK Hsize.
  rewrite <- app_assoc in *. cbn [app] in *. rewrite <- app_assoc in *.
  destruct (Hk K (58 :: cs ++ tv ++ rest) ln lv) as (i1 & E1 & Hr1); [try done; by right; left..|].
  rewrite M_bind_unfold. unfold parseKey. rewrite M_bind_unfold, E1. cbn [isString negb]. rewrite andb_false_r.
  cbn [mret M_ret]. unfold parseObjectKeyValue. rewrite length_app in HK, Hsize. cbn [length] in HK, Hsize.
  destruct (at_rest_skip _ _ _ Hr1) as (ln1 & Hln1 & Ew); [cbn [length]; lia|].
  rewrite M_bind_unfold, Ew, strip_cons, nonblank by lia. unfold expect.
  rewrite !M_bind_unfold, current_ascii by lia. cbn [Z.eqb Pos.eqb negb]. rewrite advance1_cons.
  destruct (skipWhitespace_strip (cs ++ tv ++ rest) ln1 lv) as (ln2 & Hln2 & Ew2); [lia|].
  rewrite M_bind_unfold, Ew2, strip_blanks by done. destruct (value_head m item.2 tv rest Hv) as [-> _].
  rewrite length_app in HK, Hsize. destruct Hv as [_ Hv]. destruct (Hv K rest ln2 lv) as (i2 & E2 & Hr2); [done || lia..|].
  rewrite M_bind_unfold, E2. rewrite <- Es, Hnew. exists i2. split; [|done]. by destruct item.
Qed.

Lemma has_key_strings items s :
  Forall (fun item => isString item.1 = true) items ->
  has_key items (STRING s) = true <-> STRING s ∈ items.*1.
Proof.
  induction 1 as [|[k v] items Hk Hitems IH]; cbn [has_key existsb fst fmap list_fmap].
  { split; [done|]. by intros ?%elem_of_nil. }
  fold (has_key items (STRING s)). rewrite orb_true_iff, IH, elem_of_cons. destruct k; try done.
  cbn [dyn_eqb]. rewrite bool_decide_eq_true. naive_solver.
Qed.

Lemma object_loop_reads m cs ws items tt K k ret tail r ln lv :
  blanks cs -> blanks ws -> object_text m cs ws items tt ->
  Forall (fun item => isString item.1 = true) ret -> NoDup (ret ++ items).*1 ->
  strip tail = 125 :: r -> ends_value tail -> is_u32 ln -> 0 <= lv ->
  (m <= depth_left popts lv)%nat -> (length (tt ++ tail) < K)%nat -> (length (tt ++ tail) <= k)%nat ->
  Z.of_nat (length (tt ++ tail)) < 2 ^ 32 ->
  exists ln', is_u32 ln' /\
    object_loop (parseValue K popts) k popts ret (mkInput (tt ++ tail) ln lv) =
    Some (mkInput (125 :: r) ln' lv, Ok (ret ++ items)).
Proof.
  intros Hcs Hws Htt Hret Hnd Hstrip Htail Hln Hlv Hm. revert k ret ln Hret Hnd Hln.
  assert (forall item t, item_text m cs item t -> isString item.1 = true /\ (0 < length t)%nat) as Hitem.
  { intros item t (s & tk & tv & -> & -> & Hk & _). split; [done|]. rewrite length_app.
    pose proof (value_length _ _ _ Hk). lia. }
  assert (forall ret item items, isString item.1 = true -> Forall (fun item => isString item.1 = true) ret ->
    NoDup (ret ++ item :: items).*1 -> has_key ret item.1 = false) as Hfresh.
  { intros ret [k v] items' Hs Hret Hnd. destruct k; try done. cbn [fst].
    apply Bool.not_true_is_false. rewrite has_key_strings by done. rewrite fmap_app in Hnd. apply NoDup_app in Hnd as (_ & Hdis & _).
    intros Hin. apply (Hdis _ Hin). cbn. apply elem_of_cons. by left. }
  induction Htt as [item t Hi|item t items tt Hi Htt IH]; intros k ret ln Hret Hnd Hln HK Hk Hsize;
    destruct (Hitem _ _ Hi) as [Hstr Hlen]; pose proof (Hfresh _ _ _ Hstr Hret Hnd) as Hnew.
  - destruct k as [|k]; [rewrite length_app in Hk; lia|]. cbn [object_loop].
    destruct (item_head m cs item t tail Hi) as [_ Hh]. destruct (Hh ln lv) as (c & Ec & _ & Hc).
    rewrite M_bind_unfold, Ec, (proj2 (Z.eqb_neq c 125)), andb_false_r by done.
    destruct (item_reads m cs item t K ret (validate_keys popts || convert_int_keys popts) tail ln lv)
      as (i & Ei & Hrest); [done..|]. rewrite M_bind_unfold in Ei |- *. destruct (parseKey _ _ _) as [[i1 [key|]]|]; try done.
    rewrite M_bind_unfold, Ei. rewrite length_app in Hsize.
    destruct (at_rest_skip _ _ _ Hrest) as (ln' & Hln' & Es); [lia|].
    rewrite M_bind_unfold, Es, Hstrip, M_bind_unfold, current_ascii by lia. by exists ln'.
  - rewrite <- app_assoc in *. cbn [app] in *. rewrite <- app_assoc in *.
    destruct k as [|k]; [rewrite length_app in Hk; lia|]. cbn [object_loop].
    destruct (item_head m cs item t (44 :: ws ++ tt ++ tail) Hi) as [_ Hh]. destruct (Hh ln lv) as (c & Ec & _ & Hc).
    rewrite M_bind_unfold, Ec, (proj2 (Z.eqb_neq c 125)), andb_false_r by done.
    destruct (item_reads m cs item t K ret (validate_keys popts || convert_int_keys popts)
      (44 :: ws ++ tt ++ tail) ln lv) as (i & Ei & Hrest); [try done; by left..|].
    rewrite M_bind_unfold in Ei |- *. destruct (parseKey _ _ _) as [[i1 [key|]]|]; try done.
    rewrite M_bind_unfold, Ei. rewrite length_app in Hsize, HK, Hk. cbn [length] in Hsize, HK, Hk.
    destruct (at_rest_skip _ _ _ Hrest) as (ln1 & Hln1 & Es); [cbn [length]; lia|].
    rewrite M_bind_unfold, Es, strip_cons, nonblank, M_bind_unfold, current_ascii by lia. cbn [Z.eqb Pos.eqb negb].
    rewrite M_bind_unfold, advance1_cons. rewrite length_app in Hsize, HK, Hk.
    destruct (skipWhitespace_strip (ws ++ tt ++ tail) ln1 lv) as (ln2 & Hln2 & Es2); [rewrite length_app; lia|].
    rewrite M_bind_unfold, Es2, strip_blanks by done. destruct (object_head m cs ws items tt tail Htt) as [-> _].
    destruct (IH k (ret ++ [item]) ln2) as (ln3 & Hln3 & ->); [| |done|lia..|].
    + apply Forall_app. split; [done|]. by apply Forall_cons_2; [|apply Forall_nil_2].
    + by rewrite <- app_assoc.
    + exists ln3. by rewrite <- app_assoc.
Qed.

Lemma reads_value_object m cs ws ws' items tt :
  blanks cs -> blanks ws -> blanks ws' -> NoDup items.*1 -> object_text m cs ws items tt ->
  reads_value (S m) (OBJECT items) ([123] ++ ws ++ tt ++ ws' ++ [125]).
Proof.
  intros Hcs Hws Hws' Hnd Htt. apply (reads_value_intro m (OBJECT items) 123 (ws ++ tt ++ ws' ++ [125])); [lia..|].
  intros k rest ln lv Hln Hlv Hm Hk Hsize Hrest. unfold parseAlternative. cbn [Z.eqb Pos.eqb].
  replace ((ws ++ tt ++ ws' ++ [125]) ++ rest) with (ws ++ tt ++ (ws' ++ 125 :: rest)) in *
    by (by rewrite <- !app_assoc).
  unfold parseObject. rewrite M_bind_unfold, advance1_cons. cbn [length] in *.
  destruct (skipWhitespace_strip (ws ++ tt ++ ws' ++ 125 :: rest) ln lv) as (ln1 & Hln1 & Es); [lia|].
  rewrite M_bind_unfold, Es, strip_blanks by done. rewrite length_app in Hk, Hsize.
  destruct (object_head m cs ws items tt (ws' ++ 125 :: rest) Htt) as [-> Hh].
  destruct (Hh ln1 lv) as (c & Ec & _ & Hc). rewrite M_bind_unfold, Ec, (proj2 (Z.eqb_neq c 125)) by done.
  destruct (object_loop_reads m cs ws items tt k k [] (ws' ++ 125 :: rest) rest ln1 lv) as (ln2 & Hln2 & El);
    try done; try lia.
  - by rewrite strip_blanks, strip_cons.
  - destruct Hws' as [|b ws' Hb Hws']; cbn; auto.
  - rewrite M_bind_unfold, El. unfold expect. rewrite !M_bind_unfold, current_ascii by lia.
    cbn [Z.eqb Pos.eqb negb]. rewrite advance1_cons. exists (mkInput rest ln2 lv). split; [done|].
    by split_and!; [left| |].
Qed.

Lemma reads_value_empty_object m : reads_value (S m) (OBJECT []) [123; 125].
Proof.
  apply (reads_value_intro m (OBJECT []) 123 [125]); [lia..|].
  intros k rest ln lv Hln Hlv _ _ Hsize _. unfold parseAlternative, parseObject. cbn [Z.eqb Pos.eqb app] in *.
  rewrite M_bind_unfold, advance1_cons. cbn [length] in *.
  destruct (skipWhitespace_strip (125 :: rest) ln lv) as (ln1 & Hln1 & Es); [cbn [length]; lia|].
  rewrite M_bind_unfold, Es, strip_cons, nonblank, M_bind_unfold, current_ascii by lia. cbn [Z.eqb Pos.eqb].
  rewrite M_bind_unfold, advance1_cons. exists (mkInput rest ln1 lv). split; [done|]. by split_and!; [left| |].
Qed.

(** ** What the printer writes *)

(** Whatever the writer appends satisfies [P], unless it throws. *)
Definition writes (f : writer) (P : list Z -> Prop) : Prop :=
  forall out out', f out = Some (Ok out') -> exists t, out' = out ++ t /\ P t.

Lemma writes_put t P : P t -> writes (put t) P.
Proof. intros HP out out' [= <-]. eauto. Qed.

Lemma writes_throw e P : writes (throw_print e) P.
Proof. by intros out out' ?. Qed.

Lemma writes_seq f g (P Q : list Z -> Prop) :
  writes f P -> (forall t, P t -> writes g (fun t' => Q (t ++ t'))) -> writes (f >>> g) Q.
Proof.
  intros Hf Hg out out'. unfold andThen. destruct (f out) as [[o|]|] eqn:Ef; try done. intros Eg.
  destruct (Hf _ _ Ef) as (t1 & -> & H1), (Hg t1 H1 _ _ Eg) as (t2 & -> & H2).
  exists (t1 ++ t2). by rewrite app_assoc.
Qed.

Lemma writes_put_seq t g (Q : list Z -> Prop) : writes g (fun t' => Q (t ++ t')) -> writes (put t >>> g) Q.
Proof. intros Hg. eapply writes_seq; [by apply (writes_put t (eq t))|]. by intros ? <-. Qed.

Lemma writes_mono f (P Q : list Z -> Prop) : writes f P -> (forall t, P t -> Q t) -> writes f Q.
Proof. intros Hf HQ out out' E. destruct (Hf _ _ E) as (t & -> & Ht). eauto. Qed.

Lemma newline_blanks opts level : blanks (newline_text opts level).
Proof.
  destruct level as [l|]; [|apply Forall_nil_2]. apply Forall_cons_2; [done|]. by apply Forall_replicate.
Qed.

(** The separator of a key and a value is a colon and blanks. *)
Lemma colon_text_blanks level : exists cs, colon_text level = 58 :: cs /\ blanks cs.
Proof.
  destruct level; [exists [32]|exists []]; (split; [done|]); repeat (apply Forall_cons_2; [done|]); apply Forall_nil_2.
Qed.

Lemma convertTo_double_value z w : convertTo_double z = Ok w -> w = z.
Proof. unfold convertTo_double. destruct (_ && _) eqn:E; [|done]. intros [= <-]. lia. Qed.

(** The values that have a JSON text: string keys, all different, and doubles whose text is a number
    with a fraction or an exponent that converts back to them. *)
Fixpoint json_value (m : nat) (d : dynamic) : Prop :=
  match m with
  | O => False
  | S m =>
      match d with
      | NULLT | BOOL _ => True
      | DOUBLE x => float_text (double_text x) /\ to_double (double_text x) = Some x
      | INT64 z => is_i64 z
      | STRING s => Forall is_byte s
      | ARRAY l => Forall (json_value m) l
      | OBJECT items =>
          Forall (fun item => isString item.1 = true /\ json_value m item.1 /\ json_value m item.2) items /\
          NoDup items.*1
      end
  end.

Section Print.
Context (sopts : serialization_opts) (iterate_items sort_items : list (dynamic * dynamic) -> list (dynamic * dynamic)).
Context (Hopts : valid_opts sopts) (Hskip : skip_invalid_utf8 sopts = false).
Context (Hiter : forall l, iterate_items l ≡ₚ l) (Hsort : forall l, sort_items l ≡ₚ l).

Definition order (items : list (dynamic * dynamic)) : list (dynamic * dynamic) :=
  if sort_keys sopts then sort_items (iterate_items items) else iterate_items items.

(** The value with the items of its objects in the order they are printed. *)
Fixpoint reorder (m : nat) (d : dynamic) : dynamic :=
  match m with
  | O => d
  | S m =>
      match d with
      | ARRAY l => ARRAY (reorder m <$> l)
      | OBJECT items => OBJECT (prod_map id (reorder m) <$> order items)
      | _ => d
      end
  end.

Lemma order_perm items : order items ≡ₚ items.
Proof. unfold order. destruct (sort_keys sopts); [by rewrite Hsort, Hiter|apply Hiter]. Qed.

Lemma writes_put_int m z : is_i64 z -> writes (put_int z) (reads_value (S m) (INT64 z)).
Proof.
  intros Hz out out'. unfold put_int. destruct (toAppend_text z out Hz) as (n & Hn & -> & _).
  intros [= <-]. eexists. split; [done|]. by apply reads_value_int.
Qed.

Lemma writes_put_string m s : Forall is_byte s -> writes (put_string sopts s) (reads_value (S m) (STRING s)).
Proof.
  intros Hs out out'. unfold put_string. rewrite escapeString_ref by done.
  destruct (escape_ref (length s) sopts s) as [body|] eqn:He; [|done]. intros [= <-].
  eexists. split; [done|]. apply reads_value_string. by eapply reads_string_escape.
Qed.

(** The printer of the values inside, on those at most [m] deep. *)
Section Inside.
Context (pr : option Z -> dynamic -> writer) (m : nat).
Context (Hpr : forall level d, json_value m d -> writes (pr level d) (reads_value m (reorder m d))).

Lemma writes_array_rest level l :
  Forall (json_value m) l ->
  writes (array_rest pr sopts level l) (fun t =>
    (l = [] /\ t = []) \/
    exists tt, t = 44 :: newline_text sopts level ++ tt /\ array_text m (newline_text sopts level) (reorder m <$> l) tt).
Proof.
  induction 1 as [|d l Hd Hl IH]; cbn [array_rest]; [apply writes_put; by left|].
  apply writes_put_seq, writes_put_seq. eapply writes_seq; [by apply Hpr|]. intros t1 H1.
  eapply writes_mono; [exact IH|]. intros t2 [[-> ->]|(tt & -> & H2)]; right; eexists; (split; [done|]).
  - rewrite app_nil_r. by apply array_one.
  - by apply array_more.
Qed.

Lemma writes_printArray level l :
  Forall (json_value m) l -> writes (printArray pr sopts level l) (reads_value (S m) (ARRAY (reorder m <$> l))).
Proof.
  intros Hl. destruct Hl as [|d l Hd Hl]; cbn [printArray]; [apply writes_put, reads_value_empty_array|].
  set (ws := newline_text sopts (indent level)). set (ws' := newline_text sopts level).
  apply writes_put_seq, writes_put_seq. eapply writes_seq; [by apply Hpr|]. intros t1 H1.
  eapply writes_seq; [by apply writes_array_rest|]. intros t2 H2. apply writes_put_seq, writes_put.
  fold ws ws' in H2 |- *. cbn [fmap list_fmap].
  replace ([91] ++ ws ++ t1 ++ t2 ++ ws' ++ [93]) with ([91] ++ ws ++ (t1 ++ t2) ++ ws' ++ [93])
    by (by rewrite <- app_assoc).
  apply reads_value_array; [apply newline_blanks..|].
  destruct H2 as [[-> ->]|(tt & -> & H2)]; [rewrite app_nil_r; by apply array_one|by apply array_more].
Qed.

(** An item whose key is a string. *)
Definition json_item (item : dynamic * dynamic) : Prop :=
  isString item.1 = true /\ json_value m item.1 /\ json_value m item.2.

Lemma writes_printKV level o item cs :
  json_item item -> colon_text level = 58 :: cs ->
  writes (printKV pr sopts level o item) (item_text m cs (prod_map id (reorder m) item)).
Proof.
  destruct item as [k v]. intros (Hs & Hk & Hv) Hcs. cbn [fst snd] in *. destruct k as [| | | | | |s]; try done.
  unfold printKV, printKey. cbn [fst snd isString negb]. rewrite andb_false_r.
  eapply writes_seq; [by apply Hpr|]. intros tk Htk. unfold mapColon. rewrite Hcs. apply writes_put_seq.
  eapply writes_mono; [by apply Hpr|]. intros tv Htv. exists s, tk, tv. cbn [prod_map fst snd id]. split_and!; try done.
  destruct m; [done|exact Htk].
Qed.

Lemma writes_pairs_rest level o l cs :
  Forall json_item l -> colon_text level = 58 :: cs ->
  writes (pairs_rest pr sopts level o l) (fun t =>
    (l = [] /\ t = []) \/
    exists tt, t = 44 :: newline_text sopts level ++ tt /\
      object_text m cs (newline_text sopts level) (prod_map id (reorder m) <$> l) tt).
Proof.
  intros Hl Hcs. induction Hl as [|d l Hd Hl IH]; cbn [pairs_rest]; [apply writes_put; by left|].
  apply writes_put_seq, writes_put_seq. eapply writes_seq; [by apply writes_printKV|]. intros t1 H1.
  eapply writes_mono; [exact IH|]. intros t2 [[-> ->]|(tt & -> & H2)]; right; eexists; (split; [done|]).
  - rewrite app_nil_r. by apply object_one.
  - by apply object_more.
Qed.

Lemma reorder_keys (l : list (dynamic * dynamic)) : (prod_map id (reorder m) <$> l).*1 = l.*1.
Proof. induction l as [|[k v] l IH]; [done|]. cbn. by f_equal. Qed.

Lemma writes_printObject level o :
  Forall json_item o -> NoDup o.*1 ->
  writes (printObject iterate_items sort_items pr sopts level o) (reads_value (S m) (OBJECT (prod_map id (reorder m) <$> order o))).
Proof.
  intros Ho Hnd. unfold printObject. fold (order o).
  assert (Forall json_item (order o)) as Hoo by (by rewrite order_perm).
  assert (NoDup (order o).*1) as Hndo by (by rewrite order_perm).
  destruct o as [|item0 o0].
  { assert (order [] = []) as ->; [|apply writes_put, reads_value_empty_object].
    apply Permutation_nil_r. apply order_perm. }
  assert (order (item0 :: o0) <> []) as Hne.
  { intros E. pose proof (order_perm (item0 :: o0)) as Hp. rewrite E in Hp. by apply Permutation_nil_cons in Hp. }
  destruct (order (item0 :: o0)) as [|item l] eqn:E; [done|]. cbn [printKVPairs]. clear E Hne.
  destruct (colon_text_blanks (indent level)) as (cs & Hcs & Hcb).
  set (ws := newline_text sopts (indent level)). set (ws' := newline_text sopts level).
  apply Forall_cons_1 in Hoo as [Hitem Hl].
  apply writes_put_seq, writes_put_seq. eapply writes_seq with (P := object_text m cs ws (prod_map id (reorder m) <$> item :: l)).
  - eapply writes_seq; [by apply writes_printKV|]. intros t1 H1.
    eapply writes_mono; [by apply writes_pairs_rest|].
    intros t2 [[-> ->]|(tt & -> & H2)]; [rewrite app_nil_r; by apply object_one|by apply object_more].
  - intros tt Htt. apply writes_put_seq, writes_put. fold ws ws'.
    apply (reads_value_object m cs); [done|apply newline_blanks..|by rewrite reorder_keys|done].
Qed.
End Inside.

Lemma writes_print n m level d :
  json_value m d -> writes (print iterate_items sort_items n sopts level d) (reads_value m (reorder m d)).
Proof.
  revert m level d. induction n as [|n IH]; intros m level d Hd; [by intros out out' ?|].
  destruct m as [|m]; [done|]. cbn [print reorder]. destruct d; cbn [json_value] in Hd.
  - apply writes_put, reads_value_null.
  - apply writes_printArray; [|done]. intros; by apply IH.
  - apply writes_put, reads_value_bool.
  - unfold print_double. destruct (_ && isnan d); [apply writes_throw|].
    destruct (_ && isinf d); [apply writes_throw|]. destruct Hd. apply writes_put. by apply reads_value_float.
  - unfold print_int. destruct (javascript_safe sopts); [|by apply writes_put_int].
    destruct (convertTo_double z) as [w|] eqn:E; [|apply writes_throw].
    apply convertTo_double_value in E as ->. by apply writes_put_int.
  - destruct Hd as [Hitems Hnd]. apply writes_printObject; [|done|done]. intros; by apply IH.
  - by apply writes_put_string.
Qed.
End Print.
End RoundTrip.

(** ** Values up to the order of their items *)

Section Same.
Context {D : DoubleOps} (sopts : serialization_opts).
Context (iterate_items sort_items : list (dynamic * dynamic) -> list (dynamic * dynamic)).
Context (Hiter : forall l, iterate_items l ≡ₚ l) (Hsort : forall l, sort_items l ≡ₚ l).

(** The same value, but for the order of the items of the objects. *)
Fixpoint same_value (m : nat) (a b : dynamic) : Prop :=
  match m with
  | O => a = b
  | S m =>
      match a, b with
      | ARRAY l, ARRAY l' => Forall2 (same_value m) l l'
      | OBJECT items, OBJECT items' =>
          exists items'', items'' ≡ₚ items /\
            Forall2 (fun x y => x.1 = y.1 /\ same_value m x.2 y.2) items'' items'
      | _, _ => a = b
      end
  end.

Lemma reorder_same m d : same_value m d (reorder sopts iterate_items sort_items m d).
Proof.
  revert d. induction m as [|m IH]; intros d; [done|]. destruct d; cbn [same_value reorder]; try done.
  - apply Forall2_fmap_r, Forall_Forall2_diag, Forall_forall. auto.
  - eexists. split; [by apply (order_perm sopts iterate_items sort_items)|].
    apply Forall2_fmap_r, Forall_Forall2_diag, Forall_forall. intros [k v] _. by split.
Qed.

Lemma reorder_id m d : sort_keys sopts = false -> (forall l, iterate_items l = l) -> json_value m d -> reorder sopts iterate_items sort_items m d = d.
Proof.
  intros Hs Hid. revert d. induction m as [|m IH]; intros d Hd; [done|].
  destruct d; cbn [json_value reorder] in *; try done; f_equal.
  - induction Hd as [|d l Hd Hl IHl]; [done|]. cbn. by rewrite IH, IHl.
  - unfold order. rewrite Hs, Hid. destruct Hd as [Hd _].
    induction Hd as [|[k v] l (_ & _ & Hd) Hl IHl]; [done|]. cbn. rewrite IHl. by rewrite IH.
Qed.
End Same.

(** ** The printer ends *)

Section Total.
Context {D : DoubleOps} (sopts popts : serialization_opts).
Context (iterate_items sort_items : list (dynamic * dynamic) -> list (dynamic * dynamic)).
Context (Hopts : valid_opts sopts) (Hiter : forall l, iterate_items l ≡ₚ l) (Hsort : forall l, sort_items l ≡ₚ l).

(** A writer that returns or throws, whatever the output so far. *)
Definition ends (f : writer) : Prop := forall out, exists r, f out = Some r.

Lemma ends_put t : ends (put t).
Proof. intros out. by eexists. Qed.

Lemma ends_throw e : ends (throw_print e).
Proof. intros out. by eexists. Qed.

Lemma ends_seq f g : ends f -> ends g -> ends (f >>> g).
Proof. intros Hf Hg out. unfold andThen. destruct (Hf out) as [[o|e] ->]; [apply Hg|by eexists]. Qed.

Lemma ends_put_int z : is_i64 z -> ends (put_int z).
Proof. intros Hz out. unfold put_int. destruct (toAppend_text z out Hz) as (n & _ & -> & _). by eexists. Qed.

Lemma ends_put_string s : Forall is_byte s -> ends (put_string sopts s).
Proof.
  intros Hs out. unfold put_string. rewrite escapeString_ref by done. destruct (escape_ref _ _ _); by eexists.
Qed.

Lemma depth_in_array d l : d ∈ l -> (depth d < depth (ARRAY l))%nat.
Proof.
  intros Hin. cbn [depth]. apply Nat.lt_succ_r. induction l as [|x l IH]; [by apply elem_of_nil in Hin|].
  apply elem_of_cons in Hin as [->|Hin]; [lia|]. specialize (IH Hin). lia.
Qed.

Lemma depth_in_object k v o : (k, v) ∈ o -> (depth k < depth (OBJECT o) /\ depth v < depth (OBJECT o))%nat.
Proof.
  intros Hin. cbn [depth]. rewrite !Nat.lt_succ_r. induction o as [|[k' v'] o IH]; [by apply elem_of_nil in Hin|].
  apply elem_of_cons in Hin as [[= -> ->]|Hin]; [lia|]. specialize (IH Hin). lia.
Qed.

Section Inside.
Context (pr : option Z -> dynamic -> writer) (P : dynamic -> Prop).
Context (Hpr : forall level d, P d -> ends (pr level d)).
Context (Hstr : forall d s, P d -> Forall is_byte s -> P (STRING s)).

Lemma ends_printArray level l : Forall P l -> ends (printArray pr sopts level l).
Proof.
  intros Hl. assert (ends (array_rest pr sopts (indent level) (tail l))) as Hrest.
  { assert (Forall P (tail l)) as Ht by (destruct Hl; [apply Forall_nil_2|done]).
    induction Ht; cbn [array_rest]; [apply ends_put|]. repeat first [apply ends_seq | apply ends_put | done | by apply Hpr]. }
  destruct Hl; cbn [printArray]; [apply ends_put|].
  repeat first [apply ends_seq | apply ends_put | done | by apply Hpr].
Qed.

Lemma ends_printKV level o item :
  P item.1 -> P item.2 -> (forall z, item.1 = INT64 z -> is_i64 z) -> ends (printKV pr sopts level o item).
Proof.
  destruct item as [k v]. cbn [fst snd]. intros Hk Hv Hz. apply ends_seq.
  - unfold printKey. cbn [fst]. destruct k as [| | | |z| |]; cbn [isString negb].
    5: { destruct (convert_int_keys sopts); [|destruct (negb _); [apply ends_throw|by apply Hpr]].
         destruct (toAppend_text z [] (Hz z eq_refl)) as (n & _ & -> & _). destruct (has_key _ _); [apply ends_throw|].
         apply Hpr, (Hstr _ _ Hk). rewrite app_nil_l. apply int_text_bytes. }
    all: destruct (_ && _); [apply ends_throw|by apply Hpr].
  - apply ends_seq; [apply ends_put|by apply Hpr].
Qed.

Lemma ends_printObject level o :
  Forall (fun item => P item.1 /\ P item.2 /\ (forall z, item.1 = INT64 z -> is_i64 z)) o ->
  ends (printObject iterate_items sort_items pr sopts level o).
Proof.
  intros Ho. destruct o as [|item0 o0]; [apply ends_put|]. unfold printObject. fold (order sopts iterate_items sort_items (item0 :: o0)).
  set (o := item0 :: o0) in *. pose proof (order_perm sopts iterate_items sort_items Hiter Hsort o) as Hp.
  assert (Forall (fun item => P item.1 /\ P item.2 /\ (forall z, item.1 = INT64 z -> is_i64 z)) (order sopts iterate_items sort_items o))
    as Hoo by (by rewrite Hp).
  destruct (order sopts iterate_items sort_items o) as [|item l]; [by apply Permutation_nil_cons in Hp|].
  assert (ends (pairs_rest pr sopts (indent level) o l)) as Hrest.
  { apply Forall_cons_1 in Hoo as [_ Hl]. clear Hp. generalize dependent o. intros o _.
    induction Hl as [|item' l (? & ? & ?) Hl IH]; cbn [pairs_rest]; [apply ends_put|].
    repeat first [done | by apply ends_printKV | apply ends_put | apply ends_seq]. }
  apply Forall_cons_1 in Hoo as [(? & ? & ?) _]. cbn [printKVPairs].
  repeat first [done | by apply ends_printKV | apply ends_put | apply ends_seq].
Qed.
End Inside.

Lemma ends_print k n level d :
  (depth d <= k)%nat -> wf popts n d -> ends (print iterate_items sort_items k sopts level d).
Proof.
  revert n level d. induction k as [|k IH]; intros n level d Hk Hd; [destruct d; cbn in Hk; lia|].
  destruct n as [|n]; [done|].
  assert (forall level d, (depth d <= k)%nat /\ wf popts n d -> ends (print iterate_items sort_items k sopts level d)) as Hpr
    by (intros l d' [? ?]; by eapply IH).
  cbn [print]. destruct d; cbn [wf] in Hd.
  - apply ends_put.
  - eapply (ends_printArray _ _ Hpr), Forall_forall. intros d Hin. pose proof (depth_in_array _ _ Hin).
    split; [lia|]. by apply (proj1 (Forall_forall _ _) Hd).
  - apply ends_put.
  - unfold print_double. destruct (_ && isnan d); [apply ends_throw|].
    destruct (_ && isinf d); [apply ends_throw|apply ends_put].
  - unfold print_int. destruct (javascript_safe sopts); [|by apply ends_put_int].
    destruct (convertTo_double z) as [w|] eqn:E; [|apply ends_throw].
    apply convertTo_double_value in E as ->. by apply ends_put_int.
  - destruct Hd as (Hitems & _ & _). eapply (ends_printObject _ _ Hpr).
    + intros d s [Hdk Hdw] Hs. destruct n; [done|]. split; [|done]. destruct d; cbn in Hdk |- *; lia.
    + apply Forall_forall. intros [key v] Hin. pose proof (depth_in_object _ _ _ Hin).
      destruct (proj1 (Forall_forall _ _) Hitems _ Hin) as [Hkey Hv]. cbn [fst snd] in *. split_and!; try done; try lia.
      intros z ->. by destruct n.
  - by apply ends_put_string.
Qed.
End Total.

(** ** Main theorems *)

(** Reading back what [escapeString] writes gives the string it was given, byte for byte: for
    every combination of the options (extra characters escaped, other characters encoded as one or
    two [\u] escapes, UTF-8 validated or not) under which invalid UTF-8 is not replaced, and
    whatever text follows. *)
Theorem string_roundtrip opts s text r ln lv :
  valid_opts opts -> skip_invalid_utf8 opts = false -> Forall is_byte s -> is_u32 ln ->
  escapeString opts s [] = Some (Ok text) ->
  parseString (mkInput (text ++ r) ln lv) = Some (mkInput r ln lv, Ok s).
Proof.
  intros Hopts Hskip Hs Hln. rewrite escapeString_ref by done.
  destruct (escape_ref (length s) opts s) as [body|] eqn:He; [|done]. intros [= <-].
  apply reads_string_escape in He; [|done..]. unfold parseString. cbn [app]. rewrite M_bind_unfold, advance1_cons.
  rewrite M_bind_unfold. unfold size. cbn [range_]. rewrite <- app_assoc.
  destruct (He (length (body ++ [34] ++ r)) [] ([34] ++ r) ln lv Hln) as (m & _ & ->);
    [rewrite length_app; lia|]. cbn [app]. by apply string_loop_end.
Qed.

(** A quote, a line feed, a letter to escape and a character above the basic plane. *)
Definition sample_string : list Z := [34; 10; 60; 0xF0; 0x9F; 0x98; 0x80].

Lemma string_roundtrip_witness : exists text,
  escapeString html_opts sample_string [] = Some (Ok text) /\
  parseString (mkInput (text ++ [44]) 7 1) = Some (mkInput [44] 7 1, Ok sample_string).
Proof.
  assert (exists text, escapeString html_opts sample_string [] = Some (Ok text)) as [text E]
    by (eexists; vm_compute; reflexivity).
  exists text. split; [exact E|].
  apply (string_roundtrip html_opts sample_string text [44] 7 1).
  - split; vm_compute; split; congruence.
  - reflexivity.
  - repeat (apply Forall_cons_2; [unfold is_uint; lia|]); apply Forall_nil_2.
  - unfold is_uint. lia.
  - exact E.
Defined.

(** Serialization always ends, with a text or an exception, on every value made of 64-bit
    integers and byte strings, for all options and whatever order the items of the objects are
    sorted in: the nesting of the value is enough fuel for the printer. *)
Theorem serialize_total {D : DoubleOps} opts popts iterate_items sort_items n d :
  valid_opts opts -> (forall l, iterate_items l ≡ₚ l) -> (forall l, sort_items l ≡ₚ l) -> wf popts n d ->
  exists r, serialize iterate_items sort_items opts d = Some r.
Proof. intros Hopts Hiter Hsort Hd. unfold serialize. by eapply ends_print. Qed.

(** (C14) Parsing what the printer wrote gives the value back.  For a value whose objects have
    distinct string keys, whose strings are bytes and integers 64-bit, and whose doubles have a text
    that is a JSON number and converts back to them, whenever serialization without
    [skip_invalid_utf8] succeeds, compact or pretty, sorted or not, with a text of less than 4 GiB,
    parsing that text with options that keep numbers numbers ([parse_numbers_as_strings] and
    [double_fallback] off) and a recursion limit that allows the nesting returns the same value, up to
    the order of the items of the objects, in whichever order the objects are iterated; and with the
    items in the same order where keys are not sorted and objects are iterated in the order of
    insertion. *)
Theorem json_roundtrip {D : DoubleOps} sopts popts iterate_items sort_items m d text :
  valid_opts sopts -> skip_invalid_utf8 sopts = false ->
  (forall l, iterate_items l ≡ₚ l) -> (forall l, sort_items l ≡ₚ l) ->
  parse_numbers_as_strings popts = false -> double_fallback popts = false ->
  0 <= recursion_limit popts < 2 ^ 32 - 1 -> Z.of_nat m <= recursion_limit popts + 1 ->
  json_value m d -> serialize iterate_items sort_items sopts d = Some (Ok text) -> Z.of_nat (length text) < 2 ^ 32 ->
  exists d', parseJson popts text = Some (Ok d') /\ same_value m d d' /\
    (sort_keys sopts = false -> (forall l, iterate_items l = l) -> d' = d).
Proof.
  intros Hopts Hskip Hiter Hsort Hnum Hfall Hlim Hm Hd Hser Hlen.
  exists (reorder sopts iterate_items sort_items m d). split; [|split; [by apply reorder_same|intros; by apply reorder_id]].
  destruct (writes_print popts Hlim Hnum Hfall sopts iterate_items sort_items Hopts Hskip Hiter Hsort _ m _ d Hd _ _ Hser)
    as (t & -> & [_ Hread]). rewrite app_nil_l in *.
  destruct (Hread (S (length t)) [] 0 0) as (i & Ei & Hrest); rewrite ?app_nil_r; try done; try lia;
    try (unfold depth_left; lia).
  rewrite app_nil_r in Ei. unfold parseJson, parse_all. rewrite M_bind_unfold, Ei.
  destruct (at_rest_skip _ _ _ Hrest) as (ln & Hln & Es); [done|]. rewrite M_bind_unfold, Es. done.
Qed.

#[local] Existing Instance text_double.

Definition sample_value : dynamic :=
  OBJECT [(STRING [98], ARRAY [INT64 (-5); BOOL true; OBJECT []]); (STRING [97], DOUBLE (bytes_of "-1.5e+3"))].

(** An iteration that does not start with the first item. *)
Definition rotate_items {A} (l : list A) : list A := drop 1 l ++ take 1 l.

Lemma rotate_items_perm {A} (l : list A) : rotate_items l ≡ₚ l.
Proof. unfold rotate_items. by rewrite Permutation_app_comm, take_drop. Qed.

Lemma sample_json_value : json_value 3 sample_value.
Proof.
  split.
  - apply Forall_cons_2; [|apply Forall_cons_2; [|apply Forall_nil_2]]; (split; [reflexivity|split]).
    + apply Forall_cons_2; [unfold is_uint; lia|apply Forall_nil_2].
    + apply Forall_cons_2; [cbn; unfold is_sint; lia|]. apply Forall_cons_2; [exact I|].
      apply Forall_cons_2; [split; [apply Forall_nil_2|apply NoDup_nil_2]|apply Forall_nil_2].
    + apply Forall_cons_2; [unfold is_uint; lia|apply Forall_nil_2].
    + split; [|reflexivity]. exists true, [49], [46; 53], (bytes_of "e+3").
      assert (forall d, isdigit d = true -> all_digits [d]) as Hd by (intros; by apply Forall_cons_2; [|apply Forall_nil_2]).
      split; [reflexivity|]. split; [by apply Hd|]. split; [done|]. split.
      { right. exists [53]. split; [reflexivity|by apply Hd]. }
      split; [|by left]. right. exists 101, [43], [51].
      split; [reflexivity|]. split; [by left|]. split; [by right; left|by apply Hd].
  - apply NoDup_cons_2; [|apply NoDup_singleton]. cbn. intros H. apply list_elem_of_singleton in H. discriminate H.
Qed.

Lemma serialize_total_witness :
  wf default_opts 3 sample_value /\ exists r, serialize rotate_items (@reverse _) html_opts sample_value = Some r.
Proof.
  assert (wf default_opts 3 sample_value) as Hw.
  { cbn. split_and!; try done; repeat constructor; unfold is_uint, is_sint; try lia. }
  split; [exact Hw|]. apply (serialize_total html_opts default_opts rotate_items (@reverse _) 3 sample_value).
  - split; vm_compute; split; congruence.
  - apply rotate_items_perm.
  - intros l. apply reverse_Permutation.
  - exact Hw.
Defined.

Lemma json_roundtrip_witness : exists text d',
  serialize rotate_items (@reverse _) with_pretty_sorted_keys sample_value = Some (Ok text) /\
  parseJson default_opts text = Some (Ok d') /\ same_value 3 sample_value d'.
Proof.
  assert (exists text, serialize rotate_items (@reverse _) with_pretty_sorted_keys sample_value = Some (Ok text) /\
    Z.of_nat (length text) < 2 ^ 32) as (text & E & Hlen)
    by (eexists; split; [vm_compute; reflexivity|vm_compute; reflexivity]).
  exists text.
  destruct (json_roundtrip with_pretty_sorted_keys default_opts rotate_items (@reverse _) 3 sample_value text) as (d' & Hp & Hs & _).
  - split; vm_compute; split; congruence.
  - reflexivity.
  - apply rotate_items_perm.
  - intros l. apply reverse_Permutation.
  - reflexivity.
  - reflexivity.
  - vm_compute. split; congruence.
  - vm_compute. congruence.
  - exact sample_json_value.
  - exact E.
  - exact Hlen.
  - exists d'. split; [exact E|split; [exact Hp|exact Hs]].
Defined.

(** *** Comments *)

Lemma strip_loop_lines state s r : strip_loop state s = Ok r -> count_newlines r = count_newlines s.
Proof.
  assert (forall c s, c <> 10 -> count_newlines (c :: s) = count_newlines s) as Hc by (intros; by apply count_newlines_cons).
  assert (forall c s r, count_newlines s = count_newlines r -> count_newlines (c :: s) = count_newlines (c :: r)) as Hcong.
  { intros c s' r' E. unfold count_newlines in *. rewrite !filter_cons. destruct (decide (c = 10)); cbn [length]; lia. }
  revert state r. induction s as [s IH] using (induction_ltof1 _ (@length Z)). unfold ltof in IH.
  intros state r. destruct s as [|c s]; cbn [strip_loop]; [by intros [= <-]|].
  assert (forall st r, prepend [c] (strip_loop st s) = Ok r -> count_newlines r = count_newlines (c :: s)) as Hkeep.
  { intros st r' (r'' & E & ->)%prepend_ok. cbn [app]. apply Hcong. eapply IH; [|exact E]. cbn; lia. }
  destruct state.
  - destruct s as [|c' s]; [apply Hkeep|].
    destruct (Z.eqb_spec c 47), (Z.eqb_spec c' 42), (Z.eqb_spec c' 47); cbn [andb]; try apply Hkeep; try lia.
    all: intros E; rewrite !Hc by lia; eapply IH; [|exact E]; cbn; lia.
  - destruct (Z.eqb_spec c 92); [|apply Hkeep]. destruct s as [|c' s]; [done|].
    intros (r'' & E & ->)%prepend_ok. cbn [app]. apply Hcong, Hcong. eapply IH; [|exact E]. cbn; lia.
  - destruct (Z.eqb_spec c 10); [apply Hkeep|]. rewrite Hc by done. destruct s as [|c' s].
    + by intros [= <-].
    + destruct (Z.eqb_spec c 42), (Z.eqb_spec c' 47); cbn [andb].
      { intros E. rewrite (Hc c') by lia. eapply IH; [|exact E]. cbn; lia. }
      all: intros E; eapply IH; [|exact E]; cbn; lia.
  - destruct (Z.eqb_spec c 10); [apply Hkeep|]. rewrite Hc by done. intros E. eapply IH; [|exact E]. cbn; lia.
Qed.

(** The state in which the text kept is read again. *)
Definition text_state (state : StripState) : StripState := match state with InString => InString | _ => None_ end.

(** A slash that is kept is not followed by what would make it open a comment. *)
Lemma strip_loop_none_head c s r :
  c <> 42 -> c <> 47 -> strip_loop None_ (c :: s) = Ok r -> exists r', r = c :: r'.
Proof.
  intros H1 H2. cbn [strip_loop]. rewrite (proj2 (Z.eqb_neq c 47)) by done. cbn [andb].
  destruct s; intros (r' & _ & ->)%prepend_ok; by exists r'.
Qed.

Lemma strip_loop_keep c r :
  (c = 47 -> match r with c' :: _ => c' <> 42 /\ c' <> 47 | [] => True end) ->
  strip_loop (if c =? 34 then InString else None_) r = Ok r -> strip_loop None_ (c :: r) = Ok (c :: r).
Proof.
  intros Hc Hr. cbn [strip_loop]. rewrite Hr. cbn [prepend app]. destruct r as [|c' r]; [done|].
  destruct (Z.eqb_spec c 47) as [->|]; [|done]. specialize (Hc eq_refl).
  by rewrite (proj2 (Z.eqb_neq c' 42)), (proj2 (Z.eqb_neq c' 47)) by tauto.
Qed.

Lemma strip_loop_idemp state s r : strip_loop state s = Ok r -> strip_loop (text_state state) r = Ok r.
Proof.
  revert state r. induction s as [s IH] using (induction_ltof1 _ (@length Z)). unfold ltof in IH.
  intros state r. destruct s as [|c s]; cbn [strip_loop]; [intros [= <-]; by destruct state|].
  assert (forall st r, strip_loop st s = Ok r -> strip_loop (text_state st) r = Ok r) as IHs
    by (intros st r'; apply IH; cbn; lia).
  destruct state; cbn [text_state].
  - assert ((c = 47 -> match s with c' :: _ => c' <> 42 /\ c' <> 47 | [] => True end) ->
      prepend [c] (strip_loop (if c =? 34 then InString else None_) s) = Ok r -> strip_loop None_ r = Ok r) as Hkeep.
    { intros Hs (r' & E & ->)%prepend_ok. cbn [app]. apply strip_loop_keep.
      - intros ->. specialize (Hs eq_refl). cbn [Z.eqb Pos.eqb] in E. destruct s as [|c' s]; [by injection E as <-|].
        apply strip_loop_none_head in E as [r'' ->]; tauto.
      - apply IHs in E. by destruct (c =? 34). }
    destruct s as [|c' s]; [by apply Hkeep|].
    destruct (Z.eqb_spec c 47), (Z.eqb_spec c' 42), (Z.eqb_spec c' 47); cbn [andb]; try (apply Hkeep; lia).
    all: intros E; apply (IH s) in E; [done|cbn; lia].
  - destruct (Z.eqb_spec c 92) as [->|].
    + destruct s as [|c' s]; [done|]. intros (r' & E & ->)%prepend_ok. cbn [app strip_loop Z.eqb Pos.eqb].
      apply (IH s) in E; [|cbn; lia]. cbn [text_state] in E. by rewrite E.
    + intros (r' & E & ->)%prepend_ok. apply IHs in E. cbn [app strip_loop].
      rewrite (proj2 (Z.eqb_neq c 92)) by done. replace (text_state (if c =? 34 then None_ else InString))
        with (if c =? 34 then None_ else InString) in E by (by destruct (c =? 34)). by rewrite E.
  - destruct (Z.eqb_spec c 10) as [->|].
    { intros (r' & E & ->)%prepend_ok. apply IHs in E. by apply strip_loop_keep. }
    destruct s as [|c' s]; [apply IHs|].
    destruct (_ && _); [|apply IHs]. intros E. apply (IH s) in E; [done|cbn; lia].
  - destruct (Z.eqb_spec c 10) as [->|]; [|apply IHs].
    intros (r' & E & ->)%prepend_ok. apply IHs in E. by apply strip_loop_keep.
Qed.

(** Removing the comments of a text keeps its number of lines, so that the line numbers of
    later parse errors are those of the text with comments, and leaves nothing that could be taken
    for a comment: a second pass returns the text unchanged. *)
Theorem stripComments_spec s r :
  stripComments s = Ok r -> count_newlines r = count_newlines s /\ stripComments r = Ok r.
Proof. intros E. split; [by apply strip_loop_lines in E|by apply strip_loop_idemp in E]. Qed.

(** A comment between two slashes, a string with an escaped quote, and a comment over two lines. *)
Definition sample_comments : list Z :=
  bytes_of "[1/" ++ bytes_of "//a" ++ [10; 34; 92; 34; 47; 47; 34] ++ bytes_of "/* b" ++ [10] ++ bytes_of "*/,2]".

Lemma stripComments_spec_witness : exists r,
  stripComments sample_comments = Ok r /\ count_newlines r = 2 /\ stripComments r = Ok r.
Proof.
  assert (exists r, stripComments sample_comments = Ok r) as [r E] by (eexists; vm_compute; reflexivity).
  exists r. destruct (stripComments_spec sample_comments r E) as [Hl Hi].
  split; [exact E|split; [rewrite Hl; reflexivity|exact Hi]].
Defined.
