(* ===== verification/Sse.v ===== *)
(** SSE instructions: the intrinsics that the vector code of folly uses, on registers that are lists
    of 16 bytes, as the instruction set documents them. *)
From S2P Require Import Prelude.

Definition bytes16 (v : Z) : list Z := byte_at v <$> seq 0 2.

(** The 16-bit and 32-bit lanes of a register, and a register from its lanes. *)
Fixpoint lanes16 (r : list Z) : list Z :=
  match r with a :: b :: r => le_word [a; b] :: lanes16 r | _ => [] end.

Fixpoint lanes32 (r : list Z) : list Z :=
  match r with a :: b :: c :: d :: r => le_word [a; b; c; d] :: lanes32 r | _ => [] end.

Definition of_lanes16 (ws : list Z) : list Z := concat (bytes16 <$> ws).
Definition of_lanes32 (ws : list Z) : list Z := concat (bytes32 <$> ws).

(** The sums of the products of neighbours. *)
Fixpoint sum_pairs (l : list Z) : list Z :=
  match l with a :: b :: l => a + b :: sum_pairs l | _ => [] end.

Definition sat_i8 (x : Z) : Z := Z.max (-128) (Z.min 127 x).
Definition sat_i16 (x : Z) : Z := Z.max (-32768) (Z.min 32767 x).
Definition mask8 (b : bool) : Z := if b then 0xff else 0.

Definition mm_setzero_si128 : list Z := replicate 16 0.
Definition mm_set1_epi8 (x : Z) : list Z := replicate 16 (u8 x).
Definition mm_set1_epi16 (x : Z) : list Z := of_lanes16 (replicate 8 x).
Definition mm_set1_epi32 (x : Z) : list Z := of_lanes32 (replicate 4 x).
(** The arguments start at the highest byte. *)
Definition mm_set_epi8 (l : list Z) : list Z := reverse (u8 <$> l).

Definition mm_and_si128 : list Z -> list Z -> list Z := zip_with Z.land.
Definition mm_or_si128 : list Z -> list Z -> list Z := zip_with Z.lor.
Definition mm_add_epi8 : list Z -> list Z -> list Z := zip_with (fun x y => u8 (x + y)).
Definition mm_sub_epi8 : list Z -> list Z -> list Z := zip_with (fun x y => u8 (x - y)).
Definition mm_subs_epu8 : list Z -> list Z -> list Z := zip_with (fun x y => Z.max 0 (x - y)).
Definition mm_subs_epi8 : list Z -> list Z -> list Z :=
  zip_with (fun x y => u8 (sat_i8 (i8 x - i8 y))).
Definition mm_min_epu8 : list Z -> list Z -> list Z := zip_with Z.min.
Definition mm_cmpgt_epi8 : list Z -> list Z -> list Z := zip_with (fun x y => mask8 (i8 y <? i8 x)).
Definition mm_cmplt_epi8 : list Z -> list Z -> list Z := zip_with (fun x y => mask8 (i8 x <? i8 y)).
Definition mm_cmpeq_epi8 : list Z -> list Z -> list Z := zip_with (fun x y => mask8 (x =? y)).

(** The byte of [a] at each index of [b], or 0 where the top bit of the index is set. *)
Definition shuffle_byte (a : list Z) (i : Z) : Z :=
  if Z.testbit i 7 then 0 else default 0 (a !! Z.to_nat (i .& 0xf)).
Definition mm_shuffle_epi8 (a b : list Z) : list Z := shuffle_byte a <$> b.

Definition mm_mulhi_epu16 (a b : list Z) : list Z :=
  of_lanes16 (zip_with (fun x y => (x * y) .>> 16) (lanes16 a) (lanes16 b)).
Definition mm_mullo_epi16 (a b : list Z) : list Z :=
  of_lanes16 (zip_with (fun x y => u16 (x * y)) (lanes16 a) (lanes16 b)).
Definition mm_srli_epi32 (a : list Z) (n : Z) : list Z :=
  of_lanes32 ((fun x => x .>> n) <$> lanes32 a).
(** Unsigned bytes of [a] with signed bytes of [b]. *)
Definition mm_maddubs_epi16 (a b : list Z) : list Z :=
  of_lanes16 (sat_i16 <$> sum_pairs (zip_with (fun x y => x * i8 y) a b)).
Definition mm_madd_epi16 (a b : list Z) : list Z :=
  of_lanes32 (sum_pairs (zip_with (fun x y => swrap 16 x * swrap 16 y) (lanes16 a) (lanes16 b))).

(** One bit for each byte. *)
Fixpoint mm_movemask_epi8 (r : list Z) : Z :=
  match r with [] => 0 | b :: r => (b .>> 7) + 2 * mm_movemask_epi8 r end.

(** ** Operations with a constant register and on two images of a register *)

Lemma zip_set1 (f : Z -> Z -> Z) r c :
  length r = 16%nat -> zip_with f r (replicate 16 c) = (fun x => f x c) <$> r.
Proof. intros Hr. by rewrite zip_with_replicate_r_eq. Qed.

Lemma zip_fmap_both {A} (f : Z -> Z -> Z) (g h : A -> Z) (r : list A) :
  zip_with f (g <$> r) (h <$> r) = (fun x => f (g x) (h x)) <$> r.
Proof. induction r as [|x r IH]; [done|]. cbn. by rewrite IH. Qed.

Lemma zip_fmap_right (f : Z -> Z -> Z) (h : Z -> Z) (r : list Z) :
  zip_with f r (h <$> r) = (fun x => f x (h x)) <$> r.
Proof. induction r as [|x r IH]; [done|]. cbn. by rewrite IH. Qed.
