(* ===== verification/Base64.v ===== *)
(** Base64: the scalar and the SWAR implementation of [detail/base64_detail].

    Models [Base64Common.h] (sizes), [Base64Constants.h] and [Base64HiddenConstants.h] (alphabets,
    decode tables), [Base64Scalar.h] and [Base64SWAR.cpp].  The text between [f] and [l] is the list
    of its bytes; the pointer [o] is an index into the output buffer, and [None] is an access outside
    a buffer.  [encode_ref], [decode_ref] and [decodeURL_ref] define Base64 on numbers; the theorems
    about the operations say that they compute these functions and write inside buffers of the
    size the library allocates. *)
From S2P Require Import Prelude.

(** ** Sizes ([Base64Common.h])

    A [size_t] does not wrap here: a string has less than [2 ^ 63] bytes. *)

Definition base64EncodedSize (inSize : nat) : nat := (inSize + 2) / 3 * 4.

Definition base64URLEncodedSize (inSize : nat) : nat :=
  inSize / 3 * 4 + inSize mod 3 + (if 0 <? inSize mod 3 then 1 else 0)%nat.

(** The character [k] before the end of the text. *)
Definition from_end (s : list Z) (k : nat) : option Z :=
  if decide (k <= length s)%nat then s !! (length s - k)%nat else None.

Definition chr_eq : Z := 61.

Definition base64PaddingToSubtract (s : list Z) : option nat :=
  l1 ← from_end s 1;
  l2 ← from_end s 2;
  let isL_1Padding := l1 =? chr_eq in
  let isL_2Padding := l2 =? chr_eq in
  Some (Nat.b2n isL_1Padding + Nat.b2n (isL_1Padding && isL_2Padding))%nat.

Definition base64DecodedSize (s : list Z) : option nat :=
  let n := length s in
  if Nat.ltb n 4 then Some 0%nat
  else p ← base64PaddingToSubtract s; Some (n / 4 * 3 - p)%nat.

Definition base64URLDecodedSize (s : list Z) : option nat :=
  let n := length s in
  if Nat.ltb n 2 then Some 0%nat
  else
    let res := (n / 4 * 3)%nat in
    res ← (if Nat.eqb (n mod 4) 0 then p ← base64PaddingToSubtract s; Some (res - p)%nat
           else Some res);
    let extra := if Nat.ltb 0 (n mod 4) then (n mod 4 - 1)%nat else 0%nat in
    Some (res + extra)%nat.

(** ** Alphabets and tables ([Base64Constants.h], [Base64HiddenConstants.h]) *)

Definition kBase64Charset : list Z :=
  bytes_of "ABCDEFGHIJKLMNOPQRSTUVWXYZabcdefghijklmnopqrstuvwxyz0123456789+/".

Definition kBase64URLCharset : list Z :=
  bytes_of "ABCDEFGHIJKLMNOPQRSTUVWXYZabcdefghijklmnopqrstuvwxyz0123456789-_".

(** [char] is signed. *)
Definition kDecodeErrorMarker : Z := i8 0xff.

Definition base64DecodeRule (x : Z) : Z :=
  if (65 <=? x) && (x <=? 90) then i8 (x - 65)
  else if (97 <=? x) && (x <=? 122) then i8 (x - 97 + 26)
  else if (48 <=? x) && (x <=? 57) then i8 (x - 48 + 26 * 2)
  else if x =? 43 then 62
  else if x =? 47 then 63
  else kDecodeErrorMarker.

Definition base64URLDecodeRule (x : Z) : Z :=
  if x =? 45 then 62 else if x =? 95 then 63 else base64DecodeRule x.

Definition buildDecodeTable (decodeChar : Z -> Z) : list Z :=
  (fun i => decodeChar (i8 i)) <$> seqZ 0 256.

Definition kBase64DecodeTable : list Z := buildDecodeTable base64DecodeRule.
Definition kBase64URLDecodeTable : list Z := buildDecodeTable base64URLDecodeRule.

Definition kSwarDecodeErrorMarker : Z := 0xffffffff.

(** The four entries of a character, in the rows of the table. *)
Definition swar_entry (decodeChar : Z -> Z) (row : nat) (c : Z) : Z :=
  let decoded := decodeChar (i8 c) in
  if decoded =? kDecodeErrorMarker then kSwarDecodeErrorMarker
  else
    let d := u32 decoded in
    match row with
    | 0%nat => u32 (d .<< 2)
    | 1%nat => d .>> 4 .| (u32 (d .<< 12) .& 0xff00)
    | 2%nat => (u32 (d .<< 6) .& 0xff00) .| (u32 (d .<< 22) .& 0xff0000)
    | _ => u32 (d .<< 16)
    end.

Definition buildSWARDecodeTable (decodeChar : Z -> Z) : list (list Z) :=
  (fun row => swar_entry decodeChar row <$> seqZ 0 256) <$> seq 0 4.

Definition kBase64SwarDecodeTable (isURL : bool) : list (list Z) :=
  buildSWARDecodeTable (if isURL then base64URLDecodeRule else base64DecodeRule).

(** ** Output *)

(** The buffer and the position [o] in it. *)
Definition output : Type := list Z * nat.

(** [*o++ = x] for each [x] of the list. *)
Definition puts (st : output) (l : list Z) : option output :=
  buf ← write st.1 st.2 l; Some (buf, (st.2 + length l)%nat).

(** A store of the whole list at [o], then [o += n]. *)
Definition put_advance (st : output) (l : list Z) (n : nat) : option output :=
  buf ← write st.1 st.2 l; Some (buf, (st.2 + n)%nat).

(** ** Scalar implementation ([Base64Scalar.h]) *)

Definition atAsU8 (c : Z) : Z := u8 c.

Definition base64DecodePack4To3 (aaa bbb ccc ddd : Z) : list Z :=
  let aaab := u8 ((aaa .<< 2) .| (bbb .>> 4)) in
  let bbcc := u8 ((bbb .<< 4) .| (ccc .>> 2)) in
  let cddd := u8 ((ccc .<< 6) .| ddd) in
  [aaab; bbcc; cddd].

Definition kCharset (isURL : bool) : list Z :=
  if isURL then kBase64URLCharset else kBase64Charset.

Definition kDecodeTable (isURL : bool) : list Z :=
  if isURL then kBase64URLDecodeTable else kBase64DecodeTable.

(** [kCharset[i]] and [kDecodeTable[atAsU8(f, k)]], converted to [uint8_t]. *)
Definition charAt (isURL : bool) (i : Z) : option Z := load (kCharset isURL) (Z.to_nat i).

Definition decodeAt (isURL : bool) (c : Z) : option Z :=
  x ← load (kDecodeTable isURL) (Z.to_nat (atAsU8 c)); Some (u8 x).

Definition encodeTail (isURL : bool) (s : list Z) (st : output) : option output :=
  match s with
  | [] => Some st
  | aaab :: s' =>
      let aaa := u8 (aaab .>> 2) in
      x ← charAt isURL aaa;
      st ← puts st [x];
      match s' with
      | [] =>
          let b00 := u8 ((aaab .<< 4) .& 0x3f) in
          x ← charAt isURL b00;
          st ← puts st [x];
          if negb isURL then puts st [chr_eq; chr_eq] else Some st
      | bbcc :: _ =>
          let bbb := u8 (((aaab .<< 4) .| (bbcc .>> 4)) .& 0x3f) in
          let cc0 := u8 ((bbcc .<< 2) .& 0x3f) in
          x ← charAt isURL bbb;
          y ← charAt isURL cc0;
          st ← puts st [x; y];
          if negb isURL then puts st [chr_eq] else Some st
      end
  end.

Fixpoint encode (isURL : bool) (s : list Z) (st : output) : option output :=
  match s with
  | aaab :: bbcc :: cddd :: s' =>
      let aaa := u8 (aaab .>> 2) in
      let bbb := u8 (((aaab .<< 4) .| (bbcc .>> 4)) .& 0x3f) in
      let ccc := u8 (((bbcc .<< 2) .| (cddd .>> 6)) .& 0x3f) in
      let ddd := u8 (cddd .& 0x3f) in
      w ← charAt isURL aaa;
      x ← charAt isURL bbb;
      y ← charAt isURL ccc;
      z ← charAt isURL ddd;
      st ← puts st [w; x; y; z];
      encode isURL s' st
  | _ => encodeTail isURL s st
  end.

(** The result has [f], [o] and the error accumulator. *)
Fixpoint decodeMainLoop (isURL : bool) (s : list Z) (fullSteps : nat) (st : output)
    (errorAccumulator : Z) {struct fullSteps} : option (list Z * output * Z) :=
  match fullSteps with
  | O => Some (s, st, errorAccumulator)
  | S fullSteps =>
      match s with
      | f0 :: f1 :: f2 :: f3 :: s =>
          aaa ← decodeAt isURL f0;
          bbb ← decodeAt isURL f1;
          ccc ← decodeAt isURL f2;
          ddd ← decodeAt isURL f3;
          let errorAccumulator := errorAccumulator .| (aaa .| bbb .| ccc .| ddd) in
          st ← puts st (base64DecodePack4To3 aaa bbb ccc ddd);
          decodeMainLoop isURL s fullSteps st errorAccumulator
      | _ => None
      end
  end.

Definition base64EncodeScalar : list Z -> output -> option output := encode false.
Definition base64URLEncodeScalar : list Z -> output -> option output := encode true.

Definition base64DecodeTailScalar (s : list Z) (st : output) (errorAccumulator : Z) :
    option (output * Z) :=
  match s with
  | f0 :: f1 :: f2 :: f3 :: _ =>
      aaa ← decodeAt false f0;
      bbb ← decodeAt false f1;
      st ← puts st [u8 ((aaa .<< 2) .| (bbb .>> 4))];
      let errorAccumulator := errorAccumulator .| (aaa .| bbb) in
      if (f2 =? chr_eq) && (f3 =? chr_eq) then
        Some (st, if negb (bbb .& 0xf =? 0) then u8 kDecodeErrorMarker else errorAccumulator)
      else
        ccc ← decodeAt false f2;
        st ← puts st [u8 ((bbb .<< 4) .| (ccc .>> 2))];
        let errorAccumulator := errorAccumulator .| ccc in
        if f3 =? chr_eq then
          Some (st, if negb (ccc .& 0x3 =? 0) then u8 kDecodeErrorMarker else errorAccumulator)
        else
          ddd ← decodeAt false f3;
          st ← puts st [u8 ((ccc .<< 6) .| ddd)];
          Some (st, errorAccumulator .| ddd)
  | _ => None
  end.

(** [Base64DecodeResult] is the success flag with [o]. *)
Definition base64DecodeScalar (s : list Z) (st : output) : option (bool * output) :=
  if Nat.eqb (length s) 0 then Some (true, st)
  else if negb (Nat.eqb (length s mod 4) 0) then Some (false, st)
  else
    let fullSteps := (length s / 4 - 1)%nat in
    '(s, st, errorAccumulator) ← decodeMainLoop false s fullSteps st 0;
    '(st, errorAccumulator) ← base64DecodeTailScalar s st errorAccumulator;
    Some (negb (errorAccumulator =? u8 kDecodeErrorMarker), st).

(** The text without its last character when that is ['=']. *)
Definition strip_one (s : list Z) : option (list Z) :=
  c ← from_end s 1;
  Some (if c =? chr_eq then take (length s - 1) s else s).

Definition base64URLDecodeStripValidPadding (s : list Z) : option (list Z) :=
  if negb (Nat.eqb (length s) 4) then Some s
  else s ← strip_one s; strip_one s.

Definition base64URLDecodeScalarLast4Bytes (s : list Z) (st : output) (errorAccumulator : Z) :
    option (output * Z) :=
  s ← base64URLDecodeStripValidPadding s;
  match s with
  | f0 :: f1 :: s =>
      aaa ← decodeAt true f0;
      bbb ← decodeAt true f1;
      st ← puts st [u8 ((aaa .<< 2) .| (bbb .>> 4))];
      let errorAccumulator := errorAccumulator .| (aaa .| bbb) in
      match s with
      | [] => Some (st, errorAccumulator)
      | f2 :: s =>
          ccc ← decodeAt true f2;
          st ← puts st [u8 ((bbb .<< 4) .| (ccc .>> 2))];
          let errorAccumulator := errorAccumulator .| ccc in
          match s with
          | [] => Some (st, errorAccumulator)
          | f3 :: _ =>
              ddd ← decodeAt true f3;
              st ← puts st [u8 ((ccc .<< 6) .| ddd)];
              Some (st, errorAccumulator .| ddd)
          end
      end
  | _ => None
  end.

Definition base64URLDecodeScalar (s : list Z) (st : output) : option (bool * output) :=
  if Nat.eqb (length s) 0 then Some (true, st)
  else
    let rem := (length s mod 4)%nat in
    let fullSteps := (length s / 4 - Nat.b2n (Nat.eqb rem 0))%nat in
    '(s, st, errorAccumulator) ← decodeMainLoop true s fullSteps st 0;
    if Nat.ltb (length s) 2 then Some (false, st)
    else
      '(st, errorAccumulator) ← base64URLDecodeScalarLast4Bytes s st errorAccumulator;
      Some (negb (errorAccumulator =? u8 kDecodeErrorMarker), st).

(** ** SWAR implementation ([Base64SWAR.cpp]) *)

(** [table[row][atAsU8(f, k)]]. *)
Definition swarAt (isURL : bool) (row : nat) (c : Z) : option Z :=
  table ← load (kBase64SwarDecodeTable isURL) row; load table (Z.to_nat (atAsU8 c)).

Definition base64DecodeTailSWAR (s : list Z) (st : output) (errorAccumulator : Z) :
    option (output * Z) :=
  match s with
  | f0 :: f1 :: f2 :: f3 :: _ =>
      aaa ← swarAt false 0 f0;
      bbb ← swarAt false 0 f1;
      st ← puts st [u8 (aaa .| (bbb .>> 6))];
      let errorAccumulator := errorAccumulator .| (aaa .| bbb) in
      if (f2 =? chr_eq) && (f3 =? chr_eq) then
        Some (st, if negb (bbb .& 0x3c =? 0) then kSwarDecodeErrorMarker else errorAccumulator)
      else
        ccc ← swarAt false 0 f2;
        st ← puts st [u8 (u32 (bbb .<< 2) .| (ccc .>> 4))];
        let errorAccumulator := errorAccumulator .| ccc in
        if f3 =? chr_eq then
          Some (st, if negb (ccc .& 0xc =? 0) then kSwarDecodeErrorMarker else errorAccumulator)
        else
          ddd ← swarAt false 0 f3;
          st ← puts st [u8 (u32 (ccc .<< 4) .| (ddd .>> 2))];
          Some (st, errorAccumulator .| ddd)
  | _ => None
  end.

Definition base64URLDecodeTailSWAR (s : list Z) (st : output) (errorAccumulator : Z) :
    option (output * Z) :=
  s ← base64URLDecodeStripValidPadding s;
  match s with
  | f0 :: f1 :: s =>
      aaa ← swarAt true 0 f0;
      bbb ← swarAt true 0 f1;
      st ← puts st [u8 (aaa .| (bbb .>> 6))];
      let errorAccumulator := errorAccumulator .| (aaa .| bbb) in
      match s with
      | [] => Some (st, errorAccumulator)
      | f2 :: s =>
          ccc ← swarAt true 0 f2;
          st ← puts st [u8 (u32 (bbb .<< 2) .| (ccc .>> 4))];
          let errorAccumulator := errorAccumulator .| ccc in
          match s with
          | [] => Some (st, errorAccumulator)
          | f3 :: _ =>
              ddd ← swarAt true 0 f3;
              st ← puts st [u8 (u32 (ccc .<< 4) .| (ddd .>> 2))];
              Some (st, errorAccumulator .| ddd)
          end
      end
  | _ => None
  end.

(** Reads while more than four characters are left. *)
Fixpoint base64DecodeSWARMainLoop (isURL : bool) (s : list Z) (st : output)
    (errorAccumulator : Z) : option (list Z * output * Z) :=
  match s with
  | f0 :: f1 :: f2 :: f3 :: ((_ :: _) as s) =>
      w ← swarAt isURL 0 f0;
      x ← swarAt isURL 1 f1;
      y ← swarAt isURL 2 f2;
      z ← swarAt isURL 3 f3;
      let r := w .| x .| y .| z in
      let errorAccumulator := errorAccumulator .| r in
      st ← put_advance st (bytes32 r) 3;
      base64DecodeSWARMainLoop isURL s st errorAccumulator
  | _ => Some (s, st, errorAccumulator)
  end.

Definition base64DecodeSWAR (s : list Z) (st : output) : option (bool * output) :=
  if Nat.eqb (length s) 0 then Some (true, st)
  else if negb (Nat.eqb (length s mod 4) 0) then Some (false, st)
  else
    '(s, st, errorAccumulator) ← base64DecodeSWARMainLoop false s st 0;
    '(st, errorAccumulator) ← base64DecodeTailSWAR s st errorAccumulator;
    Some (negb (errorAccumulator =? kSwarDecodeErrorMarker), st).

Definition base64URLDecodeSWAR (s : list Z) (st : output) : option (bool * output) :=
  if Nat.eqb (length s) 0 then Some (true, st)
  else if Nat.eqb (length s mod 4) 1 then Some (false, st)
  else
    '(s, st, errorAccumulator) ← base64DecodeSWARMainLoop true s st 0;
    '(st, errorAccumulator) ← base64URLDecodeTailSWAR s st errorAccumulator;
    Some (negb (errorAccumulator =? kSwarDecodeErrorMarker), st).

(** ** Base64 on numbers

    Three bytes are a number of 24 bits, which is four digits of six bits. *)

(** The character of a digit and the digit of a character.  The decoder of the URL alphabet takes
    the characters of both alphabets. *)
Definition symbol (isURL : bool) (d : Z) : Z := default 0 (kCharset isURL !! Z.to_nat d).

Definition digit (isURL : bool) (c : Z) : option Z :=
  let find l := (fun p : nat * Z => Z.of_nat p.1) <$> list_find (fun x => x = c) l in
  if isURL then
    match find kBase64URLCharset with Some d => Some d | None => find kBase64Charset end
  else find kBase64Charset.

Definition padding (isURL : bool) (n : nat) : list Z := if isURL then [] else replicate n chr_eq.

Fixpoint encode_ref (isURL : bool) (s : list Z) : list Z :=
  match s with
  | [] => []
  | [a] =>
      let n := a * 16 in
      [symbol isURL (n / 64); symbol isURL (n mod 64)] ++ padding isURL 2
  | [a; b] =>
      let n := a * 1024 + b * 4 in
      [symbol isURL (n / 4096); symbol isURL (n / 64 mod 64); symbol isURL (n mod 64)]
      ++ padding isURL 1
  | a :: b :: c :: s =>
      let n := a * 65536 + b * 256 + c in
      [symbol isURL (n / 262144); symbol isURL (n / 4096 mod 64);
       symbol isURL (n / 64 mod 64); symbol isURL (n mod 64)] ++ encode_ref isURL s
  end.

(** One, two and three bytes from two, three and four digits; [strict] refuses digits with bits
    that are not in a byte. *)
Definition decode2 (isURL strict : bool) (a b : Z) : option (list Z) :=
  a ← digit isURL a; b ← digit isURL b;
  let n := a * 64 + b in
  if strict && negb (n mod 16 =? 0) then None else Some [n / 16].

Definition decode3 (isURL strict : bool) (a b c : Z) : option (list Z) :=
  a ← digit isURL a; b ← digit isURL b; c ← digit isURL c;
  let n := a * 4096 + b * 64 + c in
  if strict && negb (n mod 4 =? 0) then None else Some [n / 1024; n / 4 mod 256].

Definition decode4 (isURL : bool) (a b c d : Z) : option (list Z) :=
  a ← digit isURL a; b ← digit isURL b; c ← digit isURL c; d ← digit isURL d;
  let n := a * 262144 + b * 4096 + c * 64 + d in
  Some [n / 65536; n / 256 mod 256; n mod 256].

(** The last four characters, which may be padded. *)
Definition decode_last (isURL strict : bool) (a b c d : Z) : option (list Z) :=
  if (c =? chr_eq) && (d =? chr_eq) then decode2 isURL strict a b
  else if d =? chr_eq then decode3 isURL strict a b c
  else decode4 isURL a b c d.

(** Standard Base64: padding is required and the unused bits are zero. *)
Fixpoint decode_ref (s : list Z) : option (list Z) :=
  match s with
  | [] => Some []
  | [a; b; c; d] => decode_last false true a b c d
  | a :: b :: c :: d :: s => x ← decode4 false a b c d; y ← decode_ref s; Some (x ++ y)
  | _ => None
  end.

(** Base64URL: padding is optional and the unused bits are ignored. *)
Fixpoint decodeURL_ref (s : list Z) : option (list Z) :=
  match s with
  | [] => Some []
  | [a; b] => decode2 true false a b
  | [a; b; c] => decode3 true false a b c
  | [a; b; c; d] => decode_last true false a b c d
  | a :: b :: c :: d :: s => x ← decode4 true a b c d; y ← decodeURL_ref s; Some (x ++ y)
  | _ => None
  end.

Abbreviation is_digit := (is_uint 6).

#[global] Arguments digit : simpl never.
#[global] Arguments symbol : simpl never.
#[global] Arguments decode2 : simpl never.
#[global] Arguments decode3 : simpl never.
#[global] Arguments decode4 : simpl never.
#[global] Arguments charAt : simpl never.
#[global] Arguments decodeAt : simpl never.
#[global] Arguments swarAt : simpl never.
#[global] Arguments puts : simpl never.
#[global] Arguments put_advance : simpl never.

Lemma digit_forall (P : Z -> bool) d :
  forallb P (seqZ 0 64) = true -> is_digit d -> P d = true.
Proof.
  intros H Hd. rewrite forallb_forall in H. apply H.
  apply list_elem_of_In, elem_of_seqZ. unfold is_uint in Hd. lia.
Qed.

Lemma digit2_forall (P : Z -> Z -> bool) a b :
  forallb (fun a => forallb (P a) (seqZ 0 64)) (seqZ 0 64) = true ->
  is_digit a -> is_digit b -> P a b = true.
Proof. intros H Ha Hb. eapply digit_forall in H; [|exact Ha]. by eapply digit_forall in H. Qed.

(** ** The reference decodes what it encodes *)

Lemma digit_range isURL c d : digit isURL c = Some d -> is_digit d.
Proof.
  assert (forall l, length l = 64%nat ->
    (fun p : nat * Z => Z.of_nat p.1) <$> list_find (fun x => x = c) l = Some d -> is_digit d) as H.
  { intros l Hl. destruct (list_find _ l) as [[i x]|] eqn:E; [|done]. intros [= <-].
    apply list_find_Some in E as [E%lookup_lt_Some _]. unfold is_uint. cbn [fst]. lia. }
  unfold digit. destruct isURL.
  - destruct (_ <$> list_find _ kBase64URLCharset) as [x|] eqn:E.
    + intros [= ->]. by apply (H kBase64URLCharset).
    + by apply H.
  - by apply H.
Qed.

(** Each decoder reads its own alphabet, and the URL decoder the other one too. *)
Lemma digit_symbol isURL fromURL d :
  implb fromURL isURL = true -> is_digit d -> digit isURL (symbol fromURL d) = Some d.
Proof.
  intros Hi Hd.
  apply (digit_forall (fun d => bool_decide (digit isURL (symbol fromURL d) = Some d))) in Hd.
  - by apply bool_decide_eq_true_1 in Hd.
  - destruct isURL, fromURL; by vm_compute.
Qed.

Lemma symbol_not_padding isURL d : is_digit d -> (symbol isURL d =? chr_eq) = false.
Proof.
  intros Hd. apply negb_true_iff.
  apply (digit_forall (fun d => negb (symbol isURL d =? chr_eq))); [|done].
  destruct isURL; by vm_compute.
Qed.

Lemma groups3_ind (P : list Z -> Prop) :
  P [] -> (forall a, P [a]) -> (forall a b, P [a; b]) ->
  (forall a b c s, P s -> P (a :: b :: c :: s)) -> forall s, P s.
Proof. intros H0 H1 H2 H3. fix IH 1. intros [|a [|b [|c s]]]; [done|done|done|]. apply H3, IH. Qed.

(** In front of more text or unpadded, a group is four digits. *)
Lemma decode_ref_group a b c d s :
  s <> [] \/ (d =? chr_eq) = false ->
  decode_ref (a :: b :: c :: d :: s) =
    (x ← decode4 false a b c d; y ← decode_ref s; Some (x ++ y)).
Proof.
  destruct s as [|e s]; [|done]. intros [?|Hd]; [congruence|]. cbn. unfold decode_last.
  rewrite Hd, andb_false_r. destruct (decode4 _ _ _ _ _); cbn; [|done]. by rewrite app_nil_r.
Qed.

Lemma decodeURL_ref_group a b c d s :
  s <> [] \/ (d =? chr_eq) = false ->
  decodeURL_ref (a :: b :: c :: d :: s) =
    (x ← decode4 true a b c d; y ← decodeURL_ref s; Some (x ++ y)).
Proof.
  destruct s as [|e s]; [|done]. intros [?|Hd]; [congruence|]. cbn. unfold decode_last.
  rewrite Hd, andb_false_r. destruct (decode4 _ _ _ _ _); cbn; [|done]. by rewrite app_nil_r.
Qed.

Lemma mod_64_digit n : is_digit (n mod 64).
Proof. apply Z.mod_pos_bound. lia. Qed.

Lemma div_digit n k : 0 < k -> 0 <= n < k * 64 -> is_digit (n / k).
Proof. intros. split; [apply Z.div_pos; lia | apply Z.div_lt_upper_bound; lia]. Qed.

Ltac solve_digit := first [apply mod_64_digit | apply div_digit; lia].

Ltac divlia := Z.to_euclidean_division_equations; lia.

Lemma decode2_encoded isURL fromURL strict a :
  implb fromURL isURL = true -> is_byte a ->
  let n := a * 16 in
  decode2 isURL strict (symbol fromURL (n / 64)) (symbol fromURL (n mod 64)) = Some [a].
Proof.
  unfold is_uint. intros Hi Ha. cbv zeta. unfold decode2. rewrite !digit_symbol by (done || solve_digit). cbn.
  replace (a * 16 / 64 * 64 + (a * 16) mod 64) with (a * 16) by divlia.
  rewrite Z.mod_mul, Z.div_mul, andb_false_r by lia. done.
Qed.

Lemma decode3_encoded isURL fromURL strict a b :
  implb fromURL isURL = true -> is_byte a -> is_byte b ->
  let n := a * 1024 + b * 4 in
  decode3 isURL strict (symbol fromURL (n / 4096)) (symbol fromURL (n / 64 mod 64))
    (symbol fromURL (n mod 64)) = Some [a; b].
Proof.
  unfold is_uint. intros Hi Ha Hb. cbv zeta. unfold decode3.
  rewrite !digit_symbol by (done || solve_digit). cbn.
  set (n := a * 1024 + b * 4).
  assert (n / 4096 * 4096 + n / 64 mod 64 * 64 + n mod 64 = n) as -> by divlia.
  assert (n mod 4 = 0) as -> by divlia. rewrite andb_false_r. do 2 f_equal; [divlia|f_equal; divlia].
Qed.

Lemma decode4_encoded isURL fromURL a b c :
  implb fromURL isURL = true -> is_byte a -> is_byte b -> is_byte c ->
  let n := a * 65536 + b * 256 + c in
  decode4 isURL (symbol fromURL (n / 262144)) (symbol fromURL (n / 4096 mod 64))
    (symbol fromURL (n / 64 mod 64)) (symbol fromURL (n mod 64)) = Some [a; b; c].
Proof.
  unfold is_uint. intros Hi Ha Hb Hc. cbv zeta. unfold decode4.
  rewrite !digit_symbol by (done || solve_digit). cbn.
  set (n := a * 65536 + b * 256 + c).
  assert (n / 262144 * 262144 + n / 4096 mod 64 * 4096 + n / 64 mod 64 * 64 + n mod 64 = n)
    as -> by divlia.
  do 2 f_equal; [divlia|]. f_equal; [divlia|]. f_equal; divlia.
Qed.

Lemma decode_encode_ref s : Forall is_byte s -> decode_ref (encode_ref false s) = Some s.
Proof.
  induction s as [|a|a b|a b c s IH] using groups3_ind; intros Hs; [done|..];
    rewrite ?Forall_cons in Hs; destruct_and?.
  - cbn -[Z.mul Z.div Z.modulo symbol]. by apply decode2_encoded.
  - cbn -[Z.mul Z.div Z.modulo symbol Z.add]. unfold decode_last.
    rewrite symbol_not_padding by solve_digit. by apply decode3_encoded.
  - change (encode_ref false (a :: b :: c :: s)) with
      (encode_ref false [a; b; c] ++ encode_ref false s).
    cbn [encode_ref app]. rewrite decode_ref_group by (right; apply symbol_not_padding; solve_digit).
    rewrite decode4_encoded, IH by done. done.
Qed.

Lemma decodeURL_encode_ref fromURL s :
  Forall is_byte s -> decodeURL_ref (encode_ref fromURL s) = Some s.
Proof.
  assert (implb fromURL true = true) as Hi by by destruct fromURL.
  induction s as [|a|a b|a b c s IH] using groups3_ind; intros Hs; [done|..];
    rewrite ?Forall_cons in Hs; destruct_and?.
  - cbn -[Z.mul Z.div Z.modulo symbol]. destruct fromURL; by apply decode2_encoded.
  - cbn -[Z.mul Z.div Z.modulo symbol Z.add]. destruct fromURL; cbn [padding replicate app].
    + by apply decode3_encoded.
    + unfold decode_last. rewrite symbol_not_padding by solve_digit. by apply decode3_encoded.
  - change (encode_ref fromURL (a :: b :: c :: s)) with
      (encode_ref fromURL [a; b; c] ++ encode_ref fromURL s).
    cbn [encode_ref app].
    rewrite decodeURL_ref_group by (right; apply symbol_not_padding; solve_digit).
    rewrite decode4_encoded, IH by done. done.
Qed.

(** ** Output *)

(** From [st], the code wrote [out] before [o] and kept what was before it; what follows [o] in the
    buffer is not specified. *)
Definition wrote (st : output) (out : list Z) (st' : output) : Prop :=
  st'.2 = (st.2 + length out)%nat /\ length st'.1 = length st.1 /\
  take st'.2 st'.1 = take st.2 st.1 ++ out.

(** There is room for [n] more bytes. *)
Definition room (st : output) (n : nat) : Prop := (st.2 + n <= length st.1)%nat.

Lemma wrote_nil st : wrote st [] st.
Proof. split_and!; cbn; [lia|done|by rewrite app_nil_r]. Qed.

Lemma wrote_trans st out st' out' st'' :
  wrote st out st' -> wrote st' out' st'' -> wrote st (out ++ out') st''.
Proof.
  intros (Ho & Hl & Ht) (Ho' & Hl' & Ht'). rewrite Ht in Ht'. split_and!.
  - rewrite length_app. lia.
  - lia.
  - by rewrite Ht', app_assoc.
Qed.

Lemma wrote_room st out st' n : wrote st out st' -> room st (length out + n) -> room st' n.
Proof. unfold room. intros (Ho & Hl & _) Hr. lia. Qed.

Lemma put_advance_spec st l n :
  room st (length l) -> (n <= length l)%nat ->
  exists st', put_advance st l n = Some st' /\ wrote st (take n l) st'.
Proof.
  unfold put_advance, room. intros Hr Hn. rewrite write_in_bounds by done. eexists. split; [done|].
  split_and!; cbn [fst snd].
  - rewrite length_take. lia.
  - rewrite !length_app, length_take, length_drop. lia.
  - rewrite take_app, length_take, (Nat.min_l st.2), take_take by lia.
    rewrite Nat.min_r, take_app_le by lia. by replace (st.2 + n - st.2)%nat with n by lia.
Qed.

Lemma puts_spec st l :
  room st (length l) -> exists st', puts st l = Some st' /\ wrote st l st'.
Proof.
  intros Hr. destruct (put_advance_spec st l (length l) Hr) as (st' & H & Hw); [done|].
  exists st'. by rewrite firstn_all in Hw.
Qed.

Lemma write_app (m : list Z) p l l' :
  write m p (l ++ l') = (m ← write m p l; write m (p + length l) l').
Proof.
  revert m p. induction l as [|v l IH]; intros m p; cbn [app write length].
  - by rewrite Nat.add_0_r.
  - destruct (store m p v) as [m'|]; cbn; [|done]. by rewrite IH, Nat.add_succ_r.
Qed.

Lemma puts_app st l l' : (st ← puts st l; puts st l') = puts st (l ++ l').
Proof.
  unfold puts. rewrite write_app. destruct (write st.1 st.2 l) as [m|]; cbn; [|done].
  rewrite length_app, Nat.add_assoc. done.
Qed.

Lemma puts_bind {B} st l l' (k : output -> option B) :
  (st ← puts st l; st ← puts st l'; k st) = (st ← puts st (l ++ l'); k st).
Proof. rewrite <- puts_app. by destruct (puts st l). Qed.

Lemma puts_ret st l : (st ← puts st l; Some st) = puts st l.
Proof. by destruct (puts st l). Qed.

Lemma puts_nil st : puts st [] = Some st.
Proof. unfold puts. cbn. rewrite Nat.add_0_r. by destruct st. Qed.

(** ** Encoding *)

Lemma charAt_symbol isURL d : is_digit d -> charAt isURL d = Some (symbol isURL d).
Proof.
  intros Hd.
  apply (digit_forall (fun d => bool_decide (charAt isURL d = Some (symbol isURL d)))) in Hd.
  - by apply bool_decide_eq_true_1 in Hd.
  - destruct isURL; by vm_compute.
Qed.

Lemma sextet_high a : is_byte a -> u8 (a .>> 2) = a / 4.
Proof.
  intros Ha. apply Z.eqb_eq.
  by apply (byte_forall (fun a => u8 (a .>> 2) =? a / 4)); [vm_compute|].
Qed.

Lemma sextet_low a : is_byte a -> u8 (a .& 0x3f) = a mod 64.
Proof.
  intros Ha. apply Z.eqb_eq.
  by apply (byte_forall (fun a => u8 (a .& 0x3f) =? a mod 64)); [vm_compute|].
Qed.

Lemma sextet_2 a b : is_byte a -> is_byte b ->
  u8 (((a .<< 4) .| (b .>> 4)) .& 0x3f) = a mod 4 * 16 + b / 16.
Proof.
  unfold is_uint. intros Ha Hb. rewrite shiftl_mul, shiftr_div by lia.
  rewrite (lor_disjoint_r (b / 2 ^ 4) a 4) by (unfold is_uint; divlia).
  rewrite (land_ones_mod _ 6) by lia. unfold wrap. divlia.
Qed.

Lemma sextet_3 a b : is_byte a -> is_byte b ->
  u8 (((a .<< 2) .| (b .>> 6)) .& 0x3f) = a mod 16 * 4 + b / 64.
Proof.
  unfold is_uint. intros Ha Hb. rewrite shiftl_mul, shiftr_div by lia.
  rewrite (lor_disjoint_r (b / 2 ^ 6) a 2) by (unfold is_uint; divlia).
  rewrite (land_ones_mod _ 6) by lia. unfold wrap. divlia.
Qed.

Lemma byte_0 : is_byte 0.
Proof. done. Qed.

Lemma sextet_2_last a : is_byte a -> u8 ((a .<< 4) .& 0x3f) = a mod 4 * 16.
Proof. intros Ha. pose proof (sextet_2 a 0 Ha byte_0) as H. rewrite Z.lor_0_r in H. by rewrite H, Z.add_0_r. Qed.

Lemma sextet_3_last a : is_byte a -> u8 ((a .<< 2) .& 0x3f) = a mod 16 * 4.
Proof. intros Ha. pose proof (sextet_3 a 0 Ha byte_0) as H. rewrite Z.lor_0_r in H. by rewrite H, Z.add_0_r. Qed.

(** The digits of the number that three bytes make. *)
Lemma digits_of_3 a b c :
  is_byte a -> is_byte b -> is_byte c ->
  let n := a * 65536 + b * 256 + c in
  [a / 4; a mod 4 * 16 + b / 16; b mod 16 * 4 + c / 64; c mod 64] =
  [n / 262144; n / 4096 mod 64; n / 64 mod 64; n mod 64].
Proof. unfold is_uint. intros. cbv zeta. do 3 (f_equal; [divlia|]). f_equal; divlia. Qed.

Lemma digits_of_3_range a b c :
  is_byte a -> is_byte b -> is_byte c ->
  is_digit (a / 4) /\ is_digit (a mod 4 * 16 + b / 16) /\
  is_digit (b mod 16 * 4 + c / 64) /\ is_digit (c mod 64).
Proof. unfold is_uint. intros. divlia. Qed.

(** The four characters of a group of three bytes. *)
Definition symbols3 (isURL : bool) (a b c : Z) : list Z :=
  symbol isURL <$> [a / 4; a mod 4 * 16 + b / 16; b mod 16 * 4 + c / 64; c mod 64].

Lemma encode_ref_cons3 isURL a b c s :
  is_byte a -> is_byte b -> is_byte c ->
  encode_ref isURL (a :: b :: c :: s) = symbols3 isURL a b c ++ encode_ref isURL s.
Proof. intros. unfold symbols3. by rewrite digits_of_3. Qed.

Lemma encode_ref_2 isURL a b :
  is_byte a -> is_byte b ->
  encode_ref isURL [a; b] = take 3 (symbols3 isURL a b 0) ++ padding isURL 1.
Proof.
  unfold is_uint. intros. cbn -[Z.mul Z.add Z.div Z.modulo]. set (n := a * 1024 + b * 4).
  assert (n / 4096 = a / 4) as -> by divlia.
  assert (n / 64 mod 64 = a mod 4 * 16 + b / 16) as -> by divlia.
  by assert (n mod 64 = b mod 16 * 4 + 0 / 64) as -> by divlia.
Qed.

Lemma encode_ref_1 isURL a :
  is_byte a -> encode_ref isURL [a] = take 2 (symbols3 isURL a 0 0) ++ padding isURL 2.
Proof.
  unfold is_uint. intros. cbn -[Z.mul Z.add Z.div Z.modulo].
  assert (a * 16 / 64 = a / 4) as -> by divlia.
  by assert ((a * 16) mod 64 = a mod 4 * 16 + 0 / 16) as -> by divlia.
Qed.

Lemma encodeTail_puts isURL s st :
  Forall is_byte s -> (length s <= 2)%nat -> encodeTail isURL s st = puts st (encode_ref isURL s).
Proof.
  intros Hs Hl. destruct s as [|a [|b [|c s]]]; [by rewrite puts_nil|..|cbn in Hl; lia];
    rewrite ?Forall_cons in Hs; destruct_and?; unfold encodeTail.
  - destruct (digits_of_3_range a 0 0) as (? & ? & _); [done..|].
    rewrite encode_ref_1, sextet_high, sextet_2_last by done.
    change (0 / 16) with 0 in *. rewrite Z.add_0_r in *. rewrite !charAt_symbol by done. cbn.
    rewrite Z.add_0_r.
    destruct isURL; cbn [negb]; by rewrite puts_bind, ?puts_app, ?puts_ret.
  - destruct (digits_of_3_range a b 0) as (? & ? & ? & _); [done..|].
    rewrite encode_ref_2, sextet_high, sextet_2, sextet_3_last by done.
    change (0 / 64) with 0 in *. rewrite Z.add_0_r in *. rewrite !charAt_symbol by done. cbn.
    rewrite Z.add_0_r.
    destruct isURL; cbn [negb]; by rewrite puts_bind, ?puts_app, ?puts_ret.
Qed.

Lemma encode_puts isURL s st :
  Forall is_byte s -> encode isURL s st = puts st (encode_ref isURL s).
Proof.
  revert st. induction s as [|a|a b|a b c s IH] using groups3_ind; intros st Hs;
    [by apply encodeTail_puts; cbn; auto with lia..|].
  rewrite !Forall_cons in Hs. destruct_and?.
  rewrite encode_ref_cons3, <- puts_app by done. cbn [encode].
  destruct (digits_of_3_range a b c) as (? & ? & ? & ?); [done..|].
  rewrite sextet_high, sextet_2, sextet_3, sextet_low, !charAt_symbol by done. cbn.
  destruct (puts _ _) as [st'|]; cbn; [|done]. by apply IH.
Qed.

Lemma encode_ref_length isURL s :
  length (encode_ref isURL s) =
    (if isURL then base64URLEncodedSize else base64EncodedSize) (length s).
Proof.
  assert (forall n, base64EncodedSize (3 + n) = 4 + base64EncodedSize n)%nat as H.
  { intros n. unfold base64EncodedSize. replace (3 + n + 2)%nat with (n + 2 + 1 * 3)%nat by lia.
    rewrite Nat.div_add by lia. lia. }
  assert (forall n, base64URLEncodedSize (3 + n) = 4 + base64URLEncodedSize n)%nat as H'.
  { intros n. unfold base64URLEncodedSize. replace (3 + n)%nat with (n + 1 * 3)%nat by lia.
    rewrite Nat.div_add, Nat.Div0.mod_add by lia. lia. }
  induction s as [|a|a b|a b c s IH] using groups3_ind; destruct isURL; try done;
    change (length (a :: b :: c :: s)) with (3 + length s)%nat; rewrite ?H, ?H', <- IH; done.
Qed.

(** ** Error accumulators *)

Definition is_some {A} (x : option A) : bool := match x with Some _ => true | None => false end.

(** A word of [w] bits is all ones after an error, and less than [2 ^ k] without one. *)
Definition status (w k e : Z) (ok : bool) : Prop :=
  if ok then is_uint k e else e = 2 ^ w - 1.

Lemma status_uint w k e ok : 0 <= k < w -> status w k e ok -> is_uint w e.
Proof.
  unfold status, is_uint. intros Hk. pose proof (Z.pow_lt_mono_r 2 k w). destruct ok; lia.
Qed.

Lemma lor_marker w e : 0 <= w -> is_uint w e -> e .| (2 ^ w - 1) = 2 ^ w - 1.
Proof.
  intros Hw He. assert (2 ^ w - 1 = Z.ones w) as -> by (rewrite Z.ones_equiv; lia).
  apply Z.bits_inj'. intros i Hi. rewrite Z.lor_spec. destruct (decide (i < w)).
  - by rewrite Z.ones_spec_low, orb_true_r by lia.
  - by rewrite (testbit_high e w), Z.ones_spec_high by (done || lia).
Qed.

Lemma status_lor w k e ok e' ok' :
  0 <= k < w -> status w k e ok -> status w k e' ok' -> status w k (e .| e') (ok && ok').
Proof.
  intros Hk He He'. pose proof (status_uint _ _ _ _ Hk He) as Hu.
  pose proof (status_uint _ _ _ _ Hk He') as Hu'. unfold status in *.
  destruct ok, ok'; cbn [andb].
  - apply lor_uint; [lia|done..].
  - subst e'. apply lor_marker; [lia|done].
  - subst e. rewrite Z.lor_comm. apply lor_marker; [lia|done].
  - subst e. rewrite Z.lor_comm. apply lor_marker; [lia|done].
Qed.

Lemma status_test w k e ok : 0 <= k < w -> status w k e ok -> negb (e =? 2 ^ w - 1) = ok.
Proof.
  intros Hk. unfold status, is_uint. pose proof (Z.pow_lt_mono_r 2 k w). destruct ok.
  - intros He. apply negb_true_iff, Z.eqb_neq. lia.
  - intros ->. by rewrite Z.eqb_refl.
Qed.

(** ** Digits in the tables *)

Lemma byte_table_lookup (f : Z -> Z) c :
  is_byte c -> load (f <$> seqZ 0 256) (Z.to_nat (atAsU8 c)) = Some (f c).
Proof.
  intros Hc. unfold load, atAsU8. rewrite wrap_small by done. unfold is_uint in Hc.
  rewrite list_lookup_fmap, lookup_seqZ_lt by lia. cbn. f_equal. f_equal. lia.
Qed.

Lemma decodeAt_digit isURL c :
  is_byte c -> decodeAt isURL c = Some (default 255 (digit isURL c)).
Proof.
  intros Hc.
  assert (decodeAt isURL c =
    Some (u8 ((if isURL then base64URLDecodeRule else base64DecodeRule) (i8 c)))) as ->
    by (unfold decodeAt, kDecodeTable, kBase64URLDecodeTable, kBase64DecodeTable, buildDecodeTable;
        destruct isURL; by rewrite (byte_table_lookup _ c Hc)).
  apply (byte_forall (fun c => bool_decide
    (Some (u8 ((if isURL then base64URLDecodeRule else base64DecodeRule) (i8 c))) =
     Some (default 255 (digit isURL c))))) in Hc;
    [by apply bool_decide_eq_true_1 in Hc | destruct isURL; by vm_compute].
Qed.

(** The entry of a digit in each row: its bits in the four bytes of a word. *)
Definition swar_digit (row : nat) (d : Z) : list Z :=
  match row with
  | 0%nat => [d * 4; 0; 0; 0]
  | 1%nat => [d / 16; d mod 16 * 16; 0; 0]
  | 2%nat => [0; d / 4; d mod 4 * 64; 0]
  | _ => [0; 0; d; 0]
  end.

Lemma swarAt_digit isURL row c :
  is_byte c -> (row < 4)%nat ->
  swarAt isURL row c =
    Some (match digit isURL c with
          | Some d => le_word (swar_digit row d)
          | None => kSwarDecodeErrorMarker
          end).
Proof.
  intros Hc Hr.
  assert (swarAt isURL row c =
    Some (swar_entry (if isURL then base64URLDecodeRule else base64DecodeRule) row c)) as ->
    by (unfold swarAt; destruct row as [|[|[|[|]]]]; [exact (byte_table_lookup _ c Hc)..|lia]).
  apply (byte_forall (fun c => bool_decide (
    Some (swar_entry (if isURL then base64URLDecodeRule else base64DecodeRule) row c) =
    Some (match digit isURL c with
          | Some d => le_word (swar_digit row d)
          | None => kSwarDecodeErrorMarker
          end)))) in Hc; [by apply bool_decide_eq_true_1 in Hc|].
  destruct isURL, row as [|[|[|[|]]]]; (by vm_compute) || lia.
Qed.

Lemma decodeAt_status isURL c :
  status 8 6 (default 255 (digit isURL c)) (is_some (digit isURL c)).
Proof. destruct (digit isURL c) as [d|] eqn:E; cbn; [by eapply digit_range|done]. Qed.

(** The bytes of a group of four digits. *)
Definition pack (a b c d : Z) : list Z :=
  [a * 4 + b / 16; b mod 16 * 16 + c / 4; c mod 4 * 64 + d].

Lemma pack_1 a b : is_digit a -> is_digit b -> u8 ((a .<< 2) .| (b .>> 4)) = a * 4 + b / 16.
Proof.
  intros Ha Hb. apply Z.eqb_eq.
  by apply (digit2_forall (fun a b => u8 ((a .<< 2) .| (b .>> 4)) =? a * 4 + b / 16));
    [vm_compute|..].
Qed.

Lemma pack_2 b c : is_digit b -> is_digit c -> u8 ((b .<< 4) .| (c .>> 2)) = b mod 16 * 16 + c / 4.
Proof.
  intros Hb Hc. apply Z.eqb_eq.
  by apply (digit2_forall (fun b c => u8 ((b .<< 4) .| (c .>> 2)) =? b mod 16 * 16 + c / 4));
    [vm_compute|..].
Qed.

Lemma pack_3 c d : is_digit c -> is_digit d -> u8 ((c .<< 6) .| d) = c mod 4 * 64 + d.
Proof.
  intros Hc Hd. apply Z.eqb_eq.
  by apply (digit2_forall (fun c d => u8 ((c .<< 6) .| d) =? c mod 4 * 64 + d)); [vm_compute|..].
Qed.

Lemma decode4_pack isURL a b c d :
  decode4 isURL a b c d =
    (a ← digit isURL a; b ← digit isURL b; c ← digit isURL c; d ← digit isURL d;
     Some (pack a b c d)).
Proof.
  unfold decode4. destruct (digit isURL a) as [x|] eqn:Ea, (digit isURL b) as [y|] eqn:Eb,
    (digit isURL c) as [z|] eqn:Ec, (digit isURL d) as [w|] eqn:Ed; cbn; try done.
  apply digit_range in Ea, Eb, Ec, Ed. unfold is_uint, pack in *. f_equal.
  do 2 (f_equal; [divlia|]). f_equal; divlia.
Qed.

Lemma decode3_pack isURL strict a b c :
  decode3 isURL strict a b c =
    (a ← digit isURL a; b ← digit isURL b; c ← digit isURL c;
     if strict && negb (c mod 4 =? 0) then None else Some (take 2 (pack a b c 0))).
Proof.
  unfold decode3. destruct (digit isURL a) as [x|] eqn:Ea, (digit isURL b) as [y|] eqn:Eb,
    (digit isURL c) as [z|] eqn:Ec; cbn -[Z.add Z.mul Z.div Z.modulo]; try done.
  apply digit_range in Ea, Eb, Ec. unfold is_uint in *.
  assert ((x * 4096 + y * 64 + z) mod 4 = z mod 4) as -> by divlia.
  destruct (_ && _); [done|]. f_equal. f_equal; [divlia|]. f_equal; divlia.
Qed.

Lemma decode2_pack isURL strict a b :
  decode2 isURL strict a b =
    (a ← digit isURL a; b ← digit isURL b;
     if strict && negb (b mod 16 =? 0) then None else Some (take 1 (pack a b 0 0))).
Proof.
  unfold decode2. destruct (digit isURL a) as [x|] eqn:Ea, (digit isURL b) as [y|] eqn:Eb;
    cbn -[Z.add Z.mul Z.div Z.modulo]; try done.
  apply digit_range in Ea, Eb. unfold is_uint in *.
  assert ((x * 64 + y) mod 16 = y mod 16) as -> by divlia.
  destruct (_ && _); [done|]. f_equal. f_equal; divlia.
Qed.

(** ** Groups of four characters *)

(** Code that decodes a text took [st] to [st'] and wrote [n] bytes; its accumulator [e] tells
    whether [ok] held before it and the text is valid, and then the bytes are those of the text. *)
Definition decodes (w k : Z) (ok : bool) (ref : option (list Z)) (n : nat)
    (st st' : output) (e : Z) : Prop :=
  exists out, wrote st out st' /\ length out = n /\ status w k e (ok && is_some ref) /\
    (forall l, ref = Some l -> out = l).

Lemma decodes_nil w k ok st e : status w k e ok -> decodes w k ok (Some []) 0 st st e.
Proof.
  intros He. exists []. split_and!; [apply wrote_nil|done| |by intros ? [= <-]].
  by rewrite andb_true_r.
Qed.

Lemma decodes_app w k ok ref ref' n n' st st' st'' e e' :
  decodes w k ok ref n st st' e -> decodes w k (ok && is_some ref) ref' n' st' st'' e' ->
  decodes w k ok (x ← ref; y ← ref'; Some (x ++ y)) (n + n') st st'' e'.
Proof.
  intros (out & Hw & Hl & _ & Hr) (out' & Hw' & Hl' & He' & Hr').
  exists (out ++ out'). split_and!.
  - by eapply wrote_trans.
  - rewrite length_app. lia.
  - rewrite <- andb_assoc in He'. destruct ref, ref'; exact He'.
  - intros l. destruct ref as [x|], ref' as [y|]; cbn; try done. intros [= <-].
    by rewrite (Hr x), (Hr' y).
Qed.

Lemma decodes_room w k ok ref n m st st' e :
  decodes w k ok ref n st st' e -> room st (n + m) -> room st' m.
Proof. intros (out & Hw & <- & _) Hr. by eapply wrote_room. Qed.

Lemma decodes_status w k ok ref n st st' e :
  decodes w k ok ref n st st' e -> status w k e (ok && is_some ref).
Proof. by intros (out & _ & _ & He & _). Qed.

(** All groups of a text, without padding. *)
Fixpoint decode_groups (isURL : bool) (s : list Z) : option (list Z) :=
  match s with
  | [] => Some []
  | a :: b :: c :: d :: s =>
      x ← decode4 isURL a b c d; y ← decode_groups isURL s; Some (x ++ y)
  | _ => None
  end.

Lemma decode_group_scalar isURL a b c d st e ok :
  status 8 6 e ok -> room st 3 ->
  let at_ c := default 255 (digit isURL c) in
  exists st', puts st (base64DecodePack4To3 (at_ a) (at_ b) (at_ c) (at_ d)) = Some st' /\
    decodes 8 6 ok (decode4 isURL a b c d) 3 st st' (e .| (at_ a .| at_ b .| at_ c .| at_ d)).
Proof.
  intros He Hr at_.
  destruct (puts_spec st (base64DecodePack4To3 (at_ a) (at_ b) (at_ c) (at_ d)) Hr)
    as (st' & Hp & Hw).
  exists st'. split; [done|]. exists (base64DecodePack4To3 (at_ a) (at_ b) (at_ c) (at_ d)).
  split_and!; [done|done|..].
  - replace (is_some (decode4 isURL a b c d)) with (is_some (digit isURL a) && is_some (digit isURL b)
      && is_some (digit isURL c) && is_some (digit isURL d)).
    + by repeat (apply status_lor; [lia| |]); try apply decodeAt_status.
    + rewrite decode4_pack. by destruct (digit isURL a), (digit isURL b), (digit isURL c), (digit isURL d).
  - intros l. rewrite decode4_pack. subst at_. cbv beta.
    destruct (digit isURL a) eqn:Ea, (digit isURL b) eqn:Eb, (digit isURL c) eqn:Ec,
      (digit isURL d) eqn:Ed; cbn; try done.
    apply digit_range in Ea, Eb, Ec, Ed. intros [= <-]. unfold base64DecodePack4To3, pack.
    by rewrite pack_1, pack_2, pack_3.
Qed.

Lemma decodeMainLoop_spec isURL n p t st e ok :
  Forall is_byte p -> length p = (4 * n)%nat -> status 8 6 e ok -> room st (3 * n) ->
  exists st' e', decodeMainLoop isURL (p ++ t) n st e = Some (t, st', e') /\
    decodes 8 6 ok (decode_groups isURL p) (3 * n) st st' e'.
Proof.
  revert p st e ok. induction n as [|n IH]; intros p st e ok Hp Hl He Hr.
  - destruct p; [|done]. exists st, e. split; [done|]. by apply decodes_nil.
  - destruct p as [|a [|b [|c [|d p]]]]; cbn [length] in Hl; try lia.
    rewrite !Forall_cons in Hp. destruct_and?. cbn [app decodeMainLoop].
    rewrite !decodeAt_digit by done. cbn [mbind option_bind].
    destruct (decode_group_scalar isURL a b c d st e ok) as (st1 & Hp1 & Hd1);
      [done|unfold room in *; lia|].
    rewrite Hp1. cbn [mbind option_bind].
    destruct (IH p st1 (e .| (default 255 (digit isURL a) .| default 255 (digit isURL b)
      .| default 255 (digit isURL c) .| default 255 (digit isURL d)))
      (ok && is_some (decode4 isURL a b c d))) as (st' & e' & Hl' & Hd'); [done|lia|..].
    + by eapply decodes_status.
    + eapply decodes_room; [done|]. by replace (3 + 3 * n)%nat with (3 * S n)%nat by lia.
    + exists st', e'. split; [done|]. replace (3 * S n)%nat with (3 + 3 * n)%nat by lia.
      by eapply decodes_app.
Qed.

(** ** The same for SWAR *)

(** The word of the character [c] in a row. *)
Definition swar_word (isURL : bool) (row : nat) (c : Z) : Z :=
  match digit isURL c with
  | Some d => le_word (swar_digit row d)
  | None => kSwarDecodeErrorMarker
  end.

Lemma swar_status isURL row c :
  status 32 24 (swar_word isURL row c) (is_some (digit isURL c)).
Proof.
  unfold swar_word. destruct (digit isURL c) as [d|] eqn:E; [|done]. apply digit_range in E.
  unfold status, is_uint in *. cbn [is_some].
  destruct row as [|[|[|]]]; cbn [swar_digit le_word]; divlia.
Qed.

Lemma swar_digit_bytes row d : is_digit d -> Forall is_byte (swar_digit row d).
Proof.
  unfold is_uint. intros Hd. destruct row as [|[|[|]]]; cbn [swar_digit];
    repeat apply Forall_cons_2; try apply Forall_nil_2; unfold is_uint; divlia.
Qed.

Lemma bytes32_or r s : bytes32 (r .| s) = zip_with Z.lor (bytes32 r) (bytes32 s).
Proof. unfold bytes32. cbn [seq fmap list_fmap zip_with]. by rewrite !byte_at_lor. Qed.

Lemma bytes32_swar_digit row d : is_digit d -> bytes32 (le_word (swar_digit row d)) = swar_digit row d.
Proof.
  intros Hd. unfold bytes32. cbn [seq fmap list_fmap].
  rewrite !byte_at_le_word by by apply swar_digit_bytes. by destruct row as [|[|[|]]].
Qed.

Lemma bytes32_group a b c d :
  is_digit a -> is_digit b -> is_digit c -> is_digit d ->
  take 3 (bytes32 (le_word (swar_digit 0 a) .| le_word (swar_digit 1 b)
    .| le_word (swar_digit 2 c) .| le_word (swar_digit 3 d))) = pack a b c d.
Proof.
  intros Ha Hb Hc Hd. rewrite !bytes32_or, !bytes32_swar_digit by done.
  cbn -[Z.mul Z.div Z.modulo Z.add]. rewrite !Z.lor_0_r. unfold pack, is_uint in *. f_equal; [|f_equal; [|f_equal]].
  - apply (lor_disjoint_r (b / 16) a 2); [lia|]. unfold is_uint. divlia.
  - apply (lor_disjoint_r (c / 4) (b mod 16) 4); [lia|]. unfold is_uint. divlia.
  - apply (lor_disjoint_r d (c mod 4) 6); [lia|]. unfold is_uint. divlia.
Qed.

Lemma decode_group_swar isURL a b c d st e ok :
  status 32 24 e ok -> room st 4 ->
  let r := swar_word isURL 0 a .| swar_word isURL 1 b .| swar_word isURL 2 c .| swar_word isURL 3 d in
  exists st', put_advance st (bytes32 r) 3 = Some st' /\
    decodes 32 24 ok (decode4 isURL a b c d) 3 st st' (e .| r).
Proof.
  intros He Hr r. destruct (put_advance_spec st (bytes32 r) 3 Hr) as (st' & Hp & Hw);
    [unfold bytes32; cbn; lia|].
  exists st'. split; [done|]. exists (take 3 (bytes32 r)). split_and!; [done|done|..].
  - replace (is_some (decode4 isURL a b c d)) with (is_some (digit isURL a) && is_some (digit isURL b)
      && is_some (digit isURL c) && is_some (digit isURL d)).
    + by repeat (apply status_lor; [lia| |]); try apply swar_status.
    + rewrite decode4_pack. by destruct (digit isURL a), (digit isURL b), (digit isURL c), (digit isURL d).
  - intros l. rewrite decode4_pack. subst r. unfold swar_word.
    destruct (digit isURL a) eqn:Ea, (digit isURL b) eqn:Eb, (digit isURL c) eqn:Ec,
      (digit isURL d) eqn:Ed; cbn [mbind option_bind]; try done.
    apply digit_range in Ea, Eb, Ec, Ed. intros [= <-]. by apply bytes32_group.
Qed.

Lemma base64DecodeSWARMainLoop_spec isURL n p t st e ok :
  Forall is_byte p -> length p = (4 * n)%nat -> (1 <= length t <= 4)%nat ->
  status 32 24 e ok -> room st (3 * n + 1) ->
  exists st' e', base64DecodeSWARMainLoop isURL (p ++ t) st e = Some (t, st', e') /\
    decodes 32 24 ok (decode_groups isURL p) (3 * n) st st' e'.
Proof.
  intros Hp Hl Ht. revert p Hp Hl st e ok. induction n as [|n IH]; intros p Hp Hl st e ok He Hr.
  - destruct p; [|done]. exists st, e. split; [|by apply decodes_nil].
    destruct t as [|? [|? [|? [|? [|]]]]]; cbn in *; (done || lia).
  - destruct p as [|a [|b [|c [|d p]]]]; cbn [length] in Hl; try lia.
    rewrite !Forall_cons in Hp. destruct_and?.
    assert (forall s, s <> [] -> base64DecodeSWARMainLoop isURL (a :: b :: c :: d :: s) st e =
      (w ← swarAt isURL 0 a; x ← swarAt isURL 1 b; y ← swarAt isURL 2 c; z ← swarAt isURL 3 d;
       st ← put_advance st (bytes32 (w .| x .| y .| z)) 3;
       base64DecodeSWARMainLoop isURL s st (e .| (w .| x .| y .| z)))) as Hstep
      by (intros [|]; done).
    cbn [app]. rewrite Hstep by (destruct p, t; cbn in *; (done || lia)). clear Hstep.
    rewrite !swarAt_digit by (done || lia). cbn [mbind option_bind].
    destruct (decode_group_swar isURL a b c d st e ok) as (st1 & Hp1 & Hd1);
      [done|unfold room in *; lia|].
    unfold swar_word in Hp1. rewrite Hp1. cbn [mbind option_bind].
    destruct (IH p ltac:(done) ltac:(lia) st1 (e .| (swar_word isURL 0 a .| swar_word isURL 1 b
      .| swar_word isURL 2 c .| swar_word isURL 3 d)) (ok && is_some (decode4 isURL a b c d)))
      as (st' & e' & Hl' & Hd').
    + by eapply decodes_status.
    + eapply decodes_room; [done|].
      by replace (3 + (3 * n + 1))%nat with (3 * S n + 1)%nat by lia.
    + exists st', e'. split; [done|]. replace (3 * S n)%nat with (3 + 3 * n)%nat by lia.
      by eapply decodes_app.
Qed.

(** ** The last characters

    The scalar and the SWAR code differ in the values of the tables and in how these are
    combined. *)

Section Tail.
Context (isURL : bool) (w k : Z) (val : Z -> Z) (f1 f2 f3 : Z -> Z -> Z).
Hypothesis Hk : 0 <= k < w.
Hypothesis val_status : forall c, status w k (val c) (is_some (digit isURL c)).
Hypothesis f1_val : forall a b x y,
  digit isURL a = Some x -> digit isURL b = Some y -> f1 (val a) (val b) = x * 4 + y / 16.
Hypothesis f2_val : forall b c y z,
  digit isURL b = Some y -> digit isURL c = Some z -> f2 (val b) (val c) = y mod 16 * 16 + z / 4.
Hypothesis f3_val : forall c d z t,
  digit isURL c = Some z -> digit isURL d = Some t -> f3 (val c) (val d) = z mod 4 * 64 + t.

Lemma tail2 a b st e ok :
  status w k e ok -> room st 1 ->
  exists st', puts st [f1 (val a) (val b)] = Some st' /\
    decodes w k ok (decode2 isURL false a b) 1 st st' (e .| (val a .| val b)).
Proof.
  intros He Hr. destruct (puts_spec st [f1 (val a) (val b)] Hr) as (st' & Hp & Hw).
  exists st'. split; [done|]. eexists. split_and!; [done|done|..].
  - replace (is_some (decode2 isURL false a b)) with (is_some (digit isURL a) && is_some (digit isURL b)).
    + by repeat (apply status_lor; [lia| |]).
    + rewrite decode2_pack. by destruct (digit isURL a), (digit isURL b).
  - intros l. rewrite decode2_pack.
    destruct (digit isURL a) eqn:Ea, (digit isURL b) eqn:Eb; cbn; try done.
    intros [= <-]. by erewrite f1_val.
Qed.

Lemma tail3 a b c st e ok :
  status w k e ok -> room st 2 ->
  exists st', puts st [f1 (val a) (val b); f2 (val b) (val c)] = Some st' /\
    decodes w k ok (decode3 isURL false a b c) 2 st st' (e .| (val a .| val b) .| val c).
Proof.
  intros He Hr. destruct (puts_spec st [f1 (val a) (val b); f2 (val b) (val c)] Hr) as (st' & Hp & Hw).
  exists st'. split; [done|]. eexists. split_and!; [done|done|..].
  - replace (ok && is_some (decode3 isURL false a b c)) with
      (ok && (is_some (digit isURL a) && is_some (digit isURL b)) && is_some (digit isURL c)).
    + by repeat (apply status_lor; [lia| |]).
    + rewrite decode3_pack. destruct ok; by destruct (digit isURL a), (digit isURL b), (digit isURL c).
  - intros l. rewrite decode3_pack.
    destruct (digit isURL a) eqn:Ea, (digit isURL b) eqn:Eb, (digit isURL c) eqn:Ec; cbn; try done.
    intros [= <-]. erewrite f1_val, f2_val by done. done.
Qed.

Lemma tail4 a b c d st e ok :
  status w k e ok -> room st 3 ->
  exists st',
    puts st [f1 (val a) (val b); f2 (val b) (val c); f3 (val c) (val d)] = Some st' /\
    decodes w k ok (decode4 isURL a b c d) 3 st st' (e .| (val a .| val b) .| val c .| val d).
Proof.
  intros He Hr. destruct (puts_spec st [f1 (val a) (val b); f2 (val b) (val c); f3 (val c) (val d)] Hr)
    as (st' & Hp & Hw).
  exists st'. split; [done|]. eexists. split_and!; [done|done|..].
  - replace (ok && is_some (decode4 isURL a b c d)) with
      (ok && (is_some (digit isURL a) && is_some (digit isURL b)) && is_some (digit isURL c)
       && is_some (digit isURL d)).
    + by repeat (apply status_lor; [lia| |]).
    + rewrite decode4_pack.
      destruct ok; by destruct (digit isURL a), (digit isURL b), (digit isURL c), (digit isURL d).
  - intros l. rewrite decode4_pack.
    destruct (digit isURL a) eqn:Ea, (digit isURL b) eqn:Eb, (digit isURL c) eqn:Ec,
      (digit isURL d) eqn:Ed; cbn; try done.
    intros [= <-]. erewrite f1_val, f2_val, f3_val by done. done.
Qed.
End Tail.

(** The values and the combinations of the two implementations. *)
Definition scalar_val (isURL : bool) (c : Z) : Z := default 255 (digit isURL c).
Definition scalar_1 (a b : Z) : Z := u8 ((a .<< 2) .| (b .>> 4)).
Definition scalar_2 (b c : Z) : Z := u8 ((b .<< 4) .| (c .>> 2)).
Definition scalar_3 (c d : Z) : Z := u8 ((c .<< 6) .| d).
Definition swar_1 (a b : Z) : Z := u8 (a .| (b .>> 6)).
Definition swar_2 (b c : Z) : Z := u8 (u32 (b .<< 2) .| (c .>> 4)).
Definition swar_3 (c d : Z) : Z := u8 (u32 (c .<< 4) .| (d .>> 2)).

Lemma scalar_1_val isURL a b x y :
  digit isURL a = Some x -> digit isURL b = Some y ->
  scalar_1 (scalar_val isURL a) (scalar_val isURL b) = x * 4 + y / 16.
Proof.
  unfold scalar_val, scalar_1. intros Ha Hb. rewrite Ha, Hb. by apply pack_1; eapply digit_range.
Qed.

Lemma scalar_2_val isURL a b x y :
  digit isURL a = Some x -> digit isURL b = Some y ->
  scalar_2 (scalar_val isURL a) (scalar_val isURL b) = x mod 16 * 16 + y / 4.
Proof.
  unfold scalar_val, scalar_2. intros Ha Hb. rewrite Ha, Hb. by apply pack_2; eapply digit_range.
Qed.

Lemma scalar_3_val isURL a b x y :
  digit isURL a = Some x -> digit isURL b = Some y ->
  scalar_3 (scalar_val isURL a) (scalar_val isURL b) = x mod 4 * 64 + y.
Proof.
  unfold scalar_val, scalar_3. intros Ha Hb. rewrite Ha, Hb. by apply pack_3; eapply digit_range.
Qed.

Lemma swar_word_val isURL a x : digit isURL a = Some x -> swar_word isURL 0 a = x * 4.
Proof. unfold swar_word. intros ->. cbn [swar_digit le_word]. lia. Qed.

Lemma swar_1_val isURL a b x y :
  digit isURL a = Some x -> digit isURL b = Some y ->
  swar_1 (swar_word isURL 0 a) (swar_word isURL 0 b) = x * 4 + y / 16.
Proof.
  intros Ha Hb. erewrite !swar_word_val by done. apply digit_range in Ha, Hb. apply Z.eqb_eq.
  by apply (digit2_forall (fun x y => swar_1 (x * 4) (y * 4) =? x * 4 + y / 16)); [vm_compute|..].
Qed.

Lemma swar_2_val isURL a b x y :
  digit isURL a = Some x -> digit isURL b = Some y ->
  swar_2 (swar_word isURL 0 a) (swar_word isURL 0 b) = x mod 16 * 16 + y / 4.
Proof.
  intros Ha Hb. erewrite !swar_word_val by done. apply digit_range in Ha, Hb. apply Z.eqb_eq.
  by apply (digit2_forall (fun x y => swar_2 (x * 4) (y * 4) =? x mod 16 * 16 + y / 4));
    [vm_compute|..].
Qed.

Lemma swar_3_val isURL a b x y :
  digit isURL a = Some x -> digit isURL b = Some y ->
  swar_3 (swar_word isURL 0 a) (swar_word isURL 0 b) = x mod 4 * 64 + y.
Proof.
  intros Ha Hb. erewrite !swar_word_val by done. apply digit_range in Ha, Hb. apply Z.eqb_eq.
  by apply (digit2_forall (fun x y => swar_3 (x * 4) (y * 4) =? x mod 4 * 64 + y)); [vm_compute|..].
Qed.

(** Setting the accumulator to the error marker makes the text invalid. *)
Lemma decodes_strict w k ok ref ref' n st st' e (bad : bool) :
  decodes w k ok ref n st st' e -> ref' = (if bad then None else ref) ->
  decodes w k ok ref' n st st' (if bad then 2 ^ w - 1 else e).
Proof.
  intros (out & Hw & Hl & He & Hr) ->. destruct bad; [|by exists out].
  exists out. split_and!; [done..| |done]. by rewrite andb_false_r.
Qed.

Lemma decode2_strict isURL a b (bad : bool) :
  (forall y, digit isURL b = Some y -> bad = negb (y mod 16 =? 0)) ->
  decode2 isURL true a b = if bad then None else decode2 isURL false a b.
Proof.
  intros H. rewrite !decode2_pack. destruct (digit isURL a), (digit isURL b) as [y|]; cbn;
    [|by destruct bad..]. by rewrite (H y).
Qed.

Lemma decode3_strict isURL a b c (bad : bool) :
  (forall z, digit isURL c = Some z -> bad = negb (z mod 4 =? 0)) ->
  decode3 isURL true a b c = if bad then None else decode3 isURL false a b c.
Proof.
  intros H. rewrite !decode3_pack.
  destruct (digit isURL a), (digit isURL b), (digit isURL c) as [z'|]; cbn;
    [|by destruct bad..]. by rewrite (H z').
Qed.

Lemma scalar_bits isURL c y i : 0 <= i -> digit isURL c = Some y ->
  negb (scalar_val isURL c .& (2 ^ i - 1) =? 0) = negb (y mod 2 ^ i =? 0).
Proof. unfold scalar_val. intros Hi ->. cbn. by rewrite (land_ones_mod _ i). Qed.

Lemma swar_bits2 isURL c y : digit isURL c = Some y ->
  negb (swar_word isURL 0 c .& 0x3c =? 0) = negb (y mod 16 =? 0).
Proof.
  intros Hc. erewrite swar_word_val by done. apply digit_range in Hc. apply Bool.eqb_prop.
  by apply (digit_forall (fun y => Bool.eqb (negb (y * 4 .& 0x3c =? 0)) (negb (y mod 16 =? 0))));
    [vm_compute|].
Qed.

Lemma swar_bits3 isURL c y : digit isURL c = Some y ->
  negb (swar_word isURL 0 c .& 0xc =? 0) = negb (y mod 4 =? 0).
Proof.
  intros Hc. erewrite swar_word_val by done. apply digit_range in Hc. apply Bool.eqb_prop.
  by apply (digit_forall (fun y => Bool.eqb (negb (y * 4 .& 0xc =? 0)) (negb (y mod 4 =? 0))));
    [vm_compute|].
Qed.

(** The bytes that the last four characters hold. *)
Definition last_size (c d : Z) : nat :=
  if (c =? chr_eq) && (d =? chr_eq) then 1 else if d =? chr_eq then 2 else 3.

Lemma base64DecodeTailScalar_spec a b c d st e ok :
  Forall is_byte [a; b; c; d] -> status 8 6 e ok -> room st (last_size c d) ->
  exists st' e', base64DecodeTailScalar [a; b; c; d] st e = Some (st', e') /\
    decodes 8 6 ok (decode_last false true a b c d) (last_size c d) st st' e'.
Proof.
  intros Hs He Hr. rewrite !Forall_cons in Hs. destruct_and?.
  unfold base64DecodeTailScalar, decode_last, last_size in *.
  rewrite !decodeAt_digit by done. cbn [mbind option_bind].
  pose proof (decodeAt_status false) as Hv. pose proof (scalar_1_val false) as H1'.
  pose proof (scalar_2_val false) as H2'. pose proof (scalar_3_val false) as H3'.
  destruct ((c =? chr_eq) && (d =? chr_eq)); [|destruct (d =? chr_eq)]; rewrite ?puts_bind; cbn [app].
  - destruct (tail2 false 8 6 (scalar_val false) scalar_1 ltac:(lia) Hv H1' a b st e ok)
      as (st' & Hp & Hd); [done..|]. unfold scalar_1, scalar_val in Hp. rewrite Hp. cbn.
    eexists _, _. split; [done|]. eapply (decodes_strict 8); [exact Hd|]. apply decode2_strict.
    intros y Hy. exact (scalar_bits false b y 4 ltac:(lia) Hy).
  - destruct (tail3 false 8 6 (scalar_val false) scalar_1 scalar_2 ltac:(lia) Hv H1' H2' a b c st e ok)
      as (st' & Hp & Hd); [done..|]. unfold scalar_1, scalar_2, scalar_val in Hp. rewrite Hp. cbn.
    eexists _, _. split; [done|]. eapply (decodes_strict 8); [exact Hd|]. apply decode3_strict.
    intros y Hy. exact (scalar_bits false c y 2 ltac:(lia) Hy).
  - destruct (tail4 false 8 6 (scalar_val false) scalar_1 scalar_2 scalar_3 ltac:(lia) Hv H1' H2' H3'
      a b c d st e ok) as (st' & Hp & Hd); [done..|].
    unfold scalar_1, scalar_2, scalar_3, scalar_val in Hp. rewrite Hp. cbn.
    eexists _, _. split; [done|]. exact Hd.
Qed.

Lemma base64DecodeTailSWAR_spec a b c d st e ok :
  Forall is_byte [a; b; c; d] -> status 32 24 e ok -> room st (last_size c d) ->
  exists st' e', base64DecodeTailSWAR [a; b; c; d] st e = Some (st', e') /\
    decodes 32 24 ok (decode_last false true a b c d) (last_size c d) st st' e'.
Proof.
  intros Hs He Hr. rewrite !Forall_cons in Hs. destruct_and?.
  unfold base64DecodeTailSWAR, decode_last, last_size in *.
  rewrite !swarAt_digit by (done || lia). cbn [mbind option_bind].
  pose proof (swar_status false 0) as Hv. pose proof (swar_1_val false) as H1'.
  pose proof (swar_2_val false) as H2'. pose proof (swar_3_val false) as H3'.
  destruct ((c =? chr_eq) && (d =? chr_eq)); [|destruct (d =? chr_eq)]; rewrite ?puts_bind; cbn [app].
  - destruct (tail2 false 32 24 (swar_word false 0) swar_1 ltac:(lia) Hv H1' a b st e ok)
      as (st' & Hp & Hd); [done..|]. unfold swar_1, swar_word in Hp. rewrite Hp. cbn.
    eexists _, _. split; [done|]. eapply (decodes_strict 32); [exact Hd|]. apply decode2_strict.
    intros y Hy. exact (swar_bits2 false b y Hy).
  - destruct (tail3 false 32 24 (swar_word false 0) swar_1 swar_2 ltac:(lia) Hv H1' H2' a b c st e ok)
      as (st' & Hp & Hd); [done..|]. unfold swar_1, swar_2, swar_word in Hp. rewrite Hp. cbn.
    eexists _, _. split; [done|]. eapply (decodes_strict 32); [exact Hd|]. apply decode3_strict.
    intros y Hy. exact (swar_bits3 false c y Hy).
  - destruct (tail4 false 32 24 (swar_word false 0) swar_1 swar_2 swar_3 ltac:(lia) Hv H1' H2' H3'
      a b c d st e ok) as (st' & Hp & Hd); [done..|].
    unfold swar_1, swar_2, swar_3, swar_word in Hp. rewrite Hp. cbn.
    eexists _, _. split; [done|]. exact Hd.
Qed.

(** The last characters of a URL text without their padding. *)
Definition url_tail (s : list Z) : list Z :=
  match s with
  | [a; b; c; d] =>
      if d =? chr_eq then if c =? chr_eq then [a; b] else [a; b; c] else [a; b; c; d]
  | _ => s
  end.

Lemma strip_url_tail s : base64URLDecodeStripValidPadding s = Some (url_tail s).
Proof.
  destruct s as [|a [|b [|c [|d [|]]]]]; try done.
  unfold base64URLDecodeStripValidPadding, strip_one. cbn.
  change (from_end [a; b; c; d] 1) with (Some d). cbn. destruct (d =? chr_eq) eqn:Ed; cbn.
  - change (from_end [a; b; c] 1) with (Some c). cbn. by destruct (c =? chr_eq).
  - change (from_end [a; b; c; d] 1) with (Some d). cbn. by rewrite Ed.
Qed.

Lemma url_tail_cases (P : list Z -> option (list Z) -> Prop) s :
  (2 <= length s <= 4)%nat ->
  (forall a b, P [a; b] (decode2 true false a b)) ->
  (forall a b c, P [a; b; c] (decode3 true false a b c)) ->
  (forall a b c d, P [a; b; c; d] (decode4 true a b c d)) ->
  P (url_tail s) (decodeURL_ref s).
Proof.
  intros Hl H2 H3 H4. destruct s as [|a [|b [|c [|d [|]]]]]; cbn [length] in Hl;
    [lia|lia|apply H2|apply H3| |lia].
  cbn [url_tail decodeURL_ref]. unfold decode_last.
  destruct (d =? chr_eq), (c =? chr_eq); cbn [andb]; done.
Qed.

Lemma url_tail_bytes s : Forall is_byte s -> Forall is_byte (url_tail s).
Proof.
  destruct s as [|a [|b [|c [|d [|]]]]]; try done. rewrite !Forall_cons. cbn [url_tail].
  intros. destruct_and?. destruct (d =? chr_eq), (c =? chr_eq); by repeat apply Forall_cons_2.
Qed.

Lemma base64URLDecodeScalarLast4Bytes_spec s st e ok :
  Forall is_byte s -> (2 <= length s <= 4)%nat -> status 8 6 e ok ->
  room st (length (url_tail s) - 1) ->
  exists st' e', base64URLDecodeScalarLast4Bytes s st e = Some (st', e') /\
    decodes 8 6 ok (decodeURL_ref s) (length (url_tail s) - 1) st st' e'.
Proof.
  intros Hs Hl He. unfold base64URLDecodeScalarLast4Bytes. rewrite strip_url_tail.
  apply url_tail_bytes in Hs. revert Hs. cbn [mbind option_bind].
  pose proof (decodeAt_status true) as Hv. pose proof (scalar_1_val true) as H1'.
  pose proof (scalar_2_val true) as H2'. pose proof (scalar_3_val true) as H3'.
  pattern (url_tail s), (decodeURL_ref s). apply url_tail_cases; [done|..]; intros *;
    rewrite !Forall_cons; intros Hs Hr; destruct_and?; cbv beta iota; rewrite !decodeAt_digit by done;
    cbn [mbind option_bind]; rewrite ?puts_bind; cbn [app].
  - destruct (tail2 true 8 6 (scalar_val true) scalar_1 ltac:(lia) Hv H1' a b st e ok)
      as (st' & Hp & Hd); [done..|]. unfold scalar_1, scalar_val in Hp. rewrite Hp.
    by eexists _, _.
  - destruct (tail3 true 8 6 (scalar_val true) scalar_1 scalar_2 ltac:(lia) Hv H1' H2' a b c st e ok)
      as (st' & Hp & Hd); [done..|]. unfold scalar_1, scalar_2, scalar_val in Hp. rewrite Hp.
    by eexists _, _.
  - destruct (tail4 true 8 6 (scalar_val true) scalar_1 scalar_2 scalar_3 ltac:(lia) Hv H1' H2' H3'
      a b c d st e ok) as (st' & Hp & Hd); [done..|].
    unfold scalar_1, scalar_2, scalar_3, scalar_val in Hp. rewrite Hp. by eexists _, _.
Qed.

Lemma base64URLDecodeTailSWAR_spec s st e ok :
  Forall is_byte s -> (2 <= length s <= 4)%nat -> status 32 24 e ok ->
  room st (length (url_tail s) - 1) ->
  exists st' e', base64URLDecodeTailSWAR s st e = Some (st', e') /\
    decodes 32 24 ok (decodeURL_ref s) (length (url_tail s) - 1) st st' e'.
Proof.
  intros Hs Hl He. unfold base64URLDecodeTailSWAR. rewrite strip_url_tail.
  apply url_tail_bytes in Hs. revert Hs. cbn [mbind option_bind].
  pose proof (swar_status true 0) as Hv. pose proof (swar_1_val true) as H1'.
  pose proof (swar_2_val true) as H2'. pose proof (swar_3_val true) as H3'.
  pattern (url_tail s), (decodeURL_ref s). apply url_tail_cases; [done|..]; intros *;
    rewrite !Forall_cons; intros Hs Hr; destruct_and?; cbv beta iota; rewrite !swarAt_digit by (done || lia);
    cbn [mbind option_bind]; rewrite ?puts_bind; cbn [app].
  - destruct (tail2 true 32 24 (swar_word true 0) swar_1 ltac:(lia) Hv H1' a b st e ok)
      as (st' & Hp & Hd); [done..|]. unfold swar_1, swar_word in Hp. rewrite Hp.
    by eexists _, _.
  - destruct (tail3 true 32 24 (swar_word true 0) swar_1 swar_2 ltac:(lia) Hv H1' H2' a b c st e ok)
      as (st' & Hp & Hd); [done..|]. unfold swar_1, swar_2, swar_word in Hp. rewrite Hp.
    by eexists _, _.
  - destruct (tail4 true 32 24 (swar_word true 0) swar_1 swar_2 swar_3 ltac:(lia) Hv H1' H2' H3'
      a b c d st e ok) as (st' & Hp & Hd); [done..|].
    unfold swar_1, swar_2, swar_3, swar_word in Hp. rewrite Hp. by eexists _, _.
Qed.

(** ** Whole texts *)

(** A text that is not empty is groups of four characters and one to four more. *)
Lemma split_text (s : list Z) :
  s <> [] -> exists n p t, s = p ++ t /\ length p = (4 * n)%nat /\ (1 <= length t <= 4)%nat /\
    length s = (4 * n + length t)%nat.
Proof.
  intros Hs. assert (length s <> 0)%nat by by destruct s.
  pose proof (Nat.div_mod (length s - 1) 4 ltac:(lia)) as Hd.
  pose proof (Nat.mod_upper_bound (length s - 1) 4 ltac:(lia)).
  set (n := ((length s - 1) / 4)%nat) in *. exists n, (take (4 * n) s), (drop (4 * n) s).
  rewrite take_drop, length_take, length_drop. split_and!; [done|lia..].
Qed.

Lemma bind_app_assoc (a b c : option (list Z)) :
  (x ← a; y ← (y ← b; z ← c; Some (y ++ z)); Some (x ++ y)) =
  (x ← (x ← a; y ← b; Some (x ++ y)); z ← c; Some (x ++ z)).
Proof. destruct a, b, c; cbn; try done. by rewrite app_assoc. Qed.

Lemma decode_ref_app n p t :
  length p = (4 * n)%nat -> t <> [] ->
  decode_ref (p ++ t) = (x ← decode_groups false p; y ← decode_ref t; Some (x ++ y)).
Proof.
  intros Hl Ht. revert p Hl. induction n as [|n IH]; intros p Hl.
  - destruct p; [|done]. cbn. by destruct (decode_ref t).
  - destruct p as [|a [|b [|c [|d p]]]]; cbn [length] in Hl; try lia. cbn [app decode_groups].
    rewrite decode_ref_group, IH, bind_app_assoc by (lia || (left; by destruct p, t)). done.
Qed.

Lemma decodeURL_ref_app n p t :
  length p = (4 * n)%nat -> t <> [] ->
  decodeURL_ref (p ++ t) = (x ← decode_groups true p; y ← decodeURL_ref t; Some (x ++ y)).
Proof.
  intros Hl Ht. revert p Hl. induction n as [|n IH]; intros p Hl.
  - destruct p; [|done]. cbn. by destruct (decodeURL_ref t).
  - destruct p as [|a [|b [|c [|d p]]]]; cbn [length] in Hl; try lia. cbn [app decode_groups].
    rewrite decodeURL_ref_group, IH, bind_app_assoc by (lia || (left; by destruct p, t)). done.
Qed.

Lemma from_end_app p t k : (1 <= k <= length t)%nat -> from_end (p ++ t) k = t !! (length t - k)%nat.
Proof.
  intros Hk. unfold from_end. rewrite length_app, decide_True by lia.
  rewrite lookup_app_r by lia. f_equal. lia.
Qed.

Lemma padding_app p a b c d :
  base64PaddingToSubtract (p ++ [a; b; c; d]) = Some (3 - last_size c d)%nat.
Proof.
  unfold base64PaddingToSubtract. rewrite !from_end_app by (cbn; lia). cbn. unfold last_size.
  by destruct (d =? chr_eq), (c =? chr_eq).
Qed.

Lemma last_size_range c d : (1 <= last_size c d <= 3)%nat.
Proof. unfold last_size. destruct (_ && _); [lia|]. destruct (_ =? _); lia. Qed.

Lemma div_mod_groups n r : (r < 4)%nat -> ((4 * n + r) / 4 = n /\ (4 * n + r) mod 4 = r)%nat.
Proof.
  intros Hr. replace (4 * n + r)%nat with (r + n * 4)%nat by lia.
  rewrite Nat.div_add, Nat.Div0.mod_add, Nat.div_small, Nat.mod_small by lia. lia.
Qed.

Lemma base64DecodedSize_app n p a b c d :
  length p = (4 * n)%nat ->
  base64DecodedSize (p ++ [a; b; c; d]) = Some (3 * n + last_size c d)%nat.
Proof.
  intros Hl. unfold base64DecodedSize. rewrite padding_app, length_app, Hl. cbn [length mbind option_bind].
  rewrite (proj2 (Nat.ltb_ge _ _)) by lia.
  destruct (div_mod_groups (S n) 0) as [Hd _]; [lia|].
  replace (4 * n + 4)%nat with (4 * S n + 0)%nat by lia. rewrite Hd.
  pose proof (last_size_range c d). f_equal. lia.
Qed.

Lemma base64URLDecodedSize_app n p t :
  length p = (4 * n)%nat -> (1 <= length t <= 4)%nat ->
  base64URLDecodedSize (p ++ t) = Some (3 * n + (length (url_tail t) - 1))%nat.
Proof.
  intros Hl Ht. unfold base64URLDecodedSize. rewrite length_app, Hl.
  destruct (Nat.ltb_spec (4 * n + length t) 2) as [Hs|Hs].
  { destruct n, t as [|a [|]]; cbn in *; (done || lia). }
  destruct (decide (length t = 4)%nat) as [H4|H4].
  - destruct t as [|a [|b [|c [|d [|]]]]]; try done. rewrite padding_app. cbn [length].
    replace (4 * n + 4)%nat with (4 * S n + 0)%nat by lia.
    destruct (div_mod_groups (S n) 0) as [-> ->]; [lia|]. cbn [Nat.eqb mbind option_bind Nat.ltb Nat.leb].
    f_equal. unfold last_size, url_tail.
    destruct (d =? chr_eq), (c =? chr_eq); cbn [andb length]; lia.
  - destruct (div_mod_groups n (length t)) as [-> ->]; [lia|].
    rewrite (proj2 (Nat.eqb_neq _ _)), (proj2 (Nat.ltb_lt _ _)) by lia. cbn [mbind option_bind].
    f_equal. assert (url_tail t = t) as -> by (by destruct t as [|a [|b [|c [|d [|]]]]]). lia.
Qed.

(** A decoder [f] with reference [ref] and allocation [size]: on every text, in a buffer with
    room for [size s] bytes, it stays inside the buffer, reports whether the text is valid, and
    then has written exactly [size s] bytes, those of the text. *)
Definition decoder_spec (f : list Z -> output -> option (bool * output))
    (ref : list Z -> option (list Z)) (size : list Z -> option nat) : Prop :=
  forall s st, Forall is_byte s ->
  exists n, size s = Some n /\
    (room st n -> exists st', f s st = Some (is_some (ref s), st') /\
      forall l, ref s = Some l -> wrote st l st' /\ length l = n).

Lemma decodes_result w k ref n st st' e :
  0 <= k < w -> decodes w k true ref n st st' e ->
  negb (e =? 2 ^ w - 1) = is_some ref /\
  forall l, ref = Some l -> wrote st l st' /\ length l = n.
Proof.
  intros Hk (out & Hw & Hl & He & Hr). split; [by eapply status_test|].
  intros l Hl'. by rewrite <- (Hr l Hl').
Qed.

Lemma empty_text (f : list Z -> output -> option (bool * output))
    (ref : list Z -> option (list Z)) (size : list Z -> option nat) st :
  f [] st = Some (true, st) -> ref [] = Some [] -> size [] = Some 0%nat ->
  exists n, size [] = Some n /\
    (room st n -> exists st', f [] st = Some (is_some (ref []), st') /\
      forall l : list Z, ref [] = Some l -> wrote st l st' /\ length l = n).
Proof.
  intros Hf Hr Hs. exists 0%nat. split; [done|]. intros _. exists st. rewrite Hr. split; [done|].
  intros l [= <-]. split; [apply wrote_nil|done].
Qed.

Lemma decode_ref_short t : (1 <= length t <= 3)%nat -> decode_ref t = None.
Proof. destruct t as [|a [|b [|c [|]]]]; cbn; (done || lia). Qed.

Lemma base64DecodedSize_total s : exists n, base64DecodedSize s = Some n.
Proof.
  unfold base64DecodedSize. destruct (Nat.ltb_spec (length s) 4); [by eexists|].
  unfold base64PaddingToSubtract, from_end. rewrite !decide_True by lia.
  destruct (lookup_lt_is_Some_2 s (length s - 1)) as [x ->]; [lia|].
  destruct (lookup_lt_is_Some_2 s (length s - 2)) as [y ->]; [lia|]. by eexists.
Qed.

(** The text is refused without writing when its length is not a multiple of four. *)
Lemma refused_text (f : list Z -> output -> option (bool * output)) s st n p t :
  s = p ++ t -> length p = (4 * n)%nat -> (1 <= length t <= 3)%nat ->
  f s st = Some (false, st) ->
  exists m, base64DecodedSize s = Some m /\
    (room st m -> exists st', f s st = Some (is_some (decode_ref s), st') /\
      forall l, decode_ref s = Some l -> wrote st l st' /\ length l = m).
Proof.
  intros -> Hp Ht Hf. destruct (base64DecodedSize_total (p ++ t)) as [m Hm]. exists m. split; [done|].
  intros _. exists st. assert (decode_ref (p ++ t) = None) as ->; [|by rewrite Hf].
  rewrite (decode_ref_app n) by (done || (destruct t; [cbn in Ht; lia|done])).
  rewrite decode_ref_short by done. by destruct (decode_groups false p).
Qed.

Lemma base64DecodeScalar_spec : decoder_spec base64DecodeScalar decode_ref base64DecodedSize.
Proof.
  intros s st Hs. destruct (decide (s = [])) as [->|Hne]; [by apply empty_text|].
  destruct (split_text s Hne) as (n & p & t & Hst & Hp & Ht & Hl).
  assert (Nat.eqb (length s) 0 = false) as H0 by (apply Nat.eqb_neq; lia).
  destruct (decide (length t = 4)%nat) as [H4|H4].
  - subst s. destruct t as [|a [|b [|c [|d [|]]]]]; try done.
    exists (3 * n + last_size c d)%nat. split; [by apply base64DecodedSize_app|]. intros Hr.
    apply Forall_app in Hs as [Hsp Hst].
    rewrite (decode_ref_app n) by done. unfold base64DecodeScalar. rewrite H0, Hl. cbn [length].
    replace (4 * n + 4)%nat with (4 * S n + 0)%nat by lia.
    destruct (div_mod_groups (S n) 0) as [-> ->]; [lia|]. cbn [negb Nat.eqb].
    replace (S n - 1)%nat with n by lia.
    destruct (decodeMainLoop_spec false n p [a; b; c; d] st 0 true) as (st1 & e1 & -> & Hd1);
      [done..|unfold room in *; lia|]. cbn [mbind option_bind].
    destruct (base64DecodeTailScalar_spec a b c d st1 e1 (is_some (decode_groups false p)))
      as (st2 & e2 & -> & Hd2); [done|by eapply decodes_status in Hd1|by eapply decodes_room|].
    cbn [mbind option_bind].
    pose proof (decodes_app _ _ true _ _ _ _ _ _ _ _ _ Hd1 Hd2) as Hd.
    apply decodes_result in Hd as [He Hw]; [|lia]. exists st2.
    split; [exact (f_equal (fun b => Some (b, st2)) He)|exact Hw].
  - eapply refused_text; [done|done|lia|]. unfold base64DecodeScalar. rewrite H0, Hl.
    destruct (div_mod_groups n (length t)) as [_ ->]; [lia|].
    by rewrite (proj2 (Nat.eqb_neq _ _)) by lia.
Qed.

Lemma base64DecodeSWAR_spec : decoder_spec base64DecodeSWAR decode_ref base64DecodedSize.
Proof.
  intros s st Hs. destruct (decide (s = [])) as [->|Hne]; [by apply empty_text|].
  destruct (split_text s Hne) as (n & p & t & Hst & Hp & Ht & Hl).
  assert (Nat.eqb (length s) 0 = false) as H0 by (apply Nat.eqb_neq; lia).
  destruct (decide (length t = 4)%nat) as [H4|H4].
  - subst s. destruct t as [|a [|b [|c [|d [|]]]]]; try done.
    exists (3 * n + last_size c d)%nat. split; [by apply base64DecodedSize_app|]. intros Hr.
    apply Forall_app in Hs as [Hsp Hst]. pose proof (last_size_range c d).
    rewrite (decode_ref_app n) by done. unfold base64DecodeSWAR. rewrite H0, Hl. cbn [length].
    replace (4 * n + 4)%nat with (4 * S n + 0)%nat by lia.
    destruct (div_mod_groups (S n) 0) as [_ ->]; [lia|]. cbn [negb Nat.eqb].
    destruct (base64DecodeSWARMainLoop_spec false n p [a; b; c; d] st 0 true)
      as (st1 & e1 & -> & Hd1); [done..|unfold room in *; lia|]. cbn [mbind option_bind].
    destruct (base64DecodeTailSWAR_spec a b c d st1 e1 (is_some (decode_groups false p)))
      as (st2 & e2 & -> & Hd2); [done|by eapply decodes_status in Hd1|by eapply decodes_room|].
    cbn [mbind option_bind].
    pose proof (decodes_app _ _ true _ _ _ _ _ _ _ _ _ Hd1 Hd2) as Hd.
    apply decodes_result in Hd as [He Hw]; [|lia]. exists st2.
    split; [exact (f_equal (fun b => Some (b, st2)) He)|exact Hw].
  - eapply refused_text; [done|done|lia|]. unfold base64DecodeSWAR. rewrite H0, Hl.
    destruct (div_mod_groups n (length t)) as [_ ->]; [lia|].
    by rewrite (proj2 (Nat.eqb_neq _ _)) by lia.
Qed.

Lemma base64URLDecodeScalar_spec :
  decoder_spec base64URLDecodeScalar decodeURL_ref base64URLDecodedSize.
Proof.
  intros s st Hs. destruct (decide (s = [])) as [->|Hne]; [by apply empty_text|].
  destruct (split_text s Hne) as (n & p & t & -> & Hp & Ht & Hl).
  exists (3 * n + (length (url_tail t) - 1))%nat.
  split; [by apply base64URLDecodedSize_app|]. intros Hr. apply Forall_app in Hs as [Hsp Hst].
  rewrite (decodeURL_ref_app n) by (done || (destruct t; [cbn in Ht; lia|done])). unfold base64URLDecodeScalar.
  rewrite (proj2 (Nat.eqb_neq _ _)) by lia.
  assert (length (p ++ t) / 4 - Nat.b2n (Nat.eqb (length (p ++ t) mod 4) 0) = n)%nat as ->.
  { rewrite Hl. destruct (decide (length t = 4)%nat) as [->|].
    - replace (4 * n + 4)%nat with (4 * S n + 0)%nat by lia.
      destruct (div_mod_groups (S n) 0) as [-> ->]; [lia|]. cbn. lia.
    - destruct (div_mod_groups n (length t)) as [-> ->]; [lia|].
      rewrite (proj2 (Nat.eqb_neq _ _)) by lia. cbn. lia. }
  destruct (decodeMainLoop_spec true n p t st 0 true) as (st1 & e1 & -> & Hd1);
    [done..|unfold room in *; lia|]. cbn [mbind option_bind].
  destruct (Nat.ltb_spec (length t) 2).
  - exists st1. destruct t as [|a [|]]; cbn in Ht; try (cbn in *; lia). cbn.
    by destruct (decode_groups true p).
  - destruct (base64URLDecodeScalarLast4Bytes_spec t st1 e1 (is_some (decode_groups true p)))
      as (st2 & e2 & -> & Hd2); [done|lia|by eapply decodes_status in Hd1|by eapply decodes_room|].
    cbn [mbind option_bind].
    pose proof (decodes_app _ _ true _ _ _ _ _ _ _ _ _ Hd1 Hd2) as Hd.
    apply decodes_result in Hd as [He Hw]; [|lia]. exists st2.
    split; [exact (f_equal (fun b => Some (b, st2)) He)|exact Hw].
Qed.

Lemma base64URLDecodeSWAR_spec :
  decoder_spec base64URLDecodeSWAR decodeURL_ref base64URLDecodedSize.
Proof.
  intros s st Hs. destruct (decide (s = [])) as [->|Hne]; [by apply empty_text|].
  destruct (split_text s Hne) as (n & p & t & -> & Hp & Ht & Hl).
  exists (3 * n + (length (url_tail t) - 1))%nat.
  split; [by apply base64URLDecodedSize_app|]. intros Hr. apply Forall_app in Hs as [Hsp Hst].
  rewrite (decodeURL_ref_app n) by (done || (destruct t; [cbn in Ht; lia|done])). unfold base64URLDecodeSWAR.
  rewrite (proj2 (Nat.eqb_neq _ _)) by lia.
  destruct (decide (length t = 1)%nat) as [H1|H1].
  - exists st. rewrite Hl, H1. destruct (div_mod_groups n 1) as [_ ->]; [lia|].
    destruct t as [|a [|]]; try done. cbn. by destruct (decode_groups true p).
  - assert (Nat.eqb (length (p ++ t) mod 4) 1 = false) as ->.
    { rewrite Hl. apply Nat.eqb_neq. destruct (decide (length t = 4)%nat) as [->|].
      - replace (4 * n + 4)%nat with (4 * S n + 0)%nat by lia.
        destruct (div_mod_groups (S n) 0) as [_ ->]; lia.
      - destruct (div_mod_groups n (length t)) as [_ ->]; lia. }
    assert (2 <= length (url_tail t))%nat.
    { pattern (url_tail t), (decodeURL_ref t). apply url_tail_cases; [lia|intros; cbn; lia..]. }
    destruct (base64DecodeSWARMainLoop_spec true n p t st 0 true) as (st1 & e1 & -> & Hd1);
      [done..|unfold room in *; lia|]. cbn [mbind option_bind].
    destruct (base64URLDecodeTailSWAR_spec t st1 e1 (is_some (decode_groups true p)))
      as (st2 & e2 & -> & Hd2); [done|lia|by eapply decodes_status in Hd1|by eapply decodes_room|].
    cbn [mbind option_bind].
    pose proof (decodes_app _ _ true _ _ _ _ _ _ _ _ _ Hd1 Hd2) as Hd.
    apply decodes_result in Hd as [He Hw]; [|lia]. exists st2.
    split; [exact (f_equal (fun b => Some (b, st2)) He)|exact Hw].
Qed.
