(* ===== verification/Base64Simd.v ===== *)
(** Base64 with vector instructions: [detail/base64_detail/Base64Simd.h] and its platform
    [Base64_SSE4_2_Platform.h].

    The intrinsics of the platform are those of [Sse].  The class [PlatformDelegate] is the template
    parameter of the vector loops and [PlatformLaws] is what the loops rely on; the SSE4.2 platform
    is an instance of both, and the encoder and decoder are proved for every instance. *)
From S2P Require Import Prelude Sse Base64.

(** ** The vector loops ([Base64Simd.h]) *)

Class PlatformDelegate := {
  kRegisterSize : nat;
  encodeToIndexes : list Z -> list Z;
  lookupByIndex : list Z -> list Z -> list Z;
  initError : list Z;
  hasErrors : list Z -> bool;
  decodeToIndex : list Z -> list Z -> list Z * list Z;
  packIndexesToBytes : list Z -> list Z;
}.

(** [int8_t] entries. *)
Definition kEncodeTable : list Z :=
  i8 <$> [65 - 0; 97 - 26; 48 - 52; 49 - 53; 50 - 54; 51 - 55; 52 - 56; 53 - 57; 54 - 58; 55 - 59;
          56 - 60; 57 - 61; 43 - 62; 47 - 63; 61 - 64; 0 - 65].

Definition kEncodeURLTable : list Z :=
  let res := kEncodeTable in
  let res := <[12%nat := i8 (default 0 (res !! 12%nat) + (45 - 43))]> res in
  <[13%nat := i8 (default 0 (res !! 13%nat) + (95 - 47))]> res.

Section Loops.
Context `{P : PlatformDelegate}.

(** A whole register from the text. *)
Definition loadu (s : list Z) : option (list Z) :=
  if decide (kRegisterSize <= length s)%nat then Some (take kRegisterSize s) else None.

Fixpoint simd_encode_loop (isURL : bool) (fuel : nat) (s : list Z) (st : output) :
    option (list Z * output) :=
  if Nat.leb kRegisterSize (length s) then
    match fuel with
    | O => None
    | S fuel =>
        loaded ← loadu s;
        let idxs := encodeToIndexes loaded in
        let encoded := lookupByIndex idxs (if isURL then kEncodeURLTable else kEncodeTable) in
        st ← put_advance st encoded kRegisterSize;
        simd_encode_loop isURL fuel (drop (kRegisterSize * 3 / 4) s) st
    end
  else Some (s, st).

Definition base64SimdEncodeImpl (isURL : bool) (s : list Z) (st : output) : option output :=
  '(s, st) ← simd_encode_loop isURL (length s) s st;
  if isURL then base64URLEncodeScalar s st else base64EncodeScalar s st.

Definition base64SimdEncode : list Z -> output -> option output := base64SimdEncodeImpl false.
Definition base64URLSimdEncode : list Z -> output -> option output := base64SimdEncodeImpl true.

Definition kSimdLimit : nat := kRegisterSize * 3 / 2.

Fixpoint simd_decode_loop (fuel : nat) (s : list Z) (st : output) (errorAccumulator : list Z) :
    option (list Z * output * list Z) :=
  if Nat.leb kSimdLimit (length s) then
    match fuel with
    | O => None
    | S fuel =>
        reg ← loadu s;
        let '(idxs, errorAccumulator) := decodeToIndex reg errorAccumulator in
        let cvtd := packIndexesToBytes idxs in
        st ← put_advance st cvtd (kRegisterSize * 3 / 4);
        simd_decode_loop fuel (drop kRegisterSize s) st errorAccumulator
    end
  else Some (s, st, errorAccumulator).

Definition base64SimdDecode (s : list Z) (st : output) : option (bool * output) :=
  '(s, st, errorAccumulator) ← simd_decode_loop (length s) s st initError;
  if hasErrors errorAccumulator then Some (false, st) else base64DecodeSWAR s st.
End Loops.

(** ** The SSE4.2 platform ([Base64_SSE4_2_Platform.h]) *)

Module Sse42.
Definition encodeToIndexesPshuvbMask : list Z :=
  mm_set_epi8 [10; 11; 9; 10; 7; 8; 6; 7; 4; 5; 3; 4; 1; 2; 0; 1].

Definition encodeToIndexes (reg : list Z) : list Z :=
  let reg := mm_shuffle_epi8 reg encodeToIndexesPshuvbMask in
  let t0 := mm_and_si128 reg (mm_set1_epi32 0x0fc0fc00) in
  let t1 := mm_mulhi_epu16 t0 (mm_set1_epi32 0x04000040) in
  let t2 := mm_and_si128 reg (mm_set1_epi32 0x003f03f0) in
  let t3 := mm_mullo_epi16 t2 (mm_set1_epi32 0x01000010) in
  mm_or_si128 t1 t3.

Definition lookupByIndex (reg offsetTablePtr : list Z) : list Z :=
  let offsetTable := u8 <$> offsetTablePtr in
  let reduceTooMuch := mm_subs_epu8 reg (mm_set1_epi8 51) in
  let biggerThan25 := mm_cmpgt_epi8 reg (mm_set1_epi8 25) in
  let offsetLookup := mm_sub_epi8 reduceTooMuch biggerThan25 in
  mm_add_epi8 reg (mm_shuffle_epi8 offsetTable offsetLookup).

Definition separatePlusAndSlash (reg : list Z) : list Z :=
  let leThanPlus := mm_cmplt_epi8 reg (mm_set1_epi8 (43 + 1)) in
  let plusAndBelowOffset := mm_and_si128 leThanPlus (mm_set1_epi8 0x0f) in
  mm_subs_epi8 reg plusAndBelowOffset.

Definition initError : list Z := mm_set1_epi8 0xff.

Definition hasErrors (errorAccumulator : list Z) : bool :=
  negb (mm_movemask_epi8 (mm_cmpeq_epi8 errorAccumulator mm_setzero_si128) =? 0).

(** The bits of the given nibbles. *)
Definition build (nibbles : list Z) : Z :=
  fold_left (fun res nibble => u8 (res .| (1 .<< nibble))) nibbles 0.

Definition kValidHighByLowNibble : list Z :=
  [build [3; 5; 7]] ++ replicate 9 (build [3; 4; 5; 6; 7]) ++
  [build [4; 5; 6; 7]; build [4; 6]; build [1; 4; 6]; build [4; 6]; build [4; 6]; build [2; 4; 6]].

Definition kOffsetByHighNibbleDecodeTable : list Z :=
  i8 <$> [0; 62 - 0x1c; 63 - 47; 52 - 48; 0 - 65; 0 - 65; 26 - 97; 26 - 97;
          0; 0; 0; 0; 0; 0; 0; 0].

Definition decodeErrorDetection (reg higherNibbles : list Z) : list Z :=
  let s1_7 := i8 (1 .<< 7) in
  let pows2 := mm_set_epi8 [0; 0; 0; 0; 0; 0; 0; 0;
    s1_7; 1 .<< 6; 1 .<< 5; 1 .<< 4; 1 .<< 3; 1 .<< 2; 1 .<< 1; 1 .<< 0] in
  let higherNibbleBit := mm_shuffle_epi8 pows2 higherNibbles in
  let legalHigherNibblesBits := mm_shuffle_epi8 kValidHighByLowNibble reg in
  mm_and_si128 higherNibbleBit legalHigherNibblesBits.

Definition decodeComputeIndexes (reg higherNibbles : list Z) : list Z :=
  let offset := mm_shuffle_epi8 (u8 <$> kOffsetByHighNibbleDecodeTable) higherNibbles in
  mm_add_epi8 offset reg.

Definition decodeToIndex (reg errorAccumulator : list Z) : list Z * list Z :=
  let reg := separatePlusAndSlash reg in
  let higherNibbles := mm_and_si128 (mm_srli_epi32 reg 4) (mm_set1_epi8 0x0f) in
  let errorAccumulator := mm_min_epu8 (decodeErrorDetection reg higherNibbles) errorAccumulator in
  (decodeComputeIndexes reg higherNibbles, errorAccumulator).

Definition packIndexesToBytes (reg : list Z) : list Z :=
  let cccddd_aaabbb := mm_maddubs_epi16 reg (mm_set1_epi16 0x0140) in
  let aaabbbcccddd := mm_madd_epi16 cccddd_aaabbb (mm_set1_epi32 0x11000) in
  mm_shuffle_epi8 aaabbbcccddd
    (mm_set_epi8 [-1; -1; -1; -1; 12; 13; 14; 8; 9; 10; 4; 5; 6; 0; 1; 2]).
End Sse42.

#[global] Instance Base64_SSE4_2_Platform : PlatformDelegate := {|
  kRegisterSize := 16;
  encodeToIndexes := Sse42.encodeToIndexes;
  lookupByIndex := Sse42.lookupByIndex;
  initError := Sse42.initError;
  hasErrors := Sse42.hasErrors;
  decodeToIndex := Sse42.decodeToIndex;
  packIndexesToBytes := Sse42.packIndexesToBytes;
|}.

(** ** What the loops rely on

    [error_ok] is an invariant of the platform's error accumulators. *)
Class PlatformLaws (P : PlatformDelegate) := {
  error_ok : list Z -> Prop;
  law_size : exists q, (1 <= q)%nat /\ kRegisterSize = (16 * q)%nat;
  law_encode (isURL : bool) reg :
    length reg = kRegisterSize -> Forall is_byte reg ->
    lookupByIndex (encodeToIndexes reg) (if isURL then kEncodeURLTable else kEncodeTable) =
      encode_ref isURL (take (kRegisterSize * 3 / 4) reg);
  law_init : error_ok initError /\ hasErrors initError = false;
  law_error reg err :
    length reg = kRegisterSize -> Forall is_byte reg -> error_ok err ->
    error_ok (decodeToIndex reg err).2 /\
    hasErrors (decodeToIndex reg err).2 = hasErrors err || negb (is_some (decode_groups false reg));
  law_length reg err :
    length reg = kRegisterSize -> Forall is_byte reg ->
    length (packIndexesToBytes (decodeToIndex reg err).1) = kRegisterSize;
  law_decode reg err l :
    length reg = kRegisterSize -> Forall is_byte reg -> decode_groups false reg = Some l ->
    take (kRegisterSize * 3 / 4) (packIndexesToBytes (decodeToIndex reg err).1) = l;
}.

Lemma encode_ref_app isURL n p s :
  length p = (3 * n)%nat -> encode_ref isURL (p ++ s) = encode_ref isURL p ++ encode_ref isURL s.
Proof.
  revert p. induction n as [|n IH]; intros p Hl.
  - by destruct p.
  - destruct p as [|a [|b [|c p]]]; cbn [length] in Hl; try lia.
    change (encode_ref isURL ((a :: b :: c :: p) ++ s)) with
      (encode_ref isURL [a; b; c] ++ encode_ref isURL (p ++ s)).
    rewrite IH by lia. by rewrite app_assoc.
Qed.

Lemma decode_groups_app isURL n p s :
  length p = (4 * n)%nat ->
  decode_groups isURL (p ++ s) =
    (x ← decode_groups isURL p; y ← decode_groups isURL s; Some (x ++ y)).
Proof.
  revert p. induction n as [|n IH]; intros p Hl.
  - destruct p; [|done]. cbn. by destruct (decode_groups isURL s).
  - destruct p as [|a [|b [|c [|d p]]]]; cbn [length] in Hl; try lia. cbn [app decode_groups].
    by rewrite IH, bind_app_assoc by lia.
Qed.

Lemma decode_groups_length isURL n p l :
  length p = (4 * n)%nat -> decode_groups isURL p = Some l -> length l = (3 * n)%nat.
Proof.
  revert p l. induction n as [|n IH]; intros p l Hl Hd.
  - destruct p; [|done]. by injection Hd as <-.
  - destruct p as [|a [|b [|c [|d p]]]]; cbn [length] in Hl; try lia. cbn [decode_groups] in Hd.
    rewrite decode4_pack in Hd.
    destruct (digit isURL a), (digit isURL b), (digit isURL c), (digit isURL d); cbn in Hd; try done.
    destruct (decode_groups isURL p) as [y|] eqn:E; [|done]. injection Hd as <-. cbn.
    rewrite (IH p y) by (done || lia). lia.
Qed.

Section Theorems.
Context `{L : PlatformLaws}.

Lemma loadu_spec s : (kRegisterSize <= length s)%nat -> loadu s = Some (take kRegisterSize s).
Proof. intros Hs. unfold loadu. by rewrite decide_True. Qed.

Lemma simd_encode_loop_spec isURL fuel s st :
  (length s <= fuel)%nat -> Forall is_byte s -> room st (length (encode_ref isURL s)) ->
  exists n p s' st', s = p ++ s' /\ length p = (3 * n)%nat /\
    simd_encode_loop isURL fuel s st = Some (s', st') /\ wrote st (encode_ref isURL p) st'.
Proof.
  destruct law_size as (q & Hq & HR).
  assert (kRegisterSize * 3 / 4 = 12 * q)%nat as HA
    by (rewrite HR; replace (16 * q * 3)%nat with (12 * q * 4)%nat by lia; by rewrite Nat.div_mul).
  revert s st. induction fuel as [|fuel IH]; intros s st Hf Hs Hr.
  { exists 0%nat, [], s, st. split_and!; [done..| |apply wrote_nil].
    cbn. by rewrite (proj2 (Nat.leb_gt _ _)) by lia. }
  cbn [simd_encode_loop]. destruct (Nat.leb_spec kRegisterSize (length s)) as [Hl|Hl]; cycle 1.
  { exists 0%nat, [], s, st. split_and!; [done..|apply wrote_nil]. }
  rewrite loadu_spec, HA by done. cbn [mbind option_bind].
  rewrite law_encode by (rewrite ?length_take; lia || by apply Forall_take).
  rewrite HA, take_take, Nat.min_l by lia.
  assert (length (take (12 * q) s) = 3 * (4 * q))%nat as Hp by (rewrite length_take; lia).
  assert (length (encode_ref isURL (take (12 * q) s)) = kRegisterSize) as Hlen.
  { rewrite encode_ref_length, Hp. destruct isURL;
      unfold base64URLEncodedSize, base64EncodedSize; rewrite (Nat.mul_comm 3).
    - rewrite Nat.div_mul, Nat.Div0.mod_mul by lia. cbn. lia.
    - rewrite Nat.div_add_l by lia. change (2 / 3)%nat with 0%nat. lia. }
  rewrite <- (take_drop (12 * q) s), (encode_ref_app _ _ _ _ Hp), length_app, Hlen in Hr.
  destruct (put_advance_spec st (encode_ref isURL (take (12 * q) s)) kRegisterSize)
    as (st1 & -> & Hw1); [unfold room in *; lia|lia|]. cbn [mbind option_bind].
  rewrite firstn_all2 in Hw1 by lia.
  destruct (IH (drop (12 * q) s) st1) as (n & p & s' & st' & Hs' & Hn & Hl' & Hw').
  - rewrite length_drop. lia.
  - by apply Forall_drop.
  - eapply wrote_room; [done|]. by rewrite Hlen.
  - exists (4 * q + n)%nat, (take (12 * q) s ++ p), s', st'. split_and!; [|rewrite length_app; lia|done|].
    + by rewrite <- app_assoc, <- Hs', take_drop.
    + rewrite (encode_ref_app _ _ _ _ Hp). by eapply wrote_trans.
Qed.

(** The vector encoder writes the text of the reference. *)
Lemma base64SimdEncodeImpl_spec isURL s st :
  Forall is_byte s -> room st (length (encode_ref isURL s)) ->
  exists st', base64SimdEncodeImpl isURL s st = Some st' /\ wrote st (encode_ref isURL s) st'.
Proof.
  intros Hs Hr. unfold base64SimdEncodeImpl.
  destruct (simd_encode_loop_spec isURL (length s) s st) as (n & p & s' & st1 & -> & Hp & -> & Hw);
    [done..|]. cbn [mbind option_bind].
  apply Forall_app in Hs as [_ Hs]. rewrite (encode_ref_app _ n) in * by done.
  rewrite length_app in Hr.
  destruct (puts_spec st1 (encode_ref isURL s')) as (st' & Hput & Hw'); [by eapply wrote_room|].
  exists st'. split; [|by eapply wrote_trans].
  destruct isURL; [unfold base64URLEncodeScalar|unfold base64EncodeScalar]; by rewrite encode_puts.
Qed.

(** The room a text needs, register by register. *)
Lemma decode_room q n : (24 * q <= n -> 0 < q -> 16 * q <= n / 4 * 3 - 2 /\
  n / 4 * 3 - 2 = 12 * q + ((n - 16 * q) / 4 * 3 - 2))%nat.
Proof using.
  intros Hn Hq. pose proof (Nat.div_le_mono (2 * q * 4) (n - 16 * q) 4). rewrite Nat.div_mul in * by lia.
  assert (n / 4 = (n - 16 * q) / 4 + 4 * q)%nat as -> by (rewrite <- Nat.div_add by lia; f_equal; lia). lia.
Qed.

Lemma simd_decode_loop_spec fuel s st err :
  (length s <= fuel)%nat -> Forall is_byte s -> error_ok err -> room st (length s / 4 * 3 - 2) ->
  exists n p s' st' err' out, s = p ++ s' /\ length p = (4 * n)%nat /\
    simd_decode_loop fuel s st err = Some (s', st', err') /\
    (p = [] \/ 8 <= length s')%nat /\ wrote st out st' /\ length out = (3 * n)%nat /\
    hasErrors err' = hasErrors err || negb (is_some (decode_groups false p)) /\
    (forall l, decode_groups false p = Some l -> out = l).
Proof.
  destruct law_size as (q & Hq & HR).
  assert (kRegisterSize * 3 / 4 = 12 * q)%nat as HA
    by (rewrite HR; replace (16 * q * 3)%nat with (12 * q * 4)%nat by lia; by rewrite Nat.div_mul).
  assert (kSimdLimit = 24 * q)%nat as HL
    by (unfold kSimdLimit; rewrite HR; replace (16 * q * 3)%nat with (24 * q * 2)%nat by lia;
        by rewrite Nat.div_mul).
  revert s st err. induction fuel as [|fuel IH]; intros s st err Hf Hs He Hr.
  { exists 0%nat, [], s, st, err, [].
    split_and!; [done..| |by left|apply wrote_nil|done|by rewrite orb_false_r|by intros ? [= <-]].
    cbn [simd_decode_loop]. by rewrite (proj2 (Nat.leb_gt _ _)) by lia. }
  cbn [simd_decode_loop]. destruct (Nat.leb_spec kSimdLimit (length s)) as [Hl|Hl]; cycle 1.
  { exists 0%nat, [], s, st, err, [].
    split_and!; [done..|by left|apply wrote_nil|done|by rewrite orb_false_r|by intros ? [= <-]]. }
  rewrite loadu_spec, HA by lia. cbn [mbind option_bind].
  set (reg := take kRegisterSize s).
  assert (length reg = kRegisterSize) as Hreg by (subst reg; rewrite length_take; lia).
  assert (Forall is_byte reg) as Hbytes by by apply Forall_take.
  destruct (law_error reg err Hreg Hbytes He) as [He1 Herr].
  pose proof (law_length reg err Hreg Hbytes) as Hplen.
  pose proof (fun l => law_decode reg err l Hreg Hbytes) as Hdec.
  destruct (decodeToIndex reg err) as [idxs err1]. cbn [fst snd] in *.
  destruct (decode_room q (length s)) as [Hbig Hsize]; [lia|lia|]. rewrite <- HR, <- length_drop in Hsize at 1.
  destruct (put_advance_spec st (packIndexesToBytes idxs) (12 * q)) as (st1 & -> & Hw1);
    [unfold room in *; lia|lia|]. cbn [mbind option_bind].
  destruct (IH (drop kRegisterSize s) st1 err1)
    as (n & p & s' & st' & err' & out & Hs' & Hp & -> & Hleft & Hw & Hlen & Herr' & Hout).
  - rewrite length_drop. lia.
  - by apply Forall_drop.
  - done.
  - eapply wrote_room; [done|]. rewrite length_take, Hplen, Nat.min_l by lia. by rewrite <- Hsize.
  - exists (4 * q + n)%nat, (reg ++ p), s', st', err', (take (12 * q) (packIndexesToBytes idxs) ++ out).
    assert (decode_groups false (reg ++ p) =
      (x ← decode_groups false reg; y ← decode_groups false p; Some (x ++ y))) as Hg
      by (apply (decode_groups_app _ (4 * q)); lia).
    split_and!; [|rewrite length_app; lia|done| |by eapply wrote_trans| | |].
    + rewrite <- app_assoc, <- Hs'. symmetry. apply take_drop.
    + right. destruct Hleft as [->|]; [|done]. cbn in Hs'. rewrite <- Hs', length_drop. lia.
    + rewrite length_app, length_take. lia.
    + rewrite Herr', Herr, Hg. destruct (decode_groups false reg), (decode_groups false p), (hasErrors err); done.
    + intros l. rewrite Hg. destruct (decode_groups false reg) as [x|]; [|done].
      destruct (decode_groups false p) as [y|]; [|done]. cbn [mbind option_bind]. intros [= <-].
      by rewrite <- HA, (Hdec x), (Hout y).
Qed.

(** The size of a text is the size of its first groups and of what follows. *)
Lemma base64DecodedSize_groups n p s :
  length p = (4 * n)%nat -> (4 <= length s)%nat ->
  base64DecodedSize (p ++ s) = (m ← base64DecodedSize s; Some (3 * n + m)%nat).
Proof.
  intros Hp Hs. unfold base64DecodedSize. rewrite length_app, Hp.
  rewrite !(proj2 (Nat.ltb_ge _ _)) by lia.
  unfold base64PaddingToSubtract. rewrite !from_end_app by lia.
  unfold from_end. rewrite !decide_True by lia.
  destruct (lookup_lt_is_Some_2 s (length s - 1)) as [x ->]; [lia|].
  destruct (lookup_lt_is_Some_2 s (length s - 2)) as [y ->]; [lia|]. cbn [mbind option_bind].
  replace (4 * n + length s)%nat with (length s + n * 4)%nat by lia. rewrite Nat.div_add by lia.
  pose proof (Nat.div_le_mono 4 (length s) 4 ltac:(lia) Hs). change (4 / 4)%nat with 1%nat in *.
  f_equal. destruct (x =? chr_eq), (y =? chr_eq); cbn [andb Nat.b2n]; lia.
Qed.

Lemma base64DecodedSize_bound s n : base64DecodedSize s = Some n -> (length s / 4 * 3 - 2 <= n)%nat.
Proof.
  unfold base64DecodedSize. destruct (Nat.ltb_spec (length s) 4).
  - intros [= <-]. by rewrite Nat.div_small.
  - destruct (base64PaddingToSubtract s) as [k|] eqn:E; [|done]. cbn. intros [= <-].
    assert (k <= 2)%nat; [|lia]. unfold base64PaddingToSubtract in E.
    destruct (from_end s 1), (from_end s 2); cbn in E; try done. injection E as <-.
    by destruct (_ =? _), (_ =? _); cbn; lia.
Qed.

(** The vector decoder meets the same contract as the others: its stores of whole registers stay
    inside a buffer of the decoded size. *)
Lemma base64SimdDecode_spec : decoder_spec base64SimdDecode decode_ref base64DecodedSize.
Proof.
  intros s st Hs. destruct (base64DecodedSize_total s) as [n Hn]. exists n. split; [done|]. intros Hr.
  destruct law_init as [Hi Hi']. pose proof (base64DecodedSize_bound s n Hn) as Hb.
  unfold base64SimdDecode.
  destruct (simd_decode_loop_spec (length s) s st initError)
    as (k & p & s' & st1 & err & out & -> & Hp & -> & Hleft & Hw & Hlen & Herr & Hout);
    [done..|unfold room in *; lia|]. cbn [mbind option_bind]. rewrite Hi' in Herr. cbn [orb] in Herr.
  destruct Hleft as [->|H8].
  - assert (out = []) as -> by by apply Hout. rewrite Herr. cbn [is_some decode_groups negb app] in *.
    destruct (base64DecodeSWAR_spec s' st1 Hs) as (n' & Hn' & H). simplify_eq/=.
    destruct H as (st' & -> & H'); [eapply wrote_room; [done|exact Hr]|].
    exists st'. split; [done|]. intros l Hl. destruct (H' l Hl) as [Hw' <-]. split; [|done].
    by apply (wrote_trans _ [] st1).
  - apply Forall_app in Hs as [_ Hs].
    assert (s' <> []) as Hne by (intros ->; cbn in H8; lia).
    rewrite (decode_ref_app k) by done. rewrite Herr.
    destruct (decode_groups false p) as [x|] eqn:Ex; cbn [is_some negb mbind option_bind];
      [|by exists st1].
    destruct (base64DecodeSWAR_spec s' st1 Hs) as (n' & Hn' & H).
    rewrite (base64DecodedSize_groups k), Hn' in Hn by (done || lia). injection Hn as <-.
    destruct H as (st' & -> & H'); [eapply wrote_room; [done|]; by rewrite Hlen|].
    exists st'. split; [by destruct (decode_ref s')|]. intros l.
    destruct (decode_ref s') as [y|]; [|done]. cbn. intros [= <-].
    destruct (H' y eq_refl) as [Hw' <-]. rewrite (Hout x eq_refl) in *. split.
    + by eapply wrote_trans.
    + rewrite length_app. lia.
Qed.
End Theorems.

(** ** The SSE4.2 platform meets the laws *)

(** *** Decoding, byte by byte *)

Definition sep_byte (c : Z) : Z :=
  u8 (sat_i8 (i8 c - i8 (mask8 (i8 c <? i8 (u8 44)) .& u8 0x0f))).

Lemma separatePlusAndSlash_bytes reg :
  length reg = 16%nat -> Sse42.separatePlusAndSlash reg = sep_byte <$> reg.
Proof.
  intros Hr. unfold Sse42.separatePlusAndSlash, mm_cmplt_epi8, mm_and_si128, mm_set1_epi8, mm_subs_epi8.
  rewrite (zip_set1 _ reg), zip_set1, <- list_fmap_compose, zip_fmap_right
    by (rewrite ?length_fmap; done).
  done.
Qed.

(** Shifting words right by four bits leaves the high half of each byte in its low half. *)
Lemma byte_at_nibble w k : byte_at (w .>> 4) k .& 0xf = byte_at w k / 16.
Proof.
  rewrite <- (shiftr_div _ 4) by lia. apply Z.bits_inj'. intros i Hi.
  rewrite Z.land_spec, Z.shiftr_spec by lia. destruct (decide (i < 4)).
  - rewrite !testbit_byte_at, Z.shiftr_spec by lia.
    change 0xf with (Z.ones 4). rewrite Z.ones_spec_low, andb_true_r by lia. f_equal. lia.
  - change 0xf with (Z.ones 4). rewrite Z.ones_spec_high, andb_false_r by lia.
    symmetry. apply (testbit_high _ 8); [apply byte_at_byte|lia].
Qed.

Lemma srli_nibbles n r :
  length r = (4 * n)%nat -> Forall is_byte r ->
  (fun x => x .& 0xf) <$> mm_srli_epi32 r 4 = (fun x => x / 16) <$> r.
Proof.
  revert r. induction n as [|n IH]; intros r Hl Hr.
  - by destruct r.
  - destruct r as [|a [|b [|c [|d r]]]]; cbn [length] in Hl; try lia.
    change (mm_srli_epi32 (a :: b :: c :: d :: r) 4) with
      (bytes32 (le_word [a; b; c; d] .>> 4) ++ mm_srli_epi32 r 4).
    rewrite !Forall_cons in Hr. destruct_and?.
    rewrite fmap_app, IH by (done || lia). unfold bytes32. cbn [seq fmap list_fmap app].
    rewrite !byte_at_nibble, !byte_at_le_word by by repeat apply Forall_cons_2. done.
Qed.

(** The error bits and the index of a byte. *)
Definition error_byte (c : Z) : Z :=
  shuffle_byte (mm_set_epi8 [0; 0; 0; 0; 0; 0; 0; 0; i8 (1 .<< 7); 1 .<< 6; 1 .<< 5; 1 .<< 4;
    1 .<< 3; 1 .<< 2; 1 .<< 1; 1 .<< 0]) (sep_byte c / 16)
  .& shuffle_byte Sse42.kValidHighByLowNibble (sep_byte c).

Definition index_byte (c : Z) : Z :=
  u8 (shuffle_byte (u8 <$> Sse42.kOffsetByHighNibbleDecodeTable) (sep_byte c / 16) + sep_byte c).

Lemma error_byte_spec c :
  is_byte c -> is_byte (error_byte c) /\ (error_byte c =? 0) = negb (is_some (digit false c)).
Proof.
  intros Hc. apply (byte_forall (fun c => (0 <=? error_byte c) && (error_byte c <? 256) &&
    Bool.eqb (error_byte c =? 0) (negb (is_some (digit false c))))) in Hc; [|by vm_compute].
  apply andb_true_iff in Hc as [[H1 H2]%andb_true_iff H3%Bool.eqb_prop]. split; [|done].
  unfold is_uint. lia.
Qed.

Lemma index_byte_spec c d : is_byte c -> digit false c = Some d -> index_byte c = d.
Proof.
  intros Hc Hd. apply (byte_forall (fun c =>
    match digit false c with Some d => index_byte c =? d | None => true end)) in Hc; [|by vm_compute].
  rewrite Hd in Hc. by apply Z.eqb_eq.
Qed.

Lemma sep_byte_byte c : is_byte (sep_byte c).
Proof. by apply wrap_range. Qed.

Lemma decodeToIndex_bytes reg err :
  length reg = 16%nat -> Forall is_byte reg ->
  Sse42.decodeToIndex reg err = (index_byte <$> reg, zip_with Z.min (error_byte <$> reg) err).
Proof.
  intros Hl Hr. unfold Sse42.decodeToIndex. rewrite separatePlusAndSlash_bytes by done.
  assert (mm_and_si128 (mm_srli_epi32 (sep_byte <$> reg) 4) (mm_set1_epi8 15) =
    (fun c => sep_byte c / 16) <$> reg) as ->.
  { unfold mm_and_si128, mm_set1_epi8. rewrite zip_set1, (srli_nibbles 4), <- list_fmap_compose; [done|..].
    - by rewrite length_fmap.
    - apply Forall_fmap, Forall_true. intros x. apply sep_byte_byte.
    - by do 16 (destruct reg as [|? reg]; [done|]); destruct reg. }
  unfold Sse42.decodeErrorDetection, Sse42.decodeComputeIndexes, mm_shuffle_epi8, mm_and_si128,
    mm_add_epi8, mm_min_epu8.
  by rewrite <- !list_fmap_compose, !zip_fmap_both.
Qed.

(** *** Errors *)

Lemma hasErrors_bytes err :
  length err = 16%nat -> Sse42.hasErrors err = existsb (fun e => e =? 0) err.
Proof.
  intros Hl. unfold Sse42.hasErrors, mm_cmpeq_epi8, mm_setzero_si128. rewrite zip_set1 by done.
  clear Hl. assert (forall r, 0 <= mm_movemask_epi8 ((fun x => mask8 (x =? 0)) <$> r) /\
    negb (mm_movemask_epi8 ((fun x => mask8 (x =? 0)) <$> r) =? 0) = existsb (fun e => e =? 0) r) as H;
    [|apply H].
  induction r as [|x r [IH0 IH]]; [done|]. cbn [fmap list_fmap mm_movemask_epi8 existsb].
  rewrite <- IH. destruct (x =? 0); cbn [mask8]; [change (0xff .>> 7) with 1|change (0 .>> 7) with 0].
  - split; [lia|]. cbn [orb]. apply negb_true_iff, Z.eqb_neq. lia.
  - split; [lia|]. cbn [orb]. f_equal.
    destruct (Z.eqb_spec (mm_movemask_epi8 ((fun x => mask8 (x =? 0)) <$> r)) 0); [lia|].
    apply Z.eqb_neq. lia.
Qed.

Lemma decode_groups_valid n r :
  length r = (4 * n)%nat ->
  is_some (decode_groups false r) = forallb (fun c => is_some (digit false c)) r.
Proof.
  revert r. induction n as [|n IH]; intros r Hl.
  - by destruct r.
  - destruct r as [|a [|b [|c [|d r]]]]; cbn [length] in Hl; try lia.
    cbn [decode_groups forallb]. rewrite <- IH, decode4_pack by lia.
    destruct (digit false a), (digit false b), (digit false c), (digit false d); cbn; try done.
    by destruct (decode_groups false r).
Qed.

Lemma existsb_errors reg err :
  length reg = length err -> Forall is_byte reg -> Forall is_byte err ->
  existsb (fun e => e =? 0) (zip_with Z.min (error_byte <$> reg) err) =
    existsb (fun e => e =? 0) err || negb (forallb (fun c => is_some (digit false c)) reg).
Proof.
  intros Hl Hr He. revert err Hl He. induction Hr as [|c reg Hc Hr IH]; intros [|e err] Hl He;
    try done. cbn [fmap list_fmap zip_with existsb forallb]. injection Hl as Hl.
  rewrite Forall_cons in He. destruct He as [He Hes]. rewrite IH by done.
  destruct (error_byte_spec c Hc) as [Hb Hz]. rewrite negb_andb, <- Hz. unfold is_uint in *.
  assert ((error_byte c `min` e =? 0) = (error_byte c =? 0) || (e =? 0)) as ->.
  { destruct (Z.eqb_spec (error_byte c) 0), (Z.eqb_spec e 0); cbn [orb];
      (apply Z.eqb_eq; lia) || (apply Z.eqb_neq; lia). }
  by destruct (error_byte c =? 0), (e =? 0), (existsb _ err), (forallb _ reg).
Qed.

Definition sse_error_ok (err : list Z) : Prop := length err = 16%nat /\ Forall is_byte err.

(** *** Packing *)

Lemma le_word_bytes16 v : is_uint 16 v -> le_word (bytes16 v) = v.
Proof. unfold is_uint, bytes16, byte_at. intros Hv. cbn -[Z.div Z.modulo Z.mul]. divlia. Qed.

(** The two steps on a group: two sums of sixteen bits, then their sum of thirty-two. *)
Lemma maddubs_pair a b :
  is_digit a -> is_digit b -> sat_i16 (a * i8 (u8 0x40) + b * i8 (u8 0x01)) = a * 64 + b.
Proof.
  unfold is_uint, sat_i16. intros. change (i8 (u8 0x40)) with 64. change (i8 (u8 0x01)) with 1. lia.
Qed.

Definition packed_word (a b c d : Z) : Z := a * 262144 + b * 4096 + c * 64 + d.

Lemma packed_word_bytes a b c d :
  is_digit a -> is_digit b -> is_digit c -> is_digit d ->
  [byte_at (packed_word a b c d) 2; byte_at (packed_word a b c d) 1; byte_at (packed_word a b c d) 0]
  = pack a b c d.
Proof.
  unfold is_uint, pack, packed_word, byte_at. intros. cbn [Z.of_nat].
  f_equal; [|f_equal; [|f_equal]]; cbn -[Z.div Z.modulo Z.mul Z.add]; divlia.
Qed.

Lemma madd_group a b c d :
  is_digit a -> is_digit b -> is_digit c -> is_digit d ->
  swrap 16 (le_word (bytes16 (a * 64 + b))) * swrap 16 0x1000 +
  swrap 16 (le_word (bytes16 (c * 64 + d))) * swrap 16 0x1 = packed_word a b c d.
Proof.
  unfold is_uint. intros. rewrite !le_word_bytes16 by (unfold is_uint; lia).
  rewrite !(swrap_small 16) by (unfold is_sint; lia). unfold packed_word. lia.
Qed.

Lemma split_register (l : list Z) : length l = 16%nat ->
  exists a0 a1 a2 a3 b0 b1 b2 b3 c0 c1 c2 c3 d0 d1 d2 d3,
    l = [a0; a1; a2; a3; b0; b1; b2; b3; c0; c1; c2; c3; d0; d1; d2; d3].
Proof.
  intros Hl. do 16 (destruct l as [|? l]; [done|]). destruct l; [|done]. by repeat eexists.
Qed.

Lemma packIndexesToBytes_groups a0 a1 a2 a3 b0 b1 b2 b3 c0 c1 c2 c3 d0 d1 d2 d3 :
  Forall is_digit [a0; a1; a2; a3; b0; b1; b2; b3; c0; c1; c2; c3; d0; d1; d2; d3] ->
  Sse42.packIndexesToBytes [a0; a1; a2; a3; b0; b1; b2; b3; c0; c1; c2; c3; d0; d1; d2; d3] =
  pack a0 a1 a2 a3 ++ pack b0 b1 b2 b3 ++ pack c0 c1 c2 c3 ++ pack d0 d1 d2 d3 ++ [0; 0; 0; 0].
Proof.
  intros Hd. rewrite !Forall_cons in Hd. destruct_and?. unfold Sse42.packIndexesToBytes.
  assert (mm_maddubs_epi16 [a0; a1; a2; a3; b0; b1; b2; b3; c0; c1; c2; c3; d0; d1; d2; d3]
    (mm_set1_epi16 0x0140) =
    of_lanes16 [a0 * 64 + a1; a2 * 64 + a3; b0 * 64 + b1; b2 * 64 + b3;
                c0 * 64 + c1; c2 * 64 + c3; d0 * 64 + d1; d2 * 64 + d3]) as ->.
  { unfold mm_maddubs_epi16. change (mm_set1_epi16 0x0140) with
      (concat (replicate 8 [u8 0x40; u8 0x01])).
    cbn [replicate concat app zip_with sum_pairs fmap list_fmap].
    by rewrite !maddubs_pair. }
  assert (forall w1 w2 w3 w4 w5 w6 w7 w8,
    mm_madd_epi16 (of_lanes16 [w1; w2; w3; w4; w5; w6; w7; w8]) (mm_set1_epi32 0x11000) =
    of_lanes32 [swrap 16 (le_word (bytes16 w1)) * swrap 16 0x1000 +
                swrap 16 (le_word (bytes16 w2)) * swrap 16 0x1;
                swrap 16 (le_word (bytes16 w3)) * swrap 16 0x1000 +
                swrap 16 (le_word (bytes16 w4)) * swrap 16 0x1;
                swrap 16 (le_word (bytes16 w5)) * swrap 16 0x1000 +
                swrap 16 (le_word (bytes16 w6)) * swrap 16 0x1;
                swrap 16 (le_word (bytes16 w7)) * swrap 16 0x1000 +
                swrap 16 (le_word (bytes16 w8)) * swrap 16 0x1]) as -> by reflexivity.
  rewrite !madd_group by done.
  rewrite <- !packed_word_bytes by done. reflexivity.
Qed.

(** *** Encoding *)

(** The two sixteen-bit lanes of a group of three bytes. *)
Definition lane_low (a b : Z) : list Z :=
  zip_with Z.lor (bytes16 ((le_word [b .& 0; a .& 0xfc] * 0x40) .>> 16))
    (bytes16 (u16 (le_word [b .& 0xf0; a .& 0x03] * 0x10))).

Definition lane_high (b c : Z) : list Z :=
  zip_with Z.lor (bytes16 ((le_word [c .& 0xc0; b .& 0x0f] * 0x0400) .>> 16))
    (bytes16 (u16 (le_word [c .& 0x3f; b .& 0] * 0x0100))).

Lemma land_high b : is_byte b ->
  b .& 0xfc = b / 4 * 4 /\ b .& 0xf0 = b / 16 * 16 /\ b .& 0xc0 = b / 64 * 64.
Proof.
  intros Hb. apply (byte_forall (fun b => (b .& 0xfc =? b / 4 * 4) && ((b .& 0xf0 =? b / 16 * 16) &&
    (b .& 0xc0 =? b / 64 * 64)))) in Hb; [|by vm_compute].
  rewrite !andb_true_iff, !Z.eqb_eq in Hb. exact Hb.
Qed.

Lemma bytes16_sum x y : is_byte x -> is_byte y -> bytes16 (x + 256 * y) = [x; y].
Proof.
  unfold is_uint, bytes16, byte_at. intros. cbn -[Z.div Z.modulo Z.mul Z.add].
  f_equal; [divlia|]. f_equal. divlia.
Qed.

Lemma lane_low_digits a b :
  is_byte a -> is_byte b -> lane_low a b = [a / 4; a mod 4 * 16 + b / 16].
Proof.
  intros Ha Hb. unfold lane_low. cbn [le_word]. rewrite Z.land_0_r.
  destruct (land_high a Ha) as (-> & _ & _), (land_high b Hb) as (_ & -> & _).
  rewrite (land_ones_mod a 2), shiftr_div by lia. unfold wrap, is_uint in *.
  assert ((0 + 256 * (a / 4 * 4 + 256 * 0)) * 64 / 2 ^ 16 = a / 4 + 256 * 0) as -> by divlia.
  assert (((b / 16 * 16 + 256 * (a mod 2 ^ 2 + 256 * 0)) * 16) mod 2 ^ 16 =
    0 + 256 * (a mod 4 * 16 + b / 16)) as -> by divlia.
  rewrite !bytes16_sum by (unfold is_uint; divlia). cbn [zip_with]. by rewrite Z.lor_0_r.
Qed.

Lemma lane_high_digits b c :
  is_byte b -> is_byte c -> lane_high b c = [b mod 16 * 4 + c / 64; c mod 64].
Proof.
  intros Hb Hc. unfold lane_high. cbn [le_word]. rewrite Z.land_0_r.
  destruct (land_high c Hc) as (_ & _ & ->).
  rewrite (land_ones_mod b 4), (land_ones_mod c 6), shiftr_div by lia. unfold wrap, is_uint in *.
  assert ((c / 64 * 64 + 256 * (b mod 2 ^ 4 + 256 * 0)) * 1024 / 2 ^ 16 =
    (b mod 16 * 4 + c / 64) + 256 * 0) as -> by divlia.
  assert (((c mod 2 ^ 6 + 256 * (0 + 256 * 0)) * 256) mod 2 ^ 16 = 0 + 256 * (c mod 64)) as -> by divlia.
  rewrite !bytes16_sum by (unfold is_uint; divlia). cbn [zip_with]. by rewrite Z.lor_0_r.
Qed.

(** The indexes of the first twelve bytes. *)
Lemma encodeToIndexes_lanes a0 a1 a2 a3 a4 a5 a6 a7 a8 a9 a10 a11 a12 a13 a14 a15 :
  Sse42.encodeToIndexes [a0; a1; a2; a3; a4; a5; a6; a7; a8; a9; a10; a11; a12; a13; a14; a15] =
  lane_low a0 a1 ++ lane_high a1 a2 ++ lane_low a3 a4 ++ lane_high a4 a5 ++
  lane_low a6 a7 ++ lane_high a7 a8 ++ lane_low a9 a10 ++ lane_high a10 a11.
Proof. reflexivity. Qed.

Definition symbol_byte (table : list Z) (i : Z) : Z :=
  u8 (i + shuffle_byte (u8 <$> table) (u8 (Z.max 0 (i - u8 51) - mask8 (i8 (u8 25) <? i8 i)))).

Lemma lookupByIndex_bytes table idxs :
  length idxs = 16%nat -> Sse42.lookupByIndex idxs table = symbol_byte table <$> idxs.
Proof.
  intros Hl. unfold Sse42.lookupByIndex, mm_subs_epu8, mm_cmpgt_epi8, mm_sub_epi8, mm_add_epi8,
    mm_shuffle_epi8, mm_set1_epi8.
  by rewrite !(zip_set1 _ idxs), zip_fmap_both, <- list_fmap_compose, zip_fmap_right by done.
Qed.

Lemma symbol_byte_digit (isURL : bool) d :
  is_digit d -> symbol_byte (if isURL then kEncodeURLTable else kEncodeTable) d = symbol isURL d.
Proof.
  intros Hd. apply Z.eqb_eq. revert Hd. apply (digit_forall (fun d =>
    symbol_byte (if isURL then kEncodeURLTable else kEncodeTable) d =? symbol isURL d)).
  destruct isURL; by vm_compute.
Qed.

Lemma symbols3_lookup (isURL : bool) a b c :
  is_byte a -> is_byte b -> is_byte c ->
  symbol_byte (if isURL then kEncodeURLTable else kEncodeTable) <$> lane_low a b ++ lane_high b c =
    symbols3 isURL a b c.
Proof.
  intros Ha Hb Hc. rewrite lane_low_digits, lane_high_digits by done.
  destruct (digits_of_3_range a b c) as (? & ? & ? & ?); [done..|].
  unfold symbols3. cbn [app fmap list_fmap]. by rewrite !symbol_byte_digit.
Qed.

Lemma sse_law_encode (isURL : bool) reg :
  length reg = 16%nat -> Forall is_byte reg ->
  Sse42.lookupByIndex (Sse42.encodeToIndexes reg) (if isURL then kEncodeURLTable else kEncodeTable) =
    encode_ref isURL (take 12 reg).
Proof.
  intros Hl Hr. destruct (split_register reg Hl) as
    (a0 & a1 & a2 & a3 & a4 & a5 & a6 & a7 & a8 & a9 & a10 & a11 & a12 & a13 & a14 & a15 & ->).
  rewrite !Forall_cons in Hr. destruct_and?.
  rewrite encodeToIndexes_lanes, lookupByIndex_bytes by reflexivity. cbn [take].
  rewrite !encode_ref_cons3, <- !symbols3_lookup, !app_assoc, <- !fmap_app by done.
  cbn [encode_ref]. by rewrite app_nil_r, !app_assoc.
Qed.

(** The indexes of a valid group are its digits. *)
Lemma decode4_indexes a b c d x :
  Forall is_byte [a; b; c; d] -> decode4 false a b c d = Some x ->
  Forall is_digit (index_byte <$> [a; b; c; d]) /\
  x = pack (index_byte a) (index_byte b) (index_byte c) (index_byte d).
Proof.
  rewrite decode4_pack, !Forall_cons. intros (? & ? & ? & ? & _).
  destruct (digit false a) eqn:Ea, (digit false b) eqn:Eb, (digit false c) eqn:Ec,
    (digit false d) eqn:Ed; cbn; try done. intros [= <-].
  erewrite !index_byte_spec by done. split; [|done].
  repeat apply Forall_cons_2; [by eapply digit_range..|done].
Qed.

Lemma decode_groups_cons a b c d s l :
  decode_groups false (a :: b :: c :: d :: s) = Some l ->
  exists x y, decode4 false a b c d = Some x /\ decode_groups false s = Some y /\ l = x ++ y.
Proof.
  cbn [decode_groups]. destruct (decode4 false a b c d) as [x|]; [|done].
  destruct (decode_groups false s) as [y|]; [|done]. cbn. intros [= <-]. by exists x, y.
Qed.

Lemma sse_law_decode reg err l :
  length reg = 16%nat -> Forall is_byte reg -> decode_groups false reg = Some l ->
  take 12 (Sse42.packIndexesToBytes (Sse42.decodeToIndex reg err).1) = l.
Proof.
  intros Hl Hr. rewrite decodeToIndex_bytes by done. cbn [fst].
  destruct (split_register reg Hl) as
    (a0 & a1 & a2 & a3 & b0 & b1 & b2 & b3 & c0 & c1 & c2 & c3 & d0 & d1 & d2 & d3 & ->).
  intros (x1 & y1 & H1 & Hy1 & ->)%decode_groups_cons.
  apply decode_groups_cons in Hy1 as (x2 & y2 & H2 & Hy2 & ->).
  apply decode_groups_cons in Hy2 as (x3 & y3 & H3 & Hy3 & ->).
  apply decode_groups_cons in Hy3 as (x4 & y4 & H4 & [= <-] & ->).
  change [a0; a1; a2; a3; b0; b1; b2; b3; c0; c1; c2; c3; d0; d1; d2; d3] with
    ([a0; a1; a2; a3] ++ [b0; b1; b2; b3] ++ [c0; c1; c2; c3] ++ [d0; d1; d2; d3]) in Hr.
  rewrite !Forall_app in Hr. destruct Hr as (Ha & Hb & Hc & Hd).
  apply decode4_indexes in H1 as [Ha' ->]; [|done]. apply decode4_indexes in H2 as [Hb' ->]; [|done].
  apply decode4_indexes in H3 as [Hc' ->]; [|done]. apply decode4_indexes in H4 as [Hd' ->]; [|done].
  cbn [fmap list_fmap] in *. rewrite packIndexesToBytes_groups; [done|].
  rewrite !Forall_cons in *. tauto.
Qed.

Lemma min_bytes l l' :
  Forall is_byte l -> Forall is_byte l' -> Forall is_byte (zip_with Z.min l l').
Proof.
  intros Hl. revert l'. induction Hl as [|x l Hx Hl IH]; intros [|y l'] Hl'; try done.
  apply Forall_cons in Hl' as [Hy Hl']. apply Forall_cons_2; [unfold is_uint in *; lia|]. by apply IH.
Qed.

Lemma sse_law_error reg err :
  length reg = 16%nat -> Forall is_byte reg -> sse_error_ok err ->
  sse_error_ok (Sse42.decodeToIndex reg err).2 /\
  Sse42.hasErrors (Sse42.decodeToIndex reg err).2 =
    Sse42.hasErrors err || negb (is_some (decode_groups false reg)).
Proof.
  intros Hl Hr [Hle He]. rewrite decodeToIndex_bytes by done. cbn [snd].
  assert (length (zip_with Z.min (error_byte <$> reg) err) = 16%nat) as Hz
    by (rewrite length_zip_with, length_fmap; lia).
  split; [split; [done|]|].
  - apply min_bytes; [|done]. apply Forall_fmap. eapply Forall_impl; [exact Hr|].
    intros c Hc. by apply error_byte_spec.
  - rewrite !hasErrors_bytes, existsb_errors, (decode_groups_valid 4) by (done || congruence). done.
Qed.

#[global] Instance Base64_SSE4_2_Laws : PlatformLaws Base64_SSE4_2_Platform.
Proof.
  refine {| error_ok := sse_error_ok |}.
  - by exists 1%nat.
  - exact sse_law_encode.
  - split; [|done]. split; [done|]. by apply Forall_replicate.
  - exact sse_law_error.
  - done.
  - exact sse_law_decode.
Qed.
