(* ===== verification/Base64Api.v ===== *)
(** Base64: the choice of an implementation and the functions of [base64.h].

    Models [detail/base64_detail/Base64Api.h] and [Base64Api.cpp], which select an implementation
    for the processor, and [folly/base64.h].  The theorems say that all implementations compute the
    same functions, the ones that [Base64] defines on numbers, in buffers of exactly the size that
    the library allocates. *)
From S2P Require Import Prelude Base64 Base64Simd.

(** ** Implementations ([Base64Api.h], [Base64Api.cpp], [Base64_SSE4_2.cpp]) *)

Module Detail.
Definition base64Encode_SSE4_2 : list Z -> output -> option output := base64SimdEncode.
Definition base64URLEncode_SSE4_2 : list Z -> output -> option output := base64URLSimdEncode.
Definition base64Decode_SSE4_2 : list Z -> output -> option (bool * output) := base64SimdDecode.

Record Base64RuntimeImpl := {
  rt_encode : list Z -> output -> option output;
  rt_encodeURL : list Z -> output -> option output;
  rt_decode : list Z -> output -> option (bool * output);
  rt_decodeURL : list Z -> output -> option (bool * output);
}.

(** [sse42] is the answer of [CpuId], false in a build without the instructions. *)
Definition base64EncodeSelectImplementation (sse42 : bool) : Base64RuntimeImpl :=
  if sse42 then
    {| rt_encode := base64Encode_SSE4_2; rt_encodeURL := base64URLEncode_SSE4_2;
       rt_decode := base64Decode_SSE4_2; rt_decodeURL := base64URLDecodeSWAR |}
  else
    {| rt_encode := base64EncodeScalar; rt_encodeURL := base64URLEncodeScalar;
       rt_decode := base64DecodeSWAR; rt_decodeURL := base64URLDecodeSWAR |}.

Definition base64EncodeRuntime (sse42 : bool) : list Z -> output -> option output :=
  rt_encode (base64EncodeSelectImplementation sse42).
Definition base64URLEncodeRuntime (sse42 : bool) : list Z -> output -> option output :=
  rt_encodeURL (base64EncodeSelectImplementation sse42).
Definition base64DecodeRuntime (sse42 : bool) : list Z -> output -> option (bool * output) :=
  rt_decode (base64EncodeSelectImplementation sse42).
Definition base64URLDecodeRuntime (sse42 : bool) : list Z -> output -> option (bool * output) :=
  rt_decodeURL (base64EncodeSelectImplementation sse42).

(** [constant] is the answer of [is_constant_evaluated_or(true)]. *)
Definition base64Encode (constant sse42 : bool) (s : list Z) (st : output) : option output :=
  if constant then base64EncodeScalar s st else base64EncodeRuntime sse42 s st.
Definition base64URLEncode (constant sse42 : bool) (s : list Z) (st : output) : option output :=
  if constant then base64URLEncodeScalar s st else base64URLEncodeRuntime sse42 s st.
Definition base64Decode (constant sse42 : bool) (s : list Z) (st : output) : option (bool * output) :=
  if constant then base64DecodeScalar s st else base64DecodeRuntime sse42 s st.
Definition base64URLDecode (constant sse42 : bool) (s : list Z) (st : output) :
    option (bool * output) :=
  if constant then base64URLDecodeScalar s st else base64URLDecodeRuntime sse42 s st.
End Detail.

(** ** Strings ([base64.h])

    [resizeWithoutInitialization] leaves any bytes in the string; they are the first argument. *)

Section Strings.
Context (sse42 : bool) (uninitialized : nat -> Z).

Definition resizeWithoutInitialization (n : nat) : list Z := uninitialized <$> seq 0 n.

Definition base64Encode (s : list Z) : option (list Z) :=
  let resSize := base64EncodedSize (length s) in
  let res := resizeWithoutInitialization resSize in
  '(res, _) ← Detail.base64EncodeRuntime sse42 s (res, 0%nat);
  Some res.

Definition base64URLEncode (s : list Z) : option (list Z) :=
  let resSize := base64URLEncodedSize (length s) in
  let res := resizeWithoutInitialization resSize in
  '(res, _) ← Detail.base64URLEncodeRuntime sse42 s (res, 0%nat);
  Some res.

(** [base64_decode_error] with its message. *)
Definition base64Decode (s : list Z) : option (result string (list Z)) :=
  resSize ← base64DecodedSize s;
  let res := resizeWithoutInitialization resSize in
  '(is_success, (res, _)) ← Detail.base64DecodeRuntime sse42 s (res, 0%nat);
  Some (if negb is_success then Err "Base64 Decoding failed"%string else Ok res).

Definition base64URLDecode (s : list Z) : option (result string (list Z)) :=
  resSize ← base64URLDecodedSize s;
  let res := resizeWithoutInitialization resSize in
  '(is_success, (res, _)) ← Detail.base64URLDecodeRuntime sse42 s (res, 0%nat);
  Some (if negb is_success then Err "Base64URL Decoding failed"%string else Ok res).
End Strings.

(** ** All implementations meet the same contracts *)

Definition encoder_spec (isURL : bool) (f : list Z -> output -> option output) : Prop :=
  forall s st, Forall is_byte s -> room st (length (encode_ref isURL s)) ->
  exists st', f s st = Some st' /\ wrote st (encode_ref isURL s) st'.

Lemma encode_spec isURL : encoder_spec isURL (encode isURL).
Proof. intros s st Hs Hr. rewrite encode_puts by done. by apply puts_spec. Qed.

Lemma detail_encode_spec constant sse42 : encoder_spec false (Detail.base64Encode constant sse42).
Proof.
  intros s st Hs Hr. destruct constant; [by apply encode_spec|].
  destruct sse42; [by apply base64SimdEncodeImpl_spec|by apply encode_spec].
Qed.

Lemma detail_url_encode_spec constant sse42 :
  encoder_spec true (Detail.base64URLEncode constant sse42).
Proof.
  intros s st Hs Hr. destruct constant; [by apply encode_spec|].
  destruct sse42; [by apply base64SimdEncodeImpl_spec|by apply encode_spec].
Qed.

Lemma detail_decode_spec constant sse42 :
  decoder_spec (Detail.base64Decode constant sse42) decode_ref base64DecodedSize.
Proof.
  destruct constant; [exact base64DecodeScalar_spec|].
  destruct sse42; [exact base64SimdDecode_spec|exact base64DecodeSWAR_spec].
Qed.

Lemma detail_url_decode_spec constant sse42 :
  decoder_spec (Detail.base64URLDecode constant sse42) decodeURL_ref base64URLDecodedSize.
Proof.
  destruct constant; [exact base64URLDecodeScalar_spec|].
  destruct sse42; exact base64URLDecodeSWAR_spec.
Qed.

(** An output that fills the buffer from its start is the buffer. *)
Lemma wrote_all buf out st' : wrote (buf, 0%nat) out st' -> length out = length buf -> st'.1 = out.
Proof.
  intros (Ho & Hl & Ht) Hlen. cbn in *. rewrite Ho, Hlen, <- Hl, firstn_all in Ht. done.
Qed.

Lemma resize_length g n : length (resizeWithoutInitialization g n) = n.
Proof. unfold resizeWithoutInitialization. by rewrite length_fmap, length_seq. Qed.

Lemma symbol_byte_range isURL d : is_digit d -> is_byte (symbol isURL d).
Proof.
  intros Hd. apply (digit_forall (fun d => (0 <=? symbol isURL d) && (symbol isURL d <? 256))) in Hd.
  - unfold is_uint. lia.
  - destruct isURL; by vm_compute.
Qed.

Lemma padding_bytes isURL n : Forall is_byte (padding isURL n).
Proof. destruct isURL; [apply Forall_nil_2|by apply Forall_replicate]. Qed.

Lemma encode_ref_bytes isURL s : Forall is_byte s -> Forall is_byte (encode_ref isURL s).
Proof.
  induction s as [|a|a b|a b c s IH] using groups3_ind; intros Hs; [done|..];
    rewrite ?Forall_cons in Hs; destruct_and?.
  - cbn [encode_ref]. apply Forall_app_2; [|apply padding_bytes]. unfold is_uint in *.
    repeat apply Forall_cons_2; try apply Forall_nil_2; apply symbol_byte_range; solve_digit.
  - cbn [encode_ref]. apply Forall_app_2; [|apply padding_bytes]. unfold is_uint in *.
    repeat apply Forall_cons_2; try apply Forall_nil_2; apply symbol_byte_range; solve_digit.
  - cbn [encode_ref]. apply Forall_app_2; [|by apply IH]. unfold is_uint in *.
    repeat apply Forall_cons_2; try apply Forall_nil_2; apply symbol_byte_range; solve_digit.
Qed.

Section Results.
Context (sse42 : bool) (uninitialized : nat -> Z).

Lemma base64Encode_eq s :
  Forall is_byte s -> base64Encode sse42 uninitialized s = Some (encode_ref false s).
Proof.
  intros Hs. unfold base64Encode.
  set (res := resizeWithoutInitialization uninitialized (base64EncodedSize (length s))).
  assert (length (encode_ref false s) = length res) as Hl
    by (subst res; by rewrite encode_ref_length, resize_length).
  destruct (detail_encode_spec false sse42 s (res, 0%nat) Hs) as (st' & Hf & Hw);
    [unfold room; cbn [fst snd]; lia|].
  change (Detail.base64EncodeRuntime sse42 s (res, 0%nat) = Some st') in Hf. rewrite Hf. destruct st' as [buf o].
  by apply wrote_all in Hw as <-.
Qed.

Lemma base64URLEncode_eq s :
  Forall is_byte s -> base64URLEncode sse42 uninitialized s = Some (encode_ref true s).
Proof.
  intros Hs. unfold base64URLEncode.
  set (res := resizeWithoutInitialization uninitialized (base64URLEncodedSize (length s))).
  assert (length (encode_ref true s) = length res) as Hl
    by (subst res; by rewrite encode_ref_length, resize_length).
  destruct (detail_url_encode_spec false sse42 s (res, 0%nat) Hs) as (st' & Hf & Hw);
    [unfold room; cbn [fst snd]; lia|].
  change (Detail.base64URLEncodeRuntime sse42 s (res, 0%nat) = Some st') in Hf. rewrite Hf. destruct st' as [buf o].
  by apply wrote_all in Hw as <-.
Qed.

Lemma base64Decode_eq s :
  Forall is_byte s ->
  base64Decode sse42 uninitialized s =
    Some (match decode_ref s with Some l => Ok l | None => Err "Base64 Decoding failed"%string end).
Proof.
  intros Hs. unfold base64Decode.
  destruct (detail_decode_spec false sse42 s
    (resizeWithoutInitialization uninitialized (default 0%nat (base64DecodedSize s)), 0%nat) Hs)
    as (n & Hn & H). rewrite Hn in *. cbn [mbind option_bind default from_option id] in *.
  destruct H as ([buf o] & Hf & Hw); [unfold room; cbn [fst snd]; rewrite resize_length; lia|].
  unfold Detail.base64Decode in Hf. rewrite Hf. cbn. destruct (decode_ref s) as [l|]; [|done]. cbn.
  destruct (Hw l eq_refl) as [Hw' Hl]. apply wrote_all in Hw' as <-; [done|].
  by rewrite resize_length.
Qed.

Lemma base64URLDecode_eq s :
  Forall is_byte s ->
  base64URLDecode sse42 uninitialized s =
    Some (match decodeURL_ref s with
          | Some l => Ok l
          | None => Err "Base64URL Decoding failed"%string
          end).
Proof.
  intros Hs. unfold base64URLDecode.
  destruct (detail_url_decode_spec false sse42 s
    (resizeWithoutInitialization uninitialized (default 0%nat (base64URLDecodedSize s)), 0%nat) Hs)
    as (n & Hn & H). rewrite Hn in *. cbn [mbind option_bind default from_option id] in *.
  destruct H as ([buf o] & Hf & Hw); [unfold room; cbn [fst snd]; rewrite resize_length; lia|].
  unfold Detail.base64URLDecode in Hf. rewrite Hf. cbn. destruct (decodeURL_ref s) as [l|]; [|done]. cbn.
  destruct (Hw l eq_refl) as [Hw' Hl]. apply wrote_all in Hw' as <-; [done|].
  by rewrite resize_length.
Qed.
End Results.

(** ** Properties *)

(** (C16) On every text, whatever implementation the processor selects and whatever the allocated
    memory holds, decoding stays inside a string of exactly the computed size.  It succeeds exactly
    on the texts that the definition of Base64 on numbers decodes (padding required and unused bits
    zero for the standard alphabet; both alphabets, optional padding for the URL decoder), returns
    those bytes, and throws [base64_decode_error] on all others. *)
Theorem base64_decode_spec (sse42 : bool) (uninitialized : nat -> Z) (s : list Z) :
  Forall is_byte s ->
  base64Decode sse42 uninitialized s =
    Some (match decode_ref s with
          | Some l => Ok l
          | None => Err "Base64 Decoding failed"%string
          end) /\
  base64URLDecode sse42 uninitialized s =
    Some (match decodeURL_ref s with
          | Some l => Ok l
          | None => Err "Base64URL Decoding failed"%string
          end).
Proof. intros Hs. split; [by apply base64Decode_eq|by apply base64URLDecode_eq]. Qed.

(** Twenty-eight characters, of which a vector register takes the first sixteen. *)
Definition sample_text : list Z := bytes_of "TWFueSBoYW5kcyBtYWtlIGxpZ2h0".

Lemma sample_text_bytes : Forall is_byte sample_text.
Proof.
  apply Forall_forall. intros x Hx. unfold is_uint.
  assert (forallb (fun x => (0 <=? x) && (x <? 2 ^ 8)) sample_text = true) as H by by vm_compute.
  rewrite forallb_forall in H. specialize (H x). rewrite <- list_elem_of_In in H.
  specialize (H Hx). lia.
Qed.

Lemma base64_decode_spec_witness :
  base64Decode true (fun _ => 0xaa) sample_text = Some (Ok (bytes_of "Many hands make light")).
Proof.
  destruct (base64_decode_spec true (fun _ => 0xaa) sample_text sample_text_bytes) as [H _].
  rewrite H. vm_compute. reflexivity.
Defined.

(** (C28) Encoding never fails and writes the digits of the bytes with the padding of its alphabet;
    decoding the text returns the bytes.  The encoder and the decoder may run on different
    processors, and the URL decoder also reads what the standard encoder writes. *)
Theorem base64_roundtrip (sse42 sse42' : bool) (uninitialized uninitialized' : nat -> Z)
    (s : list Z) :
  Forall is_byte s ->
  exists t t',
    base64Encode sse42 uninitialized s = Some t /\ t = encode_ref false s /\
    base64URLEncode sse42 uninitialized s = Some t' /\ t' = encode_ref true s /\
    base64Decode sse42' uninitialized' t = Some (Ok s) /\
    base64URLDecode sse42' uninitialized' t = Some (Ok s) /\
    base64URLDecode sse42' uninitialized' t' = Some (Ok s).
Proof.
  intros Hs. exists (encode_ref false s), (encode_ref true s).
  rewrite base64Encode_eq, base64URLEncode_eq by done.
  rewrite base64Decode_eq, !base64URLDecode_eq by by apply encode_ref_bytes.
  by rewrite decode_encode_ref, !decodeURL_encode_ref.
Qed.

Lemma base64_roundtrip_witness :
  exists t t',
    base64Encode true (fun _ => 7) [0; 255; 16] = Some t /\ t = encode_ref false [0; 255; 16] /\
    base64URLEncode true (fun _ => 7) [0; 255; 16] = Some t' /\ t' = encode_ref true [0; 255; 16] /\
    base64Decode false (fun _ => 9) t = Some (Ok [0; 255; 16]) /\
    base64URLDecode false (fun _ => 9) t = Some (Ok [0; 255; 16]) /\
    base64URLDecode false (fun _ => 9) t' = Some (Ok [0; 255; 16]).
Proof.
  apply (base64_roundtrip true false (fun _ => 7) (fun _ => 9) [0; 255; 16]).
  repeat apply Forall_cons_2; try apply Forall_nil_2; unfold is_uint; lia.
Defined.
