(* ===== verification/F14Mask.v ===== *)
(** Bit masks of F14 chunks: [container/detail/F14Mask.h] where a mask has one bit per slot
    (SSE2), and [findLastSet] of [lang/Bits.h].

    A mask stands for the increasing list of the slots whose bits are set, [bits]; the iterators
    enumerate it and the queries return its ends. *)
From S2P Require Import Prelude.

(** ** The code *)

(** Count of trailing zeros, [__builtin_ctz]; the argument is not zero. *)
Fixpoint ctz_positive (p : positive) : nat :=
  match p with xO p => S (ctz_positive p) | _ => 0 end.

Definition findFirstSetNonZero (mask : Z) : nat :=
  match mask with Zpos p => ctz_positive p | _ => 0 end.

(** The position of the last set bit, counted from one. *)
Definition findLastSet (v : Z) : Z := if v =? 0 then 0 else Z.log2 v + 1.

Fixpoint FullMask (bitCount : nat) : Z :=
  match bitCount with O => 0 | S n => (FullMask n .<< 1) + 1 end.

(** [SparseMaskIter]: the slots that the calls of [next] return while [hasNext]. *)
Definition sparse_next (mask_ : Z) : nat * Z :=
  (findFirstSetNonZero mask_, mask_ .& u32 (mask_ - 1)).

Fixpoint sparse_iter (fuel : nat) (mask_ : Z) : list nat :=
  match fuel with
  | O => []
  | S fuel =>
      if mask_ =? 0 then []
      else let '(i, mask_) := sparse_next mask_ in i :: sparse_iter fuel mask_
  end.

Definition SparseMaskIter (mask : Z) : list nat := sparse_iter 32 mask.

(** [DenseMaskIter], with its fields [mask_] and [index_]. *)
Definition dense_next (mask_ : Z) (index_ : nat) : nat * Z * nat :=
  if negb (mask_ .& 1 =? 0) then (index_, mask_ .>> 1, S index_)
  else
    let s := findFirstSetNonZero mask_ in
    let rv := (index_ + s)%nat in
    (rv, mask_ .>> Z.of_nat (s + 1), S rv).

Fixpoint dense_iter (fuel : nat) (mask_ : Z) (index_ : nat) : list nat :=
  match fuel with
  | O => []
  | S fuel =>
      if mask_ =? 0 then []
      else let '(i, mask_, index_) := dense_next mask_ index_ in i :: dense_iter fuel mask_ index_
  end.

Definition DenseMaskIter (mask : Z) : list nat := dense_iter 32 mask 0.

(** [LastOccupiedInMask] and [FirstEmptyInMask]: [hasIndex] with [index]. *)
Definition LastOccupiedInMask (mask : Z) : option nat :=
  if mask =? 0 then None else Some (Z.to_nat (findLastSet mask - 1)).

Definition FirstEmptyInMask (mask : Z) : option nat :=
  if mask =? 0 then None else Some (findFirstSetNonZero mask).

(** [MaskRangeIter]: the blocks of consecutive slots. *)
Definition range_next (mask_ : Z) (shift_ : nat) : (nat * nat) * Z * nat :=
  let b := findFirstSetNonZero mask_ in
  let e := findFirstSetNonZero (u32 (Z.lnot (mask_ .| u32 (mask_ - 1)))) in
  (((shift_ + b)%nat, (shift_ + e)%nat), mask_ .>> Z.of_nat e, (shift_ + e)%nat).

Fixpoint range_iter (fuel : nat) (mask_ : Z) (shift_ : nat) : list (nat * nat) :=
  match fuel with
  | O => []
  | S fuel =>
      if mask_ =? 0 then []
      else let '(be, mask_, shift_) := range_next mask_ shift_ in be :: range_iter fuel mask_ shift_
  end.

Definition MaskRangeIter (mask : Z) : list (nat * nat) := range_iter 32 mask 0.

Lemma FullMask_ones n : FullMask n = 2 ^ Z.of_nat n - 1.
Proof.
  induction n as [|n IH]; [done|]. cbn [FullMask]. rewrite IH, Nat2Z.inj_succ, Z.pow_succ_r, shiftl_mul by lia. lia.
Qed.

(** ** The slots of a mask *)

Definition bits (n : nat) (mask : Z) : list nat :=
  filter (fun i => Z.testbit mask (Z.of_nat i) = true) (seq 0 n).

Lemma elem_of_bits n mask i : i ∈ bits n mask <-> (i < n)%nat /\ Z.testbit mask (Z.of_nat i) = true.
Proof. unfold bits. rewrite list_elem_of_filter, elem_of_seq. intuition lia. Qed.

(** A mask that is not zero is an odd number shifted by its first slot. *)
Lemma findFirstSet_odd mask :
  0 < mask -> exists q, 0 <= q /\ mask = (2 * q + 1) * 2 ^ Z.of_nat (findFirstSetNonZero mask).
Proof.
  intros Hm. destruct mask as [|p|]; try lia. clear Hm. cbn [findFirstSetNonZero].
  induction p as [p IH|p IH|].
  - exists (Zpos p). cbn [ctz_positive]. lia.
  - destruct IH as (q & Hq & IH). exists q. split; [done|]. cbn [ctz_positive].
    rewrite Nat2Z.inj_succ, Z.pow_succ_r by lia. lia.
  - exists 0. done.
Qed.

Lemma testbit_odd_shift q k i :
  0 <= q -> 0 <= k -> 0 <= i ->
  Z.testbit ((2 * q + 1) * 2 ^ k) i =
    if i <? k then false else if i =? k then true else Z.testbit q (i - k - 1).
Proof.
  intros Hq Hk Hi. rewrite <- Z.shiftl_mul_pow2 by lia. rewrite Z.shiftl_spec by lia.
  destruct (Z.ltb_spec i k); [by rewrite Z.testbit_neg_r by lia|].
  destruct (Z.eqb_spec i k) as [->|]; [rewrite Z.sub_diag; apply Z.testbit_odd_0|].
  replace (i - k) with (Z.succ (i - k - 1)) at 1 by lia. apply Z.testbit_odd_succ. lia.
Qed.

Lemma first_set_bit mask :
  0 < mask -> Z.testbit mask (Z.of_nat (findFirstSetNonZero mask)) = true /\
  forall i, (i < findFirstSetNonZero mask)%nat -> Z.testbit mask (Z.of_nat i) = false.
Proof.
  intros Hm. destruct (findFirstSet_odd mask Hm) as (q & Hq & E).
  set (k := findFirstSetNonZero mask) in *. rewrite E. split.
  - rewrite testbit_odd_shift, Z.ltb_irrefl, Z.eqb_refl by lia. done.
  - intros i Hi. rewrite testbit_odd_shift by lia. by rewrite (proj2 (Z.ltb_lt _ _)) by lia.
Qed.

(** Subtracting one and conjoining clears the first set bit only. *)
Lemma clear_first mask i :
  is_u32 mask -> 0 < mask ->
  Z.testbit (mask .& u32 (mask - 1)) (Z.of_nat i) =
    Z.testbit mask (Z.of_nat i) && negb (Nat.eqb i (findFirstSetNonZero mask)).
Proof.
  intros Hu Hm. rewrite wrap_small by (unfold is_uint in *; lia).
  destruct (findFirstSet_odd mask Hm) as (q & Hq & E).
  set (k := findFirstSetNonZero mask) in *. rewrite Z.land_spec, E.
  assert ((2 * q + 1) * 2 ^ Z.of_nat k - 1 = Z.ones (Z.of_nat k) .| (q * 2 ^ (Z.of_nat k + 1))) as ->.
  { rewrite Z.pow_add_r by lia. replace (q * (2 ^ Z.of_nat k * 2 ^ 1)) with (2 * q * 2 ^ Z.of_nat k) by lia.
    rewrite lor_disjoint, Z.ones_equiv; [lia|lia|]. unfold is_uint. rewrite Z.ones_equiv. lia. }
  rewrite Z.lor_spec, <- (Z.shiftl_mul_pow2 q) by lia. rewrite testbit_odd_shift by lia.
  destruct (Z.ltb_spec (Z.of_nat i) (Z.of_nat k)); [done|].
  rewrite Z.ones_spec_high, Z.shiftl_spec by lia. cbn [orb].
  destruct (Z.eqb_spec (Z.of_nat i) (Z.of_nat k)).
  - rewrite Z.testbit_neg_r by lia. by rewrite (proj2 (Nat.eqb_eq _ _)) by lia.
  - rewrite (proj2 (Nat.eqb_neq _ _)) by lia.
    replace (Z.of_nat i - (Z.of_nat k + 1)) with (Z.of_nat i - Z.of_nat k - 1) by lia.
    by destruct (Z.testbit q _).
Qed.

Lemma first_set_lt n mask : 0 < mask -> is_uint (Z.of_nat n) mask -> (findFirstSetNonZero mask < n)%nat.
Proof.
  intros Hm Hu. destruct (decide (findFirstSetNonZero mask < n)%nat) as [|Hge]; [done|].
  destruct (first_set_bit mask Hm) as [Hb _]. rewrite (testbit_high mask (Z.of_nat n)) in Hb; [done|done|lia].
Qed.

Lemma bits_0 n : bits n 0 = [].
Proof.
  apply elem_of_nil_inv. intros i. rewrite elem_of_bits, Z.bits_0. naive_solver.
Qed.

Lemma bits_ext n m m' :
  (forall i, (i < n)%nat -> Z.testbit m (Z.of_nat i) = Z.testbit m' (Z.of_nat i)) -> bits n m = bits n m'.
Proof.
  intros H. unfold bits. apply filter_ext_in. intros i Hi%elem_of_seq. by rewrite H by lia.
Qed.

(** The first slot of a mask, then those of the mask without it. *)
Lemma bits_split n mask :
  0 < mask -> is_uint (Z.of_nat n) mask ->
  bits n mask = findFirstSetNonZero mask ::
    filter (fun i => Z.testbit mask (Z.of_nat i) = true)
      (seq (S (findFirstSetNonZero mask)) (n - S (findFirstSetNonZero mask))).
Proof.
  intros Hm Hu. pose proof (first_set_lt n mask Hm Hu) as Hk.
  destruct (first_set_bit mask Hm) as [Hb Hlow]. set (k := findFirstSetNonZero mask) in *.
  unfold bits. replace n with (k + (1 + (n - S k)))%nat at 1 by lia. rewrite seq_app, filter_app.
  cbn [Nat.add seq]. rewrite filter_cons_True by done.
  assert (filter (fun i => Z.testbit mask (Z.of_nat i) = true) (seq 0 k) = []) as ->; [|done].
  apply elem_of_nil_inv. intros i [Hi Hs]%list_elem_of_filter. apply elem_of_seq in Hs.
  rewrite Hlow in Hi; [done|lia].
Qed.

Lemma bits_clear_first n mask :
  (n <= 32)%nat -> 0 < mask -> is_uint (Z.of_nat n) mask ->
  bits n mask = findFirstSetNonZero mask :: bits n (mask .& u32 (mask - 1)).
Proof.
  intros Hn Hm Hu. assert (is_u32 mask) as Hu32.
  { unfold is_uint in *. pose proof (Z.pow_le_mono_r 2 (Z.of_nat n) 32). lia. }
  pose proof (first_set_lt n mask Hm Hu) as Hk.
  destruct (first_set_bit mask Hm) as [Hb Hlow]. rewrite bits_split by done. f_equal.
  set (k := findFirstSetNonZero mask) in *. unfold bits.
  replace n with (S k + (n - S k))%nat at 2 by lia. rewrite seq_app, filter_app.
  assert (filter (fun i => Z.testbit (mask .& u32 (mask - 1)) (Z.of_nat i) = true) (seq 0 (S k)) = []) as ->.
  { apply elem_of_nil_inv. intros i [Hi Hs]%list_elem_of_filter. apply elem_of_seq in Hs.
    rewrite clear_first in Hi by done. destruct (decide (i = k)) as [->|].
    - by rewrite Nat.eqb_refl, andb_false_r in Hi.
    - rewrite Hlow in Hi by lia. done. }
  apply filter_ext_in. intros i Hi%elem_of_seq.
  rewrite clear_first, (proj2 (Nat.eqb_neq _ _)), andb_true_r by (done || lia). done.
Qed.

Lemma length_bits n mask : (length (bits n mask) <= n)%nat.
Proof. unfold bits. etrans; [apply length_filter|]. by rewrite length_seq. Qed.

Lemma clear_first_uint w mask : 0 <= w -> is_uint w mask -> is_uint w (mask .& u32 (mask - 1)).
Proof. intros Hw Hu. rewrite Z.land_comm. by apply land_uint. Qed.

(** [SparseMaskIter] returns the slots of the mask. *)
Lemma SparseMaskIter_bits n mask :
  (n <= 32)%nat -> is_uint (Z.of_nat n) mask -> SparseMaskIter mask = bits n mask.
Proof.
  intros Hn. unfold SparseMaskIter.
  assert (forall fuel mask, is_uint (Z.of_nat n) mask -> (length (bits n mask) <= fuel)%nat ->
    sparse_iter fuel mask = bits n mask) as H.
  { induction fuel as [|fuel IH]; intros m Hu Hl.
    - destruct (bits n m); [done|cbn in Hl; lia].
    - cbn [sparse_iter]. destruct (Z.eqb_spec m 0) as [->|Hne]; [by rewrite bits_0|].
      assert (0 < m) by (unfold is_uint in Hu; lia).
      rewrite bits_clear_first in Hl |- * by done. cbn [sparse_next length] in *.
      f_equal. apply IH; [|lia]. apply clear_first_uint; [lia|done]. }
  intros Hu. apply H; [done|]. pose proof (length_bits n mask). lia.
Qed.

Lemma filter_seq_shift (P Q : nat -> Prop)
    `{!forall x, Decision (P x), !forall x, Decision (Q x)} a k n :
  (forall i, (i < n)%nat -> P (a + k + i)%nat <-> Q (k + i)%nat) ->
  filter P (seq (a + k) n) = Nat.add a <$> filter Q (seq k n).
Proof.
  revert k. induction n as [|n IH]; intros k HPQ; [done|]. cbn [seq].
  rewrite !filter_cons. pose proof (HPQ 0%nat ltac:(lia)) as HPQ0.
  rewrite !Nat.add_0_r in HPQ0. rewrite <- Nat.add_succ_r, IH.
  - repeat case_decide; cbn; (done || tauto).
  - intros i Hi. specialize (HPQ (S i) ltac:(lia)). by rewrite !Nat.add_succ_r in *.
Qed.

(** Shifting the mask by [k] shows the slots from [k] on. *)
Lemma bits_shift n mask k :
  (k <= n)%nat -> is_uint (Z.of_nat n) mask ->
  filter (fun i => Z.testbit mask (Z.of_nat i) = true) (seq k (n - k)) =
    Nat.add k <$> bits n (mask .>> Z.of_nat k).
Proof.
  intros Hk Hu.
  rewrite <- (Nat.add_0_r k) at 1.
  rewrite (filter_seq_shift _ (fun i => Z.testbit (mask .>> Z.of_nat k) (Z.of_nat i) = true)).
  - f_equal. unfold bits. replace n with ((n - k) + k)%nat at 2 by lia.
    rewrite seq_app, filter_app. rewrite <- (app_nil_r (filter _ (seq 0 (n - k)))) at 1. f_equal.
    symmetry. apply elem_of_nil_inv. intros i [Hi Hs%elem_of_seq]%list_elem_of_filter.
    rewrite Z.shiftr_spec in Hi by lia. rewrite (testbit_high mask (Z.of_nat n)) in Hi; [done|done|lia].
  - intros i Hi. rewrite Z.shiftr_spec by lia. replace (Z.of_nat (0 + i) + Z.of_nat k) with
      (Z.of_nat (k + 0 + i)) by lia. done.
Qed.

Lemma shiftr_uint w mask k : 0 <= w -> 0 <= k -> is_uint w mask -> is_uint w (mask .>> k).
Proof.
  unfold is_uint. intros Hw Hk Hm. rewrite Z.shiftr_div_pow2 by lia. split.
  - apply Z.div_pos; lia.
  - eapply Z.le_lt_trans; [|apply Hm]. apply Z.div_le_upper_bound; nia.
Qed.

Lemma dense_next_spec mask index_ :
  0 < mask ->
  dense_next mask index_ =
    ((index_ + findFirstSetNonZero mask)%nat, mask .>> Z.of_nat (findFirstSetNonZero mask + 1),
     S (index_ + findFirstSetNonZero mask)).
Proof.
  intros Hm. unfold dense_next. destruct (first_set_bit mask Hm) as [Hb Hlow].
  rewrite (land_ones_mod mask 1), <- Z.bit0_mod by lia.
  destruct (findFirstSetNonZero mask) as [|k] eqn:E.
  - change (Z.of_nat 0) with 0 in Hb. rewrite Hb. cbn. by rewrite Nat.add_0_r.
  - assert (Z.testbit mask 0 = false) as -> by (apply (Hlow 0%nat); lia). done.
Qed.

(** [DenseMaskIter] returns the slots of the mask. *)
Lemma DenseMaskIter_bits n mask :
  (n <= 32)%nat -> is_uint (Z.of_nat n) mask -> DenseMaskIter mask = bits n mask.
Proof.
  intros Hn. unfold DenseMaskIter.
  assert (forall fuel mask index_, is_uint (Z.of_nat n) mask -> (length (bits n mask) <= fuel)%nat ->
    dense_iter fuel mask index_ = Nat.add index_ <$> bits n mask) as H.
  { induction fuel as [|fuel IH]; intros m index_ Hu Hl.
    - destruct (bits n m); [done|cbn in Hl; lia].
    - cbn [dense_iter]. destruct (Z.eqb_spec m 0) as [->|Hne]; [by rewrite bits_0|].
      assert (0 < m) as Hm by (unfold is_uint in Hu; lia). pose proof (first_set_lt n m Hm Hu) as Hk.
      rewrite dense_next_spec by done. rewrite bits_split, bits_shift in Hl |- * by (done || lia).
      cbn [fmap list_fmap length] in *. rewrite length_fmap in Hl.
      replace (findFirstSetNonZero m + 1)%nat with (S (findFirstSetNonZero m)) by lia.
      f_equal. rewrite IH; [|apply shiftr_uint; (done || lia)|lia].
      rewrite <- list_fmap_compose. apply list_fmap_ext. intros ? i _. cbn. lia. }
  intros Hu. rewrite H; [|done|pose proof (length_bits n mask); lia].
  etrans; [|apply list_fmap_id]. by apply list_fmap_ext.
Qed.

Lemma FirstEmptyInMask_bits n mask :
  is_uint (Z.of_nat n) mask -> FirstEmptyInMask mask = head (bits n mask).
Proof.
  intros Hu. unfold FirstEmptyInMask. destruct (Z.eqb_spec mask 0) as [->|]; [by rewrite bits_0|].
  rewrite bits_split by (done || unfold is_uint in Hu; lia). done.
Qed.

Lemma LastOccupiedInMask_bits n mask :
  is_uint (Z.of_nat n) mask -> LastOccupiedInMask mask = last (bits n mask).
Proof.
  intros Hu. unfold LastOccupiedInMask, findLastSet.
  destruct (Z.eqb_spec mask 0) as [->|Hne]; [by rewrite bits_0|].
  assert (0 < mask) as Hm by (unfold is_uint in Hu; lia).
  replace (Z.log2 mask + 1 - 1) with (Z.log2 mask) by lia.
  pose proof (Z.log2_nonneg mask). set (k := Z.to_nat (Z.log2 mask)).
  assert (Z.testbit mask (Z.of_nat k) = true) as Hb
    by (subst k; rewrite Z2Nat.id by done; by apply Z.bit_log2).
  assert (k < n)%nat as Hk.
  { destruct (decide (k < n)%nat); [done|]. rewrite (testbit_high mask (Z.of_nat n)) in Hb; [done|done|lia]. }
  unfold bits. replace n with (k + (1 + (n - S k)))%nat by lia. rewrite seq_app, filter_app.
  cbn [Nat.add seq]. rewrite filter_cons_True by done.
  assert (filter (fun i => Z.testbit mask (Z.of_nat i) = true) (seq (S k) (n - S k)) = []) as ->.
  { apply elem_of_nil_inv. intros i [Hi Hs%elem_of_seq]%list_elem_of_filter.
    rewrite Z.bits_above_log2 in Hi; [done|lia|]. subst k. lia. }
  by rewrite last_snoc.
Qed.

(** The bits of [mask | (mask - 1)]: those of the mask and all below its first. *)
Lemma testbit_fill mask i :
  is_u32 mask -> 0 < mask ->
  Z.testbit (mask .| u32 (mask - 1)) (Z.of_nat i) =
    ((i <? findFirstSetNonZero mask)%nat || Z.testbit mask (Z.of_nat i)).
Proof.
  intros Hu Hm. rewrite wrap_small by (unfold is_uint in *; lia).
  destruct (findFirstSet_odd mask Hm) as (q & Hq & E). set (b := findFirstSetNonZero mask) in *.
  assert (mask - 1 = Z.ones (Z.of_nat b) .| (2 * q * 2 ^ Z.of_nat b)) as E1.
  { rewrite lor_disjoint; rewrite ?Z.ones_equiv; [lia|lia|]. unfold is_uint.
    assert (0 < 2 ^ Z.of_nat b) by (apply Z.pow_pos_nonneg; lia). lia. }
  replace (2 * q * 2 ^ Z.of_nat b) with (q * 2 ^ Z.succ (Z.of_nat b)) in E1 by (rewrite Z.pow_succ_r by lia; lia).
  pose proof (testbit_odd_shift q (Z.of_nat b) (Z.of_nat i) Hq ltac:(lia) ltac:(lia)) as Hbit. rewrite <- E in Hbit.
  rewrite E1, !Z.lor_spec, Z.mul_pow2_bits, !Hbit by lia.
  destruct (Nat.ltb_spec i b) as [Hi|Hi].
  - rewrite Z.ones_spec_low by lia. by rewrite orb_true_r.
  - rewrite Z.ones_spec_high by lia. rewrite (proj2 (Z.ltb_ge _ _)) by lia.
    destruct (Z.eqb_spec (Z.of_nat i) (Z.of_nat b)); [done|].
    replace (Z.of_nat i - Z.succ (Z.of_nat b)) with (Z.of_nat i - Z.of_nat b - 1) by lia.
    cbn [orb]. by rewrite orb_diag.
Qed.

(** The end of the first block: the first slot above it that is not set. *)
Lemma range_end n mask :
  (n < 32)%nat -> 0 < mask -> is_uint (Z.of_nat n) mask ->
  let b := findFirstSetNonZero mask in
  let e := findFirstSetNonZero (u32 (Z.lnot (mask .| u32 (mask - 1)))) in
  (b < e <= n)%nat /\ forall i, (b <= i < e)%nat -> Z.testbit mask (Z.of_nat i) = true.
Proof.
  intros Hn Hm Hu b e. assert (is_u32 mask) as Hu32.
  { unfold is_uint in *. assert (2 ^ Z.of_nat n <= 2 ^ 31) by (apply Z.pow_le_mono_r; lia). lia. }
  set (v := u32 _) in e.
  assert (forall i, (i < 32)%nat -> Z.testbit v (Z.of_nat i) = negb ((i <? b)%nat || Z.testbit mask (Z.of_nat i))) as Hv.
  { intros i Hi. unfold v, wrap. rewrite Z.mod_pow2_bits_low, Z.lnot_spec by lia. by rewrite testbit_fill. }
  pose proof (first_set_lt n mask Hm Hu) as Hbn. fold b in Hbn.
  assert (Z.testbit v (Z.of_nat n) = true) as Hvn.
  { rewrite Hv by done. rewrite (testbit_high mask (Z.of_nat n)) by (done || lia).
    rewrite (proj2 (Nat.ltb_ge _ _)) by lia. done. }
  assert (0 < v) as Hpos.
  { assert (v <> 0) by (intros E; by rewrite E, Z.bits_0 in Hvn). pose proof (wrap_range 32 (Z.lnot (mask .| u32 (mask - 1)))) as Hr.
    unfold is_uint in Hr. fold v in Hr. lia. }
  destruct (first_set_bit v Hpos) as [He Hlow]. fold e in He, Hlow.
  assert (e <= n)%nat as Hen.
  { destruct (decide (e <= n)%nat); [done|]. rewrite Hlow in Hvn by lia. done. }
  rewrite Hv in He by lia. apply negb_true_iff, orb_false_iff in He as [He1%Nat.ltb_ge He2].
  assert (e <> b) as Hne by (intros ->; destruct (first_set_bit mask Hm) as [Hb _]; fold b in Hb; congruence).
  split; [lia|]. intros i Hi. specialize (Hlow i ltac:(lia)). rewrite Hv in Hlow by lia.
  apply negb_false_iff, orb_true_iff in Hlow as [Hlt%Nat.ltb_lt|]; [lia|done].
Qed.

(** [MaskRangeIter] covers the slots of the mask. *)
Lemma MaskRangeIter_bits n mask :
  (n < 32)%nat -> is_uint (Z.of_nat n) mask ->
  mjoin ((fun be => seq be.1 (be.2 - be.1)) <$> MaskRangeIter mask) = bits n mask.
Proof.
  intros Hn. unfold MaskRangeIter.
  assert (forall fuel m sh, is_uint (Z.of_nat n) m -> (length (bits n m) <= fuel)%nat ->
    mjoin ((fun be => seq be.1 (be.2 - be.1)) <$> range_iter fuel m sh) = Nat.add sh <$> bits n m) as H.
  { induction fuel as [|fuel IH]; intros m sh Hu Hl.
    - destruct (bits n m); [done|cbn in Hl; lia].
    - cbn [range_iter]. destruct (Z.eqb_spec m 0) as [->|Hne]; [by rewrite bits_0|].
      assert (0 < m) as Hm by (unfold is_uint in Hu; lia). destruct (range_end n m Hn Hm Hu) as [Hbe Hset].
      cbn [range_next]. set (b := findFirstSetNonZero m) in *. set (e := findFirstSetNonZero (u32 _)) in *.
      destruct (first_set_bit m Hm) as [_ Hlow]. fold b in Hlow.
      assert (bits n m = seq b (e - b) ++ (Nat.add e <$> bits n (m .>> Z.of_nat e))) as E.
      { rewrite <- bits_shift by (done || lia). unfold bits. replace n with (b + ((e - b) + (n - e)))%nat at 1 by lia.
        rewrite seq_app, filter_app, seq_app, filter_app. cbn [Nat.add]. replace (b + (e - b))%nat with e by lia.
        rewrite (filter_all _ (seq b (e - b))).
        2: { intros i Hi%elem_of_seq. apply Hset. lia. }
        assert (filter (fun i => Z.testbit m (Z.of_nat i) = true) (seq 0 b) = []) as ->; [|done].
        apply elem_of_nil_inv. intros i [Hi Hs%elem_of_seq]%list_elem_of_filter. rewrite Hlow in Hi by lia. done. }
      rewrite E in Hl |- *. rewrite length_app, length_seq, length_fmap in Hl.
      rewrite fmap_cons, fmap_app. cbn [mjoin list_join fst snd]. fold b e. f_equal.
      + rewrite fmap_add_seq. f_equal; lia.
      + rewrite IH; [|apply shiftr_uint; (done || lia)|lia].
        rewrite <- list_fmap_compose. apply list_fmap_ext. intros ? i _. cbn. lia. }
  intros Hu. rewrite H; [|done|pose proof (length_bits n mask); lia].
  etrans; [|apply list_fmap_id]. by apply list_fmap_ext.
Qed.
