(* ===== verification/F14Chunk.v ===== *)
(** Chunks of F14 tables: [F14Chunk] and the hash splitting of [container/detail/F14Table.h].

    A chunk has a header of sixteen bytes (fourteen tags, the control byte and the outbound
    overflow count) that is searched with vector instructions, and slots for items.  A slot that
    holds no item is [None]; reading it is undefined. *)
From S2P Require Import Prelude Sse F14Mask.

(** ** Hash splitting *)

(** The kind of a hasher: [IsAvalanchingHasher], [ShouldAssume32BitHash], and the CRC instruction
    when the build has one ([_mm_crc32_u64(0, x)], a function of [x]). *)
Record HasherKind := {
  isAvalanchingHasher : bool;
  shouldAssume32BitHash : bool;
  crc32_u64 : option (Z -> Z);
}.

Definition kMul : Z := 0xc4ceb9fe1a85ec53.

(** The hash for the position and the tag. *)
Definition splitHashImpl (kind : HasherKind) (hash : Z) : Z * Z :=
  if negb (isAvalanchingHasher kind) then
    match crc32_u64 kind with
    | Some crc =>
        let c := crc hash in
        let tag := (c .>> 24) .| 0x80 in
        (u64 (hash + c), tag)
    | None =>
        let hi := u64 ((hash * kMul) .>> 64) in
        let lo := u64 (hash * kMul) in
        let hash := hi .^ lo in
        let hash := u64 (hash * kMul) in
        let tag := ((hash .>> 15) .& 0x7f) .| 0x80 in
        (hash .>> 22, tag)
    end
  else if shouldAssume32BitHash kind then
    (hash .& 0xffffffff, ((hash .>> 24) .| 0x80) .& 0xff)
  else (hash, (hash .>> 56) .| 0x80).

(** ** Chunks *)

Class SizeofItem (Item : Type) := sizeof_Item : Z.

Record F14Chunk (Item : Type) := mkChunk {
  tags_ : list Z;
  control_ : Z;
  outboundOverflowCount_ : Z;
  rawItems_ : list (option Item);
}.
Arguments mkChunk {Item} _ _ _ _.
Arguments tags_ {Item} _.
Arguments control_ {Item} _.
Arguments outboundOverflowCount_ {Item} _.
Arguments rawItems_ {Item} _.

Section Chunk.
Context {Item : Type} `{!SizeofItem Item}.
Implicit Types c : F14Chunk Item.

Definition kCapacity : nat := if sizeof_Item =? 4 then 12 else 14.
Definition kDesiredCapacity : nat := kCapacity - 2.
Definition kAllocatedCapacity : nat := kCapacity + (if sizeof_Item =? 16 then 1 else 0).
Definition kCapacityScaleBits : Z := if Nat.eqb kCapacity 12 then 16 else 4.
Definition kCapacityScaleShift : Z := kCapacityScaleBits - 4.
Definition kFullMask : Z := FullMask kCapacity.
Definition kOutboundOverflowMax : Z := 254.
Definition kOutboundOverflowEmpty : Z := 255.

(** [getSomeEmptyInstance]: a constant with no room for items. *)
Definition emptyInstance : F14Chunk Item := mkChunk (replicate 14 0) 0 kOutboundOverflowEmpty [].

Definition isEmptyInstance c : bool := outboundOverflowCount_ c =? kOutboundOverflowEmpty.

Definition clear_chunk c : F14Chunk Item := mkChunk (replicate 14 0) 0 0 (rawItems_ c).

Definition hostedOverflowCount c : Z := control_ c .>> 4.

Definition copyOverflowInfoFrom (rhs : F14Chunk Item) c : F14Chunk Item :=
  mkChunk (tags_ c) (u8 (control_ c + u8 (control_ rhs .& 0xf0))) (outboundOverflowCount_ rhs)
    (rawItems_ c).

Definition kIncrHostedOverflowCount : Z := 0x10.
Definition kDecrHostedOverflowCount : Z := u8 (-0x10).

Definition adjustHostedOverflowCount (op : Z) c : F14Chunk Item :=
  mkChunk (tags_ c) (u8 (control_ c + op)) (outboundOverflowCount_ c) (rawItems_ c).

(** With four bits the scale is in the control byte, with sixteen in the two tags after the
    capacity. *)
Definition capacityScale c : Z :=
  if kCapacityScaleBits =? 4 then control_ c .& 0xf
  else le_word [nth 12 (tags_ c) 0; nth 13 (tags_ c) 0].

Definition eof c : bool := negb (capacityScale c =? 0).

Definition setCapacityScale (scale : Z) c : F14Chunk Item :=
  if kCapacityScaleBits =? 4 then
    mkChunk (tags_ c) (u8 ((control_ c .& Z.lnot 0xf) .| scale)) (outboundOverflowCount_ c) (rawItems_ c)
  else
    mkChunk (<[13%nat := byte_at (u16 scale) 1]> (<[12%nat := byte_at (u16 scale) 0]> (tags_ c)))
      (control_ c) (outboundOverflowCount_ c) (rawItems_ c).

(** [folly::assume(control_ == 0)] before. *)
Definition markEof (scale : Z) c : option (F14Chunk Item) :=
  if control_ c =? 0 then Some (setCapacityScale scale c) else None.

Definition incrOutboundOverflowCount c : F14Chunk Item :=
  mkChunk (tags_ c) (control_ c)
    (if negb (outboundOverflowCount_ c =? kOutboundOverflowMax)
     then u8 (outboundOverflowCount_ c + 1) else outboundOverflowCount_ c) (rawItems_ c).

Definition decrOutboundOverflowCount c : F14Chunk Item :=
  mkChunk (tags_ c) (control_ c)
    (if negb (outboundOverflowCount_ c =? kOutboundOverflowMax)
     then u8 (outboundOverflowCount_ c - 1) else outboundOverflowCount_ c) (rawItems_ c).

Definition tag (index : nat) c : option Z := load (tags_ c) index.

(** The checks of [setTag] and [clearTag] abort the program. *)
Definition setTag (index : nat) (tag : Z) c : option (F14Chunk Item) :=
  old ← load (tags_ c) index;
  if old =? 0 then
    tags ← store (tags_ c) index (u8 tag);
    Some (mkChunk tags (control_ c) (outboundOverflowCount_ c) (rawItems_ c))
  else None.

Definition clearTag (index : nat) c : option (F14Chunk Item) :=
  old ← load (tags_ c) index;
  if negb (old .& 0x80 =? 0) then
    tags ← store (tags_ c) index 0;
    Some (mkChunk tags (control_ c) (outboundOverflowCount_ c) (rawItems_ c))
  else None.

(** The sixteen bytes that the vector instructions load. *)
Definition tagVector c : list Z := tags_ c ++ [control_ c; outboundOverflowCount_ c].

Definition tagMatchIter (needle : Z) c : list nat :=
  let tagV := tagVector c in
  let needleV := mm_set1_epi8 (u8 needle) in
  let eqV := mm_cmpeq_epi8 tagV needleV in
  let mask := mm_movemask_epi8 eqV .& kFullMask in
  SparseMaskIter mask.

Definition occupiedMask c : Z := mm_movemask_epi8 (tagVector c) .& kFullMask.

Definition occupiedIter c : list nat := DenseMaskIter (occupiedMask c).
Definition occupiedRangeIter c : list (nat * nat) := MaskRangeIter (occupiedMask c).
Definition lastOccupied c : option nat := LastOccupiedInMask (occupiedMask c).
Definition firstEmpty c : option nat := FirstEmptyInMask (occupiedMask c .^ kFullMask).

Definition occupied (index : nat) c : option bool :=
  t ← load (tags_ c) index; Some (negb (t =? 0)).

(** The item of a slot, and a new item in a slot. *)
Definition item (i : nat) c : option Item := load (rawItems_ c) i ≫= id.

Definition set_item (i : nat) (x : option Item) c : option (F14Chunk Item) :=
  items ← store (rawItems_ c) i x;
  Some (mkChunk (tags_ c) (control_ c) (outboundOverflowCount_ c) items).
End Chunk.

(** ** Tags *)

Definition is_tag (t : Z) : Prop := 0x80 <= t <= 0xff.

Lemma lor_80 x : 0 <= x < 0x80 -> x .| 0x80 = x + 0x80.
Proof. intros Hx. apply (lor_disjoint x 1 7); [lia|]. unfold is_uint. lia. Qed.

Lemma or_80_tag x : 0 <= x <= 0xff -> is_tag (x .| 0x80).
Proof.
  intros Hx. assert (is_byte x) as Hb by (unfold is_uint; lia).
  apply (byte_forall (fun x => (0x80 <=? x .| 0x80) && (x .| 0x80 <=? 0xff))) in Hb; [|by vm_compute].
  unfold is_tag. lia.
Qed.

(** Whatever the hasher, the hash is a [size_t] and the tag has its top bit set. *)
Lemma splitHashImpl_range kind hash :
  is_u64 hash -> (forall crc x, crc32_u64 kind = Some crc -> is_u32 (crc x)) ->
  is_u64 (splitHashImpl kind hash).1 /\ is_tag (splitHashImpl kind hash).2.
Proof.
  intros Hh Hcrc. unfold splitHashImpl, is_uint in *. destruct (negb _).
  - destruct (crc32_u64 kind) as [crc|]; cbn [fst snd].
    + split; [by apply wrap_range|]. specialize (Hcrc crc hash eq_refl). apply or_80_tag.
      rewrite shiftr_div by lia. split; [apply Z.div_pos; lia|].
      assert (crc hash / 2 ^ 24 < 256); [|lia]. apply Z.div_lt_upper_bound; lia.
    + set (h := u64 _). assert (0 <= h < 2 ^ 64) by by apply wrap_range.
      split; [rewrite shiftr_div by lia; split; [apply Z.div_pos; lia|]|].
      * apply Z.div_lt_upper_bound; lia.
      * apply or_80_tag. rewrite (land_ones_mod _ 7) by lia. pose proof (Z.mod_pos_bound (h .>> 15) (2 ^ 7)). lia.
  - destruct (shouldAssume32BitHash kind); cbn [fst snd].
    + split.
      * rewrite (land_ones_mod _ 32) by lia. pose proof (Z.mod_pos_bound hash (2 ^ 32)). lia.
      * rewrite Z.land_lor_distr_l, (land_ones_mod _ 8) by lia. change (0x80 .& 0xff) with 0x80.
        apply or_80_tag. pose proof (Z.mod_pos_bound (hash .>> 24) (2 ^ 8)). lia.
    + split; [done|]. apply or_80_tag. rewrite shiftr_div by lia. split; [apply Z.div_pos; lia|].
      assert (hash / 2 ^ 56 < 256); [|lia]. apply Z.div_lt_upper_bound; lia.
Qed.

(** ** The slots of a chunk *)

Section Slots.
Context {Item : Type} `{!SizeofItem Item}.
Implicit Types c : F14Chunk Item.

(** The bytes of a header; tags of slots are zero or have the top bit set. *)
Record chunk_ok c : Prop := {
  ok_length : length (tags_ c) = 14%nat;
  ok_tags : Forall is_byte (tags_ c);
  ok_control : is_byte (control_ c);
  ok_outbound : is_byte (outboundOverflowCount_ c);
  ok_slots i t : (i < kCapacity)%nat -> tags_ c !! i = Some t -> t = 0 \/ is_tag t;
}.

Definition full_slot c (i : nat) : bool := negb (nth i (tags_ c) 0 =? 0).

Definition slots c : list nat := filter (fun i => full_slot c i = true) (seq 0 kCapacity).
Definition empty_slots c : list nat := filter (fun i => full_slot c i = false) (seq 0 kCapacity).

Lemma kCapacity_cases : kCapacity = 12%nat \/ kCapacity = 14%nat.
Proof. unfold kCapacity. destruct (_ =? _); auto. Qed.

Lemma kCapacity_le : (12 <= kCapacity <= 14)%nat.
Proof. destruct kCapacity_cases; lia. Qed.

Lemma testbit_movemask (r : list Z) i :
  Forall is_byte r -> Z.testbit (mm_movemask_epi8 r) (Z.of_nat i) = (128 <=? default 0 (r !! i)).
Proof.
  intros Hr. revert i. induction Hr as [|b r Hb Hr IH]; intros i; cbn [mm_movemask_epi8].
  - by rewrite Z.bits_0.
  - assert (b .>> 7 = Z.b2z (128 <=? b)) as ->.
    { apply Z.eqb_eq. by apply (byte_forall (fun b => b .>> 7 =? Z.b2z (128 <=? b))); [vm_compute|]. }
    rewrite Z.add_comm. destruct i as [|i].
    + apply Z.testbit_0_r.
    + rewrite Nat2Z.inj_succ, Z.testbit_succ_r by lia. apply IH.
Qed.

Lemma tagVector_bytes c : chunk_ok c -> Forall is_byte (tagVector c).
Proof. intros [? ? ? ? _]. unfold tagVector. apply Forall_app_2; [done|]. by repeat apply Forall_cons_2. Qed.

Lemma lookup_tagVector c i :
  chunk_ok c -> (i < 14)%nat -> default 0 (tagVector c !! i) = nth i (tags_ c) 0.
Proof.
  intros Hok Hi. unfold tagVector. rewrite lookup_app_l by (rewrite ok_length by done; lia).
  by rewrite nth_lookup.
Qed.

Lemma kFullMask_bit i : Z.testbit kFullMask (Z.of_nat i) = (i <? kCapacity)%nat.
Proof.
  unfold kFullMask. rewrite FullMask_ones.
  assert (2 ^ Z.of_nat kCapacity - 1 = Z.ones (Z.of_nat kCapacity)) as -> by (rewrite Z.ones_equiv; lia).
  destruct (Nat.ltb_spec i kCapacity).
  - apply Z.ones_spec_low. lia.
  - apply Z.ones_spec_high. lia.
Qed.

Lemma land_full_uint m : is_uint (Z.of_nat kCapacity) (m .& kFullMask).
Proof. apply land_uint; [lia|]. unfold is_uint, kFullMask. rewrite FullMask_ones. lia. Qed.

(** A mask computed from the header shows the slots whose bytes satisfy [P]. *)
Lemma bits_mask (m : Z) (P : nat -> bool) :
  (forall i, (i < kCapacity)%nat -> Z.testbit m (Z.of_nat i) = P i) ->
  bits kCapacity (m .& kFullMask) = filter (fun i => P i = true) (seq 0 kCapacity).
Proof.
  intros HP. unfold bits. apply filter_ext_in. intros i Hi%elem_of_seq.
  rewrite Z.land_spec, kFullMask_bit, HP by lia. rewrite (proj2 (Nat.ltb_lt _ _)) by lia.
  by rewrite andb_true_r.
Qed.

Lemma full_slot_bit c i :
  chunk_ok c -> (i < kCapacity)%nat -> (128 <=? nth i (tags_ c) 0) = full_slot c i.
Proof.
  intros Hok Hi. pose proof kCapacity_le. unfold full_slot.
  destruct (lookup_lt_is_Some_2 (tags_ c) i) as [t Ht]; [rewrite ok_length by done; lia|].
  rewrite (nth_lookup_Some _ _ _ _ Ht). destruct (ok_slots c Hok i t Hi Ht) as [->|Htag]; [done|].
  unfold is_tag in Htag. rewrite (proj2 (Z.leb_le _ _)), (proj2 (Z.eqb_neq _ _)) by lia. done.
Qed.

Lemma occupiedMask_bits c : chunk_ok c -> bits kCapacity (occupiedMask c) = slots c.
Proof.
  intros Hok. pose proof kCapacity_le. apply bits_mask. intros i Hi.
  rewrite testbit_movemask, lookup_tagVector by (by apply tagVector_bytes || done || lia).
  by apply full_slot_bit.
Qed.

Lemma tagMatchIter_spec needle c :
  chunk_ok c -> is_byte needle ->
  tagMatchIter needle c = filter (fun i => nth i (tags_ c) 0 = needle) (seq 0 kCapacity).
Proof.
  intros Hok Hn. pose proof kCapacity_le as Hk. unfold tagMatchIter.
  rewrite (SparseMaskIter_bits kCapacity) by (lia || apply land_full_uint).
  rewrite (bits_mask _ (fun i => nth i (tags_ c) 0 =? needle)).
  - apply filter_ext_in. intros i _. apply Z.eqb_eq.
  - intros i Hi. unfold mm_cmpeq_epi8, mm_set1_epi8.
    rewrite !wrap_small by (done || by apply wrap_range).
    assert (length (tagVector c) = 16%nat) as Hl by (unfold tagVector; by rewrite length_app, (ok_length c Hok)).
    rewrite zip_set1, testbit_movemask; [| |done].
    + rewrite list_lookup_fmap. pose proof (lookup_tagVector c i Hok ltac:(lia)) as Hlt.
      destruct (tagVector c !! i) as [x|] eqn:E; cbn in *; [|apply lookup_ge_None in E; lia].
      rewrite Hlt. by destruct (nth i (tags_ c) 0 =? needle).
    + apply Forall_fmap, Forall_true. intros x. unfold compose, mask8, is_uint. destruct (_ =? _); lia.
Qed.

Lemma occupiedIter_spec c : chunk_ok c -> occupiedIter c = slots c.
Proof.
  intros Hok. pose proof kCapacity_le. unfold occupiedIter.
  rewrite (DenseMaskIter_bits kCapacity) by (lia || apply land_full_uint). by apply occupiedMask_bits.
Qed.

Lemma lastOccupied_spec c : chunk_ok c -> lastOccupied c = last (slots c).
Proof.
  intros Hok. unfold lastOccupied. rewrite (LastOccupiedInMask_bits kCapacity) by apply land_full_uint.
  by rewrite occupiedMask_bits.
Qed.

Lemma firstEmpty_spec c : chunk_ok c -> firstEmpty c = head (empty_slots c).
Proof.
  intros Hok. unfold firstEmpty. set (m := occupiedMask c .^ kFullMask).
  assert (m = m .& kFullMask) as Hm.
  { apply Z.bits_inj'. intros i Hi. subst m. unfold occupiedMask.
    rewrite !Z.land_spec, !Z.lxor_spec, !Z.land_spec.
    by destruct (Z.testbit (mm_movemask_epi8 _) i), (Z.testbit kFullMask i). }
  rewrite Hm, (FirstEmptyInMask_bits kCapacity) by apply land_full_uint. f_equal.
  rewrite (bits_mask m (fun i => negb (full_slot c i))).
  - apply filter_ext_in. intros i _. apply negb_true_iff.
  - intros i Hi. subst m. rewrite Z.lxor_spec, kFullMask_bit, (proj2 (Nat.ltb_lt _ _)) by lia.
    unfold occupiedMask. rewrite Z.land_spec, kFullMask_bit, (proj2 (Nat.ltb_lt _ _)) by lia.
    pose proof kCapacity_le.
    rewrite testbit_movemask, lookup_tagVector, full_slot_bit by (by apply tagVector_bytes || done || lia).
    by destruct (full_slot c i).
Qed.

Lemma elem_of_slots c i : i ∈ slots c <-> (i < kCapacity)%nat /\ full_slot c i = true.
Proof. unfold slots. rewrite list_elem_of_filter, elem_of_seq. intuition lia. Qed.

Lemma elem_of_empty_slots c i : i ∈ empty_slots c <-> (i < kCapacity)%nat /\ full_slot c i = false.
Proof. unfold empty_slots. rewrite list_elem_of_filter, elem_of_seq. intuition lia. Qed.

Lemma slots_total c : (length (slots c) + length (empty_slots c) = kCapacity)%nat.
Proof.
  unfold slots, empty_slots. rewrite <- (length_seq kCapacity 0) at 3.
  induction (seq 0 kCapacity) as [|i l IH]; [done|]. rewrite !filter_cons.
  destruct (full_slot c i) eqn:E; repeat case_decide; cbn [length]; (congruence || lia).
Qed.
End Slots.
