(* ===== verification/F14Table.v ===== *)
(** F14 hash tables: [F14Table] of [container/detail/F14Table.h].

    A table is a power of two of chunks.  An item with the hash pair [(h, tag)] is stored in the
    first chunk of its probe sequence [h], [h + (2 tag + 1)], ... that has room; the chunks it
    passed count it as outbound overflow, and the chunk where it is counts it as hosted overflow.
    This file has the operations; a pointer to a slot is a pair of indices, and the end iterator is
    [None].  The policy (hasher, key of an item, allocator limits) is a type class; items are
    constructed by callers and constructors may throw. *)
From S2P Require Import Prelude Sse F14Mask F14Chunk.

Class F14Policy (Item Key : Type) := {
  keyForItem : Item -> Key;
  hasher : Key -> Z;
  hasherKind : HasherKind;
  kEnableItemIteration : bool;
  kContinuousCapacity : bool;
  (** [std::is_trivially_copyable<Item>] and [destroyItemOnClear()]. *)
  itemIsTriviallyCopyable : bool;
  destroyItemOnClear : bool;
  (** The smaller of the limits of [InternalSizeType] and of the allocator. *)
  alloc_max_size : Z;
}.

(** [bad_alloc] comes from the allocator, with the request that it refused, or from the limit on the
    size. *)
Inductive f14_exn := bad_alloc (request : option Z) | construction_exception.

Record F14Table (Item : Type) := mkTable {
  chunks_ : list (F14Chunk Item);
  packedSizeAndChunkShift_ : Z;
  packedBegin_ : option (nat * nat);
}.
Arguments mkTable {Item} _ _ _.
Arguments chunks_ {Item} _.
Arguments packedSizeAndChunkShift_ {Item} _.
Arguments packedBegin_ {Item} _.

Section Table.
Context {Item Key : Type} `{!SizeofItem Item} `{!F14Policy Item Key} `{!EqDecision Key}.

Abbreviation chunk := (F14Chunk Item).
Abbreviation table := (F14Table Item).
Abbreviation op := (M table f14_exn).
Abbreviation ItemIter := (option (nat * nat)).
Implicit Types t : table.

(** ** Size and chunk count ([PackedSizeAndChunkShift]) *)

Definition kSizeShift : Z := 8.
Definition kMaxSize : Z := 2 ^ (64 - kSizeShift) - 1.

Definition size_ t : Z := packedSizeAndChunkShift_ t .>> kSizeShift.
Definition chunkShift t : Z := packedSizeAndChunkShift_ t .& (2 ^ kSizeShift - 1).
Definition chunkCount t : Z := u64 (1 .<< chunkShift t).

Definition set_packed (v : Z) t : table := mkTable (chunks_ t) v (packedBegin_ t).
Definition set_chunks (cs : list chunk) t : table :=
  mkTable cs (packedSizeAndChunkShift_ t) (packedBegin_ t).
Definition set_begin (b : ItemIter) t : table :=
  mkTable (chunks_ t) (packedSizeAndChunkShift_ t) b.

Definition setSize (sz : Z) t : table := set_packed (chunkShift t .| u64 (sz .<< kSizeShift)) t.

Definition setChunkCount (newCount : Z) t : table :=
  let shift := Z.of_nat (findFirstSetNonZero newCount) in
  set_packed (u64 (size_ t .<< kSizeShift) .| shift) t.

Definition incrementSize t : table := setSize (u64 (size_ t + 1)) t.
Definition decrementSize t : table := setSize (u64 (size_ t - 1)) t.

(** [F14Table()]: the empty instance, which is constant. *)
Definition F14Table_default : table := mkTable [emptyInstance] 0 None.

(** ** Capacities *)

Definition max_size : Z := Z.min kMaxSize alloc_max_size.

Definition computeCapacity (chunkCount scale : Z) : Z :=
  u64 (u64 ((u64 (chunkCount - 1) .>> kCapacityScaleShift) + 1) * scale).

Definition computeChunkCountAndScale (desiredCapacity : Z)
    (continuousSingleChunkCapacity continuousMultiChunkCapacity : bool) : result f14_exn (Z * Z) :=
  if desiredCapacity <=? Z.of_nat kCapacity then
    Ok (1, if negb continuousSingleChunkCapacity then
             if desiredCapacity <=? 2 then 2
             else if desiredCapacity <=? 6 then 6
             else Z.of_nat kCapacity
           else desiredCapacity)
  else
    let minChunks := (desiredCapacity - 1) / Z.of_nat kDesiredCapacity + 1 in
    let chunkPow := findLastSet (minChunks - 1) in
    if chunkPow =? 64 then Err (bad_alloc None)
    else
      let chunkCount := u64 (1 .<< chunkPow) in
      let ss := if kCapacityScaleShift <=? chunkPow then chunkPow - kCapacityScaleShift else 0 in
      let scale :=
        if continuousMultiChunkCapacity then u64 (((desiredCapacity - 1) .>> ss) + 1)
        else u64 (Z.of_nat kDesiredCapacity .<< (chunkPow - ss)) in
      let actualCapacity := computeCapacity chunkCount scale in
      if max_size <? actualCapacity then Err (bad_alloc None) else Ok (chunkCount, scale).

(** [sizeof(Chunk)]: the header and the items, aligned to the vector size.  The items follow the
    header, which is so if their alignment is at most sixteen. *)
Definition sizeof_Chunk : Z := (16 + sizeof_Item * Z.of_nat kAllocatedCapacity + 15) / 16 * 16.

Definition chunkAllocSize (chunkCount capacityScale : Z) : Z :=
  if chunkCount =? 1 then u64 (16 + sizeof_Item * computeCapacity 1 capacityScale)
  else u64 (sizeof_Chunk * chunkCount).

(** A single chunk has room for its capacity only. *)
Definition chunk_room (chunkCount capacityScale : Z) : nat :=
  if chunkCount =? 1 then Z.to_nat (computeCapacity 1 capacityScale) else kCapacity.

(** The headers of the chunks have to be within the [rawSize] bytes that were allocated. *)
Definition initializeChunks (rawSize chunkCount capacityScale : Z) : option (list chunk) :=
  if rawSize <? sizeof_Chunk * (chunkCount - 1) + 16 then None
  else
    let raw := mkChunk (replicate 14 0) 0 0 (replicate (chunk_room chunkCount capacityScale) None) in
    match replicate (Z.to_nat chunkCount) (clear_chunk raw) with
    | [] => None
    | c :: cs => c ← markEof capacityScale c; Some (c :: cs)
    end.

(** The scale is read through [chunks_]. *)
Definition first_chunk t : option chunk := load (chunks_ t) 0.

Definition bucket_count t : option Z :=
  c ← first_chunk t; Some (computeCapacity (chunkCount t) (capacityScale c)).

Definition itemCount t : option Z :=
  if chunkShift t =? 0 then c ← first_chunk t; Some (computeCapacity 1 (capacityScale c))
  else Some (u64 (chunkCount t * Z.of_nat kCapacity)).

(** ** Searching *)

Definition HashPair : Type := Z * Z.

Definition splitHash (hash : Z) : HashPair := splitHashImpl hasherKind hash.
Definition computeKeyHash (key : Key) : Z := hasher key.
Definition computeItemHash (x : Item) : Z := computeKeyHash (keyForItem x).
Definition keyMatchesItem (key : Key) (x : Item) : bool := bool_decide (key = keyForItem x).

(** [chunks_ + moduloByChunkCount(index)] as an index. *)
Definition moduloByChunkCount t (index : Z) : Z := index .& (u64 (1 .<< chunkShift t) - 1).
Definition chunk_at t (index : Z) : nat := Z.to_nat (moduloByChunkCount t index).

Definition probeDelta (hp : HashPair) : Z := u64 (2 * hp.2 + 1).

(** The first of the slots whose item has the key. *)
Fixpoint find_hit (key : Key) (c : chunk) (hits : list nat) : option (option nat) :=
  match hits with
  | [] => Some None
  | i :: hits =>
      x ← item i c;
      if keyMatchesItem key x then Some (Some i) else find_hit key c hits
  end.

Fixpoint find_loop (fuel : nat) t (hp : HashPair) (key : Key) (tries index : Z) : option ItemIter :=
  match fuel with
  | O => None
  | S fuel =>
      if negb (tries .>> chunkShift t =? 0) then Some None
      else
        let ci := chunk_at t index in
        c ← load (chunks_ t) ci;
        hit ← find_hit key c (tagMatchIter hp.2 c);
        match hit with
        | Some i => Some (Some (ci, i))
        | None =>
            if outboundOverflowCount_ c =? 0 then Some None
            else find_loop fuel t hp key (u64 (tries + 1)) (u64 (index + probeDelta hp))
        end
  end.

Definition findImpl t (hp : HashPair) (key : Key) : option ItemIter :=
  find_loop (S (length (chunks_ t))) t hp key 0 hp.1.

Definition find t (key : Key) : option ItemIter := findImpl t (splitHash (computeKeyHash key)) key.

(** ** Iterators *)

(** [PackedChunkItemPtr] compares addresses; null is the least. *)
Definition packed_lt (a b : ItemIter) : bool :=
  match a, b with
  | _, None => false
  | None, Some _ => true
  | Some (ci, i), Some (cj, j) => Nat.ltb ci cj || (Nat.eqb ci cj && Nat.ltb i j)
  end.

(** The occupied slot before [index_] in the same chunk. *)
Fixpoint previous_slot (c : chunk) (index_ : nat) : option (option nat) :=
  match index_ with
  | O => Some None
  | S index_ =>
      b ← occupied index_ c;
      if b : bool then Some (Some index_) else previous_slot c index_
  end.

(** The last slot of the chunks before [ci]. *)
Fixpoint previous_chunks t (checkEof : bool) (ci : nat) : option ItemIter :=
  c ← load (chunks_ t) ci;
  if checkEof && eof c then Some None
  else
    match ci with
    | O => None
    | S ci =>
        c ← load (chunks_ t) ci;
        match lastOccupied c with
        | Some i => Some (Some (ci, i))
        | None => previous_chunks t checkEof ci
        end
    end.

Definition advanceImpl t (checkEof : bool) (iter : nat * nat) : option ItemIter :=
  c ← load (chunks_ t) iter.1;
  prev ← previous_slot c iter.2;
  match prev with
  | Some i => Some (Some (iter.1, i))
  | None => previous_chunks t checkEof iter.1
  end.

Definition advance t : nat * nat -> option ItemIter := advanceImpl t true.
Definition precheckedAdvance t : nat * nat -> option ItemIter := advanceImpl t false.

Definition begin_ t : ItemIter := packedBegin_ t.

(** ** Updates of one chunk *)

(** The empty instance is constant: writing to it is undefined. *)
Definition update_chunk (ci : nat) (f : chunk -> option chunk) t : option table :=
  c ← load (chunks_ t) ci;
  if isEmptyInstance c then None
  else
    c ← f c;
    cs ← store (chunks_ t) ci c;
    Some (set_chunks cs t).

Definition total (f : chunk -> chunk) (c : chunk) : option chunk := Some (f c).

Definition adjustSizeAndBeginAfterInsert (iter : nat * nat) t : table :=
  let t := if kEnableItemIteration && packed_lt (packedBegin_ t) (Some iter)
           then set_begin (Some iter) t else t in
  incrementSize t.

Fixpoint erase_probe (fuel : nat) (ci : nat) (delta : Z) (index hostedOp : Z) t : option table :=
  match fuel with
  | O => None
  | S fuel =>
      let cj := chunk_at t index in
      if Nat.eqb cj ci then update_chunk ci (total (adjustHostedOverflowCount hostedOp)) t
      else
        t ← update_chunk cj (total decrOutboundOverflowCount) t;
        erase_probe fuel ci delta (u64 (index + delta)) kDecrHostedOverflowCount t
  end.

Definition eraseBlank (iter : nat * nat) (hp : HashPair) t : option table :=
  t ← update_chunk iter.1 (clearTag iter.2) t;
  c ← load (chunks_ t) iter.1;
  if negb (hostedOverflowCount c =? 0) then
    erase_probe (S (length (chunks_ t))) iter.1 (probeDelta hp) hp.1 0 t
  else Some t.

Definition adjustSizeAndBeginBeforeErase (iter : nat * nat) t : option table :=
  let t := decrementSize t in
  if kEnableItemIteration && bool_decide (packedBegin_ t = Some iter) then
    b ← (if size_ t =? 0 then Some None else precheckedAdvance t iter);
    Some (set_begin b t)
  else Some t.

(** [args] is the item that the constructor makes, or its exception. *)
Definition insertAtBlank (pos : nat * nat) (hp : HashPair) (args : result f14_exn Item) : op unit :=
  fun t =>
    match args with
    | Ok x =>
        t ← update_chunk pos.1 (set_item pos.2 (Some x)) t;
        Some (adjustSizeAndBeginAfterInsert pos t, Ok tt)
    | Err e => t ← eraseBlank pos hp t; Some (t, Err e)
    end.

(** ** Rehashing *)

Fixpoint allocateTag_loop (fuel : nat) (hp : HashPair) (index hostedOp : Z) (fullness : list Z) t :
    option (nat * Z * table) :=
  match fuel with
  | O => None
  | S fuel =>
      let index := moduloByChunkCount t index in
      f ← load fullness (Z.to_nat index);
      if f <? Z.of_nat kCapacity then Some (Z.to_nat index, hostedOp, t)
      else
        t ← update_chunk (Z.to_nat index) (total incrOutboundOverflowCount) t;
        allocateTag_loop fuel hp (u64 (index + probeDelta hp)) kIncrHostedOverflowCount fullness t
  end.

(** The first chunk on the probe sequence that is not full, by [fullness], gets the tag. *)
Definition allocateTag (fullness : list Z) (hp : HashPair) t :
    option ((nat * nat) * list Z * table) :=
  '(ci, hostedOp, t) ← allocateTag_loop (S (length (chunks_ t))) hp hp.1 0 fullness t;
  f ← load fullness ci;
  fullness ← store fullness ci (u8 (f + 1));
  let itemIndex := Z.to_nat f in
  t ← update_chunk ci (setTag itemIndex hp.2) t;
  t ← update_chunk ci (total (adjustHostedOverflowCount hostedOp)) t;
  Some ((ci, itemIndex), fullness, t).

(** [moveItemDuringRehash] into a slot of this table. *)
Definition move_item (pos : nat * nat) (x : Item) t : option table :=
  update_chunk pos.1 (set_item pos.2 (Some x)) t.

(** One chunk into one chunk: [srcI] is the next slot of the source. *)
Fixpoint rehash_single (fuel : nat) (src : chunk) (origSize srcI dstI : nat) t : option table :=
  if Nat.ltb dstI origSize then
    match fuel with
    | O => None
    | S fuel =>
        occ ← occupied srcI src;
        if occ : bool then
          tg ← tag srcI src;
          t ← update_chunk 0 (setTag dstI tg) t;
          x ← item srcI src;
          t ← move_item (0%nat, dstI) x t;
          rehash_single fuel src origSize (S srcI) (S dstI) t
        else rehash_single fuel src origSize (S srcI) dstI t
    end
  else Some t.

(** The items of one source chunk; a tag that is not of the item's hash aborts. *)
Fixpoint rehash_items (src : chunk) (slots : list nat) (remaining : Z) (fullness : list Z) t :
    option (Z * list Z * table) :=
  match slots with
  | [] => Some (remaining, fullness, t)
  | srcI :: slots =>
      srcItem ← item srcI src;
      let hp := splitHash (computeItemHash srcItem) in
      tg ← tag srcI src;
      if hp.2 =? tg then
        '(dst, fullness, t) ← allocateTag fullness hp t;
        t ← move_item dst srcItem t;
        rehash_items src slots (u64 (remaining - 1)) fullness t
      else None
  end.

(** The source chunks from the last; [n] are left. *)
Fixpoint rehash_chunks (n : nat) (src : list chunk) (remaining : Z) (fullness : list Z) t :
    option (list Z * table) :=
  if 0 <? remaining then
    match n with
    | O => None
    | S n =>
        c ← load src n;
        '(remaining, fullness, t) ← rehash_items c (occupiedIter c) remaining fullness t;
        rehash_chunks n src remaining fullness t
    end
  else Some (fullness, t).

(** The last chunk of the first [n] that is not empty. *)
Fixpoint last_filled (n : nat) (fullness : list Z) : option (nat * nat) :=
  match n with
  | O => None
  | S n =>
      f ← load fullness n;
      if f =? 0 then last_filled n fullness else Some (n, Z.to_nat f - 1)%nat
  end.

(** [allocates n]: an allocation of [n] bytes succeeds. *)
Definition rehashImpl (allocates : Z -> bool)
    (origSize origChunkCount origCapacityScale newChunkCount newCapacityScale : Z) : op unit :=
  fun t =>
    let origChunks := chunks_ t in
    let newAllocSize := chunkAllocSize newChunkCount newCapacityScale in
    if negb (allocates newAllocSize) then Some (t, Err (bad_alloc (Some newAllocSize)))
    else
      cs ← initializeChunks newAllocSize newChunkCount newCapacityScale;
      let t := setChunkCount newChunkCount (set_chunks cs t) in
      if origSize =? 0 then Some (t, Ok tt)
      else if (origChunkCount =? 1) && (newChunkCount =? 1) then
        src ← load origChunks 0;
        t ← rehash_single 14 src (Z.to_nat origSize) 0 0 t;
        Some (if kEnableItemIteration then set_begin (Some (0, Z.to_nat origSize - 1)%nat) t else t, Ok tt)
      else if (256 <? newChunkCount) && negb (allocates newChunkCount) then
        Some (setChunkCount origChunkCount (set_chunks origChunks t), Err (bad_alloc (Some newChunkCount)))
      else
        '(fullness, t) ← rehash_chunks (Z.to_nat origChunkCount) origChunks origSize
                           (replicate (Z.to_nat newChunkCount) 0) t;
        if kEnableItemIteration then
          b ← last_filled (Z.to_nat (chunkCount t)) fullness;
          Some (set_begin (Some b) t, Ok tt)
        else Some (t, Ok tt).

Definition maybeRehash (allocates : Z -> bool) (desiredCapacity : Z) (attemptExact : bool) : op unit :=
  fun t =>
    let origChunkCount := chunkCount t in
    c ← first_chunk t;
    let origCapacityScale := capacityScale c in
    let origCapacity := computeCapacity origChunkCount origCapacityScale in
    match computeChunkCountAndScale desiredCapacity attemptExact (kContinuousCapacity && attemptExact) with
    | Err e => Some (t, Err e)
    | Ok (newChunkCount, newCapacityScale) =>
        let newCapacity := computeCapacity newChunkCount newCapacityScale in
        if negb (origCapacity =? newCapacity) then
          rehashImpl allocates (size_ t) origChunkCount origCapacityScale newChunkCount newCapacityScale t
        else Some (t, Ok tt)
    end.

(** ** Clearing *)

(** [destroyItem] for every item of a chunk. *)
Definition destroy_items (c : chunk) : option chunk :=
  foldr (fun i oc => c ← oc; _ ← item i c; set_item i None c) (Some c) (occupiedIter c).

Definition clearImpl (Reset : bool) t : option table :=
  c0 ← first_chunk t;
  if isEmptyInstance c0 then Some t
  else
    let willReset := Reset || (16 <=? chunkCount t) in
    t ← (if negb (size_ t =? 0) then
           cs ← (if destroyItemOnClear then mapM destroy_items (chunks_ t) else Some (chunks_ t));
           cs ← (if willReset then Some cs
                 else match clear_chunk <$> cs with
                      | [] => None
                      | c :: cs => c ← markEof (capacityScale c0) c; Some (c :: cs)
                      end);
           let t := set_chunks cs t in
           let t := if kEnableItemIteration then set_begin None t else t in
           Some (setSize 0 t)
         else Some t);
    if willReset then Some (setChunkCount 1 (set_chunks [emptyInstance] t)) else Some t.

(** [clear] of builds without the address sanitizer. *)
Definition clear : table -> option table := clearImpl false.
Definition reset : table -> option table := clearImpl true.

(** ** Reserving *)

Definition reserveImpl (allocates : Z -> bool) (requestedCapacity : Z) : op unit :=
  fun t =>
    let targetCapacity := Z.max requestedCapacity (size_ t) in
    if targetCapacity =? 0 then t ← reset t; Some (t, Ok tt)
    else if requestedCapacity <=? size_ t then maybeRehash allocates targetCapacity true t
    else
      origCapacity ← bucket_count t;
      if targetCapacity <=? origCapacity then Some (t, Ok tt)
      else
        let attemptExact := u64 (origCapacity + u64 (origCapacity + 7) / 8) <? targetCapacity in
        maybeRehash allocates targetCapacity attemptExact t.

Definition reserveForInsertImpl (allocates : Z -> bool)
    (capacityMinusOne origChunkCount origCapacityScale origCapacity : Z) : op unit :=
  fun t =>
    let capacity := u64 (capacityMinusOne + 1) in
    let minGrowth :=
      u64 (origCapacity + (origCapacity .>> 2) + (origCapacity .>> 3) + (origCapacity .>> 5)) in
    let capacity := Z.max capacity minGrowth in
    match computeChunkCountAndScale capacity false false with
    | Err e => Some (t, Err e)
    | Ok (newChunkCount, newCapacityScale) =>
        rehashImpl allocates (size_ t) origChunkCount origCapacityScale newChunkCount newCapacityScale t
    end.

Definition initialReserve (allocates : Z -> bool) (desiredCapacity : Z) : op unit :=
  fun t =>
    if desiredCapacity =? 0 then Some (t, Ok tt)
    else
      match computeChunkCountAndScale desiredCapacity true kContinuousCapacity with
      | Err e => Some (t, Err e)
      | Ok (newChunkCount, newCapacityScale) =>
          let newAllocSize := chunkAllocSize newChunkCount newCapacityScale in
          if negb (allocates newAllocSize) then Some (t, Err (bad_alloc (Some newAllocSize)))
          else
            cs ← initializeChunks newAllocSize newChunkCount newCapacityScale;
            Some (setChunkCount newChunkCount (set_chunks cs t), Ok tt)
      end.

Definition reserve (allocates : Z -> bool) (capacity : Z) : op unit :=
  fun t =>
    c ← first_chunk t;
    if isEmptyInstance c then initialReserve allocates capacity t
    else reserveImpl allocates capacity t.

Definition reserveForInsert (allocates : Z -> bool) (incoming : Z) : op unit :=
  fun t =>
    let needed := u64 (size_ t + incoming) in
    let cc := chunkCount t in
    c ← first_chunk t;
    let existing := computeCapacity cc (capacityScale c) in
    if existing <=? u64 (needed - 1) then
      reserveForInsertImpl allocates (u64 (needed - 1)) cc (capacityScale c) existing t
    else Some (t, Ok tt).

(** ** Inserting *)

(** What debug builds draw at random at an insertion: whether to rehash first, and a number for
    the slot.  Other builds draw nothing. *)
Record DebugDraw := mkDraw { spuriousRehash : bool; slotRandom : option nat }.
Definition no_draw : DebugDraw := mkDraw false None.

Definition debugModeSpuriousRehash (allocates : Z -> bool) : op unit :=
  fun t =>
    c ← first_chunk t;
    let cc := chunkCount t in
    let ss := capacityScale c in
    rehashImpl allocates (size_ t) cc ss cc ss t.

Definition debugModeBeforeInsert (allocates : Z -> bool) (draw : DebugDraw) : op unit :=
  fun t =>
    if spuriousRehash draw && (0 <? size_ t) then debugModeSpuriousRehash allocates t
    else Some (t, Ok tt).

Definition debugModePerturbSlotInsertOrder (draw : DebugDraw) (c : chunk) (itemIndex : nat) t :
    option nat :=
  match slotRandom draw with
  | None => Some itemIndex
  | Some s =>
      e ← (if chunkShift t =? 0 then bc ← bucket_count t; Some (Z.to_nat bc) else Some kCapacity);
      let i := (itemIndex + s mod (e - itemIndex))%nat in
      b ← occupied i c;
      Some (if b : bool then itemIndex else i)
  end.

(** The chunk for a new item and its first empty slot; [moved] from the second chunk on. *)
Fixpoint emplace_probe (fuel : nat) (hp : HashPair) (index : Z) (moved : bool) t :
    option (nat * nat * table) :=
  match fuel with
  | O => None
  | S fuel =>
      let ci := chunk_at t index in
      c ← load (chunks_ t) ci;
      match firstEmpty c with
      | Some itemIndex =>
          t ← (if moved then update_chunk ci (total (adjustHostedOverflowCount kIncrHostedOverflowCount)) t
               else Some t);
          Some (ci, itemIndex, t)
      | None =>
          t ← update_chunk ci (total incrOutboundOverflowCount) t;
          emplace_probe fuel hp (u64 (index + probeDelta hp)) true t
      end
  end.

(** The insertion proper, after the search and the reservation. *)
Definition emplace (hp : HashPair) (draw : DebugDraw) (args : result f14_exn Item) : op (nat * nat) :=
  fun t =>
    '(ci, itemIndex, t) ← emplace_probe (S (length (chunks_ t))) hp hp.1 false t;
    c ← load (chunks_ t) ci;
    itemIndex ← debugModePerturbSlotInsertOrder draw c itemIndex t;
    t ← update_chunk ci (setTag itemIndex hp.2) t;
    '(t, r) ← insertAtBlank (ci, itemIndex) hp args t;
    Some (t, match r with Ok _ => Ok (ci, itemIndex) | Err e => Err e end).

Definition tryEmplaceValueImpl (allocates : Z -> bool) (draw : DebugDraw) (hp : HashPair) (key : Key)
    (args : result f14_exn Item) : op ((nat * nat) * bool) :=
  existing ← access (fun t => if 0 <? size_ t then findImpl t hp key else Some None);
  match existing with
  | Some iter => mret (iter, false)
  | None =>
      _ ← debugModeBeforeInsert allocates draw;
      _ ← reserveForInsert allocates 1;
      iter ← emplace hp draw args;
      mret (iter, true)
  end.

Definition tryEmplaceValue (allocates : Z -> bool) (draw : DebugDraw) (key : Key)
    (args : result f14_exn Item) : op ((nat * nat) * bool) :=
  tryEmplaceValueImpl allocates draw (splitHash (computeKeyHash key)) key args.

(** ** Erasing *)

Definition item_at t (pos : nat * nat) : option Item :=
  c ← load (chunks_ t) pos.1; item pos.2 c.

Definition eraseImpl (pos : nat * nat) (hp : HashPair) t : option table :=
  _ ← item_at t pos;
  t ← update_chunk pos.1 (set_item pos.2 None) t;
  t ← adjustSizeAndBeginBeforeErase pos t;
  eraseBlank pos hp t.

(** The erased item goes to [beforeDestroy]. *)
Definition eraseIterInto (pos : nat * nat) t : option (Item * table) :=
  c ← load (chunks_ t) pos.1;
  x ← item_at t pos;
  let hp := if negb (hostedOverflowCount c =? 0) then splitHash (computeItemHash x) else (0, 0) in
  t ← eraseImpl pos hp t;
  Some (x, t).

Definition eraseKeyInto (key : Key) t : option (option Item * table) :=
  if size_ t =? 0 then Some (None, t)
  else
    let hp := splitHash (computeKeyHash key) in
    it ← findImpl t hp key;
    match it with
    | None => Some (None, t)
    | Some pos =>
        x ← item_at t pos;
        t ← eraseImpl pos hp t;
        Some (Some x, t)
    end.

(** ** Visiting *)

Definition lastOccupiedChunk t : option nat :=
  if kEnableItemIteration then fst <$> begin_ t else Some (Z.to_nat (chunkCount t) - 1)%nat.

Definition visit_chunk (c : chunk) : option (list Item) := mapM (fun i => item i c) (occupiedIter c).

Definition visitItems t : option (list Item) :=
  if size_ t =? 0 then Some []
  else
    maxChunkIndex ← lastOccupiedChunk t;
    mjoin <$> mapM (fun i => c ← load (chunks_ t) i; visit_chunk c) (seq 0 (S maxChunkIndex)).

Definition visitContiguousItemRanges t : option (list (list Item)) :=
  if size_ t =? 0 then Some []
  else
    maxChunkIndex ← lastOccupiedChunk t;
    mjoin <$> mapM (fun ci =>
      c ← load (chunks_ t) ci;
      mapM (fun '(b, e) => mapM (fun i => item i c) (seq b (e - b))) (occupiedRangeIter c))
      (seq 0 (S maxChunkIndex)).

(** The loop [for (iter = begin(); iter != end(); iter.advance())]. *)
Fixpoint iterate (fuel : nat) t (iter : ItemIter) : option (list Item) :=
  match iter with
  | None => Some []
  | Some pos =>
      match fuel with
      | O => None
      | S fuel =>
          x ← item_at t pos;
          next ← advance t pos;
          rest ← iterate fuel t next;
          Some (x :: rest)
      end
  end.

(** The iterator after [n] steps, or [end()]: [for (; n > 0 && iter != end(); --n) iter.advance()]. *)
Fixpoint skip (n : nat) t (iter : ItemIter) : option ItemIter :=
  match n, iter with
  | S n, Some pos => next ← advance t pos; skip n t next
  | _, _ => Some iter
  end.

Definition iterate_all t : option (list Item) :=
  iterate (S (length (chunks_ t) * kCapacity)) t (begin_ t).
End Table.
