(* ===== verification/F14Packed.v ===== *)
(** Packed item pointers of F14 tables: [PackedChunkItemPtr<T*>] and the packing of [F14ItemIter] in
    [container/detail/F14Table.h], and [constexpr_find_first_set] of [ConstexprMath.h].

    The other files keep the first iterator of a table as a chunk and a slot.  Here it is the word
    that the code stores: an address with some bits of the slot in its low bits. *)
From Stdlib Require Import Zpow_facts.
From S2P Require Import Prelude Sse F14Mask F14Chunk F14Table.

(** ** The code *)

Section Pack.
Variable sizeof : Z.

(** The one-based index of the lowest bit, by halving. *)
Fixpoint constexpr_find_first_set_ (fuel : nat) (s a u : Z) : Z :=
  match fuel with
  | O => a
  | S fuel =>
      if s =? 0 then a
      else constexpr_find_first_set_ fuel (s / 2) (a + s * Z.b2z ((u .>> a) mod (1 .<< s) =? 0)) u
  end.

Definition constexpr_find_first_set (t : Z) : Z :=
  if t =? 0 then 0 else 1 + constexpr_find_first_set_ 7 32 0 t.

Fixpoint powerMod (x : Z) (y : nat) (m : Z) : Z :=
  match y with O => 1 | S y => u64 (x * powerMod x y m) mod m end.

Definition kIndexBits : Z := 4.
Definition kIndexMask : Z := (1 .<< kIndexBits) - 1.
Definition kAlignBits : Z := Z.min 4 (constexpr_find_first_set sizeof - 1).
Definition kAlignMask : Z := (1 .<< kAlignBits) - 1.
Definition kModulus : Z := 1 .<< (kIndexBits - kAlignBits).
Definition kSizeInverse : Z := powerMod (sizeof .>> kAlignBits) (Z.to_nat (kModulus - 1)) kModulus.

(** The constructor, with the bits that it assumes to be zero. *)
Definition pack (p i : Z) : option Z :=
  let encoded := i .>> (kIndexBits - kAlignBits) in
  if encoded .& u64 (Z.lnot kAlignMask) =? 0 then Some (p .| encoded) else None.

Definition packed_ptr (raw : Z) : Z := raw .& u64 (Z.lnot kAlignMask).

Definition packed_index (raw : Z) : Z :=
  let encoded := u64 ((raw .& kAlignMask) .<< (kIndexBits - kAlignBits)) in
  let deduced := u64 ((raw .>> kAlignBits) * kSizeInverse) .& (kIndexMask .>> kAlignBits) in
  encoded .| deduced.

(** ** The inverse of the size *)

Lemma low_bits_zero q j s : 0 <= j -> 0 <= s -> ((2 * q + 1) * 2 ^ j mod 2 ^ s =? 0) = (s <=? j).
Proof.
  intros Hj Hs. destruct (Z.leb_spec s j) as [Hle|Hlt]; [apply Z.eqb_eq|apply Z.eqb_neq].
  - replace j with ((j - s) + s) by lia. rewrite Z.pow_add_r, Z.mul_assoc by lia. apply Z.mod_mul. apply Z.pow_nonzero; lia.
  - assert (0 < 2 ^ s) by (apply Z.pow_pos_nonneg; lia). assert (0 < 2 ^ j) by (apply Z.pow_pos_nonneg; lia).
    intros [z Hz]%Z.mod_divide; [|lia]. replace s with ((s - j - 1) + 1 + j) in Hz by lia.
    rewrite !Z.pow_add_r, !Z.mul_assoc in Hz by lia. apply Z.mul_reg_r in Hz; lia.
Qed.

Lemma find_first_set_spec n fuel s a u q k :
  (n + 1 < fuel)%nat -> s = 2 ^ Z.of_nat n -> 0 <= a <= k -> k < a + 2 * s -> u = (2 * q + 1) * 2 ^ k ->
  constexpr_find_first_set_ fuel s a u = k.
Proof.
  intros Hf Es Ha Hk ->. revert fuel s a Hf Es Ha Hk.
  induction n as [|n IH]; intros [|fuel] s a Hf Es Ha Hk; try lia; cbn [constexpr_find_first_set_].
  all: assert (0 < s) as Hs by (subst s; apply Z.pow_pos_nonneg; lia).
  all: rewrite (proj2 (Z.eqb_neq s 0)), shiftl_mul, Z.mul_1_l, shiftr_div by lia.
  all: assert ((2 * q + 1) * 2 ^ k / 2 ^ a = (2 * q + 1) * 2 ^ (k - a)) as -> by
    (replace k with ((k - a) + a) at 1 by lia; rewrite Z.pow_add_r, Z.mul_assoc, Z.div_mul by lia; done).
  all: rewrite low_bits_zero by lia.
  - change (2 ^ Z.of_nat 0) with 1 in Es. subst s. change (1 / 2) with 0. destruct fuel as [|fuel]; [lia|]. cbn [constexpr_find_first_set_ Z.eqb].
    destruct (Z.leb_spec 1 (k - a)); cbn [Z.b2z]; lia.
  - rewrite Nat2Z.inj_succ, Z.pow_succ_r in Es by lia. assert (s / 2 = 2 ^ Z.of_nat n) as -> by (rewrite Es, Z.mul_comm; apply Z.div_mul; lia).
    apply IH; [lia|done| |]; destruct (Z.leb_spec s (k - a)); cbn [Z.b2z]; lia.
Qed.

Lemma find_first_set_low t q k : 0 <= k < 64 -> t <> 0 -> t = (2 * q + 1) * 2 ^ k -> constexpr_find_first_set t = k + 1.
Proof.
  intros Hk Ht E. unfold constexpr_find_first_set. rewrite (proj2 (Z.eqb_neq t 0)) by done.
  rewrite (find_first_set_spec 5 7 32 0 t q k); [lia|lia|done|lia|lia|done].
Qed.

Lemma powerMod_spec x y m k : 0 < k <= 64 -> m = 2 ^ k -> powerMod x y m = x ^ Z.of_nat y mod m.
Proof.
  intros Hk ->. assert (1 < 2 ^ k) as Hm by (apply Z.pow_gt_1; lia). induction y as [|y IH]; cbn [powerMod].
  - symmetry. apply Z.mod_small. cbn. lia.
  - rewrite IH, Nat2Z.inj_succ, Z.pow_succ_r by lia. rewrite <- Z.mul_mod_idemp_r by lia. unfold wrap.
    symmetry. apply Znumtheory.Zmod_div_mod; [lia|lia|]. exists (2 ^ (64 - k)). rewrite <- Z.pow_add_r by lia. f_equal. lia.
Qed.

(** [S] is the odd part of the size and [M] the modulus; every odd number to the [M] is one. *)
Lemma odd_power S A : 0 <= A <= 3 -> S mod 2 = 1 -> S ^ (2 ^ (4 - A)) mod 2 ^ (4 - A) = 1.
Proof.
  intros HA Hodd. set (M := 2 ^ (4 - A)). assert (M = 16 \/ M = 8 \/ M = 4 \/ M = 2) as HM.
  { assert (A = 0 \/ A = 1 \/ A = 2 \/ A = 3) as [->|[->|[->| ->]]] by lia; vm_compute; auto. }
  rewrite Zpower_mod by (destruct HM as [->|[->|[->| ->]]]; lia). assert (S mod M mod 2 = 1) as Hr.
  { rewrite <- Znumtheory.Zmod_div_mod; [done|lia|destruct HM as [->|[->|[->| ->]]]; lia|].
    destruct HM as [->|[->|[->| ->]]]; [exists 8|exists 4|exists 2|exists 1]; done. }
  pose proof (Z.mod_pos_bound S M) as Hb. set (r := S mod M) in *. clearbody r.
  destruct HM as [E|[E|[E|E]]]; rewrite E in *; clear E M HA Hodd S A.
  all: assert (forallb (fun r => negb (r mod 2 =? 1) || (r ^ 16 mod 16 =? 1) && (r ^ 8 mod 8 =? 1) && (r ^ 4 mod 4 =? 1) && (r ^ 2 mod 2 =? 1))
    [0;1;2;3;4;5;6;7;8;9;10;11;12;13;14;15] = true) as Hall by (vm_compute; reflexivity).
  all: rewrite forallb_forall in Hall; pose proof (Hall r ltac:(cbn [In]; lia)) as H; rewrite Hr in H.
  all: cbn [Z.eqb Pos.eqb negb orb] in H; rewrite !andb_true_iff, !Z.eqb_eq in H; tauto.
Qed.

(** ** Round trip *)

Hypothesis Hsize : 0 < sizeof < 2 ^ 48.

Lemma kAlignBits_spec :
  0 <= kAlignBits <= 4 /\ exists S, sizeof = S * 2 ^ kAlignBits /\ (kAlignBits < 4 -> S mod 2 = 1).
Proof using Hsize.
  destruct (findFirstSet_odd sizeof) as (q & Hq & E); [lia|]. set (k := Z.of_nat (findFirstSetNonZero sizeof)) in *.
  assert (0 <= k) by (unfold k; lia).
  assert (k < 64) as Hk.
  { destruct (Z.lt_ge_cases k 64) as [|Hge]; [done|]. assert (2 ^ 64 <= 2 ^ k) by (apply Z.pow_le_mono_r; lia). nia. }
  unfold kAlignBits. rewrite (find_first_set_low sizeof q k) by (done || lia). split; [lia|].
  destruct (Z.le_gt_cases k 4) as [Hle|Hgt].
  - exists (2 * q + 1). replace (Z.min 4 (k + 1 - 1)) with k by lia. split; [done|]. intros _.
    rewrite Z.add_comm, Z.mul_comm, Z.mod_add by lia. done.
  - exists ((2 * q + 1) * 2 ^ (k - 4)). replace (Z.min 4 (k + 1 - 1)) with 4 by lia. split; [|lia].
    rewrite <- Z.mul_assoc, <- Z.pow_add_r by lia. rewrite E at 1. do 2 f_equal. lia.
Qed.

(** The inverse undoes the multiplication by the odd part. *)
Lemma kSizeInverse_spec i : (i * (sizeof .>> kAlignBits) * kSizeInverse) mod kModulus = i mod kModulus.
Proof using Hsize.
  destruct kAlignBits_spec as (HA & S & E & Hodd). unfold kSizeInverse, kModulus, kIndexBits.
  rewrite shiftr_div, shiftl_mul, Z.mul_1_l by lia. set (A := kAlignBits) in *.
  assert (sizeof / 2 ^ A = S) as -> by (rewrite E at 1; apply Z.div_mul; apply Z.pow_nonzero; lia).
  destruct (Z.eq_dec A 4) as [E4|N4]; [rewrite E4; change (2 ^ (4 - 4)) with 1; by rewrite !Z.mod_1_r|].
  set (M := 2 ^ (4 - A)). assert (1 < M) as HM by (apply Z.pow_gt_1; lia).
  rewrite (powerMod_spec S _ M (4 - A)) by (done || lia). rewrite Z.mul_mod_idemp_r by lia.
  rewrite <- Z.mul_assoc, <- Z.pow_succ_r by lia. replace (Z.succ (Z.of_nat (Z.to_nat (M - 1)))) with M by lia.
  rewrite <- Z.mul_mod_idemp_r by lia. unfold M at 1 2. rewrite odd_power by (lia || (apply Hodd; lia)). by rewrite Z.mul_1_r.
Qed.

Lemma clear_low_bits A z : 0 <= A -> is_u64 z -> z .& u64 (Z.lnot (2 ^ A - 1)) = z / 2 ^ A * 2 ^ A.
Proof.
  intros HA Hz. unfold wrap. rewrite <- Z.land_ones, (Z.land_comm _ (Z.ones 64)), Z.land_assoc by lia.
  rewrite Z.land_ones, Z.mod_small by (unfold is_uint in Hz; lia).
  replace (2 ^ A - 1) with (Z.ones A) by (rewrite Z.ones_equiv; lia).
  by rewrite <- Z.ldiff_land, Z.ldiff_ones_r, Z.shiftl_mul_pow2, Z.shiftr_div_pow2 by lia.
Qed.

Lemma pack_spec p i :
  0 <= i < 16 -> is_u64 p -> p mod 16 = (i * sizeof) mod 16 ->
  exists raw, pack p i = Some raw /\ raw = p + i / 2 ^ (4 - kAlignBits) /\ raw / 2 ^ kAlignBits * 2 ^ kAlignBits = p /\
    packed_ptr raw = p /\ packed_index raw = i.
Proof using Hsize.
  intros Hi Hp Hmod. destruct kAlignBits_spec as (HA & S & E & _). pose proof (kSizeInverse_spec i) as Hinv.
  unfold pack, packed_ptr, packed_index, kAlignMask, kModulus, kIndexBits, kIndexMask in *.
  set (inv := kSizeInverse) in *. clearbody inv. set (A := kAlignBits) in *. clearbody A.
  rewrite !shiftl_mul, !shiftr_div, !Z.mul_1_l in * by lia. set (D := 2 ^ A) in *. set (M := 2 ^ (4 - A)) in *.
  assert (16 = M * D) as E16 by (subst M D; rewrite <- Z.pow_add_r by lia; by replace (4 - A + A) with 4 by lia).
  assert (0 < D) by (apply Z.pow_pos_nonneg; lia). assert (0 < M) by (apply Z.pow_pos_nonneg; lia).
  assert (D <= 16) by nia. assert (sizeof / D = S) as ES by (rewrite E; apply Z.div_mul; lia). rewrite ES in Hinv.
  assert (exists z, p = (M * z + i * S) * D) as (z & Hz).
  { set (z := p / 16 - (i * sizeof) / 16). exists z. replace ((M * z + i * S) * D) with (M * D * z + i * (S * D)) by ring.
    rewrite <- E16, <- E. pose proof (Z.div_mod p 16). pose proof (Z.div_mod (i * sizeof) 16). lia. }
  set (P := M * z + i * S) in *. assert (0 <= i / M < D) as Henc by (split; [apply Z.div_pos; lia|apply Z.div_lt_upper_bound; rewrite <- ?E16; lia]).
  set (enc := i / M) in *.
  assert (p .| enc = p + enc) as Eraw by (rewrite Hz; apply lor_disjoint_r; [lia|unfold is_uint; lia]).
  assert (is_u64 (p + enc)) as Hraw.
  { unfold is_uint in *. assert (p + D <= 2 ^ 64); [|lia]. assert (2 ^ 64 = 2 ^ (64 - A) * D) as E64 by (subst D; rewrite <- Z.pow_add_r by lia; f_equal; lia).
    rewrite E64 in *. assert (P < 2 ^ (64 - A)) as HP by (apply (Z.mul_lt_mono_pos_r D); lia).
    assert ((P + 1) * D <= 2 ^ (64 - A) * D) by (apply Z.mul_le_mono_nonneg_r; lia). lia. }
  unfold D at 1. rewrite land_lnot_ones by (lia || (unfold is_uint; lia)). fold D. rewrite (proj2 (Z.ltb_lt _ _)) by lia. exists (p + enc). rewrite Eraw.
  assert ((p + enc) / D = P) as Ediv by (rewrite Hz, Z.add_comm, Z.div_add, Z.div_small by lia; lia).
  split; [done|]. split; [done|]. split; [by rewrite Ediv, Hz|]. split.
  - unfold D at 1. rewrite clear_low_bits by (done || lia). fold D. by rewrite Ediv, Hz.
  - change ((1 .<< kIndexBits) - 1) with 15. rewrite shiftl_mul, shiftr_div by lia. fold D M.
    rewrite (land_ones_mod _ A) by (done || lia). fold D. rewrite Ediv.
    assert ((p + enc) mod D = enc) as -> by (rewrite Hz, Z.add_comm, Z.mod_add by lia; by apply Z.mod_small).
    assert (15 / D = M - 1) as -> by (symmetry; apply (Z.div_unique_pos _ _ _ (D - 1)); lia).
    rewrite (land_ones_mod _ (4 - A)) by (done || lia). fold M.
    assert (u64 (P * inv) mod M = i mod M) as ->.
    { unfold wrap. rewrite <- Znumtheory.Zmod_div_mod; [|lia|lia|exists (2 ^ (60 + A)); subst M; rewrite <- Z.pow_add_r by lia; f_equal; lia].
      rewrite <- Hinv. unfold P. replace ((M * z + i * S) * inv) with (i * S * inv + z * inv * M) by ring. by rewrite Z.mod_add by lia. }
    pose proof (Z.mod_pos_bound i M). pose proof (Z.div_mod i M). rewrite wrap_small by (unfold is_uint; nia).
    unfold M at 1. rewrite lor_disjoint_r by (lia || (unfold is_uint; fold M; lia)). fold M. unfold enc. lia.
Qed.
End Pack.

(** ** Iterators *)

Section Iter.
Context {Item : Type} `{!SizeofItem Item}.

(** [itemAddr] of a slot of a chunk in the array at [base], and [owner]. *)
Definition itemAddr (base : Z) (pos : nat * nat) : Z :=
  base + Z.of_nat pos.1 * sizeof_Chunk + 16 + Z.of_nat pos.2 * sizeof_Item.

Definition owner (addr : Z) (index : Z) : Z := addr - 16 - index * sizeof_Item.

(** [F14ItemIter::pack]; the iterator at the end has the null pointer. *)
Definition iter_pack (base : Z) (iter : option (nat * nat)) : option Z :=
  match iter with
  | None => pack sizeof_Item 0 0
  | Some pos => pack sizeof_Item (itemAddr base pos) (Z.of_nat pos.2)
  end.

(** An aligned array of [n] chunks. *)
Record array_at (base : Z) (n : nat) : Prop := {
  array_aligned : base mod 16 = 0;
  array_pos : 0 < base;
  array_end : base + Z.of_nat n * sizeof_Chunk <= 2 ^ 64;
}.

Hypothesis Hsize : 0 < sizeof_Item < 2 ^ 48.

Lemma sizeof_Chunk_facts :
  sizeof_Chunk mod 16 = 0 /\ 16 + sizeof_Item * Z.of_nat kCapacity <= sizeof_Chunk /\ (kCapacity <= 14)%nat.
Proof using Hsize.
  unfold sizeof_Chunk. split; [apply Z.mod_mul; lia|]. assert (kCapacity <= kAllocatedCapacity)%nat by (unfold kAllocatedCapacity; lia).
  split; [|unfold kCapacity; destruct (_ =? _); lia].
  assert (sizeof_Item * Z.of_nat kCapacity <= sizeof_Item * Z.of_nat kAllocatedCapacity) by (apply Z.mul_le_mono_nonneg_l; lia).
  Z.to_euclidean_division_equations. lia.
Qed.

Lemma slot_bounds base n ci i :
  array_at base n -> (ci < n)%nat -> (i < kCapacity)%nat ->
  0 < base + Z.of_nat ci * sizeof_Chunk + 16 <= itemAddr base (ci, i) /\
  itemAddr base (ci, i) + sizeof_Item <= base + Z.of_nat (S ci) * sizeof_Chunk <= 2 ^ 64.
Proof using Hsize.
  intros [_ Hp He] Hc Hi. destruct sizeof_Chunk_facts as (_ & Hsc & _). unfold itemAddr. cbn [fst snd].
  assert (0 <= Z.of_nat ci * sizeof_Chunk) by (apply Z.mul_nonneg_nonneg; lia).
  assert (Z.of_nat (S i) * sizeof_Item <= Z.of_nat kCapacity * sizeof_Item) by (apply Z.mul_le_mono_nonneg_r; lia).
  assert (Z.of_nat (S ci) * sizeof_Chunk <= Z.of_nat n * sizeof_Chunk) by (apply Z.mul_le_mono_nonneg_r; lia).
  rewrite !Nat2Z.inj_succ in *. lia.
Qed.

Lemma iter_pack_spec base n ci i :
  array_at base n -> (ci < n)%nat -> (i < kCapacity)%nat ->
  exists raw, iter_pack base (Some (ci, i)) = Some raw /\ 0 < raw /\
    raw / 2 ^ kAlignBits sizeof_Item * 2 ^ kAlignBits sizeof_Item = itemAddr base (ci, i) /\
    packed_ptr sizeof_Item raw = itemAddr base (ci, i) /\ packed_index sizeof_Item raw = Z.of_nat i.
Proof using Hsize.
  intros HA Hc Hi. destruct sizeof_Chunk_facts as (Hm & Hsc & Hk). pose proof (slot_bounds base n ci i HA Hc Hi) as Hb.
  destruct (pack_spec sizeof_Item Hsize (itemAddr base (ci, i)) (Z.of_nat i)) as (raw & E & Er & Ed & Ep & Ei).
  - lia.
  - unfold is_uint. lia.
  - unfold itemAddr. cbn [fst snd]. pose proof (array_aligned _ _ HA) as Hal.
    replace (base + Z.of_nat ci * sizeof_Chunk + 16 + Z.of_nat i * sizeof_Item)
      with (Z.of_nat i * sizeof_Item + (base / 16 + Z.of_nat ci * (sizeof_Chunk / 16) + 1) * 16).
    { by rewrite Z.mod_add by lia. }
    rewrite (Z.div_mod base 16) at 2 by lia. rewrite (Z.div_mod sizeof_Chunk 16) at 2 by lia. rewrite Hal, Hm. ring.
  - exists raw. split; [done|]. split; [|done]. rewrite Er. assert (0 <= Z.of_nat i / 2 ^ (4 - kAlignBits sizeof_Item)); [|lia].
    apply Z.div_pos; [lia|]. apply Z.pow_pos_nonneg; [lia|]. destruct (kAlignBits_spec sizeof_Item Hsize). lia.
Qed.

Lemma itemAddr_order base n ci i cj j :
  array_at base n -> (ci < n)%nat -> (cj < n)%nat -> (i < kCapacity)%nat -> (j < kCapacity)%nat ->
  packed_lt (Some (ci, i)) (Some (cj, j)) = (itemAddr base (ci, i) <? itemAddr base (cj, j)).
Proof using Hsize.
  intros HA Hc Hd Hi Hj. pose proof (slot_bounds base n ci i HA Hc Hi) as B1. pose proof (slot_bounds base n cj j HA Hd Hj) as B2.
  destruct sizeof_Chunk_facts as (_ & Hsc & _).
  assert (0 < sizeof_Chunk) as Hpos by lia. cbn [packed_lt]. symmetry. destruct (lt_eq_lt_dec ci cj) as [[Hlt| ->]|Hgt].
  - rewrite (proj2 (Nat.ltb_lt ci cj)) by done. apply Z.ltb_lt.
    assert (Z.of_nat (S ci) * sizeof_Chunk <= Z.of_nat cj * sizeof_Chunk) by (apply Z.mul_le_mono_nonneg_r; lia). lia.
  - rewrite Nat.ltb_irrefl, Nat.eqb_refl. cbn [orb andb]. unfold itemAddr. cbn [fst snd]. destruct (Nat.ltb_spec i j) as [Hlt|Hge].
    + apply Z.ltb_lt. assert (Z.of_nat i * sizeof_Item < Z.of_nat j * sizeof_Item) by (apply Z.mul_lt_mono_pos_r; lia). lia.
    + apply Z.ltb_ge. assert (Z.of_nat j * sizeof_Item <= Z.of_nat i * sizeof_Item) by (apply Z.mul_le_mono_nonneg_r; lia). lia.
  - rewrite (proj2 (Nat.ltb_ge ci cj)), (proj2 (Nat.eqb_neq ci cj)) by lia. cbn [orb andb]. apply Z.ltb_ge.
    assert (Z.of_nat (S cj) * sizeof_Chunk <= Z.of_nat ci * sizeof_Chunk) by (apply Z.mul_le_mono_nonneg_r; lia). lia.
Qed.

Definition iter_in (n : nat) (iter : option (nat * nat)) : Prop :=
  match iter with Some (ci, i) => (ci < n)%nat /\ (i < kCapacity)%nat | None => True end.

(** What a packed word stands for. *)
Definition unpacks (base raw : Z) (iter : option (nat * nat)) : Prop :=
  match iter with
  | None => raw = 0 /\ packed_ptr sizeof_Item raw = 0
  | Some (ci, i) => 0 < raw /\ packed_ptr sizeof_Item raw = itemAddr base (ci, i) /\ packed_index sizeof_Item raw = Z.of_nat i /\
      owner (packed_ptr sizeof_Item raw) (packed_index sizeof_Item raw) = base + Z.of_nat ci * sizeof_Chunk
  end.

Lemma iter_pack_unpacks base n iter :
  array_at base n -> iter_in n iter -> exists raw, iter_pack base iter = Some raw /\ unpacks base raw iter.
Proof using Hsize.
  intros HA Hin. destruct iter as [[ci i]|].
  - destruct Hin as [Hc Hi]. destruct (iter_pack_spec base n ci i HA Hc Hi) as (raw & E & Hp & _ & E1 & E2). exists raw. split; [done|].
    split; [done|]. split; [done|]. split; [done|]. rewrite E1, E2. unfold owner, itemAddr. cbn [fst snd]. lia.
  - destruct (kAlignBits_spec sizeof_Item Hsize) as [HA' _]. exists 0. unfold iter_pack, pack, kIndexBits. rewrite Z.shiftr_0_l. done.
Qed.

Lemma raw_order base n p q rp rq :
  array_at base n -> iter_in n (Some p) -> iter_in n (Some q) ->
  iter_pack base (Some p) = Some rp -> iter_pack base (Some q) = Some rq ->
  itemAddr base p < itemAddr base q -> rp < rq.
Proof using Hsize.
  intros HA Hp Hq Ep Eq Hlt. destruct p as [ci i], q as [cj j], Hp as [Hc Hi], Hq as [Hd Hj].
  destruct (iter_pack_spec base n ci i HA Hc Hi) as (r & E1 & _ & D1 & _). destruct (iter_pack_spec base n cj j HA Hd Hj) as (r' & E2 & _ & D2 & _).
  assert (r = rp) as -> by congruence. assert (r' = rq) as -> by congruence.
  destruct (Z.lt_ge_cases rp rq) as [|Hge]; [done|]. exfalso. set (D := 2 ^ kAlignBits sizeof_Item) in *.
  assert (0 < D) by (destruct (kAlignBits_spec sizeof_Item Hsize); apply Z.pow_pos_nonneg; lia).
  assert (rq / D <= rp / D) by (apply Z.div_le_mono; lia). assert (rq / D * D <= rp / D * D) by (apply Z.mul_le_mono_nonneg_r; lia). lia.
Qed.

(** (C33) The word in which a table keeps its first iterator determines the item, its slot and its
    chunk, although only some bits of the slot are stored and the others follow from the address;
    and words are ordered as the positions of the items, with the end first, whatever the size of
    an item and wherever the chunks are. *)
Theorem packed_iterators base n a b :
  array_at base n -> iter_in n a -> iter_in n b ->
  exists ra rb, iter_pack base a = Some ra /\ iter_pack base b = Some rb /\
    unpacks base ra a /\ unpacks base rb b /\
    (ra <? rb) = packed_lt a b /\ (ra =? rb) = bool_decide (a = b).
Proof using Hsize.
  intros HA Ha Hb. destruct (iter_pack_unpacks base n a HA Ha) as (ra & Ea & Ua). destruct (iter_pack_unpacks base n b HA Hb) as (rb & Eb & Ub).
  exists ra, rb. split; [done|]. split; [done|]. split; [done|]. split; [done|].
  destruct a as [[ci i]|], b as [[cj j]|].
  - rewrite (itemAddr_order base n) by (apply Ha || apply Hb || done). destruct (decide ((ci, i) = (cj, j))) as [E|Hne].
    + injection E as -> ->. assert (rb = ra) as -> by congruence. rewrite Z.eqb_refl, !Z.ltb_irrefl. split; [done|]. by rewrite bool_decide_true.
    + rewrite (bool_decide_false (Some _ = _)) by congruence. destruct (Z.lt_trichotomy (itemAddr base (ci, i)) (itemAddr base (cj, j))) as [Hlt|[E|Hgt]].
      * pose proof (raw_order base n _ _ ra rb HA Ha Hb Ea Eb Hlt). rewrite !(proj2 (Z.ltb_lt _ _)) by done. split; [done|]. apply Z.eqb_neq. lia.
      * exfalso. apply Hne. pose proof (itemAddr_order base n ci i cj j HA (proj1 Ha) (proj1 Hb) (proj2 Ha) (proj2 Hb)) as H1.
        pose proof (itemAddr_order base n cj j ci i HA (proj1 Hb) (proj1 Ha) (proj2 Hb) (proj2 Ha)) as H2. rewrite E, Z.ltb_irrefl in H1, H2.
        cbn in H1, H2. apply orb_false_iff in H1 as [H1 H1'], H2 as [H2 H2']. apply Nat.ltb_ge in H1, H2. assert (ci = cj) as -> by lia.
        rewrite Nat.eqb_refl in H1', H2'. cbn in H1', H2'. apply Nat.ltb_ge in H1', H2'. f_equal. lia.
      * pose proof (raw_order base n _ _ rb ra HA Hb Ha Eb Ea Hgt). rewrite !(proj2 (Z.ltb_ge _ _)) by lia. split; [done|]. apply Z.eqb_neq. lia.
  - destruct Ua as [Hpa _], Ub as [-> _]. split; [apply Z.ltb_ge; lia|]. rewrite bool_decide_false by done. apply Z.eqb_neq. lia.
  - destruct Ua as [-> _], Ub as [Hpb _]. split; [apply Z.ltb_lt; lia|]. rewrite bool_decide_false by done. apply Z.eqb_neq. lia.
  - destruct Ua as [-> _], Ub as [-> _]. split; [done|]. by rewrite bool_decide_true.
Qed.
End Iter.

(** Items of twelve bytes: two bits of the slot are stored and two deduced. *)
Section Witness.
#[local] Instance sizeof_twelve : SizeofItem unit := 12.

Lemma packed_iterators_witness :
  exists ra rb, iter_pack (Item := unit) 0x1000 (Some (3%nat, 5%nat)) = Some ra /\ iter_pack (Item := unit) 0x1000 (Some (3%nat, 13%nat)) = Some rb /\
    unpacks (Item := unit) 0x1000 ra (Some (3%nat, 5%nat)) /\ unpacks (Item := unit) 0x1000 rb (Some (3%nat, 13%nat)) /\
    (ra <? rb) = packed_lt (Some (3%nat, 5%nat)) (Some (3%nat, 13%nat)) /\ (ra =? rb) = bool_decide (Some (3%nat, 5%nat) = Some (3%nat, 13%nat)).
Proof.
  refine (packed_iterators (Item := unit) _ 0x1000 4 _ _ _ _ _).
  - unfold sizeof_Item, sizeof_twelve. lia.
  - constructor; [done|done|]. vm_compute. discriminate.
  - cbn. split; [lia|]. unfold kCapacity. cbn. lia.
  - cbn. split; [lia|]. unfold kCapacity. cbn. lia.
Defined.
End Witness.
