(* ===== verification/F14Probe.v ===== *)
(** The probe sequences of F14 tables and the overflow counts they maintain.

    The loops of [F14Table] that follow a probe sequence (insertion, rehashing, erasing, searching)
    walk along [tour], which visits every chunk once.  An entry is a chunk and the hash pair of an
    item in it; [header_inv] says that the overflow counts of the chunks are those of a list of
    entries, and the loops add and remove an entry. *)
From Stdlib Require Import Znumtheory Zpow_facts.
From S2P Require Import Prelude Sse F14Mask F14Chunk F14Table.

(** ** Probe sequences *)

Section Probe.
Variable s : Z.
Hypothesis Hs : 0 <= s < 64.

Definition nchunks : nat := Z.to_nat (2 ^ s).

Definition probe (hp : HashPair) (j : nat) : nat :=
  Z.to_nat ((hp.1 + Z.of_nat j * (2 * hp.2 + 1)) mod 2 ^ s).

Definition tour (hp : HashPair) : list nat := probe hp <$> seq 0 nchunks.

Lemma pow_s_pos : 0 < 2 ^ s.
Proof using Hs. apply Z.pow_pos_nonneg; lia. Qed.

Lemma nchunks_Z : Z.of_nat nchunks = 2 ^ s.
Proof using Hs. pose proof pow_s_pos. unfold nchunks. lia. Qed.

Lemma probe_lt hp j : (probe hp j < nchunks)%nat.
Proof using Hs.
  pose proof pow_s_pos. unfold probe, nchunks.
  pose proof (Z.mod_pos_bound (hp.1 + Z.of_nat j * (2 * hp.2 + 1)) (2 ^ s)). lia.
Qed.

Lemma odd_coprime d : Z.gcd (2 ^ s) (2 * d + 1) = 1.
Proof using Hs.
  apply Zgcd_1_rel_prime, rel_prime_sym, rel_prime_Zpower_r; [lia|].
  apply Zgcd_1_rel_prime. rewrite Z.gcd_comm, Z.add_comm, Z.mul_comm, Z.gcd_add_mult_diag_r. done.
Qed.

(** An odd stride does not come back before it has seen every chunk. *)
Lemma probe_inj hp i j : (i < nchunks)%nat -> (j < nchunks)%nat -> probe hp i = probe hp j -> i = j.
Proof using Hs.
  pose proof pow_s_pos as Hpos. pose proof nchunks_Z as Hn. unfold probe. intros Hi Hj E.
  set (a := hp.1) in *. set (d := 2 * hp.2 + 1) in *.
  pose proof (Z.mod_pos_bound (a + Z.of_nat i * d) (2 ^ s)).
  pose proof (Z.mod_pos_bound (a + Z.of_nat j * d) (2 ^ s)).
  assert ((a + Z.of_nat i * d) mod 2 ^ s = (a + Z.of_nat j * d) mod 2 ^ s) as Em by lia.
  assert ((2 ^ s | d * (Z.of_nat i - Z.of_nat j))) as Hdiv.
  { apply Z.mod_divide; [lia|].
    replace (d * (Z.of_nat i - Z.of_nat j)) with ((a + Z.of_nat i * d) - (a + Z.of_nat j * d)) by ring.
    rewrite Zminus_mod, Em, Z.sub_diag. by apply Z.mod_0_l; lia. }
  apply Z.gauss in Hdiv; [|apply odd_coprime]. destruct Hdiv as [q Hq].
  assert (q = 0) as -> by nia. lia.
Qed.

Lemma length_tour hp : length (tour hp) = nchunks.
Proof using. unfold tour. by rewrite length_fmap, length_seq. Qed.

Lemma tour_lookup hp j : (j < nchunks)%nat -> tour hp !! j = Some (probe hp j).
Proof using. intros Hj. unfold tour. by rewrite list_lookup_fmap, lookup_seq_lt by lia. Qed.

Lemma tour_NoDup hp : NoDup (tour hp).
Proof using Hs.
  apply NoDup_alt. intros i j x Hi Hj.
  pose proof (lookup_lt_Some _ _ _ Hi) as Hli. pose proof (lookup_lt_Some _ _ _ Hj) as Hlj.
  rewrite length_tour in *. rewrite tour_lookup in * by done.
  apply (probe_inj hp); congruence.
Qed.

Lemma tour_perm hp : tour hp ≡ₚ seq 0 nchunks.
Proof using Hs.
  apply submseteq_length_Permutation.
  - apply NoDup_submseteq; [apply tour_NoDup|]. intros x Hx.
    apply list_elem_of_fmap in Hx as (j & -> & _). apply elem_of_seq. pose proof (probe_lt hp j). lia.
  - by rewrite length_tour, length_seq.
Qed.

Lemma elem_of_tour hp k : k ∈ tour hp <-> (k < nchunks)%nat.
Proof using Hs. rewrite tour_perm, elem_of_seq. lia. Qed.

(** The chunks that are visited before [cf]. *)
Fixpoint before (cf : nat) (l : list nat) : list nat :=
  match l with
  | [] => []
  | k :: l => if decide (k = cf) then [] else k :: before cf l
  end.

Definition path (hp : HashPair) (cf : nat) : list nat := before cf (tour hp).

Lemma before_app cf pre post : cf ∉ pre -> before cf (pre ++ cf :: post) = pre.
Proof using.
  induction pre as [|k pre IH]; intros Hn; cbn.
  - by rewrite decide_True.
  - apply not_elem_of_cons in Hn as [Hk Hn]. rewrite decide_False by congruence. by rewrite IH.
Qed.

Lemma path_app hp pre cf post : tour hp = pre ++ cf :: post -> path hp cf = pre.
Proof using Hs.
  intros E. unfold path. rewrite E. apply before_app. pose proof (tour_NoDup hp) as Hd. rewrite E in Hd.
  apply NoDup_app in Hd as (_ & Hd & _). intros Hin. apply (Hd _ Hin). left.
Qed.

Lemma path_split hp cf : (cf < nchunks)%nat -> exists post, tour hp = path hp cf ++ cf :: post.
Proof using Hs.
  intros Hcf%(elem_of_tour hp). apply list_elem_of_split in Hcf as (pre & post & E).
  exists post. by rewrite (path_app _ _ _ _ E).
Qed.

Lemma path_NoDup hp cf : (cf < nchunks)%nat -> NoDup (path hp cf).
Proof using Hs.
  intros Hcf. destruct (path_split hp cf Hcf) as [post E]. pose proof (tour_NoDup hp) as Hd.
  rewrite E in Hd. by apply NoDup_app in Hd as (? & _).
Qed.

Lemma path_lt hp cf k : k ∈ path hp cf -> (k < nchunks)%nat.
Proof using Hs.
  intros Hk. apply (elem_of_tour hp). unfold path in Hk.
  induction (tour hp) as [|x l IH]; cbn in Hk; [by apply not_elem_of_nil in Hk|].
  destruct (decide (x = cf)); [by apply not_elem_of_nil in Hk|].
  apply elem_of_cons in Hk as [->|Hk]; [left|right; auto].
Qed.

Lemma path_not_self hp cf : cf ∉ path hp cf.
Proof using.
  unfold path. induction (tour hp) as [|x l IH]; cbn; [by apply not_elem_of_nil|].
  destruct (decide (x = cf)); [by apply not_elem_of_nil|]. apply not_elem_of_cons. auto.
Qed.

Lemma path_nil hp cf : (cf < nchunks)%nat -> path hp cf = [] <-> probe hp 0 = cf.
Proof using Hs.
  intros Hcf. assert (0 < nchunks)%nat as H0 by lia. pose proof (tour_lookup hp 0 H0) as Hl.
  unfold path. destruct (tour hp) as [|x l]; [done|]. cbn in *. injection Hl as ->.
  by destruct (decide _).
Qed.

(** The first chunk on the tour with a property that some chunk has. *)
Lemma tour_first hp (P : nat -> Prop) `{!forall k, Decision (P k)} :
  (exists k, (k < nchunks)%nat /\ P k) ->
  exists pre cf post, tour hp = pre ++ cf :: post /\ P cf /\ Forall (fun k => ~ P k) pre.
Proof using Hs.
  intros (k & Hk & HP). apply (elem_of_tour hp) in Hk. induction (tour hp) as [|x l IH].
  - by apply not_elem_of_nil in Hk.
  - destruct (decide (P x)) as [Hx|Hx]; [by exists [], x, l|].
    apply elem_of_cons in Hk as [->|Hk]; [done|]. destruct (IH Hk) as (pre & cf & post & -> & ? & ?).
    exists (x :: pre), cf, post. split; [done|]. split; [done|]. by constructor.
Qed.

(** An index on the tour at step [j]. *)
Definition on_tour (hp : HashPair) (j : nat) (index : Z) : Prop :=
  index mod 2 ^ s = (hp.1 + Z.of_nat j * (2 * hp.2 + 1)) mod 2 ^ s.

Lemma on_tour_0 hp : on_tour hp 0 hp.1.
Proof using. unfold on_tour. f_equal. lia. Qed.

Lemma mod_u64 z : u64 z mod 2 ^ s = z mod 2 ^ s.
Proof using Hs.
  unfold wrap. pose proof pow_s_pos. symmetry. apply Znumtheory.Zmod_div_mod; try lia.
  exists (2 ^ (64 - s)). rewrite <- Z.pow_add_r by lia. f_equal. lia.
Qed.

Lemma on_tour_next hp j index :
  on_tour hp j index -> on_tour hp (S j) (u64 (index + u64 (2 * hp.2 + 1))).
Proof using Hs.
  unfold on_tour. intros E. rewrite mod_u64, Zplus_mod, mod_u64, E, <- Zplus_mod. f_equal. lia.
Qed.
End Probe.

(** ** Updates along a path *)

Definition along {A} (f : A -> A) (ks : list nat) (cs : list A) : list A :=
  foldl (fun cs k => alter f k cs) cs ks.

Lemma along_cons {A} (f : A -> A) k ks cs : along f (k :: ks) cs = along f ks (alter f k cs).
Proof. done. Qed.

Lemma length_along {A} (f : A -> A) ks cs : length (along f ks cs) = length cs.
Proof.
  revert cs. induction ks as [|k ks IH]; intros cs; [done|].
  rewrite along_cons. by rewrite IH, length_alter.
Qed.

Lemma lookup_along {A} (f : A -> A) ks cs k :
  NoDup ks -> along f ks cs !! k = if decide (k ∈ ks) then f <$> cs !! k else cs !! k.
Proof.
  intros Hd. revert cs. induction Hd as [|x ks Hx Hd IH]; intros cs.
  - by rewrite decide_False by apply not_elem_of_nil.
  - rewrite along_cons, IH. destruct (decide (k = x)) as [->|Hne].
    + rewrite (decide_False (P := x ∈ ks)) by done. rewrite decide_True by left.
      by rewrite list_lookup_alter_eq.
    + rewrite list_lookup_alter_ne by congruence.
      destruct (decide (k ∈ ks)) as [Hin|Hin]; [by rewrite decide_True by (by right)|].
      rewrite decide_False; [done|]. by apply not_elem_of_cons.
Qed.

Section Loops.
Context {Item Key : Type} `{!SizeofItem Item} `{!F14Policy Item Key} `{!EqDecision Key}.
Implicit Types (t : F14Table Item) (c : F14Chunk Item) (cs : list (F14Chunk Item)).

Lemma moduloByChunkCount_spec t index :
  0 <= chunkShift t < 64 -> moduloByChunkCount t index = index mod 2 ^ chunkShift t.
Proof.
  intros Hs. unfold moduloByChunkCount. apply land_ones_mod; [lia|].
  rewrite shiftl_mul by lia. rewrite Z.mul_1_l, wrap_small; [done|].
  split; [apply Z.pow_nonneg; lia|]. apply Z.pow_lt_mono_r; lia.
Qed.

Lemma chunk_at_tour t hp j index :
  0 <= chunkShift t < 64 -> on_tour (chunkShift t) hp j index ->
  chunk_at t index = probe (chunkShift t) hp j.
Proof.
  intros Hs E. unfold chunk_at, probe. rewrite moduloByChunkCount_spec by done. by rewrite E.
Qed.

(** A chunk that may be written. *)
Definition writable cs (k : nat) : Prop := exists c, cs !! k = Some c /\ isEmptyInstance c = false.

Lemma update_chunk_total ci f t :
  writable (chunks_ t) ci ->
  update_chunk ci (total f) t = Some (set_chunks (alter f ci (chunks_ t)) t).
Proof.
  intros (c & Hc & He). unfold update_chunk, load. rewrite Hc. cbn. rewrite He. cbn.
  pose proof (lookup_lt_Some _ _ _ Hc). rewrite store_in_bounds by done. cbn. f_equal. f_equal.
  apply list_eq. intros k. destruct (decide (k = ci)) as [->|Hk].
  - by rewrite list_lookup_insert_eq, list_lookup_alter_eq, Hc by done.
  - by rewrite list_lookup_insert_ne, list_lookup_alter_ne by done.
Qed.

Lemma writable_alter cs f k k' :
  writable cs k' -> (forall c, isEmptyInstance c = false -> cs !! k = Some c -> isEmptyInstance (f c) = false) ->
  writable (alter f k cs) k'.
Proof.
  intros (c & Hc & He) Hf. destruct (decide (k' = k)) as [->|Hne].
  - exists (f c). rewrite list_lookup_alter_eq, Hc. split; [done|auto].
  - exists c. by rewrite list_lookup_alter_ne by congruence.
Qed.

Lemma drop_tour_cons s hp j x l :
  0 <= s < 64 -> drop j (tour s hp) = x :: l -> x = probe s hp j /\ drop (S j) (tour s hp) = l.
Proof.
  intros Hs E. assert (tour s hp !! j = Some x) as Hj.
  { rewrite <- (Nat.add_0_r j), <- lookup_drop, E. done. }
  pose proof (lookup_lt_Some _ _ _ Hj) as Hl. rewrite length_tour in Hl. rewrite tour_lookup in Hj by done.
  split; [congruence|]. rewrite <- Nat.add_1_r, <- drop_drop, E. done.
Qed.

Lemma decr_outbound c :
  1 <= outboundOverflowCount_ c <= 254 ->
  outboundOverflowCount_ (decrOutboundOverflowCount c) =
    (if outboundOverflowCount_ c =? 254 then 254 else outboundOverflowCount_ c - 1).
Proof.
  intros Hb. unfold decrOutboundOverflowCount, kOutboundOverflowMax. cbn.
  destruct (Z.eqb_spec (outboundOverflowCount_ c) 254); cbn; [done|].
  by rewrite wrap_small by (unfold is_uint; lia).
Qed.

Lemma incr_outbound c :
  0 <= outboundOverflowCount_ c <= 254 ->
  outboundOverflowCount_ (incrOutboundOverflowCount c) =
    (if outboundOverflowCount_ c =? 254 then 254 else outboundOverflowCount_ c + 1).
Proof.
  intros Hb. unfold incrOutboundOverflowCount, kOutboundOverflowMax. cbn.
  destruct (Z.eqb_spec (outboundOverflowCount_ c) 254); cbn; [done|].
  by rewrite wrap_small by (unfold is_uint; lia).
Qed.

Lemma writable_le c : outboundOverflowCount_ c <= 254 -> isEmptyInstance c = false.
Proof. unfold isEmptyInstance, kOutboundOverflowEmpty. lia. Qed.

Lemma decr_writable c :
  1 <= outboundOverflowCount_ c <= 254 -> isEmptyInstance (decrOutboundOverflowCount c) = false.
Proof. intros Hb. apply writable_le. rewrite decr_outbound by done. destruct (_ =? _); lia. Qed.

Lemma incr_writable c :
  0 <= outboundOverflowCount_ c <= 254 -> isEmptyInstance (incrOutboundOverflowCount c) = false.
Proof.
  intros Hb. apply writable_le. rewrite incr_outbound by done.
  destruct (Z.eqb_spec (outboundOverflowCount_ c) 254); lia.
Qed.

Lemma erase_probe_spec fuel ci hp pre post j index op t :
  0 <= chunkShift t < 64 -> on_tour (chunkShift t) hp j index ->
  drop j (tour (chunkShift t) hp) = pre ++ ci :: post -> ci ∉ pre -> NoDup pre ->
  writable (chunks_ t) ci ->
  (forall k, k ∈ pre -> exists c, chunks_ t !! k = Some c /\ 1 <= outboundOverflowCount_ c <= 254) ->
  (length pre < fuel)%nat ->
  erase_probe fuel ci (probeDelta hp) index op t =
    Some (set_chunks (alter (adjustHostedOverflowCount (if decide (pre = []) then op else kDecrHostedOverflowCount)) ci
                        (along decrOutboundOverflowCount pre (chunks_ t))) t).
Proof.
  revert j index op t pre. induction fuel as [|fuel IH]; intros j index op t pre Hs Ht Hd Hni Hnd Hw Hpre Hf; [lia|].
  cbn [erase_probe]. rewrite (chunk_at_tour t hp j index) by done. destruct pre as [|k pre].
  - apply drop_tour_cons in Hd as [-> _]; [|done]. rewrite Nat.eqb_refl.
    by rewrite update_chunk_total.
  - apply drop_tour_cons in Hd as [-> Hd]; [|done]. set (k := probe _ hp j) in *.
    apply not_elem_of_cons in Hni as [Hne Hni]. apply NoDup_cons in Hnd as [Hk Hnd].
    destruct (Hpre k) as (c & Hc & Hb); [left|].
    rewrite (proj2 (Nat.eqb_neq _ _)) by congruence. rewrite update_chunk_total.
    2: { exists c. split; [done|]. apply writable_le. lia. }
    cbn [mbind option_bind]. rewrite (IH (S j) _ _ _ pre); cbn [set_chunks chunks_].
    + rewrite along_cons, (decide_False (P := k :: pre = [])) by done.
      by destruct (decide (pre = [])).
    + done.
    + by apply on_tour_next.
    + done.
    + done.
    + done.
    + apply writable_alter; [done|]. intros c' _ Hc'. rewrite Hc in Hc'. injection Hc' as <-.
      by apply decr_writable.
    + intros k' Hk'. rewrite list_lookup_alter_ne by (intros <-; done). apply Hpre. by right.
    + cbn in Hf. lia.
Qed.
(** The chunks that an insertion passes are full; it stops at the first that is not. *)
Lemma emplace_probe_spec fuel hp pre ci post j index moved i c t :
  0 <= chunkShift t < 64 -> on_tour (chunkShift t) hp j index ->
  drop j (tour (chunkShift t) hp) = pre ++ ci :: post -> ci ∉ pre -> NoDup pre ->
  chunks_ t !! ci = Some c -> isEmptyInstance c = false -> firstEmpty c = Some i ->
  (forall k, k ∈ pre -> exists c, chunks_ t !! k = Some c /\
     0 <= outboundOverflowCount_ c <= 254 /\ firstEmpty c = None) ->
  (length pre < fuel)%nat ->
  emplace_probe fuel hp index moved t =
    Some (ci, i, set_chunks ((if moved || negb (bool_decide (pre = []))
                              then alter (adjustHostedOverflowCount kIncrHostedOverflowCount) ci else id)
                               (along incrOutboundOverflowCount pre (chunks_ t))) t).
Proof.
  revert j index moved t pre.
  induction fuel as [|fuel IH]; intros j index moved t pre Hs Ht Hd Hni Hnd Hci Hw Hfree Hpre Hf; [lia|].
  cbn [emplace_probe]. rewrite (chunk_at_tour t hp j index) by done. destruct pre as [|k pre].
  - apply drop_tour_cons in Hd as [<- _]; [|done]. unfold load. rewrite Hci. cbn [mbind option_bind].
    rewrite Hfree, bool_decide_true, orb_false_r by done. destruct moved; cbn [along foldl].
    + rewrite update_chunk_total by by exists c. done.
    + by destruct t.
  - apply drop_tour_cons in Hd as [-> Hd]; [|done]. set (k := probe _ hp j) in *.
    apply not_elem_of_cons in Hni as [Hne Hni]. apply NoDup_cons in Hnd as [Hk Hnd].
    destruct (Hpre k) as (c' & Hc' & Hb & Hfull); [left|].
    unfold load. rewrite Hc'. cbn [mbind option_bind]. rewrite Hfull, update_chunk_total.
    2: { exists c'. split; [done|]. apply writable_le. lia. }
    cbn [mbind option_bind]. rewrite (IH (S j) _ _ _ pre); cbn [set_chunks chunks_].
    + rewrite along_cons, (bool_decide_false (k :: pre = [])) by done. by rewrite orb_true_r.
    + done.
    + by apply on_tour_next.
    + done.
    + done.
    + done.
    + by rewrite list_lookup_alter_ne by congruence.
    + done.
    + done.
    + intros k' Hk'. rewrite list_lookup_alter_ne by (intros <-; done). apply Hpre. by right.
    + cbn in Hf. lia.
Qed.

(** The same walk when the fullness is counted apart. *)
Lemma allocateTag_loop_spec fuel hp pre ci post j index op fullness f t :
  0 <= chunkShift t < 64 -> on_tour (chunkShift t) hp j index ->
  drop j (tour (chunkShift t) hp) = pre ++ ci :: post -> ci ∉ pre -> NoDup pre ->
  fullness !! ci = Some f -> f < Z.of_nat kCapacity ->
  (forall k, k ∈ pre -> exists c f, chunks_ t !! k = Some c /\
     0 <= outboundOverflowCount_ c <= 254 /\ fullness !! k = Some f /\ Z.of_nat kCapacity <= f) ->
  (length pre < fuel)%nat ->
  allocateTag_loop fuel hp index op fullness t =
    Some (ci, if decide (pre = []) then op else kIncrHostedOverflowCount,
          set_chunks (along incrOutboundOverflowCount pre (chunks_ t)) t).
Proof.
  revert j index op t pre.
  induction fuel as [|fuel IH]; intros j index op t pre Hs Ht Hd Hni Hnd Hci Hfree Hpre Hf; [lia|].
  cbn [allocateTag_loop]. fold (chunk_at t index). rewrite (chunk_at_tour t hp j index) by done.
  destruct pre as [|k pre].
  - apply drop_tour_cons in Hd as [<- _]; [|done]. unfold load. rewrite Hci. cbn [mbind option_bind].
    rewrite (proj2 (Z.ltb_lt _ _)) by done. by destruct t.
  - apply drop_tour_cons in Hd as [-> Hd]; [|done]. set (k := probe _ hp j) in *.
    apply not_elem_of_cons in Hni as [Hne Hni]. apply NoDup_cons in Hnd as [Hk Hnd].
    destruct (Hpre k) as (c' & f' & Hc' & Hb & Hf' & Hfull); [left|].
    unfold load. rewrite Hf'. cbn [mbind option_bind]. rewrite (proj2 (Z.ltb_ge _ _)) by done.
    rewrite update_chunk_total.
    2: { exists c'. split; [done|]. apply writable_le. lia. }
    cbn [mbind option_bind]. rewrite (IH (S j) _ _ _ pre); cbn [set_chunks chunks_].
    + rewrite along_cons, (decide_False (P := k :: pre = [])) by done. by destruct (decide (pre = [])).
    + done.
    + apply on_tour_next; [done|]. unfold on_tour in *.
      change (moduloByChunkCount t index mod 2 ^ chunkShift t =
              (hp.1 + Z.of_nat j * (2 * hp.2 + 1)) mod 2 ^ chunkShift t).
      by rewrite moduloByChunkCount_spec, Z.mod_mod by (done || pose proof (pow_s_pos _ Hs); lia).
    + done.
    + done.
    + done.
    + done.
    + done.
    + intros k' Hk'. rewrite list_lookup_alter_ne by (intros <-; done). apply Hpre. by right.
    + cbn in Hf. lia.
Qed.
End Loops.

(** ** Overflow counts *)

Section Header.
Context {Item : Type} `{!SizeofItem Item}.
Variable s : Z.
Hypothesis Hs : 0 <= s < 64.
Implicit Types (c : F14Chunk Item) (cs : list (F14Chunk Item)) (L : list (nat * HashPair)).

(** Entries that are in [ci] but would rather be elsewhere, and entries that passed [ci]. *)
Definition hosted_count (ci : nat) L : nat :=
  length (filter (fun e => e.1 = ci /\ path s e.2 e.1 <> []) L).
Definition outbound_count (ci : nat) L : nat := length (filter (fun e => ci ∈ path s e.2 e.1) L).

(** The counts of a chunk; the outbound count is sticky at its maximum. *)
Record header_ok (ci : nat) c L : Prop := {
  header_control : is_byte (control_ c);
  header_hosted : hostedOverflowCount c = Z.of_nat (hosted_count ci L);
  header_range : 0 <= outboundOverflowCount_ c <= 254;
  header_outbound :
    outboundOverflowCount_ c = 254 \/ outboundOverflowCount_ c = Z.of_nat (outbound_count ci L);
}.

Definition header_inv cs L : Prop := forall ci c, cs !! ci = Some c -> header_ok ci c L.

(** The counts after an entry is added, and after it is removed. *)
Definition enter (hp : HashPair) (cf : nat) cs : list (F14Chunk Item) :=
  alter (adjustHostedOverflowCount (if decide (path s hp cf = []) then 0 else kIncrHostedOverflowCount)) cf
    (along incrOutboundOverflowCount (path s hp cf) cs).

Definition leave (hp : HashPair) (cf : nat) cs : list (F14Chunk Item) :=
  alter (adjustHostedOverflowCount (if decide (path s hp cf = []) then 0 else kDecrHostedOverflowCount)) cf
    (along decrOutboundOverflowCount (path s hp cf) cs).

Lemma hosted_div c : is_byte (control_ c) -> hostedOverflowCount c = control_ c / 16.
Proof. intros _. unfold hostedOverflowCount. by rewrite shiftr_div. Qed.

Lemma adjust_0 c : is_byte (control_ c) -> adjustHostedOverflowCount 0 c = c.
Proof. intros Hb. destruct c; cbn in *. unfold adjustHostedOverflowCount. cbn. by rewrite Z.add_0_r, wrap_small. Qed.

Lemma adjust_incr c :
  is_byte (control_ c) -> hostedOverflowCount c < 15 ->
  control_ (adjustHostedOverflowCount kIncrHostedOverflowCount c) = control_ c + 16.
Proof.
  intros Hb Hh. rewrite hosted_div in Hh by done. unfold is_uint in Hb. cbn. unfold kIncrHostedOverflowCount.
  apply wrap_small. unfold is_uint. pose proof (Z.div_mod (control_ c) 16).
  pose proof (Z.mod_pos_bound (control_ c) 16). lia.
Qed.

Lemma adjust_decr c :
  is_byte (control_ c) -> 1 <= hostedOverflowCount c ->
  control_ (adjustHostedOverflowCount kDecrHostedOverflowCount c) = control_ c - 16.
Proof.
  intros Hb Hh. rewrite hosted_div in Hh by done. unfold is_uint in Hb. cbn.
  change kDecrHostedOverflowCount with 240. unfold wrap.
  pose proof (Z.div_mod (control_ c) 16). pose proof (Z.mod_pos_bound (control_ c) 16).
  symmetry. apply Z.mod_unique_pos with 1; lia.
Qed.

Lemma hosted_count_cons ci cf hp L :
  hosted_count ci ((cf, hp) :: L) =
    ((if decide (cf = ci /\ path s hp cf <> []) then 1 else 0) + hosted_count ci L)%nat.
Proof. unfold hosted_count. rewrite filter_cons. cbn. by destruct (decide _). Qed.

Lemma outbound_count_cons ci cf hp L :
  outbound_count ci ((cf, hp) :: L) =
    ((if decide (ci ∈ path s hp cf) then 1 else 0) + outbound_count ci L)%nat.
Proof. unfold outbound_count. rewrite filter_cons. cbn. by destruct (decide _). Qed.

Lemma header_ok_perm ci c L L' : L ≡ₚ L' -> header_ok ci c L -> header_ok ci c L'.
Proof.
  intros E [Hc Hh Hr Ho]. unfold hosted_count, outbound_count in *.
  constructor; unfold hosted_count, outbound_count; [done|by rewrite <- E|done|by rewrite <- E].
Qed.

Lemma header_inv_perm cs L L' : L ≡ₚ L' -> header_inv cs L -> header_inv cs L'.
Proof. intros E H ci c Hc. by eapply header_ok_perm; [|apply H]. Qed.

Lemma lookup_enter hp cf cs ci :
  (cf < nchunks s)%nat ->
  enter hp cf cs !! ci =
    if decide (ci = cf)
    then adjustHostedOverflowCount (if decide (path s hp cf = []) then 0 else kIncrHostedOverflowCount) <$> cs !! ci
    else if decide (ci ∈ path s hp cf) then incrOutboundOverflowCount <$> cs !! ci else cs !! ci.
Proof using Hs.
  intros Hcf. unfold enter. destruct (decide (ci = cf)) as [->|Hne].
  - rewrite list_lookup_alter_eq, lookup_along by (by apply path_NoDup).
    by rewrite (decide_False (P := cf ∈ _)) by apply path_not_self.
  - rewrite list_lookup_alter_ne by congruence. by rewrite lookup_along by (by apply path_NoDup).
Qed.

Lemma lookup_leave hp cf cs ci :
  (cf < nchunks s)%nat ->
  leave hp cf cs !! ci =
    if decide (ci = cf)
    then adjustHostedOverflowCount (if decide (path s hp cf = []) then 0 else kDecrHostedOverflowCount) <$> cs !! ci
    else if decide (ci ∈ path s hp cf) then decrOutboundOverflowCount <$> cs !! ci else cs !! ci.
Proof using Hs.
  intros Hcf. unfold leave. destruct (decide (ci = cf)) as [->|Hne].
  - rewrite list_lookup_alter_eq, lookup_along by (by apply path_NoDup).
    by rewrite (decide_False (P := cf ∈ _)) by apply path_not_self.
  - rewrite list_lookup_alter_ne by congruence. by rewrite lookup_along by (by apply path_NoDup).
Qed.

Lemma enter_inv hp cf cs L :
  header_inv cs L -> (cf < nchunks s)%nat -> (hosted_count cf L < 15)%nat ->
  header_inv (enter hp cf cs) ((cf, hp) :: L).
Proof using Hs.
  intros HI Hcf Hlt ci c Hc. rewrite lookup_enter in Hc by done.
  destruct (decide (ci = cf)) as [->|Hne].
  - apply fmap_Some in Hc as (c0 & Hc0 & ->). destruct (HI _ _ Hc0) as [Hb Hh Hr Ho].
    constructor; cbn [outboundOverflowCount_ adjustHostedOverflowCount]; rewrite ?hosted_count_cons, ?outbound_count_cons.
    + apply wrap_range. lia.
    + destruct (decide (path s hp cf = [])) as [Hp|Hp].
      * rewrite adjust_0, decide_False by (done || tauto). lia.
      * rewrite decide_True by done. rewrite hosted_div by (by apply wrap_range).
        rewrite adjust_incr by (done || lia). rewrite hosted_div in Hh by done.
        replace (control_ c0 + 16) with (control_ c0 + 1 * 16) by lia. rewrite Z.div_add by lia. lia.
    + done.
    + rewrite (decide_False (P := cf ∈ _)) by apply path_not_self. done.
  - assert (exists c0, cs !! ci = Some c0 /\
      c = if decide (ci ∈ path s hp cf) then incrOutboundOverflowCount c0 else c0) as (c0 & Hc0 & ->).
    { destruct (decide (ci ∈ path s hp cf)); [apply fmap_Some in Hc as (c0 & ? & ?); by exists c0|by exists c]. }
    destruct (HI _ _ Hc0) as [Hb Hh Hr Ho].
    constructor; rewrite ?hosted_count_cons, ?outbound_count_cons; (destruct (decide (ci ∈ path s hp cf)); [|done || (rewrite decide_False by naive_solver; done)]).
    + done.
    + rewrite decide_False by naive_solver. done.
    + rewrite incr_outbound by done. destruct (Z.eqb_spec (outboundOverflowCount_ c0) 254); lia.
    + rewrite incr_outbound by done. destruct (Z.eqb_spec (outboundOverflowCount_ c0) 254); lia.
Qed.

Lemma leave_inv hp cf cs L :
  header_inv cs ((cf, hp) :: L) -> (cf < nchunks s)%nat -> header_inv (leave hp cf cs) L.
Proof using Hs.
  intros HI Hcf ci c Hc. rewrite lookup_leave in Hc by done.
  destruct (decide (ci = cf)) as [->|Hne].
  - apply fmap_Some in Hc as (c0 & Hc0 & ->). destruct (HI _ _ Hc0) as [Hb Hh Hr Ho].
    rewrite hosted_count_cons in Hh. rewrite outbound_count_cons in Ho.
    constructor; cbn [outboundOverflowCount_ adjustHostedOverflowCount].
    + apply wrap_range. lia.
    + destruct (decide (path s hp cf = [])) as [Hp|Hp].
      * rewrite adjust_0 by done. rewrite decide_False in Hh by tauto. lia.
      * rewrite decide_True in Hh by done. rewrite hosted_div by (by apply wrap_range).
        rewrite adjust_decr by (done || lia). rewrite hosted_div in Hh by done.
        replace (control_ c0 - 16) with (control_ c0 + (-1) * 16) by lia. rewrite Z.div_add by lia. lia.
    + done.
    + rewrite (decide_False (P := cf ∈ _)) in Ho by apply path_not_self. done.
  - assert (exists c0, cs !! ci = Some c0 /\
      c = if decide (ci ∈ path s hp cf) then decrOutboundOverflowCount c0 else c0) as (c0 & Hc0 & ->).
    { destruct (decide (ci ∈ path s hp cf)); [apply fmap_Some in Hc as (c0 & ? & ?); by exists c0|by exists c]. }
    destruct (HI _ _ Hc0) as [Hb Hh Hr Ho].
    rewrite hosted_count_cons, decide_False in Hh by naive_solver. rewrite outbound_count_cons in Ho.
    constructor; (destruct (decide (ci ∈ path s hp cf)); [|done]).
    + done.
    + done.
    + rewrite decr_outbound by lia. destruct (Z.eqb_spec (outboundOverflowCount_ c0) 254); lia.
    + rewrite decr_outbound by lia. destruct (Z.eqb_spec (outboundOverflowCount_ c0) 254); lia.
Qed.

(** A chunk that an entry passed has an outbound count. *)
Lemma passed_outbound hp cf ci c L :
  header_ok ci c L -> (cf, hp) ∈ L -> ci ∈ path s hp cf -> 1 <= outboundOverflowCount_ c.
Proof using Hs.
  intros [_ _ Hr Ho] Hin Hp. destruct Ho as [Ho|Ho]; rewrite Ho; [lia|].
  assert ((cf, hp) ∈ filter (fun e => ci ∈ path s e.2 e.1) L) as Hf by (by apply list_elem_of_filter).
  unfold outbound_count. destruct (filter _ L); [by apply not_elem_of_nil in Hf|]. cbn [length]. lia.
Qed.

(** What the counts of a chunk are not about: tags, items and the low half of the control byte. *)
Definition body c : list Z * list (option Item) * Z := (tags_ c, rawItems_ c, control_ c mod 16).

Lemma body_incr c : body (incrOutboundOverflowCount c) = body c.
Proof. done. Qed.

Lemma body_decr c : body (decrOutboundOverflowCount c) = body c.
Proof. done. Qed.

Lemma body_adjust op c : op mod 16 = 0 -> body (adjustHostedOverflowCount op c) = body c.
Proof.
  intros Hop. unfold body. cbn. f_equal. unfold wrap.
  rewrite <- (Znumtheory.Zmod_div_mod 16 (2 ^ 8)) by (lia || by exists 16).
  by rewrite Zplus_mod, Hop, Z.add_0_r, Z.mod_mod by lia.
Qed.

Lemma fmap_alter_body (f : F14Chunk Item -> F14Chunk Item) k cs :
  (forall c, body (f c) = body c) -> body <$> alter f k cs = body <$> cs.
Proof.
  intros Hf. apply list_eq. intros i. rewrite !list_lookup_fmap.
  destruct (decide (k = i)) as [->|Hne].
  - rewrite list_lookup_alter_eq. destruct (cs !! i); cbn; [by rewrite Hf|done].
  - by rewrite list_lookup_alter_ne.
Qed.

Lemma fmap_along_body (f : F14Chunk Item -> F14Chunk Item) ks cs :
  (forall c, body (f c) = body c) -> body <$> along f ks cs = body <$> cs.
Proof.
  intros Hf. revert cs. induction ks as [|k ks IH]; intros cs; [done|].
  rewrite along_cons, IH. by apply fmap_alter_body.
Qed.

Lemma enter_body hp cf cs : body <$> enter hp cf cs = body <$> cs.
Proof.
  unfold enter. rewrite fmap_alter_body by (intros; apply body_adjust; by destruct (decide _)).
  by apply fmap_along_body.
Qed.

Lemma leave_body hp cf cs : body <$> leave hp cf cs = body <$> cs.
Proof.
  unfold leave. rewrite fmap_alter_body by (intros; apply body_adjust; by destruct (decide _)).
  by apply fmap_along_body.
Qed.
End Header.
