(* ===== verification/F14Inv.v ===== *)
(** The invariant of F14 tables and the changes of one slot.

    [cells] lists the occupied slots with their items; the overflow counts of the headers, the size
    and the first iterator are those of the cells ([table_inv]). *)
From S2P Require Import Prelude Sse F14Mask F14Chunk F14Table F14Probe.

(** What a table relies on: a hasher that gives a [size_t], items and an allocator limit that are
    within the address space, and, for continuous capacities, items that are [uint32_t] indices. *)
Class F14PolicyLaws (Item Key : Type) `{!SizeofItem Item} `{!F14Policy Item Key} : Prop := {
  law_sizeof : 1 <= sizeof_Item < 2 ^ 48;
  law_max_size : sizeof_Item * alloc_max_size < 2 ^ 63;
  law_continuous : kContinuousCapacity = true -> sizeof_Item = 4;
  law_hasher k : is_u64 (hasher k);
  law_crc crc x : crc32_u64 hasherKind = Some crc -> is_u32 (crc x);
}.

Section Cells.
Context {Item : Type} `{!SizeofItem Item}.
Implicit Types (c : F14Chunk Item) (cs : list (F14Chunk Item)).

Definition row (ci : nat) c : list (nat * nat * Item) := omap (fun i => x ← item i c; Some (ci, i, x)) (slots c).

Fixpoint cells_from (n : nat) cs : list (nat * nat * Item) :=
  match cs with
  | [] => []
  | c :: cs => row n c ++ cells_from (S n) cs
  end.

Definition cells cs : list (nat * nat * Item) := cells_from 0 cs.

Lemma elem_of_row ci c cj i x :
  (cj, i, x) ∈ row ci c <-> cj = ci /\ i ∈ slots c /\ item i c = Some x.
Proof.
  unfold row. rewrite list_elem_of_omap. split.
  - intros (i' & Hi & E). destruct (item i' c) as [x'|] eqn:Ex; cbn in E; [|done]. by simplify_eq.
  - intros (-> & Hi & E). exists i. by rewrite E.
Qed.

Lemma slots_NoDup c : NoDup (slots c).
Proof. apply NoDup_filter, NoDup_seq. Qed.

Lemma row_NoDup ci c : NoDup (row ci c).
Proof.
  unfold row. pose proof (slots_NoDup c) as Hd. induction Hd as [|i l Hi Hd IH]; cbn; [constructor|].
  destruct (item i c) as [x|] eqn:Ex; cbn; [|done]. constructor; [|done].
  rewrite list_elem_of_omap. intros (j & Hj & E). destruct (item j c); cbn in E; by simplify_eq.
Qed.

Lemma elem_of_cells_from n cs ci i x :
  (ci, i, x) ∈ cells_from n cs <->
  exists c, (n <= ci)%nat /\ cs !! (ci - n)%nat = Some c /\ i ∈ slots c /\ item i c = Some x.
Proof.
  revert n. induction cs as [|c cs IH]; intros n; cbn.
  - split; [by intros ?%not_elem_of_nil|]. intros (c & _ & H & _). by rewrite lookup_nil in H.
  - rewrite elem_of_app, elem_of_row, IH. split.
    + intros [(-> & Hi & Hx)|(c' & Hn & Hc & Hi & Hx)].
      * exists c. by rewrite Nat.sub_diag.
      * exists c'. split; [lia|]. by replace (ci - n)%nat with (S (ci - S n)) by lia.
    + intros (c' & Hn & Hc & Hi & Hx). destruct (decide (ci = n)) as [->|Hne].
      * rewrite Nat.sub_diag in Hc. cbn in Hc. simplify_eq. by left.
      * right. exists c'. split; [lia|]. by replace (ci - n)%nat with (S (ci - S n)) in Hc by lia.
Qed.

Lemma elem_of_cells cs ci i x :
  (ci, i, x) ∈ cells cs <-> exists c, cs !! ci = Some c /\ i ∈ slots c /\ item i c = Some x.
Proof.
  unfold cells. rewrite elem_of_cells_from. rewrite Nat.sub_0_r. split.
  - intros (c & _ & H). by exists c.
  - intros (c & H). exists c. split; [lia|done].
Qed.

Lemma cells_NoDup cs : NoDup (cells cs).
Proof.
  unfold cells. generalize 0%nat. induction cs as [|c cs IH]; intros n; cbn; [constructor|].
  apply NoDup_app. split; [apply row_NoDup|]. split; [|apply IH].
  intros [[ci i] x] Hr Hc. apply elem_of_row in Hr as (-> & _).
  apply elem_of_cells_from in Hc as (? & ? & _). lia.
Qed.

(** The item of a cell is determined by its position. *)
Lemma cells_unique cs ci i x y : (ci, i, x) ∈ cells cs -> (ci, i, y) ∈ cells cs -> x = y.
Proof. rewrite !elem_of_cells. intros (c & Hc & _ & Hx) (c' & Hc' & _ & Hy). congruence. Qed.

(** Slots and items are in the bodies. *)
Lemma body_slots c c' : body c = body c' -> slots c = slots c'.
Proof. intros [= Ht _ _]. unfold slots, full_slot. by rewrite Ht. Qed.

Lemma body_item c c' i : body c = body c' -> item i c = item i c'.
Proof. intros [= _ Hi _]. unfold item. by rewrite Hi. Qed.

Lemma body_row n c c' : body c = body c' -> row n c = row n c'.
Proof.
  intros E. unfold row. rewrite (body_slots _ _ E). induction (slots c') as [|i l IH]; cbn; [done|].
  by rewrite (body_item _ _ i E), IH.
Qed.

Lemma cells_body cs cs' : body <$> cs = body <$> cs' -> cells cs = cells cs'.
Proof.
  unfold cells. generalize 0%nat. revert cs'.
  induction cs as [|c cs IH]; intros [|c' cs'] n E; cbn in *; try done.
  injection E as E1 E2 E3 E. rewrite (IH cs') by done. f_equal. apply body_row. unfold body. congruence.
Qed.

Lemma length_row ci c :
  (forall i, i ∈ slots c -> exists x, item i c = Some x) -> length (row ci c) = length (slots c).
Proof.
  unfold row. induction (slots c) as [|i l IH]; intros Hi; cbn; [done|].
  destruct (Hi i) as [x Hx]; [left|]. rewrite Hx. cbn. f_equal. apply IH. intros j Hj. apply Hi. by right.
Qed.

(** An item in a slot that was empty. *)
Definition put (i : nat) (tg : Z) (x : Item) c : F14Chunk Item :=
  mkChunk (<[i := tg]> (tags_ c)) (control_ c) (outboundOverflowCount_ c) (<[i := Some x]> (rawItems_ c)).

Definition wipe (i : nat) c : F14Chunk Item :=
  mkChunk (<[i := 0]> (tags_ c)) (control_ c) (outboundOverflowCount_ c) (<[i := None]> (rawItems_ c)).

Lemma full_slot_insert i j tg c ctl o (items : list (option Item)) :
  (i < length (tags_ c))%nat ->
  full_slot (mkChunk (<[i := tg]> (tags_ c)) ctl o items) j =
    if decide (j = i) then negb (tg =? 0) else full_slot c j.
Proof.
  intros Hi. unfold full_slot. cbn [tags_]. rewrite !nth_lookup. destruct (decide (j = i)) as [->|Hne].
  - by rewrite list_lookup_insert_eq.
  - by rewrite list_lookup_insert_ne by congruence.
Qed.

Lemma item_insert i j x c tags ctl o :
  (i < length (rawItems_ c))%nat ->
  item j (mkChunk tags ctl o (<[i := x]> (rawItems_ c))) = if decide (j = i) then x else item j c.
Proof.
  intros Hi. unfold item, load. cbn [rawItems_]. destruct (decide (j = i)) as [->|Hne].
  - by rewrite list_lookup_insert_eq by done.
  - by rewrite list_lookup_insert_ne by congruence.
Qed.

Lemma cells_put cs ci c i tg x :
  cs !! ci = Some c -> (i < length (tags_ c))%nat -> (i < kCapacity)%nat -> (i < length (rawItems_ c))%nat ->
  full_slot c i = false -> tg <> 0 ->
  cells (<[ci := put i tg x c]> cs) ≡ₚ (ci, i, x) :: cells cs.
Proof.
  intros Hc Hi Hk Hr Hf Htg. pose proof (lookup_lt_Some _ _ _ Hc) as Hl. apply NoDup_Permutation.
  - apply cells_NoDup.
  - constructor; [|apply cells_NoDup]. intros (c' & Hc' & Hs & _)%elem_of_cells.
    apply elem_of_slots in Hs as [_ Hs]. congruence.
  - intros [[cj j] y]. rewrite elem_of_cons, !elem_of_cells. split.
    + intros (c' & Hc' & Hs & Hx). destruct (decide (cj = ci)) as [->|Hne].
      * rewrite list_lookup_insert_eq in Hc' by done. injection Hc' as <-. unfold put in *.
        rewrite elem_of_slots, full_slot_insert in Hs by done. rewrite item_insert in Hx by done.
        destruct (decide (j = i)) as [->|Hj]; [left; congruence|]. right. exists c. by rewrite elem_of_slots.
      * rewrite list_lookup_insert_ne in Hc' by congruence. right. by exists c'.
    + intros [[= -> -> ->]|(c' & Hc' & Hs & Hx)].
      * exists (put i tg x c). rewrite list_lookup_insert_eq by done. split; [done|]. unfold put.
        rewrite elem_of_slots, full_slot_insert, item_insert, !decide_True by done. split; [|done].
        split; [done|]. apply negb_true_iff, Z.eqb_neq. done.
      * destruct (decide (cj = ci)) as [->|Hne].
        -- replace c' with c in * by congruence. exists (put i tg x c).
           rewrite list_lookup_insert_eq by done. split; [done|]. unfold put.
           assert (j <> i) by (intros ->; apply elem_of_slots in Hs; destruct Hs; congruence).
           rewrite elem_of_slots, full_slot_insert, item_insert, !decide_False by done.
           by rewrite <- elem_of_slots.
        -- exists c'. by rewrite list_lookup_insert_ne by congruence.
Qed.

(** [wipe] undoes [put]. *)
Lemma put_wipe i c tg x :
  tags_ c !! i = Some tg -> rawItems_ c !! i = Some (Some x) -> put i tg x (wipe i c) = c.
Proof.
  intros Ht Hx. destruct c as [tags ctl o items]. cbn in *. unfold put, wipe. cbn. f_equal.
  - by rewrite list_insert_insert_eq, list_insert_id.
  - by rewrite list_insert_insert_eq, list_insert_id.
Qed.

Lemma cells_wipe cs ci c i tg x :
  cs !! ci = Some c -> (i < kCapacity)%nat -> tags_ c !! i = Some tg -> tg <> 0 -> item i c = Some x ->
  cells cs ≡ₚ (ci, i, x) :: cells (<[ci := wipe i c]> cs).
Proof.
  intros Hc Hk Ht Htg Hx. pose proof (lookup_lt_Some _ _ _ Hc) as Hl.
  assert (rawItems_ c !! i = Some (Some x)) as Hr.
  { unfold item, load in Hx. destruct (rawItems_ c !! i); cbn in Hx; [by rewrite Hx|done]. }
  rewrite <- (cells_put _ ci (wipe i c) i tg x); cbn [wipe tags_ rawItems_].
  - rewrite list_insert_insert_eq. fold (wipe i c). rewrite (put_wipe i c tg x) by done.
    by rewrite list_insert_id.
  - by rewrite list_lookup_insert_eq.
  - rewrite length_insert. by eapply lookup_lt_Some.
  - done.
  - rewrite length_insert. by eapply lookup_lt_Some.
  - unfold wipe. rewrite full_slot_insert by (by eapply lookup_lt_Some). by rewrite decide_True.
  - done.
Qed.
End Cells.

Section Inv.
Context {Item Key : Type} `{!SizeofItem Item} `{!F14Policy Item Key} `{!EqDecision Key}.
Context `{!F14PolicyLaws Item Key}.
Implicit Types (t : F14Table Item) (c : F14Chunk Item) (cs : list (F14Chunk Item)) (x : Item).

Definition hash_pair x : HashPair := splitHash (computeItemHash x).

Lemma split_range k : is_u64 (splitHash (computeKeyHash k)).1 /\ is_tag (splitHash (computeKeyHash k)).2.
Proof using F14PolicyLaws0. apply splitHashImpl_range; [apply law_hasher|apply law_crc]. Qed.

Lemma hash_pair_tag x : is_tag (hash_pair x).2.
Proof using F14PolicyLaws0. apply split_range. Qed.

(** ** The invariant *)

Definition entry_of (e : nat * nat * Item) : nat * HashPair := (e.1.1, hash_pair e.2).
Definition entries cs : list (nat * HashPair) := entry_of <$> cells cs.

(** Every slot with a tag has an item of that tag. *)
Record chunk_inv (room ci : nat) c : Prop := {
  inv_ok : chunk_ok c;
  inv_room : length (rawItems_ c) = room;
  inv_item i : i ∈ slots c -> exists x, item i c = Some x /\ tags_ c !! i = Some (hash_pair x).2;
  inv_eof : ci <> 0%nat -> capacityScale c = 0;
}.

Definition room (s scale : Z) : nat := if s =? 0 then Z.to_nat scale else kCapacity.

Record chunks_inv (s scale : Z) cs : Prop := {
  inv_shift : 0 <= s < 64;
  inv_length : length cs = nchunks s;
  inv_chunk ci c : cs !! ci = Some c -> chunk_inv (room s scale) ci c;
  inv_scale : capacityScale <$> cs !! 0%nat = Some scale;
  inv_header : header_inv s cs (entries cs);
}.

(** The bytes for the chunks are allocated. *)
Definition alloc_ok (s scale : Z) : Prop :=
  sizeof_Chunk * (2 ^ s - 1) + 16 <= chunkAllocSize (2 ^ s) scale.

(** A capacity leaves room in some chunk. *)
Record scale_ok (s scale : Z) : Prop := {
  scale_pos : 1 <= scale;
  scale_single : s = 0 -> scale <= Z.of_nat kCapacity;
  scale_multi : s <> 0 -> computeCapacity (2 ^ s) scale <= 2 ^ s * Z.of_nat kDesiredCapacity;
  scale_max : computeCapacity (2 ^ s) scale <= kMaxSize;
  scale_fits : scale < 2 ^ kCapacityScaleBits;
  scale_alloc : alloc_ok s scale;
}.

(** The first iterator is the greatest position. *)
Definition begin_inv (b : option (nat * nat)) (l : list (nat * nat)) : Prop :=
  match b with
  | None => l = []
  | Some p => p ∈ l /\ forall q, q ∈ l -> packed_lt (Some p) (Some q) = false
  end.

Definition table_scale t : Z :=
  match chunks_ t with [] => 0 | c :: _ => capacityScale c end.

Definition capacity t : Z := computeCapacity (2 ^ chunkShift t) (table_scale t).

Definition contents t : list Item := snd <$> cells (chunks_ t).

Record table_inv t : Prop := {
  inv_packed : is_u64 (packedSizeAndChunkShift_ t);
  inv_chunks : chunks_inv (chunkShift t) (table_scale t) (chunks_ t);
  inv_scale_ok : scale_ok (chunkShift t) (table_scale t);
  inv_size : size_ t = Z.of_nat (length (cells (chunks_ t)));
  inv_capacity : size_ t <= capacity t;
  inv_keys : NoDup (keyForItem <$> contents t);
  inv_begin : if kEnableItemIteration then begin_inv (packedBegin_ t) (fst <$> cells (chunks_ t))
              else packedBegin_ t = None;
}.

(** A table is the constant empty one or owns its chunks. *)
Definition valid t : Prop := t = F14Table_default \/ table_inv t.

(** ** Chunks *)

Lemma capacityScale_body c c' : body c = body c' -> capacityScale c = capacityScale c'.
Proof.
  intros [= Ht _ Hc]. unfold capacityScale. destruct (_ =? 4); [|by rewrite Ht].
  by rewrite !(land_ones_mod _ 4) by lia.
Qed.

Lemma chunk_ok_body c c' :
  body c = body c' -> is_byte (control_ c') -> is_byte (outboundOverflowCount_ c') -> chunk_ok c -> chunk_ok c'.
Proof. intros [= Ht _ _] Hc Ho [Hl Hts _ _ Hsl]. constructor; by rewrite <- ?Ht. Qed.

Lemma chunk_inv_body r ci c c' :
  body c = body c' -> is_byte (control_ c') -> is_byte (outboundOverflowCount_ c') ->
  chunk_inv r ci c -> chunk_inv r ci c'.
Proof.
  intros E Hc Ho [Hok Hr Hi He]. constructor.
  - by eapply chunk_ok_body.
  - by injection E as _ <- _.
  - intros i Hs. rewrite <- (body_slots _ _ E) in Hs. rewrite <- (body_item _ _ i E).
    injection E as <- _ _. by apply Hi.
  - by rewrite <- (capacityScale_body _ _ E).
Qed.

Lemma lookup_body cs cs' ci c :
  body <$> cs = body <$> cs' -> cs !! ci = Some c -> exists c', cs' !! ci = Some c' /\ body c = body c'.
Proof.
  intros E Hc. assert ((body <$> cs') !! ci = Some (body c)) as H by (by rewrite <- E, list_lookup_fmap, Hc).
  rewrite list_lookup_fmap in H. apply fmap_Some in H as (c' & ? & ?). by exists c'.
Qed.

(** Chunks with the same bodies and other counts. *)
Lemma bodies_inv s scale cs cs' L :
  body <$> cs' = body <$> cs -> header_inv s cs' L ->
  (forall ci c, cs !! ci = Some c -> chunk_inv (room s scale) ci c) ->
  capacityScale <$> cs !! 0%nat = Some scale ->
  (forall ci c, cs' !! ci = Some c -> chunk_inv (room s scale) ci c) /\
  capacityScale <$> cs' !! 0%nat = Some scale.
Proof.
  intros E Hh Hch Hsc. split.
  - intros ci c' Hc'. destruct (lookup_body _ _ _ _ E Hc') as (c & Hc & Eb).
    destruct (Hh _ _ Hc') as [Hctl _ Hr _].
    apply (chunk_inv_body _ _ c); [by symmetry|done|unfold is_uint; lia|by apply Hch].
  - apply fmap_Some in Hsc as (c & Hc0 & ->). destruct (lookup_body _ _ _ _ (eq_sym E) Hc0) as (c' & -> & Eb).
    cbn. by rewrite (capacityScale_body _ _ Eb).
Qed.

Lemma capacityScale_insert i tg c ctl o items :
  (i < kCapacity)%nat -> ctl mod 16 = control_ c mod 16 ->
  capacityScale (mkChunk (<[i := tg]> (tags_ c)) ctl o items : F14Chunk Item) = capacityScale c.
Proof.
  intros Hi Hctl. unfold capacityScale. cbn [control_ tags_].
  unfold kCapacityScaleBits. destruct kCapacity_cases as [Hk|Hk]; rewrite Hk in *; cbn.
  - rewrite !nth_lookup, !list_lookup_insert_ne by lia. done.
  - by rewrite !(land_ones_mod _ 4) by lia.
Qed.

Lemma row_le ci c : (length (row ci c) <= length (slots c))%nat.
Proof.
  unfold row. induction (slots c) as [|i l IH]; cbn; [done|]. destruct (item i c); cbn; lia.
Qed.

(** Few entries are hosted, so that the four bits do not overflow. *)
Lemma hosted_count_le s ci cs c :
  cs !! ci = Some c -> (hosted_count s ci (entries cs) <= length (slots c))%nat.
Proof.
  intros Hc. etransitivity; [|apply (row_le ci)]. unfold hosted_count, entries.
  rewrite filter_fmap, length_fmap. apply submseteq_length, NoDup_submseteq.
  - apply NoDup_filter, cells_NoDup.
  - intros [[cj i] x] [[Hcj _] Hin]%list_elem_of_filter. cbn in Hcj. subst cj.
    apply elem_of_cells in Hin as (c' & Hc' & Hi & Hx). apply elem_of_row. by simplify_eq.
Qed.

Lemma length_slots_lt c i : (i < kCapacity)%nat -> full_slot c i = false -> (length (slots c) < kCapacity)%nat.
Proof.
  intros Hi Hf. assert (i ∈ empty_slots c) as Hin by (by apply elem_of_empty_slots).
  pose proof (slots_total c). destruct (empty_slots c); [by apply not_elem_of_nil in Hin|]. cbn in *. lia.
Qed.

(** ** One more item, one item less *)

Lemma chunk_inv_put r ci c i x :
  chunk_inv r ci c -> (i < kCapacity)%nat -> (i < r)%nat -> chunk_inv r ci (put i (hash_pair x).2 x c).
Proof using F14PolicyLaws0.
  intros [[Hl Hts Hctl Ho Hsl] Hr Hi He] Hk Hir. pose proof kCapacity_le. pose proof (hash_pair_tag x) as Htag.
  constructor.
  - constructor; cbn [put tags_ control_ outboundOverflowCount_]; try done.
    + by rewrite length_insert.
    + apply Forall_insert; [done|]. unfold is_tag, is_uint in *. lia.
    + intros j tg Hj Hlk. destruct (decide (j = i)) as [->|Hne].
      * rewrite list_lookup_insert_eq in Hlk by lia. simplify_eq. by right.
      * rewrite list_lookup_insert_ne in Hlk by congruence. by eapply Hsl.
  - cbn. by rewrite length_insert.
  - intros j Hj. unfold put in *. rewrite elem_of_slots, full_slot_insert in Hj by lia.
    rewrite item_insert by lia. cbn [tags_]. destruct (decide (j = i)) as [->|Hne].
    + exists x. by rewrite list_lookup_insert_eq by lia.
    + rewrite list_lookup_insert_ne by congruence. apply Hi. by rewrite elem_of_slots.
  - intros Hci. unfold put. rewrite capacityScale_insert by done. auto.
Qed.

Lemma chunk_inv_wipe r ci c i :
  chunk_inv r ci c -> (i < kCapacity)%nat -> (i < r)%nat -> chunk_inv r ci (wipe i c).
Proof.
  intros [[Hl Hts Hctl Ho Hsl] Hr Hi He] Hk Hir. pose proof kCapacity_le. constructor.
  - constructor; cbn [wipe tags_ control_ outboundOverflowCount_]; try done.
    + by rewrite length_insert.
    + apply Forall_insert; [done|]. unfold is_uint. lia.
    + intros j tg Hj Hlk. destruct (decide (j = i)) as [->|Hne].
      * rewrite list_lookup_insert_eq in Hlk by lia. simplify_eq. by left.
      * rewrite list_lookup_insert_ne in Hlk by congruence. by eapply Hsl.
  - cbn. by rewrite length_insert.
  - intros j Hj. unfold wipe in *. rewrite elem_of_slots, full_slot_insert in Hj by lia.
    rewrite item_insert by lia. cbn [tags_]. destruct (decide (j = i)) as [->|Hne]; [by destruct Hj|].
    rewrite list_lookup_insert_ne by congruence. apply Hi. by rewrite elem_of_slots.
  - intros Hci. unfold wipe. rewrite capacityScale_insert by done. auto.
Qed.

(** A change of the slots of one chunk that keeps its header. *)
Lemma chunks_inv_insert s scale cs L ci c c' :
  0 <= s < 64 -> length cs = nchunks s ->
  (forall ci c, cs !! ci = Some c -> chunk_inv (room s scale) ci c) ->
  capacityScale <$> cs !! 0%nat = Some scale -> header_inv s cs L ->
  cs !! ci = Some c -> chunk_inv (room s scale) ci c' -> capacityScale c' = capacityScale c ->
  control_ c' = control_ c -> outboundOverflowCount_ c' = outboundOverflowCount_ c ->
  L ≡ₚ entries (<[ci := c']> cs) -> chunks_inv s scale (<[ci := c']> cs).
Proof.
  intros Hs Hl Hch Hsc Hh Hc Hc' Hcs Hctl Ho HL. pose proof (lookup_lt_Some _ _ _ Hc). constructor.
  - done.
  - by rewrite length_insert.
  - intros cj d Hd. destruct (decide (cj = ci)) as [->|Hne].
    + rewrite list_lookup_insert_eq in Hd by done. by simplify_eq.
    + rewrite list_lookup_insert_ne in Hd by congruence. auto.
  - destruct (decide (ci = 0%nat)) as [->|Hne].
    + rewrite list_lookup_insert_eq by done. rewrite Hc in Hsc. cbn in *. congruence.
    + by rewrite list_lookup_insert_ne by congruence.
  - apply (header_inv_perm s _ L); [done|]. intros cj d Hd. destruct (decide (cj = ci)) as [->|Hne].
    + rewrite list_lookup_insert_eq in Hd by done. injection Hd as <-. destruct (Hh _ _ Hc) as [A B C D].
      unfold hostedOverflowCount in *. constructor; unfold hostedOverflowCount; rewrite ?Hctl, ?Ho; done.
    + rewrite list_lookup_insert_ne in Hd by congruence. auto.
Qed.

Lemma enter_ext s hp hp' cf cs : path s hp cf = path s hp' cf -> enter s hp cf cs = enter s hp' cf cs.
Proof. intros E. unfold enter. by rewrite E. Qed.

Lemma leave_ext s hp hp' cf cs : path s hp cf = path s hp' cf -> leave s hp cf cs = leave s hp' cf cs.
Proof. intros E. unfold leave. by rewrite E. Qed.

(** The chunks with the counts of one more entry, before the entry is written. *)
Lemma enter_chunks s scale hp cf cs c i :
  chunks_inv s scale cs -> cs !! cf = Some c -> (i < kCapacity)%nat -> full_slot c i = false ->
  header_inv s (enter s hp cf cs) ((cf, hp) :: entries cs) /\
  (forall ci c, enter s hp cf cs !! ci = Some c -> chunk_inv (room s scale) ci c) /\
  capacityScale <$> enter s hp cf cs !! 0%nat = Some scale.
Proof.
  intros [Hs Hl Hch Hsc Hh] Hc Hi Hf. pose proof (enter_body s hp cf cs) as Eb.
  assert (header_inv s (enter s hp cf cs) ((cf, hp) :: entries cs)) as Hh'.
  { apply enter_inv; [done|done| |].
    - rewrite <- Hl. by eapply lookup_lt_Some.
    - pose proof (hosted_count_le s cf cs c Hc). pose proof (length_slots_lt c i Hi Hf).
      pose proof kCapacity_le. lia. }
  split; [done|]. by eapply bodies_inv.
Qed.

Lemma place_inv s scale cs cf c c1 i x hp :
  chunks_inv s scale cs -> cs !! cf = Some c -> (i < kCapacity)%nat -> (i < room s scale)%nat ->
  full_slot c i = false -> path s hp cf = path s (hash_pair x) cf ->
  enter s hp cf cs !! cf = Some c1 ->
  let cs' := <[cf := put i (hash_pair x).2 x c1]> (enter s hp cf cs) in
  chunks_inv s scale cs' /\ cells cs' ≡ₚ (cf, i, x) :: cells cs.
Proof using F14PolicyLaws0.
  intros HI Hc Hi Hr Hf Hp Hc1 cs'. subst cs'. rewrite (enter_ext _ _ _ _ _ Hp) in *. clear hp Hp.
  pose proof (hash_pair_tag x) as Htag. set (hp := hash_pair x) in *.
  destruct (enter_chunks s scale hp cf cs c i) as (Hh & Hch & Hsc); try done.
  pose proof (enter_body s hp cf cs) as Eb. pose proof (Hch _ _ Hc1) as Hci1.
  destruct (lookup_body _ _ _ _ Eb Hc1) as (c' & Hc' & E). replace c' with c in * by congruence.
  assert (cells (<[cf := put i hp.2 x c1]> (enter s hp cf cs)) ≡ₚ (cf, i, x) :: cells cs) as Hcells.
  { rewrite (cells_put _ cf c1); [by rewrite (cells_body _ _ Eb)|done| |done| | |].
    - pose proof (ok_length _ (inv_ok _ _ _ Hci1)). pose proof kCapacity_le. lia.
    - pose proof (inv_room _ _ _ Hci1). lia.
    - unfold full_slot in *. injection E as -> _ _. done.
    - unfold is_tag in Htag. lia. }
  split; [|done]. destruct HI as [Hs Hl _ _ _].
  apply (chunks_inv_insert s scale _ ((cf, hp) :: entries cs) cf c1); try done.
  - by rewrite <- (length_fmap body), Eb, length_fmap.
  - by apply chunk_inv_put.
  - unfold put. by apply capacityScale_insert.
  - unfold entries. by rewrite Hcells.
Qed.

Lemma remove_inv s scale cs cf c i x hp :
  chunks_inv s scale cs -> (cf, i, x) ∈ cells cs -> cs !! cf = Some c ->
  path s hp cf = path s (hash_pair x) cf ->
  let cs' := leave s hp cf (<[cf := wipe i c]> cs) in
  chunks_inv s scale cs' /\ cells cs ≡ₚ (cf, i, x) :: cells cs'.
Proof using F14PolicyLaws0.
  intros HI Hin Hc Hp cs'. subst cs'. rewrite (leave_ext _ _ _ _ _ Hp). clear hp Hp.
  apply elem_of_cells in Hin as (c' & Hc' & Hi & Hx). replace c' with c in * by congruence.
  pose proof HI as [Hs Hl Hch Hsc Hh]. pose proof (Hch _ _ Hc) as Hci.
  pose proof (inv_item _ _ _ Hci i Hi) as (x' & Hx' & Htg). replace x' with x in * by congruence.
  pose proof (hash_pair_tag x) as Htag. set (hp := hash_pair x) in *.
  apply elem_of_slots in Hi as [Hik _].
  assert (i < room s scale)%nat as Hir.
  { rewrite <- (inv_room _ _ _ Hci). unfold item, load in Hx. destruct (rawItems_ c !! i) eqn:E; [|done].
    by eapply lookup_lt_Some. }
  assert (cells cs ≡ₚ (cf, i, x) :: cells (<[cf := wipe i c]> cs)) as Hcells.
  { apply (cells_wipe _ _ _ _ hp.2); try done. unfold is_tag in Htag. lia. }
  set (cs1 := <[cf := wipe i c]> cs) in *. pose proof (lookup_lt_Some _ _ _ Hc) as Hlt.
  assert (header_inv s (leave s hp cf cs1) (entries cs1)) as Hh'.
  { apply leave_inv; [done| |by rewrite <- Hl].
    apply (header_inv_perm s _ (entries cs)); [unfold entries; by rewrite Hcells|].
    intros cj d Hd. subst cs1. destruct (decide (cj = cf)) as [->|Hne].
    - rewrite list_lookup_insert_eq in Hd by done. injection Hd as <-. destruct (Hh _ _ Hc) as [? ? ? ?]. done.
    - rewrite list_lookup_insert_ne in Hd by congruence. auto. }
  pose proof (leave_body s hp cf cs1) as Eb.
  assert (cells (leave s hp cf cs1) = cells cs1) as Ec by by apply cells_body.
  split; [|by rewrite Ec]. destruct (bodies_inv s scale cs1 (leave s hp cf cs1) (entries cs1)) as [Hch' Hsc']; try done.
  - intros ci d Hd. subst cs1. destruct (decide (ci = cf)) as [->|Hne].
    + rewrite list_lookup_insert_eq in Hd by done. injection Hd as <-. by apply chunk_inv_wipe.
    + rewrite list_lookup_insert_ne in Hd by congruence. auto.
  - subst cs1. destruct (decide (cf = 0%nat)) as [->|Hne].
    + rewrite list_lookup_insert_eq by done. rewrite Hc in Hsc. cbn in *. unfold wipe.
      by rewrite capacityScale_insert.
    + by rewrite list_lookup_insert_ne by congruence.
  - constructor; [done| |done|done|unfold entries; by rewrite Ec].
    rewrite <- (length_fmap body), Eb, length_fmap. subst cs1. by rewrite length_insert.
Qed.
End Inv.
