(* ===== verification/F14Find.v ===== *)
(** Searching and iterating in F14 tables: the size word, [findImpl] and the iterators. *)
From S2P Require Import Prelude Sse F14Mask F14Chunk F14Table F14Probe F14Inv.

(** ** The size word *)

Section Packed.
Context {Item : Type}.
Implicit Types t : F14Table Item.

Lemma packed_fields sh sz :
  is_uint 8 sh -> is_uint 56 sz ->
  let p := sh + sz * 2 ^ 8 in p .>> 8 = sz /\ p .& 255 = sh /\ is_u64 p.
Proof.
  unfold is_uint. intros Hsh Hsz. rewrite shiftr_div, (land_ones_mod _ 8) by lia.
  rewrite Z.div_add, Z.div_small, Z.mod_add, Z.mod_small by lia. lia.
Qed.

Lemma chunkShift_uint t : is_uint 8 (chunkShift t).
Proof. unfold chunkShift, kSizeShift. apply land_uint; [lia|]. unfold is_uint. lia. Qed.

Lemma size_uint t : is_u64 (packedSizeAndChunkShift_ t) -> is_uint 56 (size_ t).
Proof.
  unfold is_uint, size_, kSizeShift. intros H. rewrite shiftr_div by lia.
  split; [apply Z.div_pos; lia|]. apply Z.div_lt_upper_bound; lia.
Qed.

Lemma packed_join t :
  is_u64 (packedSizeAndChunkShift_ t) -> packedSizeAndChunkShift_ t = chunkShift t + size_ t * 2 ^ 8.
Proof.
  intros H. unfold chunkShift, size_, kSizeShift. rewrite shiftr_div, (land_ones_mod _ 8) by lia.
  pose proof (Z.div_mod (packedSizeAndChunkShift_ t) (2 ^ 8)). lia.
Qed.

Lemma u64_size sz : is_uint 56 sz -> u64 (sz .<< 8) = sz * 2 ^ 8.
Proof. unfold is_uint. intros H. rewrite shiftl_mul by lia. apply wrap_small. unfold is_uint. lia. Qed.

Lemma setSize_packed sz t :
  is_uint 56 sz -> packedSizeAndChunkShift_ (setSize sz t) = chunkShift t + sz * 2 ^ 8.
Proof.
  intros H. cbn [setSize set_packed packedSizeAndChunkShift_]. unfold kSizeShift.
  rewrite u64_size by done. apply lor_disjoint; [lia|apply chunkShift_uint].
Qed.

Lemma setSize_spec sz t :
  is_uint 56 sz ->
  size_ (setSize sz t) = sz /\ chunkShift (setSize sz t) = chunkShift t /\
  is_u64 (packedSizeAndChunkShift_ (setSize sz t)).
Proof.
  intros H. unfold size_, chunkShift at 1, kSizeShift. rewrite setSize_packed by done.
  apply packed_fields; [apply chunkShift_uint|done].
Qed.

Lemma findFirstSet_pow s : 0 <= s -> Z.of_nat (findFirstSetNonZero (2 ^ s)) = s.
Proof.
  intros Hs. assert (0 < 2 ^ s) by (apply Z.pow_pos_nonneg; lia).
  destruct (first_set_bit (2 ^ s)) as [Hb _]; [done|]. rewrite Z.pow2_bits_eqb in Hb by lia. lia.
Qed.

Lemma setChunkCount_packed s t :
  0 <= s < 64 -> is_u64 (packedSizeAndChunkShift_ t) ->
  packedSizeAndChunkShift_ (setChunkCount (2 ^ s) t) = s + size_ t * 2 ^ 8.
Proof.
  intros Hs H. cbn [setChunkCount set_packed packedSizeAndChunkShift_]. unfold kSizeShift.
  rewrite u64_size by (by apply size_uint). rewrite findFirstSet_pow, lor_disjoint_r by (unfold is_uint; lia). lia.
Qed.

Lemma setChunkCount_spec s t :
  0 <= s < 64 -> is_u64 (packedSizeAndChunkShift_ t) ->
  size_ (setChunkCount (2 ^ s) t) = size_ t /\ chunkShift (setChunkCount (2 ^ s) t) = s /\
  is_u64 (packedSizeAndChunkShift_ (setChunkCount (2 ^ s) t)).
Proof.
  intros Hs H. unfold size_ at 1, chunkShift, kSizeShift. rewrite setChunkCount_packed by done.
  apply packed_fields; [unfold is_uint; lia|by apply size_uint].
Qed.

(** Giving a table its own chunk count changes nothing. *)
Lemma setChunkCount_id s t :
  0 <= s < 64 -> is_u64 (packedSizeAndChunkShift_ t) -> chunkShift t = s -> setChunkCount (2 ^ s) t = t.
Proof.
  intros Hs H E. pose proof (setChunkCount_packed s t Hs H) as Hp.
  rewrite <- E in Hp at 2. rewrite <- packed_join in Hp by done.
  unfold setChunkCount, set_packed in *. cbn in Hp. rewrite Hp. by destruct t.
Qed.

Lemma chunkCount_pow t : chunkShift t < 64 -> chunkCount t = 2 ^ chunkShift t.
Proof.
  intros Hs. pose proof (chunkShift_uint t) as Hu. unfold is_uint in Hu. unfold chunkCount.
  rewrite shiftl_mul, Z.mul_1_l by lia. apply wrap_small. unfold is_uint.
  split; [apply Z.pow_nonneg; lia|apply Z.pow_lt_mono_r; lia].
Qed.
End Packed.

Section Find.
Context {Item Key : Type} `{!SizeofItem Item} `{!F14Policy Item Key} `{!EqDecision Key}.
Context `{!F14PolicyLaws Item Key}.
Implicit Types (t : F14Table Item) (c : F14Chunk Item) (cs : list (F14Chunk Item)) (x : Item).

(** ** Searching *)

Definition has_key (key : Key) cs (ci : nat) : Prop :=
  exists i x, (ci, i, x) ∈ cells cs /\ keyForItem x = key.

(** The slots that [hits] lists have items, so the search in a chunk succeeds or excludes them. *)
Lemma find_hit_spec key c hits :
  (forall i, i ∈ hits -> exists x, item i c = Some x) ->
  exists r, find_hit key c hits = Some r /\
    match r with
    | Some i => exists x, i ∈ hits /\ item i c = Some x /\ keyForItem x = key
    | None => forall i x, i ∈ hits -> item i c = Some x -> keyForItem x <> key
    end.
Proof.
  induction hits as [|i hits IH]; intros Hi; cbn.
  - exists None. split; [done|]. by intros i x ?%not_elem_of_nil.
  - destruct (Hi i) as [x Hx]; [left|]. rewrite Hx. cbn. unfold keyMatchesItem.
    destruct (bool_decide_reflect (key = keyForItem x)) as [Ek|Ek].
    + exists (Some i). split; [done|]. exists x. split; [left|done].
    + destruct IH as (r & -> & Hr); [intros j Hj; apply Hi; by right|]. exists r. split; [done|].
      destruct r as [j|].
      * destruct Hr as (y & Hj & Hy). exists y. split; [by right|done].
      * intros j y [->|Hj]%elem_of_cons Hy; [congruence|eauto].
Qed.

Lemma find_chunk_spec s scale cs key ci c :
  chunks_inv s scale cs -> cs !! ci = Some c ->
  exists r, find_hit key c (tagMatchIter (splitHash (computeKeyHash key)).2 c) = Some r /\
    match r with
    | Some i => exists x, (ci, i, x) ∈ cells cs /\ keyForItem x = key
    | None => ~ has_key key cs ci
    end.
Proof using F14PolicyLaws0.
  intros HI Hc. pose proof (inv_chunk _ _ _ HI _ _ Hc) as Hci.
  set (hp := splitHash (computeKeyHash key)). pose proof (split_range (Item := Item) key) as [_ Htag]. fold hp in Htag.
  unfold is_tag in Htag. pose proof (inv_ok _ _ _ Hci) as Hok.
  rewrite tagMatchIter_spec by (done || unfold is_uint; lia).
  assert (forall i, i ∈ filter (fun i => nth i (tags_ c) 0 = hp.2) (seq 0 kCapacity) -> i ∈ slots c) as Hsl.
  { intros i [Ht Hi]%list_elem_of_filter. apply elem_of_seq in Hi. apply elem_of_slots. split; [lia|].
    unfold full_slot. rewrite Ht. apply negb_true_iff, Z.eqb_neq. lia. }
  destruct (find_hit_spec key c (filter (fun i => nth i (tags_ c) 0 = hp.2) (seq 0 kCapacity))) as (r & -> & Hr).
  { intros i Hi%Hsl. destruct (inv_item _ _ _ Hci i Hi) as (x & ? & _). by exists x. }
  exists r. split; [done|]. destruct r as [i|].
  - destruct Hr as (x & Hi & Hx & Hk). exists x. split; [|done]. apply elem_of_cells. exists c. auto.
  - intros (i & x & Hin & Hk). apply elem_of_cells in Hin as (c' & Hc' & Hi & Hx).
    replace c' with c in * by congruence. apply (Hr i x); [|done|done].
    destruct (inv_item _ _ _ Hci i Hi) as (x' & Hx' & Htg). replace x' with x in * by congruence.
    apply list_elem_of_filter. split.
    + rewrite (nth_lookup_Some _ _ _ _ Htg). subst hp. unfold hash_pair, computeItemHash. by rewrite Hk.
    + apply elem_of_slots in Hi. apply elem_of_seq. lia.
Qed.

(** What a search returns. *)
Definition find_result (key : Key) cs (r : option (nat * nat)) : Prop :=
  match r with
  | Some p => exists x, (p, x) ∈ cells cs /\ keyForItem x = key
  | None => forall p x, (p, x) ∈ cells cs -> keyForItem x <> key
  end.

Lemma tries_left s j : 0 <= s < 64 -> (j <= nchunks s)%nat ->
  negb (Z.of_nat j .>> s =? 0) = bool_decide (j = nchunks s).
Proof.
  intros Hs Hj. pose proof (nchunks_Z s Hs) as Hn. pose proof (pow_s_pos s Hs).
  rewrite shiftr_div by lia. destruct (bool_decide_reflect (j = nchunks s)) as [->|Hne].
  - by rewrite Hn, Z.div_same by lia.
  - by rewrite Z.div_small by lia.
Qed.

Lemma find_loop_spec scale key fuel j index t :
  let s := chunkShift t in
  let hp := splitHash (computeKeyHash key) in
  chunks_inv s scale (chunks_ t) -> on_tour s hp j index ->
  (j <= nchunks s)%nat -> (nchunks s - j < fuel)%nat ->
  (forall k, k ∈ take j (tour s hp) -> ~ has_key key (chunks_ t) k) ->
  exists r, find_loop fuel t hp key (Z.of_nat j) index = Some r /\ find_result key (chunks_ t) r.
Proof using F14PolicyLaws0.
  intros s hp HI. pose proof (inv_shift _ _ _ HI) as Hs. pose proof (nchunks_Z s Hs) as HN.
  revert j index. induction fuel as [|fuel IH]; intros j index Ht Hj Hf Hfree; [lia|].
  cbn [find_loop]. fold s. rewrite tries_left by done. case_bool_decide as Ej.
  { exists None. split; [done|]. intros [ci i] x Hin Hk.
    apply (Hfree ci); [|by exists i, x]. rewrite take_ge by (rewrite length_tour; lia).
    apply elem_of_tour; [done|]. apply elem_of_cells in Hin as (c & Hc & _).
    rewrite <- (inv_length _ _ _ HI). by eapply lookup_lt_Some. }
  rewrite (chunk_at_tour t hp j index) by done. fold s.
  assert (tour s hp !! j = Some (probe s hp j)) as Hlk by (apply tour_lookup; lia).
  set (k := probe s hp j) in *. pose proof (probe_lt s Hs hp j) as Hk. fold k in Hk.
  destruct (lookup_lt_is_Some_2 (chunks_ t) k) as [c Hc]; [by rewrite (inv_length _ _ _ HI)|].
  unfold load. rewrite Hc. cbn [mbind option_bind].
  destruct (find_chunk_spec s scale (chunks_ t) key k c HI Hc) as (r & Er & Hr).
  fold hp in Er. rewrite Er. cbn [mbind option_bind]. destruct r as [i|].
  { exists (Some (k, i)). split; [done|]. done. }
  assert (forall k', k' ∈ take (S j) (tour s hp) -> ~ has_key key (chunks_ t) k') as Hfree'.
  { intros k'. rewrite (take_S_r _ _ k) by done. rewrite elem_of_app, list_elem_of_singleton.
    intros [Hk'| ->]; auto. }
  destruct (Z.eqb_spec (outboundOverflowCount_ c) 0) as [Ho|Ho].
  - exists None. split; [done|]. intros [cf i] x Hin Hx.
    assert (has_key key (chunks_ t) cf) as Hcf by (by exists i, x).
    assert (cf < nchunks s)%nat as Hlt.
    { apply elem_of_cells in Hin as (c' & Hc' & _). rewrite <- (inv_length _ _ _ HI). by eapply lookup_lt_Some. }
    destruct (path_split s Hs hp cf Hlt) as [post Hp].
    assert (k ∈ path s hp cf) as Hkp.
    { destruct (decide (j < length (path s hp cf))%nat) as [Hjl|Hjl].
      - rewrite Hp, lookup_app_l in Hlk by done. by eapply list_elem_of_lookup_2.
      - exfalso. apply (Hfree' cf); [|done]. rewrite Hp, take_app_ge by lia. apply elem_of_app. right.
        destruct (S j - length (path s hp cf))%nat eqn:E; [lia|]. left. }
    pose proof (passed_outbound s Hs hp cf k c (entries (chunks_ t)) (inv_header _ _ _ HI _ _ Hc)) as Hge.
    assert (1 <= outboundOverflowCount_ c); [|lia]. apply Hge; [|done].
    apply list_elem_of_fmap. exists (cf, i, x). split; [|done]. unfold entry_of, hash_pair, computeItemHash. cbn.
    by rewrite Hx.
  - destruct (IH (S j) (u64 (index + probeDelta hp))) as (r & E & Hres); [by apply on_tour_next|lia|lia|done|].
    exists r. split; [|done]. rewrite <- E. f_equal. rewrite wrap_small; [lia|].
    unfold is_uint. assert (2 ^ s <= 2 ^ 63) by (apply Z.pow_le_mono_r; lia). lia.
Qed.

(** A search finds the item with the key, or there is none. *)
Lemma findImpl_inv scale key t :
  chunks_inv (chunkShift t) scale (chunks_ t) ->
  exists r, findImpl t (splitHash (computeKeyHash key)) key = Some r /\ find_result key (chunks_ t) r.
Proof using F14PolicyLaws0.
  intros HI. pose proof (inv_shift _ _ _ HI) as Hs. unfold findImpl.
  apply (find_loop_spec scale key _ 0); [done|apply on_tour_0|lia| |].
  - rewrite (inv_length _ _ _ HI). lia.
  - by intros k ?%not_elem_of_nil.
Qed.

Lemma emptyInstance_ok : chunk_ok (emptyInstance : F14Chunk Item).
Proof.
  constructor; cbn.
  - done.
  - by repeat constructor.
  - by unfold is_uint.
  - by unfold is_uint, kOutboundOverflowEmpty.
  - intros i tg _ Ht. left. change (replicate 14 0 !! i = Some tg) in Ht. by apply lookup_replicate in Ht as [-> _].
Qed.

(** The constant empty table has no items: its count says to go on, but there is one chunk. *)
Lemma findImpl_default hp key : is_tag hp.2 -> findImpl F14Table_default hp key = Some None.
Proof.
  intros Htag. unfold findImpl. cbn [find_loop F14Table_default chunks_ length].
  assert (chunk_at F14Table_default hp.1 = 0%nat) as ->.
  { unfold chunk_at. by rewrite moduloByChunkCount_spec, Z.mod_1_r. }
  cbn [load lookup list_lookup chunks_ F14Table_default mbind option_bind].
  assert (tagMatchIter hp.2 (emptyInstance : F14Chunk Item) = []) as ->.
  { unfold is_tag in Htag. rewrite tagMatchIter_spec; [|by apply emptyInstance_ok|unfold is_uint; lia].
    apply elem_of_nil_inv. intros i [Hi _]%list_elem_of_filter. unfold emptyInstance in Hi. cbn [tags_] in Hi.
    rewrite nth_lookup in Hi. destruct (replicate 14 0 !! i) eqn:E; cbn in Hi; [|lia].
    apply lookup_replicate in E as [-> _]. lia. }
  done.
Qed.
End Find.

(** ** Iterators *)

Section Iter.
Context {Item Key : Type} `{!SizeofItem Item} `{!F14Policy Item Key} `{!EqDecision Key}.
Implicit Types (t : F14Table Item) (c : F14Chunk Item) (cs : list (F14Chunk Item)) (x : Item).

Definition pos_lt (p q : nat * nat) : Prop := (p.1 < q.1)%nat \/ (p.1 = q.1 /\ (p.2 < q.2)%nat).

Lemma packed_lt_Some p q : packed_lt (Some p) (Some q) = true <-> pos_lt p q.
Proof.
  destruct p as [a b], q as [d e]. unfold packed_lt, pos_lt. cbn [fst snd].
  rewrite orb_true_iff, andb_true_iff, !Nat.ltb_lt, Nat.eqb_eq. done.
Qed.

Lemma packed_lt_false p q : packed_lt (Some p) (Some q) = false <-> ~ pos_lt p q.
Proof. rewrite <- packed_lt_Some. by destruct (packed_lt _ _). Qed.

(** The occupied slots. *)
Definition occ cs (p : nat * nat) : Prop := exists c, cs !! p.1 = Some c /\ p.2 ∈ slots c.

(** The position before [p]. *)
Definition prev_pos cs (p : nat * nat) (r : option (nat * nat)) : Prop :=
  match r with
  | Some q => occ cs q /\ pos_lt q p /\ forall q', occ cs q' -> pos_lt q' p -> ~ pos_lt q q'
  | None => forall q', occ cs q' -> ~ pos_lt q' p
  end.

(** Chunks that can be iterated: only the first is marked. *)
Definition iterable cs : Prop :=
  forall ci c, cs !! ci = Some c -> chunk_ok c /\ eof c = bool_decide (ci = 0%nat).

Lemma occupied_spec c i : chunk_ok c -> (i < kCapacity)%nat -> occupied i c = Some (full_slot c i).
Proof.
  intros Hok Hi. pose proof kCapacity_le. unfold occupied, full_slot, load.
  destruct (lookup_lt_is_Some_2 (tags_ c) i) as [tg Ht]; [rewrite (ok_length _ Hok); lia|].
  by rewrite Ht, (nth_lookup_Some _ _ _ _ Ht).
Qed.

Lemma previous_slot_spec c i :
  chunk_ok c -> (i <= kCapacity)%nat ->
  exists r, previous_slot c i = Some r /\
    match r with
    | Some j => (j < i)%nat /\ full_slot c j = true /\ forall k, (j < k < i)%nat -> full_slot c k = false
    | None => forall k, (k < i)%nat -> full_slot c k = false
    end.
Proof.
  intros Hok. induction i as [|i IH]; intros Hi; cbn [previous_slot].
  - exists None. split; [done|]. lia.
  - rewrite occupied_spec by (done || lia). cbn [mbind option_bind]. destruct (full_slot c i) eqn:Ef.
    + exists (Some i). split; [done|]. split; [lia|]. split; [done|]. lia.
    + destruct IH as (r & -> & Hr); [lia|]. exists r. split; [done|]. destruct r as [j|].
      * destruct Hr as (Hj & Hf & Hb). split; [lia|]. split; [done|]. intros k Hk.
        destruct (decide (k = i)) as [->|]; [done|]. apply Hb. lia.
      * intros k Hk. destruct (decide (k = i)) as [->|]; [done|]. apply Hr. lia.
Qed.

Lemma last_slots c j : last (slots c) = Some j -> j ∈ slots c /\ forall k, k ∈ slots c -> (k <= j)%nat.
Proof.
  intros Hl. split; [by apply last_Some_elem_of|]. unfold slots in *. revert Hl. generalize kCapacity.
  intros n. induction n as [|n IH]; [done|]. rewrite seq_S, filter_app. cbn [plus].
  destruct (full_slot c n) eqn:E; rewrite filter_cons, filter_nil; [rewrite decide_True by done|rewrite decide_False by congruence].
  - rewrite last_snoc. intros [= <-] k. rewrite elem_of_app, list_elem_of_singleton, list_elem_of_filter, elem_of_seq.
    intros [[_ Hk]| ->]; lia.
  - rewrite app_nil_r. apply IH.
Qed.

Lemma previous_chunks_spec t chk ci :
  iterable (chunks_ t) -> (ci < length (chunks_ t))%nat ->
  (chk = true \/ exists q, occ (chunks_ t) q /\ (q.1 < ci)%nat) ->
  exists r, previous_chunks t chk ci = Some r /\
    match r with
    | Some q => occ (chunks_ t) q /\ (q.1 < ci)%nat /\
        forall q', occ (chunks_ t) q' -> (q'.1 < ci)%nat -> ~ pos_lt q q'
    | None => forall q', occ (chunks_ t) q' -> (ci <= q'.1)%nat
    end.
Proof.
  intros HI. induction ci as [|ci IH]; intros Hlt Hchk; cbn [previous_chunks].
  - destruct (lookup_lt_is_Some_2 (chunks_ t) 0) as [c Hc]; [done|]. destruct (HI _ _ Hc) as [Hok He].
    unfold load. rewrite Hc. cbn [mbind option_bind]. rewrite He, bool_decide_true by done.
    destruct Hchk as [->|(q & _ & Hq)]; [|lia]. exists None. split; [done|]. intros. lia.
  - destruct (lookup_lt_is_Some_2 (chunks_ t) (S ci)) as [c Hc]; [done|]. destruct (HI _ _ Hc) as [_ He].
    unfold load. rewrite Hc. cbn [mbind option_bind]. rewrite He, bool_decide_false, andb_false_r by done.
    destruct (lookup_lt_is_Some_2 (chunks_ t) ci) as [d Hd]; [lia|]. destruct (HI _ _ Hd) as [Hok _].
    rewrite Hd. cbn [mbind option_bind]. rewrite lastOccupied_spec by done.
    destruct (last (slots d)) as [i|] eqn:El.
    + exists (Some (ci, i)). split; [done|]. apply last_slots in El as [Hi Hmax]. split; [by exists d|]. split; [cbn; lia|].
      intros [ck k] (d' & Hd' & Hk) Hck. cbn in *. unfold pos_lt. cbn. intros [?|[<- Hik]]; [lia|].
      replace d' with d in * by congruence. apply Hmax in Hk. lia.
    + apply last_None in El.
      assert (forall q, occ (chunks_ t) q -> q.1 <> ci) as Hne.
      { intros q (d' & Hd' & Hq) E. rewrite E in Hd'. replace d' with d in * by congruence. rewrite El in Hq. by apply not_elem_of_nil in Hq. }
      destruct IH as (r & -> & Hr); [lia| |].
      { destruct Hchk as [->|(q & Hq & Hlq)]; [by left|right]. exists q. split; [done|]. apply Hne in Hq. lia. }
      exists r. split; [done|]. destruct r as [q|].
      * destruct Hr as (Hq & Hl & Hm). split; [done|]. split; [lia|]. intros q' Hq' Hl'. apply Hm; [done|].
        apply Hne in Hq'. lia.
      * intros q' Hq'. specialize (Hr q' Hq'). apply Hne in Hq'. lia.
Qed.

Lemma advanceImpl_spec t chk p :
  iterable (chunks_ t) -> (p.1 < length (chunks_ t))%nat -> (p.2 < kCapacity)%nat ->
  (chk = true \/ exists q, occ (chunks_ t) q /\ pos_lt q p) ->
  exists r, advanceImpl t chk p = Some r /\ prev_pos (chunks_ t) p r.
Proof.
  intros HI Hlt Hk Hchk. destruct p as [ci i]. cbn [fst snd] in Hlt, Hk. unfold advanceImpl, load. cbn [fst snd].
  destruct (lookup_lt_is_Some_2 (chunks_ t) ci) as [c Hc]; [done|]. destruct (HI _ _ Hc) as [Hok _].
  rewrite Hc. cbn [mbind option_bind]. destruct (previous_slot_spec c i Hok) as (r & -> & Hr); [lia|].
  cbn [mbind option_bind]. destruct r as [j|].
  - exists (Some (ci, j)). split; [done|]. destruct Hr as (Hj & Hf & Hb). split; [|split].
    + exists c. split; [done|]. apply elem_of_slots. cbn [fst snd]. split; [lia|done].
    + right. split; [done|]. cbn. lia.
    + intros [ck k] (c' & Hc' & Hk') Hlt1 Hlt2. unfold pos_lt in *. cbn in *.
      assert (ck = ci) as -> by lia. replace c' with c in * by congruence. apply elem_of_slots in Hk' as [_ Hk'].
      rewrite Hb in Hk' by lia. done.
  - assert (forall q, occ (chunks_ t) q -> pos_lt q (ci, i) -> (q.1 < ci)%nat) as Hbelow.
    { intros [ck k] (c' & Hc' & Hk') Hlt'. unfold pos_lt in Hlt'. cbn in *. destruct Hlt' as [|[-> Hki]]; [done|].
      replace c' with c in * by congruence. apply elem_of_slots in Hk' as [_ Hk']. by rewrite Hr in Hk' by lia. }
    destruct (previous_chunks_spec t chk ci HI Hlt) as (r & E & Hr').
    { destruct Hchk as [->|(q & Hq & Hlq)]; [by left|right]. exists q. auto. }
    exists r. split; [done|]. destruct r as [q|]; cbn.
    + destruct Hr' as (Hq & Hl & Hm). split; [done|]. split; [by left|]. intros q' Hq' Hlq'. apply Hm; [done|auto].
    + intros q' Hq' Hlq'. specialize (Hr' q' Hq'). specialize (Hbelow q' Hq' Hlq'). lia.
Qed.
End Iter.
