(* ===== verification/F14Update.v ===== *)
(** Inserting into and erasing from F14 tables with room: [emplace], [insertAtBlank],
    [eraseBlank] and [eraseImpl] keep the invariant and change one cell. *)
From S2P Require Import Prelude Sse F14Mask F14Chunk F14Table F14Probe F14Inv F14Find.

Section Update.
Context {Item Key : Type} `{!SizeofItem Item} `{!F14Policy Item Key} `{!EqDecision Key}.
Context `{!F14PolicyLaws Item Key}.
Implicit Types (t : F14Table Item) (c : F14Chunk Item) (cs : list (F14Chunk Item)) (x : Item).

(** ** Writing to a chunk *)

Lemma update_chunk_spec ci f c c' t :
  chunks_ t !! ci = Some c -> outboundOverflowCount_ c <= 254 -> f c = Some c' ->
  update_chunk ci f t = Some (set_chunks (<[ci := c']> (chunks_ t)) t).
Proof.
  intros Hc Ho Hf. unfold update_chunk, load. rewrite Hc. cbn [mbind option_bind].
  rewrite writable_le by done. rewrite Hf. cbn [mbind option_bind].
  by rewrite store_in_bounds by (by eapply lookup_lt_Some).
Qed.

Definition with_tag (i : nat) (tg : Z) c : F14Chunk Item :=
  mkChunk (<[i := tg]> (tags_ c)) (control_ c) (outboundOverflowCount_ c) (rawItems_ c).

Lemma setTag_spec i tg c :
  chunk_ok c -> (i < kCapacity)%nat -> full_slot c i = false -> is_tag tg ->
  setTag i tg c = Some (with_tag i tg c).
Proof.
  intros Hok Hi Hf Htag. pose proof kCapacity_le. unfold setTag, load, full_slot in *.
  destruct (lookup_lt_is_Some_2 (tags_ c) i) as [old Ho]; [rewrite (ok_length _ Hok); lia|].
  rewrite (nth_lookup_Some _ _ _ _ Ho) in Hf. rewrite Ho. cbn [mbind option_bind].
  apply negb_false_iff in Hf. rewrite Hf, store_in_bounds by (by eapply lookup_lt_Some).
  cbn [mbind option_bind]. rewrite wrap_small; [done|]. unfold is_uint, is_tag in *. lia.
Qed.

Lemma clearTag_spec i tg c :
  tags_ c !! i = Some tg -> is_tag tg -> clearTag i c = Some (with_tag i 0 c).
Proof.
  intros Ht Htag. unfold clearTag, load. rewrite Ht. cbn [mbind option_bind].
  assert (is_byte tg) as Hb by (unfold is_tag, is_uint in *; lia).
  pose proof (testbit_7 tg Hb) as H7.
  rewrite (proj2 (Z.eqb_neq _ _)); cbn [negb].
  - by rewrite store_in_bounds by (by eapply lookup_lt_Some).
  - intros E. assert (Z.testbit (tg .& 0x80) 7 = true) as Hbit; [|by rewrite E in Hbit].
    rewrite Z.land_spec, H7. unfold is_tag in Htag. rewrite (proj2 (Z.leb_le _ _)) by lia. done.
Qed.

Lemma set_item_spec i (ox : option Item) c :
  (i < length (rawItems_ c))%nat ->
  set_item i ox c = Some (mkChunk (tags_ c) (control_ c) (outboundOverflowCount_ c) (<[i := ox]> (rawItems_ c))).
Proof. intros Hi. unfold set_item. by rewrite store_in_bounds. Qed.

(** ** Undoing an entry *)

Lemma alter_adjust_0 s cs L cf :
  header_inv s cs L -> alter (adjustHostedOverflowCount 0) cf cs = cs.
Proof.
  intros HI. apply list_eq. intros k. destruct (decide (k = cf)) as [->|Hne].
  - rewrite list_lookup_alter_eq. destruct (cs !! cf) as [c|] eqn:Hc; [|done]. cbn.
    by rewrite adjust_0 by by destruct (HI _ _ Hc).
  - by rewrite list_lookup_alter_ne by congruence.
Qed.

Lemma leave_nil s hp cf cs L : header_inv s cs L -> path s hp cf = [] -> leave s hp cf cs = cs.
Proof. intros HI Hp. unfold leave. rewrite Hp, decide_True by done. by eapply alter_adjust_0. Qed.

Lemma enter_nil s hp cf cs L : header_inv s cs L -> path s hp cf = [] -> enter s hp cf cs = cs.
Proof. intros HI Hp. unfold enter. rewrite Hp, decide_True by done. by eapply alter_adjust_0. Qed.

Lemma header_with_tag s cs L ci c i tg :
  header_inv s cs L -> cs !! ci = Some c -> header_inv s (<[ci := with_tag i tg c]> cs) L.
Proof.
  intros HI Hc cj d Hd. pose proof (lookup_lt_Some _ _ _ Hc). destruct (decide (cj = ci)) as [->|Hne].
  - rewrite list_lookup_insert_eq in Hd by done. injection Hd as <-. by destruct (HI _ _ Hc).
  - rewrite list_lookup_insert_ne in Hd by congruence. auto.
Qed.

(** [eraseBlank] takes the tag away and the entry out of the counts; it does not need the hash of an
    entry that no chunk overflowed to. *)
Lemma eraseBlank_spec t cf c i tg hp hp' L :
  0 <= chunkShift t < 64 -> length (chunks_ t) = nchunks (chunkShift t) ->
  header_inv (chunkShift t) (chunks_ t) ((cf, hp) :: L) ->
  chunks_ t !! cf = Some c -> tags_ c !! i = Some tg -> is_tag tg ->
  (hostedOverflowCount c = 0 \/ hp' = hp) ->
  eraseBlank (cf, i) hp' t =
    Some (set_chunks (leave (chunkShift t) hp cf (<[cf := with_tag i 0 c]> (chunks_ t))) t).
Proof.
  intros Hs Hl HI Hc Ht Htag Hhp. set (s := chunkShift t) in *.
  assert (cf < nchunks s)%nat as Hcf by (rewrite <- Hl; by eapply lookup_lt_Some).
  destruct (HI _ _ Hc) as [Hctl Hh Hr _]. unfold eraseBlank. cbn [fst snd].
  rewrite (update_chunk_spec cf _ c (with_tag i 0 c)) by (lia || done || by eapply clearTag_spec).
  cbn [mbind option_bind]. set (cs1 := <[cf := with_tag i 0 c]> (chunks_ t)).
  assert (header_inv s cs1 ((cf, hp) :: L)) as HI1 by by apply header_with_tag.
  assert (cs1 !! cf = Some (with_tag i 0 c)) as Hc1.
  { apply list_lookup_insert_eq. by eapply lookup_lt_Some. }
  cbn [set_chunks chunks_]. unfold load. rewrite Hc1. cbn [mbind option_bind].
  change (hostedOverflowCount (with_tag i 0 c)) with (hostedOverflowCount c).
  rewrite hosted_count_cons in Hh.
  destruct (Z.eqb_spec (hostedOverflowCount c) 0) as [H0|H0]; cbn [negb].
  - rewrite (leave_nil s hp cf cs1 _ HI1); [done|]. destruct (decide (path s hp cf = [])) as [|Hne]; [done|].
    rewrite decide_True in Hh by done. lia.
  - destruct Hhp as [?| ->]; [done|]. destruct (path_split s Hs hp cf Hcf) as [post Hp].
    rewrite (erase_probe_spec _ cf hp (path s hp cf) post 0); cbn [set_chunks chunks_]; try done.
    + apply on_tour_0.
    + apply path_not_self.
    + by apply path_NoDup.
    + exists (with_tag i 0 c). split; [done|]. apply writable_le. cbn. lia.
    + intros k Hk. pose proof (path_lt s Hs _ _ _ Hk) as Hlt.
      destruct (lookup_lt_is_Some_2 cs1 k) as [d Hd]; [unfold cs1; by rewrite length_insert, Hl|].
      exists d. split; [done|]. pose proof (HI1 _ _ Hd) as Hd'. pose proof (header_range _ _ _ _ Hd').
      assert (1 <= outboundOverflowCount_ d); [|lia].
      apply (passed_outbound s Hs hp cf k d _ Hd'); [left|done].
    + assert (length (path s hp cf) <= nchunks s)%nat; [|unfold cs1; rewrite length_insert, Hl; lia].
      rewrite <- (length_tour s hp), Hp, length_app. lia.
Qed.

(** ** Room *)

Lemma length_cells_from n cs :
  (forall c, c ∈ cs -> length (slots c) = kCapacity /\ forall i, i ∈ slots c -> exists x, item i c = Some x) ->
  length (cells_from n cs) = (length cs * kCapacity)%nat.
Proof.
  revert n. induction cs as [|c cs IH]; intros n H; cbn [cells_from length]; [done|].
  destruct (H c) as [Hl Hi]; [left|]. rewrite length_app, length_row, Hl, IH by done || (intros; apply H; by right).
  lia.
Qed.

(** Some chunk is not full when there are fewer items than slots. *)
Lemma free_chunk s scale cs :
  chunks_inv s scale cs -> (length (cells cs) < nchunks s * kCapacity)%nat ->
  exists k, (k < nchunks s)%nat /\ exists c, cs !! k = Some c /\ (length (slots c) < kCapacity)%nat.
Proof.
  intros HI Hlt. destruct (decide (Exists (fun c => (length (slots c) < kCapacity)%nat) cs)) as [He|Hn].
  - apply Exists_exists in He as (c & Hin & Hc). apply list_elem_of_lookup in Hin as [k Hk].
    exists k. split; [rewrite <- (inv_length _ _ _ HI); by eapply lookup_lt_Some|]. by exists c.
  - exfalso. unfold cells in Hlt. rewrite length_cells_from in Hlt.
    + rewrite (inv_length _ _ _ HI) in Hlt. lia.
    + intros c Hin. split.
      * apply not_Exists_Forall in Hn; [|apply _]. rewrite Forall_forall in Hn. specialize (Hn c Hin).
        cbn in Hn. pose proof (slots_total c). lia.
      * intros i Hi. apply list_elem_of_lookup in Hin as [k Hk].
        destruct (inv_item _ _ _ (inv_chunk _ _ _ HI _ _ Hk) i Hi) as (x & ? & _). by exists x.
Qed.

Lemma firstEmpty_full c : chunk_ok c -> firstEmpty c = None <-> (kCapacity <= length (slots c))%nat.
Proof.
  intros Hok. rewrite firstEmpty_spec by done. pose proof (slots_total c) as Ht.
  destruct (empty_slots c); cbn in *; split; (done || lia).
Qed.

Lemma filter_seq_head (P : nat -> Prop) `{!forall i, Decision (P i)} a n i :
  head (filter P (seq a n)) = Some i -> (a <= i < a + n)%nat /\ P i /\ forall j, (a <= j < i)%nat -> ~ P j.
Proof.
  revert a. induction n as [|n IH]; intros a; [done|]. cbn [seq]. rewrite filter_cons.
  destruct (decide (P a)) as [Ha|Ha].
  - intros [= <-]. split; [lia|]. split; [done|]. lia.
  - intros (Hi & HP & Hlt)%IH. split; [lia|]. split; [done|]. intros j Hj.
    destruct (decide (j = a)) as [->|]; [done|]. apply Hlt. lia.
Qed.

(** The first empty slot comes after full ones only. *)
Lemma firstEmpty_le c i :
  chunk_ok c -> firstEmpty c = Some i ->
  (i < kCapacity)%nat /\ full_slot c i = false /\ (i <= length (slots c))%nat.
Proof.
  intros Hok Hi. rewrite firstEmpty_spec in Hi by done. apply filter_seq_head in Hi as (Hk & Hf & Hlt).
  split; [lia|]. split; [done|]. rewrite <- (length_seq i 0). apply submseteq_length, NoDup_submseteq; [apply NoDup_seq|].
  intros j Hj%elem_of_seq. apply elem_of_slots. split; [lia|]. specialize (Hlt j). destruct (full_slot c j); [done|].
  exfalso. apply Hlt; [lia|done].
Qed.

(** ** Inserting *)

Lemma table_scale_eq s scale t : chunks_inv s scale (chunks_ t) -> table_scale t = scale.
Proof.
  intros HI. pose proof (inv_scale _ _ _ HI) as Hsc. unfold table_scale.
  destruct (chunks_ t); cbn in Hsc; [done|]. congruence.
Qed.

Lemma computeCapacity_1 scale : is_u64 scale -> computeCapacity 1 scale = scale.
Proof.
  intros H. unfold computeCapacity. change (u64 (1 - 1)) with 0. rewrite Z.shiftr_0_l.
  change (u64 (0 + 1)) with 1. rewrite Z.mul_1_l. by apply wrap_small.
Qed.

Lemma capacity_single scale : scale_ok 0 scale -> computeCapacity (2 ^ 0) scale = scale.
Proof.
  intros [Hp H1 _ _ _ _]. specialize (H1 eq_refl). pose proof kCapacity_le. apply computeCapacity_1.
  unfold is_uint. lia.
Qed.

Lemma capacity_room s scale n :
  0 <= s < 64 -> scale_ok s scale -> n < computeCapacity (2 ^ s) scale -> n < Z.of_nat (nchunks s * kCapacity).
Proof.
  intros Hs Hok Hn. pose proof (nchunks_Z s Hs) as HN. pose proof kCapacity_le.
  destruct (decide (s = 0)) as [->|Hne].
  - rewrite capacity_single in Hn by done. pose proof (scale_single _ _ Hok eq_refl). change (nchunks 0) with 1%nat. lia.
  - pose proof (scale_multi _ _ Hok Hne) as Hm. unfold kDesiredCapacity in Hm. pose proof (pow_s_pos s Hs). nia.
Qed.

Lemma slots_le_cells s scale cs ci c :
  chunks_inv s scale cs -> cs !! ci = Some c -> (length (slots c) <= length (cells cs))%nat.
Proof.
  intros HI Hc. rewrite <- (length_row ci).
  - apply submseteq_length, NoDup_submseteq; [apply row_NoDup|]. intros [[cj i] x] (-> & Hi & Hx)%elem_of_row.
    apply elem_of_cells. by exists c.
  - intros i Hi. destruct (inv_item _ _ _ (inv_chunk _ _ _ HI _ _ Hc) i Hi) as (x & ? & _). by exists x.
Qed.

(** A slot up to the number of full ones is within the chunk. *)
Lemma slot_room s scale cs ci c i :
  chunks_inv s scale cs -> scale_ok s scale -> cs !! ci = Some c ->
  Z.of_nat (length (cells cs)) < computeCapacity (2 ^ s) scale ->
  (i < kCapacity)%nat -> (i <= length (slots c))%nat -> (i < room s scale)%nat.
Proof.
  intros HI Hok Hc Hn Hk Hi. unfold room. destruct (Z.eqb_spec s 0) as [->|]; [|done].
  rewrite capacity_single in Hn by done. pose proof (slots_le_cells _ _ _ _ _ HI Hc). lia.
Qed.

Lemma room_le s scale : scale_ok s scale -> (room s scale <= kCapacity)%nat.
Proof.
  intros Hok. unfold room. destruct (Z.eqb_spec s 0) as [->|]; [|done]. pose proof (scale_single _ _ Hok eq_refl). lia.
Qed.

Lemma emplace_probe_inv scale hp t :
  let s := chunkShift t in
  chunks_inv s scale (chunks_ t) -> (length (cells (chunks_ t)) < nchunks s * kCapacity)%nat ->
  exists cf c i, chunks_ t !! cf = Some c /\ firstEmpty c = Some i /\
    emplace_probe (S (length (chunks_ t))) hp hp.1 false t = Some (cf, i, set_chunks (enter s hp cf (chunks_ t)) t).
Proof.
  intros s HI Hlt. pose proof (inv_shift _ _ _ HI) as Hs. set (cs := chunks_ t) in *.
  set (free k := match cs !! k with Some c => bool_decide (length (slots c) < kCapacity)%nat | None => false end).
  destruct (tour_first s Hs hp (fun k => free k = true)) as (pre & cf & post & Ht & Hfree & Hpre).
  { destruct (free_chunk s scale cs HI Hlt) as (k & Hk & c & Hc & Hsl). exists k. split; [done|].
    unfold free. rewrite Hc. by apply bool_decide_eq_true. }
  unfold free in Hfree. destruct (cs !! cf) as [c|] eqn:Hc; [|done]. apply bool_decide_eq_true in Hfree.
  pose proof (inv_ok _ _ _ (inv_chunk _ _ _ HI _ _ Hc)) as Hok. destruct (inv_header _ _ _ HI _ _ Hc) as [Hctl _ Hr _].
  destruct (firstEmpty c) as [i|] eqn:Hi; [|apply firstEmpty_full in Hi; [lia|done]].
  exists cf, c, i. split; [done|]. split; [done|]. pose proof (path_app s Hs hp _ _ _ Ht) as Hp.
  pose proof (tour_NoDup s Hs hp) as Hnd. rewrite Ht in Hnd. apply NoDup_app in Hnd as (Hnd & Hdis & _).
  rewrite (emplace_probe_spec _ hp pre cf post 0 _ _ i c); try done.
  - cbn [orb]. do 3 f_equal. case_bool_decide as Hn; cbn [negb].
    + rewrite Hn in *. cbn [along foldl]. unfold id. symmetry. eapply enter_nil; [by apply (inv_header _ _ _ HI)|done].
    + unfold enter. by rewrite Hp, decide_False.
  - apply on_tour_0.
  - intros Hin. apply (Hdis _ Hin). left.
  - apply writable_le. lia.
  - intros k Hk. rewrite Forall_forall in Hpre. specialize (Hpre k Hk). unfold free in Hpre.
    assert (k < nchunks s)%nat as Hlk by (apply (elem_of_tour s Hs hp); rewrite Ht; apply elem_of_app; by left).
    destruct (lookup_lt_is_Some_2 cs k) as [d Hd]; [by rewrite (inv_length _ _ _ HI)|].
    exists d. split; [done|]. destruct (inv_header _ _ _ HI _ _ Hd) as [_ _ Hrd _]. split; [done|].
    rewrite Hd in Hpre. apply firstEmpty_full; [by apply (inv_ok _ _ _ (inv_chunk _ _ _ HI _ _ Hd))|].
    case_bool_decide; [done|lia].
  - fold cs. rewrite (inv_length _ _ _ HI), <- (length_tour s hp), Ht, length_app. cbn. lia.
Qed.

Lemma first_chunk_scale s scale t :
  chunks_inv s scale (chunks_ t) -> exists c, first_chunk t = Some c /\ capacityScale c = scale.
Proof.
  intros HI. pose proof (inv_scale _ _ _ HI) as Hsc. apply fmap_Some in Hsc as (c & Hc & ->). by exists c.
Qed.

(** The slot that a debug build picks is free too. *)
Lemma perturb_spec draw c i scale t :
  0 <= chunkShift t < 64 -> scale_ok (chunkShift t) scale ->
  (exists c0, first_chunk t = Some c0 /\ capacityScale c0 = scale) ->
  chunk_ok c -> (i < room (chunkShift t) scale)%nat -> full_slot c i = false ->
  exists i', debugModePerturbSlotInsertOrder draw c i t = Some i' /\
    (i' < room (chunkShift t) scale)%nat /\ full_slot c i' = false.
Proof.
  intros Hs Hok (c0 & Hc0 & Hsc) Hc Hi Hf. pose proof (room_le _ _ Hok) as Hrk.
  unfold debugModePerturbSlotInsertOrder. destruct (slotRandom draw) as [n|]; [|by exists i].
  assert ((if chunkShift t =? 0 then bc ← bucket_count t; Some (Z.to_nat bc) else Some kCapacity)
          = Some (room (chunkShift t) scale)) as ->.
  { unfold room. destruct (Z.eqb_spec (chunkShift t) 0) as [E|E]; [|done].
    unfold bucket_count. rewrite Hc0. cbn [mbind option_bind]. rewrite Hsc, chunkCount_pow by lia.
    rewrite E in *. by rewrite capacity_single. }
  cbn [mbind option_bind]. set (e := room _ _) in *.
  assert (n mod (e - i) < e - i)%nat by (apply Nat.mod_upper_bound; lia).
  rewrite occupied_spec by (done || lia). cbn [mbind option_bind].
  destruct (full_slot c (i + n mod (e - i))) eqn:E; [by exists i|]. exists (i + n mod (e - i))%nat.
  split; [done|]. split; [lia|done].
Qed.

Lemma with_tag_back i tg c : tags_ c !! i = Some 0 -> with_tag i 0 (with_tag i tg c) = c.
Proof. intros Ht. destruct c. cbn in *. unfold with_tag. cbn. f_equal. by rewrite list_insert_insert_eq, list_insert_id. Qed.

(** Taking back an entry that was only counted. *)
Lemma undo_inv s scale hp cf cs :
  chunks_inv s scale cs -> header_inv s (enter s hp cf cs) ((cf, hp) :: entries cs) -> (cf < length cs)%nat ->
  let cs' := leave s hp cf (enter s hp cf cs) in chunks_inv s scale cs' /\ cells cs' = cells cs.
Proof.
  intros HI Hh Hcf cs'. assert (body <$> cs' = body <$> cs) as Eb by (unfold cs'; by rewrite leave_body, enter_body).
  pose proof (cells_body _ _ Eb) as Ecells. split; [|done]. pose proof (inv_shift _ _ _ HI).
  assert (header_inv s cs' (entries cs)) as Hhl by (apply leave_inv; [done|done|by rewrite <- (inv_length _ _ _ HI)]).
  destruct (bodies_inv s scale cs _ _ Eb Hhl) as [? ?]; [by apply (inv_chunk _ _ _ HI)|by apply (inv_scale _ _ _ HI)|].
  constructor; [done| |done|done|unfold entries; by rewrite Ecells].
  by rewrite <- (length_fmap body), Eb, length_fmap, (inv_length _ _ _ HI).
Qed.

Lemma tag_zero c i : chunk_ok c -> (i < kCapacity)%nat -> full_slot c i = false -> tags_ c !! i = Some 0.
Proof.
  intros Hok Hi Hf. pose proof kCapacity_le. unfold full_slot in Hf.
  destruct (lookup_lt_is_Some_2 (tags_ c) i) as [tg Htg]; [rewrite (ok_length _ Hok); lia|].
  rewrite (nth_lookup_Some _ _ _ _ Htg) in Hf. apply negb_false_iff, Z.eqb_eq in Hf. by subst.
Qed.

(** [insertAtBlank] at a slot whose tag is set and counted: the new cell, or the exception of the
    constructor and the same cells. *)
Lemma insertAtBlank_spec hp args scale cf i c c1 t :
  let s := chunkShift t in
  let cs1 := enter s hp cf (chunks_ t) in
  chunks_inv s scale (chunks_ t) -> is_tag hp.2 -> header_inv s cs1 ((cf, hp) :: entries (chunks_ t)) ->
  chunks_ t !! cf = Some c -> full_slot c i = false -> cs1 !! cf = Some c1 -> chunk_inv (room s scale) cf c1 ->
  (i < room s scale)%nat -> (i < kCapacity)%nat ->
  (forall x, args = Ok x -> path s hp cf = path s (hash_pair x) cf /\ hp.2 = (hash_pair x).2) ->
  exists cs', chunks_inv s scale cs' /\
    let res := insertAtBlank (cf, i) hp args (set_chunks (<[cf := with_tag i hp.2 c1]> cs1) t) in
    match args with
    | Ok x => res = Some (adjustSizeAndBeginAfterInsert (cf, i) (set_chunks cs' t), Ok tt) /\
        cs' = <[cf := put i hp.2 x c1]> cs1 /\ cells cs' ≡ₚ (cf, i, x) :: cells (chunks_ t)
    | Err e => res = Some (set_chunks cs' t, Err e) /\ cells cs' = cells (chunks_ t)
    end.
Proof using F14PolicyLaws0.
  intros s cs1 HI Htag Hh Hc Hf Hc1 Hci1 Hir Hik Hargs. pose proof (inv_shift _ _ _ HI) as Hs. set (cs := chunks_ t) in *.
  pose proof (enter_body s hp cf cs) as Eb. fold cs1 in Eb. destruct (Hh _ _ Hc1) as [_ _ Hr1 _].
  destruct (lookup_body _ _ _ _ (eq_sym Eb) Hc) as (d & Hd & Ec). replace d with c1 in Ec by congruence. clear d Hd.
  assert (full_slot c1 i = false) as Hf1 by (rewrite <- Hf; unfold full_slot; injection Ec as -> _ _; done).
  assert (tags_ c1 !! i = Some 0) as Ht0 by (by apply tag_zero; [apply Hci1|..]).
  pose proof (lookup_lt_Some _ _ _ Hc1) as Hlt1. cbn zeta. unfold insertAtBlank. cbn [fst snd]. destruct args as [x|e].
  - destruct (Hargs x eq_refl) as [Hpath Htg].
    destruct (place_inv s scale cs cf c c1 i x hp HI Hc Hik Hir Hf Hpath Hc1) as [HI' Hcells]. rewrite <- Htg in HI', Hcells.
    eexists. split; [exact HI'|]. split; [|done].
    rewrite (update_chunk_spec cf _ (with_tag i hp.2 c1) (put i hp.2 x c1)); cbn [set_chunks chunks_].
    + by rewrite list_insert_insert_eq.
    + by apply list_lookup_insert_eq.
    + cbn; lia.
    + apply set_item_spec. cbn. by rewrite (inv_room _ _ _ Hci1).
  - exists (leave s hp cf cs1). destruct (undo_inv s scale hp cf cs HI Hh) as [HI' Hcells]; [by eapply lookup_lt_Some|].
    split; [done|]. split; [|done].
    rewrite (eraseBlank_spec _ cf (with_tag i hp.2 c1) i hp.2 hp hp (entries cs)); cbn [set_chunks chunks_]; try done.
    + cbn [mbind option_bind]. by rewrite list_insert_insert_eq, with_tag_back, (list_insert_id _ _ c1) by done.
    + rewrite length_insert. by rewrite <- (length_fmap body), Eb, length_fmap, (inv_length _ _ _ HI).
    + by apply header_with_tag.
    + by apply list_lookup_insert_eq.
    + cbn. apply list_lookup_insert_eq. by eapply lookup_lt_Some.
    + by right.
Qed.

(** [emplace] in a table with room: the new cell, or the exception of the constructor and the
    same cells. *)
Lemma emplace_spec draw hp args scale t :
  let s := chunkShift t in
  chunks_inv s scale (chunks_ t) -> scale_ok s scale -> is_tag hp.2 ->
  Z.of_nat (length (cells (chunks_ t))) < computeCapacity (2 ^ s) scale ->
  (forall x, args = Ok x -> hash_pair x = hp) ->
  exists cs' pos, chunks_inv s scale cs' /\
    match args with
    | Ok x => emplace hp draw args t = Some (adjustSizeAndBeginAfterInsert pos (set_chunks cs' t), Ok pos) /\
        cells cs' ≡ₚ (pos, x) :: cells (chunks_ t)
    | Err e => emplace hp draw args t = Some (set_chunks cs' t, Err e) /\ cells cs' = cells (chunks_ t)
    end.
Proof using F14PolicyLaws0.
  intros s HI Hok Htag Hn Hargs. pose proof (inv_shift _ _ _ HI) as Hs.
  destruct (emplace_probe_inv scale hp t) as (cf & c & i0 & Hc & Hi0 & Hprobe); [done| |].
  { apply (capacity_room s scale) in Hn; [|done|done]. unfold s in Hn. lia. }
  fold s in Hprobe. set (cs := chunks_ t) in *. pose proof (inv_ok _ _ _ (inv_chunk _ _ _ HI _ _ Hc)) as Hcok.
  destruct (firstEmpty_le c i0 Hcok Hi0) as (Hik & Hf & Hle).
  destruct (enter_chunks s scale hp cf cs c i0 HI Hc Hik Hf) as (Hh & Hch & Hsc).
  set (cs1 := enter s hp cf cs) in *. pose proof (enter_body s hp cf cs) as Eb. fold cs1 in Eb.
  destruct (lookup_body _ _ _ _ (eq_sym Eb) Hc) as (c1 & Hc1 & Ec).
  pose proof (Hch _ _ Hc1) as Hci1. pose proof (inv_ok _ _ _ Hci1) as Hok1.
  assert (forall i, full_slot c1 i = full_slot c i) as Hfs by (intros i; unfold full_slot; injection Ec as -> _ _; done).
  destruct (perturb_spec draw c1 i0 scale (set_chunks cs1 t)) as (i & Hdraw & Hir & Hf1); try done.
  { apply fmap_Some in Hsc as (d & Hd & ->). by exists d. }
  { by apply (slot_room s scale cs cf c). }
  { by rewrite Hfs. }
  change (chunkShift (set_chunks cs1 t)) with s in Hir. pose proof (room_le s scale Hok) as Hrk.
  assert (tags_ c1 !! i = Some 0) as Ht0 by (apply tag_zero; (done || lia)).
  destruct (Hh _ _ Hc1) as [_ _ Hr1 _].
  assert (exists t2, t2 = set_chunks (<[cf := with_tag i hp.2 c1]> cs1) t /\
    emplace hp draw args t =
      '(t, r) ← insertAtBlank (cf, i) hp args t2; Some (t, match r with Ok _ => Ok (cf, i) | Err e => Err e end))
    as (t2 & Ht2 & ->).
  { eexists. split; [done|]. unfold emplace. fold cs. rewrite Hprobe. cbn [mbind option_bind].
    unfold load. cbn [set_chunks chunks_]. rewrite Hc1. cbn [mbind option_bind]. rewrite Hdraw. cbn [mbind option_bind].
    rewrite (update_chunk_spec cf _ c1 (with_tag i hp.2 c1)); [done|done|lia|].
    apply setTag_spec; [done|lia|done|done]. }
  destruct (insertAtBlank_spec hp args scale cf i c c1 t) as (cs' & HI' & Hres); try done.
  { by rewrite <- Hfs. } { lia. } { intros x Ex. by rewrite (Hargs x Ex). }
  fold s cs cs1 in Hres. rewrite <- Ht2 in Hres. exists cs', (cf, i). split; [done|]. destruct args as [x|e].
  - destruct Hres as (-> & _ & Hcells). done.
  - destruct Hres as (-> & Hcells). done.
Qed.

(** ** Insertion and erasure of tables *)

Lemma begin_insert b l p :
  begin_inv b l -> begin_inv (if packed_lt b (Some p) then Some p else b) (p :: l).
Proof.
  destruct b as [q|]; cbn [begin_inv].
  - intros [Hq Hmax]. destruct (packed_lt (Some q) (Some p)) eqn:E; cbn [begin_inv].
    + split; [left|]. intros r [->|Hr]%elem_of_cons; rewrite packed_lt_false in *.
      * unfold pos_lt. lia.
      * specialize (Hmax r Hr). rewrite packed_lt_false in Hmax. rewrite packed_lt_Some in E.
        unfold pos_lt in *. lia.
    + split; [by right|]. intros r [->|Hr]%elem_of_cons; auto.
  - intros ->. change (packed_lt None (Some p)) with true. cbn iota. split; [left|]. intros r [->|Hr]%elem_of_cons.
    + apply packed_lt_false. unfold pos_lt. lia.
    + by apply not_elem_of_nil in Hr.
Qed.

Lemma begin_perm b l l' : l ≡ₚ l' -> begin_inv b l -> begin_inv b l'.
Proof.
  intros E. destruct b as [p|]; cbn [begin_inv]; [by setoid_rewrite E|].
  intros ->. by apply Permutation_nil.
Qed.

Lemma size_lt_56 t : table_inv t -> is_uint 56 (size_ t).
Proof. intros HI. apply size_uint, (inv_packed _ HI). Qed.

(** The table after [emplace]. *)
Lemma table_insert cs' pos x t :
  table_inv t -> chunks_inv (chunkShift t) (table_scale t) cs' -> cells cs' ≡ₚ (pos, x) :: cells (chunks_ t) ->
  size_ t < capacity t -> keyForItem x ∉ keyForItem <$> contents t ->
  let t' := adjustSizeAndBeginAfterInsert pos (set_chunks cs' t) in
  table_inv t' /\ cells (chunks_ t') ≡ₚ (pos, x) :: cells (chunks_ t) /\ capacity t' = capacity t.
Proof.
  intros HI HI' Hcells Hlt Hkey t'. set (t1 := set_chunks cs' t) in *.
  set (t2 := if kEnableItemIteration && packed_lt (packedBegin_ t1) (Some pos) then set_begin (Some pos) t1 else t1).
  assert (t' = setSize (u64 (size_ t + 1)) t2) as Et.
  { subst t' t2. unfold adjustSizeAndBeginAfterInsert, incrementSize. by destruct (kEnableItemIteration && _). }
  pose proof (size_lt_56 t HI) as Hsz. unfold is_uint in Hsz.
  assert (u64 (size_ t + 1) = size_ t + 1) as Eu by (apply wrap_small; unfold is_uint; lia). rewrite Eu in Et.
  assert (is_uint 56 (size_ t + 1)) as Hsz'.
  { pose proof (scale_max _ _ (inv_scale_ok _ HI)) as Hm. unfold kMaxSize, kSizeShift in Hm. unfold capacity in Hlt.
    unfold is_uint. lia. }
  destruct (setSize_spec (size_ t + 1) t2 Hsz') as (E1 & E2 & E3). rewrite <- Et in *.
  assert (chunks_ t' = cs') as Ec by (rewrite Et; subst t2; by destruct (kEnableItemIteration && _)).
  assert (chunkShift t2 = chunkShift t) as Es by (subst t2; by destruct (kEnableItemIteration && _)).
  assert (table_scale t' = table_scale t) as Esc.
  { apply (table_scale_eq (chunkShift t)). by rewrite Ec. }
  assert (capacity t' = capacity t) as Ecap by (unfold capacity; by rewrite E2, Es, Esc).
  split; [|by rewrite Ec]. constructor.
  - done.
  - by rewrite E2, Es, Esc, Ec.
  - rewrite E2, Es, Esc. apply (inv_scale_ok _ HI).
  - rewrite E1, Ec, Hcells. cbn [length]. rewrite (inv_size _ HI). lia.
  - rewrite E1, Ecap. lia.
  - unfold contents. rewrite Ec, Hcells. cbn. constructor; [done|]. apply (inv_keys _ HI).
  - pose proof (inv_begin _ HI) as Hb.
    assert (packedBegin_ t' = packedBegin_ t2) as -> by (rewrite Et; done). subst t2.
    destruct kEnableItemIteration; cbn [andb]; [|done].
    apply (begin_perm _ (pos :: (fst <$> cells (chunks_ t)))); [by rewrite Ec, Hcells|].
    apply (begin_insert _ _ pos) in Hb. subst t1. cbn [set_chunks packedBegin_]. by destruct (packed_lt _ _).
Qed.

Lemma chunks_iterable s scale cs : chunks_inv s scale cs -> 1 <= scale -> iterable cs.
Proof.
  intros HI Hsc ci c Hc. split; [by apply (inv_ok _ _ _ (inv_chunk _ _ _ HI _ _ Hc))|]. unfold eof.
  case_bool_decide as E; apply negb_true_iff || apply negb_false_iff.
  - subst. pose proof (inv_scale _ _ _ HI) as Hs. rewrite Hc in Hs. cbn in Hs. injection Hs as ->. lia.
  - rewrite (inv_eof _ _ _ (inv_chunk _ _ _ HI _ _ Hc)) by done. done.
Qed.

Lemma occ_cells s scale cs p : chunks_inv s scale cs -> occ cs p <-> p ∈ (fst <$> cells cs).
Proof.
  intros HI. destruct p as [ci i]. rewrite list_elem_of_fmap. split.
  - intros (c & Hc & Hi). destruct (inv_item _ _ _ (inv_chunk _ _ _ HI _ _ Hc) i Hi) as (x & Hx & _).
    exists (ci, i, x). split; [done|]. apply elem_of_cells. by exists c.
  - intros ([[cj j] x] & [= -> ->] & (c & Hc & Hi & _)%elem_of_cells). by exists c.
Qed.

Lemma positions_NoDup cs : NoDup (fst <$> cells cs).
Proof.
  apply NoDup_fmap_2_strong; [|apply cells_NoDup]. intros [[ci i] x] [[cj j] y] Hx Hy [= -> ->].
  by rewrite (cells_unique _ _ _ _ _ Hx Hy).
Qed.

(** The first iterator after the cell at [pos] goes. *)
Lemma begin_erase t pos l :
  begin_inv (packedBegin_ t) (pos :: l) -> NoDup (pos :: l) -> iterable (chunks_ t) ->
  (forall p, occ (chunks_ t) p <-> p ∈ pos :: l) -> size_ t = Z.of_nat (length l) ->
  (pos.1 < length (chunks_ t))%nat -> (pos.2 < kCapacity)%nat ->
  exists b, (if bool_decide (packedBegin_ t = Some pos) then
               b ← (if size_ t =? 0 then Some None else precheckedAdvance t pos); Some (set_begin b t)
             else Some t) = Some (set_begin b t) /\ begin_inv b l.
Proof.
  intros Hb [Hnin Hnd]%NoDup_cons Hit Hocc Hsz Hlt Hk. case_bool_decide as E.
  - rewrite E in Hb. destruct Hb as [_ Hmax]. destruct l as [|q l].
    + exists None. by rewrite Hsz.
    + rewrite Hsz. cbn [length Z.of_nat Z.eqb].
      assert (forall r, r ∈ q :: l -> pos_lt r pos) as Hlow.
      { intros r Hr. specialize (Hmax r). rewrite packed_lt_false in Hmax.
        assert (r <> pos) as Hne by (intros ->; done). destruct r as [a d], pos as [a' d']. unfold pos_lt in *. cbn in *.
        destruct (decide (a = a' /\ d = d')) as [[-> ->]|]; [done|]. specialize (Hmax ltac:(by right)). lia. }
      destruct (advanceImpl_spec t false pos) as (r & Ha & Hr); [done|done|done| |].
      { right. exists q. split; [|apply Hlow; left]. apply Hocc. right. left. }
      unfold precheckedAdvance. rewrite Ha. cbn [mbind option_bind]. exists r. split; [done|].
      destruct r as [r|]; cbn in Hr |- *.
      * destruct Hr as (Ho & Hrl & Hm). rewrite Hocc in Ho. apply elem_of_cons in Ho as [->|Ho].
        { unfold pos_lt in Hrl. lia. }
        split; [done|]. intros q' Hq'. apply packed_lt_false, Hm; [apply Hocc; by right|by apply Hlow].
      * exfalso. apply (Hr q); [apply Hocc; right; left|apply Hlow; left].
  - exists (packedBegin_ t). split; [by destruct t|]. destruct (packedBegin_ t) as [b|]; cbn in Hb |- *; [|done].
    destruct Hb as [[->|Hin]%elem_of_cons Hmax]; [done|]. split; [done|]. intros q Hq. apply Hmax. by right.
Qed.

(** Taking the item out of a slot leaves the tags. *)
Lemma unset_item cs cf c i :
  cs !! cf = Some c ->
  let cs1 := <[cf := mkChunk (tags_ c) (control_ c) (outboundOverflowCount_ c) (<[i := None]> (rawItems_ c))]> cs in
  (iterable cs -> iterable cs1) /\ (forall p, occ cs1 p <-> occ cs p) /\
  (forall s L, header_inv s cs L -> header_inv s cs1 L).
Proof.
  intros Hc cs1. pose proof (lookup_lt_Some _ _ _ Hc) as Hlt.
  assert (forall k d, cs1 !! k = Some d -> exists d', cs !! k = Some d' /\
            tags_ d = tags_ d' /\ control_ d = control_ d' /\ outboundOverflowCount_ d = outboundOverflowCount_ d') as Hback.
  { intros k d Hd. subst cs1. destruct (decide (k = cf)) as [->|Hne].
    - rewrite list_lookup_insert_eq in Hd by done. injection Hd as <-. by exists c.
    - rewrite list_lookup_insert_ne in Hd by congruence. by exists d. }
  split; [|split].
  - intros Hit k d Hd. destruct (Hback k d Hd) as (d' & Hd' & E1 & E2 & E3). destruct (Hit k d' Hd') as [[? ? ? ? ?] He].
    split; [constructor; by rewrite ?E1, ?E2, ?E3|]. rewrite <- He. unfold eof, capacityScale. by rewrite E1, E2.
  - intros [k i']. subst cs1. unfold occ. cbn [fst snd]. destruct (decide (k = cf)) as [->|Hne].
    + rewrite list_lookup_insert_eq, Hc by done. split; intros (d & [= <-] & Hi); eexists; (split; [done|exact Hi]).
    + by rewrite list_lookup_insert_ne by congruence.
  - intros s L HI k d Hd. destruct (Hback k d Hd) as (d' & Hd' & E1 & E2 & E3). destruct (HI k d' Hd') as [? ? ? ?].
    constructor; unfold hostedOverflowCount in *; by rewrite ?E2, ?E3.
Qed.

Lemma adjust_erase t t1 pos l :
  table_inv t -> t1 = set_chunks (chunks_ t1) t -> iterable (chunks_ t1) ->
  (forall p, occ (chunks_ t1) p <-> occ (chunks_ t) p) -> length (chunks_ t1) = length (chunks_ t) ->
  fst <$> cells (chunks_ t) ≡ₚ pos :: l ->
  exists b, adjustSizeAndBeginBeforeErase pos t1 = Some (set_begin b (setSize (size_ t - 1) t1)) /\
    if kEnableItemIteration then begin_inv b l else b = None.
Proof.
  intros HI Et Hit Hocc Hlen Hl. pose proof (size_lt_56 t HI) as Hsz. unfold is_uint in Hsz.
  assert (size_ t = Z.of_nat (S (length l))) as Hn.
  { rewrite (inv_size _ HI). f_equal. change (S (length l)) with (length (pos :: l)). by rewrite <- Hl, length_fmap. }
  assert (decrementSize t1 = setSize (size_ t - 1) t1) as Ed.
  { unfold decrementSize. replace (size_ t1) with (size_ t) by (rewrite Et; done). rewrite wrap_small; [done|].
    unfold is_uint. lia. }
  unfold adjustSizeAndBeginBeforeErase. rewrite Ed. set (t2 := setSize (size_ t - 1) t1).
  pose proof (setSize_spec (size_ t - 1) t1 ltac:(unfold is_uint; lia)) as (E1 & _ & _). fold t2 in E1.
  pose proof (inv_begin _ HI) as Hb.
  assert (packedBegin_ t2 = packedBegin_ t) as Eb by (subst t2; rewrite Et; done).
  destruct kEnableItemIteration; cbn [andb]; [|exists None; rewrite Hb in Eb; rewrite <- Eb; by destruct t2].
  assert (pos ∈ fst <$> cells (chunks_ t)) as Hpos by (rewrite Hl; left).
  apply (begin_erase t2 pos l).
  - rewrite Eb. by eapply begin_perm.
  - rewrite <- Hl. apply positions_NoDup.
  - done.
  - intros p. change (chunks_ t2) with (chunks_ t1). rewrite Hocc, <- Hl. eapply occ_cells, (inv_chunks _ HI).
  - rewrite E1. lia.
  - change (chunks_ t2) with (chunks_ t1). rewrite Hlen. rewrite <- (occ_cells _ _ _ _ (inv_chunks _ HI)) in Hpos.
    destruct Hpos as (c & Hc & _). by eapply lookup_lt_Some.
  - rewrite <- (occ_cells _ _ _ _ (inv_chunks _ HI)) in Hpos. destruct Hpos as (c & _ & Hi).
    by apply elem_of_slots in Hi as [? _].
Qed.

(** The table after the cell at [pos] went. *)
Lemma table_erase cs' pos x b t :
  table_inv t -> chunks_inv (chunkShift t) (table_scale t) cs' -> cells (chunks_ t) ≡ₚ (pos, x) :: cells cs' ->
  (if kEnableItemIteration then begin_inv b (fst <$> cells cs') else b = None) ->
  let t' := set_chunks cs' (set_begin b (setSize (size_ t - 1) t)) in
  table_inv t' /\ capacity t' = capacity t.
Proof.
  intros HI HI' Hcells Hb t'. pose proof (size_lt_56 t HI) as Hsz. unfold is_uint in Hsz.
  assert (size_ t = Z.of_nat (S (length (cells cs')))) as Hn by (by rewrite (inv_size _ HI), Hcells).
  pose proof (setSize_spec (size_ t - 1) t ltac:(unfold is_uint; lia)) as (E1 & E2 & E3).
  change (size_ (setSize (size_ t - 1) t)) with (size_ t') in E1.
  change (chunkShift (setSize (size_ t - 1) t)) with (chunkShift t') in E2.
  assert (table_scale t' = table_scale t) as Esc by (by apply (table_scale_eq (chunkShift t))).
  assert (capacity t' = capacity t) as Ecap by (unfold capacity; by rewrite E2, Esc).
  split; [|done]. constructor.
  - done.
  - by rewrite E2, Esc.
  - rewrite E2, Esc. apply (inv_scale_ok _ HI).
  - rewrite E1. cbn [t' chunks_ set_chunks]. lia.
  - rewrite E1, Ecap. pose proof (inv_capacity _ HI). lia.
  - pose proof (inv_keys _ HI) as Hk. unfold contents in *. rewrite Hcells in Hk. cbn in Hk. by apply NoDup_cons in Hk as [_ ?].
  - done.
Qed.

(** [eraseImpl] removes the cell; the hash is needed only where the chunk hosts overflow. *)
Lemma eraseImpl_inv t cf i x c hp :
  table_inv t -> (cf, i, x) ∈ cells (chunks_ t) -> chunks_ t !! cf = Some c ->
  (hostedOverflowCount c = 0 \/ hp = hash_pair x) ->
  exists t', eraseImpl (cf, i) hp t = Some t' /\ table_inv t' /\
    cells (chunks_ t) ≡ₚ (cf, i, x) :: cells (chunks_ t') /\ capacity t' = capacity t.
Proof using F14PolicyLaws0.
  intros HI Hin Hc Hhp. pose proof (inv_chunks _ HI) as HC. pose proof (inv_shift _ _ _ HC) as Hs.
  destruct (remove_inv (chunkShift t) (table_scale t) (chunks_ t) cf c i x (hash_pair x) HC Hin Hc eq_refl) as [HC' Hcells].
  pose proof Hin as (c' & Hc' & Hi & Hx)%elem_of_cells. replace c' with c in * by congruence.
  destruct (inv_item _ _ _ (inv_chunk _ _ _ HC _ _ Hc) i Hi) as (x' & Hx' & Ht). replace x' with x in * by congruence.
  destruct (inv_header _ _ _ HC _ _ Hc) as [_ _ Hr _]. pose proof (lookup_lt_Some _ _ _ Hc) as Hlt.
  unfold eraseImpl, item_at, load. cbn [fst snd]. rewrite Hc. cbn [mbind option_bind]. rewrite Hx. cbn [mbind option_bind].
  set (c1 := mkChunk (tags_ c) (control_ c) (outboundOverflowCount_ c) (<[i := None]> (rawItems_ c))).
  set (cs1 := <[cf := c1]> (chunks_ t)). rewrite (update_chunk_spec cf _ c c1).
  2: done. 2: lia.
  2: { apply set_item_spec. unfold item, load in Hx. destruct (rawItems_ c !! i) eqn:E; [|done]. by eapply lookup_lt_Some. }
  cbn [mbind option_bind]. fold cs1. destruct (unset_item (chunks_ t) cf c i Hc) as (Hit & Hocc & Hhd). fold c1 cs1 in Hit, Hocc, Hhd.
  set (cs' := leave _ _ _ _) in *.
  destruct (adjust_erase t (set_chunks cs1 t) (cf, i) (fst <$> cells cs')) as (b & -> & Hb); try done.
  { apply Hit. eapply chunks_iterable; [done|apply (inv_scale_ok _ HI)]. }
  { cbn [set_chunks chunks_]. unfold cs1. by rewrite length_insert. }
  { by rewrite Hcells. }
  cbn [mbind option_bind]. set (t2 := set_begin _ _).
  assert (chunkShift t2 = chunkShift t) as Es.
  { pose proof (size_lt_56 t HI) as Hsz. unfold is_uint in Hsz. pose proof (inv_size _ HI) as Hn. rewrite Hcells in Hn. cbn [length] in Hn.
    by destruct (setSize_spec (size_ t - 1) (set_chunks cs1 t) ltac:(unfold is_uint; lia)) as (_ & ? & _). }
  rewrite (eraseBlank_spec t2 cf c1 i (hash_pair x).2 (hash_pair x) hp (entries cs')); rewrite ?Es; try done.
  - destruct (table_erase cs' (cf, i) x b t HI HC' Hcells Hb) as [HI' Hcap].
    eexists. split; [|split; [exact HI'|split; [exact Hcells|exact Hcap]]].
    change (chunks_ t2) with cs1. unfold cs1 at 1. by rewrite list_insert_insert_eq.
  - cbn. unfold cs1. by rewrite length_insert, (inv_length _ _ _ HC).
  - apply Hhd. apply (header_inv_perm _ _ (entries (chunks_ t))); [|apply (inv_header _ _ _ HC)].
    unfold entries. by rewrite Hcells.
  - cbn. unfold cs1. by rewrite list_lookup_insert_eq.
  - apply hash_pair_tag.
Qed.
End Update.
