(* ===== verification/F14Rehash.v ===== *)
(** Capacities, rehashing and clearing of F14 tables. *)
From S2P Require Import Prelude Sse F14Mask F14Chunk F14Table F14Probe F14Inv F14Find F14Update.

Section Capacity.
Context {Item Key : Type} `{!SizeofItem Item} `{!F14Policy Item Key} `{!EqDecision Key}.
Context `{!F14PolicyLaws Item Key}.

Lemma kCapacityScaleShift_cases :
  (kCapacity = 12%nat /\ kCapacityScaleShift = 12 /\ kCapacityScaleBits = 16) \/
  (kCapacity = 14%nat /\ kCapacityScaleShift = 0 /\ kCapacityScaleBits = 4).
Proof.
  unfold kCapacityScaleShift, kCapacityScaleBits. destruct kCapacity_cases as [->| ->]; cbn; auto.
Qed.

(** The power of two that the scale is multiplied with. *)
Definition scale_pow (p : Z) : Z := if kCapacityScaleShift <=? p then p - kCapacityScaleShift else 0.

Lemma scale_pow_range p : 0 <= p -> 0 <= scale_pow p <= p /\ p - scale_pow p <= kCapacityScaleShift.
Proof.
  intros Hp. unfold scale_pow. destruct kCapacityScaleShift_cases as [(_ & -> & _)|(_ & -> & _)].
  - destruct (Z.leb_spec 12 p); lia.
  - destruct (Z.leb_spec 0 p); lia.
Qed.

Lemma computeCapacity_pow p scale :
  0 <= p < 64 -> computeCapacity (2 ^ p) scale = u64 (2 ^ scale_pow p * scale).
Proof.
  intros Hp. unfold computeCapacity. f_equal. f_equal.
  assert (0 < 2 ^ p) by (apply Z.pow_pos_nonneg; lia).
  assert (2 ^ p <= 2 ^ 63) by (apply Z.pow_le_mono_r; lia).
  rewrite (wrap_small 64 (2 ^ p - 1)) by (unfold is_uint; lia).
  pose proof (scale_pow_range p ltac:(lia)) as Hr.
  assert (0 <= kCapacityScaleShift) as Hsh by (destruct kCapacityScaleShift_cases as [(_ & -> & _)|(_ & -> & _)]; lia).
  assert ((2 ^ p - 1) .>> kCapacityScaleShift = 2 ^ scale_pow p - 1) as ->.
  { rewrite shiftr_div by done. unfold scale_pow. destruct (Z.leb_spec kCapacityScaleShift p) as [Hle|Hlt].
    - symmetry. apply Z.div_unique_pos with (2 ^ kCapacityScaleShift - 1).
      + assert (0 < 2 ^ kCapacityScaleShift) by (apply Z.pow_pos_nonneg; lia). lia.
      + replace p with (kCapacityScaleShift + (p - kCapacityScaleShift)) at 1 by lia.
        rewrite Z.pow_add_r by lia. lia.
    - apply Z.div_small. split; [lia|]. assert (2 ^ p <= 2 ^ kCapacityScaleShift) by (apply Z.pow_le_mono_r; lia). lia. }
  rewrite Z.sub_add. apply wrap_small. unfold is_uint. assert (0 < 2 ^ scale_pow p) by (apply Z.pow_pos_nonneg; lia).
  assert (2 ^ scale_pow p <= 2 ^ p) by (apply Z.pow_le_mono_r; lia). lia.
Qed.

(** What [computeChunkCountAndScale] promises. *)
Record counts_ok (desired s scale : Z) : Prop := {
  counts_shift : 0 <= s < 64;
  counts_scale : scale_ok s scale;
  counts_enough : desired <= computeCapacity (2 ^ s) scale;
  counts_least : s <> 0 -> Z.of_nat kCapacity < desired /\ Z.of_nat kDesiredCapacity * 2 ^ (s - 1) < desired;
}.

Lemma max_size_le : max_size <= kMaxSize /\ max_size <= alloc_max_size.
Proof. unfold max_size. lia. Qed.

(** Powers of two: [chunkPow] is the smallest with enough chunks. *)
Lemma chunkPow_spec desired :
  Z.of_nat kCapacity < desired -> is_u64 desired ->
  let minChunks := (desired - 1) / Z.of_nat kDesiredCapacity + 1 in
  let p := findLastSet (minChunks - 1) in
  1 <= p <= 61 /\ desired <= Z.of_nat kDesiredCapacity * 2 ^ p /\
  Z.of_nat kDesiredCapacity * 2 ^ (p - 1) < desired.
Proof.
  intros Hd Hu minChunks p. unfold is_uint in Hu. pose proof kCapacity_le as Hk.
  assert (Z.of_nat kDesiredCapacity = Z.of_nat kCapacity - 2) as Hkd by (unfold kDesiredCapacity; lia).
  set (kd := Z.of_nat kDesiredCapacity) in *. set (q := (desired - 1) / kd) in *.
  assert (kd * q <= desired - 1 < kd * (q + 1)) as Hq.
  { pose proof (Z.div_mod (desired - 1) kd). pose proof (Z.mod_pos_bound (desired - 1) kd). unfold q. lia. }
  assert (1 <= q) as Hq1 by (unfold q; apply Z.div_le_lower_bound; lia).
  assert (p = Z.log2 q + 1) as Ep.
  { unfold p, minChunks. replace (q + 1 - 1) with q by lia. unfold findLastSet. by rewrite (proj2 (Z.eqb_neq q 0)) by lia. }
  pose proof (Z.log2_spec q ltac:(lia)) as [Hlo Hhi]. pose proof (Z.log2_nonneg q).
  replace (Z.succ (Z.log2 q)) with p in Hhi by lia. replace (Z.log2 q) with (p - 1) in Hlo by lia.
  split; [|split; nia]. split; [lia|].
  assert (p - 1 < 61); [|lia]. apply (Z.pow_lt_mono_r_iff 2); [lia|lia|].
  assert (10 * q < 2 ^ 64) by nia. lia.
Qed.

(** The single chunk. *)
Lemma counts_single desired n :
  1 <= desired <= n -> n <= Z.of_nat kCapacity -> counts_ok desired 0 n.
Proof using F14PolicyLaws0.
  intros Hd Hn. pose proof kCapacity_le. pose proof (law_sizeof (Item := Item)).
  assert (computeCapacity 1 n = n) as Ec by (apply computeCapacity_1; unfold is_uint; lia).
  constructor; [lia| |change (2 ^ 0) with 1; rewrite Ec; lia|lia].
  constructor; change (2 ^ 0) with 1; rewrite ?Ec; try lia.
  - unfold kMaxSize, kSizeShift. lia.
  - destruct kCapacityScaleShift_cases as [(? & _ & ->)|(? & _ & ->)]; lia.
  - unfold alloc_ok, chunkAllocSize. change (2 ^ 0) with 1. cbn [Z.eqb Pos.eqb]. rewrite Ec.
    rewrite wrap_small; [nia|]. unfold is_uint. nia.
Qed.

Lemma sizeof_Chunk_bound : sizeof_Chunk <= 31 + sizeof_Item * Z.of_nat kAllocatedCapacity.
Proof. unfold sizeof_Chunk. pose proof (Z.mul_div_le (16 + sizeof_Item * Z.of_nat kAllocatedCapacity + 15) 16). lia. Qed.

(** Several chunks: their bytes do not overflow a [size_t] because the allocator limit holds. *)
Lemma alloc_multi p scale desired :
  1 <= p <= 61 -> Z.of_nat kDesiredCapacity * 2 ^ (p - 1) < desired ->
  desired <= max_size -> (kCapacity = 12%nat \/ Z.of_nat kDesiredCapacity * 2 ^ p <= max_size) -> alloc_ok p scale.
Proof using F14PolicyLaws0.
  intros Hp Hlo Hd Hcase. pose proof kCapacity_le. pose proof (law_sizeof (Item := Item)) as Hsz.
  pose proof (law_max_size (Item := Item)) as Hm. destruct max_size_le as [Hm1 Hm2].
  unfold kMaxSize, kSizeShift in Hm1. pose proof sizeof_Chunk_bound as Hb.
  assert (0 < 2 ^ (p - 1)) by (apply Z.pow_pos_nonneg; lia).
  assert (2 ^ p = 2 * 2 ^ (p - 1)) as E2 by (rewrite <- Z.pow_succ_r by lia; f_equal; lia).
  unfold alloc_ok, chunkAllocSize. rewrite (proj2 (Z.eqb_neq _ _)) by lia.
  assert (16 <= sizeof_Chunk) as Hge.
  { unfold sizeof_Chunk. assert (1 <= (16 + sizeof_Item * Z.of_nat kAllocatedCapacity + 15) / 16); [|lia].
    apply Z.div_le_lower_bound; nia. }
  assert (sizeof_Chunk * 2 ^ p < 2 ^ 64) as Hlt; [|rewrite wrap_small; unfold is_uint; nia].
  unfold kDesiredCapacity in *. destruct (Z.eqb_spec sizeof_Item 4) as [E4|E4].
  - unfold kAllocatedCapacity in Hb. unfold kCapacity in *. rewrite E4 in *. cbn in Hb, Hlo. nia.
  - assert (kCapacity = 14%nat) as Ek by (unfold kCapacity; by rewrite (proj2 (Z.eqb_neq _ _))).
    assert (Z.of_nat kAllocatedCapacity <= 15) by (unfold kAllocatedCapacity; rewrite Ek; destruct (_ =? _); lia).
    rewrite Ek in *. destruct Hcase as [|Hcase]; [done|].
    assert (sizeof_Item * (12 * 2 ^ p) <= sizeof_Item * alloc_max_size) by (apply Z.mul_le_mono_nonneg_l; lia).
    assert (sizeof_Chunk <= 31 + 15 * sizeof_Item) by nia.
    assert (sizeof_Chunk * 2 ^ p <= (31 + 15 * sizeof_Item) * 2 ^ p) by (apply Z.mul_le_mono_nonneg_r; lia).
    lia.
Qed.

Lemma kDesired_Z : Z.of_nat kDesiredCapacity = Z.of_nat kCapacity - 2.
Proof. pose proof kCapacity_le. unfold kDesiredCapacity. lia. Qed.

(** The full scale: [chunkCount * kDesiredCapacity] slots, unless that exceeds the limit. *)
Lemma counts_full desired p :
  Z.of_nat kCapacity < desired -> 1 <= p <= 61 -> desired <= Z.of_nat kDesiredCapacity * 2 ^ p ->
  Z.of_nat kDesiredCapacity * 2 ^ (p - 1) < desired ->
  let scale := u64 (Z.of_nat kDesiredCapacity .<< (p - scale_pow p)) in
  computeCapacity (2 ^ p) scale <= max_size -> counts_ok desired p scale.
Proof using F14PolicyLaws0.
  intros Hgt Hp Hhi Hlo scale Hcap. pose proof kDesired_Z as Hkd. pose proof kCapacity_le as Hk.
  destruct max_size_le as [Hm1 Hm2]. unfold kMaxSize, kSizeShift in Hm1. change (2 ^ (64 - 8)) with (2 ^ 56) in Hm1.
  pose proof (scale_pow_range p ltac:(lia)) as [Hr1 Hr2].
  set (kd := Z.of_nat kDesiredCapacity) in *. set (d := p - scale_pow p) in *.
  assert (0 < 2 ^ d) by (apply Z.pow_pos_nonneg; lia).
  assert (2 ^ d <= 2 ^ kCapacityScaleShift) as Hd by (apply Z.pow_le_mono_r; lia).
  assert (kd * 2 ^ d < 2 ^ kCapacityScaleBits) as Hfit.
  { destruct kCapacityScaleShift_cases as [(E & E1 & ->)|(E & E1 & ->)]; rewrite E1 in Hd; rewrite Hkd, E.
    all: change (2 ^ 12) with 4096 in *; change (2 ^ 16) with 65536; change (2 ^ 0) with 1 in *; change (2 ^ 4) with 16; lia. }
  assert (scale = kd * 2 ^ d) as Es.
  { unfold scale. rewrite shiftl_mul by lia. apply wrap_small. unfold is_uint.
    destruct kCapacityScaleShift_cases as [(_ & _ & E)|(_ & _ & E)]; rewrite E in Hfit; lia. }
  rewrite computeCapacity_pow in Hcap by lia. rewrite Es in Hcap.
  assert (2 ^ scale_pow p * (kd * 2 ^ d) = kd * 2 ^ p) as Eprod.
  { replace (2 ^ scale_pow p * (kd * 2 ^ d)) with (kd * (2 ^ scale_pow p * 2 ^ d)) by ring.
    rewrite <- Z.pow_add_r by lia. do 2 f_equal. lia. }
  rewrite Eprod in Hcap.
  assert (kd * 2 ^ p < 2 ^ 64) as Hno.
  { destruct (decide (p = 61)) as [->|Hne].
    - rewrite Hkd in Hcap. destruct kCapacity_cases as [E|E]; rewrite E in Hcap.
      + change (u64 ((Z.of_nat 12 - 2) * 2 ^ 61)) with (2 ^ 62) in Hcap. lia.
      + change (u64 ((Z.of_nat 14 - 2) * 2 ^ 61)) with (2 ^ 63) in Hcap. lia.
    - assert (2 ^ p <= 2 ^ 60) by (apply Z.pow_le_mono_r; lia).
      assert (kd * 2 ^ p <= 12 * 2 ^ 60) by (apply Z.mul_le_mono_nonneg; lia). lia. }
  assert (0 < 2 ^ p) by (apply Z.pow_pos_nonneg; lia).
  assert (0 < kd * 2 ^ p) by (apply Z.mul_pos_pos; lia).
  rewrite wrap_small in Hcap by (unfold is_uint; lia).
  assert (computeCapacity (2 ^ p) scale = kd * 2 ^ p) as Ec.
  { rewrite computeCapacity_pow, Es, Eprod by lia. apply wrap_small. unfold is_uint. lia. }
  assert (0 < kd * 2 ^ d) by (apply Z.mul_pos_pos; lia).
  constructor; [lia| |by rewrite Ec|lia]. constructor; rewrite ?Ec; [lia|lia|lia| |by rewrite Es|].
  - unfold kMaxSize, kSizeShift. lia.
  - eapply (alloc_multi p scale desired); [lia|done|lia|]. by right.
Qed.

(** A continuous scale: just enough. *)
Lemma counts_continuous desired p :
  kContinuousCapacity = true -> Z.of_nat kCapacity < desired <= 2 ^ 63 ->
  1 <= p <= 61 -> desired <= Z.of_nat kDesiredCapacity * 2 ^ p ->
  Z.of_nat kDesiredCapacity * 2 ^ (p - 1) < desired ->
  let scale := u64 (((desired - 1) .>> scale_pow p) + 1) in
  computeCapacity (2 ^ p) scale <= max_size -> counts_ok desired p scale.
Proof using F14PolicyLaws0.
  intros Hcont H63 Hp Hhi Hlo scale Hcap. pose proof kDesired_Z as Hkd.
  destruct max_size_le as [Hm1 Hm2]. unfold kMaxSize, kSizeShift in Hm1. change (2 ^ (64 - 8)) with (2 ^ 56) in Hm1.
  pose proof (law_continuous (Item := Item) (Key := Key) Hcont) as H4.
  assert (kCapacity = 12%nat) as Ek by (unfold kCapacity; by rewrite H4).
  assert (kCapacityScaleShift = 12 /\ kCapacityScaleBits = 16) as [Esh Eb].
  { destruct kCapacityScaleShift_cases as [(_ & ? & ?)|(E & _)]; [done|lia]. }
  pose proof (scale_pow_range p ltac:(lia)) as [Hr1 Hr2]. rewrite Esh in Hr2.
  rewrite Ek in Hkd. rewrite Hkd in Hhi, Hlo. change (Z.of_nat 12 - 2) with 10 in *.
  set (S := 2 ^ scale_pow p). assert (0 < S) as HS by (apply Z.pow_pos_nonneg; lia).
  set (q := (desired - 1) / S).
  assert (0 < 2 ^ (p - 1)) by (apply Z.pow_pos_nonneg; lia).
  assert (S * q <= desired - 1 < S * (q + 1)) as Hq.
  { pose proof (Z.div_mod (desired - 1) S). pose proof (Z.mod_pos_bound (desired - 1) S). unfold q. lia. }
  assert (0 <= q) by (unfold q; apply Z.div_pos; lia).
  assert (2 ^ p = S * 2 ^ (p - scale_pow p)) as E2 by (unfold S; rewrite <- Z.pow_add_r by lia; f_equal; lia).
  assert (2 ^ (p - scale_pow p) <= 2 ^ 12) as H12 by (apply Z.pow_le_mono_r; lia).
  set (D := 2 ^ (p - scale_pow p)) in *.
  assert (q < 10 * D) as Hqs by (apply (Z.mul_lt_mono_pos_l S); lia).
  assert (S * (q + 1) <= S * (10 * D)) as Hcd by (apply Z.mul_le_mono_nonneg_l; lia).
  assert (S <= 2 ^ 61) by (apply Z.pow_le_mono_r; lia).
  assert (scale = q + 1) as Es.
  { unfold scale. rewrite shiftr_div by lia. apply wrap_small. fold S q. unfold is_uint. lia. }
  assert (0 < S * (q + 1) < 2 ^ 64) as Hno by lia.
  assert (computeCapacity (2 ^ p) scale = S * (q + 1)) as Ec.
  { rewrite computeCapacity_pow, Es by lia. fold S. apply wrap_small. unfold is_uint. lia. }
  rewrite Ec in Hcap.
  constructor; [lia| |rewrite Ec; lia|rewrite Ek, Hkd; lia]. constructor; rewrite ?Ec.
  - lia.
  - lia.
  - intros _. rewrite Hkd. lia.
  - unfold kMaxSize, kSizeShift. lia.
  - rewrite Es, Eb. lia.
  - eapply (alloc_multi p scale desired); [lia|by rewrite Hkd|lia|by left].
Qed.

(** The capacity is less than twice what was asked for; an overflow only makes it smaller. *)
Lemma capacity_le desired p (cont : bool) :
  1 <= p <= 61 -> Z.of_nat kDesiredCapacity * 2 ^ (p - 1) < desired <= Z.of_nat kDesiredCapacity * 2 ^ p ->
  computeCapacity (2 ^ p)
    (if cont then u64 (((desired - 1) .>> scale_pow p) + 1)
     else u64 (Z.of_nat kDesiredCapacity .<< (p - scale_pow p))) <= 2 * desired.
Proof.
  intros Hp Hd. pose proof (scale_pow_range p ltac:(lia)) as [Hr1 Hr2]. pose proof kDesired_Z. pose proof kCapacity_le.
  rewrite computeCapacity_pow by lia. set (S := 2 ^ scale_pow p). assert (0 < S) as HS by (apply Z.pow_pos_nonneg; lia).
  assert (2 ^ p = 2 * 2 ^ (p - 1)) as E2 by (rewrite <- Z.pow_succ_r by lia; f_equal; lia).
  assert (2 ^ p = S * 2 ^ (p - scale_pow p)) as ES by (unfold S; rewrite <- Z.pow_add_r by lia; f_equal; lia).
  assert (0 < 2 ^ (p - 1)) by (apply Z.pow_pos_nonneg; lia).
  set (D := 2 ^ (p - scale_pow p)) in *. set (kd := Z.of_nat kDesiredCapacity) in *.
  assert (forall scale, 0 <= scale <= kd * D -> u64 (S * u64 scale) <= 2 * desired) as Hle.
  { intros scale Hsc. assert (0 <= u64 scale <= scale) as Hu by (split; [by apply wrap_range|apply Z.mod_le; lia]).
    assert (S * u64 scale <= S * (kd * D)) as Hm by (apply Z.mul_le_mono_nonneg_l; lia).
    replace (S * (kd * D)) with (kd * (S * D)) in Hm by ring. rewrite <- ES, E2 in Hm.
    replace (kd * (2 * 2 ^ (p - 1))) with (2 * (kd * 2 ^ (p - 1))) in Hm by ring.
    assert (u64 (S * u64 scale) <= S * u64 scale); [|lia]. apply Z.mod_le; [|lia]. apply Z.mul_nonneg_nonneg; lia. }
  destruct cont; apply Hle.
  - rewrite shiftr_div by lia. fold S. set (q := (desired - 1) / S).
    assert (S * q <= desired - 1) as Hq by (unfold q; apply Z.mul_div_le; lia).
    assert (0 <= q) by (unfold q; apply Z.div_pos; lia).
    assert (q < kd * D) as Hlt; [|lia].
    apply (Z.mul_lt_mono_pos_l S); [lia|]. replace (S * (kd * D)) with (kd * (S * D)) by ring. lia.
  - rewrite shiftl_mul by lia. fold D. split; [|lia]. apply Z.mul_nonneg_nonneg; [lia|apply Z.pow_nonneg; lia].
Qed.

Lemma computeChunkCountAndScale_spec desired exact cont :
  is_u64 desired -> 1 <= desired ->
  (cont = true -> kContinuousCapacity = true /\ desired <= 2 ^ 63) ->
  match computeChunkCountAndScale desired exact cont with
  | Err e => e = bad_alloc None /\ max_size < 2 * desired
  | Ok (cc, scale) => exists s, cc = 2 ^ s /\ counts_ok desired s scale
  end.
Proof using F14PolicyLaws0.
  intros Hu H1 Hcont. pose proof kCapacity_le as Hk. unfold computeChunkCountAndScale.
  destruct (Z.leb_spec desired (Z.of_nat kCapacity)) as [Hle|Hgt].
  - exists 0. split; [done|]. apply counts_single.
    + destruct exact; cbn [negb]; [lia|]. destruct (Z.leb_spec desired 2), (Z.leb_spec desired 6); lia.
    + destruct exact; cbn [negb]; [lia|]. destruct (Z.leb_spec desired 2), (Z.leb_spec desired 6); lia.
  - destruct (chunkPow_spec desired Hgt Hu) as (Hp & Hhi & Hlo). cbn zeta.
    set (p := findLastSet _) in *. rewrite (proj2 (Z.eqb_neq p 64)) by lia. fold (scale_pow p).
    assert (u64 (1 .<< p) = 2 ^ p) as ->.
    { rewrite shiftl_mul, Z.mul_1_l by lia. apply wrap_small. unfold is_uint.
      split; [apply Z.pow_nonneg; lia|apply Z.pow_lt_mono_r; lia]. }
    destruct (Z.ltb_spec max_size (computeCapacity (2 ^ p)
      (if cont then u64 (((desired - 1) .>> scale_pow p) + 1)
       else u64 (Z.of_nat kDesiredCapacity .<< (p - scale_pow p))))) as [Hcap|Hcap].
    { split; [done|]. eapply Z.lt_le_trans; [exact Hcap|]. apply capacity_le; lia. }
    exists p. split; [done|]. destruct cont.
    + destruct (Hcont eq_refl). by apply counts_continuous; try lia.
    + by apply counts_full.
Qed.
End Capacity.

Section Init.
Context {Item Key : Type} `{!SizeofItem Item} `{!F14Policy Item Key} `{!EqDecision Key}.
Context `{!F14PolicyLaws Item Key}.
Implicit Types (t : F14Table Item) (c : F14Chunk Item) (cs : list (F14Chunk Item)) (x : Item).

(** A cleared chunk. *)
Definition blank (items : list (option Item)) : F14Chunk Item := mkChunk (replicate 14 0) 0 0 items.

Lemma nth_zeros n i : nth i (replicate n 0) 0 = 0.
Proof.
  rewrite nth_lookup. destruct (replicate n 0 !! i) eqn:E; cbn; [|done]. by apply lookup_replicate in E as [-> _].
Qed.

Lemma zero_tags (P : nat -> Z -> Prop) n i tg :
  (forall i, P i 0) -> replicate n 0 !! i = Some tg -> P i tg.
Proof. intros HP H. by apply lookup_replicate in H as [-> _]. Qed.

Lemma slots_nil c : (forall i, (i < kCapacity)%nat -> nth i (tags_ c) 0 = 0) -> slots c = [].
Proof.
  intros H. apply elem_of_nil_inv. intros i [Hi Hf]%elem_of_slots. unfold full_slot in Hf. by rewrite H in Hf.
Qed.

Lemma blank_ok items : chunk_ok (blank items).
Proof.
  constructor; cbn [blank tags_ control_ outboundOverflowCount_].
  - apply length_replicate.
  - apply Forall_replicate. unfold is_uint. lia.
  - unfold is_uint. lia.
  - unfold is_uint. lia.
  - intros i tg _. apply (zero_tags (fun _ tg => tg = 0 \/ is_tag tg)). by left.
Qed.

Lemma blank_slots items : slots (blank items) = [].
Proof. apply slots_nil. intros i _. apply nth_zeros. Qed.

Lemma blank_scale items : capacityScale (blank items) = 0.
Proof. unfold capacityScale. destruct (_ =? 4); done. Qed.

Lemma u16_bytes v : 0 <= v < 2 ^ 16 -> le_word [byte_at (u16 v) 0; byte_at (u16 v) 1] = v.
Proof.
  intros Hv. rewrite wrap_small by done. unfold byte_at. cbn [le_word].
  change (2 ^ (8 * Z.of_nat 0)) with 1. change (2 ^ (8 * Z.of_nat 1)) with 256.
  Z.to_euclidean_division_equations. lia.
Qed.

(** The first chunk, marked with its scale. *)
Record marked (scale : Z) (items : list (option Item)) c : Prop := {
  marked_ok : chunk_ok c;
  marked_items : rawItems_ c = items;
  marked_slots : slots c = [];
  marked_scale : capacityScale c = scale;
  marked_hosted : hostedOverflowCount c = 0;
  marked_outbound : outboundOverflowCount_ c = 0;
}.

Lemma markEof_spec scale items :
  1 <= scale < 2 ^ kCapacityScaleBits -> exists c, markEof scale (blank items) = Some c /\ marked scale items c.
Proof.
  intros Hsc. unfold markEof, setCapacityScale. cbn [blank control_ Z.eqb]. eexists. split; [done|].
  destruct kCapacityScaleShift_cases as [(Ek & _ & Eb)|(Ek & _ & Eb)]; rewrite Eb in *.
  - change (16 =? 4) with false. cbn iota. constructor; cbn [blank tags_ control_ outboundOverflowCount_ rawItems_].
    + constructor; cbn [blank tags_ control_ outboundOverflowCount_]; try (unfold is_uint; lia).
      * by rewrite !length_insert, length_replicate.
      * do 2 (apply Forall_insert; [|apply byte_at_byte]). apply Forall_replicate. unfold is_uint. lia.
      * intros i tg Hi. rewrite Ek in Hi. rewrite !list_lookup_insert_ne by lia.
        apply (zero_tags (fun _ tg => tg = 0 \/ is_tag tg)). by left.
    + done.
    + apply slots_nil. intros i Hi. rewrite Ek in Hi. cbn [blank tags_]. rewrite nth_lookup, !list_lookup_insert_ne by lia.
      rewrite <- nth_lookup. apply nth_zeros.
    + unfold capacityScale. rewrite Eb. change (16 =? 4) with false. cbn iota. cbn [blank tags_].
      rewrite !nth_lookup, list_lookup_insert_eq by (rewrite length_insert, length_replicate; lia).
      rewrite list_lookup_insert_ne, list_lookup_insert_eq by (rewrite ?length_replicate; lia).
      apply u16_bytes. lia.
    + done.
    + done.
  - change (4 =? 4) with true. cbn iota. rewrite Z.land_0_l, Z.lor_0_l, wrap_small by (unfold is_uint; lia).
    constructor; cbn [blank tags_ control_ outboundOverflowCount_ rawItems_].
    + pose proof (blank_ok items) as [? ? _ ? ?]. constructor; try done. unfold is_uint. cbn. lia.
    + done.
    + apply slots_nil. intros i _. apply nth_zeros.
    + unfold capacityScale. rewrite Eb. change (4 =? 4) with true. cbn iota. cbn [control_].
      rewrite (land_ones_mod _ 4) by lia. apply Z.mod_small. lia.
    + unfold hostedOverflowCount. cbn [control_]. rewrite shiftr_div by lia. apply Z.div_small. lia.
    + done.
Qed.

Lemma empty_cells cs : (forall c, c ∈ cs -> slots c = []) -> cells cs = [].
Proof.
  intros H. apply elem_of_nil_inv. intros [[ci i] x] (c & Hc & Hi & _)%elem_of_cells.
  rewrite H in Hi by (by eapply list_elem_of_lookup_2). by apply not_elem_of_nil in Hi.
Qed.

(** Chunks without items: a marked one and blank ones. *)
Lemma fresh_inv s scale c0 bl :
  0 <= s < 64 -> length (c0 :: bl) = nchunks s ->
  (exists items, marked scale items c0 /\ length items = room s scale) ->
  Forall (fun c => exists items, c = blank items /\ length items = room s scale) bl ->
  chunks_inv s scale (c0 :: bl) /\ cells (c0 :: bl) = [].
Proof.
  intros Hs Hl (items & Hm & Hi) Hbl. rewrite Forall_forall in Hbl.
  assert (cells (c0 :: bl) = []) as Hcells.
  { apply empty_cells. intros c [->|Hc]%elem_of_cons; [by eapply marked_slots|].
    destruct (Hbl _ Hc) as (it & -> & _). apply blank_slots. }
  assert (forall ci c, (c0 :: bl) !! ci = Some c -> chunk_ok c /\ slots c = [] /\ length (rawItems_ c) = room s scale /\
            (ci <> 0%nat -> capacityScale c = 0) /\ hostedOverflowCount c = 0 /\ outboundOverflowCount_ c = 0) as Hall.
  { intros [|ci] c Hc; cbn in Hc.
    - injection Hc as <-. destruct Hm. subst. done.
    - destruct (Hbl c) as (it & -> & Hit); [by eapply list_elem_of_lookup_2|].
      split; [apply blank_ok|]. split; [apply blank_slots|]. split; [done|]. split; [intros; apply blank_scale|done]. }
  split; [|done]. constructor.
  - done.
  - done.
  - intros ci c Hc. destruct (Hall ci c Hc) as (Hok & Hsl & Hr & He & _). constructor; try done.
    intros i. rewrite Hsl. by intros ?%not_elem_of_nil.
  - cbn. by rewrite (marked_scale _ _ _ Hm).
  - unfold entries. rewrite Hcells. intros ci c Hc. destruct (Hall ci c Hc) as (Hok & _ & _ & _ & Hh & Ho). constructor.
    + apply (ok_control _ Hok).
    + done.
    + lia.
    + by right.
Qed.

Lemma chunk_room_spec s scale : 0 <= s < 64 -> scale_ok s scale -> chunk_room (2 ^ s) scale = room s scale.
Proof.
  intros Hs Hok. unfold chunk_room, room. destruct (Z.eqb_spec s 0) as [->|Hne].
  - change (2 ^ 0 =? 1) with true. cbn iota. by rewrite <- (capacity_single scale) at 2.
  - rewrite (proj2 (Z.eqb_neq _ _)); [done|]. intros E. apply Hne. apply (Z.pow_inj_r 2); [lia|lia|lia|]. by rewrite E.
Qed.

Lemma initializeChunks_spec s scale :
  0 <= s < 64 -> scale_ok s scale ->
  exists cs, initializeChunks (chunkAllocSize (2 ^ s) scale) (2 ^ s) scale = Some cs /\
    chunks_inv s scale cs /\ cells cs = [].
Proof.
  intros Hs Hok. unfold initializeChunks. pose proof (scale_alloc _ _ Hok) as Hal. unfold alloc_ok in Hal. rewrite (proj2 (Z.ltb_ge _ _)) by lia.
  rewrite chunk_room_spec by done. set (items := replicate (room s scale) None).
  change (clear_chunk (mkChunk (replicate 14 0) 0 0 items)) with (blank items).
  fold (nchunks s). destruct (nchunks s) as [|n] eqn:En; [pose proof (nchunks_Z s Hs); pose proof (pow_s_pos s Hs); lia|].
  cbn [replicate]. destruct (markEof_spec scale items) as (c & -> & Hm).
  { split; [apply Hok|apply Hok]. }
  cbn [mbind option_bind]. eexists. split; [done|]. apply fresh_inv.
  - done.
  - by rewrite En; cbn; rewrite length_replicate.
  - exists items. split; [done|]. apply length_replicate.
  - apply Forall_replicate. exists items. split; [done|]. apply length_replicate.
Qed.
End Init.

(** ** Moving items *)

Section Move.
Context {Item Key : Type} `{!SizeofItem Item} `{!F14Policy Item Key} `{!EqDecision Key}.
Context `{!F14PolicyLaws Item Key}.
Implicit Types (t : F14Table Item) (c : F14Chunk Item) (cs : list (F14Chunk Item)) (x : Item).

(** The first [n] slots are full. *)
Definition packed_slots (n : nat) c : Prop :=
  (n <= kCapacity)%nat /\ forall i, (i < kCapacity)%nat -> full_slot c i = bool_decide (i < n)%nat.

Lemma packed_slots_seq n c : packed_slots n c -> slots c = seq 0 n.
Proof.
  intros [Hn Hf]. unfold slots. replace kCapacity with (n + (kCapacity - n))%nat by lia.
  rewrite seq_app, filter_app, filter_all.
  - assert (filter (fun i => full_slot c i = true) (seq (0 + n) (kCapacity - n)) = []) as ->; [|apply app_nil_r].
    apply elem_of_nil_inv. intros i [E Hi]%list_elem_of_filter. apply elem_of_seq in Hi.
    rewrite Hf, bool_decide_false in E by lia. done.
  - intros i Hi%elem_of_seq. rewrite Hf by lia. by apply bool_decide_true; lia.
Qed.

Lemma packed_slots_nil c : slots c = [] -> packed_slots 0 c.
Proof.
  intros E. split; [lia|]. intros i Hi. rewrite bool_decide_false by lia. destruct (full_slot c i) eqn:Ef; [|done].
  assert (i ∈ slots c) as Hin by (by apply elem_of_slots). rewrite E in Hin. by apply not_elem_of_nil in Hin.
Qed.

Lemma packed_slots_put n c tg x :
  packed_slots n c -> (n < kCapacity)%nat -> chunk_ok c -> is_tag tg -> packed_slots (S n) (put n tg x c).
Proof.
  intros [_ Hf] Hk Hok Htag. pose proof kCapacity_le. split; [lia|]. intros i Hi. unfold put.
  rewrite full_slot_insert by (rewrite (ok_length _ Hok); lia). destruct (decide (i = n)) as [->|Hne].
  - rewrite bool_decide_true by lia. apply negb_true_iff, Z.eqb_neq. unfold is_tag in Htag. lia.
  - rewrite Hf by done. apply bool_decide_ext. lia.
Qed.

(** A table under construction: [fullness] counts the items of each chunk, which are in its first
    slots. *)
Record building (s scale : Z) cs (fullness : list Z) : Prop := {
  bld_inv : chunks_inv s scale cs;
  bld_len : length fullness = nchunks s;
  bld_slots k c f : cs !! k = Some c -> fullness !! k = Some f -> 0 <= f /\ packed_slots (Z.to_nat f) c;
}.

Lemma no_cells_slots s scale cs k c :
  chunks_inv s scale cs -> cells cs = [] -> cs !! k = Some c -> slots c = [].
Proof.
  intros HI Hc Hk. apply elem_of_nil_inv. intros i Hi.
  destruct (inv_item _ _ _ (inv_chunk _ _ _ HI _ _ Hk) i Hi) as (x & Hx & _).
  assert ((k, i, x) ∈ cells cs) as Hin by (apply elem_of_cells; by exists c).
  rewrite Hc in Hin. by apply not_elem_of_nil in Hin.
Qed.

Lemma building_fresh s scale cs :
  chunks_inv s scale cs -> cells cs = [] -> building s scale cs (replicate (nchunks s) 0).
Proof.
  intros HI Hc. constructor; [done|apply length_replicate|]. intros k c f Hk [-> _]%lookup_replicate.
  split; [done|]. apply packed_slots_nil. by eapply no_cells_slots.
Qed.

Lemma insert_alter {A} (f : A -> A) i y (l : list A) : <[i := y]> (alter f i l) = <[i := y]> l.
Proof.
  apply list_eq. intros j. destruct (decide (i = j)) as [->|Hne].
  - destruct (decide (j < length l)%nat).
    + by rewrite !list_lookup_insert_eq by (rewrite ?length_alter; done).
    + by rewrite !list_insert_ge, list_lookup_alter_eq, (proj2 (lookup_ge_None _ _)) by (rewrite ?length_alter; lia).
  - by rewrite !list_lookup_insert_ne, list_lookup_alter_ne.
Qed.

(** The chunk that [allocateTag] finds. *)
Lemma allocateTag_find scale fullness hp t :
  let s := chunkShift t in
  building s scale (chunks_ t) fullness -> scale_ok s scale ->
  Z.of_nat (length (cells (chunks_ t))) < computeCapacity (2 ^ s) scale ->
  exists cf c f, chunks_ t !! cf = Some c /\ fullness !! cf = Some f /\ 0 <= f < Z.of_nat kCapacity /\
    packed_slots (Z.to_nat f) c /\
    allocateTag_loop (S (length (chunks_ t))) hp hp.1 0 fullness t =
      Some (cf, if decide (path s hp cf = []) then 0 else kIncrHostedOverflowCount,
            set_chunks (along incrOutboundOverflowCount (path s hp cf) (chunks_ t)) t).
Proof.
  intros s [HI Hlen Hsl] Hok Hn. pose proof (inv_shift _ _ _ HI) as Hs. set (cs := chunks_ t) in *.
  apply (capacity_room s scale) in Hn; [|done|done].
  assert (forall k c f, cs !! k = Some c -> fullness !! k = Some f -> Z.of_nat (length (slots c)) = f) as Hlf.
  { intros k c f Hc Hf. destruct (Hsl k c f Hc Hf) as [H0 Hp]. rewrite (packed_slots_seq _ _ Hp), length_seq. lia. }
  set (free k := match fullness !! k with Some f => f <? Z.of_nat kCapacity | None => false end).
  destruct (tour_first s Hs hp (fun k => free k = true)) as (pre & cf & post & Ht & Hfree & Hpre).
  { destruct (free_chunk s scale cs HI ltac:(lia)) as (k & Hk & c & Hc & Hlt). exists k. split; [done|].
    destruct (lookup_lt_is_Some_2 fullness k) as [f Hf]; [by rewrite Hlen|]. unfold free. rewrite Hf.
    specialize (Hlf k c f Hc Hf). apply Z.ltb_lt. lia. }
  unfold free in Hfree. destruct (fullness !! cf) as [f|] eqn:Hf; [|done]. apply Z.ltb_lt in Hfree.
  assert (cf < nchunks s)%nat as Hcf by (rewrite <- Hlen; by eapply lookup_lt_Some).
  destruct (lookup_lt_is_Some_2 cs cf) as [c Hc]; [by rewrite (inv_length _ _ _ HI)|].
  destruct (Hsl cf c f Hc Hf) as [H0 Hps]. exists cf, c, f. split; [done|]. split; [done|]. split; [done|]. split; [done|].
  pose proof (path_app s Hs hp _ _ _ Ht) as Hp. pose proof (tour_NoDup s Hs hp) as Hnd. rewrite Ht in Hnd.
  apply NoDup_app in Hnd as (Hnd & Hdis & _). rewrite Hp.
  rewrite (allocateTag_loop_spec _ hp pre cf post 0 _ _ fullness f); try done.
  - apply on_tour_0.
  - intros Hin. apply (Hdis _ Hin). left.
  - intros k Hk. rewrite Forall_forall in Hpre. specialize (Hpre k Hk). unfold free in Hpre.
    assert (k < nchunks s)%nat as Hlk by (apply (elem_of_tour s Hs hp); rewrite Ht; apply elem_of_app; by left).
    destruct (lookup_lt_is_Some_2 cs k) as [d Hd]; [by rewrite (inv_length _ _ _ HI)|].
    destruct (lookup_lt_is_Some_2 fullness k) as [g Hg]; [by rewrite Hlen|].
    exists d, g. split; [done|]. split; [by apply (inv_header _ _ _ HI _ _ Hd)|]. split; [done|].
    rewrite Hg in Hpre. destruct (Z.ltb_spec g (Z.of_nat kCapacity)); [done|lia].
  - fold cs. rewrite (inv_length _ _ _ HI), <- (length_tour s hp), Ht, length_app. cbn. lia.
Qed.

Lemma enter_along s hp cf cs c :
  0 <= s < 64 -> (cf < nchunks s)%nat -> cs !! cf = Some c ->
  along incrOutboundOverflowCount (path s hp cf) cs !! cf = Some c /\
  enter s hp cf cs !! cf = Some (adjustHostedOverflowCount
    (if decide (path s hp cf = []) then 0 else kIncrHostedOverflowCount) c).
Proof.
  intros Hs Hcf Hc. rewrite lookup_enter, (decide_True (P := cf = cf)), Hc by done. split; [|done].
  rewrite lookup_along, decide_False by (by apply path_NoDup || apply path_not_self). done.
Qed.

(** One item moved: its tag is allocated, then it is written. *)
Lemma allocateTag_spec scale fullness hp x t :
  let s := chunkShift t in
  building s scale (chunks_ t) fullness -> scale_ok s scale ->
  Z.of_nat (length (cells (chunks_ t))) < computeCapacity (2 ^ s) scale ->
  (forall cf, path s hp cf = path s (hash_pair x) cf) -> hp.2 = (hash_pair x).2 ->
  exists cf i c1 fullness' cs',
    enter s hp cf (chunks_ t) !! cf = Some c1 /\ packed_slots i c1 /\ (i < kCapacity)%nat /\ (i < room s scale)%nat /\
    header_inv s (enter s hp cf (chunks_ t)) ((cf, hp) :: entries (chunks_ t)) /\
    allocateTag fullness hp t =
      Some ((cf, i), fullness', set_chunks (<[cf := with_tag i hp.2 c1]> (enter s hp cf (chunks_ t))) t) /\
    cs' = <[cf := put i hp.2 x c1]> (enter s hp cf (chunks_ t)) /\
    building s scale cs' fullness' /\ cells cs' ≡ₚ (cf, i, x) :: cells (chunks_ t).
Proof using F14PolicyLaws0.
  intros s HB Hok Hn Hpath Htg. destruct (allocateTag_find scale fullness hp t HB Hok Hn)
    as (cf & c & f & Hc & Hf & Hfr & Hps & Hloop). fold s in Hloop.
  pose proof HB as [HI Hlen Hsl]. pose proof (inv_shift _ _ _ HI) as Hs. set (cs := chunks_ t) in *.
  assert (cf < nchunks s)%nat as Hcf by (rewrite <- Hlen; by eapply lookup_lt_Some).
  destruct (enter_along s hp cf cs c Hs Hcf Hc) as [Ha He]. set (op := if decide _ then _ else _) in *.
  pose proof (hash_pair_tag x) as Htag. rewrite <- Htg in Htag. set (i := Z.to_nat f) in *. pose proof kCapacity_le as Hk.
  assert (i < kCapacity)%nat as Hik by (subst i; lia).
  assert (full_slot c i = false) as Hfs by (rewrite (proj2 Hps) by done; by apply bool_decide_false; lia).
  destruct (enter_chunks s scale hp cf cs c i HI Hc Hik Hfs) as (Hh & Hch & _).
  pose proof (Hch _ _ He) as Hci1. set (c1 := adjustHostedOverflowCount op c) in *.
  assert (i < room s scale)%nat as Hir.
  { apply (slot_room s scale cs cf c); try done. by rewrite (packed_slots_seq _ _ Hps), length_seq. }
  destruct (place_inv s scale cs cf c c1 i x hp HI Hc Hik Hir Hfs (Hpath cf) He) as [HI' Hcells]. rewrite <- Htg in HI', Hcells.
  exists cf, i, c1, (<[cf := f + 1]> fullness), (<[cf := put i hp.2 x c1]> (enter s hp cf cs)).
  split; [done|]. split; [done|]. split; [done|]. split; [done|]. split; [done|]. split; [|split; [done|split; [|done]]].
  - unfold allocateTag. fold cs. rewrite Hloop. cbn [mbind option_bind]. unfold load. rewrite Hf. cbn [mbind option_bind].
    rewrite store_in_bounds by (by eapply lookup_lt_Some). cbn [mbind option_bind].
    rewrite wrap_small by (unfold is_uint; lia). fold i. pose proof (inv_ok _ _ _ (inv_chunk _ _ _ HI _ _ Hc)) as Hcok.
    destruct (inv_header _ _ _ HI _ _ Hc) as [_ _ Hr _].
    rewrite (update_chunk_spec cf _ c (with_tag i hp.2 c)) by (done || lia || by apply setTag_spec). cbn [mbind option_bind].
    rewrite (update_chunk_spec cf _ (with_tag i hp.2 c) (with_tag i hp.2 c1)); cbn [set_chunks chunks_].
    + cbn [mbind option_bind]. unfold enter. by rewrite list_insert_insert_eq, insert_alter.
    + rewrite list_lookup_insert_eq; [done|]. by eapply lookup_lt_Some.
    + cbn. lia.
    + done.
  - constructor; [done|by rewrite length_insert|]. intros k d g Hd Hg. destruct (decide (k = cf)) as [->|Hne].
    + rewrite list_lookup_insert_eq in Hd by (by eapply lookup_lt_Some).
      rewrite list_lookup_insert_eq in Hg by (by eapply lookup_lt_Some). injection Hd as <-. injection Hg as <-.
      split; [lia|]. replace (Z.to_nat (f + 1)) with (S i) by lia. apply packed_slots_put; try done. apply Hci1.
    + rewrite list_lookup_insert_ne in Hd by congruence. rewrite list_lookup_insert_ne in Hg by congruence.
      destruct (lookup_body _ _ _ _ (enter_body s hp cf cs) Hd) as (d' & Hd' & E).
      destruct (Hsl k d' g Hd' Hg) as [? [Hle Hff]]. split; [done|]. split; [done|]. intros j Hj.
      rewrite <- Hff by done. unfold full_slot. by injection E as -> _ _.
Qed.

Lemma move_item_spec t cf i tg x c1 cs1 :
  cs1 !! cf = Some c1 -> outboundOverflowCount_ c1 <= 254 -> (i < length (rawItems_ c1))%nat ->
  move_item (cf, i) x (set_chunks (<[cf := with_tag i tg c1]> cs1) t) = Some (set_chunks (<[cf := put i tg x c1]> cs1) t).
Proof.
  intros Hc Ho Hi. unfold move_item. cbn [fst snd].
  rewrite (update_chunk_spec cf _ (with_tag i tg c1) (put i tg x c1)); cbn [set_chunks chunks_].
  - by rewrite list_insert_insert_eq.
  - apply list_lookup_insert_eq. by eapply lookup_lt_Some.
  - done.
  - by apply (set_item_spec i (Some x) (with_tag i tg c1)).
Qed.
End Move.
