(* ===== verification/F14Reserve.v ===== *)
(** [rehashImpl], the reservations and clearing of F14 tables: the items stay (or go), the
    invariant is kept, and a failed allocation leaves the table as it was. *)
From S2P Require Import Prelude Sse F14Mask F14Chunk F14Table F14Probe F14Inv F14Find F14Update F14Rehash.

Section Rehash.
Context {Item Key : Type} `{!SizeofItem Item} `{!F14Policy Item Key} `{!EqDecision Key}.
Context `{!F14PolicyLaws Item Key}.
Implicit Types (t : F14Table Item) (c : F14Chunk Item) (cs : list (F14Chunk Item)) (x : Item).

(** ** Into several chunks *)

(** The items in the given slots of a chunk. *)
Definition items_of c (l : list nat) : list Item := omap (fun i => item i c) l.

Lemma row_items ci c : snd <$> row ci c = items_of c (slots c).
Proof. unfold row, items_of. induction (slots c) as [|i l IH]; cbn; [done|]. destruct (item i c); cbn; by rewrite IH. Qed.

Lemma rehash_items_spec r ci src l scale fullness remaining t :
  let s := chunkShift t in
  chunk_inv r ci src -> (forall i, i ∈ l -> i ∈ slots src) ->
  building s scale (chunks_ t) fullness -> scale_ok s scale ->
  Z.of_nat (length (cells (chunks_ t)) + length l) <= computeCapacity (2 ^ s) scale ->
  Z.of_nat (length l) <= remaining < 2 ^ 64 ->
  exists fullness' cs',
    rehash_items src l remaining fullness t = Some (remaining - Z.of_nat (length l), fullness', set_chunks cs' t) /\
    building s scale cs' fullness' /\
    snd <$> cells cs' ≡ₚ items_of src l ++ (snd <$> cells (chunks_ t)).
Proof using F14PolicyLaws0.
  intros s Hsrc. revert fullness remaining t s.
  induction l as [|i l IH]; intros fullness remaining t s Hl HB Hok Hn Hrem; cbn [rehash_items].
  - exists fullness, (chunks_ t). split; [|done]. cbn. rewrite Z.sub_0_r. by destruct t.
  - destruct (inv_item _ _ _ Hsrc i) as (x & Hx & Htg); [apply Hl; left|].
    rewrite Hx. cbn [mbind option_bind]. unfold tag, load. rewrite Htg. cbn [mbind option_bind].
    fold (hash_pair x). rewrite Z.eqb_refl. cbn [length] in Hn, Hrem.
    destruct (allocateTag_spec scale fullness (hash_pair x) x t) as
      (cf & k & c1 & fullness1 & cs1 & Hc1 & Hps & Hk & Hr & Hh & -> & Ecs & HB1 & Hcells); try done; [fold s; lia|].
    fold s in Hc1, Hr, Hh, Ecs, HB1. cbn [mbind option_bind]. destruct (Hh _ _ Hc1) as [_ _ Ho _].
    fold s. rewrite (move_item_spec t cf k _ x c1); [|done|lia|].
    2: { pose proof (bld_inv _ _ _ _ HB) as HI.
         assert (exists c, chunks_ t !! cf = Some c /\ body c1 = body c) as (c & Hc & E)
           by (eapply lookup_body; [apply enter_body|done]).
         pose proof (inv_room _ _ _ (inv_chunk _ _ _ HI _ _ Hc)) as Hlen. injection E as _ E _. rewrite E. lia. }
    cbn [mbind option_bind]. rewrite <- Ecs.
    destruct (IH fullness1 (u64 (remaining - 1)) (set_chunks cs1 t)) as (fullness' & cs' & E & HB' & Hc'); try done.
    + intros j Hj. apply Hl. by right.
    + cbn [set_chunks chunks_]. change (chunkShift (set_chunks cs1 t)) with s. rewrite Hcells. cbn [length]. lia.
    + rewrite wrap_small by (unfold is_uint; lia). lia.
    + exists fullness', cs'. rewrite wrap_small in E by (unfold is_uint; lia). split; [|split; [done|]].
      * rewrite wrap_small by (unfold is_uint; lia). rewrite E. cbn [length]. do 3 f_equal. lia.
      * rewrite Hc'. cbn [set_chunks chunks_]. rewrite Hcells. unfold items_of. cbn [omap list_omap]. rewrite Hx.
        rewrite fmap_cons. cbn [app]. by rewrite Permutation_middle.
Qed.

Lemma cells_from_app n cs cs' : cells_from n (cs ++ cs') = cells_from n cs ++ cells_from (n + length cs) cs'.
Proof.
  revert n. induction cs as [|c cs IH]; intros n; cbn [cells_from app length].
  - by rewrite Nat.add_0_r.
  - rewrite IH, (assoc_L (++)). do 2 f_equal. lia.
Qed.

Lemma cells_take_S cs n c :
  cs !! n = Some c -> cells (take (S n) cs) = cells (take n cs) ++ row n c.
Proof.
  intros Hc. rewrite (take_S_r _ _ c) by done. unfold cells. rewrite cells_from_app. cbn [cells_from].
  rewrite app_nil_r, length_take_le; [done|]. apply lookup_lt_Some in Hc. lia.
Qed.

Lemma rehash_chunks_spec r n src scale fullness t :
  let s := chunkShift t in
  (forall ci c, src !! ci = Some c -> chunk_inv r ci c) -> (n <= length src)%nat ->
  building s scale (chunks_ t) fullness -> scale_ok s scale ->
  Z.of_nat (length (cells (chunks_ t)) + length (cells (take n src))) <= computeCapacity (2 ^ s) scale ->
  exists fullness' cs',
    rehash_chunks n src (Z.of_nat (length (cells (take n src)))) fullness t = Some (fullness', set_chunks cs' t) /\
    building s scale cs' fullness' /\
    snd <$> cells cs' ≡ₚ (snd <$> cells (take n src)) ++ (snd <$> cells (chunks_ t)).
Proof using F14PolicyLaws0.
  intros s Hsrc. revert fullness t s. induction n as [|n IH]; intros fullness t s Hn HB Hok Hlen; cbn [rehash_chunks].
  - exists fullness, (chunks_ t). split; [|done]. cbn. by destruct t.
  - destruct (lookup_lt_is_Some_2 src n) as [c Hc]; [lia|]. pose proof (Hsrc _ _ Hc) as Hci.
    rewrite (cells_take_S _ _ c) in * by done. rewrite length_app, length_row in *.
    2,3: intros i Hi; destruct (inv_item _ _ _ Hci i Hi) as (x & ? & _); by exists x.
    set (a := length (cells (take n src))) in *. set (b := length (slots c)) in *.
    destruct (Z.ltb_spec 0 (Z.of_nat (a + b))) as [Hpos|Hz].
    + unfold load. rewrite Hc. cbn [mbind option_bind]. rewrite occupiedIter_spec by apply Hci.
      pose proof (scale_max _ _ Hok) as Hmax. unfold kMaxSize, kSizeShift in Hmax.
      destruct (rehash_items_spec r n c (slots c) scale fullness (Z.of_nat (a + b)) t) as (f1 & cs1 & -> & HB1 & Hc1); try done.
      { fold s b. lia. }
      { fold b. lia. }
      cbn [mbind option_bind]. fold b. replace (Z.of_nat (a + b) - Z.of_nat b) with (Z.of_nat a) by lia.
      assert (length (cells cs1) = (length (cells (chunks_ t)) + b)%nat) as Hl1.
      { pose proof (Permutation_length Hc1) as E. rewrite length_app, !length_fmap in E. etransitivity; [exact E|].
        rewrite <- (row_items n), length_fmap, length_row; [fold b; lia|].
        intros i Hi. destruct (inv_item _ _ _ Hci i Hi) as (x & ? & _). by exists x. }
      destruct (IH f1 (set_chunks cs1 t)) as (f' & cs' & E & HB' & Hc'); try done.
      { lia. }
      { cbn [set_chunks chunks_]. change (chunkShift (set_chunks cs1 t)) with s. fold a. lia. }
      exists f', cs'. split; [done|]. split; [done|]. rewrite Hc'. cbn [set_chunks chunks_]. rewrite Hc1, fmap_app, row_items.
      solve_perm.
    + exists fullness, (chunks_ t). split; [by destruct t|]. split; [done|].
      assert (a = 0 /\ b = 0)%nat as [Ha Hb] by lia. apply nil_length_inv in Ha. unfold b in Hb.
      rewrite Ha. rewrite fmap_app, row_items. apply nil_length_inv in Hb. by rewrite Hb.
Qed.

Lemma last_filled_spec s scale cs fullness n :
  building s scale cs fullness -> (n <= nchunks s)%nat ->
  (exists q, occ cs q /\ (q.1 < n)%nat) ->
  exists b, last_filled n fullness = Some b /\ occ cs b /\
    forall q, occ cs q -> (q.1 < n)%nat -> ~ pos_lt b q.
Proof.
  intros HB. pose proof HB as [HI Hlen Hsl].
  assert (forall k f q, fullness !! k = Some f -> occ cs q -> q.1 = k -> (q.2 < Z.to_nat f)%nat) as Hocc.
  { intros k f q Hf (c & Hc & Hq) <-. destruct (Hsl _ c f Hc Hf) as [_ Hp]. rewrite (packed_slots_seq _ _ Hp) in Hq.
    apply elem_of_seq in Hq. lia. }
  induction n as [|n IH]; intros Hn (q & Hq & Hlt); [lia|]. cbn [last_filled].
  destruct (lookup_lt_is_Some_2 fullness n) as [f Hf]; [lia|]. unfold load. rewrite Hf. cbn [mbind option_bind].
  destruct (lookup_lt_is_Some_2 cs n) as [c Hc]; [rewrite (inv_length _ _ _ HI); lia|].
  destruct (Hsl n c f Hc Hf) as [H0 Hp]. destruct (Z.eqb_spec f 0) as [->|Hne].
  - assert (forall q, occ cs q -> q.1 <> n) as Hnone by (intros q' Hq' E; pose proof (Hocc n 0 q' Hf Hq' E); lia).
    destruct IH as (b & -> & Hb & Hmax); [lia|exists q; split; [done|]; specialize (Hnone q Hq); lia|].
    exists b. split; [done|]. split; [done|]. intros q' Hq' Hlt'. apply Hmax; [done|]. specialize (Hnone q' Hq'). lia.
  - exists (n, Z.to_nat f - 1)%nat. split; [done|]. split.
    + exists c. split; [done|]. cbn [snd]. rewrite (packed_slots_seq _ _ Hp). apply elem_of_seq. lia.
    + intros q' Hq' Hlt' [Hl|[E Hl]]; cbn [fst snd] in *; [lia|]. pose proof (Hocc n f q' Hf Hq' (eq_sym E)). lia.
Qed.

Lemma last_filled_begin s scale cs fullness :
  building s scale cs fullness -> cells cs <> [] ->
  exists b, last_filled (nchunks s) fullness = Some b /\ begin_inv (Some b) (fst <$> cells cs).
Proof.
  intros HB Hne. pose proof (bld_inv _ _ _ _ HB) as HI.
  assert (forall q, occ cs q -> (q.1 < nchunks s)%nat) as Hlt.
  { intros q (c & Hc & _). rewrite <- (inv_length _ _ _ HI). by eapply lookup_lt_Some. }
  destruct (last_filled_spec s scale cs fullness (nchunks s) HB) as (b & Eb & Hb & Hmax); [done| |].
  - destruct (cells cs) as [|[p x] l] eqn:E; [done|]. exists p.
    assert (occ cs p) as Hp; [|auto]. apply (occ_cells _ _ _ _ HI). rewrite E. left.
  - exists b. split; [done|]. split; [by apply (occ_cells _ _ _ _ HI)|]. intros q Hq%(occ_cells _ _ _ _ HI).
    apply packed_lt_false. auto.
Qed.

(** ** Into one chunk *)

Lemma path_single hp : path 0 hp 0 = [].
Proof. apply path_nil; [lia|unfold nchunks; cbn; lia|]. pose proof (probe_lt 0 ltac:(lia) hp 0) as H. change (nchunks 0) with 1%nat in H. lia. Qed.

(** The full slots from [i] on. *)
Definition slots_from c (i : nat) : list nat := filter (fun j => full_slot c j = true) (seq i (kCapacity - i)).

Lemma slots_from_0 c : slots_from c 0 = slots c.
Proof. unfold slots_from, slots. by rewrite Nat.sub_0_r. Qed.

Lemma slots_from_S c i :
  (i < kCapacity)%nat -> slots_from c i = (if full_slot c i then [i] else []) ++ slots_from c (S i).
Proof.
  intros Hi. unfold slots_from. replace (kCapacity - i)%nat with (S (kCapacity - S i)) by lia. cbn [seq].
  rewrite filter_cons. destruct (full_slot c i); repeat case_decide; done.
Qed.

Lemma slots_from_end c i : (kCapacity <= i)%nat -> slots_from c i = [].
Proof. intros Hi. unfold slots_from. by replace (kCapacity - i)%nat with 0%nat by lia. Qed.

Lemma rehash_single_spec r src fuel srcI dstI scale c t :
  chunkShift t = 0 -> chunks_ t = [c] -> chunks_inv 0 scale [c] -> scale_ok 0 scale -> packed_slots dstI c ->
  chunk_inv r 0 src -> (kCapacity - srcI <= fuel)%nat ->
  let n := (dstI + length (slots_from src srcI))%nat in
  Z.of_nat n <= scale ->
  exists c', rehash_single fuel src n srcI dstI t = Some (set_chunks [c'] t) /\
    chunks_inv 0 scale [c'] /\ packed_slots n c' /\
    snd <$> cells [c'] ≡ₚ items_of src (slots_from src srcI) ++ (snd <$> cells [c]).
Proof using F14PolicyLaws0.
  revert srcI dstI c t. induction fuel as [|fuel IH]; intros srcI dstI c t Hsh Ht HI Hok Hps Hsrc Hf n Hn; subst n.
  { rewrite slots_from_end in * by lia. cbn [length] in *. rewrite Nat.add_0_r in *.
    exists c. cbn [rehash_single]. rewrite Nat.ltb_irrefl. split; [|done]. rewrite <- Ht. by destruct t. }
  destruct (decide (srcI < kCapacity)%nat) as [Hlt|Hge].
  2: { rewrite slots_from_end in * by lia. cbn [length] in *. rewrite Nat.add_0_r in *.
       exists c. cbn [rehash_single]. rewrite Nat.ltb_irrefl. split; [|done]. rewrite <- Ht. by destruct t. }
  rewrite (slots_from_S src srcI) in * by done. cbn [rehash_single]. rewrite length_app in *.
  destruct (full_slot src srcI) eqn:Efs; cbn [length app plus] in *.
  - rewrite (proj2 (Nat.ltb_lt _ _)) by lia. rewrite occupied_spec by (done || apply Hsrc). rewrite Efs.
    cbn [mbind option_bind]. destruct (inv_item _ _ _ Hsrc srcI) as (x & Hx & Htg); [by apply elem_of_slots|].
    unfold tag, load. rewrite Htg. cbn [mbind option_bind]. pose proof (hash_pair_tag x) as Htag.
    pose proof (inv_chunk _ _ _ HI 0%nat c eq_refl) as Hci. pose proof (inv_header _ _ _ HI 0%nat c eq_refl) as Hh.
    pose proof (scale_single _ _ Hok eq_refl) as Hsc. pose proof (scale_pos _ _ Hok).
    assert (full_slot c dstI = false) as Hfd by (rewrite (proj2 Hps) by lia; apply bool_decide_false; lia).
    assert (dstI < room 0 scale)%nat as Hroom by (unfold room; cbn; lia).
    rewrite (update_chunk_spec 0 _ c (with_tag dstI (hash_pair x).2 c)).
    2: by rewrite Ht. 2: apply Hh. 2: apply setTag_spec; [apply Hci|lia|done|done].
    cbn [mbind option_bind]. rewrite Hx. cbn [mbind option_bind]. rewrite Ht.
    rewrite (move_item_spec t 0 dstI _ x c [c]); [|done|apply Hh|rewrite (inv_room _ _ _ Hci); done].
    cbn [mbind option_bind insert list_insert].
    assert (enter 0 (hash_pair x) 0 [c] = [c]) as He.
    { eapply enter_nil; [apply (inv_header _ _ _ HI)|apply path_single]. }
    destruct (place_inv 0 scale [c] 0 c c dstI x (hash_pair x) HI eq_refl) as [HI' Hcells]; try done; [lia|by rewrite He|].
    rewrite He in HI', Hcells. cbn [insert list_insert] in HI', Hcells.
    destruct (IH (S srcI) (S dstI) (put dstI (hash_pair x).2 x c) (set_chunks [put dstI (hash_pair x).2 x c] t))
      as (c' & E & HIc & Hps' & Hcc); try done; [apply packed_slots_put; (done || lia || apply Hci)|lia|lia|].
    exists c'. replace (dstI + S (length (slots_from src (S srcI))))%nat
      with (S dstI + length (slots_from src (S srcI)))%nat by lia.
    split; [done|]. split; [done|]. split; [done|]. rewrite Hcc, Hcells. unfold items_of. cbn [omap list_omap].
    rewrite Hx, fmap_cons. by rewrite <- Permutation_middle.
  - destruct (Nat.ltb_spec dstI (dstI + length (slots_from src (S srcI)))%nat) as [Hd|Hd].
    + rewrite occupied_spec by (done || apply Hsrc). rewrite Efs. cbn [mbind option_bind].
      by apply (IH (S srcI) dstI c t); try done; [lia].
    + assert (slots_from src (S srcI) = []) as -> by (apply nil_length_inv; lia). rewrite Nat.add_0_r.
      exists c. split; [|done]. rewrite <- Ht. by destruct t.
Qed.

(** ** [rehashImpl] *)

Lemma default_cells : cells (chunks_ (F14Table_default : F14Table Item)) = [].
Proof. apply empty_cells. intros c [->|[]%not_elem_of_nil]%elem_of_cons. apply slots_nil. intros i _. apply nth_zeros. Qed.

(** What valid tables have in common. *)
Record valid_facts t : Prop := {
  valid_packed : is_u64 (packedSizeAndChunkShift_ t);
  valid_shift : 0 <= chunkShift t < 64;
  valid_size : size_ t = Z.of_nat (length (cells (chunks_ t)));
  valid_keys : NoDup (keyForItem <$> contents t);
  valid_begin : cells (chunks_ t) = [] -> packedBegin_ t = None;
  valid_capacity : size_ t <= capacity t <= kMaxSize;
}.

Lemma default_scale : table_scale (F14Table_default : F14Table Item) = 0.
Proof. unfold table_scale. cbn [F14Table_default chunks_]. unfold capacityScale. by destruct (_ =? 4). Qed.

Lemma default_capacity : capacity (F14Table_default : F14Table Item) = 0.
Proof. unfold capacity, computeCapacity. by rewrite default_scale, Z.mul_0_r. Qed.

Lemma valid_elim t : valid t -> valid_facts t.
Proof.
  intros [->|HI].
  - pose proof default_cells as E. pose proof default_capacity as Ec. constructor.
    + unfold is_uint. cbn [F14Table_default packedSizeAndChunkShift_]. lia.
    + change (chunkShift F14Table_default) with 0. lia.
    + rewrite E. done.
    + unfold contents. rewrite E. constructor.
    + done.
    + rewrite Ec. unfold kMaxSize, kSizeShift. change (size_ F14Table_default) with 0. lia.
  - constructor.
    + apply (inv_packed _ HI).
    + apply (inv_shift _ _ _ (inv_chunks _ HI)).
    + apply (inv_size _ HI).
    + apply (inv_keys _ HI).
    + intros E. pose proof (inv_begin _ HI) as Hb. rewrite E in Hb. destruct kEnableItemIteration; [|done].
      destruct (packedBegin_ t); [|done]. destruct Hb as [Hb _]. by apply not_elem_of_nil in Hb.
    + split; [apply (inv_capacity _ HI)|apply (scale_max _ _ (inv_scale_ok _ HI))].
Qed.

Lemma table_intro s scale t :
  is_u64 (packedSizeAndChunkShift_ t) -> chunkShift t = s -> chunks_inv s scale (chunks_ t) -> scale_ok s scale ->
  size_ t = Z.of_nat (length (cells (chunks_ t))) -> size_ t <= computeCapacity (2 ^ s) scale ->
  NoDup (keyForItem <$> contents t) ->
  (if kEnableItemIteration then begin_inv (packedBegin_ t) (fst <$> cells (chunks_ t)) else packedBegin_ t = None) ->
  table_inv t /\ capacity t = computeCapacity (2 ^ s) scale.
Proof.
  intros Hp Hs HC Hok Hsz Hcap Hk Hb. pose proof (table_scale_eq s scale t HC) as Esc. subst s.
  split; [|unfold capacity; by rewrite Esc]. constructor; rewrite ?Esc; try done. unfold capacity. by rewrite Esc.
Qed.

(** A table with rebuilt chunks and the same items. *)
Lemma table_rebuilt s scale t t' cs' b :
  valid_facts t -> 0 <= s < 64 -> scale_ok s scale -> size_ t <= computeCapacity (2 ^ s) scale ->
  chunks_inv s scale cs' -> snd <$> cells cs' ≡ₚ contents t ->
  (if kEnableItemIteration then begin_inv b (fst <$> cells cs') else b = None) ->
  packedSizeAndChunkShift_ t' = packedSizeAndChunkShift_ (setChunkCount (2 ^ s) t) ->
  chunks_ t' = cs' -> packedBegin_ t' = b ->
  table_inv t' /\ contents t' ≡ₚ contents t /\ capacity t' = computeCapacity (2 ^ s) scale.
Proof.
  intros HV Hs Hok Hcap HC Hcont Hb Ep Ec Eb.
  destruct (setChunkCount_spec s t Hs (valid_packed _ HV)) as (E1 & E2 & E3).
  assert (size_ t' = size_ t) as Esz by (unfold size_ in *; by rewrite Ep).
  assert (chunkShift t' = s) as Esh by (unfold chunkShift in *; by rewrite Ep).
  assert (contents t' ≡ₚ contents t) as Hc by (unfold contents at 1; by rewrite Ec).
  destruct (table_intro s scale t') as [HI Hcp]; try done.
  - by rewrite Ep.
  - by rewrite Ec.
  - rewrite Esz, (valid_size _ HV), Ec. f_equal. rewrite <- (length_fmap snd (cells cs')), Hcont.
    unfold contents. by rewrite length_fmap.
  - by rewrite Esz.
  - rewrite Hc. apply (valid_keys _ HV).
  - by rewrite Eb, Ec.
Qed.

(** Fresh chunks for a table without items. *)
Lemma rehash_empty s scale t cs :
  valid_facts t -> 0 <= s < 64 -> scale_ok s scale -> chunks_inv s scale cs -> cells cs = [] -> size_ t = 0 ->
  let t' := setChunkCount (2 ^ s) (set_chunks cs t) in
  table_inv t' /\ contents t' ≡ₚ contents t /\ capacity t' = computeCapacity (2 ^ s) scale.
Proof.
  intros HV Hs Hok HC Hcs Hsz t'. assert (cells (chunks_ t) = []) as Hnil.
  { apply nil_length_inv. pose proof (valid_size _ HV). lia. }
  assert (0 <= computeCapacity (2 ^ s) scale) by (unfold computeCapacity; by apply wrap_range).
  apply (table_rebuilt s scale t t' cs None); try done.
  - lia.
  - unfold contents. by rewrite Hcs, Hnil.
  - rewrite Hcs. by destruct kEnableItemIteration.
  - apply (valid_begin _ HV Hnil).
Qed.

Lemma pow_eq_1 s : 0 <= s -> (2 ^ s =? 1) = (s =? 0).
Proof.
  intros Hs. destruct (Z.eqb_spec s 0) as [->|Hne]; [done|]. apply Z.eqb_neq. intros E. apply Hne.
  apply (Z.pow_inj_r 2); [lia|lia|lia|]. by rewrite E.
Qed.

Lemma single_list {A} (l : list A) : length l = 1%nat -> exists a, l = [a].
Proof. destruct l as [|a [|]]; try done. by exists a. Qed.

(** The items of one chunk go to the first slots of the other. *)
Lemma rehash_one scale t cs :
  table_inv t -> chunkShift t = 0 -> scale_ok 0 scale -> chunks_inv 0 scale cs -> cells cs = [] ->
  size_ t <> 0 -> size_ t <= scale ->
  exists src t', load (chunks_ t) 0 = Some src /\
    rehash_single 14 src (Z.to_nat (size_ t)) 0 0 (setChunkCount (2 ^ 0) (set_chunks cs t)) = Some t' /\
    let t'' := if kEnableItemIteration then set_begin (Some (0, Z.to_nat (size_ t) - 1)%nat) t' else t' in
    table_inv t'' /\ contents t'' ≡ₚ contents t /\ capacity t'' = computeCapacity (2 ^ 0) scale.
Proof using F14PolicyLaws0.
  intros HI Hsh Hok HC Hcs Hne Hle. pose proof (valid_elim t (or_intror HI)) as HV. pose proof kCapacity_le.
  pose proof (inv_chunks _ HI) as HCt. rewrite Hsh in HCt.
  destruct (single_list (chunks_ t)) as [src Hsrc]; [by rewrite (inv_length _ _ _ HCt)|].
  destruct (single_list cs) as [c Ec]; [by rewrite (inv_length _ _ _ HC)|]. subst cs.
  pose proof (inv_chunk _ _ _ HCt 0%nat src ltac:(by rewrite Hsrc)) as Hci.
  destruct (setChunkCount_spec 0 t ltac:(lia) (valid_packed _ HV)) as (E1 & E2 & E3).
  assert (Z.to_nat (size_ t) = length (slots_from src 0)) as Hn.
  { rewrite slots_from_0, (valid_size _ HV), Nat2Z.id, Hsrc. unfold cells. cbn [cells_from]. rewrite app_nil_r.
    apply length_row. intros i Hi. destruct (inv_item _ _ _ Hci i Hi) as (x & ? & _). by exists x. }
  destruct (rehash_single_spec (room 0 (table_scale t)) src 14 0 0 scale c (setChunkCount (2 ^ 0) (set_chunks [c] t))) as (c' & E & HC' & Hps & Hcc); try done.
  { apply packed_slots_nil. eapply (no_cells_slots _ _ _ 0); [exact HC|exact Hcs|done]. }
  { lia. }
  { cbn [plus]. rewrite <- Hn. pose proof (inv_size _ HI). lia. }
  cbn [plus] in E, Hps. rewrite <- Hn in E, Hps. exists src. eexists. split; [by rewrite Hsrc|]. split; [exact E|].
  assert (snd <$> cells [c'] ≡ₚ contents t) as Hcont.
  { rewrite Hcc, Hcs, app_nil_r, slots_from_0, <- (row_items 0). unfold contents, cells. rewrite Hsrc. cbn [cells_from].
    by rewrite app_nil_r. }
  assert (slots c' = seq 0 (Z.to_nat (size_ t))) as Hsl by by apply packed_slots_seq.
  pose proof (inv_size _ HI). assert (begin_inv (Some (0, Z.to_nat (size_ t) - 1)%nat) (fst <$> cells [c'])) as Hb.
  { split.
    - apply (occ_cells _ _ _ _ HC'). exists c'. split; [done|]. cbn [snd]. rewrite Hsl. apply elem_of_seq. lia.
    - intros q (d & Hd & Hq)%(occ_cells _ _ _ _ HC'). apply packed_lt_false. destruct q as [[|k] j]; [|done].
      cbn in Hd. injection Hd as <-. cbn [snd] in Hq. rewrite Hsl in Hq. apply elem_of_seq in Hq.
      unfold pos_lt. cbn [fst snd]. lia. }
  apply (table_rebuilt 0 scale t _ [c'] (if kEnableItemIteration then Some (0, Z.to_nat (size_ t) - 1)%nat else None)); try done.
  - by rewrite capacity_single.
  - by destruct kEnableItemIteration.
  - by destruct kEnableItemIteration.
  - by destruct kEnableItemIteration.
  - pose proof (inv_begin _ HI) as Hbt. by destruct kEnableItemIteration.
Qed.

(** The items of all chunks go where their hashes say. *)
Lemma rehash_all s scale t cs :
  table_inv t -> 0 <= s < 64 -> scale_ok s scale -> chunks_inv s scale cs -> cells cs = [] ->
  size_ t <> 0 -> size_ t <= computeCapacity (2 ^ s) scale ->
  let t1 := setChunkCount (2 ^ s) (set_chunks cs t) in
  exists fullness t',
    rehash_chunks (nchunks (chunkShift t)) (chunks_ t) (size_ t) (replicate (nchunks s) 0) t1 = Some (fullness, t') /\
    chunkCount t' = 2 ^ s /\
    (if kEnableItemIteration then
       exists b, last_filled (nchunks s) fullness = Some b /\
         let t'' := set_begin (Some b) t' in
         table_inv t'' /\ contents t'' ≡ₚ contents t /\ capacity t'' = computeCapacity (2 ^ s) scale
     else table_inv t' /\ contents t' ≡ₚ contents t /\ capacity t' = computeCapacity (2 ^ s) scale).
Proof using F14PolicyLaws0.
  intros HI Hs Hok HC Hcs Hne Hle t1. pose proof (valid_elim t (or_intror HI)) as HV.
  pose proof (inv_chunks _ HI) as HCt. pose proof (inv_length _ _ _ HCt) as Hlen.
  destruct (setChunkCount_spec s t Hs (valid_packed _ HV)) as (E1 & E2 & E3).
  assert (chunkShift t1 = s) as Esh by done.
  destruct (rehash_chunks_spec (room (chunkShift t) (table_scale t)) (nchunks (chunkShift t)) (chunks_ t) scale (replicate (nchunks s) 0) t1)
    as (fullness & cs' & E & HB & Hcont).
  { apply (inv_chunk _ _ _ HCt). }
  { by rewrite Hlen. }
  { rewrite Esh. by apply building_fresh. }
  { by rewrite Esh. }
  { rewrite Esh. cbn [t1 setChunkCount set_packed set_chunks chunks_]. rewrite Hcs, take_ge by lia. cbn [length plus].
    by rewrite <- (valid_size _ HV). }
  rewrite Esh in HB. rewrite take_ge in E, Hcont by lia. rewrite <- (valid_size _ HV) in E.
  cbn [t1 setChunkCount set_packed set_chunks chunks_] in Hcont. rewrite Hcs, app_nil_r in Hcont.
  exists fullness, (set_chunks cs' t1). split; [done|]. split.
  { rewrite <- Esh. apply (chunkCount_pow (set_chunks cs' t1)). change (chunkShift t1 < 64). lia. }
  pose proof (inv_begin _ HI) as Hbt. pose proof (bld_inv _ _ _ _ HB) as HC'.
  destruct kEnableItemIteration eqn:Eit.
  - destruct (last_filled_begin s scale cs' fullness HB) as (b & Hb & Hbi).
    { intros En. rewrite En in Hcont. apply Permutation_nil in Hcont. apply fmap_nil_inv in Hcont.
      pose proof (valid_size _ HV) as Hsz. rewrite Hcont in Hsz. done. }
    exists b. split; [done|]. apply (table_rebuilt s scale t _ cs' (Some b)); try done. by rewrite Eit.
  - apply (table_rebuilt s scale t _ cs' None); try done. by rewrite Eit.
Qed.

(** The exit of a failed rehash restores the table. *)
Lemma undo_chunks s t cs :
  0 <= s < 64 -> is_u64 (packedSizeAndChunkShift_ t) -> 0 <= chunkShift t < 64 ->
  setChunkCount (2 ^ chunkShift t) (set_chunks (chunks_ t) (setChunkCount (2 ^ s) (set_chunks cs t))) = t.
Proof.
  intros Hs Hp Ht. destruct (setChunkCount_spec s (set_chunks cs t) Hs Hp) as (E1 & _ & E3).
  set (t2 := set_chunks (chunks_ t) _). pose proof (setChunkCount_packed (chunkShift t) t2 Ht E3) as E.
  change (size_ t2) with (size_ (setChunkCount (2 ^ s) (set_chunks cs t))) in E. rewrite E1 in E.
  change (size_ (set_chunks cs t)) with (size_ t) in E. rewrite <- packed_join in E by done.
  subst t2. destruct t as [cs0 p b]. unfold setChunkCount, set_packed, set_chunks in *. cbn in *. congruence.
Qed.

(** [rehashImpl] keeps the items, or fails to allocate and changes nothing. *)
Lemma rehashImpl_spec allocates s scale t :
  valid t -> 0 <= s < 64 -> scale_ok s scale -> size_ t <= computeCapacity (2 ^ s) scale ->
  exists t' r,
    rehashImpl allocates (size_ t) (chunkCount t) (table_scale t) (2 ^ s) scale t = Some (t', r) /\
    match r with
    | Ok _ => table_inv t' /\ contents t' ≡ₚ contents t /\ capacity t' = computeCapacity (2 ^ s) scale
    | Err e => t' = t /\ exists n, e = bad_alloc (Some n) /\ allocates n = false
    end.
Proof using F14PolicyLaws0.
  intros HV Hs Hok Hcap. pose proof (valid_elim t HV) as HVF. unfold rehashImpl.
  destruct (allocates (chunkAllocSize (2 ^ s) scale)) eqn:Ea; cbn [negb].
  2: { eexists t, (Err _). split; [done|]. eauto. }
  destruct (initializeChunks_spec s scale Hs Hok) as (cs & -> & HC & Hcs). cbn [mbind option_bind].
  destruct (Z.eqb_spec (size_ t) 0) as [Hz|Hnz].
  { eexists _, (Ok tt). split; [done|]. by apply rehash_empty. }
  destruct HV as [->|HI]; [done|]. rewrite chunkCount_pow by apply HVF. rewrite !pow_eq_1 by (lia || apply HVF).
  destruct ((chunkShift t =? 0) && (s =? 0)) eqn:E1.
  { apply andb_true_iff in E1 as [E1%Z.eqb_eq E2%Z.eqb_eq]. subst s.
    destruct (rehash_one scale t cs HI E1 Hok HC Hcs Hnz) as (src & t' & -> & E & Hres).
    { by rewrite <- (capacity_single scale). }
    cbn [mbind option_bind]. rewrite E. cbn [mbind option_bind]. eexists _, (Ok tt). split; [done|]. exact Hres. }
  destruct ((256 <? 2 ^ s) && negb (allocates (2 ^ s))) eqn:E2.
  { apply andb_true_iff in E2 as [_ E2]. eexists t, (Err _). split; [|split; [done|]].
    - rewrite undo_chunks by (done || apply HVF). done.
    - exists (2 ^ s). split; [done|]. by apply negb_true_iff. }
  destruct (rehash_all s scale t cs HI Hs Hok HC Hcs Hnz Hcap) as (fullness & t' & E & Ecc & Hres).
  fold (nchunks (chunkShift t)) (nchunks s). rewrite E. cbn [mbind option_bind]. rewrite Ecc. fold (nchunks s).
  destruct kEnableItemIteration.
  - destruct Hres as (b & -> & Hres). cbn [mbind option_bind]. eexists _, (Ok tt). split; [done|]. exact Hres.
  - eexists _, (Ok tt). split; [done|]. exact Hres.
Qed.

(** ** Reserving *)

(** The exception of a failure that is not the caller's: it has the request that the allocator
    refused, or the demand is more than the limit. *)
Definition no_memory (allocates : Z -> bool) (demand : Z) (e : f14_exn) : Prop :=
  match e with
  | bad_alloc (Some n) => allocates n = false
  | bad_alloc None => max_size < demand
  | construction_exception => False
  end.

Lemma no_memory_le allocates d d' e : no_memory allocates d e -> d <= d' -> no_memory allocates d' e.
Proof. destruct e as [[n|]|]; cbn; [done|lia|done]. Qed.

(** The result of an operation that keeps the items; it fails only without memory. *)
Definition keeps (allocates : Z -> bool) (demand : Z) t (P : F14Table Item -> Prop) (res : option (F14Table Item * result f14_exn unit)) : Prop :=
  exists t' r, res = Some (t', r) /\
    match r with
    | Ok _ => valid t' /\ contents t' ≡ₚ contents t /\ P t'
    | Err e => t' = t /\ no_memory allocates demand e
    end.

Lemma first_chunk_valid t : valid t -> exists c, first_chunk t = Some c /\ capacityScale c = table_scale t.
Proof.
  intros [->|HI].
  - exists emptyInstance. split; [done|]. done.
  - apply (first_chunk_scale (chunkShift t)). apply (inv_chunks _ HI).
Qed.

Lemma bucket_count_spec t : valid t -> bucket_count t = Some (capacity t).
Proof.
  intros HV. destruct (first_chunk_valid t HV) as (c & Hc & Hsc). unfold bucket_count. rewrite Hc. cbn [mbind option_bind].
  rewrite Hsc, chunkCount_pow by apply (valid_elim t HV). done.
Qed.

Lemma valid_size_range t : valid t -> 0 <= size_ t <= kMaxSize.
Proof. intros HV. pose proof (valid_elim t HV) as [_ _ Hs _ _ Hc]. lia. Qed.

Lemma maybeRehash_spec allocates desired exact t :
  valid t -> is_u64 desired -> 1 <= desired -> size_ t <= desired ->
  (kContinuousCapacity = true -> desired <= 2 ^ 63) ->
  keeps allocates (2 * desired) t (fun t' => desired <= capacity t') (maybeRehash allocates desired exact t).
Proof using F14PolicyLaws0.
  intros HV Hu H1 Hsz Hcont. destruct (first_chunk_valid t HV) as (c & Hc & Hsc). unfold maybeRehash, keeps.
  rewrite Hc. cbn [mbind option_bind]. rewrite Hsc, chunkCount_pow by apply (valid_elim t HV). fold (capacity t).
  pose proof (computeChunkCountAndScale_spec desired exact (kContinuousCapacity && exact) Hu H1) as Hcs.
  destruct (computeChunkCountAndScale _ _ _) as [[cc scale]|e].
  - destruct Hcs as (s & -> & [Hs Hok Hen _]).
    { intros [? ?]%andb_true_iff. auto. }
    destruct (Z.eqb_spec (capacity t) (computeCapacity (2 ^ s) scale)) as [E|E]; cbn [negb].
    + exists t, (Ok tt). split; [done|]. split; [done|]. split; [done|]. lia.
    + destruct (rehashImpl_spec allocates s scale t HV Hs Hok ltac:(lia)) as (t' & r & Er & Hr).
      rewrite chunkCount_pow in Er by apply (valid_elim t HV). exists t', r. split; [done|]. destruct r as [u|e].
      * destruct Hr as (HI & Hcont' & Hcap). split; [by right|]. split; [done|]. lia.
      * destruct Hr as (-> & n' & -> & ?). done.
  - exists t, (Err e). split; [done|]. destruct Hcs as [-> Hm]; [intros [? ?]%andb_true_iff; auto|]. done.
Qed.

Lemma reserveForInsertImpl_spec allocates n t :
  valid t -> size_ t <= n -> n < 2 ^ 57 ->
  keeps allocates (2 * Z.max (n + 1) (2 * capacity t)) t (fun t' => n < capacity t')
    (reserveForInsertImpl allocates n (chunkCount t) (table_scale t) (capacity t) t).
Proof using F14PolicyLaws0.
  intros HV Hsz Hn. pose proof (valid_elim t HV) as HVF. pose proof (valid_capacity _ HVF) as Hcap.
  pose proof (valid_size_range t HV). unfold kMaxSize, kSizeShift in *. unfold reserveForInsertImpl, keeps.
  rewrite !shiftr_div by lia. rewrite (wrap_small 64 (n + 1)) by (unfold is_uint; lia).
  set (g := capacity t + _ + _ + _).
  assert (0 <= g < 2 ^ 58) as Hg by (unfold g; Z.to_euclidean_division_equations; lia).
  rewrite (wrap_small 64 g) by (unfold is_uint; lia). set (d := Z.max (n + 1) g).
  pose proof (computeChunkCountAndScale_spec d false false ltac:(unfold is_uint; lia) ltac:(lia) ltac:(done)) as Hcs.
  destruct (computeChunkCountAndScale d false false) as [[cc scale]|e].
  - destruct Hcs as (s & -> & [Hs Hok Hen _]).
    destruct (rehashImpl_spec allocates s scale t HV Hs Hok ltac:(lia)) as (t' & r & Er & Hr).
    exists t', r. split; [done|]. destruct r as [u|e].
    + destruct Hr as (HI & Hc & Hcp). split; [by right|]. split; [done|]. lia.
    + destruct Hr as (-> & n' & -> & ?). done.
  - exists t, (Err e). destruct Hcs as [-> Hm]. split; [done|]. split; [done|]. cbn.
    assert (g <= 2 * capacity t) by (unfold g; Z.to_euclidean_division_equations; lia). lia.
Qed.

(** [reserveForInsert] makes room for the new items. *)
Lemma reserveForInsert_spec allocates incoming t :
  valid t -> 1 <= incoming <= 2 ^ 56 ->
  keeps allocates (4 * (size_ t + incoming)) t (fun t' => size_ t + incoming <= capacity t') (reserveForInsert allocates incoming t).
Proof using F14PolicyLaws0.
  intros HV Hin. pose proof (valid_size_range t HV) as Hsz. unfold kMaxSize, kSizeShift in Hsz.
  destruct (first_chunk_valid t HV) as (c & Hc & Hsc). unfold reserveForInsert.
  rewrite Hc. cbn [mbind option_bind]. rewrite Hsc.
  rewrite (wrap_small 64 (size_ t + incoming)) by (unfold is_uint; lia).
  rewrite (wrap_small 64 (size_ t + incoming - 1)) by (unfold is_uint; lia).
  assert (computeCapacity (chunkCount t) (table_scale t) = capacity t) as ->.
  { unfold capacity. by rewrite chunkCount_pow by apply (valid_elim t HV). }
  destruct (Z.leb_spec (capacity t) (size_ t + incoming - 1)) as [Hle|Hgt].
  - destruct (reserveForInsertImpl_spec allocates (size_ t + incoming - 1) t HV) as (t' & r & E & Hr); [lia|lia|].
    exists t', r. split; [done|]. destruct r.
    + destruct Hr as (? & ? & ?). split; [done|]. split; [done|]. lia.
    + destruct Hr as (-> & ?). split; [done|]. eapply no_memory_le; [done|lia].
  - exists t, (Ok tt). split; [done|]. split; [done|]. split; [done|]. lia.
Qed.

Lemma debugModeSpuriousRehash_spec allocates t :
  table_inv t ->
  keeps allocates 0 t (fun t' => capacity t' = capacity t) (debugModeSpuriousRehash allocates t).
Proof using F14PolicyLaws0.
  intros HI. pose proof (or_intror HI : valid t) as HV. destruct (first_chunk_valid t HV) as (c & Hc & Hsc).
  unfold debugModeSpuriousRehash. rewrite Hc. cbn [mbind option_bind]. rewrite Hsc.
  destruct (rehashImpl_spec allocates (chunkShift t) (table_scale t) t HV) as (t' & r & Er & Hr); try done.
  - apply (inv_shift _ _ _ (inv_chunks _ HI)).
  - apply (inv_scale_ok _ HI).
  - apply (inv_capacity _ HI).
  - rewrite chunkCount_pow in * by apply (valid_elim t HV). exists t', r. split; [done|]. destruct r as [u|e].
    + destruct Hr as (HI' & Hc' & Hcp). split; [by right|]. by split.
    + destruct Hr as (-> & n' & -> & ?). done.
Qed.
End Rehash.
