(* ===== verification/F14Clear.v ===== *)
(** Clearing F14 tables, [reserve] and the visitors. *)
From S2P Require Import Prelude Sse F14Mask F14Chunk F14Table F14Probe F14Inv F14Find F14Update F14Rehash F14Reserve.

Section Clear.
Context {Item Key : Type} `{!SizeofItem Item} `{!F14Policy Item Key} `{!EqDecision Key}.
Context `{!F14PolicyLaws Item Key}.
Implicit Types (t : F14Table Item) (c : F14Chunk Item) (cs : list (F14Chunk Item)) (x : Item).

(** ** Clearing *)

(** A chunk whose items changed. *)
Definition same_header c c' : Prop :=
  tags_ c' = tags_ c /\ control_ c' = control_ c /\ outboundOverflowCount_ c' = outboundOverflowCount_ c /\
  length (rawItems_ c') = length (rawItems_ c).

Lemma destroy_items_spec r ci c :
  chunk_inv r ci c -> exists c', destroy_items c = Some c' /\ same_header c c'.
Proof.
  intros Hci. unfold destroy_items. rewrite occupiedIter_spec by apply Hci.
  assert (forall l, NoDup l -> (forall i, i ∈ l -> i ∈ slots c) -> exists c',
    foldr (fun i oc => c ← oc; _ ← item i c; set_item i None c) (Some c) l = Some c' /\
    same_header c c' /\ forall i, i ∉ l -> item i c' = item i c) as Hl.
  { induction l as [|i l IH]; intros Hnd Hin; cbn [foldr]; [by exists c|].
    apply NoDup_cons in Hnd as [Hi Hnd]. destruct IH as (c' & -> & (E1 & E2 & E3 & E4) & Hit); [done|intros; apply Hin; by right|].
    cbn [mbind option_bind]. destruct (inv_item _ _ _ Hci i) as (x & Hx & _); [apply Hin; left|].
    rewrite (Hit i Hi), Hx. cbn [mbind option_bind].
    assert (i < length (rawItems_ c'))%nat as Hlt.
    { rewrite E4. unfold item, load in Hx. destruct (rawItems_ c !! i) eqn:E; [|done]. by eapply lookup_lt_Some. }
    rewrite set_item_spec by done. eexists. split; [done|]. split.
    - repeat split; cbn; try done. by rewrite length_insert.
    - intros j [Hj Hjl]%not_elem_of_cons. rewrite item_insert, decide_False by done. auto. }
  destruct (Hl (slots c)) as (c' & E & Hsh & _); [apply slots_NoDup|done|]. by exists c'.
Qed.

Lemma destroy_all r cs :
  (forall ci c, cs !! ci = Some c -> chunk_inv r ci c) ->
  exists cs', (if destroyItemOnClear then mapM destroy_items cs else Some cs) = Some cs' /\ Forall2 same_header cs cs'.
Proof.
  intros Hch. destruct destroyItemOnClear.
  - assert (exists cs', Forall2 (fun c c' => destroy_items c = Some c' /\ same_header c c') cs cs') as [cs' H2].
    { induction cs as [|c cs IH] using rev_ind; [by exists []|].
      destruct IH as [cs' H2]; [intros ci d Hd; apply Hch; by apply lookup_app_l_Some|].
      destruct (destroy_items_spec r (length cs) c) as (c' & E & Hsh).
      { apply Hch. by rewrite lookup_app_r, Nat.sub_diag by lia. }
      exists (cs' ++ [c']). apply Forall2_app; [done|]. by constructor. }
    exists cs'. split; [|by eapply Forall2_impl; [exact H2|naive_solver]].
    apply mapM_Some. eapply Forall2_impl; [exact H2|]. naive_solver.
  - exists cs. split; [done|]. clear. induction cs; by constructor.
Qed.

(** Cleared chunks are like new ones. *)
Lemma cleared_inv s scale cs cs' :
  chunks_inv s scale cs -> 1 <= scale < 2 ^ kCapacityScaleBits -> Forall2 same_header cs cs' ->
  exists c bl c0, clear_chunk <$> cs' = c :: bl /\ markEof scale c = Some c0 /\
    chunks_inv s scale (c0 :: bl) /\ cells (c0 :: bl) = [].
Proof.
  intros HI Hsc H2. pose proof (inv_shift _ _ _ HI) as Hs.
  assert (Forall (fun c => exists items, c = blank items /\ length items = room s scale) (clear_chunk <$> cs')) as Hall.
  { apply Forall_fmap, Forall_forall. intros c' Hc'. apply list_elem_of_lookup in Hc' as [ci Hc'].
    destruct (Forall2_lookup_r _ _ _ _ _ H2 Hc') as (c & Hc & (_ & _ & _ & E)). exists (rawItems_ c'). split; [done|].
    by rewrite E, (inv_room _ _ _ (inv_chunk _ _ _ HI _ _ Hc)). }
  assert (length (clear_chunk <$> cs') = nchunks s) as Hlen.
  { by rewrite length_fmap, <- (Forall2_length _ _ _ H2), (inv_length _ _ _ HI). }
  destruct (clear_chunk <$> cs') as [|c bl].
  { pose proof (nchunks_Z s Hs). pose proof (pow_s_pos s Hs). cbn in Hlen. lia. }
  apply Forall_cons in Hall as [(items & -> & Hi) Hbl]. destruct (markEof_spec scale items Hsc) as (c0 & Hm & Hmk).
  exists (blank items), bl, c0. split; [done|]. split; [done|]. apply fresh_inv; [done|done|by exists items|done].
Qed.

Lemma reset_default t :
  is_u64 (packedSizeAndChunkShift_ t) -> size_ t = 0 -> packedBegin_ t = None ->
  setChunkCount 1 (set_chunks [emptyInstance] t) = F14Table_default.
Proof.
  intros Hp Hs Hb. pose proof (setChunkCount_packed 0 (set_chunks [emptyInstance] t) ltac:(lia) Hp) as E.
  change (2 ^ 0) with 1 in E. change (size_ (set_chunks [emptyInstance] t)) with (size_ t) in E. rewrite Hs in E. cbn in E.
  unfold setChunkCount, set_packed, set_chunks in *. cbn in *. by rewrite E, Hb.
Qed.

Lemma clearImpl_spec Reset t :
  valid t -> exists t', clearImpl Reset t = Some t' /\ valid t' /\ contents t' = [] /\
    (if Reset || (16 <=? chunkCount t) then t' = F14Table_default else capacity t' = capacity t).
Proof using F14PolicyLaws0.
  intros HV. pose proof (valid_elim t HV) as HVF. unfold clearImpl.
  destruct HV as [->|HI].
  { change (first_chunk F14Table_default) with (Some (emptyInstance : F14Chunk Item)). cbn [mbind option_bind].
    change (isEmptyInstance (emptyInstance : F14Chunk Item)) with true. cbn iota. exists F14Table_default.
    split; [done|]. split; [by left|]. split; [unfold contents; by rewrite default_cells|]. by destruct (_ || _). }
  pose proof (inv_chunks _ HI) as HC. destruct (first_chunk_scale _ _ _ HC) as (c0 & Hc0 & Hsc). rewrite Hc0. cbn [mbind option_bind].
  destruct (inv_header _ _ _ HC 0%nat c0 Hc0) as [_ _ Ho _]. rewrite writable_le by lia.
  destruct (Z.eqb_spec (size_ t) 0) as [Hz|Hnz]; cbn [negb mbind option_bind].
  - assert (cells (chunks_ t) = []) as Hnil by (apply nil_length_inv; pose proof (inv_size _ HI); lia).
    destruct (Reset || (16 <=? chunkCount t)).
    + exists F14Table_default. split; [|split; [by left|split; [unfold contents; by rewrite default_cells|done]]].
      f_equal. apply reset_default; [apply HVF|done|by apply HVF].
    + exists t. split; [done|]. split; [by right|]. split; [unfold contents; by rewrite Hnil|done].
  - destruct (destroy_all (room (chunkShift t) (table_scale t)) (chunks_ t) (inv_chunk _ _ _ HC)) as (cs1 & -> & H2).
    cbn [mbind option_bind]. destruct (setSize_spec 0 t) as (E1 & E2 & E3); [unfold is_uint; lia|].
    pose proof (inv_begin _ HI) as Hb.
    destruct (Reset || (16 <=? chunkCount t)); cbn [mbind option_bind].
    + exists F14Table_default. split; [|split; [by left|split; [unfold contents; by rewrite default_cells|done]]].
      f_equal. apply reset_default; destruct kEnableItemIteration; done.
    + destruct (cleared_inv _ _ _ _ HC ltac:(split; apply (inv_scale_ok _ HI)) H2) as (c & bl & c0' & -> & Hm & HC' & Hcs).
      rewrite Hsc, Hm. cbn [mbind option_bind]. set (t' := setSize 0 _). exists t'. split; [done|].
      assert (chunks_ t' = c0' :: bl /\ packedBegin_ t' = None /\ size_ t' = 0 /\ chunkShift t' = chunkShift t /\
              is_u64 (packedSizeAndChunkShift_ t')) as (F1 & F2 & F3 & F4 & F5).
      { subst t'. by destruct kEnableItemIteration. }
      assert (contents t' = []) as Hnil by (unfold contents; by rewrite F1, Hcs).
      destruct (table_intro (chunkShift t) (table_scale t) t') as [HI' Hcap]; try done.
      * by rewrite F1.
      * apply (inv_scale_ok _ HI).
      * by rewrite F1, Hcs.
      * rewrite F3. unfold computeCapacity. by apply wrap_range.
      * rewrite Hnil. constructor.
      * rewrite F1, F2, Hcs. by destruct kEnableItemIteration.
      * split; [by right|]. split; [done|]. by rewrite Hcap.
Qed.

(** ** [reserve] *)

Lemma reserveImpl_spec allocates n t :
  valid t -> is_u64 n -> (kContinuousCapacity = true -> n <= 2 ^ 63) ->
  keeps allocates (2 * Z.max n (size_ t)) t (fun t' => n <= capacity t') (reserveImpl allocates n t).
Proof using F14PolicyLaws0.
  intros HV Hn Hcont. pose proof (valid_size_range t HV) as Hsz. unfold kMaxSize, kSizeShift in Hsz. unfold is_uint in Hn.
  pose proof (valid_elim t HV) as HVF. unfold reserveImpl. destruct (Z.eqb_spec (Z.max n (size_ t)) 0) as [E|E].
  - destruct (clearImpl_spec true t HV) as (t' & Et & HV' & Hc & ->). unfold reset. rewrite Et. cbn [mbind option_bind].
    exists F14Table_default, (Ok tt). split; [done|]. split; [by left|]. split.
    + rewrite Hc. assert (cells (chunks_ t) = []) as Hnil by (apply nil_length_inv; pose proof (valid_size _ HVF); lia).
      unfold contents. by rewrite Hnil.
    + rewrite default_capacity. lia.
  - destruct (Z.leb_spec n (size_ t)) as [Hle|Hgt].
    + destruct (maybeRehash_spec allocates (Z.max n (size_ t)) true t HV) as (t' & r & Er & Hr).
      { unfold is_uint. lia. } { lia. } { lia. } { intros. lia. }
      exists t', r. split; [done|]. destruct r; [|naive_solver]. destruct Hr as (? & ? & ?). split; [done|]. split; [done|]. lia.
    + rewrite bucket_count_spec by done. cbn [mbind option_bind].
      destruct (Z.leb_spec (Z.max n (size_ t)) (capacity t)).
      * exists t, (Ok tt). split; [done|]. split; [done|]. split; [done|]. lia.
      * destruct (maybeRehash_spec allocates (Z.max n (size_ t))
          (u64 (capacity t + u64 (capacity t + 7) / 8) <? Z.max n (size_ t)) t HV) as (t' & r & Er & Hr).
        { unfold is_uint. lia. } { lia. } { lia. } { intros Ek. specialize (Hcont Ek). lia. }
        exists t', r. split; [done|]. destruct r; [|naive_solver]. destruct Hr as (? & ? & ?). split; [done|]. split; [done|]. lia.
Qed.

Lemma initialReserve_spec allocates n :
  is_u64 n -> (kContinuousCapacity = true -> n <= 2 ^ 63) ->
  keeps allocates (2 * n) F14Table_default (fun t' => n <= capacity t') (initialReserve allocates n F14Table_default).
Proof using F14PolicyLaws0.
  intros Hn Hcont. unfold initialReserve. pose proof (valid_elim F14Table_default (or_introl eq_refl)) as HVF.
  destruct (Z.eqb_spec n 0) as [->|Hne].
  - exists F14Table_default, (Ok tt). split; [done|]. split; [by left|]. split; [done|]. by rewrite default_capacity.
  - pose proof (computeChunkCountAndScale_spec n true kContinuousCapacity Hn ltac:(unfold is_uint in Hn; lia)) as Hcs.
    destruct (computeChunkCountAndScale n true kContinuousCapacity) as [[cc scale]|e].
    + destruct Hcs as (s & -> & [Hs Hok Hen _]); [auto|].
      destruct (allocates _) eqn:Ea; cbn [negb]; [|by eexists F14Table_default, (Err _)].
      destruct (initializeChunks_spec s scale Hs Hok) as (cs & -> & HC & Hcs'). cbn [mbind option_bind].
      eexists _, (Ok tt). split; [done|].
      destruct (rehash_empty s scale F14Table_default cs HVF Hs Hok HC Hcs' eq_refl) as (HI & Hc & Hcap).
      split; [by right|]. split; [done|]. by rewrite Hcap.
    + exists F14Table_default, (Err e). destruct Hcs as [-> Hm]; [auto|]. done.
Qed.

(** [reserve]: the items stay and there is room, or an allocation fails and nothing changes. *)
Lemma reserve_inv allocates n t :
  valid t -> is_u64 n -> (kContinuousCapacity = true -> n <= 2 ^ 63) ->
  keeps allocates (2 * Z.max n (size_ t)) t (fun t' => n <= capacity t') (reserve allocates n t).
Proof using F14PolicyLaws0.
  intros HV Hn Hcont. unfold reserve. destruct HV as [->|HI].
  - change (first_chunk F14Table_default) with (Some (emptyInstance : F14Chunk Item)). cbn [mbind option_bind].
    change (isEmptyInstance (emptyInstance : F14Chunk Item)) with true. cbn iota. change (size_ F14Table_default) with 0. pose proof Hn as [? _]. rewrite Z.max_l by done.
    by apply initialReserve_spec.
  - destruct (first_chunk_scale _ _ _ (inv_chunks _ HI)) as (c0 & Hc0 & _). rewrite Hc0. cbn [mbind option_bind].
    destruct (inv_header _ _ _ (inv_chunks _ HI) 0%nat c0 Hc0) as [_ _ Ho _]. rewrite writable_le by lia.
    apply reserveImpl_spec; [by right|done|done].
Qed.
End Clear.
