(* ===== verification/F14Visit.v ===== *)
(** Iterating over and visiting the items of F14 tables. *)
From S2P Require Import Prelude Sse F14Mask F14Chunk F14Table F14Probe F14Inv F14Find F14Update F14Rehash F14Reserve.

Section Visit.
Context {Item Key : Type} `{!SizeofItem Item} `{!F14Policy Item Key} `{!EqDecision Key}.
Context `{!F14PolicyLaws Item Key}.
Implicit Types (t : F14Table Item) (c : F14Chunk Item) (cs : list (F14Chunk Item)) (x : Item).

(** ** Iterators *)

#[local] Instance pos_lt_dec p q : Decision (pos_lt p q).
Proof. unfold pos_lt. apply _. Defined.

(** The cells up to a position. *)
Definition below cs (p : nat * nat) : list (nat * nat * Item) := filter (fun e => ~ pos_lt p e.1) (cells cs).

Lemma item_at_cells t p x : (p, x) ∈ cells (chunks_ t) -> item_at t p = Some x.
Proof.
  destruct p as [ci i]. intros (c & Hc & _ & Hx)%elem_of_cells. unfold item_at, load. cbn [fst snd]. by rewrite Hc.
Qed.

Lemma pos_total p q : pos_lt p q \/ p = q \/ pos_lt q p.
Proof. destruct p as [a b], q as [d e]. unfold pos_lt. cbn. destruct (decide (a = d /\ b = e)) as [[-> ->]|]; [auto|lia]. Qed.

(** The order of the slots. *)
Definition cell_lt (e f : nat * nat * Item) : Prop := pos_lt e.1 f.1.

#[local] Instance cell_lt_antisymm : AntiSymm eq cell_lt.
Proof. intros [p x] [q y]. unfold cell_lt, pos_lt. cbn. lia. Qed.

Lemma slots_sorted_from c a n : StronglySorted lt (filter (fun i => full_slot c i = true) (seq a n)).
Proof.
  revert a. induction n as [|n IH]; intros a; [constructor|]. cbn [seq]. rewrite filter_cons. case_decide; [|apply IH].
  constructor; [apply IH|]. apply Forall_forall. intros j [_ Hj]%list_elem_of_filter. apply elem_of_seq in Hj. lia.
Qed.

Lemma row_sorted ci c : StronglySorted cell_lt (row ci c).
Proof.
  unfold row. pose proof (slots_sorted_from c 0 kCapacity) as Hs. fold (slots c) in Hs.
  induction Hs as [|i l Hs IH Hi]; cbn; [constructor|]. destruct (item i c) as [x|]; cbn; [|done]. constructor; [done|].
  apply Forall_forall. intros e (j & Hj & E)%list_elem_of_omap. rewrite Forall_forall in Hi. specialize (Hi j Hj).
  destruct (item j c); [|done]. injection E as <-. unfold cell_lt, pos_lt. cbn. lia.
Qed.

Lemma cells_sorted cs : StronglySorted cell_lt (cells cs).
Proof.
  unfold cells. generalize 0%nat. induction cs as [|c cs IH]; intros n; cbn [cells_from]; [constructor|].
  apply StronglySorted_app_2; [|apply row_sorted|apply IH]. intros [[ci i] x] [[cj j] y] [-> _]%elem_of_row (d & Hd & _)%elem_of_cells_from.
  unfold cell_lt, pos_lt. cbn. lia.
Qed.

Lemma below_sorted cs p : StronglySorted cell_lt (below cs p).
Proof.
  unfold below. induction (cells_sorted cs) as [|e l Hs IH He]; [constructor|]. rewrite filter_cons. case_decide; [|done].
  constructor; [done|]. apply Forall_forall. intros f [_ Hf]%list_elem_of_filter. rewrite Forall_forall in He. auto.
Qed.

Definition below_iter cs (r : option (nat * nat)) : list (nat * nat * Item) :=
  match r with Some q => below cs q | None => [] end.

Lemma below_step t p x r :
  chunks_inv (chunkShift t) (table_scale t) (chunks_ t) -> (p, x) ∈ cells (chunks_ t) -> prev_pos (chunks_ t) p r ->
  below (chunks_ t) p = below_iter (chunks_ t) r ++ [(p, x)].
Proof.
  intros HC Hin Hr. assert (forall q y, (q, y) ∈ cells (chunks_ t) -> occ (chunks_ t) q) as Hocc.
  { intros q y Hq. apply (occ_cells _ _ _ _ HC). apply list_elem_of_fmap. by exists (q, y). }
  assert (forall y, (p, y) ∈ cells (chunks_ t) -> y = x) as Huni.
  { intros y Hy. destruct p. by eapply cells_unique. }
  assert (forall e, e ∈ below_iter (chunks_ t) r -> e ∈ cells (chunks_ t) /\ cell_lt e (p, x)) as Hlt.
  { destruct r as [q|]; cbn [below_iter]; [|by intros e ?%not_elem_of_nil]. intros [q' y] [Hle Hq]%list_elem_of_filter.
    split; [done|]. destruct Hr as (_ & Hqp & _). unfold cell_lt, pos_lt in *. cbn in *. lia. }
  apply (StronglySorted_unique cell_lt); [apply below_sorted| |].
  { apply StronglySorted_app_2; [|destruct r; [apply below_sorted|constructor]|repeat constructor].
    intros e f He ->%list_elem_of_singleton. by apply Hlt. }
  apply NoDup_Permutation.
  - apply NoDup_filter, cells_NoDup.
  - apply NoDup_app. split; [destruct r; [apply NoDup_filter, cells_NoDup|constructor]|]. split; [|apply NoDup_singleton].
    intros e He ->%list_elem_of_singleton. apply Hlt in He as [_ He]. unfold cell_lt, pos_lt in He. lia.
  - intros [q y]. rewrite elem_of_app, list_elem_of_singleton. unfold below at 1. rewrite list_elem_of_filter. cbn [fst]. split.
    + intros [Hle Hq]. destruct (pos_total p q) as [|[<-|Hlt']]; [done|right; f_equal; auto|]. left.
      destruct r as [q'|]; [|by destruct (Hr q (Hocc _ _ Hq))]. destruct Hr as (_ & _ & Hmax).
      apply list_elem_of_filter. split; [|done]. cbn. apply Hmax; eauto.
    + intros [Hq|[= -> ->]]; [|split; [unfold pos_lt; lia|done]]. apply Hlt in Hq as [Hq Hl]. split; [|done].
      unfold cell_lt, pos_lt in *. cbn in *. lia.
Qed.

(** [advance] goes to the item in the slot before. *)
Lemma advance_below t p : chunks_inv (chunkShift t) (table_scale t) (chunks_ t) -> 1 <= table_scale t -> occ (chunks_ t) p ->
  exists x r, item_at t p = Some x /\ advance t p = Some r /\ below (chunks_ t) p = below_iter (chunks_ t) r ++ [(p, x)] /\
    (forall q, r = Some q -> occ (chunks_ t) q).
Proof.
  intros HC Hsc Hp. pose proof (chunks_iterable _ _ _ HC Hsc) as Hit.
  pose proof Hp as Hin. apply (occ_cells _ _ _ _ HC), list_elem_of_fmap in Hin as ([p' x] & -> & Hin). cbn [fst] in *.
  destruct Hp as (c & Hc & Hi). apply elem_of_slots in Hi as [Hi _].
  destruct (advanceImpl_spec t true p' Hit) as (r & Er & Hr); [by eapply lookup_lt_Some|done|by left|].
  exists x, r. split; [by apply item_at_cells|]. split; [done|]. split; [by apply below_step|]. intros q ->. by destruct Hr.
Qed.

Lemma iterate_spec t p fuel :
  chunks_inv (chunkShift t) (table_scale t) (chunks_ t) -> 1 <= table_scale t -> occ (chunks_ t) p ->
  (length (below (chunks_ t) p) < fuel)%nat ->
  iterate fuel t (Some p) = Some (reverse (snd <$> below (chunks_ t) p)).
Proof.
  intros HC Hsc. revert p. induction fuel as [|fuel IH]; intros p Hp Hf; [lia|]. cbn [iterate].
  destruct (advance_below t p HC Hsc Hp) as (x & r & -> & -> & Hb & Hr). cbn [mbind option_bind].
  rewrite Hb in Hf |- *. rewrite length_app in Hf. cbn [length] in Hf. rewrite fmap_app, reverse_app. destruct r as [q|]; cbn [below_iter] in *.
  - rewrite IH by (auto || lia). done.
  - destruct fuel; [lia|]. done.
Qed.

Lemma skip_spec t p n :
  chunks_inv (chunkShift t) (table_scale t) (chunks_ t) -> 1 <= table_scale t -> occ (chunks_ t) p ->
  skip n t (Some p) = Some (fst <$> reverse (below (chunks_ t) p) !! n).
Proof.
  intros HC Hsc. revert p. induction n as [|n IH]; intros p Hp;
    destruct (advance_below t p HC Hsc Hp) as (x & r & _ & Ea & Hb & Hr); rewrite Hb, reverse_app; [done|].
  cbn [skip]. rewrite Ea. cbn [mbind option_bind]. destruct r as [q|]; cbn [below_iter].
  - by rewrite IH by auto.
  - by destruct n.
Qed.

Lemma length_cells_le n cs : (length (cells_from n cs) <= length cs * kCapacity)%nat.
Proof.
  revert n. induction cs as [|c cs IH]; intros n; cbn [cells_from length]; [lia|]. rewrite length_app.
  pose proof (row_le n c). pose proof (slots_total c). specialize (IH (S n)). lia.
Qed.

(** [begin] is the item in the last slot. *)
Lemma begin_below t p : table_inv t -> begin_ t = Some p ->
  kEnableItemIteration = true /\ occ (chunks_ t) p /\ below (chunks_ t) p = cells (chunks_ t).
Proof.
  intros HI Ep. pose proof (inv_begin _ HI) as Hb. unfold begin_ in Ep. rewrite Ep in Hb. destruct kEnableItemIteration; [|done].
  destruct Hb as [Hp Hmax]. split; [done|]. split; [by apply (occ_cells _ _ _ _ (inv_chunks _ HI))|].
  apply filter_all. intros [q y] Hq. cbn. apply packed_lt_false, Hmax. apply list_elem_of_fmap. by exists (q, y).
Qed.

Lemma begin_end t : kEnableItemIteration = true -> table_inv t -> begin_ t = None -> cells (chunks_ t) = [].
Proof.
  intros Ek HI Ep. pose proof (inv_begin _ HI) as Hb. unfold begin_ in Ep. rewrite Ek, Ep in Hb. by apply fmap_nil_inv in Hb.
Qed.

(** The iterators go through the slots in reverse. *)
Lemma iterate_all_inv t : kEnableItemIteration = true -> valid t -> iterate_all t = Some (reverse (contents t)).
Proof using F14PolicyLaws0.
  intros Ek [->|HI]; [unfold contents; by rewrite default_cells|]. unfold iterate_all.
  destruct (begin_ t) as [p|] eqn:Ep.
  - destruct (begin_below t p HI Ep) as (_ & Hp & E). rewrite iterate_spec; [by rewrite E|apply HI|apply (scale_pos _ _ (inv_scale_ok _ HI))|done|].
    rewrite E. pose proof (length_cells_le 0 (chunks_ t)). unfold cells. lia.
  - unfold contents. by rewrite (begin_end t Ek HI Ep).
Qed.

(** The iterator [n] steps after [begin]. *)
Lemma skip_inv t n : valid t -> exists it, skip n t (begin_ t) = Some it /\
  match it with
  | Some p => exists x, (p, x) ∈ cells (chunks_ t) /\ reverse (contents t) !! n = Some x
  | None => kEnableItemIteration = true -> (length (contents t) <= n)%nat
  end.
Proof using F14PolicyLaws0.
  intros HV. destruct (begin_ t) as [p|] eqn:Ep.
  - destruct HV as [->|HI]; [done|]. destruct (begin_below t p HI Ep) as (_ & Hp & E).
    eexists. split; [apply skip_spec; [apply HI|apply (scale_pos _ _ (inv_scale_ok _ HI))|done]|]. rewrite E.
    unfold contents. rewrite <- fmap_reverse, list_lookup_fmap.
    destruct (reverse (cells (chunks_ t)) !! n) as [[q x]|] eqn:En; cbn.
    + exists x. split; [|done]. apply elem_of_reverse. by eapply list_elem_of_lookup_2.
    + intros _. apply lookup_ge_None in En. rewrite length_reverse in En. by rewrite length_fmap.
  - exists None. split; [by destruct n|]. intros Ek. destruct HV as [->|HI]; unfold contents.
    + rewrite default_cells. cbn. lia.
    + rewrite (begin_end t Ek HI Ep). cbn. lia.
Qed.

(** ** Visitors *)

Lemma mapM_items r ci c l :
  chunk_inv r ci c -> (forall i, i ∈ l -> i ∈ slots c) -> mapM (fun i => item i c) l = Some (items_of c l).
Proof.
  intros Hci. induction l as [|i l IH]; intros Hl; [done|]. destruct (inv_item _ _ _ Hci i) as (x & Hx & _); [apply Hl; left|].
  cbn. rewrite Hx. cbn. rewrite IH by (intros; apply Hl; by right). done.
Qed.

Lemma visit_chunk_spec r ci c : chunk_inv r ci c -> visit_chunk c = Some (items_of c (slots c)).
Proof. intros Hci. unfold visit_chunk. rewrite occupiedIter_spec by apply Hci. by eapply mapM_items. Qed.

(** The items of the first chunks, one list for each. *)
Lemma contents_mjoin n cs :
  snd <$> cells_from n cs = mjoin ((fun c => items_of c (slots c)) <$> cs).
Proof.
  revert n. induction cs as [|c cs IH]; intros n; [done|]. cbn [cells_from fmap list_fmap mjoin list_join].
  rewrite fmap_app, row_items. f_equal. apply IH.
Qed.

Lemma mapM_chunks {B} (f : F14Chunk Item -> option B) (g : F14Chunk Item -> B) cs m :
  (m <= length cs)%nat -> (forall c, c ∈ cs -> f c = Some (g c)) ->
  mapM (fun i => c ← load cs i; f c) (seq 0 m) = Some (g <$> take m cs).
Proof.
  intros Hm Hf. apply mapM_Some. apply Forall2_lookup. intros i. rewrite list_lookup_fmap.
  destruct (decide (i < m)%nat) as [Hi|Hi].
  - rewrite lookup_seq_lt, lookup_take_lt by done. destruct (lookup_lt_is_Some_2 cs i) as [c Hc]; [lia|].
    rewrite Hc. constructor. unfold load. cbn. rewrite Hc. cbn. apply Hf. by eapply list_elem_of_lookup_2.
  - rewrite lookup_seq_ge, lookup_take_ge by lia. constructor.
Qed.

(** Chunks after the last occupied one have no items. *)
Lemma lastOccupiedChunk_spec t :
  table_inv t -> size_ t <> 0 ->
  exists m, lastOccupiedChunk t = Some m /\ (m < length (chunks_ t))%nat /\
    forall k c, (m < k)%nat -> chunks_ t !! k = Some c -> slots c = [].
Proof.
  intros HI Hne. pose proof (inv_begin _ HI) as Hb. pose proof (inv_chunks _ HI) as HC. unfold lastOccupiedChunk, begin_.
  destruct kEnableItemIteration.
  - destruct (packedBegin_ t) as [p|].
    + destruct Hb as [Hp Hmax]. exists p.1. split; [done|]. apply (occ_cells _ _ _ _ HC) in Hp as (c & Hc & _).
      split; [by eapply lookup_lt_Some|]. intros k d Hk Hd. apply elem_of_nil_inv. intros i Hi.
      specialize (Hmax (k, i)). rewrite packed_lt_false in Hmax. apply Hmax; [|by left].
      apply (occ_cells _ _ _ _ HC). by exists d.
    + apply fmap_nil_inv in Hb. pose proof (inv_size _ HI) as Hs. rewrite Hb in Hs. done.
  - pose proof (inv_shift _ _ _ HC) as Hs. pose proof (nchunks_Z _ Hs). pose proof (pow_s_pos _ Hs).
    rewrite chunkCount_pow by lia. exists (nchunks (chunkShift t) - 1)%nat. split; [done|].
    rewrite (inv_length _ _ _ HC). split; [lia|]. intros k c Hk Hc. apply lookup_lt_Some in Hc.
    rewrite (inv_length _ _ _ HC) in Hc. lia.
Qed.

Lemma contents_take t m :
  (m < length (chunks_ t))%nat -> (forall k c, (m < k)%nat -> chunks_ t !! k = Some c -> slots c = []) ->
  mjoin ((fun c => items_of c (slots c)) <$> take (S m) (chunks_ t)) = contents t.
Proof.
  intros Hm Hk. unfold contents, cells. rewrite contents_mjoin. rewrite <- (take_drop (S m) (chunks_ t)) at 2.
  rewrite fmap_app, join_app. rewrite <- (app_nil_r (mjoin _)) at 1. f_equal. symmetry.
  assert (Forall (fun c => slots c = []) (drop (S m) (chunks_ t))) as Hd.
  { apply Forall_forall. intros c Hc. apply list_elem_of_lookup in Hc as [i Hi]. rewrite lookup_drop in Hi.
    apply (Hk (S m + i)%nat); [lia|done]. }
  induction Hd as [|c l Hc Hd IH]; [done|]. cbn. by rewrite Hc.
Qed.

Lemma visitItems_inv t : valid t -> visitItems t = Some (contents t).
Proof.
  intros HV. pose proof (valid_elim t HV) as HVF. unfold visitItems. destruct (Z.eqb_spec (size_ t) 0) as [E|E].
  { pose proof (valid_size _ HVF). unfold contents. by rewrite (nil_length_inv (cells (chunks_ t))) by lia. }
  destruct HV as [->|HI]; [done|]. destruct (lastOccupiedChunk_spec t HI E) as (m & -> & Hm & Hk). cbn [mbind option_bind].
  rewrite (mapM_chunks _ (fun c => items_of c (slots c))); [|lia|].
  - cbn. f_equal. by apply contents_take.
  - intros c Hc. apply list_elem_of_lookup in Hc as [k Hc]. eapply visit_chunk_spec, (inv_chunk _ _ _ (inv_chunks _ HI) _ _ Hc).
Qed.

Lemma occupiedRangeIter_spec c :
  chunk_ok c -> mjoin ((fun be => seq be.1 (be.2 - be.1)) <$> occupiedRangeIter c) = slots c.
Proof.
  intros Hok. pose proof kCapacity_le. unfold occupiedRangeIter.
  rewrite (MaskRangeIter_bits kCapacity) by (lia || apply land_full_uint). by apply occupiedMask_bits.
Qed.

Lemma mapM_ranges r ci c (l : list (nat * nat)) :
  chunk_inv r ci c -> (forall i, i ∈ mjoin ((fun be => seq be.1 (be.2 - be.1)) <$> l) -> i ∈ slots c) ->
  exists ls, mapM (fun '(b, e) => mapM (fun i => item i c) (seq b (e - b))) l = Some ls /\
    mjoin ls = items_of c (mjoin ((fun be => seq be.1 (be.2 - be.1)) <$> l)).
Proof.
  intros Hci. induction l as [|[b e] l IH]; intros Hl; [by exists []|].
  cbn [fmap list_fmap mjoin list_join fst snd] in Hl |- *.
  destruct IH as (ls & E & Hls); [intros i Hi; apply Hl; apply elem_of_app; by right|].
  exists (items_of c (seq b (e - b)) :: ls). split.
  - cbn. rewrite (mapM_items _ _ _ _ Hci) by (intros i Hi; apply Hl; apply elem_of_app; by left). cbn. by rewrite E.
  - change (items_of c (seq b (e - b)) ++ mjoin ls = items_of c (seq b (e - b) ++ mjoin ((fun be => seq be.1 (be.2 - be.1)) <$> l))).
    rewrite Hls. unfold items_of. by rewrite omap_app.
Qed.

(** The contiguous ranges cover the items in the same order. *)
Lemma visitContiguousItemRanges_inv t :
  valid t -> exists ls, visitContiguousItemRanges t = Some ls /\ mjoin ls = contents t.
Proof.
  intros HV. pose proof (valid_elim t HV) as HVF. unfold visitContiguousItemRanges. destruct (Z.eqb_spec (size_ t) 0) as [E|E].
  { exists []. pose proof (valid_size _ HVF). unfold contents. by rewrite (nil_length_inv (cells (chunks_ t))) by lia. }
  destruct HV as [->|HI]; [done|]. destruct (lastOccupiedChunk_spec t HI E) as (m & -> & Hm & Hk). cbn [mbind option_bind].
  set (f c := mapM (fun '(b, e) => mapM (fun i => item i c) (seq b (e - b))) (occupiedRangeIter c)).
  assert (forall c, c ∈ chunks_ t -> exists ls, f c = Some ls /\ mjoin ls = items_of c (slots c)) as Hf.
  { intros c Hc. apply list_elem_of_lookup in Hc as [k Hc]. pose proof (inv_chunk _ _ _ (inv_chunks _ HI) _ _ Hc) as Hci.
    pose proof (occupiedRangeIter_spec c (inv_ok _ _ _ Hci)) as Er.
    destruct (mapM_ranges _ _ c (occupiedRangeIter c) Hci) as (ls & E1 & E2); [by rewrite Er|]. exists ls. by rewrite Er in E2. }
  rewrite (mapM_chunks f (fun c => default [] (f c))); [|lia|].
  - eexists. split; [reflexivity|]. rewrite <- (contents_take t m Hm Hk). clearbody f.
    assert (forall c, c ∈ take (S m) (chunks_ t) -> mjoin (default [] (f c)) = items_of c (slots c)) as Ht.
    { intros c Hc. destruct (Hf c) as (ls & -> & E1); [|done].
      rewrite <- (take_drop (S m) (chunks_ t)). apply elem_of_app. by left. }
    induction (take (S m) (chunks_ t)) as [|c l IH]; [done|]. rewrite !fmap_cons.
    change (mjoin (default [] (f c) ++ mjoin ((fun c => default [] (f c)) <$> l)) =
            items_of c (slots c) ++ mjoin ((fun c => items_of c (slots c)) <$> l)).
    rewrite join_app, Ht by left. f_equal. apply IH. intros d Hd. apply Ht. by right.
  - intros c Hc. destruct (Hf c Hc) as (ls & -> & _). done.
Qed.
End Visit.
