(* ===== verification/F14Spec.v ===== *)
(** F14 tables as finite maps: every operation of [F14Table] acts on [to_map] as the operation of a
    map, for any hasher, including what happens when a constructor or an allocation fails. *)
From S2P Require Import Prelude Sse F14Mask F14Chunk F14Table F14Probe F14Inv F14Find F14Update F14Rehash F14Reserve F14Clear F14Visit.

Section Map.
Context {Item Key : Type} `{!SizeofItem Item} `{!F14Policy Item Key}.
Context `{!EqDecision Key} `{!Countable Key} `{!F14PolicyLaws Item Key}.
Implicit Types (t : F14Table Item) (x : Item) (m : gmap Key Item).

(** ** The map of a table *)

Definition to_map t : gmap Key Item := list_to_map ((fun x => (keyForItem x, x)) <$> contents t).

Lemma pairs_keys (l : list Item) : ((fun x => (keyForItem x, x)) <$> l).*1 = keyForItem <$> l.
Proof. rewrite <- list_fmap_compose. by apply list_fmap_ext. Qed.

Lemma to_map_perm t t' : NoDup (keyForItem <$> contents t) -> contents t' ≡ₚ contents t -> to_map t' = to_map t.
Proof.
  intros Hd E. unfold to_map. apply list_to_map_proper; [|by rewrite E].
  rewrite pairs_keys. by rewrite E.
Qed.

Lemma to_map_lookup t k x :
  NoDup (keyForItem <$> contents t) -> to_map t !! k = Some x <-> x ∈ contents t /\ keyForItem x = k.
Proof.
  intros Hd. unfold to_map. rewrite <- elem_of_list_to_map by (by rewrite pairs_keys).
  rewrite list_elem_of_fmap. split.
  - intros (y & [= -> ->] & Hy). done.
  - intros [Hx <-]. by exists x.
Qed.

Lemma to_map_cons t t' x :
  NoDup (keyForItem <$> contents t') -> contents t' ≡ₚ x :: contents t ->
  to_map t' = <[keyForItem x := x]> (to_map t) /\ to_map t !! keyForItem x = None.
Proof.
  intros Hd E. assert (NoDup (keyForItem <$> x :: contents t)) as Hd' by (by rewrite <- E). split.
  - unfold to_map at 1. rewrite (list_to_map_proper _ ((fun x => (keyForItem x, x)) <$> x :: contents t)).
    + done.
    + by rewrite pairs_keys.
    + by rewrite E.
  - apply not_elem_of_list_to_map. rewrite pairs_keys. by apply NoDup_cons in Hd' as [? _].
Qed.

Lemma to_map_size t : valid t -> size_ t = Z.of_nat (size (to_map t)).
Proof.
  intros HV. pose proof (valid_elim t HV) as HVF. rewrite (valid_size _ HVF). unfold to_map.
  rewrite map_size_list_to_map by (rewrite pairs_keys; apply HVF). unfold contents. by rewrite !length_fmap.
Qed.

Lemma to_map_items t : NoDup (keyForItem <$> contents t) -> (map_to_list (to_map t)).*2 ≡ₚ contents t.
Proof.
  intros Hd. unfold to_map. rewrite map_to_list_to_map by (by rewrite pairs_keys).
  rewrite <- list_fmap_compose. by rewrite list_fmap_id.
Qed.

Lemma to_map_default : to_map F14Table_default = ∅.
Proof. unfold to_map, contents. by rewrite default_cells. Qed.

Lemma to_map_nil t : contents t = [] -> to_map t = ∅.
Proof. intros E. unfold to_map. by rewrite E. Qed.

(** ** The operations *)

Lemma cells_contents t p x : (p, x) ∈ cells (chunks_ t) -> x ∈ contents t.
Proof. intros Hin. apply list_elem_of_fmap. by exists (p, x). Qed.

Lemma find_map t k : valid t ->
  exists it, findImpl t (splitHash (computeKeyHash k)) k = Some it /\ (it ≫= item_at t) = to_map t !! k /\
    forall p, it = Some p -> exists x, (p, x) ∈ cells (chunks_ t) /\ keyForItem x = k.
Proof using F14PolicyLaws0.
  intros HV. pose proof (valid_elim t HV) as HVF. destruct HV as [->|HI].
  - exists None. rewrite findImpl_default by apply split_range. split; [done|]. by rewrite to_map_default.
  - destruct (findImpl_inv (table_scale t) k t (inv_chunks _ HI)) as (r & E & Hr). exists r. split; [done|].
    destruct r as [p|]; cbn [mbind option_bind].
    + destruct Hr as (x & Hin & Hk). rewrite (item_at_cells t p x Hin). split.
      * symmetry. apply to_map_lookup; [apply HVF|]. split; [by eapply cells_contents|done].
      * intros q [= <-]. by exists x.
    + split; [|done]. symmetry. apply eq_None_not_Some. intros [x Hx]. apply to_map_lookup in Hx as [Hx Hk]; [|apply HVF].
      apply list_elem_of_fmap in Hx as ([p y] & -> & Hin). by apply (Hr p y).
Qed.

Lemma before_insert_spec allocates draw t :
  valid t ->
  keeps allocates 0 t (fun t' => capacity t' = capacity t) (debugModeBeforeInsert allocates draw t).
Proof using F14PolicyLaws0.
  intros HV. unfold debugModeBeforeInsert. destruct (spuriousRehash draw && (0 <? size_ t)) eqn:E.
  - destruct HV as [->|HI]; [|by apply debugModeSpuriousRehash_spec].
    apply andb_true_iff in E as [_ E%Z.ltb_lt]. by change (size_ F14Table_default) with 0 in E.
  - exists t, (Ok tt). done.
Qed.

Lemma size_perm t t' : valid t -> valid t' -> contents t' ≡ₚ contents t -> size_ t' = size_ t.
Proof.
  intros HV HV' E. rewrite (valid_size _ (valid_elim t HV)), (valid_size _ (valid_elim t' HV')). f_equal.
  rewrite <- (length_fmap snd (cells (chunks_ t'))), <- (length_fmap snd (cells (chunks_ t))). by rewrite E.
Qed.

(** Both reservations before an insertion. *)
Lemma prepare_spec allocates draw t :
  valid t -> exists t' r,
    (_ ← debugModeBeforeInsert allocates draw; reserveForInsert allocates 1) t = Some (t', r) /\ valid t' /\
    contents t' ≡ₚ contents t /\
    match r with
    | Ok _ => table_inv t' /\ size_ t' < capacity t'
    | Err e => no_memory allocates (4 * (size_ t + 1)) e
    end.
Proof using F14PolicyLaws0.
  intros HV. pose proof (valid_size_range t HV). rewrite M_bind_unfold.
  destruct (before_insert_spec allocates draw t HV) as (t1 & r1 & -> & Hr1). destruct r1 as [[]|e].
  - destruct Hr1 as (HV1 & Hc1 & _). pose proof (size_perm t t1 HV HV1 Hc1) as Es.
    destruct (reserveForInsert_spec allocates 1 t1 HV1 ltac:(lia)) as (t2 & r2 & -> & Hr2).
    exists t2, r2. split; [done|]. destruct r2 as [[]|e].
    + destruct Hr2 as (HV2 & Hc2 & Hcap). split; [done|]. split; [by rewrite Hc2|].
      pose proof (size_perm t1 t2 HV1 HV2 Hc2). split; [|lia]. destruct HV2 as [->|]; [|done].
      rewrite default_capacity in Hcap. lia.
    + destruct Hr2 as (-> & Hm). rewrite Es in Hm. done.
  - destruct Hr1 as (-> & Hm). exists t, (Err e). split; [done|]. split; [done|]. split; [done|].
    eapply no_memory_le; [done|lia].
Qed.

(** The search that an insertion does first: none in a table without items. *)
Lemma search_map t k : valid t ->
  exists it, (if 0 <? size_ t then findImpl t (splitHash (computeKeyHash k)) k else Some None) = Some it /\
    (it ≫= item_at t) = to_map t !! k /\ forall p, it = Some p -> exists x, (p, x) ∈ cells (chunks_ t) /\ keyForItem x = k.
Proof using F14PolicyLaws0.
  intros HV. destruct (find_map t k HV) as (it & Efind & Hit & Hcell). exists it. split; [|done].
  destruct (Z.ltb_spec 0 (size_ t)) as [|Hz]; [done|]. f_equal. symmetry. destruct it as [p|]; [|done].
  destruct (Hcell p eq_refl) as (x & Hin & _). pose proof (valid_size _ (valid_elim t HV)) as Hs.
  destruct (cells (chunks_ t)); [by apply not_elem_of_nil in Hin|cbn in Hs; lia].
Qed.

(** A table whose chunks changed but not their items. *)
Lemma same_cells_inv cs' t : table_inv t -> chunks_inv (chunkShift t) (table_scale t) cs' ->
  cells cs' = cells (chunks_ t) -> table_inv (set_chunks cs' t).
Proof using F14PolicyLaws0.
  intros HI HC Hcells. apply (table_intro (chunkShift t) (table_scale t)); try done.
  - apply (inv_packed _ HI).
  - apply (inv_scale_ok _ HI).
  - cbn [set_chunks chunks_]. rewrite Hcells. apply (inv_size _ HI).
  - apply (inv_capacity _ HI).
  - unfold contents. cbn [set_chunks chunks_]. rewrite Hcells. apply (inv_keys _ HI).
  - cbn [set_chunks chunks_]. rewrite Hcells. apply (inv_begin _ HI).
Qed.

(** [tryEmplaceValue] finds the item, or inserts a new one, or throws and leaves the items. *)
Lemma emplace_map allocates draw k args t :
  valid t -> (forall x, args = Ok x -> keyForItem x = k) ->
  exists t' r, tryEmplaceValue allocates draw k args t = Some (t', r) /\ valid t' /\
    match r with
    | Ok (p, false) => t' = t /\ exists x, item_at t p = Some x /\ to_map t !! k = Some x
    | Ok (p, true) => exists x, args = Ok x /\ to_map t !! k = None /\ item_at t' p = Some x /\
        to_map t' = <[k := x]> (to_map t)
    | Err e => to_map t !! k = None /\ to_map t' = to_map t /\
        (args = Err e \/ no_memory allocates (4 * (size_ t + 1)) e)
    end.
Proof using F14PolicyLaws0.
  intros HV Hargs. pose proof (valid_elim t HV) as HVF. unfold tryEmplaceValue, tryEmplaceValueImpl.
  destruct (search_map t k HV) as (it & Esearch & Hit & Hcell). set (hp := splitHash (computeKeyHash k)) in *.
  rewrite M_bind_unfold. unfold access. rewrite Esearch. destruct it as [p|].
  { destruct (Hcell p eq_refl) as (x & Hin & Hk). exists t, (Ok (p, false)). split; [done|]. split; [done|]. split; [done|].
    exists x. rewrite <- Hit. cbn. by rewrite (item_at_cells t p x Hin). }
  cbn [mbind option_bind] in Hit. symmetry in Hit.
  destruct (prepare_spec allocates draw t HV) as (t1 & r1 & Ep & HV1 & Hc1 & Hr1).
  rewrite M_bind_unfold in Ep. rewrite M_bind_unfold. pose proof (valid_elim t1 HV1) as HVF1.
  assert (to_map t1 = to_map t) as Em by (apply to_map_perm; [apply HVF|done]).
  assert (exists r0 t0, debugModeBeforeInsert allocates draw t = Some (t0, r0) /\
    match r0 with Ok _ => reserveForInsert allocates 1 t0 = Some (t1, r1) | Err e => t0 = t1 /\ r1 = Err e end) as (r0 & t0 & -> & Hr0).
  { destruct (debugModeBeforeInsert allocates draw t) as [[t0 [u|e]]|]; [|by injection Ep as <- <-; eexists _, _|done]. eauto. }
  destruct r0 as [u|e].
  2: { destruct Hr0 as [-> ->]. exists t1, (Err e). split; [done|]. split; [done|]. rewrite Em. naive_solver. }
  rewrite M_bind_unfold, Hr0. destruct r1 as [[]|e].
  2: { exists t1, (Err e). split; [done|]. split; [done|]. rewrite Em. naive_solver. }
  destruct Hr1 as [HI1 Hlt]. rewrite M_bind_unfold.
  destruct (emplace_spec draw hp args (table_scale t1) t1) as (cs' & pos & HC' & Hres).
  { apply (inv_chunks _ HI1). } { apply (inv_scale_ok _ HI1). } { apply split_range. }
  { rewrite <- (inv_size _ HI1). done. }
  { intros x ->. unfold hash_pair, computeItemHash. by rewrite (Hargs x eq_refl). }
  assert (k ∉ keyForItem <$> contents t1) as Hfresh.
  { rewrite <- Em in Hit. intros (x & -> & Hx)%list_elem_of_fmap.
    rewrite (proj2 (to_map_lookup t1 (keyForItem x) x ltac:(apply HVF1))) in Hit by done. done. }
  destruct args as [x|e].
  - destruct Hres as [-> Hcells]. rewrite <- (Hargs x eq_refl) in Hfresh.
    destruct (table_insert cs' pos x t1 HI1 HC' Hcells Hlt Hfresh) as (HI' & Hcells' & _).
    set (t' := adjustSizeAndBeginAfterInsert pos _) in *. exists t', (Ok (pos, true)). split; [done|]. split; [by right|].
    exists x. split; [done|]. split; [done|]. split.
    + apply item_at_cells. rewrite Hcells'. left.
    + destruct (to_map_cons t1 t' x) as [E _]; [apply (inv_keys _ HI')|unfold contents; by rewrite Hcells'|].
      by rewrite E, Em, (Hargs x eq_refl).
  - destruct Hres as [-> Hcells]. exists (set_chunks cs' t1), (Err e). split; [done|].
    split; [right; by apply same_cells_inv|]. split; [done|]. split; [|by left]. rewrite <- Em. unfold to_map, contents. cbn [set_chunks chunks_]. by rewrite Hcells.
Qed.

Lemma erase_cell t p x hp :
  table_inv t -> (p, x) ∈ cells (chunks_ t) ->
  (forall c, chunks_ t !! p.1 = Some c -> hostedOverflowCount c = 0 \/ hp = hash_pair x) ->
  exists t', eraseImpl p hp t = Some t' /\ table_inv t' /\ to_map t' = delete (keyForItem x) (to_map t).
Proof using F14PolicyLaws0.
  intros HI Hin Hhp. destruct p as [cf i]. pose proof Hin as (c & Hc & _)%elem_of_cells.
  destruct (eraseImpl_inv t cf i x c hp HI Hin Hc (Hhp c Hc)) as (t' & E & HI' & Hcells & _). exists t'. split; [done|]. split; [done|].
  destruct (to_map_cons t' t x) as [-> Hn]; [apply (inv_keys _ HI)|unfold contents; by rewrite Hcells|].
  by rewrite delete_insert_id.
Qed.

Lemma erase_key_map k t :
  valid t -> exists t', eraseKeyInto k t = Some (to_map t !! k, t') /\ valid t' /\ to_map t' = delete k (to_map t).
Proof using F14PolicyLaws0.
  intros HV. pose proof (valid_elim t HV) as HVF. unfold eraseKeyInto. destruct (Z.eqb_spec (size_ t) 0) as [Hz|Hz].
  - assert (to_map t = ∅) as Em.
    { apply to_map_nil. unfold contents. pose proof (valid_size _ HVF).
      by rewrite (nil_length_inv (cells (chunks_ t))) by lia. }
    exists t. rewrite Em. split; [done|]. split; [done|]. by rewrite delete_empty.
  - destruct (find_map t k HV) as (it & -> & Hit & Hcell). cbn [mbind option_bind]. destruct it as [p|].
    + destruct (Hcell p eq_refl) as (x & Hin & Hk). destruct HV as [->|HI]; [done|].
      cbn [mbind option_bind] in Hit. rewrite (item_at_cells t p x Hin) in Hit |- *. cbn [mbind option_bind].
      destruct (erase_cell t p x (splitHash (computeKeyHash k)) HI Hin) as (t' & -> & HI' & Em).
      { intros. right. unfold hash_pair, computeItemHash. by rewrite Hk. }
      cbn [mbind option_bind]. exists t'. rewrite <- Hit, Em, Hk. split; [done|]. split; [by right|done].
    + cbn in Hit. exists t. rewrite <- Hit. split; [done|]. split; [done|]. by rewrite delete_id.
Qed.

(** [eraseIterInto] at the position of an item. *)
Lemma erase_iter_map t p x :
  valid t -> (p, x) ∈ cells (chunks_ t) ->
  exists t', eraseIterInto p t = Some (x, t') /\ valid t' /\ to_map t' = delete (keyForItem x) (to_map t).
Proof using F14PolicyLaws0.
  intros [->|HI] Hin; [rewrite default_cells in Hin; by apply not_elem_of_nil in Hin|].
  unfold eraseIterInto. rewrite (item_at_cells t p x Hin). destruct p as [cf i].
  pose proof Hin as (c & Hc & _)%elem_of_cells. unfold load. cbn [fst]. rewrite Hc. cbn [mbind option_bind].
  destruct (erase_cell t (cf, i) x (if negb (hostedOverflowCount c =? 0) then splitHash (computeItemHash x) else (0, 0)) HI Hin)
    as (t' & -> & HI' & Em).
  - intros d Hd. cbn [fst] in Hd. replace d with c by congruence.
    destruct (Z.eqb_spec (hostedOverflowCount c) 0); [by left|by right].
  - cbn [mbind option_bind]. exists t'. split; [done|]. split; [by right|done].
Qed.

(** ** Clients *)

(** What a client calls, and what it sees. *)
Inductive f14_op :=
  | OpFind (k : Key)
  | OpEmplace (allocates : Z -> bool) (draw : DebugDraw) (k : Key) (args : result f14_exn Item)
  | OpErase (k : Key)
  | OpEraseFound (k : Key)
  | OpEraseIter (n : nat)
  | OpClear (Reset : bool)
  | OpReserve (allocates : Z -> bool) (n : Z)
  | OpSize
  | OpVisit.

Inductive f14_out :=
  | OutItem (found : option Item)
  | OutEmplaced (x : Item) (inserted : bool)
  | OutThrown (e : f14_exn)
  | OutUnit
  | OutSize (n : Z)
  | OutItems (l : list Item).

Definition f14_run (o : f14_op) t : option (F14Table Item * f14_out) :=
  match o with
  | OpFind k => it ← find t k; x ← (match it with Some p => Some <$> item_at t p | None => Some None end); Some (t, OutItem x)
  | OpEmplace allocates draw k args =>
      '(t, r) ← tryEmplaceValue allocates draw k args t;
      match r with
      | Ok (p, inserted) => x ← item_at t p; Some (t, OutEmplaced x inserted)
      | Err e => Some (t, OutThrown e)
      end
  | OpErase k => '(x, t) ← eraseKeyInto k t; Some (t, OutItem x)
  | OpEraseFound k =>
      it ← find t k;
      match it with
      | Some p => '(x, t) ← eraseIterInto p t; Some (t, OutItem (Some x))
      | None => Some (t, OutItem None)
      end
  | OpEraseIter n =>
      it ← skip n t (begin_ t);
      match it with
      | Some p => '(x, t) ← eraseIterInto p t; Some (t, OutItem (Some x))
      | None => Some (t, OutItem None)
      end
  | OpClear Reset => t ← clearImpl Reset t; Some (t, OutUnit)
  | OpReserve allocates n =>
      '(t, r) ← reserve allocates n t;
      Some (t, match r with Ok _ => OutUnit | Err e => OutThrown e end)
  | OpSize => Some (t, OutSize (size_ t))
  | OpVisit => l ← visitItems t; Some (t, OutItems l)
  end.

Fixpoint f14_run_all (os : list f14_op) t : option (F14Table Item * list f14_out) :=
  match os with
  | [] => Some (t, [])
  | o :: os =>
      '(t, out) ← f14_run o t;
      '(t, outs) ← f14_run_all os t;
      Some (t, out :: outs)
  end.

(** What a map does. *)
Inductive map_step m : f14_op -> f14_out -> gmap Key Item -> Prop :=
  | step_find k : map_step m (OpFind k) (OutItem (m !! k)) m
  | step_present allocates draw k args x :
      m !! k = Some x -> map_step m (OpEmplace allocates draw k args) (OutEmplaced x false) m
  | step_insert allocates draw k x :
      m !! k = None -> map_step m (OpEmplace allocates draw k (Ok x)) (OutEmplaced x true) (<[k := x]> m)
  | step_throw allocates draw k e :
      m !! k = None -> map_step m (OpEmplace allocates draw k (Err e)) (OutThrown e) m
  | step_insert_fail allocates draw k args e :
      m !! k = None -> no_memory allocates (4 * (Z.of_nat (size m) + 1)) e ->
      map_step m (OpEmplace allocates draw k args) (OutThrown e) m
  | step_erase k : map_step m (OpErase k) (OutItem (m !! k)) (delete k m)
  | step_erase_found k : map_step m (OpEraseFound k) (OutItem (m !! k)) (delete k m)
  | step_erase_iter n k x :
      (n < size m)%nat -> m !! k = Some x -> map_step m (OpEraseIter n) (OutItem (Some x)) (delete k m)
  | step_end n :
      (kEnableItemIteration = true -> (size m <= n)%nat) -> map_step m (OpEraseIter n) (OutItem None) m
  | step_clear Reset : map_step m (OpClear Reset) OutUnit ∅
  | step_reserve allocates n : map_step m (OpReserve allocates n) OutUnit m
  | step_reserve_fail allocates n e :
      no_memory allocates (2 * Z.max n (Z.of_nat (size m))) e ->
      map_step m (OpReserve allocates n) (OutThrown e) m
  | step_size : map_step m OpSize (OutSize (Z.of_nat (size m))) m
  | step_visit l : l ≡ₚ (map_to_list m).*2 -> map_step m OpVisit (OutItems l) m.

Inductive map_steps : gmap Key Item -> list f14_op -> list f14_out -> gmap Key Item -> Prop :=
  | steps_nil m : map_steps m [] [] m
  | steps_cons m o out m' os outs m'' :
      map_step m o out m' -> map_steps m' os outs m'' -> map_steps m (o :: os) (out :: outs) m''.

(** The constructor makes an item of the key; the size of a reservation is a [size_t], and at most
    [2^63] where the table has continuous capacities. *)
Definition op_ok (o : f14_op) : Prop :=
  match o with
  | OpEmplace _ _ k (Ok x) => keyForItem x = k
  | OpReserve _ n => is_u64 n /\ (kContinuousCapacity = true -> n <= 2 ^ 63)
  | _ => True
  end.

Lemma f14_step o t :
  valid t -> op_ok o ->
  exists t' out, f14_run o t = Some (t', out) /\ valid t' /\ map_step (to_map t) o out (to_map t').
Proof using F14PolicyLaws0.
  intros HV Ho. pose proof (valid_elim t HV) as HVF. destruct o as [k|al draw k args|k|k|n|Reset|al n| |]; cbn [f14_run op_ok] in *.
  - destruct (find_map t k HV) as (it & E & Hit & Hcell). unfold find. rewrite E. cbn [mbind option_bind].
    exists t, (OutItem (to_map t !! k)). split; [|split; [done|constructor]]. rewrite <- Hit. destruct it as [p|]; [|done].
    destruct (Hcell p eq_refl) as (x & Hin & _). cbn [mbind option_bind]. by rewrite (item_at_cells t p x Hin).
  - destruct (emplace_map al draw k args t HV) as (t' & r & -> & HV' & Hr); [by intros x ->|]. cbn [mbind option_bind].
    rewrite (to_map_size t HV) in Hr. destruct r as [[p [|]]|e].
    + destruct Hr as (x & -> & Hn & -> & Em). cbn [mbind option_bind]. eexists _, _. split; [done|]. split; [done|].
      rewrite Em. by constructor.
    + destruct Hr as (-> & x & -> & Hx). cbn [mbind option_bind]. eexists _, _. split; [done|]. split; [done|]. by constructor.
    + destruct Hr as (Hn & Em & [->|Hm]); eexists _, _; (split; [done|]); (split; [done|]); rewrite Em; by constructor.
  - destruct (erase_key_map k t HV) as (t' & -> & HV' & Em). cbn [mbind option_bind]. eexists _, _. split; [done|]. split; [done|].
    rewrite Em. constructor.
  - destruct (find_map t k HV) as (it & E & Hit & Hcell). unfold find. rewrite E. cbn [mbind option_bind]. destruct it as [p|].
    + destruct (Hcell p eq_refl) as (x & Hin & Hk). destruct (erase_iter_map t p x HV Hin) as (t' & -> & HV' & Em). cbn [mbind option_bind] in *.
      rewrite (item_at_cells t p x Hin) in Hit. eexists _, _. split; [done|]. split; [done|]. rewrite Em, Hk, Hit. constructor.
    + cbn in Hit. eexists _, _. split; [done|]. split; [done|]. rewrite <- (delete_id (to_map t) k) at 2 by done. rewrite Hit. constructor.
  - destruct (skip_inv t n HV) as (it & -> & Hit). cbn [mbind option_bind].
    assert (size (to_map t) = length (contents t)) as Es by (rewrite <- (to_map_items t (valid_keys _ HVF)); by rewrite length_fmap, length_map_to_list).
    destruct it as [p|].
    + destruct Hit as (x & Hin & Hn%lookup_lt_Some). rewrite length_reverse in Hn.
      destruct (erase_iter_map t p x HV Hin) as (t' & -> & HV' & Em). cbn [mbind option_bind].
      eexists _, _. split; [done|]. split; [done|]. rewrite Em. constructor; [lia|]. apply to_map_lookup; [apply HVF|].
      split; [by eapply cells_contents|done].
    + eexists _, _. split; [done|]. split; [done|]. constructor. intros Ek. specialize (Hit Ek). lia.
  - destruct (clearImpl_spec Reset t HV) as (t' & -> & HV' & Hc & _). cbn [mbind option_bind]. eexists _, _. split; [done|].
    split; [done|]. rewrite (to_map_nil t' Hc). constructor.
  - destruct Ho as [Hn Hcont]. destruct (reserve_inv al n t HV Hn Hcont) as (t' & r & -> & Hr). cbn [mbind option_bind].
    rewrite (to_map_size t HV) in Hr. destruct r as [u|e].
    + destruct Hr as (HV' & Hc & _). eexists _, _. split; [done|]. split; [done|].
      rewrite (to_map_perm t t' (valid_keys _ HVF) Hc). constructor.
    + destruct Hr as (-> & Hm). eexists _, _. split; [done|]. split; [done|]. by constructor.
  - eexists _, _. split; [done|]. split; [done|]. rewrite (to_map_size t HV). constructor.
  - rewrite (visitItems_inv t HV). cbn [mbind option_bind]. eexists _, _. split; [done|]. split; [done|]. constructor.
    symmetry. apply to_map_items. apply HVF.
Qed.

Lemma f14_run_all_sim os t :
  valid t -> Forall op_ok os ->
  exists t' outs, f14_run_all os t = Some (t', outs) /\ valid t' /\ map_steps (to_map t) os outs (to_map t').
Proof using F14PolicyLaws0.
  revert t. induction os as [|o os IH]; intros t HV Hok; cbn [f14_run_all].
  - exists t, []. split; [done|]. split; [done|constructor].
  - apply Forall_cons in Hok as [Ho Hok]. destruct (f14_step o t HV Ho) as (t1 & out & -> & HV1 & Hstep). cbn [mbind option_bind].
    destruct (IH t1 HV1 Hok) as (t' & outs & -> & HV' & Hsteps). cbn [mbind option_bind].
    exists t', (out :: outs). split; [done|]. split; [done|]. by econstructor.
Qed.

(** (C4) A client of a table sees a map: from the empty table, any sequence of searches, insertions (with
    constructors and allocations that fail at will, and in debug builds with random slots and spurious
    rehashes), erasures by key, by the iterator that [find] returns and by the iterator that is any
    number of steps after [begin()], clearings, reservations and visits is defined, keeps the invariant,
    and returns what the same operations return on a finite map, if the constructors make items of
    their keys and the sizes of reservations are [size_t] and, with continuous capacities, at most
    [2^63].  An allocation error is reported only with a request that the allocator refused or near the
    size limit, and changes nothing. *)
Theorem f14_simulation (os : list f14_op) :
  Forall op_ok os ->
  exists t outs, f14_run_all os F14Table_default = Some (t, outs) /\ valid t /\ map_steps ∅ os outs (to_map t).
Proof using F14PolicyLaws0. intros Hok. rewrite <- to_map_default. apply f14_run_all_sim; [by left|done]. Qed.

(** (C19) All the ways to go through a table agree: [visitItems] calls the visitor on the items in the
    order of the slots, the iterators from [begin] to [end] (where the policy has them) yield the same
    items in the reverse order, the contiguous ranges that [visitContiguousItemRanges] passes are the same items in the same order,
    and there are [size] of them. *)
Theorem f14_traversals t :
  valid t ->
  (kEnableItemIteration = true -> iterate_all t = Some (reverse (contents t))) /\
  visitItems t = Some (contents t) /\
  (exists ranges, visitContiguousItemRanges t = Some ranges /\ mjoin ranges = contents t) /\
  size_ t = Z.of_nat (length (contents t)).
Proof using F14PolicyLaws0.
  intros HV. split; [intros Ek; by apply iterate_all_inv|]. split; [by apply visitItems_inv|].
  split; [by apply visitContiguousItemRanges_inv|].
  rewrite (valid_size _ (valid_elim t HV)). unfold contents. by rewrite length_fmap.
Qed.

(** (C21) [reserve(n)] leaves the items as they are and gives [bucket_count() >= n], or it throws
    [bad_alloc], which it does only with a request that the allocator refused or when [max_size()] is
    less than twice the demand, and then the table is as before.  With continuous capacities [n] is at
    most [2^63]. *)
Theorem f14_reserve allocates n t :
  valid t -> is_u64 n -> (kContinuousCapacity = true -> n <= 2 ^ 63) ->
  exists t' r, reserve allocates n t = Some (t', r) /\
    match r with
    | Ok _ => valid t' /\ contents t' ≡ₚ contents t /\ exists bc, bucket_count t' = Some bc /\ Z.max n (size_ t') <= bc
    | Err e => t' = t /\ no_memory allocates (2 * Z.max n (size_ t)) e
    end.
Proof using F14PolicyLaws0.
  intros HV Hn Hcont. destruct (reserve_inv allocates n t HV Hn Hcont) as (t' & r & E & Hr). exists t', r. split; [done|].
  destruct r as [u|e]; [|done]. destruct Hr as (HV' & Hc & Hcap). split; [done|]. split; [done|].
  exists (capacity t'). split; [by apply bucket_count_spec|]. pose proof (valid_capacity _ (valid_elim t' HV')). lia.
Qed.

(** An iterator to any item can be erased: the item is handed to the caller, exactly its key goes,
    and the hash is recomputed only where the chunk hosts overflow. *)
Theorem f14_erase_iterator t p x :
  valid t -> (p, x) ∈ cells (chunks_ t) ->
  exists t', eraseIterInto p t = Some (x, t') /\ valid t' /\ to_map t' = delete (keyForItem x) (to_map t).
Proof using F14PolicyLaws0. apply erase_iter_map. Qed.
(** The chunk count and the scale for a demand close to [2^64]. *)
Lemma counts_wrap n : kContinuousCapacity = true -> 0 <= alloc_max_size -> 2 ^ 64 - 2 ^ 49 < n < 2 ^ 64 ->
  computeChunkCountAndScale n true true = Ok (2 ^ 61, 2 ^ 15) /\
  computeCapacity (2 ^ 61) (2 ^ 15) = 0 /\ chunkAllocSize (2 ^ 61) (2 ^ 15) = 0 /\ 0 < sizeof_Chunk.
Proof using F14PolicyLaws0.
  intros Hcont Hmax Hn. pose proof (law_continuous Hcont) as E4.
  assert (kCapacity = 12%nat) as Ek by (unfold kCapacity; by rewrite E4).
  assert (kCapacityScaleShift = 12) as Es by (unfold kCapacityScaleShift, kCapacityScaleBits; by rewrite Ek).
  assert (sizeof_Chunk = 64) as Ec by (unfold sizeof_Chunk, kAllocatedCapacity; by rewrite Ek, E4).
  assert (computeCapacity (2 ^ 61) (2 ^ 15) = 0) as Ecap by (unfold computeCapacity; rewrite Es; by vm_compute).
  split; [|split; [done|split; [unfold chunkAllocSize; rewrite Ec; by vm_compute|lia]]].
  unfold computeChunkCountAndScale. rewrite (proj2 (Z.leb_gt _ _)) by lia.
  destruct (chunkPow_spec n) as (Hp & Hhi & _); [lia|unfold is_uint; lia|]. cbn zeta.
  unfold kDesiredCapacity in *. rewrite Ek in *. cbn [Nat.sub] in *. set (p := findLastSet _) in *.
  assert (p = 61) as ->.
  { destruct (Z.le_gt_cases p 60); [|lia]. pose proof (Z.pow_le_mono_r 2 p 60 ltac:(lia) ltac:(lia)). lia. }
  rewrite Es. change (61 =? 64) with false. change (12 <=? 61) with true. cbn iota. change (61 - 12) with 49.
  change (u64 (1 .<< 61)) with (2 ^ 61). rewrite shiftr_div by lia.
  assert ((n - 1) / 2 ^ 49 = 2 ^ 15 - 1) as ->.
  { symmetry. apply (Z.div_unique _ _ _ (n - 1 - 2 ^ 49 * (2 ^ 15 - 1))); lia. }
  change (u64 (2 ^ 15 - 1 + 1)) with (2 ^ 15). rewrite Ecap. rewrite (proj2 (Z.ltb_ge _ _)); [done|].
  unfold max_size, kMaxSize, kSizeShift. lia.
Qed.

(** A table with allocated chunks has room for an item. *)
Lemma capacity_pos t : kContinuousCapacity = true -> table_inv t -> 0 < capacity t.
Proof using F14PolicyLaws0.
  intros Hcont HI. pose proof (law_continuous Hcont) as E4. pose proof (inv_shift _ _ _ (inv_chunks _ HI)) as Hs.
  destruct (inv_scale_ok _ HI) as [Hpos _ _ _ Hfit Hal].
  assert (kCapacity = 12%nat) as Ek by (unfold kCapacity; by rewrite E4).
  assert (sizeof_Chunk = 64) as Ec by (unfold sizeof_Chunk, kAllocatedCapacity; by rewrite Ek, E4).
  unfold kCapacityScaleBits in Hfit. rewrite Ek in Hfit. cbn in Hfit. unfold capacity. rewrite computeCapacity_pow by done.
  set (s := chunkShift t) in *. assert (s < 58) as Hs58.
  { destruct (Z.lt_ge_cases s 58); [done|]. unfold alloc_ok, chunkAllocSize in Hal. rewrite Ec in Hal.
    pose proof (Z.pow_le_mono_r 2 58 s ltac:(lia) ltac:(lia)). rewrite (proj2 (Z.eqb_neq _ 1)) in Hal by lia.
    assert (u64 (64 * 2 ^ s) = 0) as Hw; [|lia]. unfold wrap. replace s with (s - 58 + 58) by lia. rewrite Z.pow_add_r by lia.
    replace (64 * (2 ^ (s - 58) * 2 ^ 58)) with (2 ^ (s - 58) * 2 ^ 64) by lia. by apply Z.mod_mul. }
  pose proof (scale_pow_range s ltac:(lia)) as [? ?].
  assert (scale_pow s <= 46).
  { unfold scale_pow, kCapacityScaleShift, kCapacityScaleBits. rewrite Ek. cbn [Nat.eqb].
    destruct (Z.leb_spec (16 - 4) s); lia. }
  set (k := scale_pow s) in *. pose proof (Z.pow_le_mono_r 2 k 46 ltac:(lia) ltac:(lia)).
  assert (0 < 2 ^ k) by (apply Z.pow_pos_nonneg; lia). rewrite wrap_small; [nia|]. unfold is_uint. nia.
Qed.

(** (C34) With continuous capacities the check against [max_size()] is passed by demands that no table
    can meet: for every [n] from [2^64 - 2^49 + 1] on the computed capacity is [2^64], which wraps to
    zero, and so does the size of the allocation.  If the allocator returns memory for a request of
    zero bytes, [reserve(n)] of any table does not throw: it clears [2^61] chunks outside of that
    memory. *)
Theorem reserve_wraps allocates n t :
  kContinuousCapacity = true -> 0 <= alloc_max_size -> valid t -> 2 ^ 64 - 2 ^ 49 < n < 2 ^ 64 -> allocates 0 = true ->
  computeChunkCountAndScale n true true = Ok (2 ^ 61, 2 ^ 15) /\
  computeCapacity (2 ^ 61) (2 ^ 15) = 0 /\ chunkAllocSize (2 ^ 61) (2 ^ 15) = 0 /\
  reserve allocates n t = None.
Proof using F14PolicyLaws0.
  intros Hcont Hmax HV Hn Ha. destruct (counts_wrap n Hcont Hmax Hn) as (Ecc & Ecap & Ealloc & Hch).
  split; [done|]. split; [done|]. split; [done|].
  assert (initializeChunks (Item := Item) 0 (2 ^ 61) (2 ^ 15) = None) as Einit.
  { unfold initializeChunks. rewrite (proj2 (Z.ltb_lt _ _)) by lia. done. }
  pose proof (valid_size_range t HV) as Hsz. pose proof (valid_capacity _ (valid_elim t HV)) as Hcap. unfold kMaxSize, kSizeShift in *.
  destruct (first_chunk_valid t HV) as (c & Hc & Hsc). unfold reserve. rewrite Hc. cbn [mbind option_bind].
  destruct (isEmptyInstance c) eqn:Ee.
  - unfold initialReserve. rewrite (proj2 (Z.eqb_neq _ _)) by lia. rewrite Hcont, Ecc, Ealloc, Ha. cbn [negb]. by rewrite Einit.
  - unfold reserveImpl. rewrite Z.max_l by lia. rewrite (proj2 (Z.eqb_neq _ _)), (proj2 (Z.leb_gt _ _)) by lia.
    rewrite bucket_count_spec by done. cbn [mbind option_bind]. rewrite (proj2 (Z.leb_gt _ _)) by lia.
    rewrite (wrap_small 64 (capacity t + 7)), (wrap_small 64 (_ + _ / 8)) by (unfold is_uint; Z.to_euclidean_division_equations; lia).
    rewrite (proj2 (Z.ltb_lt _ _)) by (Z.to_euclidean_division_equations; lia).
    unfold maybeRehash. rewrite Hc. cbn [mbind option_bind]. rewrite Hcont. cbn [andb]. rewrite Ecc, Ecap, Hsc.
    rewrite chunkCount_pow by apply (valid_elim t HV). fold (capacity t).
    destruct HV as [->|HI]; [by injection Hc as <-|]. pose proof (capacity_pos t Hcont HI).
    rewrite (proj2 (Z.eqb_neq (capacity t) 0)) by lia. cbn [negb]. unfold rehashImpl. rewrite Ealloc, Ha. cbn [negb]. by rewrite Einit.
Qed.
End Map.

(** ** Concrete tables *)

Module Example.
(** Pairs of a key and a value, hashed by the key itself. *)
#[export] Instance sizeof_pair : SizeofItem (Z * Z) := 16.

Definition trivial_hash : HasherKind :=
  {| isAvalanchingHasher := true; shouldAssume32BitHash := false; crc32_u64 := None |}.

#[export] Instance pair_policy : F14Policy (Z * Z) Z := {|
  keyForItem := fst;
  hasher := fun k => u64 k;
  hasherKind := trivial_hash;
  kEnableItemIteration := true;
  kContinuousCapacity := false;
  itemIsTriviallyCopyable := false;
  destroyItemOnClear := true;
  alloc_max_size := 2 ^ 58;
|}.

#[export] Instance pair_laws : F14PolicyLaws (Z * Z) Z.
Proof.
  split; cbn.
  - unfold sizeof_Item, sizeof_pair. lia.
  - unfold sizeof_Item, sizeof_pair. lia.
  - done.
  - intros k. by apply wrap_range.
  - done.
Qed.

Definition memory (n : Z) : bool := n <? 2 ^ 30.

(** Forty keys of one home chunk, so that most overflow; then some go. *)
Definition ops : list (f14_op (Item := Z * Z) (Key := Z)) :=
  map (fun i => OpEmplace memory no_draw (Z.of_nat i * 4) (Ok (Z.of_nat i * 4, Z.of_nat i))) (seq 0 40) ++
  [OpEmplace memory no_draw 4 (Err construction_exception); OpEmplace memory no_draw 1 (Err construction_exception);
   OpErase 12; OpEraseFound 20; OpEraseIter 0; OpEraseIter 7; OpEraseIter 99; OpFind 16; OpReserve memory 200; OpSize; OpVisit; OpClear false].

Definition insertions (l : list Z) : list (f14_op (Item := Z * Z) (Key := Z)) :=
  map (fun k => OpEmplace memory no_draw k (Ok (k, k + 1))) l.

Definition table_of (os : list (f14_op (Item := Z * Z) (Key := Z))) : F14Table (Z * Z) :=
  match f14_run_all os F14Table_default with Some (t, _) => t | None => F14Table_default end.

Lemma table_of_valid os : Forall op_ok os -> valid (table_of os).
Proof.
  intros Hok. destruct (f14_run_all_sim os F14Table_default) as (t & outs & E & HV & _); [by left|done|].
  unfold table_of. by rewrite E.
Qed.

Lemma insertions_ok l : Forall op_ok (insertions l).
Proof. apply Forall_fmap, Forall_true. by intros k. Qed.

Definition sample : F14Table (Z * Z) := table_of (insertions [0; 4; 8; 2 ^ 63; 12; 7; 20; 24; 28; 32; 36; 40; 44; 48; 52; 56]).
End Example.

(** Items of four bytes, whose tables have continuous capacities. *)
Module VectorExample.
#[export] Instance sizeof_index : SizeofItem Z := 4.

#[export] Instance index_policy : F14Policy Z Z := {|
  keyForItem := fun k => k;
  hasher := fun k => u64 k;
  hasherKind := Example.trivial_hash;
  kEnableItemIteration := false;
  kContinuousCapacity := true;
  itemIsTriviallyCopyable := true;
  destroyItemOnClear := false;
  alloc_max_size := 2 ^ 32 - 1;
|}.

#[export] Instance index_laws : F14PolicyLaws Z Z.
Proof.
  split; cbn.
  - unfold sizeof_Item, sizeof_index. lia.
  - unfold sizeof_Item, sizeof_index. lia.
  - done.
  - intros k. by apply wrap_range.
  - done.
Qed.

Lemma reserve_wraps_witness :
  computeChunkCountAndScale (Item := Z) (2 ^ 64 - 1) true true = Ok (2 ^ 61, 2 ^ 15) /\
  computeCapacity (Item := Z) (2 ^ 61) (2 ^ 15) = 0 /\ chunkAllocSize (Item := Z) (2 ^ 61) (2 ^ 15) = 0 /\
  reserve (fun n => n <? 2 ^ 30) (2 ^ 64 - 1) (F14Table_default : F14Table Z) = None.
Proof.
  apply (reserve_wraps (fun n => n <? 2 ^ 30) (2 ^ 64 - 1) (F14Table_default : F14Table Z)).
  - reflexivity.
  - cbn. lia.
  - left. reflexivity.
  - lia.
  - reflexivity.
Defined.
End VectorExample.

Section Witness.
Import Example.

Lemma f14_simulation_witness :
  exists t outs, f14_run_all ops F14Table_default = Some (t, outs) /\ valid t /\ map_steps ∅ ops outs (to_map t).
Proof.
  apply (f14_simulation ops). unfold ops. apply Forall_app. split.
  - apply Forall_fmap, Forall_true. by intros i.
  - repeat (apply Forall_cons; split); try done; try apply Forall_nil.
Defined.

Lemma sample_valid : valid sample.
Proof. unfold sample. apply table_of_valid. apply insertions_ok. Qed.

Lemma f14_traversals_witness :
  visitItems sample = Some (contents sample) /\ size_ sample = 16 /\ length (contents sample) = 16%nat.
Proof.
  pose proof (f14_traversals sample sample_valid) as (_ & Hv & _ & Hs). split; [exact Hv|]. split; vm_compute; reflexivity.
Defined.

Lemma f14_reserve_witness :
  exists t' r, reserve memory 100 sample = Some (t', r) /\
    match r with
    | Ok _ => valid t' /\ contents t' ≡ₚ contents sample /\ exists bc, bucket_count t' = Some bc /\ Z.max 100 (size_ t') <= bc
    | Err e => t' = sample /\ no_memory memory (2 * Z.max 100 (size_ sample)) e
    end.
Proof. apply (f14_reserve memory 100 sample); [apply sample_valid|unfold is_uint; lia|discriminate]. Defined.

Lemma f14_erase_iterator_witness :
  exists t', eraseIterInto (1%nat, 1%nat) sample = Some ((56, 57), t') /\ valid t' /\
    to_map t' = delete (keyForItem (56, 57)) (to_map sample).
Proof.
  apply (f14_erase_iterator sample (1%nat, 1%nat) (56, 57)); [apply sample_valid|].
  apply (bool_decide_unpack _). vm_compute. exact I.
Defined.
End Witness.
