(* ===== verification/F14Copy.v ===== *)
(** Copying F14 tables: [buildFromF14Table] and its three ways to copy, [directBuildFrom] by
    [memcpy] or chunk by chunk and [rehashBuildFrom].

    [copies x] says whether the copy constructor succeeds on [x]; a copy of an item is the item. *)
From S2P Require Import Prelude Sse F14Mask F14Chunk F14Table F14Probe F14Inv F14Find F14Update F14Rehash F14Reserve F14Clear F14Visit F14Spec.

Section Copy.
Context {Item Key : Type} `{!SizeofItem Item} `{!F14Policy Item Key} `{!EqDecision Key}.
Implicit Types (t src : F14Table Item) (c : F14Chunk Item).

Abbreviation op := (M (F14Table Item) f14_exn).

Definition copy_of (copies : Item -> bool) (x : Item) : result f14_exn Item :=
  if copies x then Ok x else Err construction_exception.

(** ** Chunk by chunk *)

(** The items of a source chunk, to the first slots of chunk [ci]. *)
Fixpoint direct_items (copies : Item -> bool) (srcChunk : F14Chunk Item) (ci : nat) (slots : list nat)
    (dstI : nat) : op unit :=
  match slots with
  | [] => mret tt
  | srcI :: slots => fun t =>
      x ← item srcI srcChunk;
      match copy_of copies x with
      | Err e => Some (t, Err e)
      | Ok x =>
          t ← update_chunk ci (set_item dstI (Some x)) t;
          tg ← tag srcI srcChunk;
          t ← update_chunk ci (setTag dstI tg) t;
          direct_items copies srcChunk ci slots (S dstI) (incrementSize t)
      end
  end.

(** The loop over the chunks from the last; [n] are left, and the loop ends when all items are there. *)
Fixpoint direct_chunks (copies : Item -> bool) src (n : nat) : op unit :=
  match n with
  | O => undefined
  | S ci => fun t =>
      srcChunk ← load (chunks_ src) ci;
      t ← update_chunk ci (total (copyOverflowInfoFrom srcChunk)) t;
      '(t, r) ← direct_items copies srcChunk ci (occupiedIter srcChunk) 0 t;
      match r with
      | Err e => Some (t, Err e)
      | Ok _ => if negb (size_ t =? size_ src) then direct_chunks copies src ci t else Some (t, Ok tt)
      end
  end.

(** [memcpy] of all the chunks, which have as much room. *)
Definition copy_bytes src t : option (F14Table Item) :=
  if Nat.eqb (length (chunks_ t)) (length (chunks_ src)) then Some (set_chunks (chunks_ src) t) else None.

Definition directBuildFrom (copies : Item -> bool) src : op unit :=
  fun t =>
    n ← itemCount t;
    srcN ← itemCount src;
    if itemIsTriviallyCopyable && negb destroyItemOnClear && (n =? srcN) then
      c0 ← first_chunk t;
      let scale := capacityScale c0 in
      t ← copy_bytes src t;
      let t := setSize (size_ src) t in
      let t := if kEnableItemIteration then set_begin (begin_ src) t else t in
      t ← (if kContinuousCapacity then update_chunk 0 (total (setCapacityScale scale)) t else Some t);
      Some (t, Ok tt)
    else
      '(t, r) ← direct_chunks copies src (Z.to_nat (chunkCount t)) t;
      match r with
      | Err e => Some (t, Err e)
      | Ok _ =>
          if kEnableItemIteration then
            maxChunkIndex ← lastOccupiedChunk src;
            c ← load (chunks_ t) maxChunkIndex;
            i ← lastOccupied c;
            Some (set_begin (Some (maxChunkIndex, i)) t, Ok tt)
          else Some (t, Ok tt)
      end.

(** ** By hash *)

(** Without hosted overflow the index of the chunk stands for the hash. *)
Fixpoint rehash_copy_items (copies : Item -> bool) (srcChunk : F14Chunk Item) (srcChunkIndex : nat)
    (slots : list nat) (fullness : list Z) t : option (F14Table Item * result f14_exn (list Z)) :=
  match slots with
  | [] => Some (t, Ok fullness)
  | i :: slots =>
      srcItem ← item i srcChunk;
      tg ← tag i srcChunk;
      hp ← (if hostedOverflowCount srcChunk =? 0 then Some (Z.of_nat srcChunkIndex, tg)
            else let hp := splitHash (computeItemHash srcItem) in if hp.2 =? tg then Some hp else None);
      '(pos, fullness, t) ← allocateTag fullness hp t;
      '(t, r) ← insertAtBlank pos hp (copy_of copies srcItem) t;
      match r with
      | Err e => Some (t, Err e)
      | Ok _ => rehash_copy_items copies srcChunk srcChunkIndex slots fullness t
      end
  end.

Fixpoint rehash_copy_chunks (copies : Item -> bool) src (srcChunkIndex : nat) (fullness : list Z) : op unit :=
  fun t =>
    srcChunk ← load (chunks_ src) srcChunkIndex;
    '(t, r) ← rehash_copy_items copies srcChunk srcChunkIndex (occupiedIter srcChunk) fullness t;
    match r with
    | Err e => Some (t, Err e)
    | Ok fullness =>
        match srcChunkIndex with
        | O => Some (t, Ok tt)
        | S srcChunkIndex => rehash_copy_chunks copies src srcChunkIndex fullness t
        end
    end.

Definition rehashBuildFrom (allocates : Z -> bool) (copies : Item -> bool) src : op unit :=
  fun t =>
    let cc := chunkCount t in
    if (256 <? cc) && negb (allocates cc) then Some (t, Err (bad_alloc (Some cc)))
    else
      srcChunkIndex ← lastOccupiedChunk src;
      rehash_copy_chunks copies src srcChunkIndex (replicate (Z.to_nat cc) 0) t.

(** ** The whole table *)

Definition buildFromF14Table (allocates : Z -> bool) (copies : Item -> bool) src : op unit :=
  fun t =>
    if size_ src =? 0 then Some (t, Ok tt)
    else
      match computeChunkCountAndScale (size_ src) false false with
      | Err e => Some (t, Err e)
      | Ok upperLimit =>
          c ← first_chunk src;
          let ccas := (chunkCount src, capacityScale c) in
          let ccas := if (upperLimit.1 <? ccas.1) || (upperLimit.2 <? ccas.2) then upperLimit else ccas in
          '(t, r) ← rehashImpl allocates 0 1 0 ccas.1 ccas.2 t;
          match r with
          | Err e => Some (t, Err e)
          | Ok _ =>
              '(t, r) ← (if chunkShift t =? chunkShift src then directBuildFrom copies src t
                         else rehashBuildFrom allocates copies src t);
              match r with
              | Ok _ => Some (t, Ok tt)
              | Err e => t ← reset t; Some (t, Err e)
              end
          end
      end.

(** The copy constructor, and the copy assignment of a table to another. *)
Definition F14Table_copy (allocates : Z -> bool) (copies : Item -> bool) src :
    option (F14Table Item * result f14_exn unit) :=
  buildFromF14Table allocates copies src F14Table_default.

Definition copy_assign (allocates : Z -> bool) (copies : Item -> bool) src : op unit :=
  fun t => t ← reset t; buildFromF14Table allocates copies src t.

(** [swapContents], which is also how tables are moved. *)
Definition swapContents (tables : F14Table Item * F14Table Item) : F14Table Item * F14Table Item :=
  (tables.2, tables.1).
End Copy.
