(* ===== verification/F14CopySpec.v ===== *)
(** Copies of F14 tables have the same items and are valid tables, or the copy is empty; copying
    chunk by chunk is right unless empty chunks before all items have overflow counts. *)
From S2P Require Import Prelude Sse F14Mask F14Chunk F14Table F14Probe F14Inv F14Find F14Update F14Rehash F14Reserve F14Clear F14Visit F14Spec F14Copy.

Section CopySpec.
Context {Item Key : Type} `{!SizeofItem Item} `{!F14Policy Item Key}.
Context `{!EqDecision Key} `{!Countable Key} `{!F14PolicyLaws Item Key}.
Implicit Types (t src : F14Table Item) (c d : F14Chunk Item) (cs css : list (F14Chunk Item)) (x : Item).

(** A table that is only good for [reset]. *)
Record resettable t : Prop := {
  rs_chunk : exists r, forall ci c, chunks_ t !! ci = Some c -> chunk_inv r ci c;
  rs_first : exists c0, first_chunk t = Some c0 /\ outboundOverflowCount_ c0 <= 254;
  rs_packed : is_u64 (packedSizeAndChunkShift_ t);
  rs_begin : packedBegin_ t = None;
}.

Lemma resettable_reset t : resettable t -> reset t = Some F14Table_default.
Proof.
  intros [(r & Hch) (c0 & Hc0 & Ho) Hp Hb]. unfold reset, clearImpl. rewrite Hc0. cbn [mbind option_bind orb].
  rewrite writable_le by done. destruct (Z.eqb_spec (size_ t) 0) as [Hz|Hz]; cbn [negb mbind option_bind].
  - f_equal. by apply reset_default.
  - destruct (destroy_all r (chunks_ t) Hch) as (cs & -> & _). cbn [mbind option_bind].
    destruct (setSize_spec 0 t) as (E1 & E2 & E3); [unfold is_uint; lia|].
    f_equal. apply reset_default; destruct kEnableItemIteration; done.
Qed.

(** ** Chunk by chunk *)

Lemma items_ext c c' (l : list nat) :
  (forall i, i ∈ l -> item i c = item i c') -> items_of c l = items_of c' l.
Proof.
  unfold items_of. induction l as [|i l IH]; intros Hl; [done|]. cbn [omap list_omap].
  rewrite Hl, IH by (left || (intros; apply Hl; by right)). done.
Qed.

Lemma items_put n tg x c :
  (n < length (rawItems_ c))%nat -> items_of (put n tg x c) (seq 0 (S n)) = items_of c (seq 0 n) ++ [x].
Proof.
  intros Hn. rewrite seq_S. unfold items_of. rewrite omap_app. f_equal.
  - apply items_ext. intros i Hi%elem_of_seq. unfold put. by rewrite item_insert, decide_False by lia.
  - cbn [omap list_omap plus]. unfold put. rewrite item_insert, decide_True by done. done.
Qed.

(** What stays when chunk [ci] gets items. *)
Record chunk_copied (t t' : F14Table Item) (ci : nat) (c c' : F14Chunk Item) : Prop := {
  cc_chunks : chunks_ t' = <[ci := c']> (chunks_ t);
  cc_begin : packedBegin_ t' = packedBegin_ t;
  cc_shift : chunkShift t' = chunkShift t;
  cc_packed : is_u64 (packedSizeAndChunkShift_ t');
  cc_control : control_ c' = control_ c;
  cc_outbound : outboundOverflowCount_ c' = outboundOverflowCount_ c;
  cc_scale : capacityScale c' = capacityScale c;
}.

Lemma direct_items_spec copies srcChunk rs ck ci r l dstI c t :
  chunk_inv rs ck srcChunk -> (forall i, i ∈ l -> i ∈ slots srcChunk) ->
  chunks_ t !! ci = Some c -> chunk_inv r ci c -> outboundOverflowCount_ c <= 254 -> packed_slots dstI c ->
  (dstI + length l <= r)%nat -> (r <= kCapacity)%nat ->
  is_u64 (packedSizeAndChunkShift_ t) -> size_ t + Z.of_nat (length l) <= kMaxSize ->
  exists t' c' res, direct_items copies srcChunk ci l dstI t = Some (t', res) /\
    chunk_copied t t' ci c c' /\ chunk_inv r ci c' /\
    match res with
    | Ok _ => size_ t' = size_ t + Z.of_nat (length l) /\ packed_slots (dstI + length l) c' /\
        items_of c' (slots c') = items_of c (slots c) ++ items_of srcChunk l
    | Err e => e = construction_exception /\ exists x, x ∈ items_of srcChunk l /\ copies x = false
    end.
Proof using F14PolicyLaws0.
  intros Hsrc. revert dstI c t. induction l as [|srcI l IH]; intros dstI c t Hl Hc Hci Ho Hps Hr Hrk Hp Hsz; cbn [direct_items].
  - exists t, c, (Ok tt). split; [done|]. split; [constructor; try done; by rewrite list_insert_id|]. split; [done|].
    split; [cbn; lia|]. split; [by rewrite Nat.add_0_r|]. cbn. by rewrite app_nil_r.
  - destruct (inv_item _ _ _ Hsrc srcI) as (x & Hx & Htg); [apply Hl; left|]. rewrite Hx. cbn [mbind option_bind].
    unfold copy_of. destruct (copies x) eqn:Ecp.
    2: { exists t, c, (Err construction_exception). split; [done|]. split; [constructor; try done; by rewrite list_insert_id|].
         split; [done|]. split; [done|]. exists x. split; [|done]. unfold items_of. cbn [omap list_omap]. rewrite Hx. left. }
    cbn [length] in Hr, Hsz. pose proof (hash_pair_tag x) as Htag. pose proof (inv_room _ _ _ Hci) as Hroom.
    assert (full_slot c dstI = false) as Hf by (rewrite (proj2 Hps) by lia; apply bool_decide_false; lia).
    set (c1 := mkChunk (tags_ c) (control_ c) (outboundOverflowCount_ c) (<[dstI := Some x]> (rawItems_ c))).
    rewrite (update_chunk_spec ci _ c c1) by (done || lia || (apply set_item_spec; lia)). cbn [mbind option_bind].
    unfold tag, load. rewrite Htg. cbn [mbind option_bind].
    assert (chunk_ok c1) as Hok1 by (pose proof (inv_ok _ _ _ Hci) as [? ? ? ? ?]; by constructor).
    assert (ci < length (chunks_ t))%nat as Hlt by by eapply lookup_lt_Some.
    rewrite (update_chunk_spec ci _ c1 (put dstI (hash_pair x).2 x c)).
    2: { cbn [set_chunks chunks_]. by apply list_lookup_insert_eq. } 2: done.
    2: { apply (setTag_spec dstI (hash_pair x).2 c1); [done|lia|done|done]. }
    cbn [mbind option_bind set_chunks chunks_]. rewrite list_insert_insert_eq.
    set (c2 := put dstI (hash_pair x).2 x c). set (t1 := set_chunks (<[ci := c2]> (chunks_ t)) (set_chunks _ t)).
    unfold kMaxSize, kSizeShift in *. pose proof (size_uint t Hp) as Hs56. unfold is_uint in Hs56.
    assert (incrementSize t1 = setSize (size_ t + 1) t1) as ->.
    { unfold incrementSize. change (size_ t1) with (size_ t). by rewrite wrap_small by (unfold is_uint; lia). }
    destruct (setSize_spec (size_ t + 1) t1) as (E1 & E2 & E3); [unfold is_uint; lia|]. set (t2 := setSize (size_ t + 1) t1) in *.
    assert (chunks_ t2 !! ci = Some c2) as Hc2 by (subst t2 t1; cbn; by apply list_lookup_insert_eq).
    destruct (IH (S dstI) c2 t2) as (t' & c' & res & E & [F1 F2 F3 F4 F5 F6 F7] & Hci' & Hres); try done.
    + intros i Hi. apply Hl. by right.
    + apply chunk_inv_put; [done|lia|lia].
    + apply packed_slots_put; [done|lia|apply Hci|done].
    + lia.
    + rewrite E1. lia.
    + exists t', c', res. split; [done|]. split.
      * constructor; try done.
        -- rewrite F1. subst t2 t1. cbn. by rewrite list_insert_insert_eq.
        -- by rewrite F3, E2.
        -- rewrite F7. unfold c2, put. by apply capacityScale_insert; [lia|].
      * split; [done|]. destruct res as [u|e].
        -- destruct Hres as (G1 & G2 & G3). split; [rewrite G1, E1; cbn [length]; lia|].
           split; [cbn [length]; by replace (dstI + S (length l))%nat with (S dstI + length l)%nat by lia|].
           rewrite G3. rewrite (packed_slots_seq _ _ Hps).
           rewrite (packed_slots_seq (S dstI) c2) by (apply packed_slots_put; [done|lia|apply Hci|done]).
           unfold c2. rewrite items_put by lia. rewrite <- app_assoc. f_equal. unfold items_of. cbn [omap list_omap]. by rewrite Hx.
        -- destruct Hres as (-> & y & Hy & Hcy). split; [done|]. exists y. split; [|done]. unfold items_of in *.
           cbn [omap list_omap]. rewrite Hx. by right.
Qed.

(** Chunk [c] is a copy of [d]: the same items, first slots, and the same overflow counts. *)
Record like c d : Prop := {
  like_items : items_of c (slots c) = items_of d (slots d);
  like_packed : exists k, packed_slots k c;
  like_hosted : hostedOverflowCount c = hostedOverflowCount d;
  like_outbound : outboundOverflowCount_ c = outboundOverflowCount_ d;
}.

(** A chunk that was not reached. *)
Record untouched c : Prop := {
  un_slots : slots c = [];
  un_hosted : hostedOverflowCount c = 0;
  un_outbound : outboundOverflowCount_ c = 0;
}.

(** The chunks from [n] on are copied. *)
Record copied (s scale : Z) css cs (n : nat) : Prop := {
  cp_chunk ci c : cs !! ci = Some c -> chunk_inv (room s scale) ci c;
  cp_length : length cs = length css;
  cp_scale : capacityScale <$> cs !! 0%nat = Some scale;
  cp_low ci c : (ci < n)%nat -> cs !! ci = Some c -> untouched c;
  cp_high ci c d : (n <= ci)%nat -> cs !! ci = Some c -> css !! ci = Some d -> like c d;
}.

(** [copyOverflowInfoFrom] on an untouched chunk. *)
Lemma copyOverflow_spec c d :
  chunk_ok c -> chunk_ok d -> untouched c ->
  let c' := copyOverflowInfoFrom d c in
  body c' = body c /\ is_byte (control_ c') /\ hostedOverflowCount c' = hostedOverflowCount d /\
  outboundOverflowCount_ c' = outboundOverflowCount_ d.
Proof.
  intros Hc Hd [_ Hh _] c'. pose proof (ok_control _ Hc) as Bc. pose proof (ok_control _ Hd) as Bd.
  rewrite hosted_div in Hh by done. unfold is_uint in *.
  assert (control_ d .& 0xf0 = 16 * (control_ d / 16)) as El.
  { apply Z.eqb_eq. by apply (byte_forall (fun b => b .& 0xf0 =? 16 * (b / 16))); [vm_compute|]. }
  assert (control_ c' = control_ c + 16 * (control_ d / 16)) as Ec.
  { change (u8 (control_ c + u8 (control_ d .& 0xf0)) = control_ c + 16 * (control_ d / 16)). rewrite El.
    assert (0 <= control_ d / 16 < 16) by (Z.to_euclidean_division_equations; lia).
    assert (0 <= control_ c < 16) by (Z.to_euclidean_division_equations; lia).
    rewrite (wrap_small 8 (16 * _)), wrap_small by (unfold is_uint; lia). done. }
  assert (is_byte (control_ c')) as Hb by (rewrite Ec; unfold is_uint; Z.to_euclidean_division_equations; lia).
  split; [|split; [done|split; [|done]]].
  - unfold body. change (tags_ c') with (tags_ c). change (rawItems_ c') with (rawItems_ c). rewrite Ec. f_equal.
    Z.to_euclidean_division_equations. lia.
  - rewrite !hosted_div by done. rewrite Ec. Z.to_euclidean_division_equations. lia.
Qed.

Lemma copied_step s scale css cs n c' d :
  copied s scale css cs (S n) -> css !! n = Some d -> chunk_inv (room s scale) n c' -> like c' d ->
  capacityScale <$> (<[n := c']> cs) !! 0%nat = Some scale -> copied s scale css (<[n := c']> cs) n.
Proof.
  intros [Hch Hl Hsc Hlow Hhigh] Hd Hc' Hlike Hsc'. constructor.
  - intros ci c Hc. destruct (decide (ci = n)) as [->|Hne].
    + rewrite list_lookup_insert_eq in Hc by (rewrite Hl; by eapply lookup_lt_Some). by simplify_eq.
    + rewrite list_lookup_insert_ne in Hc by congruence. auto.
  - by rewrite length_insert.
  - done.
  - intros ci c Hlt Hc. rewrite list_lookup_insert_ne in Hc by lia. apply (Hlow ci); [lia|done].
  - intros ci c e Hle Hc He. destruct (decide (ci = n)) as [->|Hne].
    + rewrite list_lookup_insert_eq in Hc by (rewrite Hl; by eapply lookup_lt_Some). by simplify_eq.
    + rewrite list_lookup_insert_ne in Hc by congruence. apply (Hhigh ci); [lia|done|done].
Qed.

(** The source that is copied and the room there is for it. *)
Record copy_source (s scale : Z) src : Prop := {
  so_inv : table_inv src;
  so_shift : chunkShift src = s;
  so_range : 0 <= s < 64;
  so_scale : scale_ok s scale;
  so_room ci c : chunks_ src !! ci = Some c -> (length (slots c) <= room s scale)%nat;
}.

Lemma scale_insert cs n c c' scale :
  capacityScale <$> cs !! 0%nat = Some scale -> cs !! n = Some c -> capacityScale c' = capacityScale c ->
  capacityScale <$> (<[n := c']> cs) !! 0%nat = Some scale.
Proof.
  intros Hsc Hc E. destruct (decide (n = 0%nat)) as [->|Hne].
  - rewrite list_lookup_insert_eq by (by eapply lookup_lt_Some). rewrite Hc in Hsc. cbn in *. congruence.
  - by rewrite list_lookup_insert_ne by congruence.
Qed.

(** What the table has while it is copied to. *)
Record copying t : Prop := {
  cy_packed : is_u64 (packedSizeAndChunkShift_ t);
  cy_begin : packedBegin_ t = None;
}.

(** One chunk. *)
Lemma direct_chunk_spec copies s scale src n d t :
  copy_source s scale src -> copied s scale (chunks_ src) (chunks_ t) (S n) -> copying t ->
  chunks_ src !! n = Some d -> size_ t + Z.of_nat (length (slots d)) <= kMaxSize ->
  exists t1 t' res, update_chunk n (total (copyOverflowInfoFrom d)) t = Some t1 /\
    direct_items copies d n (occupiedIter d) 0 t1 = Some (t', res) /\ copying t' /\ chunkShift t' = chunkShift t /\
    match res with
    | Ok _ => copied s scale (chunks_ src) (chunks_ t') n /\ size_ t' = size_ t + Z.of_nat (length (slots d))
    | Err e => e = construction_exception /\ (exists x, x ∈ contents src /\ copies x = false) /\ resettable t'
    end.
Proof using F14PolicyLaws0.
  intros HS HC [Hp Hb] Hd Hsz. pose proof (inv_chunks _ (so_inv _ _ _ HS)) as HCs.
  pose proof (inv_chunk _ _ _ HCs _ _ Hd) as Hdi. pose proof (inv_header _ _ _ HCs _ _ Hd) as Hdh.
  destruct (lookup_lt_is_Some_2 (chunks_ t) n) as [c Hc]; [rewrite (cp_length _ _ _ _ _ HC); by eapply lookup_lt_Some|].
  pose proof (cp_chunk _ _ _ _ _ HC _ _ Hc) as Hci. pose proof (cp_low _ _ _ _ _ HC n c ltac:(lia) Hc) as Hun.
  destruct (copyOverflow_spec c d (inv_ok _ _ _ Hci) (inv_ok _ _ _ Hdi) Hun) as (Eb & Bc & Eh & Eo).
  set (c1 := copyOverflowInfoFrom d c) in *. pose proof (header_range _ _ _ _ Hdh) as Hr.
  assert (chunk_inv (room s scale) n c1) as Hci1.
  { apply (chunk_inv_body _ _ c); [done|done|unfold is_uint; lia|done]. }
  pose proof (un_outbound _ Hun) as Ho0. pose proof (lookup_lt_Some _ _ _ Hc) as Hlt.
  rewrite (update_chunk_spec n _ c c1) by (done || lia). eexists. rewrite occupiedIter_spec by apply Hdi.
  pose proof (room_le _ _ (so_scale _ _ _ HS)) as Hrk. pose proof (so_room _ _ _ HS _ _ Hd) as Hroom.
  assert (slots c1 = []) as Hsl1 by (rewrite (body_slots _ _ Eb); apply Hun).
  set (t1 := set_chunks (<[n := c1]> (chunks_ t)) t).
  destruct (direct_items_spec copies d _ n n (room s scale) (slots d) 0 c1 t1 Hdi) as (t' & c' & res & E & [F1 F2 F3 F4 F5 F6 F7] & Hci' & Hres); try done.
  { subst t1. cbn. by apply list_lookup_insert_eq. } { lia. } { by apply packed_slots_nil. }
  assert (chunks_ t' = <[n := c']> (chunks_ t)) as Ec' by (rewrite F1; subst t1; cbn; by rewrite list_insert_insert_eq).
  assert (capacityScale <$> chunks_ t' !! 0%nat = Some scale) as Hsc'.
  { rewrite Ec'. apply (scale_insert _ n c); [apply HC|done|]. rewrite F7. by apply capacityScale_body. }
  exists t', res. split; [done|]. split; [done|]. split; [constructor; [done|by rewrite F2]|]. split; [done|]. destruct res as [u|e].
  - destruct Hres as (G1 & G2 & G3). split; [|done]. rewrite Ec' in *. apply (copied_step _ _ _ _ _ c' d); try done. constructor.
    + rewrite G3, Hsl1. done.
    + by eexists.
    + unfold hostedOverflowCount in *. by rewrite F5, Eh.
    + by rewrite F6, Eo.
  - destruct Hres as (-> & x & Hx & Hcx). split; [done|]. split.
    + exists x. split; [|done]. rewrite <- (row_items n) in Hx. apply list_elem_of_fmap in Hx as ([[cj j] y] & -> & Hy).
      apply elem_of_row in Hy as (-> & Hj & Hy). apply list_elem_of_fmap. exists (n, j, y). split; [done|]. apply elem_of_cells. by exists d.
    + constructor; [|apply fmap_Some in Hsc' as (c0 & Hc0 & _); exists c0; split; [done|]|done|by rewrite F2].
      * exists (room s scale). rewrite Ec'. intros ci e He. destruct (decide (ci = n)) as [->|Hne].
        -- rewrite list_lookup_insert_eq in He by done. by simplify_eq.
        -- rewrite list_lookup_insert_ne in He by congruence. by apply (cp_chunk _ _ _ _ _ HC).
      * rewrite Ec' in Hc0. destruct (decide (n = 0%nat)) as [->|Hne].
        -- rewrite list_lookup_insert_eq in Hc0 by done. injection Hc0 as <-. rewrite F6, Eo. lia.
        -- rewrite list_lookup_insert_ne in Hc0 by congruence. rewrite (un_outbound _ (cp_low _ _ _ _ _ HC 0%nat c0 ltac:(lia) Hc0)). lia.
Qed.

Lemma row_slots s scale cs n c : chunks_inv s scale cs -> cs !! n = Some c -> length (row n c) = length (slots c).
Proof.
  intros HC Hc. apply length_row. intros i Hi. destruct (inv_item _ _ _ (inv_chunk _ _ _ HC _ _ Hc) i Hi) as (x & ? & _). by exists x.
Qed.

(** The loop ends as soon as all items are copied, at some chunk before which there are none. *)
Lemma direct_chunks_spec copies s scale src n t :
  copy_source s scale src -> copied s scale (chunks_ src) (chunks_ t) n -> copying t ->
  (n <= length (chunks_ src))%nat -> n <> 0%nat ->
  size_ t + Z.of_nat (length (cells (take n (chunks_ src)))) = size_ src ->
  exists t' res, direct_chunks copies src n t = Some (t', res) /\ copying t' /\ chunkShift t' = chunkShift t /\
    match res with
    | Ok _ => size_ t' = size_ src /\ exists m, copied s scale (chunks_ src) (chunks_ t') m /\ cells (take m (chunks_ src)) = []
    | Err e => e = construction_exception /\ (exists x, x ∈ contents src /\ copies x = false) /\ resettable t'
    end.
Proof using F14PolicyLaws0.
  intros HS. pose proof (inv_chunks _ (so_inv _ _ _ HS)) as HCs. revert t.
  induction n as [|n IH]; intros t HC Hcy Hn Hne Hsz; [done|]. cbn [direct_chunks].
  destruct (lookup_lt_is_Some_2 (chunks_ src) n) as [d Hd]; [lia|]. unfold load. rewrite Hd. cbn [mbind option_bind].
  rewrite (cells_take_S _ _ d) in Hsz by done. rewrite length_app, (row_slots _ _ _ _ _ HCs Hd) in Hsz.
  destruct (valid_size_range src (or_intror (so_inv _ _ _ HS))) as [_ Hmax].
  destruct (direct_chunk_spec copies s scale src n d t HS HC Hcy Hd) as (t1 & t' & res & -> & E & Hcy' & Hsh & Hres); [lia|].
  cbn [mbind option_bind]. rewrite E. cbn [mbind option_bind]. destruct res as [u|e].
  - destruct Hres as [HC' Hsz']. destruct (Z.eqb_spec (size_ t') (size_ src)) as [Eq|Nq]; cbn [negb].
    + exists t', (Ok tt). split; [done|]. split; [done|]. split; [done|]. split; [done|]. exists n. split; [done|].
      apply nil_length_inv. apply Nat2Z.inj. cbn. lia.
    + destruct (IH t' HC' Hcy') as (t'' & res & E2 & Hcy2 & Hsh2 & Hres2); [lia|intros ->; change (length (cells (take 0 _))) with 0%nat in Hsz; lia|lia|].
      exists t'', res. split; [done|]. split; [done|]. split; [congruence|]. done.
  - exists t', (Err e). done.
Qed.

(** ** The whole table, copied in place *)

(** Items with the index of their chunk, which determine the contents and the entries. *)
Definition placed cs : list (nat * Item) := (fun e => (e.1.1, e.2)) <$> cells cs.

Lemma placed_contents t : contents t = snd <$> placed (chunks_ t).
Proof. unfold contents, placed. by rewrite <- list_fmap_compose. Qed.

Lemma placed_entries cs : entries cs = (fun p => (p.1, hash_pair p.2)) <$> placed cs.
Proof. unfold entries, placed. by rewrite <- list_fmap_compose. Qed.

Lemma placed_row n c : (fun e => (e.1.1, e.2)) <$> row n c = pair n <$> items_of c (slots c).
Proof.
  unfold row, items_of. induction (slots c) as [|i l IH]; [done|]. cbn [omap list_omap].
  destruct (item i c); cbn [mbind option_bind fmap list_fmap]; by rewrite ?IH.
Qed.

Lemma placed_eq cs css :
  length cs = length css ->
  (forall ci c d, cs !! ci = Some c -> css !! ci = Some d -> items_of c (slots c) = items_of d (slots d)) ->
  placed cs = placed css.
Proof.
  unfold placed, cells. generalize 0%nat. revert css.
  induction cs as [|c cs IH]; intros [|d css] n Hl H; try done. cbn [cells_from]. rewrite !fmap_app, !placed_row.
  rewrite (H 0%nat c d) by done. f_equal. apply IH; [by injection Hl|]. intros ci c' d'. apply (H (S ci)).
Qed.

(** The same items in the same chunks, and the same counts. *)
Lemma same_chunks_inv s scale scale' cs css :
  chunks_inv s scale' css -> length cs = length css ->
  (forall ci c, cs !! ci = Some c -> chunk_inv (room s scale) ci c) ->
  capacityScale <$> cs !! 0%nat = Some scale -> placed cs = placed css ->
  (forall ci c d, cs !! ci = Some c -> css !! ci = Some d ->
    hostedOverflowCount c = hostedOverflowCount d /\ outboundOverflowCount_ c = outboundOverflowCount_ d) ->
  chunks_inv s scale cs.
Proof.
  intros HC Hl Hch Hsc Hpl Hcnt. constructor; [apply HC|by rewrite Hl, (inv_length _ _ _ HC)|done|done|].
  intros ci c Hc. destruct (lookup_lt_is_Some_2 css ci) as [d Hd]; [rewrite <- Hl; by eapply lookup_lt_Some|].
  destruct (Hcnt ci c d Hc Hd) as [E1 E2]. destruct (inv_header _ _ _ HC _ _ Hd) as [_ H2 H3 H4].
  rewrite placed_entries, Hpl, <- placed_entries. constructor; [apply (Hch _ _ Hc)|by rewrite E1|by rewrite E2|by rewrite E2].
Qed.

Lemma length_placed cs : length (placed cs) = length (cells cs).
Proof. apply length_fmap. Qed.

Lemma cells_take_nil s scale cs m ci c :
  chunks_inv s scale cs -> cells (take m cs) = [] -> (ci < m)%nat -> cs !! ci = Some c ->
  slots c = [] /\ cells (take (S ci) cs) = [] /\ hostedOverflowCount c = 0.
Proof.
  intros HC Hm Hlt Hc. assert (forall k i x, (k < m)%nat -> (k, i, x) ∉ cells cs) as Hno.
  { intros k i x Hk (d & Hd & Hin)%elem_of_cells. assert ((k, i, x) ∈ cells (take m cs)) as Hx.
    { apply elem_of_cells. exists d. by rewrite lookup_take_lt by done. }
    rewrite Hm in Hx. by apply not_elem_of_nil in Hx. }
  split; [|split].
  - apply elem_of_nil_inv. intros i Hi. destruct (inv_item _ _ _ (inv_chunk _ _ _ HC _ _ Hc) i Hi) as (x & Hx & _).
    apply (Hno ci i x Hlt), elem_of_cells. by exists c.
  - apply elem_of_nil_inv. intros [[k i] x] (d & Hd & Hin)%elem_of_cells. assert (k < S ci)%nat as Hk.
    { apply lookup_lt_Some in Hd. rewrite length_take in Hd. lia. }
    rewrite lookup_take_lt in Hd by done. apply (Hno k i x); [lia|]. apply elem_of_cells. by exists d.
  - rewrite (header_hosted _ _ _ _ (inv_header _ _ _ HC _ _ Hc)). unfold hosted_count.
    assert (filter (fun e => e.1 = ci /\ path s e.2 e.1 <> []) (entries cs) = []) as ->; [|done].
    apply elem_of_nil_inv. intros e [[E _] He]%list_elem_of_filter.
    apply list_elem_of_fmap in He as ([[k i] x] & -> & Hin). cbn in E. subst k. by apply (Hno ci i x).
Qed.

(** No chunk without items at or before it has overflow counts left. *)
Definition no_stale_overflow src : Prop :=
  forall ci c, chunks_ src !! ci = Some c -> cells (take (S ci) (chunks_ src)) = [] -> outboundOverflowCount_ c = 0.

Lemma copied_placed s scale src cs m :
  table_inv src -> copied s scale (chunks_ src) cs m -> cells (take m (chunks_ src)) = [] ->
  placed cs = placed (chunks_ src).
Proof.
  intros HI HC Hm. apply placed_eq; [apply HC|]. intros ci c d Hc Hd. destruct (decide (m <= ci)%nat) as [Hle|Hlt].
  - by apply (cp_high _ _ _ _ _ HC ci).
  - destruct (cells_take_nil _ _ _ m ci _ (inv_chunks _ HI) Hm ltac:(lia) Hd) as (-> & _).
    by rewrite (un_slots _ (cp_low _ _ _ _ _ HC ci c ltac:(lia) Hc)).
Qed.

Lemma copied_inv s scale src cs m :
  table_inv src -> chunkShift src = s -> copied s scale (chunks_ src) cs m -> cells (take m (chunks_ src)) = [] ->
  no_stale_overflow src -> chunks_inv s scale cs.
Proof.
  intros HI <- HC Hm Hst. pose proof (inv_chunks _ HI) as HCs.
  apply (same_chunks_inv _ _ _ _ _ HCs); [apply HC|apply HC|apply HC|by eapply copied_placed|].
  intros ci c d Hc Hd. destruct (decide (m <= ci)%nat) as [Hle|Hlt].
  - by destruct (cp_high _ _ _ _ _ HC ci c d Hle Hc Hd).
  - destruct (cells_take_nil _ _ _ m ci _ HCs Hm ltac:(lia) Hd) as (_ & Ht & ->).
    destruct (cp_low _ _ _ _ _ HC ci c ltac:(lia) Hc) as [_ -> ->]. by rewrite (Hst _ _ Hd Ht).
Qed.

(** The first iterator of the copy. *)
Lemma copied_begin s scale src cs m :
  kEnableItemIteration = true ->
  table_inv src -> size_ src <> 0 -> copied s scale (chunks_ src) cs m -> cells (take m (chunks_ src)) = [] ->
  exists k c i, lastOccupiedChunk src = Some k /\ cs !! k = Some c /\ lastOccupied c = Some i /\
    begin_inv (Some (k, i)) (fst <$> cells cs).
Proof.
  intros Hen HI Hne HC Hm. pose proof (inv_chunks _ HI) as HCs. pose proof (inv_begin _ HI) as Hb. rewrite Hen in Hb.
  destruct (lastOccupiedChunk_spec src HI Hne) as (k & Ek & Hk & Hlast). pose proof Ek as Ek0.
  unfold lastOccupiedChunk, begin_ in Ek0. rewrite Hen in Ek0. destruct (packedBegin_ src) as [p|]; [|done].
  injection Ek0 as <-. destruct Hb as [(d & Hd & Hp)%(occ_cells _ _ _ _ HCs) _].
  destruct (lookup_lt_is_Some_2 cs p.1) as [c Hc]; [by rewrite (cp_length _ _ _ _ _ HC)|].
  assert (m <= p.1)%nat as Hle.
  { destruct (decide (m <= p.1)%nat); [done|]. destruct (cells_take_nil _ _ _ m p.1 _ HCs Hm ltac:(lia) Hd) as (E & _).
    rewrite E in Hp. by apply not_elem_of_nil in Hp. }
  destruct (cp_high _ _ _ _ _ HC _ c d Hle Hc Hd) as [Hit (n & Hps) _ _].
  pose proof (packed_slots_seq _ _ Hps) as Hsl. destruct n as [|n].
  { rewrite Hsl in Hit. cbn in Hit. destruct (inv_item _ _ _ (inv_chunk _ _ _ HCs _ _ Hd) _ Hp) as (x & Hx & _).
    assert (x ∈ items_of d (slots d)) as Hin by (apply list_elem_of_omap; eauto). rewrite <- Hit in Hin. by apply not_elem_of_nil in Hin. }
  pose proof (cp_chunk _ _ _ _ _ HC _ _ Hc) as Hci.
  exists p.1, c, n. split; [done|]. split; [done|]. split; [rewrite lastOccupied_spec, Hsl, seq_S by apply Hci; apply last_snoc|].
  assert (forall q, q ∈ fst <$> cells cs <-> occ cs q) as Hocc.
  { intros [ci i]. rewrite list_elem_of_fmap. split.
    - intros ([[cj j] y] & [= -> ->] & (e & He & Hj & _)%elem_of_cells). by exists e.
    - intros (e & He & Hj). cbn in *. destruct (inv_item _ _ _ (cp_chunk _ _ _ _ _ HC _ _ He) _ Hj) as (x & Hx & _).
      exists (ci, i, x). split; [done|]. apply elem_of_cells. by exists e. }
  split.
  - apply Hocc. exists c. split; [done|]. cbn. rewrite Hsl. apply elem_of_seq. lia.
  - intros q (e & He & Hq)%Hocc. apply packed_lt_false. intros [Hlt|[E Hlt]]; cbn [fst snd] in *.
    + destruct (lookup_lt_is_Some_2 (chunks_ src) q.1) as [f Hf]; [rewrite <- (cp_length _ _ _ _ _ HC); by eapply lookup_lt_Some|].
      destruct (cp_high _ _ _ _ _ HC q.1 e f ltac:(lia) He Hf) as [Hit' _ _ _]. rewrite (Hlast _ _ Hlt Hf) in Hit'. cbn in Hit'.
      destruct (inv_item _ _ _ (cp_chunk _ _ _ _ _ HC _ _ He) _ Hq) as (x & Hx & _).
      assert (x ∈ items_of e (slots e)) as Hin by (apply list_elem_of_omap; eauto). rewrite Hit' in Hin. by apply not_elem_of_nil in Hin.
    + rewrite <- E, Hc in He. injection He as <-. rewrite Hsl in Hq. apply elem_of_seq in Hq. lia.
Qed.

Lemma copy_intro s scale src t' :
  table_inv src -> scale_ok s scale -> size_ src <= computeCapacity (2 ^ s) scale ->
  is_u64 (packedSizeAndChunkShift_ t') -> chunkShift t' = s -> size_ t' = size_ src ->
  chunks_inv s scale (chunks_ t') -> placed (chunks_ t') = placed (chunks_ src) ->
  (if kEnableItemIteration then begin_inv (packedBegin_ t') (fst <$> cells (chunks_ t')) else packedBegin_ t' = None) ->
  table_inv t'.
Proof.
  intros HI Hok Hcap Hp Hsh Hsz HC Hpl Hb. destruct (table_intro s scale t') as [? _]; try done.
  - by rewrite Hsz, (inv_size _ HI), <- !length_placed, Hpl.
  - by rewrite Hsz.
  - rewrite placed_contents, Hpl, <- placed_contents. apply (inv_keys _ HI).
Qed.

(** A table with new chunks. *)
Record fresh_table (s scale : Z) t : Prop := {
  fr_inv : table_inv t;
  fr_cells : cells (chunks_ t) = [];
  fr_shift : chunkShift t = s;
  fr_scale : table_scale t = scale;
  fr_outbound ci c : chunks_ t !! ci = Some c -> outboundOverflowCount_ c = 0;
}.

Lemma fresh_copying s scale t : fresh_table s scale t -> copying t /\ size_ t = 0.
Proof.
  intros [HI Hc _ _ _]. pose proof (valid_elim t (or_intror HI)) as HV. split; [constructor; [apply HI|by apply (valid_begin _ HV)]|].
  by rewrite (inv_size _ HI), Hc.
Qed.

Lemma fresh_copied s scale src t :
  fresh_table s scale t -> copy_source s scale src ->
  copied s scale (chunks_ src) (chunks_ t) (length (chunks_ src)).
Proof.
  intros [HI Hc Hs Hsc Ho] [HIs Hss _ _ _]. pose proof (inv_chunks _ HI) as HC. pose proof (inv_chunks _ HIs) as HCs.
  rewrite Hs, Hsc in HC. rewrite Hss in HCs. constructor; [apply HC| |apply HC| |].
  - by rewrite (inv_length _ _ _ HC), (inv_length _ _ _ HCs).
  - intros ci c Hlt E. destruct (inv_header _ _ _ HC _ _ E) as [_ Hh _ _]. unfold entries in Hh. rewrite Hc in Hh. constructor.
    + exact (no_cells_slots _ _ _ _ _ HC Hc E).
    + done.
    + by eapply Ho.
  - intros ci c d Hle _ Hd%lookup_lt_Some. lia.
Qed.

(** What copying in place promises; the copy is a table unless overflow counts were left behind. *)
Definition direct_ok copies src (res : option (F14Table Item * result f14_exn unit)) : Prop :=
  exists t' r, res = Some (t', r) /\
    match r with
    | Ok _ => contents t' = contents src /\ (no_stale_overflow src -> table_inv t')
    | Err e => e = construction_exception /\ (exists x, x ∈ contents src /\ copies x = false) /\ resettable t'
    end.

Lemma direct_loop_spec copies s scale src t :
  fresh_table s scale t -> copy_source s scale src -> size_ src <> 0 -> size_ src <= computeCapacity (2 ^ s) scale ->
  direct_ok copies src (
    '(t, r) ← direct_chunks copies src (Z.to_nat (chunkCount t)) t;
    match r with
    | Err e => Some (t, Err e)
    | Ok _ =>
        if kEnableItemIteration then
          maxChunkIndex ← lastOccupiedChunk src;
          c ← load (chunks_ t) maxChunkIndex;
          i ← lastOccupied c;
          Some (set_begin (Some (maxChunkIndex, i)) t, Ok tt)
        else Some (t, Ok tt)
    end).
Proof using F14PolicyLaws0.
  intros HF HS Hne Hcap. destruct (fresh_copying _ _ _ HF) as [Hcy Hz]. pose proof (fresh_copied _ _ _ _ HF HS) as HC0.
  destruct HF as [HI Hc Hs Hsc Ho]. pose proof HS as [HIs Hss Hr Hok _]. pose proof (inv_chunks _ HIs) as HCs.
  pose proof (inv_length _ _ _ HCs) as Hlen. rewrite Hss in Hlen. pose proof (nchunks_Z s Hr). pose proof (pow_s_pos s Hr).
  rewrite chunkCount_pow, Hs by lia. fold (nchunks s). rewrite <- Hlen.
  destruct (direct_chunks_spec copies s scale src (length (chunks_ src)) t HS HC0 Hcy) as (t' & r & -> & [Hp Hb] & Hsh & Hres).
  { lia. } { lia. } { rewrite take_ge by lia. rewrite Hz, (inv_size _ HIs). lia. }
  cbn [mbind option_bind]. destruct r as [u|e]; [|by exists t', (Err e)].
  destruct Hres as (Hsz & m & HCp & Hm). pose proof (copied_placed _ _ _ _ _ HIs HCp Hm) as Hpl.
  assert (forall b, (if kEnableItemIteration then begin_inv b (fst <$> cells (chunks_ t')) else b = None) ->
    direct_ok copies src (Some (set_begin b t', Ok tt))) as Hfin.
  { intros b Hbi. eexists _, (Ok tt). split; [done|]. split; [rewrite !placed_contents; exact (f_equal _ Hpl)|].
    intros Hst. apply (copy_intro s scale src); try done; [exact (eq_trans Hsh Hs)|by eapply copied_inv]. }
  destruct kEnableItemIteration eqn:Hen.
  - destruct (copied_begin _ _ _ _ _ Hen HIs Hne HCp Hm) as (k & c & i & -> & Hk & Hi & Hbi).
    cbn [mbind option_bind]. unfold load. rewrite Hk. cbn [mbind option_bind]. rewrite Hi. cbn [mbind option_bind]. auto.
  - replace t' with (set_begin None t') by (destruct t'; cbn in *; by rewrite Hb). auto.
Qed.

(** ** By [memcpy] *)

Lemma setCapacityScale_spec scale r c :
  kContinuousCapacity = true -> 0 <= scale < 2 ^ kCapacityScaleBits -> chunk_inv r 0 c ->
  let c' := setCapacityScale scale c in
  chunk_inv r 0 c' /\ capacityScale c' = scale /\ slots c' = slots c /\ control_ c' = control_ c /\
  outboundOverflowCount_ c' = outboundOverflowCount_ c /\ rawItems_ c' = rawItems_ c.
Proof using F14PolicyLaws0.
  intros Hk Hsc Hc c'. apply law_continuous in Hk. pose proof Hc as [[O1 O2 O3 O4 O5] Hr Hi _].
  assert (kCapacity = 12%nat) as Ek by (unfold kCapacity; by rewrite Hk).
  assert (kCapacityScaleBits = 16) as Eb by (unfold kCapacityScaleBits; by rewrite Ek). rewrite Eb in Hsc.
  assert (c' = mkChunk (<[13%nat := byte_at (u16 scale) 1]> (<[12%nat := byte_at (u16 scale) 0]> (tags_ c)))
      (control_ c) (outboundOverflowCount_ c) (rawItems_ c)) as Ec by (subst c'; unfold setCapacityScale; by rewrite Eb).
  assert (forall i, (i < kCapacity)%nat -> tags_ c' !! i = tags_ c !! i) as Ht.
  { intros i Hlt. rewrite Ek in Hlt. rewrite Ec. cbn [tags_]. by rewrite !list_lookup_insert_ne by lia. }
  assert (slots c' = slots c) as Es.
  { apply filter_ext_in. intros i [_ Hlt]%elem_of_seq. unfold full_slot. by rewrite !nth_lookup, Ht by lia. }
  assert (capacityScale c' = scale) as Esc.
  { unfold capacityScale. rewrite Eb, Ec. change (16 =? 4) with false. cbn iota. cbn [tags_].
    rewrite !nth_lookup, list_lookup_insert_eq by (rewrite length_insert, O1; lia).
    rewrite list_lookup_insert_ne, list_lookup_insert_eq by (rewrite ?O1; lia). apply u16_bytes. lia. }
  split; [|rewrite Ec at 3 4 5; done]. constructor; [|by rewrite Ec| |done].
  - constructor; try (rewrite Ec; done).
    + rewrite Ec. cbn [tags_]. by rewrite !length_insert.
    + rewrite Ec. cbn [tags_]. by do 2 (apply Forall_insert; [|apply byte_at_byte]).
    + intros i tg Hlt. rewrite Ht by done. by apply O5.
  - intros i Hin. rewrite Es in Hin. destruct (Hi i Hin) as (x & Hx & Htg). exists x. apply elem_of_slots in Hin as [Hlt _].
    rewrite Ht by done. split; [|done]. unfold item in *. by rewrite Ec.
Qed.

Lemma itemCount_spec t : table_inv t ->
  itemCount t = Some (if chunkShift t =? 0 then table_scale t else u64 (2 ^ chunkShift t * Z.of_nat kCapacity)).
Proof.
  intros HI. pose proof (inv_chunks _ HI) as HC. unfold itemCount. rewrite chunkCount_pow by apply HC.
  destruct (Z.eqb_spec (chunkShift t) 0) as [E|E]; [|done].
  destruct (first_chunk_scale _ _ t HC) as (c & -> & Ec). cbn [mbind option_bind]. rewrite Ec.
  pose proof (inv_scale_ok _ HI) as Hok. rewrite E in Hok. by rewrite <- (capacity_single _ Hok) at 2.
Qed.

(** The copied bytes are those of the source, with the scale of the copy if that may differ. *)
Lemma copy_bytes_spec copies s scale src t :
  fresh_table s scale t -> copy_source s scale src -> size_ src <= computeCapacity (2 ^ s) scale ->
  itemCount t = itemCount src ->
  direct_ok copies src (
    c0 ← first_chunk t;
    let scale := capacityScale c0 in
    t ← copy_bytes src t;
    let t := setSize (size_ src) t in
    let t := if kEnableItemIteration then set_begin (begin_ src) t else t in
    t ← (if kContinuousCapacity then update_chunk 0 (total (setCapacityScale scale)) t else Some t);
    Some (t, Ok tt)).
Proof using F14PolicyLaws0.
  intros HF HS Hcap Hcount. destruct (fresh_copying _ _ _ HF) as [[Hp Hb] _]. destruct HF as [HI Hc Hs Hsc Ho].
  pose proof HS as [HIs Hss Hr Hok _]. pose proof (inv_chunks _ HIs) as HCs. pose proof (inv_chunks _ HI) as HC.
  rewrite !itemCount_spec, Hs, Hss, Hsc in Hcount by done.
  assert (s = 0 -> table_scale src = scale) as Hsame by (intros ->; cbn in Hcount; congruence).
  destruct (first_chunk_scale _ _ t HC) as (c0 & -> & Ec0). cbn [mbind option_bind]. rewrite Ec0, Hsc.
  unfold copy_bytes. rewrite (inv_length _ _ _ HC), (inv_length _ _ _ HCs), Hs, Hss, Nat.eqb_refl. cbn [mbind option_bind].
  destruct (setSize_spec (size_ src) (set_chunks (chunks_ src) t) (size_lt_56 src HIs)) as (E1 & E2 & E3).
  set (t2 := setSize _ _) in *. set (t3 := if kEnableItemIteration then _ else _).
  assert (chunks_ t3 = chunks_ src /\ size_ t3 = size_ src /\ chunkShift t3 = s /\ is_u64 (packedSizeAndChunkShift_ t3) /\
    packedBegin_ t3 = packedBegin_ src) as (F1 & F2 & F3 & F4 & F5).
  { subst t3. pose proof (inv_begin _ HIs) as Hbs. change (chunkShift (set_chunks _ t)) with (chunkShift t) in E2. rewrite Hs in E2.
    unfold begin_. destruct kEnableItemIteration; cbn [set_begin chunks_ packedBegin_]; [done|].
    rewrite Hbs. do 4 (split; [done|]). exact Hb. }
  assert (forall scale' cs, scale_ok s scale' -> size_ src <= computeCapacity (2 ^ s) scale' -> chunks_inv s scale' cs ->
    cells cs = cells (chunks_ src) -> direct_ok copies src (Some (set_chunks cs t3, Ok tt))) as Hfin.
  { intros scale' cs Hok' Hcap' HC' Ecs. eexists _, (Ok tt). split; [done|]. split; [unfold contents; cbn [set_chunks chunks_]; by rewrite Ecs|].
    intros _. apply (copy_intro s scale' src); try done; cbn [set_chunks chunks_ packedBegin_].
    - unfold placed. by rewrite Ecs.
    - rewrite F5, Ecs. apply (inv_begin _ HIs). }
  rewrite Hss in HCs. destruct kContinuousCapacity eqn:Hk.
  - destruct (first_chunk_scale _ _ src HCs) as (d0 & Hd0 & _). unfold first_chunk, load in Hd0.
    pose proof (inv_chunk _ _ _ HCs _ _ Hd0) as Hdi. pose proof (header_range _ _ _ _ (inv_header _ _ _ HCs _ _ Hd0)) as Hdr.
    assert (0 <= scale < 2 ^ kCapacityScaleBits) as Hsr by (pose proof (scale_pos _ _ Hok); split; [lia|apply (scale_fits _ _ Hok)]).
    destruct (setCapacityScale_spec scale _ d0 Hk Hsr Hdi) as (G1 & G2 & G3 & G4 & G5 & G6).
    set (d1 := setCapacityScale scale d0) in *. pose proof (lookup_lt_Some _ _ _ Hd0) as Hlt.
    rewrite (update_chunk_spec 0 _ d0 d1) by (done || lia || (rewrite F1; done)). cbn [mbind option_bind]. rewrite F1.
    assert (cells (<[0%nat := d1]> (chunks_ src)) = cells (chunks_ src)) as Ecs.
    { destruct (chunks_ src) as [|e es]; [done|]. cbn in Hd0. injection Hd0 as ->. unfold cells. cbn [insert list_insert cells_from].
      f_equal. unfold row. rewrite G3. unfold item. by rewrite G6. }
    apply (Hfin scale); try done. apply (same_chunks_inv _ _ _ _ _ HCs).
    + apply length_insert.
    + assert (room s (table_scale src) = room s scale) as Er.
      { unfold room. destruct (Z.eqb_spec s 0); [|done]. by rewrite Hsame. }
      intros ci c Hci. destruct (decide (ci = 0%nat)) as [->|Hne].
      * rewrite list_lookup_insert_eq in Hci by done. injection Hci as <-. by rewrite <- Er.
      * rewrite list_lookup_insert_ne in Hci by congruence. rewrite <- Er. by apply (inv_chunk _ _ _ HCs).
    + rewrite list_lookup_insert_eq by done. cbn. by rewrite G2.
    + unfold placed. by rewrite Ecs.
    + intros ci c d Hci Hd. destruct (decide (ci = 0%nat)) as [->|Hne].
      * rewrite list_lookup_insert_eq in Hci by done. rewrite Hd0 in Hd. simplify_eq. unfold hostedOverflowCount. by rewrite G4, G5.
      * rewrite list_lookup_insert_ne in Hci by congruence. rewrite Hd in Hci. by injection Hci as ->.
  - cbn [mbind option_bind]. replace t3 with (set_chunks (chunks_ src) t3) by (rewrite <- F1; by destruct t3).
    apply (Hfin (table_scale src)); [rewrite <- Hss; apply HIs|rewrite <- Hss; apply (inv_capacity _ HIs)|done|done].
Qed.

Lemma directBuildFrom_spec copies s scale src t :
  fresh_table s scale t -> copy_source s scale src -> size_ src <> 0 -> size_ src <= computeCapacity (2 ^ s) scale ->
  direct_ok copies src (directBuildFrom copies src t).
Proof using F14PolicyLaws0.
  intros HF HS Hne Hcap. unfold directBuildFrom. pose proof (fr_inv _ _ _ HF) as HI. pose proof (so_inv _ _ _ HS) as HIs.
  pose proof (copy_bytes_spec copies s scale src t HF HS Hcap) as Hbytes. rewrite !itemCount_spec in Hbytes by done.
  rewrite !itemCount_spec by done. cbn [mbind option_bind].
  destruct (itemIsTriviallyCopyable && negb destroyItemOnClear && (_ =? _)) eqn:E.
  - apply andb_true_iff in E as [_ E%Z.eqb_eq]. apply Hbytes. by rewrite E.
  - by apply (direct_loop_spec copies s scale src t).
Qed.
End CopySpec.
