(* ===== verification/F14CopyRehash.v ===== *)
(** Copies of F14 tables with fewer chunks than the source, and the theorem on copies. *)
From S2P Require Import Prelude Sse F14Mask F14Chunk F14Table F14Probe F14Inv F14Find F14Update F14Rehash F14Reserve F14Clear F14Visit F14Spec F14Copy F14CopySpec.

Section CopyRehash.
Context {Item Key : Type} `{!SizeofItem Item} `{!F14Policy Item Key}.
Context `{!EqDecision Key} `{!Countable Key} `{!F14PolicyLaws Item Key}.
Implicit Types (t src : F14Table Item) (c d : F14Chunk Item) (cs : list (F14Chunk Item)) (x : Item).

(** ** The index of a chunk as a hash *)

(** Paths depend on the tag and the index modulo the number of chunks. *)
Lemma path_mod s hp hp' cf :
  0 <= s < 64 -> hp.1 mod 2 ^ s = hp'.1 mod 2 ^ s -> hp.2 = hp'.2 -> path s hp cf = path s hp' cf.
Proof.
  intros Hs E1 E2. unfold path, tour. f_equal. apply list_fmap_ext. intros _ j _. unfold probe. f_equal.
  rewrite (Z.add_mod hp.1), (Z.add_mod hp'.1), E1, E2 by (pose proof (pow_s_pos s Hs); lia). done.
Qed.

(** An item of a chunk that hosts no overflow has the index of the chunk as the first of its probes,
    also in a table with fewer chunks. *)
Lemma chunk_index_path s src ci d i x cf :
  table_inv src -> 0 <= s <= chunkShift src -> chunks_ src !! ci = Some d -> hostedOverflowCount d = 0 ->
  i ∈ slots d -> item i d = Some x ->
  path s (Z.of_nat ci, (hash_pair x).2) cf = path s (hash_pair x) cf.
Proof.
  intros HI Hs Hd Hh Hi Hx. pose proof (inv_chunks _ HI) as HC. pose proof (inv_shift _ _ _ HC) as Hss.
  set (ss := chunkShift src) in *. pose proof (header_hosted _ _ _ _ (inv_header _ _ _ HC _ _ Hd)) as Hhc. rewrite Hh in Hhc.
  assert (path ss (hash_pair x) ci = []) as Hp.
  { destruct (decide (path ss (hash_pair x) ci = [])) as [|Hne]; [done|]. exfalso.
    assert ((ci, hash_pair x) ∈ filter (fun e => e.1 = ci /\ path ss e.2 e.1 <> []) (entries (chunks_ src))) as Hin.
    { apply list_elem_of_filter. split; [done|]. apply list_elem_of_fmap. exists (ci, i, x). split; [done|].
      apply elem_of_cells. by exists d. }
    unfold hosted_count in Hhc. destruct (filter _ _); [by apply not_elem_of_nil in Hin|done]. }
  assert (ci < nchunks ss)%nat as Hlt by (rewrite <- (inv_length _ _ _ HC); by eapply lookup_lt_Some).
  apply path_nil in Hp; [|done|done]. unfold probe in Hp. change (Z.of_nat 0) with 0 in Hp. rewrite Z.mul_0_l, Z.add_0_r in Hp.
  pose proof (pow_s_pos ss Hss) as Hpos. pose proof (Z.mod_pos_bound (hash_pair x).1 (2 ^ ss) Hpos) as Hb.
  apply path_mod; [lia| |done]. cbn [fst]. replace (Z.of_nat ci) with ((hash_pair x).1 mod 2 ^ ss) by lia.
  assert (0 < 2 ^ s) by (apply Z.pow_pos_nonneg; lia). assert (0 < 2 ^ (ss - s)) by (apply Z.pow_pos_nonneg; lia).
  replace (2 ^ ss) with (2 ^ s * 2 ^ (ss - s)) by (rewrite <- Z.pow_add_r by lia; f_equal; lia).
  rewrite Z.rem_mul_r, (Z.mul_comm (2 ^ s)), Z.mod_add, Z.mod_mod by lia. done.
Qed.

(** ** Items *)

(** A table under construction that may get more items. *)
Record growing (s cap : Z) t (fullness : list Z) : Prop := {
  gr_inv : table_inv t;
  gr_shift : chunkShift t = s;
  gr_capacity : capacity t = cap;
  gr_building : building s (table_scale t) (chunks_ t) fullness;
}.

Lemma nchunks_inj s s' : 0 <= s < 64 -> 0 <= s' < 64 -> nchunks s = nchunks s' -> s = s'.
Proof.
  intros Hs Hs' E. apply (Z.pow_inj_r 2); [lia|lia|lia|]. by rewrite <- !nchunks_Z, E.
Qed.

(** Other chunks with the same cells. *)
Lemma table_same_cells cs t :
  table_inv t -> chunks_inv (chunkShift t) (table_scale t) cs -> cells cs = cells (chunks_ t) ->
  table_inv (set_chunks cs t).
Proof.
  intros HI HC E. destruct (table_intro (chunkShift t) (table_scale t) (set_chunks cs t)) as [? _]; try done.
  - apply HI.
  - apply HI.
  - cbn [set_chunks chunks_]. rewrite E. apply HI.
  - apply HI.
  - unfold contents. cbn [set_chunks chunks_]. rewrite E. apply HI.
  - cbn [set_chunks chunks_ packedBegin_]. rewrite E. apply HI.
Qed.

Lemma copy_item_spec copies s cap hp x fullness t :
  growing s cap t fullness -> size_ t < cap -> keyForItem x ∉ keyForItem <$> contents t ->
  (forall cf, path s hp cf = path s (hash_pair x) cf) -> hp.2 = (hash_pair x).2 ->
  exists pos fullness' t1 t' r, allocateTag fullness hp t = Some (pos, fullness', t1) /\
    insertAtBlank pos hp (copy_of copies x) t1 = Some (t', r) /\
    match r with
    | Ok _ => growing s cap t' fullness' /\ contents t' ≡ₚ x :: contents t
    | Err e => e = construction_exception /\ copies x = false /\ table_inv t'
    end.
Proof using F14PolicyLaws0.
  intros [HI <- <- HB] Hsz Hkey Hpath Htg. pose proof (inv_scale_ok _ HI) as Hok. pose proof (bld_inv _ _ _ _ HB) as HC.
  assert (Z.of_nat (length (cells (chunks_ t))) < computeCapacity (2 ^ chunkShift t) (table_scale t)) as Hn
    by (rewrite <- (inv_size _ HI); exact Hsz).
  destruct (allocateTag_spec (table_scale t) fullness hp x t HB Hok Hn Hpath Htg)
    as (cf & i & c1 & fullness' & cs' & Hc1 & Hps & Hik & Hir & Hh & Ha & Ecs & HB' & Hcells).
  destruct (lookup_body _ _ _ _ (enter_body (chunkShift t) hp cf (chunks_ t)) Hc1) as (c & Hc & Eb).
  pose proof (hash_pair_tag x) as Htag. rewrite <- Htg in Htag.
  assert (full_slot c1 i = false) as Hf1 by (rewrite (proj2 Hps) by done; apply bool_decide_false; lia).
  destruct (Hh _ _ Hc1) as [Hctl _ Hr _].
  assert (chunk_inv (room (chunkShift t) (table_scale t)) cf c1) as Hci1.
  { apply (chunk_inv_body _ _ c); [done|done|unfold is_uint; lia|by apply (inv_chunk _ _ _ HC)]. }
  destruct (insertAtBlank_spec hp (copy_of copies x) (table_scale t) cf i c c1 t) as (cs2 & HC2 & Hres); try done.
  { rewrite <- Hf1. unfold full_slot. by injection Eb as -> _ _. }
  { intros y. unfold copy_of. destruct (copies x); [|done]. intros [= <-]. by rewrite Hpath. }
  unfold copy_of in *. destruct (copies x) eqn:Ecp; cbn zeta in Hres.
  - destruct Hres as (E & E2 & Hcells2). assert (cs2 = cs') as -> by congruence.
    destruct (table_insert cs' (cf, i) x t HI HC2 Hcells2 Hsz Hkey) as (HI' & Hcells' & Hcap').
    exists (cf, i), fullness'. eexists _, _, (Ok tt). split; [exact Ha|]. split; [exact E|].
    set (t' := adjustSizeAndBeginAfterInsert _ _) in *.
    assert (chunks_ t' = cs') as Ec by (subst t'; unfold adjustSizeAndBeginAfterInsert; by destruct (kEnableItemIteration && _)).
    pose proof (inv_chunks _ HI') as HC'. rewrite Ec in HC'.
    assert (chunkShift t' = chunkShift t) as Es.
    { apply nchunks_inj; [apply HC'|apply HC|]. by rewrite <- (inv_length _ _ _ HC'), <- (inv_length _ _ _ HC2). }
    split; [|unfold contents; by rewrite Hcells']. constructor; [done|done|done|].
    rewrite Ec, (table_scale_eq (chunkShift t) (table_scale t) t') by (by rewrite Ec). done.
  - destruct Hres as (E & Hcells2). exists (cf, i), fullness'. eexists _, _, (Err construction_exception).
    split; [exact Ha|]. split; [exact E|]. split; [done|]. split; [done|]. by apply table_same_cells.
Qed.

Lemma growing_size s cap t fullness : growing s cap t fullness -> size_ t = Z.of_nat (length (contents t)).
Proof. intros [HI _ _ _]. unfold contents. by rewrite length_fmap, (inv_size _ HI). Qed.

(** The outcome of copying [items] to [t]. *)
Definition copies_to copies t (items : list Item) {A} (P : F14Table Item -> A -> Prop)
    (res : option (F14Table Item * result f14_exn A)) : Prop :=
  exists t' r, res = Some (t', r) /\
    match r with
    | Ok a => P t' a /\ contents t' ≡ₚ items ++ contents t
    | Err e => e = construction_exception /\ (exists x, x ∈ items /\ copies x = false) /\ table_inv t'
    end.

Lemma rehash_copy_items_spec copies s cap src ci d l fullness t :
  table_inv src -> 0 <= s <= chunkShift src -> chunks_ src !! ci = Some d -> (forall i, i ∈ l -> i ∈ slots d) ->
  growing s cap t fullness -> NoDup (keyForItem <$> (items_of d l ++ contents t)) ->
  Z.of_nat (length (items_of d l ++ contents t)) <= cap ->
  copies_to copies t (items_of d l) (growing s cap) (rehash_copy_items copies d ci l fullness t).
Proof using F14PolicyLaws0.
  intros HI Hs Hd. pose proof (inv_chunk _ _ _ (inv_chunks _ HI) _ _ Hd) as Hdi. revert fullness t.
  induction l as [|i l IH]; intros fullness t Hl HG Hnd Hcap; cbn [rehash_copy_items].
  - exists t, (Ok fullness). split; [done|]. split; [done|]. done.
  - destruct (inv_item _ _ _ Hdi i) as (x & Hx & Htg); [apply Hl; left|].
    rewrite Hx. cbn [mbind option_bind]. unfold tag, load. rewrite Htg. cbn [mbind option_bind].
    assert (items_of d (i :: l) = x :: items_of d l) as Eit by (unfold items_of; cbn [omap list_omap]; by rewrite Hx).
    rewrite Eit in *. cbn [app length fmap list_fmap] in Hnd, Hcap. apply NoDup_cons in Hnd as [Hkey Hnd].
    set (hp := (if hostedOverflowCount d =? 0 then (Z.of_nat ci, (hash_pair x).2) else hash_pair x) : HashPair).
    match goal with |- copies_to _ _ _ _ (?e ≫= _) => assert (e = Some hp) as -> end.
    { subst hp. destruct (_ =? 0); [done|]. fold (hash_pair x). by rewrite Z.eqb_refl. }
    cbn [mbind option_bind]. pose proof (growing_size _ _ _ _ HG) as Hsz. rewrite length_app in Hcap.
    destruct (copy_item_spec copies s cap hp x fullness t HG) as (pos & f1 & t1 & t' & r & -> & E & Hr).
    { lia. }
    { intros Hin. apply Hkey. rewrite fmap_app. apply elem_of_app. by right. }
    { intros cf. subst hp. destruct (Z.eqb_spec (hostedOverflowCount d) 0); [|done].
      apply (chunk_index_path s src ci d i); try done. apply Hl. left. }
    { subst hp. by destruct (_ =? 0). }
    cbn [mbind option_bind]. rewrite E. cbn [mbind option_bind]. destruct r as [u|e].
    + destruct Hr as [HG' Hc']. destruct (IH f1 t') as (t2 & r & E2 & Hr2).
      * intros j Hj. apply Hl. by right.
      * done.
      * rewrite fmap_app, Hc'. cbn [fmap list_fmap]. rewrite <- Permutation_middle. constructor; [|by rewrite <- fmap_app].
        by rewrite <- fmap_app.
      * rewrite length_app, Hc'. cbn [length]. lia.
      * exists t2, r. split; [done|]. destruct r as [f2|e].
        -- destruct Hr2 as [? Hc2]. split; [done|]. rewrite Hc2, Hc'. solve_perm.
        -- destruct Hr2 as (? & (y & Hy & ?) & ?). split; [done|]. split; [|done]. exists y. split; [by right|done].
    + destruct Hr as (-> & Hcx & Ht'). exists t', (Err construction_exception). split; [done|]. split; [done|].
      split; [|done]. exists x. split; [left|done].
Qed.

Lemma rehash_copy_chunks_spec copies s cap src n fullness t :
  table_inv src -> 0 <= s <= chunkShift src -> (n < length (chunks_ src))%nat -> growing s cap t fullness ->
  let items := snd <$> cells (take (S n) (chunks_ src)) in
  NoDup (keyForItem <$> (items ++ contents t)) -> Z.of_nat (length (items ++ contents t)) <= cap ->
  copies_to copies t items (fun t' _ => table_inv t') (rehash_copy_chunks copies src n fullness t).
Proof using F14PolicyLaws0.
  intros HI Hs. revert fullness t. induction n as [|n IH]; intros fullness t Hn HG items Hnd Hcap; cbn [rehash_copy_chunks].
  all: destruct (lookup_lt_is_Some_2 (chunks_ src) _ Hn) as [d Hd]; unfold load; rewrite Hd; cbn [mbind option_bind].
  all: pose proof (inv_chunk _ _ _ (inv_chunks _ HI) _ _ Hd) as Hdi; rewrite occupiedIter_spec by apply Hdi.
  all: subst items; rewrite (cells_take_S _ _ d) in * by done; rewrite fmap_app, row_items in *.
  - change (cells (take 0 (chunks_ src))) with ([] : list (nat * nat * Item)) in *. cbn [fmap list_fmap app] in *.
    destruct (rehash_copy_items_spec copies s cap src 0 d (slots d) fullness t) as (t' & r & -> & Hr); try done.
    cbn [mbind option_bind]. destruct r as [f|e]; [|by exists t', (Err e)]. exists t', (Ok tt). split; [done|].
    destruct Hr as [[? _ _ _] ?]. done.
  - set (rest := snd <$> cells (take (S n) (chunks_ src))) in *.
    destruct (rehash_copy_items_spec copies s cap src (S n) d (slots d) fullness t) as (t' & r & -> & Hr); try done.
    { rewrite <- (assoc_L (++)), fmap_app in Hnd. by apply NoDup_app in Hnd as (_ & _ & ?). }
    { rewrite !length_app in *. lia. }
    cbn [mbind option_bind]. destruct r as [f|e].
    + destruct Hr as [HG' Hc']. destruct (IH f t') as (t2 & r & E2 & Hr2); try done.
      * lia.
      * rewrite fmap_app, Hc', <- fmap_app. by rewrite (assoc_L (++)).
      * rewrite length_app, Hc', !length_app in *. lia.
      * exists t2, r. split; [done|]. destruct r as [u|e].
        -- destruct Hr2 as [? Hc2]. split; [done|]. rewrite Hc2, Hc'. by rewrite (assoc_L (++)).
        -- destruct Hr2 as (? & (y & Hy & ?) & ?). split; [done|]. split; [|done]. exists y. split; [|done]. apply elem_of_app. by left.
    + destruct Hr as (? & (y & Hy & ?) & ?). exists t', (Err e). split; [done|]. split; [done|]. split; [|done].
      exists y. split; [|done]. apply elem_of_app. by right.
Qed.

(** Chunks after the last occupied one do not count. *)
Lemma contents_last src m :
  (m < length (chunks_ src))%nat -> (forall k c, (m < k)%nat -> chunks_ src !! k = Some c -> slots c = []) ->
  snd <$> cells (take (S m) (chunks_ src)) = contents src.
Proof. intros Hm Hk. rewrite <- (contents_take src m) by done. unfold cells. by rewrite contents_mjoin. Qed.

Lemma rehashBuildFrom_spec allocates copies s scale src t :
  fresh_table s scale t -> table_inv src -> 0 <= s <= chunkShift src -> size_ src <> 0 ->
  size_ src <= computeCapacity (2 ^ s) scale ->
  exists t' r, rehashBuildFrom allocates copies src t = Some (t', r) /\ table_inv t' /\
    match r with
    | Ok _ => contents t' ≡ₚ contents src
    | Err e => (exists n, e = bad_alloc (Some n) /\ allocates n = false) \/
        e = construction_exception /\ exists x, x ∈ contents src /\ copies x = false
    end.
Proof using F14PolicyLaws0.
  intros [HI Hc Hs Hsc _] HIs Hss Hne Hcap. unfold rehashBuildFrom.
  pose proof (inv_chunks _ HI) as HC. rewrite chunkCount_pow, Hs by apply HC.
  destruct ((256 <? 2 ^ s) && negb (allocates (2 ^ s))) eqn:Ea.
  { apply andb_true_iff in Ea as [_ Ea%negb_true_iff]. eexists t, (Err _). eauto 10. }
  destruct (lastOccupiedChunk_spec src HIs Hne) as (m & -> & Hm & Hlast). cbn [mbind option_bind].
  pose proof (contents_last src m Hm Hlast) as Econt. fold (nchunks s).
  assert (contents t = []) as Hnil by (unfold contents; by rewrite Hc).
  destruct (rehash_copy_chunks_spec copies s (computeCapacity (2 ^ s) scale) src m (replicate (nchunks s) 0) t) as (t' & r & -> & Hr); try done.
  - constructor; [done|done|unfold capacity; by rewrite Hs, Hsc|]. rewrite Hs in HC. by apply building_fresh.
  - rewrite Econt, Hnil, app_nil_r. apply HIs.
  - rewrite Econt, Hnil, app_nil_r. unfold contents. by rewrite length_fmap, <- (inv_size _ HIs).
  - rewrite Econt, Hnil, app_nil_r in Hr. exists t', r. split; [done|]. destruct r as [u|e]; [done|].
    destruct Hr as (-> & ? & ?). eauto.
Qed.

(** ** The whole table *)

Lemma initializeChunks_outbound rawSize cc scale cs ci c :
  initializeChunks rawSize cc scale = Some cs -> cs !! ci = Some c -> outboundOverflowCount_ c = 0.
Proof.
  unfold initializeChunks. destruct (_ <? _); [done|]. destruct (Z.to_nat cc) as [|n]; [done|]. cbn [replicate].
  unfold markEof. cbn [control_ clear_chunk Z.eqb mbind option_bind]. intros [= <-] Hc. destruct ci as [|ci].
  - injection Hc as <-. unfold setCapacityScale. by destruct (_ =? 4).
  - cbn in Hc. by apply lookup_replicate in Hc as [-> _].
Qed.

Lemma rehash_fresh allocates s scale :
  0 <= s < 64 -> scale_ok s scale ->
  exists t r, rehashImpl allocates 0 1 0 (2 ^ s) scale (F14Table_default : F14Table Item) = Some (t, r) /\
    match r with
    | Ok _ => fresh_table s scale t
    | Err e => t = F14Table_default /\ exists n, e = bad_alloc (Some n) /\ allocates n = false
    end.
Proof using F14PolicyLaws0.
  intros Hs Hok. unfold rehashImpl. destruct (allocates (chunkAllocSize (2 ^ s) scale)) eqn:Ea; cbn [negb].
  2: { eexists _, (Err _). split; [done|]. eauto. }
  destruct (initializeChunks_spec s scale Hs Hok) as (cs & Ei & HC & Hcs). rewrite Ei. cbn [mbind option_bind]. cbn [Z.eqb].
  eexists _, (Ok tt). split; [done|]. pose proof (valid_elim (F14Table_default : F14Table Item) (or_introl eq_refl)) as HV.
  destruct (rehash_empty s scale F14Table_default cs HV Hs Hok HC Hcs eq_refl) as (HI & _ & _).
  destruct (setChunkCount_spec s (set_chunks cs F14Table_default) Hs (valid_packed _ HV)) as (_ & Esh & _). constructor.
  - done.
  - done.
  - done.
  - by apply (table_scale_eq s).
  - intros ci c. by apply (initializeChunks_outbound _ _ _ _ _ _ Ei).
Qed.

(** The limit never has more chunks than the source. *)
Lemma limit_shift src s scale : table_inv src -> counts_ok (size_ src) s scale -> s <= chunkShift src.
Proof.
  intros HI HK. pose proof (inv_scale_ok _ HI) as Hok. pose proof (inv_capacity _ HI) as Hcap. unfold capacity in Hcap.
  pose proof (inv_shift _ _ _ (inv_chunks _ HI)) as Hss. pose proof (counts_shift _ _ _ HK) as Hs.
  destruct (decide (s = 0)) as [->|Hne]; [lia|]. destruct (counts_least _ _ _ HK Hne) as [H1 H2].
  destruct (decide (chunkShift src = 0)) as [E|E].
  - rewrite E in *. rewrite capacity_single in Hcap by done. pose proof (scale_single _ _ Hok eq_refl). lia.
  - pose proof (scale_multi _ _ Hok E) as Hm. pose proof kCapacity_le. unfold kDesiredCapacity in *.
    assert (2 ^ (s - 1) < 2 ^ chunkShift src) as Hlt by nia. apply Z.pow_lt_mono_r_iff in Hlt; lia.
Qed.

Lemma source_room s scale src :
  table_inv src -> chunkShift src = s -> scale_ok s scale -> size_ src <= computeCapacity (2 ^ s) scale ->
  copy_source s scale src.
Proof.
  intros HI Hs Hok Hcap. pose proof (inv_chunks _ HI) as HC. rewrite Hs in HC. constructor; try done; [apply HC|].
  intros ci c Hc. unfold room. destruct (Z.eqb_spec s 0) as [->|Hne].
  - pose proof (slots_le_cells _ _ _ _ _ HC Hc). rewrite capacity_single in Hcap by done. rewrite (inv_size _ HI) in Hcap. lia.
  - pose proof (length_filter (fun i => full_slot c i = true) (seq 0 kCapacity)) as Hl. by rewrite length_seq in Hl.
Qed.

Lemma table_reset t : valid t -> reset t = Some F14Table_default.
Proof using F14PolicyLaws0. intros HV. unfold reset. by destruct (clearImpl_spec true t HV) as (t' & -> & _ & _ & ->). Qed.

(** Why a copy was not made. *)
Definition copy_failure allocates copies src (e : f14_exn) : Prop :=
  no_memory allocates (2 * size_ src) e \/
  e = construction_exception /\ exists x, x ∈ contents src /\ copies x = false.

Definition copy_result allocates copies src (res : option (F14Table Item * result f14_exn unit)) : Prop :=
  exists t' r, res = Some (t', r) /\
    match r with
    | Ok _ => contents t' ≡ₚ contents src /\ (no_stale_overflow src -> valid t')
    | Err e => t' = F14Table_default /\ copy_failure allocates copies src e
    end.

(** The chunk count and scale of a copy. *)
Lemma copy_counts src limit :
  table_inv src -> (exists s, limit.1 = 2 ^ s /\ counts_ok (size_ src) s limit.2) ->
  exists s scale, (if (limit.1 <? chunkCount src) || (limit.2 <? table_scale src) then limit
                   else (chunkCount src, table_scale src)) = (2 ^ s, scale) /\
    0 <= s <= chunkShift src /\ scale_ok s scale /\ size_ src <= computeCapacity (2 ^ s) scale.
Proof.
  intros HI (s & El & HK). pose proof (limit_shift _ _ _ HI HK) as Hle. pose proof (inv_shift _ _ _ (inv_chunks _ HI)) as Hss.
  rewrite chunkCount_pow by lia. destruct (_ || _).
  - exists s, limit.2. rewrite <- El. split; [by destruct limit|]. rewrite El.
    split; [pose proof (counts_shift _ _ _ HK); lia|]. split; [apply HK|apply HK].
  - eexists _, _. split; [done|]. split; [lia|]. split; [apply HI|apply HI].
Qed.

Lemma buildFromF14Table_spec allocates copies src :
  valid src -> copy_result allocates copies src (buildFromF14Table allocates copies src F14Table_default).
Proof using F14PolicyLaws0.
  intros HV. unfold buildFromF14Table. destruct (Z.eqb_spec (size_ src) 0) as [Hz|Hne].
  { exists F14Table_default, (Ok tt). split; [done|]. split; [|by left]. unfold contents. rewrite default_cells.
    by rewrite (nil_length_inv (cells (chunks_ src))) by (pose proof (valid_size _ (valid_elim _ HV)); lia). }
  destruct HV as [->|HI]; [done|]. pose proof (valid_size_range src (or_intror HI)) as Hsz. unfold kMaxSize, kSizeShift in Hsz.
  pose proof (computeChunkCountAndScale_spec (size_ src) false false) as Hccs.
  destruct (computeChunkCountAndScale (size_ src) false false) as [limit|e].
  2: { destruct Hccs as [-> ?]; [unfold is_uint; lia|lia|done|]. eexists _, (Err _). split; [done|]. split; [done|].
       by left. }
  destruct (first_chunk_scale _ _ src (inv_chunks _ HI)) as (c0 & -> & Ec0). cbn [mbind option_bind fst snd]. rewrite Ec0.
  destruct (copy_counts src limit HI) as (s & scale & -> & Hs & Hok & Hcap).
  { destruct limit as [cc scale]. apply Hccs; [unfold is_uint; lia|lia|done]. }
  pose proof (inv_shift _ _ _ (inv_chunks _ HI)) as Hss. cbn [fst snd].
  destruct (rehash_fresh allocates s scale ltac:(lia) Hok) as (t & r & -> & Hr). cbn [mbind option_bind]. destruct r as [u|e].
  2: { destruct Hr as (-> & n & -> & ?). eexists _, (Err _). split; [done|]. split; [done|]. by left. }
  rewrite (fr_shift _ _ _ Hr). destruct (Z.eqb_spec s (chunkShift src)) as [E|E].
  - destruct (directBuildFrom_spec copies s scale src t) as (t' & r & -> & Hd); try done; [by apply source_room|].
    cbn [mbind option_bind]. destruct r as [u'|e].
    + destruct Hd as [Hc Hst]. eexists _, (Ok tt). split; [done|]. rewrite Hc. split; [done|]. intros. right. auto.
    + destruct Hd as (-> & ? & Hrs). rewrite resettable_reset by done. cbn [mbind option_bind]. eexists _, (Err _).
      split; [done|]. split; [done|]. by right.
  - destruct (rehashBuildFrom_spec allocates copies s scale src t) as (t' & r & -> & HI' & Hd); try done.
    cbn [mbind option_bind]. destruct r as [u'|e].
    + eexists _, (Ok tt). split; [done|]. split; [done|]. intros. by right.
    + rewrite table_reset by (by right). cbn [mbind option_bind]. eexists _, (Err _). split; [done|]. split; [done|].
      destruct Hd as [(n & -> & ?)|?]; [by left|by right].
Qed.

(** (C8) The copy of a table, and the copy assigned to any table, has the items of the source and
    is a valid table unless overflow counts were left in empty chunks before all items of the
    source; or it is empty, because there was no memory or an item could not be copied. *)
Theorem f14_copy allocates copies src :
  valid src ->
  copy_result allocates copies src (F14Table_copy allocates copies src) /\
  forall t, valid t -> copy_assign allocates copies src t = F14Table_copy allocates copies src.
Proof using F14PolicyLaws0.
  intros HV. split; [by apply buildFromF14Table_spec|]. intros t Ht. unfold copy_assign. by rewrite table_reset.
Qed.

(** No overflow counts are left behind when the first chunk has an item. *)
Lemma first_chunk_no_stale src i x : (0%nat, i, x) ∈ cells (chunks_ src) -> no_stale_overflow src.
Proof.
  intros (d & Hd & Hin)%elem_of_cells ci c _ E. assert ((0%nat, i, x) ∈ cells (take (S ci) (chunks_ src))) as H.
  { apply elem_of_cells. exists d. by rewrite lookup_take_lt by lia. }
  rewrite E in H. by apply not_elem_of_nil in H.
Qed.
End CopyRehash.

(** ** Concrete tables *)

Section Witness.
Import F14Spec.Example.

Lemma f14_copy_witness :
  exists t r, F14Table_copy memory (fun _ => true) sample = Some (t, r) /\
    match r with
    | Ok _ => contents t ≡ₚ contents sample /\ (no_stale_overflow sample -> valid t)
    | Err e => t = F14Table_default /\ copy_failure memory (fun _ => true) sample e
    end.
Proof. apply (proj1 (f14_copy memory (fun _ => true) sample sample_valid)). Defined.

(** Fourteen keys fill the chunk with index 0 of four, so that one more key of that chunk goes to
    another; then the fourteen are erased and the chunk is empty, with its overflow count. *)
Definition home_keys : list Z := (fun i => 4 * Z.of_nat i) <$> seq 0 14.
Definition other_keys : list Z := mjoin ((fun h => (fun i => h + 4 * Z.of_nat i) <$> seq 0 8) <$> [1; 2; 3]).
Definition overflowed : F14Table (Z * Z) :=
  table_of (OpReserve memory 48 :: insertions (home_keys ++ [56] ++ other_keys) ++ map OpErase home_keys).

Definition overflowed_copy : F14Table (Z * Z) :=
  match F14Table_copy memory (fun _ => true) overflowed with Some (t, _) => t | None => F14Table_default end.

Definition copy_with_56 : F14Table (Z * Z) :=
  match tryEmplaceValue memory no_draw 56 (Ok (56, 0)) overflowed_copy with Some (t, _) => t | None => F14Table_default end.

Lemma overflowed_valid : valid overflowed.
Proof.
  apply table_of_valid. constructor; [by vm_compute|]. apply Forall_app. split; [apply insertions_ok|].
  apply Forall_fmap, Forall_true. by intros k.
Qed.

(** (C10) A copy may lose a key: the chunks are copied from the last one until all items are there,
    so an empty chunk before all items does not get its overflow count, and the search for a key
    that overflowed from it ends there.  The source, which is a valid table, finds key 56; its copy
    has the same items but does not find it, and takes a second item with that key. *)
Theorem f14_copy_loses_key :
  valid overflowed /\ find overflowed 56 = Some (Some (1%nat, 0%nat)) /\
  F14Table_copy memory (fun _ => true) overflowed = Some (overflowed_copy, Ok tt) /\
  contents overflowed_copy = contents overflowed /\ find overflowed_copy 56 = Some None /\
  tryEmplaceValue memory no_draw 56 (Ok (56, 0)) overflowed_copy = Some (copy_with_56, Ok (0%nat, 0%nat, true)) /\
  (56, 57) ∈ contents copy_with_56 /\ (56, 0) ∈ contents copy_with_56.
Proof.
  split; [exact overflowed_valid|]. repeat (split; [vm_compute; reflexivity|]).
  split; apply (bool_decide_unpack _); vm_compute; exact I.
Qed.
End Witness.
