(* ===== verification/FBStringCore.v ===== *)
(** The storage of strings: [fbstring_core<char>] of [FBString.h] and the allocation functions it
    uses from [memory/Malloc.h] and [lang/CheckedMath.h], on a 64-bit little-endian machine.

    An object is its twenty-four bytes, read as characters or as three words.  The heap maps the
    address of the characters of a block to its characters and, for a block that strings share, the
    reference count in front of them.  A short string is in the object itself, a longer one owns a
    block, and long ones share theirs.  The state of a method is the heap and the object it is called
    on; [None] is an access outside a block, a dangling pointer, a block that is freed as what it is
    not, or a failed assertion. *)
From S2P Require Import Prelude.

(** ** Memory *)

Record block := mkBlock { refCount : option Z; chars : list Z }.

Abbreviation heap := (gmap Z block).
Abbreviation core := (list Z).

Record st := mkSt { hp : heap; this : core }.

(** The exceptions, with what they are thrown for: a number of bytes that is not a [size_t], or the
    request that was refused, of [malloc] or of [realloc] of the block [p], and the heap at that time. *)
Inductive fb_exn :=
  | length_error (bytes : Z)
  | bad_alloc (h : heap) (p : option Z) (bytes : Z)
  | out_of_range.

Abbreviation op := (M st fb_exn).

(** The allocator: [nallocx] if there is one, [malloc] and [realloc], which return an address and
    what the new bytes happen to hold, or null; what a new object on the stack happens to hold; the
    bytes behind a block, as far as its last word reaches; and whether the build has the address
    sanitizer. *)
Class Platform := {
  nallocx : option (Z -> Z);
  malloc : heap -> Z -> option (Z * list Z);
  realloc : heap -> Z -> Z -> option (Z * list Z);
  stack_bytes : list Z;
  padding : list Z;
  FOLLY_SANITIZE_ADDRESS : bool;
}.

(** The exception is due: the request was refused, or the size does not fit; [out_of_range] is for
    the callers to explain. *)
Definition justified `{!Platform} (e : fb_exn) : Prop :=
  match e with
  | length_error bytes => 2 ^ 64 <= bytes
  | bad_alloc h None bytes => malloc h bytes = None
  | bad_alloc h (Some p) bytes => realloc h p bytes = None
  | out_of_range => False
  end.

Module Core.
(** ** The object *)

Abbreviation getDataOffset := 8.
Abbreviation lastChar := 23%nat.
Abbreviation maxSmallSize := 23.
Abbreviation maxMediumSize := 254.
Abbreviation FBSTRING_DISABLE_SSO := FOLLY_SANITIZE_ADDRESS.

Inductive Category := isSmall | isMedium | isLarge.

Definition category_bits (cat : Category) : Z :=
  match cat with isSmall => 0 | isMedium => 0x80 | isLarge => 0x40 end.

(** Both bits together are no enumerator. *)
Definition category (c : core) : option Category :=
  b ← c !! lastChar;
  let m := b .& 0xC0 in
  if m =? category_bits isSmall then Some isSmall
  else if m =? category_bits isMedium then Some isMedium
  else if m =? category_bits isLarge then Some isLarge else None.

(** The members of [MediumLarge]: word [k] of the object. *)
Definition word (k : nat) (c : core) : Z := le_word (take 8 (drop (8 * k) c)).

Definition set_word (k : nat) (v : Z) (c : core) : core :=
  take (8 * k) c ++ bytes64 v ++ drop (8 * k + 8) c.

Abbreviation data_ := (word 0).
Abbreviation size_ := (word 1).
Abbreviation capacity_ := (word 2).

Definition ml_capacity (c : core) : Z := capacity_ c .& u64 (Z.lnot (0xC0 .<< 56)).

Definition setCapacity (cap : Z) (cat : Category) (c : core) : core :=
  set_word 2 (cap .| (category_bits cat .<< 56)) c.

Definition smallSize (c : core) : option Z :=
  b ← c !! lastChar; if b <=? maxSmallSize then Some (maxSmallSize - b) else None.

(** Looks at the last byte only. *)
Definition size (c : core) : option Z :=
  b ← c !! lastChar;
  let maybeSmallSize := u64 (maxSmallSize - b) in
  Some (if 0 <=? i64 maybeSmallSize then maybeSmallSize else size_ c).

(** ** Access to memory *)

Section Core.
Context `{!Platform}.

Definition set_heap (f : heap -> option heap) : op unit :=
  fun s => h ← f (hp s); Some (mkSt h (this s), Ok tt).

Definition set_this (f : core -> option core) : op unit :=
  fun s => c ← f (this s); Some (mkSt (hp s) c, Ok tt).

Definition of_this {A} (f : core -> option A) : op A := access (fun s => f (this s)).

(** [podCopy] and [podMove] to and from a block. *)
Definition get_chars (p : Z) (i n : nat) : op (list Z) :=
  access (fun s => b ← hp s !! p;
    if decide (i + n <= length (chars b))%nat then Some (take n (drop i (chars b))) else None).

Definition put_chars (p : Z) (i : nat) (l : list Z) : op unit :=
  set_heap (fun h => b ← h !! p; cs ← write (chars b) i l; Some (<[p := mkBlock (refCount b) cs]> h)).

Definition goodMallocSize (minSize : Z) : Z :=
  if minSize =? 0 then 0
  else match nallocx with
       | None => minSize
       | Some nallocx => let rv := nallocx minSize in if negb (rv =? 0) then rv else minSize
       end.

(** A new block whose characters start [off] bytes after its address. *)
Definition checkedMalloc (off size : Z) : op Z :=
  fun s => match malloc (hp s) size with
           | None => Some (s, Err (bad_alloc (hp s) None size))
           | Some (p, bytes) =>
               Some (mkSt (<[p + off := mkBlock None (drop (Z.to_nat off) bytes)]> (hp s)) (this s), Ok p)
           end.

(** [free] of a block with a count ([off = 8]) or without. *)
Definition free (off p : Z) : op unit :=
  set_heap (fun h => b ← h !! (p + off);
    match refCount b, off =? 0 with
    | None, true | Some _, false => Some (delete (p + off) h)
    | _, _ => None
    end).

(** The new block holds what the old one held as far as both go. *)
Definition checkedRealloc (off p size : Z) : op Z :=
  fun s =>
    b ← hp s !! (p + off);
    match realloc (hp s) p size with
    | None => Some (s, Err (bad_alloc (hp s) (Some p) size))
    | Some (q, bytes) =>
        let cs := take (Z.to_nat (size - off)) (chars b ++ bytes) in
        Some (mkSt (<[q + off := mkBlock (refCount b) cs]> (delete (p + off) (hp s))) (this s), Ok q)
    end.

(** The copy of the first [currentSize] bytes takes the count in front of the characters along. *)
Definition smartRealloc (off p currentSize currentCapacity newCapacity : Z) : op Z :=
  let slack := u64 (currentCapacity - currentSize) in
  if currentSize <? u64 (slack * 2) then
    result ← checkedMalloc off newCapacity;
    count ← access (fun s => b ← hp s !! (p + off); Some (refCount b));
    used ← get_chars (p + off) 0 (Z.to_nat (currentSize - off));
    _ ← set_heap (fun h => b ← h !! (result + off); Some (<[result + off := mkBlock count (chars b)]> h));
    _ ← put_chars (result + off) 0 used;
    _ ← free off p;
    mret result
  else checkedRealloc off p newCapacity.

(** With the [length_error] its callers throw when it fails. *)
Definition checked_add (a b : Z) : op Z :=
  if a + b <? 2 ^ 64 then mret (a + b) else throw (length_error (a + b)).

Definition checked_muladd (base mul add : Z) : op Z :=
  if base * mul <? 2 ^ 64 then checked_add (base * mul) add else throw (length_error (base * mul)).

(** ** Reference counts *)

Definition refs (p : Z) : op Z := access (fun s => b ← hp s !! p; refCount b).

Definition set_refs (p r : Z) : op unit :=
  set_heap (fun h => b ← h !! p; Some (<[p := mkBlock (Some r) (chars b)]> h)).

Definition incrementRefs (p : Z) : op unit := r ← refs p; set_refs p (u64 (r + 1)).

Definition decrementRefs (p : Z) : op unit :=
  oldcnt ← refs p;
  _ ← set_refs p (u64 (oldcnt - 1));
  if oldcnt =? 1 then free getDataOffset (p - getDataOffset) else mret tt.

(** The address of the characters, and the capacity. *)
Definition create (size : Z) : op (Z * Z) :=
  capacityBytes ← checked_add size 1;
  capacityBytes ← checked_muladd capacityBytes 1 getDataOffset;
  let allocSize := goodMallocSize capacityBytes in
  result ← checkedMalloc getDataOffset allocSize;
  _ ← set_refs (result + getDataOffset) 1;
  mret (result + getDataOffset, u64 (allocSize - getDataOffset - 1)).

Definition create_from (data : list Z) (size : Z) : op (Z * Z) :=
  result ← create size;
  _ ← (if 0 <? size then put_chars result.1 0 (take (Z.to_nat size) data) else mret tt);
  mret result.

Definition reallocate (data currentSize currentCapacity newCapacity : Z) : op (Z * Z) :=
  capacityBytes ← checked_add newCapacity 1;
  capacityBytes ← checked_muladd capacityBytes 1 getDataOffset;
  let allocNewCapacity := goodMallocSize capacityBytes in
  result ← smartRealloc getDataOffset (data - getDataOffset) (getDataOffset + (currentSize + 1))
             (getDataOffset + (currentCapacity + 1)) allocNewCapacity;
  mret (result + getDataOffset, u64 (allocNewCapacity - getDataOffset - 1)).

(** ** Methods *)

(** The three assignments that make an object refer to a block. *)
Definition set_ml (data size cap : Z) (cat : Category) : op unit :=
  set_this (fun c => Some (setCapacity cap cat (set_word 1 size (set_word 0 data c)))).

Definition setSmallSize (s : Z) : op unit :=
  set_this (fun c => if s <=? maxSmallSize
                     then Some (<[Z.to_nat s := 0]> (<[lastChar := maxSmallSize - s]> c)) else None).

Definition reset : op unit := setSmallSize 0.

Definition capacity (c : core) : op Z :=
  cat ← access (fun _ => category c);
  match cat with
  | isSmall => mret maxSmallSize
  | isLarge => r ← refs (data_ c); mret (if 1 <? r then size_ c else ml_capacity c)
  | isMedium => mret (ml_capacity c)
  end.

Definition isShared (c : core) : op bool :=
  cat ← access (fun _ => category c);
  match cat with isLarge => r ← refs (data_ c); mret (1 <? r) | _ => mret false end.

(** ** Construction and destruction *)

Definition destroyMediumLarge : op unit :=
  cat ← of_this category;
  match cat with
  | isSmall => undefined
  | isMedium => d ← of_this (fun c => Some (data_ c)); free 0 d
  | isLarge => d ← of_this (fun c => Some (data_ c)); decrementRefs d
  end.

(** The destructor. *)
Definition destroy : op unit :=
  cat ← of_this category;
  match cat with isSmall => mret tt | _ => destroyMediumLarge end.

(** A call of a method of another object: its value, and the object afterwards. *)
Definition call {A} (c : core) (f : op A) : op (A * core) := fun s =>
  match f (mkSt (hp s) c) with
  | Some (s', Ok a) => Some (mkSt (hp s') (this s), Ok (a, this s'))
  | Some (s', Err e) => Some (mkSt (hp s') (this s), Err e)
  | None => None
  end.

(** A new object; when its constructor throws there is none. *)
Definition construct (f : op unit) : op core := r ← call stack_bytes f; mret r.2.

(** A call of a method of a local object, which is destroyed when the method throws. *)
Definition local_call {A} (c : core) (f : op A) : op (A * core) := fun s =>
  match f (mkSt (hp s) c) with
  | Some (s', Ok a) => Some (mkSt (hp s') (this s), Ok (a, this s'))
  | Some (s', Err e) =>
      match destroy s' with Some (s'', Ok _) => Some (mkSt (hp s'') (this s), Err e) | _ => None end
  | None => None
  end.

(** [swap] with a local object, which is destroyed then. *)
Definition swap (rhs : core) : op core := fun s => Some (mkSt (hp s) rhs, Ok (this s)).

Definition swap_and_destroy (rhs : core) : op unit := old ← swap rhs; _ ← call old destroy; mret tt.

(** [bytes] are the bytes of memory from the address [data] on.  When [data] is aligned the copy is by
    words, and reads on to the end of the last of them. *)
Definition initSmall (data : Z) (bytes : list Z) (size : Z) : op unit :=
  let aligned := negb FOLLY_SANITIZE_ADDRESS && (data .& 7 =? 0) in
  let n := if aligned then (8 * ((Z.to_nat size + 7) / 8))%nat else Z.to_nat size in
  _ ← set_this (fun c => if decide (n <= length bytes)%nat then write c 0 (take n bytes) else None);
  setSmallSize size.

Definition initMedium (bytes : list Z) (size : Z) : op unit :=
  let allocSize := goodMallocSize (u64 (1 + size)) in
  p ← checkedMalloc 0 allocSize;
  _ ← (if 0 <? size then put_chars p 0 (take (Z.to_nat size) bytes) else mret tt);
  _ ← set_ml p size (u64 (allocSize - 1)) isMedium;
  put_chars p (Z.to_nat size) [0].

Definition initLarge (bytes : list Z) (size : Z) : op unit :=
  newRC ← create_from bytes size;
  _ ← set_ml newRC.1 size newRC.2 isLarge;
  put_chars newRC.1 (Z.to_nat size) [0].

Definition fbstring_core (data : Z) (bytes : list Z) (size : Z) (disableSSO : bool) : op unit :=
  if negb disableSSO && (size <=? maxSmallSize) then initSmall data bytes size
  else if size <=? maxMediumSize then initMedium bytes size
  else initLarge bytes size.

(** Takes custody of the block at [data]. *)
Definition fbstring_core_acquire (data size allocatedSize : Z) : op unit :=
  if 0 <? size then set_ml data size (u64 (allocatedSize - 1)) isMedium
  else _ ← free 0 data; reset.

Definition copySmall (rhs : core) : op unit := set_this (fun _ => Some rhs).

Definition copyMedium (rhs : core) : op unit :=
  let allocSize := goodMallocSize (u64 (1 + size_ rhs)) in
  p ← checkedMalloc 0 allocSize;
  cs ← get_chars (data_ rhs) 0 (Z.to_nat (size_ rhs + 1));
  _ ← put_chars p 0 cs;
  set_ml p (size_ rhs) (u64 (allocSize - 1)) isMedium.

Definition copyLarge (rhs : core) : op unit :=
  _ ← set_this (fun _ => Some rhs); incrementRefs (data_ rhs).

Definition fbstring_core_copy (rhs : core) : op unit :=
  cat ← access (fun _ => category rhs);
  match cat with isSmall => copySmall rhs | isMedium => copyMedium rhs | isLarge => copyLarge rhs end.

(** What is left of [goner]. *)
Definition fbstring_core_move (goner : core) : op core :=
  _ ← set_this (fun _ => Some goner);
  r ← call goner reset; mret r.2.

(** ** Room *)

Definition unshare (minCapacity : Z) : op unit :=
  c ← of_this Some;
  newRC ← create (Z.max minCapacity (ml_capacity c));
  cs ← get_chars (data_ c) 0 (Z.to_nat (size_ c + 1));
  _ ← put_chars newRC.1 0 cs;
  _ ← decrementRefs (data_ c);
  set_this (fun c => Some (setCapacity newRC.2 isLarge (set_word 0 newRC.1 c))).

Definition mutableDataLarge : op unit :=
  c ← of_this Some;
  r ← refs (data_ c);
  if 1 <? r then unshare 0 else mret tt.

(** The pointer it returns is that of [data] afterwards. *)
Definition mutableData : op unit :=
  cat ← of_this category;
  match cat with isLarge => mutableDataLarge | _ => mret tt end.

Definition reserveLarge (minCapacity : Z) : op unit :=
  c ← of_this Some;
  r ← refs (data_ c);
  if 1 <? r then unshare minCapacity
  else if ml_capacity c <? minCapacity then
    newRC ← reallocate (data_ c) (size_ c) (ml_capacity c) minCapacity;
    set_this (fun c => Some (setCapacity newRC.2 isLarge (set_word 0 newRC.1 c)))
  else mret tt.

Definition reserveSmall (minCapacity : Z) (disableSSO : bool) : op unit :=
  if negb disableSSO && (minCapacity <=? maxSmallSize) then mret tt
  else if minCapacity <=? maxMediumSize then
    let allocSizeBytes := goodMallocSize (u64 (1 + minCapacity)) in
    pData ← checkedMalloc 0 allocSizeBytes;
    size ← of_this smallSize;
    cs ← of_this (fun c => Some (take (Z.to_nat size + 1) c));
    _ ← put_chars pData 0 cs;
    set_ml pData size (u64 (allocSizeBytes - 1)) isMedium
  else
    newRC ← create minCapacity;
    size ← of_this smallSize;
    cs ← of_this (fun c => Some (take (Z.to_nat size + 1) c));
    _ ← put_chars newRC.1 0 cs;
    set_ml newRC.1 size newRC.2 isLarge.

(** A medium string that gets long moves to a new object, which is small before [reserve]. *)
Definition reserveMedium (minCapacity : Z) : op unit :=
  c ← of_this Some;
  if minCapacity <=? ml_capacity c then mret tt
  else if minCapacity <=? maxMediumSize then
    let capacityBytes := goodMallocSize (u64 (1 + minCapacity)) in
    p ← smartRealloc 0 (data_ c) (size_ c + 1) (ml_capacity c + 1) capacityBytes;
    set_this (fun c => Some (setCapacity (u64 (capacityBytes - 1)) isMedium (set_word 0 p c)))
  else
    nascent ← construct reset;
    r ← local_call nascent (reserveSmall minCapacity FBSTRING_DISABLE_SSO);
    let nascent := set_word 1 (size_ c) r.2 in
    cs ← get_chars (data_ c) 0 (Z.to_nat (size_ c + 1));
    _ ← put_chars (data_ nascent) 0 cs;
    swap_and_destroy nascent.

Definition reserve (minCapacity : Z) (disableSSO : bool) : op unit :=
  cat ← of_this category;
  match cat with
  | isSmall => reserveSmall minCapacity disableSSO
  | isMedium => reserveMedium minCapacity
  | isLarge => reserveLarge minCapacity
  end.

(** ** Size *)

(** Returns the index of the first of the new characters. *)
Definition expandNoinit (delta : Z) (expGrowth disableSSO : bool) : op Z :=
  c ← of_this Some;
  cat ← of_this category;
  match cat with
  | isSmall =>
      sz ← of_this smallSize;
      let newSz := u64 (sz + delta) in
      if negb disableSSO && (newSz <=? maxSmallSize) then _ ← setSmallSize newSz; mret sz
      else
        _ ← reserveSmall (if expGrowth then Z.max newSz (2 * maxSmallSize) else newSz) disableSSO;
        _ ← set_this (fun c => Some (set_word 1 newSz c));
        d ← of_this (fun c => Some (data_ c));
        _ ← put_chars d (Z.to_nat newSz) [0];
        mret sz
  | _ =>
      let sz := size_ c in
      let newSz := u64 (sz + delta) in
      cap ← capacity c;
      _ ← (if cap <? newSz then
             reserve (if expGrowth then Z.max newSz (u64 (1 + u64 (cap * 3) / 2)) else newSz) FBSTRING_DISABLE_SSO
           else mret tt);
      _ ← set_this (fun c => Some (set_word 1 newSz c));
      d ← of_this (fun c => Some (data_ c));
      _ ← put_chars d (Z.to_nat newSz) [0];
      mret sz
  end.

(** Characters of [data()] of an object, read and written. *)
Definition peek (c : core) (i n : nat) : op (list Z) :=
  cat ← access (fun _ => category c);
  match cat with
  | isSmall => access (fun _ => if decide (i + n <= length c)%nat then Some (take n (drop i c)) else None)
  | _ => get_chars (data_ c) i n
  end.

Definition poke (i : nat) (l : list Z) : op unit :=
  cat ← of_this category;
  match cat with
  | isSmall => set_this (fun c => write c i l)
  | _ => d ← of_this (fun c => Some (data_ c)); put_chars d i l
  end.

Definition push_back (ch : Z) : op unit :=
  i ← expandNoinit 1 true FBSTRING_DISABLE_SSO; poke (Z.to_nat i) [ch].

Definition shrinkSmall (delta : Z) : op unit :=
  sz ← of_this smallSize; if delta <=? sz then setSmallSize (sz - delta) else undefined.

Definition shrinkMedium (delta : Z) : op unit :=
  _ ← set_this (fun c => if delta <=? size_ c then Some (set_word 1 (size_ c - delta) c) else None);
  c ← of_this Some;
  put_chars (data_ c) (Z.to_nat (size_ c)) [0].

(** The terminator would trample on shared data. *)
Definition shrinkLarge (delta : Z) : op unit :=
  c ← of_this Some;
  if size_ c <? delta then undefined
  else if negb (delta =? 0) then
    bytes ← access (fun s => b ← hp s !! data_ c; Some (chars b));
    temp ← construct (fbstring_core (data_ c) bytes (size_ c - delta) FBSTRING_DISABLE_SSO);
    swap_and_destroy temp
  else mret tt.

Definition shrink (delta : Z) : op unit :=
  c ← of_this Some;
  cat ← of_this category;
  match cat with
  | isSmall => shrinkSmall delta
  | isMedium => shrinkMedium delta
  | isLarge => r ← refs (data_ c); if r =? 1 then shrinkMedium delta else shrinkLarge delta
  end.
End Core.
End Core.
