(* ===== verification/FBStringInv.v ===== *)
(** What an object and the heap mean: the text an object represents, the references that a list of
    objects holds, and the relation between two heaps that leaves everything alone but the
    references of given objects. *)
From S2P Require Import Prelude FBStringCore.
Import Core.

(** What the allocator promises.  Its addresses are those of user space. *)
Class PlatformLaws `{!Platform} := {
  nallocx_law f n : nallocx = Some f -> is_u64 n -> f n = 0 \/ n <= f n < 2 ^ 64;
  malloc_law h n p bytes : malloc h n = Some (p, bytes) ->
    0 < p /\ p + n < 2 ^ 57 /\ length bytes = Z.to_nat n /\ (forall x, p <= x < p + n -> h !! x = None);
  realloc_law h off p b n q bytes : h !! (p + off) = Some b -> realloc h p n = Some (q, bytes) ->
    0 < q /\ q + n < 2 ^ 57 /\ length bytes = Z.to_nat n /\
    (forall x, q <= x < q + n -> delete (p + off) h !! x = None);
  stack_bytes_law : length stack_bytes = 24%nat;
  padding_law : length padding = 7%nat;
}.

(** ** Objects *)

Definition words (d s k : Z) : core := bytes64 d ++ bytes64 s ++ bytes64 k.

(** The kind of object that refers to a block. *)
Definition kind (rc : option Z) : Category := if rc is Some _ then isLarge else isMedium.

Definition tag (cap : Z) (rc : option Z) : Z := cap .| (category_bits (kind rc) .<< 56).

Lemma length_words d s k : length (words d s k) = 24%nat.
Proof. done. Qed.

Lemma split24 (c : core) : length c = 24%nat ->
  c = take 8 c ++ take 8 (drop 8 c) ++ take 8 (drop 16 c).
Proof.
  intros. rewrite <- (drop_drop c 8 8) at 1.
  rewrite (take_ge (drop 8 (drop 8 c))) by (rewrite !length_drop; lia).
  by rewrite (take_drop 8 (drop 8 c)), take_drop.
Qed.

Lemma set_words d s k (c : core) : length c = 24%nat ->
  set_word 2 k (set_word 1 s (set_word 0 d c)) = words d s k.
Proof.
  intros H. rewrite (split24 c H). do 24 (destruct c as [|? c]; [done|]). destruct c; done.
Qed.

Lemma set_word_0 d d' s k : set_word 0 d' (words d s k) = words d' s k.
Proof. done. Qed.

Lemma set_word_1 d s s' k : set_word 1 s' (words d s k) = words d s' k.
Proof. done. Qed.

Lemma set_word_2 d s k k' : set_word 2 k' (words d s k) = words d s k'.
Proof. done. Qed.

Lemma word_0 d s k : is_u64 d -> data_ (words d s k) = d.
Proof. apply le_word_bytes64. Qed.

Lemma word_1 d s k : is_u64 s -> size_ (words d s k) = s.
Proof. apply le_word_bytes64. Qed.

Lemma word_2 d s k : is_u64 k -> capacity_ (words d s k) = k.
Proof. apply le_word_bytes64. Qed.

Lemma tag_split cap rc : 0 <= cap < 2 ^ 57 -> tag cap rc = cap + category_bits (kind rc) * 2 ^ 56.
Proof.
  intros. unfold tag. rewrite shiftl_mul by lia.
  replace (category_bits (kind rc) * 2 ^ 56) with (category_bits (kind rc) / 2 * 2 ^ 57) by (by destruct rc).
  apply lor_disjoint; [lia|done].
Qed.

Lemma tag_u64 cap rc : 0 <= cap < 2 ^ 57 -> is_u64 (tag cap rc).
Proof. intros. rewrite tag_split by done. unfold is_uint. destruct rc; cbn; lia. Qed.

Lemma last_byte_words d s cap rc : 0 <= cap < 2 ^ 57 ->
  exists b, words d s (tag cap rc) !! lastChar = Some b /\ b .& 0xC0 = category_bits (kind rc) /\ 23 < b < 256.
Proof.
  intros. exists (byte_at (tag cap rc) 7). split; [done|].
  unfold byte_at. rewrite tag_split by done.
  change (8 * Z.of_nat 7) with 56.
  rewrite Z.div_add by lia. set (x := cap / 2 ^ 56).
  assert (x = 0 \/ x = 1) as [-> | ->].
  { assert (0 <= x < 2); [|lia]. unfold x. split; [apply Z.div_pos; lia|apply Z.div_lt_upper_bound; lia]. }
  all: destruct rc; split; [vm_compute; done|split; vm_compute; done|vm_compute; done|split; vm_compute; done].
Qed.

Lemma category_words d s cap rc : 0 <= cap < 2 ^ 57 -> category (words d s (tag cap rc)) = Some (kind rc).
Proof.
  intros H. destruct (last_byte_words d s cap rc H) as (b & Hb & Hc & _).
  unfold category. rewrite Hb. cbn [mbind option_bind]. rewrite Hc. by destruct rc.
Qed.

Lemma size_words d s cap rc : is_u64 s -> 0 <= cap < 2 ^ 57 -> size (words d s (tag cap rc)) = Some s.
Proof.
  intros Hs H. destruct (last_byte_words d s cap rc H) as (b & Hb & _ & Hlt).
  unfold size. rewrite Hb. cbn [mbind option_bind].
  rewrite swrap_wrap by lia. rewrite (swrap_small 64 (23 - b)) by (unfold is_sint; lia).
  destruct (Z.leb_spec 0 (23 - b)); [lia|]. by rewrite word_1.
Qed.

Lemma ml_capacity_words d s cap rc : 0 <= cap < 2 ^ 57 -> ml_capacity (words d s (tag cap rc)) = cap.
Proof.
  intros H. unfold ml_capacity. rewrite word_2 by by apply tag_u64.
  replace (u64 (Z.lnot (0xC0 .<< 56))) with (2 ^ 62 - 1) by done.
  rewrite (land_ones_mod _ 62) by lia. rewrite tag_split by done.
  destruct rc; cbn [kind category_bits].
  - replace (cap + 64 * 2 ^ 56) with (cap + 1 * 2 ^ 62) by lia. rewrite Z.mod_add, Z.mod_small by lia. done.
  - replace (cap + 128 * 2 ^ 56) with (cap + 2 * 2 ^ 62) by lia. rewrite Z.mod_add, Z.mod_small by lia. done.
Qed.

(** ** The heap *)

(** The references a block counts: one without a count. *)
Definition cnt (h : heap) (p : Z) : Z := if h !! p is Some b then default 1 (refCount b) else 0.

Definition heap_ok (h : heap) : Prop := forall p b, h !! p = Some b -> 1 <= default 1 (refCount b) < 2 ^ 64.

(** The references an object holds. *)
Definition own (c : core) (p : Z) : Z :=
  match category c with
  | Some isMedium | Some isLarge => if data_ c =? p then 1 else 0
  | _ => 0
  end.

Fixpoint owns (cs : list core) (p : Z) : Z :=
  match cs with [] => 0 | c :: cs => own c p + owns cs p end.

(** A text, a null character behind it, and whatever follows. *)
Definition holds (cs t : list Z) : Prop := exists rest, cs = t ++ 0 :: rest.

(** A block with a count is for a long string. *)
Definition large_cap (rc : option Z) (cap : Z) : Prop := if rc is Some _ then 254 < cap else True.

(** The text of an object. *)
Inductive rep (h : heap) : core -> list Z -> Prop :=
| rep_small c t :
    length c = 24%nat -> (length t <= 23)%nat ->
    c !! lastChar = Some (23 - Z.of_nat (length t)) -> holds c t ->
    rep h c t
| rep_block d cap rc cs t :
    0 < d < 2 ^ 57 -> Z.of_nat (length t) <= cap < 2 ^ 57 ->
    h !! d = Some (mkBlock rc cs) -> cap < Z.of_nat (length cs) -> holds cs t -> large_cap rc cap ->
    rep h (words d (Z.of_nat (length t)) (tag cap rc)) t.

(** From [h] to [h'] the references of the objects [cs] become those of [cs'], and the characters of
    blocks that others refer to stay. *)
Record frame (h : heap) (cs : list core) (h' : heap) (cs' : list core) : Prop := mkFrame {
  frame_ok : heap_ok h';
  frame_cnt p : cnt h' p + owns cs p = cnt h p + owns cs' p;
  frame_others p b : h !! p = Some b -> owns cs p < cnt h p ->
    exists b', h' !! p = Some b' /\ chars b' = chars b /\ kind (refCount b') = kind (refCount b);
}.

(** All objects of a program: their texts; every block is referred to as often as it counts; and
    objects that share a block are equal byte by byte. *)
Record valid (h : heap) (objs : list (core * list Z)) : Prop := mkValid {
  valid_ok : heap_ok h;
  valid_rep c t : (c, t) ∈ objs -> rep h c t;
  valid_cnt p : cnt h p = owns objs.*1 p;
  valid_same c c' p : c ∈ objs.*1 -> c' ∈ objs.*1 -> own c p = 1 -> own c' p = 1 -> c = c';
}.

(** The only reference to its block, if any. *)
Definition sole (h : heap) (c : core) : Prop := forall p, own c p = 1 -> cnt h p = 1.

Lemma owns_app cs cs' p : owns (cs ++ cs') p = owns cs p + owns cs' p.
Proof. induction cs as [|c cs IH]; cbn [owns app]; [done|]. rewrite IH. lia. Qed.

Lemma own_nonneg c p : 0 <= own c p <= 1.
Proof. unfold own. destruct (category c) as [[]|], (data_ c =? p); lia. Qed.

Lemma owns_nonneg cs p : 0 <= owns cs p.
Proof. induction cs as [|c cs IH]; cbn [owns app]; [done|]. pose proof (own_nonneg c p). lia. Qed.

Lemma owns_bound cs p : owns cs p <= Z.of_nat (length cs).
Proof. induction cs as [|c cs IH]; cbn [owns length]; [lia|]. pose proof (own_nonneg c p). lia. Qed.

Lemma owns_elem c cs p : c ∈ cs -> own c p <= owns cs p.
Proof.
  induction 1 as [x cs|x y cs Hin IH]; cbn [owns].
  - pose proof (owns_nonneg cs p). lia.
  - pose proof (own_nonneg y p). lia.
Qed.

Lemma owns_perm cs cs' p : cs ≡ₚ cs' -> owns cs p = owns cs' p.
Proof. induction 1; cbn [owns app]; lia. Qed.

Lemma owns_single c p : owns [c] p = own c p.
Proof. cbn [owns]. lia. Qed.

Lemma own_words d s cap rc p : is_u64 d -> 0 <= cap < 2 ^ 57 ->
  own (words d s (tag cap rc)) p = if d =? p then 1 else 0.
Proof. intros. unfold own. rewrite category_words, word_0 by done. by destruct rc. Qed.

Lemma category_small c n : 0 <= n <= 23 -> c !! lastChar = Some n -> category c = Some isSmall.
Proof.
  intros Hn Hc. unfold category. rewrite Hc. cbn [mbind option_bind].
  assert (Hm : negb (n <=? 23) || (n .& 0xC0 =? 0) = true).
  { apply (byte_forall (fun n => negb (n <=? 23) || (n .& 0xC0 =? 0))); [by vm_compute|]. unfold is_uint. lia. }
  rewrite (proj2 (Z.leb_le n 23)) in Hm by lia. apply Z.eqb_eq in Hm. by rewrite Hm.
Qed.

Lemma own_small c n p : 0 <= n <= 23 -> c !! lastChar = Some n -> own c p = 0.
Proof. intros. unfold own. by erewrite category_small. Qed.

Lemma cnt_pos h p b : heap_ok h -> h !! p = Some b -> 1 <= cnt h p < 2 ^ 64.
Proof. intros Hok Hp. unfold cnt. rewrite Hp. by eapply Hok. Qed.

Lemma rep_own h c t p : heap_ok h -> rep h c t -> own c p <= cnt h p.
Proof.
  intros Hok [c' t' ? ? Hl | d cap rc cs t' ? ? Hd].
  - erewrite own_small; [|shelve|done]. unfold cnt. destruct (h !! p) eqn:E; [|done]. apply Hok in E. lia.
    Unshelve. lia.
  - rewrite own_words by (unfold is_uint; lia). destruct (Z.eqb_spec d p) as [->|].
    + pose proof (cnt_pos h p _ Hok Hd). lia.
    + unfold cnt. destruct (h !! p) eqn:E; [|done]. apply Hok in E. lia.
Qed.

(** ** Frames *)

Lemma frame_refl h cs : heap_ok h -> frame h cs h cs.
Proof. intros. split; [done|lia|eauto]. Qed.

Lemma frame_trans h1 cs1 h2 cs2 h3 cs3 : frame h1 cs1 h2 cs2 -> frame h2 cs2 h3 cs3 -> frame h1 cs1 h3 cs3.
Proof.
  intros [_ C1 O1] [K2 C2 O2]. split; [done|intros p; specialize (C1 p); specialize (C2 p); lia|].
  intros p b Hp Hlt. destruct (O1 p b Hp Hlt) as (b1 & H1 & E1 & R1).
  destruct (O2 p b1 H1) as (b2 & H2 & E2 & R2); [specialize (C1 p); lia|].
  exists b2. split_and!; congruence.
Qed.

Lemma frame_owns h cs cs1 h' cs' cs1' : (forall p, owns cs p = owns cs1 p) -> (forall p, owns cs' p = owns cs1' p) ->
  frame h cs h' cs' -> frame h cs1 h' cs1'.
Proof.
  intros E E' [K C O]. split; [done| |].
  - intros p. rewrite <- E, <- E'. apply C.
  - intros p b. rewrite <- E. apply O.
Qed.

Lemma frame_app h cs h' cs' ds : frame h cs h' cs' -> frame h (cs ++ ds) h' (cs' ++ ds).
Proof.
  intros [K C O]. split; [done| |].
  - intros p. rewrite !owns_app. specialize (C p). lia.
  - intros p b Hp. rewrite owns_app. intros. apply O; [done|]. pose proof (owns_nonneg ds p). lia.
Qed.

Lemma frame_perm h cs cs1 h' cs' cs1' : cs ≡ₚ cs1 -> cs' ≡ₚ cs1' -> frame h cs h' cs' -> frame h cs1 h' cs1'.
Proof. intros. eapply frame_owns; [intros; by apply owns_perm..|done]. Qed.

(** A change at one address. *)
Lemma frame_at d (h h' : heap) cs cs' :
  heap_ok h -> (forall p, p <> d -> h' !! p = h !! p) -> (forall p, p <> d -> owns cs p = owns cs' p) ->
  cnt h' d + owns cs d = cnt h d + owns cs' d ->
  (forall b, h' !! d = Some b -> 1 <= default 1 (refCount b) < 2 ^ 64) ->
  (forall b, h !! d = Some b -> owns cs d < cnt h d ->
    exists b', h' !! d = Some b' /\ chars b' = chars b /\ kind (refCount b') = kind (refCount b)) ->
  frame h cs h' cs'.
Proof.
  intros Hok Hh Hc Hcnt Hd Ho. split.
  - intros p b. destruct (decide (p = d)) as [->|]; [apply Hd|]. rewrite Hh by done. apply Hok.
  - intros p. destruct (decide (p = d)) as [->|]; [done|]. unfold cnt. by rewrite Hh, Hc.
  - intros p b Hp. destruct (decide (p = d)) as [->|]; [by apply Ho|]. rewrite Hh by done. eauto.
Qed.

(** The text of an object survives what happens to others. *)
Lemma rep_frame h cs h' cs' c t : heap_ok h ->
  (forall p, own c p = 1 -> owns cs p < cnt h p) -> frame h cs h' cs' -> rep h c t -> rep h' c t.
Proof.
  intros Hok Hlt [_ _ O] R. destruct R as [|d cap rc bs t ? ? Hd]; [by constructor|].
  destruct (O _ _ Hd) as ([rc' bs'] & Hd' & Hcs & Hrc).
  { apply Hlt. rewrite own_words by (unfold is_uint; lia). by rewrite Z.eqb_refl. }
  cbn in Hcs, Hrc. subst bs'.
  assert (tag cap rc = tag cap rc') as -> by (unfold tag; congruence).
  eapply rep_block; [done..|]. by destruct rc, rc'.
Qed.

Lemma owns_one cs p c c' : owns cs p <= 1 -> c ∈ cs -> c' ∈ cs -> own c p = 1 -> own c' p = 1 -> c = c'.
Proof.
  induction cs as [|x cs IH]; [by intros ? ?%elem_of_nil|]. cbn [owns]. intros Hle Hc Hc' E E'.
  pose proof (own_nonneg x p). pose proof (owns_nonneg cs p).
  apply elem_of_cons in Hc as [->|Hc]; apply elem_of_cons in Hc' as [->|Hc'].
  - done.
  - pose proof (owns_elem c' cs p Hc'). lia.
  - pose proof (owns_elem c cs p Hc). lia.
  - apply IH; [lia|done..].
Qed.

(** The step of a program that replaces the objects [os] by [os'], which share their blocks only as
    objects did before. *)
Lemma valid_frame h os rest h' os' :
  valid h (os ++ rest) -> frame h os.*1 h' os'.*1 -> (forall c t, (c, t) ∈ os' -> rep h' c t) ->
  (forall c, c ∈ os'.*1 -> sole h' c \/ c ∈ (os ++ rest).*1) ->
  valid h' (os' ++ rest).
Proof.
  intros [K R C S] F R' S'.
  assert (Hcnt : forall p, cnt h' p = owns (os' ++ rest).*1 p).
  { intros p. destruct F as [_ F _]. specialize (F p). specialize (C p). rewrite fmap_app, owns_app in C |- *. lia. }
  split; [by destruct F| |done|].
  - intros c t [Hin|Hin]%elem_of_app; [by apply R'|]. eapply rep_frame; [done| |done|by apply R, elem_of_app; right].
    intros p Hp. rewrite C, fmap_app, owns_app.
    assert (own c p <= owns rest.*1 p) by (apply owns_elem, (list_elem_of_fmap_2 fst _ (c, t) Hin)). lia.
  - assert (Hold : forall c p, c ∈ (os' ++ rest).*1 -> own c p = 1 -> cnt h' p = 1 \/ c ∈ (os ++ rest).*1).
    { intros c p Hc Hp. rewrite fmap_app in Hc. apply elem_of_app in Hc as [Hc|Hc].
      - destruct (S' c Hc) as [Hs|]; [left; by apply Hs|by right].
      - right. rewrite fmap_app. by apply elem_of_app; right. }
    intros c c' p Hc Hc' Hp Hp'. destruct (Hold c p Hc Hp) as [H1|H1].
    { eapply owns_one; [rewrite <- Hcnt, H1; done|done..]. }
    destruct (Hold c' p Hc' Hp') as [H2|H2].
    { eapply owns_one; [rewrite <- Hcnt, H2; done|done..]. }
    by eapply S.
Qed.

(** The changes the methods make. *)
Lemma u64_address d : 0 < d < 2 ^ 57 -> is_u64 d.
Proof. unfold is_uint. lia. Qed.

Lemma cnt_insert h p b q : cnt (<[p := b]> h) q = if decide (p = q) then default 1 (refCount b) else cnt h q.
Proof. unfold cnt. rewrite lookup_insert. by case_decide. Qed.

Lemma cnt_delete h p q : cnt (delete p h) q = if decide (p = q) then 0 else cnt h q.
Proof. unfold cnt. rewrite lookup_delete. by case_decide. Qed.

Lemma cnt_lookup h p b : h !! p = Some b -> cnt h p = default 1 (refCount b).
Proof. unfold cnt. by intros ->. Qed.

Lemma cnt_none h p : h !! p = None -> cnt h p = 0.
Proof. unfold cnt. by intros ->. Qed.

Lemma owns_words_at d s cap rc : is_u64 d -> 0 <= cap < 2 ^ 57 -> owns [words d s (tag cap rc)] d = 1.
Proof. intros. rewrite owns_single, own_words, Z.eqb_refl by done. done. Qed.

Lemma owns_words_off d s cap rc p : is_u64 d -> 0 <= cap < 2 ^ 57 -> p <> d -> owns [words d s (tag cap rc)] p = 0.
Proof. intros. rewrite owns_single, own_words by done. destruct (Z.eqb_spec d p); [congruence|done]. Qed.

Section Changes.
Context (h : heap) (d : Z) (Hok : heap_ok h) (Hd : is_u64 d).

Lemma frame_alloc s cap rc bs : 0 <= cap < 2 ^ 57 -> h !! d = None -> default 1 rc = 1 ->
  frame h [] (<[d := mkBlock rc bs]> h) [words d s (tag cap rc)].
Proof.
  intros Hcap Hn Hrc. apply (frame_at d); [done|..].
  - intros. by rewrite lookup_insert_ne.
  - intros. by rewrite owns_words_off.
  - rewrite cnt_insert, decide_True, (cnt_none h), owns_words_at by done. cbn. lia.
  - intros b. rewrite lookup_insert_eq. intros [= <-]. cbn. lia.
  - intros b. by rewrite Hn.
Qed.

Section Unique.
Context (rc : option Z) (bs : list Z) (Hb : h !! d = Some (mkBlock rc bs)) (Hrc : default 1 rc = 1).

Lemma frame_write s cap s' cap' bs' : 0 <= cap < 2 ^ 57 -> 0 <= cap' < 2 ^ 57 ->
  frame h [words d s (tag cap rc)] (<[d := mkBlock rc bs']> h) [words d s' (tag cap' rc)].
Proof using Hok Hd Hb Hrc.
  intros. apply (frame_at d); [done|..].
  - intros. by rewrite lookup_insert_ne.
  - intros. by rewrite !owns_words_off.
  - rewrite cnt_insert, decide_True, (cnt_lookup h _ _ Hb), !owns_words_at by done. done.
  - intros b. rewrite lookup_insert_eq. intros [= <-]. cbn. lia.
  - intros b _. rewrite owns_words_at, (cnt_lookup h _ _ Hb) by done. cbn. lia.
Qed.

Lemma frame_free s cap : 0 <= cap < 2 ^ 57 -> frame h [words d s (tag cap rc)] (delete d h) [].
Proof using Hok Hd Hb Hrc.
  intros. apply (frame_at d); [done|..].
  - intros. by rewrite lookup_delete_ne.
  - intros. by rewrite owns_words_off.
  - rewrite cnt_delete, decide_True, (cnt_lookup h _ _ Hb), owns_words_at by done. cbn. lia.
  - intros b. by rewrite lookup_delete_eq.
  - intros b _. rewrite owns_words_at, (cnt_lookup h _ _ Hb) by done. cbn. lia.
Qed.
End Unique.

Lemma frame_inc r bs s cap : 0 <= cap < 2 ^ 57 -> h !! d = Some (mkBlock (Some r) bs) -> r + 1 < 2 ^ 64 ->
  frame h [] (<[d := mkBlock (Some (r + 1)) bs]> h) [words d s (tag cap (Some r))].
Proof.
  intros ? Hb ?. pose proof (Hok _ _ Hb) as Hr. cbn in Hr. apply (frame_at d); [done|..].
  - intros. by rewrite lookup_insert_ne.
  - intros. by rewrite owns_words_off.
  - rewrite cnt_insert, decide_True, (cnt_lookup h _ _ Hb), owns_words_at by done. cbn. lia.
  - intros b. rewrite lookup_insert_eq. intros [= <-]. cbn. lia.
  - intros b. rewrite Hb, lookup_insert_eq. intros [= <-] _. eauto.
Qed.

Lemma frame_dec r bs s cap : 0 <= cap < 2 ^ 57 -> h !! d = Some (mkBlock (Some r) bs) -> 1 < r ->
  frame h [words d s (tag cap (Some r))] (<[d := mkBlock (Some (r - 1)) bs]> h) [].
Proof.
  intros ? Hb ?. pose proof (Hok _ _ Hb) as Hr. cbn in Hr. apply (frame_at d); [done|..].
  - intros. by rewrite lookup_insert_ne.
  - intros. by rewrite owns_words_off.
  - rewrite cnt_insert, decide_True, (cnt_lookup h _ _ Hb), owns_words_at by done. cbn. lia.
  - intros b. rewrite lookup_insert_eq. intros [= <-]. cbn. lia.
  - intros b. rewrite Hb, lookup_insert_eq. intros [= <-] _. eauto.
Qed.
End Changes.

(** A block that moves. *)
Lemma frame_move h d q rc bs bs' s cap s' cap' :
  heap_ok h -> is_u64 d -> is_u64 q -> h !! d = Some (mkBlock rc bs) -> default 1 rc = 1 ->
  0 <= cap < 2 ^ 57 -> 0 <= cap' < 2 ^ 57 -> delete d h !! q = None ->
  frame h [words d s (tag cap rc)] (<[q := mkBlock rc bs']> (delete d h)) [words q s' (tag cap' rc)].
Proof.
  intros. assert (F : frame h [words d s (tag cap rc)] (delete d h) []) by by eapply frame_free.
  eapply frame_trans; [exact F|]. apply frame_alloc; [by destruct F|done..].
Qed.

(** A small object holds no reference. *)
Definition small (c : core) : Prop := exists n, 0 <= n <= 23 /\ c !! lastChar = Some n.

Lemma owns_small c p : small c -> owns [c] p = 0.
Proof. intros (n & Hn & Hc). rewrite owns_single. by eapply own_small. Qed.

Lemma small_category c : small c -> category c = Some isSmall.
Proof. intros (n & Hn & Hc). by eapply category_small. Qed.

Lemma words_not_small d n cap rc : 0 <= cap < 2 ^ 57 -> ~ small (words d n (tag cap rc)).
Proof. intros H Hs%small_category. rewrite category_words in Hs by done. by destruct rc. Qed.

Lemma frame_from_small h c h' cs : small c -> frame h [] h' cs -> frame h [c] h' cs.
Proof. intros. eapply frame_owns; [| |done]; [intros; by rewrite owns_small|done]. Qed.

Lemma frame_to_small h cs h' c : small c -> frame h cs h' [] -> frame h cs h' [c].
Proof. intros. eapply frame_owns; [| |done]; [done|intros; by rewrite owns_small]. Qed.

(** ** Characters *)

(** The characters with [l] written at [i]. *)
Definition patch (i : nat) (l cs : list Z) : list Z := take i cs ++ l ++ drop (i + length l) cs.

Lemma length_patch i l cs : (i + length l <= length cs)%nat -> length (patch i l cs) = length cs.
Proof. intros. unfold patch. rewrite !length_app, length_take, length_drop. lia. Qed.

Lemma take_patch_0 n l cs : (n <= length l)%nat -> take n (patch 0 l cs) = take n l.
Proof. intros. unfold patch. rewrite take_0, app_nil_l. by apply take_app_le. Qed.


Lemma patch_end l1 l2 cs : (length l1 + length l2 <= length cs)%nat ->
  patch (length l1) l2 (patch 0 l1 cs) = patch 0 (l1 ++ l2) cs.
Proof.
  intros. unfold patch. rewrite !take_0, !app_nil_l, !Nat.add_0_l, length_app.
  rewrite take_app_length, drop_app_ge, drop_drop, <- app_assoc by lia. do 3 f_equal. lia.
Qed.

Lemma patch_app t l junk : length junk = length l -> patch (length t) l (t ++ junk) = t ++ l.
Proof.
  intros E. unfold patch. rewrite take_app_length, drop_ge, app_nil_r; [done|]. rewrite length_app. lia.
Qed.

Lemma holds_patch t bs : (length t < length bs)%nat -> holds (patch 0 (t ++ [0]) bs) t.
Proof. intros. unfold patch. rewrite take_0, app_nil_l, <- app_assoc. by eexists. Qed.

Lemma holds_take cs t : holds cs t -> take (length t + 1) cs = t ++ [0].
Proof.
  intros (rest & ->). rewrite take_app_ge by lia. by replace (length t + 1 - length t)%nat with 1%nat by lia.
Qed.

Lemma holds_length cs t : holds cs t -> (length t < length cs)%nat.
Proof. intros (rest & ->). rewrite length_app. cbn. lia. Qed.

Lemma holds_text cs t i n : holds cs t -> (i + n <= length t)%nat -> take n (drop i cs) = take n (drop i t).
Proof.
  intros (rest & ->) ?. rewrite drop_app_le, take_app_le by (rewrite ?length_drop; lia). done.
Qed.

Lemma holds_shrink cs t n : holds cs t -> (n <= length t)%nat -> holds (patch n [0] cs) (take n t).
Proof.
  intros (rest & ->) ?. unfold patch. rewrite take_app_le by lia. by eexists.
Qed.

Lemma holds_poke cs t i l : holds cs t -> (i + length l <= length t)%nat -> holds (patch i l cs) (patch i l t).
Proof.
  intros (rest & ->) ?. unfold patch. rewrite take_app_le, drop_app_le by lia.
  exists rest. by rewrite <- !app_assoc.
Qed.

Lemma holds_expand cs t n : holds cs t -> (length t + n < length cs)%nat ->
  exists junk, length junk = n /\ holds (patch (length t + n) [0] cs) (t ++ junk).
Proof.
  intros (rest & ->) Hl. exists (take n (0 :: rest)). rewrite length_app in Hl.
  split; [rewrite length_take; lia|]. unfold patch. rewrite take_app_ge by lia.
  replace (length t + n - length t)%nat with n by lia. by eexists.
Qed.

(** A small object with the size set. *)
Definition sized (n : nat) (c : core) : core := <[n := 0]> (<[lastChar := 23 - Z.of_nat n]> c).

Lemma sized_last n c : length c = 24%nat -> (n <= 23)%nat -> sized n c !! lastChar = Some (23 - Z.of_nat n).
Proof.
  intros. unfold sized. destruct (decide (n = 23)%nat) as [->|].
  - by rewrite list_lookup_insert_eq by (rewrite length_insert; lia).
  - by rewrite list_lookup_insert_ne, list_lookup_insert_eq by lia.
Qed.

Lemma sized_small n c : length c = 24%nat -> (n <= 23)%nat -> small (sized n c).
Proof. intros. exists (23 - Z.of_nat n). split; [lia|by apply sized_last]. Qed.

Lemma rep_sized h c t : length c = 24%nat -> (length t <= 23)%nat -> take (length t) c = t ->
  rep h (sized (length t) c) t.
Proof.
  intros Hc Ht Hh. constructor; [unfold sized; by rewrite !length_insert|done|by apply sized_last|].
  exists (drop (S (length t)) (<[lastChar := 23 - Z.of_nat (length t)]> c)). unfold sized.
  rewrite insert_take_drop by (rewrite length_insert; lia). by rewrite take_insert_ge, Hh by lia.
Qed.

Lemma rep_length h c t : rep h c t -> length c = 24%nat.
Proof. by intros []. Qed.

(** An object whose block, if any, is its own, with a capacity of at least [n]. *)
Inductive room (h : heap) : core -> list Z -> Z -> Prop :=
| room_small c t n :
    length c = 24%nat -> (length t <= 23)%nat ->
    c !! lastChar = Some (23 - Z.of_nat (length t)) -> holds c t -> n <= 23 ->
    room h c t n
| room_block d cap rc cs t n :
    0 < d < 2 ^ 57 -> Z.of_nat (length t) <= cap < 2 ^ 57 ->
    h !! d = Some (mkBlock rc cs) -> cap < Z.of_nat (length cs) -> holds cs t -> large_cap rc cap ->
    default 1 rc = 1 -> n <= cap ->
    room h (words d (Z.of_nat (length t)) (tag cap rc)) t n.

Lemma room_rep h c t n : room h c t n -> rep h c t.
Proof. intros []; [by constructor|by eapply rep_block]. Qed.

Lemma room_fewer h c t m n : room h c t m -> n <= m -> room h c t n.
Proof. intros [] ?; [constructor; [done..|lia]|eapply room_block; [done..|lia]]. Qed.

(** Nothing changes when no reference does. *)
Lemma frame_nil_eq h h' : heap_ok h -> frame h [] h' [] -> h' = h.
Proof.
  intros Hok [Hok' C O]. apply map_eq. intros p. specialize (C p). cbn [owns] in C.
  destruct (h !! p) as [b|] eqn:E.
  - destruct (O p b E) as (b' & E' & Hc & Hk); [pose proof (cnt_pos h p b Hok E); cbn; lia|].
    rewrite E'. f_equal. rewrite (cnt_lookup _ _ _ E), (cnt_lookup _ _ _ E') in C.
    destruct b as [[] ?], b' as [[] ?]; cbn in *; try done; f_equal; [f_equal; lia|done..].
  - destruct (h' !! p) as [b'|] eqn:E'; [|done].
    rewrite (cnt_none _ _ E) in C. pose proof (cnt_pos h' p b' Hok' E'). lia.
Qed.

(** An object of its own survives what happens to other blocks. *)
Lemma room_frame h cs h' cs' c t n : heap_ok h ->
  (forall p, own c p = 1 -> owns cs p = 0 /\ owns cs' p = 0) -> frame h cs h' cs' -> room h c t n -> room h' c t n.
Proof.
  intros Hok Hown [_ C O] R. destruct R as [|d cap rc bs t n ? ? Hd ? ? ? Hrc]; [by constructor|].
  destruct (Hown d) as [E E']. { rewrite own_words by (unfold is_uint; lia). by rewrite Z.eqb_refl. }
  pose proof (cnt_pos h d _ Hok Hd) as Hpos.
  destruct (O _ _ Hd) as ([rc' bs'] & Hd' & Hcs & Hk); [lia|]. cbn in Hcs, Hk. subst bs'.
  specialize (C d). rewrite E, E', (cnt_lookup _ _ _ Hd), (cnt_lookup _ _ _ Hd') in C. cbn in C.
  assert (rc' = rc) as ->; [|by eapply room_block].
  destruct rc, rc'; cbn in *; try done. f_equal. lia.
Qed.

Lemma room_sole h c t n : room h c t n -> sole h c.
Proof.
  intros Hroom p Hown. destruct Hroom as [c' t' ? ? ? Hl|d cap rc bs t' ? ? ? Hd ? ? ? Hrc].
  - erewrite own_small in Hown; [done| |done]. lia.
  - rewrite own_words in Hown by (unfold is_uint; lia). destruct (Z.eqb_spec d p) as [E|]; [|done].
    rewrite <- E. by rewrite (cnt_lookup _ _ _ Hd).
Qed.

Lemma rep_small_inv h c t : rep h c t -> small c ->
  length c = 24%nat /\ (length t <= 23)%nat /\ c !! lastChar = Some (23 - Z.of_nat (length t)) /\ holds c t.
Proof. intros [] Hs; [done|]. by apply words_not_small in Hs; [|lia]. Qed.

Lemma rep_small_room h c t n : rep h c t -> small c -> n <= 23 -> room h c t n.
Proof. intros Hrep Hs. destruct (rep_small_inv _ _ _ Hrep Hs) as (?&?&?&?). by constructor. Qed.

Lemma rep_inv h c t : rep h c t -> small c \/
  exists d cap rc bs, c = words d (Z.of_nat (length t)) (tag cap rc) /\ 0 < d < 2 ^ 57 /\
    Z.of_nat (length t) <= cap < 2 ^ 57 /\ h !! d = Some (mkBlock rc bs) /\ cap < Z.of_nat (length bs) /\ holds bs t /\ large_cap rc cap.
Proof.
  intros [|d cap rc bs]; [left|right; by exists d, cap, rc, bs]. eexists. split; [|done]. lia.
Qed.

Lemma small_sole h c : small c -> sole h c.
Proof. intros (n & Hn & Hc) p. by rewrite (own_small c n). Qed.

Lemma sole_words h d rc bs n cap : is_u64 d -> 0 <= cap < 2 ^ 57 -> h !! d = Some (mkBlock rc bs) -> default 1 rc = 1 ->
  sole h (words d n (tag cap rc)).
Proof.
  intros ? ? Hb Hrc p. rewrite own_words by done. destruct (Z.eqb_spec d p) as [<-|]; [|done].
  by rewrite (cnt_lookup _ _ _ Hb).
Qed.

(** The only reference stays the only one while the object does. *)
Lemma sole_frame h c h' : sole h c -> frame h [c] h' [c] -> sole h' c.
Proof. intros Hs [_ C _] p Hp. specialize (C p). specialize (Hs p Hp). lia. Qed.
