(* ===== verification/FBStringCoreSpec.v ===== *)
(** The methods of [fbstring_core] on the texts of objects: none of them is undefined on an object
    that represents a text, an exception leaves the heap and the object as they were, and the other
    objects of the program keep their texts. *)
From S2P Require Import Prelude FBStringCore FBStringInv.
Import Core.

(** ** Reasoning about methods *)

Definition outcome {A} (m : op A) (s : st) (Q : result fb_exn A -> st -> Prop) : Prop :=
  match m s with Some (s', r) => Q r s' | None => False end.

(** Returns. *)
Definition total {A} (m : op A) (s : st) (Q : A -> st -> Prop) : Prop :=
  outcome m s (fun r s' => match r with Ok a => Q a s' | Err _ => False end).

(** Returns, or throws with nothing changed, and then the heap is one in which [X] holds. *)
Definition sparing {PF : Platform} {A} (X : heap -> Prop) (m : op A) (s : st) (Q : A -> st -> Prop) : Prop :=
  outcome m s (fun r s' => match r with Ok a => Q a s' | Err e => s' = s /\ justified e /\ X (hp s) end).

(** Returns, or throws with nothing changed. *)
Abbreviation strong := (sparing (fun _ => True)).

Lemma outcome_mono {A} (m : op A) s (Q Q' : result fb_exn A -> st -> Prop) :
  outcome m s Q -> (forall r s', Q r s' -> Q' r s') -> outcome m s Q'.
Proof. unfold outcome. destruct (m s) as [[]|]; auto. Qed.

Lemma outcome_bind {A B} (m : op A) (f : A -> op B) s Q :
  outcome m s (fun r s' => match r with Ok a => outcome (f a) s' Q | Err e => Q (Err e) s' end) -> outcome (m ≫= f) s Q.
Proof. unfold outcome. rewrite M_bind_unfold. by destruct (m s) as [[s' []]|]. Qed.

Lemma total_mono {A} (m : op A) s (Q Q' : A -> st -> Prop) :
  total m s Q -> (forall a s', Q a s' -> Q' a s') -> total m s Q'.
Proof. intros H HQ. eapply outcome_mono; [done|]. intros [] ?; cbn; auto. Qed.

Lemma strong_mono {PF : Platform} {A} X (m : op A) s (Q Q' : A -> st -> Prop) :
  sparing X m s Q -> (forall a s', Q a s' -> Q' a s') -> sparing X m s Q'.
Proof. intros H HQ. eapply outcome_mono; [done|]. intros [] ?; cbn; auto. Qed.

Lemma total_strong {PF : Platform} {A} X (m : op A) s (Q : A -> st -> Prop) : total m s Q -> sparing X m s Q.
Proof. intros H. eapply outcome_mono; [done|]. by intros []. Qed.

Lemma total_ret {A} (a : A) s (Q : A -> st -> Prop) : Q a s -> total (mret a) s Q.
Proof. done. Qed.

Lemma strong_ret {PF : Platform} {A} X (a : A) s (Q : A -> st -> Prop) : Q a s -> sparing X (mret a) s Q.
Proof. done. Qed.

Lemma sparing_total {PF : Platform} {A} X (m : op A) s (Q : A -> st -> Prop) : sparing X m s Q -> ~ X (hp s) -> total m s Q.
Proof. intros H HX. eapply outcome_mono; [done|]. intros [] s'; cbn; [done|]. by intros (_ & _ & ?). Qed.

Lemma total_bind {A B} (m : op A) (f : A -> op B) s Q :
  total m s (fun a s' => total (f a) s' Q) -> total (m ≫= f) s Q.
Proof. intros H. apply outcome_bind. eapply outcome_mono; [done|]. by intros []. Qed.

(** What follows a change must not throw. *)
Lemma strong_bind {PF : Platform} {A B} X (m : op A) (f : A -> op B) s Q :
  sparing X m s (fun a s' => total (f a) s' Q) -> sparing X (m ≫= f) s Q.
Proof.
  intros H. apply outcome_bind. eapply outcome_mono; [done|]. intros [a|e] s'; cbn; [|done].
  intros Ha. eapply outcome_mono; [done|]. by intros [].
Qed.

(** Without a change before it, it may. *)
Lemma strong_pure_bind {PF : Platform} {A B} X (m : op A) (f : A -> op B) s Q :
  sparing X m s (fun a s' => s' = s /\ sparing X (f a) s Q) -> sparing X (m ≫= f) s Q.
Proof.
  intros H. apply outcome_bind. eapply outcome_mono; [done|]. intros [a|e] s'; cbn; [|done]. by intros [-> ?].
Qed.

Lemma total_access {A} (f : st -> option A) s (Q : A -> st -> Prop) a : f s = Some a -> Q a s -> total (access f) s Q.
Proof. intros E H. unfold total, outcome, access. by rewrite E. Qed.

Lemma total_of_this {A} (f : core -> option A) s (Q : A -> st -> Prop) a : f (this s) = Some a -> Q a s -> total (of_this f) s Q.
Proof. apply (total_access (fun s => f (this s))). Qed.

Lemma total_set_this f s (Q : unit -> st -> Prop) c : f (this s) = Some c -> Q tt (mkSt (hp s) c) -> total (set_this f) s Q.
Proof. intros E H. unfold total, outcome, set_this. by rewrite E. Qed.

Lemma total_set_heap f s (Q : unit -> st -> Prop) h : f (hp s) = Some h -> Q tt (mkSt h (this s)) -> total (set_heap f) s Q.
Proof. intros E H. unfold total, outcome, set_heap. by rewrite E. Qed.

Lemma total_get_chars p i n s b (Q : list Z -> st -> Prop) :
  hp s !! p = Some b -> (i + n <= length (chars b))%nat -> Q (take n (drop i (chars b))) s -> total (get_chars p i n) s Q.
Proof. intros E Hn H. eapply total_access; [|done]. rewrite E. cbn. by rewrite decide_True. Qed.

Lemma total_put_chars p i l s b (Q : unit -> st -> Prop) :
  hp s !! p = Some b -> (i + length l <= length (chars b))%nat ->
  Q tt (mkSt (<[p := mkBlock (refCount b) (patch i l (chars b))]> (hp s)) (this s)) -> total (put_chars p i l) s Q.
Proof.
  intros E Hn H. eapply total_set_heap; [|done]. rewrite E. cbn. by rewrite write_in_bounds.
Qed.

Section Spec.
Context {PF : Platform} {PL : PlatformLaws}.

(** The allocator grants what it is asked for on behalf of up to [n] bytes. *)
Definition grants (n : Z) (h : heap) : Prop :=
  n < 2 ^ 64 /\ forall k, 0 < k <= n -> malloc h (goodMallocSize k) <> None /\ forall p, realloc h p (goodMallocSize k) <> None.

Lemma grants_le m n h : grants n h -> m <= n -> grants m h.
Proof using. intros [Hn H] Hle. split; [lia|]. intros k Hk. apply H. lia. Qed.

(** [X] holds of the heaps in which it does not. *)
Definition covers (X : heap -> Prop) (n : Z) : Prop := forall h, ~ grants n h -> X h.

Lemma covers_le X m n : covers X n -> m <= n -> covers X m.
Proof using. intros H Hle h Hh. apply H. intros G. by eapply Hh, grants_le. Qed.

Lemma covers_true n : covers (fun _ => True) n.
Proof using. unfold covers. auto. Qed.

Lemma covers_grants n : covers (fun h => ~ grants n h) n.
Proof using. unfold covers. auto. Qed.

Context {X : heap -> Prop}.

(** ** Allocation *)

Lemma goodMallocSize_bound n : is_u64 n -> n <= goodMallocSize n < 2 ^ 64.
Proof.
  intros Hn. unfold goodMallocSize. destruct (Z.eqb_spec n 0) as [->|]; [lia|].
  unfold is_uint in Hn. destruct nallocx as [f|] eqn:E; [|lia].
  destruct (Z.eqb_spec (f n) 0); cbn; [lia|]. by destruct (nallocx_law f n E Hn).
Qed.

Lemma checkedMalloc_spec off k s : covers X k -> 0 < k -> let n := goodMallocSize k in 0 <= off < n ->
  sparing X (checkedMalloc off n) s (fun p s' => exists bs,
    0 < p /\ p + n < 2 ^ 57 /\ Z.of_nat (length bs) = n - off /\ hp s !! (p + off) = None /\
    s' = mkSt (<[p + off := mkBlock None bs]> (hp s)) (this s)).
Proof.
  intros HX Hk n Hn. unfold sparing, outcome, checkedMalloc. destruct (malloc (hp s) n) as [[p bytes]|] eqn:E.
  2:{ split_and!; [done|done|]. apply HX. intros [_ G]. by destruct (G k); [lia|]. }
  apply malloc_law in E as (Hp & Hpn & Hl & Hf). exists (drop (Z.to_nat off) bytes).
  split_and!; [done..| |apply Hf; lia|done]. rewrite length_drop. lia.
Qed.

(** The offset at which the characters of a block start. *)
Definition offset (rc : option Z) : Z := if rc is Some _ then 8 else 0.

Lemma free_spec s p rc bs (Q : unit -> st -> Prop) :
  hp s !! (p + offset rc) = Some (mkBlock rc bs) ->
  Q tt (mkSt (delete (p + offset rc) (hp s)) (this s)) -> total (free (offset rc) p) s Q.
Proof. intros E H. eapply total_set_heap; [|done]. rewrite E. by destruct rc. Qed.

Lemma checkedRealloc_spec p k s rc bs used : covers X k -> 0 < k -> let n := goodMallocSize k in offset rc < n -> hp s !! (p + offset rc) = Some (mkBlock rc bs) ->
  0 <= used <= Z.of_nat (length bs) -> offset rc + used <= n ->
  sparing X (checkedRealloc (offset rc) p n) s (fun q s' => exists bs',
    0 < q /\ q + n < 2 ^ 57 /\ Z.of_nat (length bs') = n - offset rc /\
    delete (p + offset rc) (hp s) !! (q + offset rc) = None /\ take (Z.to_nat used) bs' = take (Z.to_nat used) bs /\
    s' = mkSt (<[q + offset rc := mkBlock rc bs']> (delete (p + offset rc) (hp s))) (this s)).
Proof.
  intros HX Hk n Hn E Hl Hu. unfold sparing, outcome, checkedRealloc. rewrite E. cbn [mbind option_bind].
  destruct (realloc (hp s) p n) as [[q bytes]|] eqn:Er.
  2:{ split_and!; [done|done|]. apply HX. intros [_ G]. destruct (G k) as [_ Gp]; [lia|]. by apply (Gp p). }
  destruct (realloc_law _ _ _ _ _ _ _ E Er) as (Hq & Hqn & Hlen & Hf).
  exists (take (Z.to_nat (n - offset rc)) (bs ++ bytes)).
  assert (0 <= offset rc) by by destruct rc.
  split_and!; [done..| |apply Hf; lia| |done].
  - rewrite length_take, length_app. lia.
  - rewrite take_take, Nat.min_l, take_app_le by lia. done.
Qed.

Lemma total_refs s p b r (Q : Z -> st -> Prop) :
  hp s !! p = Some b -> refCount b = Some r -> Q r s -> total (refs p) s Q.
Proof. intros E Er H. eapply total_access; [|done]. by rewrite E. Qed.

Lemma total_set_refs s p r b (Q : unit -> st -> Prop) :
  hp s !! p = Some b -> Q tt (mkSt (<[p := mkBlock (Some r) (chars b)]> (hp s)) (this s)) -> total (set_refs p r) s Q.
Proof. intros E H. eapply total_set_heap; [|done]. by rewrite E. Qed.

Lemma smartRealloc_spec p used cap k s rc bs : covers X k -> 0 < k -> let n := goodMallocSize k in
  hp s !! (p + offset rc) = Some (mkBlock rc bs) -> 0 <= used <= cap -> cap <= Z.of_nat (length bs) ->
  offset rc + used <= n -> offset rc < n ->
  sparing X (smartRealloc (offset rc) p (offset rc + used) (offset rc + cap) n) s (fun q s' => exists bs',
    0 < q /\ q + n < 2 ^ 57 /\ Z.of_nat (length bs') = n - offset rc /\
    delete (p + offset rc) (hp s) !! (q + offset rc) = None /\ take (Z.to_nat used) bs' = take (Z.to_nat used) bs /\
    s' = mkSt (<[q + offset rc := mkBlock rc bs']> (delete (p + offset rc) (hp s))) (this s)).
Proof.
  intros HX Hk n E Hu Hc Hl Hn. unfold smartRealloc. cbv zeta.
  assert (0 <= offset rc) by by destruct rc.
  destruct (_ <? _).
  - apply strong_bind. eapply strong_mono; [apply checkedMalloc_spec; [done|done|lia]|].
    intros q s' (bs' & Hq & Hqn & Hlen & Hf & ->).
    assert (Hne : p + offset rc <> q + offset rc) by congruence.
    set (s1 := mkSt _ _). assert (E1 : hp s1 !! (p + offset rc) = Some (mkBlock rc bs)).
    { cbn [s1 hp]. by rewrite lookup_insert_ne. }
    apply total_bind. eapply total_access; [by rewrite E1|]. cbn [refCount].
    apply total_bind. eapply total_get_chars; [exact E1|cbn [chars]; lia|].
    apply total_bind. eapply total_set_heap; [cbn [s1 hp]; by rewrite lookup_insert_eq|].
    cbn [s1 hp chars this]. rewrite insert_insert_eq.
    apply total_bind. eapply total_put_chars; [apply lookup_insert_eq|cbn [chars]; rewrite length_take; lia|].
    cbn [hp this refCount chars]. rewrite insert_insert_eq.
    apply total_bind. eapply (free_spec _ _ rc bs); [cbn [hp]; by rewrite lookup_insert_ne|].
    apply total_ret. cbn [hp this]. rewrite drop_0.
    exists (patch 0 (take (Z.to_nat (offset rc + used - offset rc)) bs) bs'). split_and!; [done..| | | |].
    + rewrite length_patch by (rewrite length_take; lia). done.
    + by rewrite lookup_delete_ne.
    + rewrite take_patch_0 by (rewrite length_take; lia). rewrite take_take. f_equal. lia.
    + f_equal. by rewrite delete_insert_ne.
  - apply (checkedRealloc_spec p k s rc bs used); [done|done|done|done|lia|done].
Qed.

Lemma checked_add_spec a b s (Q : Z -> st -> Prop) : covers X (a + b) ->
  (is_u64 (a + b) -> Q (a + b) s) -> 0 <= a + b -> sparing X (checked_add a b) s Q.
Proof.
  intros HX HQ H. unfold checked_add. destruct (Z.ltb_spec (a + b) (2 ^ 64)); [by apply HQ|].
  split_and!; [done|done|]. apply HX. intros [? _]. lia.
Qed.

(** The bytes a block with a count needs for [n] characters and a null character. *)
Lemma capacityBytes_spec {A} n (f : Z -> op A) s Q : covers X (n + 9) -> 0 <= n ->
  (n + 9 < 2 ^ 64 -> sparing X (f (n + 9)) s Q) ->
  sparing X (capacityBytes ← checked_add n 1; capacityBytes ← checked_muladd capacityBytes 1 getDataOffset; f capacityBytes) s Q.
Proof.
  intros HX Hn HQ. apply strong_pure_bind, checked_add_spec; [eapply covers_le; [done|lia]| |lia]. intros H1. split; [done|].
  apply strong_pure_bind. unfold checked_muladd. rewrite Z.mul_1_r.
  unfold is_uint in H1. rewrite (proj2 (Z.ltb_lt _ _)) by lia. apply checked_add_spec; [eapply covers_le; [done|lia]| |lia].
  intros H2. split; [done|]. replace (n + 1 + 8) with (n + 9) by lia. apply HQ. unfold is_uint in H2. lia.
Qed.

Lemma create_spec n s : covers X (n + 9) -> 0 <= n ->
  sparing X (create n) s (fun r s' => exists bs,
    0 < r.1 < 2 ^ 57 /\ n <= r.2 < 2 ^ 57 /\ Z.of_nat (length bs) = r.2 + 1 /\ hp s !! r.1 = None /\
    s' = mkSt (<[r.1 := mkBlock (Some 1) bs]> (hp s)) (this s)).
Proof.
  intros HX Hn. apply capacityBytes_spec; [done|done|]. intros Hlt.
  destruct (goodMallocSize_bound (n + 9)) as [Hg Hg']; [unfold is_uint; lia|]. cbv zeta.
  apply strong_bind. eapply strong_mono; [apply checkedMalloc_spec; [done|lia..]|].
  set (g := goodMallocSize _) in *.
  intros p s' (bs & Hp & Hpn & Hl & Hf & ->).
  apply total_bind. eapply total_set_refs; [apply lookup_insert_eq|]. cbn [hp this chars].
  rewrite insert_insert_eq. apply total_ret. cbn [fst snd]. rewrite (wrap_small 64 (g - 8 - 1)) by (unfold is_uint; lia).
  exists bs. split_and!; [lia..|done|done].
Qed.

(** ** Construction *)

Lemma setSmallSize_spec s n (Q : unit -> st -> Prop) : 0 <= n <= 23 ->
  Q tt (mkSt (hp s) (sized (Z.to_nat n) (this s))) -> total (setSmallSize n) s Q.
Proof.
  intros Hn HQ. eapply total_set_this.
  - destruct (Z.leb_spec n 23); [reflexivity|lia].
  - unfold sized in HQ. by rewrite Z2Nat.id in HQ by lia.
Qed.

(** A new object. *)
Definition makes (t : list Z) (s s' : st) : Prop := rep (hp s') (this s') t /\ frame (hp s) [] (hp s') [this s'].

(** ... with a block of its own, or none. *)
Definition makes_new (t : list Z) (s s' : st) : Prop := makes t s s' /\ sole (hp s') (this s').

(** What a constructor reads of the memory from [data] on. *)
Definition readable (data : Z) (bytes : list Z) (size : Z) : Prop :=
  0 <= size < 2 ^ 64 /\ size <= Z.of_nat (length bytes) /\
  (data .& 7 = 0 -> size <= 23 -> (8 * ((Z.to_nat size + 7) / 8) <= length bytes)%nat).

Lemma initSmall_spec data bytes size s : heap_ok (hp s) -> length (this s) = 24%nat ->
  readable data bytes size -> size <= 23 ->
  total (initSmall data bytes size) s (fun _ => makes_new (take (Z.to_nat size) bytes) s).
Proof.
  intros Hok Hc (Hs & Hl & Ha) Hs23. unfold initSmall. cbv zeta. set (n := if _ : bool then _ else _).
  assert (Hn : (Z.to_nat size <= n <= 24 /\ n <= length bytes)%nat).
  { unfold n. destruct (negb _ && _) eqn:E; [|lia]. apply andb_true_iff in E as [_ E%Z.eqb_eq].
    specialize (Ha E Hs23). split; [|done].
    pose proof (Nat.div_mod (Z.to_nat size + 7) 8). pose proof (Nat.mod_upper_bound (Z.to_nat size + 7) 8). lia. }
  assert (Hw : length (take n bytes) = n) by (rewrite length_take; lia).
  apply total_bind. eapply total_set_this.
  { rewrite decide_True by lia. apply write_in_bounds. lia. }
  rewrite take_0, app_nil_l, Nat.add_0_l, Hw. set (c := _ ++ _).
  assert (Hc' : length c = 24%nat) by (unfold c; rewrite length_app, length_drop; lia).
  apply setSmallSize_spec; [lia|]. cbn [hp this].
  assert (Ht : length (take (Z.to_nat size) bytes) = Z.to_nat size) by (rewrite length_take; lia).
  split; [split; cbn [hp this]|apply small_sole, sized_small; [done|lia]].
  - rewrite <- Ht at 1. apply rep_sized; [done|lia|]. rewrite Ht. unfold c.
    rewrite take_app_le, take_take by lia. f_equal. lia.
  - apply frame_to_small; [apply sized_small; [done|lia]|by apply frame_refl].
Qed.

(** A copy that is left out for no characters. *)
Lemma put_text_spec p n l s b (Q : unit -> st -> Prop) :
  hp s !! p = Some b -> (n <= length (chars b))%nat -> length l = n ->
  Q tt (mkSt (<[p := mkBlock (refCount b) (patch 0 l (chars b))]> (hp s)) (this s)) ->
  total (if 0 <? Z.of_nat n then put_chars p 0 l else mret tt) s Q.
Proof.
  intros E Hn Hl HQ. destruct (Z.ltb_spec 0 (Z.of_nat n)); [eapply total_put_chars; [done|lia|done]|].
  destruct l; [|cbn in *; lia]. unfold patch in HQ. rewrite take_0, drop_0, !app_nil_l in HQ.
  rewrite insert_id in HQ by (by destruct b). by destruct s.
Qed.

Lemma length_patch_text l bs : (length l < length bs)%nat -> length (patch 0 (l ++ [0]) bs) = length bs.
Proof. intros. apply length_patch. rewrite length_app. cbn. lia. Qed.

(** The new object of a block that a text and a null character have just been copied to. *)
Lemma makes_block d cap rc bs t s : heap_ok (hp s) -> 0 < d < 2 ^ 57 -> Z.of_nat (length t) <= cap < 2 ^ 57 ->
  hp s !! d = None -> default 1 rc = 1 -> cap < Z.of_nat (length bs) -> large_cap rc cap ->
  makes_new t s (mkSt (<[d := mkBlock rc (patch 0 (t ++ [0]) bs)]> (hp s)) (words d (Z.of_nat (length t)) (tag cap rc))).
Proof.
  intros Hok Hd Hcap Hn Hrc Hl Hlc.
  split; [split; cbn [hp this]|eapply sole_words; [by apply u64_address|lia|apply lookup_insert_eq|done]].
  - eapply rep_block; [done|done|apply lookup_insert_eq|rewrite length_patch_text by lia; lia|apply holds_patch; lia|done].
  - apply frame_alloc; [done|by apply u64_address|lia|done..].
Qed.

Lemma total_set_ml d n cap rc s (Q : unit -> st -> Prop) : length (this s) = 24%nat ->
  Q tt (mkSt (hp s) (words d n (tag cap rc))) -> total (set_ml d n cap (kind rc)) s Q.
Proof. intros Hc HQ. eapply total_set_this; [reflexivity|]. unfold setCapacity. by rewrite set_words. Qed.

Lemma initMedium_spec bytes t s : covers X (Z.of_nat (length t) + 9) -> heap_ok (hp s) -> length (this s) = 24%nat ->
  Z.of_nat (length t) < 2 ^ 57 -> take (length t) bytes = t ->
  sparing X (initMedium bytes (Z.of_nat (length t))) s (fun _ => makes_new t s).
Proof.
  intros HX Hok Hc Ht Htake. unfold initMedium. cbv zeta. rewrite (wrap_small 64 (1 + _)) by (unfold is_uint; lia).
  destruct (goodMallocSize_bound (1 + Z.of_nat (length t))) as [Hg Hg']; [unfold is_uint; lia|].
  apply strong_bind.
    eapply strong_mono; [apply checkedMalloc_spec; [eapply covers_le; [done|lia]|lia..]|]. set (g := goodMallocSize _) in *.
  intros p s' (bs & Hp & Hpn & Hl & Hf & ->). rewrite Z.add_0_r in *.
  rewrite Nat2Z.id, Htake.
  apply total_bind. eapply put_text_spec; [apply lookup_insert_eq|cbn [chars]; lia|done|].
  cbn [hp this chars refCount]. rewrite insert_insert_eq, (wrap_small 64 (g - 1)) by (unfold is_uint; lia).
  apply total_bind, (total_set_ml _ _ _ None); [done|]. cbn [hp].
  eapply total_put_chars; [apply lookup_insert_eq|cbn [chars length]; rewrite length_patch; lia|].
  cbn [hp this chars refCount]. rewrite insert_insert_eq, patch_end by (cbn; lia).
  apply makes_block; cbn [fst snd large_cap]; [done|lia|lia|done|done|lia|lia || done].
Qed.

Lemma initLarge_spec bytes t s : covers X (Z.of_nat (length t) + 9) -> heap_ok (hp s) -> length (this s) = 24%nat ->
  254 < Z.of_nat (length t) -> take (length t) bytes = t -> sparing X (initLarge bytes (Z.of_nat (length t))) s (fun _ => makes_new t s).
Proof.
  intros HX Hok Hc Ht Htake. unfold initLarge, create_from. rewrite Nat2Z.id, Htake.
  apply strong_bind. apply strong_bind. eapply strong_mono; [apply create_spec; [done|lia]|].
  intros [d cap] s' (bs & Hd & Hcap & Hl & Hf & ->). cbn [fst snd] in *.
  apply total_bind. eapply put_text_spec; [apply lookup_insert_eq|cbn [chars]; lia|done|].
  cbn [hp this chars refCount]. rewrite insert_insert_eq. apply total_ret.
  apply total_bind, (total_set_ml _ _ _ (Some 1)); [done|]. cbn [hp].
  eapply total_put_chars; [apply lookup_insert_eq|cbn [chars length]; rewrite length_patch; lia|].
  cbn [hp this chars refCount]. rewrite insert_insert_eq, patch_end by (cbn; lia).
  apply makes_block; cbn [fst snd large_cap]; [done|lia|lia|done|done|lia|lia || done].
Qed.

Lemma fbstring_core_spec data bytes size sso s : covers X (size + 9) -> heap_ok (hp s) -> length (this s) = 24%nat ->
  readable data bytes size ->
  sparing X (fbstring_core data bytes size sso) s (fun _ => makes_new (take (Z.to_nat size) bytes) s).
Proof.
  intros HX Hok Hc Hr. unfold fbstring_core. destruct (Hr) as (Hs & Hl & _).
  assert (E : size = Z.of_nat (length (take (Z.to_nat size) bytes))) by (rewrite length_take; lia).
  set (t := take (Z.to_nat size) bytes) in *.
  assert (Ht : take (length t) bytes = t) by (unfold t at 2; f_equal; lia).
  destruct (negb sso && _) eqn:E1.
  - apply andb_true_iff in E1 as [_ ?%Z.leb_le]. by apply total_strong, initSmall_spec.
  - rewrite E in *. destruct (Z.leb_spec (Z.of_nat (length t)) 254); [apply initMedium_spec; [done..|lia|done]|by apply initLarge_spec].
Qed.

(** ** Copies *)

(** The references that one more object needs. *)
Definition countable (h : heap) : Prop := forall p, cnt h p + 1 < 2 ^ 64.

Lemma fbstring_core_copy_spec rhs t s : covers X (Z.of_nat (length t) + 9) -> heap_ok (hp s) -> countable (hp s) -> length (this s) = 24%nat ->
  rep (hp s) rhs t -> sparing X (fbstring_core_copy rhs) s (fun _ s' => makes t s s' /\ (sole (hp s') (this s') \/ this s' = rhs)).
Proof.
  intros HX Hok Hcnt Hc Hrep. unfold fbstring_core_copy.
  destruct Hrep as [c t Hl Ht Hlast Hh|d cap [r|] bs t Hd Hcap Hb Hl Hh Hlc].
  - assert (small c) by (eexists; split; [|done]; lia).
    apply strong_pure_bind, total_strong. eapply total_access; [by apply small_category|]. split; [done|].
    apply total_strong. eapply total_set_this; [done|]. split; [|by right]. split; cbn [hp this]; [by constructor|].
    by apply frame_to_small, frame_refl.
  - pose proof (Hcnt d) as Hr. rewrite (cnt_lookup _ _ _ Hb) in Hr. cbn in Hr.
    pose proof (Hok _ _ Hb) as Hr'. cbn in Hr'.
    apply strong_pure_bind, total_strong. eapply total_access; [apply category_words; lia|]. split; [done|].
    cbn [kind]. unfold copyLarge, incrementRefs. rewrite word_0 by by apply u64_address.
    apply total_strong, total_bind. eapply total_set_this; [done|]. cbn [hp].
    apply total_bind. eapply total_refs; [done..|]. eapply total_set_refs; [done|]. cbn [hp this chars].
    rewrite wrap_small by (unfold is_uint; lia). split; [|by right]. split; cbn [hp this].
    + change (tag cap (Some r)) with (tag cap (Some (r + 1))). eapply rep_block; [done|done|apply lookup_insert_eq|done..].
    + apply frame_inc; [done|by apply u64_address|lia|done|lia].
  - apply strong_pure_bind, total_strong. eapply total_access; [apply category_words; lia|]. split; [done|].
    cbn [kind]. unfold copyMedium. rewrite word_0, word_1 by (unfold is_uint; lia). cbv zeta.
    rewrite (wrap_small 64 (1 + _)) by (unfold is_uint; lia).
    destruct (goodMallocSize_bound (1 + Z.of_nat (length t))) as [Hg Hg']; [unfold is_uint; lia|].
    apply strong_bind.
    eapply strong_mono; [apply checkedMalloc_spec; [eapply covers_le; [done|lia]|lia..]|]. set (g := goodMallocSize _) in *.
    intros p s' (bs' & Hp & Hpn & Hl' & Hf & ->). rewrite Z.add_0_r in *.
    apply total_bind. eapply total_get_chars; [cbn [hp]; rewrite lookup_insert_ne by congruence; exact Hb|cbn [chars]; lia|].
    cbn [chars]. rewrite drop_0. replace (Z.to_nat (Z.of_nat (length t) + 1)) with (length t + 1)%nat by lia.
    rewrite (holds_take _ _ Hh). apply total_bind.
    eapply total_put_chars; [apply lookup_insert_eq|cbn [chars]; rewrite length_app; cbn; lia|].
    cbn [hp this chars refCount]. rewrite insert_insert_eq, (wrap_small 64 (g - 1)) by (unfold is_uint; lia).
    apply (total_set_ml _ _ _ None); [done|]. cbn [hp]. eassert (makes_new _ _ _) as [HM HS]; [|split; [exact HM|by left]].
    apply makes_block; cbn [fst snd large_cap]; [done|lia|lia|done|done|lia|lia || done].
Qed.
End Spec.

#[export] Hint Resolve covers_true : core.
