(* ===== verification/FBStringRoom.v ===== *)
(** The methods of [fbstring_core] that change an object: destruction, making room, copying a shared
    block before it is written, growing and shrinking. *)
From S2P Require Import Prelude FBStringCore FBStringInv FBStringCoreSpec.
Import Core.

Section Spec.
Context {PF : Platform} {PL : PlatformLaws} {X : heap -> Prop}.

(** The characters of the block of an object. *)
Definition block_size (h : heap) (c : core) : Z := if h !! data_ c is Some b then Z.of_nat (length (chars b)) else 0.

Lemma block_size_words h d cap rc bs m : 0 < d < 2 ^ 57 -> h !! d = Some (mkBlock rc bs) ->
  block_size h (words d m (tag cap rc)) = Z.of_nat (length bs).
Proof using. intros Hd Hb. unfold block_size. rewrite word_0 by (by apply u64_address). by rewrite Hb. Qed.

(** What the object may have to ask for to have room for [n] characters. *)
Definition demand (s : st) (n : Z) : Z := Z.max n (block_size (hp s) (this s)) + 9.

Lemma demand_ge s n : n + 9 <= demand s n.
Proof using. unfold demand. lia. Qed.

Lemma demand_words h d cap rc bs m n : 0 < d < 2 ^ 57 -> h !! d = Some (mkBlock rc bs) ->
  demand (mkSt h (words d m (tag cap rc))) n = Z.max n (Z.of_nat (length bs)) + 9.
Proof using. intros. unfold demand. cbn [hp this]. by erewrite block_size_words. Qed.

(** The object shares its block only if it does not change. *)
Definition tame (s s' : st) : Prop := sole (hp s') (this s') \/ this s' = this s.

(** The object becomes one of text [t']. *)
Record becomes (t' : list Z) (s s' : st) : Prop := mkBecomes {
  becomes_rep : rep (hp s') (this s') t';
  becomes_frame : frame (hp s) [this s] (hp s') [this s'];
  becomes_tame : tame s s';
}.

(** ... of its own, with room for [n] characters. *)
Record gets_room (t' : list Z) (n : Z) (s s' : st) : Prop := mkGetsRoom {
  gets_room_room : room (hp s') (this s') t' n;
  gets_room_frame : frame (hp s) [this s] (hp s') [this s'];
  gets_room_small : small (this s') -> small (this s);
}.

Lemma gets_room_becomes t n s s' : gets_room t n s s' -> becomes t s s'.
Proof. intros [HR HF _]. split; [by eapply room_rep|done|left; by eapply room_sole]. Qed.

Lemma tame_trans s s1 s2 : tame s s1 -> frame (hp s1) [this s1] (hp s2) [this s2] -> tame s1 s2 -> tame s s2.
Proof.
  intros H1 F [H2|E]; [by left|]. unfold tame. rewrite E in *. destruct H1 as [H1|H1]; [|by right].
  left. by eapply sole_frame.
Qed.

Lemma becomes_trans t1 t2 s s1 s2 : becomes t1 s s1 -> becomes t2 s1 s2 -> becomes t2 s s2.
Proof. intros [? F1 T1] [? F2 T2]. split; [done|by eapply frame_trans|by eapply tame_trans]. Qed.

Lemma becomes_refl t s : heap_ok (hp s) -> rep (hp s) (this s) t -> becomes t s s.
Proof. intros. split; [done|by apply frame_refl|by right]. Qed.

(** ** Destruction *)

Lemma decrementRefs_spec d r bs sz cap s : heap_ok (hp s) -> 0 < d < 2 ^ 57 -> 0 <= cap < 2 ^ 57 ->
  hp s !! d = Some (mkBlock (Some r) bs) ->
  total (decrementRefs d) s (fun _ s' => this s' = this s /\
    frame (hp s) [words d sz (tag cap (Some r))] (hp s') [] /\ (1 < r -> hp s' = <[d := mkBlock (Some (r - 1)) bs]> (hp s))).
Proof.
  intros Hok Hd Hcap Hb. pose proof (Hok _ _ Hb) as Hr. cbn in Hr.
  apply total_bind. eapply total_refs; [done..|]. apply total_bind. eapply total_set_refs; [done|].
  rewrite wrap_small by (unfold is_uint; lia). cbn [chars]. destruct (Z.eqb_spec r 1) as [->|].
  - eapply (free_spec _ (d - 8) (Some 0) bs); cbn [offset hp]; rewrite Z.sub_add; [apply lookup_insert_eq|].
    cbn [this hp]. split_and!; [done| |lia]. rewrite delete_insert_eq.
    eapply frame_free; [done|by apply u64_address|done|done|done].
  - apply total_ret. cbn [this hp]. split_and!; [done| |done].
    apply frame_dec; [done|by apply u64_address|lia|done|lia].
Qed.

Lemma destroy_spec s t : heap_ok (hp s) -> rep (hp s) (this s) t ->
  total destroy s (fun _ s' => frame (hp s) [this s] (hp s') []).
Proof.
  intros Hok Hrep. unfold destroy. remember (this s) as c eqn:Ec.
  destruct Hrep as [c t Hl Ht Hlast Hh|d cap rc bs t Hd Hcap Hb Hl Hh Hlc]; subst.
  - assert (small (this s)) by (eexists; split; [|done]; lia).
    apply total_bind. eapply total_of_this; [by apply small_category|]. apply total_ret.
    by apply frame_from_small, frame_refl.
  - assert (Hcat : category (this s) = Some (kind rc)) by (rewrite <- Ec; apply category_words; lia).
    assert (Hda : data_ (this s) = d) by (rewrite <- Ec; apply word_0; by apply u64_address).
    apply total_bind. eapply total_of_this; [done|].
    destruct rc as [r|]; cbn [kind] in *; apply total_bind; (eapply total_of_this; [done|]);
      apply total_bind; (eapply total_of_this; [by rewrite Hda|]).
    + eapply total_mono; [by apply (decrementRefs_spec d r bs (Z.of_nat (length t)) cap); [..|lia|]|]. naive_solver.
    + eapply (free_spec _ d None bs); cbn [offset]; rewrite Z.add_0_r; [done|]. cbn [hp].
      eapply frame_free; [done|by apply u64_address|done|done|lia].
Qed.

Lemma call_total {A} c (f : op A) s Q :
  total f (mkSt (hp s) c) (fun a s' => Q (a, this s') (mkSt (hp s') (this s))) -> total (call c f) s Q.
Proof. unfold total, outcome, call. by destruct (f _) as [[s' []]|]. Qed.

Lemma call_strong {A} c (f : op A) s Q :
  sparing X f (mkSt (hp s) c) (fun a s' => Q (a, this s') (mkSt (hp s') (this s))) -> sparing X (call c f) s Q.
Proof.
  unfold sparing, outcome, call. destruct (f _) as [[s' []]|]; [done| |done].
  intros [-> ?]. by destruct s.
Qed.

(** The local object is gone after an exception. *)
Lemma local_call_strong {A} c t (f : op A) s Q : heap_ok (hp s) -> rep (hp s) c t -> small c ->
  sparing X f (mkSt (hp s) c) (fun a s' => Q (a, this s') (mkSt (hp s') (this s))) -> sparing X (local_call c f) s Q.
Proof.
  intros Hok Hrep Hs. unfold sparing, outcome, local_call. destruct (f _) as [[s' []]|]; [done| |done].
  intros [-> ?]. pose proof (destroy_spec (mkSt (hp s) c) t Hok Hrep) as Hd. unfold total, outcome in Hd.
  destruct (destroy _) as [[s'' []]|]; [|done..]. split; [|done].
  rewrite (frame_nil_eq (hp s) (hp s'')); [by destruct s|done|].
  eapply frame_owns; [..|exact Hd]; [|done]. intros p. by rewrite owns_small.
Qed.

Lemma swap_and_destroy_spec rhs s t : heap_ok (hp s) -> rep (hp s) (this s) t ->
  total (swap_and_destroy rhs) s (fun _ s' => this s' = rhs /\ frame (hp s) [this s] (hp s') []).
Proof.
  intros Hok Hrep. unfold swap_and_destroy. apply total_bind.
  change (total (swap rhs) s) with (fun Q : core -> st -> Prop => Q (this s) (mkSt (hp s) rhs)). cbv beta.
  apply total_bind, call_total. cbn [hp this]. destruct s as [h c]. cbn [hp this] in *.
  eapply total_mono; [by apply (destroy_spec (mkSt h c) t)|]. intros ? s' HF. apply total_ret. done.
Qed.

(** ** Room *)

Lemma of_this_bind {A B} (f : core -> option A) (g : A -> op B) s a Q :
  f (this s) = Some a -> sparing X (g a) s Q -> sparing X (of_this f ≫= g) s Q.
Proof. intros E H. apply strong_pure_bind, total_strong. by eapply total_of_this. Qed.

Lemma refs_bind {B} p b r (g : Z -> op B) s Q :
  hp s !! p = Some b -> refCount b = Some r -> sparing X (g r) s Q -> sparing X (refs p ≫= g) s Q.
Proof. intros E Er H. apply strong_pure_bind, total_strong. by eapply total_refs. Qed.

(** The characters of an object with a block, copied to a new block with their null character. *)
Lemma copy_text_spec d e rc bs rc' bs' t s (Q : unit -> st -> Prop) :
  hp s !! d = Some (mkBlock rc bs) -> holds bs t -> hp s !! e = Some (mkBlock rc' bs') -> (length t < length bs')%nat ->
  Q tt (mkSt (<[e := mkBlock rc' (patch 0 (t ++ [0]) bs')]> (hp s)) (this s)) ->
  total (cs ← get_chars d 0 (Z.to_nat (Z.of_nat (length t) + 1)); put_chars e 0 cs) s Q.
Proof.
  intros Hd Hh He Hl HQ. replace (Z.to_nat (Z.of_nat (length t) + 1)) with (length t + 1)%nat by lia.
  pose proof (holds_length _ _ Hh).
  apply total_bind. eapply total_get_chars; [exact Hd|cbn [chars]; lia|]. cbn [chars].
  rewrite drop_0, (holds_take _ _ Hh).
  eapply total_put_chars; [exact He|cbn [chars]; rewrite length_app; cbn; lia|done].
Qed.

Lemma bind_assoc {A B C} (m : op A) (f : A -> op B) (g : B -> op C) s :
  ((m ≫= f) ≫= g) s = (m ≫= (fun a => f a ≫= g)) s.
Proof. rewrite !M_bind_unfold. by destruct (m s) as [[? []]|]. Qed.

Lemma copy_text_bind {B} d e rc bs rc' bs' t (g : unit -> op B) s (Q : B -> st -> Prop) :
  hp s !! d = Some (mkBlock rc bs) -> holds bs t -> hp s !! e = Some (mkBlock rc' bs') -> (length t < length bs')%nat ->
  total (g tt) (mkSt (<[e := mkBlock rc' (patch 0 (t ++ [0]) bs')]> (hp s)) (this s)) Q ->
  total (cs ← get_chars d 0 (Z.to_nat (Z.of_nat (length t) + 1)); put_chars e 0 cs ≫= g) s Q.
Proof.
  intros Hd Hh He Hl HQ. unfold total, outcome. rewrite <- bind_assoc. apply total_bind.
  by eapply copy_text_spec.
Qed.

(** A new block for the text [t]. *)
Lemma room_patch h d cap rc bs t n : 0 < d < 2 ^ 57 -> Z.of_nat (length t) <= cap < 2 ^ 57 -> cap < Z.of_nat (length bs) ->
  h !! d = Some (mkBlock rc (patch 0 (t ++ [0]) bs)) -> large_cap rc cap -> default 1 rc = 1 -> n <= cap ->
  room h (words d (Z.of_nat (length t)) (tag cap rc)) t n.
Proof.
  intros. eapply room_block; [done|done|done|rewrite length_patch_text by lia; lia|apply holds_patch; lia|done..].
Qed.

(** The object of a new block takes the place of one that is released. *)
Lemma frame_replace h c h1 c' h2 : frame h [] h1 [c'] -> frame h1 [c] h2 [] -> frame h [c] h2 [c'].
Proof.
  intros F1 F2. eapply frame_trans; [exact (frame_app _ _ _ _ [c] F1)|]. cbn [app].
  eapply frame_perm; [apply Permutation_swap| |exact (frame_app _ _ _ _ [c'] F2)]. done.
Qed.

Lemma unshare_spec n d cap r bs t h : covers X (Z.max n cap + 9) -> heap_ok h -> 0 < d < 2 ^ 57 -> Z.of_nat (length t) <= cap < 2 ^ 57 ->
  h !! d = Some (mkBlock (Some r) bs) -> cap < Z.of_nat (length bs) -> holds bs t -> 254 < cap -> 1 < r ->
  let s := mkSt h (words d (Z.of_nat (length t)) (tag cap (Some r))) in
  sparing X (unshare n) s (fun _ => gets_room t (Z.max n cap) s).
Proof.
  intros HX Hok Hd Hcap Hb Hl Hh Hlc Hr s. unfold unshare. eapply of_this_bind; [done|].
  subst s. cbn [this]. rewrite ml_capacity_words, word_0, word_1 by (unfold is_uint; lia).
  apply strong_bind. eapply strong_mono; [apply create_spec; [done|lia]|].
  intros [d' cap'] s' (bs' & Hd' & Hcap' & Hl' & Hf & ->). cbn [fst snd hp this] in *.
  assert (Hne : d <> d') by congruence.
  eapply copy_text_bind; [cbn [hp]; rewrite lookup_insert_ne by done; exact Hb|done|apply lookup_insert_eq|lia|].
  cbn [hp this]. rewrite insert_insert_eq. set (h1 := <[d' := _]> h).
  assert (F1 : frame h [] h1 [words d' (Z.of_nat (length t)) (tag cap' (Some 1))]).
  { apply frame_alloc; [done|by apply u64_address|lia|done..]. }
  apply total_bind. eapply total_mono.
  { apply (decrementRefs_spec d r bs (Z.of_nat (length t)) cap); cbn [hp]; [by destruct F1|done|lia|].
    unfold h1. by rewrite lookup_insert_ne. }
  intros [] s2 (Ht & F2 & Hh2). cbn [hp this] in *. eapply total_set_this; [done|].
  rewrite Ht. rewrite set_word_0. unfold setCapacity. rewrite set_word_2.
  change (cap' .| _) with (tag cap' (Some 1)). split; cbn [hp this].
  - cbn [fst snd]. apply (room_patch _ _ _ _ bs'); [done|lia|lia| |cbn; lia|done|lia].
    rewrite Hh2 by done. rewrite lookup_insert_ne by done. apply lookup_insert_eq.
  - eapply frame_replace; [exact F1|exact F2].
  - intros Hs. by apply words_not_small in Hs; [|lia].
Qed.

Lemma room_unique h d cap rc cs t : heap_ok h -> 0 < d < 2 ^ 57 -> Z.of_nat (length t) <= cap < 2 ^ 57 ->
  h !! d = Some (mkBlock rc cs) -> cap < Z.of_nat (length cs) -> holds cs t -> large_cap rc cap -> ~ 1 < default 1 rc ->
  forall n, n <= cap -> room h (words d (Z.of_nat (length t)) (tag cap rc)) t n.
Proof.
  intros Hok ? ? Hb ? ? ? Hrc n Hn. pose proof (Hok _ _ Hb) as Hr. cbn in Hr.
  eapply room_block; [done..|lia|done].
Qed.

Lemma mutableData_spec s t : covers X (demand s 0) -> heap_ok (hp s) -> rep (hp s) (this s) t ->
  sparing X mutableData s (fun _ => gets_room t (Z.of_nat (length t)) s).
Proof.
  intros HX Hok Hrep. destruct s as [h c]. cbn [hp this] in *. unfold mutableData.
  destruct Hrep as [c t Hl Ht Hlast Hh|d cap rc bs t Hd Hcap Hb Hl Hh Hlc].
  - assert (small c) by (eexists; split; [|done]; lia).
    eapply of_this_bind; [by apply small_category|]. apply strong_ret. split; [constructor; [done..|lia]|by apply frame_refl|done].
  - eapply of_this_bind; [apply category_words; lia|]. destruct rc as [r|]; cbn [kind].
    + eapply of_this_bind; [done|]. cbn [this]. rewrite word_0 by by apply u64_address.
      eapply refs_bind; [done..|]. destruct (Z.ltb_spec 1 r) as [Hr|Hr].
      * rewrite (demand_words _ _ _ _ bs) in HX by done.
        eapply strong_mono; [by apply (unshare_spec 0 d cap r bs t h); [eapply covers_le; [done|lia]|..]|]. intros [] s' [Hroom HF HS].
        split; [|done|done]. eapply room_fewer; [done|lia].
      * apply strong_ret. split; [|by apply frame_refl|done]. eapply room_unique; [done..|cbn; lia|lia].
    + apply strong_ret. split; [|by apply frame_refl|done]. eapply room_unique; [done..|cbn; lia|lia].
Qed.

(** Nothing is copied when the block is not shared. *)
Lemma mutableData_room_spec s t n : room (hp s) (this s) t n -> total mutableData s (fun _ s' => s' = s).
Proof.
  intros Hroom. destruct s as [h c]. cbn [hp this] in *. unfold mutableData.
  destruct Hroom as [c t n Hl Ht Hlast Hh Hm|d cap rc bs t n Hd Hcap Hb Hl Hh Hlc Hrc Hm].
  - apply total_bind. eapply total_of_this; [by eapply small_category; eexists; split; [|done]; lia|]. by apply total_ret.
  - apply total_bind. eapply total_of_this; [apply category_words; lia|]. destruct rc as [r|]; cbn [kind]; [|by apply total_ret].
    apply total_bind. eapply total_of_this; [done|]. cbn [this]. rewrite word_0 by by apply u64_address.
    apply total_bind. eapply total_refs; [done..|]. cbn in Hrc. subst r. by apply total_ret.
Qed.

(** The part of a block that a reallocation keeps. *)
Lemma holds_copy bs bs' t : holds bs t ->
  take (Z.to_nat (Z.of_nat (length t) + 1)) bs' = take (Z.to_nat (Z.of_nat (length t) + 1)) bs -> holds bs' t.
Proof.
  intros Hh. replace (Z.to_nat (Z.of_nat (length t) + 1)) with (length t + 1)%nat by lia.
  rewrite (holds_take _ _ Hh). intros Htake. exists (drop (length t + 1) bs').
  rewrite <- (take_drop (length t + 1) bs') at 1. by rewrite Htake, <- app_assoc.
Qed.

Lemma reallocate_spec d t cap n rc bs s : covers X (n + 9) -> rc = Some 1 ->
  0 < d -> hp s !! d = Some (mkBlock rc bs) -> Z.of_nat (length t) <= cap < n -> cap < Z.of_nat (length bs) -> holds bs t ->
  sparing X (reallocate d (Z.of_nat (length t)) cap n) s (fun r s' => exists bs',
    0 < r.1 < 2 ^ 57 /\ n <= r.2 < 2 ^ 57 /\ Z.of_nat (length bs') = r.2 + 1 /\ delete d (hp s) !! r.1 = None /\
    holds bs' t /\ s' = mkSt (<[r.1 := mkBlock rc bs']> (delete d (hp s))) (this s)).
Proof.
  intros HX -> Hd Hb Hcap Hl Hh. apply capacityBytes_spec; [done|lia|]. intros Hlt.
  destruct (goodMallocSize_bound (n + 9)) as [Hg Hg']; [unfold is_uint; lia|]. cbv zeta.
  apply strong_bind. eapply strong_mono.
  { apply (smartRealloc_spec (d - 8) (Z.of_nat (length t) + 1) (cap + 1) (n + 9) s (Some 1) bs);
      cbn [offset]; rewrite ?Z.sub_add; [done|lia|done|lia..]. }
  set (g := goodMallocSize _) in *. cbn [offset]. rewrite Z.sub_add. intros q s' (bs' & Hq & Hqn & Hlen & Hf & Htake & ->).
  apply total_ret. cbn [fst snd]. rewrite (wrap_small 64 (g - 8 - 1)) by (unfold is_uint; lia).
  exists bs'. split_and!; [lia..|done| |done].
  by eapply holds_copy.
Qed.

Lemma reserveLarge_spec n d cap r bs t h : covers X (Z.max n cap + 9) -> heap_ok h -> 0 < d < 2 ^ 57 -> Z.of_nat (length t) <= cap < 2 ^ 57 ->
  h !! d = Some (mkBlock (Some r) bs) -> cap < Z.of_nat (length bs) -> holds bs t -> 254 < cap ->
  let s := mkSt h (words d (Z.of_nat (length t)) (tag cap (Some r))) in
  sparing X (reserveLarge n) s (fun _ => gets_room t n s).
Proof.
  intros HX Hok Hd Hcap Hb Hl Hh Hlc s. unfold reserveLarge. eapply of_this_bind; [done|]. subst s. cbn [this].
  rewrite word_0, word_1, ml_capacity_words by (unfold is_uint; lia).
  eapply refs_bind; [done..|]. destruct (Z.ltb_spec 1 r) as [Hr|Hr].
  - eapply strong_mono; [by apply (unshare_spec n d cap r bs t h)|]. intros [] s' [Hroom HF HS].
    split; [|done|done]. eapply room_fewer; [done|lia].
  - assert (r = 1) as ->. { pose proof (Hok _ _ Hb) as H1. cbn in H1. lia. }
    destruct (Z.ltb_spec cap n) as [Hn|Hn].
    + apply strong_bind. eapply strong_mono; [eapply (reallocate_spec d t cap n (Some 1) bs); [eapply covers_le; [done|lia]|done|lia|done|lia|done|done]|].
      intros [d' cap'] s' (bs' & Hd' & Hcap' & Hl' & Hf & Hh' & ->). cbn [fst snd hp this] in *.
      eapply total_set_this; [done|]. cbn [hp this]. rewrite set_word_0. unfold setCapacity. rewrite set_word_2.
      change (cap' .| _) with (tag cap' (Some 1)). split; cbn [hp this].
      * eapply room_block; [done|lia|apply lookup_insert_eq|lia|done|cbn; lia|done|lia].
      * eapply frame_move; [done|by apply u64_address..|done|done|lia|lia|done].
      * intros Hs. by apply words_not_small in Hs; [|lia].
    + apply strong_ret. split; [|by apply frame_refl|done]. eapply room_unique; [done..|cbn; lia|done].
Qed.

Lemma smallSize_spec c (t : list Z) : c !! lastChar = Some (23 - Z.of_nat (length t)) -> (length t <= 23)%nat ->
  smallSize c = Some (Z.of_nat (length t)).
Proof.
  intros Hc Ht. unfold smallSize. rewrite Hc. cbn [mbind option_bind].
  destruct (Z.leb_spec (23 - Z.of_nat (length t)) 23); [f_equal; lia|lia].
Qed.

(** The text of a small object, copied to a new block that it then refers to. *)
Lemma move_out_spec d cap rc bs (t : list Z) s c h0 n : heap_ok h0 -> h0 !! d = None ->
  s = mkSt (<[d := mkBlock rc bs]> h0) c -> default 1 rc = 1 -> small c ->
  length c = 24%nat -> c !! lastChar = Some (23 - Z.of_nat (length t)) -> (length t <= 23)%nat -> holds c t ->
  0 < d < 2 ^ 57 -> Z.of_nat (length t) <= cap < 2 ^ 57 -> cap < Z.of_nat (length bs) -> large_cap rc cap -> n <= cap ->
  total (size ← of_this smallSize;
         cs ← of_this (fun c => Some (take (Z.to_nat size + 1) c));
         _ ← put_chars d 0 cs;
         set_ml d size cap (kind rc)) s
    (fun _ s' => gets_room t n (mkSt h0 c) s' /\ ~ small (this s')).
Proof.
  intros Hok Hn -> Hrc Hs Hc Hlast Ht Hh Hd Hcap Hl Hlc Hle.
  apply total_bind. eapply total_of_this; [by apply smallSize_spec|].
  apply total_bind. eapply total_of_this; [done|]. cbn [this]. rewrite Nat2Z.id, (holds_take _ _ Hh).
  apply total_bind. eapply total_put_chars; [apply lookup_insert_eq|cbn [chars]; rewrite length_app; cbn; lia|].
  cbn [hp this refCount chars]. rewrite insert_insert_eq. apply total_set_ml; [done|]. cbn [hp].
  split; [split; cbn [hp this]|apply words_not_small; lia].
  - eapply room_patch; [done|done|done|apply lookup_insert_eq|done..].
  - apply frame_from_small; [done|]. apply frame_alloc; [done|by apply u64_address|lia|done..].
  - done.
Qed.

Lemma reserveSmall_spec n sso s t : covers X (n + 9) -> heap_ok (hp s) -> rep (hp s) (this s) t -> small (this s) ->
  (sso = true -> Z.of_nat (length t) <= n) -> 0 <= n ->
  sparing X (reserveSmall n sso) s (fun _ s' => gets_room t n s s' /\ (sso = true \/ 23 < n -> ~ small (this s'))).
Proof.
  intros HX Hok Hrep Hs Hlen Hn. destruct s as [h c]. cbn [hp this] in *. unfold reserveSmall.
  destruct Hrep as [c t Hl Ht Hlast Hh|? ? ? ? ? ? ? ?]; [|by apply words_not_small in Hs; [|lia]].
  destruct (negb sso && (n <=? 23)) eqn:E.
  { apply andb_true_iff in E as [?%negb_true_iff ?%Z.leb_le].
    apply strong_ret. split; [split; [by constructor|by apply frame_refl|done]|]. intros [?|?]; [congruence|lia]. }
  assert (Z.of_nat (length t) <= n).
  { destruct sso; [by apply Hlen|]. cbn in E. apply Z.leb_gt in E. lia. }
  destruct (Z.leb_spec n 254).
  - cbv zeta. rewrite (wrap_small 64 (1 + n)) by (unfold is_uint; lia).
    destruct (goodMallocSize_bound (1 + n)) as [Hg Hg']; [unfold is_uint; lia|].
    apply strong_bind. eapply strong_mono; [apply checkedMalloc_spec; [eapply covers_le; [done|lia]|lia..]|].
    set (g := goodMallocSize _) in *.
    intros p s' (bs & Hp & Hpn & Hl' & Hf & ->). rewrite Z.add_0_r in *. cbn [hp this] in *.
    rewrite (wrap_small 64 (g - 1)) by (unfold is_uint; lia).
    eapply total_mono; [eapply (move_out_spec p (g - 1) None bs t _ c h n); [done..|lia|lia|lia|done|lia]|]. naive_solver.
  - apply strong_bind. eapply strong_mono; [apply create_spec; [done|lia]|].
    intros [d' cap'] s' (bs & Hd' & Hcap' & Hl' & Hf & ->). cbn [fst snd hp this] in *.
    eapply total_mono; [eapply (move_out_spec d' cap' (Some 1) bs t _ c h n); [done..|lia|lia|cbn; lia|lia]|]. naive_solver.
Qed.

Lemma reset_spec s : length (this s) = 24%nat ->
  total reset s (fun _ s' => hp s' = hp s /\ small (this s') /\ forall h, rep h (this s') []).
Proof.
  intros Hc. apply setSmallSize_spec; [lia|]. cbn [hp this Z.to_nat]. split_and!; [done|apply sized_small; [done|lia]|].
  intros h. by apply (rep_sized h (this s) []); [|cbn; lia|].
Qed.

(** A medium string that gets long: its text moves to the block of the new object. *)
Lemma nascent_spec c1 d cap bs t n h h1 :
  heap_ok h -> 0 < d < 2 ^ 57 -> Z.of_nat (length t) <= cap < 2 ^ 57 ->
  h !! d = Some (mkBlock None bs) -> cap < Z.of_nat (length bs) -> holds bs t -> Z.of_nat (length t) <= n ->
  room h1 c1 [] n -> ~ small c1 -> frame h [] h1 [c1] ->
  let c := words d (Z.of_nat (length t)) (tag cap None) in
  let c2 := set_word 1 (Z.of_nat (length t)) c1 in
  total (cs ← get_chars d 0 (Z.to_nat (Z.of_nat (length t) + 1));
         _ ← put_chars (data_ c2) 0 cs;
         swap_and_destroy c2) (mkSt h1 c) (fun _ => gets_room t n (mkSt h c)).
Proof.
  intros Hok Hd Hcap Hb Hl Hh Hn Hroom Hs HF c c2.
  assert (Hown : forall p, own c p = if d =? p then 1 else 0) by (intros; apply own_words; [by apply u64_address|lia]).
  assert (Hcd : 1 <= cnt h d) by (by eapply cnt_pos). pose proof HF as [Hok1 HC HO].
  destruct Hroom as [? ? ? ? Ht Hlast|d' cap' rc' bs' ? ? Hd' Hcap' Hb' Hl' Hh' Hlc' Hrc' Hn'].
  { destruct Hs. eexists. split; [|done]. lia. }
  assert (Hne : d <> d').
  { intros ->. specialize (HC d'). rewrite owns_words_at, (cnt_lookup _ _ _ Hb') in HC by (unfold is_uint; lia). cbn in *. lia. }
  destruct (HO d _ Hb) as ([rcd bsd] & Hbd & Hcd' & Hkd); [cbn; lia|]. cbn in Hcd', Hkd. subst bsd.
  unfold c2. rewrite set_word_1, word_0 by (unfold is_uint; lia).
  eapply copy_text_bind; [exact Hbd|done|exact Hb'|lia|]. cbn [hp this].
  set (h2 := <[d' := _]> h1). set (c2' := words d' (Z.of_nat (length t)) (tag cap' rc')).
  assert (F2 : frame h [] h2 [c2']).
  { eapply frame_trans; [exact HF|]. eapply frame_write; [done|by apply u64_address|done..|cbn in Hcap'; lia|cbn in Hcap'; lia]. }
  assert (Hown2 : forall p, own c2' p = if d' =? p then 1 else 0)
    by (intros; apply own_words; [by apply u64_address|cbn in Hcap'; lia]).
  eapply total_mono.
  { apply (swap_and_destroy_spec _ _ t); cbn [hp this]; [by destruct F2|].
    eapply (rep_frame h); [done| |exact F2|by eapply rep_block]. intros p. rewrite Hown.
    destruct (Z.eqb_spec d p) as [<-|]; [cbn; lia|done]. }
  intros [] s' [Hs' F3]. cbn [hp this] in *. split.
  - rewrite Hs'. eapply (room_frame h2); [by destruct F2| |exact F3|].
    + intros p. rewrite Hown2, owns_single, Hown. destruct (Z.eqb_spec d' p) as [<-|]; [|done].
      destruct (Z.eqb_spec d d'); done.
    + eapply room_patch; [done|cbn in Hcap'; lia| |apply lookup_insert_eq|done..]. lia.
  - rewrite Hs'. by eapply frame_replace.
  - rewrite Hs'. intros Hs2. by apply words_not_small in Hs2; [|cbn in Hcap'; lia].
Qed.

Lemma reserveMedium_spec n d cap bs t h : covers X (n + 9) -> heap_ok h -> 0 < d < 2 ^ 57 -> Z.of_nat (length t) <= cap < 2 ^ 57 ->
  h !! d = Some (mkBlock None bs) -> cap < Z.of_nat (length bs) -> holds bs t ->
  let s := mkSt h (words d (Z.of_nat (length t)) (tag cap None)) in
  sparing X (reserveMedium n) s (fun _ => gets_room t n s).
Proof.
  intros HX Hok Hd Hcap Hb Hl Hh s. unfold reserveMedium. eapply of_this_bind; [done|]. subst s. cbn [this].
  rewrite word_0, word_1, ml_capacity_words by (unfold is_uint; lia).
  destruct (Z.leb_spec n cap); [|destruct (Z.leb_spec n 254)].
  - apply strong_ret. split; [|by apply frame_refl|done]. eapply room_unique; [done..|cbn; lia|done].
  - cbv zeta. rewrite (wrap_small 64 (1 + n)) by (unfold is_uint; lia).
    destruct (goodMallocSize_bound (1 + n)) as [Hg Hg']; [unfold is_uint; lia|]. apply strong_bind. eapply strong_mono.
    { apply (smartRealloc_spec d (Z.of_nat (length t) + 1) (cap + 1) (1 + n) _ None bs); cbn [offset]; rewrite ?Z.add_0_r;
        [eapply covers_le; [done|lia]|lia|done|lia..]. }
    set (g := goodMallocSize _) in *.
    cbn [offset hp this]. rewrite Z.add_0_r. intros q s' (bs' & Hq & Hqn & Hlen & Hf & Htake & ->). rewrite Z.add_0_r in *.
    eapply total_set_this; [done|]. cbn [hp this]. rewrite set_word_0. unfold setCapacity. rewrite set_word_2.
    rewrite (wrap_small 64 (g - 1)) by (unfold is_uint; lia). change (g - 1 .| _) with (tag (g - 1) None).
    split; cbn [hp this].
    + eapply room_block; [lia|lia|apply lookup_insert_eq|lia|by eapply holds_copy|done|done|lia].
    + eapply frame_move; [done|apply u64_address; lia..|done|done|lia|lia|done].
    + intros Hs. by apply words_not_small in Hs; [|lia].
  - apply strong_pure_bind. unfold construct. apply total_strong, total_bind, call_total.
    eapply total_mono; [apply reset_spec, stack_bytes_law|]. intros [] s0 (E0 & Hs0 & Hr0). cbn [hp] in E0.
    apply total_ret. cbn [snd]. rewrite E0. split; [done|]. apply strong_bind.
    eapply local_call_strong; [done|by apply Hr0|done|]. cbn [hp].
    eapply strong_mono; [apply (reserveSmall_spec n _ (mkSt h (this s0)) []); [done|done|by apply Hr0|done|cbn; lia|lia]|].
    intros [] s1 [[Hroom HF _] Hns]. cbn [hp this snd] in *. cbv zeta.
    apply (nascent_spec (this s1) d cap bs t n h (hp s1)); [done..|lia|done|apply Hns; lia|].
    eapply frame_owns; [..|exact HF]; [|done]. intros p. by rewrite owns_small.
Qed.

Lemma reserve_spec n sso s t : covers X (demand s n) -> heap_ok (hp s) -> rep (hp s) (this s) t ->
  (sso = true -> Z.of_nat (length t) <= n) -> 0 <= n ->
  sparing X (reserve n sso) s (fun _ => gets_room t n s).
Proof.
  intros HX Hok Hrep Hsso Hn. destruct s as [h c]. cbn [hp this] in *. unfold reserve. pose proof (demand_ge (mkSt h c) n).
  destruct (Hrep) as [c t Hl Ht Hlast Hh|d cap rc bs t Hd Hcap Hb Hl Hh Hlc].
  - assert (small c) by (eexists; split; [|done]; lia).
    eapply of_this_bind; [by apply small_category|]. eapply strong_mono; [by apply reserveSmall_spec; [by eapply covers_le|..]|]. naive_solver.
  - eapply of_this_bind; [apply category_words; lia|]. destruct rc as [r|]; cbn [kind].
    + rewrite (demand_words _ _ _ _ bs) in HX by done. eapply reserveLarge_spec; [eapply covers_le; [done|lia]|done..].
    + by eapply reserveMedium_spec; [by eapply covers_le|..].
Qed.
End Spec.
