(* ===== verification/FBStringSize.v ===== *)
(** The methods of [fbstring_core] that change the characters: growing, writing and shrinking; and
    the observers. *)
From S2P Require Import Prelude FBStringCore FBStringInv FBStringCoreSpec FBStringRoom.
Import Core.

(** ** Observers *)

Lemma size_spec h c t : rep h c t -> size c = Some (Z.of_nat (length t)).
Proof.
  intros [c' t' Hl Ht Hlast Hh|d cap rc bs t' Hd Hcap Hb Hl Hh].
  - unfold size. rewrite Hlast. cbn [mbind option_bind].
    replace (23 - (23 - Z.of_nat (length t'))) with (Z.of_nat (length t')) by lia.
    rewrite swrap_wrap, swrap_small, wrap_small by (unfold is_uint, is_sint; lia).
    destruct (Z.leb_spec 0 (Z.of_nat (length t'))); [done|lia].
  - apply size_words; [unfold is_uint; lia|lia].
Qed.

Section Spec.
Context {PF : Platform} {PL : PlatformLaws} {X : heap -> Prop}.

Lemma access_bind {A B} (f : st -> option A) (g : A -> op B) s a Q :
  f s = Some a -> total (g a) s Q -> total (access f ≫= g) s Q.
Proof. intros E H. apply total_bind. by eapply total_access. Qed.

Lemma total_of_this_bind {A B} (f : core -> option A) (g : A -> op B) s a Q :
  f (this s) = Some a -> total (g a) s Q -> total (of_this f ≫= g) s Q.
Proof. intros E H. apply total_bind. by eapply total_of_this. Qed.

(** The capacity of an object of its own is room; that of a shared one is its size. *)
Lemma capacity_spec c t s : heap_ok (hp s) -> rep (hp s) c t ->
  total (capacity c) s (fun n s' => s' = s /\ Z.of_nat (length t) <= n < 2 ^ 57 /\
    (room (hp s) c t n \/ n = Z.of_nat (length t)) /\ n <= Z.max 23 (block_size (hp s) c)).
Proof.
  intros Hok [c' t' Hl Ht Hlast Hh|d cap rc bs t' Hd Hcap Hb Hl Hh Hlc]; unfold capacity.
  - eapply access_bind; [eapply small_category; eexists; split; [|done]; lia|].
    apply total_ret. split_and!; [done|lia..| |lia]. left. by constructor.
  - eapply access_bind; [apply category_words; lia|]. rewrite ml_capacity_words by lia.
    rewrite (block_size_words _ _ _ _ bs) by done. destruct rc as [r|]; cbn [kind].
    + rewrite word_0, word_1 by (unfold is_uint; lia). apply total_bind. eapply total_refs; [done..|]. apply total_ret.
      destruct (Z.ltb_spec 1 r); (split_and!; [done|lia..| |lia]); [by right|left].
      eapply room_unique; [done..|cbn; lia|lia].
    + apply total_ret. split_and!; [done|lia..| |lia]. left. eapply room_unique; [done..|cbn; lia|lia].
Qed.

Lemma isShared_spec c t s : heap_ok (hp s) -> rep (hp s) c t ->
  total (isShared c) s (fun b s' => s' = s /\ (b = false -> room (hp s) c t (Z.of_nat (length t)))).
Proof.
  intros Hok [c' t' Hl Ht Hlast Hh|d cap rc bs t' Hd Hcap Hb Hl Hh Hlc]; unfold isShared.
  - eapply access_bind; [eapply small_category; eexists; split; [|done]; lia|].
    apply total_ret. split; [done|]. intros _. constructor; [done..|lia].
  - eapply access_bind; [apply category_words; lia|]. destruct rc as [r|]; cbn [kind].
    + rewrite word_0 by (unfold is_uint; lia). apply total_bind. eapply total_refs; [done..|]. apply total_ret.
      split; [done|]. intros ?%Z.ltb_ge. eapply room_unique; [done..|cbn; lia|lia].
    + apply total_ret. split; [done|]. intros _. eapply room_unique; [done..|cbn; lia|lia].
Qed.

Lemma peek_spec c t i n s (Q : list Z -> st -> Prop) : rep (hp s) c t -> (i + n <= length t)%nat ->
  Q (take n (drop i t)) s -> total (peek c i n) s Q.
Proof.
  intros [c' t' Hl Ht Hlast Hh|d cap rc bs t' Hd Hcap Hb Hl Hh Hlc] Hi HQ; unfold peek.
  - pose proof (holds_length _ _ Hh). eapply access_bind; [eapply small_category; eexists; split; [|done]; lia|].
    eapply total_access; [by rewrite decide_True by lia|]. by rewrite (holds_text _ _ i n Hh).
  - pose proof (holds_length _ _ Hh). eapply access_bind; [apply category_words; lia|].
    rewrite word_0 by (by apply u64_address).
    assert (total (get_chars d i n) s Q); [|by destruct rc].
    eapply total_get_chars; [exact Hb|cbn; lia|]. cbn [chars]. by rewrite (holds_text _ _ i n Hh).
Qed.

(** ** Writing *)

Lemma poke_spec i l s t n : heap_ok (hp s) -> room (hp s) (this s) t n -> (i + length l <= length t)%nat ->
  total (poke i l) s (fun _ => gets_room (patch i l t) n s).
Proof.
  intros Hok Hroom Hi. destruct s as [h c]. cbn [hp this] in *. unfold poke.
  destruct Hroom as [c t n Hl Ht Hlast Hh Hn|d cap rc bs t n Hd Hcap Hb Hl Hh Hlc Hrc Hn];
    pose proof (holds_length _ _ Hh); assert (Hpl : length (patch i l t) = length t) by (apply length_patch; lia).
  - assert (small c) by (eexists; split; [|done]; lia).
    eapply total_of_this_bind; [by apply small_category|].
    eapply total_set_this; [apply write_in_bounds; cbn; lia|]. cbn [hp this].
    assert (Hlast' : patch i l c !! lastChar = Some (23 - Z.of_nat (length t))).
    { rewrite <- Hlast. unfold patch. rewrite lookup_app_r; rewrite length_take; [|lia].
      rewrite lookup_app_r by lia. rewrite lookup_drop. f_equal. lia. }
    split; cbn [hp this].
    + constructor; [fold (patch i l c); rewrite length_patch by lia; done|lia|by rewrite Hpl|by apply holds_poke|done].
    + apply frame_from_small; [done|]. apply frame_to_small; [eexists; split; [|exact Hlast']; lia|by apply frame_refl].
    + done.
  - eapply total_of_this_bind; [apply category_words; lia|].
    assert (Hput : total (put_chars d i l) (mkSt h (words d (Z.of_nat (length t)) (tag cap rc)))
      (fun _ => gets_room (patch i l t) n (mkSt h (words d (Z.of_nat (length t)) (tag cap rc))))).
    { eapply total_put_chars; [exact Hb|cbn; lia|]. cbn [hp this chars refCount]. split; cbn [hp this]; [| |done].
      - rewrite <- Hpl. eapply room_block; [done|lia|apply lookup_insert_eq|rewrite length_patch by lia; done|by apply holds_poke|done..].
      - eapply frame_write; [done|by apply u64_address|done..|lia|lia]. }
    destruct rc; cbn [kind]; (eapply total_of_this_bind; [cbn [this]; rewrite word_0 by (by apply u64_address); done|done]).
Qed.

(** ** Growing *)

(** The text has [n] more characters, of no particular value; they are the object's own. *)
Record grows (t : list Z) (n : Z) (s s' : st) : Prop := mkGrows {
  grows_frame : frame (hp s) [this s] (hp s') [this s'];
  grows_text : exists junk, Z.of_nat (length junk) = n /\ rep (hp s') (this s') (t ++ junk) /\
    (0 < n -> room (hp s') (this s') (t ++ junk) 0);
  grows_tame : tame s s';
}.

(** The size and the null character of an object that has the room. *)
Lemma set_end_spec {A} d cap rc bs t n (i : A) h c : heap_ok h -> 0 < d < 2 ^ 57 -> Z.of_nat (length t) <= cap < 2 ^ 57 ->
  h !! d = Some (mkBlock rc bs) -> cap < Z.of_nat (length bs) -> holds bs t -> large_cap rc cap ->
  0 <= n -> Z.of_nat (length t) + n <= cap -> (default 1 rc = 1 \/ n = 0) ->
  c = words d (Z.of_nat (length t)) (tag cap rc) ->
  total (_ ← set_this (fun c => Some (set_word 1 (Z.of_nat (length t) + n) c));
         d ← of_this (fun c => Some (data_ c));
         _ ← put_chars d (Z.to_nat (Z.of_nat (length t) + n)) [0];
         mret i) (mkSt h c) (fun j s' => j = i /\ grows t n (mkSt h c) s').
Proof.
  intros Hok Hd Hcap Hb Hl Hh Hlc Hn Hle Hrc ->.
  apply total_bind. eapply total_set_this; [done|]. cbn [hp this]. rewrite set_word_1.
  eapply total_of_this_bind; [done|]. cbn [this]. rewrite word_0 by (by apply u64_address).
  apply total_bind. eapply total_put_chars; [exact Hb|cbn; lia|]. cbn [hp this chars refCount].
  apply total_ret. split; [done|].
  replace (Z.to_nat (Z.of_nat (length t) + n)) with (length t + Z.to_nat n)%nat by lia.
  destruct (holds_expand bs t (Z.to_nat n) Hh) as (junk & Hj & Hh'); [lia|].
  assert (Hsz : Z.of_nat (length t) + n = Z.of_nat (length (t ++ junk))) by (rewrite length_app; lia).
  rewrite Hsz. destruct Hrc as [Hrc| ->].
  - assert (Hroom : room (<[d := mkBlock rc (patch (length t + Z.to_nat n) [0] bs)]> h)
      (words d (Z.of_nat (length (t ++ junk))) (tag cap rc)) (t ++ junk) 0).
    { eapply room_block; [done|lia|apply lookup_insert_eq|rewrite length_patch by (cbn; lia); done|done..|lia]. }
    split; cbn [hp this]; [eapply frame_write; [done|by apply u64_address|done..|lia|lia]| |left; by eapply room_sole].
    exists junk. split_and!; [lia|by eapply room_rep|done].
  - destruct junk; [|done]. rewrite app_nil_r in *.
    assert (patch (length t + Z.to_nat 0) [0] bs = bs) as ->.
    { destruct Hh as (rest & ->). unfold patch. cbn [Z.to_nat length]. rewrite Nat.add_0_r, take_app_length.
      rewrite drop_app_ge by lia. replace (length t + 1 - length t)%nat with 1%nat by lia. done. }
    rewrite insert_id by done. split; cbn [hp this]; [by apply frame_refl| |by right].
    exists []. rewrite app_nil_r. split_and!; [done|by eapply rep_block|lia].
Qed.

Lemma grows_after_room {A} t m n (i : A) s s1 : gets_room t m s s1 -> ~ small (this s1) ->
  Z.of_nat (length t) + n <= m -> 0 <= n ->
  total (_ ← set_this (fun c => Some (set_word 1 (Z.of_nat (length t) + n) c));
         d ← of_this (fun c => Some (data_ c));
         _ ← put_chars d (Z.to_nat (Z.of_nat (length t) + n)) [0];
         mret i) s1 (fun j s' => j = i /\ grows t n s s').
Proof.
  intros [Hroom HF _] Hs Hm Hn. destruct s1 as [h c]. cbn [hp this] in *.
  destruct Hroom as [c t m Hl Ht Hlast|d cap rc bs t m Hd Hcap Hb Hl Hh Hlc Hrc Hm'].
  { destruct Hs. eexists. split; [|done]. lia. }
  eapply total_mono; [eapply (set_end_spec d cap rc bs t n i); [by destruct HF|done..|lia|by left|done]|].
  intros j s' [-> [HF' HT Htame]]. split; [done|]. split; [by eapply frame_trans|done|].
  eapply tame_trans; [left; eapply (room_sole _ _ t m)|exact HF'|done].
  by eapply room_block.
Qed.

(** What the object may have to ask for to grow to [n] characters. *)
Definition growth (s : st) (n : Z) : Z := Z.max (Z.max n 46) (2 * block_size (hp s) (this s)) + 9.

Lemma expand_small_spec n s t g sso : covers X (growth s (Z.of_nat (length t) + n)) -> heap_ok (hp s) -> rep (hp s) (this s) t -> small (this s) ->
  0 <= n -> Z.of_nat (length t) + n < 2 ^ 64 ->
  sparing X (expandNoinit n g sso) s (fun i s' => i = Z.of_nat (length t) /\ grows t n s s').
Proof.
  intros HX Hok Hrep Hs Hn Hlt. unfold expandNoinit. unfold growth in HX. eapply of_this_bind; [done|].
  eapply of_this_bind; [by apply small_category|].
  destruct (rep_small_inv _ _ _ Hrep Hs) as (Hl & Ht & Hlast & Hh).
  eapply of_this_bind; [by apply smallSize_spec|]. cbv zeta.
  rewrite wrap_small by (unfold is_uint; lia).
  destruct (negb sso && _) eqn:E.
  - apply andb_true_iff in E as [_ E%Z.leb_le]. apply total_strong, total_bind, setSmallSize_spec; [lia|].
    apply total_ret. split; [done|].
    set (junk := take (Z.to_nat n) (drop (length t) (this s))).
    assert (Hj : length junk = Z.to_nat n) by (unfold junk; rewrite length_take, length_drop; lia).
    assert (Hroom : room (hp s) (sized (Z.to_nat (Z.of_nat (length t) + n)) (this s)) (t ++ junk) 0).
    { replace (Z.to_nat (Z.of_nat (length t) + n)) with (length (t ++ junk)) by (rewrite length_app; lia).
      assert (Hrs : rep (hp s) (sized (length (t ++ junk)) (this s)) (t ++ junk)).
      { apply rep_sized; [done|rewrite length_app; lia|]. rewrite length_app, Hj, <- take_take_drop. fold junk. f_equal.
        destruct Hh as (rest & ->). apply take_app_length. }
      assert (Hsm : small (sized (length (t ++ junk)) (this s))) by (apply sized_small; [done|rewrite length_app; lia]).
      by apply rep_small_room. }
    split; cbn [hp this].
    + apply frame_from_small; [done|]. apply frame_to_small; [apply sized_small; [done|lia]|by apply frame_refl].
    + exists junk. split_and!; [lia|by eapply room_rep|done].
    + left. by eapply room_sole.
  - assert (Hsso : sso = true \/ 23 < Z.of_nat (length t) + n).
    { destruct sso; [by left|right]. cbn in E. by apply Z.leb_gt in E. }
    apply strong_bind. eapply strong_mono; [apply (reserveSmall_spec _ sso s t); [eapply covers_le; [done|destruct g; lia]|done..|destruct g; lia|destruct g; lia]|].
    intros [] s1 [HG Hns]. eapply grows_after_room; [exact HG|apply Hns; destruct g; [|done]; naive_solver lia|destruct g; lia|done].
Qed.

Lemma expandNoinit_spec n g sso s t : covers X (growth s (Z.of_nat (length t) + n)) -> heap_ok (hp s) -> rep (hp s) (this s) t ->
  0 <= n -> Z.of_nat (length t) + n < 2 ^ 64 ->
  sparing X (expandNoinit n g sso) s (fun i s' => i = Z.of_nat (length t) /\ grows t n s s').
Proof.
  intros HX Hok Hrep Hn Hlt.
  destruct (rep_inv _ _ _ Hrep) as [|(d & cap & rc & bs & Ec & Hd & Hcap & Hb & Hl & Hh & Hlc)]; [by apply expand_small_spec|].
  assert (Hns : ~ small (this s)) by (rewrite Ec; apply words_not_small; lia).
  unfold expandNoinit. eapply of_this_bind; [done|]. eapply of_this_bind; [rewrite Ec; apply category_words; lia|].
  assert (Hsz : size_ (this s) = Z.of_nat (length t)) by (rewrite Ec; apply word_1; unfold is_uint; lia).
  rewrite Hsz. cbv zeta. rewrite (wrap_small 64 (_ + n)) by (unfold is_uint; lia).
  assert (Hgo : sparing X (cap ← capacity (this s);
    _ ← (if cap <? Z.of_nat (length t) + n then
           reserve (if g then Z.max (Z.of_nat (length t) + n) (u64 (1 + u64 (cap * 3) / 2)) else Z.of_nat (length t) + n)
             FBSTRING_DISABLE_SSO
         else mret tt);
    _ ← set_this (fun c => Some (set_word 1 (Z.of_nat (length t) + n) c));
    d ← of_this (fun c => Some (data_ c));
    _ ← put_chars d (Z.to_nat (Z.of_nat (length t) + n)) [0];
    mret (Z.of_nat (length t))) s (fun i s' => i = Z.of_nat (length t) /\ grows t n s s')); [|by destruct rc].
  apply strong_pure_bind, total_strong. eapply total_mono; [by apply capacity_spec|].
  intros m s' (-> & Hm & Hroom & Hblk). split; [done|]. destruct (Z.ltb_spec m (Z.of_nat (length t) + n)) as [Hlt'|Hge].
  - apply strong_bind.
    eapply strong_mono; [apply (reserve_spec _ _ s t); [|done|done|destruct g; lia..]|].
    { eapply covers_le; [done|]. unfold growth, demand. rewrite (wrap_small 64 (m * 3)) by (unfold is_uint; lia).
      pose proof (Z.div_mod (m * 3) 2). pose proof (Z.mod_pos_bound (m * 3) 2).
      rewrite (wrap_small 64 (1 + _)) by (unfold is_uint; lia). destruct g; lia. }
    intros [] s1 HG. eapply grows_after_room; [exact HG|by intros ?%(gets_room_small _ _ _ _ HG)|destruct g; lia|done].
  - apply strong_pure_bind, strong_ret. split; [done|]. apply total_strong. destruct s as [h c]. cbn [hp this] in *.
    destruct Hroom as [Hroom| ->].
    + eapply grows_after_room; [split; [exact Hroom|by apply frame_refl|done]|done|done|done].
    + eapply (set_end_spec d cap rc bs); [done..|lia|right; lia|done].
Qed.

Lemma poke_nil_spec i s t : rep (hp s) (this s) t -> total (poke i []) s (fun _ s' => s' = s).
Proof.
  intros Hrep. unfold poke. destruct s as [h c]. cbn [hp this] in *.
  destruct (rep_inv _ _ _ Hrep) as [Hs|(d & cap & rc & bs & -> & Hd & Hcap & Hb & Hl & Hh & Hlc)].
  - eapply total_of_this_bind; [by apply small_category|]. by eapply total_set_this.
  - eapply total_of_this_bind; [apply category_words; lia|].
    assert (total (put_chars d i []) (mkSt h (words d (Z.of_nat (length t)) (tag cap rc)))
      (fun _ s' => s' = mkSt h (words d (Z.of_nat (length t)) (tag cap rc)))).
    { eapply total_set_heap; [cbn [hp]; rewrite Hb; reflexivity|]. cbn [hp this refCount chars]. by rewrite insert_id. }
    destruct rc; (eapply total_of_this_bind; [cbn [this]; rewrite word_0 by (by apply u64_address); done|done]).
Qed.

(** The new characters of a text that has grown. *)
Lemma grows_poke t n cs s s1 : grows t n s s1 -> Z.of_nat (length cs) = n ->
  total (poke (length t) cs) s1 (fun _ => becomes (t ++ cs) s).
Proof.
  intros [HF (junk & Hj & Hrep & Hroom) Htame] Hn. destruct cs as [|ch cs].
  - eapply total_mono; [by eapply poke_nil_spec|]. intros [] s' ->. destruct junk; [|cbn in *; lia]. by split.
  - eapply total_mono; [apply poke_spec; [by destruct HF|apply Hroom; cbn in *; lia|rewrite length_app; lia]|].
    intros [] s' HG. apply gets_room_becomes in HG as [Hrep' HF' Htame']. rewrite patch_app in Hrep' by lia.
    split; [done|by eapply frame_trans|by eapply tame_trans].
Qed.

Lemma push_back_spec ch s t : covers X (growth s (Z.of_nat (length t) + 1)) -> heap_ok (hp s) -> rep (hp s) (this s) t -> Z.of_nat (length t) + 1 < 2 ^ 64 ->
  sparing X (push_back ch) s (fun _ => becomes (t ++ [ch]) s).
Proof.
  intros HX Hok Hrep Hlt. apply strong_bind. eapply strong_mono; [by apply (expandNoinit_spec 1 true _ s t)|].
  intros i s1 [-> HG]. rewrite Nat2Z.id. by eapply grows_poke.
Qed.

(** ** Shrinking *)

Lemma shrinkMedium_spec n d cap rc bs t h : heap_ok h -> 0 < d < 2 ^ 57 -> Z.of_nat (length t) <= cap < 2 ^ 57 ->
  h !! d = Some (mkBlock rc bs) -> cap < Z.of_nat (length bs) -> holds bs t -> large_cap rc cap -> default 1 rc = 1 ->
  0 <= n <= Z.of_nat (length t) ->
  let s := mkSt h (words d (Z.of_nat (length t)) (tag cap rc)) in
  total (shrinkMedium n) s (fun _ => becomes (take (length t - Z.to_nat n) t) s).
Proof.
  intros Hok Hd Hcap Hb Hl Hh Hlc Hrc Hn s. unfold shrinkMedium. subst s.
  apply total_bind. eapply total_set_this.
  { cbn [this]. rewrite word_1 by (unfold is_uint; lia).
    destruct (Z.leb_spec n (Z.of_nat (length t))); [reflexivity|lia]. }
  cbn [hp this]. rewrite set_word_1. eapply total_of_this_bind; [done|]. cbn [this].
  rewrite word_0, word_1 by (unfold is_uint; lia).
  eapply total_put_chars; [exact Hb|cbn; lia|]. cbn [hp this chars refCount].
  set (t' := take _ t). assert (Ht' : length t' = (length t - Z.to_nat n)%nat) by (unfold t'; rewrite length_take; lia).
  replace (Z.of_nat (length t) - n) with (Z.of_nat (length t')) by lia. rewrite Nat2Z.id.
  split; cbn [hp this].
  - eapply rep_block; [done|lia|apply lookup_insert_eq|rewrite length_patch by (cbn; lia); done| |done].
    rewrite Ht'. apply holds_shrink; [done|lia].
  - eapply frame_write; [done|by apply u64_address|done..|lia|lia].
  - left. eapply sole_words; [by apply u64_address|lia|apply lookup_insert_eq|done].
Qed.

(** A new object takes the place of this one. *)
Lemma replace_spec s temp t t' s1 : heap_ok (hp s) -> rep (hp s) (this s) t ->
  rep (hp s1) temp t' -> frame (hp s) [] (hp s1) [temp] -> sole (hp s1) temp -> this s1 = this s ->
  total (swap_and_destroy temp) s1 (fun _ => becomes t' s).
Proof.
  intros Hok Hrep Hrep' HF Hsole E.
  assert (Hpos : forall p, own (this s) p <= cnt (hp s) p) by (intros; by eapply rep_own).
  eapply total_mono; [apply (swap_and_destroy_spec _ _ t); [by destruct HF|]|].
  { rewrite E. eapply rep_frame; [done| |exact HF|done]. intros p Hp. cbn. specialize (Hpos p). lia. }
  assert (Hnew : forall p, own temp p = 1 -> cnt (hp s1) p = cnt (hp s) p + 1).
  { intros p Hp. destruct HF as [_ HC _]. specialize (HC p). rewrite owns_single, Hp in HC. cbn in HC. lia. }
  rewrite E. intros [] s2 [Hs2 HF2]. split; [rewrite Hs2|rewrite Hs2; by eapply frame_replace|].
  - eapply rep_frame; [by destruct HF| |exact HF2|done].
    intros p Hp. rewrite owns_single, (Hnew p Hp). specialize (Hpos p). lia.
  - left. rewrite Hs2. intros p Hp. specialize (Hpos p). pose proof (own_nonneg (this s) p).
    destruct HF2 as [_ HC _]. specialize (HC p). rewrite owns_single in HC. cbn [owns] in HC.
    rewrite (Hsole p Hp) in *. pose proof (Hnew p Hp) as Hn. rewrite (Hsole p Hp) in Hn. lia.
Qed.

Lemma shrinkLarge_spec n d cap r bs t h : heap_ok h -> 0 < d < 2 ^ 57 -> Z.of_nat (length t) <= cap < 2 ^ 57 ->
  h !! d = Some (mkBlock (Some r) bs) -> cap < Z.of_nat (length bs) -> holds bs t -> 254 < cap -> 0 <= n <= Z.of_nat (length t) ->
  let s := mkSt h (words d (Z.of_nat (length t)) (tag cap (Some r))) in
  strong (shrinkLarge n) s (fun _ => becomes (take (length t - Z.to_nat n) t) s).
Proof.
  intros Hok Hd Hcap Hb Hl Hh Hlc Hn s. unfold shrinkLarge. eapply of_this_bind; [done|]. subst s. cbn [this].
  rewrite word_0, word_1 by (unfold is_uint; lia). destruct (Z.ltb_spec (Z.of_nat (length t)) n); [lia|].
  destruct (Z.eqb_spec n 0) as [->|]; cbn [negb].
  { apply strong_ret. cbn [Z.to_nat]. rewrite Nat.sub_0_r, take_ge by done. split; [by eapply rep_block|by apply frame_refl|by right]. }
  apply strong_pure_bind, total_strong. eapply total_access; [cbn [hp]; by rewrite Hb|]. split; [done|]. cbn [chars].
  apply strong_bind. unfold construct. apply strong_bind. apply call_strong. cbn [hp this].
  assert (readable d bs (Z.of_nat (length t) - n)).
  { split_and!; [lia..|]. intros _ ?. pose proof (Nat.div_mod (Z.to_nat (Z.of_nat (length t) - n) + 7) 8). lia. }
  eapply strong_mono; [apply fbstring_core_spec; [done|done|apply stack_bytes_law|done]|].
  intros [] s1 [[Hrep' HF] Hsole]. cbn [hp this] in *. apply total_ret. cbn [snd].
  replace (take (length t - Z.to_nat n) t) with (take (Z.to_nat (Z.of_nat (length t) - n)) bs).
  - by eapply replace_spec; [|eapply rep_block|..].
  - destruct Hh as (rest & ->). rewrite take_app_le by lia. f_equal. lia.
Qed.

(** An object of its own shrinks without an allocation. *)
Lemma shrink_room_spec n s t m : heap_ok (hp s) -> room (hp s) (this s) t m -> 0 <= n <= Z.of_nat (length t) ->
  total (shrink n) s (fun _ => becomes (take (length t - Z.to_nat n) t) s).
Proof.
  intros Hok Hroom Hn. unfold shrink. eapply total_of_this_bind; [done|]. destruct s as [h c]. cbn [hp this] in *.
  destruct Hroom as [c t m Hl Ht Hlast Hh Hm|d cap rc bs t m Hd Hcap Hb Hl Hh Hlc Hrc Hm].
  - assert (Hs : small c) by (eexists; split; [|done]; lia).
    eapply total_of_this_bind; [by apply small_category|]. eapply total_of_this_bind; [by apply smallSize_spec|].
    destruct (Z.leb_spec n (Z.of_nat (length t))); [|lia]. apply setSmallSize_spec; [lia|]. cbn [hp this].
    set (t' := take _ t). assert (Ht' : length t' = (length t - Z.to_nat n)%nat) by (unfold t'; rewrite length_take; lia).
    replace (Z.to_nat (Z.of_nat (length t) - n)) with (length t') by lia. split; cbn [hp this].
    + apply rep_sized; [done|lia|]. rewrite Ht'. destruct Hh as (rest & ->). by rewrite take_app_le by lia.
    + apply frame_from_small; [done|]. apply frame_to_small; [apply sized_small; [done|lia]|by apply frame_refl].
    + left. apply small_sole, sized_small; [done|lia].
  - eapply total_of_this_bind; [apply category_words; lia|].
    destruct rc as [r|]; cbn [kind]; [|by eapply shrinkMedium_spec].
    rewrite word_0 by (by apply u64_address). apply total_bind. eapply total_refs; [done..|].
    cbn in Hrc. subst r. cbn. by eapply shrinkMedium_spec.
Qed.

(** An object is of its own, or shares its block. *)
Lemma rep_room h c t : heap_ok h -> rep h c t -> room h c t (Z.of_nat (length t)) \/
  exists d cap r bs, c = words d (Z.of_nat (length t)) (tag cap (Some r)) /\ 0 < d < 2 ^ 57 /\
    Z.of_nat (length t) <= cap < 2 ^ 57 /\ h !! d = Some (mkBlock (Some r) bs) /\ cap < Z.of_nat (length bs) /\
    holds bs t /\ 254 < cap /\ 1 < r.
Proof.
  intros Hok Hrep. destruct (rep_inv _ _ _ Hrep) as [Hs|(d & cap & rc & bs & -> & Hd & Hcap & Hb & Hl & Hh & Hlc)].
  - left. destruct (rep_small_inv _ _ _ Hrep Hs) as (_ & ? & _). by apply rep_small_room; [..|lia].
  - destruct (decide (1 < default 1 rc)) as [Hr|Hr].
    + right. destruct rc as [r|]; [|done]. by exists d, cap, r, bs.
    + left. eapply room_unique; [done..|lia].
Qed.

Lemma shrink_spec n s t : heap_ok (hp s) -> rep (hp s) (this s) t -> 0 <= n <= Z.of_nat (length t) ->
  strong (shrink n) s (fun _ => becomes (take (length t - Z.to_nat n) t) s).
Proof.
  intros Hok Hrep Hn.
  destruct (rep_room _ _ _ Hok Hrep) as [|(d & cap & r & bs & Ec & Hd & Hcap & Hb & Hl & Hh & Hlc & Hr)].
  { by eapply total_strong, shrink_room_spec. }
  unfold shrink. eapply of_this_bind; [done|]. destruct s as [h c]. cbn [hp this] in *. subst c.
  eapply of_this_bind; [apply category_words; lia|]. cbn [kind this].
  rewrite word_0 by (by apply u64_address). eapply refs_bind; [done..|].
  destruct (Z.eqb_spec r 1); [lia|]. by eapply shrinkLarge_spec.
Qed.
End Spec.
