(* ===== verification/FBString.v ===== *)
(** The string class: [basic_fbstring<char>] of [FBString.h] over [fbstring_core].

    A method runs on the object [this] and the heap.  Arguments that point to characters are
    pointers, because they may point into the string itself: a pointer to memory that no string
    writes carries the bytes from there on, one into the object is an offset, and one into a block
    is the address of the block and an offset.  Other strings are passed as their objects. *)
From S2P Require Import Prelude FBStringCore.
Import Core.

Inductive ptr := External (bytes : list Z) | InThis (i : Z) | InHeap (p i : Z).

Definition ptr_add (s : ptr) (k : Z) : ptr :=
  match s with
  | External l => External (drop (Z.to_nat k) l)
  | InThis i => InThis (i + k)
  | InHeap p i => InHeap p (i + k)
  end.

Section FBString.
Context `{!Platform}.

(** ** Pointers *)

(** The bytes that [memcpy], [memmove] and [std::copy] read. *)
Definition read_ptr (s : ptr) (n : Z) : op (list Z) :=
  match s with
  | External l => access (fun _ => if decide (Z.to_nat n <= length l)%nat then Some (take (Z.to_nat n) l) else None)
  | InThis i => of_this (fun c => if decide (Z.to_nat i + Z.to_nat n <= length c)%nat
                                  then Some (take (Z.to_nat n) (drop (Z.to_nat i) c)) else None)
  | InHeap p i => get_chars p (Z.to_nat i) (Z.to_nat n)
  end.

(** [data()] of this object, and of another one. *)
Definition data (c : core) : option ptr :=
  cat ← category c; Some (match cat with isSmall => InThis 0 | _ => InHeap (data_ c) 0 end).

Definition data_of (c : core) : option ptr :=
  cat ← category c; Some (match cat with isSmall => External c | _ => InHeap (data_ c) 0 end).

(** A pointer of this object as another object sees it. *)
Definition outside (c : core) (s : ptr) : ptr :=
  match s with InThis i => External (drop (Z.to_nat i) c) | _ => s end.

(** The distance of two pointers into the same memory. *)
Definition distance (s base : ptr) : option Z :=
  match base, s with
  | InThis i, InThis j => Some (j - i)
  | InHeap p i, InHeap q j => if p =? q then Some (j - i) else None
  | _, _ => None
  end.

Definition enforce (condition : bool) : op unit := if condition then mret tt else throw out_of_range.

Definition procrustes (n nmax : Z) : Z := if nmax <? n then nmax else n.

(** [memset] of [n] characters at index [i]. *)
Definition podFill (i n ch : Z) : op unit :=
  cat ← of_this category;
  writable ← (match cat with
              | isSmall => mret 24
              | _ => d ← of_this (fun c => Some (data_ c)); access (fun s => b ← hp s !! d; Some (Z.of_nat (length (chars b))))
              end);
  if i + n <=? writable then poke (Z.to_nat i) (replicate (Z.to_nat n) ch) else undefined.

(** ** Size *)

Definition resize (n ch : Z) : op unit :=
  size ← of_this size;
  if n <=? size then shrink (size - n)
  else
    let delta := n - size in
    i ← expandNoinit delta false FBSTRING_DISABLE_SSO;
    podFill i delta ch.

Definition clear : op unit := resize 0 0.

Definition pop_back : op unit := shrink 1.

Definition fb_reserve (res_arg : Z) : op unit :=
  if res_arg <=? 2 ^ 64 - 1 then reserve res_arg FBSTRING_DISABLE_SSO else throw (length_error res_arg).

(** [front() = c]. *)
Definition set_front (ch : Z) : op unit := _ ← mutableData; poke 0 [ch].

(** ** Construction *)

Definition or_destroy (f : op unit) : op unit := fun s =>
  match f s with
  | Some (s', Err e) => match destroy s' with Some (s'', Ok _) => Some (s'', Err e) | _ => None end
  | r => r
  end.

Definition basic_fbstring_fill (n ch : Z) : op unit :=
  _ ← reset;
  or_destroy (i ← expandNoinit n false FBSTRING_DISABLE_SSO; podFill i n ch).

(** [address] is where the characters are, for the alignment that the constructor looks at. *)
Definition basic_fbstring (address : Z) (bytes : list Z) (n : Z) : op unit :=
  fbstring_core address bytes n FBSTRING_DISABLE_SSO.

(** The constructor from [n] characters at index [pos] of an object.  An object is aligned. *)
Definition basic_fbstring_of (c : core) (pos n : Z) : op unit :=
  cat ← access (fun _ => category c);
  match cat with
  | isSmall => basic_fbstring (8 + pos) (drop (Z.to_nat pos) c) n
  | _ =>
      b ← access (fun s => hp s !! data_ c);
      basic_fbstring (data_ c + pos) (drop (Z.to_nat pos) (chars b ++ padding)) n
  end.

(** [substr] of a string that stays, as the constructor of the result. *)
Definition substr (c : core) (pos n : Z) : op unit :=
  sz ← access (fun _ => size c);
  _ ← enforce (pos <=? sz);
  basic_fbstring_of c pos (Z.min n (sz - pos)).

Definition shrink_to_fit : op unit :=
  c ← of_this Some;
  cap ← capacity c;
  sz ← of_this size;
  if cap <? u64 (sz * 3) / 2 then mret tt
  else
    temp ← construct (basic_fbstring_of c 0 sz);
    swap_and_destroy temp.

(** ** Modifiers *)

Definition append (s : ptr) (n : Z) : op unit :=
  if n =? 0 then mret tt
  else
    oldSize ← of_this size;
    oldData ← of_this data;
    i ← expandNoinit n true FBSTRING_DISABLE_SSO;
    cs ← (match distance s oldData with
          | Some k =>
              if (0 <=? k) && (k <? oldSize) then c ← of_this Some; peek c (Z.to_nat k) (Z.to_nat n)
              else read_ptr s n
          | None => read_ptr s n
          end);
    poke (Z.to_nat i) cs.

Definition append_fill (n ch : Z) : op unit :=
  i ← expandNoinit n true FBSTRING_DISABLE_SSO; podFill i n ch.

(** A string as an argument, which may be this string. *)
Inductive arg := This | Other (c : core).

Definition arg_core (str : arg) : op core :=
  match str with This => of_this Some | Other c => mret c end.

Definition arg_data (str : arg) : op ptr :=
  match str with This => of_this data | Other c => access (fun _ => data_of c) end.

Definition append_str (str : arg) : op unit :=
  c ← arg_core str;
  s ← arg_data str; n ← access (fun _ => size c);
  append s n.

Definition append_substr (str : arg) (pos n : Z) : op unit :=
  c ← arg_core str;
  sz ← access (fun _ => size c);
  _ ← enforce (pos <=? sz);
  s ← arg_data str;
  append (ptr_add s pos) (procrustes n (sz - pos)).

Definition assign (s : ptr) (n : Z) : op unit :=
  if n =? 0 then resize 0 0
  else
    sz ← of_this size;
    if n <=? sz then
      _ ← mutableData;
      cs ← read_ptr s n;
      _ ← poke 0 cs;
      sz ← of_this size;
      shrink (sz - n)
    else
      _ ← resize 0 0;
      i ← expandNoinit n false FBSTRING_DISABLE_SSO;
      cs ← read_ptr s n;
      poke (Z.to_nat i) cs.

Definition assign_substr (str : arg) (pos n : Z) : op unit :=
  c ← arg_core str;
  sz ← access (fun _ => size c);
  _ ← enforce (pos <=? sz);
  s ← arg_data str;
  assign (ptr_add s pos) (procrustes n (sz - pos)).

(** [operator=] of a string, and of a string that is moved from. *)
Definition assign_copy (lhs : arg) : op unit :=
  match lhs with
  | This => mret tt
  | Other c => s ← access (fun _ => data_of c); n ← access (fun _ => size c); assign s n
  end.

Definition assign_move (goner : arg) : op (option core) :=
  match goner with
  | This => mret None
  | Other c => _ ← destroy; g ← fbstring_core_move c; mret (Some g)
  end.

Definition assign_char (ch : Z) : op unit :=
  n ← of_this size;
  if n =? 0 then _ ← expandNoinit 1 false FBSTRING_DISABLE_SSO; set_front ch
  else
    c ← of_this Some;
    shared ← isShared c;
    if shared : bool then
      temp ← construct (basic_fbstring_fill 1 ch);
      swap_and_destroy temp
    else _ ← shrink (n - 1); set_front ch.

(** [insert] of [n] characters [ch], and of the characters at [s]; the iterator is its index. *)
Definition insertImplDiscr (pos n ch : Z) : op unit :=
  oldSize ← of_this size;
  _ ← expandNoinit n true FBSTRING_DISABLE_SSO;
  _ ← mutableData;
  c ← of_this Some;
  tail ← peek c (Z.to_nat pos) (Z.to_nat (oldSize - pos));
  _ ← poke (Z.to_nat (pos + n)) tail;
  podFill pos n ch.

Definition insertImpl (pos : Z) (s1 : ptr) (n : Z) : op unit :=
  oldSize ← of_this size;
  _ ← expandNoinit n true FBSTRING_DISABLE_SSO;
  _ ← mutableData;
  c ← of_this Some;
  tail ← peek c (Z.to_nat pos) (Z.to_nat (oldSize - pos));
  _ ← poke (Z.to_nat (pos + n)) tail;
  cs ← read_ptr s1 n;
  poke (Z.to_nat pos) cs.

Definition insert_fill (pos n ch : Z) : op unit :=
  sz ← of_this size;
  _ ← enforce (pos <=? sz);
  _ ← mutableData;
  insertImplDiscr pos n ch.

Definition insert (pos : Z) (s : ptr) (n : Z) : op unit :=
  sz ← of_this size;
  _ ← enforce (pos <=? sz);
  _ ← mutableData;
  insertImpl pos s n.

Definition insert_str (pos1 : Z) (str : arg) : op unit :=
  c ← arg_core str;
  s ← arg_data str; n ← access (fun _ => size c);
  insert pos1 s n.

Definition erase (pos n : Z) : op unit :=
  sz ← of_this size;
  _ ← enforce (pos <=? sz);
  let n := procrustes n (sz - pos) in
  _ ← mutableData;
  c ← of_this Some;
  tail ← peek c (Z.to_nat (pos + n)) (Z.to_nat (sz - (pos + n)));
  _ ← poke (Z.to_nat pos) tail;
  resize (sz - n) 0.

(** [replace] of the characters from [i1] on, [n1] of them. *)
Definition replace_fill (i1 n1 n2 ch : Z) : op unit :=
  if n2 <? n1 then _ ← podFill i1 n2 ch; erase (i1 + n2) (n1 - n2)
  else _ ← podFill i1 n1 ch; insertImplDiscr (i1 + n1) (n2 - n1) ch.

(** [append] of a range goes through [insert] at the end. *)
Definition append_range (s : ptr) (n : Z) : op unit :=
  _ ← mutableData; sz ← of_this size; insertImpl sz s n.

Definition replaceAliased (i1 n1 : Z) (s1 : ptr) (n2 : Z) : op bool :=
  _ ← mutableData;
  c ← of_this Some;
  b ← of_this data;
  sz ← of_this size;
  let aliased := match distance s1 b with Some k => (0 <=? k) && (k <=? sz) | None => false end in
  if negb aliased then mret false
  else
    temp ← construct reset;
    r ← local_call temp (_ ← fb_reserve (sz - n1 + n2);
                         _ ← append_range (outside c b) i1;
                         _ ← append_range (outside c s1) n2;
                         append_range (outside c (ptr_add b (i1 + n1))) (sz - (i1 + n1)));
    _ ← swap_and_destroy r.2;
    mret true.

Definition replaceImpl (i1 n1 : Z) (s1 : ptr) (n2 : Z) : op unit :=
  done ← replaceAliased i1 n1 s1 n2;
  if done : bool then mret tt
  else if n2 <? n1 then
    cs ← read_ptr s1 n2;
    _ ← poke (Z.to_nat i1) cs;
    erase (i1 + n2) (n1 - n2)
  else
    cs ← read_ptr s1 n1;
    _ ← poke (Z.to_nat i1) cs;
    insertImpl (i1 + n1) (ptr_add s1 n1) (n2 - n1).

Definition replace (pos n1 : Z) (s : ptr) (n2 : Z) : op unit :=
  sz ← of_this size;
  _ ← enforce (pos <=? sz);
  _ ← mutableData;
  replaceImpl pos (procrustes n1 (sz - pos)) s n2.

Definition replace_chars (pos n1 n2 ch : Z) : op unit :=
  sz ← of_this size;
  _ ← enforce (pos <=? sz);
  _ ← mutableData;
  replace_fill pos (procrustes n1 (sz - pos)) n2 ch.

(** ** Access *)

(** A store through the pointer that [data()] of a string that is not const returns. *)
Definition data_store (i : nat) (ch : Z) : op unit := poke i [ch].

(** A store through the reference that [at] of a string that is not const returns. *)
Definition at_store (n ch : Z) : op unit :=
  sz ← of_this size;
  _ ← enforce (n <? sz);
  _ ← mutableData;
  poke (Z.to_nat n) [ch].

Definition at_index (c : core) (n : Z) : op Z :=
  sz ← access (fun _ => size c);
  _ ← enforce (n <? sz);
  cs ← peek c (Z.to_nat n) 1;
  access (fun _ => head cs).

(** The characters that [copy] stores. *)
Definition copy (c : core) (n pos : Z) : op (list Z) :=
  sz ← access (fun _ => size c);
  _ ← enforce (pos <=? sz);
  let n := procrustes n (sz - pos) in
  if negb (n =? 0) then peek c (Z.to_nat pos) (Z.to_nat n) else mret [].

(** [operator+] of two strings, as the constructor of the result. *)
Definition operator_plus (lhs rhs : core) : op unit :=
  _ ← reset;
  or_destroy (
    n1 ← access (fun _ => size lhs); n2 ← access (fun _ => size rhs);
    _ ← fb_reserve (u64 (n1 + n2));
    _ ← append_str (Other lhs);
    append_str (Other rhs)).
End FBString.
