(* ===== verification/FBStringSpec.v ===== *)
(** The methods of [basic_fbstring] on texts: size, construction and the modifiers. *)
From S2P Require Import Prelude FBStringCore FBStringInv FBStringCoreSpec FBStringRoom FBStringSize FBString.
Import Core.

Section Spec.
Context {PF : Platform} {PL : PlatformLaws}.

(** ** Writing *)

Lemma becomes_ok t s s' : becomes t s s' -> heap_ok (hp s').
Proof. by intros [_ [] _]. Qed.

(** What [podFill] may write: it is a [poke] of copies of a character. *)
Lemma podFill_spec i n ch s t (Q : unit -> st -> Prop) : rep (hp s) (this s) t -> 0 <= i -> 0 <= n ->
  i + n <= Z.of_nat (length t) ->
  total (poke (Z.to_nat i) (replicate (Z.to_nat n) ch)) s Q -> total (podFill i n ch) s Q.
Proof.
  intros Hrep Hi Hn Hle HQ. unfold podFill. destruct s as [h c]. cbn [hp this] in *.
  destruct (rep_inv _ _ _ Hrep) as [Hs|(d & cap & rc & bs & -> & Hd & Hcap & Hb & Hl & Hh & Hlc)].
  - destruct (rep_small_inv _ _ _ Hrep Hs) as (_ & Ht & _).
    eapply total_of_this_bind; [by apply small_category|]. apply total_bind, total_ret.
    destruct (Z.leb_spec (i + n) 24); [done|lia].
  - eapply total_of_this_bind; [apply category_words; lia|]. destruct rc; cbn [kind];
      (apply total_bind; eapply total_of_this_bind; [cbn [this]; rewrite word_0 by (by apply u64_address); done|];
       eapply total_access; [cbn [hp]; by rewrite Hb|]; cbn [chars];
       destruct (Z.leb_spec (i + n) (Z.of_nat (length bs))); [done|lia]).
Qed.

Lemma grows_podFill t n ch s s1 : grows t n s s1 -> 0 <= n ->
  total (podFill (Z.of_nat (length t)) n ch) s1 (fun _ => becomes (t ++ replicate (Z.to_nat n) ch) s).
Proof.
  intros HG Hn. destruct (HG) as [_ (junk & Hj & Hrep & _) _].
  eapply podFill_spec; [done|lia|lia|rewrite length_app; lia|]. rewrite Nat2Z.id.
  eapply grows_poke; [done|]. rewrite length_replicate. lia.
Qed.

(** ** Size *)

(** [resize] of a text. *)
Definition resized (t : list Z) (n : nat) (ch : Z) : list Z := take n t ++ replicate (n - length t) ch.

Lemma resize_spec n ch s t : heap_ok (hp s) -> rep (hp s) (this s) t -> 0 <= n < 2 ^ 64 ->
  strong (resize n ch) s (fun _ => becomes (resized t (Z.to_nat n) ch) s).
Proof.
  intros Hok Hrep Hn. unfold resize, resized. eapply of_this_bind; [by eapply size_spec|].
  destruct (Z.leb_spec n (Z.of_nat (length t))).
  - eapply strong_mono; [apply (shrink_spec _ s t); [done..|lia]|]. intros [] s'.
    replace (Z.to_nat n - length t)%nat with 0%nat by lia. cbn [replicate]. rewrite app_nil_r.
    replace (length t - Z.to_nat (Z.of_nat (length t) - n))%nat with (Z.to_nat n) by lia. done.
  - cbv zeta. apply strong_bind. eapply strong_mono; [apply (expandNoinit_spec _ _ _ s t); [done..|lia|lia]|].
    intros i s1 [-> HG]. eapply total_mono; [apply grows_podFill; [done|lia]|]. intros [] s'.
    rewrite (take_ge t) by lia. by replace (Z.to_nat (n - Z.of_nat (length t))) with (Z.to_nat n - length t)%nat by lia.
Qed.

Lemma fb_reserve_spec {X} n s t : covers X (demand s n) -> heap_ok (hp s) -> rep (hp s) (this s) t -> 0 <= n < 2 ^ 64 ->
  (FOLLY_SANITIZE_ADDRESS = true -> Z.of_nat (length t) <= n) ->
  sparing X (fb_reserve n) s (fun _ => gets_room t n s).
Proof.
  intros HX Hok Hrep Hn Hs. unfold fb_reserve. destruct (Z.leb_spec n (2 ^ 64 - 1)); [|lia]. apply reserve_spec; [done..|lia].
Qed.

(** A store into a string that is made unshared before. *)
Lemma store_spec i ch s t : heap_ok (hp s) -> rep (hp s) (this s) t -> (i < length t)%nat ->
  strong (mutableData ≫= fun _ => poke i [ch]) s (fun _ => becomes (patch i [ch] t) s).
Proof.
  intros Hok Hrep Ht. apply strong_bind. eapply strong_mono; [by apply mutableData_spec|].
  intros [] s1 [HR HF _]. eapply total_mono; [apply poke_spec; [by destruct HF|done|cbn; lia]|].
  intros [] s2 HG. apply gets_room_becomes in HG as [? HF2 ?].
  split; [done|by eapply frame_trans|]. eapply tame_trans; [left; by eapply room_sole|done|done].
Qed.

Lemma set_front_spec ch s t : heap_ok (hp s) -> rep (hp s) (this s) t -> (0 < length t)%nat ->
  strong (set_front ch) s (fun _ => becomes (ch :: drop 1 t) s).
Proof. apply (store_spec 0). Qed.

Lemma at_store_spec n ch s t : heap_ok (hp s) -> rep (hp s) (this s) t -> 0 <= n < Z.of_nat (length t) ->
  strong (at_store n ch) s (fun _ => becomes (<[Z.to_nat n := ch]> t) s).
Proof.
  intros Hok Hrep Hn. unfold at_store. eapply of_this_bind; [by eapply size_spec|]. rewrite (proj2 (Z.ltb_lt _ _)) by lia.
  rewrite insert_take_drop by lia. replace (S (Z.to_nat n)) with (Z.to_nat n + length [ch])%nat by (cbn; lia).
  apply strong_pure_bind, strong_ret. split; [done|]. apply store_spec; [done..|lia].
Qed.

Lemma at_index_spec c n s t : rep (hp s) c t -> 0 <= n ->
  at_index c n s = match t !! Z.to_nat n with Some ch => Some (s, Ok ch) | None => Some (s, Err out_of_range) end.
Proof.
  intros Hrep Hn. unfold at_index, access. rewrite M_bind_unfold, (size_spec _ _ _ Hrep). rewrite M_bind_unfold.
  destruct (Z.ltb_spec n (Z.of_nat (length t))) as [Hlt|Hge].
  - destruct (lookup_lt_is_Some_2 t (Z.to_nat n)) as [ch Hch]; [lia|]. rewrite Hch. cbn. rewrite M_bind_unfold.
    assert (Hp : total (peek c (Z.to_nat n) 1) s (fun cs s' => cs = [ch] /\ s' = s)).
    { eapply peek_spec; [done|lia|]. by rewrite (drop_S t ch) by done. }
    unfold total, outcome in Hp. destruct (peek _ _ _ _) as [[s' [cs|]]|]; [|done..]. by destruct Hp as [-> ->].
  - by rewrite (proj2 (lookup_ge_None t (Z.to_nat n))) by lia.
Qed.

(** ** Sources *)

(** Characters that no change of this object touches. *)
Definition stable (s : st) (p : ptr) (l : list Z) : Prop :=
  match p with
  | External bytes => take (length l) bytes = l
  | InThis _ => False
  | InHeap q i => 0 <= i /\ exists b, hp s !! q = Some b /\ own (this s) q < cnt (hp s) q /\
                  (Z.to_nat i + length l <= length (chars b))%nat /\ take (length l) (drop (Z.to_nat i) (chars b)) = l
  end.

(** ... and that are not in a block of this object either. *)
Definition apart (s : st) (p : ptr) (l : list Z) : Prop :=
  stable s p l /\ match p with InHeap q _ => own (this s) q = 0 | _ => True end.

(** Characters of this object. *)
Definition inside (s : st) (t : list Z) (p : ptr) (l : list Z) : Prop :=
  exists q k, data (this s) = Some q /\ distance p q = Some k /\ 0 <= k /\
    k + Z.of_nat (length l) <= Z.of_nat (length t) /\ l = take (length l) (drop (Z.to_nat k) t).

Lemma stable_frame s s' p l : frame (hp s) [this s] (hp s') [this s'] -> stable s p l -> stable s' p l.
Proof.
  intros [_ C O]. destruct p as [bytes|i|q i]; cbn; [done|done|].
  intros (Hi & b & Hb & Hlt & Hl & Ht). split; [done|].
  specialize (C q). specialize (O q b Hb). rewrite !owns_single in *.
  destruct O as (b' & Hb' & Hc & _); [done|]. exists b'. rewrite Hc. split_and!; [done|lia|done|done].
Qed.

Lemma take_length_le {A} (l l' : list A) : take (length l) l' = l -> (length l <= length l')%nat.
Proof. intros E. rewrite <- E at 1. rewrite length_take. lia. Qed.

Lemma read_ptr_stable s p l (Q : list Z -> st -> Prop) : stable s p l -> Q l s ->
  total (read_ptr p (Z.of_nat (length l))) s Q.
Proof.
  destruct p as [bytes|i|q i]; cbn; [| done|].
  - intros Ht HQ. eapply total_access; [rewrite decide_True by (rewrite Nat2Z.id; by apply take_length_le); done|].
    by rewrite Nat2Z.id, Ht.
  - intros (Hi & b & Hb & _ & Hl & Ht) HQ. eapply total_get_chars; [done|by rewrite Nat2Z.id|]. by rewrite Nat2Z.id, Ht.
Qed.

(** ** Appending *)

Lemma data_small c : small c -> data c = Some (InThis 0).
Proof. intros Hs. unfold data. by rewrite (small_category c Hs). Qed.

Lemma data_words d n cap rc : is_u64 d -> 0 <= cap < 2 ^ 57 -> data (words d n (tag cap rc)) = Some (InHeap d 0).
Proof. intros. unfold data. rewrite category_words, word_0 by done. by destruct rc. Qed.

Lemma rep_data h c t : rep h c t -> exists q, data c = Some q.
Proof.
  intros Hrep. destruct (rep_inv _ _ _ Hrep) as [Hs|(d & cap & rc & bs & -> & Hd & Hcap & _)].
  - eexists. by apply data_small.
  - eexists. apply data_words; [by apply u64_address|lia].
Qed.

(** A source that is apart is not compared equal. *)
Lemma apart_distance s t p l q : rep (hp s) (this s) t -> apart s p l -> data (this s) = Some q -> distance p q = None.
Proof.
  intros Hrep [Hst Hap]. destruct (rep_inv _ _ _ Hrep) as [Hs|(d & cap & rc & bs & Ec & Hd & Hcap & _)].
  - rewrite data_small by done. intros [= <-]. by destruct p.
  - rewrite Ec, data_words by (by apply u64_address || lia). intros [= <-]. destruct p as [|i|q i]; [done|done|]. cbn.
    rewrite Ec, own_words in Hap by (by apply u64_address || lia). by destruct (Z.eqb_spec d q).
Qed.

Lemma append_spec p l s t : heap_ok (hp s) -> rep (hp s) (this s) t -> apart s p l \/ inside s t p l ->
  Z.of_nat (length t) + Z.of_nat (length l) < 2 ^ 64 ->
  strong (append p (Z.of_nat (length l))) s (fun _ => becomes (t ++ l) s).
Proof.
  intros Hok Hrep Hsrc Hlt. unfold append. destruct (Z.eqb_spec (Z.of_nat (length l)) 0).
  { destruct l; [|cbn in *; lia]. apply strong_ret. rewrite app_nil_r. by apply becomes_refl. }
  eapply of_this_bind; [by eapply size_spec|]. destruct (rep_data _ _ _ Hrep) as (q & Hq).
  eapply of_this_bind; [done|].
  apply strong_bind. eapply strong_mono; [apply (expandNoinit_spec _ _ _ s t); [done..|lia|lia]|].
  intros i s1 [-> HG]. apply total_bind. rewrite Nat2Z.id.
  assert (Hcs : total (match distance p q with
          | Some k =>
              if (0 <=? k) && (k <? Z.of_nat (length t)) then c ← of_this Some; peek c (Z.to_nat k) (length l)
              else read_ptr p (Z.of_nat (length l))
          | None => read_ptr p (Z.of_nat (length l))
          end) s1 (fun cs s2 => cs = l /\ s2 = s1)).
  - destruct Hsrc as [Hap|(q' & k & Hq' & Hk & Hk0 & Hkl & Hl)].
    + rewrite (apart_distance _ _ _ _ _ Hrep Hap Hq). apply read_ptr_stable; [|done].
      eapply stable_frame; [by destruct HG|]. by destruct Hap.
    + replace q' with q in Hk by congruence. rewrite Hk.
      destruct (Z.leb_spec 0 k), (Z.ltb_spec k (Z.of_nat (length t))); [|lia..]. cbn [andb].
      eapply total_of_this_bind; [done|]. destruct HG as [_ (junk & _ & Hrep' & _) _].
      eapply peek_spec; [done|rewrite length_app; lia|]. split; [|done].
      rewrite drop_app_le, take_app_le by (rewrite ?length_drop; lia). done.
  - eapply total_mono; [exact Hcs|]. intros cs s2 [-> ->]. rewrite Nat2Z.id. by eapply grows_poke.
Qed.

Lemma append_fill_spec n ch s t : heap_ok (hp s) -> rep (hp s) (this s) t -> 0 <= n ->
  Z.of_nat (length t) + n < 2 ^ 64 ->
  strong (append_fill n ch) s (fun _ => becomes (t ++ replicate (Z.to_nat n) ch) s).
Proof.
  intros Hok Hrep Hn Hlt. apply strong_bind. eapply strong_mono; [by apply (expandNoinit_spec n true _ s t)|].
  intros i s1 [-> HG]. by apply grows_podFill.
Qed.

(** ** Assigning *)

(** Characters of this object are read where they are, or are shared with another object. *)
Lemma inside_cases s t p l : heap_ok (hp s) -> rep (hp s) (this s) t -> inside s t p l ->
  (room (hp s) (this s) t (Z.of_nat (length t)) /\
   total (read_ptr p (Z.of_nat (length l))) s (fun cs s' => cs = l /\ s' = s)) \/ stable s p l.
Proof.
  intros Hok Hrep (q & k & Hq & Hk & Hk0 & Hkl & El).
  destruct (rep_inv _ _ _ Hrep) as [Hs|(d & cap & rc & bs & Ec & Hd & Hcap & Hb & Hl & Hh & Hlc)].
  - left. destruct (rep_small_inv _ _ _ Hrep Hs) as (Hc & Ht & _ & Hh). split; [by apply rep_small_room; [..|lia]|].
    rewrite data_small in Hq by done. injection Hq as <-. destruct p as [|j|]; try done. injection Hk as <-.
    pose proof (holds_length _ _ Hh).
    eapply total_of_this; [rewrite decide_True by lia; done|]. split; [|done].
    rewrite Nat2Z.id, (holds_text _ t) by (done || lia). by rewrite Z.sub_0_r in El.
  - rewrite Ec, data_words in Hq by (by apply u64_address || lia). injection Hq as <-.
    destruct p as [|j|q j]; try done. cbn in Hk. destruct (Z.eqb_spec d q) as [<-|]; [|done]. injection Hk as <-.
    rewrite Z.sub_0_r in *. pose proof (holds_length _ _ Hh).
    assert (Htake : take (length l) (drop (Z.to_nat j) bs) = l) by (rewrite (holds_text _ t) by (done || lia); done).
    destruct (decide (1 < default 1 rc)) as [Hr|Hr].
    + right. split; [lia|]. exists (mkBlock rc bs). rewrite Ec, own_words, Z.eqb_refl, (cnt_lookup _ _ _ Hb) by (by apply u64_address || lia).
      split_and!; [done|done|cbn; lia|done].
    + left. split; [rewrite Ec; eapply room_unique; [done..|lia]|].
      eapply total_get_chars; [done|cbn; lia|]. split; [by rewrite Nat2Z.id|done].
Qed.

(** Returns, or throws with one of the texts [E]. *)
Definition guards {A} (E : list Z -> Prop) (m : op A) (s : st) (Q : A -> st -> Prop) : Prop :=
  outcome m s (fun r s' => match r with
    | Ok a => Q a s'
    | Err e => (exists t', E t' /\ becomes t' s s') /\ justified e
    end).

Lemma strong_guards {A} (E : list Z -> Prop) (m : op A) s t (Q : A -> st -> Prop) :
  heap_ok (hp s) -> rep (hp s) (this s) t -> E t -> strong m s Q -> guards E m s Q.
Proof.
  intros Hok Hrep HE H. eapply outcome_mono; [exact H|]. intros [] s'; cbn; [done|]. intros (-> & ? & _).
  split; [|done]. exists t. split; [done|by apply becomes_refl].
Qed.

Lemma guards_bind {A B} E (m : op A) (f : A -> op B) s (Q : B -> st -> Prop) :
  guards E m s (fun a s1 => exists t1, becomes t1 s s1 /\ guards E (f a) s1 Q) -> guards E (m ≫= f) s Q.
Proof.
  intros H. apply outcome_bind. eapply outcome_mono; [exact H|]. intros [a|e] s1; cbn; [|done].
  intros (t1 & HB & Hf). eapply outcome_mono; [exact Hf|]. intros [b|e] s2; cbn; [done|].
  intros [(t2 & HE & HB2) ?]. split; [|done]. exists t2. split; [done|by eapply becomes_trans].
Qed.

Lemma guards_mono {A} (E E' : list Z -> Prop) (m : op A) s (Q Q' : A -> st -> Prop) :
  guards E m s Q -> (forall t, E t -> E' t) -> (forall a s', Q a s' -> Q' a s') -> guards E' m s Q'.
Proof. intros H HE HQ. eapply outcome_mono; [done|]. intros [] ?; cbn; naive_solver. Qed.

Lemma total_guards {A} E (m : op A) s (Q : A -> st -> Prop) : total m s Q -> guards E m s Q.
Proof. intros H. eapply outcome_mono; [exact H|]. by intros []. Qed.

(** Overwriting the front of a text. *)
Lemma overwrite_spec l s t m : heap_ok (hp s) -> room (hp s) (this s) t m -> (length l <= length t)%nat ->
  total (_ ← poke 0 l; sz ← of_this size; shrink (sz - Z.of_nat (length l))) s (fun _ => becomes l s).
Proof.
  intros Hok Hroom Hl. apply total_bind. eapply total_mono; [by apply poke_spec|].
  intros [] s1 [HR HF HS]. assert (Hp : length (patch 0 l t) = length t) by (apply length_patch; lia).
  eapply total_of_this_bind; [eapply size_spec; by eapply room_rep|]. rewrite Hp.
  eapply total_mono; [eapply shrink_room_spec; [by destruct HF|done|lia]|].
  intros [] s2 [HR2 HF2 HT2]. rewrite Hp in HR2.
  replace (length t - Z.to_nat (Z.of_nat (length t) - Z.of_nat (length l)))%nat with (length l) in HR2 by lia.
  rewrite take_patch_0, take_ge in HR2 by lia.
  split; [done|by eapply frame_trans|]. eapply tame_trans; [left; by eapply room_sole|done|done].
Qed.

Lemma guards_of_this {A B} E (f : core -> option A) (g : A -> op B) s a (Q : B -> st -> Prop) :
  f (this s) = Some a -> guards E (g a) s Q -> guards E (of_this f ≫= g) s Q.
Proof.
  intros Ef H. unfold guards. apply outcome_bind. unfold outcome, of_this, access. by rewrite Ef.
Qed.

Lemma assign_spec p l s t : heap_ok (hp s) -> rep (hp s) (this s) t -> stable s p l \/ inside s t p l ->
  Z.of_nat (length l) < 2 ^ 64 ->
  guards (fun t' => t' = t \/ t' = []) (assign p (Z.of_nat (length l))) s (fun _ => becomes l s).
Proof.
  intros Hok Hrep Hsrc Hlt. unfold assign. destruct (Z.eqb_spec (Z.of_nat (length l)) 0).
  { destruct l; [|cbn in *; lia]. eapply strong_guards; [done|done|by left|]. by eapply (resize_spec 0 0). }
  eapply guards_of_this; [by eapply size_spec|].
  destruct (Z.leb_spec (Z.of_nat (length l)) (Z.of_nat (length t))).
  - eapply strong_guards; [done|done|by left|]. apply strong_bind.
    assert (Hread : strong mutableData s (fun _ s1 => gets_room t (Z.of_nat (length t)) s s1 /\
      total (read_ptr p (Z.of_nat (length l))) s1 (fun cs s' => cs = l /\ s' = s1))).
    { assert (Hst : stable s p l -> strong mutableData s (fun _ s1 => gets_room t (Z.of_nat (length t)) s s1 /\
        total (read_ptr p (Z.of_nat (length l))) s1 (fun cs s' => cs = l /\ s' = s1))).
      { intros Hst. eapply strong_mono; [by apply mutableData_spec|]. intros [] s1 HG. split; [done|].
        apply read_ptr_stable; [|done]. eapply stable_frame; [by destruct HG|done]. }
      destruct Hsrc as [|Hin]; [by apply Hst|]. destruct (inside_cases _ _ _ _ Hok Hrep Hin) as [[HR Hread]|]; [|by apply Hst].
      apply total_strong. eapply total_mono; [by eapply mutableData_room_spec|]. intros [] s' ->. split; [|done].
      split; [done|by apply frame_refl|done]. }
    eapply strong_mono; [exact Hread|]. intros [] s1 [[HR HF HS] Hrd].
    apply total_bind. eapply total_mono; [exact Hrd|]. intros cs s' [-> ->].
    eapply total_mono; [eapply overwrite_spec; [by destruct HF|done|lia]|].
    intros [] s2 [? ? ?]. split; [done|by eapply frame_trans|]. eapply tame_trans; [left; by eapply room_sole|done|done].
  - destruct Hsrc as [Hst|(q & k & _ & _ & ? & ? & _)]; [|lia].
    apply guards_bind. eapply strong_guards; [done|done|by left|].
    eapply strong_mono; [by apply (resize_spec 0 0 s t)|]. intros [] s1 HB. exists []. split; [done|].
    destruct (HB) as [Hrep1 HF1 HT1]. eapply strong_guards; [by destruct HF1|done|by right|]. apply strong_bind.
    eapply strong_mono; [apply (expandNoinit_spec _ false _ s1 []); [done|by destruct HF1|done|lia|cbn; lia]|].
    intros i s2 [-> HG]. apply total_bind. apply read_ptr_stable.
    { eapply stable_frame; [|exact Hst]. eapply frame_trans; [done|by destruct HG]. }
    eapply total_mono; [by eapply (grows_poke [] _ l s1)|]. intros [] s3 HB3. by eapply becomes_trans.
Qed.

Lemma sole_room h c t : heap_ok h -> rep h c t -> sole h c -> room h c t (Z.of_nat (length t)).
Proof.
  intros Hok Hrep Hs. destruct (rep_room _ _ _ Hok Hrep) as [|(d & cap & r & bs & -> & Hd & Hcap & Hb & ? & ? & ? & ?)]; [done|].
  specialize (Hs d). rewrite own_words, Z.eqb_refl, (cnt_lookup _ _ _ Hb) in Hs by (by apply u64_address || lia).
  specialize (Hs eq_refl). cbn in Hs. lia.
Qed.

Lemma set_front_room_spec ch s t n : heap_ok (hp s) -> room (hp s) (this s) t n -> (0 < length t)%nat ->
  total (set_front ch) s (fun _ => becomes (ch :: drop 1 t) s).
Proof.
  intros Hok Hroom Ht. apply total_bind. eapply total_mono; [by eapply mutableData_room_spec|]. intros [] s' ->.
  eapply total_mono; [by eapply poke_spec|]. intros [] s2 HG. by apply gets_room_becomes in HG.
Qed.

(** ** Construction *)

(** Constructs the object, or throws with the heap as it was. *)
Definition ctor (m : op unit) (s : st) (Q : st -> Prop) : Prop :=
  outcome m s (fun r s' => match r with Ok _ => Q s' | Err e => hp s' = hp s /\ justified e end).

Lemma construct_spec m s (Q : core -> st -> Prop) :
  ctor m (mkSt (hp s) stack_bytes) (fun s' => Q (this s') (mkSt (hp s') (this s))) -> strong (construct m) s Q.
Proof.
  unfold ctor, sparing, outcome, construct, call. rewrite M_bind_unfold. destruct (m _) as [[s' [[]|e]]|]; [done| |done].
  cbn. intros [-> ?]. by destruct s.
Qed.

Lemma ctor_strong m s Q : strong m s (fun _ => Q) -> ctor m s Q.
Proof. intros H. eapply outcome_mono; [exact H|]. intros [] s'; cbn; [done|]. by intros (-> & ? & _). Qed.

Lemma becomes_from_small t s s' : small (this s) -> becomes t s s' -> makes_new t s s'.
Proof.
  intros Hs [HR HF HT]. split; [split; [done|]|].
  - eapply frame_owns; [..|exact HF]; [|done]. intros p. by rewrite owns_small.
  - destruct HT as [|E]; [done|]. rewrite E. by apply small_sole.
Qed.

(** A local object that is destroyed when its constructor throws. *)
Lemma or_destroy_spec f s t : heap_ok (hp s) -> small (this s) -> guards (fun _ => True) f s (fun _ => becomes t s) ->
  ctor (or_destroy f) s (makes_new t s).
Proof.
  intros Hok Hs Hf. unfold ctor, outcome, or_destroy. unfold guards, outcome in Hf.
  destruct (f s) as [[s1 [[]|e]]|]; [by apply becomes_from_small| |done].
  destruct Hf as [(t1 & _ & [HR HF _]) He].
  pose proof (destroy_spec s1 t1 ltac:(by destruct HF) HR) as Hd. unfold total, outcome in Hd.
  destruct (destroy s1) as [[s2 []]|]; [|done..]. split; [|done].
  apply frame_nil_eq; [done|]. eapply frame_owns; [| |eapply frame_trans; [exact HF|exact Hd]]; [|done].
  intros p. by rewrite owns_small.
Qed.

Lemma ctor_reset f s t : heap_ok (hp s) -> length (this s) = 24%nat ->
  (forall s0, hp s0 = hp s -> small (this s0) -> rep (hp s0) (this s0) [] -> guards (fun _ => True) f s0 (fun _ => becomes t s0)) ->
  ctor (_ ← reset; or_destroy f) s (makes_new t s).
Proof.
  intros Hok Hl Hf. unfold ctor. apply outcome_bind. eapply outcome_mono; [by apply reset_spec|].
  intros [a|e] s0; cbn; [|done]. intros (E & Hs & Hr). 
  eapply outcome_mono; [apply (or_destroy_spec f s0 t); [by rewrite E|done|by apply Hf]|].
  intros [[]|e] s1; cbn; [|by rewrite E]. unfold makes_new, makes. by rewrite E.
Qed.

Lemma basic_fbstring_fill_spec n ch s : heap_ok (hp s) -> length (this s) = 24%nat -> 0 <= n < 2 ^ 64 ->
  ctor (basic_fbstring_fill n ch) s (makes_new (replicate (Z.to_nat n) ch) s).
Proof.
  intros Hok Hl Hn. apply ctor_reset; [done..|]. intros s0 E Hs Hr. eapply strong_guards; [by rewrite E|done|done|].
  apply strong_bind. eapply strong_mono; [apply (expandNoinit_spec n false _ s0 []); [done|by rewrite E|done|lia|cbn; lia]|].
  intros i s1 [-> HG]. apply (grows_podFill [] n ch s0 s1 HG). lia.
Qed.

Lemma assign_char_spec ch s t : heap_ok (hp s) -> rep (hp s) (this s) t ->
  strong (assign_char ch) s (fun _ => becomes [ch] s).
Proof.
  intros Hok Hrep. unfold assign_char. eapply of_this_bind; [by eapply size_spec|].
  destruct (Z.eqb_spec (Z.of_nat (length t)) 0).
  - destruct t; [|cbn in *; lia]. apply strong_bind.
    eapply strong_mono; [by apply (expandNoinit_spec 1 false _ s [])|].
    intros i s1 [-> [HF (junk & Hj & _ & Hroom) HT]]. specialize (Hroom ltac:(lia)). cbn [app] in Hroom.
    eapply total_mono; [eapply set_front_room_spec; [by destruct HF|done|lia]|].
    intros [] s2 [HR2 HF2 HT2]. destruct junk as [|j [|]]; [cbn in *; lia| |cbn in *; lia].
    split; [done|by eapply frame_trans|by eapply tame_trans].
  - eapply of_this_bind; [done|]. apply strong_pure_bind, total_strong. eapply total_mono; [by apply isShared_spec|].
    intros [] s' [-> Hroom]; (split; [done|]).
    + apply strong_bind. apply construct_spec.
      eapply outcome_mono; [by apply (basic_fbstring_fill_spec 1 ch (mkSt (hp s) stack_bytes) Hok stack_bytes_law)|].
      intros [[]|e] s1; cbn; [|done]. intros [[HR HF] HS]. cbn in *. by eapply (replace_spec s _ t [ch]).
    + specialize (Hroom eq_refl). apply total_strong, total_bind.
      eapply total_mono; [eapply shrink_room_spec; [done|done|lia]|]. intros [] s1 HB. destruct (HB) as [HR HF HT].
      replace (length t - Z.to_nat (Z.of_nat (length t) - 1))%nat with 1%nat in HR by lia.
      assert (Hlen : length (take 1 t) = 1%nat) by (rewrite length_take; lia).
      assert (Hsole : sole (hp s1) (this s1)).
      { destruct HT as [|E]; [done|]. rewrite E in HF |- *. eapply sole_frame; [by eapply room_sole|done]. }
      eapply total_mono; [eapply set_front_room_spec; [by destruct HF|eapply sole_room; [by destruct HF|done|done]|lia]|].
      intros [] s2 [HR2 HF2 HT2]. destruct t as [|x t]; [cbn in *; lia|].
      split; [done|by eapply frame_trans|by eapply tame_trans].
Qed.
End Spec.
