(* ===== verification/FBStringEdit.v ===== *)
(** [insert], [erase] and [replace] of [basic_fbstring] on texts. *)
From S2P Require Import Prelude FBStringCore FBStringInv FBStringCoreSpec FBStringRoom FBStringSize FBString FBStringSpec.
Import Core.

(** ** Texts *)

(** A gap of the length of [l] opens at [pos], and [l] goes there. *)
Lemma patch_insert pos (l t junk : list Z) : (pos <= length t)%nat -> length junk = length l ->
  patch pos l (patch (pos + length l) (drop pos t) (t ++ junk)) = take pos t ++ l ++ drop pos t.
Proof.
  intros Hp Hj. unfold patch at 2.
  assert (drop (pos + length l + length (drop pos t)) (t ++ junk) = []) as ->
    by (apply drop_ge; rewrite length_app, length_drop; lia).
  rewrite app_nil_r. unfold patch.
  assert (Hpre : length (take (pos + length l) (t ++ junk)) = (pos + length l)%nat)
    by (rewrite length_take, length_app; lia).
  rewrite take_app_le, take_take, Nat.min_l, take_app_le by lia.
  by rewrite drop_app_ge, Hpre, Nat.sub_diag, drop_0 by lia.
Qed.

(** The tail moves to the front by [n] and the end is cut. *)
Lemma patch_erase pos n (t : list Z) : (pos + n <= length t)%nat ->
  take (length t - n) (patch pos (drop (pos + n) t) t) = take pos t ++ drop (pos + n) t.
Proof.
  intros Hp. unfold patch. rewrite app_assoc, take_app_le by (rewrite length_app, length_take, length_drop; lia).
  apply take_ge. rewrite length_app, length_take, length_drop. lia.
Qed.

Section Spec.
Context {PF : Platform} {PL : PlatformLaws}.

Lemma room_tame s s' t n : room (hp s') (this s') t n -> tame s s'.
Proof. intros. left. by eapply room_sole. Qed.

Lemma grows_sole t n m s s1 : room (hp s) (this s) t m -> grows t n s s1 -> sole (hp s1) (this s1).
Proof.
  intros HR [HF _ [|E]]; [done|]. rewrite E in *. eapply sole_frame; [by eapply room_sole|done].
Qed.

(** A change of an object of its own, by a total method. *)
Lemma becomes_sole t1 t s s1 m : room (hp s) (this s) t m -> becomes t1 s s1 -> room (hp s1) (this s1) t1 (Z.of_nat (length t1)).
Proof.
  intros HR [HR1 HF HT]. apply sole_room; [by destruct HF|done|]. destruct HT as [|E]; [done|].
  rewrite E in *. eapply sole_frame; [by eapply room_sole|done].
Qed.

(** ** Inserting *)

(** The gap: the characters from [pos] on are moved back by [n]. *)
Lemma gap_spec {B} pos n t m s (f : unit -> op B) (Q : B -> st -> Prop) :
  heap_ok (hp s) -> room (hp s) (this s) t m -> (pos <= length t)%nat -> Z.of_nat (length t) + Z.of_nat n < 2 ^ 64 ->
  (forall s1 junk, length junk = n -> frame (hp s) [this s] (hp s1) [this s1] ->
     room (hp s1) (this s1) (patch (pos + n) (drop pos t) (t ++ junk)) 0 -> total (f tt) s1 Q) ->
  strong (oldSize ← of_this size;
    _ ← expandNoinit (Z.of_nat n) true FBSTRING_DISABLE_SSO;
    _ ← mutableData;
    c ← of_this Some;
    tail ← peek c (Z.to_nat (Z.of_nat pos)) (Z.to_nat (oldSize - Z.of_nat pos));
    _ ← poke (Z.to_nat (Z.of_nat pos + Z.of_nat n)) tail;
    f tt) s Q.
Proof.
  intros Hok Hroom Hpos Hlt HQ. eapply of_this_bind; [eapply size_spec; by eapply room_rep|].
  apply strong_bind. eapply strong_mono; [apply (expandNoinit_spec _ true _ s t); [done|done|by eapply room_rep|lia|lia]|].
  intros i s1 [_ HG]. pose proof (grows_sole _ _ _ _ _ Hroom HG) as Hsole.
  destruct HG as [HF (junk & Hj & Hrep & _) _]. pose proof HF as [Hok1 _ _].
  pose proof (sole_room _ _ _ Hok1 Hrep Hsole) as HR1.
  apply total_bind. eapply total_mono; [by eapply mutableData_room_spec|]. intros [] s' ->.
  eapply total_of_this_bind; [done|]. apply total_bind.
  eapply peek_spec; [done|rewrite length_app; lia|].
  replace (Z.to_nat (Z.of_nat (length t) - Z.of_nat pos)) with (length t - pos)%nat by lia.
  rewrite Nat2Z.id, drop_app_le, take_app_le, take_ge by (rewrite ?length_drop; lia).
  apply total_bind. replace (Z.to_nat (Z.of_nat pos + Z.of_nat n)) with (pos + n)%nat by lia.
  eapply total_mono; [eapply poke_spec; [done|exact HR1|rewrite length_drop, length_app; lia]|].
  intros [] s2 [HR2 HF2 _]. eapply (HQ s2 junk); [lia|by eapply frame_trans|]. eapply room_fewer; [done|lia].
Qed.

Lemma insertImplDiscr_spec pos n ch s t m : heap_ok (hp s) -> room (hp s) (this s) t m ->
  0 <= pos <= Z.of_nat (length t) -> 0 <= n -> Z.of_nat (length t) + n < 2 ^ 64 ->
  strong (insertImplDiscr pos n ch) s
    (fun _ => becomes (take (Z.to_nat pos) t ++ replicate (Z.to_nat n) ch ++ drop (Z.to_nat pos) t) s).
Proof.
  intros Hok Hroom Hpos Hn Hlt. rewrite <- (Z2Nat.id pos), <- (Z2Nat.id n) by lia. rewrite !Nat2Z.id.
  set (p := Z.to_nat pos). set (k := Z.to_nat n). unfold insertImplDiscr.
  apply (gap_spec p k t m s (fun _ => podFill (Z.of_nat p) (Z.of_nat k) ch)); [done|done|lia|lia|].
  intros s1 junk Hj HF HR. set (t1 := patch (p + k) _ _) in *.
  assert (Hl1 : length t1 = (length t + k)%nat).
  { unfold t1. rewrite length_patch, length_app; rewrite ?length_drop, ?length_app; lia. }
  eapply podFill_spec; [by eapply room_rep|lia|lia|lia|]. rewrite !Nat2Z.id.
  eapply total_mono; [eapply poke_spec; [by destruct HF|done|rewrite length_replicate; lia]|].
  intros [] s2 [HR2 HF2 _]. unfold t1 in HR2. rewrite <- (length_replicate k ch) in HR2 at 2.
  rewrite patch_insert in HR2 by (rewrite ?length_replicate; lia).
  split; [by eapply room_rep|by eapply frame_trans|by eapply room_tame].
Qed.

Lemma insertImpl_spec pos p l s t m : heap_ok (hp s) -> room (hp s) (this s) t m -> stable s p l ->
  0 <= pos <= Z.of_nat (length t) -> Z.of_nat (length t) + Z.of_nat (length l) < 2 ^ 64 ->
  strong (insertImpl pos p (Z.of_nat (length l))) s
    (fun _ => becomes (take (Z.to_nat pos) t ++ l ++ drop (Z.to_nat pos) t) s).
Proof.
  intros Hok Hroom Hst Hpos Hlt. rewrite <- (Z2Nat.id pos) by lia. rewrite !Nat2Z.id.
  set (k := Z.to_nat pos). unfold insertImpl.
  apply (gap_spec k (length l) t m s (fun _ => cs ← read_ptr p (Z.of_nat (length l)); poke (Z.to_nat (Z.of_nat k)) cs)); [done|done|lia|lia|].
  intros s1 junk Hj HF HR. apply total_bind, read_ptr_stable; [by eapply stable_frame|]. rewrite Nat2Z.id.
  eapply total_mono; [eapply poke_spec; [by destruct HF|done|rewrite length_patch, length_app; rewrite ?length_drop, ?length_app; lia]|].
  intros [] s2 [HR2 HF2 _]. rewrite patch_insert in HR2 by lia.
  split; [by eapply room_rep|by eapply frame_trans|by eapply room_tame].
Qed.

Lemma enforce_bind {B} E b (f : unit -> op B) s (Q : B -> st -> Prop) : b = true -> guards E (f tt) s Q ->
  guards E (enforce b ≫= f) s Q.
Proof. by intros ->. Qed.

(** What follows a copy of a shared block keeps the text when it throws. *)
Lemma mutable_bind {B} (E : list Z -> Prop) (f : unit -> op B) s t (Q : B -> st -> Prop) :
  heap_ok (hp s) -> rep (hp s) (this s) t -> E t ->
  (forall s1, gets_room t (Z.of_nat (length t)) s s1 -> guards E (f tt) s1 Q) ->
  guards E (mutableData ≫= f) s Q.
Proof.
  intros Hok Hrep HE Hf. apply guards_bind. eapply strong_guards; [done|done|done|].
  eapply strong_mono; [by apply mutableData_spec|]. intros [] s1 HG. exists t. split; [by eapply gets_room_becomes|by apply Hf].
Qed.

Lemma becomes_after_room t m s s1 t2 s2 : gets_room t m s s1 -> becomes t2 s1 s2 -> becomes t2 s s2.
Proof. intros HG HB. eapply becomes_trans; [by eapply gets_room_becomes|done]. Qed.

Lemma insert_fill_spec pos n ch s t : heap_ok (hp s) -> rep (hp s) (this s) t ->
  0 <= pos <= Z.of_nat (length t) -> 0 <= n -> Z.of_nat (length t) + n < 2 ^ 64 ->
  guards (eq t) (insert_fill pos n ch) s
    (fun _ => becomes (take (Z.to_nat pos) t ++ replicate (Z.to_nat n) ch ++ drop (Z.to_nat pos) t) s).
Proof.
  intros Hok Hrep Hpos Hn Hlt. eapply guards_of_this; [by eapply size_spec|].
  apply enforce_bind; [apply Z.leb_le; lia|]. eapply mutable_bind; [done|done|done|]. intros s1 HG.
  destruct (HG) as [HR HF _]. eapply strong_guards; [by destruct HF|by eapply room_rep|done|].
  eapply strong_mono; [eapply insertImplDiscr_spec; [by destruct HF|done..]|]. intros [] s2. by eapply becomes_after_room.
Qed.

Lemma insert_spec pos p l s t : heap_ok (hp s) -> rep (hp s) (this s) t -> stable s p l ->
  0 <= pos <= Z.of_nat (length t) -> Z.of_nat (length t) + Z.of_nat (length l) < 2 ^ 64 ->
  guards (eq t) (insert pos p (Z.of_nat (length l))) s
    (fun _ => becomes (take (Z.to_nat pos) t ++ l ++ drop (Z.to_nat pos) t) s).
Proof.
  intros Hok Hrep Hst Hpos Hlt. eapply guards_of_this; [by eapply size_spec|].
  apply enforce_bind; [apply Z.leb_le; lia|]. eapply mutable_bind; [done|done|done|]. intros s1 HG.
  destruct (HG) as [HR HF _]. eapply strong_guards; [by destruct HF|by eapply room_rep|done|].
  eapply strong_mono; [eapply insertImpl_spec; [by destruct HF|done|by eapply stable_frame|done..]|].
  intros [] s2. by eapply becomes_after_room.
Qed.

(** ** Erasing *)

Definition erased (t : list Z) (pos n : nat) : list Z := take pos t ++ drop (pos + n) t.

Lemma procrustes_spec n m : procrustes n m = Z.min n m.
Proof. unfold procrustes. destruct (Z.ltb_spec m n); lia. Qed.

Lemma copy_spec c n pos s t : rep (hp s) c t -> 0 <= n -> 0 <= pos ->
  copy c n pos s = if pos <=? Z.of_nat (length t) then Some (s, Ok (take (Z.to_nat n) (drop (Z.to_nat pos) t)))
                   else Some (s, Err out_of_range).
Proof.
  intros Hrep Hn Hpos. unfold copy, access. rewrite M_bind_unfold, (size_spec _ _ _ Hrep), M_bind_unfold.
  destruct (Z.leb_spec pos (Z.of_nat (length t))) as [Hle|]; [|done]. cbn [enforce]. cbv zeta. rewrite procrustes_spec.
  set (k := Z.min n _). assert (0 <= k <= Z.of_nat (length t) - pos) by (unfold k; lia).
  assert (Hk : take (Z.to_nat n) (drop (Z.to_nat pos) t) = take (Z.to_nat k) (drop (Z.to_nat pos) t)).
  { destruct (Z.le_gt_cases n (Z.of_nat (length t) - pos)); [f_equal; lia|]. rewrite !take_ge by (rewrite length_drop; lia). done. }
  rewrite Hk. destruct (Z.eqb_spec k 0) as [->|]; [done|]. cbn [negb].
  assert (Hp : total (peek c (Z.to_nat pos) (Z.to_nat k)) s (fun cs s' => cs = take (Z.to_nat k) (drop (Z.to_nat pos) t) /\ s' = s)).
  { eapply peek_spec; [done|lia|done]. }
  unfold total, outcome in Hp. cbn [mret M_ret]. destruct (peek _ _ _ _) as [[s' [cs|]]|]; [|done..]. by destruct Hp as [-> ->].
Qed.

Lemma erase_tail_spec pos n s t m : heap_ok (hp s) -> room (hp s) (this s) t m -> (pos + n <= length t)%nat ->
  total (c ← of_this Some;
         tail ← peek c (pos + n) (length t - (pos + n));
         _ ← poke pos tail;
         resize (Z.of_nat (length t - n)) 0) s (fun _ => becomes (erased t pos n) s).
Proof.
  intros Hok HR Hle. eapply total_of_this_bind; [done|]. apply total_bind.
  eapply peek_spec; [by eapply room_rep|lia|]. rewrite take_ge by (rewrite length_drop; lia).
  apply total_bind. eapply total_mono; [eapply poke_spec; [done|done|rewrite length_drop; lia]|].
  intros [] s1 [HR1 HF1 _]. set (t1 := patch _ _ _) in *.
  assert (Hl1 : length t1 = length t) by (apply length_patch; rewrite length_drop; lia).
  unfold resize. eapply total_of_this_bind; [eapply size_spec; by eapply room_rep|]. rewrite Hl1.
  destruct (Z.leb_spec (Z.of_nat (length t - n)) (Z.of_nat (length t))); [|lia].
  eapply total_mono; [eapply shrink_room_spec; [by destruct HF1|done|lia]|]. intros [] s2 [HR2 HF2 HT2].
  rewrite Hl1 in HR2. replace (length t - _)%nat with (length t - n)%nat in HR2 by lia.
  unfold t1 in HR2. rewrite patch_erase in HR2 by done.
  split; [done|by eapply frame_trans|]. eapply tame_trans; [by eapply room_tame|done|done].
Qed.

(** The part of [erase] after the copy of a shared block. *)
Lemma erase_rest pos n s t m : heap_ok (hp s) -> room (hp s) (this s) t m -> 0 <= pos <= Z.of_nat (length t) -> 0 <= n ->
  total (c ← of_this Some;
         tail ← peek c (Z.to_nat (pos + procrustes n (Z.of_nat (length t) - pos)))
                  (Z.to_nat (Z.of_nat (length t) - (pos + procrustes n (Z.of_nat (length t) - pos))));
         _ ← poke (Z.to_nat pos) tail;
         resize (Z.of_nat (length t) - procrustes n (Z.of_nat (length t) - pos)) 0) s
    (fun _ => becomes (erased t (Z.to_nat pos) (Z.to_nat (Z.min n (Z.of_nat (length t) - pos)))) s).
Proof.
  intros Hok HR Hpos Hn. rewrite procrustes_spec. set (k := Z.min n _).
  replace (Z.to_nat (pos + k)) with (Z.to_nat pos + Z.to_nat k)%nat by lia.
  replace (Z.to_nat (Z.of_nat (length t) - (pos + k))) with (length t - (Z.to_nat pos + Z.to_nat k))%nat by lia.
  replace (Z.of_nat (length t) - k) with (Z.of_nat (length t - Z.to_nat k)) by lia.
  eapply erase_tail_spec; [done|done|lia].
Qed.

Lemma erase_room_spec pos n s t m : heap_ok (hp s) -> room (hp s) (this s) t m -> 0 <= pos <= Z.of_nat (length t) -> 0 <= n ->
  total (erase pos n) s (fun _ => becomes (erased t (Z.to_nat pos) (Z.to_nat (Z.min n (Z.of_nat (length t) - pos)))) s).
Proof.
  intros Hok HR Hpos Hn. unfold erase. eapply total_of_this_bind; [eapply size_spec; by eapply room_rep|].
  rewrite (proj2 (Z.leb_le pos (Z.of_nat (length t)))) by lia. apply total_bind, total_ret. cbv zeta.
  apply total_bind. eapply total_mono; [by eapply mutableData_room_spec|]. intros [] s' ->. by eapply erase_rest.
Qed.

Lemma erase_spec pos n s t : heap_ok (hp s) -> rep (hp s) (this s) t -> 0 <= pos <= Z.of_nat (length t) -> 0 <= n ->
  strong (erase pos n) s (fun _ => becomes (erased t (Z.to_nat pos) (Z.to_nat (Z.min n (Z.of_nat (length t) - pos)))) s).
Proof.
  intros Hok HR Hpos Hn. unfold erase. eapply of_this_bind; [by eapply size_spec|].
  rewrite (proj2 (Z.leb_le pos (Z.of_nat (length t)))) by lia. apply strong_pure_bind, strong_ret. split; [done|]. cbv zeta.
  apply strong_bind. eapply strong_mono; [by apply mutableData_spec|]. intros [] s1 HG. destruct (HG) as [HR1 HF1 _].
  eapply total_mono; [eapply erase_rest; [by destruct HF1|done..]|]. intros [] s2. by eapply becomes_after_room.
Qed.

(** ** Replacing *)

(** [l] takes the place of [n1] characters at [i1]. *)
Definition replaced (t : list Z) (i1 n1 : nat) (l : list Z) : list Z := take i1 t ++ l ++ drop (i1 + n1) t.

(** Shorter: the front is overwritten and the rest erased. *)
Lemma replaced_shrink t i1 n1 l : (i1 + n1 <= length t)%nat -> (length l <= n1)%nat ->
  erased (patch i1 l t) (i1 + length l) (n1 - length l) = replaced t i1 n1 l.
Proof.
  intros H1 H2. unfold erased, replaced, patch. rewrite !app_assoc.
  rewrite take_app_le, take_ge by (rewrite !length_app, length_take; lia). f_equal.
  rewrite drop_app_ge by (rewrite !length_app, length_take; lia).
  rewrite drop_drop. f_equal. rewrite length_app, length_take. lia.
Qed.

(** Longer: [n1] characters are overwritten and the others inserted. *)
Lemma replaced_grow t i1 n1 l : (i1 + n1 <= length t)%nat -> (n1 <= length l)%nat ->
  take (i1 + n1) (patch i1 (take n1 l) t) ++ drop n1 l ++ drop (i1 + n1) (patch i1 (take n1 l) t) = replaced t i1 n1 l.
Proof.
  intros H1 H2. unfold replaced, patch. assert (Hl : length (take n1 l) = n1) by (rewrite length_take; lia).
  rewrite Hl. rewrite !app_assoc.
  rewrite take_app_le, take_ge, drop_app_ge by (rewrite ?length_app, ?length_take; lia).
  replace (i1 + n1 - length (take i1 t ++ take n1 l))%nat with 0%nat by (rewrite length_app, Hl, length_take; lia).
  rewrite drop_0, <- !app_assoc, (app_assoc (take n1 l)), take_drop. done.
Qed.

(** What [replace] may leave when it throws: the text, or one with the first characters in place. *)
Definition half_replaced (t : list Z) (i1 n1 : nat) (l t' : list Z) : Prop :=
  t' = t \/ t' = replaced t i1 n1 (take n1 l).

Lemma half_patch t i1 n1 l : (n1 <= length l)%nat -> half_replaced t i1 n1 l (patch i1 (take n1 l) t).
Proof. intros Hl. right. unfold patch, replaced. by rewrite length_take, Nat.min_l. Qed.

Lemma replace_fill_spec i1 n1 n2 ch s t m : heap_ok (hp s) -> room (hp s) (this s) t m ->
  0 <= i1 -> 0 <= n1 -> i1 + n1 <= Z.of_nat (length t) -> 0 <= n2 -> Z.of_nat (length t) + n2 < 2 ^ 64 ->
  guards (half_replaced t (Z.to_nat i1) (Z.to_nat n1) (replicate (Z.to_nat n2) ch)) (replace_fill i1 n1 n2 ch) s
    (fun _ => becomes (replaced t (Z.to_nat i1) (Z.to_nat n1) (replicate (Z.to_nat n2) ch)) s).
Proof.
  intros Hok HR Hi Hn1 Hle Hn2 Hlt. unfold replace_fill.
  assert (Hfill : forall n, 0 <= n -> n <= n1 -> total (podFill i1 n ch) s
    (fun _ => gets_room (patch (Z.to_nat i1) (replicate (Z.to_nat n) ch) t) m s)).
  { intros n H1 H2. eapply podFill_spec; [by eapply room_rep|lia..|].
    eapply poke_spec; [done|done|rewrite length_replicate; lia]. }
  assert (Hlen : forall n, 0 <= n -> n <= n1 -> length (patch (Z.to_nat i1) (replicate (Z.to_nat n) ch) t) = length t).
  { intros. apply length_patch. rewrite length_replicate. lia. }
  destruct (Z.ltb_spec n2 n1).
  - apply total_guards, total_bind. eapply total_mono; [apply Hfill; lia|]. intros [] s1 HG. destruct (HG) as [HR1 HF1 _].
    eapply total_mono; [eapply erase_room_spec; [by destruct HF1|done|rewrite Hlen; lia|lia]|]. intros [] s2 HB.
    eapply becomes_after_room; [done|]. rewrite Hlen, Z.min_l in HB by lia.
    rewrite <- (replaced_shrink _ _ _ (replicate (Z.to_nat n2) ch)) by (rewrite ?length_replicate; lia).
    rewrite length_replicate. replace (Z.to_nat (i1 + n2)) with (Z.to_nat i1 + Z.to_nat n2)%nat in HB by lia.
    by replace (Z.to_nat (n1 - n2)) with (Z.to_nat n1 - Z.to_nat n2)%nat in HB by lia.
  - apply guards_bind, total_guards. eapply total_mono; [apply Hfill; lia|]. intros [] s1 HG. destruct (HG) as [HR1 HF1 _].
    eexists. split; [by eapply gets_room_becomes|].
    eapply strong_guards; [by destruct HF1|by eapply room_rep| |].
    { pose proof (half_patch t (Z.to_nat i1) (Z.to_nat n1) (replicate (Z.to_nat n2) ch)) as Hp.
      rewrite take_replicate, Nat.min_l, length_replicate in Hp by lia. apply Hp. lia. }
    eapply strong_mono; [eapply insertImplDiscr_spec; [by destruct HF1|done|rewrite Hlen; lia|lia|rewrite Hlen; lia]|].
    intros [] s2 HB. eapply becomes_after_room; [done|].
    rewrite <- (replaced_grow _ _ _ (replicate (Z.to_nat n2) ch)) by (rewrite ?length_replicate; lia).
    rewrite take_replicate, drop_replicate, Nat.min_l by lia.
    replace (Z.to_nat (i1 + n1)) with (Z.to_nat i1 + Z.to_nat n1)%nat in HB by lia.
    by replace (Z.to_nat (n2 - n1)) with (Z.to_nat n2 - Z.to_nat n1)%nat in HB by lia.
Qed.
End Spec.
