(* ===== verification/FBStringReplace.v ===== *)
(** [replace] of [basic_fbstring] with characters that may be those of the string itself. *)
From S2P Require Import Prelude FBStringCore FBStringInv FBStringCoreSpec FBStringRoom FBStringSize FBString FBStringSpec FBStringEdit.
Import Core.

Section Spec.
Context {PF : Platform} {PL : PlatformLaws}.

(** ** Parts of a source *)

Lemma stable_take s p l k : stable s p l -> stable s p (take k l).
Proof.
  destruct p as [bytes|i|q i]; cbn; [|done|].
  - intros E. rewrite length_take. rewrite <- E at 2. by rewrite take_take.
  - intros (Hi & b & Hb & Hlt & Hl & E). split; [done|]. exists b. split_and!; [done|done|rewrite length_take; lia|].
    rewrite length_take. rewrite <- E at 2. by rewrite take_take.
Qed.

Lemma stable_drop s p l k : (k <= length l)%nat -> stable s p l -> stable s (ptr_add p (Z.of_nat k)) (drop k l).
Proof.
  intros Hk. destruct p as [bytes|i|q i]; cbn; [|done|].
  - intros E. rewrite Nat2Z.id, length_drop. rewrite <- E at 2. rewrite take_drop_commute. f_equal. f_equal. lia.
  - intros (Hi & b & Hb & Hlt & Hl & E). split; [lia|]. exists b.
    replace (Z.to_nat (i + Z.of_nat k)) with (Z.to_nat i + k)%nat by lia.
    split_and!; [done|done|rewrite length_drop; lia|].
    rewrite length_drop. rewrite <- E at 2. rewrite <- drop_drop, take_drop_commute. f_equal. f_equal. lia.
Qed.

(** A source that cannot change is not in a block the object alone refers to. *)
Lemma stable_sole_apart s p l : stable s p l -> sole (hp s) (this s) -> apart s p l.
Proof.
  intros Hst Hs. split; [done|]. destruct p as [|i|q i]; [done|done|]. destruct Hst as (_ & b & Hb & Hlt & _).
  pose proof (own_nonneg (this s) q). destruct (decide (own (this s) q = 1)) as [E|]; [|lia].
  rewrite (Hs q E) in Hlt. lia.
Qed.

(** ** A new string from parts of this one *)

Lemma append_range_spec p l s t : heap_ok (hp s) -> rep (hp s) (this s) t -> stable s p l ->
  Z.of_nat (length t) + Z.of_nat (length l) < 2 ^ 64 ->
  guards (fun _ => True) (append_range p (Z.of_nat (length l))) s (fun _ => becomes (t ++ l) s).
Proof.
  intros Hok Hrep Hst Hlt. eapply mutable_bind; [done|done|done|]. intros s1 HG. destruct (HG) as [HR HF _].
  eapply guards_of_this; [eapply size_spec; by eapply room_rep|].
  eapply strong_guards; [by destruct HF|by eapply room_rep|done|].
  eapply strong_mono; [eapply insertImpl_spec; [by destruct HF|done|by eapply stable_frame|lia|done]|].
  intros [] s2 HB. rewrite Nat2Z.id, take_ge, drop_ge, app_nil_r in HB by lia. by eapply becomes_after_room.
Qed.

(** A local object that is built step by step. *)
Lemma local_call_guards c t t' (f : op unit) s : heap_ok (hp s) -> rep (hp s) c t -> small c ->
  guards (fun _ => True) f (mkSt (hp s) c) (fun _ => becomes t' (mkSt (hp s) c)) ->
  strong (local_call c f) s (fun r s' => rep (hp s') r.2 t' /\ frame (hp s) [] (hp s') [r.2] /\ sole (hp s') r.2 /\ this s' = this s).
Proof.
  intros Hok Hrep Hs. unfold guards, sparing, outcome, local_call. destruct (f _) as [[s1 [[]|e]]|]; [| |done].
  - intros HB. destruct (becomes_from_small _ (mkSt (hp s) c) _ Hs HB) as [[HR HF] Hsole]. done.
  - intros [(t1 & _ & [HR HF _]) He].
    pose proof (destroy_spec s1 t1 ltac:(by destruct HF) HR) as Hd. unfold total, outcome in Hd.
    destruct (destroy s1) as [[s2 []]|]; [|done..]. split; [|done].
    rewrite (frame_nil_eq (hp s) (hp s2)); [by destruct s|done|].
    eapply frame_owns; [| |eapply frame_trans; [exact HF|exact Hd]]; [|done]. intros p. by rewrite owns_small.
Qed.

(** The characters [k, k + n) of a string, as another object sees them. *)
Lemma outside_stable h c t q p k l s : rep h c t -> heap_ok h -> data c = Some q -> distance p q = Some k -> 0 <= k ->
  k + Z.of_nat (length l) <= Z.of_nat (length t) -> l = take (length l) (drop (Z.to_nat k) t) ->
  hp s = h -> small (this s) -> stable s (outside c p) l.
Proof.
  intros Hrep Hok Hq Hk Hk0 Hkl El Eh Hs.
  destruct (rep_inv _ _ _ Hrep) as [Hc|(d & cap & rc & bs & -> & Hd & Hcap & Hb & Hl & Hh & Hlc)].
  - rewrite data_small in Hq by done. injection Hq as <-. destruct p as [|j|]; try done. injection Hk as <-.
    destruct (rep_small_inv _ _ _ Hrep Hc) as (_ & _ & _ & Hh). cbn. rewrite Z.sub_0_r in *.
    rewrite (holds_text _ t) by (done || lia). done.
  - rewrite data_words in Hq by (by apply u64_address || lia). injection Hq as <-.
    destruct p as [|j|q j]; try done. cbn in Hk. destruct (Z.eqb_spec d q) as [<-|]; [|done]. injection Hk as <-.
    rewrite Z.sub_0_r in *. pose proof (holds_length _ _ Hh). split; [done|]. exists (mkBlock rc bs). rewrite Eh.
    pose proof (cnt_pos h d _ Hok Hb). rewrite <- owns_single, owns_small by done. cbn [chars].
    split_and!; [done|lia|lia|]. rewrite (holds_text _ t) by (done || lia). done.
Qed.

Lemma distance_add p q k n : distance p q = Some k -> distance (ptr_add p n) q = Some (k + n).
Proof.
  destruct q as [|i|a i], p as [|j|b j]; cbn; try done.
  - intros [= <-]. f_equal. lia.
  - destruct (a =? b); [|done]. intros [= <-]. f_equal. lia.
Qed.

Lemma distance_refl h c t q : rep h c t -> data c = Some q -> distance q q = Some 0.
Proof.
  intros Hrep Hq. destruct (rep_inv _ _ _ Hrep) as [Hc|(d & cap & rc & bs & -> & Hd & Hcap & _)].
  - rewrite data_small in Hq by done. by injection Hq as <-.
  - rewrite data_words in Hq by (by apply u64_address || lia). injection Hq as <-. cbn. by rewrite Z.eqb_refl.
Qed.

(** ** Replacing *)

(** The new string of an aliased [replace]: what is before, the characters, and what is behind. *)
Lemma aliased_temp_spec i1 n1 p l q k t h c c0 : heap_ok h -> rep h c t -> rep h c0 [] -> small c0 ->
  (i1 + n1 <= length t)%nat -> data c = Some q -> distance p q = Some k -> 0 <= k ->
  k + Z.of_nat (length l) <= Z.of_nat (length t) -> l = take (length l) (drop (Z.to_nat k) t) ->
  Z.of_nat (length t) + Z.of_nat (length l) < 2 ^ 64 ->
  guards (fun _ => True)
    (_ ← fb_reserve (Z.of_nat (length t) - Z.of_nat n1 + Z.of_nat (length l));
     _ ← append_range (outside c q) (Z.of_nat i1);
     _ ← append_range (outside c p) (Z.of_nat (length l));
     append_range (outside c (ptr_add q (Z.of_nat i1 + Z.of_nat n1))) (Z.of_nat (length t) - (Z.of_nat i1 + Z.of_nat n1)))
    (mkSt h c0) (fun _ => becomes (replaced t i1 n1 l) (mkSt h c0)).
Proof.
  intros Hok Hrep Hr0 Hs0 Hle Hq Hk Hk0 Hkl El Hlt. set (s0 := mkSt h c0).
  pose proof (distance_refl _ _ _ _ Hrep Hq) as Hqq.
  assert (Hout : forall p' k' l', distance p' q = Some k' -> 0 <= k' -> k' + Z.of_nat (length l') <= Z.of_nat (length t) ->
    l' = take (length l') (drop (Z.to_nat k') t) -> stable s0 (outside c p') l')
    by (intros; by eapply outside_stable).
  assert (H1 : stable s0 (outside c q) (take i1 t)).
  { apply (Hout q 0); [done|done|rewrite length_take; lia|]. rewrite length_take, drop_0. f_equal. lia. }
  assert (H2 : stable s0 (outside c p) l) by (by eapply (Hout p k)).
  assert (H3 : stable s0 (outside c (ptr_add q (Z.of_nat i1 + Z.of_nat n1))) (drop (i1 + n1) t)).
  { apply (Hout _ (0 + (Z.of_nat i1 + Z.of_nat n1))); [by apply distance_add|lia|rewrite length_drop; lia|].
    replace (Z.to_nat (0 + (Z.of_nat i1 + Z.of_nat n1))) with (i1 + n1)%nat by lia. by rewrite take_ge. }
  apply guards_bind. eapply strong_guards; [done|done|done|].
  eapply strong_mono; [apply (fb_reserve_spec _ s0 []); [done|done|done|lia|cbn; lia]|]. intros [] s1 HG1%gets_room_becomes.
  exists []. split; [done|]. pose proof HG1 as [HR1 HF1 _].
  apply guards_bind. assert (Hl1 : Z.of_nat i1 = Z.of_nat (length (take i1 t))) by (rewrite length_take; lia). rewrite Hl1.
  eapply guards_mono; [apply (append_range_spec _ _ s1 []); [by destruct HF1|done|by eapply stable_frame|cbn; lia]|done|].
  intros [] s2 HB2. exists (take i1 t). split; [done|]. pose proof HB2 as [HR2 HF2 _].
  assert (HF02 : frame (hp s0) [this s0] (hp s2) [this s2]) by by eapply frame_trans.
  apply guards_bind.
  eapply guards_mono; [apply (append_range_spec _ _ s2 (take i1 t)); [by destruct HF2|done|by eapply stable_frame|lia]|done|].
  intros [] s3 HB3. exists (take i1 t ++ l). split; [done|]. pose proof HB3 as [HR3 HF3 _]. rewrite <- Hl1.
  assert (HF03 : frame (hp s0) [this s0] (hp s3) [this s3]) by by eapply frame_trans.
  replace (Z.of_nat (length t) - (Z.of_nat i1 + Z.of_nat n1)) with (Z.of_nat (length (drop (i1 + n1) t)))
    by (rewrite length_drop; lia).
  eapply guards_mono; [apply (append_range_spec _ _ s3 (take i1 t ++ l));
    [by destruct HF3|done|by eapply stable_frame|rewrite length_app, length_drop; lia]|done|].
  intros [] s4 HB4. rewrite <- app_assoc in HB4.
  eapply becomes_trans; [done|]. eapply becomes_trans; [exact HB2|]. by eapply becomes_trans.
Qed.

Lemma replaceAliased_spec i1 n1 p l s t m : heap_ok (hp s) -> room (hp s) (this s) t m ->
  (i1 + n1 <= length t)%nat -> Z.of_nat (length t) + Z.of_nat (length l) < 2 ^ 64 -> apart s p l \/ inside s t p l ->
  strong (replaceAliased (Z.of_nat i1) (Z.of_nat n1) p (Z.of_nat (length l))) s
    (fun b s' => (b = true /\ becomes (replaced t i1 n1 l) s s') \/ (b = false /\ s' = s /\ apart s p l)).
Proof.
  intros Hok HR Hle Hlt Hsrc. pose proof (room_rep _ _ _ _ HR) as Hrep. unfold replaceAliased.
  apply strong_pure_bind, total_strong. eapply total_mono; [by eapply mutableData_room_spec|]. intros [] s' ->. split; [done|].
  eapply of_this_bind; [done|]. destruct (rep_data _ _ _ Hrep) as (q & Hq). eapply of_this_bind; [done|].
  eapply of_this_bind; [by eapply size_spec|]. destruct Hsrc as [Hap|(q' & k & Hq' & Hk & Hk0 & Hkl & El)].
  - rewrite (apart_distance _ _ _ _ _ Hrep Hap Hq). cbn [negb]. apply strong_ret. by right.
  - replace q' with q in Hk by congruence. rewrite Hk.
    destruct (Z.leb_spec 0 k), (Z.leb_spec k (Z.of_nat (length t))); [|lia..]. cbn [andb negb].
    apply strong_pure_bind, construct_spec, ctor_strong, total_strong.
    eapply total_mono; [apply (reset_spec (mkSt (hp s) stack_bytes)), stack_bytes_law|].
    intros [] s0 (E0 & Hs0 & Hr0). cbn [hp] in *. split; [rewrite E0; by destruct s|].
    apply strong_bind. eapply strong_mono.
    { apply (local_call_guards (this s0) [] (replaced t i1 n1 l)); [done|done|done|]. by eapply aliased_temp_spec. }
    intros [[] c'] s1 (HR1 & HF1 & Hsole & E1). cbn [snd] in *. apply total_bind.
    eapply total_mono; [by eapply (replace_spec s c' t)|]. intros [] s2 HB. apply total_ret. by left.
Qed.

Lemma replaceImpl_spec i1 n1 p l s t m : heap_ok (hp s) -> room (hp s) (this s) t m ->
  (i1 + n1 <= length t)%nat -> Z.of_nat (length t) + Z.of_nat (length l) < 2 ^ 64 -> apart s p l \/ inside s t p l ->
  guards (half_replaced t i1 n1 l) (replaceImpl (Z.of_nat i1) (Z.of_nat n1) p (Z.of_nat (length l))) s
    (fun _ => becomes (replaced t i1 n1 l) s).
Proof.
  intros Hok HR Hle Hlt Hsrc. pose proof (room_rep _ _ _ _ HR) as Hrep. unfold replaceImpl.
  apply guards_bind. eapply strong_guards; [done|done|by left|].
  eapply strong_mono; [by eapply replaceAliased_spec|]. intros b s' [[-> HB]|(-> & -> & [Hst _])].
  { eexists. split; [exact HB|]. by apply total_guards, total_ret. }
  exists t. split; [by apply becomes_refl|].
  assert (Hpoke : forall k, (k <= n1)%nat -> (k <= length l)%nat ->
    total (poke (Z.to_nat (Z.of_nat i1)) (take k l)) s (fun _ => gets_room (patch i1 (take k l) t) m s)).
  { intros k H1 H2. rewrite Nat2Z.id. eapply poke_spec; [done|done|rewrite length_take; lia]. }
  assert (Hlen : forall k, (k <= n1)%nat -> length (patch i1 (take k l) t) = length t).
  { intros. apply length_patch. rewrite length_take. lia. }
  destruct (Z.ltb_spec (Z.of_nat (length l)) (Z.of_nat n1)).
  - apply total_guards, total_bind, read_ptr_stable; [done|]. apply total_bind.
    rewrite <- (take_ge l (length l)) at 1 by done. eapply total_mono; [apply Hpoke; lia|]. intros [] s1 HG.
    destruct (HG) as [HR1 HF1 _]. rewrite take_ge in HR1, HG by done.
    assert (Hl1 : length (patch i1 l t) = length t) by (apply length_patch; lia).
    eapply total_mono; [eapply erase_room_spec; [by destruct HF1|done|rewrite Hl1; lia|lia]|]. intros [] s2 HB.
    eapply becomes_after_room; [done|]. rewrite Hl1, Z.min_l in HB by lia.
    rewrite <- replaced_shrink by lia.
    replace (Z.to_nat (Z.of_nat i1 + Z.of_nat (length l))) with (i1 + length l)%nat in HB by lia.
    by replace (Z.to_nat (Z.of_nat n1 - Z.of_nat (length l))) with (n1 - length l)%nat in HB by lia.
  - apply guards_bind, total_guards. assert (Hn1 : Z.of_nat n1 = Z.of_nat (length (take n1 l))) by (rewrite length_take; lia).
    rewrite Hn1 at 1. apply read_ptr_stable; [by apply stable_take|]. exists t. split; [by apply becomes_refl|].
    apply guards_bind, total_guards. eapply total_mono; [apply Hpoke; lia|]. intros [] s1 HG.
    destruct (HG) as [HR1 HF1 _]. eexists. split; [by eapply gets_room_becomes|].
    eapply strong_guards; [by destruct HF1|by eapply room_rep|apply half_patch; lia|].
    replace (Z.of_nat (length l) - Z.of_nat n1) with (Z.of_nat (length (drop n1 l))) by (rewrite length_drop; lia).
    eapply strong_mono; [eapply (insertImpl_spec _ _ (drop n1 l)); [by destruct HF1|done| |rewrite Hlen; lia|rewrite Hlen, ?length_drop; lia]|].
    { eapply stable_drop; [lia|]. by eapply stable_frame. }
    intros [] s2 HB. eapply becomes_after_room; [done|]. rewrite <- replaced_grow by lia.
    by replace (Z.to_nat (Z.of_nat i1 + Z.of_nat n1)) with (i1 + n1)%nat in HB by lia.
Qed.

(** A source keeps its characters when a shared block is copied. *)
Lemma source_after_copy s s1 t p l : heap_ok (hp s) -> gets_room t (Z.of_nat (length t)) s s1 -> stable s p l -> apart s1 p l.
Proof.
  intros Hok [HR HF _] Hst. apply stable_sole_apart; [by eapply stable_frame|by eapply room_sole].
Qed.

Lemma fb_replace_spec pos n1 p l s t : heap_ok (hp s) -> rep (hp s) (this s) t -> stable s p l \/ inside s t p l ->
  0 <= pos <= Z.of_nat (length t) -> 0 <= n1 -> Z.of_nat (length t) + Z.of_nat (length l) < 2 ^ 64 ->
  guards (half_replaced t (Z.to_nat pos) (Z.to_nat (Z.min n1 (Z.of_nat (length t) - pos))) l) (replace pos n1 p (Z.of_nat (length l))) s
    (fun _ => becomes (replaced t (Z.to_nat pos) (Z.to_nat (Z.min n1 (Z.of_nat (length t) - pos))) l) s).
Proof.
  intros Hok Hrep Hsrc Hpos Hn1 Hlt. eapply guards_of_this; [by eapply size_spec|].
  apply enforce_bind; [apply Z.leb_le; lia|]. rewrite procrustes_spec. set (k := Z.min n1 _).
  assert (Hgo : forall s1, gets_room t (Z.of_nat (length t)) s s1 -> apart s1 p l \/ inside s1 t p l ->
    guards (half_replaced t (Z.to_nat pos) (Z.to_nat k) l) (replaceImpl pos k p (Z.of_nat (length l))) s1
      (fun _ => becomes (replaced t (Z.to_nat pos) (Z.to_nat k) l) s)).
  { intros s1 HG Hs1. destruct (HG) as [HR HF _]. rewrite <- (Z2Nat.id pos), <- (Z2Nat.id k) by lia. rewrite !Nat2Z.id.
    eapply guards_mono; [eapply replaceImpl_spec; [by destruct HF|done|lia|done|done]|done|].
    intros [] s2. by eapply becomes_after_room. }
  assert (Hst : stable s p l -> guards (half_replaced t (Z.to_nat pos) (Z.to_nat k) l) (mutableData ≫= (fun _ => replaceImpl pos k p (Z.of_nat (length l)))) s
    (fun _ => becomes (replaced t (Z.to_nat pos) (Z.to_nat k) l) s)).
  { intros Hst. eapply mutable_bind; [done|done|by left|]. intros s1 HG. apply Hgo; [done|]. left. by eapply source_after_copy. }
  destruct Hsrc as [|Hin]; [by apply Hst|]. destruct (inside_cases _ _ _ _ Hok Hrep Hin) as [[HR _]|]; [|by apply Hst].
  apply guards_bind, total_guards. eapply total_mono; [by eapply mutableData_room_spec|]. intros [] s1 ->.
  exists t. split; [by apply becomes_refl|]. apply Hgo; [|by right]. split; [done|by apply frame_refl|done].
Qed.

Lemma replace_chars_spec pos n1 n2 ch s t : heap_ok (hp s) -> rep (hp s) (this s) t ->
  0 <= pos <= Z.of_nat (length t) -> 0 <= n1 -> 0 <= n2 -> Z.of_nat (length t) + n2 < 2 ^ 64 ->
  guards (half_replaced t (Z.to_nat pos) (Z.to_nat (Z.min n1 (Z.of_nat (length t) - pos))) (replicate (Z.to_nat n2) ch))
    (replace_chars pos n1 n2 ch) s
    (fun _ => becomes (replaced t (Z.to_nat pos) (Z.to_nat (Z.min n1 (Z.of_nat (length t) - pos))) (replicate (Z.to_nat n2) ch)) s).
Proof.
  intros Hok Hrep Hpos Hn1 Hn2 Hlt. eapply guards_of_this; [by eapply size_spec|].
  apply enforce_bind; [apply Z.leb_le; lia|]. rewrite procrustes_spec.
  eapply mutable_bind; [done|done|by left|]. intros s1 HG. destruct (HG) as [HR HF _].
  eapply guards_mono; [eapply replace_fill_spec; [by destruct HF|done|lia..|done|done]|done|].
  intros [] s2. by eapply becomes_after_room.
Qed.
End Spec.
