(* ===== verification/FBStringNew.v ===== *)
(** The operations of [basic_fbstring] that build a new string: copies, moves, [substr],
    [shrink_to_fit] and [operator+]. *)
From S2P Require Import Prelude FBStringCore FBStringInv FBStringCoreSpec FBStringRoom FBStringSize FBString FBStringSpec FBStringEdit FBStringReplace.
Import Core.

Section Spec.
Context {PF : Platform} {PL : PlatformLaws}.

(** ** Custody and moves *)

Lemma fbstring_core_acquire_spec d t alloc bs h c : heap_ok h -> h !! d = None -> 0 < d < 2 ^ 57 -> length c = 24%nat ->
  holds bs t -> Z.of_nat (length t) < alloc -> alloc <= Z.of_nat (length bs) -> alloc < 2 ^ 57 ->
  total (fbstring_core_acquire d (Z.of_nat (length t)) alloc) (mkSt (<[d := mkBlock None bs]> h) c)
    (fun _ => makes_new t (mkSt h c)).
Proof.
  intros Hok Hn Hd Hc Hh Hlt Hle Ha. unfold fbstring_core_acquire.
  destruct (Z.ltb_spec 0 (Z.of_nat (length t))).
  - rewrite wrap_small by (unfold is_uint; lia). apply (total_set_ml _ _ _ None); [done|]. cbn [hp].
    split; [split; cbn [hp this]|].
    + eapply rep_block; [done|lia|apply lookup_insert_eq|lia|done|done].
    + apply frame_alloc; [done|by apply u64_address|lia|done..].
    + eapply sole_words; [by apply u64_address|lia|apply lookup_insert_eq|done].
  - destruct t; [|cbn in *; lia]. apply total_bind.
    eapply (free_spec _ d None bs); cbn [offset hp this]; rewrite Z.add_0_r; [apply lookup_insert_eq|].
    rewrite delete_insert_id by done. eapply total_mono; [by apply reset_spec|].
    intros [] s' (E & Hs & Hr). cbn [hp] in E. unfold makes_new, makes. cbn [hp]. rewrite E. split_and!; [done| |by apply small_sole].
    by apply frame_to_small, frame_refl.
Qed.

Lemma fbstring_core_move_spec goner s : length goner = 24%nat ->
  total (fbstring_core_move goner) s (fun g s' => s' = mkSt (hp s) goner /\ small g /\ forall h, rep h g []).
Proof.
  intros Hl. apply total_bind. eapply total_set_this; [done|]. apply total_bind, call_total. cbn [hp].
  eapply total_mono; [by apply (reset_spec (mkSt (hp s) goner))|]. intros [] s' (E & Hs & Hr). cbn [hp] in E.
  apply total_ret. cbn [snd]. split_and!; [|done|done]. by rewrite E.
Qed.

(** ** Parts of a string *)

Lemma aligned_bound n pos m : 0 <= pos -> 0 <= n -> (8 + pos) .& 7 = 0 -> pos + n <= 23 -> m = (24 - Z.to_nat pos)%nat ->
  (8 * ((Z.to_nat n + 7) / 8) <= m)%nat.
Proof.
  intros Hp Hn Ha Hle ->. rewrite (land_ones_mod _ 3) in Ha by lia. change (2 ^ 3) with 8 in Ha.
  pose proof (Nat.div_mod (Z.to_nat n + 7) 8). pose proof (Z.div_mod (8 + pos) 8). lia.
Qed.

Lemma basic_fbstring_of_spec c pos n s t : heap_ok (hp s) -> length (this s) = 24%nat -> rep (hp s) c t ->
  0 <= pos -> 0 <= n -> pos + n <= Z.of_nat (length t) ->
  strong (basic_fbstring_of c pos n) s (fun _ => makes_new (take (Z.to_nat n) (drop (Z.to_nat pos) t)) s).
Proof.
  intros Hok Hl Hrep Hpos Hn Hle. unfold basic_fbstring_of, basic_fbstring.
  destruct (rep_inv _ _ _ Hrep) as [Hs|(d & cap & rc & bs & -> & Hd & Hcap & Hb & Hl' & Hh & Hlc)].
  - destruct (rep_small_inv _ _ _ Hrep Hs) as (Hc & Ht & _ & Hh).
    apply strong_pure_bind, total_strong. eapply total_access; [by apply small_category|]. split; [done|].
    eapply strong_mono; [eapply fbstring_core_spec; [done|done|done|]|].
    + split_and!; [lia|lia|rewrite length_drop; lia|]. intros Ha _. rewrite length_drop.
      eapply aligned_bound; [exact Hpos|exact Hn|exact Ha|lia|lia].
    + intros [] s'. by rewrite (holds_text _ t) by (done || lia).
  - apply strong_pure_bind, total_strong. eapply total_access; [apply category_words; lia|]. split; [done|].
    assert (Hgo : strong (b ← access (fun s => hp s !! data_ (words d (Z.of_nat (length t)) (tag cap rc)));
      fbstring_core (data_ (words d (Z.of_nat (length t)) (tag cap rc)) + pos) (drop (Z.to_nat pos) (chars b ++ padding)) n
        FBSTRING_DISABLE_SSO) s (fun _ => makes_new (take (Z.to_nat n) (drop (Z.to_nat pos) t)) s)); [|by destruct rc].
    rewrite word_0 by (by apply u64_address). apply strong_pure_bind, total_strong. eapply total_access; [done|]. split; [done|].
    cbn [chars]. pose proof padding_law as Hpad.
    eapply strong_mono; [eapply fbstring_core_spec; [done|done|done|]|].
    + split_and!; [lia|lia|rewrite length_drop, length_app; lia|]. intros _ _. rewrite length_drop, length_app.
      pose proof (holds_length _ _ Hh). pose proof (Nat.div_mod (Z.to_nat n + 7) 8). lia.
    + intros [] s'. rewrite (holds_text _ t); [done| |lia]. destruct Hh as (rest & ->). exists (rest ++ padding).
      by rewrite <- app_assoc.
Qed.

Lemma substr_spec c pos n s t : heap_ok (hp s) -> length (this s) = 24%nat -> rep (hp s) c t ->
  0 <= pos <= Z.of_nat (length t) -> 0 <= n ->
  strong (substr c pos n) s (fun _ => makes_new (take (Z.to_nat (Z.min n (Z.of_nat (length t) - pos))) (drop (Z.to_nat pos) t)) s).
Proof.
  intros Hok Hl Hrep Hpos Hn. unfold substr. apply strong_pure_bind, total_strong.
  eapply total_access; [by eapply size_spec|]. split; [done|].
  rewrite (proj2 (Z.leb_le pos (Z.of_nat (length t)))) by lia. apply strong_pure_bind, strong_ret. split; [done|].
  eapply basic_fbstring_of_spec; [done|done|done|lia..].
Qed.

Lemma shrink_to_fit_spec s t : heap_ok (hp s) -> rep (hp s) (this s) t ->
  strong shrink_to_fit s (fun _ => becomes t s).
Proof.
  intros Hok Hrep. unfold shrink_to_fit. eapply of_this_bind; [done|].
  apply strong_pure_bind, total_strong. eapply total_mono; [by apply capacity_spec|]. intros cap s' [-> _]. split; [done|].
  eapply of_this_bind; [by eapply size_spec|]. case_match; [apply strong_ret; by apply becomes_refl|].
  apply strong_bind, construct_spec, ctor_strong.
  eapply strong_mono; [apply (basic_fbstring_of_spec _ _ _ (mkSt (hp s) stack_bytes) t); [done|apply stack_bytes_law|done|lia|lia|lia]|].
  intros [] s1 [[HR HF] HS]. rewrite Nat2Z.id, drop_0, take_ge in HR by done. by eapply (replace_spec s _ t).
Qed.

(** ** Other strings as arguments *)

(** The characters of another object, for an object whose block is not that one's alone. *)
Lemma data_of_stable h c t s p : rep h c t -> heap_ok h -> hp s = h -> (forall q, own c q = 1 -> own (this s) q < cnt h q) ->
  data_of c = Some p -> stable s p t.
Proof.
  intros Hrep Hok Eh Hown. unfold data_of.
  destruct (rep_inv _ _ _ Hrep) as [Hs|(d & cap & rc & bs & -> & Hd & Hcap & Hb & Hl & Hh & Hlc)].
  - rewrite small_category by done. intros [= <-]. destruct (rep_small_inv _ _ _ Hrep Hs) as (_ & _ & _ & (rest & ->)).
    apply take_app_length.
  - rewrite category_words, word_0 by (by apply u64_address || lia). intros Hp.
    assert (p = InHeap d 0) as -> by (destruct rc; naive_solver). split; [done|]. exists (mkBlock rc bs). rewrite Eh.
    pose proof (holds_length _ _ Hh). split_and!; [done| |cbn; lia|].
    + apply Hown. by rewrite own_words, Z.eqb_refl by (by apply u64_address || lia).
    + cbn. destruct Hh as (rest & ->). apply take_app_length.
Qed.

Lemma rep_data_of h c t : rep h c t -> exists p, data_of c = Some p.
Proof.
  intros Hrep. unfold data_of. destruct (rep_inv _ _ _ Hrep) as [Hs|(d & cap & rc & bs & -> & Hd & Hcap & _)].
  - rewrite small_category by done. by eexists.
  - rewrite category_words by lia. by eexists.
Qed.

Lemma small_other h c t s : rep h c t -> heap_ok h -> small (this s) -> forall q, own c q = 1 -> own (this s) q < cnt h q.
Proof.
  intros Hrep Hok Hs q Hq. pose proof (rep_own _ _ _ q Hok Hrep). rewrite <- owns_single, owns_small by done. lia.
Qed.

(** Appending another string to a new one. *)
Lemma append_other_spec c tc p s t : heap_ok (hp s) -> rep (hp s) (this s) t -> sole (hp s) (this s) -> size c = Some (Z.of_nat (length tc)) ->
  data_of c = Some p -> stable s p tc -> Z.of_nat (length t) + Z.of_nat (length tc) < 2 ^ 64 ->
  strong (append_str (Other c)) s (fun _ => becomes (t ++ tc) s).
Proof.
  intros Hok Hrep Hsole Hsz Hp Hst Hlt. unfold append_str, arg_core, arg_data.
  apply strong_pure_bind, strong_ret. split; [done|].
  apply strong_pure_bind, total_strong. eapply total_access; [done|]. split; [done|].
  apply strong_pure_bind, total_strong. eapply total_access; [done|]. split; [done|].
  apply append_spec; [done|done| |done]. left. by apply stable_sole_apart.
Qed.

Lemma operator_plus_spec lhs rhs t1 t2 s : heap_ok (hp s) -> length (this s) = 24%nat ->
  rep (hp s) lhs t1 -> rep (hp s) rhs t2 -> Z.of_nat (length t1) + Z.of_nat (length t2) < 2 ^ 64 ->
  ctor (operator_plus lhs rhs) s (makes_new (t1 ++ t2) s).
Proof.
  intros Hok Hl H1 H2 Hlt. apply ctor_reset; [done..|]. intros s0 E Hs Hr.
  assert (Hok0 : heap_ok (hp s0)) by by rewrite E.
  destruct (rep_data_of _ _ _ H1) as (p1 & Hp1). destruct (rep_data_of _ _ _ H2) as (p2 & Hp2).
  assert (Hst1 : stable s0 p1 t1) by (eapply data_of_stable; [done|done|done|by eapply small_other|done]).
  assert (Hst2 : stable s0 p2 t2) by (eapply data_of_stable; [done|done|done|by eapply small_other|done]).
  pose proof (size_spec _ _ _ H1) as Hs1. pose proof (size_spec _ _ _ H2) as Hs2.
  apply guards_bind, total_guards. eapply total_access; [done|]. exists []. split; [by apply becomes_refl|].
  apply guards_bind, total_guards. eapply total_access; [done|]. exists []. split; [by apply becomes_refl|].
  rewrite wrap_small by (unfold is_uint; lia).
  apply guards_bind. eapply strong_guards; [done|done|done|].
  eapply strong_mono; [apply (fb_reserve_spec _ s0 []); [done|done|done|lia|cbn; lia]|]. intros [] s1 HG1%gets_room_becomes.
  exists []. split; [done|]. destruct (HG1) as [HR1 HF1 _]. destruct (becomes_from_small _ _ _ Hs HG1) as [_ Hsole1].
  apply guards_bind. eapply strong_guards; [by destruct HF1|done|done|].
  eapply strong_mono; [eapply (append_other_spec lhs t1 p1 s1 []); [by destruct HF1|done|done|done|done|by eapply stable_frame|cbn; lia]|].
  intros [] s2 HB2. cbn [app] in HB2. exists t1. split; [done|].
  assert (HB02 : becomes t1 s0 s2) by by eapply becomes_trans. destruct (HB02) as [HR2 HF2 _].
  destruct (becomes_from_small _ _ _ Hs HB02) as [_ Hsole2].
  eapply strong_guards; [by destruct HF2|done|done|].
  eapply strong_mono; [eapply (append_other_spec rhs t2 p2 s2 t1); [by destruct HF2|done|done|done|done|by eapply stable_frame|done]|].
  intros [] s3 HB3. by eapply becomes_trans.
Qed.
End Spec.
