(* ===== verification/FBStringWorld.v ===== *)
(** Programs over strings: a heap, objects by name, and calls of the constructors, the destructor and
    the methods on them.  Calls that name two strings may name one string twice. *)
From S2P Require Import Prelude FBStringCore FBString.
Import Core.

Record world := mkWorld { wheap : heap; wobjs : gmap Z core }.

(** External characters come with the address they are at and with the bytes of memory behind. *)
Inductive call :=
| New (x address : Z) (bytes : list Z) (n : Z)
| NewFill (x n ch : Z)
| NewDefault (x : Z)
| NewCopy (x y : Z)
| NewMove (x y : Z)
| NewAcquire (x : Z) (text slack : list Z)
| NewSubstr (x y pos n : Z)
| NewPlus (x y z : Z)
| Destroy (x : Z)
| Swap (x y : Z)
| AssignCopy (x y : Z)
| AssignMove (x y : Z)
| AssignChar (x ch : Z)
| Assign (x : Z) (bytes : list Z) (n : Z)
| AssignSubstr (x y pos n : Z)
| Append (x : Z) (bytes : list Z) (n : Z)
| AppendStr (x y : Z)
| AppendSubstr (x y pos n : Z)
| AppendFill (x n ch : Z)
| PushBack (x ch : Z)
| PopBack (x : Z)
| AtStore (x n ch : Z)
| Resize (x n ch : Z)
| Clear (x : Z)
| Reserve (x n : Z)
| ShrinkToFit (x : Z)
| Insert (x pos : Z) (bytes : list Z) (n : Z)
| InsertStr (x pos y : Z)
| InsertFill (x pos n ch : Z)
| Erase (x pos n : Z)
| Replace (x pos n1 : Z) (bytes : list Z) (n2 : Z)
| ReplaceStr (x pos n1 y : Z)
| ReplaceChars (x pos n1 n2 ch : Z).

Inductive prog := Stop | Call (k : call) (next : result fb_exn unit -> prog).

Section World.
Context `{!Platform}.

(** A method of the object [x]; the object may have changed when it throws. *)
Definition on (x : Z) (f : op unit) (w : world) : option (world * result fb_exn unit) :=
  c ← wobjs w !! x;
  r ← f (mkSt (wheap w) c);
  Some (mkWorld (hp r.1) (<[x := this r.1]> (wobjs w)), r.2).

(** A constructor of a new object [x]. *)
Definition make (x : Z) (f : op unit) (w : world) : option (world * result fb_exn unit) :=
  match wobjs w !! x with
  | Some _ => None
  | None =>
      r ← f (mkSt (wheap w) stack_bytes);
      Some (mkWorld (hp r.1) (match r.2 with Ok _ => <[x := this r.1]> (wobjs w) | Err _ => wobjs w end), r.2)
  end.

Definition arg_of (w : world) (x y : Z) : option arg :=
  if x =? y then Some This else c ← wobjs w !! y; Some (Other c).

(** A constructor or an assignment that leaves [y] moved from. *)
Definition moved (x y : Z) (f : core -> op (option core)) (c : core) (w : world) : option (world * result fb_exn unit) :=
  g ← wobjs w !! y;
  r ← f g (mkSt (wheap w) c);
  match r.2 with
  | Ok g' => Some (mkWorld (hp r.1) (<[x := this r.1]> (if g' is Some g' then <[y := g']> (wobjs w) else wobjs w)), Ok tt)
  | Err e => None
  end.

(** The client allocates the block, fills it and hands it over. *)
Definition acquire (x : Z) (text slack : list Z) (w : world) : option (world * result fb_exn unit) :=
  let cs := text ++ 0 :: slack in
  match malloc (wheap w) (Z.of_nat (length cs)) with
  | None => Some (w, Err (bad_alloc (wheap w) None (Z.of_nat (length cs))))
  | Some (d, _) =>
      make x (fbstring_core_acquire d (Z.of_nat (length text)) (Z.of_nat (length cs)))
        (mkWorld (<[d := mkBlock None cs]> (wheap w)) (wobjs w))
  end.

(** [replace(pos, n1, str)]. *)
Definition replace_str (pos n1 : Z) (str : arg) : op unit :=
  c ← arg_core str; s ← arg_data str; n ← access (fun _ => size c); replace pos n1 s n.

Definition run (k : call) (w : world) : option (world * result fb_exn unit) :=
  match k with
  | New x address bytes n => make x (basic_fbstring address bytes n) w
  | NewFill x n ch => make x (basic_fbstring_fill n ch) w
  | NewDefault x => make x reset w
  | NewCopy x y => c ← wobjs w !! y; make x (fbstring_core_copy c) w
  | NewMove x y =>
      match wobjs w !! x with
      | Some _ => None
      | None => moved x y (fun g => r ← fbstring_core_move g; mret (Some r)) stack_bytes w
      end
  | NewAcquire x text slack => acquire x text slack w
  | NewSubstr x y pos n => c ← wobjs w !! y; make x (substr c pos n) w
  | NewPlus x y z => c ← wobjs w !! y; c' ← wobjs w !! z; make x (operator_plus c c') w
  | Destroy x =>
      r ← on x destroy w; Some (mkWorld (wheap r.1) (delete x (wobjs r.1)), r.2)
  | Swap x y => c ← wobjs w !! x; c' ← wobjs w !! y; Some (mkWorld (wheap w) (<[y := c]> (<[x := c']> (wobjs w))), Ok tt)
  | AssignCopy x y => a ← arg_of w x y; on x (assign_copy a) w
  | AssignMove x y =>
      if x =? y then on x (assign_move This ≫= fun _ => mret tt) w
      else c ← wobjs w !! x; moved x y (fun g => assign_move (Other g)) c w
  | AssignChar x ch => on x (assign_char ch) w
  | Assign x bytes n => on x (assign (External bytes) n) w
  | AssignSubstr x y pos n => a ← arg_of w x y; on x (assign_substr a pos n) w
  | Append x bytes n => on x (append (External bytes) n) w
  | AppendStr x y => a ← arg_of w x y; on x (append_str a) w
  | AppendSubstr x y pos n => a ← arg_of w x y; on x (append_substr a pos n) w
  | AppendFill x n ch => on x (append_fill n ch) w
  | PushBack x ch => on x (push_back ch) w
  | PopBack x => on x pop_back w
  | AtStore x n ch => on x (at_store n ch) w
  | Resize x n ch => on x (resize n ch) w
  | Clear x => on x clear w
  | Reserve x n => on x (fb_reserve n) w
  | ShrinkToFit x => on x shrink_to_fit w
  | Insert x pos bytes n => on x (insert pos (External bytes) n) w
  | InsertStr x pos y => a ← arg_of w x y; on x (insert_str pos a) w
  | InsertFill x pos n ch => on x (insert_fill pos n ch) w
  | Erase x pos n => on x (erase pos n) w
  | Replace x pos n1 bytes n2 => on x (replace pos n1 (External bytes) n2) w
  | ReplaceStr x pos n1 y => a ← arg_of w x y; on x (replace_str pos n1 a) w
  | ReplaceChars x pos n1 n2 ch => on x (replace_chars pos n1 n2 ch) w
  end.

(** A program chooses its next call by how the last one ended. *)
Fixpoint exec (p : prog) (w : world) : option world :=
  match p with
  | Stop => Some w
  | Call k next => r ← run k w; exec (next r.2) r.1
  end.
End World.

(** ** What the calls do to texts *)

Abbreviation texts := (gmap Z (list Z)).

Inductive effect :=
| To (m : texts)     (* the new texts *)
| OutOfRange         (* [out_of_range] is thrown *).

Definition len (t : list Z) : Z := Z.of_nat (length t).

Definition sub (t : list Z) (pos n : Z) : list Z := take (Z.to_nat (Z.min n (len t - pos))) (drop (Z.to_nat pos) t).

(** The text with [l] in place of [n1] characters at [pos]. *)
Definition spliced (t : list Z) (pos n1 : Z) (l : list Z) : list Z :=
  take (Z.to_nat pos) t ++ l ++ drop (Z.to_nat pos + Z.to_nat (Z.min n1 (len t - pos))) t.

Definition fill (n ch : Z) : list Z := replicate (Z.to_nat n) ch.

(** Preconditions: numbers that fit in [size_t], characters that are there, a name that is not in
    use, and fewer strings than a machine can hold. *)
Definition is_size (n : Z) : bool := (0 <=? n) && (n <? 2 ^ 64).
Definition has (bytes : list Z) (n : Z) : bool := is_size n && (n <=? len bytes).
Definition unused (x : Z) (m : texts) : bool := if m !! x is Some _ then false else true.
Definition few (m : texts) : bool := Z.of_nat (stdpp.base.size m) <? 2 ^ 60.

(** A constructor copies a short text at an aligned address by words. *)
Definition has_words (address : Z) (bytes : list Z) (n : Z) : bool :=
  (negb (address .& 7 =? 0)) || (23 <? n) || (8 * ((n + 7) / 8) <=? len bytes).

Definition when (b : bool) (e : effect) : option effect := if b then Some e else None.

Definition ranged (b : bool) (m : texts) : effect := if b then To m else OutOfRange.

(** The effect of a call on the texts, if it is allowed. *)
Definition spec `{!Platform} (k : call) (m : texts) : option effect :=
  match k with
  | New x address bytes n =>
      when (unused x m && has bytes n && has_words address bytes n) (To (<[x := take (Z.to_nat n) bytes]> m))
  | NewFill x n ch => when (unused x m && is_size n) (To (<[x := fill n ch]> m))
  | NewDefault x => when (unused x m) (To (<[x := []]> m))
  | NewCopy x y => t ← m !! y; when (unused x m && few m) (To (<[x := t]> m))
  | NewMove x y => t ← m !! y; when (unused x m) (To (<[x := t]> (<[y := []]> m)))
  | NewAcquire x text slack => when (unused x m) (To (<[x := text]> m))
  | NewSubstr x y pos n =>
      t ← m !! y; when (unused x m && is_size pos && is_size n) (ranged (pos <=? len t) (<[x := sub t pos n]> m))
  | NewPlus x y z =>
      t ← m !! y; t' ← m !! z; when (unused x m && (len t + len t' <? 2 ^ 64)) (To (<[x := t ++ t']> m))
  | Destroy x => _ ← m !! x; Some (To (delete x m))
  | Swap x y => t ← m !! x; t' ← m !! y; Some (To (<[y := t]> (<[x := t']> m)))
  | AssignCopy x y => _ ← m !! x; t ← m !! y; Some (To (<[x := t]> m))
  | AssignMove x y => _ ← m !! x; t ← m !! y; Some (To (if x =? y then m else <[x := t]> (<[y := []]> m)))
  | AssignChar x ch => _ ← m !! x; Some (To (<[x := [ch]]> m))
  | Assign x bytes n => _ ← m !! x; when (has bytes n) (To (<[x := take (Z.to_nat n) bytes]> m))
  | AssignSubstr x y pos n =>
      _ ← m !! x; t ← m !! y; when (is_size pos && is_size n) (ranged (pos <=? len t) (<[x := sub t pos n]> m))
  | Append x bytes n =>
      t ← m !! x; when (has bytes n && (len t + n <? 2 ^ 64)) (To (<[x := t ++ take (Z.to_nat n) bytes]> m))
  | AppendStr x y => t ← m !! x; t' ← m !! y; when (len t + len t' <? 2 ^ 64) (To (<[x := t ++ t']> m))
  | AppendSubstr x y pos n =>
      t ← m !! x; t' ← m !! y;
      when (is_size pos && is_size n && (len t + len t' <? 2 ^ 64)) (ranged (pos <=? len t') (<[x := t ++ sub t' pos n]> m))
  | AppendFill x n ch => t ← m !! x; when (is_size n && (len t + n <? 2 ^ 64)) (To (<[x := t ++ fill n ch]> m))
  | PushBack x ch => t ← m !! x; when (len t + 1 <? 2 ^ 64) (To (<[x := t ++ [ch]]> m))
  | PopBack x => t ← m !! x; when (0 <? len t) (To (<[x := take (length t - 1) t]> m))
  | AtStore x n ch => t ← m !! x; when (is_size n) (ranged (n <? len t) (<[x := <[Z.to_nat n := ch]> t]> m))
  | Resize x n ch => t ← m !! x; when (is_size n) (To (<[x := take (Z.to_nat n) t ++ fill (n - len t) ch]> m))
  | Clear x => _ ← m !! x; Some (To (<[x := []]> m))
  | Reserve x n => t ← m !! x; when (is_size n && (negb FOLLY_SANITIZE_ADDRESS || (len t <=? n))) (To (<[x := t]> m))
  | ShrinkToFit x => t ← m !! x; Some (To (<[x := t]> m))
  | Insert x pos bytes n =>
      t ← m !! x;
      when (is_size pos && has bytes n && (len t + n <? 2 ^ 64))
        (ranged (pos <=? len t) (<[x := spliced t pos 0 (take (Z.to_nat n) bytes)]> m))
  | InsertStr x pos y =>
      t ← m !! x; t' ← m !! y;
      when (negb (x =? y) && is_size pos && (len t + len t' <? 2 ^ 64))
        (ranged (pos <=? len t) (<[x := spliced t pos 0 t']> m))
  | InsertFill x pos n ch =>
      t ← m !! x;
      when (is_size pos && is_size n && (len t + n <? 2 ^ 64)) (ranged (pos <=? len t) (<[x := spliced t pos 0 (fill n ch)]> m))
  | Erase x pos n => t ← m !! x; when (is_size pos && is_size n) (ranged (pos <=? len t) (<[x := spliced t pos n []]> m))
  | Replace x pos n1 bytes n2 =>
      t ← m !! x;
      when (is_size pos && is_size n1 && has bytes n2 && (len t + n2 <? 2 ^ 64))
        (ranged (pos <=? len t) (<[x := spliced t pos n1 (take (Z.to_nat n2) bytes)]> m))
  | ReplaceStr x pos n1 y =>
      t ← m !! x; t' ← m !! y;
      when (is_size pos && is_size n1 && (len t + len t' <? 2 ^ 64)) (ranged (pos <=? len t) (<[x := spliced t pos n1 t']> m))
  | ReplaceChars x pos n1 n2 ch =>
      t ← m !! x;
      when (is_size pos && is_size n1 && is_size n2 && (len t + n2 <? 2 ^ 64))
        (ranged (pos <=? len t) (<[x := spliced t pos n1 (fill n2 ch)]> m))
  end.

(** The text of [x], or with as many characters in place as [l] replaces. *)
Definition half_way (x pos n1 : Z) (l : list Z) (m m' : texts) : Prop :=
  m' = m \/ exists t, m !! x = Some t /\ m' = <[x := spliced t pos n1 (take (Z.to_nat (Z.min n1 (len t - pos))) l)]> m.

(** The texts after [bad_alloc] or [length_error]: most calls change nothing, some never throw, an
    assignment may have cleared the string, and [replace] may have stopped half-way. *)
Definition failure (k : call) (m m' : texts) : Prop :=
  match k with
  | NewDefault _ | NewMove _ _ | Destroy _ | Swap _ _ | AssignMove _ _ => False
  | Assign x _ _ | AssignCopy x _ | AssignSubstr x _ _ _ => m' = m \/ m' = <[x := []]> m
  | Replace x pos n1 bytes n2 => half_way x pos n1 (take (Z.to_nat n2) bytes) m m'
  | ReplaceStr x pos n1 y => exists l, m !! y = Some l /\ half_way x pos n1 l m m'
  | ReplaceChars x pos n1 n2 ch => half_way x pos n1 (fill n2 ch) m m'
  | _ => m' = m
  end.

(** The runs of a program on texts: a call may throw when a request was refused or a size does not fit. *)
Inductive abs_run `{!Platform} : prog -> texts -> texts -> Prop :=
| abs_stop m : abs_run Stop m m
| abs_ok k next m m1 m2 : spec k m = Some (To m1) -> abs_run (next (Ok tt)) m1 m2 -> abs_run (Call k next) m m2
| abs_range k next m m2 : spec k m = Some OutOfRange -> abs_run (next (Err out_of_range)) m m2 -> abs_run (Call k next) m m2
| abs_fail k next e m m1 m2 : is_Some (spec k m) -> justified e -> failure k m m1 ->
    abs_run (next (Err e)) m1 m2 -> abs_run (Call k next) m m2.

(** All calls of a program are allowed, however the earlier ones end. *)
Fixpoint allowed `{!Platform} (p : prog) (m : texts) : Prop :=
  match p with
  | Stop => True
  | Call k next =>
      match spec k m with
      | None => False
      | Some e =>
          match e with To m1 => allowed (next (Ok tt)) m1 | OutOfRange => allowed (next (Err out_of_range)) m end /\
          forall e' m1, justified e' -> failure k m m1 -> allowed (next (Err e')) m1
      end
  end.
