(* ===== verification/FBStringSim.v ===== *)
(** Programs over strings refine programs over texts. *)
From S2P Require Import Prelude FBStringCore FBStringInv FBStringCoreSpec FBStringRoom FBStringSize FBString FBStringSpec FBStringEdit FBStringReplace FBStringNew FBStringWorld.
Import Core.

(** ** The relation *)

Abbreviation ghost := (gmap Z (core * list Z)).

Definition objs_of (g : ghost) : list (core * list Z) := (map_to_list g).*2.

(** The objects of the world, each with its text. *)
Record related (w : world) (g : ghost) : Prop := mkRelated {
  related_objs : wobjs w = fst <$> g;
  related_valid : valid (wheap w) (objs_of g);
}.

Definition sim (w : world) (m : texts) : Prop := exists g, related w g /\ m = snd <$> g.

Lemma valid_perm h os os' : os ≡ₚ os' -> valid h os -> valid h os'.
Proof.
  intros Hp [K R C S]. split; [done| | |].
  - intros c t. rewrite <- Hp. apply R.
  - intros p. rewrite C. apply owns_perm. by rewrite Hp.
  - intros c c' p. rewrite <- Hp. apply S.
Qed.

Lemma objs_delete g x ct : g !! x = Some ct -> objs_of g ≡ₚ ct :: objs_of (delete x g).
Proof. intros Hx. unfold objs_of. by rewrite <- (map_to_list_delete g x ct Hx). Qed.

Lemma objs_insert g x ct : objs_of (<[x := ct]> g) ≡ₚ ct :: objs_of (delete x g).
Proof. rewrite <- insert_delete_eq. unfold objs_of. by rewrite map_to_list_insert by apply lookup_delete_eq. Qed.

Lemma objs_elem g x ct : g !! x = Some ct -> ct ∈ objs_of g.
Proof. intros Hx. apply list_elem_of_fmap. exists (x, ct). split; [done|]. by apply elem_of_map_to_list. Qed.

Lemma related_rep w g x c t : related w g -> g !! x = Some (c, t) -> rep (wheap w) c t.
Proof. intros [_ []] Hx. by eapply valid_rep, objs_elem. Qed.

Lemma related_ok w g : related w g -> heap_ok (wheap w).
Proof. by intros [_ []]. Qed.

Lemma related_lookup w g x c t : related w g -> g !! x = Some (c, t) -> wobjs w !! x = Some c.
Proof. intros [E _] Hx. by rewrite E, lookup_fmap, Hx. Qed.

Lemma related_none w g x : related w g -> g !! x = None -> wobjs w !! x = None.
Proof. intros [E _] Hx. by rewrite E, lookup_fmap, Hx. Qed.

(** The references of two different objects are counted. *)
Lemma related_two w g x y c t c' t' p : related w g -> x <> y -> g !! x = Some (c, t) -> g !! y = Some (c', t') ->
  own c p + own c' p <= cnt (wheap w) p.
Proof.
  intros [_ [_ _ C _]] Hne Hx Hy. rewrite C.
  rewrite (owns_perm (objs_of g).*1 (c :: c' :: (objs_of (delete y (delete x g))).*1)).
  - cbn [owns]. pose proof (owns_nonneg (objs_of (delete y (delete x g))).*1 p). lia.
  - rewrite (objs_delete g x _ Hx), (objs_delete (delete x g) y (c', t')) by (by rewrite lookup_delete_ne). done.
Qed.

(** Objects that share a block are equal. *)
Lemma related_same w g x y c t c' t' p : related w g -> g !! x = Some (c, t) -> g !! y = Some (c', t') ->
  own c p = 1 -> own c' p = 1 -> c = c'.
Proof.
  intros [_ [_ _ _ S]] Hx Hy. apply S; [apply (list_elem_of_fmap_2 fst _ (c, t))|apply (list_elem_of_fmap_2 fst _ (c', t'))];
    by eapply objs_elem.
Qed.

(** ** Steps *)

(** One object changes. *)
Lemma related_update w g x c t t' s' : related w g -> g !! x = Some (c, t) -> becomes t' (mkSt (wheap w) c) s' ->
  related (mkWorld (hp s') (<[x := this s']> (wobjs w))) (<[x := (this s', t')]> g).
Proof.
  intros [E V] Hx [HR HF HT]. split; cbn [wheap wobjs]; [by rewrite fmap_insert, E|].
  eapply valid_perm; [symmetry; apply objs_insert|].
  apply (valid_frame (wheap w) [(c, t)] (objs_of (delete x g)) (hp s') [(this s', t')]).
  - eapply valid_perm; [by apply objs_delete|done].
  - done.
  - intros c' t'' Hin. apply list_elem_of_singleton in Hin. by simplify_eq.
  - intros c' Hin. apply list_elem_of_singleton in Hin as ->. destruct HT as [|HT]; [by left|right]. cbn in HT. rewrite HT.
    by left.
Qed.

(** A new object. *)
Lemma related_new w g x t' s' h0 : related w g -> g !! x = None -> h0 = wheap w ->
  rep (hp s') (this s') t' -> frame h0 [] (hp s') [this s'] ->
  sole (hp s') (this s') \/ this s' ∈ (objs_of g).*1 ->
  related (mkWorld (hp s') (<[x := this s']> (wobjs w))) (<[x := (this s', t')]> g).
Proof.
  intros [E V] Hx -> HR HF HS. split; cbn [wheap wobjs]; [by rewrite fmap_insert, E|].
  eapply valid_perm; [symmetry; apply objs_insert|]. rewrite delete_id by done.
  apply (valid_frame (wheap w) [] (objs_of g) (hp s') [(this s', t')]); [done|done| |].
  - intros c' t'' Hin. apply list_elem_of_singleton in Hin. by simplify_eq.
  - intros c' Hin. by apply list_elem_of_singleton in Hin as ->.
Qed.

(** An object goes. *)
Lemma related_destroy w g x c t h' : related w g -> g !! x = Some (c, t) -> frame (wheap w) [c] h' [] ->
  related (mkWorld h' (delete x (wobjs w))) (delete x g).
Proof.
  intros [E V] Hx HF. split; cbn [wheap wobjs]; [by rewrite fmap_delete, E|].
  apply (valid_frame (wheap w) [(c, t)] (objs_of (delete x g)) h' []); [|done|by intros ? ? ?%elem_of_nil|by intros ? ?%elem_of_nil].
  eapply valid_perm; [by apply objs_delete|done].
Qed.

(** Objects trade places, or are replaced by equal bytes. *)
Lemma related_objects w g g' objs : related w g -> objs = fst <$> g' -> objs_of g' ≡ₚ objs_of g -> related (mkWorld (wheap w) objs) g'.
Proof. intros [E V] -> Hp. split; cbn [wheap wobjs]; [done|]. by eapply valid_perm. Qed.

(** The object [y] is moved to [x], which held the references of [os], and is left empty. *)
Lemma related_move w g x y cy ty gone os h1 : related w g -> g !! y = Some (cy, ty) -> x <> y ->
  os ++ objs_of (delete x (delete y g)) ≡ₚ objs_of (delete y g) ->
  frame (wheap w) os.*1 h1 [] -> small gone -> rep h1 gone [] ->
  related (mkWorld h1 (<[x := cy]> (<[y := gone]> (wobjs w)))) (<[x := (cy, ty)]> (<[y := (gone, [])]> g)).
Proof.
  intros [E V] Hy Hne Hos HF Hs Hg. split; cbn [wheap wobjs]; [by rewrite !fmap_insert, E|].
  pose proof HF as [Hok1 _ _].
  assert (HF' : frame (wheap w) (((cy, ty) :: os).*1) h1 ([(cy, ty); (gone, [])].*1)).
  { cbn [fmap list_fmap fst]. eapply frame_owns; [| |exact (frame_app _ _ _ _ [cy] HF)].
    - intros p. rewrite owns_app. cbn [owns]. lia.
    - intros p. cbn [app owns]. pose proof (owns_small gone p Hs) as E0. rewrite owns_single in E0. lia. }
  eapply valid_perm; [symmetry; etrans; [apply objs_insert|]|].
  { apply Permutation_skip. rewrite delete_insert_ne by done. apply objs_insert. }
  apply (valid_frame (wheap w) ((cy, ty) :: os) (objs_of (delete y (delete x g))) h1 [(cy, ty); (gone, [])]).
  - eapply valid_perm; [|exact V]. etrans; [by apply objs_delete|]. cbn [app]. apply Permutation_skip.
    rewrite delete_delete. by symmetry.
  - done.
  - intros c t Hin. apply elem_of_cons in Hin as [Hin|Hin]; [|apply list_elem_of_singleton in Hin]; simplify_eq; [|done].
    eapply (rep_frame (wheap w)); [by destruct V| |exact HF|by eapply valid_rep, objs_elem].
    intros p Hp. destruct V as [_ _ C _]. rewrite C. rewrite (owns_perm (objs_of g).*1 (cy :: os.*1 ++ (objs_of (delete x (delete y g))).*1)).
    + cbn [owns]. rewrite owns_app. pose proof (owns_nonneg (objs_of (delete x (delete y g))).*1 p). lia.
    + rewrite (objs_delete g y _ Hy). cbn. apply Permutation_skip. by rewrite <- fmap_app, Hos.
  - intros c Hin. cbn in Hin. apply elem_of_cons in Hin as [->|Hin]; [right; cbn; by left|].
    apply list_elem_of_singleton in Hin as ->. left. by apply small_sole.
Qed.

(** ** Calls *)

(** A call ends as its effect says, or with an exception and texts it may leave. *)
Definition good `{!Platform} (e : effect) (fail : texts -> Prop) (m : texts) (o : option (world * result fb_exn unit)) : Prop :=
  match o with
  | Some (w', Ok _) => exists m', e = To m' /\ sim w' m'
  | Some (w', Err out_of_range) => e = OutOfRange /\ sim w' m
  | Some (w', Err x) => justified x /\ exists m', fail m' /\ sim w' m'
  | None => False
  end.

Section Calls.
Context {PF : Platform} {PL : PlatformLaws} (w : world) (g : ghost) (R : related w g).

Lemma on_good x c t f t' (E : list Z -> Prop) (fail : texts -> Prop) : g !! x = Some (c, t) ->
  guards E f (mkSt (wheap w) c) (fun _ => becomes t' (mkSt (wheap w) c)) ->
  (forall t'', E t'' -> fail (<[x := t'']> (snd <$> g))) ->
  good (To (<[x := t']> (snd <$> g))) fail (snd <$> g) (on x f w).
Proof.
  intros Hx Hf HE. unfold on. rewrite (related_lookup _ _ _ _ _ R Hx). cbn [mbind option_bind].
  unfold guards, outcome in Hf. destruct (f _) as [[s' [[]|e]]|]; [| |done]; cbn [mbind option_bind fst snd].
  - eexists. split; [done|]. eexists. split; [by eapply related_update|]. by rewrite fmap_insert.
  - destruct Hf as [(t'' & Ht & HB) He]. assert (Hgo : exists m', fail m' /\ sim (mkWorld (hp s') (<[x := this s']> (wobjs w))) m').
    { eexists. split; [by apply HE|]. eexists. split; [by eapply related_update|]. by rewrite fmap_insert. }
    by destruct e.
Qed.

Lemma on_good_strong x c t f t' (fail : texts -> Prop) : g !! x = Some (c, t) ->
  strong f (mkSt (wheap w) c) (fun _ => becomes t' (mkSt (wheap w) c)) -> fail (snd <$> g) ->
  good (To (<[x := t']> (snd <$> g))) fail (snd <$> g) (on x f w).
Proof.
  intros Hx Hf HE. eapply (on_good x c t f t' (eq t)); [done| |].
  - eapply strong_guards; [by eapply related_ok|by eapply related_rep|done|done].
  - intros t'' <-. by rewrite insert_id by (by rewrite lookup_fmap, Hx).
Qed.

Lemma on_range x c t f (fail : texts -> Prop) : g !! x = Some (c, t) ->
  f (mkSt (wheap w) c) = Some (mkSt (wheap w) c, Err out_of_range) -> good OutOfRange fail (snd <$> g) (on x f w).
Proof.
  intros Hx Hf. unfold on. rewrite (related_lookup _ _ _ _ _ R Hx). cbn [mbind option_bind]. rewrite Hf. cbn.
  split; [done|]. exists g. split; [|done]. rewrite insert_id by (by eapply related_lookup). by destruct w.
Qed.

Lemma make_good x f t' (fail : texts -> Prop) : g !! x = None ->
  ctor f (mkSt (wheap w) stack_bytes) (fun s' => makes t' (mkSt (wheap w) stack_bytes) s' /\
    (sole (hp s') (this s') \/ this s' ∈ (objs_of g).*1)) -> fail (snd <$> g) ->
  good (To (<[x := t']> (snd <$> g))) fail (snd <$> g) (make x f w).
Proof.
  intros Hx Hf HE. unfold make. rewrite (related_none _ _ _ R Hx).
  unfold ctor, outcome in Hf. destruct (f _) as [[s' [[]|e]]|]; [| |done]; cbn [mbind option_bind fst snd].
  - destruct Hf as [[HR HF] HS]. eexists. split; [done|]. eexists. split; [by eapply related_new|]. by rewrite fmap_insert.
  - destruct Hf as [Hh He]. cbn [hp] in Hh. rewrite Hh.
    assert (Hgo : exists m', fail m' /\ sim (mkWorld (wheap w) (wobjs w)) m').
    { exists (snd <$> g). split; [done|]. exists g. split; [by destruct w|done]. }
    by destruct e.
Qed.

Lemma make_good_strong x f t' (fail : texts -> Prop) : g !! x = None ->
  strong f (mkSt (wheap w) stack_bytes) (fun _ => makes_new t' (mkSt (wheap w) stack_bytes)) -> fail (snd <$> g) ->
  good (To (<[x := t']> (snd <$> g))) fail (snd <$> g) (make x f w).
Proof.
  intros Hx Hf HE. apply make_good; [done| |done]. apply ctor_strong. eapply strong_mono; [done|].
  intros [] s' [? ?]. split; [done|by left].
Qed.

Lemma make_range x f (fail : texts -> Prop) : g !! x = None ->
  (exists s', f (mkSt (wheap w) stack_bytes) = Some (s', Err out_of_range) /\ hp s' = wheap w) ->
  good OutOfRange fail (snd <$> g) (make x f w).
Proof.
  intros Hx (s' & Hf & Hh). unfold make. rewrite (related_none _ _ _ R Hx), Hf. cbn. rewrite Hh.
  split; [done|]. exists g. split; [by destruct w|done].
Qed.

(** ** Strings as arguments *)

Lemma rep_inj h c t t' : rep h c t -> rep h c t' -> t = t'.
Proof.
  intros H1 H2. assert (El : length t = length t').
  { pose proof (size_spec _ _ _ H1) as E1. pose proof (size_spec _ _ _ H2) as E2. rewrite E1 in E2. by simplify_eq. }
  pose proof (peek_spec c t 0 (length t) (mkSt h c) (fun l _ => l = t) H1 ltac:(lia)) as P1.
  pose proof (peek_spec c t' 0 (length t) (mkSt h c) (fun l _ => l = t') H2 ltac:(lia)) as P2.
  rewrite !drop_0 in P1, P2. rewrite take_ge in P1 by lia. rewrite take_ge in P2 by lia.
  specialize (P1 eq_refl). specialize (P2 eq_refl). unfold total, outcome in P1, P2.
  destruct (peek _ _ _ _) as [[? []]|]; [|done..]. congruence.
Qed.

Section Arg.
Context (x y : Z) (c : core) (t : list Z) (cy : core) (ty : list Z).
Context (Hx : g !! x = Some (c, t)) (Hy : g !! y = Some (cy, ty)).

Abbreviation s := (mkSt (wheap w) c).

(** Part of a text, in memory apart from this object or in its own. *)
Definition source (p : ptr) : Prop := forall pos n, (pos + n <= length ty)%nat ->
  apart s (ptr_add p (Z.of_nat pos)) (take n (drop pos ty)) \/ inside s t (ptr_add p (Z.of_nat pos)) (take n (drop pos ty)).

Lemma inside_part q p pos n : data c = Some q -> distance p q = Some 0 -> t = ty -> (pos + n <= length ty)%nat ->
  inside s t (ptr_add p (Z.of_nat pos)) (take n (drop pos ty)).
Proof.
  intros Hq Hd -> Hle. exists q, (0 + Z.of_nat pos). assert (Hl : length (take n (drop pos ty)) = n) by (rewrite length_take, length_drop; lia).
  rewrite Hl. split_and!; [done|by apply distance_add|lia|lia|]. f_equal. f_equal. lia.
Qed.

Lemma other_stable p : x <> y -> data_of cy = Some p -> stable s p ty.
Proof using R Hx Hy.
  intros Hne Hp. eapply data_of_stable; [by eapply related_rep|by eapply related_ok|done| |done].
  intros q Hq. pose proof (related_two _ _ _ _ _ _ _ _ q R Hne Hx Hy). cbn [this]. lia.
Qed.

Lemma other_source p : x <> y -> data_of cy = Some p -> source p.
Proof using R Hx Hy.
  intros Hne Hp. pose proof (other_stable p Hne Hp) as Hst. intros pos n Hle.
  assert (Hst' : stable s (ptr_add p (Z.of_nat pos)) (take n (drop pos ty))) by (apply stable_take, stable_drop; [lia|done]).
  destruct p as [bytes|i|q i]; [by left|done|].
  destruct (decide (own c q = 1)) as [E|].
  - right. assert (Hcy : own cy q = 1 /\ i = 0).
    { unfold data_of in Hp. unfold own. destruct (category cy) as [[]|]; [done| | |done]; cbn in Hp; simplify_eq; by rewrite Z.eqb_refl. }
    destruct Hcy as [Hcy ->]. assert (cy = c) as -> by (symmetry; by eapply (related_same w g x y)).
    destruct (rep_data _ _ _ (related_rep _ _ _ _ _ R Hx)) as (q' & Hq').
    assert (q' = InHeap q 0) as ->.
    { unfold data in Hq'. unfold data_of in Hp. destruct (category c) as [[]|]; cbn in *; by simplify_eq. }
    eapply inside_part; [done|cbn; by rewrite Z.eqb_refl|by eapply rep_inj; eapply related_rep|done].
  - left. split; [done|]. cbn. pose proof (own_nonneg c q). lia.
Qed.

(** The object of the argument, its size and its characters. *)
Lemma arg_spec : exists a p, arg_of w x y = Some a /\ arg_core a s = Some (s, Ok cy) /\ arg_data a s = Some (s, Ok p) /\ source p.
Proof using R Hx Hy.
  unfold arg_of. destruct (Z.eqb_spec x y) as [<-|Hne].
  - assert (cy = c /\ ty = t) as [-> ->] by (split; congruence).
    destruct (rep_data _ _ _ (related_rep _ _ _ _ _ R Hx)) as (q & Hq). exists This, q. split_and!; [done|done| |].
    + cbn. unfold of_this, access. cbn [this]. by rewrite Hq.
    + intros pos n Hle. right. eapply inside_part; [done|by eapply distance_refl; [eapply related_rep|]|done|done].
  - rewrite (related_lookup _ _ _ _ _ R Hy). destruct (rep_data_of _ _ _ (related_rep _ _ _ _ _ R Hy)) as (p & Hp).
    exists (Other cy), p. split_and!; [done|done| |by apply other_source]. cbn. unfold access. by rewrite Hp.
Qed.
End Arg.
End Calls.
