(* ===== verification/FBStringRefine.v ===== *)
(** Every call on strings does to their texts what its specification says, and programs refine their
    specification. *)
From S2P Require Import Prelude FBStringCore FBStringInv FBStringCoreSpec FBStringRoom FBStringSize FBString FBStringSpec FBStringEdit FBStringReplace FBStringNew FBStringWorld FBStringSim.
Import Core.

Lemma when_some b e e' : when b e = Some e' -> b = true /\ e = e'.
Proof. unfold when. destruct b; naive_solver. Qed.

Lemma text_lookup (g : ghost) x t : (snd <$> g) !! x = Some t -> exists c, g !! x = Some (c, t).
Proof. rewrite lookup_fmap. destruct (g !! x) as [[c t']|] eqn:E; [|done]. intros [= <-]. by exists c. Qed.

Lemma unused_spec (g : ghost) x : unused x (snd <$> g) = true -> g !! x = None.
Proof. unfold unused. rewrite lookup_fmap. by destruct (g !! x). Qed.

Lemma is_size_spec n : is_size n = true -> 0 <= n < 2 ^ 64.
Proof. unfold is_size. intros [?%Z.leb_le ?%Z.ltb_lt]%andb_true_iff. lia. Qed.

Lemma has_spec bytes n : has bytes n = true ->
  0 <= n < 2 ^ 64 /\ Z.of_nat (length (take (Z.to_nat n) bytes)) = n /\ take (length (take (Z.to_nat n) bytes)) bytes = take (Z.to_nat n) bytes.
Proof.
  unfold has, len. intros [?%is_size_spec ?%Z.leb_le]%andb_true_iff.
  assert (El : length (take (Z.to_nat n) bytes) = Z.to_nat n) by (rewrite length_take; lia).
  rewrite El. split_and!; [lia|lia|lia|done].
Qed.

Lemma has_words_spec address bytes n : has_words address bytes n = true -> address .& 7 = 0 -> n <= 23 -> 0 <= n ->
  (8 * ((Z.to_nat n + 7) / 8) <= length bytes)%nat.
Proof.
  unfold has_words, len. intros Hw Ha Hn H0. rewrite Ha in Hw. cbn [Z.eqb negb orb] in Hw. rewrite (proj2 (Z.ltb_ge 23 n)) in Hw by done.
  apply Z.leb_le in Hw. assert (Z.of_nat ((Z.to_nat n + 7) / 8) = (n + 7) / 8); [|lia].
  rewrite Nat2Z.inj_div. f_equal. lia.
Qed.

(** Takes a specification apart: the texts it looks up and its preconditions. *)
Ltac open_spec H :=
  repeat match type of H with
  | (((snd <$> _) !! ?x) ≫= _) = Some _ =>
      let E := fresh "E" in
      destruct ((snd <$> _) !! x) eqn:E in H; [cbn [mbind option_bind] in H; apply text_lookup in E as [? ?]|done]
  | when _ _ = Some _ => apply when_some in H as [? <-]
  | Some _ = Some _ => injection H as <-
  end;
  repeat match goal with
  | H : _ && _ = true |- _ => apply andb_true_iff in H as [? ?]
  | H : is_size _ = true |- _ => apply is_size_spec in H
  | H : unused _ _ = true |- _ => apply unused_spec in H
  | H : (_ <? _) = true |- _ => apply Z.ltb_lt in H
  | H : negb (_ =? _) = true |- _ => apply negb_true_iff, Z.eqb_neq in H
  end; unfold len, fill in *.

Section Calls.
Context {PF : Platform} {PL : PlatformLaws} (w : world) (g : ghost) (R : related w g).

Abbreviation m := (snd <$> g).

Definition refines (k : FBStringWorld.call) : Prop := forall e, spec k m = Some e -> good e (failure k m) m (run k w).

Lemma ok_st c : heap_ok (hp (mkSt (wheap w) c)).
Proof using R. by eapply related_ok. Qed.

Lemma rep_st x c t c' : g !! x = Some (c, t) -> rep (hp (mkSt (wheap w) c')) c t.
Proof using R. by apply related_rep. Qed.

Lemma rep_this x c t : g !! x = Some (c, t) -> rep (hp (mkSt (wheap w) c)) (this (mkSt (wheap w) c)) t.
Proof using R. by apply related_rep. Qed.

Lemma stack_st : length (this (mkSt (wheap w) stack_bytes)) = 24%nat.
Proof using PL. apply stack_bytes_law. Qed.

Local Hint Resolve related_ok related_rep stack_bytes_law ok_st rep_st rep_this stack_st : core.

(** ** Constructors *)

Lemma refines_New x address bytes n : refines (New x address bytes n).
Proof using R PL.
  intros e H. cbn [spec] in H. open_spec H.
  match goal with Hh : has _ _ = true |- _ => destruct (has_spec _ _ Hh) as (? & ? & ?) end.
  eapply make_good_strong; [done|done| |done]. eapply fbstring_core_spec; [done|eauto|eauto|].
  split_and!; [lia|lia|rewrite length_take in *; lia|]. intros Ha Hn. eapply has_words_spec; [done..|lia].
Qed.

Lemma refines_NewFill x n ch : refines (NewFill x n ch).
Proof using R PL.
  intros e H. cbn [spec] in H. open_spec H. eapply make_good; [done|done| |done].
  eapply outcome_mono; [apply basic_fbstring_fill_spec; [eauto|eauto|lia]|]. intros [[]|] s'; cbn; [|done].
  intros [? ?]. split; [done|by left].
Qed.

Lemma refines_NewDefault x : refines (NewDefault x).
Proof using R PL.
  intros e H. cbn [spec] in H. open_spec H.
  assert (Hg : good (To (<[x := []]> m)) (fun _ => False) m (make x reset w)); [|done].
  pose proof (reset_spec (mkSt (wheap w) stack_bytes) stack_bytes_law) as Hr.
  unfold make. rewrite (related_none _ _ _ R) by done. unfold total, outcome in Hr.
  destruct (reset _) as [[s' [[]|]]|]; [|done..]. destruct Hr as (Eh & Hs & Hr). cbn in Eh |- *. eexists. split; [done|].
  eexists. split; [eapply (related_new w g); [done|done|done|done| |left; by apply small_sole]|by rewrite fmap_insert].
  rewrite Eh. apply frame_to_small; [done|]. apply frame_refl. eauto.
Qed.

Lemma refines_NewCopy x y : refines (NewCopy x y).
Proof using R PL.
  intros e H. cbn [spec] in H. open_spec H. cbn [run failure]. erewrite related_lookup by done. cbn [mbind option_bind].
  eapply make_good; [done|done| |done]. apply ctor_strong.
  eapply strong_mono; [apply fbstring_core_copy_spec; [done|eauto| |eauto|eauto]|].
  - intros p. destruct R as [_ [_ _ C _]]. cbn [hp]. rewrite C. pose proof (owns_bound (objs_of g).*1 p) as Hb.
    unfold objs_of in Hb at 2. rewrite !length_fmap in Hb. unfold few in *.
    assert (Z.of_nat (stdpp.base.size m) < 2 ^ 60) by (by apply Z.ltb_lt). rewrite map_size_fmap in *.
    rewrite length_map_to_list in Hb. lia.
  - intros [] s' [? [?|Es]]; (split; [done|]); [by left|right]. rewrite Es.
    apply (list_elem_of_fmap_2 fst _ (x0, l)). by eapply objs_elem.
Qed.

Lemma refines_NewAcquire x text slack : refines (NewAcquire x text slack).
Proof using R PL.
  intros e H. cbn [spec] in H. open_spec H. cbn [run failure]. unfold acquire. cbv zeta.
  destruct (malloc (wheap w) (Z.of_nat (length (text ++ 0 :: slack)))) as [[d bytes]|] eqn:Em.
  2:{ split; [exact Em|]. exists m. split; [done|]. by exists g. }
  destruct (malloc_law _ _ _ _ Em) as (Hd & Hlt & _ & Hf). rewrite length_app in Hlt, Hf. cbn [length] in *.
  unfold make. cbn [wobjs wheap]. rewrite (related_none _ _ _ R) by done.
  pose proof (fbstring_core_acquire_spec d text (Z.of_nat (length (text ++ 0 :: slack))) (text ++ 0 :: slack) (wheap w) stack_bytes) as Ha.
  unfold total, outcome in Ha. rewrite length_app in *. cbn [length] in *.
  destruct (fbstring_core_acquire _ _ _ _) as [[s' [[]|]]|];
    [|exfalso; apply Ha; [eauto|apply Hf; lia|lia|eauto|by exists slack|lia..]|
      exfalso; apply Ha; [eauto|apply Hf; lia|lia|eauto|by exists slack|lia..]].
  destruct Ha as [[HR HF] HS]; [eauto|apply Hf; lia|lia|eauto|by exists slack|lia..|]. cbn.
  eexists. split; [done|]. eexists. split; [eapply (related_new w g); [done|done|done|done|done|by left]|by rewrite fmap_insert].
Qed.

Lemma refines_NewSubstr x y pos n : refines (NewSubstr x y pos n).
Proof using R PL.
  intros e H. cbn [spec] in H. open_spec H. cbn [run failure]. erewrite related_lookup by done. cbn [mbind option_bind]. unfold ranged.
  destruct (Z.leb_spec pos (Z.of_nat (length l))).
  - eapply make_good_strong; [done|done| |done]. eapply substr_spec; [eauto|eauto|eauto|lia|lia].
  - eapply make_range; [done|done|]. exists (mkSt (wheap w) stack_bytes). split; [|done]. unfold substr, access.
    rewrite M_bind_unfold, (size_spec (wheap w) x0 l) by eauto. rewrite (proj2 (Z.leb_gt _ _)) by done. done.
Qed.

Lemma refines_NewPlus x y z : refines (NewPlus x y z).
Proof using R PL.
  intros e H. cbn [spec] in H. open_spec H. cbn [run failure]. erewrite (related_lookup w g y) by done. cbn [mbind option_bind].
  erewrite (related_lookup w g z) by done. cbn [mbind option_bind]. eapply make_good; [done|done| |done].
  eapply outcome_mono; [by eapply operator_plus_spec; eauto|]. intros [[]|] s'; cbn; [|done].
  intros [? ?]. split; [done|by left].
Qed.

(** ** Moves and destruction *)

Lemma refines_NewMove x y : refines (NewMove x y).
Proof using R PL.
  intros e H. cbn [spec] in H. open_spec H. cbn [run failure]. rewrite (related_none w g x) by done.
  unfold moved. erewrite related_lookup by done. cbn [mbind option_bind].
  match goal with Hy : g !! y = Some (?c, _) |- _ =>
    pose proof (fbstring_core_move_spec c (mkSt (wheap w) stack_bytes) (rep_length _ _ _ (related_rep _ _ _ _ _ R Hy))) as Hm end.
  unfold total, outcome in Hm. rewrite M_bind_unfold. destruct (fbstring_core_move _ _) as [[s' [gone|]]|]; [|done..].
  destruct Hm as (-> & Hs & Hg). cbn. eexists. split; [done|]. eexists. split.
  - eapply related_move with (os := []); [done|done|congruence| |apply frame_refl; eauto|done|done].
    by rewrite (delete_id _ x) by (by rewrite lookup_delete_ne by congruence).
  - by rewrite !fmap_insert.
Qed.

Lemma refines_AssignMove x y : refines (AssignMove x y).
Proof using R PL.
  intros e H. cbn [spec] in H. open_spec H. cbn [run failure]. destruct (Z.eqb_spec x y) as [->|Hne].
  { unfold on. erewrite related_lookup by done. cbn. eexists. split; [done|]. exists g. split; [|done].
    rewrite insert_id by (by eapply related_lookup). by destruct w. }
  erewrite (related_lookup w g x) by done. cbn [mbind option_bind]. unfold moved.
  erewrite (related_lookup w g y) by done. cbn [mbind option_bind assign_move].
  match goal with Hx : g !! x = Some (?c, ?t), Hy : g !! y = Some (?cy, _) |- _ =>
    pose proof (destroy_spec (mkSt (wheap w) c) t (ok_st _) (rep_this _ _ _ Hx)) as Hd;
    pose proof (fun s => fbstring_core_move_spec cy s (rep_length _ _ _ (related_rep _ _ _ _ _ R Hy))) as Hm end.
  unfold total, outcome in Hd, Hm. rewrite M_bind_unfold. destruct (destroy _) as [[s1 [[]|]]|]; [|done..].
  specialize (Hm s1). rewrite M_bind_unfold. destruct (fbstring_core_move _ s1) as [[s' [gone|]]|]; [|done..].
  destruct Hm as (-> & Hs & Hg). cbn. eexists. split; [done|]. eexists. split.
  - match goal with Hx : g !! x = Some (?c, ?t) |- _ =>
      eapply related_move with (os := [(c, t)]); [done|done|done| |exact Hd|done|done];
      cbn [app]; rewrite (objs_delete (delete y g) x (c, t)) by (by rewrite lookup_delete_ne); done end.
  - by rewrite !fmap_insert.
Qed.

Lemma refines_Destroy x : refines (Destroy x).
Proof using R PL.
  intros e H. cbn [spec] in H. open_spec H. cbn [run failure]. unfold on. erewrite related_lookup by done. cbn [mbind option_bind].
  match goal with Hx : g !! x = Some (?c, ?t) |- _ =>
    pose proof (destroy_spec (mkSt (wheap w) c) t (ok_st _) (rep_this _ _ _ Hx)) as Hd end.
  unfold total, outcome in Hd. destruct (destroy _) as [[s1 [[]|]]|]; [|done..]. cbn.
  eexists. split; [done|]. exists (delete x g). split; [|by rewrite fmap_delete].
  rewrite delete_insert_eq. by eapply related_destroy.
Qed.

Lemma refines_Swap x y : refines (Swap x y).
Proof using R.
  intros e H. cbn [spec] in H. open_spec H. cbn [run failure]. erewrite (related_lookup w g x) by done. cbn [mbind option_bind].
  erewrite (related_lookup w g y) by done. cbn [mbind option_bind]. cbn. eexists. split; [done|].
  match goal with Hx : g !! x = Some ?cx, Hy : g !! y = Some ?cy |- _ => exists (<[y := cx]> (<[x := cy]> g)) end.
  split; [|by rewrite !fmap_insert]. eapply related_objects; [done|by rewrite !fmap_insert; destruct R as [-> _]|].
  rewrite objs_insert. destruct (decide (x = y)) as [->|Hne].
  - rewrite delete_insert_eq. symmetry. by apply objs_delete.
  - rewrite delete_insert_ne by done. rewrite objs_insert.
    rewrite (objs_delete g x _ H0), (objs_delete (delete x g) y _) by (by rewrite lookup_delete_ne).
    rewrite (delete_delete g x y). apply Permutation_refl.
Qed.

(** ** Methods without another string *)

(** A method of the object [x] that keeps the texts when it throws. *)
Local Ltac method :=
  match goal with
  | Hx : g !! ?x = Some (?c, ?t) |- good (To (<[?x := _]> _)) _ _ (on ?x _ w) => eapply on_good_strong; [done|exact Hx| |done]
  end.

Lemma refines_AssignChar x ch : refines (AssignChar x ch).
Proof using R PL. intros e H. cbn [spec] in H. open_spec H. cbn [run]. method. eapply assign_char_spec; eauto. Qed.

Lemma refines_AppendFill x n ch : refines (AppendFill x n ch).
Proof using R PL. intros e H. cbn [spec] in H. open_spec H. cbn [run]. method. eapply append_fill_spec; [eauto|eauto|lia|lia]. Qed.

Lemma refines_PushBack x ch : refines (PushBack x ch).
Proof using R PL. intros e H. cbn [spec] in H. open_spec H. cbn [run]. method. eapply push_back_spec; [done|eauto|eauto|lia]. Qed.

Lemma refines_PopBack x : refines (PopBack x).
Proof using R PL. intros e H. cbn [spec] in H. open_spec H. cbn [run]. method. eapply (shrink_spec 1); [eauto|eauto|lia]. Qed.

Lemma refines_AtStore x n ch : refines (AtStore x n ch).
Proof using R PL.
  intros e H. cbn [spec] in H. open_spec H. cbn [run]. unfold ranged. destruct (Z.ltb_spec n (Z.of_nat (length l))).
  - method. eapply at_store_spec; [eauto|eauto|lia].
  - eapply on_range; [done|done|]. unfold at_store, of_this, access. rewrite M_bind_unfold. cbn [this].
    rewrite (size_spec (wheap w) x0 l) by eauto. by rewrite (proj2 (Z.ltb_ge _ _)) by lia.
Qed.

Lemma refines_Resize x n ch : refines (Resize x n ch).
Proof using R PL.
  intros e H. cbn [spec] in H. open_spec H. cbn [run]. method.
  eapply strong_mono; [eapply resize_spec; [eauto|eauto|lia]|]. intros [] s'. unfold resized.
  match goal with |- context [replicate (Z.to_nat n - length ?l)] =>
    by replace (Z.to_nat (n - Z.of_nat (length l))) with (Z.to_nat n - length l)%nat by lia end.
Qed.

Lemma refines_Clear x : refines (Clear x).
Proof using R PL. intros e H. cbn [spec] in H. open_spec H. cbn [run]. method. eapply (resize_spec 0 0); [eauto|eauto|lia]. Qed.

Lemma refines_Reserve x n : refines (Reserve x n).
Proof using R PL.
  intros e H. cbn [spec] in H. open_spec H. cbn [run]. method.
  eapply strong_mono; [eapply fb_reserve_spec; [done|eauto|eauto|lia|]|intros []; apply gets_room_becomes].
  intros Hs. rewrite Hs in *. by apply Z.leb_le.
Qed.

Lemma refines_ShrinkToFit x : refines (ShrinkToFit x).
Proof using R PL. intros e H. cbn [spec] in H. open_spec H. cbn [run]. method. eapply shrink_to_fit_spec; eauto. Qed.

(** ** Positions *)

Lemma enforce_fails {A} pos n (F : Z -> unit -> op A) s : size (this s) = Some n -> n < pos ->
  (sz ← of_this size; enforce (pos <=? sz) ≫= F sz) s = Some (s, Err out_of_range).
Proof.
  intros Hs Hlt. unfold of_this, access. rewrite M_bind_unfold. rewrite Hs.
  by rewrite (proj2 (Z.leb_gt pos n)) by done.
Qed.

Lemma spliced_insert t pos l : 0 <= pos <= Z.of_nat (length t) ->
  spliced t pos 0 l = take (Z.to_nat pos) t ++ l ++ drop (Z.to_nat pos) t.
Proof.
  intros. unfold spliced, len. rewrite Z.min_l by lia. change (Z.to_nat 0) with 0%nat. by rewrite Nat.add_0_r.
Qed.

(** A position behind the end. *)
Local Ltac position pos t :=
  unfold ranged; destruct (Z.leb_spec pos (Z.of_nat (length t)));
  [|eapply on_range; [done|done|]; by eapply enforce_fails; [eapply size_spec; eauto|]].

Lemma stable_external s bytes n : has bytes n = true -> stable s (External bytes) (take (Z.to_nat n) bytes).
Proof. by intros (_ & _ & ?)%has_spec. Qed.

Lemma refines_InsertFill x pos n ch : refines (InsertFill x pos n ch).
Proof using R PL.
  intros e H. cbn [spec] in H. open_spec H. cbn [run]. position pos l.
  eapply (on_good w g R x _ _ _ _ (eq l)); [done| |].
  - rewrite spliced_insert by lia. eapply insert_fill_spec; [eauto|eauto|lia|lia|lia].
  - intros t <-. cbn. by rewrite insert_id by (rewrite lookup_fmap; by simplify_option_eq).
Qed.

Lemma refines_Insert x pos bytes n : refines (Insert x pos bytes n).
Proof using R PL.
  intros e H. cbn [spec] in H. open_spec H. cbn [run]. position pos l.
  match goal with Hh : has _ _ = true |- _ =>
    destruct (has_spec _ _ Hh) as (? & En & ?); pose proof (fun s => stable_external s _ _ Hh) as Hst end.
  eapply (on_good w g R x _ _ _ _ (eq l)); [done| |].
  - rewrite spliced_insert by lia. rewrite <- En at 1. eapply insert_spec; [eauto|eauto|done|lia|lia].
  - intros t <-. cbn. by rewrite insert_id by (rewrite lookup_fmap; by simplify_option_eq).
Qed.

Lemma refines_Erase x pos n : refines (Erase x pos n).
Proof using R PL.
  intros e H. cbn [spec] in H. open_spec H. cbn [run]. position pos l. method.
  eapply strong_mono; [eapply erase_spec; [eauto|eauto|lia|lia]|]. by intros [].
Qed.

Lemma half_fails x c t pos n1 l t' : g !! x = Some (c, t) ->
  half_replaced t (Z.to_nat pos) (Z.to_nat (Z.min n1 (Z.of_nat (length t) - pos))) l t' -> half_way x pos n1 l m (<[x := t']> m).
Proof.
  intros Hx [->| ->]; [left; apply insert_id; by rewrite lookup_fmap, Hx|]. right. exists t. split; [by rewrite lookup_fmap, Hx|done].
Qed.

Lemma refines_Replace x pos n1 bytes n2 : refines (Replace x pos n1 bytes n2).
Proof using R PL.
  intros e H. cbn [spec] in H. open_spec H. cbn [run]. position pos l.
  match goal with Hh : has _ _ = true |- _ =>
    destruct (has_spec _ _ Hh) as (? & En & ?); pose proof (fun s => stable_external s _ _ Hh) as Hst end.
  eapply (on_good w g R x _ _ _ _ (half_replaced l (Z.to_nat pos) (Z.to_nat (Z.min n1 (Z.of_nat (length l) - pos))) (take (Z.to_nat n2) bytes))); [done| |intros t Ht; cbn [failure]; by eapply half_fails].
  replace (replace pos n1 (External bytes) n2) with (replace pos n1 (External bytes) (Z.of_nat (length (take (Z.to_nat n2) bytes))))
    by (by rewrite En).
  eapply fb_replace_spec; [eauto|eauto|by left|lia|lia|lia].
Qed.

Lemma refines_ReplaceChars x pos n1 n2 ch : refines (ReplaceChars x pos n1 n2 ch).
Proof using R PL.
  intros e H. cbn [spec] in H. open_spec H. cbn [run]. position pos l.
  eapply (on_good w g R x _ _ _ _ (half_replaced l (Z.to_nat pos) (Z.to_nat (Z.min n1 (Z.of_nat (length l) - pos))) (replicate (Z.to_nat n2) ch))); [done| |intros t Ht; cbn [failure]; by eapply half_fails].
  eapply replace_chars_spec; [eauto|eauto|lia|lia|lia|lia].
Qed.

Lemma refines_Assign x bytes n : refines (Assign x bytes n).
Proof using R PL.
  intros e H. cbn [spec] in H. open_spec H. cbn [run].
  match goal with Hh : has _ _ = true |- _ =>
    destruct (has_spec _ _ Hh) as (? & En & ?); pose proof (fun s => stable_external s _ _ Hh) as Hst end.
  eapply (on_good w g R x _ _ _ _ (fun t' => t' = l \/ t' = [])); [done| |].
  - rewrite <- En at 1. eapply assign_spec; [eauto|eauto|by left|lia].
  - intros t [->| ->]; cbn; [left|by right]. by rewrite insert_id by (rewrite lookup_fmap; by simplify_option_eq).
Qed.

Lemma refines_Append x bytes n : refines (Append x bytes n).
Proof using R PL.
  intros e H. cbn [spec] in H. open_spec H. cbn [run].
  match goal with Hh : has _ _ = true |- _ =>
    destruct (has_spec _ _ Hh) as (? & En & ?); pose proof (fun s => stable_external s _ _ Hh) as Hst end.
  method. rewrite <- En at 1. eapply append_spec; [eauto|eauto|left; by split|lia].
Qed.

(** ** Methods with another string, or the same one *)

Lemma ptr_add_0 p : ptr_add p 0 = p.
Proof. destruct p; cbn; [done|f_equal; lia..]. Qed.

(** The whole text of a string. *)
Lemma source_all c t ty p : source w c t ty p -> apart (mkSt (wheap w) c) p ty \/ inside (mkSt (wheap w) c) t p ty.
Proof.
  intros Hs. specialize (Hs 0%nat (length ty) ltac:(lia)). by rewrite ptr_add_0, drop_0, take_ge in Hs by done.
Qed.

(** Part of it. *)
Lemma source_sub c t ty p pos n : source w c t ty p -> 0 <= pos <= Z.of_nat (length ty) -> 0 <= n ->
  apart (mkSt (wheap w) c) (ptr_add p pos) (sub ty pos n) \/ inside (mkSt (wheap w) c) t (ptr_add p pos) (sub ty pos n).
Proof.
  intros Hs Hp Hn. unfold sub, len. specialize (Hs (Z.to_nat pos) (Z.to_nat (Z.min n (Z.of_nat (length ty) - pos))) ltac:(lia)).
  by rewrite Z2Nat.id in Hs by lia.
Qed.

Lemma apart_stable s t p l : apart s p l \/ inside s t p l -> stable s p l \/ inside s t p l.
Proof. intros [[? _]|]; [by left|by right]. Qed.

Lemma length_sub t pos n : 0 <= pos <= Z.of_nat (length t) -> 0 <= n ->
  Z.of_nat (length (sub t pos n)) = procrustes n (Z.of_nat (length t) - pos).
Proof. intros. unfold sub, len. rewrite procrustes_spec, length_take, length_drop. lia. Qed.

(** The argument's object, size and characters are read first. *)
Lemma arg_run {A} a c cy p (s : st) n (f : core -> ptr -> Z -> op A) : size cy = Some n ->
  arg_core a s = Some (s, Ok cy) -> arg_data a s = Some (s, Ok p) -> c = cy ->
  (c ← arg_core a; s ← arg_data a; n ← access (fun _ => size c); f c s n) s = f cy p n s.
Proof.
  intros Hn Hc Hp ->. rewrite M_bind_unfold, Hc, M_bind_unfold, Hp, M_bind_unfold. unfold access. by rewrite Hn.
Qed.

Lemma arg_run_pos a cy p (s : st) n pos (f : ptr -> Z -> op unit) : size cy = Some n ->
  arg_core a s = Some (s, Ok cy) -> arg_data a s = Some (s, Ok p) ->
  (c ← arg_core a; sz ← access (fun _ => size c); _ ← enforce (pos <=? sz); s ← arg_data a; f s sz) s =
  if pos <=? n then f p n s else Some (s, Err out_of_range).
Proof.
  intros Hn Hc Hp. rewrite M_bind_unfold, Hc, M_bind_unfold. unfold access. rewrite Hn, M_bind_unfold.
  unfold enforce. destruct (pos <=? n); [|done]. cbn -[M_bind]. by rewrite M_bind_unfold, Hp.
Qed.

Lemma refines_AppendStr x y : refines (AppendStr x y).
Proof using R PL.
  intros e H. cbn [spec] in H. open_spec H. cbn [run].
  match goal with Hx : g !! x = Some (?c, ?t), Hy : g !! y = Some (?cy, ?ty) |- _ =>
    destruct (arg_spec w g R x y c t cy ty Hx Hy) as (a & p & -> & Hc & Hp & Hs);
    pose proof (size_spec _ _ _ (related_rep _ _ _ _ _ R Hy)) as Hn end.
  cbn [mbind option_bind]. method. unfold sparing, outcome, append_str.
  rewrite (arg_run a _ _ p _ _ (fun _ => append) Hn Hc Hp eq_refl).
  eapply append_spec; [eauto|eauto|by apply source_all|lia].
Qed.

Lemma refines_AppendSubstr x y pos n : refines (AppendSubstr x y pos n).
Proof using R PL.
  intros e H. cbn [spec] in H. open_spec H. cbn [run].
  match goal with Hx : g !! x = Some (?c, ?t), Hy : g !! y = Some (?cy, ?ty) |- _ =>
    destruct (arg_spec w g R x y c t cy ty Hx Hy) as (a & p & -> & Hc & Hp & Hs);
    pose proof (size_spec _ _ _ (related_rep _ _ _ _ _ R Hy)) as Hn;
    pose proof (arg_run_pos a cy p _ _ pos (fun s sz => append (ptr_add s pos) (procrustes n (sz - pos))) Hn Hc Hp) as Hrun;
    pose proof (length_sub ty pos n) as Hl end.
  cbn [mbind option_bind]. unfold ranged. destruct (Z.leb_spec pos (Z.of_nat (length l0))).
  - method. unfold sparing, outcome, append_substr. rewrite Hrun. rewrite <- Hl by lia.
    eapply append_spec; [eauto|eauto|by apply source_sub; [|lia..]|].
    rewrite Hl, procrustes_spec by lia. lia.
  - eapply on_range; [done|done|]. exact Hrun.
Qed.

Lemma refines_AssignCopy x y : refines (AssignCopy x y).
Proof using R PL.
  intros e H. cbn [spec] in H. open_spec H. cbn [run].
  match goal with Hx : g !! x = Some (?c, ?t), Hy : g !! y = Some (?cy, ?ty) |- _ =>
    destruct (arg_spec w g R x y c t cy ty Hx Hy) as (a & p & Ha & Hc & Hp & Hs);
    pose proof (size_spec _ _ _ (related_rep _ _ _ _ _ R Hy)) as Hn;
    assert (Hlen : Z.of_nat (length ty) < 2 ^ 64) by
      (destruct (rep_inv _ _ _ (related_rep _ _ _ _ _ R Hy)) as [Hsm|(? & ? & ? & ? & _ & _ & ? & _)];
       [destruct (rep_small_inv _ _ _ (related_rep _ _ _ _ _ R Hy) Hsm) as (_ & ? & _)|]; lia) end.
  rewrite Ha. cbn [mbind option_bind].
  eapply (on_good w g R x _ l _ _ (fun t' => t' = l \/ t' = [])); [done| |].
  - unfold arg_of in Ha. destruct (Z.eqb_spec x y) as [->|].
    + injection Ha as <-. cbn in Hc. unfold of_this, access in Hc. cbn in Hc. simplify_eq.
      apply total_guards, total_ret, becomes_refl; eauto.
    + erewrite (related_lookup w g y) in Ha by done. injection Ha as <-. cbn in Hc, Hp.
      unfold guards, outcome, assign_copy. rewrite M_bind_unfold, Hp, M_bind_unfold. unfold access. rewrite Hn.
      eapply assign_spec; [eauto|eauto|by eapply apart_stable, source_all|done].
  - intros t [->| ->]; cbn; [left|by right]. by rewrite insert_id by (rewrite lookup_fmap; by simplify_option_eq).
Qed.

Lemma refines_AssignSubstr x y pos n : refines (AssignSubstr x y pos n).
Proof using R PL.
  intros e H. cbn [spec] in H. open_spec H. cbn [run].
  match goal with Hx : g !! x = Some (?c, ?t), Hy : g !! y = Some (?cy, ?ty) |- _ =>
    destruct (arg_spec w g R x y c t cy ty Hx Hy) as (a & p & -> & Hc & Hp & Hs);
    pose proof (size_spec _ _ _ (related_rep _ _ _ _ _ R Hy)) as Hn;
    pose proof (arg_run_pos a cy p _ _ pos (fun s sz => assign (ptr_add s pos) (procrustes n (sz - pos))) Hn Hc Hp) as Hrun;
    pose proof (length_sub ty pos n) as Hl end.
  cbn [mbind option_bind]. unfold ranged. destruct (Z.leb_spec pos (Z.of_nat (length l0))).
  - eapply (on_good w g R x _ l _ _ (fun t' => t' = l \/ t' = [])); [done| |].
    + unfold guards, outcome, assign_substr. rewrite Hrun. rewrite <- Hl by lia.
      eapply assign_spec; [eauto|eauto|by eapply apart_stable, source_sub; [|lia..]|].
      rewrite Hl, procrustes_spec by lia. lia.
    + intros t [->| ->]; cbn; [left|by right]. by rewrite insert_id by (rewrite lookup_fmap; by simplify_option_eq).
  - eapply on_range; [done|done|]. exact Hrun.
Qed.

Lemma refines_InsertStr x pos y : refines (InsertStr x pos y).
Proof using R PL.
  intros e H. cbn [spec] in H. open_spec H. cbn [run]. unfold arg_of.
  match goal with Hx : g !! x = Some (?c, ?t), Hy : g !! y = Some (?cy, ?ty), Hne : x <> y |- _ =>
    rewrite (proj2 (Z.eqb_neq x y) Hne), (related_lookup _ _ _ _ _ R Hy); cbn [mbind option_bind];
    pose proof (size_spec _ _ _ (related_rep _ _ _ _ _ R Hy)) as Hn;
    destruct (rep_data_of _ _ _ (related_rep _ _ _ _ _ R Hy)) as (p & Hp);
    pose proof (other_stable w g R x y c t cy ty Hx Hy p Hne Hp) as Hst;
    assert (Hrun : insert_str pos (Other cy) (mkSt (wheap w) c) = insert pos p (Z.of_nat (length ty)) (mkSt (wheap w) c)) by
      (apply (arg_run (Other cy) cy cy p _ _ (fun _ => insert pos)); [done|done|cbn; unfold access; by rewrite Hp|done]) end.
  unfold ranged. destruct (Z.leb_spec pos (Z.of_nat (length l))).
  - eapply (on_good w g R x _ l _ _ (eq l)); [done| |].
    + unfold guards, outcome. rewrite Hrun, spliced_insert by lia. eapply insert_spec; [eauto|eauto|done|lia|lia].
    + intros t <-. cbn. by rewrite insert_id by (rewrite lookup_fmap; by simplify_option_eq).
  - eapply on_range; [done|done|]. rewrite Hrun. by eapply enforce_fails; [eapply size_spec; eauto|].
Qed.

Lemma refines_ReplaceStr x pos n1 y : refines (ReplaceStr x pos n1 y).
Proof using R PL.
  intros e H. cbn [spec] in H. open_spec H. cbn [run].
  match goal with Hx : g !! x = Some (?c, ?t), Hy : g !! y = Some (?cy, ?ty) |- _ =>
    destruct (arg_spec w g R x y c t cy ty Hx Hy) as (a & p & -> & Hc & Hp & Hs);
    pose proof (size_spec _ _ _ (related_rep _ _ _ _ _ R Hy)) as Hn;
    pose proof (arg_run a cy cy p _ _ (fun _ => replace pos n1) Hn Hc Hp eq_refl) as Hrun end.
  cbn [mbind option_bind]. unfold ranged. destruct (Z.leb_spec pos (Z.of_nat (length l))).
  - eapply (on_good w g R x _ l _ _ (half_replaced l (Z.to_nat pos) (Z.to_nat (Z.min n1 (Z.of_nat (length l) - pos))) l0)); [done| |].
    2: { intros t Ht. exists l0. split; [rewrite lookup_fmap; by simplify_option_eq|by eapply half_fails]. }
    unfold guards, outcome, replace_str. rewrite Hrun. eapply fb_replace_spec; [eauto|eauto|by eapply apart_stable, source_all|lia|lia|lia].
  - eapply on_range; [done|done|]. unfold replace_str. rewrite Hrun. by eapply enforce_fails; [eapply size_spec; eauto|].
Qed.

(** ** All calls *)

Local Hint Resolve refines_New refines_NewFill refines_NewDefault refines_NewCopy refines_NewMove refines_NewAcquire
  refines_NewSubstr refines_NewPlus refines_Destroy refines_Swap refines_AssignCopy refines_AssignMove refines_AssignChar
  refines_Assign refines_AssignSubstr refines_Append refines_AppendStr refines_AppendSubstr refines_AppendFill
  refines_PushBack refines_PopBack refines_AtStore refines_Resize refines_Clear refines_Reserve refines_ShrinkToFit refines_Insert
  refines_InsertStr refines_InsertFill refines_Erase refines_Replace refines_ReplaceStr refines_ReplaceChars : core.

Lemma call_refines k : refines k.
Proof using R PL. destruct k; auto. Qed.
End Calls.

(** ** Programs *)

Lemma sim_empty : sim (mkWorld ∅ ∅) ∅.
Proof.
  exists ∅. split; [|by rewrite fmap_empty]. split; cbn; [by rewrite fmap_empty|]. unfold objs_of. rewrite map_to_list_empty.
  split; [intros p b; by rewrite lookup_empty|by intros ? ? ?%elem_of_nil| |by intros ? ? ? ?%elem_of_nil].
  intros p. apply cnt_none, lookup_empty.
Qed.

Section Programs.
Context {PF : Platform} {PL : PlatformLaws}.

Lemma exec_refines p w m : sim w m -> allowed p m -> exists w' m', exec p w = Some w' /\ abs_run p m m' /\ sim w' m'.
Proof.
  revert w m. induction p as [|k next IH]; intros w m Hsim Ha; cbn [exec].
  { exists w, m. split_and!; [done|constructor|done]. }
  cbn [allowed] in Ha. destruct (spec k m) as [e|] eqn:Es; [|done]. destruct Ha as [Hok Hfail].
  destruct Hsim as (g & Rg & ->). pose proof (call_refines w g Rg k e Es) as Hgood.
  destruct (run k w) as [[w1 [[]|x]]|]; [| |done]; cbn [good mbind option_bind fst snd] in *.
  - destruct Hgood as (m1 & -> & Hs1). destruct (IH (Ok tt) w1 m1 Hs1 Hok) as (w2 & m2 & ? & ? & ?).
    exists w2, m2. split_and!; [done|by eapply abs_ok|done].
  - assert (Hthrow : justified x /\ (exists m1, failure k (snd <$> g) m1 /\ sim w1 m1) ->
      exists w' m', exec (next (Err x)) w1 = Some w' /\ abs_run (Call k next) (snd <$> g) m' /\ sim w' m').
    { intros (Hx & m1 & Hf & Hs1). destruct (IH (Err x) w1 m1 Hs1 ltac:(by eapply Hfail)) as (w2 & m2 & ? & ? & ?).
      exists w2, m2. split_and!; [done|by eapply abs_fail|done]. }
    destruct x; [by apply Hthrow|by apply Hthrow|]. destruct Hgood as [-> Hs1].
    destruct (IH (Err out_of_range) w1 _ Hs1 Hok) as (w2 & m2 & ? & ? & ?).
    exists w2, m2. split_and!; [done|by eapply abs_range|done].
Qed.

(** The object [c] holds [t]: its size is that of [t], and the characters at [c_str()] are those of [t]
    and a null character. *)
Definition shows (h : heap) (c : core) (t : list Z) : Prop :=
  size c = Some (Z.of_nat (length t)) /\ peek c 0 (length t + 1) (mkSt h c) = Some (mkSt h c, Ok (t ++ [0])).

Lemma rep_shows h c t : rep h c t -> shows h c t.
Proof.
  intros Hrep. split; [by eapply size_spec|]. unfold peek. rewrite M_bind_unfold.
  destruct (rep_inv _ _ _ Hrep) as [Hs|(d & cap & rc & bs & -> & Hd & Hcap & Hb & Hl & Hh & Hlc)].
  - destruct (rep_small_inv _ _ _ Hrep Hs) as (Hc & Ht & _ & Hh). unfold access. rewrite small_category by done.
    rewrite decide_True by lia. by rewrite drop_0, (holds_take _ _ Hh).
  - unfold access. rewrite category_words by lia. pose proof (holds_length _ _ Hh).
    assert (Hgo : get_chars d 0 (length t + 1) (mkSt h (words d (Z.of_nat (length t)) (tag cap rc))) =
      Some (mkSt h (words d (Z.of_nat (length t)) (tag cap rc)), Ok (t ++ [0]))).
    { unfold get_chars, access. cbn [hp]. rewrite Hb. cbn [mbind option_bind chars]. rewrite decide_True by lia.
      by rewrite drop_0, (holds_take _ _ Hh). }
    rewrite word_0 by (by apply u64_address). by destruct rc.
Qed.

Lemma sim_shows w m : sim w m ->
  (forall x, match m !! x with
             | Some t => exists c, wobjs w !! x = Some c /\ shows (wheap w) c t
             | None => wobjs w !! x = None
             end) /\
  (m = ∅ -> wheap w = ∅).
Proof.
  intros (g & Rg & ->). split.
  - intros x. rewrite lookup_fmap. destruct (g !! x) as [[c t]|] eqn:Hx; cbn; [|by eapply related_none].
    exists c. split; [by eapply related_lookup|]. by eapply rep_shows, related_rep.
  - intros Hm%fmap_empty_inv. subst g. destruct Rg as [_ [Hok _ C _]]. apply map_eq. intros p. rewrite lookup_empty.
    destruct (wheap w !! p) as [b|] eqn:E; [|done]. pose proof (cnt_pos _ _ _ Hok E). rewrite C in *. unfold objs_of in *.
    rewrite map_to_list_empty in *. cbn in *. lia.
Qed.

(** (C5) A program whose calls are all allowed runs as its specification on texts does, whatever the
    allocator returns.  A call is allowed when [spec] gives it an effect: the strings it names are
    there (or not yet there, for a constructor), its source has the characters, sizes are below [2^64]
    and so is the sum of the sizes of what is put together, [pop_back] has a character, fewer than
    [2^60] strings exist where one is copied, [insert] is not given the string itself, and with the
    address sanitizer [reserve] is not below the size.  Then no call is undefined; a position outside of
    the text throws [out_of_range]; another exception is thrown only with a request that the allocator
    refused or a size that does not fit in [2^64], and leaves the texts that [failure] says; strings that
    share a block do not see each other's changes; a string may be its own argument in [append], [assign]
    and [replace]; the characters of a string are followed by a null character; and no block is left when
    all strings are destroyed. *)
Theorem fbstring_refinement (p : prog) : allowed p ∅ ->
  exists w m, exec p (mkWorld ∅ ∅) = Some w /\ abs_run p ∅ m /\
    (forall x, match m !! x with
               | Some t => exists c, wobjs w !! x = Some c /\ shows (wheap w) c t
               | None => wobjs w !! x = None
               end) /\
    (m = ∅ -> wheap w = ∅).
Proof.
  intros Ha. destruct (exec_refines p _ _ sim_empty Ha) as (w & m & He & Hr & Hs). exists w, m.
  split_and!; [done|done|by apply sim_shows..].
Qed.
End Programs.
