(* ===== verification/FBStringReserve.v ===== *)
(** What [reserve] is for: a string that has reserved its characters takes them in place, without an
    exception and without another block. *)
From S2P Require Import Prelude FBStringCore FBStringInv FBStringCoreSpec FBStringRoom FBStringSize FBString FBStringSpec.
Import Core.

(** [push_back] of one character after the other. *)
Fixpoint push_all `{!Platform} (l : list Z) : op unit :=
  match l with [] => mret tt | ch :: l => _ ← push_back ch; push_all l end.

Section Reserved.
Context {PF : Platform} {PL : PlatformLaws}.

(** The text is [t'], the room is still there, the characters are where they were, and no block was
    allocated or freed. *)
Record keeps (t' : list Z) (n : Z) (s s' : st) : Prop := mkKeeps {
  keeps_ok : heap_ok (hp s');
  keeps_room : room (hp s') (this s') t' n;
  keeps_blocks : dom (hp s') = dom (hp s);
  keeps_data : data (this s') = data (this s);
}.

Lemma keeps_trans t1 t2 n s s1 s2 : keeps t1 n s s1 -> keeps t2 n s1 s2 -> keeps t2 n s s2.
Proof. intros [] []. split; [done|done|congruence..]. Qed.

(** Allocates and frees nothing. *)
Definition quiet {A} (m : op A) : Prop := forall s s' r, m s = Some (s', r) -> dom (hp s') = dom (hp s).

Lemma quiet_total {A} (m : op A) s Q : quiet m -> total m s Q ->
  total m s (fun a s' => Q a s' /\ dom (hp s') = dom (hp s)).
Proof. intros H. unfold total, outcome. destruct (m s) as [[s' [a|e]]|] eqn:E; [|done..]. intros HQ. split; [done|by eapply H]. Qed.

Lemma quiet_put_chars p i l : quiet (put_chars p i l).
Proof.
  intros s s' r. unfold put_chars, set_heap. intros H. simplify_option_eq. cbn [hp]. rewrite dom_insert_L.
  apply subseteq_union_1_L, singleton_subseteq_l. by apply elem_of_dom.
Qed.

Lemma quiet_poke i l : quiet (poke i l).
Proof.
  intros s s' r. unfold poke, of_this, access. rewrite M_bind_unfold.
  destruct (category (this s)) as [[]|]; [|rewrite M_bind_unfold; apply quiet_put_chars..|done].
  unfold set_this. intros H. by simplify_option_eq.
Qed.

Lemma total_and {A} (m : op A) s (Q Q' : A -> st -> Prop) : total m s Q -> total m s Q' -> total m s (fun a s' => Q a s' /\ Q' a s').
Proof. unfold total, outcome. by destruct (m s) as [[s' []]|]. Qed.

Lemma patch_last i l c : length c = 24%nat -> (i + length l <= 23)%nat -> patch i l c !! lastChar = c !! lastChar.
Proof.
  intros Hc Hl. unfold patch. rewrite lookup_app_r; rewrite length_take; [|lia].
  rewrite lookup_app_r by lia. rewrite lookup_drop. f_equal. lia.
Qed.

(** Writing characters leaves them where they are. *)
Lemma poke_data i l s t : rep (hp s) (this s) t -> (i + length l <= length t)%nat ->
  total (poke i l) s (fun _ s' => data (this s') = data (this s)).
Proof.
  intros Hrep Hl. unfold poke. destruct s as [h c]. cbn [hp this] in *.
  destruct (rep_inv _ _ _ Hrep) as [Hs|(d & cap & rc & bs & -> & Hd & Hcap & Hb & Hlb & Hh & Hlc)].
  - destruct (rep_small_inv _ _ _ Hrep Hs) as (Hc & Ht & Hlast & _).
    eapply total_of_this_bind; [by apply small_category|]. eapply total_set_this; [apply write_in_bounds; cbn; lia|]. cbn [this].
    rewrite !data_small; [done|done|]. destruct Hs as (b & Hb & Hc'). exists b. split; [done|]. rewrite <- Hc'. by apply patch_last; [|lia].
  - eapply total_of_this_bind; [apply category_words; lia|]. pose proof (holds_length _ _ Hh).
    destruct rc; cbn [kind]; (eapply total_of_this_bind; [done|]; cbn [this]; rewrite word_0 by (by apply u64_address);
      eapply total_put_chars; [done|cbn; lia|done]).
Qed.

(** What expanding by [n] characters within the room does. *)
Definition expands (t : list Z) (n m : Z) (s : st) (i : Z) (s' : st) : Prop :=
  i = Z.of_nat (length t) /\ exists junk, Z.of_nat (length junk) = n /\ keeps (t ++ junk) m s s'.

Lemma expand_small_room_spec n g h c t m : heap_ok h -> rep h c t -> small c ->
  0 <= n -> Z.of_nat (length t) + n <= m <= 23 ->
  total (expandNoinit n g false) (mkSt h c) (expands t n m (mkSt h c)).
Proof.
  intros Hok Hrep Hs Hn Hm. destruct (rep_small_inv _ _ _ Hrep Hs) as (Hl & Ht & Hlast & Hh). unfold expandNoinit.
  eapply total_of_this_bind; [done|]. eapply total_of_this_bind; [by apply small_category|].
  eapply total_of_this_bind; [by apply smallSize_spec|]. cbv zeta. rewrite wrap_small by (unfold is_uint; lia).
  rewrite (proj2 (Z.leb_le (Z.of_nat (length t) + n) 23)) by lia. cbn [negb andb].
  apply total_bind, setSmallSize_spec; [lia|]. apply total_ret. split; [done|]. cbn [hp this].
  set (junk := take (Z.to_nat n) (drop (length t) c)).
  assert (Hj : length junk = Z.to_nat n) by (unfold junk; rewrite length_take, length_drop; lia).
  assert (Hsm : small (sized (Z.to_nat (Z.of_nat (length t) + n)) c)) by (apply sized_small; [done|lia]).
  exists junk. split; [lia|]. split; cbn [hp this]; [done| |done|by rewrite !data_small].
  replace (Z.to_nat (Z.of_nat (length t) + n)) with (length (t ++ junk)) by (rewrite length_app, Hj; lia).
  apply rep_small_room; [|apply sized_small; [done|rewrite length_app; lia]|lia].
  apply rep_sized; [done|rewrite length_app; lia|]. rewrite length_app, Hj, <- take_take_drop. fold junk. f_equal.
  destruct Hh as (rest & ->). apply take_app_length.
Qed.

Section Block.
Context (d cap : Z) (rc : option Z) (bs t : list Z) (h : heap).
Context (Hok : heap_ok h) (Hd : 0 < d < 2 ^ 57) (Hcap : Z.of_nat (length t) <= cap < 2 ^ 57).
Context (Hb : h !! d = Some (mkBlock rc bs)) (Hl : cap < Z.of_nat (length bs)) (Hh : holds bs t).
Context (Hlc : large_cap rc cap) (Hrc : default 1 rc = 1).

Abbreviation object := (words d (Z.of_nat (length t)) (tag cap rc)).

Lemma capacity_own_spec : total (capacity object) (mkSt h object) (fun a s' => a = cap /\ s' = mkSt h object).
Proof using Hb Hcap Hd Hlc Hrc.
  unfold capacity. eapply access_bind; [apply category_words; lia|]. rewrite ml_capacity_words by lia. destruct rc as [r|]; cbn [kind].
  - rewrite word_0 by (unfold is_uint; lia). apply total_bind. eapply total_refs; [done..|]. apply total_ret.
    cbn in Hrc. by rewrite Hrc.
  - by apply total_ret.
Qed.

Lemma set_end_keeps n m : 0 <= n -> Z.of_nat (length t) + n <= m <= cap ->
  total (_ ← set_this (fun c => Some (set_word 1 (Z.of_nat (length t) + n) c));
         d ← of_this (fun c => Some (data_ c));
         _ ← put_chars d (Z.to_nat (Z.of_nat (length t) + n)) [0];
         mret (Z.of_nat (length t))) (mkSt h object) (expands t n m (mkSt h object)).
Proof using Hb Hcap Hd Hh Hl Hlc Hok Hrc.
  intros Hn Hm. apply total_bind. eapply total_set_this; [done|]. cbn [hp this]. rewrite set_word_1.
  eapply total_of_this_bind; [done|]. cbn [this]. rewrite word_0 by (by apply u64_address).
  destruct (holds_expand bs t (Z.to_nat n) Hh) as (junk & Hj & Hh'); [lia|].
  replace (Z.to_nat (Z.of_nat (length t) + n)) with (length t + Z.to_nat n)%nat by lia.
  apply total_bind. eapply total_put_chars; [exact Hb|cbn; lia|]. cbn [hp this chars refCount].
  apply total_ret. split; [done|]. exists junk. split; [lia|]. split; cbn [hp this]; [..|by rewrite !data_words by (by apply u64_address || lia)].
  - eapply (frame_ok h [object] _ [object]). eapply frame_write; [done|by apply u64_address|done..|lia|lia].
  - replace (Z.of_nat (length t) + n) with (Z.of_nat (length (t ++ junk))) by (rewrite length_app; lia).
    eapply room_block; [done|rewrite length_app; lia|apply lookup_insert_eq|rewrite length_patch by (cbn; lia); done|done..|lia].
  - rewrite dom_insert_L. apply subseteq_union_1_L, singleton_subseteq_l. by apply elem_of_dom.
Qed.

Lemma expand_block_room_spec n g m : 0 <= n -> Z.of_nat (length t) + n <= m <= cap ->
  total (expandNoinit n g false) (mkSt h object) (expands t n m (mkSt h object)).
Proof using Hb Hcap Hd Hh Hl Hlc Hok Hrc.
  intros Hn Hm. unfold expandNoinit. eapply total_of_this_bind; [done|].
  eapply total_of_this_bind; [apply category_words; lia|]. cbn [this].
  rewrite word_1 by (unfold is_uint; lia). cbv zeta. rewrite (wrap_small 64 (_ + n)) by (unfold is_uint; lia).
  destruct (kind rc) eqn:Ek; [by destruct rc|..];
    (apply total_bind; eapply total_mono; [exact capacity_own_spec|]; intros a s' [-> ->];
     rewrite (proj2 (Z.ltb_ge _ _)) by lia; apply total_bind, total_ret, set_end_keeps; lia).
Qed.
End Block.

(** Expanding within the room. *)
Lemma expand_room_spec n g s t m : heap_ok (hp s) -> room (hp s) (this s) t m -> 0 <= n -> Z.of_nat (length t) + n <= m ->
  total (expandNoinit n g false) s (expands t n m s).
Proof.
  intros Hok Hroom Hn Hm. destruct s as [h c]. cbn [hp this] in *.
  destruct Hroom as [c t m Hl Ht Hlast Hh Hm'|d cap rc bs t m Hd Hcap Hb Hl Hh Hlc Hrc Hm'].
  - eapply expand_small_room_spec; [done|by constructor|eexists; split; [|done]; lia|done|lia].
  - eapply expand_block_room_spec; [done..|lia].
Qed.

Lemma push_back_room_spec ch s t m : FOLLY_SANITIZE_ADDRESS = false -> heap_ok (hp s) -> room (hp s) (this s) t m ->
  Z.of_nat (length t) + 1 <= m -> total (push_back ch) s (fun _ => keeps (t ++ [ch]) m s).
Proof using PL.
  intros Hsan Hok Hroom Hm. unfold push_back. rewrite Hsan. apply total_bind.
  eapply total_mono; [by apply (expand_room_spec 1 true s t m); [..|lia|]|].
  intros i s1 (-> & junk & Hj & HK). rewrite Nat2Z.id. pose proof (keeps_ok _ _ _ _ HK). pose proof (keeps_room _ _ _ _ HK).
  eapply total_mono; [apply total_and; [apply quiet_total; [apply quiet_poke|]|]|].
  - apply (poke_spec (length t) [ch] s1 (t ++ junk) m); [done..|rewrite length_app; cbn; lia].
  - eapply poke_data; [by eapply room_rep|rewrite length_app; cbn; lia].
  - intros [] s2 [[[HR HF _] Hdom] Hdata]. eapply keeps_trans; [exact HK|]. rewrite patch_app in HR by (cbn; lia).
    split; [by destruct HF|done..].
Qed.

Lemma push_all_spec l s t m : FOLLY_SANITIZE_ADDRESS = false -> heap_ok (hp s) -> room (hp s) (this s) t m ->
  Z.of_nat (length t) + Z.of_nat (length l) <= m -> total (push_all l) s (fun _ => keeps (t ++ l) m s).
Proof using PL.
  intros Hsan. revert s t. induction l as [|ch l IH]; intros s t Hok Hroom Hm; cbn [push_all].
  - apply total_ret. rewrite app_nil_r. by split.
  - cbn [length] in Hm. apply total_bind. eapply total_mono; [by apply (push_back_room_spec ch s t m); [..|lia]|].
    intros [] s1 HK. eapply total_mono; [eapply (IH s1 (t ++ [ch])); [by destruct HK..|rewrite length_app; cbn; lia]|].
    intros [] s2 HK2. rewrite <- app_assoc in HK2. by eapply keeps_trans.
Qed.

(** (C17) [reserve(n)] throws only if the allocator does not grant the bytes it may ask for, and then
    the string is as it was.  When it returns, [push_back] of characters up to the size [n] never
    throws, neither allocates nor frees a block, and leaves the string with its old text and the new
    characters. *)
Theorem reserve_then_push_back (n : Z) (l : list Z) (s : st) (t : list Z) :
  heap_ok (hp s) -> rep (hp s) (this s) t -> 0 <= n < 2 ^ 64 -> FOLLY_SANITIZE_ADDRESS = false ->
  Z.of_nat (length t + length l) <= n ->
  outcome (fb_reserve n) s (fun r s1 =>
    match r with
    | Err e => s1 = s /\ ~ grants (demand s n) (hp s)
    | Ok _ => total (push_all l) s1 (fun _ s2 => dom (hp s2) = dom (hp s1) /\ rep (hp s2) (this s2) (t ++ l))
    end).
Proof.
  intros Hok Hrep Hn Hsan Hl.
  eapply outcome_mono; [eapply (fb_reserve_spec n s t); [apply covers_grants|done..|by rewrite Hsan]|].
  intros [[]|e] s1; [|by intros (-> & _ & ?)]. intros [HR HF _].
  eapply total_mono; [apply (push_all_spec l s1 t n); [done|by destruct HF|done|lia]|].
  intros [] s2 [_ Hroom Hdom]. split; [done|by eapply room_rep].
Qed.

Lemma granted_total {A} n (m : op A) s (Q Q' : A -> st -> Prop) : grants n (hp s) ->
  sparing (fun h => ~ grants n h) m s Q -> (forall a s', Q a s' -> Q' a s') -> total m s Q'.
Proof using. intros G H HQ. eapply total_mono; [eapply sparing_total; [exact H|]|exact HQ]. intros HX. by apply HX. Qed.

(** (C23) Strings do not throw without a reason: where the allocator grants what they may ask for, a
    constructor from characters, a copy, the access that makes a string unshared and [push_back] return,
    with the text they should have. *)
Theorem granted_calls_return (s : st) (t : list Z) (rhs : core) (data : Z) (bytes : list Z) (size ch : Z) :
  heap_ok (hp s) -> countable (hp s) -> length (this s) = 24%nat -> rep (hp s) rhs t -> readable data bytes size ->
  let room_for n := grants n (hp s) in
  (room_for (size + 9) -> total (fbstring_core data bytes size FBSTRING_DISABLE_SSO) s
     (fun _ s' => rep (hp s') (this s') (take (Z.to_nat size) bytes))) /\
  (room_for (Z.of_nat (length t) + 9) -> total (fbstring_core_copy rhs) s (fun _ s' => rep (hp s') (this s') t)) /\
  (this s = rhs -> room_for (demand s 0) -> total mutableData s (fun _ s' => rep (hp s') (this s') t /\ sole (hp s') (this s'))) /\
  (this s = rhs -> room_for (growth s (Z.of_nat (length t) + 1)) -> Z.of_nat (length t) + 1 < 2 ^ 64 ->
     total (push_back ch) s (fun _ s' => rep (hp s') (this s') (t ++ [ch]))).
Proof.
  intros Hok Hcnt Hlen Hrep Hread room_for. subst room_for. cbn beta. split_and!.
  - intros G. eapply granted_total; [done|by apply fbstring_core_spec; [apply covers_grants|..]|]. by intros [] s' [[? ?] ?].
  - intros G. eapply granted_total; [done|by apply fbstring_core_copy_spec; [apply covers_grants|..]|]. by intros [] s' [[? ?] ?].
  - intros <- G. eapply granted_total; [done|by apply (mutableData_spec s t); [apply covers_grants|..]|]. intros [] s' [? ? ?].
    split; [by eapply room_rep|by eapply room_sole].
  - intros <- G Hlt. eapply granted_total; [done|by apply (push_back_spec ch s t); [apply covers_grants|..]|]. by intros [] s' [? ? ?].
Qed.
End Reserved.
