(* ===== verification/FBStringLimits.v ===== *)
(** Calls of strings that do not do what one would expect: a store through [data()] shows in the
    copies, [insert] does not allow for characters of the string itself, and [append(n, c)] does not
    notice that the size wraps around. *)
From S2P Require Import Prelude FBStringCore FBStringInv FBStringCoreSpec FBStringRoom FBStringSize FBString FBStringSpec FBStringEdit FBStringReplace FBStringReserve.
Import Core.

(** The bytes of the block of an object, if it has one. *)
Definition block_bytes (h : heap) (c : core) : Z :=
  match category c with
  | Some isSmall | None => 0
  | Some _ => match h !! data_ c with Some b => Z.of_nat (length (chars b)) | None => 0 end
  end.

Lemma heap_ok_refs h p r bs : heap_ok h -> 1 <= r < 2 ^ 64 -> heap_ok (<[p := mkBlock (Some r) bs]> h).
Proof. intros Hok Hr q b. rewrite lookup_insert. case_decide; [intros [= <-]; done|apply Hok]. Qed.

(** ** Copies that share *)

Section Shared.
Context {PF : Platform} {PL : PlatformLaws}.
Context (d cap r : Z) (bs t : list Z) (h : heap).
Context (Hok : heap_ok h) (Hd : 0 < d < 2 ^ 57) (Hcap : Z.of_nat (length t) <= cap < 2 ^ 57).
Context (Hb : h !! d = Some (mkBlock (Some r) bs)) (Hl : cap < Z.of_nat (length bs)) (Hh : holds bs t).
Context (Hlc : large_cap (Some r) cap).

Abbreviation object := (words d (Z.of_nat (length t)) (tag cap (Some r))).

(** The copy of a large string refers to the same block, which counts it. *)
Lemma copy_shares s : hp s = h -> r + 1 < 2 ^ 64 ->
  total (fbstring_core_copy object) s (fun _ s' => s' = mkSt (<[d := mkBlock (Some (r + 1)) bs]> h) object).
Proof using Hb Hcap Hd Hok.
  intros Es Hr. unfold fbstring_core_copy. eapply access_bind; [apply category_words; lia|]. cbn [kind].
  unfold copyLarge. apply total_bind. eapply total_set_this; [done|]. rewrite word_0 by (by apply u64_address).
  pose proof (cnt_pos h d _ Hok Hb) as Hc. unfold cnt in Hc. rewrite Hb in Hc. cbn in Hc.
  unfold incrementRefs. apply total_bind. eapply total_refs; [cbn [hp]; by rewrite Es|done|]. cbn [hp].
  rewrite wrap_small by (unfold is_uint; lia).
  eapply total_set_refs; [cbn [hp]; by rewrite Es|]. cbn [hp this chars]. by rewrite Es.
Qed.

(** What is stored through [data] is in the block. *)
Lemma data_store_shares i ch : (i < length t)%nat ->
  total (data_store i ch) (mkSt h object) (fun _ s' => this s' = object /\ rep (hp s') object (<[i := ch]> t)).
Proof using Hb Hcap Hd Hh Hl Hlc.
  intros Hi. pose proof (holds_length _ _ Hh). unfold data_store, poke.
  eapply total_of_this_bind; [apply category_words; lia|]. cbn [kind].
  eapply total_of_this_bind; [cbn [this]; rewrite word_0 by (by apply u64_address); done|].
  eapply total_put_chars; [exact Hb|cbn; lia|]. cbn [hp this chars refCount]. split; [done|].
  rewrite <- (length_insert t i ch). eapply rep_block; [done|by rewrite length_insert|apply lookup_insert_eq|rewrite length_patch by (cbn; lia); done| |done].
  rewrite insert_take_drop by done. replace (S i) with (i + length [ch])%nat by (cbn; lia).
  by apply (holds_poke bs t i [ch]); [|cbn; lia].
Qed.
End Shared.

Section Limits.
Context {PF : Platform} {PL : PlatformLaws}.

(** (C37) The copy of a large string refers to the same characters: the copy constructor never
    throws, and a store through the pointer of [data()] of the copy shows at the same index in the
    original, whatever the strings, the index and the character are.  A store through [at] does not: it
    leaves the original its text, and the copy has the new one unless the call throws. *)
Theorem data_is_shared (c : core) (t : list Z) (i : nat) (ch : Z) (s : st) :
  heap_ok (hp s) -> countable (hp s) -> rep (hp s) c t -> category c = Some isLarge -> (i < length t)%nat ->
  total (fbstring_core_copy c) s (fun _ s1 =>
    rep (hp s1) c t /\ rep (hp s1) (this s1) t /\
    total (data_store i ch) s1 (fun _ s2 => rep (hp s2) c (<[i := ch]> t) /\ rep (hp s2) (this s2) (<[i := ch]> t)) /\
    outcome (at_store (Z.of_nat i) ch) s1 (fun r s2 =>
      rep (hp s2) c t /\ rep (hp s2) (this s2) (match r with Ok _ => <[i := ch]> t | Err _ => t end))).
Proof using PL.
  intros Hok Hcnt Hrep Hcat Hi.
  destruct (rep_inv _ _ _ Hrep) as [Hs|(d & cap & rc & bs & -> & Hd & Hcap & Hb & Hl & Hh & Hlc)];
    [by rewrite (small_category c Hs) in Hcat|].
  rewrite category_words in Hcat by lia. destruct rc as [r|]; [|done].
  pose proof (cnt_pos _ d _ Hok Hb) as Hc. pose proof (Hcnt d) as Hr. unfold cnt in Hc, Hr. rewrite Hb in Hc, Hr. cbn in Hc, Hr.
  eapply total_mono; [by apply (copy_shares d cap r bs t (hp s)); [..|lia]|].
  intros [] s1 ->. cbn [hp this]. set (h1 := <[d := _]> (hp s)).
  assert (Hb1 : h1 !! d = Some (mkBlock (Some (r + 1)) bs)) by apply lookup_insert_eq.
  assert (Hok1 : heap_ok h1) by (by apply heap_ok_refs; [|lia]).
  change (tag cap (Some r)) with (tag cap (Some (r + 1))) in *.
  assert (Hr1 : rep h1 (words d (Z.of_nat (length t)) (tag cap (Some (r + 1)))) t) by (by eapply rep_block).
  split_and!; [done|done| |].
  - eapply total_mono; [by apply (data_store_shares d cap (r + 1) bs t h1)|]. intros [] s2 [-> ?]. done.
  - pose proof (at_store_spec (Z.of_nat i) ch (mkSt h1 (words d (Z.of_nat (length t)) (tag cap (Some (r + 1))))) t Hok1 Hr1 ltac:(lia)) as Ha.
    unfold strong, sparing, outcome in *. destruct (at_store _ _ _) as [[s2 [[]|e]]|]; [|by destruct Ha as [-> _]|done].
    destruct Ha as [HR HF _]. rewrite Nat2Z.id in HR. split; [|done].
    eapply rep_frame; [exact Hok1| |exact HF|done]. intros p Hp. cbn [this]. rewrite owns_single, Hp.
    rewrite own_words in Hp by (by apply u64_address || lia). destruct (Z.eqb_spec d p) as [E|]; [|done]. subst p.
    unfold cnt. rewrite Hb1. cbn. lia.
Qed.

(** The characters of the string itself that [insert] reads after it has moved the tail. *)
Lemma moved_chars (t junk : list Z) pos n k : length junk = n -> (pos + n <= k)%nat -> (k + n <= length t)%nat ->
  take n (drop k (patch (pos + n) (drop pos t) (t ++ junk))) = take n (drop (k - n) t).
Proof.
  intros Hj Hp Hk. unfold patch.
  assert (Ht : length (take (pos + n) (t ++ junk)) = (pos + n)%nat) by (rewrite length_take, length_app; lia).
  rewrite drop_app_ge by lia. rewrite Ht, drop_app_le, take_app_le by (rewrite ?length_drop; lia).
  rewrite drop_drop. do 2 f_equal. lia.
Qed.

Lemma read_inside s t p l (Q : list Z -> st -> Prop) : heap_ok (hp s) -> rep (hp s) (this s) t -> inside s t p l -> Q l s ->
  total (read_ptr p (Z.of_nat (length l))) s Q.
Proof.
  intros Hok Hrep Hin HQ. destruct (inside_cases _ _ _ _ Hok Hrep Hin) as [[_ H]|H]; [|by apply read_ptr_stable].
  eapply total_mono; [exact H|]. by intros cs s' [-> ->].
Qed.

Lemma insert_own_spec pos n k s t m q : FOLLY_SANITIZE_ADDRESS = false -> heap_ok (hp s) ->
  room (hp s) (this s) t m -> data (this s) = Some q -> (pos + n <= k)%nat -> (k + n <= length t)%nat -> Z.of_nat (length t + n) <= m ->
  total (insert (Z.of_nat pos) (ptr_add q (Z.of_nat k)) (Z.of_nat n)) s (fun _ s' =>
    rep (hp s') (this s') (take pos t ++ take n (drop (k - n) t) ++ drop pos t)).
Proof using PL.
  intros Hsan Hok Hroom Hq Hpk Hk Hm. pose proof (room_rep _ _ _ _ Hroom) as Hrep. unfold insert.
  eapply total_of_this_bind; [by eapply size_spec|]. rewrite (proj2 (Z.leb_le _ _)) by lia.
  apply total_bind, total_ret. apply total_bind. eapply total_mono; [by eapply mutableData_room_spec|]. intros [] ? ->.
  unfold insertImpl. rewrite Hsan. eapply total_of_this_bind; [by eapply size_spec|]. apply total_bind.
  eapply total_mono; [apply (expand_room_spec (Z.of_nat n) true s t m); [done|done|lia|lia]|].
  intros i s1 (_ & junk & Hj & [Hok1 HR1 _ Hq1]). apply total_bind.
  eapply total_mono; [by eapply mutableData_room_spec|]. intros [] ? ->. eapply total_of_this_bind; [done|].
  apply total_bind. eapply peek_spec; [by eapply room_rep|rewrite length_app; lia|].
  replace (take (Z.to_nat (Z.of_nat (length t) - Z.of_nat pos)) (drop (Z.to_nat (Z.of_nat pos)) (t ++ junk))) with (drop pos t)
    by (rewrite Nat2Z.id, drop_app_le, take_app_le, take_ge by (rewrite ?length_drop; lia); done).
  replace (Z.to_nat (Z.of_nat pos + Z.of_nat n)) with (pos + n)%nat by lia.
  assert (Hlt : length (t ++ junk) = (length t + n)%nat) by (rewrite length_app; lia).
  assert (Hpl : (pos + n + length (drop pos t) <= length (t ++ junk))%nat) by (rewrite length_drop; lia).
  apply total_bind. eapply total_mono; [apply total_and; [by eapply poke_spec|by eapply poke_data; [eapply room_rep|]]|].
  intros [] s2 [[HR2 HF2 _] Hq2]. set (t2 := patch _ _ _) in *.
  set (l := take n (drop (k - n) t)). assert (Hl : length l = n) by (unfold l; rewrite length_take, length_drop; lia).
  assert (Hl2 : length t2 = (length t + n)%nat) by (unfold t2; by rewrite length_patch).
  assert (Hin : inside s2 t2 (ptr_add q (Z.of_nat k)) l).
  { exists q, (0 + Z.of_nat k). split_and!; [congruence|eapply distance_add, distance_refl; [exact Hrep|done]|lia|lia|].
    rewrite Hl. unfold t2. replace (Z.to_nat (0 + Z.of_nat k)) with k by lia. by rewrite moved_chars by lia. }
  apply total_bind. rewrite <- Hl at 1. eapply read_inside; [by destruct HF2|by eapply room_rep|done|].
  rewrite Nat2Z.id. eapply total_mono; [eapply poke_spec; [by destruct HF2|done|lia]|]. intros [] s3 [HR3 _ _].
  unfold t2 in HR3. replace (pos + n)%nat with (pos + length l)%nat in HR3 by lia. rewrite patch_insert in HR3 by lia. by eapply room_rep.
Qed.

(** Writing outside of the block. *)
Lemma podFill_outside i n ch s : category (this s) <> None ->
  (category (this s) = Some isSmall -> 24 < i + n) -> block_bytes (hp s) (this s) < i + n ->
  podFill i n ch s = None.
Proof.
  unfold podFill, block_bytes, of_this, access. intros Hc H1 H2. rewrite M_bind_unfold. destruct (category (this s)) as [[]|]; [| | |done].
  - rewrite M_bind_unfold. cbn. rewrite (proj2 (Z.leb_gt _ _)) by (by apply H1). done.
  - rewrite !M_bind_unfold. destruct (hp s !! data_ (this s)) as [b|]; [|done]. cbn.
    by rewrite (proj2 (Z.leb_gt _ _)) by lia.
  - rewrite !M_bind_unfold. destruct (hp s !! data_ (this s)) as [b|]; [|done]. cbn.
    by rewrite (proj2 (Z.leb_gt _ _)) by lia.
Qed.

Lemma bind_undefined {A B} (m : op A) (f : A -> op B) s Q : total m s Q -> (forall a s', Q a s' -> f a s' = None) -> (m ≫= f) s = None.
Proof. unfold total, outcome. rewrite M_bind_unfold. destruct (m s) as [[s' [a|]]|]; [|done..]. intros H Hf. by apply Hf. Qed.

(** A size that wraps around. *)
Lemma wrap_over a n : 0 <= a < 2 ^ 64 -> 0 <= n < 2 ^ 64 -> 2 ^ 64 <= a + n -> u64 (a + n) = a + n - 2 ^ 64.
Proof. intros. unfold wrap. rewrite <- (Z.mod_add _ (-1)) by lia. apply Z.mod_small. lia. Qed.

(** The kind of the object and its block are as they were. *)
Definition same_block (s s' : st) : Prop :=
  category (this s') = category (this s) /\ block_bytes (hp s') (this s') = block_bytes (hp s) (this s).

(** No string has less room than its size, shared or not. *)
Lemma capacity_ge c t s : rep (hp s) c t -> ~ small c ->
  total (capacity c) s (fun a s' => Z.of_nat (length t) <= a /\ s' = s).
Proof.
  intros Hrep Hs. destruct (rep_inv _ _ _ Hrep) as [|(d & cap & rc & bs & -> & Hd & Hcap & Hb & _)]; [done|].
  unfold capacity. eapply access_bind; [apply category_words; lia|]. rewrite ml_capacity_words by lia.
  destruct rc as [r|]; cbn [kind]; [|apply total_ret; split; [lia|done]].
  rewrite word_0, word_1 by (unfold is_uint; lia). apply total_bind. eapply total_refs; [done..|]. apply total_ret.
  split; [|done]. destruct (1 <? r); lia.
Qed.

(** A smaller size in the same block. *)
Lemma set_size_spec {A} (i : A) n s t : rep (hp s) (this s) t -> ~ small (this s) -> 0 <= n <= Z.of_nat (length t) ->
  total (_ ← set_this (fun c => Some (set_word 1 n c)); d ← of_this (fun c => Some (data_ c));
         _ ← put_chars d (Z.to_nat n) [0]; mret i) s (fun j s' => j = i /\ same_block s s').
Proof.
  intros Hrep Hs Hn. destruct s as [h c]. cbn [hp this] in *.
  destruct (rep_inv _ _ _ Hrep) as [|(d & cap & rc & bs & -> & Hd & Hcap & Hb & Hl & _)]; [done|].
  apply total_bind. eapply total_set_this; [done|]. cbn [hp this]. rewrite set_word_1.
  eapply total_of_this_bind; [done|]. cbn [this]. rewrite word_0 by (by apply u64_address).
  apply total_bind. eapply total_put_chars; [exact Hb|cbn; lia|]. cbn [hp this chars refCount]. apply total_ret. split; [done|].
  unfold same_block, block_bytes. cbn [hp this]. rewrite !category_words, !word_0 by (by apply u64_address || lia).
  rewrite lookup_insert_eq, Hb. cbn [chars]. rewrite length_patch by (cbn; lia). done.
Qed.

(** A size that wraps around is smaller than the one before, so nothing is allocated. *)
Lemma expand_wraps_spec n g s t : rep (hp s) (this s) t -> 0 <= n < 2 ^ 64 -> 2 ^ 64 <= Z.of_nat (length t) + n ->
  total (expandNoinit n g false) s (fun i s' => i = Z.of_nat (length t) /\ same_block s s').
Proof.
  intros Hrep Hn Hlt. unfold expandNoinit. eapply total_of_this_bind; [done|].
  destruct (rep_inv _ _ _ Hrep) as [Hs|(d & cap & rc & bs & Ec & Hd & Hcap & Hb & _)].
  - destruct (rep_small_inv _ _ _ Hrep Hs) as (Hc & Ht & Hlast & _). eapply total_of_this_bind; [by apply small_category|].
    eapply total_of_this_bind; [by apply smallSize_spec|]. cbv zeta. rewrite wrap_over by lia.
    rewrite (proj2 (Z.leb_le _ 23)) by lia. cbn [negb andb]. apply total_bind, setSmallSize_spec; [lia|]. apply total_ret. split; [done|].
    unfold same_block, block_bytes. cbn [hp this]. rewrite !small_category; [done|done|apply sized_small; [done|lia]].
  - assert (Hs : ~ small (this s)) by (rewrite Ec; apply words_not_small; lia).
    eapply total_of_this_bind; [rewrite Ec; apply category_words; lia|].
    assert (Esz : size_ (this s) = Z.of_nat (length t)) by (rewrite Ec; apply word_1; unfold is_uint; lia). rewrite Esz. cbv zeta. rewrite wrap_over by lia.
    destruct (kind rc) eqn:Ek; [by destruct rc|..];
      (apply total_bind; eapply total_mono; [by apply (capacity_ge _ t)|]; intros a s' [Ha ->];
       rewrite (proj2 (Z.ltb_ge _ _)) by lia; apply total_bind, total_ret;
       apply (set_size_spec _ _ s t); [done..|lia]).
Qed.

(** (C38) [insert] does not allow for characters of the string itself, and [append(n, c)] does not
    allow for a size that wraps around.  Where the [n] characters from [k] on of a string that has the
    room are inserted at a position [n] or more in front of them, what is inserted is not them but the
    [n] characters before them, which the moved tail has put in their place.  And where the size and the
    count of [append(n, c)] add up to [2^64] or more, no exception is thrown: the size becomes the
    remainder and the characters are written outside of the string.  (Without address sanitizer.) *)
Theorem insert_and_append_unchecked (s : st) (t : list Z) :
  FOLLY_SANITIZE_ADDRESS = false -> heap_ok (hp s) -> rep (hp s) (this s) t ->
  (forall (pos n k : nat) (m : Z) (q : ptr), room (hp s) (this s) t m -> data (this s) = Some q ->
     (pos + n <= k)%nat -> (k + n <= length t)%nat -> Z.of_nat (length t + n) <= m ->
     total (insert (Z.of_nat pos) (ptr_add q (Z.of_nat k)) (Z.of_nat n)) s (fun _ s' =>
       rep (hp s') (this s') (take pos t ++ take n (drop (k - n) t) ++ drop pos t))) /\
  (forall n ch : Z, block_bytes (hp s) (this s) < 2 ^ 64 -> 0 <= n < 2 ^ 64 -> 2 ^ 64 <= Z.of_nat (length t) + n ->
     append_fill n ch s = None).
Proof using PL.
  intros Hsan Hok Hrep. split; [intros; by eapply insert_own_spec|].
  intros n ch Hbb Hn Hlt. unfold append_fill. rewrite Hsan. eapply bind_undefined; [by apply (expand_wraps_spec n true s t)|].
  intros i s' (-> & Hc & Hb). apply podFill_outside; [|intros; lia|lia].
  rewrite Hc. destruct (rep_inv _ _ _ Hrep) as [Hs|(d & cap & rc & bs & -> & Hd & Hcap & _)];
    [by rewrite small_category|by rewrite category_words by lia].
Qed.
End Limits.
