(* ===== verification/FBStringExample.v ===== *)
(** An allocator that keeps what it promises, a program that runs on it, and calls of strings that
    do not do what a string promises. *)
From S2P Require Import Prelude FBStringCore FBStringInv FBStringCoreSpec FBStringRoom FBStringSize FBString FBStringReserve FBStringLimits FBStringWorld FBStringRefine.
Import Core.

(** ** An allocator *)

(** The end of the last block. *)
Definition top (h : heap) : Z := map_fold (fun p b a => Z.max a (p + Z.of_nat (length (chars b)))) 0 h.

Lemma top_spec h p b : h !! p = Some b -> p <= top h.
Proof.
  unfold top. revert p b. apply (map_fold_weak_ind (fun a h => forall p b, h !! p = Some b -> p <= a)).
  - intros p b Hp. cbn [hp] in Hp. by rewrite lookup_empty in Hp.
  - intros q b' h' a Hq IH p b. rewrite lookup_insert. case_decide as E.
    + intros _. subst. lia.
    + intros Hp. specialize (IH p b Hp). lia.
Qed.

Lemma top_nonneg h : 0 <= top h.
Proof. unfold top. apply (map_fold_weak_ind (fun a _ => 0 <= a)); [lia|]. intros. lia. Qed.

(** Blocks go up in memory, sixteen bytes aligned. *)
Definition bump (byte : Z) (h : heap) (n : Z) : option (Z * list Z) :=
  let p := 16 * (top h / 16 + 2) in
  if p + n <? 2 ^ 57 then Some (p, replicate (Z.to_nat n) byte) else None.

Definition demo_platform : Platform := {|
  nallocx := Some (fun n => if n <? 2 ^ 63 then 16 * ((n + 15) / 16) else 0);
  malloc := bump 0xAA;
  realloc := fun h _ n => bump 0xBB h n;
  stack_bytes := replicate 24 0xCC;
  padding := replicate 7 0xDD;
  FOLLY_SANITIZE_ADDRESS := false;
|}.

Lemma bump_spec byte h n p bytes : bump byte h n = Some (p, bytes) ->
  0 < p /\ p + n < 2 ^ 57 /\ length bytes = Z.to_nat n /\ (forall x, p <= x < p + n -> h !! x = None).
Proof.
  unfold bump. intros H. destruct (Z.ltb_spec (16 * (top h / 16 + 2) + n) (2 ^ 57)); [|done]. injection H as <- <-.
  pose proof (top_nonneg h). pose proof (Z.div_mod (top h) 16). pose proof (Z.mod_pos_bound (top h) 16).
  split_and!; [lia|done|by rewrite length_replicate|]. intros x Hx. destruct (h !! x) as [b|] eqn:E; [|done].
  apply top_spec in E. lia.
Qed.

Lemma demo_laws : @PlatformLaws demo_platform.
Proof.
  split.
  - intros f n [= <-] Hn. unfold is_uint in Hn. destruct (Z.ltb_spec n (2 ^ 63)); [right|by left].
    pose proof (Z.div_mod (n + 15) 16). pose proof (Z.mod_pos_bound (n + 15) 16). lia.
  - apply bump_spec.
  - intros h off p b n q bytes _ (? & ? & ? & Hf)%bump_spec. split_and!; [done..|].
    intros x Hx. apply lookup_delete_None. right. by apply Hf.
  - done.
  - done.
Qed.

(** ** A program *)

(** A string of three hundred characters, a copy that shares them, a change of the copy, and the end
    of both; it gives up when a call throws. *)
Definition demo_end (r : result fb_exn unit) : prog := Call (Destroy 1) (fun _ => Stop).

Definition demo : prog :=
  Call (NewFill 1 300 97) (fun r => if r is Err _ then Stop else
  Call (NewCopy 2 1) (fun r => if r is Err _ then demo_end r else
  Call (PushBack 2 98) (fun r =>
  Call (Destroy 2) demo_end))).

Lemma allowed_call `{!Platform} k next m m1 : spec k m = Some (To m1) -> allowed (next (Ok tt)) m1 ->
  (forall e m2, failure k m m2 -> allowed (next (Err e)) m2) -> allowed (Call k next) m.
Proof. intros E H1 H2. cbn [allowed]. rewrite E. split; [done|]. intros e m2 _. apply H2. Qed.

Lemma demo_end_allowed `{!Platform} r t : allowed (demo_end r) {[1 := t]}.
Proof. by eapply allowed_call. Qed.

Lemma demo_allowed : @allowed demo_platform demo ∅.
Proof.
  eapply (@allowed_call demo_platform); [reflexivity| |done].
  eapply (@allowed_call demo_platform); [reflexivity| |intros e m2 ->; apply demo_end_allowed].
  eapply (@allowed_call demo_platform); [reflexivity|..].
  - eapply (@allowed_call demo_platform); [reflexivity| |done]. apply demo_end_allowed.
  - intros e m2 ->. eapply (@allowed_call demo_platform); [reflexivity| |done]. apply demo_end_allowed.
Qed.

(** The program runs, keeps to its texts and leaves no block behind. *)
Lemma fbstring_refinement_witness : @allowed demo_platform demo ∅ /\
  exists w m, @exec demo_platform demo (mkWorld ∅ ∅) = Some w /\ @abs_run demo_platform demo ∅ m /\
  (forall x, match m !! x with
             | Some t => exists c, wobjs w !! x = Some c /\ shows (wheap w) c t
             | None => wobjs w !! x = None
             end) /\ (m = ∅ -> wheap w = ∅).
Proof. split; [exact demo_allowed|]. exact (@fbstring_refinement demo_platform demo_laws demo demo_allowed). Defined.

(** An empty string. *)
Definition empty_core : core := replicate 23 0 ++ [23].

Lemma empty_rep : rep ∅ empty_core [].
Proof. constructor; [done|cbn; lia|done|]. by exists (replicate 22 0 ++ [23]). Qed.

Lemma reserve_then_push_back_witness : @outcome _ (@fb_reserve demo_platform 40) (mkSt ∅ empty_core) (fun r s1 =>
  match r with
  | Err e => s1 = mkSt ∅ empty_core /\ ~ @grants demo_platform (demand (mkSt ∅ empty_core) 40) ∅
  | Ok _ => @total _ (@push_all demo_platform (replicate 40 97)) s1
      (fun _ s2 => dom (hp s2) = dom (hp s1) /\ rep (hp s2) (this s2) ([] ++ replicate 40 97))
  end).
Proof.
  apply (@reserve_then_push_back demo_platform demo_laws 40 (replicate 40 97) (mkSt ∅ empty_core) []).
  - intros p b Hp. cbn [hp] in Hp. by rewrite lookup_empty in Hp.
  - apply empty_rep.
  - lia.
  - reflexivity.
  - cbn. lia.
Defined.

Lemma demo_grants n : n <= 2 ^ 20 -> @grants demo_platform n ∅.
Proof.
  intros Hn. split; [lia|]. intros k Hk.
  assert (Hb : forall byte, bump byte ∅ (@goodMallocSize demo_platform k) <> None); [|split; [apply Hb|intros; apply Hb]].
  intros byte. unfold bump, top. rewrite map_fold_empty. unfold goodMallocSize. cbn [nallocx demo_platform].
  pose proof (Z.div_mod (k + 15) 16). pose proof (Z.mod_pos_bound (k + 15) 16).
  rewrite (proj2 (Z.eqb_neq k 0)), (proj2 (Z.ltb_lt k (2 ^ 63))) by lia. cbv zeta. rewrite (proj2 (Z.eqb_neq _ 0)) by lia. cbn [negb].
  rewrite (proj2 (Z.ltb_lt _ _)); [done|]. change (16 * (0 / 16 + 2)) with 32. lia.
Qed.

Lemma granted_calls_return_witness :
  @total _ (@fbstring_core demo_platform 1 (replicate 40 97) 40 false) (mkSt ∅ empty_core)
    (fun _ s' => rep (hp s') (this s') (replicate 40 97)) /\
  @total _ (@push_back demo_platform 97) (mkSt ∅ empty_core) (fun _ s' => rep (hp s') (this s') [97]).
Proof.
  destruct (@granted_calls_return demo_platform demo_laws (mkSt ∅ empty_core) [] empty_core 1 (replicate 40 97) 40 97)
    as (H1 & _ & _ & H4).
  - intros p b Hp. cbn [hp] in Hp. by rewrite lookup_empty in Hp.
  - intros p. unfold cnt. cbn [hp]. rewrite lookup_empty. lia.
  - reflexivity.
  - apply empty_rep.
  - split_and!; [lia|reflexivity|cbn; lia|discriminate].
  - split; [apply H1, demo_grants; lia|apply H4; [reflexivity|apply demo_grants; vm_compute; discriminate|cbn; lia]].
Defined.

(** ** What strings do not do *)

(** A large string of three hundred characters. *)
Definition large_heap : heap := {[ 32 := mkBlock (Some 1) (replicate 300 97 ++ [0]) ]}.
Definition large_core : core := words 32 300 (tag 300 (Some 1)).

Lemma large_ok : heap_ok large_heap.
Proof. intros p b. unfold large_heap. rewrite lookup_singleton. case_decide; [intros [= <-]; cbn; lia|done]. Qed.

Lemma large_countable : countable large_heap.
Proof. intros p. unfold cnt, large_heap. rewrite lookup_singleton. case_decide; cbn; lia. Qed.

Lemma large_rep : rep large_heap large_core (replicate 300 97).
Proof.
  apply (rep_block large_heap 32 300 (Some 1) (replicate 300 97 ++ [0]) (replicate 300 97)).
  - lia.
  - rewrite length_replicate. lia.
  - apply lookup_singleton_eq.
  - rewrite length_app, length_replicate. cbn. lia.
  - by exists [].
  - cbn. lia.
Qed.

Lemma data_is_shared_witness :
  @total _ (@fbstring_core_copy demo_platform large_core) (mkSt large_heap empty_core) (fun _ s1 =>
    rep (hp s1) large_core (replicate 300 97) /\ rep (hp s1) (this s1) (replicate 300 97) /\
    total (data_store 7 98) s1 (fun _ s2 => rep (hp s2) large_core (<[7%nat := 98]> (replicate 300 97)) /\
                                            rep (hp s2) (this s2) (<[7%nat := 98]> (replicate 300 97))) /\
    outcome (@at_store demo_platform (Z.of_nat 7) 98) s1 (fun r s2 =>
      rep (hp s2) large_core (replicate 300 97) /\
      rep (hp s2) (this s2) (match r with Ok _ => <[7%nat := 98]> (replicate 300 97) | Err _ => replicate 300 97 end))).
Proof.
  apply (@data_is_shared demo_platform demo_laws large_core (replicate 300 97) 7 98 (mkSt large_heap empty_core)).
  - apply large_ok.
  - apply large_countable.
  - apply large_rep.
  - reflexivity.
  - rewrite length_replicate. lia.
Defined.

(** The characters [abcdef] in the object. *)
Definition abcdef_core : core := [97; 98; 99; 100; 101; 102; 0] ++ replicate 16 0 ++ [17].

Lemma abcdef_room : room ∅ abcdef_core [97; 98; 99; 100; 101; 102] 23.
Proof. constructor; [done|cbn; lia|done| |lia]. by exists (replicate 16 0 ++ [17]). Qed.

(** Inserting [def] in front of [abcdef] inserts [abc]; appending [2^64 - 5] characters is undefined. *)
Lemma insert_and_append_unchecked_witness :
  @total _ (@insert demo_platform 0 (InThis 3) 3) (mkSt ∅ abcdef_core)
    (fun _ s' => rep (hp s') (this s') [97; 98; 99; 97; 98; 99; 100; 101; 102]) /\
  @append_fill demo_platform (2 ^ 64 - 5) 120 (mkSt ∅ abcdef_core) = None.
Proof.
  destruct (@insert_and_append_unchecked demo_platform demo_laws (mkSt ∅ abcdef_core) [97; 98; 99; 100; 101; 102]) as [H1 H2].
  - reflexivity.
  - intros p b Hp. cbn [hp] in Hp. by rewrite lookup_empty in Hp.
  - eapply room_rep, abcdef_room.
  - split.
    + apply (H1 0%nat 3%nat 3%nat 23 (InThis 0)); [apply abcdef_room|reflexivity|lia|cbn; lia|cbn; lia].
    + apply H2; [reflexivity|lia|cbn; lia].
Defined.

(** Inserting a string of thirty characters into itself reads a block that is freed. *)
Lemma insert_self_freed :
  (r ← @run demo_platform (NewFill 1 30 97) (mkWorld ∅ ∅); @run demo_platform (InsertStr 1 0 1) r.1) = None.
Proof. vm_compute. reflexivity. Qed.
