(* ===== verification/FBStringFind.v ===== *)
(** Searching and comparing strings.  The operations read [size()] characters from [data()] on and
    change nothing, so they are functions of the text; a read outside of it, or of the characters
    searched for, is undefined, and so is running out of fuel. *)
From S2P Require Import Prelude.

Definition npos : Z := 2 ^ 64 - 1.

(** [traits_type::compare(a, b, n)]: the first difference of [n] characters decides. *)
Fixpoint traits_compare (a b : list Z) (n : nat) {struct n} : option Z :=
  match n with
  | O => Some 0
  | S n =>
      match a, b with
      | x :: a, y :: b => if x <? y then Some (-1) else if y <? x then Some 1 else traits_compare a b n
      | _, _ => None
      end
  end.

Section Search.
Context (t s : list Z).

Abbreviation length_ := (Z.of_nat (length t)).

(** ** [find] *)

(** [while (i[nsize_1] != lastNeedle) if (++i == iEnd) return npos;] *)
Fixpoint find_last (fuel : nat) (nsize_1 : nat) (lastNeedle : Z) (i iEnd : nat) : option (option nat) :=
  match fuel with
  | O => None
  | S fuel =>
      ch ← t !! (i + nsize_1)%nat;
      if ch =? lastNeedle then Some (Some i)
      else let i := S i in if (i =? iEnd)%nat then Some None else find_last fuel nsize_1 lastNeedle i iEnd
  end.

(** Whether the characters from [j] on match. *)
Fixpoint matches (fuel : nat) (nsize : nat) (i j : nat) : option bool :=
  match fuel with
  | O => None
  | S fuel =>
      a ← t !! (i + j)%nat; b ← s !! j;
      if negb (a =? b) then Some false
      else let j := S j in if (j =? nsize)%nat then Some true else matches fuel nsize i j
  end.

(** [while (skip <= nsize_1 && needle[nsize_1 - skip] != lastNeedle) ++skip;] *)
Fixpoint find_skip (fuel : nat) (nsize_1 : nat) (lastNeedle : Z) (skip : nat) : option nat :=
  match fuel with
  | O => None
  | S fuel =>
      if (skip <=? nsize_1)%nat then
        ch ← s !! (nsize_1 - skip)%nat;
        if ch =? lastNeedle then Some skip else find_skip fuel nsize_1 lastNeedle (S skip)
      else Some skip
  end.

(** The loop; [i] must not go beyond the end of the characters. *)
Fixpoint find_loop (fuel : nat) (nsize : nat) (lastNeedle : Z) (skip i iEnd : nat) : option Z :=
  match fuel with
  | O => None
  | S fuel =>
      if (i <? iEnd)%nat then
        r ← find_last fuel (nsize - 1) lastNeedle i iEnd;
        match r with
        | None => Some npos
        | Some i =>
            b ← matches (S nsize) nsize i 0;
            if b : bool then Some (Z.of_nat i)
            else
              skip ← (if (skip =? 0)%nat then find_skip (S nsize) (nsize - 1) lastNeedle 1 else Some skip);
              if (i + skip <=? length t)%nat then find_loop fuel nsize lastNeedle skip (i + skip) iEnd else None
        end
      else Some npos
  end.

Definition find (pos nsize : Z) : option Z :=
  let size := length_ in
  if (size <? u64 (nsize + pos)) || (u64 (nsize + pos) <? pos) then Some npos
  else if nsize =? 0 then Some pos
  else
    lastNeedle ← s !! Z.to_nat (nsize - 1);
    find_loop (length t + 2) (Z.to_nat nsize) lastNeedle 0 (Z.to_nat pos) (length t - (Z.to_nat nsize - 1)).

(** ** The other searches *)

(** [traits_type::find(s, n, ch) != nullptr]. *)
Definition traits_find (n : Z) (ch : Z) : option bool :=
  if n <=? Z.of_nat (length s) then Some (bool_decide (ch ∈ take (Z.to_nat n) s)) else None.

(** [for (;; --i)] from [i] down to the start, until [found]. *)
Fixpoint backward (found : nat -> option bool) (i : nat) : option Z :=
  b ← found i;
  if b : bool then Some (Z.of_nat i) else match i with O => Some npos | S i => backward found i end.

(** [for (; i != finish; ++i)], [n] steps before the end, until [found]. *)
Fixpoint forward (found : nat -> option bool) (i n : nat) : option Z :=
  match n with
  | O => Some npos
  | S n => b ← found i; if b : bool then Some (Z.of_nat i) else forward found (S i) n
  end.

Definition rfind (pos n : Z) : option Z :=
  if length_ <? n then Some npos
  else
    let pos := Z.min pos (length_ - n) in
    if n =? 0 then Some pos
    else
      backward (fun i =>
        a ← t !! i; b ← s !! 0%nat;
        if a =? b then r ← traits_compare (drop i t) s (Z.to_nat n); Some (r =? 0) else Some false) (Z.to_nat pos).

Definition find_first_of (pos n : Z) : option Z :=
  if (length_ <? pos) || (n =? 0) then Some npos
  else forward (fun i => ch ← t !! i; traits_find n ch) (Z.to_nat pos) (length t - Z.to_nat pos).

Definition find_last_of (pos n : Z) : option Z :=
  if negb (length_ =? 0) && (0 <? n) then
    backward (fun i => ch ← t !! i; traits_find n ch) (Z.to_nat (Z.min pos (length_ - 1)))
  else Some npos.

Definition find_first_not_of (pos n : Z) : option Z :=
  if pos <? length_ then
    forward (fun i => ch ← t !! i; b ← traits_find n ch; Some (negb b)) (Z.to_nat pos) (length t - Z.to_nat pos)
  else Some npos.

Definition find_last_not_of (pos n : Z) : option Z :=
  if negb (length_ =? 0) then
    backward (fun i => ch ← t !! i; b ← traits_find n ch; Some (negb b)) (Z.to_nat (Z.min pos (length_ - 1)))
  else Some npos.

(** ** [compare] *)

Definition compare (pos1 n1 n2 : Z) : option (result unit Z) :=
  if pos1 <=? length_ then
    let n1 := Z.min n1 (length_ - pos1) in
    r ← traits_compare (drop (Z.to_nat pos1) t) s (Z.to_nat (Z.min n1 n2));
    Some (Ok (if negb (r =? 0) then r else if n2 <? n1 then 1 else if n1 <? n2 then -1 else 0))
  else Some (Err tt).
End Search.

(** [compare(str)] and the operators of two strings. *)
Definition compare_str (a b : list Z) : option Z :=
  r ← compare a b 0 (Z.of_nat (length a)) (Z.of_nat (length b));
  match r with Ok z => Some z | Err _ => None end.

Definition operator_eq (a b : list Z) : option bool :=
  if (length a =? length b)%nat then r ← compare_str a b; Some (r =? 0) else Some false.

Definition operator_lt (a b : list Z) : option bool := r ← compare_str a b; Some (r <? 0).

(** ** The searches find the first or the last place *)

(** The position found, or [npos]. *)
Definition hit (o : option nat) : Z := if o is Some k then Z.of_nat k else npos.

(** [n] characters of [s] are at [k] in [t]. *)
Definition occurs (t s : list Z) (n k : nat) : bool := bool_decide (take n (drop k t) = take n s).

(** One of the first [n] characters of [s] is at [k] in [t]. *)
Definition one_of (t s : list Z) (n k : nat) : bool := if t !! k is Some ch then bool_decide (ch ∈ take n s) else false.

(** The first of the positions [i], ..., [e - 1] with [P] is found. *)
Inductive first_in (P : nat -> bool) (i e : nat) : Z -> Prop :=
| first_none : (forall k, (i <= k < e)%nat -> P k = false) -> first_in P i e npos
| first_some k : (i <= k < e)%nat -> P k = true -> (forall j, (i <= j < k)%nat -> P j = false) ->
    first_in P i e (Z.of_nat k).

Lemma find_seq_skip (P : nat -> bool) i n m : (forall k, (i <= k < i + n)%nat -> P k = false) ->
  List.find P (seq i (n + m)) = List.find P (seq (i + n) m).
Proof.
  revert i. induction n as [|n IH]; intros i H; cbn; [by rewrite Nat.add_0_r|].
  rewrite (H i) by lia. rewrite IH by (intros; apply H; lia). by rewrite Nat.add_succ_comm.
Qed.

Lemma first_in_find P i e r : first_in P i e r -> r = hit (List.find P (seq i (e - i))).
Proof.
  intros [H|k Hk Hp H].
  - rewrite <- (Nat.add_0_r (e - i)). rewrite find_seq_skip; [done|]. intros. apply H. lia.
  - replace (e - i)%nat with ((k - i) + S (e - S k))%nat by lia. rewrite find_seq_skip by (intros; apply H; lia).
    replace (i + (k - i))%nat with k by lia. cbn. by rewrite Hp.
Qed.

(** Positions without [P] may be left out at the start. *)
Lemma first_in_skip P i j e r : (i <= j)%nat -> (forall k, (i <= k < j)%nat -> P k = false) -> first_in P j e r -> first_in P i e r.
Proof.
  intros Hij H [H'|k Hk Hp H']; constructor; [|lia|done|]; intros k' Hk'; destruct (decide (k' < j)%nat);
    (apply H; lia) || (apply H'; lia).
Qed.

Section Find.
Context (t s : list Z) (nsize : nat) (last : Z).
Context (Hn : (0 < nsize <= length s)%nat) (Hlast : s !! (nsize - 1)%nat = Some last).

Abbreviation iEnd := (length t - (nsize - 1))%nat.

Lemma occurs_lookup k j : (j < nsize)%nat -> occurs t s nsize k = true -> t !! (k + j)%nat = s !! j.
Proof.
  unfold occurs. intros Hj E%bool_decide_eq_true. by rewrite <- (lookup_take_lt s nsize j Hj), <- E, lookup_take_lt, lookup_drop.
Qed.

Lemma find_last_spec fuel i : (i < iEnd)%nat -> (iEnd - i <= fuel)%nat ->
  exists r, find_last t fuel (nsize - 1) last i iEnd = Some r /\
  match r with
  | None => forall k, (i <= k < iEnd)%nat -> occurs t s nsize k = false
  | Some j => (i <= j < iEnd)%nat /\ t !! (j + (nsize - 1))%nat = Some last /\
      forall k, (i <= k < j)%nat -> occurs t s nsize k = false
  end.
Proof using Hn Hlast.
  revert i. induction fuel as [|fuel IH]; intros i Hi Hf; [lia|]. cbn [find_last].
  destruct (lookup_lt_is_Some_2 t (i + (nsize - 1))) as [ch Hch]; [lia|]. rewrite Hch. cbn [mbind option_bind].
  destruct (Z.eqb_spec ch last) as [->|Hne].
  { eexists. split; [done|]. split_and!; [lia|lia|done|lia]. }
  assert (Hno : occurs t s nsize i = false).
  { apply not_true_is_false. intros E. apply (occurs_lookup i (nsize - 1)) in E; [congruence|lia]. }
  destruct (Nat.eqb_spec (S i) iEnd) as [He|].
  { eexists. split; [done|]. cbn. intros k Hk. by replace k with i by lia. }
  destruct (IH (S i)) as (r & -> & Hr); [lia|lia|]. exists r. split; [done|].
  assert (Hcons : forall e, (forall k, (S i <= k < e)%nat -> occurs t s nsize k = false) ->
    forall k, (i <= k < e)%nat -> occurs t s nsize k = false).
  { intros e He k Hk. destruct (decide (k = i)) as [->|]; [done|apply He; lia]. }
  destruct r as [j|]; [destruct Hr as (? & ? & Hr); split_and!; [lia|lia|done|]|]; by apply Hcons.
Qed.

Lemma matches_spec fuel i j : (i + nsize <= length t)%nat -> (j < nsize)%nat -> (nsize - j <= fuel)%nat ->
  matches t s fuel nsize i j = Some (bool_decide (take (nsize - j) (drop (i + j) t) = take (nsize - j) (drop j s))).
Proof using Hn Hlast.
  revert j. induction fuel as [|fuel IH]; intros j Hi Hj Hf; [lia|]. cbn [matches].
  destruct (lookup_lt_is_Some_2 t (i + j)) as [a Ha]; [lia|]. destruct (lookup_lt_is_Some_2 s j) as [b Hb]; [lia|].
  rewrite Ha, Hb. cbn [mbind option_bind]. rewrite (drop_S t a), (drop_S s b) by done.
  replace (nsize - j)%nat with (S (nsize - S j)) by lia. cbn [take].
  destruct (Z.eqb_spec a b) as [->|Hne]; cbn [negb]; [|by rewrite bool_decide_eq_false_2 by congruence].
  destruct (Nat.eqb_spec (S j) nsize) as [<-|]; [by rewrite Nat.sub_diag; cbn; rewrite bool_decide_eq_true_2|].
  rewrite IH by lia. rewrite Nat.add_succ_r. f_equal. apply bool_decide_ext. split; [by intros ->|by intros [=]].
Qed.

Definition good_skip (sk : nat) : Prop :=
  (1 <= sk <= nsize)%nat /\ forall d, (1 <= d < sk)%nat -> s !! (nsize - 1 - d)%nat <> Some last.

Lemma find_skip_spec fuel sk : good_skip sk -> (nsize - sk < fuel)%nat ->
  exists sk', find_skip s fuel (nsize - 1) last sk = Some sk' /\ good_skip sk'.
Proof using Hn Hlast.
  revert sk. induction fuel as [|fuel IH]; intros sk [Hs Hg] Hf; [lia|]. cbn [find_skip].
  destruct (Nat.leb_spec sk (nsize - 1)); [|by exists sk].
  destruct (lookup_lt_is_Some_2 s (nsize - 1 - sk)) as [ch Hch]; [lia|]. rewrite Hch. cbn [mbind option_bind].
  destruct (Z.eqb_spec ch last) as [->|Hne]; [by exists sk|]. apply IH; [|lia]. split; [lia|].
  intros d Hd. destruct (decide (d = sk)) as [->|]; [congruence|apply Hg; lia].
Qed.

(** Where the last character matches, no occurrence is skipped. *)
Lemma skip_misses i sk k : good_skip sk -> t !! (i + (nsize - 1))%nat = Some last -> occurs t s nsize i = false ->
  (i <= k < i + sk)%nat -> occurs t s nsize k = false.
Proof using Hn Hlast.
  intros [Hs Hg] Ht Hi Hk. destruct (decide (k = i)) as [->|]; [done|]. apply not_true_is_false. intros E.
  apply (occurs_lookup k (nsize - 1 - (k - i))) in E; [|lia]. apply (Hg (k - i)%nat); [lia|].
  rewrite <- E, <- Ht. f_equal. lia.
Qed.

Lemma needle_loop_spec fuel skip i : skip = 0%nat \/ good_skip skip -> (iEnd - i < fuel)%nat ->
  exists r, find_loop t s fuel nsize last skip i iEnd = Some r /\ first_in (occurs t s nsize) i iEnd r.
Proof using Hn Hlast.
  revert skip i. induction fuel as [|fuel IH]; intros skip i Hskip Hf; [lia|]. cbn [find_loop].
  destruct (Nat.ltb_spec i iEnd); [|eexists; split; [done|constructor; lia]].
  destruct (find_last_spec fuel i) as ([j|] & -> & Hr); [lia|lia| |by eexists; split; [|constructor]]. cbn [mbind option_bind].
  destruct Hr as (Hj & Ht & Hno). rewrite matches_spec by lia. cbn [mbind option_bind]. rewrite Nat.add_0_r, Nat.sub_0_r, drop_0.
  change (bool_decide (take nsize (drop j t) = take nsize s)) with (occurs t s nsize j).
  destruct (occurs t s nsize j) eqn:Eo; [by eexists; split; [|constructor]|].
  assert (exists sk, (if (skip =? 0)%nat then find_skip s (S nsize) (nsize - 1) last 1 else Some skip) = Some sk /\ good_skip sk)
    as (sk & -> & Hsk).
  { destruct (Nat.eqb_spec skip 0); [|destruct Hskip; [done|by exists skip]]. apply find_skip_spec; [split; [lia|lia]|lia]. }
  cbn [mbind option_bind]. pose proof (proj1 Hsk). rewrite (proj2 (Nat.leb_le _ _)) by lia.
  destruct (IH sk (j + sk)%nat) as (r & -> & Hr); [by right|lia|]. exists r. split; [done|].
  eapply first_in_skip; [|exact Hno|]; [lia|]. eapply first_in_skip; [|intros k; by eapply skip_misses|done]. lia.
Qed.
End Find.

(** (C12) [find] returns the first position at or after [pos] where the first [nsize] characters of
    [needle] occur, or [npos]: it reads only characters of the text and of the needle, it ends, and
    the positions it leaves out have no occurrence. *)
Theorem find_first_occurrence (t needle : list Z) (pos nsize : Z) :
  Z.of_nat (length t) < 2 ^ 64 -> is_u64 pos -> is_u64 nsize -> nsize <= Z.of_nat (length needle) ->
  find t needle pos nsize =
    Some (hit (List.find (occurs t needle (Z.to_nat nsize)) (seq (Z.to_nat pos) (length t + 1 - Z.to_nat nsize - Z.to_nat pos)))).
Proof.
  unfold is_uint. intros Ht Hpos Hn Hle. unfold find. cbv zeta.
  destruct (Z.ltb_spec (Z.of_nat (length t)) (nsize + pos)) as [Hlt|Hge].
  { replace (length t + 1 - Z.to_nat nsize - Z.to_nat pos)%nat with 0%nat by lia.
    destruct (decide (nsize + pos < 2 ^ 64)).
    - rewrite wrap_small by (unfold is_uint; lia). by rewrite (proj2 (Z.ltb_lt _ _)) by lia.
    - assert (u64 (nsize + pos) = nsize + pos - 2 ^ 64) as -> by (symmetry; apply (Z.mod_unique_pos _ _ 1); lia).
      by rewrite (proj2 (Z.ltb_lt (nsize + pos - 2 ^ 64) pos)), orb_true_r by lia. }
  rewrite wrap_small by (unfold is_uint; lia). rewrite (proj2 (Z.ltb_ge _ _)), (proj2 (Z.ltb_ge (nsize + pos) pos)) by lia. cbn [orb].
  destruct (Z.eqb_spec nsize 0) as [->|Hne].
  { change (Z.to_nat 0) with 0%nat. replace (length t + 1 - 0 - Z.to_nat pos)%nat with (S (length t - Z.to_nat pos)) by lia.
    cbn [seq List.find]. unfold occurs at 1. rewrite bool_decide_eq_true_2 by done. cbn [hit]. by rewrite Z2Nat.id by lia. }
  replace (Z.to_nat (nsize - 1)) with (Z.to_nat nsize - 1)%nat by lia.
  destruct (lookup_lt_is_Some_2 needle (Z.to_nat nsize - 1)) as [last Hlast]; [lia|]. rewrite Hlast. cbn [mbind option_bind].
  destruct (needle_loop_spec t needle (Z.to_nat nsize) last) with (fuel := (length t + 2)%nat) (skip := 0%nat) (i := Z.to_nat pos)
    as (r & -> & Hr); [lia|done|by left|lia|].
  apply first_in_find in Hr as ->. do 4 f_equal. lia.
Qed.

(** ** The other searches *)

Lemma forward_spec found P i n : (forall k, (i <= k < i + n)%nat -> found k = Some (P k)) ->
  forward found i n = Some (hit (List.find P (seq i n))).
Proof.
  revert i. induction n as [|n IH]; intros i H; cbn [forward seq List.find]; [done|].
  rewrite H by lia. cbn [mbind option_bind]. destruct (P i); [done|]. apply IH. intros. apply H. lia.
Qed.

Lemma backward_spec found P i : (forall k, (k <= i)%nat -> found k = Some (P k)) ->
  backward found i = Some (hit (List.find P (rev (seq 0 (S i))))).
Proof.
  induction i as [|i IH]; intros H; cbn [backward].
  - rewrite H by lia. cbn. by destruct (P 0%nat).
  - rewrite H by lia. rewrite seq_S, rev_app_distr. cbn [rev app List.find Nat.add mbind option_bind].
    destruct (P (S i)); [done|]. apply IH. intros. apply H. lia.
Qed.

Lemma traits_compare_spec a b n : (n <= length a)%nat -> (n <= length b)%nat ->
  exists r, traits_compare a b n = Some r /\ (r =? 0) = bool_decide (take n a = take n b).
Proof.
  revert a b. induction n as [|n IH]; intros a b Ha Hb; [exists 0; by rewrite bool_decide_eq_true_2|].
  destruct a as [|x a]; [cbn in Ha; lia|]. destruct b as [|y b]; [cbn in Hb; lia|]. cbn [traits_compare take].
  destruct (Z.ltb_spec x y); [exists (-1); split; [done|by rewrite bool_decide_eq_false_2 by (injection 1; lia)]|].
  destruct (Z.ltb_spec y x); [exists 1; split; [done|by rewrite bool_decide_eq_false_2 by (injection 1; lia)]|].
  destruct (IH a b) as (r & -> & Er); [cbn in *; lia..|]. exists r. split; [done|]. rewrite Er.
  assert (x = y) as -> by lia. apply bool_decide_ext. split; [by intros ->|by intros [=]].
Qed.

Section Others.
Context (t s : list Z) (pos n : Z).
Context (Hpos : 0 <= pos) (Hn : 0 <= n <= Z.of_nat (length s)).

Lemma one_of_spec k : (k < length t)%nat -> (ch ← t !! k; traits_find s n ch) = Some (one_of t s (Z.to_nat n) k).
Proof using Hpos Hn.
  intros [ch Hch]%lookup_lt_is_Some_2. unfold one_of, traits_find. rewrite Hch. cbn [mbind option_bind].
  by rewrite (proj2 (Z.leb_le _ _)) by lia.
Qed.

Lemma none_of_spec k : (k < length t)%nat ->
  (ch ← t !! k; b ← traits_find s n ch; Some (negb b)) = Some (negb (one_of t s (Z.to_nat n) k)).
Proof using Hpos Hn.
  intros Hk. pose proof (one_of_spec k Hk) as H. destruct (t !! k) as [ch|]; [|done]. cbn [mbind option_bind] in *. by rewrite H.
Qed.

Lemma rfind_spec :
  rfind t s pos n =
    Some (hit (List.find (occurs t s (Z.to_nat n)) (rev (seq 0 (Nat.min (S (Z.to_nat pos)) (length t + 1 - Z.to_nat n)))))).
Proof using Hpos Hn.
  unfold rfind. destruct (Z.ltb_spec (Z.of_nat (length t)) n).
  { by replace (Nat.min _ _) with 0%nat by lia. }
  cbv zeta. replace (Nat.min _ _) with (S (Z.to_nat (Z.min pos (Z.of_nat (length t) - n)))) by lia. destruct (Z.eqb_spec n 0) as [->|Hne].
  - rewrite seq_S, rev_app_distr. cbn [rev app List.find Nat.add]. unfold occurs at 1. rewrite bool_decide_eq_true_2 by done.
    cbn [hit]. by rewrite Z2Nat.id by lia.
  - apply backward_spec. intros k Hk. destruct (lookup_lt_is_Some_2 t k) as [a Ha]; [lia|].
    destruct s as [|b s'] eqn:Es; [cbn in Hn; lia|]. rewrite Ha. cbn [mbind option_bind lookup list_lookup]. rewrite <- Es in *.
    destruct (Z.eqb_spec a b) as [->|Hab].
    + destruct (traits_compare_spec (drop k t) s (Z.to_nat n)) as (r & -> & Er); [rewrite length_drop; lia|lia|].
      cbn [mbind option_bind]. by rewrite Er.
    + unfold occurs. rewrite bool_decide_eq_false_2; [done|]. rewrite (drop_S t a) by done. rewrite Es.
      destruct (Z.to_nat n) eqn:En; [lia|]. cbn. congruence.
Qed.

Lemma one_of_nothing ks : n = 0 -> List.find (one_of t s (Z.to_nat n)) ks = None.
Proof using Hpos Hn.
  intros ->. induction ks as [|k ks IH]; [done|]. cbn [List.find]. rewrite IH. unfold one_of.
  destruct (t !! k); [|done]. rewrite bool_decide_eq_false_2; [done|]. apply not_elem_of_nil.
Qed.

Lemma find_first_of_spec : find_first_of t s pos n =
  Some (hit (List.find (one_of t s (Z.to_nat n)) (seq (Z.to_nat pos) (length t - Z.to_nat pos)))).
Proof using Hpos Hn.
  unfold find_first_of. destruct (Z.ltb_spec (Z.of_nat (length t)) pos).
  { by replace (length t - Z.to_nat pos)%nat with 0%nat by lia. }
  destruct (Z.eqb_spec n 0); cbn [orb]; [by rewrite one_of_nothing|].
  apply forward_spec. intros k Hk. apply one_of_spec. lia.
Qed.

Lemma find_first_not_of_spec : find_first_not_of t s pos n =
  Some (hit (List.find (fun k => negb (one_of t s (Z.to_nat n) k)) (seq (Z.to_nat pos) (length t - Z.to_nat pos)))).
Proof using Hpos Hn.
  unfold find_first_not_of. destruct (Z.ltb_spec pos (Z.of_nat (length t))).
  - apply forward_spec. intros k Hk. apply none_of_spec. lia.
  - by replace (length t - Z.to_nat pos)%nat with 0%nat by lia.
Qed.

(** The positions up to [pos] that have a character, the last one first. *)
Abbreviation backwards := (rev (seq 0 (Nat.min (S (Z.to_nat pos)) (length t)))).

Lemma backwards_spec : 0 < Z.of_nat (length t) ->
  backwards = rev (seq 0 (S (Z.to_nat (Z.min pos (Z.of_nat (length t) - 1))))).
Proof using Hpos Hn. intros. do 2 f_equal. lia. Qed.

Lemma find_last_of_spec : find_last_of t s pos n = Some (hit (List.find (one_of t s (Z.to_nat n)) backwards)).
Proof using Hpos Hn.
  unfold find_last_of. destruct (Z.eqb_spec (Z.of_nat (length t)) 0); [by replace (length t) with 0%nat by lia|].
  destruct (Z.ltb_spec 0 n); cbn [negb andb]; [|by rewrite one_of_nothing by lia].
  rewrite backwards_spec by lia. apply backward_spec. intros k Hk. apply one_of_spec. lia.
Qed.

Lemma find_last_not_of_spec :
  find_last_not_of t s pos n = Some (hit (List.find (fun k => negb (one_of t s (Z.to_nat n) k)) backwards)).
Proof using Hpos Hn.
  unfold find_last_not_of. destruct (Z.eqb_spec (Z.of_nat (length t)) 0); [by replace (length t) with 0%nat by lia|].
  cbn [negb]. rewrite backwards_spec by lia. apply backward_spec. intros k Hk. apply none_of_spec. lia.
Qed.
End Others.

(** (C36) [rfind] returns the last position at or before [pos] where the [n] characters occur;
    [find_first_of] and [find_last_of] the first position from [pos] on and the last position up to
    [pos] with one of the [n] characters, and [find_first_not_of] and [find_last_not_of] with none of
    them; all return [npos] when there is none, and read only characters that are there. *)
Theorem searches_find (t s : list Z) (pos n : Z) : is_u64 pos -> is_u64 n -> n <= Z.of_nat (length s) ->
  let m := Z.to_nat n in
  let from := seq (Z.to_nat pos) (length t - Z.to_nat pos) in
  let upto k := rev (seq 0 (Nat.min (S (Z.to_nat pos)) k)) in
  rfind t s pos n = Some (hit (List.find (occurs t s m) (upto (length t + 1 - m)%nat))) /\
  find_first_of t s pos n = Some (hit (List.find (one_of t s m) from)) /\
  find_last_of t s pos n = Some (hit (List.find (one_of t s m) (upto (length t)))) /\
  find_first_not_of t s pos n = Some (hit (List.find (fun k => negb (one_of t s m k)) from)) /\
  find_last_not_of t s pos n = Some (hit (List.find (fun k => negb (one_of t s m k)) (upto (length t)))).
Proof.
  unfold is_uint. intros Hpos Hn Hle.
  split_and!; [apply rfind_spec|apply find_first_of_spec|apply find_last_of_spec|apply find_first_not_of_spec|apply find_last_not_of_spec]; lia.
Qed.

(** ** The order of strings *)

(** Which of two texts comes first in a dictionary. *)
Fixpoint order (a b : list Z) : Z :=
  match a, b with
  | [], [] => 0
  | [], _ => -1
  | _, [] => 1
  | x :: a, y :: b => if x <? y then -1 else if y <? x then 1 else order a b
  end.

Lemma traits_compare_order a b n :
  (n <= length a)%nat -> (n <= length b)%nat -> exists r, traits_compare a b n = Some r /\
  order a b = if r =? 0 then order (drop n a) (drop n b) else r.
Proof.
  revert a b. induction n as [|n IH]; intros a b Ha Hb; [by exists 0|].
  destruct a as [|x a]; [cbn in Ha; lia|]. destruct b as [|y b]; [cbn in Hb; lia|]. cbn [traits_compare order drop].
  destruct (x <? y); [by exists (-1)|]. destruct (y <? x); [by exists 1|]. apply IH; cbn in *; lia.
Qed.

Lemma order_lengths a b : a = [] \/ b = [] ->
  order a b = (if Z.of_nat (length b) <? Z.of_nat (length a) then 1 else if Z.of_nat (length a) <? Z.of_nat (length b) then -1 else 0).
Proof. intros [->| ->]; [by destruct b|by destruct a]. Qed.

Lemma traits_compare_take a b n m k : (k <= n)%nat -> (k <= m)%nat ->
  traits_compare (take n a) (take m b) k = traits_compare a b k.
Proof.
  revert a b n m. induction k as [|k IH]; intros a b n m Hn Hm; [done|].
  destruct n as [|n]; [lia|]. destruct m as [|m]; [lia|].
  destruct a as [|x a], b as [|y b]; [done..|]. cbn [take traits_compare]. rewrite IH by lia. done.
Qed.

(** [compare] goes by the dictionary. *)
Lemma compare_spec t s pos1 n1 n2 : 0 <= pos1 -> 0 <= n1 -> 0 <= n2 <= Z.of_nat (length s) ->
  compare t s pos1 n1 n2 =
    Some (if pos1 <=? Z.of_nat (length t)
          then Ok (order (take (Z.to_nat n1) (drop (Z.to_nat pos1) t)) (take (Z.to_nat n2) s)) else Err tt).
Proof.
  intros Hp H1 H2. unfold compare. destruct (Z.leb_spec pos1 (Z.of_nat (length t))); [|done]. cbv zeta.
  set (a := take (Z.to_nat n1) (drop (Z.to_nat pos1) t)). set (b := take (Z.to_nat n2) s).
  assert (Ea : Z.of_nat (length a) = Z.min n1 (Z.of_nat (length t) - pos1)) by (unfold a; rewrite length_take, length_drop; lia).
  assert (Eb : Z.of_nat (length b) = n2) by (unfold b; rewrite length_take; lia).
  rewrite <- Ea, <- Eb. rewrite <- (traits_compare_take _ _ (Z.to_nat n1) (Z.to_nat n2)) by lia. fold a b.
  destruct (traits_compare_order a b (Z.to_nat (Z.min (Z.of_nat (length a)) (Z.of_nat (length b))))) as (r & -> & Er); [lia..|].
  cbn [mbind option_bind]. rewrite Er. destruct (r =? 0); [|done]. cbn [negb]. rewrite order_lengths.
  - rewrite !length_drop. do 2 f_equal.
    repeat (case Z.ltb_spec; intros ?); lia.
  - destruct (Z.le_ge_cases (Z.of_nat (length a)) (Z.of_nat (length b))); [left|right]; apply drop_ge; lia.
Qed.

Lemma compare_str_order a b : compare_str a b = Some (order a b).
Proof.
  unfold compare_str. rewrite compare_spec by lia. rewrite (proj2 (Z.leb_le _ _)) by lia. cbn [mbind option_bind].
  by rewrite !Nat2Z.id, drop_0, !firstn_all.
Qed.

Lemma order_antisym a b : order b a = - order a b.
Proof.
  revert b. induction a as [|x a IH]; intros [|y b]; [done..|]. cbn [order].
  destruct (Z.ltb_spec x y), (Z.ltb_spec y x); [lia|done..|apply IH].
Qed.

Lemma order_eq a b : order a b = 0 <-> a = b.
Proof.
  revert b. induction a as [|x a IH]; intros [|y b]; [done..|]. cbn [order].
  destruct (Z.ltb_spec x y); [split; [done|by intros [= -> ->]; lia]|].
  destruct (Z.ltb_spec y x); [split; [done|by intros [= -> ->]; lia]|]. rewrite IH. split; [intros ->; f_equal; lia|by intros [=]].
Qed.

Lemma order_trans a b c : order a b < 0 -> order b c < 0 -> order a c < 0.
Proof.
  revert b c. induction a as [|x a IH]; intros [|y b] [|z c]; cbn [order]; try lia.
  destruct (Z.ltb_spec x y), (Z.ltb_spec y x), (Z.ltb_spec y z), (Z.ltb_spec z y), (Z.ltb_spec x z), (Z.ltb_spec z x); try lia.
  apply IH.
Qed.

(** [operator==] holds of equal texts and of no others; [operator<] is a strict order, transitive
    and irreflexive, in which any two different strings compare; and [compare] is negative, zero or
    positive accordingly. *)
Theorem operators_order (a b c : list Z) :
  operator_eq a b = Some (bool_decide (a = b)) /\
  operator_lt a a = Some false /\
  (operator_lt a b = Some true -> operator_lt b c = Some true -> operator_lt a c = Some true) /\
  (operator_lt a b = Some true \/ a = b \/ operator_lt b a = Some true) /\
  exists r, compare_str a b = Some r /\ (r < 0 <-> operator_lt a b = Some true) /\
    (r = 0 <-> a = b) /\ (0 < r <-> operator_lt b a = Some true).
Proof.
  assert (Hlt : forall a b, operator_lt a b = Some true <-> order a b < 0).
  { intros. unfold operator_lt. rewrite compare_str_order. cbn. destruct (Z.ltb_spec (order a0 b0) 0); naive_solver lia. }
  rewrite !Hlt. pose proof (order_antisym a b). pose proof (order_eq a b). split_and!.
  - unfold operator_eq. rewrite compare_str_order. cbn. destruct (Nat.eqb_spec (length a) (length b)) as [|Hne].
    + f_equal. apply eq_bool_prop_intro. rewrite bool_decide_spec, Is_true_true, Z.eqb_eq. by apply order_eq.
    + rewrite bool_decide_eq_false_2 by congruence. done.
  - unfold operator_lt. rewrite compare_str_order. by rewrite (proj2 (order_eq a a)).
  - apply order_trans.
  - destruct (Z.lt_trichotomy (order a b) 0) as [|[|]]; [by left|right; left; by apply order_eq|right; right; lia].
  - exists (order a b). rewrite !Hlt. split_and!; [apply compare_str_order|done|done|lia].
Qed.

(** ** The searches at work *)

(** "xabaabab" and "abab". *)
Lemma find_first_occurrence_witness :
  find [120; 97; 98; 97; 97; 98; 97; 98] [97; 98; 97; 98] 0 4 =
    Some (hit (List.find (occurs [120; 97; 98; 97; 97; 98; 97; 98] [97; 98; 97; 98] 4) (seq 0 5))).
Proof. apply (find_first_occurrence [120; 97; 98; 97; 97; 98; 97; 98] [97; 98; 97; 98] 0 4); unfold is_uint; cbn; lia. Defined.

Lemma searches_find_witness :
  rfind [97; 98; 97; 98; 97] [97; 98] 2 2 = Some (hit (List.find (occurs [97; 98; 97; 98; 97] [97; 98] 2) [2; 1; 0]%nat)).
Proof. apply (searches_find [97; 98; 97; 98; 97] [97; 98] 2 2); unfold is_uint; cbn; lia. Defined.

Lemma operators_order_witness :
  operator_lt [97; 98] [97; 99] = Some true /\ operator_lt [97; 99] [98] = Some true /\ operator_lt [97; 98] [98] = Some true.
Proof.
  split; [reflexivity|]. split; [reflexivity|].
  apply (operators_order [97; 98] [97; 99] [98]); reflexivity.
Defined.
