(* ===== verification/StringEscape.v ===== *)
(** Escaping of strings ([String.h], [String-inl.h] and the tables of [String.cpp]): C escapes, URI
    escapes, hexadecimal, and the display forms.  The loops copy runs of ordinary characters in one
    go; a position outside of the text, or of a table, is undefined, and so is running out of fuel.
    That the output cannot be allocated is not modelled. *)
From S2P Require Import Prelude.

(** [str[from, to)]. *)
Definition slice (str : list Z) (from to : nat) : list Z := take (to - from) (drop from str).

(** ** Tables *)

(** The letter of an escape sequence, [O] for an octal one, or [P] for a printable character. *)
Definition string_table_c_escape_make_item (index : Z) : Z :=
  if index =? 34 then 34 (* double quote *)
  else if index =? 92 then 92 (* backslash *)
  else if index =? 63 then 63 (* question mark *)
  else if index =? 10 then 110 (* newline, n *)
  else if index =? 13 then 114 (* return, r *)
  else if index =? 9 then 116 (* tab, t *)
  else if (index <? 32) || (126 <? index) then 79 (* O *)
  else 80 (* P *).

(** The character of an escape sequence, [O] for the octal ones, [X] for the hexadecimal ones, or [I]
    for an invalid one. *)
Definition string_table_c_unescape_make_item (index : Z) : Z :=
  if index =? 39 then 39
  else if index =? 63 then 63
  else if index =? 92 then 92
  else if index =? 34 then 34
  else if index =? 97 then 7 (* a *)
  else if index =? 98 then 8 (* b *)
  else if index =? 102 then 12 (* f *)
  else if index =? 110 then 10 (* n *)
  else if index =? 114 then 13 (* r *)
  else if index =? 116 then 9 (* t *)
  else if index =? 118 then 11 (* v *)
  else if (48 <=? index) && (index <=? 55) then 79 (* O *)
  else if index =? 120 then 88 (* x, X *)
  else 73 (* I *).

Definition string_table_hex_make_item (index : Z) : Z :=
  if (48 <=? index) && (index <=? 57) then index - 48
  else if (97 <=? index) && (index <=? 102) then index - 97 + 10
  else if (65 <=? index) && (index <=? 70) then index - 65 + 10
  else 16.

Definition string_table_uri_escape_make_item (index : Z) : Z :=
  if (48 <=? index) && (index <=? 57) then 0
  else if (65 <=? index) && (index <=? 90) then 0
  else if (97 <=? index) && (index <=? 122) then 0
  else if index =? 45 then 0
  else if index =? 95 then 0
  else if index =? 46 then 0
  else if index =? 126 then 0
  else if index =? 47 then 2
  else if index =? 32 then 3
  else 4.

Definition table (make_item : Z -> Z) : list Z := make_item <$> seqZ 0 256.

Definition cEscapeTable : list Z := table string_table_c_escape_make_item.
Definition cUnescapeTable : list Z := table string_table_c_unescape_make_item.
Definition hexTable : list Z := table string_table_hex_make_item.
Definition uriEscapeTable : list Z := table string_table_uri_escape_make_item.

Definition hexValues : list Z := [48; 49; 50; 51; 52; 53; 54; 55; 56; 57; 97; 98; 99; 100; 101; 102].

(** ** C escapes *)

Fixpoint cEscape_loop (fuel : nat) (str : list Z) (p last : nat) (out : list Z) : option (list Z) :=
  match fuel with
  | O => None
  | S fuel =>
      if (p =? length str)%nat then Some (out ++ slice str last p)
      else
        v ← str !! p;
        e ← cEscapeTable !! Z.to_nat v;
        if e =? 80 then cEscape_loop fuel str (S p) last out
        else if e =? 79 then
          let out := out ++ slice str last p in
          let out := out ++ [92; 48 + ((v .>> 6) .& 7); 48 + ((v .>> 3) .& 7); 48 + (v .& 7)] in
          cEscape_loop fuel str (S p) (S p) out
        else
          let out := out ++ slice str last p in
          cEscape_loop fuel str (S p) (S p) (out ++ [92; e])
  end.

Definition cEscape (str out : list Z) : option (list Z) := cEscape_loop (S (length str)) str 0 0 out.

Inductive unescape_error := incomplete_escape_sequence | incomplete_hex_escape_sequence | invalid_escape_sequence.

(** At most [n] octal digits from [p] on: their value and the position behind them. *)
Fixpoint octal_digits (n : nat) (str : list Z) (p : nat) (val : Z) : option (Z * nat) :=
  match n with
  | O => Some (val, p)
  | S n =>
      if (p =? length str)%nat then Some (val, p)
      else
        c ← str !! p;
        if (48 <=? i8 c) && (i8 c <=? 55) then octal_digits n str (S p) (u8 (u8 (val .<< 3) .| (i8 c - 48)))
        else Some (val, p)
  end.

Fixpoint hex_digits (fuel : nat) (str : list Z) (p : nat) (val : Z) : option (Z * nat) :=
  match fuel with
  | O => None
  | S fuel =>
      if (p =? length str)%nat then Some (val, p)
      else
        c ← str !! p; h ← hexTable !! Z.to_nat c;
        if h <? 16 then hex_digits fuel str (S p) (u8 (u8 (val .<< 4) .| h)) else Some (val, p)
  end.

(** The output so far is there when it throws. *)
Fixpoint cUnescape_loop (fuel : nat) (strict : bool) (str : list Z) (p last : nat) (out : list Z)
  : option (list Z * result unescape_error unit) :=
  match fuel with
  | O => None
  | S fuel =>
      if (p =? length str)%nat then Some (out ++ slice str last p, Ok tt)
      else
        c ← str !! p;
        if negb (c =? 92) then cUnescape_loop fuel strict str (S p) last out
        else
          let out := out ++ slice str last p in
          let p := S p in
          if (p =? length str)%nat then
            if strict then Some (out, Err incomplete_escape_sequence)
            else cUnescape_loop fuel strict str p p (out ++ [92])
          else
            c ← str !! p;
            e ← cUnescapeTable !! Z.to_nat c;
            if e =? 79 then
              r ← octal_digits 3 str p 0;
              cUnescape_loop fuel strict str r.2 r.2 (out ++ [r.1])
            else if e =? 88 then
              let p := S p in
              if (p =? length str)%nat then
                if strict then Some (out, Err incomplete_hex_escape_sequence)
                else cUnescape_loop fuel strict str p p (out ++ [92; 120])
              else
                r ← hex_digits (S (length str)) str p 0;
                cUnescape_loop fuel strict str r.2 r.2 (out ++ [r.1])
            else if e =? 73 then
              if strict then Some (out, Err invalid_escape_sequence)
              else cUnescape_loop fuel strict str (S p) (S p) (out ++ [92] ++ [c])
            else cUnescape_loop fuel strict str (S p) (S p) (out ++ [e])
  end.

Definition cUnescape (str out : list Z) (strict : bool) : option (list Z * result unescape_error unit) :=
  cUnescape_loop (S (length str)) strict str 0 0 out.

(** ** URI escapes *)

Inductive UriEscapeMode := ALL | QUERY | PATH.

Definition mode_value (mode : UriEscapeMode) : Z := match mode with ALL => 0 | QUERY => 1 | PATH => 2 end.

Fixpoint uriEscape_loop (fuel : nat) (mode : UriEscapeMode) (str : list Z) (p last : nat) (out : list Z) : option (list Z) :=
  match fuel with
  | O => None
  | S fuel =>
      if (p =? length str)%nat then Some (out ++ slice str last p)
      else
        v ← str !! p;
        discriminator ← uriEscapeTable !! Z.to_nat v;
        if discriminator <=? mode_value mode then uriEscape_loop fuel mode str (S p) last out
        else if (mode_value mode =? 1) && (discriminator =? 3) then
          let out := out ++ slice str last p in
          uriEscape_loop fuel mode str (S p) (S p) (out ++ [43])
        else
          let out := out ++ slice str last p in
          h1 ← hexValues !! Z.to_nat (v .>> 4); h2 ← hexValues !! Z.to_nat (v .& 0x0f);
          uriEscape_loop fuel mode str (S p) (S p) (out ++ [37; h1; h2])
  end.

Definition uriEscape (str out : list Z) (mode : UriEscapeMode) : option (list Z) :=
  uriEscape_loop (S (length str)) mode str 0 0 out.

Fixpoint tryUriUnescape_loop (fuel : nat) (mode : UriEscapeMode) (str : list Z) (p last : nat) (out : list Z)
  : option (list Z * bool) :=
  match fuel with
  | O => None
  | S fuel =>
      if (p =? length str)%nat then Some (out ++ slice str last p, true)
      else
        c ← str !! p;
        if c =? 37 then
          if (length str - p <? 3)%nat then Some (out, false)
          else
            c1 ← str !! (p + 1)%nat; h1 ← hexTable !! Z.to_nat c1;
            c2 ← str !! (p + 2)%nat; h2 ← hexTable !! Z.to_nat c2;
            if (h1 =? 16) || (h2 =? 16) then Some (out, false)
            else
              let out := out ++ slice str last p in
              tryUriUnescape_loop fuel mode str (p + 3) (p + 3) (out ++ [u8 ((h1 .<< 4) .| h2)])
        else if (c =? 43) && (mode_value mode =? 1) then
          let out := out ++ slice str last p in
          tryUriUnescape_loop fuel mode str (S p) (S p) (out ++ [32])
        else tryUriUnescape_loop fuel mode str (S p) last out
  end.

Definition tryUriUnescape (str out : list Z) (mode : UriEscapeMode) : option (list Z * bool) :=
  tryUriUnescape_loop (S (length str)) mode str 0 0 out.

(** The output, and [Err] for [std::invalid_argument]. *)
Definition uriUnescape (str out : list Z) (mode : UriEscapeMode) : option (list Z * result unit unit) :=
  r ← tryUriUnescape str out mode;
  Some (r.1, if r.2 : bool then Ok tt else Err tt).

(** ** Hexadecimal *)

(** [input[i]] is a [char], which is negative above 127. *)
Fixpoint hexlify_loop (input : list Z) (output : list Z) (j : nat) : option (list Z) :=
  match input with
  | [] => Some output
  | b :: input =>
      let ch := i8 b in
      h1 ← hexValues !! Z.to_nat ((ch .>> 4) .& 0xf); output ← store output j h1;
      h2 ← hexValues !! Z.to_nat (ch .& 0xf); output ← store output (S j) h2;
      hexlify_loop input output (S (S j))
  end.

(** It always returns [true]. *)
Definition hexlify (input output : list Z) (append_output : bool) : option (list Z) :=
  let output := if append_output then output else [] in
  let j := length output in
  hexlify_loop input (output ++ replicate (2 * length input) 0) j.

(** The index [j] is an [int]. *)
Fixpoint unhexlify_loop (input : list Z) (output : list Z) (j : Z) : option (list Z * bool) :=
  match input with
  | a :: b :: input =>
      highBits ← hexTable !! Z.to_nat a; lowBits ← hexTable !! Z.to_nat b;
      if negb ((highBits .| lowBits) .& 0x10 =? 0) then Some (output, false)
      else
        output ← store output (Z.to_nat j) (u8 ((highBits .<< 4) + lowBits));
        if j + 1 <? 2 ^ 31 then unhexlify_loop input output (j + 1) else None
  | _ => Some (output, true)
  end.

Definition unhexlify (input output : list Z) : option (list Z * bool) :=
  if negb (length input mod 2 =? 0)%nat then Some (output, false)
  else unhexlify_loop input (take (length input / 2) output ++ replicate (length input / 2 - length output) 0) 0.

(** ** Display forms *)

Definition unprintable (c : Z) : bool := (c <? 0x20) || (0x7e <? c) || (c =? 92).

Fixpoint backslashify_loop (input output : list Z) (hex_style : bool) : option (list Z) :=
  match input with
  | [] => Some output
  | c :: input =>
      if unprintable c then
        let output := output ++ [92] in
        let short :=
          if hex_style then None
          else if c =? 13 then Some 114
          else if c =? 10 then Some 110
          else if c =? 9 then Some 116
          else if c =? 7 then Some 97
          else if c =? 8 then Some 98
          else if c =? 0 then Some 48
          else if c =? 92 then Some 92
          else None in
        match short with
        | Some e => backslashify_loop input (output ++ [e]) hex_style
        | None =>
            h1 ← hexValues !! Z.to_nat ((c .>> 4) .& 0xf); h2 ← hexValues !! Z.to_nat (c .& 0xf);
            backslashify_loop input (output ++ [120; h1; h2]) hex_style
        end
      else backslashify_loop input (output ++ [c]) hex_style
  end.

Definition backslashify (input : list Z) (hex_style : bool) : option (list Z) := backslashify_loop input [] hex_style.

(** The unprintable characters, and the printable ones in front of the first of them. *)
Fixpoint count_unprintable (input : list Z) (numUnprintable numPrintablePrefix : Z) : Z * Z :=
  match input with
  | [] => (numUnprintable, numPrintablePrefix)
  | c :: input =>
      let numUnprintable := if unprintable c then u64 (numUnprintable + 1) else numUnprintable in
      count_unprintable input numUnprintable (if numUnprintable =? 0 then u64 (numPrintablePrefix + 1) else numPrintablePrefix)
  end.

Definition humanify (input : list Z) : option (list Z) :=
  let '(numUnprintable, numPrintablePrefix) := count_unprintable input 0 0 in
  let size := Z.of_nat (length input) in
  if numUnprintable =? 0 then Some input
  else if u64 (3 * size) <=? u64 (5 * numUnprintable) then
    if size <=? u64 (5 * numPrintablePrefix) then backslashify input false
    else hexlify input [48; 120] true
  else backslashify input false.

(** ** Tables and runs *)

Lemma char_table_lookup f b : is_byte b -> table f !! Z.to_nat b = Some (f b).
Proof.
  unfold is_uint. intros Hb. unfold table. rewrite list_lookup_fmap, lookup_seqZ_lt by lia. cbn. do 2 f_equal. lia.
Qed.

Lemma slice_end str p : slice str p p = [].
Proof. unfold slice. by rewrite Nat.sub_diag. Qed.

Lemma slice_S str last p v : (last <= p)%nat -> str !! p = Some v -> slice str last (S p) = slice str last p ++ [v].
Proof.
  intros Hle Hv. unfold slice. replace (S p - last)%nat with (S (p - last)) by lia. apply take_S_r.
  rewrite lookup_drop. by replace (last + (p - last))%nat with p by lia.
Qed.

(** ** C escapes are undone *)

(** The escape of one character. *)
Definition c_escaped (v : Z) : list Z :=
  let e := string_table_c_escape_make_item v in
  if e =? 80 then [v]
  else if e =? 79 then [92; 48 + ((v .>> 6) .& 7); 48 + ((v .>> 3) .& 7); 48 + (v .& 7)]
  else [92; e].

Lemma cEscape_loop_spec fuel str p last out : Forall is_byte str -> (last <= p <= length str)%nat -> (length str - p < fuel)%nat ->
  cEscape_loop fuel str p last out = Some (out ++ slice str last p ++ concat (c_escaped <$> drop p str)).
Proof.
  intros Hs. revert p last out. induction fuel as [|fuel IH]; intros p last out Hp Hf; [lia|]. cbn [cEscape_loop].
  destruct (Nat.eqb_spec p (length str)) as [->|Hne]; [by rewrite drop_all, app_nil_r|].
  destruct (lookup_lt_is_Some_2 str p) as [v Hv]; [lia|]. rewrite Hv. cbn [mbind option_bind].
  unfold cEscapeTable. rewrite char_table_lookup by (by eapply Forall_lookup_1). cbn [mbind option_bind].
  rewrite (drop_S _ _ _ Hv), fmap_cons. cbn [concat].
  unfold c_escaped at 1. destruct (_ =? 80); [|destruct (_ =? 79)]; cbv zeta; rewrite IH by lia;
    rewrite ?slice_end; rewrite ?(slice_S _ _ _ v) by (done || lia); by rewrite <- !app_assoc.
Qed.

Lemma cEscape_spec str out : Forall is_byte str -> cEscape str out = Some (out ++ concat (c_escaped <$> str)).
Proof. intros Hs. unfold cEscape. rewrite cEscape_loop_spec by (done || lia). by rewrite slice_end, drop_0. Qed.

Lemma drop_app_lookup {A} (str : list A) p l rest i : drop p str = l ++ rest -> (i < length l)%nat -> str !! (p + i)%nat = l !! i.
Proof. intros E Hi. rewrite <- lookup_drop, E. by apply lookup_app_l. Qed.

Lemma drop_app_drop {A} (str : list A) p l rest : drop p str = l ++ rest -> drop (p + length l) str = rest.
Proof. intros E. rewrite <- drop_drop, E. apply drop_app_length. Qed.

Lemma drop_length_le {A} (str : list A) p l : drop p str = l -> l <> [] -> (p + length l = length str)%nat.
Proof. intros <- Hl. rewrite length_drop. destruct (decide (p < length str)%nat); [lia|]. by rewrite drop_ge in Hl by lia. Qed.

(** Three octal digits in a row. *)
Lemma octal_digits_spec v str p : is_byte v ->
  str !! p = Some (48 + ((v .>> 6) .& 7)) -> str !! S p = Some (48 + ((v .>> 3) .& 7)) -> str !! S (S p) = Some (48 + (v .& 7)) ->
  octal_digits 3 str p 0 = Some (v, S (S (S p))).
Proof.
  intros Hv H1 H2 H3. cbn [octal_digits].
  rewrite !(proj2 (Nat.eqb_neq _ _)) by (apply Nat.lt_neq; by eapply lookup_lt_Some). rewrite H1, H2, H3. cbn [mbind option_bind].
  set (d1 := 48 + _). set (d2 := 48 + ((v .>> 3) .& 7)). set (d3 := 48 + _).
  assert (Hd : forallb (fun d => (48 <=? i8 d) && (i8 d <=? 55)) [d1; d2; d3] = true).
  { unfold d1, d2, d3. apply (byte_forall (fun v => forallb (fun d => (48 <=? i8 d) && (i8 d <=? 55))
      [48 + ((v .>> 6) .& 7); 48 + ((v .>> 3) .& 7); 48 + (v .& 7)])); [by vm_compute|done]. }
  cbn [forallb] in Hd. apply andb_true_iff in Hd as [-> Hd]. apply andb_true_iff in Hd as [-> Hd]. apply andb_true_iff in Hd as [-> _].
  do 2 f_equal. unfold d1, d2, d3. apply Z.eqb_eq.
  apply (byte_forall (fun v => u8 (u8 (u8 (u8 (u8 (u8 (0 .<< 3) .| (i8 (48 + ((v .>> 6) .& 7)) - 48)) .<< 3)
    .| (i8 (48 + ((v .>> 3) .& 7)) - 48)) .<< 3) .| (i8 (48 + (v .& 7)) - 48)) =? v)); [by vm_compute|done].
Qed.

(** The forms an escaped character has. *)
Lemma c_escaped_cases v : is_byte v ->
  (c_escaped v = [v] /\ v <> 92) \/
  (c_escaped v = [92; 48 + ((v .>> 6) .& 7); 48 + ((v .>> 3) .& 7); 48 + (v .& 7)] /\
     string_table_c_unescape_make_item (48 + ((v .>> 6) .& 7)) = 79 /\ is_byte (48 + ((v .>> 6) .& 7))) \/
  (exists e, c_escaped v = [92; e] /\ string_table_c_unescape_make_item e = v /\ is_byte e /\ v <> 79 /\ v <> 88 /\ v <> 73).
Proof.
  intros Hv. unfold c_escaped. cbv zeta.
  destruct (Z.eqb_spec (string_table_c_escape_make_item v) 80) as [E|E]; [|destruct (Z.eqb_spec (string_table_c_escape_make_item v) 79) as [E'|E']].
  - left. split; [done|]. intros ->. by vm_compute in E.
  - right. left. split; [done|].
    assert (H : (string_table_c_unescape_make_item (48 + ((v .>> 6) .& 7)) =? 79) && (0 <=? 48 + ((v .>> 6) .& 7)) && (48 + ((v .>> 6) .& 7) <? 256) = true).
    { apply (byte_forall (fun v => (string_table_c_unescape_make_item (48 + ((v .>> 6) .& 7)) =? 79) && (0 <=? 48 + ((v .>> 6) .& 7))
        && (48 + ((v .>> 6) .& 7) <? 256))); [by vm_compute|done]. }
    apply andb_true_iff in H as [[->%Z.eqb_eq ?%Z.leb_le]%andb_true_iff ?%Z.ltb_lt]. split; [done|]. unfold is_uint. lia.
  - right. right. exists (string_table_c_escape_make_item v). split; [done|].
    assert (H : let e := string_table_c_escape_make_item v in (e =? 80) || (e =? 79) || ((string_table_c_unescape_make_item e =? v)
      && (0 <=? e) && (e <? 256) && negb (v =? 79) && negb (v =? 88) && negb (v =? 73)) = true).
    { apply (byte_forall (fun v => let e := string_table_c_escape_make_item v in (e =? 80) || (e =? 79) || ((string_table_c_unescape_make_item e =? v)
        && (0 <=? e) && (e <? 256) && negb (v =? 79) && negb (v =? 88) && negb (v =? 73)))); [by vm_compute|done]. }
    cbv zeta in H. rewrite (proj2 (Z.eqb_neq _ 80) E), (proj2 (Z.eqb_neq _ 79) E') in H. cbn [orb] in H.
    repeat (apply andb_true_iff in H as [H ?]). apply Z.eqb_eq in H. unfold is_uint.
    split_and!; [done|by apply Z.leb_le|change (2 ^ 8) with 256; by apply Z.ltb_lt|by apply Z.eqb_neq, negb_true_iff..].
Qed.

Lemma cUnescape_loop_spec strict t fuel str p last out : Forall is_byte t -> (last <= p)%nat ->
  (p <= length str)%nat -> drop p str = concat (c_escaped <$> t) -> (length str - p < fuel)%nat ->
  cUnescape_loop fuel strict str p last out = Some (out ++ slice str last p ++ t, Ok tt).
Proof.
  intros Ht. revert fuel p last out. induction Ht as [|v t Hv Ht IH]; intros fuel p last out Hlast Hp E Hf.
  { destruct fuel as [|fuel]; [lia|]. cbn [cUnescape_loop]. assert (p = length str) as ->.
    { apply (f_equal length) in E. rewrite length_drop in E. cbn in E. lia. }
    rewrite Nat.eqb_refl, app_nil_r. done. }
  rewrite fmap_cons in E. cbn [concat] in E. destruct fuel as [|fuel]; [lia|]. cbn [cUnescape_loop].
  pose proof (drop_app_drop _ _ _ _ E) as Ed. pose proof (drop_app_lookup _ _ _ _ 0 E) as E0. rewrite Nat.add_0_r in E0.
  assert (Hlen : (p + length (c_escaped v) <= length str)%nat).
  { apply (f_equal length) in E. rewrite length_drop, length_app in E. lia. }
  destruct (c_escaped_cases v Hv) as [[Ev Hne]|[(Ev & Eu & Hb)|(e & Ev & Eu & Hb & H1 & H2 & H3)]];
    rewrite Ev in *; cbn [length] in *; rewrite (proj2 (Nat.eqb_neq p _)) by lia; rewrite E0 by lia; cbn [lookup list_lookup mbind option_bind].
  - rewrite (proj2 (Z.eqb_neq v 92) Hne). cbn [negb]. rewrite IH; [|lia|lia|by rewrite <- Ed, Nat.add_1_r|lia].
    rewrite (slice_S _ _ _ v) by (done || by rewrite E0 by lia). by rewrite <- !app_assoc.
  - pose proof (fun i => drop_app_lookup _ _ _ _ i E) as El. cbn [length] in El.
    pose proof (El 1%nat ltac:(lia)) as E1. pose proof (El 2%nat ltac:(lia)) as E2. pose proof (El 3%nat ltac:(lia)) as E3. cbn in E1, E2, E3.
    rewrite (Nat.add_comm p) in E1, E2, E3, Ed. cbn [Nat.add] in E1, E2, E3, Ed. change (92 =? 92) with true. cbn [negb].
    rewrite (proj2 (Nat.eqb_neq (S p) _)) by lia.
    rewrite E1. cbn [mbind option_bind]. unfold cUnescapeTable. rewrite char_table_lookup, Eu by done. cbn [mbind option_bind Z.eqb Pos.eqb].
    rewrite (octal_digits_spec v) by done. cbn [mbind option_bind fst snd]. rewrite IH by (done || lia).
    by rewrite slice_end, <- !app_assoc.
  - pose proof (drop_app_lookup _ _ _ _ 1 E ltac:(cbn; lia)) as E1. cbn in E1.
    rewrite (Nat.add_comm p) in E1, Ed. cbn [Nat.add] in E1, Ed. change (92 =? 92) with true. cbn [negb].
    rewrite (proj2 (Nat.eqb_neq (S p) _)) by lia.
    rewrite E1. cbn [mbind option_bind]. unfold cUnescapeTable. rewrite char_table_lookup, Eu by done. cbn [mbind option_bind].
    rewrite (proj2 (Z.eqb_neq _ _) H1), (proj2 (Z.eqb_neq _ _) H2), (proj2 (Z.eqb_neq _ _) H3).
    rewrite IH by (done || lia). by rewrite slice_end, <- !app_assoc.
Qed.

(** A property of all the characters written for a byte, by evaluation. *)
Lemma byte_forall_chars (P : Z -> bool) (f : Z -> list Z) v : forallb (fun v => forallb P (f v)) (seqZ 0 256) = true ->
  is_byte v -> Forall (fun c => P c = true) (f v).
Proof.
  intros H Hv. pose proof (byte_forall (fun v => forallb P (f v)) v H Hv) as HH. cbv beta in HH. rewrite forallb_forall in HH.
  apply Forall_forall. intros c Hc. by apply HH, list_elem_of_In.
Qed.

Definition printable (c : Z) : bool := (32 <=? c) && (c <=? 126).

Lemma c_escaped_printable v : is_byte v -> Forall (fun c => printable c = true) (c_escaped v).
Proof. apply byte_forall_chars. by vm_compute. Qed.

Lemma Forall_concat_fmap {A B} (P : B -> Prop) (Q : A -> Prop) (f : A -> list B) l :
  (forall a, Q a -> Forall P (f a)) -> Forall Q l -> Forall P (concat (f <$> l)).
Proof. intros Hf. induction 1; cbn; [constructor|]. apply Forall_app. auto. Qed.

(** (C25) [cUnescape] undoes [cEscape] on every byte string, strict or not, and appends to its output;
    what [cEscape] writes is printable. *)
Theorem c_escape_roundtrip (str out : list Z) (strict : bool) : Forall is_byte str ->
  exists esc, cEscape str [] = Some esc /\ Forall (fun c => printable c = true) esc /\
    cUnescape esc out strict = Some (out ++ str, Ok tt).
Proof.
  intros Hs. exists (concat (c_escaped <$> str)). rewrite cEscape_spec by done. split_and!; [done| |].
  - eapply Forall_concat_fmap; [apply c_escaped_printable|done].
  - unfold cUnescape. rewrite (cUnescape_loop_spec strict str) by (done || lia). by rewrite slice_end.
Qed.

(** ** Any text can be unescaped *)

Lemma octal_digits_total n str p val : (p <= length str)%nat ->
  exists v q, octal_digits n str p val = Some (v, q) /\ (p <= q <= length str)%nat.
Proof.
  revert p val. induction n as [|n IH]; intros p val Hp; cbn [octal_digits]; [by exists val, p|].
  destruct (Nat.eqb_spec p (length str)); [by exists val, p|].
  destruct (lookup_lt_is_Some_2 str p) as [c ->]; [lia|]. cbn [mbind option_bind]. destruct (_ && _); [|by exists val, p].
  edestruct (IH (S p)) as (v & q & -> & ?); [lia|]. exists v, q. split; [done|lia].
Qed.

Lemma hex_digits_total fuel str p val : Forall is_byte str -> (p <= length str)%nat -> (length str - p < fuel)%nat ->
  exists v q, hex_digits fuel str p val = Some (v, q) /\ (p <= q <= length str)%nat.
Proof.
  intros Hs. revert p val. induction fuel as [|fuel IH]; intros p val Hp Hf; cbn [hex_digits]; [lia|].
  destruct (Nat.eqb_spec p (length str)); [by exists val, p|].
  destruct (lookup_lt_is_Some_2 str p) as [c Hc]; [lia|]. rewrite Hc. cbn [mbind option_bind]. unfold hexTable.
  rewrite char_table_lookup by (by eapply Forall_lookup_1). cbn [mbind option_bind]. destruct (_ <? 16); [|by exists val, p].
  edestruct (IH (S p)) as (v & q & -> & ?); [lia|lia|]. exists v, q. split; [done|lia].
Qed.

(** A loop that has still [n] characters to look at adds no more than those to its output. *)
Definition adds (strict : bool) (out : list Z) (n : nat) (r : option (list Z * result unescape_error unit)) : Prop :=
  exists l e, r = Some (out ++ l, e) /\ (length l <= n)%nat /\ (strict = false -> e = Ok tt).

Lemma adds_more strict out l n m r : adds strict (out ++ l) n r -> (length l + n <= m)%nat -> adds strict out m r.
Proof.
  intros (l' & e & -> & Hl & He) Hm. exists (l ++ l'), e. rewrite <- app_assoc, length_app. split_and!; [done|lia|done].
Qed.

Lemma length_slice str last p : (last <= p <= length str)%nat -> length (slice str last p) = (p - last)%nat.
Proof. intros. unfold slice. rewrite length_take, length_drop. lia. Qed.

Lemma cUnescape_loop_total fuel strict str p last out : Forall is_byte str -> (last <= p <= length str)%nat ->
  (length str - p < fuel)%nat -> adds strict out (length str - last) (cUnescape_loop fuel strict str p last out).
Proof.
  intros Hs. revert p last out. induction fuel as [|fuel IH]; intros p last out Hp Hf; [lia|]. cbn [cUnescape_loop].
  pose proof (length_slice str last p Hp) as Hsl.
  destruct (Nat.eqb_spec p (length str)) as [Ep|]; [exists (slice str last p), (Ok tt); split_and!; [done|lia|done]|].
  destruct (lookup_lt_is_Some_2 str p) as [c Hc]; [lia|]. rewrite Hc. cbn [mbind option_bind].
  destruct (negb (c =? 92)); [apply IH; lia|]. cbv zeta.
  assert (Hgo : forall q l, (p < q <= length str)%nat -> (length l <= q - p)%nat ->
    adds strict out (length str - last) (cUnescape_loop fuel strict str q q ((out ++ slice str last p) ++ l))).
  { intros q l Hq Hl. rewrite <- app_assoc. eapply adds_more; [apply IH; lia|]. rewrite length_app. lia. }
  assert (Herr : forall e, strict = true -> adds strict out (length str - last) (Some (out ++ slice str last p, Err e))).
  { intros e ->. exists (slice str last p), (Err e). split_and!; [done|lia|done]. }
  destruct (Nat.eqb_spec (S p) (length str)); [destruct strict; [by apply Herr|apply Hgo; cbn; lia]|].
  destruct (lookup_lt_is_Some_2 str (S p)) as [d Hd]; [lia|]. rewrite Hd. cbn [mbind option_bind]. unfold cUnescapeTable.
  rewrite char_table_lookup by (by eapply Forall_lookup_1). cbn [mbind option_bind].
  destruct (_ =? 79).
  { destruct (octal_digits_total 3 str (S p) 0) as (v & q & -> & ?); [lia|]. apply Hgo; cbn; lia. }
  destruct (_ =? 88).
  { destruct (Nat.eqb_spec (S (S p)) (length str)); [destruct strict; [by apply Herr|apply Hgo; cbn; lia]|].
    destruct (hex_digits_total (S (length str)) str (S (S p)) 0) as (v & q & -> & ?); [done|lia|lia|]. apply Hgo; cbn; lia. }
  destruct (_ =? 73); [destruct strict; [by apply Herr|]|]; apply Hgo; cbn; lia.
Qed.

(** The value of a hexadecimal digit, in upper or lower case. *)
Definition digit16 (c : Z) : option Z :=
  if (48 <=? c) && (c <=? 57) then Some (c - 48)
  else if (65 <=? c) && (c <=? 70) then Some (c - 65 + 10)
  else if (97 <=? c) && (c <=? 102) then Some (c - 97 + 10)
  else None.

(** What the code reads from its table. *)
Lemma hex_item_digit b : is_byte b ->
  match digit16 b with
  | Some x => string_table_hex_make_item b = x /\ 0 <= x < 16
  | None => string_table_hex_make_item b = 16
  end.
Proof.
  intros _. unfold string_table_hex_make_item, digit16.
  destruct (Z.leb_spec 48 b), (Z.leb_spec b 57), (Z.leb_spec 97 b), (Z.leb_spec b 102), (Z.leb_spec 65 b), (Z.leb_spec b 70); cbn; lia.
Qed.

(** More fuel than is needed changes nothing. *)
Lemma hex_digits_fuel f1 f2 str p val : (p <= length str)%nat -> (length str - p < f1)%nat -> (length str - p < f2)%nat ->
  hex_digits f1 str p val = hex_digits f2 str p val.
Proof.
  revert f2 p val. induction f1 as [|f1 IH]; intros [|f2] p val Hp H1 H2; [lia..|]. cbn [hex_digits].
  destruct (Nat.eqb_spec p (length str)); [done|]. destruct (str !! p) as [c|]; [|done]. cbn [mbind option_bind].
  destruct (hexTable !! Z.to_nat c) as [h|]; [|done]. cbn [mbind option_bind]. destruct (h <? 16); [|done]. apply IH; lia.
Qed.

(** A text that follows another one is unescaped as it is alone. *)
Section Shift.
Context (pre str : list Z).

Lemma shift_lookup p : (pre ++ str) !! (length pre + p)%nat = str !! p.
Proof. rewrite lookup_app_r by lia. f_equal. lia. Qed.

Lemma shift_eqb p : (length pre + p =? length (pre ++ str))%nat = (p =? length str)%nat.
Proof. rewrite length_app. destruct (Nat.eqb_spec p (length str)) as [->|]; [by rewrite Nat.eqb_refl|apply Nat.eqb_neq; lia]. Qed.

Lemma shift_slice last p : slice (pre ++ str) (length pre + last) (length pre + p) = slice str last p.
Proof.
  unfold slice. rewrite drop_app_ge by lia. replace (length pre + last - length pre)%nat with last by lia. f_equal. lia.
Qed.

Lemma octal_digits_shift n p val :
  octal_digits n (pre ++ str) (length pre + p) val = prod_map id (Nat.add (length pre)) <$> octal_digits n str p val.
Proof.
  revert p val. induction n as [|n IH]; intros p val; cbn [octal_digits]; [done|]. rewrite shift_eqb, shift_lookup.
  destruct (p =? _)%nat; [done|]. destruct (str !! p) as [c|]; [|done]. cbn [mbind option_bind].
  destruct (_ && _); [|done]. rewrite <- Nat.add_succ_r. apply IH.
Qed.

Lemma hex_digits_shift fuel p val :
  hex_digits fuel (pre ++ str) (length pre + p) val = prod_map id (Nat.add (length pre)) <$> hex_digits fuel str p val.
Proof.
  revert p val. induction fuel as [|n IH]; intros p val; cbn [hex_digits]; [done|]. rewrite shift_eqb, shift_lookup.
  destruct (p =? _)%nat; [done|]. destruct (str !! p) as [c|]; [|done]. cbn [mbind option_bind].
  destruct (hexTable !! _) as [h|]; [|done]. cbn [mbind option_bind]. destruct (_ <? _); [|done]. rewrite <- Nat.add_succ_r. apply IH.
Qed.

Lemma cUnescape_loop_shift fuel strict p last out : Forall is_byte str -> (p <= length str)%nat ->
  cUnescape_loop fuel strict (pre ++ str) (length pre + p) (length pre + last) out = cUnescape_loop fuel strict str p last out.
Proof.
  intros Hs. revert p last out. induction fuel as [|fuel IH]; intros p last out Hp; [done|]. cbn [cUnescape_loop].
  rewrite shift_eqb, shift_lookup, shift_slice. destruct (Nat.eqb_spec p (length str)); [done|].
  destruct (str !! p) as [c|]; [|done]. cbn [mbind option_bind]. rewrite <- !Nat.add_succ_r, shift_eqb, shift_lookup.
  destruct (negb _); [apply IH; lia|]. cbv zeta. destruct (Nat.eqb_spec (S p) (length str)); [destruct strict; [done|apply IH; lia]|].
  destruct (str !! S p) as [d|]; [|done]. cbn [mbind option_bind]. destruct (cUnescapeTable !! _) as [e|]; [|done]. cbn [mbind option_bind].
  destruct (e =? 79).
  { rewrite octal_digits_shift. destruct (octal_digits_total 3 str (S p) 0) as (v & q & -> & ?); [lia|]. cbn. apply IH; lia. }
  rewrite shift_eqb. destruct (e =? 88).
  { destruct (Nat.eqb_spec (S (S p)) (length str)); [destruct strict; [done|apply IH; lia]|].
    rewrite hex_digits_shift, (hex_digits_fuel _ (S (length str))) by (rewrite ?length_app; lia).
    destruct (hex_digits_total (S (length str)) str (S (S p)) 0) as (v & q & -> & ?); [done|lia|lia|]. cbn. apply IH; lia. }
  destruct (e =? 73); [destruct strict; [done|]|]; apply IH; lia.
Qed.
End Shift.

Lemma cUnescape_loop_fuel f k strict str p last out r :
  cUnescape_loop f strict str p last out = Some r -> cUnescape_loop (f + k) strict str p last out = Some r.
Proof.
  revert p last out. induction f as [|f IH]; intros p last out; [done|]. cbn [cUnescape_loop Nat.add]. cbv zeta.
  destruct (_ =? _)%nat; [done|]. destruct (str !! p) as [c|]; [|done]. cbn [mbind option_bind].
  destruct (negb _); [apply IH|]. destruct (_ =? _)%nat; [destruct strict; [done|apply IH]|].
  destruct (str !! S p) as [d|]; [|done]. cbn [mbind option_bind]. destruct (cUnescapeTable !! _) as [e|]; [|done]. cbn [mbind option_bind].
  destruct (e =? 79); [destruct (octal_digits _ _ _ _); [apply IH|done]|].
  destruct (e =? 88); [|destruct (e =? 73); [destruct strict; [done|]|]; apply IH].
  destruct (_ =? _)%nat; [destruct strict; [done|apply IH]|]. destruct (hex_digits _ _ _ _); [apply IH|done].
Qed.

(** Characters that are not a backslash are passed over. *)
Lemma cUnescape_loop_plain fuel strict str p n last out :
  (forall i, (p <= i < p + n)%nat -> exists c, str !! i = Some c /\ c <> 92) ->
  cUnescape_loop (n + fuel) strict str p last out = cUnescape_loop fuel strict str (p + n) last out.
Proof.
  revert p. induction n as [|n IH]; intros p Hn; [by rewrite Nat.add_0_r|]. cbn [Nat.add cUnescape_loop].
  destruct (Hn p) as (c & Hc & Hne); [lia|]. rewrite (proj2 (Nat.eqb_neq _ _)) by (apply lookup_lt_Some in Hc; lia).
  rewrite Hc. cbn [mbind option_bind]. rewrite (proj2 (Z.eqb_neq _ _) Hne). cbn [negb].
  rewrite IH by (intros; apply Hn; lia). f_equal. lia.
Qed.

(** The loop at the backslash of [\x]. *)
Lemma cUnescape_hex (pre rest out : list Z) (strict : bool) : Forall (fun c => c <> 92) pre ->
  cUnescape (pre ++ [92; 120] ++ rest) out strict =
    let str := pre ++ [92; 120] ++ rest in
    let p := S (S (length pre)) in
    match rest with
    | [] => if strict then Some (out ++ pre, Err incomplete_hex_escape_sequence)
            else Some (out ++ pre ++ [92; 120], Ok tt)
    | _ => r ← hex_digits (S (length str)) str p 0;
           cUnescape_loop (S (S (length rest))) strict str r.2 r.2 ((out ++ pre) ++ [r.1])
    end.
Proof.
  intros Hpre. unfold cUnescape. set (str := pre ++ [92; 120] ++ rest).
  assert (length str = length pre + (2 + length rest))%nat as Hlen by (unfold str; rewrite !length_app; cbn; lia).
  replace (S (length str)) with (length pre + S (S (S (length rest))))%nat at 1 by lia.
  rewrite cUnescape_loop_plain.
  2: { intros i Hi. destruct (lookup_lt_is_Some_2 pre i) as [c Hc]; [lia|]. exists c.
       split; [unfold str; by rewrite lookup_app_l by lia|]. by apply (proj1 (Forall_lookup _ _) Hpre i). }
  rewrite Nat.add_0_l. remember (S (S (length rest))) as fuel eqn:Ef. cbn [cUnescape_loop].
  assert (forall k, str !! (length pre + k)%nat = ([92; 120] ++ rest) !! k) as Hk by (intros; apply shift_lookup).
  rewrite (proj2 (Nat.eqb_neq _ _)) by lia. pose proof (Hk 0%nat) as H0. rewrite Nat.add_0_r in H0. rewrite H0. cbn [app lookup list_lookup mbind option_bind].
  cbn [Z.eqb Pos.eqb negb]. cbv zeta. rewrite (proj2 (Nat.eqb_neq _ _)) by lia.
  pose proof (Hk 1%nat) as H1. rewrite Nat.add_1_r in H1. rewrite H1. cbn [app lookup list_lookup mbind option_bind].
  change (cUnescapeTable !! Z.to_nat 120) with (Some 88). cbn [mbind option_bind Z.eqb Pos.eqb].
  assert (slice str 0 (length pre) = pre) as -> by (unfold slice, str; rewrite drop_0, Nat.sub_0_r; apply take_app_length).
  destruct rest as [|c rest].
  - rewrite (proj2 (Nat.eqb_eq _ _)) by (cbn in Hlen; lia). destruct strict; [done|]. subst fuel.
    cbn [cUnescape_loop]. rewrite (proj2 (Nat.eqb_eq _ _)) by (cbn in Hlen; lia). by rewrite slice_end, app_nil_r, <- app_assoc.
  - rewrite (proj2 (Nat.eqb_neq _ _)) by (cbn in Hlen; lia). done.
Qed.

(** (C35) [cUnescape] reads only characters of the text, ends on every text, adds at most as many
    characters as the text has, and does not throw unless it is strict.  The first escape [\x] of a
    text that is followed by a character which is not a hexadecimal digit is taken as a null character,
    strict or not, and the text from that character on is unescaped as usual; at the end of the text
    [\x] is an error if the call is strict, and is left as it is if not. *)
Theorem c_unescape_total (str out : list Z) (strict : bool) : Forall is_byte str ->
  (exists l e, cUnescape str out strict = Some (out ++ l, e) /\ (length l <= length str)%nat /\ (strict = false -> e = Ok tt)) /\
  forall pre, Forall (fun c => c <> 92) pre ->
    match str with
    | [] => cUnescape (pre ++ [92; 120]) out strict =
              if strict then Some (out ++ pre, Err incomplete_hex_escape_sequence) else Some (out ++ pre ++ [92; 120], Ok tt)
    | c :: _ => digit16 c = None -> cUnescape (pre ++ [92; 120] ++ str) out strict = cUnescape str (out ++ pre ++ [0]) strict
    end.
Proof.
  intros Hs. assert (Htot : forall out, adds strict out (length str) (cUnescape str out strict)).
  { intros out'. pose proof (cUnescape_loop_total (S (length str)) strict str 0 0 out' Hs) as H. rewrite Nat.sub_0_r in H. apply H; lia. }
  split; [apply Htot|]. intros pre Hpre. destruct str as [|c rest]; [by rewrite <- (app_nil_r [92; 120]), cUnescape_hex by done|].
  intros Hc. rewrite cUnescape_hex by done. cbv zeta. rewrite app_assoc. set (pre' := pre ++ [92; 120]).
  replace (S (S (length pre))) with (length pre' + 0)%nat by (unfold pre'; rewrite length_app; cbn; lia).
  rewrite hex_digits_shift. cbn [hex_digits length Nat.eqb lookup list_lookup mbind option_bind].
  assert (Hb : is_byte c) by (by apply Forall_cons_1 in Hs as [? _]). pose proof (hex_item_digit c Hb) as Hi. rewrite Hc in Hi.
  unfold hexTable. rewrite char_table_lookup, Hi by done. cbn [mbind option_bind Z.ltb Z.compare Pos.compare Pos.compare_cont fmap option_fmap option_map prod_map fst snd].
  cbn [id]. rewrite cUnescape_loop_shift by (done || cbn; lia).
  destruct (Htot (out ++ pre ++ [0])) as (l & e & E & _). rewrite E, <- app_assoc.
  replace (S (S (S (length rest)))) with (S (length (c :: rest)) + 1)%nat by (cbn; lia). by apply cUnescape_loop_fuel.
Qed.

(** ** URI escapes are undone *)

Definition hex_value (d : Z) : Z := nth (Z.to_nat d) hexValues 0.

(** The escape of one character. *)
Definition uri_escaped (mode : UriEscapeMode) (v : Z) : list Z :=
  let discriminator := string_table_uri_escape_make_item v in
  if discriminator <=? mode_value mode then [v]
  else if (mode_value mode =? 1) && (discriminator =? 3) then [43]
  else [37; hex_value (v .>> 4); hex_value (v .& 0x0f)].

Lemma hexValues_lookup d : 0 <= d < 16 -> hexValues !! Z.to_nat d = Some (hex_value d).
Proof.
  intros Hd. unfold hex_value. destruct (lookup_lt_is_Some_2 hexValues (Z.to_nat d)) as [x Hx]; [cbn; lia|].
  by rewrite Hx, (nth_lookup_Some _ _ _ _ Hx).
Qed.

Lemma nibbles v : is_byte v -> 0 <= v .>> 4 < 16 /\ 0 <= v .& 0x0f < 16.
Proof.
  unfold is_uint. intros Hv. rewrite shiftr_div by lia. rewrite (land_ones_mod _ 4) by lia.
  pose proof (Z.div_mod v (2 ^ 4)). pose proof (Z.mod_pos_bound v (2 ^ 4)). lia.
Qed.

Lemma uriEscape_loop_spec fuel mode str p last out : Forall is_byte str -> (last <= p <= length str)%nat -> (length str - p < fuel)%nat ->
  uriEscape_loop fuel mode str p last out = Some (out ++ slice str last p ++ concat (uri_escaped mode <$> drop p str)).
Proof.
  intros Hs. revert p last out. induction fuel as [|fuel IH]; intros p last out Hp Hf; [lia|]. cbn [uriEscape_loop].
  destruct (Nat.eqb_spec p (length str)) as [->|Hne]; [by rewrite drop_all, app_nil_r|].
  destruct (lookup_lt_is_Some_2 str p) as [v Hv]; [lia|]. rewrite Hv. cbn [mbind option_bind].
  assert (Hb : is_byte v) by (by eapply Forall_lookup_1). destruct (nibbles v Hb).
  unfold uriEscapeTable. rewrite char_table_lookup by done. cbn [mbind option_bind]. rewrite (drop_S _ _ _ Hv), fmap_cons. cbn [concat].
  unfold uri_escaped at 1. rewrite !hexValues_lookup by done. cbn [mbind option_bind].
  destruct (_ <=? _); [|destruct (_ && _)]; cbv zeta; rewrite IH by lia;
    rewrite ?slice_end; rewrite ?(slice_S _ _ _ v) by (done || lia); by rewrite <- !app_assoc.
Qed.

(** The forms an escaped character has. *)
Lemma uri_escaped_cases mode v : is_byte v ->
  (uri_escaped mode v = [v] /\ v <> 37 /\ v <> 43) \/
  (uri_escaped mode v = [43] /\ v = 32 /\ mode_value mode = 1) \/
  (uri_escaped mode v = [37; hex_value (v .>> 4); hex_value (v .& 0x0f)] /\
     string_table_hex_make_item (hex_value (v .>> 4)) = v .>> 4 /\ string_table_hex_make_item (hex_value (v .& 0x0f)) = v .& 0x0f /\
     is_byte (hex_value (v .>> 4)) /\ is_byte (hex_value (v .& 0x0f)) /\ u8 (((v .>> 4) .<< 4) .| (v .& 0x0f)) = v).
Proof.
  intros Hv. unfold uri_escaped. cbv zeta. destruct (Z.leb_spec (string_table_uri_escape_make_item v) (mode_value mode)) as [H|H].
  { left. split_and!; [done|intros ->; destruct mode; by vm_compute in H..]. }
  right. destruct ((mode_value mode =? 1) && _) eqn:E.
  { left. apply andb_true_iff in E as [?%Z.eqb_eq E%Z.eqb_eq]. split_and!; [done| |done]. apply Z.eqb_eq.
    assert (HH : negb (string_table_uri_escape_make_item v =? 3) || (v =? 32) = true)
      by (apply (byte_forall (fun v => negb (string_table_uri_escape_make_item v =? 3) || (v =? 32))); [by vm_compute|done]).
    by rewrite E in HH. }
  right. split; [done|].
  assert (HH : (string_table_hex_make_item (hex_value (v .>> 4)) =? v .>> 4) && (string_table_hex_make_item (hex_value (v .& 0x0f)) =? v .& 0x0f)
    && ((0 <=? hex_value (v .>> 4)) && (hex_value (v .>> 4) <? 2 ^ 8)) && ((0 <=? hex_value (v .& 0x0f)) && (hex_value (v .& 0x0f) <? 2 ^ 8))
    && (u8 (((v .>> 4) .<< 4) .| (v .& 0x0f)) =? v) = true).
  { apply (byte_forall (fun v => (string_table_hex_make_item (hex_value (v .>> 4)) =? v .>> 4)
      && (string_table_hex_make_item (hex_value (v .& 0x0f)) =? v .& 0x0f)
      && ((0 <=? hex_value (v .>> 4)) && (hex_value (v .>> 4) <? 2 ^ 8)) && ((0 <=? hex_value (v .& 0x0f)) && (hex_value (v .& 0x0f) <? 2 ^ 8))
      && (u8 (((v .>> 4) .<< 4) .| (v .& 0x0f)) =? v))); [by vm_compute|done]. }
  apply andb_true_iff in HH as [[[[?%Z.eqb_eq ?%Z.eqb_eq]%andb_true_iff [?%Z.leb_le ?%Z.ltb_lt]%andb_true_iff]%andb_true_iff
    [?%Z.leb_le ?%Z.ltb_lt]%andb_true_iff]%andb_true_iff ?%Z.eqb_eq]. unfold is_uint. done.
Qed.

Lemma tryUriUnescape_loop_spec mode t fuel str p last out : Forall is_byte t -> (last <= p)%nat ->
  (p <= length str)%nat -> drop p str = concat (uri_escaped mode <$> t) -> (length str - p < fuel)%nat ->
  tryUriUnescape_loop fuel mode str p last out = Some (out ++ slice str last p ++ t, true).
Proof.
  intros Ht. revert fuel p last out. induction Ht as [|v t Hv Ht IH]; intros fuel p last out Hlast Hp E Hf.
  { destruct fuel as [|fuel]; [lia|]. cbn [tryUriUnescape_loop]. assert (p = length str) as ->.
    { apply (f_equal length) in E. rewrite length_drop in E. cbn in E. lia. }
    rewrite Nat.eqb_refl, app_nil_r. done. }
  rewrite fmap_cons in E. cbn [concat] in E. destruct fuel as [|fuel]; [lia|]. cbn [tryUriUnescape_loop].
  pose proof (drop_app_drop _ _ _ _ E) as Ed. pose proof (fun i => drop_app_lookup _ _ _ _ i E) as El.
  assert (Hlen : (p + length (uri_escaped mode v) <= length str)%nat).
  { apply (f_equal length) in E. rewrite length_drop, length_app in E. lia. }
  pose proof (El 0%nat) as E0. rewrite Nat.add_0_r in E0. destruct (nibbles v Hv).
  destruct (uri_escaped_cases mode v Hv) as [(Ev & H1 & H2)|[(Ev & -> & Hm)|(Ev & Eh1 & Eh2 & Hb1 & Hb2 & Ev')]];
    rewrite Ev in *; cbn [length] in *; rewrite (proj2 (Nat.eqb_neq p _)) by lia; rewrite E0 by lia; cbn [lookup list_lookup mbind option_bind].
  - rewrite (proj2 (Z.eqb_neq v 37) H1), (proj2 (Z.eqb_neq v 43) H2). cbn [andb]. rewrite IH; [|lia|lia|by rewrite <- Ed, Nat.add_1_r|lia].
    rewrite (slice_S _ _ _ v) by (done || by rewrite E0 by lia). by rewrite <- !app_assoc.
  - rewrite Hm. change (43 =? 37) with false. cbn [Z.eqb Pos.eqb andb]. cbv zeta. rewrite IH; [|lia|lia|by rewrite <- Ed, Nat.add_1_r|lia].
    by rewrite slice_end, <- !app_assoc.
  - change (37 =? 37) with true. cbv iota. rewrite (proj2 (Nat.ltb_ge _ _)) by lia.
    rewrite (El 1%nat), (El 2%nat) by lia. cbn [lookup list_lookup mbind option_bind]. unfold hexTable.
    rewrite !char_table_lookup, Eh1, Eh2 by done. cbn [mbind option_bind].
    rewrite (proj2 (Z.eqb_neq (v .>> 4) 16)), (proj2 (Z.eqb_neq (v .& 0x0f) 16)) by lia. cbn [orb]. rewrite Ev'.
    rewrite IH by (done || lia). by rewrite slice_end, <- !app_assoc.
Qed.

(** URI escapes as RFC 3986 has them. *)
Definition unreserved (c : Z) : bool :=
  (48 <=? c) && (c <=? 57) || (65 <=? c) && (c <=? 90) || (97 <=? c) && (c <=? 122) ||
  (c =? 45) || (c =? 46) || (c =? 95) || (c =? 126).

Definition percent_digit (d : Z) : Z := if d <? 10 then 48 + d else 97 + (d - 10).

Definition percent_encoded (mode : UriEscapeMode) (c : Z) : list Z :=
  if unreserved c then [c]
  else match mode with
       | QUERY => if c =? 32 then [43] else [37; percent_digit (c / 16); percent_digit (c mod 16)]
       | PATH => if c =? 47 then [47] else [37; percent_digit (c / 16); percent_digit (c mod 16)]
       | ALL => [37; percent_digit (c / 16); percent_digit (c mod 16)]
       end.

Fixpoint percent_decoded (mode : UriEscapeMode) (l : list Z) : option (list Z) :=
  match l with
  | [] => Some []
  | c :: l =>
      if c =? 37 then
        match l with
        | a :: b :: l => x ← digit16 a; y ← digit16 b; cons (16 * x + y) <$> percent_decoded mode l
        | _ => None
        end
      else cons (match mode with QUERY => if c =? 43 then 32 else c | _ => c end) <$> percent_decoded mode l
  end.

Lemma uri_escaped_percent mode v : is_byte v -> uri_escaped mode v = percent_encoded mode v.
Proof.
  intros Hv. apply (bool_decide_eq_true_1 _).
  apply (byte_forall (fun v => bool_decide (uri_escaped mode v = percent_encoded mode v)) v); [|done]. destruct mode; by vm_compute.
Qed.

Lemma join_nibbles x y : 0 <= x < 16 -> 0 <= y < 16 -> u8 ((x .<< 4) .| y) = 16 * x + y.
Proof.
  intros Hx Hy. rewrite shiftl_mul, lor_disjoint_r by (unfold is_uint; lia). change (2 ^ 4) with 16. rewrite wrap_small by (unfold is_uint; lia). lia.
Qed.

(** The loop does what the reference does, or fails where it does. *)
Definition uri_decodes (out : list Z) (d : option (list Z)) (r : option (list Z * bool)) : Prop :=
  match d with Some t => r = Some (out ++ t, true) | None => exists l, r = Some (l, false) end.

Lemma uri_decodes_app out l d r : uri_decodes (out ++ l) d r -> uri_decodes out (app l <$> d) r.
Proof. destruct d; cbn; [by rewrite <- app_assoc|done]. Qed.

Lemma tryUriUnescape_loop_decodes fuel mode str p last out : Forall is_byte str -> (last <= p <= length str)%nat -> (length str - p < fuel)%nat ->
  uri_decodes (out ++ slice str last p) (percent_decoded mode (drop p str)) (tryUriUnescape_loop fuel mode str p last out).
Proof.
  intros Hs. revert p last out. induction fuel as [|fuel IH]; intros p last out Hp Hf; [lia|]. cbn [tryUriUnescape_loop].
  destruct (Nat.eqb_spec p (length str)) as [->|]; [rewrite drop_all; cbn; by rewrite app_nil_r|].
  destruct (lookup_lt_is_Some_2 str p) as [c Hc]; [lia|]. rewrite Hc, (drop_S _ _ _ Hc). cbn [mbind option_bind percent_decoded].
  assert (Hnext : forall q l, (p < q <= length str)%nat ->
    uri_decodes (out ++ slice str last p) (app l <$> percent_decoded mode (drop q str))
      (tryUriUnescape_loop fuel mode str q q ((out ++ slice str last p) ++ l))).
  { intros q l Hq. specialize (IH q q ((out ++ slice str last p) ++ l) ltac:(lia) ltac:(lia)). rewrite slice_end, app_nil_r in IH. by apply uri_decodes_app. }
  destruct (c =? 37).
  - destruct (Nat.ltb_spec (length str - p) 3) as [Hlt|Hge].
    { pose proof (length_drop str (S p)) as Hl. destruct (drop (S p) str) as [|a [|b l]]; [by eexists..|]. cbn in Hl. lia. }
    destruct (lookup_lt_is_Some_2 str (S p)) as [a Ha]; [lia|]. destruct (lookup_lt_is_Some_2 str (S (S p))) as [b Hb]; [lia|].
    rewrite (drop_S _ _ _ Ha), (drop_S _ _ _ Hb). rewrite (Nat.add_comm p 1), (Nat.add_comm p 2), (Nat.add_comm p 3). cbn [Nat.add].
    rewrite Ha, Hb. cbn [mbind option_bind]. unfold hexTable. assert (is_byte a /\ is_byte b) as [Hba Hbb] by (split; by eapply Forall_lookup_1).
    rewrite !char_table_lookup by done. cbn [mbind option_bind]. pose proof (hex_item_digit a Hba) as Ea. pose proof (hex_item_digit b Hbb) as Eb.
    destruct (digit16 a) as [x|]; [destruct Ea as [-> Hx]|rewrite Ea; by eexists].
    destruct (digit16 b) as [y|]; [destruct Eb as [-> Hy]|rewrite Eb, orb_true_r; by eexists]. cbn [mbind option_bind].
    rewrite (proj2 (Z.eqb_neq x 16)), (proj2 (Z.eqb_neq y 16)) by lia. cbn [orb]. cbv zeta. rewrite join_nibbles by done. by apply (Hnext (S (S (S p))) [_]); lia.
  - assert (Hskip : uri_decodes (out ++ slice str last p) (cons c <$> percent_decoded mode (drop (S p) str)) (tryUriUnescape_loop fuel mode str (S p) last out)).
    { specialize (IH (S p) last out ltac:(lia) ltac:(lia)). rewrite (slice_S _ _ _ c), app_assoc in IH by (done || lia). by apply (uri_decodes_app _ [c]). }
    destruct mode; cbn [mode_value Z.eqb Pos.eqb]; rewrite ?andb_false_r; [done| |done].
    destruct (c =? 43); cbn [andb]; [|done]. cbv zeta. by apply (Hnext (S p) [32]); lia.
Qed.

(** (C24) [uriEscape] leaves the unreserved characters of RFC 3986 (letters, digits and [-._~]), writes
    [+] for a space in a query and leaves the slash of a path, and writes every other byte as a percent
    sign and its two hexadecimal digits; [uriUnescape] in the same mode undoes it on every byte
    string.  On any byte string [uriUnescape] replaces a percent sign and two hexadecimal digits, in
    upper or lower case, by their byte, and in a query [+] by a space; it throws exactly if a percent
    sign is not followed by two hexadecimal digits. *)
Theorem uri_escape_roundtrip (str out : list Z) (mode : UriEscapeMode) : Forall is_byte str ->
  uriEscape str [] mode = Some (concat (percent_encoded mode <$> str)) /\
  uriUnescape (concat (percent_encoded mode <$> str)) out mode = Some (out ++ str, Ok tt) /\
  match percent_decoded mode str with
  | Some l => uriUnescape str out mode = Some (out ++ l, Ok tt)
  | None => exists l, uriUnescape str out mode = Some (l, Err tt)
  end.
Proof.
  intros Hs. assert (percent_encoded mode <$> str = uri_escaped mode <$> str) as ->.
  { apply list_fmap_ext. intros i v Hv. symmetry. apply uri_escaped_percent. by eapply Forall_lookup_1. }
  split_and!.
  - unfold uriEscape. rewrite uriEscape_loop_spec by (done || lia). by rewrite slice_end, drop_0.
  - unfold uriUnescape, tryUriUnescape. rewrite (tryUriUnescape_loop_spec mode str) by (done || lia). by rewrite slice_end.
  - unfold uriUnescape, tryUriUnescape.
    pose proof (tryUriUnescape_loop_decodes (S (length str)) mode str 0 0 out Hs ltac:(lia) ltac:(lia)) as H.
    rewrite slice_end, app_nil_r, drop_0 in H. unfold uri_decodes in H. destruct (percent_decoded mode str) as [t|].
    + by rewrite H.
    + destruct H as (l & ->). by exists l.
Qed.

(** ** Hexadecimal is undone *)

Definition hex_pair (b : Z) : list Z := [hex_value ((i8 b .>> 4) .& 0xf); hex_value (i8 b .& 0xf)].

Lemma hexlify_loop_spec input done rest : Forall is_byte input -> length rest = (2 * length input)%nat ->
  hexlify_loop input (done ++ rest) (length done) = Some (done ++ concat (hex_pair <$> input)).
Proof.
  intros Hi. revert done rest. induction Hi as [|b input Hb Hi IH]; intros done rest Hr; cbn [hexlify_loop].
  { by destruct rest. }
  destruct rest as [|x [|y rest]]; [cbn in Hr; lia..|]. cbv zeta.
  assert (H1 : 0 <= (i8 b .>> 4) .& 0xf < 16) by (rewrite (land_ones_mod _ 4) by lia; apply Z.mod_pos_bound; lia).
  assert (H2 : 0 <= i8 b .& 0xf < 16) by (rewrite (land_ones_mod _ 4) by lia; apply Z.mod_pos_bound; lia).
  rewrite (hexValues_lookup _ H1), (hexValues_lookup _ H2). cbn [mbind option_bind].
  rewrite store_in_bounds by (rewrite length_app; cbn; lia). cbn [mbind option_bind].
  rewrite store_in_bounds by (rewrite length_insert, length_app; cbn; lia). cbn [mbind option_bind].
  rewrite insert_app_r_alt, Nat.sub_diag by lia. cbn [insert list_insert].
  rewrite insert_app_r_alt by lia. replace (S (length done) - length done)%nat with 1%nat by lia. cbn [insert list_insert].
  pose proof (IH (done ++ hex_pair b) rest) as IH'. rewrite length_app in IH'. cbn [length hex_pair] in IH'.
  replace (S (S (length done))) with (length done + 2)%nat by lia. rewrite <- app_assoc in IH'. cbn [app] in IH'.
  unfold hex_pair in IH' at 1. cbn [app] in IH'. rewrite IH' by (cbn in Hr; lia). by rewrite <- app_assoc.
Qed.

(** The byte of two digits, if both are hexadecimal. *)
Definition hex_byte (a b : Z) : option Z :=
  if (string_table_hex_make_item a <? 16) && (string_table_hex_make_item b <? 16)
  then Some (16 * string_table_hex_make_item a + string_table_hex_make_item b) else None.

Fixpoint hex_bytes (input : list Z) : option (list Z) :=
  match input with
  | [] => Some []
  | a :: b :: input => c ← hex_byte a b; l ← hex_bytes input; Some (c :: l)
  | _ => None
  end.

(** The test and the value the code computes of two table entries. *)
Definition pair_check (h l : Z) : bool :=
  Bool.eqb ((h .| l) .& 0x10 =? 0) ((h <? 16) && (l <? 16)) && (negb ((h <? 16) && (l <? 16)) || (u8 ((h .<< 4) + l) =? 16 * h + l)).

Lemma unhex_pair a b : is_byte a -> is_byte b ->
  let highBits := string_table_hex_make_item a in let lowBits := string_table_hex_make_item b in
  if negb ((highBits .| lowBits) .& 0x10 =? 0) then hex_byte a b = None
  else hex_byte a b = Some (u8 ((highBits .<< 4) + lowBits)).
Proof.
  intros Ha Hb highBits lowBits. unfold hex_byte.
  assert (Hr : forall c, is_byte c -> (0 <=? string_table_hex_make_item c) && (string_table_hex_make_item c <=? 16) = true).
  { intros c Hc. by apply (byte_forall (fun c => (0 <=? string_table_hex_make_item c) && (string_table_hex_make_item c <=? 16))); [vm_compute|]. }
  pose proof (Hr a Ha) as H1. pose proof (Hr b Hb) as H2. fold highBits in H1 |- *. fold lowBits in H2 |- *. clearbody highBits lowBits.
  apply andb_true_iff in H1 as [?%Z.leb_le ?%Z.leb_le]. apply andb_true_iff in H2 as [?%Z.leb_le ?%Z.leb_le].
  assert (Hh : is_byte highBits) by (unfold is_uint; lia).
  assert (Hall : pair_check highBits lowBits = true).
  { pose proof (byte_forall (fun h => (16 <? h) || forallb (pair_check h) (seqZ 0 17)) highBits ltac:(by vm_compute) Hh) as Hall.
    cbv beta in Hall. rewrite (proj2 (Z.ltb_ge 16 highBits)) in Hall by lia. cbn [orb] in Hall.
    rewrite forallb_forall in Hall. apply Hall, list_elem_of_In, elem_of_seqZ. lia. }
  unfold pair_check in Hall.
  apply andb_true_iff in Hall as [->%Bool.eqb_prop Hv]. destruct (_ && _); cbn [negb orb] in *; [|done]. apply Z.eqb_eq in Hv. by rewrite Hv.
Qed.

Lemma unhexlify_loop_spec n input done rest : Forall is_byte input -> length input = (2 * n)%nat -> length rest = n ->
  Z.of_nat (length done + n) < 2 ^ 31 ->
  match hex_bytes input with
  | Some l => unhexlify_loop input (done ++ rest) (Z.of_nat (length done)) = Some (done ++ l, true)
  | None => exists l, unhexlify_loop input (done ++ rest) (Z.of_nat (length done)) = Some (l, false) /\ length l = (length done + n)%nat
  end.
Proof.
  revert input done rest. induction n as [|n IH]; intros input done rest Hi Hl Hr Hd.
  { destruct input; [|cbn in Hl; lia]. by destruct rest. }
  destruct input as [|a [|b input]]; [cbn in Hl; lia..|]. destruct rest as [|x rest]; [done|]. cbn [hex_bytes unhexlify_loop].
  apply Forall_cons in Hi as [Ha [Hb Hi]%Forall_cons]. unfold hexTable. rewrite !char_table_lookup by done. cbn [mbind option_bind].
  pose proof (unhex_pair a b Ha Hb) as Hp. cbv zeta in Hp. destruct (negb _); rewrite Hp; cbn [mbind option_bind].
  { eexists. split; [done|]. rewrite length_app, Hr. done. }
  set (c := u8 _). rewrite Nat2Z.id, store_in_bounds by (rewrite length_app; cbn; lia). cbn [mbind option_bind].
  rewrite insert_app_r_alt, Nat.sub_diag by lia. cbn [insert list_insert].
  rewrite (proj2 (Z.ltb_lt _ _)) by lia. pose proof (IH input (done ++ [c]) rest Hi) as IH'.
  rewrite length_app in IH'. cbn [length] in IH'. rewrite <- app_assoc in IH'. cbn [app] in IH'.
  replace (Z.of_nat (length done) + 1) with (Z.of_nat (length done + 1)) by lia.
  specialize (IH' ltac:(cbn in Hl; lia) ltac:(cbn in Hr; lia) ltac:(lia)).
  destruct (hex_bytes input) as [l|]; cbn [mbind option_bind].
  - rewrite IH'. by rewrite <- app_assoc.
  - destruct IH' as (l & -> & Hl'). exists l. split; [done|lia].
Qed.

Lemma hex_bytes_pairs input : Forall is_byte input -> hex_bytes (concat (hex_pair <$> input)) = Some input.
Proof.
  induction 1 as [|v input Hv Hi IH]; [done|]. cbn [fmap list_fmap concat hex_pair app hex_bytes].
  replace (hex_byte _ _) with (Some v); [cbn [mbind option_bind]; by rewrite IH|]. symmetry.
  assert (H : match hex_byte (hex_value ((i8 v .>> 4) .& 0xf)) (hex_value (i8 v .& 0xf)) with Some w => w =? v | None => false end = true).
  { apply (byte_forall (fun v => match hex_byte (hex_value ((i8 v .>> 4) .& 0xf)) (hex_value (i8 v .& 0xf)) with
      Some w => w =? v | None => false end)); [by vm_compute|done]. }
  destruct (hex_byte _ _); [|done]. apply Z.eqb_eq in H. by subst.
Qed.

Lemma hex_pair_printable v : is_byte v -> Forall (fun c => printable c = true) (hex_pair v).
Proof. apply byte_forall_chars. by vm_compute. Qed.

Lemma hex_bytes_odd input l : hex_bytes input = Some l -> length input = (2 * length l)%nat.
Proof.
  revert input. induction l as [|c l IH]; intros [|a [|b input]]; cbn [hex_bytes]; try done.
  - destruct (hex_byte a b); [|done]. cbn. by destruct (hex_bytes input).
  - destruct (hex_byte a b); [|done]. cbn [mbind option_bind]. destruct (hex_bytes input) eqn:E; [|done].
    intros [= -> ->]. apply IH in E. cbn. lia.
Qed.

Lemma hexlify_spec input output append_output : Forall is_byte input ->
  hexlify input output append_output = Some ((if append_output then output else []) ++ concat (hex_pair <$> input)).
Proof. intros Hi. unfold hexlify. apply hexlify_loop_spec; [done|]. by rewrite length_replicate. Qed.

Lemma unhexlify_spec input output : Forall is_byte input -> Z.of_nat (length input) < 2 ^ 32 ->
  match hex_bytes input with
  | Some l => unhexlify input output = Some (l, true)
  | None => exists l, unhexlify input output = Some (l, false)
  end.
Proof.
  intros Hi Hl. unfold unhexlify. pose proof (Nat.div_mod_eq (length input) 2) as Hdm.
  destruct (Nat.eqb_spec (length input mod 2) 0) as [Hm|Hm]; cbn [negb].
  - set (rest := take _ _ ++ _). pose proof (unhexlify_loop_spec (length input / 2) input [] rest Hi) as H.
    cbn [app length Nat.add] in H. change (Z.of_nat 0) with 0 in H.
    assert (Hr : length rest = (length input / 2)%nat). { unfold rest. rewrite length_app, length_take, length_replicate. lia. }
    specialize (H ltac:(lia) Hr). rewrite Nat2Z.inj_div in H. change (Z.of_nat 2) with 2 in H.
    specialize (H ltac:(apply Z.div_lt_upper_bound; lia)). destruct (hex_bytes input); [done|]. destruct H as (l & ? & _). by exists l.
  - destruct (hex_bytes input) eqn:E; [|by eexists]. apply hex_bytes_odd in E. exfalso. apply Hm.
    rewrite E, Nat.mul_comm. apply Nat.mod_mul. lia.
Qed.

(** [unhexlify] undoes [hexlify] on byte strings of less than two gigabytes, whatever its output
    held.  On a text of less than four gigabytes it succeeds exactly if the text is made of pairs of
    hexadecimal digits, with the byte of each pair; [hexlify] leaves what it appends to. *)
Theorem hex_roundtrip (input output : list Z) : Forall is_byte input -> Z.of_nat (length input) < 2 ^ 32 ->
  (Z.of_nat (length input) < 2 ^ 31 -> exists h, hexlify input [] false = Some h /\ hexlify input output true = Some (output ++ h) /\
     length h = (2 * length input)%nat /\ Forall (fun c => printable c = true) h /\ unhexlify h output = Some (input, true)) /\
  (exists l, unhexlify input output = Some (l, bool_decide (is_Some (hex_bytes input))) /\ (is_Some (hex_bytes input) -> hex_bytes input = Some l)).
Proof.
  intros Hi Hl. split.
  - intros Hl'. exists (concat (hex_pair <$> input)). rewrite !hexlify_spec by done.
    assert (Hp : Forall (fun c => printable c = true) (concat (hex_pair <$> input))) by (eapply Forall_concat_fmap; [apply hex_pair_printable|done]).
    assert (Hlen : length (concat (hex_pair <$> input)) = (2 * length input)%nat) by (clear; induction input; cbn in *; lia).
    split_and!; [done..|]. pose proof (unhexlify_spec (concat (hex_pair <$> input)) output) as H.
    rewrite hex_bytes_pairs in H by done. apply H; [|rewrite Hlen; lia]. eapply Forall_impl; [exact Hp|]. cbv beta.
    intros c [?%Z.leb_le ?%Z.leb_le]%andb_true_iff. unfold is_uint. lia.
  - pose proof (unhexlify_spec input output Hi ltac:(lia)) as H. destruct (hex_bytes input) as [l|].
    + exists l. split; [|done]. by rewrite bool_decide_eq_true_2.
    + destruct H as [l ->]. exists l. split; [|by intros [??]]. rewrite bool_decide_eq_false_2; [done|]. by intros [??].
Qed.

(** ** Display forms are printable and can be read back *)

Definition short_escape (c : Z) : option Z :=
  if c =? 13 then Some 114
  else if c =? 10 then Some 110
  else if c =? 9 then Some 116
  else if c =? 7 then Some 97
  else if c =? 8 then Some 98
  else if c =? 0 then Some 48
  else if c =? 92 then Some 92
  else None.

(** The display of one character. *)
Definition backslashed (hex_style : bool) (c : Z) : list Z :=
  if unprintable c then
    match (if hex_style then None else short_escape c) with
    | Some e => [92; e]
    | None => [92; 120; hex_value ((c .>> 4) .& 0xf); hex_value (c .& 0xf)]
    end
  else [c].

Lemma backslashify_loop_spec hex_style input output : Forall is_byte input ->
  backslashify_loop input output hex_style = Some (output ++ concat (backslashed hex_style <$> input)).
Proof.
  intros Hi. revert output. induction Hi as [|c input Hc Hi IH]; intros output; cbn [backslashify_loop fmap list_fmap concat].
  { by rewrite app_nil_r. }
  assert (H1 : 0 <= (c .>> 4) .& 0xf < 16) by (rewrite (land_ones_mod _ 4) by lia; apply Z.mod_pos_bound; lia).
  assert (H2 : 0 <= c .& 0xf < 16) by (rewrite (land_ones_mod _ 4) by lia; apply Z.mod_pos_bound; lia).
  unfold backslashed at 1. destruct (unprintable c); [|rewrite IH, <- app_assoc; done]. cbv zeta. fold (short_escape c).
  rewrite (hexValues_lookup _ H1), (hexValues_lookup _ H2). cbn [mbind option_bind].
  destruct (if hex_style then None else short_escape c); by rewrite IH, <- !app_assoc.
Qed.

(** Reading the display form: the letters stand for their characters, and [x] has two digits. *)
Definition short_unescape (e : Z) : option Z :=
  if e =? 114 then Some 13
  else if e =? 110 then Some 10
  else if e =? 116 then Some 9
  else if e =? 97 then Some 7
  else if e =? 98 then Some 8
  else if e =? 48 then Some 0
  else if e =? 92 then Some 92
  else None.

Fixpoint unbackslash (l : list Z) : option (list Z) :=
  match l with
  | [] => Some []
  | c :: l =>
      if c =? 92 then
        match l with
        | e :: l =>
            match short_unescape e, l with
            | Some c, _ => cons c <$> unbackslash l
            | None, a :: b :: l => c ← hex_byte a b; cons c <$> unbackslash l
            | None, _ => None
            end
        | [] => None
        end
      else cons c <$> unbackslash l
  end.

Definition reads_back (hex_style : bool) (c : Z) : bool :=
  match backslashed hex_style c with
  | [d] => (d =? c) && negb (c =? 92)
  | [d; e] => (d =? 92) && bool_decide (short_unescape e = Some c)
  | [d; e; a; b] => (d =? 92) && bool_decide (short_unescape e = None) && bool_decide (hex_byte a b = Some c)
  | _ => false
  end.

Lemma unbackslash_app hex_style c l : is_byte c -> unbackslash (backslashed hex_style c ++ l) = cons c <$> unbackslash l.
Proof.
  intros Hc. assert (H : reads_back hex_style c = true).
  { apply (byte_forall (reads_back hex_style)); [destruct hex_style; by vm_compute|done]. }
  unfold reads_back in H. destruct (backslashed hex_style c) as [|d [|e [|a [|b [|]]]]]; try done; cbn [app unbackslash].
  - apply andb_true_iff in H as [->%Z.eqb_eq H%negb_true_iff]. by rewrite H.
  - apply andb_true_iff in H as [-> H%bool_decide_eq_true]. by rewrite H.
  - apply andb_true_iff in H as [[-> H%bool_decide_eq_true]%andb_true_iff H'%bool_decide_eq_true]. by rewrite H, H'.
Qed.

Lemma unbackslash_spec hex_style input : Forall is_byte input -> unbackslash (concat (backslashed hex_style <$> input)) = Some input.
Proof.
  induction 1 as [|c input Hc Hi IH]; [done|]. cbn [fmap list_fmap concat]. rewrite unbackslash_app by done. by rewrite IH.
Qed.

Lemma backslashed_printable hex_style c : is_byte c -> Forall (fun c => printable c = true) (backslashed hex_style c).
Proof. apply byte_forall_chars. destruct hex_style; by vm_compute. Qed.

Lemma length_backslashed hex_style input : (length (concat (backslashed hex_style <$> input)) <= 4 * length input)%nat.
Proof.
  induction input as [|c input IH]; [done|]. cbn [fmap list_fmap concat]. rewrite length_app. cbn [length].
  assert (length (backslashed hex_style c) <= 4)%nat by (unfold backslashed; repeat case_match; cbn; lia). lia.
Qed.

Lemma count_unprintable_all input n k : 0 <= n -> n + Z.of_nat (length input) < 2 ^ 64 ->
  (count_unprintable input n k).1 = n + Z.of_nat (length (filter (fun c => unprintable c = true) input)).
Proof.
  revert n k. induction input as [|c input IH]; intros n k Hn Hl; cbn [count_unprintable]; [cbn; lia|]. cbv zeta.
  rewrite filter_cons. cbn [length] in Hl. destruct (decide _) as [E|E].
  - rewrite E, IH; rewrite wrap_small by (unfold is_uint; lia); cbn [length]; lia.
  - apply not_true_is_false in E. rewrite E. apply IH; lia.
Qed.

Lemma printable_all input : Forall (fun c => unprintable c = false) input -> Forall (fun c => printable c = true) input.
Proof.
  intros H. eapply Forall_impl; [exact H|]. unfold unprintable, printable. cbv beta. intros c Hc.
  apply orb_false_iff in Hc as [[?%Z.ltb_ge ?%Z.ltb_ge]%orb_false_iff _]. apply andb_true_iff. split; apply Z.leb_le; lia.
Qed.

(** [backslashify] writes only printable characters, at most four for each of the input, and the
    input can be read back from them.  [humanify] writes only printable characters, too: the input
    itself if that is printable and has no backslash, else its [backslashify], or [0x] and its
    [hexlify]. *)
Theorem display_printable (input : list Z) (hex_style : bool) : Forall is_byte input -> Z.of_nat (length input) < 2 ^ 64 ->
  (exists out, backslashify input hex_style = Some out /\ Forall (fun c => printable c = true) out /\
     (length out <= 4 * length input)%nat /\ unbackslash out = Some input) /\
  (exists out, humanify input = Some out /\ Forall (fun c => printable c = true) out /\
     (out = input /\ Forall (fun c => unprintable c = false) input \/
      backslashify input false = Some out \/ hexlify input [48; 120] true = Some out)).
Proof.
  intros Hi Hl.
  assert (Hb : forall h, Forall (fun c => printable c = true) (concat (backslashed h <$> input)))
    by (intros h; eapply Forall_concat_fmap; [apply backslashed_printable|done]).
  unfold backslashify. rewrite !backslashify_loop_spec by done. cbn [app]. split.
  { eexists. split_and!; [done|done|apply length_backslashed|by apply unbackslash_spec]. }
  unfold humanify, backslashify. rewrite hexlify_spec, backslashify_loop_spec by done. cbn [app].
  pose proof (count_unprintable_all input 0 0 ltac:(lia) ltac:(lia)) as Hc.
  destruct (count_unprintable input 0 0) as [u k]. cbn [fst] in Hc.
  destruct (Z.eqb_spec u 0) as [Hu|Hu].
  { assert (Hp : Forall (fun c => unprintable c = false) input).
    { apply Forall_forall. intros c Hin. apply not_true_is_false. intros E. assert (Hf : c ∈ filter (fun c => unprintable c = true) input) by (by apply list_elem_of_filter).
      destruct (filter _ input); [by apply elem_of_nil in Hf|cbn in Hc; lia]. }
    exists input. split_and!; [done|by apply printable_all|by left]. }
  destruct (_ <=? _); [destruct (_ <=? _)|]; (eexists; split_and!; [done| |by eauto]); [apply Hb| |apply Hb].
  repeat (constructor; [done|]). eapply Forall_concat_fmap; [apply hex_pair_printable|done].
Qed.

(** ** Examples *)

Lemma c_escape_roundtrip_witness : exists esc, cEscape [34; 7; 97; 255; 63] [] = Some esc /\ cUnescape esc [65] true = Some ([65; 34; 7; 97; 255; 63], Ok tt).
Proof.
  destruct (c_escape_roundtrip [34; 7; 97; 255; 63] [65] true) as (esc & H & _ & Hu);
    [repeat (constructor; [unfold is_uint; lia|]); constructor|]. by exists esc.
Defined.

Lemma c_unescape_total_witness : exists l, cUnescape [92; 113; 92] [65] false = Some ([65] ++ l, Ok tt) /\ (length l <= 3)%nat.
Proof.
  destruct (c_unescape_total [92; 113; 92] [65] false) as ((l & e & H & Hl & He) & _);
    [repeat (constructor; [unfold is_uint; lia|]); constructor|]. exists l. by rewrite H, (He eq_refl).
Defined.

Lemma uri_escape_roundtrip_witness : uriEscape [97; 32; 47; 200] [] QUERY = Some [97; 43; 37; 50; 102; 37; 99; 56] /\
  uriUnescape [97; 43; 37; 50; 102; 37; 99; 56] [] QUERY = Some ([97; 32; 47; 200], Ok tt).
Proof.
  destruct (uri_escape_roundtrip [97; 32; 47; 200] [] QUERY) as (H & Hu & _);
    [repeat (constructor; [unfold is_uint; lia|]); constructor|]. split; [exact H|exact Hu].
Defined.

Lemma hex_roundtrip_witness : exists h, hexlify [0; 171; 255] [] false = Some h /\ unhexlify h [9] = Some ([0; 171; 255], true).
Proof.
  destruct (hex_roundtrip [0; 171; 255] [9]) as [H _]; [repeat (constructor; [unfold is_uint; lia|]); constructor|cbn; lia|].
  destruct (H ltac:(cbn; lia)) as (h & Hh & _ & _ & _ & Hu). by exists h.
Defined.

Lemma display_printable_witness : exists out, backslashify [10; 97; 92; 200] false = Some out /\ unbackslash out = Some [10; 97; 92; 200].
Proof.
  destruct (display_printable [10; 97; 92; 200] false) as [(out & H & _ & _ & Hu) _];
    [repeat (constructor; [unfold is_uint; lia|]); constructor|cbn; lia|]. by exists out.
Defined.
