(* ===== verification/StringAscii.v ===== *)
(** Conversion of ASCII to lower case in place ([String.cpp]): one, four or eight characters at a
    time, according to the alignment of the address, with the arithmetic of each width.  A word that
    is not aligned or not inside of the text is undefined, and so is running out of fuel; that the code
    accesses characters as words, against the aliasing rules of C++, is not modelled. *)
From S2P Require Import Prelude.

(** ** One, four and eight characters *)

(** [c] is a [char], which is negative above 127; the character is its byte. *)
Definition toLowerAscii8 (c : Z) : Z :=
  let rotated := u8 (i8 c .& 0x7f) in
  let rotated := u8 (rotated + 0x25) in
  let rotated := u8 (rotated .& 0x7f) in
  let rotated := u8 (rotated + 0x1a) in
  let rotated := u8 (rotated .& Z.lnot (i8 c)) in
  let rotated := u8 (rotated .>> 2) in
  let rotated := u8 (rotated .& 0x20) in
  u8 (i8 c + i8 rotated).

Definition toLowerAscii32 (c : Z) : Z :=
  let rotated := c .& 0x7f7f7f7f in
  let rotated := u32 (rotated + 0x25252525) in
  let rotated := rotated .& 0x7f7f7f7f in
  let rotated := u32 (rotated + 0x1a1a1a1a) in
  let rotated := rotated .& u32 (Z.lnot c) in
  let rotated := rotated .>> 2 in
  let rotated := rotated .& 0x20202020 in
  u32 (c + rotated).

Definition toLowerAscii64 (c : Z) : Z :=
  let rotated := c .& 0x7f7f7f7f7f7f7f7f in
  let rotated := u64 (rotated + 0x2525252525252525) in
  let rotated := rotated .& 0x7f7f7f7f7f7f7f7f in
  let rotated := u64 (rotated + 0x1a1a1a1a1a1a1a1a) in
  let rotated := rotated .& u64 (Z.lnot c) in
  let rotated := rotated .>> 2 in
  let rotated := rotated .& 0x2020202020202020 in
  u64 (c + rotated).

(** ** The text *)

(** Apply [f] to the little-endian word of [k] bytes at [addr + offset]. *)
Definition at_word (k : nat) (f : Z -> Z) (addr : Z) (str : list Z) (offset : Z) : option (list Z) :=
  let o := Z.to_nat offset in
  if ((addr + offset) mod Z.of_nat k =? 0) && (o + k <=? length str)%nat
  then Some (take o str ++ (byte_at (f (le_word (take k (drop o str)))) <$> seq 0 k) ++ drop (o + k) str)
  else None.

Definition at_char (f : Z -> Z) (str : list Z) (offset : Z) : option (list Z) :=
  c ← str !! Z.to_nat offset; Some (<[Z.to_nat offset := f c]> str).

(** [while (offset < n)] one character at a time. *)
Fixpoint lower_chars (fuel : nat) (str : list Z) (offset n : Z) : option (list Z * Z) :=
  match fuel with
  | O => None
  | S fuel =>
      if offset <? n then
        str ← at_char toLowerAscii8 str offset;
        lower_chars fuel str (u64 (offset + 1)) n
      else Some (str, offset)
  end.

(** [while (offset + k <= length)] a word of [k] characters at a time. *)
Fixpoint lower_words (fuel k : nat) (f : Z -> Z) (addr : Z) (str : list Z) (offset length : Z) : option (list Z * Z) :=
  match fuel with
  | O => None
  | S fuel =>
      if u64 (offset + Z.of_nat k) <=? length then
        str ← at_word k f addr str offset;
        lower_words fuel k f addr str (u64 (offset + Z.of_nat k)) length
      else Some (str, offset)
  end.

(** The characters in front of a 32-bit boundary: a [do] loop. *)
Definition lower_head (addr : Z) (str : list Z) (length : Z) : option (list Z * Z) :=
  let n := Z.min (addr .& 3) length in
  if negb (n =? 0) then
    let n := Z.min (4 - n) length in
    str ← at_char toLowerAscii8 str 0;
    lower_chars 4 str 1 n
  else Some (str, 0).

(** The four characters in front of a 64-bit boundary. *)
Definition lower_step32 (addr : Z) (str : list Z) (offset length : Z) : option (list Z * Z) :=
  let n := u64 (addr + offset) .& 7 in
  if negb (n =? 0) && (u64 (offset + 4) <=? length) then
    str ← at_word 4 toLowerAscii32 addr str offset; Some (str, u64 (offset + 4))
  else Some (str, offset).

(** [toLowerAscii(str, length)] for the text at [addr]. *)
Definition toLowerAscii (addr : Z) (str : list Z) : option (list Z) :=
  let len := Z.of_nat (length str) in
  let fuel := S (length str) in
  '(str, offset) ← lower_head addr str len;
  '(str, offset) ← lower_step32 addr str offset len;
  '(str, offset) ← lower_words fuel 8 toLowerAscii64 addr str offset len;
  '(str, offset) ← lower_words fuel 4 toLowerAscii32 addr str offset len;
  '(str, offset) ← lower_chars fuel str offset len;
  Some str.

(** ** Lower case *)

Definition lower (c : Z) : Z := if (65 <=? c) && (c <=? 90) then c + 32 else c.

Lemma toLowerAscii8_spec c : is_byte c -> toLowerAscii8 c = lower c.
Proof. intros Hc. apply Z.eqb_eq. by apply (byte_forall (fun c => toLowerAscii8 c =? lower c)); [vm_compute|]. Qed.

Lemma lower_byte c : is_byte c -> is_byte (lower c).
Proof. unfold lower, is_uint. destruct (Z.leb_spec 65 c), (Z.leb_spec c 90); cbn [andb]; lia. Qed.

(** ** Bytes in parallel *)

(** The bits of a word by its first byte and the rest. *)
Lemma testbit_word b w i : is_byte b -> 0 <= i ->
  Z.testbit (b + 256 * w) i = if i <? 8 then Z.testbit b i else Z.testbit w (i - 8).
Proof.
  intros Hb Hi. replace (b + 256 * w) with (b .| (w .<< 8)).
  2: { rewrite Z.shiftl_mul_pow2 by lia. rewrite (Z.mul_comm 256 w). change 256 with (2 ^ 8).
       apply lor_disjoint; [lia|exact Hb]. }
  rewrite Z.lor_spec, Z.shiftl_spec by lia. destruct (Z.ltb_spec i 8).
  - rewrite (Z.testbit_neg_r w) by lia. apply orb_false_r.
  - rewrite (testbit_high b 8) by (done || lia). done.
Qed.

Lemma word_land b w b' w' : is_byte b -> is_byte b' -> (b + 256 * w) .& (b' + 256 * w') = (b .& b') + 256 * (w .& w').
Proof.
  intros Hb Hb'. apply Z.bits_inj'. intros i Hi.
  rewrite Z.land_spec, !testbit_word by (done || by apply land_uint). rewrite !Z.land_spec. by destruct (i <? 8).
Qed.

Lemma word_ldiff b w b' w' : is_byte b -> is_byte b' ->
  (b + 256 * w) .& Z.lnot (b' + 256 * w') = (b .& Z.lnot b') + 256 * (w .& Z.lnot w').
Proof.
  intros Hb Hb'. apply Z.bits_inj'. intros i Hi.
  rewrite Z.land_spec, Z.lnot_spec, !testbit_word by (done || rewrite Z.land_comm; by apply land_uint).
  destruct (Z.ltb_spec i 8); rewrite Z.land_spec, Z.lnot_spec by lia; done.
Qed.

(** The bits that the shift moves over from the next byte are not in the mask. *)
Lemma word_shift b w w' : is_byte b ->
  ((b + 256 * w) .>> 2) .& (0x20 + 256 * w') = ((b .>> 2) .& 0x20) + 256 * ((w .>> 2) .& w').
Proof.
  intros Hb. apply Z.bits_inj'. intros i Hi.
  rewrite Z.land_spec, Z.shiftr_spec, !testbit_word by (lia || done || by apply land_uint).
  rewrite !Z.land_spec. destruct (Z.ltb_spec i 8) as [H|H].
  - rewrite Z.shiftr_spec by lia. destruct (Z.ltb_spec (i + 2) 8); [done|].
    assert (i = 6 \/ i = 7) as [-> | ->] by lia; by rewrite !andb_false_r.
  - rewrite Z.shiftr_spec, (proj2 (Z.ltb_ge (i + 2) 8)) by lia. do 2 f_equal. lia.
Qed.

(** The word of [n] bytes [b]. *)
Definition every (n : nat) (b : Z) : Z := le_word (replicate n b).

(** The computation without the widths. *)
Definition rotated_case (n : nat) (c : Z) : Z :=
  ((((((c .& every n 0x7f) + every n 0x25) .& every n 0x7f) + every n 0x1a) .& Z.lnot c) .>> 2) .& every n 0x20.

Definition rotated_byte (c : Z) : Z := ((((((c .& 0x7f) + 0x25) .& 0x7f) + 0x1a) .& Z.lnot c) .>> 2) .& 0x20.

Lemma rotated_byte_lower b : is_byte b -> b + rotated_byte b = lower b.
Proof. intros Hb. apply Z.eqb_eq. by apply (byte_forall (fun b => b + rotated_byte b =? lower b)); [vm_compute|]. Qed.

Lemma land_7f_add b d : 0 <= d <= 0x80 -> is_byte ((b .& 0x7f) + d).
Proof.
  intros Hd. rewrite (land_ones_mod _ 7) by lia. pose proof (Z.mod_pos_bound b (2 ^ 7) ltac:(lia)). unfold is_uint. lia.
Qed.

Lemma rotated_case_cons n b c : is_byte b -> rotated_case (S n) (b + 256 * c) = rotated_byte b + 256 * rotated_case n c.
Proof.
  intros Hb. unfold rotated_case, every. cbn [replicate le_word].
  assert (Hs : forall x y x' y', (x + 256 * y) + (x' + 256 * y') = (x + x') + 256 * (y + y')) by lia.
  rewrite word_land, Hs by (done || (unfold is_uint; lia)). rewrite word_land, Hs by (apply land_7f_add || (unfold is_uint; lia); lia).
  rewrite word_ldiff by (done || (apply land_7f_add; lia)).
  rewrite word_shift; [done|]. rewrite Z.land_comm. apply land_uint; [lia|]. apply land_7f_add. lia.
Qed.

Lemma rotated_case_spec l : Forall is_byte l -> le_word l + rotated_case (length l) (le_word l) = le_word (lower <$> l).
Proof.
  induction 1 as [|b l Hb Hl IH]; [done|]. cbn [length le_word fmap list_fmap].
  rewrite rotated_case_cons, <- rotated_byte_lower, <- IH by done. lia.
Qed.

(** No addition carries into the next byte, so none leaves the word. *)
Lemma every_add l d : Forall is_byte l -> 0 <= d <= 0x80 ->
  exists l', (le_word l .& every (length l) 0x7f) + every (length l) d = le_word l' /\ Forall is_byte l' /\ length l' = length l.
Proof.
  intros Hl Hd. exists ((fun b => (b .& 0x7f) + d) <$> l). rewrite length_fmap. split_and!; [|apply Forall_fmap, Forall_true; intros b; by apply land_7f_add|done].
  induction Hl as [|b l Hb Hl IH]; [done|]. unfold every in *. cbn [length replicate le_word fmap list_fmap].
  rewrite <- IH, word_land by (done || (unfold is_uint; lia)). lia.
Qed.

Lemma land_wrap_lnot w x c : 0 <= w -> is_uint w x -> x .& wrap w (Z.lnot c) = x .& Z.lnot c.
Proof.
  intros Hw Hx. unfold wrap. rewrite <- Z.land_ones, (Z.land_comm (Z.lnot c)), Z.land_assoc, Z.land_ones, (Z.mod_small x) by done. done.
Qed.

(** The same computation with the widths. *)
Lemma lower_word_width w l : Forall is_byte l -> w = 8 * Z.of_nat (length l) ->
  let c := le_word l in let m := every (length l) in
  wrap w (c + (((wrap w ((wrap w ((c .& m 0x7f) + m 0x25) .& m 0x7f) + m 0x1a) .& wrap w (Z.lnot c)) .>> 2) .& m 0x20)) = le_word (lower <$> l).
Proof.
  intros Hl Hw c m. assert (H0 : 0 <= w) by lia. subst c m. cbv beta zeta.
  pose proof (rotated_case_spec l Hl) as Hr. unfold rotated_case in Hr.
  destruct (every_add l 0x25 Hl ltac:(lia)) as (l1 & E1 & Hl1 & Hn1). rewrite E1 in *.
  rewrite (wrap_small w (le_word l1)) by (rewrite Hw, <- Hn1; by apply le_word_bound).
  destruct (every_add l1 0x1a Hl1 ltac:(lia)) as (l2 & E2 & Hl2 & Hn2). rewrite Hn1 in E2. rewrite E2 in *.
  assert (H2 : is_uint w (le_word l2)) by (rewrite Hw, <- Hn1, <- Hn2; by apply le_word_bound).
  rewrite (wrap_small w (le_word l2)), land_wrap_lnot, Hr by done. apply wrap_small. rewrite Hw.
  rewrite <- (length_fmap lower). apply le_word_bound, Forall_fmap. eapply Forall_impl; [exact Hl|]. exact lower_byte.
Qed.

Lemma toLowerAscii32_spec l : Forall is_byte l -> length l = 4%nat -> toLowerAscii32 (le_word l) = le_word (lower <$> l).
Proof. intros Hl Hn. rewrite <- (lower_word_width 32) by (rewrite ?Hn; done). by rewrite Hn. Qed.

Lemma toLowerAscii64_spec l : Forall is_byte l -> length l = 8%nat -> toLowerAscii64 (le_word l) = le_word (lower <$> l).
Proof. intros Hl Hn. rewrite <- (lower_word_width 64) by (rewrite ?Hn; done). by rewrite Hn. Qed.

(** ** The loops *)

(** The text with its first [n] characters in lower case. *)
Definition lowered (str : list Z) (n : nat) : list Z := (lower <$> take n str) ++ drop n str.

Lemma length_lowered str n : length (lowered str n) = length str.
Proof. unfold lowered. rewrite length_app, length_fmap, length_take, length_drop. lia. Qed.

Lemma lowered_all str n : (length str <= n)%nat -> lowered str n = lower <$> str.
Proof. intros Hn. unfold lowered. by rewrite take_ge, drop_ge, app_nil_r. Qed.

Lemma lowered_add str n k : (n + k <= length str)%nat ->
  lowered str (n + k) = take n (lowered str n) ++ (lower <$> take k (drop n str)) ++ drop (n + k) (lowered str n).
Proof.
  intros Hn. assert (Hl : length (lower <$> take n str) = n) by (rewrite length_fmap, length_take; lia).
  unfold lowered. rewrite take_app_length', drop_app_ge, Hl, drop_drop by lia.
  replace (n + (n + k - n))%nat with (n + k)%nat by lia. rewrite app_assoc, <- fmap_app. do 2 f_equal.
  rewrite <- take_take_drop. done.
Qed.

Lemma drop_lowered str n : (n <= length str)%nat -> drop n (lowered str n) = drop n str.
Proof. intros Hn. unfold lowered. rewrite drop_app_length'; [done|]. rewrite length_fmap, length_take. lia. Qed.

Lemma at_word_lowered k f addr str o : Forall is_byte str -> (o + k <= length str)%nat -> (addr + Z.of_nat o) mod Z.of_nat k = 0 ->
  (forall l, Forall is_byte l -> length l = k -> f (le_word l) = le_word (lower <$> l)) ->
  at_word k f addr (lowered str o) (Z.of_nat o) = Some (lowered str (o + k)).
Proof.
  intros Hs Ho Ha Hf. unfold at_word. rewrite Ha, Nat2Z.id, length_lowered, (proj2 (Nat.leb_le _ _) Ho). cbn [Z.eqb andb].
  rewrite drop_lowered, lowered_add by lia. do 3 f_equal.
  set (l := take k (drop o str)). assert (Hl : Forall is_byte l) by (by apply Forall_take, Forall_drop).
  assert (Hn : length l = k) by (unfold l; rewrite length_take, length_drop; lia). rewrite Hf by done.
  assert (Hb : Forall is_byte (lower <$> l)) by (apply Forall_fmap; eapply Forall_impl; [exact Hl|exact lower_byte]).
  apply list_eq. intros i. rewrite list_lookup_fmap. destruct (decide (i < k)%nat) as [Hi|Hi].
  - rewrite lookup_seq_lt by done. cbn. rewrite byte_at_le_word by done.
    destruct (lookup_lt_is_Some_2 (lower <$> l) i) as [x ->]; [rewrite length_fmap; lia|]. done.
  - rewrite lookup_ge_None_2 by (rewrite length_seq; lia). cbn. rewrite lookup_ge_None_2; [done|]. rewrite length_fmap. lia.
Qed.

Lemma at_char_lowered str o : Forall is_byte str -> (o < length str)%nat ->
  at_char toLowerAscii8 (lowered str o) (Z.of_nat o) = Some (lowered str (S o)).
Proof.
  intros Hs Ho. destruct (lookup_lt_is_Some_2 str o Ho) as [c Hc]. unfold at_char, lowered. rewrite Nat2Z.id.
  assert (Hl : length (lower <$> take o str) = o) by (rewrite length_fmap, length_take; lia).
  rewrite (drop_S _ _ _ Hc). rewrite list_lookup_middle by done. cbn [mbind option_bind].
  rewrite (take_S_r _ _ _ Hc), fmap_app, toLowerAscii8_spec by (by eapply Forall_lookup_1).
  rewrite insert_app_r_alt, Hl, Nat.sub_diag, <- app_assoc by lia. done.
Qed.

Lemma mod_8_4 x : x mod 8 = 0 -> x mod 4 = 0.
Proof.
  intros H. rewrite (Z.div_mod x 8), H, Z.add_0_r by lia. replace (8 * (x / 8)) with (2 * (x / 8) * 4) by lia. apply Z.mod_mul. lia.
Qed.

Section text.
Context (addr : Z) (str : list Z) (Hs : Forall is_byte str) (Hlen : Z.of_nat (length str) < 2 ^ 63).

(** The text is in lower case up to [o], where the addresses are aligned for words of [k] bytes, if
    there is still such a word. *)
Definition aligned (k : nat) (o : nat) : Prop := (o + k <= length str)%nat -> (addr + Z.of_nat o) mod Z.of_nat k = 0.

Definition progress (r : option (list Z * Z)) (P : nat -> Prop) : Prop :=
  exists o, r = Some (lowered str o, Z.of_nat o) /\ (o <= length str)%nat /\ P o.

Lemma u64_offset o k : (o <= length str)%nat -> (k <= 8)%nat -> u64 (Z.of_nat o + Z.of_nat k) = Z.of_nat (o + k).
Proof using Hlen. intros. rewrite wrap_small by (unfold is_uint; lia). lia. Qed.

Lemma lower_chars_spec fuel o n : (o <= n <= length str)%nat -> (n - o < fuel)%nat ->
  lower_chars fuel (lowered str o) (Z.of_nat o) (Z.of_nat n) = Some (lowered str n, Z.of_nat n).
Proof using Hs Hlen.
  revert o. induction fuel as [|fuel IH]; intros o Ho Hf; [lia|]. cbn [lower_chars].
  destruct (Z.ltb_spec (Z.of_nat o) (Z.of_nat n)) as [H|H]; [|by replace o with n by lia].
  rewrite at_char_lowered by (done || lia). cbn [mbind option_bind]. change 1 with (Z.of_nat 1).
  rewrite u64_offset, Nat.add_1_r by lia. apply IH; lia.
Qed.

Lemma lower_words_spec fuel k f o : (0 < k <= 8)%nat -> (o <= length str)%nat -> (length str - o < fuel)%nat -> aligned k o ->
  (forall l, Forall is_byte l -> length l = k -> f (le_word l) = le_word (lower <$> l)) ->
  progress (lower_words fuel k f addr (lowered str o) (Z.of_nat o) (Z.of_nat (length str)))
    (fun o' => (length str < o' + k)%nat /\ exists j, o' = (o + j * k)%nat).
Proof using Hs Hlen.
  intros Hk Ho Hf Ha Hfw. revert o Ho Hf Ha. induction fuel as [|fuel IH]; intros o Ho Hf Ha; [lia|]. cbn [lower_words].
  rewrite u64_offset by lia. destruct (Z.leb_spec (Z.of_nat (o + k)) (Z.of_nat (length str))) as [H|H].
  2: { exists o. split_and!; [done|done|lia|by exists 0%nat; lia]. }
  rewrite at_word_lowered by (done || lia || apply Ha; lia). cbn [mbind option_bind].
  destruct (IH (o + k)%nat) as (o' & -> & Ho' & Hl & j & Hj); [lia|lia| |].
  - intros _. rewrite Nat2Z.inj_add, Z.add_assoc, <- Z.add_mod_idemp_r, Z_mod_same_full, Z.add_0_r by lia. apply Ha. lia.
  - exists o'. split_and!; [done|done|lia|]. exists (S j). lia.
Qed.

Lemma lower_head_spec : 0 <= addr -> progress (lower_head addr str (Z.of_nat (length str))) (aligned 4).
Proof using Hs Hlen.
  intros Ha. unfold lower_head. cbv zeta. rewrite (land_ones_mod _ 2) by lia. change (2 ^ 2) with 4.
  pose proof (Z.mod_pos_bound addr 4 ltac:(lia)) as Hm. destruct (Z.eqb_spec (Z.min (addr mod 4) (Z.of_nat (length str))) 0) as [H|H]; cbn [negb].
  { exists 0%nat. split_and!; [done|lia|]. intros Hl. rewrite Z.add_0_r. change (Z.of_nat 4) with 4. lia. }
  pose proof (at_char_lowered str 0 Hs ltac:(lia)) as H1. change (lowered str 0) with str in H1. change (Z.of_nat 0) with 0 in H1.
  rewrite H1. cbn [mbind option_bind].
  set (n := Z.min (4 - _) _). replace n with (Z.of_nat (Z.to_nat n)) by lia.
  change 1 with (Z.of_nat 1). rewrite lower_chars_spec by lia. exists (Z.to_nat n). split_and!; [done|lia|].
  intros Hl. change (Z.of_nat 4) with 4. assert (En : Z.of_nat (Z.to_nat n) = 4 - addr mod 4) by lia. rewrite En.
  rewrite (Z.div_mod addr 4) at 1 by lia. replace (4 * (addr / 4) + addr mod 4 + (4 - addr mod 4)) with ((addr / 4 + 1) * 4) by lia.
  apply Z.mod_mul. lia.
Qed.

Lemma lower_step32_spec o : (o <= length str)%nat -> aligned 4 o ->
  progress (lower_step32 addr (lowered str o) (Z.of_nat o) (Z.of_nat (length str))) (fun o' => aligned 8 o' /\ aligned 4 o').
Proof using Hs Hlen.
  intros Ho Ha. unfold lower_step32. cbv zeta. rewrite (land_ones_mod _ 3) by lia. unfold wrap at 1.
  rewrite <- Znumtheory.Zmod_div_mod by (lia || by exists (2 ^ 61)). change (2 ^ 3) with 8. change 4 with (Z.of_nat 4).
  rewrite u64_offset by lia. destruct (Z.eqb_spec ((addr + Z.of_nat o) mod 8) 0) as [H|H]; cbn [negb andb].
  { exists o. split_and!; [done|done|by intros _|done]. }
  destruct (Z.leb_spec (Z.of_nat (o + 4)) (Z.of_nat (length str))) as [Hl|Hl].
  2: { exists o. split_and!; [done|done| |done]. intros ?. lia. }
  pose proof (Ha ltac:(lia)) as H4. change (Z.of_nat 4) with 4 in H4.
  rewrite at_word_lowered by (done || lia || exact toLowerAscii32_spec). cbn [mbind option_bind].
  assert (H8 : (addr + Z.of_nat (o + 4)) mod 8 = 0).
  { rewrite Nat2Z.inj_add, Z.add_assoc. change (Z.of_nat 4) with 4. set (x := addr + Z.of_nat o) in *.
    pose proof (Z.div_mod x 4 ltac:(lia)). pose proof (Z.div_mod x 8 ltac:(lia)). pose proof (Z.mod_pos_bound x 8 ltac:(lia)).
    replace (x + 4) with ((x / 8 + 1) * 8) by lia. apply Z.mod_mul. lia. }
  exists (o + 4)%nat. split_and!; [done|lia|by intros ?|]. intros _. by apply mod_8_4.
Qed.
End text.

Lemma toLowerAscii_lower addr str : Forall is_byte str -> 0 <= addr -> Z.of_nat (length str) < 2 ^ 63 ->
  toLowerAscii addr str = Some (lower <$> str).
Proof.
  intros Hs Ha Hl. unfold toLowerAscii. cbv zeta.
  destruct (lower_head_spec addr str Hs Hl Ha) as (o1 & -> & Ho1 & Ha1). cbn [mbind option_bind].
  destruct (lower_step32_spec addr str Hs Hl o1 Ho1 Ha1) as (o2 & -> & Ho2 & Ha2 & Ha2'). cbn [mbind option_bind].
  destruct (lower_words_spec addr str Hs Hl (S (length str)) 8 toLowerAscii64 o2) as (o3 & -> & Ho3 & Hr3 & j & Hj);
    [lia..|done|exact toLowerAscii64_spec|]. cbn [mbind option_bind].
  destruct (lower_words_spec addr str Hs Hl (S (length str)) 4 toLowerAscii32 o3) as (o4 & -> & Ho4 & Hr4 & _);
    [lia..| |exact toLowerAscii32_spec|].
  { intros H. subst o3. pose proof (Ha2' ltac:(lia)) as H4. replace (addr + Z.of_nat (o2 + j * 8)) with (addr + Z.of_nat o2 + Z.of_nat (j * 2) * Z.of_nat 4) by lia.
    by rewrite Z.mod_add by lia. }
  cbn [mbind option_bind]. rewrite lower_chars_spec by (done || lia). cbn [mbind option_bind]. by rewrite lowered_all.
Qed.

(** (C22) [toLowerAscii] lowers the ASCII letters of a text and leaves every other byte, whatever the
    alignment of the text and its length: no character is skipped or converted twice, every word it
    accesses is aligned and inside of the text, and the arithmetic on four or eight characters at a
    time does not carry from one into another. *)
Theorem to_lower_ascii_spec (addr : Z) (str : list Z) : Forall is_byte str -> is_u64 addr -> Z.of_nat (length str) < 2 ^ 63 ->
  toLowerAscii addr str = Some ((fun c => if (65 <=? c) && (c <=? 90) then c + 32 else c) <$> str).
Proof. intros Hs [Ha _] Hl. by apply toLowerAscii_lower. Qed.

Lemma to_lower_ascii_witness : toLowerAscii 1003 [72; 101; 76; 76; 79; 32; 90; 91; 193; 65; 97; 64; 66; 67; 68] =
  Some [104; 101; 108; 108; 111; 32; 122; 91; 193; 97; 97; 64; 98; 99; 100].
Proof.
  apply (to_lower_ascii_spec 1003 [72; 101; 76; 76; 79; 32; 90; 91; 193; 65; 97; 64; 66; 67; 68]);
    [repeat (constructor; [unfold is_uint; lia|]); constructor|unfold is_uint; lia|cbn; lia].
Defined.
