(* ===== verification/StringDump.v ===== *)
(** Hexadecimal dumps of memory ([hexDumpLine] of [String.cpp], [hexDump] of [String-inl.h]): lines of
    sixteen bytes, each with its offset, the bytes in hexadecimal, and the bytes as characters. *)
From S2P Require Import Prelude StringEscape.

(** ** One line *)

Definition push_hex (line : list Z) (d : Z) : option (list Z) := h ← hexValues !! Z.to_nat (d .& 0xf); Some (line ++ [h]).

(** The loop over the [k] bytes from [p + i] on, in hexadecimal. *)
Fixpoint dump_hex (k : nat) (p : list Z) (i : nat) (line : list Z) : option (list Z) :=
  match k with
  | O => Some line
  | S k =>
      let line := if (i =? 8)%nat then line ++ [32] else line in
      let line := line ++ [32] in
      c ← p !! i;
      line ← push_hex line (c .>> 4);
      line ← push_hex line c;
      dump_hex k p (S i) line
  end.

(** The loop over the [k] bytes from [p + i] on, as characters. *)
Fixpoint dump_chars (k : nat) (p : list Z) (i : nat) (line : list Z) : option (list Z) :=
  match k with
  | O => Some line
  | S k =>
      c ← p !! i;
      dump_chars k p (S i) (line ++ [if (32 <=? c) && (c <=? 126) then c else 46])
  end.

(** The line and the number of bytes; undefined if the check of the line's size fails. *)
Definition hexDumpLine (ptr : list Z) (offset size : Z) : option (list Z * Z) :=
  let p := drop (Z.to_nat offset) ptr in
  let n := Z.min (u64 (size - offset)) 16 in
  line ← push_hex [] (offset .>> 28);
  line ← push_hex line (offset .>> 24);
  line ← push_hex line (offset .>> 20);
  line ← push_hex line (offset .>> 16);
  line ← push_hex line (offset .>> 12);
  line ← push_hex line (offset .>> 8);
  line ← push_hex line (offset .>> 4);
  line ← push_hex line offset;
  let line := line ++ [32] in
  line ← dump_hex (Z.to_nat n) p 0 line;
  let line := line ++ replicate (Z.to_nat (3 * (16 - n) + (if n <=? 8 then 1 else 0))) 32 in
  let line := line ++ [32; 32; 124] in
  line ← dump_chars (Z.to_nat n) p 0 line;
  let line := line ++ replicate (Z.to_nat (16 - n)) 32 in
  let line := line ++ [124] in
  if (length line =? 78)%nat then Some (line, n) else None.

(** ** All lines *)

Fixpoint hexDump_loop (fuel : nat) (ptr : list Z) (offset size : Z) (out : list (list Z)) : option (list (list Z)) :=
  match fuel with
  | O => None
  | S fuel =>
      if offset <? size then
        '(line, n) ← hexDumpLine ptr offset size;
        hexDump_loop fuel ptr (u64 (offset + n)) size (out ++ [line])
      else Some out
  end.

Definition hexDump (ptr : list Z) : option (list (list Z)) :=
  hexDump_loop (S (length ptr)) ptr 0 (Z.of_nat (length ptr)) [].

(** ** What a line holds *)

Definition nibble (d : Z) : Z := hex_value (d .& 0xf).

Lemma push_hex_spec line d : push_hex line d = Some (line ++ [nibble d]).
Proof.
  unfold push_hex, nibble. rewrite hexValues_lookup; [done|]. rewrite (land_ones_mod _ 4) by lia. apply Z.mod_pos_bound. lia.
Qed.

(** The hexadecimal columns of the bytes [l] from column [i] on. *)
Fixpoint columns (i : nat) (l : list Z) : list Z :=
  match l with
  | [] => []
  | c :: l => (if (i =? 8)%nat then [32] else []) ++ [32; nibble (c .>> 4); nibble c] ++ columns (S i) l
  end.

Definition shown (c : Z) : Z := if (32 <=? c) && (c <=? 126) then c else 46.

Lemma dump_hex_spec k p i line : (i + k <= length p)%nat ->
  dump_hex k p i line = Some (line ++ columns i (take k (drop i p))).
Proof.
  revert i line. induction k as [|k IH]; intros i line Hk; cbn [dump_hex]; [by rewrite app_nil_r|]. cbv zeta.
  destruct (lookup_lt_is_Some_2 p i) as [c Hc]; [lia|]. rewrite Hc, (drop_S _ _ _ Hc). cbn [mbind option_bind].
  rewrite push_hex_spec. cbn [mbind option_bind]. rewrite push_hex_spec. cbn [mbind option_bind]. rewrite IH by lia.
  cbn [take columns]. destruct (i =? 8)%nat; by rewrite <- !app_assoc.
Qed.

Lemma dump_chars_spec k p i line : (i + k <= length p)%nat ->
  dump_chars k p i line = Some (line ++ (shown <$> take k (drop i p))).
Proof.
  revert i line. induction k as [|k IH]; intros i line Hk; cbn [dump_chars]; [by rewrite app_nil_r|].
  destruct (lookup_lt_is_Some_2 p i) as [c Hc]; [lia|]. rewrite Hc, (drop_S _ _ _ Hc). cbn [mbind option_bind]. rewrite IH by lia.
  cbn [take fmap list_fmap]. by rewrite <- !app_assoc.
Qed.

(** The eight digits of the offset. *)
Definition address (offset : Z) : list Z :=
  [nibble (offset .>> 28); nibble (offset .>> 24); nibble (offset .>> 20); nibble (offset .>> 16);
   nibble (offset .>> 12); nibble (offset .>> 8); nibble (offset .>> 4); nibble offset].

(** The line of the bytes [l], at most sixteen. *)
Definition dump_line (offset : Z) (l : list Z) : list Z :=
  let n := length l in
  address offset ++ [32] ++ columns 0 l ++ replicate (3 * (16 - n) + (if (n <=? 8)%nat then 1 else 0)) 32 ++ [32; 32; 124] ++
  (shown <$> l) ++ replicate (16 - n) 32 ++ [124].

Lemma length_columns i l : length (columns i l) = (3 * length l + (if decide (i <= 8 < i + length l)%nat then 1 else 0))%nat.
Proof.
  revert i. induction l as [|c l IH]; intros i; cbn [columns length].
  { destruct (decide _); [lia|done]. }
  rewrite !length_app, IH. cbn [length]. destruct (Nat.eqb_spec i 8); cbn [length]; repeat destruct (decide _); lia.
Qed.

Lemma length_dump_line offset l : (length l <= 16)%nat -> length (dump_line offset l) = 78%nat.
Proof.
  intros Hl. unfold dump_line. cbv zeta. rewrite !length_app, !length_replicate, length_fmap, length_columns. cbn [length address].
  destruct (decide _), (Nat.leb_spec (length l) 8); lia.
Qed.

Lemma hexDumpLine_spec ptr (o : nat) : (o < length ptr)%nat -> Z.of_nat (length ptr) < 2 ^ 64 ->
  let l := take 16 (drop o ptr) in
  hexDumpLine ptr (Z.of_nat o) (Z.of_nat (length ptr)) = Some (dump_line (Z.of_nat o) l, Z.of_nat (length l)).
Proof.
  intros Ho Hl l. assert (Hn : length l = Nat.min 16 (length ptr - o)) by (unfold l; by rewrite length_take, length_drop).
  unfold hexDumpLine. cbv zeta. rewrite wrap_small, Nat2Z.id by (unfold is_uint; lia).
  replace (Z.min (Z.of_nat (length ptr) - Z.of_nat o) 16) with (Z.of_nat (length l)) by lia. rewrite Nat2Z.id.
  do 8 (rewrite push_hex_spec; cbn [mbind option_bind]). rewrite dump_hex_spec by (rewrite length_drop; lia). cbn [mbind option_bind].
  rewrite dump_chars_spec by (rewrite length_drop; lia). cbn [mbind option_bind]. rewrite drop_0.
  replace (take (length l) (drop o ptr)) with l by (unfold l; rewrite length_take, <- take_take, firstn_all; done).
  pose proof (length_dump_line (Z.of_nat o) l ltac:(lia)) as H78. unfold dump_line, address in H78 |- *. cbv zeta in H78 |- *.
  rewrite <- !app_assoc. cbn [app] in H78 |- *.
  replace (Z.to_nat (3 * (16 - Z.of_nat (length l)) + (if Z.of_nat (length l) <=? 8 then 1 else 0)))
    with (3 * (16 - length l) + (if (length l <=? 8)%nat then 1 else 0))%nat
    by (destruct (Z.leb_spec (Z.of_nat (length l)) 8), (Nat.leb_spec (length l) 8); lia).
  replace (Z.to_nat (16 - Z.of_nat (length l))) with (16 - length l)%nat by lia. by rewrite H78.
Qed.

(** ** Reading a dump *)

(** Where a line has the digits of its byte [i]. *)
Definition column (i : nat) : nat := (10 + 3 * i + (if (i <? 8)%nat then 0 else 1))%nat.

(** The bytes of a line from column [i] on, up to the first blank one. *)
Fixpoint read_columns (k i : nat) (line : list Z) : list Z :=
  match k with
  | O => []
  | S k =>
      match line !! column i, line !! S (column i) with
      | Some a, Some b => if a =? 32 then [] else match hex_byte a b with Some c => c :: read_columns k (S i) line | None => [] end
      | _, _ => []
      end
  end.

Definition read_line (line : list Z) : list Z := read_columns 16 0 line.

Lemma nibble_not_blank d : (nibble d =? 32) = false.
Proof.
  unfold nibble. rewrite (land_ones_mod _ 4) by lia. pose proof (Z.mod_pos_bound d (2 ^ 4) ltac:(lia)) as Hd.
  assert (H : negb (hex_value (d mod 2 ^ 4) =? 32) || negb (d mod 2 ^ 4 <? 16) = true).
  { apply (byte_forall (fun d => negb (hex_value d =? 32) || negb (d <? 16))); [by vm_compute|]. unfold is_uint. lia. }
  rewrite (proj2 (Z.ltb_lt _ 16)) in H by lia. by destruct (_ =? 32).
Qed.

Lemma nibble_byte c : is_byte c -> hex_byte (nibble (c .>> 4)) (nibble c) = Some c.
Proof.
  intros Hc. assert (H : match hex_byte (nibble (c .>> 4)) (nibble c) with Some d => d =? c | None => false end = true).
  { apply (byte_forall (fun c => match hex_byte (nibble (c .>> 4)) (nibble c) with Some d => d =? c | None => false end)); [by vm_compute|done]. }
  destruct (hex_byte _ _); [|done]. apply Z.eqb_eq in H. by subst.
Qed.

(** How much of a line is in front of byte [i], without the blank between the two halves. *)
Definition front (i : nat) : nat := (9 + 3 * i + (if (i <=? 8)%nat then 0 else 1))%nat.

Lemma read_columns_spec k i pre l post : Forall is_byte l -> (length l <= k)%nat -> length pre = front i ->
  (length l = k \/ exists rest, post = 32 :: 32 :: 32 :: rest) -> (i + k = 16)%nat ->
  read_columns k i (pre ++ columns i l ++ post) = l.
Proof.
  intros Hl. revert k i pre. induction Hl as [|c l Hc Hl IH]; intros k i pre Hk Hpre Hpost Hi.
  { destruct k as [|k]; [done|]. destruct Hpost as [|[rest ->]]; [done|]. cbn [read_columns columns app].
    assert (Hcol : column i = (length pre + 1)%nat \/ column i = (length pre + 2)%nat).
    { rewrite Hpre. unfold column, front. destruct (Nat.ltb_spec i 8), (Nat.leb_spec i 8); lia. }
    assert (Hget : forall j, (pre ++ 32 :: 32 :: 32 :: rest) !! (length pre + j)%nat = (32 :: 32 :: 32 :: rest) !! j)
      by (intros j; rewrite lookup_app_r by lia; f_equal; lia).
    destruct Hcol as [-> | ->]; rewrite plus_n_Sm, !Hget; cbn; [done|]. by destruct (rest !! 0%nat). }
  destruct k as [|k]; [cbn in Hk; lia|]. cbn [read_columns columns].
  set (gap := if (i =? 8)%nat then [32] else []). set (new := gap ++ [32; nibble (c .>> 4); nibble c]).
  assert (Hcol : column i = (length pre + length gap + 1)%nat).
  { unfold column, gap. rewrite Hpre. unfold front. destruct (Nat.eqb_spec i 8), (Nat.ltb_spec i 8), (Nat.leb_spec i 8); cbn [length]; lia. }
  assert (Hget : forall j, (pre ++ (gap ++ [32; nibble (c .>> 4); nibble c] ++ columns (S i) l) ++ post) !! (length pre + length gap + j)%nat
    = ([32; nibble (c .>> 4); nibble c] ++ columns (S i) l ++ post) !! j).
  { intros j. rewrite <- !app_assoc, (app_assoc pre gap). rewrite lookup_app_r, length_app by (rewrite length_app; lia). f_equal. lia. }
  rewrite Hcol, Hget. replace (S (length pre + length gap + 1)) with (length pre + length gap + 2)%nat by lia. rewrite Hget.
  cbn [app lookup list_lookup]. rewrite nibble_not_blank, nibble_byte by done. f_equal.
  replace (pre ++ (gap ++ 32 :: nibble (c .>> 4) :: nibble c :: columns (S i) l) ++ post) with ((pre ++ new) ++ columns (S i) l ++ post)
    by (unfold new; by rewrite <- !app_assoc).
  apply IH; [cbn in Hk; lia| |destruct Hpost as [?|?]; [left; cbn in *; lia|by right]|lia].
  unfold new. rewrite !length_app, Hpre. unfold gap, front. destruct (Nat.eqb_spec i 8), (Nat.leb_spec i 8), (Nat.leb_spec (S i) 8); cbn [length]; lia.
Qed.

Lemma read_line_spec offset l : Forall is_byte l -> (length l <= 16)%nat -> read_line (dump_line offset l) = l.
Proof.
  intros Hl Hn. unfold read_line, dump_line. cbv zeta. rewrite (app_assoc (address offset)). apply read_columns_spec; [done|done|done| |done].
  destruct (decide (length l = 16%nat)) as [|Hlt]; [by left|right].
  replace (3 * (16 - length l) + (if (length l <=? 8)%nat then 1 else 0))%nat
    with (3 + (3 * (15 - length l) + (if (length l <=? 8)%nat then 1 else 0)))%nat by lia. by eexists.
Qed.

(** The digits of the offset are those of its four bytes. *)
Lemma nibble_byte_at o k j : 0 <= j <= 4 -> nibble (o .>> (8 * Z.of_nat k + j)) = nibble (byte_at o k .>> j).
Proof.
  intros Hj. unfold nibble. f_equal. apply Z.bits_inj'. intros i Hi. rewrite !Z.land_spec. destruct (Z.ltb_spec i 4) as [H|H].
  - rewrite !Z.shiftr_spec, testbit_byte_at by lia. do 2 f_equal. lia.
  - assert (Z.testbit 15 i = false) as ->; [|by rewrite !andb_false_r]. apply (testbit_high 15 4); [unfold is_uint; lia|lia].
Qed.

Lemma address_spec o : hex_bytes (address o) = Some [byte_at o 3; byte_at o 2; byte_at o 1; byte_at o 0].
Proof.
  assert (H : forall k a b, a = 8 * Z.of_nat k + 4 -> b = 8 * Z.of_nat k + 0 -> hex_byte (nibble (o .>> a)) (nibble (o .>> b)) = Some (byte_at o k)).
  { intros k a b -> ->. rewrite !nibble_byte_at, Z.shiftr_0_r by lia. apply nibble_byte, byte_at_byte. }
  unfold address. cbn [hex_bytes]. rewrite (H 3%nat 28 24), (H 2%nat 20 16), (H 1%nat 12 8) by lia.
  pose proof (H 0%nat 4 0 eq_refl eq_refl) as H0. rewrite Z.shiftr_0_r in H0. by rewrite H0.
Qed.

Lemma dump_line_address offset l : take 8 (dump_line offset l) = address offset.
Proof. done. Qed.

Lemma dump_line_shown offset l : (length l <= 16)%nat ->
  take 16 (drop 61 (dump_line offset l)) = (shown <$> l) ++ replicate (16 - length l) 32.
Proof.
  intros Hl. unfold dump_line. cbv zeta. set (a := replicate (_ + _) 32). set (post := replicate (16 - length l) 32).
  assert (Hpre : length (address offset ++ [32] ++ columns 0 l ++ a ++ [32; 32; 124]) = 61%nat).
  { unfold a. rewrite !length_app, length_replicate, length_columns. cbn [length address]. destruct (decide _), (Nat.leb_spec (length l) 8); lia. }
  replace (address offset ++ _) with ((address offset ++ [32] ++ columns 0 l ++ a ++ [32; 32; 124]) ++ ((shown <$> l) ++ post) ++ [124])
    by (by rewrite <- !app_assoc).
  rewrite drop_app_length' by done. apply take_app_length'. unfold post. rewrite length_app, length_fmap, length_replicate. lia.
Qed.

Definition nibbles_of (c : Z) : list Z := [32; nibble (c .>> 4); nibble c].

Lemma nibbles_of_printable c : is_byte c -> Forall (fun c => printable c = true) (nibbles_of c).
Proof. apply byte_forall_chars. by vm_compute. Qed.

Lemma columns_printable i l : Forall is_byte l -> Forall (fun c => printable c = true) (columns i l).
Proof.
  intros Hl. revert i. induction Hl as [|c l Hc Hl IH]; intros i; [constructor|]. cbn [columns]. fold (nibbles_of c).
  apply Forall_app. split; [destruct (i =? 8)%nat; repeat constructor|]. apply Forall_app. split; [by apply nibbles_of_printable|done].
Qed.

Lemma nibble_printable d : printable (nibble d) = true.
Proof.
  pose proof (nibble_byte_at d 0 0 ltac:(lia)) as H. change (8 * Z.of_nat 0 + 0) with 0 in H. rewrite !Z.shiftr_0_r in H. rewrite H.
  apply (byte_forall (fun c => printable (nibble c))); [by vm_compute|apply byte_at_byte].
Qed.

Lemma dump_line_printable offset l : Forall is_byte l -> Forall (fun c => printable c = true) (dump_line offset l).
Proof.
  intros Hl. assert (Ha : Forall (fun c => printable c = true) (address offset)) by (repeat (constructor; [apply nibble_printable|]); constructor).
  assert (Hr : forall n, Forall (fun c => printable c = true) (replicate n 32)) by (intros n; by apply Forall_replicate).
  assert (Hc : Forall (fun c => printable c = true) (shown <$> l)).
  { apply Forall_fmap. eapply Forall_impl; [exact Hl|]. intros c _. change (printable (shown c) = true). unfold shown. destruct (_ && _) eqn:E; [exact E|done]. }
  unfold dump_line. cbv zeta. rewrite !Forall_app. split_and!; try done; try by repeat constructor. by apply columns_printable.
Qed.

(** The lines of the bytes [l], from the offset [o] on. *)
Fixpoint is_dump (o : nat) (lines : list (list Z)) (l : list Z) : Prop :=
  match lines with
  | [] => l = []
  | line :: lines => line = dump_line (Z.of_nat o) (take 16 l) /\ l <> [] /\ is_dump (o + 16) lines (drop 16 l)
  end.

Lemma hexDump_loop_spec fuel ptr o out : Z.of_nat (length ptr) < 2 ^ 64 -> (o <= length ptr)%nat -> (length ptr - o < fuel)%nat ->
  exists lines, hexDump_loop fuel ptr (Z.of_nat o) (Z.of_nat (length ptr)) out = Some (out ++ lines) /\ is_dump o lines (drop o ptr).
Proof.
  intros Hl. revert o out. induction fuel as [|fuel IH]; intros o out Ho Hf; [lia|]. cbn [hexDump_loop].
  destruct (Z.ltb_spec (Z.of_nat o) (Z.of_nat (length ptr))) as [H|H].
  2: { exists []. rewrite app_nil_r. split; [done|]. cbn. apply drop_ge. lia. }
  rewrite hexDumpLine_spec by lia. cbn [mbind option_bind]. set (l := take 16 (drop o ptr)).
  assert (Hn : length l = Nat.min 16 (length ptr - o)) by (unfold l; by rewrite length_take, length_drop).
  rewrite wrap_small by (unfold is_uint; lia). rewrite <- Nat2Z.inj_add.
  destruct (IH (o + length l)%nat (out ++ [dump_line (Z.of_nat o) l])) as (lines & -> & Hd); [lia|lia|].
  exists (dump_line (Z.of_nat o) l :: lines). rewrite <- app_assoc. split; [done|]. cbn [is_dump]. split_and!; [done| |].
  - intros E. apply (f_equal length) in E. rewrite length_drop in E. cbn in E. lia.
  - destruct (decide (length l = 16%nat)) as [E|E]; [by rewrite drop_drop, <- E|].
    rewrite (drop_ge ptr (o + length l)) in Hd by lia. rewrite drop_drop, drop_ge by lia. by destruct lines as [|? ?]; [|destruct Hd as (_ & ? & _)].
Qed.

Lemma is_dump_lines o lines l : is_dump o lines l -> Forall is_byte l ->
  concat (read_line <$> lines) = l /\
  (forall j line, lines !! j = Some line -> line = dump_line (Z.of_nat (o + 16 * j)) (read_line line) /\
     Forall is_byte (read_line line) /\ (length (read_line line) <= 16)%nat /\ (S j < length lines -> length (read_line line) = 16)%nat).
Proof.
  revert o l. induction lines as [|line lines IH]; intros o l; cbn [is_dump]; [by intros -> _|]. intros (-> & Hne & Hd) Hl.
  destruct (IH _ _ Hd ltac:(by apply Forall_drop)) as [Hc Hj]. cbn [fmap list_fmap concat].
  assert (Hr : read_line (dump_line (Z.of_nat o) (take 16 l)) = take 16 l)
    by (apply read_line_spec; [by apply Forall_take|rewrite length_take; lia]).
  split; [by rewrite Hr, Hc, take_drop|]. intros [|j] line; cbn [lookup list_lookup].
  - intros [= <-]. rewrite Hr, Nat.add_0_r. split_and!; [done|by apply Forall_take|rewrite length_take; lia|].
    destruct lines as [|line lines]; [cbn; lia|]. intros _. destruct Hd as (_ & Hd & _). rewrite length_take.
    destruct (decide (length l < 16)%nat); [|lia]. by rewrite drop_ge in Hd by lia.
  - intros Hline. destruct (Hj j line Hline) as (E & ? & ? & Hlt). split_and!; [|done|done|intros; apply Hlt; cbn in *; lia].
    by replace (o + 16 * S j)%nat with (o + 16 + 16 * j)%nat by lia.
Qed.

(** (C30) [hexDump] dumps every byte of a memory area, sixteen a line but for the last line: the bytes
    can be read back from the hexadecimal columns of the lines.  Each line has 78 printable
    characters (the check at its end holds), starts with the low 32 bits of the offset of its first
    byte, and has its bytes as characters behind the columns, with a period for an unprintable one. *)
Theorem hex_dump_reads_back (ptr : list Z) : Forall is_byte ptr -> Z.of_nat (length ptr) < 2 ^ 64 ->
  exists lines, hexDump ptr = Some lines /\ concat (read_line <$> lines) = ptr /\
    forall j line, lines !! j = Some line ->
      length line = 78%nat /\ Forall (fun c => printable c = true) line /\
      hex_bytes (take 8 line) = Some (reverse (bytes32 (Z.of_nat (16 * j)))) /\
      (S j < length lines -> length (read_line line) = 16)%nat /\
      take 16 (drop 61 line) = (shown <$> read_line line) ++ replicate (16 - length (read_line line)) 32.
Proof.
  intros Hp Hl. destruct (hexDump_loop_spec (S (length ptr)) ptr 0 [] Hl ltac:(lia) ltac:(lia)) as (lines & E & Hd).
  rewrite drop_0 in Hd. destruct (is_dump_lines _ _ _ Hd Hp) as [Hc Hj]. exists lines. split_and!; [done|done|].
  intros j line Hline. destruct (Hj j line Hline) as (El & Hb & Hn & H16). cbn [Nat.add] in El.
  set (l := read_line line) in *. clearbody l. subst line.
  split_and!; [by apply length_dump_line|by apply dump_line_printable| |done|by apply dump_line_shown].
  rewrite dump_line_address. apply address_spec.
Qed.

Lemma hex_dump_reads_back_witness : exists lines, hexDump [97; 2; 255] = Some lines /\ concat (read_line <$> lines) = [97; 2; 255].
Proof.
  destruct (hex_dump_reads_back [97; 2; 255]) as (lines & H & Hc & _);
    [repeat (constructor; [unfold is_uint; lia|]); constructor|cbn; lia|]. by exists lines.
Defined.
